(* ===== verification/_CoqProject ===== *)
-Q . S2P
Prelude.v
GoStrings.v
Regex.v
GoPath.v
Authz.v
AuthzPolicy.v
AuthzServer.v
AuthzTokens.v
DslNames.v
DslTypes.v
DslSecurity.v
DslMatrix.v
DslCondition.v
DslValidate.v
DslKinds.v
AgentSteps.v
Threads.v
AgentRun.v
AgentFacts.v
AgentProtocol.v
AgentOutcome.v
AgentPhases.v
StoreRuns.v
StoreLocks.v
StoreLife.v
StoreSpec.v
StoreSweep.v
RunControl.v
RunControlFacts.v
AgentGuard.v
SecretRefs.v
GitInline.v
GitResolve.v
GitFacts.v
ClaimBuild.v
Schedulability.v
AgentClaim.v
RunText.v
RunCreate.v
Schedules.v
GitPending.v
LogStore.v
LogLife.v
AgentIds.v
AgentPolicies.v
AgentProof.v
AgentEnroll.v
AgentIdsFacts.v
AgentEnrollFacts.v
Resources.v
AppSync.v
AppSyncFacts.v
DirectWrites.v
Programs.v
VolumeChoice.v
Volumes.v
VolumesFacts.v
VolumePlaces.v
VolumePlacesFacts.v
VolumeMounts.v
K8sVolumes.v
K8sLocks.v
PodSpecs.v
PodPolicy.v
PodPolicyFacts.v
PodBuilder.v
PodFacts.v
PodPool.v
PodPoolFacts.v
PodPoolRuns.v
Masker.v
LogPusher.v
Cache.v
Archive.v
ArchiveFacts.v
Credentials.v
CredentialsFacts.v
AgentLoop.v
AgentFleet.v
