(* ===== verification/Prelude.v ===== *)
(** * unified-cd: a verification development

    unified-cd runs CI jobs: a controller keeps jobs and runs in PostgreSQL and
    serves an HTTP API, agents claim runs and execute their steps.  This library
    models the decisions of that program (Go, under [src/internal]) as functions
    and step relations and proves what they promise.

    ** The parts and where they are modelled

    - Foundations.  [Prelude] (this file): errors, loops that may fail,
      automation, generic lemmas.  [GoStrings], [GoPath], [Regex]: the parts of
      Go's standard library the code calls.
    - Authorization ([internal/authz], [internal/controller]).  [Authz]: the
      permission catalogue, permission sets, folders and grants
      ([catalogue.go], [set.go], [folder.go], [grants.go]).  [AuthzPolicy]: the
      OIDC policy ([policy.go], [describe.go]).  [AuthzServer]: roles and
      principals ([rbac.go], [auth.go]), the route table ([authz_routes.go]) and
      the middleware ([authz_decide.go]).  [AuthzTokens]: [api_tokens.go].
    - The job document ([internal/dsl]).  [DslTypes]: its data ([types.go]).
      [DslNames]: names, paths, labels, repository URLs.  [DslSecurity]: security
      contexts and the capabilities a run needs.  [DslMatrix]: foreach and
      matrix.  [DslCondition]: [if:] conditions.  [DslValidate]: [Job.Validate]
      and all it calls.  [DslKinds]: the other kinds of document
      ([appsource_parse.go] and its siblings).  [SecretRefs]: references to secrets in templates
      ([secretrefs.go], [secretrefs_ast.go]).
    - Remote templates ([internal/gittemplate]).  [GitInline]: one [uses:] step
      inlined ([inline.go]).  [GitResolve]: the recursion, the template kind and
      the merge into the caller ([resolve.go], [uri.go], [dsl/jobtemplate.go]).
      [GitFacts]: their theorems.
    - The store ([internal/store/postgres.go]).  [StoreRuns]: runs, mutexes,
      semaphores, step reports; a function per statement or transaction.
      [StoreLocks], [StoreLife]: the facts on locks and the invariant of the
      reachable databases.  [StoreSpec]: the abstract lock manager and the
      refinement.  [StoreSweep]: the scheduler's sweep ([scheduler.go]).
    - The controller's use of the store ([internal/controller]).  [RunControl]
      and [RunControlFacts]: cancellation and the reapers ([api_runs.go],
      [queuedrun_reaper.go], [stuckrun_reaper.go]).  [AgentGuard]: what an agent
      may write ([agent_guard.go], [api_agent.go]).  [ClaimBuild]: parameters
      and the claim built from a stored job ([params.go], [planned_steps.go]).
      [Schedulability]: the verdict shown for a job ([schedulability.go]).
      [AgentClaim]: the claim poll and the heartbeat ([api_agent.go]).
    - Where runs come from ([internal/controller]).  [RunText]: storable text,
      display names, preparation of the stored specification
      ([agent_text_sanitize.go], [run_display_name.go], [run_secret_refs.go]).
      [RunCreate]: triggers, child runs, replays, webhooks ([api_runs.go],
      [api_webhooks.go]).  [Schedules]: cron schedules ([scheduler.go]).
      [GitPending]: the template resolver loop ([failure_backoff.go],
      [scheduler.go]).
    - Declared resources.  [Resources]: the tables of jobs, schedules, webhook
      receivers, credentials, variables and sources ([postgres.go]).  [AppSync]:
      their synchronization from Git ([appsource_reconciler.go],
      [appsource_apply.go]).  [DirectWrites]: the guard and the handlers
      ([managed_guard.go], [api_jobs.go] and its siblings), with their theorems.
      [AppSyncFacts]: the theorems of the synchronization.
    - Agents and their credentials.  [AgentIds]: the tables of identities,
      credentials and one-time tokens and the transactions on them
      ([postgres_agent_auth.go]).  [AgentPolicies]: enrollment policies.
      [AgentProof]: token texts ([agentauth/token.go]) and the proofs of the
      workload platforms ([agent_enrollment_cloud.go], [_aws.go],
      [kubernetes_token.go]).  [AgentEnroll]: the handlers and the middleware
      ([api_agent_enrollment.go], [agent_auth.go]).  [AgentIdsFacts],
      [AgentEnrollFacts]: the invariant and the theorems.
    - Logs.  [LogStore]: log rows, archives and their readers ([postgres.go],
      [archived_logs.go]).  [LogLife]: appends, the archiver, the trimmer,
      deletions and readers interleaved ([archiver.go], [log_trim.go],
      [run_retention.go]).
    - The agent's step loop ([internal/agent]).  [AgentSteps]: the claim's wire types,
      environments and outputs.  [Threads]: goroutines over a shared state.
      [AgentRun]: the step loop ([orchestrator.go], [pipeline.go],
      [callstep.go], [approval.go]).  [AgentFacts], [AgentOutcome],
      [AgentProtocol], [AgentPhases]: its theorems.
    - Around the step loop ([internal/agent]).  [Programs]: programs over
      requests that another party answers, and their traces; what follows is
      written in it.  [AgentLoop]: an iteration of the claim loop, executing and
      failing a claim, retrying, the gates on free disk, the startup
      ([agent.go], [retry.go], [volume_gate.go]).  [AgentFleet]: slots, the set
      of reported runs, heartbeats, crashes and the store interleaved.
      [Credentials], [CredentialsFacts]: the refresh credential on the disk
      ([credentials.go]) against crashes and the controller's rotation.
      [LogPusher], on [Masker] ([internal/secrets/masker.go]): the lines of a
      step on their way to the controller ([runner.go]).
    - Volumes of a host agent ([internal/agent]).  [VolumeChoice]: the search
      that assigns volumes to a claim.  [Volumes], [VolumesFacts]: the table of
      reservations ([volumes.go]).  [VolumePlaces], [VolumePlacesFacts]: where
      volumes may lie, workspaces, what the sweeps remove ([config/agent.go],
      [workspace.go], [workspace_gc.go]).  [VolumeMounts]: mounting, links and
      their registry ([volumes_mount.go]).
    - The Kubernetes agent ([internal/k8sagent]).  [K8sVolumes], [K8sLocks]: the
      lock on a volume claim and the creation of pods by any number of replicas
      ([volumes.go], [volumes_lock.go]).  [PodSpecs]: pods.  [PodPolicy],
      [PodPolicyFacts]: what a job's pod may ask for ([podpolicy.go],
      [podmountpaths.go]).  [PodBuilder], [PodFacts]: the pod that is built
      ([podbuilder.go]).  [PodPool], [PodPoolFacts], [PodPoolRuns]: pods kept for
      later runs and their collection ([pool.go], [podgc.go]).
    - What steps keep.  [Cache]: entries of the cache ([internal/cache]).
      [Archive], [ArchiveFacts]: archives of a workspace, over a file system
      with links ([internal/artifact]).

    A definition bears the name of the Go function it translates where there is
    one; a record field is the Go field with a short prefix.  A function that
    returns an error returns [res] (or [outcome] where an error may be retried);
    a handler returns its status code and the state after it.

    ** How the parts interact

    An applied job is checked by [Job_Validate].  A run of it is a row of
    [StoreRuns], Pending; if it uses templates, [ResolveSpec] rewrites its
    specification.  The scheduler's sweep queues it once its locks are taken
    ([tryQueueRun]); an agent whose labels, capabilities and volumes suit claims
    it ([claimNextRun]), executes it ([RunClaim]) and sends reports, which
    [AgentGuard] checks, and its final status, which frees the locks
    ([finishRunFrom]).  Cancellation and the reapers end runs from outside.
    On a host the claim passes [iteration]: its volumes are reserved
    ([ReserveSet_pass]), its workspace prepared, its volumes mounted, and the run
    is in the reported set throughout, so that no heartbeat has it failed as lost
    ([ListReconcilableRunIDsByAgent]).  On Kubernetes its volumes are locked and its
    pod is checked ([CheckJobPodTemplate]), built ([BuildPod]) or taken from the
    pool ([ClaimPod]).  Its output goes through [Masker] and [LogPusher] to
    [LogStore], its caches and artifacts through [Archive].
    Every request first passes [authorize].

    ** What the theorems show

    - Runs and locks: each store operation refines one move of an abstract lock
      manager; mutual exclusion; the bound on semaphores; exact finishing and
      claiming; no Pending run starves; cancelling ends and is exact; a run is
      not failed on a missing agent row alone.
    - Agent writes: the cached ownership check is the check, and reports change
      only the agent's own live runs.
    - Claims: a poll, interleaved with the rest of the store call by call, hands its
      run out, gives it back or fails it; the claim carries the stored job field by
      field; heartbeats spare what is not theirs, the verdict on schedulability agrees
      with claiming.
    - Creation: every way to create a run checks its parameters and routes it;
      webhooks are authenticated; each occurrence of a schedule is decided once, and
      a due one when the scheduler ticks;
      the resolver loop decides or backs off.
    - Resources: a sync leaves what the tree declares and touches nothing else; no
      request changes what Git manages.
    - Agents: an enrollment token serves once, revocation is final, a replayed
      refresh credential ends its family once its overlap is over, workloads enroll within their policy,
      and the tables stay well formed.
    - Logs: no stored line is lost between the table and the archive, also when
      statements end while the trimmer is at work; and readers cannot tell whether a
      run is trimmed.
    - The claim loop: a run a slot works at is reported, its directory and volumes
      are its own, no heartbeat has it failed, and whatever fails or panics its
      claim ends with everything released and its end settled.
    - Credentials: what the agent presents and what the disk keeps was not revoked by
      the controller, which exchanges it while its overlap lasts, through crashes,
      power failures and lost answers.
    - Output: the lines of a step are sent whole, in order, until acknowledged or
      counted as dropped, and show no secret value or encoding of one.
    - Volumes: reservations exclude one another, leak nothing, lose no wake-up and
      never deadlock; the search is exact; nothing removes a declared volume.
    - Kubernetes: one run per exclusive volume and per pooled pod, which is the pod
      its claim describes; a pod that is built stays within the policy, whatever
      volumes the operator's template declares, and away from the directories and
      credentials of the sidecar.
    - Archives and caches: what is archived is restored, extraction stays in its
      root, a cache entry is restored only by the job that saved it.
    - The step loop: the final status and what it says of both phases, the exact
      reports of a step, the retry budget of both phases, skipping, the drain of hooks, what is published; all for every
      interleaving and every behaviour of the environment.
    - Templates and secrets: resolution ends, is acyclic and bounded; inlined
      steps obey the caller; merging redefines nothing; references to secrets are
      static and complete.
    - Documents: accepted jobs are well formed; matrix expansion is exact;
      conditions fail closed; hosts honour what they may claim.
    - Authorization: the middleware lets through exactly what it should, hides
      what it must, audits truthfully; tokens never escalate; the ways to ask
      about a permission agree; policies mean what they say.

    ** Bounds and fuel

    Recursion that is not structural has an explicit measure, and no theorem is
    about a run that stopped for lack of it.  [cascade] has one unit more than
    there are step reports, which bound the runs that can enter its queue
    ([cancel_run_exact] proves that it returns).  [resolveSteps] has
    [maxUsesDepth + 1] levels, the code's own limit, beyond which the code fails
    as the model does.  [replace_actions], [Unquote] and the scanners over
    strings have the length of the string.  An archive holds at most
    [archive_cap] lines, the code's cap, and what is longer is never trimmed; a
    backoff is at most an hour.  Threads run on arbitrary schedules.  [walk] has
    the depth of the tree, shown to be enough ([archive_roundtrip]).  [retry_from] makes at most [fuel] attempts, for any
    [fuel]; past them it makes a request nobody answers, as the loop in the code
    that never ends, so that no theorem has it return.

    ** What is not modelled, and why

    - Third-party and generated code is a parameter, with named hypotheses where
      its behaviour matters: cel-go, yaml.v3, text/template, JSON and cron
      parsing, pgx, go-git, client-go, OIDC, STS, hashing, identifiers, clocks.
    - The Azure verifier, which folds letters outside ASCII.
    - A database error rolls a transaction back; it is a step that does nothing,
      or a verdict the code goes on after.
    - HTTP decoding and encoding, logs, metrics, traces and advisory locks.
    - Process and container control ([backend_host.go], [claim_pod.go],
      [k8sagent/backend.go], [runtime], [shim]), the web UI and the command line:
      system calls and other systems' objects.  The file system, the object store
      and the Kubernetes API are modelled as far as the parts above use them.
    - The sampler of free disk: its readings are arbitrary answers.
    - A nil and an empty slice or map are one value, except where the code tells
      them apart; a [float64] timeout of a step or an approval is the rational it is,
      and only decides what the environment answers; the timeout of a job is left out.
    - Panics are modelled where the orchestrator recovers them (running a script,
      transfers, the cache, provisioning and resolving a scope); expanding a template
      is assumed not to panic.
    - A reader of archived logs fails when the object is gone; a slow or unreadable
      object, which gets the same answer, and the memory of decoded archives are not
      modelled.
    - Go's iteration order over a map is a parameter or a fixed order where it
      only decides which of several errors is reported. *)

From Stdlib Require Export Ascii.
From stdpp Require Export sorting.
From stdpp Require Export base pretty strings numbers list gmap.

(** ** Errors and results *)

(** The Go code formats its messages with [fmt.Errorf] and [fmt.Sprintf].  A
    [text] is such a message with the arguments of its [%q] verbs kept apart:
    [Lit s] is literal text (or a [%s] argument), [Quo s] an argument printed
    with [%q] or [strconv.Quote].  Concatenating texts concatenates the
    rendered strings, and [%w] is concatenation. *)
Inductive frag :=
| Lit (s : string)
| Quo (s : string).

#[export] Instance frag_eq_dec : EqDecision frag.
Proof. solve_decision. Defined.

Abbreviation text := (list frag) (only parsing).

(** [render q t] is the printed message, for a quoting function [q]. *)
Fixpoint render (q : string → string) (t : text) : string :=
  match t with
  | [] => ""
  | Lit s :: t' => s +:+ render q t'
  | Quo s :: t' => q s +:+ render q t'
  end.

(** A Go function returning [(A, error)]: [Ok a] stands for [(a, nil)], [Err e]
    for a non-nil error whose text is [e]. *)
Inductive res (A : Type) :=
| Ok (a : A)
| Err (e : text).
Arguments Ok {A} a.
Arguments Err {A} e.

#[export] Instance res_ret : MRet res := @Ok.
#[export] Instance res_bind : MBind res := λ A B f m,
  match m with Ok a => f a | Err e => Err e end.
#[export] Instance res_fmap : FMap res := λ A B f m,
  match m with Ok a => Ok (f a) | Err e => Err e end.

(** [wrap pre r] is [if err != nil { return fmt.Errorf("pre%w", err) }]. *)
Definition wrap {A} (pre : text) (r : res A) : res A :=
  match r with Ok a => Ok a | Err e => Err (pre ++ e) end.

(** [guard b e] is [if b { return e }]. *)
Definition fail_if (b : bool) (e : text) : res unit :=
  if b then Err e else Ok tt.

Definition is_ok {A} (r : res A) : bool :=
  match r with Ok _ => true | Err _ => false end.

(** A loop whose body may return an error and otherwise continues, with the
    loop index ([for i, x := range l]). *)
Fixpoint each_from {A} (i : nat) (f : nat → A → res unit) (l : list A) : res unit :=
  match l with
  | [] => Ok tt
  | x :: l' => _ ← f i x; each_from (S i) f l'
  end.
Definition each {A} (f : nat → A → res unit) (l : list A) : res unit :=
  each_from 0 f l.

(** The same loop with loop-carried state. *)
Fixpoint fold_res {A S} (f : S → A → res S) (s : S) (l : list A) : res S :=
  match l with
  | [] => Ok s
  | x :: l' => s' ← f s x; fold_res f s' l'
  end.

(** A loop that appends one computed value per element. *)
Fixpoint map_res {A B} (f : A → res B) (l : list A) : res (list B) :=
  match l with
  | [] => Ok []
  | x :: l' => y ← f x; ys ← map_res f l'; Ok (y :: ys)
  end.

(** ** Tactics *)

(** Case analysis on the scrutinee of a [match] or [if] in the goal or in a
    hypothesis, keeping the equation. *)
Ltac case_step :=
  match goal with
  | H : context [match ?x with _ => _ end] |- _ =>
      lazymatch x with context [match _ with _ => _ end] => fail | _ => idtac end;
      let E := fresh "E" in destruct x eqn:E
  | |- context [match ?x with _ => _ end] =>
      lazymatch x with context [match _ with _ => _ end] => fail | _ => idtac end;
      let E := fresh "E" in destruct x eqn:E
  end.

(** Boolean tests to propositions. *)
Ltac reflect :=
  repeat match goal with
  | H : _ && _ = true |- _ => apply andb_true_iff in H; destruct H
  | H : _ || _ = false |- _ => apply orb_false_iff in H; destruct H
  | H : negb _ = true |- _ => apply negb_true_iff in H
  | H : negb _ = false |- _ => apply negb_false_iff in H
  | H : bool_decide _ = true |- _ => apply bool_decide_eq_true in H
  | H : bool_decide _ = false |- _ => apply bool_decide_eq_false in H
  | H : (_ =? _)%string = true |- _ => apply String.eqb_eq in H
  | H : (_ =? _)%string = false |- _ => apply String.eqb_neq in H
  end.

(** Inversion of a successful monadic computation. *)
Ltac res_inv :=
  repeat (unfold mbind, res_bind, mret, res_ret, fmap, res_fmap, wrap, fail_if in *;
          match goal with
          | H : Ok _ = Ok _ |- _ => injection H as H; subst
          | H : Err _ = Ok _ |- _ => discriminate H
          | H : Ok _ = Err _ |- _ => discriminate H
          | H : (match ?x with Ok _ => _ | Err _ => _ end) = Ok _ |- _ =>
              let E := fresh "E" in destruct x eqn:E
          | H : (if ?b then Err _ else _) = Ok _ |- _ =>
              let E := fresh "E" in destruct b eqn:E
          end).

(** One step of a successful sequence: [H : (x ← r; k) = Ok a] gives [r = Ok x]
    and [k = Ok a]. *)
Lemma bind_ok {A B} (r : res A) (f : A → res B) b :
  r ≫= f = Ok b ↔ ∃ a, r = Ok a ∧ f a = Ok b.
Proof. destruct r; simpl; naive_solver. Qed.

Lemma then_ok {B} (r : res unit) (f : unit → res B) b :
  r ≫= f = Ok b ↔ r = Ok tt ∧ f tt = Ok b.
Proof. rewrite bind_ok. split; [intros ([] & ? & ?); auto|intros [? ?]; eauto]. Qed.

(** ** Facts on loops *)

Section loops.
Context {A : Type}.

Lemma each_from_ok (f : nat → A → res unit) (l : list A) i :
  each_from i f l = Ok tt ↔ ∀ k x, l !! k = Some x → f (i + k) x = Ok tt.
Proof.
  revert i. induction l as [|y l IH]; intros i; simpl; [by split|].
  unfold mbind, res_bind. destruct (f i y) as [[]|e] eqn:E.
  - rewrite IH. split.
    + intros H [|k] x; simpl.
      * intros [= ->]. by rewrite Nat.add_0_r.
      * intros Hk. rewrite Nat.add_succ_r. by apply (H k x).
    + intros H k x Hk. specialize (H (S k) x Hk). by rewrite Nat.add_succ_r in H.
  - split; [done|]. intros H. specialize (H 0 y eq_refl).
    rewrite Nat.add_0_r in H. congruence.
Qed.

Lemma each_ok (f : nat → A → res unit) (l : list A) :
  each f l = Ok tt ↔ ∀ k x, l !! k = Some x → f k x = Ok tt.
Proof. apply (each_from_ok f l 0). Qed.

Lemma each_ok_elem (f : nat → A → res unit) (l : list A) x :
  each f l = Ok tt → x ∈ l → ∃ k, f k x = Ok tt.
Proof.
  intros H [k Hk]%list_elem_of_lookup. exists k. by apply (proj1 (each_ok f l) H).
Qed.

(** An invariant of the loop body is an invariant of the loop. *)
Lemma fold_res_inv {S} (P : S → Prop) (f : S → A → res S) (l : list A) s s' :
  (∀ s x s', x ∈ l → P s → f s x = Ok s' → P s') →
  P s → fold_res f s l = Ok s' → P s'.
Proof.
  revert s. induction l as [|x l IH]; intros s Hf Hs; simpl.
  - by intros [= ->].
  - unfold mbind, res_bind. destruct (f s x) as [s1|e] eqn:E; [|done].
    apply IH; [|by eapply Hf; [left| |]].
    intros ???? ??. eapply Hf; eauto. by right.
Qed.

Lemma fold_res_cons {S} (f : S → A → res S) x (l : list A) s s' :
  fold_res f s (x :: l) = Ok s' ↔ ∃ s1, f s x = Ok s1 ∧ fold_res f s1 l = Ok s'.
Proof.
  simpl. unfold mbind, res_bind. destruct (f s x) as [s1|e].
  - split; [by eauto|]. by intros (? & [= <-] & ?).
  - split; [done|]. by intros (? & ? & ?).
Qed.

Lemma fold_res_app {S} (f : S → A → res S) (l1 l2 : list A) s :
  fold_res f s (l1 ++ l2) = (s' ← fold_res f s l1; fold_res f s' l2).
Proof.
  revert s. induction l1 as [|x l1 IH]; intros s; [done|]. simpl.
  unfold mbind, res_bind. destruct (f s x); [apply IH|done].
Qed.
End loops.

Lemma map_res_ok {A B} (f : A → res B) l l' :
  map_res f l = Ok l' ↔ Forall2 (λ x y, f x = Ok y) l l'.
Proof.
  revert l'. induction l as [|x l IH]; intros l'; simpl.
  - split; [intros [= <-]; constructor|by inversion 1].
  - unfold mbind, res_bind. split.
    + destruct (f x) as [y|] eqn:E; [|done]. destruct (map_res f l) as [ys|] eqn:El; [|done].
      intros [= <-]. constructor; [done|]. by apply IH.
    + inversion 1 as [|? y ? ys Hy Hys]; subst. apply IH in Hys. by rewrite Hy, Hys.
Qed.

Lemma is_ok_spec {A} (r : res A) : is_ok r = true ↔ ∃ a, r = Ok a.
Proof. destruct r; simpl; naive_solver. Qed.

Lemma map_res_is_ok {A B} (f : A → res B) l :
  is_ok (map_res f l) = true ↔ Forall (λ x, is_ok (f x) = true) l.
Proof.
  rewrite is_ok_spec. setoid_rewrite map_res_ok. split.
  - intros [l' H]. eapply Forall2_Forall_l; [exact H|]. apply Forall_true. by intros y x ->.
  - induction 1 as [|x l [y Hy]%is_ok_spec _ [l' IH]]; [by exists []|].
    exists (y :: l'). by constructor.
Qed.

(** A loop whose body succeeds whatever the state is. *)
Lemma fold_res_is_ok {A S} (f : S → A → res S) (P : A → Prop) l :
  (∀ s x, is_ok (f s x) = true ↔ P x) → ∀ s, is_ok (fold_res f s l) = true ↔ Forall P l.
Proof.
  intros Hf. induction l as [|x l IH]; intros s; [split; [by constructor|done]|].
  rewrite Forall_cons, is_ok_spec. setoid_rewrite fold_res_cons.
  rewrite <-(Hf s x), is_ok_spec. split.
  - intros (s' & s1 & H1 & H2). split; [eauto|]. apply (IH s1). rewrite H2. done.
  - intros ([s1 H1] & H2). apply (IH s1), is_ok_spec in H2 as [s' H2]. eauto.
Qed.

Lemma bind_is_ok {A B} (r : res A) (f : A → res B) :
  is_ok (r ≫= f) = true ↔ ∃ a, r = Ok a ∧ is_ok (f a) = true.
Proof. destruct r; simpl; naive_solver. Qed.

Lemma wrap_ok {A} pre (r : res A) a : wrap pre r = Ok a ↔ r = Ok a.
Proof. by destruct r. Qed.

Lemma fail_if_ok b e : fail_if b e = Ok tt ↔ b = false.
Proof. by destruct b. Qed.

Lemma existsb_elem {A} (f : A → bool) l : existsb f l = true ↔ ∃ x, x ∈ l ∧ f x = true.
Proof. rewrite existsb_exists. by setoid_rewrite list_elem_of_In. Qed.

Lemma existsb_false_elem {A} (f : A → bool) l :
  existsb f l = false ↔ ∀ x, x ∈ l → f x = false.
Proof.
  rewrite <-not_true_iff_false, existsb_elem. split.
  - intros H x Hx. apply not_true_iff_false. intros Hf. apply H. eauto.
  - intros H (x & Hx & Hf). rewrite H in Hf by done. done.
Qed.

Lemma Forall2_exists_iff {A B} (R : A → B → Prop) (P : A → Prop) (Q : B → Prop) l k :
  Forall2 R l k → (∀ x y, R x y → P x ↔ Q y) → (∃ x, x ∈ l ∧ P x) ↔ (∃ y, y ∈ k ∧ Q y).
Proof.
  intros HF H. split.
  - intros (x & [i Hi]%list_elem_of_lookup & HP).
    destruct (Forall2_lookup_l _ _ _ _ _ HF Hi) as (y & Hy & HR).
    exists y. split; [apply list_elem_of_lookup; eauto|by apply (H x y HR)].
  - intros (y & [i Hi]%list_elem_of_lookup & HQ).
    destruct (Forall2_lookup_r _ _ _ _ _ HF Hi) as (x & Hx & HR).
    exists x. split; [apply list_elem_of_lookup; eauto|by apply (H x y HR)].
Qed.

(** Filters that agree on the elements of the list agree. *)
Lemma filter_ext_elem {A} (P Q : A → Prop) `{!∀ x, Decision (P x), !∀ x, Decision (Q x)} (l : list A) :
  (∀ x, x ∈ l → P x ↔ Q x) → filter P l = filter Q l.
Proof.
  induction l as [|x l IH]; intros Hx; [done|]. rewrite !filter_cons.
  rewrite IH by (intros y Hy; apply Hx; by right).
  pose proof (Hx x ltac:(left)). repeat case_decide; naive_solver.
Qed.

Lemma filter_all {A} (P : A → Prop) `{!∀ x, Decision (P x)} (l : list A) :
  (∀ x, x ∈ l → P x) → filter P l = l.
Proof.
  induction l as [|x l IH]; intros Hx; [done|].
  rewrite filter_cons_True by (apply Hx; left). f_equal. apply IH. intros. apply Hx. by right.
Qed.

Lemma filter_none {A} (P : A → Prop) `{!∀ x, Decision (P x)} (l : list A) :
  (∀ x, x ∈ l → ¬ P x) → filter P l = [].
Proof.
  induction l as [|x l IH]; intros Hx; [done|].
  rewrite filter_cons_False by (apply Hx; left). apply IH. intros. apply Hx. by right.
Qed.

Lemma StronglySorted_impl_elem {A} (R S : A → A → Prop) (l : list A) :
  (∀ x y, x ∈ l → y ∈ l → R x y → S x y) → StronglySorted R l → StronglySorted S l.
Proof.
  induction l as [|x l IH]; intros H Hs; [constructor|].
  apply StronglySorted_cons in Hs as [Hx Hs]. apply StronglySorted_cons. split.
  - rewrite Forall_forall in *. intros y Hy. apply H; [left|by right|by apply Hx].
  - apply IH; [|done]. intros y z ??. apply H; by right.
Qed.

Lemma StronglySorted_all {A} (S : A → A → Prop) (l : list A) :
  (∀ x y, x ∈ l → y ∈ l → S x y) → StronglySorted S l.
Proof.
  induction l as [|x l IH]; intros H; [constructor|]. apply StronglySorted_cons. split.
  - rewrite Forall_forall. intros y Hy. apply H; [left|by right].
  - apply IH. intros. apply H; by right.
Qed.

(** ** Stable sorting

    [sort.SliceStable] by a numeric key: the elements come out in ascending key
    order, equal keys in their original order ([stable_sort_sorted],
    [stable_sort_stable]), which determines the result. *)
Section stable_sort.
Context {A : Type} (key : A → nat).

Fixpoint stable_insert (x : A) (l : list A) : list A :=
  match l with
  | [] => [x]
  | y :: l' => if (key x <=? key y)%nat then x :: l else y :: stable_insert x l'
  end.

Fixpoint stable_sort (l : list A) : list A :=
  match l with [] => [] | x :: l' => stable_insert x (stable_sort l') end.

Lemma stable_insert_perm x l : stable_insert x l ≡ₚ x :: l.
Proof.
  induction l as [|y l IH]; [done|]. simpl. destruct (_ <=? _)%nat; [done|].
  rewrite IH. constructor.
Qed.

Lemma stable_sort_perm l : stable_sort l ≡ₚ l.
Proof. induction l as [|x l IH]; [done|]. simpl. by rewrite stable_insert_perm, IH. Qed.

Lemma stable_sort_sorted l : StronglySorted (λ x y, key x ≤ key y) (stable_sort l).
Proof.
  induction l as [|x l IH]; [constructor|]. simpl. revert IH.
  induction (stable_sort l) as [|y m IHm]; intros H; simpl.
  - by repeat constructor.
  - apply StronglySorted_inv in H as [Hm Hy].
    destruct (Nat.leb_spec (key x) (key y)).
    + constructor; [by constructor|]. constructor; [done|].
      eapply Forall_impl; [exact Hy|]. simpl. lia.
    + constructor; [by apply IHm|]. rewrite stable_insert_perm.
      constructor; [lia|done].
Qed.

Lemma stable_sort_stable k l :
  filter (λ x, key x = k) (stable_sort l) = filter (λ x, key x = k) l.
Proof.
  induction l as [|x l IH]; [done|]. simpl. rewrite (filter_cons _ x l), <-IH.
  generalize (stable_sort_sorted l). generalize (stable_sort l) as m. clear IH l.
  induction m as [|y m IHm]; intros Hs; simpl; [done|].
  destruct (Nat.leb_spec (key x) (key y)); [by rewrite filter_cons|].
  apply StronglySorted_inv in Hs as [Hm Hy].
  rewrite !filter_cons, IHm by done.
  repeat case_decide; try done. exfalso. lia.
Qed.
End stable_sort.

(** ** The development's hint database *)
Create HintDb ucd.
Create Rewrite HintDb ucd.
#[export] Hint Rewrite @wrap_ok fail_if_ok @each_ok : ucd.
