(* ===== verification/GoStrings.v ===== *)
(** * Go strings: the parts of [strings], [unicode], [regexp], [sort] and [path]
    the repository uses.

    A Go string is a sequence of bytes, which is what [String.string] is.  The
    functions below follow the documented behaviour of the Go standard library
    on every byte sequence, invalid UTF-8 included. *)

From S2P Require Import Prelude.
From stdpp Require Import options.

Implicit Types (s t u : string) (c d : ascii).

(** ** Append *)

Lemma str_app_nil_r s : s +:+ "" = s.
Proof. induction s as [|c s IH]; [done|]. change (String c (s +:+ "") = String c s). by f_equal. Qed.

Lemma str_app_assoc s t u : s +:+ t +:+ u = (s +:+ t) +:+ u.
Proof. induction s as [|c s IH]; [done|]. change (String c (s +:+ t +:+ u) = String c ((s +:+ t) +:+ u)). by f_equal. Qed.

Lemma str_app_cons c s t : String c s +:+ t = String c (s +:+ t).
Proof. done. Qed.

Lemma str_app_nil_l s : "" +:+ s = s.
Proof. done. Qed.

Lemma str_length_app s t : String.length (s +:+ t) = String.length s + String.length t.
Proof. induction s as [|c s IH]; [done|]. rewrite str_app_cons. simpl. by rewrite IH. Qed.

Lemma str_app_empty s t : s +:+ t = "" ↔ s = "" ∧ t = "".
Proof. split; [by destruct s|by intros [-> ->]]. Qed.

Lemma str_app_inj_r s t u : s +:+ u = t +:+ u → s = t.
Proof.
  revert t. induction s as [|c s IH]; intros [|d t] H; try done.
  - apply (f_equal String.length) in H. rewrite str_app_cons in H. simpl in H.
    rewrite str_app_nil_l, str_length_app in H. lia.
  - apply (f_equal String.length) in H. rewrite str_app_cons in H. simpl in H.
    rewrite str_app_nil_l, str_length_app in H. lia.
  - rewrite !str_app_cons in H. injection H as -> H. f_equal. by apply IH.
Qed.

Create Rewrite HintDb str.
#[export] Hint Rewrite str_app_nil_r str_app_nil_l str_app_cons : str.
#[export] Hint Rewrite <- str_app_assoc : str.

(** ** Prefixes, suffixes, substrings *)

(** [strings.HasPrefix] *)
Definition HasPrefix (s p : string) : bool := String.prefix p s.
Arguments HasPrefix : simpl never.

Lemma HasPrefix_spec s p : HasPrefix s p = true ↔ ∃ r, s = p +:+ r.
Proof.
  unfold HasPrefix. revert s. induction p as [|c p IH]; intros s; simpl.
  - split; [by exists s|]. by destruct s.
  - destruct s as [|d s]; [split; [done|by intros [r ?]]|].
    simpl. destruct (ascii_dec c d) as [->|Hne].
    + rewrite IH. split; intros [r Hr]; exists r.
      * by rewrite str_app_cons, Hr.
      * by injection Hr.
    + split; [done|]. intros [r Hr]. rewrite str_app_cons in Hr. by injection Hr.
Qed.

Fixpoint str_drop (n : nat) (s : string) : string :=
  match n, s with
  | S n', String _ s' => str_drop n' s'
  | _, _ => s
  end.

Fixpoint str_take (n : nat) (s : string) : string :=
  match n, s with
  | S n', String c s' => String c (str_take n' s')
  | _, _ => ""
  end.

Lemma str_drop_app s t : str_drop (String.length s) (s +:+ t) = t.
Proof. induction s as [|c s IH]; [by destruct t|]. by rewrite str_app_cons. Qed.

Lemma str_take_app s t : str_take (String.length s) (s +:+ t) = s.
Proof. induction s as [|c s IH]; [by destruct t|]. rewrite str_app_cons. simpl. by f_equal. Qed.

Lemma str_take_drop n s : str_take n s +:+ str_drop n s = s.
Proof.
  revert s. induction n as [|n IH]; intros [|c s]; try done. simpl.
  rewrite str_app_cons. by f_equal.
Qed.

(** [strings.HasSuffix] *)
Definition HasSuffix (s p : string) : bool :=
  (String.length p <=? String.length s)%nat &&
  (str_drop (String.length s - String.length p) s =? p)%string.

Lemma HasSuffix_spec s p : HasSuffix s p = true ↔ ∃ r, s = r +:+ p.
Proof.
  unfold HasSuffix. rewrite andb_true_iff, Nat.leb_le, String.eqb_eq. split.
  - intros [_ H]. exists (str_take (String.length s - String.length p) s).
    by rewrite <-H at 2; rewrite str_take_drop.
  - intros [r ->]. rewrite str_length_app. split; [lia|].
    replace (String.length r + String.length p - String.length p)
      with (String.length r) by lia. apply str_drop_app.
Qed.

(** [strings.TrimPrefix], [strings.TrimSuffix] *)
Definition TrimPrefix (s p : string) : string :=
  if HasPrefix s p then str_drop (String.length p) s else s.
Definition TrimSuffix (s p : string) : string :=
  if HasSuffix s p then str_take (String.length s - String.length p) s else s.

Lemma TrimSuffix_app s p : TrimSuffix (s +:+ p) p = s.
Proof.
  unfold TrimSuffix.
  destruct (HasSuffix (s +:+ p) p) eqn:E.
  - rewrite str_length_app.
    replace (String.length s + String.length p - String.length p)
      with (String.length s) by lia. apply str_take_app.
  - assert (HasSuffix (s +:+ p) p = true) by (apply HasSuffix_spec; eauto). congruence.
Qed.

Lemma TrimPrefix_app s p : TrimPrefix (p +:+ s) p = s.
Proof.
  unfold TrimPrefix. destruct (HasPrefix (p +:+ s) p) eqn:E; [apply str_drop_app|].
  assert (HasPrefix (p +:+ s) p = true) by (apply HasPrefix_spec; eauto). congruence.
Qed.

(** [strings.Contains] *)
Fixpoint Contains (s sub : string) : bool :=
  HasPrefix s sub || match s with "" => false | String _ s' => Contains s' sub end.

Lemma Contains_spec s sub : Contains s sub = true ↔ ∃ a b, s = a +:+ sub +:+ b.
Proof.
  induction s as [|c s IH]; simpl.
  - rewrite orb_false_r, HasPrefix_spec. split.
    + intros [r Hr]. by exists "", r.
    + intros (a & b & Hab). symmetry in Hab.
      apply str_app_empty in Hab as [-> Hab]. by exists b.
  - rewrite orb_true_iff, HasPrefix_spec, IH. split.
    + intros [[r Hr]|(a & b & ->)]; [by exists "", r|]. by exists (String c a), b.
    + intros ([|d a] & b & Hab); [left; by exists b|]. right.
      injection Hab as -> ->. by exists a, b.
Qed.

(** The bytes of a string, as a membership test. *)
Fixpoint has_byte (c : ascii) (s : string) : bool :=
  match s with "" => false | String d s' => Ascii.eqb c d || has_byte c s' end.

Lemma has_byte_app c s t : has_byte c (s +:+ t) = has_byte c s || has_byte c t.
Proof.
  induction s as [|d s IH]; [done|]. rewrite str_app_cons. simpl.
  by rewrite IH, orb_assoc.
Qed.

(** [strings.ContainsAny] for a set of ASCII bytes *)
Fixpoint ContainsAny (s chars : string) : bool :=
  match s with "" => false | String c s' => has_byte c chars || ContainsAny s' chars end.

(** [strings.ReplaceAll s old new] for a one-byte [old] and [new] *)
Fixpoint ReplaceByte (s : string) (old new : ascii) : string :=
  match s with
  | "" => ""
  | String c s' => String (if Ascii.eqb c old then new else c) (ReplaceByte s' old new)
  end.

(** [strings.Count s sub] for a one-byte [sub] *)
Fixpoint CountByte (s : string) (c : ascii) : nat :=
  match s with
  | "" => 0
  | String d s' => (if Ascii.eqb c d then 1 else 0) + CountByte s' c
  end.

(** ** Split, join, trim *)

(** [strings.Split s sep] for a one-byte separator: never empty. *)
Fixpoint Split (sep : ascii) (s : string) : list string :=
  match s with
  | "" => [""]
  | String c s' =>
      if Ascii.eqb c sep then "" :: Split sep s'
      else match Split sep s' with
           | w :: ws => String c w :: ws
           | [] => [String c ""]
           end
  end.

(** [strings.Join] *)
Fixpoint Join (sep : string) (l : list string) : string :=
  match l with
  | [] => ""
  | [w] => w
  | w :: ws => w +:+ sep +:+ Join sep ws
  end.

Lemma Split_nonempty sep s : Split sep s ≠ [].
Proof. destruct s as [|c s]; simpl; [done|]. destruct (Ascii.eqb c sep); [done|]. by destruct (Split sep s). Qed.

Lemma Join_cons sep w ws : ws ≠ [] → Join sep (w :: ws) = w +:+ sep +:+ Join sep ws.
Proof. by destruct ws. Qed.

Lemma Join_cons_char sep c w ws :
  Join sep (String c w :: ws) = String c (Join sep (w :: ws)).
Proof. by destruct ws. Qed.

Lemma Join_Split sep s : Join (String sep "") (Split sep s) = s.
Proof.
  induction s as [|c s IH]; [done|]. simpl.
  destruct (Ascii.eqb_spec c sep) as [->|Hne].
  - rewrite Join_cons by apply Split_nonempty. by rewrite IH.
  - destruct (Split sep s) as [|w ws] eqn:E; [by destruct (Split_nonempty sep s)|].
    by rewrite Join_cons_char, IH.
Qed.

Lemma Split_no_sep sep s : has_byte sep s = false → Split sep s = [s].
Proof.
  induction s as [|c s IH]; [done|]. simpl. rewrite orb_false_iff. intros [Hc Hs].
  rewrite Ascii.eqb_sym in Hc. rewrite Hc, IH by done. done.
Qed.

Lemma Split_app sep s t :
  has_byte sep s = false → Split sep (s +:+ String sep t) = s :: Split sep t.
Proof.
  induction s as [|c s IH]; intros H.
  - rewrite str_app_nil_l. simpl. by rewrite Ascii.eqb_refl.
  - simpl in H. apply orb_false_iff in H as [Hc Hs]. rewrite Ascii.eqb_sym in Hc.
    rewrite str_app_cons. simpl. by rewrite Hc, IH.
Qed.

Lemma Split_Join sep l :
  l ≠ [] → Forall (λ w, has_byte sep w = false) l → Split sep (Join (String sep "") l) = l.
Proof.
  intros Hne H. induction H as [|w l Hw Hl IH]; [done|].
  destruct l as [|w' l]; [by apply Split_no_sep|].
  rewrite Join_cons by done. rewrite (str_app_cons sep "" _), str_app_nil_l.
  rewrite Split_app by done. by rewrite IH.
Qed.

Lemma Split_seg_no_sep sep s w : w ∈ Split sep s → has_byte sep w = false.
Proof.
  revert w. induction s as [|c s IH]; intros w; simpl.
  - by intros ->%list_elem_of_singleton.
  - destruct (Ascii.eqb c sep) eqn:E.
    + intros [->|?]%elem_of_cons; [done|by apply IH].
    + destruct (Split sep s) as [|w' ws] eqn:Es; [by destruct (Split_nonempty sep s)|].
      intros [->|?]%elem_of_cons.
      * simpl. rewrite Ascii.eqb_sym, E. simpl. apply IH. left.
      * apply IH. by right.
Qed.

(** [strings.Trim s cutset] for a one-byte cutset *)
Fixpoint TrimLeftByte (c : ascii) (s : string) : string :=
  match s with
  | String d s' => if Ascii.eqb d c then TrimLeftByte c s' else s
  | "" => ""
  end.
Fixpoint TrimRightByte (c : ascii) (s : string) : string :=
  match s with
  | "" => ""
  | String d s' =>
      match TrimRightByte c s' with
      | "" => if Ascii.eqb d c then "" else String d ""
      | t => String d t
      end
  end.
Definition Trim (c : ascii) (s : string) : string := TrimRightByte c (TrimLeftByte c s).

(** The last byte of a non-empty string. *)
Fixpoint last_byte (s : string) : option ascii :=
  match s with
  | "" => None
  | String c "" => Some c
  | String _ s' => last_byte s'
  end.
Definition first_byte (s : string) : option ascii :=
  match s with "" => None | String c _ => Some c end.

Lemma last_byte_cons c s : s ≠ "" → last_byte (String c s) = last_byte s.
Proof. by destruct s. Qed.

Lemma last_byte_app s t : t ≠ "" → last_byte (s +:+ t) = last_byte t.
Proof.
  intros Ht. induction s as [|c s IH]; [done|]. rewrite str_app_cons, last_byte_cons, IH; [done|].
  intros [_ ?]%str_app_empty. done.
Qed.

Lemma TrimLeftByte_first c s : first_byte (TrimLeftByte c s) ≠ Some c.
Proof.
  induction s as [|d s IH]; simpl; [done|].
  destruct (Ascii.eqb_spec d c); [done|]. simpl. congruence.
Qed.

Lemma TrimRightByte_last c s : last_byte (TrimRightByte c s) ≠ Some c.
Proof.
  induction s as [|d s IH]; simpl; [done|].
  destruct (TrimRightByte c s) as [|e t] eqn:E.
  - destruct (Ascii.eqb_spec d c); simpl; congruence.
  - by rewrite last_byte_cons.
Qed.

Lemma TrimLeftByte_id c s : first_byte s ≠ Some c → TrimLeftByte c s = s.
Proof. destruct s as [|d s]; [done|]. simpl. intros H. destruct (Ascii.eqb_spec d c); congruence. Qed.

Lemma TrimRightByte_id c s : last_byte s ≠ Some c → TrimRightByte c s = s.
Proof.
  induction s as [|d s IH]; [done|]. intros H. destruct s as [|e s].
  - simpl. simpl in H. destruct (Ascii.eqb_spec d c); congruence.
  - rewrite last_byte_cons in H by done. specialize (IH H). cbn [TrimRightByte] in *.
    by rewrite IH.
Qed.

Lemma TrimRightByte_first c s :
  first_byte (TrimRightByte c s) = None ∨ first_byte (TrimRightByte c s) = first_byte s.
Proof.
  destruct s as [|d s]; simpl; [by left|].
  destruct (TrimRightByte c s); [destruct (Ascii.eqb d c)|]; simpl; auto.
Qed.

(** A trimmed string has the byte at neither end, and trimming it again changes
    nothing. *)
Lemma Trim_ends c s :
  first_byte (Trim c s) ≠ Some c ∧ last_byte (Trim c s) ≠ Some c.
Proof.
  unfold Trim. split; [|apply TrimRightByte_last].
  destruct (TrimRightByte_first c (TrimLeftByte c s)) as [->| ->]; [done|].
  apply TrimLeftByte_first.
Qed.

Lemma Trim_id c s : first_byte s ≠ Some c → last_byte s ≠ Some c → Trim c s = s.
Proof. intros ??. unfold Trim. by rewrite TrimLeftByte_id, TrimRightByte_id. Qed.

Lemma Trim_idemp c s : Trim c (Trim c s) = Trim c s.
Proof. destruct (Trim_ends c s). by apply Trim_id. Qed.

Lemma has_byte_TrimLeft c d s : has_byte d s = false → has_byte d (TrimLeftByte c s) = false.
Proof.
  induction s as [|e s IH]; [done|]. simpl. rewrite orb_false_iff. intros [He Hs].
  destruct (Ascii.eqb e c); [by apply IH|]. simpl. by rewrite He, Hs.
Qed.

Lemma has_byte_TrimRight c d s : has_byte d s = false → has_byte d (TrimRightByte c s) = false.
Proof.
  induction s as [|e s IH]; [done|]. simpl. rewrite orb_false_iff. intros [He Hs].
  specialize (IH Hs). destruct (TrimRightByte c s).
  - destruct (Ascii.eqb e c); simpl; by rewrite ?He.
  - simpl in *. by rewrite He, IH.
Qed.

Lemma has_byte_Trim c d s : has_byte d s = false → has_byte d (Trim c s) = false.
Proof. intros H. by apply has_byte_TrimRight, has_byte_TrimLeft. Qed.

(** [strings.LastIndex s sep] for a one-byte separator, as the two halves around
    the last occurrence. *)
Fixpoint split_last (sep : ascii) (s : string) : option (string * string) :=
  match s with
  | "" => None
  | String c s' =>
      match split_last sep s' with
      | Some (a, b) => Some (String c a, b)
      | None => if Ascii.eqb c sep then Some ("", s') else None
      end
  end.

Lemma split_last_none sep s : split_last sep s = None ↔ has_byte sep s = false.
Proof.
  induction s as [|c s IH]; simpl; [done|].
  rewrite orb_false_iff, Ascii.eqb_sym.
  destruct (split_last sep s) as [[]|].
  - split; [done|]. intros [_ H]. by apply IH in H.
  - destruct (Ascii.eqb sep c); [split; [done|by intros [? _]]|].
    split; [|done]. intros _. split; [done|by apply IH].
Qed.

Lemma split_last_app sep s t :
  has_byte sep t = false → split_last sep (s +:+ String sep t) = Some (s, t).
Proof.
  intros Ht. induction s as [|c s IH].
  - rewrite str_app_nil_l. simpl. by rewrite (proj2 (split_last_none sep t) Ht), Ascii.eqb_refl.
  - rewrite str_app_cons. simpl. by rewrite IH.
Qed.

Lemma split_last_some sep s a b :
  split_last sep s = Some (a, b) → s = a +:+ String sep b ∧ has_byte sep b = false.
Proof.
  revert a b. induction s as [|c s IH]; intros a b; simpl; [done|].
  destruct (split_last sep s) as [[a' b']|] eqn:E.
  - intros [= <- <-]. destruct (IH _ _ eq_refl) as [-> ?]. by rewrite str_app_cons.
  - destruct (Ascii.eqb_spec c sep) as [->|]; [|done]. intros [= <- <-].
    split; [done|]. by apply split_last_none.
Qed.

(** ** Bytes *)

Definition byte_in (lo hi : N) (c : ascii) : bool :=
  (lo <=? N_of_ascii c)%N && (N_of_ascii c <=? hi)%N.
Definition is_digit : ascii → bool := byte_in 48 57.
Definition is_upper : ascii → bool := byte_in 65 90.
Definition is_lower : ascii → bool := byte_in 97 122.
Definition is_alpha (c : ascii) : bool := is_upper c || is_lower c.

(** ** UTF-8 *)

(** Ranging over a Go string decodes UTF-8: [rune_at s] is the first rune of a
    non-empty string and its width.  An invalid encoding yields U+FFFD with
    width 1.  The second-byte bounds are those of Unicode table 3-7 (no
    overlong forms, no surrogates, nothing above U+10FFFF). *)
Definition cont_byte (c : ascii) : bool := byte_in 128 191 c.
Definition cbits (c : ascii) : N := (N_of_ascii c - 128)%N.
Definition rune_error : N := 65533.

Definition rune_at (s : string) : option (N * nat) :=
  match s with
  | "" => None
  | String b0 r =>
      let n0 := N_of_ascii b0 in
      let bad := Some (rune_error, 1) in
      if (n0 <? 128)%N then Some (n0, 1)
      else if (n0 <? 194)%N then bad
      else if (n0 <? 224)%N then
        match r with
        | String b1 _ => if cont_byte b1 then Some (((n0 - 192) * 64 + cbits b1)%N, 2) else bad
        | _ => bad
        end
      else if (n0 <? 240)%N then
        match r with
        | String b1 (String b2 _) =>
            let lo := if (n0 =? 224)%N then 160%N else 128%N in
            let hi := if (n0 =? 237)%N then 159%N else 191%N in
            if byte_in lo hi b1 && cont_byte b2
            then Some (((n0 - 224) * 4096 + cbits b1 * 64 + cbits b2)%N, 3) else bad
        | _ => bad
        end
      else if (n0 <? 245)%N then
        match r with
        | String b1 (String b2 (String b3 _)) =>
            let lo := if (n0 =? 240)%N then 144%N else 128%N in
            let hi := if (n0 =? 244)%N then 143%N else 191%N in
            if byte_in lo hi b1 && cont_byte b2 && cont_byte b3
            then Some (((n0 - 240) * 262144 + cbits b1 * 4096 + cbits b2 * 64 + cbits b3)%N, 4)
            else bad
        | _ => bad
        end
      else bad
  end.

(** [segs_from skip cur s]: the runes of [s] with the bytes that encode them.
    [skip] bytes still belong to the rune being read. *)
Fixpoint segs_from (skip : nat) (s : string) : list (N * string) :=
  match s with
  | "" => []
  | String _ s' =>
      match skip with
      | S k => segs_from k s'
      | 0 =>
          match rune_at s with
          | Some (r, w) => (r, str_take w s) :: segs_from (pred w) s'
          | None => []
          end
      end
  end.
Definition segs (s : string) : list (N * string) := segs_from 0 s.

(** [for _, r := range s] *)
Definition runes (s : string) : list N := (segs s).*1.

Definition concat_str (l : list string) : string := foldr String.append "" l.

Lemma segs_from_concat n s : concat_str (segs_from n s).*2 = str_drop n s.
Proof.
  revert n. induction s as [|c s IH]; intros n; [by destruct n|].
  destruct n as [|k]; [|exact (IH k)].
  cbn [segs_from]. destruct (rune_at (String c s)) as [[r w]|] eqn:E.
  - assert (0 < w) as Hw.
    { revert E. unfold rune_at. repeat case_match; intros; simplify_eq; lia. }
    destruct w as [|w]; [lia|]. cbn [fmap list_fmap snd concat_str foldr pred].
    fold (concat_str (segs_from w s).*2). rewrite IH. cbn [str_take str_drop].
    rewrite str_app_cons, str_take_drop. done.
  - exfalso. revert E. unfold rune_at. repeat case_match; done.
Qed.

(** Decoding loses no byte. *)
Lemma segs_concat s : concat_str (segs s).*2 = s.
Proof. unfold segs. rewrite segs_from_concat. by destruct s. Qed.

(** [unicode.IsSpace] *)
Definition IsSpace (r : N) : bool :=
  bool_decide (r ∈ [9; 10; 11; 12; 13; 32; 133; 160; 5760; 8232; 8233; 8239; 8287; 12288]%N)
  || ((8192 <=? r)%N && (r <=? 8202)%N).

(** [strings.TrimSpace] and [strings.Fields].  A rune never straddles the start
    byte of another one, so scanning the runes from the right, as TrimSpace
    does, finds the same runes as scanning from the left. *)
Fixpoint drop_spaces (l : list (N * string)) : list (N * string) :=
  match l with
  | x :: l' => if IsSpace x.1 then drop_spaces l' else l
  | [] => []
  end.
Definition TrimSpace (s : string) : string :=
  concat_str (reverse (drop_spaces (reverse (drop_spaces (segs s))))).*2.

Fixpoint fields_from (cur : option string) (l : list (N * string)) : list string :=
  match l with
  | [] => option_list cur
  | (r, b) :: l' =>
      if IsSpace r then option_list cur ++ fields_from None l'
      else fields_from (Some (from_option (λ w, w +:+ b) b cur)) l'
  end.
Definition Fields (s : string) : list string := fields_from None (segs s).

(** [strings.ToLower] and [strings.ToUpper].  An ASCII letter is mapped; of the
    other runes only those whose image is ASCII are mapped (U+0130 and U+212A
    for ToLower, U+0131 and U+017F for ToUpper); the image of any other rune is
    never ASCII, and the code only compares the result with ASCII names and
    matches it against ASCII classes, so the rune is left as it is. *)
Definition lower_seg (x : N * string) : string :=
  if (65 <=? x.1)%N && (x.1 <=? 90)%N then String (ascii_of_N (x.1 + 32)) ""
  else if (x.1 =? 304)%N then "i" else if (x.1 =? 8490)%N then "k" else x.2.
Definition upper_seg (x : N * string) : string :=
  if (97 <=? x.1)%N && (x.1 <=? 122)%N then String (ascii_of_N (x.1 - 32)) ""
  else if (x.1 =? 305)%N then "I" else if (x.1 =? 383)%N then "S" else x.2.
Definition ToLower (s : string) : string := concat_str (lower_seg <$> segs s).
Definition ToUpper (s : string) : string := concat_str (upper_seg <$> segs s).

(** ** Sorting *)

(** [sort.Strings]: ascending byte order.  The order is total and antisymmetric,
    so every correct sort returns this list. *)
Definition SortStrings (l : list string) : list string := merge_sort String.le l.

Lemma SortStrings_perm l : SortStrings l ≡ₚ l.
Proof. apply merge_sort_Permutation. Qed.

Lemma elem_of_SortStrings x l : x ∈ SortStrings l ↔ x ∈ l.
Proof. by rewrite SortStrings_perm. Qed.

Lemma SortStrings_unique l1 l2 : l1 ≡ₚ l2 → SortStrings l1 = SortStrings l2.
Proof.
  intros H. apply (StronglySorted_unique String.le).
  - apply (StronglySorted_merge_sort _).
  - apply (StronglySorted_merge_sort _).
  - by rewrite !SortStrings_perm.
Qed.

(** The keys of a Go map in sorted order, the way the code iterates over a map
    when the order matters. *)
Definition sorted_keys {V} (m : gmap string V) : list string :=
  SortStrings (map_to_list m).*1.

Lemma elem_of_sorted_keys {V} (m : gmap string V) k :
  k ∈ sorted_keys m ↔ is_Some (m !! k).
Proof.
  unfold sorted_keys. rewrite elem_of_SortStrings, list_elem_of_fmap. split.
  - intros ([k' v] & -> & Hv%elem_of_map_to_list). by exists v.
  - intros [v Hv]. exists (k, v). split; [done|]. by apply elem_of_map_to_list.
Qed.

Lemma sorted_keys_NoDup {V} (m : gmap string V) : NoDup (sorted_keys m).
Proof. unfold sorted_keys. rewrite SortStrings_perm. apply NoDup_fst_map_to_list. Qed.

(** ** Trimming as a decomposition *)

Fixpoint rep_byte (k : nat) (c : ascii) : string :=
  match k with 0 => "" | S k' => String c (rep_byte k' c) end.

Lemma rep_byte_snoc k c : rep_byte k c +:+ String c "" = String c (rep_byte k c).
Proof. induction k as [|k IH]; [done|]. simpl. by rewrite str_app_cons, IH. Qed.

Lemma TrimLeftByte_decomp c s : ∃ k, s = rep_byte k c +:+ TrimLeftByte c s.
Proof.
  induction s as [|d s [k IH]]; [by exists 0|]. simpl.
  destruct (Ascii.eqb_spec d c) as [->|]; [|by exists 0].
  exists (S k). simpl. rewrite str_app_cons. by f_equal.
Qed.

Lemma TrimRightByte_decomp c s : ∃ k, s = TrimRightByte c s +:+ rep_byte k c.
Proof.
  induction s as [|d s [k IH]]; [by exists 0|]. simpl.
  destruct (TrimRightByte c s) as [|e t].
  - rewrite str_app_nil_l in IH.
    destruct (Ascii.eqb_spec d c) as [->|]; [exists (S k); rewrite str_app_nil_l; simpl; by f_equal|].
    exists k. rewrite str_app_cons, str_app_nil_l. by f_equal.
  - exists k. rewrite (str_app_cons d). by f_equal.
Qed.

Lemma Trim_decomp c s : ∃ a b, s = rep_byte a c +:+ Trim c s +:+ rep_byte b c.
Proof.
  destruct (TrimLeftByte_decomp c s) as [a Ha].
  destruct (TrimRightByte_decomp c (TrimLeftByte c s)) as [b Hb].
  exists a, b. unfold Trim. rewrite <-Hb. done.
Qed.

Lemma ContainsAny_app s t chars : ContainsAny (s +:+ t) chars = ContainsAny s chars || ContainsAny t chars.
Proof. induction s as [|c s IH]; [done|]. rewrite str_app_cons. simpl. by rewrite IH, orb_assoc. Qed.

(** ** Runes around an ASCII byte *)

Lemma rune_at_ascii c s : (N_of_ascii c < 128)%N → rune_at (String c s) = Some (N_of_ascii c, 1).
Proof. intros H. unfold rune_at. apply N.ltb_lt in H. by rewrite H. Qed.

Lemma byte_in_ascii lo hi c : (N_of_ascii c < 128)%N → (128 ≤ lo)%N → byte_in lo hi c = false.
Proof.
  intros ??. unfold byte_in. destruct (N.leb_spec lo (N_of_ascii c)); [lia|done].
Qed.

(** An ASCII byte after a non-empty string does not change its first rune. *)
Lemma rune_at_snoc s c :
  s ≠ "" → (N_of_ascii c < 128)%N → rune_at (s +:+ String c "") = rune_at s.
Proof.
  intros Hs Hc. destruct s as [|b0 s]; [done|]. rewrite str_app_cons. unfold rune_at.
  destruct s as [|b1 s]; [|destruct s as [|b2 s]; [|destruct s as [|b3 s]]];
    rewrite ?str_app_cons, ?str_app_nil_l; unfold cont_byte;
    repeat match goal with
    | |- (if ?b then _ else _) = (if ?b then _ else _) => destruct b
    | |- context [byte_in ?lo ?hi c] =>
        rewrite (byte_in_ascii lo hi c) by (done || (destruct (_ =? _)%N; done))
    end; rewrite ?andb_false_r; try done.
Qed.

Lemma rune_at_width s r w : rune_at s = Some (r, w) → 0 < w ≤ String.length s.
Proof.
  unfold rune_at. repeat case_match; intros; simplify_eq; simpl; lia.
Qed.

Lemma rune_at_some s : s ≠ "" → is_Some (rune_at s).
Proof. intros H. unfold rune_at. repeat case_match; try done; eauto. Qed.

Lemma str_take_snoc w s c : w ≤ String.length s → str_take w (s +:+ String c "") = str_take w s.
Proof.
  revert w. induction s as [|d s IH]; intros w H; simpl in H.
  - by assert (w = 0) as -> by lia.
  - destruct w as [|w]; [done|]. rewrite str_app_cons. simpl. f_equal. apply IH. lia.
Qed.

Lemma segs_from_snoc n s c :
  (N_of_ascii c < 128)%N → n ≤ String.length s →
  segs_from n (s +:+ String c "") = segs_from n s ++ [(N_of_ascii c, String c "")].
Proof.
  intros Hc. revert n. induction s as [|d s IH]; intros n Hn.
  - simpl in Hn. assert (n = 0) as -> by lia. rewrite str_app_nil_l. cbn [segs_from].
    by rewrite rune_at_ascii.
  - destruct n as [|n].
    + pose proof (rune_at_snoc (String d s) c ltac:(done) Hc) as Hr.
      destruct (rune_at_some (String d s) ltac:(done)) as [[r w] Hw].
      pose proof (rune_at_width _ _ _ Hw) as Hw'.
      pose proof (str_take_snoc w (String d s) c ltac:(lia)) as Ht.
      rewrite str_app_cons in *. cbn [segs_from]. rewrite Hr, Hw, Ht. simpl. f_equal.
      apply IH. simpl in Hw'. lia.
    + rewrite str_app_cons. cbn [segs_from]. apply IH. simpl in Hn. lia.
Qed.

Lemma runes_snoc s c :
  (N_of_ascii c < 128)%N → runes (s +:+ String c "") = runes s ++ [N_of_ascii c].
Proof.
  intros Hc. unfold runes, segs. rewrite segs_from_snoc by (done || lia).
  by rewrite fmap_app.
Qed.

Lemma runes_cons_ascii c s :
  (N_of_ascii c < 128)%N → runes (String c s) = N_of_ascii c :: runes s.
Proof. intros Hc. unfold runes, segs. cbn [segs_from]. by rewrite rune_at_ascii. Qed.

Lemma runes_rep_l k c s :
  (N_of_ascii c < 128)%N → runes (rep_byte k c +:+ s) = replicate k (N_of_ascii c) ++ runes s.
Proof.
  intros Hc. induction k as [|k IH]; [done|]. simpl. rewrite str_app_cons.
  by rewrite runes_cons_ascii, IH.
Qed.

Lemma runes_rep_r k c s :
  (N_of_ascii c < 128)%N → runes (s +:+ rep_byte k c) = runes s ++ replicate k (N_of_ascii c).
Proof.
  intros Hc. revert s. induction k as [|k IH]; intros s; simpl.
  - by rewrite str_app_nil_r, app_nil_r.
  - change (String c (rep_byte k c)) with (String c "" +:+ rep_byte k c).
    rewrite str_app_assoc, IH, runes_snoc by done. by rewrite <-(assoc (++)).
Qed.

(** Trimming an ASCII byte removes only that rune. *)
Lemma runes_Trim c s :
  (N_of_ascii c < 128)%N →
  ∃ a b, runes s = replicate a (N_of_ascii c) ++ runes (Trim c s) ++ replicate b (N_of_ascii c).
Proof.
  intros Hc. destruct (Trim_decomp c s) as (a & b & E). exists a, b.
  rewrite E at 1. by rewrite runes_rep_l, runes_rep_r.
Qed.

(** ** Indexing *)

Lemma str_get_app s c t : String.get (String.length s) (s +:+ String c t) = Some c.
Proof. induction s as [|d s IH]; [done|]. by rewrite str_app_cons. Qed.

Lemma str_get_drop i s c : String.get i s = Some c → ∃ t, str_drop i s = String c t.
Proof.
  revert i. induction s as [|d s IH]; intros [|i]; simpl; try done.
  - intros [= ->]. by exists s.
  - apply IH.
Qed.

Lemma str_length_take i s : i ≤ String.length s → String.length (str_take i s) = i.
Proof. revert i. induction s as [|d s IH]; intros [|i]; simpl; try lia. intros. rewrite IH; lia. Qed.

(** Containing a one-byte string is containing the byte. *)
Lemma Contains_byte c s : Contains s (String c "") = has_byte c s.
Proof.
  induction s as [|d s IH]; [done|]. cbn [Contains has_byte]. rewrite IH. f_equal.
  apply eq_true_iff_eq. rewrite HasPrefix_spec, Ascii.eqb_eq. split.
  - intros [r Hr]. rewrite str_app_cons in Hr. by injection Hr.
  - intros ->. by exists s.
Qed.
