(* ===== verification/Regex.v ===== *)
(** * Anchored regular expressions

    The repository validates names with anchored patterns ([^...$]) over ASCII
    classes.  A pattern is transcribed as a [regex] and matched with Brzozowski
    derivatives; [re_match_spec] relates the matcher to the language.  Go
    matches runes where this matcher reads bytes, which is the same on these
    patterns: no byte of a multi-byte rune is in an ASCII class. *)

From S2P Require Import Prelude GoStrings.
From stdpp Require Import options.

Inductive regex :=
| RNone
| REps
| RCls (p : ascii → bool)
| RSeq (a b : regex)
| RAlt (a b : regex)
| RStar (a : regex).

Fixpoint nullable (r : regex) : bool :=
  match r with
  | RNone | RCls _ => false
  | REps | RStar _ => true
  | RSeq a b => nullable a && nullable b
  | RAlt a b => nullable a || nullable b
  end.

Fixpoint deriv (c : ascii) (r : regex) : regex :=
  match r with
  | RNone | REps => RNone
  | RCls p => if p c then REps else RNone
  | RSeq a b =>
      if nullable a then RAlt (RSeq (deriv c a) b) (deriv c b) else RSeq (deriv c a) b
  | RAlt a b => RAlt (deriv c a) (deriv c b)
  | RStar a => RSeq (deriv c a) (RStar a)
  end.

(** [re.MatchString s] for a pattern anchored at both ends *)
Fixpoint re_match (r : regex) (s : string) : bool :=
  match s with
  | "" => nullable r
  | String c s' => re_match (deriv c r) s'
  end.

(** The language of a regex. *)
Inductive re_lang : regex → string → Prop :=
| L_eps : re_lang REps ""
| L_cls p c : p c = true → re_lang (RCls p) (String c "")
| L_seq a b s t : re_lang a s → re_lang b t → re_lang (RSeq a b) (s +:+ t)
| L_alt_l a b s : re_lang a s → re_lang (RAlt a b) s
| L_alt_r a b s : re_lang b s → re_lang (RAlt a b) s
| L_star_nil a : re_lang (RStar a) ""
| L_star_cons a s t : re_lang a s → re_lang (RStar a) t → re_lang (RStar a) (s +:+ t).

Create HintDb re.
#[export] Hint Constructors re_lang : re.

Lemma nullable_spec r : nullable r = true ↔ re_lang r "".
Proof.
  split.
  - induction r as [| |p|a IHa b IHb|a IHa b IHb|a IHa]; simpl; try done; eauto with re.
    + intros [??]%andb_true_iff. apply (L_seq a b "" ""); auto.
    + intros [?|?]%orb_true_iff; eauto with re.
  - intros H. remember "" as s eqn:E.
    induction H; simpl; try done.
    + apply str_app_empty in E as [-> ->]. by rewrite IHre_lang1, IHre_lang2.
    + by rewrite IHre_lang.
    + by rewrite IHre_lang, orb_true_r.
Qed.

Lemma re_lang_seq_iff a b w :
  re_lang (RSeq a b) w ↔ ∃ s t, w = s +:+ t ∧ re_lang a s ∧ re_lang b t.
Proof.
  split.
  - intros H. remember (RSeq a b) as r eqn:Er.
    destruct H; simplify_eq. eauto.
  - intros (s & t & -> & ? & ?). by constructor.
Qed.

Lemma re_lang_alt_iff a b s : re_lang (RAlt a b) s ↔ re_lang a s ∨ re_lang b s.
Proof. split; [inversion 1; subst; auto|intros [?|?]; eauto with re]. Qed.

Lemma re_lang_star_inv a s c :
  re_lang (RStar a) (String c s) →
  ∃ t u, s = t +:+ u ∧ re_lang a (String c t) ∧ re_lang (RStar a) u.
Proof.
  intros H. remember (RStar a) as r eqn:Er. remember (String c s) as w eqn:Ew.
  revert s Ew. induction H as [| | | | | |a' s1 t1 H1 _ H2 IH]; intros s' Ew; try done.
  injection Er as ->. destruct s1 as [|d s1].
  - rewrite str_app_nil_l in Ew. by apply IH.
  - rewrite str_app_cons in Ew. injection Ew as -> <-. eauto.
Qed.

Lemma deriv_spec c r s : re_lang (deriv c r) s ↔ re_lang r (String c s).
Proof.
  revert s. induction r as [| |p|a IHa b IHb|a IHa b IHb|a IHa]; intros s; simpl.
  - split; inversion 1.
  - split; inversion 1.
  - destruct (p c) eqn:E; split; inversion 1; subst; eauto with re. congruence.
  - assert (re_lang (RSeq (deriv c a) b) s ↔
      ∃ t u, s = t +:+ u ∧ re_lang a (String c t) ∧ re_lang b u) as Hseq.
    { rewrite re_lang_seq_iff. by setoid_rewrite IHa. }
    assert (re_lang (RSeq a b) (String c s) ↔
      (∃ t u, s = t +:+ u ∧ re_lang a (String c t) ∧ re_lang b u)
      ∨ (re_lang a "" ∧ re_lang b (String c s))) as Hab.
    { rewrite re_lang_seq_iff. split.
      - intros ([|d t] & u & Heq & Ht & Hu).
        + right. rewrite str_app_nil_l in Heq. by subst.
        + left. rewrite str_app_cons in Heq. injection Heq as -> ->. eauto.
      - intros [(t & u & -> & Ht & Hu)|[Ha Hb]].
        + by exists (String c t), u.
        + by exists "", (String c s). }
    rewrite Hab. destruct (nullable a) eqn:En.
    + apply nullable_spec in En. rewrite re_lang_alt_iff, Hseq, IHb. tauto.
    + rewrite Hseq. split; [by left|]. intros [?|[Ha _]]; [done|].
      apply nullable_spec in Ha. congruence.
  - by rewrite !re_lang_alt_iff, IHa, IHb.
  - rewrite re_lang_seq_iff. split.
    + intros (t & u & -> & Ht & Hu). rewrite <-str_app_cons.
      apply L_star_cons; [by apply IHa|done].
    + intros (t & u & -> & Ht & Hu)%re_lang_star_inv. exists t, u.
      split; [done|]. split; [by apply IHa|done].
Qed.

Lemma re_match_spec r s : re_match r s = true ↔ re_lang r s.
Proof.
  revert r. induction s as [|c s IH]; intros r; simpl; [apply nullable_spec|].
  by rewrite IH, deriv_spec.
Qed.

(** ** All bytes of a string in a class *)

Fixpoint all_bytes (p : ascii → bool) (s : string) : bool :=
  match s with "" => true | String c s' => p c && all_bytes p s' end.

Lemma all_bytes_app p s t : all_bytes p (s +:+ t) = all_bytes p s && all_bytes p t.
Proof.
  induction s as [|c s IH]; [done|]. rewrite str_app_cons. simpl.
  by rewrite IH, andb_assoc.
Qed.

Lemma all_bytes_has_byte p c s :
  all_bytes p s = true → p c = false → has_byte c s = false.
Proof.
  induction s as [|d s IH]; [done|]. simpl. intros [Hd Hs]%andb_true_iff Hc.
  rewrite IH by done. rewrite orb_false_r. apply Ascii.eqb_neq. congruence.
Qed.

Lemma all_bytes_mono (p q : ascii → bool) s :
  (∀ c, p c = true → q c = true) → all_bytes p s = true → all_bytes q s = true.
Proof.
  intros Hpq. induction s as [|c s IH]; [done|]. simpl.
  intros [??]%andb_true_iff. rewrite Hpq, IH; done.
Qed.

Lemma re_lang_star_cls p s : re_lang (RStar (RCls p)) s ↔ all_bytes p s = true.
Proof.
  split.
  - intros H. remember (RStar (RCls p)) as r eqn:Er.
    induction H as [| | | | | |a s t Hs _ Ht IH]; try done.
    injection Er as ->. inversion Hs; subst. rewrite str_app_cons, str_app_nil_l. simpl.
    rewrite IH by done. by rewrite andb_true_r.
  - induction s as [|c s IH]; [constructor|]. simpl. intros [Hc Hs]%andb_true_iff.
    change (String c s) with (String c "" +:+ s). apply L_star_cons; [by constructor|auto].
Qed.

(** Bytes a pattern can read: a bound on every accepted string. *)
Fixpoint re_bytes (q : ascii → bool) (r : regex) : Prop :=
  match r with
  | RNone | REps => True
  | RCls p => ∀ c, p c = true → q c = true
  | RSeq a b | RAlt a b => re_bytes q a ∧ re_bytes q b
  | RStar a => re_bytes q a
  end.

Lemma re_lang_bytes q r s : re_bytes q r → re_lang r s → all_bytes q s = true.
Proof.
  intros Hq H. induction H; simpl in Hq; try done; rewrite ?all_bytes_app.
  - simpl. by rewrite Hq.
  - destruct Hq. by rewrite IHre_lang1, IHre_lang2.
  - naive_solver.
  - naive_solver.
  - by rewrite IHre_lang1, IHre_lang2.
Qed.
