(* ===== verification/GoPath.v ===== *)
(** * Go slash paths: the parts of package [path] the repository uses *)

From S2P Require Import Prelude GoStrings.
From stdpp Require Import options.

(** ** Definitions *)

(** [path.IsAbs] *)
Definition IsAbs (p : string) : bool := HasPrefix p "/".

(** [path.Clean], by segments: [out] is the output so far, innermost segment
    first.  An empty or "." segment is dropped; ".." removes the segment before
    it, is dropped at the root, and is kept at the start of a relative path. *)
Definition clean_step (rooted : bool) (out : list string) (seg : string) : list string :=
  if (seg =? "")%string || (seg =? ".")%string then out
  else if (seg =? "..")%string then
    match out with
    | top :: rest => if (top =? "..")%string then ".." :: out else rest
    | [] => if rooted then [] else [".."]
    end
  else seg :: out.

Definition clean_segs (rooted : bool) (p : string) : list string :=
  reverse (foldl (clean_step rooted) [] (Split "/" p)).

Definition unsegs (rooted : bool) (out : list string) : string :=
  if rooted then "/" +:+ Join "/" out
  else match out with [] => "." | _ => Join "/" out end.

Definition Clean (p : string) : string :=
  if (p =? "")%string then "." else unsegs (IsAbs p) (clean_segs (IsAbs p) p).

(** ** The shape of a clean path *)

Definition proper_seg (w : string) : Prop :=
  w ≠ "" ∧ w ≠ "." ∧ w ≠ ".." ∧ has_byte "/" w = false.

#[export] Instance proper_seg_dec w : Decision (proper_seg w).
Proof. unfold proper_seg. apply _. Defined.

(** Some ".." segments (none when rooted), then proper ones. *)
Definition clean_form (rooted : bool) (out : list string) : Prop :=
  ∃ k downs, out = replicate k ".." ++ downs ∧ Forall proper_seg downs ∧
             (rooted = true → k = 0).

Lemma clean_step_form rooted k downs seg :
  Forall proper_seg downs → (rooted = true → k = 0) → has_byte "/" seg = false →
  ∃ k' downs', clean_step rooted (reverse downs ++ replicate k "..") seg
                 = reverse downs' ++ replicate k' ".." ∧
    Forall proper_seg downs' ∧ (rooted = true → k' = 0).
Proof.
  intros Hd Hk Hs. unfold clean_step.
  destruct (String.eqb_spec seg "") as [|H1]; [by exists k, downs|].
  destruct (String.eqb_spec seg ".") as [|H2]; [by exists k, downs|].
  destruct (String.eqb_spec seg "..") as [->|H3]; simpl.
  - destruct downs as [|d downs _] using rev_ind.
    + simpl. destruct k as [|k]; simpl.
      * destruct rooted; [by exists 0, []|]. by exists 1, [].
      * exists (S (S k)), []. split; [done|]. split; [done|].
        intros ->. by specialize (Hk eq_refl).
    + apply Forall_app in Hd as [Hd Hlast]. apply Forall_singleton in Hlast as (?&?&?&?).
      rewrite reverse_app. simpl. destruct (String.eqb_spec d ".."); [done|].
      by exists k, downs.
  - exists k, (downs ++ [seg]). rewrite reverse_app. split; [done|]. split; [|done].
    apply Forall_app. split; [done|]. by apply Forall_singleton.
Qed.

Lemma clean_fold_form rooted l :
  ∀ k downs, Forall proper_seg downs → (rooted = true → k = 0) →
  Forall (λ w, has_byte "/" w = false) l →
  ∃ k' downs', foldl (clean_step rooted) (reverse downs ++ replicate k "..") l
                 = reverse downs' ++ replicate k' ".." ∧
    Forall proper_seg downs' ∧ (rooted = true → k' = 0).
Proof.
  induction l as [|w l IH]; intros k downs Hd Hk Hl; simpl; [by exists k, downs|].
  apply Forall_cons in Hl as [Hw Hl].
  destruct (clean_step_form rooted k downs w Hd Hk Hw) as (k' & downs' & -> & ? & ?).
  by apply IH.
Qed.

Lemma Split_segs_slash p : Forall (λ w, has_byte "/" w = false) (Split "/" p).
Proof. apply Forall_forall. intros w. apply Split_seg_no_sep. Qed.

Lemma clean_segs_form rooted p : clean_form rooted (clean_segs rooted p).
Proof.
  destruct (clean_fold_form rooted (Split "/" p) 0 [] (Forall_nil_2 _) (λ _, eq_refl)
              (Split_segs_slash p)) as (k & downs & E & ? & ?).
  exists k, downs. unfold clean_segs. simpl in E. rewrite E.
  by rewrite reverse_app, reverse_involutive, reverse_replicate.
Qed.

(** Cleaning the segments of a clean path changes nothing. *)
Lemma clean_fold_downs rooted downs out :
  Forall proper_seg downs → foldl (clean_step rooted) out downs = reverse downs ++ out.
Proof.
  intros H. revert out. induction H as [|d downs (?&?&?&?) _ IH]; intros out; [done|].
  simpl. rewrite IH, reverse_cons, <-(assoc (++)). unfold clean_step.
  destruct (String.eqb_spec d ""), (String.eqb_spec d "."), (String.eqb_spec d ".."); done.
Qed.

Lemma clean_fold_ups k n :
  foldl (clean_step false) (replicate n "..") (replicate k "..") = replicate (k + n) "..".
Proof.
  revert n. induction k as [|k IH]; intros n; [done|]. simpl.
  assert (clean_step false (replicate n "..") ".." = replicate (S n) "..") as ->.
  { destruct n; done. }
  rewrite IH. by rewrite <-Nat.add_succ_comm.
Qed.

Lemma clean_form_fold rooted out :
  clean_form rooted out → reverse (foldl (clean_step rooted) [] out) = out.
Proof.
  intros (k & downs & -> & Hd & Hk). rewrite foldl_app.
  destruct rooted.
  - rewrite (Hk eq_refl). simpl. rewrite clean_fold_downs by done.
    by rewrite app_nil_r, reverse_involutive.
  - change (@nil string) with (replicate 0 ("..":string)). rewrite clean_fold_ups.
    rewrite clean_fold_downs by done.
    by rewrite reverse_app, reverse_involutive, reverse_replicate, Nat.add_0_r.
Qed.

Lemma clean_form_segs rooted out :
  clean_form rooted out → Forall (λ w, w ≠ "" ∧ has_byte "/" w = false) out.
Proof.
  intros (k & downs & -> & Hd & _). apply Forall_app. split.
  - apply Forall_replicate. done.
  - eapply Forall_impl; [exact Hd|]. unfold proper_seg. naive_solver.
Qed.

Lemma Join_first sep w ws : w ≠ "" → first_byte (Join sep (w :: ws)) = first_byte w.
Proof. intros Hw. destruct w as [|c w]; [done|]. destruct ws; done. Qed.

Lemma IsAbs_first p : IsAbs p = true ↔ first_byte p = Some "/"%char.
Proof.
  unfold IsAbs. rewrite HasPrefix_spec. destruct p as [|c p]; simpl.
  - split; [by intros [r ?]|done].
  - split; [by intros [r [= -> _]]|]. intros [= ->]. by exists p.
Qed.

Lemma unsegs_IsAbs rooted out : clean_form rooted out → IsAbs (unsegs rooted out) = rooted.
Proof.
  intros Hf%clean_form_segs. destruct rooted; simpl.
  - apply IsAbs_first. done.
  - destruct (IsAbs _) eqn:E; [|done]. apply IsAbs_first in E.
    destruct Hf as [|w out [Hw Hs] _]; [done|].
    rewrite Join_first in E by done. destruct w as [|c w]; [done|].
    simpl in E. injection E as ->. done.
Qed.

Lemma unsegs_nonempty rooted out : clean_form rooted out → unsegs rooted out ≠ "".
Proof.
  intros Hf%clean_form_segs. destruct rooted; simpl; [done|].
  destruct Hf as [|w out [Hw Hs] _]; [done|].
  destruct w as [|c w]; [done|]. by destruct out.
Qed.

Lemma clean_segs_unsegs rooted out :
  clean_form rooted out → clean_segs rooted (unsegs rooted out) = out.
Proof.
  intros Hf. pose proof (clean_form_segs _ _ Hf) as Hs. unfold clean_segs, unsegs.
  assert (out ≠ [] → Split "/" (Join "/" out) = out) as HSJ.
  { intros Hne. apply Split_Join; [done|]. eapply Forall_impl; [exact Hs|]. naive_solver. }
  destruct rooted; [|destruct out as [|w out]; [done|rewrite HSJ by done; by apply clean_form_fold]].
  rewrite str_app_cons, str_app_nil_l. simpl.
  destruct out as [|w out]; [done|].
  change (clean_step true [] "") with (@nil string).
  rewrite HSJ by done. by apply (clean_form_fold true).
Qed.

(** [path.Clean] is idempotent: a cleaned path is clean. *)
Lemma Clean_unsegs rooted out : clean_form rooted out → Clean (unsegs rooted out) = unsegs rooted out.
Proof.
  intros Hf. unfold Clean. pose proof (unsegs_nonempty _ _ Hf) as Hne.
  apply String.eqb_neq in Hne. rewrite Hne, unsegs_IsAbs by done.
  by rewrite clean_segs_unsegs.
Qed.

Lemma Clean_shape p :
  ∃ out, Clean p = unsegs (IsAbs p) out ∧ clean_form (IsAbs p) out.
Proof.
  unfold Clean. destruct (String.eqb_spec p "") as [->|].
  - exists []. split; [done|]. by exists 0, [].
  - eexists. split; [done|]. apply clean_segs_form.
Qed.

Lemma Clean_idemp p : Clean (Clean p) = Clean p.
Proof. destruct (Clean_shape p) as (out & -> & Hf). by apply Clean_unsegs. Qed.

Lemma Clean_IsAbs p : IsAbs (Clean p) = IsAbs p.
Proof. destruct (Clean_shape p) as (out & -> & Hf). by apply unsegs_IsAbs. Qed.

(** ** Ancestors *)

(** The parts of a path: its segments. *)
Definition segments (p : string) : list string :=
  if IsAbs p then clean_segs true p else clean_segs false p.

(** A clean relative path that does not start with ".." has no ".." at all:
    joined below any directory it stays inside it. *)
Lemma Clean_relative_contained p :
  IsAbs p = false → Clean p ≠ ".." → HasPrefix (Clean p) "../" = false →
  Forall proper_seg (segments (Clean p)).
Proof.
  intros Hrel H1 H2. unfold segments. rewrite Clean_IsAbs, Hrel.
  destruct (Clean_shape p) as (out & Hc & Hf). rewrite Hrel in Hc, Hf.
  rewrite Hc in *. rewrite clean_segs_unsegs by done.
  destruct Hf as ([|k] & downs & -> & Hd & _); [done|]. exfalso. simpl in *.
  destruct (replicate k ".." ++ downs) as [|w ws] eqn:E; [done|].
  assert (HasPrefix (Join "/" (".." :: w :: ws)) "../" = true) as Hp.
  { apply HasPrefix_spec. by exists (Join "/" (w :: ws)). }
  change (HasPrefix (Join "/" (".." :: w :: ws)) "../" = false) in H2. congruence.
Qed.

(** ** Clean absolute paths other than the root *)

Definition clean_abs (p : string) : Prop := IsAbs p = true ∧ Clean p = p ∧ p ≠ "/".

#[export] Instance clean_abs_dec p : Decision (clean_abs p).
Proof. unfold clean_abs. apply _. Defined.

Lemma Split_app_sep sep s t : Split sep (s +:+ String sep t) = Split sep s ++ Split sep t.
Proof.
  induction s as [|c s IH]; [rewrite str_app_nil_l; simpl; by rewrite Ascii.eqb_refl|].
  rewrite str_app_cons. simpl. rewrite IH. destruct (Ascii.eqb c sep); [done|].
  destruct (Split sep s) eqn:E; [by destruct (Split_nonempty sep s)|done].
Qed.

Lemma clean_abs_segments p :
  clean_abs p →
  p = "/" +:+ Join "/" (segments p) ∧ segments p ≠ [] ∧ Split "/" p = "" :: segments p.
Proof.
  intros (Habs & Hc & Hne). destruct (Clean_shape p) as (out & Ho & Hf).
  rewrite Habs in Ho, Hf. rewrite Hc in Ho.
  assert (segments p = out) as ->.
  { unfold segments. rewrite Habs, Ho. by apply clean_segs_unsegs. }
  assert (out ≠ []) as Hout by by intros ->.
  split; [done|]. split; [done|]. rewrite Ho. simpl. f_equal.
  apply Split_Join; [done|]. pose proof (clean_form_segs _ _ Hf) as Hs.
  eapply Forall_impl; [exact Hs|]. naive_solver.
Qed.

Lemma segments_inj a b : clean_abs a → clean_abs b → segments a = segments b → a = b.
Proof.
  intros (Ha & _)%clean_abs_segments (Hb & _)%clean_abs_segments E. by rewrite Ha, Hb, E.
Qed.

(** [strings.HasPrefix(b, a+"/")] on clean absolute paths: [a] is a strict
    ancestor of [b]. *)
Lemma HasPrefix_dir a b :
  clean_abs a → clean_abs b →
  HasPrefix b (a +:+ "/") = true ↔ ∃ w ws, segments b = segments a ++ w :: ws.
Proof.
  intros (Ha & Hna & HSa)%clean_abs_segments (Hb & _ & HSb)%clean_abs_segments.
  rewrite HasPrefix_spec. split.
  - intros [r Hr]. rewrite <-str_app_assoc, str_app_cons, str_app_nil_l in Hr.
    rewrite Hr, Split_app_sep, HSa in HSb. simpl in HSb. injection HSb as HSb.
    destruct (Split "/" r) as [|w ws] eqn:E; [by destruct (Split_nonempty "/" r)|].
    exists w, ws. by rewrite <-Hr in HSb.
  - intros (w & ws & Hs). exists (Join "/" (w :: ws)). rewrite Hb, Ha, Hs. clear - Hna.
    rewrite <-!str_app_assoc. f_equal.
    induction (segments a) as [|x l IH]; [done|]. destruct l as [|y l]; [done|].
    rewrite <-app_comm_cons, !Join_cons, <-!str_app_assoc, IH by done. done.
Qed.

(** Neither directory contains the other. *)
Definition disjoint_dirs (a b : string) : Prop :=
  ¬ segments a `prefix_of` segments b ∧ ¬ segments b `prefix_of` segments a.

Lemma disjoint_dirs_spec a b :
  clean_abs a → clean_abs b →
  disjoint_dirs a b ↔
  a ≠ b ∧ HasPrefix a (b +:+ "/") = false ∧ HasPrefix b (a +:+ "/") = false.
Proof.
  intros Ha Hb. rewrite <-!not_true_iff_false, !HasPrefix_dir by done.
  assert (∀ x y, clean_abs x → clean_abs y → segments x `prefix_of` segments y ↔
    x = y ∨ ∃ w ws, segments y = segments x ++ w :: ws) as H.
  { intros x y Hx Hy. split.
    - intros [[|w ws] E]; [left|right; by exists w, ws].
      rewrite app_nil_r in E. by apply segments_inj.
    - intros [->|(w & ws & ->)]; [done|]. by apply prefix_app_r. }
  unfold disjoint_dirs. rewrite !H by done. naive_solver.
Qed.

(** ** Clean paths of one kind *)

Lemma clean_rel_segments p :
  IsAbs p = false → Clean p = p → p ≠ "." →
  p = Join "/" (segments p) ∧ segments p ≠ [] ∧ Split "/" p = segments p.
Proof.
  intros Hrel Hc Hne. destruct (Clean_shape p) as (out & Ho & Hf).
  rewrite Hrel in Ho, Hf. rewrite Hc in Ho.
  assert (segments p = out) as ->.
  { unfold segments. rewrite Hrel, Ho. by apply clean_segs_unsegs. }
  assert (out ≠ []) as Hout by by intros ->.
  assert (p = Join "/" out) as Hp by (by destruct out).
  split; [done|]. split; [done|]. rewrite Hp.
  apply Split_Join; [done|]. pose proof (clean_form_segs _ _ Hf) as Hs.
  eapply Forall_impl; [exact Hs|]. naive_solver.
Qed.

Lemma Join_app_first sep xs w ws : xs ≠ [] → Join sep (xs ++ w :: ws) = Join sep xs +:+ sep +:+ Join sep (w :: ws).
Proof.
  intros Hne. induction xs as [|x l IH]; [done|]. destruct l as [|y l]; [done|].
  rewrite <-app_comm_cons, !Join_cons by done. rewrite IH by done. by rewrite <-!str_app_assoc.
Qed.

Lemma HasPrefix_dir_rel a b :
  IsAbs a = false → Clean a = a → a ≠ "." → IsAbs b = false → Clean b = b → b ≠ "." →
  HasPrefix b (a +:+ "/") = true ↔ ∃ w ws, segments b = segments a ++ w :: ws.
Proof.
  intros Ha1 Ha2 Ha3 Hb1 Hb2 Hb3.
  destruct (clean_rel_segments a) as (Ha & Hna & HSa); [done..|].
  destruct (clean_rel_segments b) as (Hb & _ & HSb); [done..|].
  rewrite HasPrefix_spec. split.
  - intros [r Hr]. rewrite <-str_app_assoc, str_app_cons, str_app_nil_l in Hr.
    rewrite Hr, Split_app_sep, HSa in HSb.
    destruct (Split "/" r) as [|w ws] eqn:E; [by destruct (Split_nonempty "/" r)|].
    exists w, ws. by rewrite <-Hr in HSb.
  - intros (w & ws & Hs). exists (Join "/" (w :: ws)).
    rewrite Hb, Hs, Join_app_first by done. rewrite <-Ha. by rewrite <-!str_app_assoc.
Qed.

Lemma clean_root_segments : segments "/" = [].
Proof. done. Qed.

Lemma segments_unsegs rooted out : clean_form rooted out → segments (unsegs rooted out) = out.
Proof.
  intros Hf. unfold segments. rewrite unsegs_IsAbs by done.
  destruct rooted; by apply clean_segs_unsegs.
Qed.

Lemma clean_segments_inj a b :
  IsAbs a = IsAbs b → Clean a = a → Clean b = b → segments a = segments b → a = b.
Proof.
  intros Hab Ha Hb Hs. destruct (Clean_shape a) as (oa & Hoa & Hfa), (Clean_shape b) as (ob & Hob & Hfb).
  rewrite Ha in Hoa. rewrite Hb in Hob. rewrite <-Hab in Hob, Hfb.
  rewrite Hoa, Hob in Hs. rewrite !segments_unsegs in Hs by done. congruence.
Qed.
