(* ===== verification/Authz.v ===== *)
(** * internal/authz: the permission catalogue, permission sets, folders, grants

    Models [catalogue.go], [set.go], [folder.go] and [grants.go]: the
    dependency-free core that answers "may this principal do P on job J".

    A [PSet] is the uint32 bit set of the code, as a [Z]; [set_ok] says it holds
    catalogue bits only.  A [Grants] value is the Go struct with its three
    fields; its fields are unexported and only [Grants_Add] writes them, and
    [coherent] is the invariant [Grants_Add] keeps: the two permission maps
    agree with the list of sources. *)

From S2P Require Import Prelude GoStrings.
From stdpp Require Import options.

(** ** catalogue.go *)

Abbreviation Permission := string.

Definition JobRead : Permission := "job.read".
Definition JobConfigure : Permission := "job.configure".
Definition JobDelete : Permission := "job.delete".
Definition RunTrigger : Permission := "run.trigger".
Definition RunReplay : Permission := "run.replay".
Definition RunCancel : Permission := "run.cancel".
Definition RunDelete : Permission := "run.delete".
Definition RunApprove : Permission := "run.approve".
Definition ScheduleConfigure : Permission := "schedule.configure".
Definition SecretList : Permission := "secret.list".
Definition SecretWrite : Permission := "secret.write".
Definition GitCredentialRead : Permission := "gitcredential.read".
Definition GitCredentialWrite : Permission := "gitcredential.write".
Definition VarsRead : Permission := "vars.read".
Definition VarsWrite : Permission := "vars.write".
Definition WebhookRead : Permission := "webhook.read".
Definition WebhookWrite : Permission := "webhook.write".
Definition AppSourceRead : Permission := "appsource.read".
Definition AppSourceWrite : Permission := "appsource.write".
Definition AgentRead : Permission := "agent.read".
Definition AgentManage : Permission := "agent.manage".
Definition TokenCreate : Permission := "token.create".
Definition TokenManage : Permission := "token.manage".
Definition AuditRead : Permission := "audit.read".
Definition AuthzRead : Permission := "authz.read".
Definition AgentEnroll : Permission := "agent.enroll".

Definition folderScopableCount : Z := 9.

Definition catalogue : list Permission :=
  [JobRead; JobConfigure; JobDelete;
   RunTrigger; RunReplay; RunCancel; RunDelete; RunApprove;
   ScheduleConfigure;
   SecretList; SecretWrite;
   GitCredentialRead; GitCredentialWrite;
   VarsRead; VarsWrite;
   WebhookRead; WebhookWrite;
   AppSourceRead; AppSourceWrite;
   AgentRead; AgentManage;
   TokenCreate; TokenManage;
   AuditRead; AuthzRead;
   AgentEnroll].

(** The index of [p] in the catalogue, or -1. *)
Fixpoint bitOf_from (i : Z) (cs : list Permission) (p : Permission) : Z :=
  match cs with
  | [] => -1
  | c :: cs' => if (c =? p)%string then i else bitOf_from (i + 1) cs' p
  end.
Definition bitOf (p : Permission) : Z := bitOf_from 0 catalogue p.

(** [Parse name]: the permission, when it is in the catalogue. *)
Definition Parse (name : string) : option Permission :=
  if (0 <=? bitOf name)%Z then Some name else None.

Definition FolderScopable (p : Permission) : bool :=
  let i := bitOf p in (0 <=? i)%Z && (i <? folderScopableCount)%Z.

Definition RoleNames : list string := ["admin"; "developer"; "viewer"].

(** ** set.go *)

(** [type Set uint32]; bit [i] is the [i]-th permission of the catalogue. *)
Abbreviation PSet := Z.

Definition AllSet : PSet := (Z.shiftl 1 (Z.of_nat (length catalogue)) - 1)%Z.

Definition Set_Has (s : PSet) (p : Permission) : bool :=
  let i := bitOf p in
  (0 <=? i)%Z && negb (Z.land s (Z.shiftl 1 i) =? 0)%Z.

Definition Set_With (s : PSet) (ps : list Permission) : PSet :=
  foldl (λ s p, let i := bitOf p in
                if (0 <=? i)%Z then Z.lor s (Z.shiftl 1 i) else s) s ps.

Definition Set_Union (s o : PSet) : PSet := Z.lor s o.
Definition Set_Intersect (s o : PSet) : PSet := Z.land s o.
Definition Set_FolderPart (s : PSet) : PSet :=
  Z.land s (Z.shiftl 1 folderScopableCount - 1).
Definition Set_IsEmpty (s : PSet) : bool := (s =? 0)%Z.

Fixpoint names_from (i : Z) (cs : list Permission) (s : PSet) : list string :=
  match cs with
  | [] => []
  | p :: cs' =>
      if negb (Z.land s (Z.shiftl 1 i) =? 0)%Z
      then p :: names_from (i + 1) cs' s else names_from (i + 1) cs' s
  end.
Definition Set_Names (s : PSet) : list string := SortStrings (names_from 0 catalogue s).

(** [Bundle role]: the global permission set of a built-in role. *)
Definition Bundle (role : string) : option PSet :=
  let viewer := Set_With 0 [JobRead; VarsRead; WebhookRead; AppSourceRead; AgentRead] in
  if (role =? "viewer")%string then Some viewer
  else if (role =? "developer")%string then
    Some (Set_With viewer [JobConfigure; JobDelete; RunTrigger; RunReplay; RunCancel;
                           RunDelete; RunApprove; ScheduleConfigure; SecretList; TokenCreate])
  else if (role =? "admin")%string then Some AllSet
  else None.

(** ** folder.go *)

Definition err_folder_space : text := [Lit "invalid folder: whitespace is not allowed"].
Definition err_folder_glob : text :=
  [Lit "invalid folder: folders are literal job-name prefixes, "; Quo "*"; Lit ", ";
   Quo "?"; Lit ", "; Quo "["; Lit " are not allowed"].
Definition err_folder_seg : text :=
  [Lit "invalid folder: segments must be non-empty and must not be "; Quo "."; Lit " or "; Quo ".."].

Definition NormalizeFolder (key : string) : res string :=
  _ ← fail_if (existsb IsSpace (runes key)) err_folder_space;
  _ ← fail_if (ContainsAny key "*?[") err_folder_glob;
  let key := Trim "/" key in
  _ ← fail_if (existsb (λ seg, (seg =? "")%string || (seg =? ".")%string || (seg =? "..")%string)
                       (Split "/" key)) err_folder_seg;
  Ok key.

(** [Covers folder job]: folder is a proper ancestor folder of job. *)
Definition Covers (folder job : string) : bool := HasPrefix job (folder +:+ "/").

(** The proper ancestor folders of job, outermost first. *)
Definition Ancestors (job : string) : list string :=
  flat_map (λ i, match String.get i job with
                 | Some c => if Ascii.eqb c "/" && (0 <? i)%nat then [str_take i job] else []
                 | None => []
                 end)
           (seq 0 (String.length job)).

(** ** grants.go *)

(** One grant with the reason it exists; [s_folder = ""] means global. *)
Record source := Source { s_folder : string; s_perms : PSet; s_by : text }.

Record Grants := MkGrants {
  g_global : PSet;
  g_folders : gmap string PSet;
  g_sources : list source  (* insertion order *)
}.

(** The zero value holds nothing. *)
Definition Grants_zero : Grants := MkGrants 0 ∅ [].

Definition folder_set (m : gmap string PSet) (f : string) : PSet := default 0%Z (m !! f).

Definition Grants_Add (g : Grants) (folder : string) (perms : PSet) (by_ : text) : Grants :=
  if Set_IsEmpty perms then g
  else if (folder =? "")%string then
    MkGrants (Set_Union (g_global g) perms) (g_folders g)
             (g_sources g ++ [Source folder perms by_])
  else
    MkGrants (g_global g)
             (<[folder := Set_Union (folder_set (g_folders g) folder) perms]> (g_folders g))
             (g_sources g ++ [Source folder perms by_]).

Definition add_source (g : Grants) (s : source) : Grants :=
  Grants_Add g (s_folder s) (s_perms s) (s_by s).

Definition Grants_Union (g o : Grants) : Grants :=
  foldl add_source (foldl add_source Grants_zero (g_sources g)) (g_sources o).

Definition Grants_Can (g : Grants) (p : Permission) (job : string) : bool :=
  Set_Has (g_global g) p
  || existsb (λ f, Set_Has (folder_set (g_folders g) f) p) (Ancestors job).

(** The sources that grant [p] on [job]: global first, then folders by ascending
    depth, then insertion order. *)
Definition Grants_ordered (g : Grants) (p : Permission) (job : string) : list source :=
  let held := filter (λ s, Set_Has (s_perms s) p = true) (g_sources g) in
  let global := filter (λ s, s_folder s = "") held in
  let folders := filter (λ s, s_folder s ≠ "" ∧ Covers (s_folder s) job = true) held in
  global ++ stable_sort (λ s, CountByte (s_folder s) "/") folders.

Definition Grants_Decide (g : Grants) (p : Permission) (job : string) : bool * text :=
  match Grants_ordered g p job with
  | [] => (false, [])
  | s :: _ => (true, s_by s)
  end.

Definition Grants_Explain (g : Grants) (p : Permission) (job : string) : list text :=
  s_by <$> Grants_ordered g p job.

Definition Grants_HeldAnywhere (g : Grants) (p : Permission) : bool :=
  Set_Has (g_global g) p || existsb (λ fs, Set_Has fs.2 p) (map_to_list (g_folders g)).

Definition Grants_IsEmpty (g : Grants) : bool :=
  match g_sources g with [] => true | _ => false end.

Definition Grants_Restrict (g : Grants) (ceiling : PSet) (suffix : string) : Grants :=
  foldl (λ out s, Grants_Add out (s_folder s) (Set_Intersect (s_perms s) ceiling)
                                 (s_by s ++ [Lit suffix]))
        Grants_zero (g_sources g).

Record GrantsView := MkView { v_global : list string; v_folders : gmap string (list string) }.

Definition Grants_View (g : Grants) : GrantsView :=
  MkView (Set_Names (g_global g))
         (Set_Names <$> filter (λ fs, Set_IsEmpty fs.2 = false) (g_folders g)).

Definition parseSet (names : list string) : res PSet :=
  fold_res (λ s n, match Parse n with
                   | Some p => Ok (Set_With s [p])
                   | None => Err [Lit "unknown permission "; Quo n]
                   end) 0%Z names.

Definition fromview_folder (v : GrantsView) (g : Grants) (k : string) : res Grants :=
  folder ← wrap [Lit "folder "; Quo k; Lit ": "] (NormalizeFolder k);
  set ← wrap [Lit "folder "; Quo k; Lit ": "] (parseSet (default [] (v_folders v !! k)));
  _ ← fail_if (negb (set =? Set_FolderPart set)%Z)
        [Lit "folder "; Quo k; Lit ": grants a global-only permission"];
  Ok (Grants_Add g folder set [Lit "view"]).

Definition FromView (v : GrantsView) : res Grants :=
  global ← wrap [Lit "global: "] (parseSet (v_global v));
  fold_res (fromview_folder v) (Grants_Add Grants_zero "" global [Lit "view"])
           (sorted_keys (v_folders v)).

Definition RoleGrants (role : string) (by_ : text) : Grants :=
  match Bundle role with
  | Some set => Grants_Add Grants_zero "" set by_
  | None => Grants_zero
  end.

Definition AllGrants (by_ : text) : Grants := Grants_Add Grants_zero "" AllSet by_.

(** ** Facts: permission sets *)

Definition nperms : Z := 26.

(** A set that holds catalogue bits only. *)
Definition set_ok (s : PSet) : Prop := (0 ≤ s < 2 ^ nperms)%Z.

#[export] Instance set_ok_dec s : Decision (set_ok s).
Proof. unfold set_ok. apply _. Defined.

Lemma catalogue_NoDup : NoDup catalogue.
Proof. apply (bool_decide_unpack _). by vm_compute. Qed.

Lemma bitOf_from_spec i cs p :
  (∃ k, cs !! k = Some p ∧ bitOf_from i cs p = (i + Z.of_nat k)%Z)
  ∨ ((p ∉ cs) ∧ bitOf_from i cs p = (-1)%Z).
Proof.
  revert i. induction cs as [|c cs IH]; intros i; simpl; [by right; split; [apply not_elem_of_nil|]|].
  destruct (String.eqb_spec c p) as [->|Hne].
  - left. exists 0. split; [done|lia].
  - destruct (IH (i + 1)%Z) as [(k & Hk & ->)|[Hn ->]].
    + left. exists (S k). split; [done|lia].
    + right. split; [|done]. by apply not_elem_of_cons.
Qed.

Lemma bitOf_lookup p k : catalogue !! k = Some p → bitOf p = Z.of_nat k.
Proof.
  intros Hk. destruct (bitOf_from_spec 0 catalogue p) as [(k' & Hk' & E)|[Hn _]].
  - unfold bitOf. rewrite E. rewrite (NoDup_lookup _ _ _ _ catalogue_NoDup Hk Hk'). lia.
  - destruct Hn. apply list_elem_of_lookup. eauto.
Qed.

Lemma bitOf_inv p : (0 ≤ bitOf p)%Z → ∃ k, catalogue !! k = Some p ∧ bitOf p = Z.of_nat k.
Proof.
  intros H. destruct (bitOf_from_spec 0 catalogue p) as [(k & Hk & E)|[_ E]].
  - exists k. split; [done|]. unfold bitOf. lia.
  - unfold bitOf in H. lia.
Qed.

Lemma bitOf_bound p : (bitOf p < nperms)%Z.
Proof.
  destruct (decide (0 ≤ bitOf p)%Z) as [H|H]; [|unfold nperms; lia].
  destruct (bitOf_inv p H) as (k & Hk & ->). apply lookup_lt_Some in Hk.
  unfold nperms. simpl in Hk. lia.
Qed.

Lemma land_bit_zero s i : (0 ≤ i)%Z → (Z.land s (Z.shiftl 1 i) =? 0)%Z = negb (Z.testbit s i).
Proof.
  intros Hi. rewrite Z.shiftl_1_l.
  destruct (Z.testbit s i) eqn:E; simpl.
  - apply Z.eqb_neq. intros H. apply (f_equal (λ z, Z.testbit z i)) in H.
    rewrite Z.land_spec, Z.pow2_bits_true, E, Z.bits_0 in H by done. done.
  - apply Z.eqb_eq. apply Z.bits_inj'. intros n Hn. rewrite Z.land_spec, Z.bits_0.
    destruct (Z.eq_dec n i) as [->|Hne]; [by rewrite E|].
    rewrite Z.pow2_bits_false by lia. apply andb_false_r.
Qed.

Lemma Set_Has_testbit s p : Set_Has s p = (0 <=? bitOf p)%Z && Z.testbit s (bitOf p).
Proof.
  unfold Set_Has. destruct (Z.leb_spec 0 (bitOf p)); [|done].
  by rewrite land_bit_zero, negb_involutive.
Qed.

Lemma Set_Has_0 p : Set_Has 0 p = false.
Proof. by rewrite Set_Has_testbit, Z.bits_0, andb_false_r. Qed.

Lemma Set_Has_Union s o p : Set_Has (Set_Union s o) p = Set_Has s p || Set_Has o p.
Proof. unfold Set_Union. rewrite !Set_Has_testbit, Z.lor_spec. by destruct (0 <=? bitOf p)%Z. Qed.

Lemma Set_Has_Intersect s o p : Set_Has (Set_Intersect s o) p = Set_Has s p && Set_Has o p.
Proof. unfold Set_Intersect. rewrite !Set_Has_testbit, Z.land_spec. by destruct (0 <=? bitOf p)%Z. Qed.

Lemma Set_Has_FolderPart s p : Set_Has (Set_FolderPart s) p = Set_Has s p && FolderScopable p.
Proof.
  unfold Set_FolderPart, FolderScopable. rewrite !Set_Has_testbit, Z.land_spec.
  rewrite Z.shiftl_1_l. change (2 ^ folderScopableCount - 1)%Z with (Z.ones 9).
  destruct (Z.leb_spec 0 (bitOf p)) as [H|]; [|done]. simpl.
  destruct (Z.ltb_spec (bitOf p) folderScopableCount) as [Hlt|Hge]; unfold folderScopableCount in *.
  - by rewrite Z.ones_spec_low by lia.
  - by rewrite Z.ones_spec_high by lia.
Qed.

Lemma Set_Has_With1 s q p :
  Set_Has (Set_With s [q]) p = Set_Has s p || ((0 <=? bitOf q)%Z && (q =? p)%string).
Proof.
  unfold Set_With. simpl. destruct (Z.leb_spec 0 (bitOf q)) as [Hq|]; [|by rewrite orb_false_r].
  rewrite !Set_Has_testbit, Z.lor_spec, Z.shiftl_1_l. simpl.
  destruct (Z.leb_spec 0 (bitOf p)) as [Hp|Hp]; simpl.
  - f_equal. destruct (String.eqb_spec q p) as [->|Hne].
    + by apply Z.pow2_bits_true.
    + apply Z.pow2_bits_false. intros E. apply Hne.
      destruct (bitOf_inv p Hp) as (k & Hk & Ek), (bitOf_inv q Hq) as (k' & Hk' & Ek').
      assert (k = k') as -> by lia. congruence.
  - destruct (String.eqb_spec q p) as [->|]; [lia|done].
Qed.

Lemma Set_With_cons s q ps : Set_With s (q :: ps) = Set_With (Set_With s [q]) ps.
Proof. done. Qed.

Lemma Set_Has_With s ps p :
  Set_Has (Set_With s ps) p = Set_Has s p || ((0 <=? bitOf p)%Z && bool_decide (p ∈ ps)).
Proof.
  revert s. induction ps as [|q ps IH]; intros s.
  - rewrite bool_decide_eq_false_2 by apply not_elem_of_nil. by rewrite andb_false_r, orb_false_r.
  - rewrite Set_With_cons, IH, Set_Has_With1, <-orb_assoc. f_equal.
    destruct (String.eqb_spec q p) as [->|Hne].
    + rewrite (bool_decide_eq_true_2 (p ∈ p :: ps)) by left.
      destruct (0 <=? bitOf p)%Z; [done|]. by destruct (bool_decide _).
    + rewrite andb_false_r. simpl. f_equal. apply bool_decide_ext.
      rewrite elem_of_cons. naive_solver.
Qed.

Lemma Set_Has_AllSet p : Set_Has AllSet p = (0 <=? bitOf p)%Z.
Proof.
  rewrite Set_Has_testbit. destruct (Z.leb_spec 0 (bitOf p)) as [H|]; [|done]. simpl.
  change AllSet with (Z.ones 26). apply Z.ones_spec_low.
  pose proof (bitOf_bound p). unfold nperms in *. lia.
Qed.

(** *** Ranges *)

Lemma set_ok_testbit s : set_ok s ↔ (0 ≤ s)%Z ∧ ∀ i, (nperms ≤ i)%Z → Z.testbit s i = false.
Proof.
  unfold set_ok. split.
  - intros [H1 H2]. split; [done|]. intros i Hi. unfold nperms in *.
    destruct (decide (s = 0)%Z) as [->|]; [apply Z.bits_0|].
    apply Z.bits_above_log2; [done|].
    pose proof (Z.log2_lt_pow2 s 26). lia.
  - intros [H1 H2]. split; [done|]. destruct (decide (s = 0)%Z) as [->|Hne]; [done|].
    apply Z.log2_lt_pow2; [lia|]. apply Znot_ge_lt. intros Hge.
    pose proof (Z.bit_log2 s) as Hb. rewrite H2 in Hb by lia. specialize (Hb ltac:(lia)). done.
Qed.

Lemma set_ok_0 : set_ok 0.
Proof. by apply (bool_decide_unpack _). Qed.
Lemma set_ok_AllSet : set_ok AllSet.
Proof. by apply (bool_decide_unpack _). Qed.
Lemma set_ok_Union s o : set_ok s → set_ok o → set_ok (Set_Union s o).
Proof.
  rewrite !set_ok_testbit. intros [??] [??]. split; [by apply Z.lor_nonneg|].
  intros i Hi. unfold Set_Union. rewrite Z.lor_spec. by rewrite H0, H2.
Qed.
Lemma set_ok_Intersect s o : set_ok s → (0 ≤ o)%Z → set_ok (Set_Intersect s o).
Proof.
  rewrite !set_ok_testbit. intros [??] ?. split; [apply Z.land_nonneg; auto|].
  intros i Hi. unfold Set_Intersect. rewrite Z.land_spec. by rewrite H0.
Qed.
Lemma set_ok_FolderPart s : set_ok s → set_ok (Set_FolderPart s).
Proof. intros. by apply set_ok_Intersect. Qed.
Lemma set_ok_With s ps : set_ok s → set_ok (Set_With s ps).
Proof.
  revert s. induction ps as [|q ps IH]; intros s Hs; [done|]. rewrite Set_With_cons. apply IH.
  unfold Set_With. simpl. destruct (Z.leb_spec 0 (bitOf q)); [|done].
  apply set_ok_Union; [done|]. rewrite Z.shiftl_1_l. unfold set_ok.
  pose proof (bitOf_bound q). split; [lia|]. apply Z.pow_lt_mono_r; lia.
Qed.
Lemma set_ok_Bundle r s : Bundle r = Some s → set_ok s.
Proof.
  unfold Bundle. repeat case_match; intros; simplify_eq;
    auto using set_ok_With, set_ok_0, set_ok_AllSet.
Qed.

(** Two sets of catalogue permissions with the same members are equal. *)
Lemma set_ext s t : set_ok s → set_ok t → (∀ p, Set_Has s p = Set_Has t p) → s = t.
Proof.
  rewrite !set_ok_testbit. intros [Hs Hs'] [Ht Ht'] H. apply Z.bits_inj'. intros i Hi.
  destruct (decide (nperms ≤ i)%Z); [by rewrite Hs', Ht'|].
  destruct (lookup_lt_is_Some_2 catalogue (Z.to_nat i)) as [p Hp].
  { unfold nperms in *. simpl. lia. }
  specialize (H p). rewrite !Set_Has_testbit, (bitOf_lookup p _ Hp), Z2Nat.id in H by done.
  destruct (Z.leb_spec 0 i); [done|lia].
Qed.

(** *** Names and parsing *)

Lemma names_from_spec i cs s p :
  NoDup cs → (0 ≤ i)%Z →
  p ∈ names_from i cs s ↔ ∃ k, cs !! k = Some p ∧ Z.testbit s (i + Z.of_nat k) = true.
Proof.
  revert i. induction cs as [|c cs IH]; intros i Hnd Hi; simpl.
  - split; [by intros ?%not_elem_of_nil|by intros (k & ? & _)].
  - apply NoDup_cons in Hnd as [Hc Hnd]. rewrite land_bit_zero, negb_involutive by done.
    assert (p ∈ names_from (i + 1) cs s ↔
      ∃ k, cs !! k = Some p ∧ Z.testbit s (i + Z.of_nat (S k)) = true) as IH'.
    { rewrite IH by (done || lia). apply exist_proper. intros k.
      by replace (i + 1 + Z.of_nat k)%Z with (i + Z.of_nat (S k))%Z by lia. }
    split.
    + intros Hp. destruct (Z.testbit s i) eqn:E.
      * apply elem_of_cons in Hp as [->|Hp].
        -- exists 0. split; [done|]. by rewrite Z.add_0_r.
        -- apply IH' in Hp as (k & ? & ?). by exists (S k).
      * apply IH' in Hp as (k & ? & ?). by exists (S k).
    + intros ([|k] & Hk & Hb).
      * simplify_eq/=. rewrite Z.add_0_r in Hb. rewrite Hb. left.
      * assert (p ∈ names_from (i + 1) cs s) by (apply IH'; eauto).
        destruct (Z.testbit s i); [by right|done].
Qed.

Lemma elem_of_Set_Names s p : p ∈ Set_Names s ↔ Set_Has s p = true.
Proof.
  unfold Set_Names. rewrite elem_of_SortStrings, names_from_spec by (apply catalogue_NoDup || done).
  rewrite Set_Has_testbit, andb_true_iff, Z.leb_le. split.
  - intros (k & Hk & Hb). rewrite (bitOf_lookup p k Hk). split; [lia|done].
  - intros [H Hb]. destruct (bitOf_inv p H) as (k & Hk & E). exists k.
    split; [done|]. by rewrite Z.add_0_l, <-E.
Qed.

Lemma Parse_spec n p : Parse n = Some p ↔ n = p ∧ (0 ≤ bitOf p)%Z.
Proof.
  unfold Parse. destruct (Z.leb_spec 0 (bitOf n)); [naive_solver|].
  split; [done|]. intros [-> ?]. lia.
Qed.

Lemma Set_Has_known s p : Set_Has s p = true → (0 ≤ bitOf p)%Z.
Proof. rewrite Set_Has_testbit, andb_true_iff, Z.leb_le. by intros [? _]. Qed.

Lemma parseSet_from s0 names s :
  fold_res (λ s n, match Parse n with
                   | Some p => Ok (Set_With s [p])
                   | None => Err [Lit "unknown permission "; Quo n]
                   end) s0 names = Ok s
  → s = Set_With s0 names ∧ Forall (λ n, (0 ≤ bitOf n)%Z) names.
Proof.
  revert s0. induction names as [|n names IH]; intros s0; simpl; [by intros [= <-]|].
  unfold mbind, res_bind. destruct (Parse n) as [p|] eqn:E; [|done].
  apply Parse_spec in E as [<- Hn]. intros [-> ?]%IH. split; [done|by constructor].
Qed.

Lemma parseSet_ok names s :
  parseSet names = Ok s ↔ s = Set_With 0 names ∧ Forall (λ n, (0 ≤ bitOf n)%Z) names.
Proof.
  split; [apply parseSet_from|]. intros [-> H]. unfold parseSet. generalize 0%Z.
  induction H as [|n names Hn _ IH]; intros s0; [done|].
  simpl. unfold mbind, res_bind.
  rewrite (proj2 (Parse_spec n n)) by done. rewrite IH. done.
Qed.

(** Printing a set and parsing it back gives the set. *)
Lemma parseSet_Names s : set_ok s → parseSet (Set_Names s) = Ok s.
Proof.
  intros Hs. apply parseSet_ok. split.
  - apply set_ext; [done|by apply set_ok_With, set_ok_0|]. intros p.
    rewrite Set_Has_With, Set_Has_0. simpl. apply eq_true_iff_eq.
    rewrite andb_true_iff, bool_decide_eq_true, elem_of_Set_Names, Z.leb_le.
    split; [|naive_solver]. intros H. split; [by eapply Set_Has_known|done].
  - apply Forall_forall. intros n Hn%elem_of_Set_Names. by eapply Set_Has_known.
Qed.

(** ** Facts: folders *)

(** The ancestor folders of a job are the non-empty folders that cover it. *)
Lemma elem_of_Ancestors f job : f ∈ Ancestors job ↔ f ≠ "" ∧ Covers f job = true.
Proof.
  unfold Ancestors, Covers. rewrite HasPrefix_spec, list_elem_of_In, in_flat_map. split.
  - intros (i & Hi & Hf). apply in_seq in Hi. destruct (String.get i job) as [c|] eqn:Eg; [|done].
    destruct (Ascii.eqb_spec c "/") as [->|]; [|done]. simpl in Hf.
    destruct (Nat.ltb_spec 0 i); [|done]. destruct Hf as [<-|[]]. split.
    + intros E. apply (f_equal String.length) in E. rewrite str_length_take in E by lia.
      simpl in E. lia.
    + apply str_get_drop in Eg as [t Ht]. exists t.
      rewrite <-(str_take_drop i job) at 1. rewrite Ht, <-str_app_assoc. done.
  - intros [Hne [r ->]]. exists (String.length f). rewrite <-str_app_assoc.
    change ("/" +:+ r) with (String "/" r). rewrite in_seq, str_length_app, str_get_app. simpl.
    split; [lia|]. destruct f as [|c f]; [done|]. left. apply str_take_app.
Qed.

Lemma NormalizeFolder_ok key f :
  NormalizeFolder key = Ok f ↔
  f = Trim "/" key ∧ existsb IsSpace (runes key) = false ∧ ContainsAny key "*?[" = false ∧
  Forall (λ seg, seg ≠ "" ∧ seg ≠ "." ∧ seg ≠ "..") (Split "/" f).
Proof.
  unfold NormalizeFolder. unfold mbind, res_bind, fail_if.
  destruct (existsb IsSpace (runes key)); [split; [done|by intros (_ & ? & _)]|].
  destruct (ContainsAny key "*?["); [split; [done|by intros (_ & _ & ? & _)]|].
  destruct (existsb _ (Split "/" (Trim "/" key))) eqn:E.
  - split; [done|]. intros (-> & _ & _ & H). exfalso. rewrite Forall_forall in H.
    apply existsb_elem in E as (seg & Hin & Hseg). destruct (H seg Hin) as (?&?&?).
    destruct (String.eqb_spec seg ""), (String.eqb_spec seg "."), (String.eqb_spec seg ".."); done.
  - split; [|by intros (-> & _)]. intros [= <-]. repeat split; try done.
    apply Forall_forall. intros seg Hin. rewrite existsb_false_elem in E. specialize (E seg Hin).
    destruct (String.eqb_spec seg ""), (String.eqb_spec seg "."), (String.eqb_spec seg ".."); done.
Qed.

(** A normalised folder is non-empty and normalises to itself. *)
Lemma NormalizeFolder_nonempty key f : NormalizeFolder key = Ok f → f ≠ "".
Proof.
  rewrite NormalizeFolder_ok. intros (_ & _ & _ & H) ->. simpl in H.
  apply Forall_singleton in H as [H _]. by apply H.
Qed.

Lemma NormalizeFolder_idem key f : NormalizeFolder key = Ok f → NormalizeFolder f = Ok f.
Proof.
  rewrite !NormalizeFolder_ok. intros (-> & Hs & Hg & Hsegs). rewrite Trim_idemp.
  repeat split; try done.
  - destruct (runes_Trim "/" key eq_refl) as (a & b & E). rewrite E, !existsb_app in Hs.
    by apply orb_false_iff in Hs as [_ [? _]%orb_false_iff].
  - destruct (Trim_decomp "/" key) as (a & b & E). rewrite E, !ContainsAny_app in Hg.
    by apply orb_false_iff in Hg as [_ [? _]%orb_false_iff].
Qed.

(** ** Facts: grants *)

(** The invariant of a [Grants] value: it is what adding its sources one by one,
    in order, to the zero value gives. *)
Definition build (l : list source) : Grants := foldl add_source Grants_zero l.
Definition coherent (g : Grants) : Prop := build (g_sources g) = g.

(** The meaning of one source: it grants [p] on [job]. *)
Definition source_grants (p : Permission) (job : string) (s : source) : bool :=
  Set_Has (s_perms s) p && ((s_folder s =? "")%string || Covers (s_folder s) job).

Lemma build_snoc l s : build (l ++ [s]) = add_source (build l) s.
Proof. unfold build. by rewrite foldl_app. Qed.

Lemma Grants_Add_sources g f perms by_ :
  g_sources (Grants_Add g f perms by_)
  = g_sources g ++ (if Set_IsEmpty perms then [] else [Source f perms by_]).
Proof. unfold Grants_Add. repeat case_match; simpl; rewrite ?app_nil_r; done. Qed.

Lemma coherent_zero : coherent Grants_zero.
Proof. done. Qed.

Lemma coherent_Add g f perms by_ : coherent g → coherent (Grants_Add g f perms by_).
Proof.
  unfold coherent. intros Hg. rewrite Grants_Add_sources.
  destruct (Set_IsEmpty perms) eqn:E.
  - rewrite app_nil_r, Hg. unfold Grants_Add. by rewrite E.
  - by rewrite build_snoc, Hg.
Qed.

Lemma coherent_fold {A} (f : Grants → A → Grants) l g :
  (∀ g x, coherent g → coherent (f g x)) → coherent g → coherent (foldl f g l).
Proof. intros Hf. revert g. induction l as [|x l IH]; intros g Hg; [done|]. simpl. auto. Qed.

Lemma coherent_build l : coherent (build l).
Proof. apply coherent_fold; [|done]. intros. by apply coherent_Add. Qed.
Lemma coherent_Union g o : coherent (Grants_Union g o).
Proof. unfold Grants_Union. rewrite <-foldl_app. apply coherent_build. Qed.
Lemma coherent_Restrict g c sfx : coherent (Grants_Restrict g c sfx).
Proof. apply coherent_fold; [|done]. intros. by apply coherent_Add. Qed.
Lemma coherent_RoleGrants r by_ : coherent (RoleGrants r by_).
Proof. unfold RoleGrants. case_match; [by apply coherent_Add|done]. Qed.
Lemma coherent_AllGrants by_ : coherent (AllGrants by_).
Proof. by apply coherent_Add. Qed.

#[export] Hint Resolve coherent_zero coherent_Add coherent_build coherent_Union
  coherent_Restrict coherent_RoleGrants coherent_AllGrants : ucd.

(** What the two maps of a built value hold. *)
Lemma build_global l p :
  Set_Has (g_global (build l)) p
  = existsb (λ s, (s_folder s =? "")%string && Set_Has (s_perms s) p) l.
Proof.
  induction l as [|s l IH] using rev_ind; [apply Set_Has_0|].
  rewrite build_snoc, existsb_app, <-IH. simpl. rewrite orb_false_r.
  unfold add_source, Grants_Add.
  destruct (Z.eqb_spec (s_perms s) 0) as [E|]; unfold Set_IsEmpty.
  - rewrite E. simpl. by rewrite Set_Has_0, andb_false_r, orb_false_r.
  - destruct (Z.eqb_spec (s_perms s) 0); [done|].
    destruct (s_folder s =? "")%string; simpl; [apply Set_Has_Union|by rewrite orb_false_r].
Qed.

Lemma build_folder l f p :
  f ≠ "" →
  Set_Has (folder_set (g_folders (build l)) f) p
  = existsb (λ s, (s_folder s =? f)%string && Set_Has (s_perms s) p) l.
Proof.
  intros Hf. induction l as [|s l IH] using rev_ind; [apply Set_Has_0|].
  rewrite build_snoc, existsb_app, <-IH. simpl. rewrite orb_false_r.
  unfold add_source, Grants_Add, Set_IsEmpty.
  destruct (Z.eqb_spec (s_perms s) 0) as [E|].
  - rewrite E. by rewrite Set_Has_0, andb_false_r, orb_false_r.
  - destruct (String.eqb_spec (s_folder s) "") as [Es|Hs]; simpl.
    + rewrite Es. destruct (String.eqb_spec "" f); [done|]. by rewrite orb_false_r.
    + unfold folder_set at 1. destruct (String.eqb_spec (s_folder s) f) as [<-|Hne].
      * rewrite lookup_insert_eq. simpl. apply Set_Has_Union.
      * rewrite lookup_insert_ne by done. by rewrite orb_false_r.
Qed.

(** [Can] is the existence of a granting source. *)
Lemma Can_build l p job : Grants_Can (build l) p job = existsb (source_grants p job) l.
Proof.
  unfold Grants_Can. apply eq_true_iff_eq.
  rewrite orb_true_iff, build_global, !existsb_elem. unfold source_grants. split.
  - intros [(s & Hs & H)|(f & Hf & H)].
    + exists s. split; [done|]. apply andb_true_iff in H as [-> ->]. done.
    + apply elem_of_Ancestors in Hf as [Hne Hc]. rewrite build_folder in H by done.
      apply existsb_elem in H as (s & Hs & H). reflect. subst. exists s. split; [done|].
      rewrite H0, Hc. by rewrite orb_true_r.
  - intros (s & Hs & H). apply andb_true_iff in H as [Hp H].
    destruct (String.eqb_spec (s_folder s) "") as [E|E].
    + left. exists s. split; [done|]. by rewrite Hp, E.
    + right. exists (s_folder s). split; [by apply elem_of_Ancestors|].
      rewrite build_folder by done. apply existsb_elem. exists s.
      by rewrite String.eqb_refl, Hp.
Qed.

Lemma Can_sources g p job :
  coherent g → Grants_Can g p job = existsb (source_grants p job) (g_sources g).
Proof. unfold coherent. intros Hg. rewrite <-Hg at 1. apply Can_build. Qed.

Lemma ordered_perm g p job :
  Grants_ordered g p job ≡ₚ filter (λ s, source_grants p job s = true) (g_sources g).
Proof.
  unfold Grants_ordered. rewrite stable_sort_perm.
  induction (g_sources g) as [|s l IH]; [done|].
  assert (source_grants p job s = true ↔ Set_Has (s_perms s) p = true ∧
    (s_folder s = "" ∨ Covers (s_folder s) job = true)) as Hsg.
  { unfold source_grants. by rewrite andb_true_iff, orb_true_iff, String.eqb_eq. }
  rewrite !(filter_cons _ s l). case_decide as Hp.
  - rewrite !(filter_cons _ s). case_decide as Hf.
    + rewrite decide_False by naive_solver. rewrite decide_True by naive_solver.
      simpl. by rewrite IH.
    + case_decide as Hc.
      * rewrite decide_True by naive_solver. rewrite <-Permutation_middle. by rewrite IH.
      * rewrite decide_False by naive_solver. done.
  - rewrite decide_False by naive_solver. done.
Qed.

Lemma Decide_fst g p job : (Grants_Decide g p job).1 = existsb (source_grants p job) (g_sources g).
Proof.
  unfold Grants_Decide. pose proof (ordered_perm g p job) as H.
  destruct (Grants_ordered g p job) as [|s l]; simpl; symmetry.
  - apply Permutation_nil_l in H. apply existsb_false_elem. intros s Hs.
    apply not_true_iff_false. intros E.
    assert (s ∈ filter (λ s, source_grants p job s = true) (g_sources g))
      by (by apply list_elem_of_filter). rewrite <-H in H0. by apply not_elem_of_nil in H0.
  - apply existsb_elem. exists s.
    assert (s ∈ filter (λ s, source_grants p job s = true) (g_sources g)) as [??]%list_elem_of_filter
      by (rewrite <-H; left). done.
Qed.

Lemma Can_Decide g p job : coherent g → Grants_Can g p job = (Grants_Decide g p job).1.
Proof. intros. by rewrite Can_sources, Decide_fst. Qed.

Lemma existsb_filter_nonempty (f : source → bool) l :
  (∀ s, s_perms s = 0%Z → f s = false) →
  existsb f (filter (λ s, s_perms s ≠ 0%Z) l) = existsb f l.
Proof.
  intros Hf. induction l as [|s l IH]; [done|]. rewrite filter_cons. simpl.
  case_decide; simpl; rewrite IH; [done|]. rewrite Hf; [done|].
  by destruct (decide (s_perms s = 0%Z)).
Qed.

Lemma source_grants_empty p job s : s_perms s = 0%Z → source_grants p job s = false.
Proof. intros E. unfold source_grants. by rewrite E, Set_Has_0. Qed.

Lemma Can_Add g f perms by_ p job :
  coherent g → f ≠ "" →
  Grants_Can (Grants_Add g f perms by_) p job
  = Grants_Can g p job || (Set_Has perms p && Covers f job).
Proof.
  intros Hg Hf. rewrite !Can_sources by auto with ucd. rewrite Grants_Add_sources, existsb_app.
  f_equal. unfold Set_IsEmpty. destruct (Z.eqb_spec perms 0) as [->|]; [by rewrite Set_Has_0|].
  simpl. unfold source_grants. simpl. rewrite orb_false_r.
  destruct (String.eqb_spec f ""); done.
Qed.

Lemma Can_Add_global g perms by_ p job :
  coherent g → Grants_Can (Grants_Add g "" perms by_) p job = Grants_Can g p job || Set_Has perms p.
Proof.
  intros Hg. rewrite !Can_sources by auto with ucd. rewrite Grants_Add_sources, existsb_app.
  f_equal. unfold Set_IsEmpty. destruct (Z.eqb_spec perms 0) as [->|]; [by rewrite Set_Has_0|].
  simpl. unfold source_grants. simpl. by rewrite orb_false_r, andb_true_r.
Qed.

Lemma Can_Union g o p job :
  Grants_Can (Grants_Union g o) p job
  = existsb (source_grants p job) (g_sources g) || existsb (source_grants p job) (g_sources o).
Proof. unfold Grants_Union. rewrite <-foldl_app, <-existsb_app. apply Can_build. Qed.

Lemma Restrict_build g c sfx :
  Grants_Restrict g c sfx
  = build ((λ s, Source (s_folder s) (Set_Intersect (s_perms s) c) (s_by s ++ [Lit sfx]))
           <$> g_sources g).
Proof. unfold Grants_Restrict, build. by rewrite foldl_fmap. Qed.

Lemma Can_Restrict_sources g c sfx p job :
  Grants_Can (Grants_Restrict g c sfx) p job
  = existsb (source_grants p job) (g_sources g) && Set_Has c p.
Proof.
  rewrite Restrict_build, Can_build. induction (g_sources g) as [|s l IH]; [done|].
  rewrite fmap_cons. cbn [existsb]. rewrite IH.
  unfold source_grants at 1. simpl. rewrite Set_Has_Intersect.
  unfold source_grants at 2. destruct (Set_Has c p); rewrite ?andb_true_r, ?andb_false_r; done.
Qed.

(** *** Well-formed grants *)

(** What every source the program creates satisfies: a non-empty set of
    catalogue permissions; on a folder, a normalised folder and folder-scopable
    permissions only. *)
Definition source_ok (s : source) : Prop :=
  set_ok (s_perms s) ∧ s_perms s ≠ 0%Z ∧
  (s_folder s ≠ "" → NormalizeFolder (s_folder s) = Ok (s_folder s) ∧
                      Set_FolderPart (s_perms s) = s_perms s).

Definition grants_ok (g : Grants) : Prop := coherent g ∧ Forall source_ok (g_sources g).

Definition scope_ok (folder : string) (perms : PSet) : Prop :=
  set_ok perms ∧ (folder ≠ "" → NormalizeFolder folder = Ok folder ∧ Set_FolderPart perms = perms).

Lemma grants_ok_zero : grants_ok Grants_zero.
Proof. split; [done|constructor]. Qed.

Lemma grants_ok_Add g f perms by_ :
  grants_ok g → scope_ok f perms → grants_ok (Grants_Add g f perms by_).
Proof.
  intros [Hg Hs] [Hp Hf]. split; [by apply coherent_Add|].
  rewrite Grants_Add_sources. apply Forall_app. split; [done|].
  unfold Set_IsEmpty. destruct (Z.eqb_spec perms 0); [constructor|].
  apply Forall_singleton. done.
Qed.

Lemma grants_ok_fold {A} (f : Grants → A → Grants) (l : list A) g :
  (∀ g x, x ∈ l → grants_ok g → grants_ok (f g x)) → grants_ok g → grants_ok (foldl f g l).
Proof.
  revert g. induction l as [|x l IH]; intros g Hf Hg; [done|]. simpl.
  apply IH; [intros ?? ?; apply Hf; by right|]. apply Hf; [left|done].
Qed.

Lemma source_ok_scope s : source_ok s → scope_ok (s_folder s) (s_perms s).
Proof. intros (?&?&?). done. Qed.

Lemma grants_ok_build l : Forall source_ok l → grants_ok (build l).
Proof.
  intros H. apply grants_ok_fold; [|apply grants_ok_zero]. intros g s Hs Hg.
  rewrite Forall_forall in H. apply grants_ok_Add; [done|]. by apply source_ok_scope, H.
Qed.

Lemma grants_ok_Union g o : grants_ok g → grants_ok o → grants_ok (Grants_Union g o).
Proof.
  intros [_ Hg] [_ Ho]. unfold Grants_Union. rewrite <-foldl_app.
  apply grants_ok_build. by apply Forall_app.
Qed.

Lemma FolderPart_Intersect s c :
  Set_FolderPart s = s → Set_FolderPart (Set_Intersect s c) = Set_Intersect s c.
Proof.
  unfold Set_FolderPart, Set_Intersect. intros H. rewrite <-H at 2.
  rewrite <-!Z.land_assoc. f_equal. apply Z.land_comm.
Qed.

Lemma grants_ok_Restrict g c sfx :
  (0 ≤ c)%Z → grants_ok g → grants_ok (Grants_Restrict g c sfx).
Proof.
  intros Hc [_ Hs]. apply grants_ok_fold; [|apply grants_ok_zero]. intros g' s Hin Hg'.
  rewrite Forall_forall in Hs. destruct (Hs s Hin) as (Hp & _ & Hf).
  apply grants_ok_Add; [done|]. split; [by apply set_ok_Intersect|].
  intros Hne. destruct (Hf Hne). split; [done|by apply FolderPart_Intersect].
Qed.

Lemma grants_ok_RoleGrants r by_ : grants_ok (RoleGrants r by_).
Proof.
  unfold RoleGrants. destruct (Bundle r) eqn:E; [|apply grants_ok_zero].
  apply grants_ok_Add; [apply grants_ok_zero|]. split; [by eapply set_ok_Bundle|done].
Qed.

Lemma grants_ok_AllGrants by_ : grants_ok (AllGrants by_).
Proof. apply grants_ok_Add; [apply grants_ok_zero|]. split; [apply set_ok_AllSet|done]. Qed.

#[export] Hint Resolve grants_ok_zero grants_ok_Add grants_ok_Union grants_ok_Restrict
  grants_ok_RoleGrants grants_ok_AllGrants : ucd.

(** The maps of well-formed grants. *)
Definition maps_ok (g : Grants) : Prop :=
  set_ok (g_global g) ∧
  ∀ f ps, g_folders g !! f = Some ps →
    f ≠ "" ∧ set_ok ps ∧ ps ≠ 0%Z ∧ NormalizeFolder f = Ok f ∧ Set_FolderPart ps = ps.

Lemma FolderPart_Union s o :
  Set_FolderPart s = s → Set_FolderPart o = o → Set_FolderPart (Set_Union s o) = Set_Union s o.
Proof.
  unfold Set_FolderPart, Set_Union. intros Hs Ho. rewrite <-Hs at 2. rewrite <-Ho at 2.
  by rewrite Z.land_lor_distr_l.
Qed.

Lemma maps_ok_Add g f perms by_ :
  maps_ok g → scope_ok f perms → maps_ok (Grants_Add g f perms by_).
Proof.
  intros [Hg Hm] [Hp Hf]. unfold Grants_Add, Set_IsEmpty.
  destruct (Z.eqb_spec perms 0) as [|Hne0]; [done|].
  destruct (String.eqb_spec f "") as [|Hne].
  - split; simpl; [by apply set_ok_Union|done].
  - destruct (Hf Hne) as [Hn Hfp]. split; simpl; [done|]. intros f' ps'.
    rewrite lookup_insert. case_decide as E; [|apply Hm]. intros [= <-]. subst f'.
    assert (set_ok (folder_set (g_folders g) f) ∧
            Set_FolderPart (folder_set (g_folders g) f) = folder_set (g_folders g) f) as [? ?].
    { unfold folder_set. destruct (g_folders g !! f) as [ps|] eqn:E; simpl.
      - destruct (Hm f ps E) as (?&?&?&?&?). done.
      - split; [apply set_ok_0|done]. }
    repeat split; auto using set_ok_Union, FolderPart_Union; try apply set_ok_Union; try done.
    unfold Set_Union. intros [_ ?]%Z.lor_eq_0_iff. done.
Qed.

Lemma maps_ok_build l : Forall source_ok l → maps_ok (build l).
Proof.
  induction l as [|s l IH] using rev_ind.
  - intros _. split; [apply set_ok_0|]. intros f ps. change (g_folders (build [])) with (∅ : gmap string PSet).
    by rewrite lookup_empty.
  - intros [Hl Hs]%Forall_app. rewrite Forall_singleton in Hs. rewrite build_snoc.
    apply maps_ok_Add; [by apply IH|]. exact (source_ok_scope s Hs).
Qed.

Lemma grants_ok_maps g : grants_ok g → maps_ok g.
Proof. intros [Hg Hs]. rewrite <-Hg. by apply maps_ok_build. Qed.

(** *** The JSON view *)

Lemma lookup_view g f :
  maps_ok g → v_folders (Grants_View g) !! f = Set_Names <$> g_folders g !! f.
Proof.
  intros [_ Hm]. simpl. rewrite lookup_fmap. f_equal.
  destruct (g_folders g !! f) as [ps|] eqn:E.
  - apply map_lookup_filter_Some. split; [done|]. destruct (Hm f ps E) as (_&_&H&_).
    simpl. unfold Set_IsEmpty. by apply Z.eqb_neq.
  - apply map_lookup_filter_None. by left.
Qed.

(** One folder of the view is decoded to the set it was printed from. *)
Lemma fromview_folder_step g acc f ps :
  maps_ok g → g_folders g !! f = Some ps →
  fromview_folder (Grants_View g) acc f = Ok (Grants_Add acc f ps [Lit "view"]).
Proof.
  intros Hok E. pose proof Hok as [_ Hm]. destruct (Hm f ps E) as (_ & Hps & _ & Hn & Hfp).
  unfold fromview_folder. rewrite lookup_view, E by done. simpl.
  rewrite Hn, parseSet_Names by done. simpl. rewrite Hfp, Z.eqb_refl. done.
Qed.

Lemma fromview_fold g acc ks :
  maps_ok g → NoDup ks → (∀ k, k ∈ ks → is_Some (g_folders g !! k)) →
  (∀ k, k ∈ ks → g_folders acc !! k = None) →
  ∃ g', fold_res (fromview_folder (Grants_View g)) acc ks = Ok g' ∧
        g_global g' = g_global acc ∧
        ∀ f, g_folders g' !! f = if decide (f ∈ ks) then g_folders g !! f else g_folders acc !! f.
Proof.
  intros Hok. revert acc. induction ks as [|k ks IH]; intros acc Hnd Hin Hnew.
  - exists acc. done.
  - apply NoDup_cons in Hnd as [Hk Hnd].
    destruct (Hin k ltac:(left)) as [ps E]. cbn [fold_res].
    rewrite (fromview_folder_step g acc k ps Hok E). cbn [mbind res_bind].
    destruct (proj2 Hok k ps E) as (Hne & _ & Hne0 & _).
    assert (Grants_Add acc k ps [Lit "view"] =
      MkGrants (g_global acc) (<[k := ps]> (g_folders acc))
               (g_sources acc ++ [Source k ps [Lit "view"]])) as ->.
    { unfold Grants_Add, Set_IsEmpty, folder_set.
      destruct (Z.eqb_spec ps 0); [done|]. destruct (String.eqb_spec k ""); [done|].
      by rewrite (Hnew k ltac:(left)). }
    match goal with |- context [fold_res _ ?a ks] =>
      destruct (IH a Hnd) as (g' & Hg' & Hgl & Hf) end.
    + intros k' ?. apply Hin. by right.
    + intros k' Hk'. simpl. rewrite lookup_insert_ne by (intros ->; done).
      apply Hnew. by right.
    + exists g'. split; [exact Hg'|]. split; [done|]. intros f. rewrite Hf. simpl.
      rewrite lookup_insert. destruct (decide (f ∈ ks)).
      * rewrite decide_True by (by right). done.
      * case_decide as E'; [subst; by rewrite decide_True by left|].
        rewrite decide_False; [done|]. intros [->|?]%elem_of_cons; done.
Qed.

(** ** Properties *)

(** The two ways the code asks for a permission agree on every [Grants]
    value the program can build: [Can], which reads the per-folder maps along
    the ancestors of the job, and [Decide]/[Explain], which scan the sources.
    [Decide] answers yes exactly when [Explain] is non-empty and then reports
    the first explanation. *)
Theorem can_decide_explain_agree (g : Grants) (p : Permission) (job : string) :
  coherent g →
  Grants_Can g p job = (Grants_Decide g p job).1 ∧
  head (Grants_Explain g p job)
  = (if (Grants_Decide g p job).1 then Some (Grants_Decide g p job).2 else None).
Proof.
  intros Hg. split; [by apply Can_Decide|].
  unfold Grants_Explain, Grants_Decide. by destruct (Grants_ordered g p job).
Qed.

Definition grants_example : Grants :=
  Grants_Add (RoleGrants "viewer" [Lit "role"]) "team-a" (Set_With 0 [RunTrigger]) [Lit "folder"].

Lemma can_decide_explain_agree_witness :
  coherent grants_example ∧
  Grants_Can grants_example RunTrigger "team-a/build" = true ∧
  head (Grants_Explain grants_example RunTrigger "team-a/build") = Some [Lit "folder"].
Proof.
  split; [vm_compute; reflexivity|]. split; [vm_compute; reflexivity|].
  destruct (can_decide_explain_agree grants_example RunTrigger "team-a/build"
              ltac:(vm_compute; reflexivity)) as [_ H].
  rewrite H. vm_compute. reflexivity.
Defined.

(** The rank [Decide] reports sources by: global before folders, then depth. *)
Definition source_rank (s : source) : nat :=
  if decide (s_folder s = "") then 0 else S (CountByte (s_folder s) "/").

Lemma source_rank_global s : s_folder s = "" → source_rank s = 0.
Proof. intros H. unfold source_rank. by rewrite decide_True. Qed.
Lemma source_rank_folder s : s_folder s ≠ "" → source_rank s = S (CountByte (s_folder s) "/").
Proof. intros H. unfold source_rank. by rewrite decide_False. Qed.

Lemma ordered_sorted g p job :
  StronglySorted (λ s t, source_rank s ≤ source_rank t) (Grants_ordered g p job).
Proof.
  unfold Grants_ordered. apply StronglySorted_app_2.
  - intros s t [Hs _]%list_elem_of_filter _. rewrite source_rank_global by done. lia.
  - apply StronglySorted_all. intros s t [Hs _]%list_elem_of_filter _.
    rewrite source_rank_global by done. lia.
  - eapply StronglySorted_impl_elem; [|apply stable_sort_sorted]. cbn beta. intros s t Hs Ht Hle.
    rewrite stable_sort_perm in Hs, Ht.
    apply list_elem_of_filter in Hs as [[Hs _] _], Ht as [[Ht _] _].
    rewrite !source_rank_folder by done. lia.
Qed.

Lemma ordered_stable g p job r :
  filter (λ s, source_rank s = r) (Grants_ordered g p job)
  = filter (λ s, source_rank s = r) (filter (λ s, source_grants p job s = true) (g_sources g)).
Proof.
  assert (∀ s, source_grants p job s = true ↔ Set_Has (s_perms s) p = true ∧
    (s_folder s = "" ∨ Covers (s_folder s) job = true)) as Hsg.
  { intros s. unfold source_grants. by rewrite andb_true_iff, orb_true_iff, String.eqb_eq. }
  unfold Grants_ordered. rewrite filter_app. destruct r as [|d].
  - rewrite filter_all by (intros s [??]%list_elem_of_filter; by apply source_rank_global).
    rewrite (filter_none _ (stable_sort _ _)), app_nil_r.
    + rewrite !list_filter_filter. apply filter_ext_elem. intros s _. rewrite Hsg.
      destruct (decide (s_folder s = "")) as [E|E].
      * rewrite source_rank_global by done. naive_solver.
      * rewrite source_rank_folder by done. naive_solver.
    + intros s Hs. rewrite stable_sort_perm in Hs. apply list_elem_of_filter in Hs as [[? _] _].
      by rewrite source_rank_folder.
  - rewrite filter_none, app_nil_l by
      (intros s [??]%list_elem_of_filter; by rewrite source_rank_global).
    rewrite (filter_ext_elem _ (λ s, CountByte (s_folder s) "/" = d)).
    + rewrite stable_sort_stable, !list_filter_filter. apply filter_ext_elem. intros s _.
      rewrite Hsg. destruct (decide (s_folder s = "")) as [E|E].
      * rewrite source_rank_global by done. naive_solver.
      * rewrite source_rank_folder by done. naive_solver lia.
    + intros s Hs. rewrite stable_sort_perm in Hs. apply list_elem_of_filter in Hs as [[? _] _].
      rewrite source_rank_folder by done. lia.
Qed.

(** [Explain] lists every source that grants the permission on the job and
    no other, ordered by rank (global sources, then folders from the outermost
    to the innermost), sources of equal rank in insertion order. *)
Theorem explain_complete_and_ordered (g : Grants) (p : Permission) (job : string) :
  Grants_ordered g p job ≡ₚ filter (λ s, source_grants p job s = true) (g_sources g) ∧
  StronglySorted (λ s t, source_rank s ≤ source_rank t) (Grants_ordered g p job) ∧
  ∀ r, filter (λ s, source_rank s = r) (Grants_ordered g p job)
     = filter (λ s, source_rank s = r)
              (filter (λ s, source_grants p job s = true) (g_sources g)).
Proof. auto using ordered_perm, ordered_sorted, ordered_stable. Qed.

(** Restricting grants to a ceiling gives exactly the permissions that are
    held and in the ceiling, on every job, and combining grants gives exactly
    the permissions held by either; both results are again values the program
    can build. *)
Theorem restrict_and_union_exact (g o : Grants) (c : PSet) (sfx : string) :
  coherent g → coherent o →
  coherent (Grants_Restrict g c sfx) ∧ coherent (Grants_Union g o) ∧
  ∀ p job,
    Grants_Can (Grants_Restrict g c sfx) p job = Grants_Can g p job && Set_Has c p ∧
    Grants_Can (Grants_Union g o) p job = Grants_Can g p job || Grants_Can o p job.
Proof.
  intros Hg Ho. split; [auto with ucd|]. split; [auto with ucd|]. intros p job.
  rewrite Can_Restrict_sources, Can_Union, !(Can_sources _ p job) by done. done.
Qed.

Lemma restrict_and_union_exact_witness :
  Grants_Can (Grants_Restrict grants_example (Set_With 0 [RunTrigger]) "x") JobRead "team-a/build"
  = Grants_Can grants_example JobRead "team-a/build" && false.
Proof.
  destruct (restrict_and_union_exact grants_example Grants_zero (Set_With 0 [RunTrigger]) "x"
    ltac:(vm_compute; reflexivity) ltac:(vm_compute; reflexivity)) as (_ & _ & H).
  exact (proj1 (H JobRead "team-a/build")).
Defined.

(** A grant on a folder reaches exactly the jobs below that folder (never a
    sibling that merely shares a name prefix, and never a root-level job); a
    global grant reaches every job; an earlier grant is never lost. *)
Theorem add_reaches_exactly (g : Grants) (f : string) (perms : PSet) (by_ : text)
    (p : Permission) (job : string) :
  coherent g →
  Grants_Can (Grants_Add g f perms by_) p job = true ↔
    Grants_Can g p job = true ∨
    (Set_Has perms p = true ∧ (f = "" ∨ ∃ rest, job = f +:+ "/" +:+ rest)).
Proof.
  intros Hg. destruct (decide (f = "")) as [->|Hf].
  - rewrite Can_Add_global, orb_true_iff by done. naive_solver.
  - rewrite Can_Add, orb_true_iff, andb_true_iff by done. unfold Covers.
    rewrite HasPrefix_spec. setoid_rewrite <-str_app_assoc. naive_solver.
Qed.

Lemma add_reaches_exactly_witness :
  Grants_Can grants_example RunTrigger "team-ab/build" = true ↔
    Grants_Can (RoleGrants "viewer" [Lit "role"]) RunTrigger "team-ab/build" = true ∨
    (Set_Has (Set_With 0 [RunTrigger]) RunTrigger = true ∧
     ("team-a" = "" ∨ ∃ rest, "team-ab/build" = "team-a" +:+ "/" +:+ rest)).
Proof.
  apply (add_reaches_exactly (RoleGrants "viewer" [Lit "role"]) "team-a"
           (Set_With 0 [RunTrigger]) [Lit "folder"] RunTrigger "team-ab/build").
  vm_compute. reflexivity.
Defined.

(** Printing well-formed grants as their JSON view and decoding the view
    succeeds and restores both permission maps, so every permission answer is
    the same after the round trip. *)
Theorem view_roundtrip (g : Grants) :
  grants_ok g →
  ∃ g', FromView (Grants_View g) = Ok g' ∧
        g_global g' = g_global g ∧ g_folders g' = g_folders g ∧
        ∀ p job, Grants_Can g' p job = Grants_Can g p job.
Proof.
  intros Hg. pose proof (grants_ok_maps g Hg) as Hm.
  unfold FromView. change (v_global (Grants_View g)) with (Set_Names (g_global g)).
  rewrite parseSet_Names by apply Hm. cbn [wrap mbind res_bind].
  destruct (fromview_fold g (Grants_Add Grants_zero "" (g_global g) [Lit "view"])
              (sorted_keys (v_folders (Grants_View g)))) as (g' & -> & Hgl & Hf).
  - done.
  - apply sorted_keys_NoDup.
  - intros k. rewrite elem_of_sorted_keys, lookup_view by done. by rewrite fmap_is_Some.
  - intros k _. unfold Grants_Add. by case_match.
  - assert (g_global g' = g_global g) as E1.
    { rewrite Hgl. unfold Grants_Add, Set_IsEmpty. destruct (Z.eqb_spec (g_global g) 0); done. }
    assert (g_folders g' = g_folders g) as E2.
    { apply map_eq. intros f. rewrite Hf. case_decide as Hk; [done|].
      rewrite elem_of_sorted_keys, lookup_view, fmap_is_Some in Hk by done.
      apply eq_None_not_Some in Hk. rewrite Hk. unfold Grants_Add. by case_match. }
    exists g'. split; [done|]. split; [done|]. split; [done|].
    intros p job. unfold Grants_Can. by rewrite E1, E2.
Qed.

Lemma view_roundtrip_witness :
  ∃ g', FromView (Grants_View grants_example) = Ok g' ∧
        Grants_Can g' RunTrigger "team-a/build" = Grants_Can grants_example RunTrigger "team-a/build".
Proof.
  destruct (view_roundtrip grants_example) as (g' & H1 & _ & _ & H2).
  - split; [vm_compute; reflexivity|]. repeat constructor; simpl; try done.
    all: try (apply (bool_decide_unpack _); vm_compute; exact I).
    all: vm_compute; try discriminate; reflexivity.
  - exists g'. split; [exact H1|apply H2].
Defined.
