(* ===== verification/AuthzPolicy.v ===== *)
(** * internal/authz: the oidc.permissions policy

    Models [policy.go]: decoding the block from YAML nodes, compiling it, and
    matching an identity against the compiled policy; and [describe.go], the
    policy view.

    [ynode] is the part of [yaml.Node] the decoder reads; a node tree is finite
    and has no nil child (the YAML library builds it and rejects an anchor that
    contains itself). *)

From S2P Require Import Prelude GoStrings Authz.
From stdpp Require Import options.

(** ** YAML nodes *)

Inductive ynode :=
| YScalar (tag value : string)
| YMapping (content : list ynode)   (* keys and values alternate *)
| YSequence (content : list ynode)
| YAlias (target : ynode).

Fixpoint resolveAlias (n : ynode) : ynode :=
  match n with YAlias t => resolveAlias t | _ => n end.

Definition isNull (n : ynode) : bool :=
  match n with YScalar tag _ => (tag =? "!!null")%string | _ => false end.

Record GrantEntry := MkGrantEntry { ge_key : string; ge_grants : list string }.
Record PolicyEntry := MkPolicyEntry { pe_groups : list GrantEntry; pe_users : list GrantEntry }.
Record FolderEntry := MkFolderEntry { fe_key : string; fe_entry : PolicyEntry }.
Record PolicyConfig := MkPolicyConfig { pc_global : PolicyEntry; pc_folders : list FolderEntry }.

Definition policyPath : text := [Lit "oidc.permissions"].

(** ** Decoding *)

Fixpoint mapping_content (path : text) (seen : gset string) (l : list ynode)
  : res (list (string * ynode)) :=
  match l with
  | k :: v :: l' =>
      match resolveAlias k with
      | YScalar _ key =>
          if decide (key ∈ seen) then Err (path ++ [Lit ": duplicate key "; Quo key])
          else rest ← mapping_content path ({[key]} ∪ seen) l'; Ok ((key, v) :: rest)
      | _ => Err (path ++ [Lit ": keys must be scalars"])
      end
  | _ => Ok []
  end.

(** The key/value pairs of a mapping node in file order; a null node is empty. *)
Definition mappingPairs (n : ynode) (path : text) : res (list (string * ynode)) :=
  let n := resolveAlias n in
  if isNull n then Ok []
  else match n with
       | YMapping content => mapping_content path ∅ content
       | _ => Err (path ++ [Lit ": must be a mapping"])
       end.

Definition bad_grant (path : text) : text :=
  path ++ [Lit ": grant must be a role or permission name or a list of them"].

Definition decodeGrant (n : ynode) (path : text) : res (list string) :=
  let n := resolveAlias n in
  if isNull n then Ok []
  else match n with
       | YScalar _ v => Ok [v]
       | YSequence content =>
           map_res (λ item, match resolveAlias item with
                            | YScalar tag v =>
                                if isNull (YScalar tag v) then Err (bad_grant path) else Ok v
                            | _ => Err (bad_grant path)
                            end) content
       | _ => Err (bad_grant path)
       end.

Definition key_path (path : text) (key : string) : text := path ++ [Lit "["; Quo key; Lit "]"].

Definition decodeGrantEntries (n : ynode) (path : text) : res (list GrantEntry) :=
  pairs ← mappingPairs n path;
  map_res (λ kv, grants ← decodeGrant kv.2 (key_path path kv.1);
                 Ok (MkGrantEntry kv.1 grants)) pairs.

Definition decodePolicyEntry (n : ynode) (path : text) : res PolicyEntry :=
  pairs ← mappingPairs n path;
  fold_res (λ e kv,
    if (kv.1 =? "groups")%string then
      gs ← decodeGrantEntries kv.2 (path ++ [Lit ".groups"]); Ok (MkPolicyEntry gs (pe_users e))
    else if (kv.1 =? "users")%string then
      us ← decodeGrantEntries kv.2 (path ++ [Lit ".users"]); Ok (MkPolicyEntry (pe_groups e) us)
    else Err (path ++ [Lit ": unknown field "; Quo kv.1])) (MkPolicyEntry [] []) pairs.

Definition decodeFolders (n : ynode) : res (list FolderEntry) :=
  let path := policyPath ++ [Lit ".folders"] in
  pairs ← mappingPairs n path;
  map_res (λ kv, e ← decodePolicyEntry kv.2 (key_path path kv.1); Ok (MkFolderEntry kv.1 e)) pairs.

(** [PolicyConfig.UnmarshalYAML]; the receiver is only written on success. *)
Definition UnmarshalYAML (n : ynode) : res PolicyConfig :=
  pairs ← mappingPairs n policyPath;
  fold_res (λ out kv,
    if (kv.1 =? "global")%string then
      g ← decodePolicyEntry kv.2 (policyPath ++ [Lit ".global"]); Ok (MkPolicyConfig g (pc_folders out))
    else if (kv.1 =? "folders")%string then
      fs ← decodeFolders kv.2; Ok (MkPolicyConfig (pc_global out) fs)
    else Err (policyPath ++ [Lit ": unknown field "; Quo kv.1]))
    (MkPolicyConfig (MkPolicyEntry [] []) []) pairs.

(** ** Compiling *)

Record Legacy := MkLegacy {
  l_RolesClaim : string;
  l_RoleMap : gmap string string;
  l_UserMap : gmap string string;
  l_DefaultRole : string
}.

Record Identity := MkIdentity { id_Values : list string; id_Email : string; id_Sub : string }.

Record policyGrant := MkPolicyGrant { pg_key : string; pg_grant : list string; pg_set : PSet }.
Record policyScope := MkPolicyScope {
  ps_folder : string; (* "" = global *)
  ps_groups : list policyGrant;
  ps_users : list policyGrant
}.

(** A pointer to a Policy: [None] is the nil policy; the list is [scopes], global first. *)
Abbreviation Policy := (list policyScope).

(** One name of a grant entry, added to the set so far. *)
Definition compile_name (folder : string) (p : text) (set : PSet) (name : string) : res PSet :=
  match Bundle name with
  | Some bundle =>
      Ok (Set_Union set (if (folder =? "")%string then bundle else Set_FolderPart bundle))
  | None =>
      match Parse name with
      | None => Err (p ++ [Lit ": unknown permission or role "; Quo name])
      | Some perm =>
          if negb (folder =? "")%string && negb (FolderScopable perm)
          then Err (p ++ [Lit ": permission "; Quo name;
                          Lit " is global-only and cannot be granted on a folder"])
          else Ok (Set_With set [perm])
      end
  end.

Definition compileGrant (folder : string) (path : text) (e : GrantEntry) : res policyGrant :=
  let p := key_path path (ge_key e) in
  _ ← fail_if (bool_decide (ge_grants e = [])) (p ++ [Lit ": empty grant"]);
  set ← fold_res (compile_name folder p) 0%Z (ge_grants e);
  Ok (MkPolicyGrant (ge_key e) (ge_grants e) set).

Definition compileGrants (folder : string) (path : text) (entries : list GrantEntry)
  : res (list policyGrant) := map_res (compileGrant folder path) entries.

Definition compileScope (folder : string) (path : text) (e : PolicyEntry) : res policyScope :=
  groups ← compileGrants folder (path ++ [Lit ".groups"]) (pe_groups e);
  users ← compileGrants folder (path ++ [Lit ".users"]) (pe_users e);
  Ok (MkPolicyScope folder groups users).

(** The roleMap values that are not a built-in role. *)
Definition legacyRoleLines (l : Legacy) : list text :=
  let m := l_RoleMap l in
  flat_map (λ k,
    let r := default "" (m !! k) in
    if (r =? "")%string || (r =? "deny")%string then []
    else match Bundle r with
         | Some _ => []
         | None => [[Lit "oidc."; Lit "roleMap"; Lit "["; Quo k; Lit "]: unknown role "; Quo r;
                     Lit " is ignored (valid: "; Lit (Join ", " RoleNames); Lit ")"]]
         end) (sorted_keys m).

(** One folder of the configuration: [seen] maps a normalised folder to the
    first raw key that named it. *)
Definition compile_folder (st : gmap string string * Policy) (f : FolderEntry)
  : res (gmap string string * Policy) :=
  let '(seen, scopes) := st in
  let path := key_path (policyPath ++ [Lit ".folders"]) (fe_key f) in
  folder ← wrap (path ++ [Lit ": "]) (NormalizeFolder (fe_key f));
  match seen !! folder with
  | Some first => Err (policyPath ++ [Lit ".folders: "; Quo first; Lit " and "; Quo (fe_key f);
                                      Lit " are the same folder"])
  | None =>
      _ ← fail_if (bool_decide (pe_groups (fe_entry f) = []) && bool_decide (pe_users (fe_entry f) = []))
            (path ++ [Lit ": no groups or users"]);
      scope ← compileScope folder path (fe_entry f);
      Ok (<[folder := fe_key f]> seen, scopes ++ [scope])
  end.

(** [Compile cfg legacy issuer]: the policy and the warnings. *)
Definition Compile (cfg : option PolicyConfig) (legacy : Legacy) (issuer : string)
  : res (Policy * list text) :=
  let lines := legacyRoleLines legacy in
  match cfg with
  | None => Ok ([], lines)
  | Some cfg =>
      _ ← fail_if (issuer =? "")%string (policyPath ++ [Lit " is set but oidc.issuer is not"]);
      _ ← match lines with [] => Ok tt | line :: _ => Err line end;
      global ← compileScope "" (policyPath ++ [Lit ".global"]) (pc_global cfg);
      st ← fold_res compile_folder (∅, [global]) (pc_folders cfg);
      Ok (st.2, [])
  end.

(** ** Matching *)

Definition group_matches (id : Identity) (e : policyGrant) : bool :=
  existsb (λ v, (v =? pg_key e)%string) (id_Values id).
Definition user_matches (id : Identity) (e : policyGrant) : bool :=
  (negb (id_Email id =? "")%string && (id_Email id =? pg_key e)%string)
  || (negb (id_Sub id =? "")%string && (id_Sub id =? pg_key e)%string).

Definition match_entry (s : policyScope) (kind : string) (hit : policyGrant → bool)
    (st : Grants * bool) (e : policyGrant) : Grants * bool :=
  let scope := if (ps_folder s =? "")%string then "global" else "folder:" +:+ ps_folder s in
  if hit e then
    (Grants_Add st.1 (ps_folder s) (pg_set e)
       [Lit scope; Lit " ("; Lit kind; Lit "["; Quo (pg_key e); Lit "])"], true)
  else st.

Definition match_scope (id : Identity) (st : Grants * bool) (s : policyScope) : Grants * bool :=
  foldl (match_entry s "users" (user_matches id))
    (foldl (match_entry s "groups" (group_matches id)) st (ps_groups s)) (ps_users s).

(** [Policy.Match]: the grants of every matching entry, and whether one
    matched. *)
Definition Policy_Match (p : option Policy) (id : Identity) : Grants * bool :=
  match p with
  | None => (Grants_zero, false)
  | Some scopes => foldl (match_scope id) (Grants_zero, false) scopes
  end.

Definition nonempty {A} (l : list A) : bool := match l with [] => false | _ => true end.

Definition Policy_Configured (p : option Policy) : bool :=
  match p with
  | None => false
  | Some scopes => existsb (λ s, nonempty (ps_groups s) || nonempty (ps_users s)) scopes
  end.
Definition Policy_HasGroupKeyedGrants (p : option Policy) : bool :=
  match p with None => false | Some scopes => existsb (λ s, nonempty (ps_groups s)) scopes end.
Definition Policy_HasFolderGrants (p : option Policy) : bool :=
  match p with
  | None => false
  | Some scopes => existsb (λ s, negb (ps_folder s =? "")%string) scopes
  end.

(** ** describe.go: the policy view *)

Record AuthzLegacyEntry := MkLegacyEntry {
  le_Key : string; le_Role : string; le_Ignored : bool; le_Denies : bool;
  le_Permissions : list string
}.
Record AuthzLegacy := MkAuthzLegacy {
  al_RoleMap : list AuthzLegacyEntry;
  al_UserMap : list AuthzLegacyEntry;
  al_DefaultRole : AuthzLegacyEntry
}.
Record AuthzGrantEntry := MkAuthzGrantEntry {
  ag_Subject : string; ag_Name : string; ag_Grant : list string; ag_Permissions : list string
}.
Record AuthzFolderEntry := MkAuthzFolderEntry {
  af_Folder : string; af_Entries : list AuthzGrantEntry
}.
Record AuthzPolicy := MkAuthzPolicy {
  ap_OIDC : bool; ap_RolesClaim : string; ap_Bundles : gmap string (list string);
  ap_Legacy : AuthzLegacy; ap_Global : list AuthzGrantEntry; ap_Folders : list AuthzFolderEntry
}.

Definition Bundles : gmap string (list string) :=
  foldl (λ out r, <[r := Set_Names (default 0%Z (Bundle r))]> out) ∅ RoleNames.

Definition legacyEntry (key role : string) (ignoreUnknown : bool) : AuthzLegacyEntry :=
  match Bundle role with
  | Some set => MkLegacyEntry key role false false (Set_Names set)
  | None =>
      if negb (role =? "")%string && negb (role =? "deny")%string
      then MkLegacyEntry key role ignoreUnknown (negb ignoreUnknown) []
      else MkLegacyEntry key role false false []
  end.

Definition legacyEntries (m : gmap string string) (ignoreUnknown : bool) : list AuthzLegacyEntry :=
  (λ k, legacyEntry k (default "" (m !! k)) ignoreUnknown) <$> sorted_keys m.

Definition describeGrants (subject : string) (grants : list policyGrant) : list AuthzGrantEntry :=
  (λ g, MkAuthzGrantEntry subject (pg_key g) (pg_grant g) (Set_Names (pg_set g))) <$> grants.

Definition describe_scope (out : AuthzPolicy) (s : policyScope) : AuthzPolicy :=
  let entries := describeGrants "group" (ps_groups s) ++ describeGrants "user" (ps_users s) in
  if (ps_folder s =? "")%string
  then MkAuthzPolicy (ap_OIDC out) (ap_RolesClaim out) (ap_Bundles out) (ap_Legacy out)
                     entries (ap_Folders out)
  else MkAuthzPolicy (ap_OIDC out) (ap_RolesClaim out) (ap_Bundles out) (ap_Legacy out)
                     (ap_Global out)
                     (ap_Folders out ++ [MkAuthzFolderEntry (ps_folder s) entries]).

Definition Policy_Describe (p : option Policy) (legacy : Legacy) : AuthzPolicy :=
  let claim := if (l_RolesClaim legacy =? "")%string then "groups" else l_RolesClaim legacy in
  let out := MkAuthzPolicy true claim Bundles
    (MkAuthzLegacy (legacyEntries (l_RoleMap legacy) true)
                   (legacyEntries (l_UserMap legacy) false)
                   (legacyEntry "defaultRole" (l_DefaultRole legacy) false)) [] [] in
  match p with
  | None => out
  | Some scopes => foldl describe_scope out scopes
  end.

Definition NoOIDCPolicy : AuthzPolicy :=
  MkAuthzPolicy false "" Bundles
    (MkAuthzLegacy [] [] (MkLegacyEntry "defaultRole" "" false false [])) [] [].

(** ** Abstract specification

    What a configuration means, read directly from its entries. *)

(** A name written in a grant confers [p]: a role confers its bundle (only the
    folder-scopable part on a folder), a permission confers itself. *)
Definition name_confers (on_folder : bool) (p : Permission) (name : string) : bool :=
  match Bundle name with
  | Some b => Set_Has b p && (negb on_folder || FolderScopable p)
  | None => (name =? p)%string
  end.

Definition entry_confers (on_folder : bool) (p : Permission) (e : GrantEntry) : bool :=
  existsb (name_confers on_folder p) (ge_grants e).

Definition is_user (id : Identity) (key : string) : Prop :=
  (id_Email id ≠ "" ∧ id_Email id = key) ∨ (id_Sub id ≠ "" ∧ id_Sub id = key).

(** The entries of one scope that name the identity. *)
Definition names_identity (id : Identity) (pe : PolicyEntry) (e : GrantEntry) : Prop :=
  (e ∈ pe_groups pe ∧ ge_key e ∈ id_Values id) ∨ (e ∈ pe_users pe ∧ is_user id (ge_key e)).

Definition policy_grants (cfg : PolicyConfig) (id : Identity) (p : Permission) (job : string) : Prop :=
  (∃ e, names_identity id (pc_global cfg) e ∧ entry_confers false p e = true) ∨
  (∃ f e, f ∈ pc_folders cfg ∧ Covers (Trim "/" (fe_key f)) job = true ∧
          names_identity id (fe_entry f) e ∧ entry_confers true p e = true).

Definition policy_names (cfg : PolicyConfig) (id : Identity) : Prop :=
  (∃ e, names_identity id (pc_global cfg) e) ∨
  (∃ f e, f ∈ pc_folders cfg ∧ names_identity id (fe_entry f) e).

(** ** Facts: compiling *)

Lemma compile_name_ok folder p set name set' :
  compile_name folder p set name = Ok set' →
  (set_ok set → set_ok set') ∧
  ∀ q, Set_Has set' q = Set_Has set q || name_confers (negb (folder =? "")%string) q name.
Proof.
  unfold compile_name, name_confers. destruct (Bundle name) as [b|] eqn:Eb.
  - intros [= <-]. split.
    + intros Hs. apply set_ok_Union; [done|]. apply set_ok_Bundle in Eb.
      case_match; [done|by apply set_ok_FolderPart].
    + intros q. rewrite Set_Has_Union. destruct (folder =? "")%string; simpl.
      * by rewrite andb_true_r.
      * by rewrite Set_Has_FolderPart.
  - destruct (Parse name) as [perm|] eqn:Ep; [|done]. apply Parse_spec in Ep as [<- Hb].
    destruct (negb _ && negb _) eqn:E; [done|]. intros Eq.
    assert (set' = Set_With set [name]) as -> by congruence. clear Eq. split.
    + apply set_ok_With.
    + intros q. rewrite Set_Has_With1. apply Z.leb_le in Hb. by rewrite Hb.
Qed.

Lemma compile_names_ok folder p names : ∀ set set',
  fold_res (compile_name folder p) set names = Ok set' →
  (set_ok set → set_ok set') ∧
  ∀ q, Set_Has set' q
       = Set_Has set q || existsb (name_confers (negb (folder =? "")%string) q) names.
Proof.
  induction names as [|n names IH]; intros set set'; simpl.
  - intros [= <-]. split; [done|]. intros q. by rewrite orb_false_r.
  - unfold mbind, res_bind. destruct (compile_name folder p set n) as [s1|] eqn:E; [|done].
    intros [H1 H2]%IH. apply compile_name_ok in E as [H3 H4]. split; [auto|].
    intros q. by rewrite H2, H4, orb_assoc.
Qed.

(** A permission conferred on a folder is folder-scopable. *)
Lemma compile_names_scopable folder p names : ∀ set set',
  folder ≠ "" →
  fold_res (compile_name folder p) set names = Ok set' →
  Forall (λ n, ∀ q, name_confers true q n = true → FolderScopable q = true) names.
Proof.
  induction names as [|n names IH]; intros set set' Hf; simpl; [by constructor|].
  unfold mbind, res_bind. destruct (compile_name folder p set n) as [s1|] eqn:E; [|done].
  intros H. constructor; [|by eapply IH]. intros q. unfold name_confers.
  unfold compile_name in E. destruct (Bundle n) as [b|].
  - simpl. by intros [_ ?]%andb_true_iff.
  - intros ->%String.eqb_eq. destruct (Parse q) as [perm|] eqn:Ep; [|done].
    apply Parse_spec in Ep as [<- _].
    apply String.eqb_neq in Hf. rewrite Hf in E. simpl in E.
    by destruct (FolderScopable q).
Qed.

Definition compiled_entry (folder : string) (e : GrantEntry) (g : policyGrant) : Prop :=
  pg_key g = ge_key e ∧ pg_grant g = ge_grants e ∧ set_ok (pg_set g) ∧
  (folder ≠ "" → Set_FolderPart (pg_set g) = pg_set g) ∧
  ∀ q, Set_Has (pg_set g) q = entry_confers (negb (folder =? "")%string) q e.

Lemma compileGrant_ok folder path e g :
  compileGrant folder path e = Ok g → compiled_entry folder e g.
Proof.
  unfold compileGrant, mbind, res_bind, fail_if.
  destruct (bool_decide (ge_grants e = [])); [done|].
  destruct (fold_res _ 0%Z (ge_grants e)) as [set|] eqn:E; [|done]. intros [= <-].
  pose proof (compile_names_ok _ _ _ _ _ E) as [H1 H2].
  assert (∀ q, Set_Has set q = entry_confers (negb (folder =? "")%string) q e) as H3.
  { intros q. by rewrite H2, Set_Has_0. }
  repeat split; simpl; auto using set_ok_0; try (apply H1; apply set_ok_0).
  intros Hf. apply set_ext; [apply set_ok_FolderPart; apply H1, set_ok_0|apply H1, set_ok_0|].
  intros q. rewrite Set_Has_FolderPart, H3. apply String.eqb_neq in Hf as Hf'. rewrite Hf'. simpl.
  destruct (entry_confers true q e) eqn:Eq; [|done]. simpl.
  apply existsb_elem in Eq as (n & Hn & Hc).
  pose proof (compile_names_scopable _ _ _ _ _ Hf E) as Hsc. rewrite Forall_forall in Hsc.
  by eapply Hsc.
Qed.

Lemma compileGrants_ok folder path es gs :
  compileGrants folder path es = Ok gs → Forall2 (compiled_entry folder) es gs.
Proof.
  unfold compileGrants. rewrite map_res_ok. intros H. eapply Forall2_impl; [exact H|].
  intros ??. apply compileGrant_ok.
Qed.

Definition compiled_scope (folder : string) (pe : PolicyEntry) (s : policyScope) : Prop :=
  ps_folder s = folder ∧ Forall2 (compiled_entry folder) (pe_groups pe) (ps_groups s) ∧
  Forall2 (compiled_entry folder) (pe_users pe) (ps_users s).

Lemma compileScope_ok folder path pe s :
  compileScope folder path pe = Ok s → compiled_scope folder pe s.
Proof.
  unfold compileScope, mbind, res_bind.
  destruct (compileGrants _ _ (pe_groups pe)) as [gs|] eqn:Eg; [|done].
  destruct (compileGrants _ _ (pe_users pe)) as [us|] eqn:Eu; [|done].
  intros [= <-]. split; [done|]. split; by eapply compileGrants_ok.
Qed.

Definition compiled_folder (f : FolderEntry) (s : policyScope) : Prop :=
  ∃ folder, NormalizeFolder (fe_key f) = Ok folder ∧ compiled_scope folder (fe_entry f) s.

Lemma compile_folder_ok seen acc f st :
  compile_folder (seen, acc) f = Ok st →
  ∃ folder s, st = (<[folder := fe_key f]> seen, acc ++ [s]) ∧ seen !! folder = None ∧
    NormalizeFolder (fe_key f) = Ok folder ∧ compiled_scope folder (fe_entry f) s.
Proof.
  unfold compile_folder, mbind, res_bind, wrap, fail_if.
  destruct (NormalizeFolder (fe_key f)) as [folder|] eqn:En; [|done].
  destruct (seen !! folder) eqn:Es; [done|].
  destruct (_ && _); [done|]. destruct (compileScope _ _ _) as [s|] eqn:Ec; [|done].
  intros [= <-]. exists folder, s. repeat split; try done; by eapply compileScope_ok.
Qed.

Lemma compile_folders_ok fs : ∀ seen acc seen' P,
  fold_res compile_folder (seen, acc) fs = Ok (seen', P) →
  ∃ ss, P = acc ++ ss ∧ Forall2 compiled_folder fs ss ∧
        NoDup (ps_folder <$> ss) ∧ ∀ s, s ∈ ss → seen !! ps_folder s = None.
Proof.
  induction fs as [|f fs IH]; intros seen acc seen' P.
  - intros [= <- <-]. exists []. rewrite app_nil_r. repeat split; try constructor.
    by intros s ?%not_elem_of_nil.
  - rewrite fold_res_cons. intros (st & (folder & s & -> & Es & En & Ec)%compile_folder_ok & H).
    revert H.
    intros (ss & -> & HF & Hnd & Hnew)%IH.
    pose proof Ec as [Hfold _]. exists (s :: ss). rewrite <-(assoc (++)). split; [done|].
    split; [constructor; [by exists folder|done]|]. split.
    + simpl. constructor; [|done]. rewrite list_elem_of_fmap. intros (t & Ht & Hin).
      specialize (Hnew t Hin). rewrite <-Ht, Hfold, lookup_insert_eq in Hnew. done.
    + intros t [->|Ht]%elem_of_cons; [by rewrite Hfold|].
      specialize (Hnew t Ht). apply lookup_insert_None in Hnew. by destruct Hnew.
Qed.

(** What [Compile] returns for a configuration. *)
Lemma Compile_ok cfg legacy issuer P w :
  Compile (Some cfg) legacy issuer = Ok (P, w) →
  issuer ≠ "" ∧ legacyRoleLines legacy = [] ∧ w = [] ∧
  ∃ s0 ss, P = s0 :: ss ∧ compiled_scope "" (pc_global cfg) s0 ∧
           Forall2 compiled_folder (pc_folders cfg) ss ∧ NoDup (ps_folder <$> ss).
Proof.
  unfold Compile, mbind, res_bind, fail_if.
  destruct (String.eqb_spec issuer ""); [done|].
  destruct (legacyRoleLines legacy); [|done].
  destruct (compileScope "" _ _) as [s0|] eqn:E0; [|done].
  destruct (fold_res _ _ _) as [[seen P']|] eqn:E; [|done]. simpl.
  intros [= <- <-]. apply compile_folders_ok in E as (ss & -> & HF & Hnd & _).
  apply compileScope_ok in E0. repeat split; try done. by exists s0, ss.
Qed.

(** ** Facts: matching *)

Definition entry_source (s : policyScope) (kind : string) (e : policyGrant) : source :=
  Source (ps_folder s) (pg_set e)
    [Lit (if (ps_folder s =? "")%string then "global" else "folder:" +:+ ps_folder s);
     Lit " ("; Lit kind; Lit "["; Quo (pg_key e); Lit "])"].

(** The sources one scope contributes. *)
Definition scope_sources (id : Identity) (s : policyScope) : list source :=
  (entry_source s "groups" <$> filter (λ e, group_matches id e = true) (ps_groups s)) ++
  (entry_source s "users" <$> filter (λ e, user_matches id e = true) (ps_users s)).

Lemma match_entries s kind hit es : ∀ g m,
  foldl (match_entry s kind hit) (g, m) es
  = (foldl add_source g (entry_source s kind <$> filter (λ e, hit e = true) es),
     m || existsb hit es).
Proof.
  induction es as [|e es IH]; intros g m; simpl; [by rewrite orb_false_r|].
  rewrite filter_cons. unfold match_entry at 2. destruct (hit e) eqn:E; simpl.
  - rewrite IH. simpl. by rewrite orb_true_r.
  - apply IH.
Qed.

Lemma match_scopes id scopes : ∀ g m,
  foldl (match_scope id) (g, m) scopes
  = (foldl add_source g (flat_map (scope_sources id) scopes),
     m || existsb (λ s, existsb (group_matches id) (ps_groups s)
                        || existsb (user_matches id) (ps_users s)) scopes).
Proof.
  induction scopes as [|s scopes IH]; intros g m; simpl; [by rewrite orb_false_r|].
  unfold match_scope at 2. rewrite !match_entries, IH. f_equal.
  - unfold scope_sources at 2. by rewrite !foldl_app.
  - by rewrite !orb_assoc.
Qed.

Lemma Match_build scopes id :
  Policy_Match (Some scopes) id
  = (build (flat_map (scope_sources id) scopes),
     existsb (λ s, existsb (group_matches id) (ps_groups s)
                   || existsb (user_matches id) (ps_users s)) scopes).
Proof. unfold Policy_Match. by rewrite match_scopes. Qed.

Lemma Match_coherent p id : coherent (Policy_Match p id).1.
Proof. destruct p as [scopes|]; [|done]. rewrite Match_build. apply coherent_build. Qed.

Lemma group_matches_spec id e : group_matches id e = true ↔ pg_key e ∈ id_Values id.
Proof.
  unfold group_matches. rewrite existsb_elem. setoid_rewrite String.eqb_eq. naive_solver.
Qed.

Lemma user_matches_spec id e : user_matches id e = true ↔ is_user id (pg_key e).
Proof.
  unfold user_matches, is_user.
  by rewrite orb_true_iff, !andb_true_iff, !negb_true_iff, !String.eqb_neq, !String.eqb_eq.
Qed.

Lemma elem_of_scope_sources id s src :
  src ∈ scope_sources id s ↔
  (∃ e, e ∈ ps_groups s ∧ pg_key e ∈ id_Values id ∧ src = entry_source s "groups" e) ∨
  (∃ e, e ∈ ps_users s ∧ is_user id (pg_key e) ∧ src = entry_source s "users" e).
Proof.
  unfold scope_sources. rewrite elem_of_app, !list_elem_of_fmap.
  setoid_rewrite list_elem_of_filter. setoid_rewrite group_matches_spec.
  setoid_rewrite user_matches_spec. naive_solver.
Qed.

(** The sources of a compiled scope confer exactly what its configuration
    says. *)
Lemma scope_sources_confer folder pe s id p job :
  compiled_scope folder pe s →
  (∃ src, src ∈ scope_sources id s ∧ source_grants p job src = true) ↔
  ((folder = "" ∨ Covers folder job = true) ∧
   ∃ e, names_identity id pe e ∧ entry_confers (negb (folder =? "")%string) p e = true).
Proof.
  intros (Hf & Hg & Hu).
  assert (∀ kind e g, compiled_entry folder e g →
    source_grants p job (entry_source s kind g) = true ↔
    entry_confers (negb (folder =? "")%string) p e = true ∧ (folder = "" ∨ Covers folder job = true)) as Hsrc.
  { intros kind e g (_ & _ & _ & _ & Hq). unfold source_grants. simpl.
    by rewrite Hq, Hf, andb_true_iff, orb_true_iff, String.eqb_eq. }
  assert (∀ kind (K : string → Prop) es gs, Forall2 (compiled_entry folder) es gs →
    (∃ g, g ∈ gs ∧ (K (pg_key g) ∧ source_grants p job (entry_source s kind g) = true)) ↔
    (∃ e, e ∈ es ∧ (K (ge_key e) ∧ entry_confers (negb (folder =? "")%string) p e = true ∧
                    (folder = "" ∨ Covers folder job = true)))) as Hl.
  { intros kind K es gs HF. symmetry. eapply Forall2_exists_iff; [exact HF|].
    intros e g Hc. rewrite (Hsrc kind e g Hc). by destruct Hc as [-> _]. }
  specialize (Hl "groups" (.∈ id_Values id) _ _ Hg) as Hlg.
  specialize (Hl "users" (is_user id) _ _ Hu) as Hlu. clear Hl Hsrc Hg Hu Hf.
  setoid_rewrite elem_of_scope_sources. unfold names_identity. split.
  - intros (src & [(g & ? & ? & ->)|(g & ? & ? & ->)] & ?).
    + destruct (proj1 Hlg) as (e & ? & ? & ? & ?); eauto 10.
    + destruct (proj1 Hlu) as (e & ? & ? & ? & ?); eauto 10.
  - intros (? & e & [[??]|[??]] & ?).
    + destruct (proj2 Hlg) as (g & ? & ? & ?); eauto 10.
    + destruct (proj2 Hlu) as (g & ? & ? & ?); eauto 10.
Qed.

(** The folder scopes of a compiled policy. *)
Lemma compiled_folder_confer f s id p job :
  compiled_folder f s →
  (∃ src, src ∈ scope_sources id s ∧ source_grants p job src = true) ↔
  Covers (Trim "/" (fe_key f)) job = true ∧
  ∃ e, names_identity id (fe_entry f) e ∧ entry_confers true p e = true.
Proof.
  intros (folder & Hn & Hc). pose proof (NormalizeFolder_nonempty _ _ Hn) as Hne.
  rewrite (scope_sources_confer _ _ _ _ _ _ Hc). apply String.eqb_neq in Hne as Hne'.
  rewrite Hne'. simpl. apply NormalizeFolder_ok in Hn as [-> _]. naive_solver.
Qed.

(** ** What a compiled policy grants *)

Lemma entry_scope_ok folder s kind e g :
  ps_folder s = folder → compiled_entry folder e g →
  (folder ≠ "" → NormalizeFolder folder = Ok folder) →
  scope_ok (s_folder (entry_source s kind g)) (s_perms (entry_source s kind g)).
Proof. intros Hf (_ & _ & Hset & Hfp & _) Hn. simpl. rewrite Hf. split; auto. Qed.

Lemma compiled_scope_ok folder pe s id src :
  compiled_scope folder pe s → (folder ≠ "" → NormalizeFolder folder = Ok folder) →
  src ∈ scope_sources id s → scope_ok (s_folder src) (s_perms src).
Proof.
  intros (Hf & Hg & Hu) Hn [(g & Hin & _ & ->)|(g & Hin & _ & ->)]%elem_of_scope_sources;
    apply list_elem_of_lookup in Hin as [i Hi].
  - destruct (Forall2_lookup_r _ _ _ _ _ Hg Hi) as (e & _ & Hc). by eapply entry_scope_ok.
  - destruct (Forall2_lookup_r _ _ _ _ _ Hu Hi) as (e & _ & Hc). by eapply entry_scope_ok.
Qed.

Lemma match_sources_ok cfg legacy issuer P w id src :
  Compile (Some cfg) legacy issuer = Ok (P, w) →
  src ∈ flat_map (scope_sources id) P → scope_ok (s_folder src) (s_perms src).
Proof.
  intros (_ & _ & _ & s0 & ss & -> & H0 & HF & _)%Compile_ok Hsrc.
  apply list_elem_of_In, in_flat_map in Hsrc as (s & Hs%list_elem_of_In & Hin%list_elem_of_In).
  apply elem_of_cons in Hs as [->|Hs]; [by eapply compiled_scope_ok|].
  apply list_elem_of_lookup in Hs as [i Hi].
  destruct (Forall2_lookup_r _ _ _ _ _ HF Hi) as (f & _ & folder & Hn & Hc).
  eapply compiled_scope_ok; eauto using NormalizeFolder_idem.
Qed.

Lemma match_grants_ok cfg legacy issuer P w id :
  Compile (Some cfg) legacy issuer = Ok (P, w) → grants_ok (Policy_Match (Some P) id).1.
Proof.
  intros H. rewrite Match_build. apply grants_ok_fold; [|apply grants_ok_zero].
  intros g src Hin Hg. apply grants_ok_Add; [done|]. by eapply match_sources_ok.
Qed.

Lemma match_names cfg legacy issuer P w id :
  Compile (Some cfg) legacy issuer = Ok (P, w) →
  (Policy_Match (Some P) id).2 = true ↔ policy_names cfg id.
Proof.
  intros (_ & _ & _ & s0 & ss & -> & H0 & HF & _)%Compile_ok.
  rewrite Match_build. cbn [snd]. rewrite existsb_elem.
  assert (∀ folder pe s, compiled_scope folder pe s →
    (existsb (group_matches id) (ps_groups s) || existsb (user_matches id) (ps_users s) = true ↔
     ∃ e, names_identity id pe e)) as Hs.
  { intros folder pe s (_ & Hg & Hu). rewrite orb_true_iff, !existsb_elem. unfold names_identity.
    rewrite <-(Forall2_exists_iff _ (λ e, ge_key e ∈ id_Values id) _ _ _ Hg),
            <-(Forall2_exists_iff _ (λ e, is_user id (ge_key e)) _ _ _ Hu); [naive_solver|..];
      intros e g [Hk _]; rewrite ?group_matches_spec, ?user_matches_spec; by rewrite Hk. }
  pose proof (Forall2_exists_iff _ (λ f, ∃ e, names_identity id (fe_entry f) e) (λ s,
     existsb (group_matches id) (ps_groups s) || existsb (user_matches id) (ps_users s) = true)
     _ _ HF ltac:(intros f s' (folder & _ & Hc); symmetry; by eapply Hs)) as Hf.
  unfold policy_names. setoid_rewrite elem_of_cons. split.
  - intros (s & [->|Hin] & H); [left; by eapply Hs|right].
    destruct (proj2 Hf) as (f & ? & e & ?); eauto.
  - intros [H|(f & e & ? & ?)]; [exists s0; split; [by left|by eapply Hs]|].
    destruct (proj1 Hf) as (s & ? & ?); eauto.
Qed.

Lemma match_grants cfg legacy issuer P w id p job :
  Compile (Some cfg) legacy issuer = Ok (P, w) →
  Grants_Can (Policy_Match (Some P) id).1 p job = true ↔ policy_grants cfg id p job.
Proof.
  intros (_ & _ & _ & s0 & ss & -> & H0 & HF & _)%Compile_ok.
  rewrite Match_build. cbn [fst flat_map]. rewrite Can_build, existsb_elem.
  pose proof (scope_sources_confer _ _ _ id p job H0) as Hg. simpl in Hg.
  pose proof (Forall2_exists_iff _
    (λ f, Covers (Trim "/" (fe_key f)) job = true ∧
          ∃ e, names_identity id (fe_entry f) e ∧ entry_confers true p e = true)
    (λ s, ∃ src, src ∈ scope_sources id s ∧ source_grants p job src = true) _ _ HF
    ltac:(intros f s Hc; symmetry; by apply compiled_folder_confer)) as Hf.
  unfold policy_grants. split.
  - intros (src & [Hin|Hin]%elem_of_app & Hs).
    + left. apply Hg. eauto.
    + apply list_elem_of_In, in_flat_map in Hin as (s & Hs'%list_elem_of_In & Hin%list_elem_of_In).
      right. destruct (proj2 Hf) as (f & ? & ? & e & ? & ?); eauto 10.
  - intros [H|(f & e & ? & ? & ? & ?)].
    + destruct (proj2 Hg) as (src & ? & ?); eauto. exists src. rewrite elem_of_app. auto.
    + destruct (proj1 Hf) as (s & ? & src & ? & ?); eauto 10.
      exists src. split; [|done]. apply elem_of_app. right.
      apply list_elem_of_In, in_flat_map. exists s. by rewrite <-!list_elem_of_In.
Qed.

(** ** Which configurations compile *)

Definition name_valid (on_folder : bool) (n : string) : bool :=
  match Bundle n with
  | Some _ => true
  | None => match Parse n with
            | Some p => negb on_folder || FolderScopable p
            | None => false
            end
  end.

Definition entry_valid (on_folder : bool) (e : GrantEntry) : Prop :=
  ge_grants e ≠ [] ∧ Forall (λ n, name_valid on_folder n = true) (ge_grants e).

Definition scope_valid (on_folder : bool) (pe : PolicyEntry) : Prop :=
  Forall (entry_valid on_folder) (pe_groups pe) ∧ Forall (entry_valid on_folder) (pe_users pe).

Definition folder_valid (f : FolderEntry) : Prop :=
  is_ok (NormalizeFolder (fe_key f)) = true ∧
  (pe_groups (fe_entry f) ≠ [] ∨ pe_users (fe_entry f) ≠ []) ∧
  scope_valid true (fe_entry f).

Definition config_valid (cfg : PolicyConfig) : Prop :=
  scope_valid false (pc_global cfg) ∧ Forall folder_valid (pc_folders cfg) ∧
  NoDup (Trim "/" ∘ fe_key <$> pc_folders cfg).

Lemma compile_name_is_ok folder p set n :
  is_ok (compile_name folder p set n) = true ↔ name_valid (negb (folder =? "")%string) n = true.
Proof.
  unfold compile_name, name_valid. destruct (Bundle n); [done|]. destruct (Parse n); [|done].
  by destruct (folder =? "")%string, (FolderScopable _).
Qed.

Lemma compileGrant_is_ok folder path e :
  is_ok (compileGrant folder path e) = true ↔ entry_valid (negb (folder =? "")%string) e.
Proof.
  unfold compileGrant, entry_valid.
  rewrite <-(fold_res_is_ok _ _ _ (compile_name_is_ok folder (key_path path (ge_key e))) 0%Z).
  rewrite bind_is_ok. split.
  - intros ([] & H & (s & Hs & _)%bind_is_ok). apply fail_if_ok, bool_decide_eq_false in H.
    by rewrite Hs.
  - intros (H & [s Hs]%is_ok_spec). exists tt. rewrite fail_if_ok, bool_decide_eq_false.
    split; [done|]. apply bind_is_ok. eauto.
Qed.

Lemma compileScope_is_ok folder path pe :
  is_ok (compileScope folder path pe) = true ↔ scope_valid (negb (folder =? "")%string) pe.
Proof.
  unfold compileScope, scope_valid, compileGrants. rewrite bind_is_ok.
  assert (∀ path' es, Forall (entry_valid (negb (folder =? "")%string)) es ↔
          is_ok (map_res (compileGrant folder path') es) = true) as H.
  { intros path' es. rewrite map_res_is_ok. apply Forall_proper; [|done].
    intros e. symmetry. apply compileGrant_is_ok. }
  rewrite (H (path ++ [Lit ".groups"])), (H (path ++ [Lit ".users"])), !is_ok_spec. split.
  - intros (gs & ? & (us & ? & _)%bind_is_ok). eauto.
  - intros [[gs ?] [us ?]]. exists gs. split; [done|]. apply bind_is_ok. eauto.
Qed.

Lemma compile_folder_is_ok seen acc f :
  is_ok (compile_folder (seen, acc) f) = true ↔
  folder_valid f ∧ seen !! Trim "/" (fe_key f) = None.
Proof.
  unfold compile_folder, folder_valid. rewrite bind_is_ok. setoid_rewrite wrap_ok.
  destruct (NormalizeFolder (fe_key f)) as [folder|] eqn:En; [|naive_solver].
  pose proof (NormalizeFolder_nonempty _ _ En) as Hne.
  apply NormalizeFolder_ok in En as (Hf & _). subst folder. apply String.eqb_neq in Hne.
  set (folder := Trim "/" (fe_key f)) in *.
  pose proof (λ path, compileScope_is_ok folder path (fe_entry f)) as Hs. rewrite Hne in Hs.
  split.
  - intros (? & [= <-] & H). destruct (seen !! folder) eqn:Es; [done|]. apply bind_is_ok in H as ([] & H1 & H2).
    apply bind_is_ok in H2 as (s & H2 & _). rewrite fail_if_ok, andb_false_iff, !bool_decide_eq_false in H1.
    split; [|done]. split; [done|]. split; [done|]. eapply Hs. by rewrite H2.
  - intros ((_ & Hne' & Hv) & Es). exists folder. split; [done|]. rewrite Es. apply bind_is_ok. exists tt.
    rewrite fail_if_ok, andb_false_iff, !bool_decide_eq_false. split; [done|]. apply bind_is_ok.
    apply (Hs (key_path (policyPath ++ [Lit ".folders"]) (fe_key f))), is_ok_spec in Hv as [s Hv]. eauto.
Qed.

Lemma compile_folders_is_ok fs : ∀ seen acc,
  is_ok (fold_res compile_folder (seen, acc) fs) = true ↔
  Forall folder_valid fs ∧ NoDup (Trim "/" ∘ fe_key <$> fs) ∧
  Forall (λ f, seen !! Trim "/" (fe_key f) = None) fs.
Proof.
  induction fs as [|f fs IH]; intros seen acc.
  - split; [|done]. intros _. repeat constructor.
  - rewrite fmap_cons, NoDup_cons, !Forall_cons, list_elem_of_fmap.
    rewrite is_ok_spec. setoid_rewrite fold_res_cons. split.
    + intros (st' & st & H1 & H2). pose proof (compile_folder_is_ok seen acc f) as Hf.
      rewrite H1 in Hf. destruct Hf as [Hf _]. specialize (Hf eq_refl) as [Hv Hn].
      apply compile_folder_ok in H1 as (folder & s & -> & _ & (-> & _)%NormalizeFolder_ok & _).
      assert (is_ok (fold_res compile_folder (<[Trim "/" (fe_key f):=fe_key f]> seen, acc ++ [s]) fs) = true)
        as (Hvs & Hnd & Hns)%IH by by rewrite H2. rewrite Forall_forall in Hns.
      split_and!; try done.
      * intros (g & Heq & Hg). specialize (Hns g Hg). simpl in Heq. by rewrite <-Heq, lookup_insert_eq in Hns.
      * apply Forall_forall. intros g Hg. specialize (Hns g Hg). by apply lookup_insert_None in Hns as [? _].
    + intros ([Hv Hvs] & [Hni Hnd] & [Hn Hns]).
      pose proof (proj2 (compile_folder_is_ok seen acc f) (conj Hv Hn)) as [st Hst]%is_ok_spec.
      pose proof Hst as (folder & s & -> & _ & (-> & _)%NormalizeFolder_ok & _)%compile_folder_ok.
      destruct (proj1 (is_ok_spec (fold_res compile_folder (<[Trim "/" (fe_key f):=fe_key f]> seen, acc ++ [s]) fs)))
        as [st' Hst']; [|eauto].
      apply IH. split_and!; try done. apply Forall_forall. intros g Hg. rewrite Forall_forall in Hns.
      rewrite lookup_insert_ne; [by apply Hns|]. intros Heq. apply Hni. by exists g.
Qed.

Lemma Compile_is_ok cfg legacy issuer :
  is_ok (Compile (Some cfg) legacy issuer) = true ↔
  issuer ≠ "" ∧ legacyRoleLines legacy = [] ∧ config_valid cfg.
Proof.
  unfold Compile, config_valid. rewrite bind_is_ok. split.
  - intros ([] & Hi & (? & Hl & (s0 & H0 & (st & Hst & _)%bind_is_ok)%bind_is_ok)%bind_is_ok).
    apply fail_if_ok, String.eqb_neq in Hi. destruct (legacyRoleLines legacy); [|done].
    assert (scope_valid false (pc_global cfg)).
    { apply (compileScope_is_ok "" (policyPath ++ [Lit ".global"])). by rewrite H0. }
    assert (is_ok (fold_res compile_folder (∅, [s0]) (pc_folders cfg)) = true)
      as (? & ? & _)%compile_folders_is_ok by by rewrite Hst. done.
  - intros (Hi & -> & Hg & Hf & Hnd). exists tt. rewrite fail_if_ok, String.eqb_neq.
    split; [done|]. apply bind_is_ok. exists tt. split; [done|]. apply bind_is_ok.
    apply (compileScope_is_ok "" (policyPath ++ [Lit ".global"])), is_ok_spec in Hg as [s0 H0].
    exists s0. split; [done|]. apply bind_is_ok.
    destruct (proj1 (is_ok_spec (fold_res compile_folder (∅, [s0]) (pc_folders cfg)))) as [st Hst].
    { apply compile_folders_is_ok. split_and!; try done. apply Forall_true. intros. apply lookup_empty. }
    by exists st.
Qed.

(** ** Properties *)

(** A policy configuration compiles exactly when the issuer is set, no
    legacy role is unknown, every entry names at least one known role or
    permission, no entry on a folder names a global-only permission, every
    folder is well formed and non-empty, and no two folder keys are the same
    folder after normalisation. *)
Theorem compile_accepts_exactly (cfg : PolicyConfig) (legacy : Legacy) (issuer : string) :
  is_ok (Compile (Some cfg) legacy issuer) = true ↔
  issuer ≠ "" ∧ legacyRoleLines legacy = [] ∧ config_valid cfg.
Proof. apply Compile_is_ok. Qed.

(** A compiled policy grants an identity a permission on a job exactly
    when some entry that names the identity confers it, globally or on a folder
    that is a proper ancestor of the job; it reports a match exactly when some
    entry names the identity; and what it returns is a well-formed set of
    grants (folder-scopable permissions only on normalised folders). *)
Theorem policy_match_meaning (cfg : PolicyConfig) (legacy : Legacy) (issuer : string)
    (P : Policy) (w : list text) (id : Identity)
    (HC : Compile (Some cfg) legacy issuer = Ok (P, w)) :
  (∀ p job, Grants_Can (Policy_Match (Some P) id).1 p job = true ↔ policy_grants cfg id p job) ∧
  ((Policy_Match (Some P) id).2 = true ↔ policy_names cfg id) ∧
  grants_ok (Policy_Match (Some P) id).1.
Proof.
  split_and!.
  - intros p job. by eapply match_grants.
  - by eapply match_names.
  - by eapply match_grants_ok.
Qed.

Definition policy_example : PolicyConfig :=
  MkPolicyConfig
    (MkPolicyEntry [MkGrantEntry "ops" ["viewer"]] [MkGrantEntry "root@example.com" ["admin"]])
    [MkFolderEntry "/team/app/" (MkPolicyEntry [MkGrantEntry "devs" ["developer"; "job.delete"]] [])].
Definition legacy_example : Legacy := MkLegacy "groups" {["ops" := "viewer"]} ∅ "".
Definition identity_example : Identity := MkIdentity ["devs"] "dev@example.com" "s1".
Definition compiled_example : Policy :=
  match Compile (Some policy_example) legacy_example "https://idp" with
  | Ok (P, _) => P
  | Err _ => []
  end.

Lemma policy_match_meaning_witness :
  Compile (Some policy_example) legacy_example "https://idp" = Ok (compiled_example, []) ∧
  Grants_Can (Policy_Match (Some compiled_example) identity_example).1 RunTrigger "team/app/build" = true ∧
  Grants_Can (Policy_Match (Some compiled_example) identity_example).1 RunTrigger "team/other" = false ∧
  policy_grants policy_example identity_example RunTrigger "team/app/build".
Proof.
  assert (Compile (Some policy_example) legacy_example "https://idp" = Ok (compiled_example, []))
    as HC by (vm_compute; reflexivity).
  split; [exact HC|]. split; [vm_compute; reflexivity|]. split; [vm_compute; reflexivity|].
  apply (policy_match_meaning _ _ _ _ _ identity_example HC). vm_compute. reflexivity.
Defined.
