(* ===== verification/AuthzServer.v ===== *)
(** * internal/controller: roles, principals and the authorization middleware

    Models [rbac.go], the principal construction of [auth.go], the route table
    of [authz_routes.go], [parseJobWildcard] of [api_jobs.go] and the single
    permission check of [authz_decide.go].

    The store is the record [AuthzStore] of the two lookups the middleware
    makes; the token hash and the text of pgx's no-rows error are parameters.
    A nil-able Go slice whose nil-ness matters is an [option (list string)]. *)

From S2P Require Import Prelude GoStrings Authz AuthzPolicy.
From stdpp Require Import options.

(** ** rbac.go *)

Definition roleRank (role : string) : nat :=
  if (role =? "viewer")%string then 1
  else if (role =? "developer")%string then 2
  else if (role =? "admin")%string then 3
  else 0.

Record RoleMapping := MkRoleMapping {
  rm_RolesClaim : string;
  rm_RoleMap : gmap string string;
  rm_UserMap : gmap string string;
  rm_DefaultRole : string
}.

Definition RoleMapping_zero : RoleMapping := MkRoleMapping "" ∅ ∅ "".

(** Rejects empty, "deny" and unknown roles. *)
Definition normalizeRole (r : string) : string * bool :=
  if (roleRank r =? 0)%nat then ("", false) else (r, true).

Definition sourceIf (ok : bool) (source : text) : text := if ok then source else [].

(** The roleMap loop: the value of the highest rank, the first one among
    equals. *)
Definition best_role (m : RoleMapping) (st : string * string) (v : string) : string * string :=
  match rm_RoleMap m !! v with
  | Some r => if (roleRank st.1 <? roleRank r)%nat then (r, v) else st
  | None => st
  end.

Definition resolveRoleSource (values : list string) (email sub : string) (m : RoleMapping)
  : string * text * bool :=
  let from_user key r :=
    let '(role, ok) := normalizeRole r in
    (role, sourceIf ok [Lit "userMap["; Quo key; Lit "]"], ok) in
  let rest :=
    let '(best, bestValue) := foldl (best_role m) ("", "") values in
    if negb (best =? "")%string then (best, [Lit "roleMap["; Quo bestValue; Lit "]"], true)
    else let '(role, ok) := normalizeRole (rm_DefaultRole m) in
         (role, sourceIf ok [Lit "defaultRole"], ok) in
  let by_sub :=
    if negb (sub =? "")%string
    then match rm_UserMap m !! sub with Some r => from_user sub r | None => rest end
    else rest in
  if negb (email =? "")%string
  then match rm_UserMap m !! email with Some r => from_user email r | None => by_sub end
  else by_sub.

Definition resolveRole (values : list string) (email sub : string) (m : RoleMapping)
  : string * bool :=
  let '(role, _, ok) := resolveRoleSource values email sub m in (role, ok).

(** A decoded claim value: the JSON types the code distinguishes. *)
Inductive claim :=
| CStr (s : string)
| CStrs (l : list string)
| CAnys (l : list claim)
| COther.

Definition claim_string (c : claim) : list string := match c with CStr s => [s] | _ => [] end.

Definition extractRoleValues (claims : gmap string claim) (rolesClaim : string)
  : option (list string) :=
  let rolesClaim := if (rolesClaim =? "")%string then "groups" else rolesClaim in
  match claims !! rolesClaim with
  | None => None
  | Some (CStr t) => Some [t]
  | Some (CStrs t) => Some t
  | Some (CAnys t) => Some (flat_map claim_string t)
  | Some COther => None
  end.

(** The fields of the OIDC configuration the authorization code reads. *)
Record OIDCConfig := MkOIDCConfig {
  oc_RolesClaim : string;
  oc_RoleMap : gmap string string;
  oc_UserMap : gmap string string;
  oc_DefaultRole : string;
  oc_Policy : option Policy
}.

(** The fields of [Server] the authorization code reads: the configured
    bootstrap token and the OIDC configuration. *)
Record Server := MkServer { srv_Token : string; srv_oidc : option OIDCConfig }.

Definition roleMapping (s : Server) : RoleMapping :=
  match srv_oidc s with
  | None => RoleMapping_zero
  | Some c => MkRoleMapping (oc_RolesClaim c) (oc_RoleMap c) (oc_UserMap c) (oc_DefaultRole c)
  end.

Definition role_by (role : string) (source : text) : text :=
  [Lit "role:"; Lit role; Lit " ("] ++ source ++ [Lit ")"].

(** [identityGrants]: role, effective grants, admitted. *)
Definition identityGrants (s : option Server) (values : list string) (email sub : string)
  : string * Grants * bool :=
  match s with
  | None => ("", Grants_zero, false)
  | Some s =>
      let '(role, source, legacyOK) := resolveRoleSource values email sub (roleMapping s) in
      let g := if legacyOK : bool then RoleGrants role (role_by role source) else Grants_zero in
      let policy := match srv_oidc s with Some c => oc_Policy c | None => None end in
      let '(pg, matched) := Policy_Match policy (MkIdentity values email sub) in
      (role, Grants_Union g pg, legacyOK || matched)
  end.

Definition ceiling_add (set : PSet) (name : string) : PSet :=
  match Parse name with Some p => Set_With set [p] | None => set end.

(** A PAT's permission ceiling; [None] is no ceiling. *)
Definition ceilingSet (role : string) (perms : option (list string)) : option PSet :=
  match perms with
  | Some perms =>
      Some (foldl ceiling_add 0%Z perms)
  | None =>
      if negb (role =? "")%string then Some (default 0%Z (Bundle role)) else None
  end.

(** ** auth.go: principals *)

Record Principal := MkPrincipal {
  pr_Name : string;
  pr_Kind : string;
  pr_Role : string;
  pr_Sub : string;
  pr_Email : string;
  pr_Claims : list string;
  pr_ClaimsKnown : bool;
  pr_Grants : Grants;
  pr_Ceiling : option PSet;
  pr_CeilingRole : string;
  pr_CeilingPerms : option (list string);
  pr_OwnerPATID : string;
  pr_BreakGlass : bool;
  pr_EnrollLabels : option (list string)
}.

(** [Principal{Name: ..., Kind: ..., Role: ..., Grants: ...}] with the other
    fields zero. *)
Definition plain_principal (name kind role : string) (g : Grants) : Principal :=
  MkPrincipal name kind role "" "" [] false g None "" None "" false None.

Record PATOwner := MkPATOwner { po_Sub : string; po_Email : string; po_Claims : list string }.

Record PAT := MkPAT {
  pat_ID : string;
  pat_Name : string;
  pat_Role : string;
  pat_Owner : option PATOwner;
  pat_Permissions : option (list string);
  pat_EnrollLabels : option (list string)
}.

Record Session := MkSession {
  se_Sub : string; se_Email : string; se_Role : string;
  se_Claims : option (list string) (* None: pre-upgrade, role-only *)
}.

Definition nonNilClaims (values : option (list string)) : list string := default [] values.

(** An ownerless enrollment-only PAT. *)
Definition isEnrollPAT (pat : PAT) : bool :=
  (pat_Role pat =? "")%string && bool_decide (default [] (pat_Permissions pat) = [AgentEnroll]).

Definition enroll_set : PSet := Set_With 0 [AgentEnroll].

Section principals.
(** SHA-256 in hex. *)
Variable HashToken : string → string.

Definition isBreakGlass (srv : option Server) (pat : PAT) (presentedHash : string) : bool :=
  match srv with
  | None => false
  | Some srv =>
      if (srv_Token srv =? "")%string then false
      else match pat_Owner pat with
           | Some _ => false
           | None => (presentedHash =? HashToken (srv_Token srv))%string
           end
  end.

(** The owner's grants, with agent.enroll added when the ceiling asks for it
    and agent.manage implies it. *)
Definition owner_grants (grants : Grants) (ceiling : option PSet) : Grants :=
  match ceiling with
  | Some c =>
      if Set_Has c AgentEnroll && Grants_Can grants AgentManage ""
      then Grants_Union grants
             (Grants_Add Grants_zero "" enroll_set [Lit "agent.manage (implies agent.enroll)"])
      else grants
  | None => grants
  end.

(** [None] is the refusal "forbidden: no role". *)
Definition patPrincipal (srv : option Server) (pat : PAT) (presentedHash : string)
  : option Principal :=
  if isBreakGlass srv pat presentedHash then
    Some (MkPrincipal (pat_Name pat) "pat" "admin" "" "" [] false (AllGrants [Lit "break-glass"])
            None "" None "" true None)
  else match pat_Owner pat with
  | None =>
      if isEnrollPAT pat then
        Some (MkPrincipal (pat_Name pat) "pat" "" "" "" [] false
                (Grants_Add Grants_zero "" enroll_set [Lit "pat:"; Lit (pat_Name pat)])
                None "" None "" false (pat_EnrollLabels pat))
      else if (roleRank (pat_Role pat) =? 0)%nat then None
      else Some (plain_principal (pat_Name pat) "pat" (pat_Role pat)
                   (RoleGrants (pat_Role pat) (role_by (pat_Role pat) [Lit "pat"])))
  | Some o =>
      let '(role, grants, _) := identityGrants srv (po_Claims o) (po_Email o) (po_Sub o) in
      let ceiling := ceilingSet (pat_Role pat) (pat_Permissions pat) in
      let grants := owner_grants grants ceiling in
      let '(role, grants) :=
        match ceiling with
        | None => (role, grants)
        | Some c =>
            (match pat_Permissions pat with
             | Some _ => ""
             | None => if (roleRank (pat_Role pat) <? roleRank role)%nat then pat_Role pat else role
             end,
             Grants_Restrict grants c " & pat-ceiling")
        end in
      Some (MkPrincipal (pat_Name pat) "pat" role (po_Sub o) (po_Email o)
              (nonNilClaims (Some (po_Claims o))) true grants ceiling (pat_Role pat)
              (pat_Permissions pat) (pat_ID pat) false (pat_EnrollLabels pat))
  end.
End principals.

Definition sessionPrincipal (srv : option Server) (sess : Session) : option Principal :=
  let name := if (se_Email sess =? "")%string then se_Sub sess else se_Email sess in
  match se_Claims sess with
  | Some claims =>
      let '(role, grants, _) := identityGrants srv claims (se_Email sess) (se_Sub sess) in
      Some (MkPrincipal name "session" role (se_Sub sess) (se_Email sess) claims true grants
              None "" None "" false None)
  | None =>
      if (roleRank (se_Role sess) =? 0)%nat then None
      else Some (MkPrincipal name "session" (se_Role sess) (se_Sub sess) (se_Email sess) [] false
                   (RoleGrants (se_Role sess) (role_by (se_Role sess) [Lit "session"]))
                   None "" None "" false None)
  end.

(** The bearer branch of [ServerAuth]: the principal of a verified id_token. *)
Definition oidcPrincipal (srv : Server) (c : OIDCConfig) (claims : gmap string claim)
  : option Principal :=
  let str k := match claims !! k with Some (CStr s) => s | _ => "" end in
  let email := str "email" in
  let sub := str "sub" in
  let name := if (email =? "")%string then sub else email in
  let values := extractRoleValues claims (oc_RolesClaim c) in
  let '(role, grants, admitted) := identityGrants (Some srv) (default [] values) email sub in
  if negb admitted then None
  else
    let known := match values with Some _ => true | None => false end
                 || negb (Policy_HasGroupKeyedGrants (oc_Policy c) || negb (bool_decide (oc_RoleMap c = ∅))) in
    Some (MkPrincipal name "oidc" role sub email (if known then nonNilClaims values else []) known
            grants None "" None "" false None).

(** ** authz_routes.go *)

Inductive routeScope :=
| scopeGlobal | scopeJobPath | scopeJobRunID | scopeJobQuery | scopeJobBody
| scopeScheduleBody | scopeSchedulePath | scopeFiltered | scopePublic | scopeSelf | scopeAgent.

#[export] Instance routeScope_eq_dec : EqDecision routeScope.
Proof. solve_decision. Defined.

Record routeRule := MkRule {
  r_Method : string;
  r_Pattern : string;
  r_Perm : Permission;
  r_AltPerm : Permission;
  r_Scope : routeScope;
  r_RunParam : string;
  r_AgentBypass : bool;
  r_FiltersRows : bool
}.

#[export] Instance routeRule_eq_dec : EqDecision routeRule.
Proof. solve_decision. Defined.

Definition mGet : string := "GET".
Definition mPost : string := "POST".
Definition mPut : string := "PUT".
Definition mDelete : string := "DELETE".
Definition mAny : string := "*".

Definition global (method pattern : string) (perm : Permission) : routeRule :=
  MkRule method pattern perm "" scopeGlobal "" false false.
Definition ofRun (method pattern : string) (perm : Permission) (runParam : string) : routeRule :=
  MkRule method pattern perm "" scopeJobRunID runParam false false.
Definition unauthenticated (method pattern : string) : routeRule :=
  MkRule method pattern "" "" scopePublic "" false false.
Definition agentOnly (method pattern : string) : routeRule :=
  MkRule method pattern "" "" scopeAgent "" false false.

Definition routeTable : list routeRule := [
  global mGet "/api/v1/audit" AuditRead;
  global mGet "/api/v1/authz/policy" AuthzRead;
  global mPost "/api/v1/authz/explain" AuthzRead;
  MkRule mPost "/api/v1/jobs" JobConfigure "" scopeJobBody "" false false;
  MkRule mGet "/api/v1/jobs" JobRead "" scopeFiltered "" false false;
  MkRule mGet "/api/v1/jobs/*" JobRead "" scopeJobPath "" false false;
  MkRule mDelete "/api/v1/jobs/*" JobDelete "" scopeJobPath "" false false;
  MkRule mPost "/api/v1/runs" RunTrigger "" scopeJobBody "" false false;
  ofRun mPost "/api/v1/runs/{id}/replay" RunReplay "id";
  MkRule mGet "/api/v1/runs" JobRead "" scopeJobQuery "" false false;
  MkRule mGet "/api/v1/runs/active" JobRead "" scopeFiltered "" false false;
  MkRule mGet "/api/v1/runs/{id}" JobRead "" scopeJobRunID "id" true false;
  MkRule mGet "/api/v1/runs/{id}/outputs" JobRead "" scopeJobRunID "id" true false;
  ofRun mGet "/api/v1/runs/{id}/yaml" JobRead "id";
  ofRun mPost "/api/v1/runs/{id}/cancel" RunCancel "id";
  ofRun mDelete "/api/v1/runs/{id}" RunDelete "id";
  ofRun mGet "/api/v1/runs/{id}/events" JobRead "id";
  ofRun mGet "/api/v1/runs/{id}/logs" JobRead "id";
  ofRun mGet "/api/v1/runs/{id}/steps" JobRead "id";
  ofRun mGet "/api/v1/runs/{id}/logs/archive" JobRead "id";
  ofRun mGet "/api/v1/runs/{id}/logs/stats" JobRead "id";
  ofRun mGet "/api/v1/runs/{id}/logs/range" JobRead "id";
  ofRun mGet "/api/v1/runs/{id}/logs/search" JobRead "id";
  ofRun mGet "/api/v1/runs/{runID}/approvals" JobRead "runID";
  ofRun mPost "/api/v1/runs/{runID}/approvals/{stepIndex}" RunApprove "runID";
  MkRule mGet "/api/v1/runs/{runID}/artifacts" JobRead "" scopeJobRunID "runID" true false;
  MkRule mGet "/api/v1/runs/{runID}/artifacts/{name}" JobRead "" scopeJobRunID "runID" true false;
  global mPost "/api/v1/secrets" SecretWrite;
  global mGet "/api/v1/secrets" SecretList;
  global mDelete "/api/v1/secrets/{name}" SecretWrite;
  global mPost "/api/v1/gitcredentials" GitCredentialWrite;
  global mGet "/api/v1/gitcredentials" GitCredentialRead;
  global mDelete "/api/v1/gitcredentials/{name}" GitCredentialWrite;
  global mPost "/api/v1/tokens" TokenCreate;
  MkRule mGet "/api/v1/tokens" TokenCreate TokenManage scopeGlobal "" false false;
  MkRule mDelete "/api/v1/tokens/{id}" TokenCreate TokenManage scopeGlobal "" false false;
  MkRule mPost "/api/v1/agent-enrollments" AgentManage AgentEnroll scopeGlobal "" false false;
  global mGet "/api/v1/agent-enrollments" AgentRead;
  global mDelete "/api/v1/agent-enrollments/{id}" AgentManage;
  global mPost "/api/v1/agent-enrollment-policies" AgentManage;
  global mGet "/api/v1/agent-enrollment-policies" AgentRead;
  global mGet "/api/v1/agent-enrollment-policies/{name}" AgentRead;
  global mPut "/api/v1/agent-enrollment-policies/{name}" AgentManage;
  global mDelete "/api/v1/agent-enrollment-policies/{name}" AgentManage;
  global mGet "/api/v1/agent-identities/{agentId}" AgentRead;
  global mPost "/api/v1/agent-identities/{agentId}/enable" AgentManage;
  global mPost "/api/v1/agent-identities/{agentId}/disable" AgentManage;
  global mPost "/api/v1/agent-identities/{agentId}/credentials/revoke" AgentManage;
  global mGet "/api/v1/agents" AgentRead;
  MkRule mGet "/api/v1/agents/{agentId}" AgentRead "" scopeGlobal "" true false;
  MkRule mGet "/api/v1/agents/{agentId}/runs" AgentRead "" scopeGlobal "" true true;
  global mPost "/api/v1/webhooks" WebhookWrite;
  global mGet "/api/v1/webhooks" WebhookRead;
  global mDelete "/api/v1/webhooks/{name}" WebhookWrite;
  global mPost "/api/v1/vars" VarsWrite;
  global mGet "/api/v1/vars" VarsRead;
  global mDelete "/api/v1/vars/{name}" VarsWrite;
  MkRule mPost "/api/v1/schedules" ScheduleConfigure "" scopeScheduleBody "" false false;
  MkRule mGet "/api/v1/schedules" JobRead "" scopeFiltered "" false false;
  MkRule mDelete "/api/v1/schedules/{name}" ScheduleConfigure "" scopeSchedulePath "" false false;
  global mPost "/api/v1/appsources" AppSourceWrite;
  global mGet "/api/v1/appsources" AppSourceRead;
  global mGet "/api/v1/appsources/{name}" AppSourceRead;
  global mDelete "/api/v1/appsources/{name}" AppSourceWrite;
  global mPost "/api/v1/appsources/{name}/sync" AppSourceWrite;
  unauthenticated mGet "/healthz";
  unauthenticated mGet "/readyz";
  unauthenticated mGet "/metrics";
  unauthenticated mGet "/api/v1/auth/oidc-config";
  unauthenticated mGet "/api/v1/ui-config";
  unauthenticated mGet "/api/v1/auth/oidc-login";
  unauthenticated mGet "/api/v1/auth/oidc-callback";
  unauthenticated mPost "/api/v1/auth/logout";
  MkRule mGet "/api/v1/auth/me" "" "" scopeSelf "" false false;
  unauthenticated mAny "/dex";
  unauthenticated mAny "/dex/*";
  unauthenticated mAny "/device/callback";
  unauthenticated mPost "/webhook/{name}";
  unauthenticated mPost "/api/v1/agents/enroll";
  unauthenticated mPost "/api/v1/agents/token/refresh";
  unauthenticated mPost "/api/v1/store-credentials";
  unauthenticated mAny "/ui";
  unauthenticated mAny "/ui/*";
  unauthenticated mGet "/";
  agentOnly mPost "/api/v1/agents/register";
  agentOnly mPost "/api/v1/agents/{agentId}/heartbeat";
  agentOnly mDelete "/api/v1/agents/{agentId}";
  agentOnly mPost "/api/v1/agents/{agentId}/claim";
  agentOnly mPost "/api/v1/agents/{agentId}/steps";
  agentOnly mPost "/api/v1/agents/{agentId}/logs";
  agentOnly mPost "/api/v1/agents/{agentId}/runs/reconcile";
  agentOnly mPost "/api/v1/agents/{agentId}/runs/{runId}/finish";
  agentOnly mPost "/api/v1/agents/{agentId}/runs/{runId}/children";
  agentOnly mPost "/api/v1/agents/{agentId}/runs/{runId}/steps/{stepIndex}/outputs";
  agentOnly mPost "/api/v1/agents/{agentId}/runs/{runId}/outputs";
  agentOnly mPost "/api/v1/agents/{agentId}/runs/{runId}/steps/{stepIndex}/logs/bulk";
  agentOnly mPost "/api/v1/agents/{agentId}/runs/{runId}/sidecars";
  agentOnly mPost "/api/v1/agents/{agentId}/secrets/fetch";
  agentOnly mPost "/api/v1/agents/{agentId}/runs/{runId}/approvals";
  agentOnly mGet "/api/v1/agents/{agentId}/runs/{runId}/approvals/{stepIndex}";
  agentOnly mPut "/api/v1/runs/{runID}/artifacts/{name}"
].

(** The index by method and pattern; a later row would replace an earlier one. *)
Definition routeIndex : gmap (string * string) routeRule :=
  foldl (λ idx r, <[(r_Method r, r_Pattern r) := r]> idx) ∅ routeTable.

Definition lookupRoute (method pattern : string) : option routeRule :=
  match routeIndex !! (method, pattern) with
  | Some r => Some r
  | None => routeIndex !! (mAny, pattern)
  end.

Definition normalizeRoutePattern (p : string) : string :=
  if negb (p =? "/")%string then TrimSuffix p "/" else p.

(** ** authz_decide.go *)

Definition missingPerm (p : Permission) : text := [Lit "forbidden: missing permission "; Quo p].
Definition missingPermOnJob (p : Permission) (job : string) : text :=
  [Lit "forbidden: missing permission "; Quo p; Lit " on job "; Quo job].

Record authzDecision := MkDecision {
  d_Permission : Permission;
  d_Scope : string;
  d_GrantedBy : text;
  d_Denied : bool;
  d_Status : Z;
  d_Resource : string
}.

Definition allowed_decision (p : Permission) (scope : string) (by_ : text) : authzDecision :=
  MkDecision p scope by_ false 0 "".
Definition denied_decision (p : Permission) (scope : string) (status : Z) : authzDecision :=
  MkDecision p scope [] true status "".

(** A response: status and body. *)
Record answer := MkAnswer { a_status : Z; a_body : text }.

(** What the middleware did: call the handler, or write an answer; and the
    decision it left in the request's slot, if any. *)
Inductive action := Next | Reply (a : answer).
Record outcome := MkOutcome { o_action : action; o_slot : option authzDecision }.

(** The parts of a request the middleware reads. *)
Record Request := MkRequest {
  rq_Method : string;
  rq_RoutePattern : string;   (* "" without a chi route context *)
  rq_isAgent : bool;          (* agentPrincipalFromContext *)
  rq_principal : option Principal;
  rq_URLParam : string → string;
  rq_jobName : string         (* the jobName query parameter *)
}.

Inductive lookup_result (A : Type) := Found (a : A) | NotFound | LookupErr.
Arguments Found {A} a.
Arguments NotFound {A}.
Arguments LookupErr {A}.

(** The two store lookups; [GetSchedule] returns the schedule's job. *)
Record AuthzStore := MkStore {
  st_RunJobName : string → lookup_result string;
  st_GetSchedule : string → lookup_result string
}.

Inductive jobVariant := jobVariantJob | jobVariantYAML | jobVariantSchedulability.

(** [parseJobWildcard] of [api_jobs.go]. *)
Definition parseJobWildcard (method wildcard : string) : string * jobVariant :=
  let wild := TrimPrefix wildcard "/" in
  if negb (method =? mGet)%string then (wild, jobVariantJob)
  else if HasSuffix wild "/schedulability"
       then (TrimSuffix wild "/schedulability", jobVariantSchedulability)
  else if HasSuffix wild "/yaml" then (TrimSuffix wild "/yaml", jobVariantYAML)
  else (wild, jobVariantJob).

Definition deny (perm : Permission) (scope : string) (status : Z) (body : text) : outcome :=
  MkOutcome (Reply (MkAnswer status body)) (Some (denied_decision perm scope status)).

Definition unauthorized : outcome :=
  MkOutcome (Reply (MkAnswer 401 [Lit "unauthorized"])) None.
Definition internal_error : outcome :=
  MkOutcome (Reply (MkAnswer 500 [Lit "internal error"])) None.

Definition ErrRunNotFound : string := "run not found".

Section authorize.
(** The text of [pgx.ErrNoRows]. *)
Variable ErrNoRows : string.
Variable st : AuthzStore.

Definition JobNotFoundError : text := [Lit "get job: "; Lit ErrNoRows].
Definition RunSpecNotFoundError : text := [Lit "get run spec: "; Lit ErrNoRows].
Definition RunNotFoundError (id : string) : text := [Lit ErrRunNotFound; Lit ": "; Lit id].

Definition jobNotFound : answer := MkAnswer 404 JobNotFoundError.

Definition missingRunAnswer (pattern runID : string) : answer :=
  MkAnswer 404
    (if (pattern =? "/api/v1/runs/{id}/yaml")%string then RunSpecNotFoundError
     else if (pattern =? "/api/v1/runs/{id}/logs/archive")%string
          then [Lit "log archive not available yet"]
     else if (pattern =? "/api/v1/runs/{runID}/approvals/{stepIndex}")%string
          then [Lit "no pending approval"]
     else if (pattern =? "/api/v1/runs/{runID}/artifacts/{name}")%string
          then [Lit "artifact not found"]
     else RunNotFoundError runID).

(** [requireJob]: [inr slot] lets the request proceed with the decision
    recorded, [inl outcome] has answered it. *)
Definition requireJob (principal : option Principal) (perm : Permission) (job : string)
    (hide : option answer) : outcome + authzDecision :=
  match principal with
  | None => inl unauthorized
  | Some p =>
      if negb (Grants_Decide (pr_Grants p) JobRead job).1 then
        match hide with
        | None => inl (deny perm job 403 (missingPermOnJob perm job))
        | Some a => inl (MkOutcome (Reply a) (Some (denied_decision perm job (a_status a))))
        end
      else
        let '(allowed, by_) := Grants_Decide (pr_Grants p) perm job in
        if negb allowed then inl (deny perm job 403 (missingPermOnJob perm job))
        else inr (allowed_decision perm job by_)
  end.

(** [if s.requireJob(...) { next.ServeHTTP(w, r) }] *)
Definition require_then_next (principal : option Principal) (perm : Permission) (job : string)
    (hide : option answer) : outcome :=
  match requireJob principal perm job hide with
  | inl o => o
  | inr d => MkOutcome Next (Some d)
  end.

Definition canReadJob (r : Request) (job : string) : bool :=
  if rq_isAgent r then true
  else match rq_principal r with
       | None => false
       | Some p => Grants_Can (pr_Grants p) JobRead job
       end.

Definition authorizeRun (r : Request) (p : Principal) (rule : routeRule) : outcome :=
  let g := pr_Grants p in
  let perm := r_Perm rule in
  let runID := rq_URLParam r (r_RunParam rule) in
  if Grants_Can g perm "" && Grants_Can g JobRead "" then
    let by_ := (Grants_Decide g perm "").2 in
    let scope := if negb (rq_Method r =? mGet)%string
                 then match st_RunJobName st runID with Found job => job | _ => "" end
                 else "" in
    MkOutcome Next (Some (allowed_decision perm scope by_))
  else
    match st_RunJobName st runID with
    | LookupErr => internal_error
    | NotFound =>
        let a := missingRunAnswer (r_Pattern rule) runID in
        MkOutcome (Reply a) (Some (denied_decision perm "" (a_status a)))
    | Found job =>
        require_then_next (Some p) perm job (Some (missingRunAnswer (r_Pattern rule) runID))
    end.

Definition authorizeSchedule (r : Request) (p : Principal) (rule : routeRule) : outcome :=
  let g := pr_Grants p in
  let perm := r_Perm rule in
  if Grants_Can g perm "" && Grants_Can g JobRead "" then
    MkOutcome Next (Some (allowed_decision perm "" (Grants_Decide g perm "").2))
  else
    match st_GetSchedule st (rq_URLParam r "name") with
    | NotFound => MkOutcome Next None
    | LookupErr => internal_error
    | Found job => require_then_next (Some p) perm job (Some (MkAnswer 204 []))
    end.

(** The switch on the route's scope, after the pre-check. *)
Definition authorize_scope (r : Request) (p : Principal) (rule : routeRule) : outcome :=
  let g := pr_Grants p in
  let perm := r_Perm rule in
  let alt := r_AltPerm rule in
  match r_Scope rule with
  | scopeGlobal =>
      let d := Grants_Decide g perm "" in
      let d := if negb d.1 && negb (alt =? "")%string then Grants_Decide g alt "" else d in
      if negb d.1 then deny perm "" 403 (missingPerm perm)
      else MkOutcome Next (Some (allowed_decision perm "" d.2))
  | scopeJobPath =>
      let name := (parseJobWildcard (rq_Method r) (rq_URLParam r "*")).1 in
      require_then_next (Some p) perm name (Some jobNotFound)
  | scopeJobQuery =>
      if (rq_jobName r =? "")%string then MkOutcome Next None
      else require_then_next (Some p) perm (rq_jobName r) (Some jobNotFound)
  | scopeJobRunID => authorizeRun r p rule
  | scopeSchedulePath => authorizeSchedule r p rule
  | _ => MkOutcome Next None
  end.

(** The part of [authorize] behind authentication, for a human principal. *)
Definition authorize_human (r : Request) (p : Principal) (rule : routeRule) : outcome :=
  let g := pr_Grants p in
  let perm := r_Perm rule in
  let alt := r_AltPerm rule in
  if Grants_IsEmpty g then
    deny perm "" 403
      (if negb (pr_OwnerPATID p =? "")%string
       then [Lit "forbidden: token owner has no permissions"]
       else [Lit "forbidden: no permissions"])
  else if negb (Grants_HeldAnywhere g perm)
          && negb (negb (alt =? "")%string && Grants_HeldAnywhere g alt)
  then deny perm "" 403 (missingPerm perm)
  else authorize_scope r p rule.

Definition authorize (r : Request) : outcome :=
  match lookupRoute (rq_Method r) (rq_RoutePattern r) with
  | None => MkOutcome (Reply (MkAnswer 403 [Lit "forbidden: unclassified route"])) None
  | Some rule =>
      match r_Scope rule with
      | scopePublic | scopeSelf | scopeAgent => MkOutcome Next None
      | _ =>
          if rq_isAgent r then
            if r_AgentBypass rule then MkOutcome Next None
            else MkOutcome (Reply (MkAnswer 403 (missingPerm (r_Perm rule)))) None
          else match rq_principal r with
               | None => unauthorized
               | Some p => authorize_human r p rule
               end
      end
  end.
End authorize.

(** ** Well-formed servers and principals *)

(** The configured policy, if any, was compiled. *)
Definition server_ok (s : Server) : Prop :=
  ∀ c P, srv_oidc s = Some c → oc_Policy c = Some P →
  ∃ cfg legacy issuer w, Compile cfg legacy issuer = Ok (P, w).

Lemma compiled_match_ok cfg legacy issuer P w id :
  Compile cfg legacy issuer = Ok (P, w) → grants_ok (Policy_Match (Some P) id).1.
Proof.
  destruct cfg as [cfg|]; [apply match_grants_ok|].
  intros [= <- <-]. apply grants_ok_zero.
Qed.

(** What [identityGrants] returns, in one equation. *)
Lemma identityGrants_eq s values email sub :
  let '(role, source, ok) := resolveRoleSource values email sub (roleMapping s) in
  let m := Policy_Match (srv_oidc s ≫= oc_Policy) (MkIdentity values email sub) in
  identityGrants (Some s) values email sub
  = (role, Grants_Union (if ok : bool then RoleGrants role (role_by role source) else Grants_zero) m.1,
     ok || m.2).
Proof.
  unfold identityGrants. destruct (resolveRoleSource _ _ _ _) as [[role source] ok].
  destruct (srv_oidc s) as [c|]; simpl.
  - by destruct (Policy_Match (oc_Policy c) (MkIdentity values email sub)).
  - done.
Qed.

Lemma identityGrants_ok s values email sub :
  (∀ s', s = Some s' → server_ok s') → grants_ok (identityGrants s values email sub).1.2.
Proof.
  destruct s as [s|]; [|intros _; apply grants_ok_zero]. intros H. specialize (H s eq_refl).
  pose proof (identityGrants_eq s values email sub) as E.
  destruct (resolveRoleSource _ _ _ _) as [[role source] ok]. rewrite E. simpl.
  apply grants_ok_Union.
  - destruct ok; [apply grants_ok_RoleGrants|apply grants_ok_zero].
  - destruct (srv_oidc s) as [c|] eqn:Ec; [|apply grants_ok_zero]. simpl.
    destruct (oc_Policy c) as [P|] eqn:EP; [|apply grants_ok_zero].
    destruct (H c P Ec EP) as (cfg & legacy & issuer & w & HC). by eapply compiled_match_ok.
Qed.

Lemma enroll_scope_ok : scope_ok "" enroll_set.
Proof. split; [by apply (bool_decide_unpack _)|done]. Qed.

Lemma owner_grants_ok g c : grants_ok g → grants_ok (owner_grants g c).
Proof.
  intros Hg. unfold owner_grants. destruct c as [c|]; [|done]. destruct (_ && _); [|done].
  apply grants_ok_Union; [done|]. apply grants_ok_Add; [apply grants_ok_zero|apply enroll_scope_ok].
Qed.

Lemma ceilingSet_ok role perms c : ceilingSet role perms = Some c → set_ok c.
Proof.
  unfold ceilingSet. destruct perms as [perms|].
  - assert (∀ s, set_ok s → set_ok (foldl ceiling_add s perms)) as H.
    { induction perms as [|n perms IH]; intros s Hs; cbn [foldl]; [done|]. apply IH.
      unfold ceiling_add. destruct (Parse n); [by apply set_ok_With|done]. }
    intros [= <-]. apply H, set_ok_0.
  - destruct (negb _); [|done]. intros [= <-]. destruct (Bundle role) eqn:E; [|apply set_ok_0].
    by eapply set_ok_Bundle.
Qed.

Lemma Set_Has_ceiling perms c p :
  ceilingSet "" (Some perms) = Some c → Set_Has c p = true ↔ p ∈ perms ∧ (0 ≤ bitOf p)%Z.
Proof.
  unfold ceilingSet. intros [= <-].
  assert (∀ s, Set_Has (foldl ceiling_add s perms) p = true ↔
      Set_Has s p = true ∨ p ∈ perms ∧ (0 ≤ bitOf p)%Z) as H.
  { induction perms as [|n perms IH]; intros s.
    - split; [by left|]. intros [?|[?%not_elem_of_nil _]]; done.
    - cbn [foldl]. rewrite IH, elem_of_cons. unfold ceiling_add. destruct (Parse n) as [q|] eqn:E.
      + apply Parse_spec in E as [<- Hb]. rewrite Set_Has_With1, orb_true_iff.
        apply Z.leb_le in Hb as Hb'. rewrite Hb'. simpl. rewrite String.eqb_eq. naive_solver.
      + assert (p = n → ¬ (0 ≤ bitOf p)%Z); [|naive_solver].
        intros -> Hb. assert (Parse n = Some n) by by apply Parse_spec. congruence. }
  rewrite H, Set_Has_0. naive_solver.
Qed.

(** Every principal the server builds carries well-formed grants. *)
Lemma patPrincipal_ok H srv pat h p :
  (∀ s, srv = Some s → server_ok s) → patPrincipal H srv pat h = Some p → grants_ok (pr_Grants p).
Proof.
  intros Hs. unfold patPrincipal. destruct (isBreakGlass _ _ _ _).
  { intros [= <-]. apply grants_ok_AllGrants. }
  destruct (pat_Owner pat) as [o|].
  - pose proof (identityGrants_ok srv (po_Claims o) (po_Email o) (po_Sub o) Hs) as Hg.
    destruct (identityGrants _ _ _ _) as [[role g] adm]. cbn [fst snd] in Hg.
    destruct (ceilingSet _ _) as [c|] eqn:Ec; intros [= <-]; cbn [pr_Grants].
    + apply grants_ok_Restrict; [by destruct (ceilingSet_ok _ _ _ Ec)|exact (owner_grants_ok g (Some c) Hg)].
    + exact (owner_grants_ok g None Hg).
  - destruct (isEnrollPAT pat).
    + intros [= <-]. apply grants_ok_Add; [apply grants_ok_zero|apply enroll_scope_ok].
    + destruct (_ =? _)%nat; [done|]. intros [= <-]. apply grants_ok_RoleGrants.
Qed.

Lemma sessionPrincipal_ok srv sess p :
  (∀ s, srv = Some s → server_ok s) → sessionPrincipal srv sess = Some p → grants_ok (pr_Grants p).
Proof.
  intros Hs. unfold sessionPrincipal. destruct (se_Claims sess) as [claims|].
  - pose proof (identityGrants_ok srv claims (se_Email sess) (se_Sub sess) Hs) as Hg.
    destruct (identityGrants _ _ _ _) as [[role g] adm]. by intros [= <-].
  - destruct (_ =? _)%nat; [done|]. intros [= <-]. apply grants_ok_RoleGrants.
Qed.

Lemma oidcPrincipal_ok srv c claims p :
  server_ok srv → oidcPrincipal srv c claims = Some p → grants_ok (pr_Grants p).
Proof.
  intros Hs. unfold oidcPrincipal.
  match goal with |- context [identityGrants ?a ?b ?c ?d] =>
    pose proof (identityGrants_ok a b c d) as Hg; destruct (identityGrants a b c d) as [[role g] adm] end.
  destruct adm; [|done]. intros [= <-]. apply Hg. by intros s' [= <-].
Qed.

(** ** Facts: what the constructors grant *)

Lemma Can_Union_ok g o p job :
  grants_ok g → grants_ok o →
  Grants_Can (Grants_Union g o) p job = Grants_Can g p job || Grants_Can o p job.
Proof. intros [??] [??]. by rewrite Can_Union, !(Can_sources _ p job). Qed.

Lemma Can_Restrict_ok g c sfx p job :
  grants_ok g → Grants_Can (Grants_Restrict g c sfx) p job = Grants_Can g p job && Set_Has c p.
Proof. intros [??]. by rewrite Can_Restrict_sources, (Can_sources _ p job). Qed.

Lemma Can_zero p job : Grants_Can Grants_zero p job = false.
Proof. by rewrite Can_sources. Qed.

Lemma Can_RoleGrants r by_ p job :
  Grants_Can (RoleGrants r by_) p job = Set_Has (default 0%Z (Bundle r)) p.
Proof.
  unfold RoleGrants. destruct (Bundle r); simpl; [by rewrite Can_Add_global, Can_zero|].
  by rewrite Can_zero, Set_Has_0.
Qed.

Lemma Can_enroll by_ p job :
  Grants_Can (Grants_Add Grants_zero "" enroll_set by_) p job = (AgentEnroll =? p)%string.
Proof.
  rewrite Can_Add_global, Can_zero by done. unfold enroll_set. by rewrite Set_Has_With1, Set_Has_0.
Qed.

(** The owner's grants under a ceiling, capped by it. *)
Lemma Can_owner_capped g c sfx p job :
  grants_ok g →
  Grants_Can (Grants_Restrict (owner_grants g (Some c)) c sfx) p job
  = (Grants_Can g p job || ((AgentEnroll =? p)%string && Grants_Can g AgentManage "")) && Set_Has c p.
Proof.
  intros Hg. rewrite Can_Restrict_ok by by apply owner_grants_ok.
  unfold owner_grants. destruct (Set_Has c AgentEnroll && _) eqn:E.
  - apply andb_true_iff in E as [E1 E2]. rewrite Can_Union_ok, Can_enroll, E2, andb_true_r; [done|done|].
    apply grants_ok_Add; [apply grants_ok_zero|apply enroll_scope_ok].
  - destruct (String.eqb_spec AgentEnroll p) as [<-|]; [|by rewrite orb_false_r].
    destruct (Set_Has c AgentEnroll); [|by rewrite !andb_false_r]. simpl in E. by rewrite E, orb_false_r.
Qed.

Lemma owned_pat H srv pat h o p :
  pat_Owner pat = Some o → patPrincipal H srv pat h = Some p →
  let g := (identityGrants srv (po_Claims o) (po_Email o) (po_Sub o)).1.2 in
  pr_Grants p = match ceilingSet (pat_Role pat) (pat_Permissions pat) with
                | Some c => Grants_Restrict (owner_grants g (Some c)) c " & pat-ceiling"
                | None => g
                end.
Proof.
  intros Ho. unfold patPrincipal.
  assert (isBreakGlass H srv pat h = false) as ->.
  { unfold isBreakGlass. destruct srv as [s|]; [|done]. by rewrite Ho; destruct (_ =? _)%string. }
  rewrite Ho. destruct (identityGrants _ _ _ _) as [[role g] adm].
  destruct (ceilingSet _ _) as [c|]; by intros [= <-].
Qed.

(** ** Specification: who may call a route *)

(** [p] holds [perm] on [job] and may know that [job] exists. *)
Definition may (p : Principal) (perm : Permission) (job : string) : Prop :=
  Grants_Can (pr_Grants p) JobRead job = true ∧ Grants_Can (pr_Grants p) perm job = true.

(** The pre-check: the permission, or the alternative, is held somewhere. *)
Definition holds_some (p : Principal) (rule : routeRule) : Prop :=
  Grants_IsEmpty (pr_Grants p) = false ∧
  (Grants_HeldAnywhere (pr_Grants p) (r_Perm rule) = true ∨
   (r_AltPerm rule ≠ "" ∧ Grants_HeldAnywhere (pr_Grants p) (r_AltPerm rule) = true)).

(** What a human route demands of its caller. *)
Definition permits (st : AuthzStore) (r : Request) (p : Principal) (rule : routeRule) : Prop :=
  match r_Scope rule with
  | scopeGlobal =>
      Grants_Can (pr_Grants p) (r_Perm rule) "" = true ∨
      (r_AltPerm rule ≠ "" ∧ Grants_Can (pr_Grants p) (r_AltPerm rule) "" = true)
  | scopeJobPath => may p (r_Perm rule) (parseJobWildcard (rq_Method r) (rq_URLParam r "*")).1
  | scopeJobQuery => rq_jobName r = "" ∨ may p (r_Perm rule) (rq_jobName r)
  | scopeJobRunID =>
      may p (r_Perm rule) "" ∨
      ∃ job, st_RunJobName st (rq_URLParam r (r_RunParam rule)) = Found job ∧ may p (r_Perm rule) job
  | scopeSchedulePath =>
      may p (r_Perm rule) "" ∨
      st_GetSchedule st (rq_URLParam r "name") = NotFound ∨
      ∃ job, st_GetSchedule st (rq_URLParam r "name") = Found job ∧ may p (r_Perm rule) job
  | _ => True
  end.

Definition is_open (s : routeScope) : bool :=
  match s with scopePublic | scopeSelf | scopeAgent => true | _ => false end.

(** What a route demands of a request. *)
Definition demands (st : AuthzStore) (r : Request) (rule : routeRule) : Prop :=
  is_open (r_Scope rule) = true ∨
  (rq_isAgent r = true ∧ r_AgentBypass rule = true) ∨
  (rq_isAgent r = false ∧ ∃ p, rq_principal r = Some p ∧ holds_some p rule ∧ permits st r p rule).

(** The requests the middleware lets through. *)
Definition authorized (st : AuthzStore) (r : Request) : Prop :=
  ∃ rule, lookupRoute (rq_Method r) (rq_RoutePattern r) = Some rule ∧ demands st r rule.

Lemma require_next p perm job hide :
  coherent (pr_Grants p) →
  o_action (require_then_next (Some p) perm job hide) = Next ↔ may p perm job.
Proof.
  intros Hc. unfold require_then_next, requireJob, may. rewrite !(Can_Decide _ _ _ Hc).
  destruct (Grants_Decide _ JobRead job) as [[] ?]; simpl.
  - destruct (Grants_Decide _ perm job) as [[] ?]; simpl; naive_solver.
  - destruct hide; naive_solver.
Qed.

Lemma authorizeRun_next E st r p rule :
  coherent (pr_Grants p) →
  o_action (authorizeRun E st r p rule) = Next ↔
  may p (r_Perm rule) "" ∨
  ∃ job, st_RunJobName st (rq_URLParam r (r_RunParam rule)) = Found job ∧ may p (r_Perm rule) job.
Proof.
  intros Hc. unfold authorizeRun, may at 1.
  destruct (Grants_Can _ (r_Perm rule) "" && Grants_Can _ JobRead "") eqn:E1.
  - apply andb_true_iff in E1 as [-> ->]. naive_solver.
  - apply andb_false_iff in E1. destruct (st_RunJobName _ _) as [job| |]; simpl.
    + rewrite (require_next _ _ _ _ Hc). split; [by eauto 10|].
      intros [[??]|(? & [= <-] & ?)]; [|done]. destruct E1; congruence.
    + split; [done|]. intros [[??]|(? & ? & ?)]; [|done]. destruct E1; congruence.
    + split; [done|]. intros [[??]|(? & ? & ?)]; [|done]. destruct E1; congruence.
Qed.

Lemma authorizeSchedule_next st r p rule :
  coherent (pr_Grants p) →
  o_action (authorizeSchedule st r p rule) = Next ↔
  may p (r_Perm rule) "" ∨ st_GetSchedule st (rq_URLParam r "name") = NotFound ∨
  ∃ job, st_GetSchedule st (rq_URLParam r "name") = Found job ∧ may p (r_Perm rule) job.
Proof.
  intros Hc. unfold authorizeSchedule, may at 1.
  destruct (Grants_Can _ (r_Perm rule) "" && Grants_Can _ JobRead "") eqn:E1.
  - apply andb_true_iff in E1 as [-> ->]. naive_solver.
  - apply andb_false_iff in E1. destruct (st_GetSchedule _ _) as [job| |]; simpl.
    + rewrite (require_next _ _ _ _ Hc). split; [by eauto 10|].
      intros [[??]|[?|(? & [= <-] & ?)]]; [|done|done]. destruct E1; congruence.
    + split; [by auto|done].
    + split; [done|]. intros [[??]|[?|(? & ? & ?)]]; [|done|done]. destruct E1; congruence.
Qed.

Lemma authorize_scope_next E st r p rule :
  coherent (pr_Grants p) →
  o_action (authorize_scope E st r p rule) = Next ↔ permits st r p rule.
Proof.
  intros Hc. unfold authorize_scope, permits. destruct (r_Scope rule); try done.
  - rewrite !(Can_Decide _ _ _ Hc).
    destruct (Grants_Decide _ (r_Perm rule) "") as [[] ?]; simpl; [naive_solver|].
    destruct (String.eqb_spec (r_AltPerm rule) ""); simpl; [naive_solver|].
    destruct (Grants_Decide _ (r_AltPerm rule) "") as [[] ?]; simpl; naive_solver.
  - by apply require_next.
  - by apply authorizeRun_next.
  - destruct (String.eqb_spec (rq_jobName r) ""); [naive_solver|].
    rewrite require_next by done. naive_solver.
  - by apply authorizeSchedule_next.
Qed.

Lemma authorize_human_next E st r p rule :
  coherent (pr_Grants p) →
  o_action (authorize_human E st r p rule) = Next ↔ holds_some p rule ∧ permits st r p rule.
Proof.
  intros Hc. rewrite <-(authorize_scope_next E) by done. unfold authorize_human, holds_some.
  destruct (Grants_IsEmpty _); [naive_solver|].
  destruct (Grants_HeldAnywhere (pr_Grants p) (r_Perm rule)); [naive_solver|].
  destruct (String.eqb_spec (r_AltPerm rule) ""); [naive_solver|].
  destruct (Grants_HeldAnywhere (pr_Grants p) (r_AltPerm rule)); naive_solver.
Qed.

(** *** The recorded decision *)

(** A slot that tells what happened: a denial carries the status the client
    saw; an allowance names a grant that really gives the permission. *)
Definition slot_truthful (p : Principal) (o : outcome) : Prop :=
  match o_slot o, o_action o with
  | Some d, Next =>
      d_Denied d = false ∧ ∃ perm job,
        Grants_Decide (pr_Grants p) perm job = (true, d_GrantedBy d) ∧
        d_GrantedBy d ∈ Grants_Explain (pr_Grants p) perm job
  | Some d, Reply a => d_Denied d = true ∧ d_Status d = a_status a
  | None, Next => True
  | None, Reply a => a_status a = 401%Z ∨ a_status a = 500%Z
  end.

Lemma Decide_explain g perm job by_ :
  Grants_Decide g perm job = (true, by_) → by_ ∈ Grants_Explain g perm job.
Proof.
  unfold Grants_Decide, Grants_Explain. destruct (Grants_ordered g perm job); [done|].
  intros [= <-]. simpl. left.
Qed.

Lemma truthful_allowed p perm job q scope by_ :
  Grants_Decide (pr_Grants p) perm job = (true, by_) →
  slot_truthful p (MkOutcome Next (Some (allowed_decision q scope by_))).
Proof. intros H. split; [done|]. exists perm, job. simpl. auto using Decide_explain. Qed.

Lemma require_truthful p perm job hide : slot_truthful p (require_then_next (Some p) perm job hide).
Proof.
  unfold require_then_next, requireJob.
  destruct (negb _); [by destruct hide|].
  destruct (Grants_Decide _ perm job) as [[] by_] eqn:E; [|done]. by eapply truthful_allowed.
Qed.

Lemma fast_truthful p perm scope :
  coherent (pr_Grants p) → Grants_Can (pr_Grants p) perm "" = true →
  slot_truthful p (MkOutcome Next
    (Some (allowed_decision perm scope (Grants_Decide (pr_Grants p) perm "").2))).
Proof.
  intros Hc. rewrite Can_Decide by done.
  destruct (Grants_Decide _ _ _) as [b by_] eqn:E. simpl. intros ->. by eapply truthful_allowed.
Qed.

Lemma authorize_human_truthful E st r p rule :
  coherent (pr_Grants p) → slot_truthful p (authorize_human E st r p rule).
Proof.
  intros Hc. unfold authorize_human. destruct (Grants_IsEmpty _); [done|]. destruct (_ && _); [done|].
  unfold authorize_scope. destruct (r_Scope rule); try done; auto using require_truthful.
  - destruct (negb (Grants_Decide _ (r_Perm rule) "").1 && _) eqn:E1.
    + destruct (Grants_Decide _ (r_AltPerm rule) "") as [[] by_] eqn:E2; [|done].
      by eapply truthful_allowed.
    + destruct (Grants_Decide _ (r_Perm rule) "") as [[] by_] eqn:E2; [|done].
      by eapply truthful_allowed.
  - unfold authorizeRun. destruct (_ && _) eqn:E1.
    + apply andb_true_iff in E1 as [??]. by apply fast_truthful.
    + destruct (st_RunJobName _ _); [apply require_truthful|done|by right].
  - destruct (_ =? _)%string; [done|]. apply require_truthful.
  - unfold authorizeSchedule. destruct (_ && _) eqn:E1.
    + apply andb_true_iff in E1 as [??]. by apply fast_truthful.
    + destruct (st_GetSchedule _ _); [apply require_truthful|done|by right].
Qed.

(** ** Properties *)

(** C11: the middleware lets a request through exactly when its route is
    classified and the route is open, or the caller is an agent on a route that
    agents may use, or the caller is a principal who holds the route's
    permission (or its alternative) where the route's scope demands it: globally,
    on the job in the path or query, or on the job the run or schedule in the
    path belongs to, in which case the caller must also be able to read that
    job. *)
Theorem authorize_exact (E : string) (st : AuthzStore) (r : Request)
    (Hc : ∀ p, rq_principal r = Some p → coherent (pr_Grants p)) :
  o_action (authorize E st r) = Next ↔ authorized st r.
Proof.
  unfold authorize, authorized.
  destruct (lookupRoute _ _) as [rule|]; [|split; [done|by intros (? & ? & _)]].
  transitivity (demands st r rule); [|split; [by eauto|by intros (? & [= <-] & ?)]].
  unfold demands. destruct (is_open (r_Scope rule)) eqn:Eo.
  { destruct (r_Scope rule); try done; split; auto. }
  transitivity (o_action (if rq_isAgent r then
         if r_AgentBypass rule then MkOutcome Next None
         else MkOutcome (Reply (MkAnswer 403 (missingPerm (r_Perm rule)))) None
       else match rq_principal r with
            | None => unauthorized
            | Some p => authorize_human E st r p rule
            end) = Next); [by destruct (r_Scope rule)|].
  destruct (rq_isAgent r).
  { destruct (r_AgentBypass rule); split; auto; [done|]. by intros [?|[[_ ?]|[? _]]]. }
  destruct (rq_principal r) as [p|]; [|split; [done|naive_solver]].
  rewrite (authorize_human_next E st r p rule (Hc p eq_refl)). naive_solver.
Qed.

Definition viewer_example : Principal :=
  plain_principal "v" "pat" "viewer" (Grants_Add Grants_zero "team" (Set_With 0 [JobRead]) [Lit "x"]).
Definition run_request (p : Principal) : Request :=
  MkRequest "GET" "/api/v1/runs/{id}" false (Some p) (λ _, "r1") "".
Definition store_of (res : lookup_result string) : AuthzStore := MkStore (λ _, res) (λ _, NotFound).

Lemma authorize_exact_witness :
  coherent (pr_Grants viewer_example) ∧
  authorized (store_of (Found "team/build")) (run_request viewer_example).
Proof.
  assert (coherent (pr_Grants viewer_example)) as Hc by (vm_compute; reflexivity).
  split; [exact Hc|].
  apply (authorize_exact "no rows" (store_of (Found "team/build")) (run_request viewer_example)).
  - intros p [= <-]. exact Hc.
  - vm_compute. reflexivity.
Defined.

(** A run that the principal must not learn about: it does not exist, or it
    belongs to a job the principal cannot read. *)
Definition run_hidden (p : Principal) (st : AuthzStore) (runID : string) : Prop :=
  match st_RunJobName st runID with
  | NotFound => True
  | Found job => Grants_Can (pr_Grants p) JobRead job = false
  | LookupErr => False
  end.

(** On every route that names a run, a caller who may not read the run's
    job is answered exactly as if the run did not exist: the answer does not
    depend on whether the run exists or on which unreadable job it belongs to,
    and it is a 404. *)
Theorem hidden_runs_look_missing (E : string) (st1 st2 : AuthzStore) (r : Request)
    (p : Principal) (rule : routeRule)
    (Hc : coherent (pr_Grants p)) (Hs : r_Scope rule = scopeJobRunID)
    (H1 : run_hidden p st1 (rq_URLParam r (r_RunParam rule)))
    (H2 : run_hidden p st2 (rq_URLParam r (r_RunParam rule))) :
  o_action (authorize_human E st1 r p rule) = o_action (authorize_human E st2 r p rule) ∧
  (Grants_Can (pr_Grants p) JobRead "" = false → holds_some p rule →
   o_action (authorize_human E st1 r p rule)
   = Reply (missingRunAnswer E (r_Pattern rule) (rq_URLParam r (r_RunParam rule)))).
Proof.
  assert (∀ st, run_hidden p st (rq_URLParam r (r_RunParam rule)) →
    o_action (authorizeRun E st r p rule)
    = if Grants_Can (pr_Grants p) (r_Perm rule) "" && Grants_Can (pr_Grants p) JobRead "" then Next
      else Reply (missingRunAnswer E (r_Pattern rule) (rq_URLParam r (r_RunParam rule)))) as Hrun.
  { intros st. unfold run_hidden, authorizeRun. destruct (_ && _); [done|].
    destruct (st_RunJobName _ _) as [job| |]; [|done|done].
    rewrite (Can_Decide _ _ _ Hc). unfold require_then_next, requireJob. by intros ->. }
  unfold authorize_human, holds_some, authorize_scope. rewrite Hs.
  destruct (Grants_IsEmpty _); [split; [done|by intros _ []]|].
  destruct (negb (Grants_HeldAnywhere _ (r_Perm rule)) && _) eqn:Eh.
  - split; [done|]. intros _ [_ Hh]. reflect. destruct Hh as [|[Hne Ha]]; [congruence|].
    apply String.eqb_neq in Hne. rewrite Hne, Ha in *. done.
  - rewrite (Hrun st1 H1), (Hrun st2 H2). split; [done|]. intros -> _. by rewrite andb_false_r.
Qed.

Lemma hidden_runs_look_missing_witness :
  o_action (authorize_human "no rows" (store_of (Found "secret/job")) (run_request viewer_example)
              viewer_example (ofRun mGet "/api/v1/runs/{id}" JobRead "id"))
  = Reply (MkAnswer 404 [Lit "run not found"; Lit ": "; Lit "r1"]).
Proof.
  destruct (hidden_runs_look_missing "no rows" (store_of (Found "secret/job")) (store_of NotFound)
    (run_request viewer_example) viewer_example (ofRun mGet "/api/v1/runs/{id}" JobRead "id")
    ltac:(vm_compute; reflexivity) eq_refl ltac:(vm_compute; reflexivity) I) as [_ H].
  apply H; [vm_compute; reflexivity|]. split; [vm_compute; reflexivity|left; vm_compute; reflexivity].
Defined.

(** The decision the middleware leaves for the audit log is truthful: it is
    a denial exactly when the request was answered with that status, and an
    allowance names a grant the caller really holds for the permission. *)
Theorem audit_decision_truthful (E : string) (st : AuthzStore) (r : Request) (p : Principal)
    (rule : routeRule) (Hc : coherent (pr_Grants p)) :
  slot_truthful p (authorize_human E st r p rule).
Proof. by apply authorize_human_truthful. Qed.

Lemma audit_decision_truthful_witness :
  slot_truthful viewer_example
    (authorize_human "no rows" (store_of (Found "team/build")) (run_request viewer_example)
       viewer_example (ofRun mGet "/api/v1/runs/{id}" JobRead "id")).
Proof. apply audit_decision_truthful. vm_compute. reflexivity. Defined.

(** A row of the table that says what it must for its scope. *)
Definition rule_wf (r : routeRule) : bool :=
  if is_open (r_Scope r) then (r_Perm r =? "")%string && (r_AltPerm r =? "")%string
  else bool_decide (is_Some (Parse (r_Perm r)))
       && ((r_AltPerm r =? "")%string || bool_decide (is_Some (Parse (r_AltPerm r))))
       && (negb (r_AgentBypass r) || (r_Method r =? mGet)%string)
       && (negb (bool_decide (r_Scope r = scopeJobRunID)) || negb (r_RunParam r =? "")%string).

(** The route table classifies consistently: no two rows share a method and
    pattern (so the index finds every row), every row that is not open demands a
    permission of the catalogue, agents bypass the check on reads only, and a
    row scoped to a run names the path parameter of the run. *)
Theorem route_table_wf :
  Forall (λ r, lookupRoute (r_Method r) (r_Pattern r) = Some r ∧ rule_wf r = true) routeTable.
Proof. apply (bool_decide_unpack _); by vm_compute. Qed.

(** An OIDC identity gets exactly the bundle of its resolved legacy role
    together with every permission the compiled policy confers on it, and is
    admitted exactly when a role was resolved or a policy entry names it; a
    user-map demotion never removes what the policy grants. *)
Theorem identity_grants_exact (s : Server) (c : OIDCConfig) (P : Policy) (cfg : PolicyConfig)
    (legacy : Legacy) (issuer : string) (w : list text) (values : list string) (email sub : string)
    (Hc : srv_oidc s = Some c) (HP : oc_Policy c = Some P)
    (HC : Compile (Some cfg) legacy issuer = Ok (P, w)) :
  let '(role, g, admitted) := identityGrants (Some s) values email sub in
  let '(role', ok) := resolveRole values email sub (roleMapping s) in
  let id := MkIdentity values email sub in
  role = role' ∧ grants_ok g ∧
  (admitted = true ↔ ok = true ∨ policy_names cfg id) ∧
  ∀ p job, Grants_Can g p job = true ↔
    (ok = true ∧ Set_Has (default 0%Z (Bundle role)) p = true) ∨ policy_grants cfg id p job.
Proof.
  pose proof (identityGrants_eq s values email sub) as E. unfold resolveRole.
  destruct (resolveRoleSource _ _ _ _) as [[role source] ok]. rewrite E, Hc. simpl. rewrite HP.
  pose proof (match_grants_ok _ _ _ _ _ (MkIdentity values email sub) HC) as Hm.
  assert (grants_ok (if ok then RoleGrants role (role_by role source) else Grants_zero)) as Hr
    by (destruct ok; [apply grants_ok_RoleGrants|apply grants_ok_zero]).
  split; [done|]. split; [by apply grants_ok_Union|]. split.
  { by rewrite orb_true_iff, (match_names _ _ _ _ _ _ HC). }
  intros p job. rewrite Can_Union_ok, orb_true_iff, (match_grants _ _ _ _ _ _ _ _ HC) by done.
  destruct ok; [rewrite Can_RoleGrants|rewrite Can_zero]; naive_solver.
Qed.

Definition server_example : Server :=
  MkServer "tok" (Some (MkOIDCConfig "groups" {["ops" := "viewer"]} ∅ "deny" (Some compiled_example))).

Lemma server_example_ok : server_ok server_example.
Proof.
  intros c P Hc HP. apply (inj Some) in Hc. subst c. apply (inj Some) in HP. subst P.
  exists (Some policy_example), legacy_example, "https://idp", []. vm_compute. reflexivity.
Qed.

Lemma identity_grants_exact_witness :
  let '(role, g, admitted) := identityGrants (Some server_example) ["ops"; "devs"] "d@x" "s" in
  role = "viewer" ∧ Grants_Can g RunTrigger "team/app/build" = true.
Proof.
  pose proof (identity_grants_exact server_example
    (MkOIDCConfig "groups" {["ops" := "viewer"]} ∅ "deny" (Some compiled_example)) compiled_example
    policy_example legacy_example "https://idp" [] ["ops"; "devs"] "d@x" "s" eq_refl eq_refl
    ltac:(vm_compute; reflexivity)) as H.
  assert ((identityGrants (Some server_example) ["ops"; "devs"] "d@x" "s").1.1 = "viewer") as Hr
    by (vm_compute; reflexivity).
  destruct (identityGrants _ _ _ _) as [[role g] admitted].
  destruct (resolveRole _ _ _ _) as [role' ok]. destruct H as (_ & _ & _ & Hcan).
  split; [exact Hr|]. apply Hcan. right. right.
  exists (MkFolderEntry "/team/app/"
    (MkPolicyEntry [MkGrantEntry "devs" ["developer"; "job.delete"]] [])),
    (MkGrantEntry "devs" ["developer"; "job.delete"]).
  split; [left|]. split; [vm_compute; reflexivity|]. split; [|vm_compute; reflexivity].
  left. split; [left|right; left].
Defined.

(** The principal of an owner PAT holds, on every job, exactly what its
    owner holds under the current configuration and the PAT's ceiling allows; the
    one addition is agent.enroll, for a ceiling that names it, when the owner
    holds agent.manage globally. *)
Theorem owner_pat_bounded (H : string → string) (srv : option Server) (pat : PAT) (h : string)
    (o : PATOwner) (p : Principal)
    (Hs : ∀ s, srv = Some s → server_ok s)
    (Ho : pat_Owner pat = Some o) (Hp : patPrincipal H srv pat h = Some p) :
  let g := (identityGrants srv (po_Claims o) (po_Email o) (po_Sub o)).1.2 in
  grants_ok (pr_Grants p) ∧
  ∀ perm job, Grants_Can (pr_Grants p) perm job =
    match ceilingSet (pat_Role pat) (pat_Permissions pat) with
    | None => Grants_Can g perm job
    | Some c => (Grants_Can g perm job
                 || ((AgentEnroll =? perm)%string && Grants_Can g AgentManage "")) && Set_Has c perm
    end.
Proof.
  intros g. split; [by eapply patPrincipal_ok|]. intros perm job.
  rewrite (owned_pat _ _ _ _ _ _ Ho Hp). destruct (ceilingSet _ _) as [c|]; [|done].
  apply Can_owner_capped, identityGrants_ok, Hs.
Qed.

Definition owner_pat_example : PAT :=
  MkPAT "id1" "ci" "" (Some (MkPATOwner "s" "d@x" ["devs"])) (Some ["run.trigger"]) None.

Lemma owner_pat_bounded_witness :
  ∃ p, patPrincipal id (Some server_example) owner_pat_example "h" = Some p ∧
       Grants_Can (pr_Grants p) RunTrigger "team/app/build" = true ∧
       Grants_Can (pr_Grants p) JobRead "team/app/build" = false.
Proof.
  assert (∃ p, patPrincipal id (Some server_example) owner_pat_example "h" = Some p) as [p Hp]
    by (eexists; vm_compute; reflexivity).
  exists p. split; [exact Hp|].
  destruct (owner_pat_bounded id (Some server_example) owner_pat_example "h" _ p
    ltac:(intros s Hs; apply (inj Some) in Hs; subst s; exact server_example_ok) eq_refl Hp)
    as [_ Hcan].
  rewrite !Hcan. split; vm_compute; reflexivity.
Defined.

(** ** Role resolution *)

Lemma best_role_fold m values : ∀ st,
  roleRank (foldl (best_role m) st values).1 =
    foldr (λ v a, roleRank (default "" (rm_RoleMap m !! v)) `max` a) (roleRank st.1) values.
Proof.
  induction values as [|v values IH]; intros st; [done|]. cbn [foldl foldr]. rewrite IH.
  assert (∀ a b l, foldr (λ v a, roleRank (default "" (rm_RoleMap m !! v)) `max` a) (a `max` b) l
    = b `max` foldr (λ v a, roleRank (default "" (rm_RoleMap m !! v)) `max` a) a l) as Hm.
  { intros a b l. induction l as [|x l IHl]; simpl; [lia|]. rewrite IHl. lia. }
  rewrite <-Hm. f_equal. unfold best_role.
  destruct (rm_RoleMap m !! v) as [r|]; simpl; [|change (roleRank "") with 0; lia].
  destruct (Nat.ltb_spec (roleRank st.1) (roleRank r)); simpl; lia.
Qed.

Lemma best_role_known m values : ∀ st,
  (st.1 = "" ∨ roleRank st.1 ≠ 0) →
  (foldl (best_role m) st values).1 = "" ∨ roleRank (foldl (best_role m) st values).1 ≠ 0.
Proof.
  induction values as [|v values IH]; intros st Hst; [done|]. cbn [foldl]. apply IH.
  unfold best_role. destruct (rm_RoleMap m !! v) as [r|]; [|done].
  destruct (Nat.ltb_spec (roleRank st.1) (roleRank r)); [right; simpl; lia|done].
Qed.

Lemma normalizeRole_spec r :
  normalizeRole r = if decide (roleRank r = 0) then ("", false) else (r, true).
Proof. unfold normalizeRole. by destruct (Nat.eqb_spec (roleRank r) 0), (decide (roleRank r = 0)). Qed.

(** A legacy role is decided by the first of: the user-map entry of the
    email, that of the subject, the highest-ranked role the claim values map to,
    the default role. The outcome is a known role or a denial, and a user-map
    entry decides even when it denies. *)
Theorem resolve_role_precedence (values : list string) (email sub : string) (m : RoleMapping) :
  let user := (if bool_decide (email = "") then None else rm_UserMap m !! email) in
  let user := match user with
              | Some r => Some r
              | None => if bool_decide (sub = "") then None else rm_UserMap m !! sub
              end in
  let best := foldr (λ v a, roleRank (default "" (rm_RoleMap m !! v)) `max` a) 0 values in
  let '(role, ok) := resolveRole values email sub m in
  (ok = true ↔ roleRank role ≠ 0) ∧ (ok = false → role = "") ∧
  roleRank role = match user with
                  | Some r => roleRank r
                  | None => if decide (best = 0) then roleRank (rm_DefaultRole m) else best
                  end.
Proof.
  assert (∀ r, let '(role, ok) := normalizeRole r in
    (ok = true ↔ roleRank role ≠ 0) ∧ (ok = false → role = "") ∧ roleRank role = roleRank r) as Hn.
  { intros r. rewrite normalizeRole_spec. destruct (decide _) as [E|E]; [|done]. by rewrite E. }
  cbv zeta. unfold resolveRole, resolveRoleSource.
  pose proof (best_role_fold m values ("", "")) as Hb. simpl in Hb. change (roleRank "") with 0 in Hb.
  pose proof (best_role_known m values ("", "") (or_introl eq_refl)) as Hk.
  destruct (foldl (best_role m) ("", "") values) as [best bv]. cbn [fst] in *. rewrite <-Hb.
  pose proof (Hn (rm_DefaultRole m)) as Hd. destruct (normalizeRole (rm_DefaultRole m)) as [dr dok].
  destruct (String.eqb_spec email ""); [rewrite bool_decide_eq_true_2 by done|
    rewrite bool_decide_eq_false_2 by done; cbn [negb];
    destruct (rm_UserMap m !! email) as [r|];
      [specialize (Hn r); by destruct (normalizeRole r)|]].
  all: destruct (String.eqb_spec sub ""); [rewrite bool_decide_eq_true_2 by done|
    rewrite bool_decide_eq_false_2 by done; cbn [negb];
    destruct (rm_UserMap m !! sub) as [r|];
      [specialize (Hn r); by destruct (normalizeRole r)|]].
  all: cbn [negb]; destruct (String.eqb_spec best "") as [->|Hne]; cbn [negb];
    [by change (roleRank "") with 0|destruct Hk as [|Hk]; [done|]; rewrite decide_False by done; done].
Qed.
