(* ===== verification/AuthzTokens.v ===== *)
(** * internal/controller: personal access tokens

    Models [api_tokens.go]: the ceiling and label checks, the whole decision of
    [handleCreateToken] up to the store call it makes, and the list and delete
    handlers; with the rows the three insert statements of the store write
    ([store/postgres.go]).  [time.ParseDuration], the clock, the random token and
    its hash are parameters. *)

From S2P Require Import Prelude GoStrings Authz AuthzPolicy AuthzServer.
From stdpp Require Import options.

Definition BootstrapPATName : string := "env:UNIFIED_TOKEN".

Record CreatePATRequest := MkCreatePAT {
  cr_Name : string;
  cr_ExpiresIn : string;
  cr_Role : string;
  cr_Permissions : option (list string);
  cr_EnrollLabels : list string
}.

(** A refusal with a status and a message; [Ok tt] is status 0. *)
Inductive check := Pass | Refuse (status : Z) (msg : text).

Definition check_perm (creator : Principal) (name : string) : check :=
  match Parse name with
  | None => Refuse 400 [Lit "unknown permission "; Quo name]
  | Some perm =>
      let missing := Refuse 400 [Lit "cannot grant permission "; Quo name; Lit ": you do not hold it"] in
      if (perm =? AgentEnroll)%string then
        if negb (Grants_HeldAnywhere (pr_Grants creator) AgentEnroll)
           && negb (Grants_HeldAnywhere (pr_Grants creator) AgentManage) then missing else Pass
      else if negb (Grants_HeldAnywhere (pr_Grants creator) perm) then missing else Pass
  end.

Fixpoint check_perms (creator : Principal) (perms : list string) : check :=
  match perms with
  | [] => Pass
  | name :: perms' =>
      match check_perm creator name with
      | Pass => check_perms creator perms'
      | r => r
      end
  end.

Definition validateCeiling (creator : Principal) (role : string) (perms : option (list string))
  : check :=
  let perms := default [] perms in
  if negb (role =? "")%string then
    if (roleRank role =? 0)%nat then Refuse 400 [Lit "unknown role "; Quo role]
    else if (roleRank (pr_Role creator) <? roleRank role)%nat then
      Refuse 400 ([Lit "cannot grant role "; Quo role; Lit ": it exceeds your global role "]
                  ++ (if negb (pr_Role creator =? "")%string then [Quo (pr_Role creator)]
                      else [Lit "(none)"])
                  ++ [Lit "; use --permission to grant folder permissions you hold"])
    else check_perms creator perms
  else check_perms creator perms.

(** The loop over the labels: empty and duplicate entries. *)
Fixpoint check_labels (seen : gset string) (labels : list string) : check :=
  match labels with
  | [] => Pass
  | l :: labels' =>
      if (TrimSpace l =? "")%string
      then Refuse 400 [Lit "enrollLabels must not contain empty entries"]
      else if decide (l ∈ seen) then Refuse 400 [Lit "enrollLabels must not contain duplicates"]
      else check_labels ({[l]} ∪ seen) labels'
  end.

Definition validateEnrollLabels (creator : Principal) (req : CreatePATRequest) : check :=
  match cr_EnrollLabels req with
  | [] => Pass
  | labels =>
      if negb (bool_decide (AgentEnroll ∈ default [] (cr_Permissions req)))
      then Refuse 400 [Lit "enrollLabels requires the agent.enroll permission"]
      else match check_labels ∅ labels with
           | Refuse st m => Refuse st m
           | Pass =>
               if negb (Grants_Can (pr_Grants creator) AgentManage "")
                  && negb (forallb (λ l, bool_decide (l ∈ default [] (pr_EnrollLabels creator))) labels)
               then Refuse 403
                      [Lit "enrollLabels must be a subset of the creating token's enrollLabels"]
               else Pass
           end
  end.

Definition rolesClaimName (s : Server) : string :=
  match srv_oidc s with
  | Some c => if negb (oc_RolesClaim c =? "")%string then oc_RolesClaim c else "groups"
  | None => "groups"
  end.

(** The store call that creates the row. *)
Inductive new_pat :=
| CreatePAT (name hash role : string) (expiresAt : option Z)
| CreateEnrollPAT (name hash : string) (labels : option (list string)) (expiresAt : option Z)
| CreateOwnedPAT (name hash role : string) (perms labels : option (list string))
    (expiresAt : option Z) (owner : PATOwner).

(** The row the insert statements write, with the id the database chose. *)
Definition inserted (id : string) (n : new_pat) : PAT :=
  match n with
  | CreatePAT name _ role _ => MkPAT id name role None None None
  | CreateEnrollPAT name _ labels _ => MkPAT id name "" None (Some [AgentEnroll]) labels
  | CreateOwnedPAT name _ role perms labels _ owner => MkPAT id name role (Some owner) perms labels
  end.

Inductive token_outcome :=
| TReply (status : Z) (msg : text)
| TCreate (n : new_pat).

(** [if status, msg := c; status != 0 { http.Error(...); return }] *)
Definition checked (c : check) (k : token_outcome) : token_outcome :=
  match c with Refuse st m => TReply st m | Pass => k end.

Definition zero_principal : Principal := plain_principal "" "" "" Grants_zero.

(** A slice with no elements falls back to the creator's labels. *)
Definition inherit_labels (labels : list string) (creator : Principal) : option (list string) :=
  match labels with [] => pr_EnrollLabels creator | _ => Some labels end.

(** The ceiling of a PAT minted by a PAT: role and permission list. *)
Definition child_ceiling (creator : Principal) (req : CreatePATRequest)
  : string * option (list string) :=
  if (pr_OwnerPATID creator =? "")%string then (cr_Role req, cr_Permissions req)
  else if (cr_Role req =? "")%string && bool_decide (cr_Permissions req = None)
  then (pr_CeilingRole creator, pr_CeilingPerms creator)
  else match pr_Ceiling creator with
       | None => (cr_Role req, cr_Permissions req)
       | Some ceiling =>
           let want := if negb (cr_Role req =? "")%string then default 0%Z (Bundle (cr_Role req))
                       else default 0%Z (ceilingSet "" (cr_Permissions req)) in
           let parent := if Set_Has ceiling AgentManage then Set_With ceiling [AgentEnroll]
                         else ceiling in
           ("", Some (Set_Names (Set_Intersect want parent)))
       end.

Section create_token.
Variable ParseDuration : string → res Z.
Variables (now : Z) (token : string) (HashToken : string → string).

Definition create_unowned (creator : Principal) (req : CreatePATRequest) (hash : string)
    (expiresAt : option Z) : token_outcome :=
  match cr_Permissions req with
  | Some perms =>
      if negb ((cr_Role req =? "")%string && bool_decide (perms = [AgentEnroll]))
      then TReply 400 [Lit "cannot grant permissions: this token has no owner; use --role"]
      else checked (validateCeiling creator "" (Some perms))
             (TCreate (CreateEnrollPAT (cr_Name req) hash
                         (inherit_labels (cr_EnrollLabels req) creator) expiresAt))
  | None =>
      let role := if (cr_Role req =? "")%string then pr_Role creator else cr_Role req in
      checked (validateCeiling creator role None)
        (TCreate (CreatePAT (cr_Name req) hash role expiresAt))
  end.

Definition create_owned (s : Server) (creator : Principal) (req : CreatePATRequest) (hash : string)
    (expiresAt : option Z) : token_outcome :=
  if negb (pr_ClaimsKnown creator) then
    if (pr_Kind creator =? "session")%string
    then TReply 403 [Lit "cannot create a token: this login predates group-aware tokens; log out and log in again, then retry"]
    else TReply 403 [Lit "cannot create a token: your OIDC token carries no "; Quo (rolesClaimName s);
                     Lit " claim; log in again so the token includes it, then retry"]
  else if (pr_Sub creator =? "")%string then
    TReply 403 [Lit "cannot create a token: your identity has no subject (sub); log in again, then retry"]
  else if negb (cr_Role req =? "")%string && negb (bool_decide (cr_Permissions req = None)) then
    TReply 400 [Lit "role and permissions are mutually exclusive"]
  else if bool_decide (cr_Permissions req = Some []) then
    TReply 400 [Lit "permissions must not be empty"]
  else checked (validateCeiling creator (cr_Role req) (cr_Permissions req))
    (let '(role, perms) := child_ceiling creator req in
     let labels := if bool_decide (AgentEnroll ∈ default [] perms)
                   then inherit_labels (cr_EnrollLabels req) creator else None in
     TCreate (CreateOwnedPAT (cr_Name req) hash role perms labels expiresAt
                (MkPATOwner (pr_Sub creator) (pr_Email creator) (pr_Claims creator)))).

(** [handleCreateToken] up to the store call, for a decoded body. *)
Definition handleCreateToken (s : Server) (principal : option Principal)
    (body : res CreatePATRequest) : token_outcome :=
  match body with
  | Err e => TReply 400 e
  | Ok req =>
      if (cr_Name req =? "")%string then TReply 400 [Lit "name is required"]
      else if (cr_Name req =? BootstrapPATName)%string || HasPrefix (cr_Name req) "env:" then
        TReply 400 [Lit "token name "; Quo (cr_Name req); Lit " is reserved"]
      else
        match (if (cr_ExpiresIn req =? "")%string then Ok None
               else d ← ParseDuration (cr_ExpiresIn req); Ok (Some (now + d)%Z)) with
        | Err e => TReply 400 ([Lit "invalid expiresIn: "] ++ e)
        | Ok expiresAt =>
            let creator := default zero_principal principal in
            checked (validateEnrollLabels creator req)
              (let roleOnlyCreator := pr_BreakGlass creator
                   || ((pr_Kind creator =? "pat")%string && (pr_OwnerPATID creator =? "")%string) in
               let hash := HashToken token in
               if roleOnlyCreator then create_unowned creator req hash expiresAt
               else create_owned s creator req hash expiresAt)
        end
  end.
End create_token.

(** ** Listing and deleting *)

Definition canManageTokens (p : Principal) : bool := Grants_Can (pr_Grants p) TokenManage "".

(** The rows [handleListTokens] shows, of all rows of the table. *)
Definition handleListTokens (pats : list PAT) (principal : option Principal) : list PAT :=
  let p := default zero_principal principal in
  if canManageTokens p then pats
  else if (pr_Sub p =? "")%string then []
  else filter (λ t, po_Sub <$> pat_Owner t = Some (pr_Sub p)) pats.

(** [handleDeleteToken]: the status and the remaining rows.  [valid_id] tells
    which ids the database accepts as a row id. *)
Definition handleDeleteToken (valid_id : string → bool) (pats : list PAT)
    (principal : option Principal) (id : string) : Z * list PAT :=
  let p := default zero_principal principal in
  if canManageTokens p then
    if valid_id id then (204%Z, filter (λ t, pat_ID t ≠ id) pats) else (404%Z, pats)
  else
    let mine t := (pat_ID t =? id)%string && bool_decide (po_Sub <$> pat_Owner t = Some (pr_Sub p)) in
    if negb (pr_Sub p =? "")%string && valid_id id && existsb mine pats
    then (204%Z, filter (λ t, mine t = false) pats) else (404%Z, pats).

(** ** Facts *)

(** The principals the server authenticates under one configuration. *)
Inductive authenticated (H : string → string) (srv : Server) : Principal → Prop :=
| auth_pat pat h p :
    pat_ID pat ≠ "" → patPrincipal H (Some srv) pat h = Some p → authenticated H srv p
| auth_session sess p : sessionPrincipal (Some srv) sess = Some p → authenticated H srv p
| auth_oidc c claims p :
    srv_oidc srv = Some c → oidcPrincipal srv c claims = Some p → authenticated H srv p.

Definition role_only (p : Principal) : bool :=
  pr_BreakGlass p || ((pr_Kind p =? "pat")%string && (pr_OwnerPATID p =? "")%string).

Lemma authenticated_ok H srv p : server_ok srv → authenticated H srv p → grants_ok (pr_Grants p).
Proof.
  intros Hs. assert (∀ s, Some srv = Some s → server_ok s) as Hs' by by intros s [= <-].
  destruct 1; eauto using patPrincipal_ok, sessionPrincipal_ok, oidcPrincipal_ok.
Qed.

Lemma Set_Has_subset a b p : Set_Intersect a b = a → Set_Has a p = true → Set_Has b p = true.
Proof. intros <-. rewrite Set_Has_Intersect. by intros [_ ?]%andb_true_iff. Qed.

(** A higher role holds every permission of a lower one. *)
Lemma Bundle_mono r1 r2 p :
  roleRank r1 ≠ 0 → roleRank r1 ≤ roleRank r2 →
  Set_Has (default 0%Z (Bundle r1)) p = true → Set_Has (default 0%Z (Bundle r2)) p = true.
Proof.
  unfold roleRank, Bundle.
  destruct (r1 =? "viewer")%string, (r1 =? "developer")%string, (r1 =? "admin")%string,
    (r2 =? "viewer")%string, (r2 =? "developer")%string, (r2 =? "admin")%string;
    try done; try lia; intros _ _; by apply Set_Has_subset.
Qed.

Lemma Bundle_manage_enroll r :
  Set_Has (default 0%Z (Bundle r)) AgentManage = true →
  Set_Has (default 0%Z (Bundle r)) AgentEnroll = true.
Proof.
  unfold Bundle. destruct (r =? "viewer")%string, (r =? "developer")%string, (r =? "admin")%string; done.
Qed.

(** A global-only permission held anywhere is held everywhere. *)
Lemma HeldAnywhere_global g p job :
  grants_ok g → FolderScopable p = false → Grants_HeldAnywhere g p = true → Grants_Can g p job = true.
Proof.
  intros Hg Hp. destruct (grants_ok_maps g Hg) as [_ Hf]. unfold Grants_HeldAnywhere, Grants_Can.
  intros [->|(fs & Hin & Hh)%existsb_elem]%orb_true_iff; [done|].
  destruct fs as [f s]. apply elem_of_map_to_list in Hin. destruct (Hf f s Hin) as (_ & _ & _ & _ & Hfp).
  simpl in Hh. rewrite <-Hfp, Set_Has_FolderPart, Hp, andb_false_r in Hh. done.
Qed.

Lemma check_perms_pass creator perms :
  check_perms creator perms = Pass →
  ∀ n, n ∈ perms → (0 ≤ bitOf n)%Z ∧
    (Grants_HeldAnywhere (pr_Grants creator) n = true ∨
     (n = AgentEnroll ∧ Grants_HeldAnywhere (pr_Grants creator) AgentManage = true)).
Proof.
  induction perms as [|m perms IH]; simpl; [by intros _ n ?%not_elem_of_nil|].
  destruct (check_perm creator m) eqn:E; [|done]. intros H n [->|Hn]%elem_of_cons; [|by apply IH].
  unfold check_perm in E. destruct (Parse m) as [q|] eqn:Ep; [|done].
  apply Parse_spec in Ep as [-> Hb]. split; [done|].
  destruct (String.eqb_spec q AgentEnroll) as [->|].
  - destruct (Grants_HeldAnywhere _ AgentEnroll); [by left|].
    destruct (Grants_HeldAnywhere _ AgentManage); [by right|done].
  - destruct (Grants_HeldAnywhere _ q); [by left|done].
Qed.

Lemma validateCeiling_pass creator role perms :
  validateCeiling creator role perms = Pass →
  (role ≠ "" → roleRank role ≠ 0 ∧ roleRank role ≤ roleRank (pr_Role creator)) ∧
  check_perms creator (default [] perms) = Pass.
Proof.
  unfold validateCeiling. destruct (String.eqb_spec role ""); simpl; [by split|].
  destruct (Nat.eqb_spec (roleRank role) 0); [done|].
  destruct (Nat.ltb_spec (roleRank (pr_Role creator)) (roleRank role)); [done|]. by split.
Qed.

Lemma checked_create c k n : checked c k = TCreate n → c = Pass ∧ k = TCreate n.
Proof. by destruct c. Qed.

(** ** Facts: what the creator holds *)

Lemma role_only_creator H srv p :
  authenticated H srv p → role_only p = true →
  ∀ q job, Set_Has (default 0%Z (Bundle (pr_Role p))) q = true → Grants_Can (pr_Grants p) q job = true.
Proof.
  intros Ha. destruct Ha as [pat h p Hid Hp|sess p Hp|c claims p _ Hp].
  - unfold patPrincipal in Hp. destruct (isBreakGlass _ _ _ _).
    { injection Hp as <-. intros _ q job. simpl pr_Grants. unfold AllGrants.
      rewrite Can_Add_global by done. simpl. intros ->. apply orb_true_r. }
    destruct (pat_Owner pat) as [o|] eqn:Eo.
    + destruct (identityGrants _ _ _ _) as [[role g] adm].
      apply String.eqb_neq in Hid. destruct (ceilingSet _ _); injection Hp as <-;
        unfold role_only; simpl; rewrite Hid; done.
    + destruct (isEnrollPAT pat).
      * injection Hp as <-. intros _ q job. simpl. by rewrite Set_Has_0.
      * destruct (_ =? _)%nat; [done|]. injection Hp as <-. intros _ q job.
        simpl pr_Grants. by rewrite Can_RoleGrants.
  - unfold sessionPrincipal in Hp. destruct (se_Claims sess).
    + destruct (identityGrants _ _ _ _) as [[role g] adm]. by injection Hp as <-.
    + destruct (_ =? _)%nat; [done|]. by injection Hp as <-.
  - unfold oidcPrincipal in Hp. destruct (identityGrants _ _ _ _) as [[role g] adm].
    destruct adm; [|done]. by injection Hp as <-.
Qed.

(** What the grants of a principal with an owner are made of. *)
Definition owner_shape (srv : Server) (p : Principal) : Prop :=
  let g := (identityGrants (Some srv) (pr_Claims p) (pr_Email p) (pr_Sub p)).1.2 in
  if (pr_OwnerPATID p =? "")%string then pr_Grants p = g
  else
    pr_Ceiling p = ceilingSet (pr_CeilingRole p) (pr_CeilingPerms p) ∧
    (pr_CeilingPerms p ≠ None → pr_Role p = "") ∧
    pr_Grants p = match pr_Ceiling p with
                  | Some c => Grants_Restrict (owner_grants g (Some c)) c " & pat-ceiling"
                  | None => g
                  end.

Ltac project :=
  cbn [pr_OwnerPATID pr_Ceiling pr_CeilingRole pr_CeilingPerms pr_Grants pr_Role pr_Claims
       pr_ClaimsKnown pr_Email pr_Sub nonNilClaims default id]; unfold nonNilClaims, default, id.

Lemma owned_creator H srv p :
  authenticated H srv p → role_only p = false → pr_ClaimsKnown p = true → owner_shape srv p.
Proof.
  intros Ha. destruct Ha as [pat h p Hid Hp|sess p Hp|c claims p _ Hp].
  - intros Hr _. unfold patPrincipal in Hp. destruct (isBreakGlass _ _ _ _).
    { by injection Hp as <-. }
    destruct (pat_Owner pat) as [o|] eqn:Eo.
    + apply String.eqb_neq in Hid.
      destruct (identityGrants _ _ _ _) as [[role g] adm] eqn:Ei.
      destruct (ceilingSet (pat_Role pat) (pat_Permissions pat)) as [c|] eqn:Ec; injection Hp as <-;
        unfold owner_shape; project; rewrite Hid, Ec, Ei.
      * split; [done|]. split; [by destruct (pat_Permissions pat)|done].
      * split; [done|]. split; [|done]. by destruct (pat_Permissions pat).
    + destruct (isEnrollPAT pat); [by injection Hp as <-|].
      destruct (_ =? _)%nat; [done|]. by injection Hp as <-.
  - intros _. unfold sessionPrincipal in Hp. destruct (se_Claims sess) as [claims|].
    + destruct (identityGrants _ _ _ _) as [[role g] adm] eqn:Ei. injection Hp as <-.
      unfold owner_shape. project. by rewrite Ei.
    + destruct (_ =? _)%nat; [done|]. by injection Hp as <-.
  - intros _. unfold oidcPrincipal in Hp. destruct (identityGrants _ _ _ _) as [[role g] adm] eqn:Ei.
    destruct adm; [|done]. cbn [negb] in Hp. injection Hp as <-. unfold owner_shape. project.
    intros ->. unfold default, id in Ei. by rewrite Ei.
Qed.

(** ** Minting never escalates *)

(** [q] holds nothing the creator [p] does not hold, except agent.enroll when
    [p] holds agent.manage, which implies it. *)
Definition bounded_by (p q : Principal) : Prop :=
  ∀ perm job, Grants_Can (pr_Grants q) perm job = true →
    Grants_Can (pr_Grants p) perm job = true ∨
    (perm = AgentEnroll ∧ Grants_Can (pr_Grants p) AgentManage "" = true).

Lemma enroll_held p job :
  grants_ok (pr_Grants p) → check_perms p [AgentEnroll] = Pass →
  Grants_Can (pr_Grants p) AgentEnroll job = true ∨ Grants_Can (pr_Grants p) AgentManage "" = true.
Proof.
  intros Hok H. destruct (check_perms_pass _ _ H AgentEnroll ltac:(left)) as [_ [Hh|[_ Hh]]].
  - left. by apply HeldAnywhere_global.
  - right. by apply HeldAnywhere_global.
Qed.

Lemma create_unowned_bounded H srv creator req hash e n id h child :
  server_ok srv → authenticated H srv creator → role_only creator = true →
  create_unowned creator req hash e = TCreate n →
  isBreakGlass H (Some srv) (inserted id n) h = false →
  patPrincipal H (Some srv) (inserted id n) h = Some child → bounded_by creator child.
Proof.
  intros Hs Ha Hr Hc Hb Hp. pose proof (authenticated_ok _ _ _ Hs Ha) as Hok.
  pose proof (role_only_creator _ _ _ Ha Hr) as Hrole. unfold patPrincipal in Hp. rewrite Hb in Hp.
  unfold create_unowned in Hc. destruct (cr_Permissions req) as [perms|].
  - destruct ((cr_Role req =? "")%string && bool_decide (perms = [AgentEnroll])) eqn:E; [|done].
    apply andb_true_iff in E as [_ ->%bool_decide_eq_true]. cbn [negb] in Hc.
    apply checked_create in Hc as [[_ Hv]%validateCeiling_pass [= <-]].
    injection Hp as <-. intros perm job. simpl pr_Grants. rewrite Can_enroll.
    intros <-%String.eqb_eq. destruct (enroll_held creator job Hok Hv); auto.
  - apply checked_create in Hc as [[Hv _]%validateCeiling_pass [= <-]]. simpl in Hp.
    set (role := if (cr_Role req =? "")%string then pr_Role creator else cr_Role req) in *.
    unfold isEnrollPAT in Hp. simpl in Hp. rewrite andb_false_r in Hp.
    destruct (Nat.eqb_spec (roleRank role) 0) as [|Hne]; [done|]. injection Hp as <-.
    intros perm job. simpl pr_Grants. rewrite Can_RoleGrants. intros Hh. left. apply Hrole.
    apply Bundle_mono with role; [done| |done]. apply Hv. by intros ->.
Qed.

(** The ceiling of the minted PAT, inside the parent's. *)
Lemma child_ceiling_le creator req c role perms c' perm :
  pr_OwnerPATID creator ≠ "" → pr_Ceiling creator = Some c →
  pr_Ceiling creator = ceilingSet (pr_CeilingRole creator) (pr_CeilingPerms creator) →
  child_ceiling creator req = (role, perms) → ceilingSet role perms = Some c' →
  Set_Has c' perm = true →
  Set_Has c perm = true ∨
  (perm = AgentEnroll ∧ Set_Has c AgentManage = true ∧
   Set_Has (if negb (cr_Role req =? "")%string then default 0%Z (Bundle (cr_Role req))
            else default 0%Z (ceilingSet "" (cr_Permissions req))) AgentEnroll = true).
Proof.
  intros Hid Hc Hcc Hch Hc' Hp. unfold child_ceiling in Hch. apply String.eqb_neq in Hid.
  rewrite Hid, Hc in Hch. destruct (_ && _).
  { injection Hch as <- <-. left. congruence. }
  apply pair_equal_spec in Hch as [<- <-]. apply (proj1 (Set_Has_ceiling _ _ perm Hc')) in Hp as [Hp _].
  apply elem_of_Set_Names in Hp. rewrite Set_Has_Intersect in Hp. apply andb_true_iff in Hp as [Hw Hp].
  destruct (Set_Has c AgentManage); [|by left]. rewrite Set_Has_With1 in Hp.
  apply orb_true_iff in Hp as [|Hp]; [by left|]. apply andb_true_iff in Hp as [_ <-%String.eqb_eq]. auto.
Qed.

Lemma child_ceiling_none creator req role perms :
  pr_OwnerPATID creator ≠ "" →
  pr_Ceiling creator = ceilingSet (pr_CeilingRole creator) (pr_CeilingPerms creator) →
  child_ceiling creator req = (role, perms) → ceilingSet role perms = None →
  pr_Ceiling creator = None.
Proof.
  intros Hid%String.eqb_neq Hc. unfold child_ceiling. rewrite Hid.
  destruct (_ && _); [by intros [= <- <-]; congruence|].
  destruct (pr_Ceiling creator); [|done]. by intros [= <- <-].
Qed.

(** The parent's ceiling allows what the request was validated for. *)
Lemma requested_enroll creator req c :
  grants_ok (pr_Grants creator) →
  validateCeiling creator (cr_Role req) (cr_Permissions req) = Pass →
  pr_Ceiling creator = Some c →
  pr_Ceiling creator = ceilingSet (pr_CeilingRole creator) (pr_CeilingPerms creator) →
  (pr_CeilingPerms creator ≠ None → pr_Role creator = "") →
  Set_Has c AgentManage = true →
  Set_Has (if negb (cr_Role req =? "")%string then default 0%Z (Bundle (cr_Role req))
           else default 0%Z (ceilingSet "" (cr_Permissions req))) AgentEnroll = true →
  Set_Has c AgentEnroll = true ∨
  ∀ job, Grants_Can (pr_Grants creator) AgentEnroll job = true ∨
         Grants_Can (pr_Grants creator) AgentManage "" = true.
Proof.
  intros Hok [Hv Hperms]%validateCeiling_pass Hc Hcc Hrole Hm Hw.
  destruct (String.eqb_spec (cr_Role req) "") as [|Hne]; cbn [negb] in Hw.
  - right. intros job. destruct (cr_Permissions req) as [perms|]; [|by rewrite Set_Has_0 in Hw].
    apply (Set_Has_ceiling perms _ AgentEnroll eq_refl) in Hw as [Hin _].
    destruct (check_perms_pass _ _ Hperms AgentEnroll Hin) as [_ [Hh|[_ Hh]]].
    + left. by apply HeldAnywhere_global.
    + right. by apply HeldAnywhere_global.
  - left. destruct (Hv Hne) as [Hr Hle]. destruct (pr_CeilingPerms creator) as [perms|] eqn:Ep.
    { rewrite Hrole in Hle by done. change (roleRank "") with 0 in Hle. lia. }
    rewrite Hc in Hcc. unfold ceilingSet in Hcc. destruct (negb _); [|done]. injection Hcc as ->.
    by apply Bundle_manage_enroll.
Qed.

Lemma capped_bounded g b perm job :
  (Grants_Can g perm job || ((AgentEnroll =? perm)%string && Grants_Can g AgentManage "")) && b = true →
  b = true ∧
  (Grants_Can g perm job = true ∨ (perm = AgentEnroll ∧ Grants_Can g AgentManage "" = true)).
Proof.
  intros [[?|[<-%String.eqb_eq ?]%andb_true_iff]%orb_true_iff ?]%andb_true_iff; auto.
Qed.

Lemma create_owned_inv s creator req hash e n :
  create_owned s creator req hash e = TCreate n →
  pr_ClaimsKnown creator = true ∧
  validateCeiling creator (cr_Role req) (cr_Permissions req) = Pass ∧
  ∃ role perms labels, child_ceiling creator req = (role, perms) ∧
    n = CreateOwnedPAT (cr_Name req) hash role perms labels e
          (MkPATOwner (pr_Sub creator) (pr_Email creator) (pr_Claims creator)).
Proof.
  unfold create_owned. destruct (pr_ClaimsKnown creator); cbn [negb]; [|by destruct (_ =? _)%string].
  destruct (pr_Sub creator =? "")%string; [done|]. destruct (_ && _); [done|].
  destruct (bool_decide _); [done|]. intros [Hv Hc]%checked_create.
  destruct (child_ceiling creator req) as [role perms]. injection Hc as <-. eauto 10.
Qed.

Lemma create_owned_bounded H srv s creator req hash e n id h child :
  server_ok srv → authenticated H srv creator → role_only creator = false →
  create_owned s creator req hash e = TCreate n →
  patPrincipal H (Some srv) (inserted id n) h = Some child → bounded_by creator child.
Proof.
  intros Hs Ha Hr (Hk & Hv & role & perms & labels & Hch & ->)%create_owned_inv Hp perm job.
  pose proof (authenticated_ok _ _ _ Hs Ha) as Hok.
  pose proof (owned_creator _ _ _ Ha Hr Hk) as Hsh. unfold owner_shape in Hsh.
  pose proof (identityGrants_ok (Some srv) (pr_Claims creator) (pr_Email creator) (pr_Sub creator)
    ltac:(by intros s' [= <-])) as Hg.
  pose proof (owned_pat _ _ _ _ _ _ (eq_refl : pat_Owner (inserted id (CreateOwnedPAT _ _ _ _ _ _ _)) = _) Hp)
    as ->.
  cbn [inserted pat_Role pat_Permissions po_Claims po_Email po_Sub].
  revert Hsh Hg. generalize (identityGrants (Some srv) (pr_Claims creator) (pr_Email creator)
    (pr_Sub creator)).1.2 as g. intros g Hsh Hg.
  destruct (String.eqb_spec (pr_OwnerPATID creator) "") as [Hid|Hid].
  { rewrite Hsh. destruct (ceilingSet role perms); [|by left].
    rewrite Can_owner_capped by done. by intros [_ ?]%capped_bounded. }
  destruct Hsh as (Hcc & Hrole & Hsh). destruct (pr_Ceiling creator) as [c|] eqn:Ec.
  2:{ rewrite Hsh. destruct (ceilingSet role perms); [|by left].
      rewrite Can_owner_capped by done. by intros [_ ?]%capped_bounded. }
  destruct (ceilingSet role perms) as [c'|] eqn:Ec'.
  2:{ rewrite <-Ec in Hcc. pose proof (child_ceiling_none _ _ _ _ Hid Hcc Hch Ec'). congruence. }
  rewrite <-Ec in Hcc. rewrite Can_owner_capped by done. intros [Hc' Hgr]%capped_bounded.
  assert (∀ q j, Grants_Can (pr_Grants creator) q j = (Grants_Can g q j ||
    ((AgentEnroll =? q)%string && Grants_Can g AgentManage "")) && Set_Has c q) as HP
    by by intros; rewrite Hsh, Can_owner_capped.
  destruct (child_ceiling_le _ _ _ _ _ _ _ Hid Ec Hcc Hch Ec' Hc') as [Hp'|(-> & Hm & Hw)].
  - left. rewrite HP, Hp'. destruct Hgr as [->|[-> ->]]; [done|]. by rewrite orb_true_r.
  - destruct (requested_enroll _ _ _ Hok Hv Ec Hcc Hrole Hm Hw) as [He|He].
    + left. rewrite HP, He. destruct Hgr as [->|[_ ->]]; [done|]. by rewrite orb_true_r.
    + destruct (He job); auto.
Qed.

(** ** Properties *)

(** C40: minting never escalates: whatever token a caller creates, the
    principal the server builds for it under the same configuration holds no
    permission on any job that the caller does not hold, except agent.enroll for
    a caller with agent.manage, which implies it.  This covers break-glass and
    role-only tokens, browser sessions, bearer tokens, and tokens minted by
    tokens. *)
Theorem mint_never_escalates (ParseDuration : string → res Z) (now : Z) (token : string)
    (H : string → string) (srv : Server) (creator : Principal) (body : res CreatePATRequest)
    (n : new_pat) (id h : string) (child : Principal)
    (Hs : server_ok srv) (Ha : authenticated H srv creator)
    (Hc : handleCreateToken ParseDuration now token H srv (Some creator) body = TCreate n)
    (Hb : isBreakGlass H (Some srv) (inserted id n) h = false)
    (Hp : patPrincipal H (Some srv) (inserted id n) h = Some child) :
  bounded_by creator child.
Proof.
  unfold handleCreateToken in Hc. destruct body as [req|]; [|done].
  destruct (_ =? _)%string; [done|]. destruct (_ || _); [done|].
  destruct (if (cr_ExpiresIn req =? "")%string then _ else _) as [e|]; [|done].
  apply checked_create in Hc as [_ Hc]. simpl default in Hc. fold (role_only creator) in Hc.
  destruct (role_only creator) eqn:Er.
  - by eapply create_unowned_bounded.
  - by eapply create_owned_bounded.
Qed.

(** A session of a developer of team/app mints a token limited to triggering. *)
Definition session_example : Session := MkSession "s" "dev@example.com" "" (Some ["devs"]).
Definition request_example : CreatePATRequest :=
  MkCreatePAT "ci" "" "" (Some ["run.trigger"]) [].
Definition creator_example : Principal :=
  default zero_principal (sessionPrincipal (Some server_example) session_example).
Definition minted_example : new_pat :=
  CreateOwnedPAT "ci" "h:t" "" (Some ["run.trigger"]) None None
    (MkPATOwner "s" "dev@example.com" ["devs"]).
Definition child_example : Principal :=
  default zero_principal
    (patPrincipal (λ s, "h:" +:+ s) (Some server_example) (inserted "id2" minted_example) "h:t").

Lemma mint_never_escalates_witness :
  Grants_Can (pr_Grants child_example) RunTrigger "team/app/build" = true ∧
  bounded_by creator_example child_example.
Proof.
  split; [vm_compute; reflexivity|].
  apply (mint_never_escalates (λ _, Err []) 0 "t" (λ s, "h:" +:+ s) server_example creator_example
           (Ok request_example) minted_example "id2" "h:t").
  - exact server_example_ok.
  - apply (auth_session _ _ session_example). vm_compute. reflexivity.
  - vm_compute. reflexivity.
  - vm_compute. reflexivity.
  - vm_compute. reflexivity.
Defined.

(** A caller without token.manage sees and deletes only tokens it owns; it
    never affects another row, and a token it does not own answers exactly like
    a missing one. *)
Theorem tokens_owner_only (valid_id : string → bool) (pats : list PAT) (p : Principal) (id : string)
    (Hm : canManageTokens p = false) :
  (∀ t, t ∈ handleListTokens pats (Some p) ↔
        pr_Sub p ≠ "" ∧ t ∈ pats ∧ po_Sub <$> pat_Owner t = Some (pr_Sub p)) ∧
  (let '(status, pats') := handleDeleteToken valid_id pats (Some p) id in
   (∀ t, t ∈ pats → po_Sub <$> pat_Owner t ≠ Some (pr_Sub p) → t ∈ pats') ∧
   (∀ t, t ∈ pats' → t ∈ pats) ∧
   ((∀ t, t ∈ pats → pat_ID t = id → po_Sub <$> pat_Owner t ≠ Some (pr_Sub p)) →
    status = 404%Z ∧ pats' = pats)).
Proof.
  unfold handleListTokens, handleDeleteToken. simpl default. rewrite Hm. split.
  - intros t. destruct (String.eqb_spec (pr_Sub p) ""); [|rewrite list_elem_of_filter; naive_solver].
    split; [by intros ?%not_elem_of_nil|naive_solver].
  - destruct (_ && existsb _ pats) eqn:E.
    + apply andb_true_iff in E as [_ (t & Ht & Hmine)%existsb_elem].
      apply andb_true_iff in Hmine as [Hid%String.eqb_eq Hown%bool_decide_eq_true].
      split; [|split].
      * intros t' Ht' Hne. apply list_elem_of_filter. split; [|done].
        rewrite bool_decide_eq_false_2 by done. apply andb_false_r.
      * by intros t' [_ ?]%list_elem_of_filter.
      * intros Hn. destruct (Hn t Ht Hid Hown).
    + auto.
Qed.

Lemma tokens_owner_only_witness :
  canManageTokens creator_example = false ∧
  owner_pat_example ∈ handleListTokens [owner_pat_example] (Some creator_example).
Proof.
  assert (canManageTokens creator_example = false) as Hm by (vm_compute; reflexivity).
  split; [exact Hm|].
  apply (proj1 (tokens_owner_only (λ _, true) [owner_pat_example] creator_example "other" Hm)).
  assert (pr_Sub creator_example = "s") as E by (vm_compute; reflexivity).
  rewrite E. split; [discriminate|]. split; [left|reflexivity].
Defined.
