(* ===== verification/DslNames.v ===== *)
(** * internal/dsl: names and paths

    Models the syntactic checks every manifest goes through: [name.go],
    [qualname.go], the identifier patterns of [parse.go], the label and
    reserved-name checks of [container.go], [mountpath.go], the variable-name
    rules of [vars_parse.go], and the git ref and repository URL rules of
    [gitref.go]; and [SidecarLogIndex] of [sidecar_logs.go]. *)

From S2P Require Import Prelude GoStrings Regex GoPath.
From stdpp Require Import options.

(** ** Patterns *)

Definition is_char (x c : ascii) : bool := Ascii.eqb x c.
Definition is_alnum (c : ascii) : bool := is_alpha c || is_digit c.
Definition is_lower_digit (c : ascii) : bool := is_lower c || is_digit c.
Definition is_ident_start (c : ascii) : bool := is_alpha c || is_char "_" c.
Definition is_ident_char (c : ascii) : bool := is_alnum c || is_char "_" c.

Definition ROpt (r : regex) : regex := RAlt REps r.
Definition RPlus (r : regex) : regex := RSeq r (RStar r).

(** [stepNameRe], [orLockNameRe], [matrixDimNameRe], [identifierRe] and
    [varKeyRe] are one pattern. *)
Definition identifierRe : regex := RSeq (RCls is_ident_start) (RStar (RCls is_ident_char)).
Definition identifier_text : string := "^[A-Za-z_][A-Za-z0-9_]*$".
Definition is_identifier (s : string) : bool := re_match identifierRe s.

(** [[a-z0-9]([-a-z0-9]*[a-z0-9])?] *)
Definition dns1123LabelRe : regex :=
  RSeq (RCls is_lower_digit)
       (ROpt (RSeq (RStar (RCls (λ c, is_char "-" c || is_lower_digit c))) (RCls is_lower_digit))).
Definition dns1123SubdomainRe : regex :=
  RSeq dns1123LabelRe (RStar (RSeq (RCls (is_char ".")) dns1123LabelRe)).
Definition dns1123SubdomainMaxLength : nat := 253.

Definition secretNameRe : regex :=
  RSeq (RCls is_ident_start) (RStar (RCls (λ c, is_ident_char c || is_char "-" c))).

(** ** name.go *)

Definition ValidateName (name : string) : res unit :=
  _ ← fail_if (name =? "")%string [Lit "is required"];
  fail_if ((dns1123SubdomainMaxLength <? String.length name)%nat
           || negb (re_match dns1123SubdomainRe name))
    [Lit "is invalid: "; Quo name; Lit " must consist of lowercase alphanumeric characters, '-' or '.', and must start and end with an alphanumeric character"].

Definition ValidateSecretName (name : string) : res unit :=
  _ ← fail_if (name =? "")%string [Lit "is required"];
  fail_if (negb (re_match secretNameRe name))
    [Lit "is invalid: "; Quo name; Lit " must consist of letters, digits, '_' or '-', and start with a letter or '_'"].

(** ** qualname.go *)

Definition QualifyName (path name : string) : string :=
  let path := Trim "/" path in
  let name := Trim "/" name in
  if (path =? "")%string then name else path +:+ "/" +:+ name.

Definition SplitQualifiedName (qualified : string) : string * string :=
  match split_last "/" qualified with
  | None => ("", qualified)
  | Some (a, b) => (a, b)
  end.

(** ** container.go: labels and reserved names *)

Definition PrimaryContainerName : string := "job".
Definition ArtifactSidecarContainerName : string := "unified-artifact".
Definition UcdShimContainerName : string := "ucd-shim".
Definition WorkspaceVolumeName : string := "workspace".
Definition UcdToolsVolumeName : string := "ucd-tools".

Definition ValidateDNS1123Label (name : string) : res unit :=
  _ ← fail_if (name =? "")%string [Lit "name is required"];
  _ ← fail_if (63 <? String.length name)%nat [Lit "name "; Quo name; Lit " exceeds 63 characters"];
  fail_if (negb (re_match dns1123LabelRe name))
    [Lit "name "; Quo name; Lit " is not a valid DNS-1123 label (lowercase alphanumerics and '-', must start/end alphanumeric)"].

Definition IsReservedContainerName (name : string) : bool :=
  let n := ToLower (TrimSpace name) in
  (n =? PrimaryContainerName)%string || (n =? ArtifactSidecarContainerName)%string
  || (n =? UcdShimContainerName)%string.

Definition IsForbiddenStepContainer (name : string) : bool :=
  let n := ToLower (TrimSpace name) in
  (n =? ArtifactSidecarContainerName)%string || (n =? UcdShimContainerName)%string.

Definition ForbiddenStepContainerError (path stepName container : string) : text :=
  let why := if (ToLower (TrimSpace container) =? UcdShimContainerName)%string
    then "is the agent's ucd-sh installer init container, which has exited before any step runs"
    else "is reserved for the agent's artifact sidecar, which holds the object-store credentials" in
  [Lit path; Lit " ("; Lit stepName; Lit "): container "; Quo container; Lit " "; Lit why;
   Lit "; steps cannot run in it. Use the primary container "; Quo PrimaryContainerName;
   Lit " or a container declared in podTemplate"].

Definition IsReservedVolumeName (name : string) : bool :=
  let n := ToLower (TrimSpace name) in
  (n =? WorkspaceVolumeName)%string || (n =? UcdToolsVolumeName)%string.

(** ** parse.go: shell and artifact names *)

(** A slice whose nil-ness matters is an option. *)
Definition validShellArgv (argv : option (list string)) : res unit :=
  match argv with
  | None => Ok tt
  | Some [] => Err [Lit "shell must be a non-empty array of non-empty strings"]
  | Some l => each (λ i s, fail_if (s =? "")%string
                             [Lit "shell["; Lit (pretty i); Lit "] must not be empty"]) l
  end.

Definition validateArtifactName (name : string) : res unit :=
  _ ← fail_if (name =? "")%string [Lit "must not be empty"];
  _ ← fail_if (negb (TrimSpace name =? name)%string) [Lit "must not have leading or trailing whitespace"];
  _ ← fail_if (Contains name "..") [Lit "must not contain "; Quo ".."];
  _ ← fail_if (ContainsAny name "/\") [Lit "must not contain "; Quo "/"; Lit " or "; Quo "\"];
  fail_if (existsb (λ r, (r <? 32)%N || (r =? 127)%N) (runes name))
    [Lit "must not contain control characters"].

(** ** sidecar_logs.go *)

Definition SidecarLogIndexBase : Z := 100000.
Definition ArtifactLogIndex : Z := 90000.
Definition SidecarLogIndex (ordinal : Z) : Z := (SidecarLogIndexBase + ordinal)%Z.

(** ** mountpath.go *)

Definition ProtectedMountDirs : list string :=
  ["/usr"; "/bin"; "/sbin"; "/lib"; "/lib32"; "/lib64"; "/libx32";
   "/etc"; "/proc"; "/sys"; "/dev"; "/run"; "/var/run"; "/.ucd";
   "/usr/local/bin"].

Definition check_protected (p : string) (d : string) : res unit :=
  _ ← fail_if (p =? d)%string [Lit "mountPath "; Quo p; Lit " is a protected container directory"];
  _ ← fail_if (HasPrefix p (d +:+ "/"))
        [Lit "mountPath "; Quo p; Lit " is inside the protected container directory "; Quo d];
  fail_if (HasPrefix d (p +:+ "/"))
    [Lit "mountPath "; Quo p; Lit " would cover the protected container directory "; Quo d].

Definition CheckContainerMountPath (p : string) (extraProtected : list string) : res unit :=
  _ ← fail_if (Contains p "\")
        [Lit "mountPath "; Quo p; Lit " contains a backslash; mountPath must be a POSIX path"];
  _ ← fail_if (negb (IsAbs p)) [Lit "mountPath "; Quo p; Lit " must be an absolute path"];
  _ ← fail_if (negb (Clean p =? p)%string)
        [Lit "mountPath "; Quo p; Lit " must be a clean path (no trailing slash, "; Quo "."; Lit ", ";
         Quo ".."; Lit " or repeated slashes); use "; Quo (Clean p)];
  _ ← fail_if (p =? "/")%string [Lit "mountPath "; Quo p; Lit " is the container root"];
  _ ← each (λ _, check_protected p) ProtectedMountDirs;
  each (λ _, check_protected p) extraProtected.

(** ** vars_parse.go *)

Definition VolumeEnvPrefix : string := "UNIFIED_VOLUME_".

Definition reservedVarNames : list string :=
  ["UNIFIED_CACHE_KEY"; "UNIFIED_CACHE_SECRET"; "UNIFIED_TOKEN"; "UNIFIED_AGENT_CREDENTIAL_FILE";
   "UNIFIED_AGENT_ENROLLMENT_TOKEN_FILE"; "UNIFIED_WORKSPACE"; "UNIFIED_AGENT_OS"; "PATH"; "HOME"].

Definition reservedVarPrefixes : list string := [VolumeEnvPrefix].

Definition IsReservedVarName (name : string) : bool :=
  let u := ToUpper name in
  bool_decide (u ∈ reservedVarNames)
  || existsb (λ p, HasPrefix u (ToUpper p)) reservedVarPrefixes.

(** What is wrong with one key, if anything. *)
Definition bad_var_key (k : string) : option text :=
  if (k =? "")%string then Some [Lit "(empty key)"]
  else if negb (is_identifier k)
       then Some [Quo k; Lit " is not a valid variable name (want [A-Za-z_][A-Za-z0-9_]*)"]
  else if IsReservedVarName k then Some [Quo k; Lit " is reserved"]
  else None.

Section vars.
(** The quoting of [%q]; the offending keys are sorted by their message. *)
Variable quote : string → string.

Definition ValidateVarKeys (vars : gmap string string) : res unit :=
  let bad := omap (λ kv, render quote <$> bad_var_key kv.1) (map_to_list vars) in
  match bad with
  | [] => Ok tt
  | _ => Err [Lit "invalid vars: "; Lit (Join "; " (SortStrings bad))]
  end.
End vars.

Definition CheckVarsCollision (existing : gmap string string) (existingManifest : string)
    (incoming : gmap string string) (incomingManifest : string) : res unit :=
  if (existingManifest =? incomingManifest)%string then Ok tt
  else
    match filter (λ k, is_Some (existing !! k)) ((map_to_list incoming).*1) with
    | [] => Ok tt
    | dup => Err [Lit "vars "; Lit (Join ", " (SortStrings dup)); Lit " defined by both ";
                  Quo existingManifest; Lit " and "; Quo incomingManifest]
    end.

(** ** gitref.go *)

Definition gitRefRe : regex :=
  RSeq (RCls is_alnum)
       (RStar (RCls (λ c, is_alnum c || is_char "." c || is_char "_" c || is_char "/" c
                          || is_char "+" c || is_char "-" c))).

Definition ValidateGitRef (ref : string) : res unit :=
  _ ← fail_if (ref =? "")%string [Lit "git ref is required"];
  fail_if (negb (re_match gitRefRe ref))
    [Lit "git ref "; Quo ref; Lit " contains invalid characters (must start alphanumeric; allowed: A-Z a-z 0-9 . _ / + -)"].

(** [strings.IndexAny(u, "/?#")] splits the authority off. *)
Fixpoint split_authority (u : string) : string * string :=
  match u with
  | "" => ("", "")
  | String c u' =>
      if is_char "/" c || is_char "?" c || is_char "#" c then ("", u)
      else let '(a, r) := split_authority u' in (String c a, r)
  end.

Definition repo_schemes : list string := ["https://"; "http://"; "ssh://"].

(** Scheme, userinfo and remainder of an http(s) or ssh URL. *)
Definition splitRepoURLUserinfo (u : string) : option (string * string * string) :=
  match filter (λ p, HasPrefix u p = true) repo_schemes with
  | [] => None
  | scheme :: _ =>
      let '(auth, tail) := split_authority (TrimPrefix u scheme) in
      match split_last "@" auth with
      | None => Some (scheme, "", TrimPrefix u scheme)
      | Some (userinfo, host) => Some (scheme, userinfo, host +:+ tail)
      end
  end.

Definition repoURLCarriesCredentials (u : string) : bool :=
  match splitRepoURLUserinfo u with
  | None => false
  | Some (scheme, userinfo, _) =>
      if (userinfo =? "")%string then false
      else if (scheme =? "ssh://")%string then Contains userinfo ":"
      else true
  end.

(** [strings.Cut s ":"] before the separator. *)
Fixpoint before_colon (s : string) : string :=
  match s with
  | "" => ""
  | String c s' => if is_char ":" c then "" else String c (before_colon s')
  end.

Definition SanitizeRepoURL (u : string) : string * bool :=
  if negb (repoURLCarriesCredentials u) then (u, false)
  else match splitRepoURLUserinfo u with
       | None => (u, false)
       | Some (scheme, userinfo, rest) =>
           if (scheme =? "ssh://")%string then
             let user := before_colon userinfo in
             if (user =? "")%string then (scheme +:+ rest, true)
             else (scheme +:+ user +:+ "@" +:+ rest, true)
           else (scheme +:+ rest, true)
       end.

Definition is_host_char (c : ascii) : bool :=
  is_alnum c || is_char "." c || is_char "_" c || is_char "-" c.

(** The scp-like form [user@host:]; the pattern is anchored at the start only. *)
Definition scpRe : regex :=
  RSeq (RPlus (RCls is_host_char))
    (RSeq (RCls (is_char "@"))
       (RSeq (RCls is_alnum)
          (RSeq (RStar (RCls is_host_char))
             (RSeq (RCls (is_char ":")) (RStar (RCls (λ _, true))))))).

Section repo_url.
(** [RedactURLCredentials], used in messages only. *)
Variable RedactURLCredentials : string → string.

Definition ValidateGitRepoURL (url : string) : res unit :=
  _ ← fail_if (url =? "")%string [Lit "repo URL is required"];
  _ ← fail_if (HasPrefix url "-")
        [Lit "repo URL "; Quo (RedactURLCredentials url); Lit " must not start with '-'"];
  if HasPrefix url "https://" || HasPrefix url "http://" || HasPrefix url "ssh://" then
    fail_if (repoURLCarriesCredentials url)
      [Lit "repo URL must not embed credentials (userinfo is only allowed as a bare user name on ssh:// and scp-like URLs); store the token or key in a GitCredential for the host instead"]
  else fail_if (negb (re_match scpRe url))
    [Lit "repo URL "; Quo (RedactURLCredentials url); Lit " must use https://, http://, ssh://, or scp-like user@host: form"].
End repo_url.

(** ** Facts *)

Lemma ValidateName_ok name :
  ValidateName name = Ok tt ↔
  name ≠ "" ∧ String.length name ≤ dns1123SubdomainMaxLength ∧ re_lang dns1123SubdomainRe name.
Proof.
  unfold ValidateName, mbind, res_bind, fail_if.
  destruct (String.eqb_spec name ""); [naive_solver|].
  destruct (Nat.ltb_spec dns1123SubdomainMaxLength (String.length name)); simpl; [naive_solver lia|].
  rewrite <-re_match_spec. destruct (re_match _ _); naive_solver.
Qed.

(** Bytes of a DNS name. *)
Definition is_dns_char (c : ascii) : bool := is_lower_digit c || is_char "-" c || is_char "." c.

Lemma ValidateName_bytes name : ValidateName name = Ok tt → all_bytes is_dns_char name = true.
Proof.
  intros (_ & _ & H)%ValidateName_ok. eapply re_lang_bytes; [|exact H].
  unfold is_dns_char. repeat split; intros c Hc; rewrite ?orb_true_iff in *; tauto.
Qed.

Lemma ValidateName_no_slash name : ValidateName name = Ok tt → has_byte "/" name = false.
Proof. intros H%ValidateName_bytes. by eapply all_bytes_has_byte. Qed.

Lemma no_slash_ends s : has_byte "/" s = false → first_byte s ≠ Some "/"%char ∧ last_byte s ≠ Some "/"%char.
Proof.
  intros H. split.
  - destruct s as [|c s]; simpl; [done|]. intros [= ->]. done.
  - induction s as [|c s IH]; [done|]. simpl in H. apply orb_false_iff in H as [Hc Hs].
    destruct s as [|d s]; [|by apply IH]. simpl. intros [= ->]. done.
Qed.

Lemma identifier_bytes s : is_identifier s = true → all_bytes is_ident_char s = true.
Proof.
  unfold is_identifier. rewrite re_match_spec. intros H. eapply re_lang_bytes; [|exact H].
  split; intros c Hc; unfold is_ident_start, is_ident_char, is_alnum in *;
    rewrite ?orb_true_iff in *; tauto.
Qed.

Lemma check_protected_ok p d :
  check_protected p d = Ok tt ↔
  p ≠ d ∧ HasPrefix p (d +:+ "/") = false ∧ HasPrefix d (p +:+ "/") = false.
Proof.
  unfold check_protected, mbind, res_bind, fail_if.
  destruct (String.eqb_spec p d); [naive_solver|].
  destruct (HasPrefix p _), (HasPrefix d _); naive_solver.
Qed.

Lemma each_protected p dirs :
  each (λ _, check_protected p) dirs = Ok tt ↔ ∀ d, d ∈ dirs → check_protected p d = Ok tt.
Proof.
  rewrite each_ok. setoid_rewrite list_elem_of_lookup. naive_solver.
Qed.

Lemma CheckContainerMountPath_ok p extra :
  CheckContainerMountPath p extra = Ok tt ↔
  Contains p "\" = false ∧ clean_abs p ∧
  ∀ d, d ∈ ProtectedMountDirs ++ extra →
       p ≠ d ∧ HasPrefix p (d +:+ "/") = false ∧ HasPrefix d (p +:+ "/") = false.
Proof.
  unfold CheckContainerMountPath, clean_abs, mbind, res_bind, fail_if.
  destruct (Contains p "\"); [naive_solver|].
  destruct (IsAbs p); [|naive_solver]. simpl negb. cbn iota.
  destruct (String.eqb_spec (Clean p) p); [|naive_solver]. simpl negb. cbn iota.
  destruct (String.eqb_spec p "/"); [naive_solver|].
  setoid_rewrite <-check_protected_ok. setoid_rewrite elem_of_app.
  pose proof (each_protected p ProtectedMountDirs) as H1.
  pose proof (each_protected p extra) as H2.
  destruct (each _ ProtectedMountDirs) as [[]|e1]; [|naive_solver].
  destruct (each _ extra) as [[]|e2]; naive_solver.
Qed.

Lemma protected_clean_abs : Forall clean_abs ProtectedMountDirs.
Proof. apply (bool_decide_unpack _). by vm_compute. Qed.

(** ** Properties *)

(** An accepted job name has no slash, so a qualified name splits back into
    its folder path and its leaf; a job with a non-empty path lies in that
    folder and in no folder that merely shares a name prefix. *)
Theorem qualified_name_roundtrip (path name : string) (Hn : ValidateName name = Ok tt) :
  SplitQualifiedName (QualifyName path name) = (Trim "/" path, name) ∧
  QualifyName (Trim "/" path) name = QualifyName path name ∧
  (Trim "/" path ≠ "" → HasPrefix (QualifyName path name) (Trim "/" path +:+ "/") = true).
Proof.
  pose proof (ValidateName_no_slash _ Hn) as Hs. destruct (no_slash_ends _ Hs) as [Hf Hl].
  unfold QualifyName, SplitQualifiedName. rewrite (Trim_id "/" name), Trim_idemp by done.
  destruct (String.eqb_spec (Trim "/" path) "") as [->|Hne].
  - by rewrite (proj2 (split_last_none "/" name) Hs).
  - split; [|split; [done|]].
    + change ("/" +:+ name) with (String "/" name). by rewrite split_last_app.
    + intros _. apply HasPrefix_spec. exists name. by rewrite str_app_assoc.
Qed.

Lemma qualified_name_roundtrip_witness :
  SplitQualifiedName (QualifyName "/team/app/" "build-1") = ("team/app", "build-1").
Proof. apply (qualified_name_roundtrip "/team/app/" "build-1"). vm_compute. reflexivity. Defined.

(** A mount path is accepted exactly when it is an absolute, clean POSIX
    path other than the root that shares no directory with a protected one: seen
    as lists of path segments, neither is an ancestor of (or equal to) the
    other, for the built-in directories and for the caller's. *)
Theorem mount_path_disjoint (p : string) (extra : list string) (He : Forall clean_abs extra) :
  CheckContainerMountPath p extra = Ok tt ↔
  Contains p "\" = false ∧ clean_abs p ∧
  ∀ d, d ∈ ProtectedMountDirs ++ extra → disjoint_dirs p d.
Proof.
  rewrite CheckContainerMountPath_ok.
  assert (∀ d, d ∈ ProtectedMountDirs ++ extra → clean_abs d) as Hd.
  { intros d [Hin|Hin]%elem_of_app; [pose proof protected_clean_abs as HF|pose proof He as HF];
      rewrite Forall_forall in HF; auto. }
  split; intros (? & Hp & H); (split; [done|]; split; [done|]); intros d Hin.
  - apply disjoint_dirs_spec; auto.
  - apply disjoint_dirs_spec; auto.
Qed.

Lemma mount_path_disjoint_witness :
  CheckContainerMountPath "/usrdata" ["/var/secrets"] = Ok tt ∧ disjoint_dirs "/usrdata" "/usr".
Proof.
  assert (CheckContainerMountPath "/usrdata" ["/var/secrets"] = Ok tt) as H by (vm_compute; reflexivity).
  split; [exact H|].
  assert (Forall clean_abs ["/var/secrets"]) as He by (apply (bool_decide_unpack _); vm_compute; exact I).
  destruct (proj1 (mount_path_disjoint "/usrdata" ["/var/secrets"] He) H) as (_ & _ & Hd).
  apply Hd. left.
Defined.

(** ** Facts: repository URLs *)

Definition is_sep (c : ascii) : bool := is_char "/" c || is_char "?" c || is_char "#" c.
Definition no_sep (s : string) : bool := all_bytes (λ c, negb (is_sep c)) s.
Definition starts_sep (t : string) : bool :=
  match t with "" => true | String c _ => is_sep c end.

Lemma split_authority_spec u a t :
  split_authority u = (a, t) → u = a +:+ t ∧ no_sep a = true ∧ starts_sep t = true.
Proof.
  revert a. induction u as [|c u IH]; intros a; cbn [split_authority]; [by intros [= <- <-]|].
  fold (is_sep c). destruct (is_sep c) eqn:E; [by intros [= <- <-]|].
  destruct (split_authority u) as [a' t'] eqn:Eu. intros [= <- <-].
  destruct (IH a' eq_refl) as (-> & Ha & Ht). rewrite str_app_cons. unfold no_sep in *. simpl.
  by rewrite E, Ha.
Qed.

Lemma split_authority_app a t :
  no_sep a = true → starts_sep t = true → split_authority (a +:+ t) = (a, t).
Proof.
  intros Ha Ht. induction a as [|c a IH].
  - rewrite str_app_nil_l. destruct t as [|c t]; [done|]. cbn [split_authority]. fold (is_sep c).
    cbn [starts_sep] in Ht. by rewrite Ht.
  - unfold no_sep in Ha. cbn [all_bytes] in Ha. apply andb_true_iff in Ha as [Hc%negb_true_iff Ha].
    rewrite str_app_cons. cbn [split_authority]. fold (is_sep c). rewrite Hc, IH; done.
Qed.

(** The parts of [scheme ++ userinfo@host ++ tail]. *)
Definition split_tail (scheme x : string) : string * string * string :=
  let '(auth, tail) := split_authority x in
  match split_last "@" auth with
  | None => (scheme, "", x)
  | Some (userinfo, host) => (scheme, userinfo, host +:+ tail)
  end.

Lemma schemes_cases scheme :
  scheme ∈ repo_schemes → scheme = "https://" ∨ scheme = "http://" ∨ scheme = "ssh://".
Proof. intros H%list_elem_of_In. simpl in H. naive_solver. Qed.

Lemma split_scheme scheme x :
  scheme ∈ repo_schemes → splitRepoURLUserinfo (scheme +:+ x) = Some (split_tail scheme x).
Proof.
  intros Hs. assert (∃ l, filter (λ p, HasPrefix (scheme +:+ x) p = true) repo_schemes = scheme :: l)
    as [l Hl].
  { exists []. assert (HasPrefix (scheme +:+ x) scheme = true) as Hp by (apply HasPrefix_spec; eauto).
    unfold repo_schemes. revert Hp.
    apply schemes_cases in Hs as [->|[->| ->]]; intros Hp; rewrite !filter_cons, Hp; reflexivity. }
  unfold splitRepoURLUserinfo, split_tail. rewrite Hl, TrimPrefix_app.
  destruct (split_authority x) as [auth tail]. by destruct (split_last "@" auth) as [[]|].
Qed.

Lemma split_scheme_inv u :
  splitRepoURLUserinfo u = None ∨ ∃ scheme x, scheme ∈ repo_schemes ∧ u = scheme +:+ x.
Proof.
  unfold splitRepoURLUserinfo. destruct (filter _ repo_schemes) as [|scheme l] eqn:E; [by left|right].
  assert (scheme ∈ filter (λ p, HasPrefix u p = true) repo_schemes) as [Hp Hin]%list_elem_of_filter
    by (rewrite E; left).
  apply HasPrefix_spec in Hp as [x ->]. eauto.
Qed.

(** A host without "@" carries nothing. *)
Lemma carries_host scheme host tail :
  scheme ∈ repo_schemes → has_byte "@" host = false → no_sep host = true → starts_sep tail = true →
  repoURLCarriesCredentials (scheme +:+ host +:+ tail) = false.
Proof.
  intros Hs Hh Hn Ht. unfold repoURLCarriesCredentials. rewrite split_scheme by done.
  unfold split_tail. rewrite split_authority_app by done.
  by rewrite (proj2 (split_last_none "@" host) Hh).
Qed.

Lemma before_colon_spec s :
  has_byte ":" (before_colon s) = false ∧ ∃ r, s = before_colon s +:+ r.
Proof.
  induction s as [|c s (Hb & r & Hr)]; cbn [before_colon]; [split; [done|by exists ""]|].
  destruct (is_char ":" c) eqn:E; [split; [done|by exists (String c s)]|].
  split; [cbn [has_byte]; unfold is_char in E; by rewrite E, Hb|].
  exists r. rewrite str_app_cons. by rewrite <-Hr.
Qed.

Lemma Contains_colon s : Contains s ":" = has_byte ":" s.
Proof.
  apply eq_iff_eq_true. rewrite Contains_spec. split.
  - intros (a & b & ->). rewrite has_byte_app. simpl. apply orb_true_r.
  - induction s as [|c s IH]; cbn [has_byte]; [done|]. intros [<-%Ascii.eqb_eq|(a & b & ->)%IH]%orb_true_iff.
    + by exists "", s.
    + by exists (String c a), b.
Qed.

Lemma Sanitize_clean u : repoURLCarriesCredentials (SanitizeRepoURL u).1 = false.
Proof.
  unfold SanitizeRepoURL. destruct (repoURLCarriesCredentials u) eqn:Ec; [|done]. simpl.
  destruct (split_scheme_inv u) as [E|(scheme & x & Hs & ->)].
  { unfold repoURLCarriesCredentials in Ec. by rewrite E in Ec. }
  rewrite split_scheme by done. unfold repoURLCarriesCredentials in Ec.
  rewrite split_scheme in Ec by done. revert Ec. unfold split_tail.
  destruct (split_authority x) as [auth tail] eqn:Ea. apply split_authority_spec in Ea as (-> & Ha & Ht).
  destruct (split_last "@" auth) as [[userinfo host]|] eqn:El; [|done].
  apply split_last_some in El as [-> Hh]. unfold no_sep in Ha. rewrite all_bytes_app in Ha.
  apply andb_true_iff in Ha as [Hu Hhost]. simpl in Hhost.
  destruct (userinfo =? "")%string; [done|]. intros _.
  destruct (String.eqb_spec scheme "ssh://") as [->|]; cbn [fst].
  2: by apply carries_host.
  destruct (before_colon_spec userinfo) as (Hb & r & Hr).
  destruct (String.eqb_spec (before_colon userinfo) "") as [|Hne]; cbn [fst]; [by apply carries_host|].
  unfold repoURLCarriesCredentials. rewrite split_scheme by done. unfold split_tail.
  set (user := before_colon userinfo) in *.
  replace (user +:+ "@" +:+ host +:+ tail) with ((user +:+ "@" +:+ host) +:+ tail)
    by by rewrite <-!str_app_assoc.
  rewrite split_authority_app; [| |done].
  - change ("@" +:+ host) with (String "@" host). rewrite split_last_app by done.
    apply String.eqb_neq in Hne. rewrite Hne. simpl. by rewrite Contains_colon.
  - unfold no_sep. rewrite !all_bytes_app. rewrite Hr, all_bytes_app in Hu.
    apply andb_true_iff in Hu as [-> _]. simpl. exact Hhost.
Qed.

(** An accepted repository URL is never read as a git option and embeds no
    credential; sanitising any URL removes every embedded credential, leaves a
    URL without one unchanged, and reports exactly whether it changed it. *)
Theorem repo_url_no_credentials (redact : string → string) (u : string) :
  (ValidateGitRepoURL redact u = Ok tt →
   HasPrefix u "-" = false ∧ repoURLCarriesCredentials u = false) ∧
  repoURLCarriesCredentials (SanitizeRepoURL u).1 = false ∧
  (SanitizeRepoURL u).2 = repoURLCarriesCredentials u ∧
  ((SanitizeRepoURL u).2 = false → (SanitizeRepoURL u).1 = u).
Proof.
  assert (∀ w, repoURLCarriesCredentials w = true →
    HasPrefix w "https://" || HasPrefix w "http://" || HasPrefix w "ssh://" = true) as Hsch.
  { intros w Hw. destruct (split_scheme_inv w) as [E|(scheme & x & Hs & ->)].
    - unfold repoURLCarriesCredentials in Hw. by rewrite E in Hw.
    - assert (HasPrefix (scheme +:+ x) scheme = true) as Hp by (apply HasPrefix_spec; eauto).
      revert Hp. by apply schemes_cases in Hs as [->|[->| ->]]; intros ->; rewrite ?orb_true_r. }
  split; [|split; [apply Sanitize_clean|]].
  - unfold ValidateGitRepoURL, mbind, res_bind, fail_if. destruct (u =? "")%string; [done|].
    destruct (HasPrefix u "-"); [done|]. destruct (_ || _) eqn:E.
    + by destruct (repoURLCarriesCredentials u).
    + intros _. split; [done|]. apply not_true_iff_false. intros H%Hsch. congruence.
  - unfold SanitizeRepoURL. destruct (repoURLCarriesCredentials u) eqn:Ec; [|done]. simpl.
    destruct (split_scheme_inv u) as [E|(scheme & x & Hs & ->)].
    { unfold repoURLCarriesCredentials in Ec. by rewrite E in Ec. }
    rewrite split_scheme by done. destruct (split_tail scheme x) as [[sc ui] rest].
    destruct (sc =? "ssh://")%string; [|done]. by destruct (before_colon ui =? "")%string.
Qed.

(** ** Facts: variables *)

Lemma ValidateVarKeys_ok quote vars :
  ValidateVarKeys quote vars = Ok tt ↔
  ∀ k, is_Some (vars !! k) → is_identifier k = true ∧ IsReservedVarName k = false.
Proof.
  unfold ValidateVarKeys.
  assert (omap (λ kv, render quote <$> bad_var_key kv.1) (map_to_list vars) = [] ↔
          ∀ kv, kv ∈ map_to_list vars → bad_var_key kv.1 = None) as H.
  { induction (map_to_list vars) as [|kv l IH]; cbn [omap list_omap].
    - split; [by intros _ kv ?%not_elem_of_nil|done].
    - setoid_rewrite elem_of_cons. destruct (bad_var_key kv.1) eqn:E; simpl.
      + split; [done|]. intros H. specialize (H kv (or_introl eq_refl)). congruence.
      + rewrite IH. naive_solver. }
  transitivity (omap (λ kv, render quote <$> bad_var_key kv.1) (map_to_list vars) = []).
  { destruct (omap _ _); split; done. }
  rewrite H. assert (∀ k, bad_var_key k = None ↔ is_identifier k = true ∧ IsReservedVarName k = false) as Hk.
  { intros k. unfold bad_var_key. destruct (String.eqb_spec k "") as [->|]; [split; [done|by intros [? _]]|].
    destruct (is_identifier k), (IsReservedVarName k); naive_solver. }
  split.
  - intros Hall k [v Hv]. apply Hk. by apply (Hall (k, v)), elem_of_map_to_list.
  - intros Hall [k v] Hin%elem_of_map_to_list. apply Hk, Hall. by exists v.
Qed.

(** Variables are accepted exactly when every key is an environment-variable
    name that is not reserved in any letter case; two manifests that do not
    collide define the same variables in whichever order they are applied. *)
Theorem vars_safe_and_order_free (quote : string → string)
    (a b : gmap string string) (na nb : string) :
  (ValidateVarKeys quote a = Ok tt ↔
   ∀ k, is_Some (a !! k) → is_identifier k = true ∧ (ToUpper k ∉ reservedVarNames) ∧
        HasPrefix (ToUpper k) VolumeEnvPrefix = false) ∧
  (na ≠ nb → CheckVarsCollision a na b nb = Ok tt → a ∪ b = b ∪ a).
Proof.
  split.
  - rewrite ValidateVarKeys_ok.
    assert (∀ k, IsReservedVarName k = false ↔
      (ToUpper k ∉ reservedVarNames) ∧ HasPrefix (ToUpper k) VolumeEnvPrefix = false) as H.
    { intros k. unfold IsReservedVarName. cbn [existsb reservedVarPrefixes].
      change (ToUpper VolumeEnvPrefix) with VolumeEnvPrefix.
      by rewrite orb_false_r, orb_false_iff, bool_decide_eq_false. }
    by setoid_rewrite H.
  - intros Hne. unfold CheckVarsCollision. apply String.eqb_neq in Hne. rewrite Hne.
    destruct (filter _ _) as [|d l] eqn:E; [|done]. intros _. apply map_union_comm, map_disjoint_spec.
    intros k x y Ha Hb. assert (k ∈ filter (λ k, is_Some (a !! k)) (map_to_list b).*1) as Hin.
    { apply list_elem_of_filter. split; [by exists x|]. apply list_elem_of_fmap.
      exists (k, y). split; [done|]. by apply elem_of_map_to_list. }
    rewrite E in Hin. by apply not_elem_of_nil in Hin.
Qed.

Lemma vars_safe_and_order_free_witness :
  is_identifier "DEPLOY_ENV" = true ∧
  {["A" := "1"]} ∪ {["B" := "2"]} = ({["B" := "2"]} ∪ {["A" := "1"]} : gmap string string).
Proof.
  split; [vm_compute; reflexivity|].
  apply (proj2 (vars_safe_and_order_free id {["A" := "1"]} {["B" := "2"]} "m" "n")).
  - discriminate.
  - vm_compute. reflexivity.
Defined.
