(* ===== verification/DslTypes.v ===== *)
(** * internal/dsl: the job document

    The data model of [types.go], as the decoder leaves it, and the small
    helpers on it.

    A value of Go type [any] decoded from YAML or JSON is a [val].  A decoded
    mapping is an association list with distinct keys ([vget] looks a key up,
    Go's map iteration order is not modelled: where the code ranges over a map
    only the verdict is stated).  A pointer or nil-able slice is an option where
    the code distinguishes nil. *)

From S2P Require Import Prelude GoStrings.
From Stdlib Require QArith_base.
From Stdlib Require QArith_base.
From stdpp Require Import options.

(** ** Untyped values *)

(** [VFloat num ok] stands for a float64 of integral value [num] when [ok], and
    for any other float64 otherwise: the code only asks whether a float is an
    integer, and which. *)
Inductive val :=
| VNull
| VBool (b : bool)
| VInt (n : Z)
| VFloat (n : Z) (integral : bool)
| VStr (s : string)
| VList (l : list val)
| VMap (m : list (string * val)).

Abbreviation vmap := (list (string * val)).

(** [m[key]], with the comma-ok result. *)
Fixpoint vget (m : vmap) (key : string) : option val :=
  match m with
  | [] => None
  | (k, v) :: m' => if (k =? key)%string then Some v else vget m' key
  end.

(** [m[key]] where a missing key reads as nil. *)
Definition vat (m : vmap) (key : string) : val := default VNull (vget m key).

(** The type assertions [v.(T)] with a discarded ok: the zero value otherwise. *)
Definition as_list (v : val) : list val := match v with VList l => l | _ => [] end.
Definition as_str (v : val) : string := match v with VStr s => s | _ => "" end.
Definition as_map (v : val) : option vmap := match v with VMap m => Some m | _ => None end.
Definition is_null (v : val) : bool := match v with VNull => true | _ => false end.

(** ** The document *)

Record ResourceList := MkResourceList { rl_CPU : string; rl_Memory : string }.
Record ResourceSpec := MkResourceSpec {
  rs_Requests : option ResourceList; rs_Limits : option ResourceList
}.
Record RunsIn := MkRunsIn {
  ri_Image : string; ri_Container : string; ri_Resources : option ResourceSpec
}.

Record ForeachSource := MkForeachSource { fs_Literal : list string; fs_Expr : string }.
Record ForeachDef := MkForeachDef { fd_Key : string; fd_Source : ForeachSource }.
Record MatrixDimension := MkMatrixDimension { md_Name : string; md_Source : ForeachSource }.
Record MatrixDef := MkMatrixDef {
  mx_Dimensions : list MatrixDimension;
  mx_Exclude : list (gmap string string)
}.

Record CallStep := MkCallStep { cs_Job : string; cs_With : vmap }.
Record UsesStep := MkUsesStep { us_Job : string; us_With : vmap }.
Record CacheStep := MkCacheStep {
  ca_Path : string; ca_Key : string; ca_RestoreKeys : list string; ca_TTLDays : Z
}.
Record UploadArtifactStep := MkUpload { up_Name : string; up_Path : string }.
Record DownloadArtifactStep := MkDownload { dl_Name : string; dl_DestDir : string; dl_RunID : string }.
(** A float64 of minutes, as the rational it is. *)
Definition minutes : Type := QArith_base.Q.
Definition whole_minutes (n : Z) : minutes := QArith_base.Qmake n 1.

Record ApprovalStep := MkApproval { ap_Message : string; ap_TimeoutMinutes : minutes }.
Record PostStep := MkPostStep {
  po_Run : string; po_Env : gmap string string; po_Shell : option (list string)
}.
Record RetrySpec := MkRetrySpec { re_Attempts : Z; re_Backoff : string }.

(** A concrete step ([Step]). *)
Record Step := MkStep {
  s_Name : string;
  s_If : string;
  s_Env : gmap string string;
  s_Run : string;
  s_Outputs : gmap string string;
  s_Call : option CallStep;
  s_Uses : option UsesStep;
  s_Cache : option CacheStep;
  s_Upload : option UploadArtifactStep;
  s_Download : option DownloadArtifactStep;
  s_Approval : option ApprovalStep;
  s_Post : option PostStep;
  s_ContinueOnError : bool;
  s_Container : string;
  s_RunsIn : option RunsIn;
  s_ScopeID : string;
  s_ScopeImage : string;
  s_ScopeResourceLimits : option ResourceList;
  s_TimeoutMinutes : minutes;
  s_Retry : option RetrySpec;
  s_Foreach : option ForeachDef;
  s_Matrix : option MatrixDef;
  s_Shell : option (list string)
}.

(** A [StepEntry]: the same concrete fields, or a parallel group. *)
Record StepEntry := MkStepEntry { e_Step : Step; e_Parallel : list Step }.

Definition Step_zero : Step :=
  MkStep "" "" ∅ "" ∅ None None None None None None None false "" None "" "" None (whole_minutes 0) None None None None.

Record WorkspaceConfig := MkWorkspaceConfig { wc_MountPath : string }.
Record PodSpecPatch := MkPodSpecPatch { pp_Containers : list vmap; pp_Volumes : list vmap }.
Record PodTemplate := MkPodTemplate {
  pt_Name : string;
  pt_Reuse : bool;
  pt_CleanWorkspace : bool;
  pt_Workspace : option WorkspaceConfig;
  pt_Override : option PodSpecPatch;
  pt_Spec : vmap
}.

Record VolumeMount := MkVolumeMount {
  vm_Name : list string; (* StringOrSlice *)
  vm_As : string;
  vm_MountPath : string
}.

Record Semaphore := MkSemaphore { sm_Pool : string; sm_Capacity : Z }.
Record OrLock := MkOrLock { ol_Name : string; ol_In : ForeachSource }.
Record Concurrency := MkConcurrency {
  co_Mutex : string; co_Semaphores : list Semaphore; co_OrLocks : list OrLock
}.

Record Input := MkInput {
  in_Name : string;
  in_Type : string;
  in_Required : bool;
  in_Default : val; (* VNull: nil *)
  in_Pattern : string;
  in_Unvalidated : bool;
  in_Choices : option (list string)
}.
Record Output := MkOutput { ou_Name : string; ou_Type : string }.
Record Params := MkParams { pa_Inputs : list Input; pa_Outputs : list Output }.

Record Spec := MkSpec {
  sp_Params : Params;
  sp_Concurrency : option Concurrency;
  sp_AgentSelector : list string;
  sp_Steps : list StepEntry;
  sp_Finally : list StepEntry;
  sp_PodTemplate : option PodTemplate;
  sp_Native : bool;
  sp_CleanWorkspace : bool;
  sp_Detached : bool;
  sp_Shell : option (list string);
  sp_Volumes : list VolumeMount;
  sp_DisplayName : string;
  sp_Vars : gmap string string
}.

Record Metadata := MkMetadata {
  me_Name : string; me_Labels : gmap string string; me_Annotations : gmap string string
}.
Record Job := MkJob { j_APIVersion : string; j_Kind : string; j_Metadata : Metadata; j_Spec : Spec }.

(** ** Strings of decoded values *)

Section stringify.
(** [fmt.Sprintf("%v", v)] of a decoded value. *)
Variable sprint : val → string.

Definition stringifyValue (v : val) : string :=
  match v with
  | VStr s => s
  | VList l => Join (String "010" "") (sprint <$> l)
  | _ => sprint v
  end.

Definition withAsStrings (w : vmap) : list (string * string) :=
  (λ kv, (kv.1, stringifyValue kv.2)) <$> w.

Definition InputDefaultsAsStrings (p : Params) : list (string * string) :=
  omap (λ i, match in_Default i with
             | VNull => None
             | d => Some (in_Name i, stringifyValue d)
             end) (pa_Inputs p).
End stringify.

(** ** podTemplate definitions ([container.go]) *)

Definition podTemplateDefs (pt : option PodTemplate) (key : string) : list vmap :=
  match pt with
  | None => []
  | Some pt => omap as_map (as_list (vat (pt_Spec pt) key))
  end.

Definition PodTemplateContainers (pt : option PodTemplate) : list vmap := podTemplateDefs pt "containers".
Definition PodTemplateVolumes (pt : option PodTemplate) : list vmap := podTemplateDefs pt "volumes".
Definition DefName (def : vmap) : string := as_str (vat def "name").

(** [SidecarContainerNames] of [sidecar_logs.go]. *)
Definition SidecarContainerNames (pt : option PodTemplate) : list string :=
  omap (λ c, let name := DefName c in
             if (name =? "")%string || (name =? "job")%string then None else Some name)
       (PodTemplateContainers pt).
