(* ===== verification/DslSecurity.v ===== *)
(** * internal/dsl: security contexts, pod templates and capability routing

    Models [securitycontext.go], [podtemplate.go] and [capabilities.go]: which
    security settings a container ends up with, what the host agent honours, and
    so which capability a run needs. *)

From S2P Require Import Prelude GoStrings DslTypes.
From stdpp Require Import options.

Definition hostHonoursHardeningFields : bool := true.
Definition maxSecurityID : Z := 2147483647.

Section security.
(** [fmt.Sprintf("%#v", v)], used in messages only. *)
Variable gosyntax : val → string.

Definition got (v : val) : text := [Lit " (got "; Lit (gosyntax v); Lit ")"].

Definition badSecurityID (path : text) (v : val) : text :=
  path ++ [Lit ": must be an integer between 0 and "; Lit (pretty maxSecurityID)] ++ got v.

Definition in_range (n : Z) : bool := (0 <=? n)%Z && (n <=? maxSecurityID)%Z.

(** A uid or gid: YAML yields an int, a JSON round trip a float64. *)
Definition securityID (path : text) (v : val) : res Z :=
  match v with
  | VInt n => if in_range n then Ok n else Err (badSecurityID path v)
  | VFloat n integral => if integral && in_range n then Ok n else Err (badSecurityID path v)
  | _ => Err (badSecurityID path v)
  end.

Definition field (path : text) (key : string) : text := path ++ [Lit "."; Lit key].
Definition item (path : text) (i : nat) : text := path ++ [Lit "["; Lit (pretty i); Lit "]"].

Definition optionalID (sc : vmap) (key : string) (path : text) : res (option Z) :=
  match vat sc key with
  | VNull => Ok None
  | v => n ← securityID (field path key) v; Ok (Some n)
  end.

(** The list loops, with the index in the message. *)
Fixpoint map_items {A} (f : text → val → res A) (path : text) (i : nat) (l : list val)
  : res (list A) :=
  match l with
  | [] => Ok []
  | e :: l' => a ← f (item path i) e; rest ← map_items f path (S i) l'; Ok (a :: rest)
  end.

Definition idList (sc : vmap) (key : string) (path : text) : res (list Z) :=
  match vat sc key with
  | VNull => Ok []
  | VList l => map_items securityID (field path key) 0 l
  | v => Err (field path key ++ [Lit ": must be a list of integers"] ++ got v)
  end.

Definition string_item (path : text) (v : val) : res string :=
  match v with VStr s => Ok s | _ => Err (path ++ [Lit ": must be a string"] ++ got v) end.

Definition stringList (sc : vmap) (key : string) (path : text) : res (list string) :=
  match vat sc key with
  | VNull => Ok []
  | VList l => map_items string_item (field path key) 0 l
  | v => Err (field path key ++ [Lit ": must be a list of strings"] ++ got v)
  end.

Definition optionalBool (sc : vmap) (key : string) (path : text) : res (option bool) :=
  match vat sc key with
  | VNull => Ok None
  | VBool b => Ok (Some b)
  | v => Err (field path key ++ [Lit ": must be a boolean"] ++ got v)
  end.

Definition oneOf (allowed : list string) (v : val) : bool :=
  match v with VStr s => existsb (λ a, (s =? a)%string) allowed | _ => false end.

Definition checkEnum (path : text) (v : val) (allowed : list string) : res unit :=
  if oneOf allowed v then Ok tt
  else Err (path ++ [Lit ": must be one of "; Lit (Join ", " allowed)] ++ got v).

(** ** The effective security of a container *)

Record EffectiveSecurity := MkEffective {
  ef_UID : option Z; ef_GID : option Z;
  ef_SupplementalGroups : list Z;
  ef_FSGroup : option Z;
  ef_FSGroupChangePolicy : string;
  ef_RunAsNonRoot : bool;
  ef_CapDrop : list string; ef_CapAdd : list string;
  ef_NoNewPrivileges : bool;
  ef_ReadOnlyRootfs : bool
}.

Definition podPath : text := [Lit "podTemplate.spec.securityContext"].
Definition ctrPath : text := [Lit "container.securityContext"].

(** The container's value, else the pod's. *)
Definition prefer {A} (get : vmap → string → text → res (option A)) (podSC containerSC : vmap)
    (key : string) : res (option A) :=
  c ← get containerSC key ctrPath;
  match c with Some x => Ok (Some x) | None => get podSC key podPath end.

Definition capabilities_of (containerSC : vmap) : res (list string * list string) :=
  match vat containerSC "capabilities" with
  | VNull => Ok ([], [])
  | VMap cm =>
      drop ← stringList cm "drop" (field ctrPath "capabilities");
      add ← stringList cm "add" (field ctrPath "capabilities");
      Ok (drop, add)
  | v => Err (field ctrPath "capabilities" ++ [Lit ": must be a map"] ++ got v)
  end.

Definition ResolveSecurity (podSC containerSC : vmap) : res EffectiveSecurity :=
  uid ← prefer optionalID podSC containerSC "runAsUser";
  gid ← prefer optionalID podSC containerSC "runAsGroup";
  groups ← idList podSC "supplementalGroups" podPath;
  fsGroup ← optionalID podSC "fsGroup" podPath;
  policy ← (match vat podSC "fsGroupChangePolicy" with
            | VNull => Ok ""
            | v => _ ← checkEnum (field podPath "fsGroupChangePolicy") v ["Always"; "OnRootMismatch"];
                   Ok (as_str v)
            end);
  nonRoot ← prefer optionalBool podSC containerSC "runAsNonRoot";
  caps ← capabilities_of containerSC;
  ape ← optionalBool containerSC "allowPrivilegeEscalation" ctrPath;
  ro ← optionalBool containerSC "readOnlyRootFilesystem" ctrPath;
  Ok (MkEffective uid gid groups fsGroup policy (default false nonRoot) caps.1 caps.2
        (match ape with Some b => negb b | None => false end) (default false ro)).

(** ** What the host honours *)

Record securityField := MkField { f_tierB : bool; f_honoured : val → bool }.

Definition isBool (v : val) : bool := match v with VBool _ => true | _ => false end.
Definition isID (v : val) : bool := is_ok (securityID [] v).

Definition profileHonoured (v : val) : bool :=
  match v with
  | VMap m => (length m =? 1)%nat && oneOf ["RuntimeDefault"] (vat m "type")
  | _ => false
  end.

Definition idListHonoured (v : val) : bool :=
  match v with VList l => forallb isID l | _ => false end.

Definition capability_honoured (k : string) (e : val) : bool :=
  match e with
  | VStr s => negb ((k =? "add")%string && negb (s =? "NET_BIND_SERVICE")%string)
  | _ => false
  end.

Definition capabilitiesHonoured (v : val) : bool :=
  match v with
  | VMap m =>
      forallb (λ kv, ((kv.1 =? "drop")%string || (kv.1 =? "add")%string)
                     && match kv.2 with VList l => forallb (capability_honoured kv.1) l | _ => false end) m
  | _ => false
  end.

Definition is_false (v : val) : bool := match v with VBool b => negb b | _ => false end.

Definition podSecurityFields : list (string * securityField) :=
  [("runAsUser", MkField false isID);
   ("runAsGroup", MkField false isID);
   ("runAsNonRoot", MkField false isBool);
   ("supplementalGroups", MkField false idListHonoured);
   ("fsGroup", MkField false isID);
   ("fsGroupChangePolicy", MkField false (oneOf ["Always"; "OnRootMismatch"]));
   ("supplementalGroupsPolicy", MkField false (oneOf ["Merge"]));
   ("seccompProfile", MkField true profileHonoured);
   ("appArmorProfile", MkField true profileHonoured)].

Definition containerSecurityFields : list (string * securityField) :=
  [("runAsUser", MkField false isID);
   ("runAsGroup", MkField false isID);
   ("runAsNonRoot", MkField false isBool);
   ("allowPrivilegeEscalation", MkField true isBool);
   ("capabilities", MkField true capabilitiesHonoured);
   ("privileged", MkField true is_false);
   ("readOnlyRootFilesystem", MkField true isBool);
   ("procMount", MkField true (oneOf ["Default"]));
   ("seccompProfile", MkField true profileHonoured);
   ("appArmorProfile", MkField true profileHonoured)].

Fixpoint table_get (table : list (string * securityField)) (key : string) : option securityField :=
  match table with
  | [] => None
  | (k, f) :: table' => if (k =? key)%string then Some f else table_get table' key
  end.

Definition securityNeedsKubernetes (sc : vmap) (table : list (string * securityField)) : bool :=
  existsb (λ kv, negb (is_null kv.2) &&
    match table_get table kv.1 with
    | None => true
    | Some f => (f_tierB f && negb hostHonoursHardeningFields) || negb (f_honoured f kv.2)
    end) sc.

Definition podSecurityNeedsKubernetes (sc : vmap) : bool :=
  securityNeedsKubernetes sc podSecurityFields.
Definition containerSecurityNeedsKubernetes (sc : vmap) : bool :=
  securityNeedsKubernetes sc containerSecurityFields.

Definition nonempty_map (v : val) : bool :=
  match v with VMap (_ :: _) => true | _ => false end.

Definition HasSecurityContext (pt : option PodTemplate) : bool :=
  match pt with
  | None => false
  | Some p => nonempty_map (vat (pt_Spec p) "securityContext")
              || existsb (λ c, nonempty_map (vat c "securityContext")) (PodTemplateContainers pt)
  end.

(** ** The apply-time check *)

Definition validate_field (path : text) (sc : vmap) (pod : bool) (key : string) : res unit :=
  match vat sc key with
  | VNull => Ok tt
  | v =>
      if (key =? "runAsUser")%string || (key =? "runAsGroup")%string || (pod && (key =? "fsGroup")%string)
      then _ ← securityID (field path key) v; Ok tt
      else if pod && (key =? "supplementalGroups")%string then _ ← idList sc key path; Ok tt
      else if pod && (key =? "fsGroupChangePolicy")%string
           then checkEnum (field path key) v ["Always"; "OnRootMismatch"]
      else if pod && (key =? "supplementalGroupsPolicy")%string
           then checkEnum (field path key) v ["Merge"; "Strict"]
      else Ok tt
  end.

Definition validateSecurityContext (path : text) (sc : vmap) (pod : bool) : res unit :=
  each (λ _, validate_field path sc pod) (SortStrings sc.*1).

Definition validate_sc_value (path : text) (v : val) (pod : bool) : res unit :=
  match v with
  | VNull => Ok tt
  | VMap sc => validateSecurityContext path sc pod
  | _ => Err (path ++ [Lit ": must be a map"] ++ got v)
  end.

Definition validatePodTemplateSecurityContext (pt : option PodTemplate) : res unit :=
  match pt with
  | None => Ok tt
  | Some pt =>
      _ ← validate_sc_value podPath (vat (pt_Spec pt) "securityContext") true;
      each (λ i r, match r with
                   | VMap c => validate_sc_value
                       [Lit "podTemplate.spec.containers["; Lit (pretty i); Lit "].securityContext"]
                       (vat c "securityContext") false
                   | _ => Ok tt
                   end) (as_list (vat (pt_Spec pt) "containers"))
  end.

(** ** podtemplate.go *)

Definition HostSupportedContainerFields : list string :=
  ["name"; "image"; "env"; "resources"; "command"; "args"; "securityContext"].

Definition limit_needs (kv : string * val) : bool :=
  if (kv.1 =? "cpu")%string || (kv.1 =? "memory")%string
  then match kv.2 with VStr _ => false | _ => true end
  else true.

Definition resources_need (v : val) : bool :=
  match v with
  | VMap m =>
      nonempty_map (vat m "requests")
      || existsb (λ kv, negb (kv.1 =? "limits")%string && negb (kv.1 =? "requests")%string) m
      || match vat m "limits" with VMap lim => existsb limit_needs lim | _ => false end
  | _ => false
  end.

Definition env_entry_needs (v : val) : bool :=
  match v with
  | VMap e => negb (as_str (vat e "name") =? "")%string
              && match vget e "value" with None => true | Some _ => false end
  | _ => false
  end.

Definition sc_needs (check : vmap → bool) (v : val) : bool :=
  match v with VNull => false | VMap sc => check sc | _ => true end.

Definition containerNeedsKubernetes (c : vmap) : bool :=
  resources_need (vat c "resources")
  || sc_needs containerSecurityNeedsKubernetes (vat c "securityContext")
  || existsb env_entry_needs (as_list (vat c "env")).

Definition PodTemplateNeedsKubernetes (pt : option PodTemplate) : bool :=
  match pt with
  | None => false
  | Some p =>
      negb (pt_Name p =? "")%string
      || bool_decide (is_Some (pt_Override p))
      || existsb (λ kv, if (kv.1 =? "containers")%string then false
                        else if (kv.1 =? "securityContext")%string
                             then sc_needs podSecurityNeedsKubernetes kv.2
                        else true) (pt_Spec p)
      || existsb (λ c, existsb (λ kv, bool_decide (kv.1 ∉ HostSupportedContainerFields)) c
                       || containerNeedsKubernetes c) (PodTemplateContainers pt)
  end.

(** ** capabilities.go *)

Definition CapNative : string := "native".
Definition CapContainer : string := "container".
Definition CapPod : string := "pod".
Definition CapSecurityContext : string := "securitycontext".

Definition NormalizeCapabilities (caps : list string) : list string :=
  if bool_decide (CapPod ∈ caps) && negb (bool_decide (CapSecurityContext ∈ caps))
  then caps ++ [CapSecurityContext] else caps.

Definition LegacyAgentCapabilities : list string := [CapNative; CapContainer].

Definition ValidCapability (s : string) : bool :=
  (s =? CapNative)%string || (s =? CapContainer)%string || (s =? CapPod)%string
  || (s =? CapSecurityContext)%string.

Definition RequiredCaps (spec : Spec) : list string :=
  if sp_Native spec then [CapNative]
  else if PodTemplateNeedsKubernetes (sp_PodTemplate spec) then [CapPod]
  else if HasSecurityContext (sp_PodTemplate spec) then [CapContainer; CapSecurityContext]
  else [CapContainer].

Definition RequiredVolumes (spec : Spec) : list (list string) := vm_Name <$> sp_Volumes spec.
End security.

(** ** Facts *)

Lemma vget_elem m k v : vget m k = Some v → (k, v) ∈ m.
Proof.
  induction m as [|[k' v'] m IH]; simpl; [done|].
  destruct (String.eqb_spec k' k) as [->|]; [intros [= ->]; left|right; auto].
Qed.

Lemma map_items_is_ok {A} (f : text → val → res A) path l : ∀ i,
  (∀ v p, v ∈ l → is_ok (f p v) = true) → is_ok (map_items f path i l) = true.
Proof.
  induction l as [|v l IH]; intros i H; [done|]. cbn [map_items]. apply bind_is_ok.
  destruct (proj1 (is_ok_spec _) (H v (item path i) ltac:(left))) as [a Ha]. exists a. split; [done|].
  apply bind_is_ok. destruct (proj1 (is_ok_spec _) (IH (S i) ltac:(intros; apply H; by right))) as [r Hr].
  eauto.
Qed.

Lemma securityID_path gs p q v : is_ok (securityID gs p v) = is_ok (securityID gs q v).
Proof. destruct v; simpl; try done; by destruct (_ && _) || destruct (in_range _). Qed.

Section facts.
Variable gs : val → string.

Lemma optionalID_ok sc key path :
  vat sc key = VNull ∨ isID gs (vat sc key) = true → is_ok (optionalID gs sc key path) = true.
Proof.
  unfold optionalID, isID. intros H. destruct (vat sc key) as [| | | | | |] eqn:E; try done;
    (destruct H as [|H]; [done|]); rewrite (securityID_path _ _ (field path key)) in H;
    apply is_ok_spec in H as [r Hr]; by rewrite Hr.
Qed.

Lemma idList_ok sc key path :
  vat sc key = VNull ∨ idListHonoured gs (vat sc key) = true → is_ok (idList gs sc key path) = true.
Proof.
  unfold idList. intros H. destruct (vat sc key); try done; destruct H as [|H]; try done.
  apply map_items_is_ok. intros v p Hv. simpl in H. rewrite forallb_forall in H.
  rewrite (securityID_path _ _ []). by apply H, list_elem_of_In.
Qed.

Lemma optionalBool_ok sc key path :
  vat sc key = VNull ∨ isBool (vat sc key) = true → is_ok (optionalBool gs sc key path) = true.
Proof. unfold optionalBool. intros H. by destruct (vat sc key), H. Qed.

(** A key of the table is null or honoured, when nothing needs Kubernetes. *)
Lemma honoured_or_null sc table key f :
  securityNeedsKubernetes sc table = false → table_get table key = Some f →
  vat sc key = VNull ∨ f_honoured f (vat sc key) = true.
Proof.
  unfold securityNeedsKubernetes, vat. intros H Hf. destruct (vget sc key) as [v|] eqn:E; [|by left].
  simpl. apply vget_elem in E. rewrite existsb_false_elem in H. specialize (H _ E). simpl in H.
  rewrite Hf in H. destruct v; [by left|..]; right; simpl in H; unfold hostHonoursHardeningFields in H;
    rewrite andb_false_r in H; by apply negb_false_iff in H.
Qed.

Lemma prefer_ok {A} (get : vmap → string → text → res (option A)) pod ctr key :
  is_ok (get ctr key ctrPath) = true → is_ok (get pod key podPath) = true →
  is_ok (prefer get pod ctr key) = true.
Proof.
  intros [c Hc]%is_ok_spec Hp. unfold prefer. apply bind_is_ok. exists c. split; [done|]. by destruct c.
Qed.

Lemma capability_list cm k :
  capabilitiesHonoured (VMap cm) = true → vget cm k = None ∨
  ∃ l, vget cm k = Some (VList l) ∧ forallb (capability_honoured k) l = true.
Proof.
  simpl. rewrite forallb_forall. intros H. destruct (vget cm k) as [v|] eqn:E; [right|by left].
  apply vget_elem, list_elem_of_In in E. specialize (H _ E). simpl in H.
  apply andb_true_iff in H as [_ H]. destruct v; try done. eauto.
Qed.

Lemma stringList_ok cm k path :
  capabilitiesHonoured (VMap cm) = true →
  ∃ l, stringList gs cm k path = Ok l ∧ (k = "add" → Forall (λ s, s = "NET_BIND_SERVICE") l).
Proof.
  intros [H|(l & H & Hl)]%(capability_list cm k); unfold stringList, vat; rewrite H; simpl.
  - by exists [].
  - generalize 0. revert Hl. clear H. induction l as [|v l IH]; intros Hl i; [by exists []|].
    cbn [forallb map_items] in *. apply andb_true_iff in Hl as [Hv Hl].
    destruct (IH Hl (S i)) as (l' & El & Hf). destruct v as [| | | |s| |]; try done.
    exists (s :: l'). unfold mbind, res_bind. simpl. rewrite El. split; [done|].
    intros Hk. constructor; [|auto]. subst k. simpl in Hv.
    by destruct (String.eqb_spec s "NET_BIND_SERVICE").
Qed.

Lemma capabilities_ok ctr :
  vat ctr "capabilities" = VNull ∨ capabilitiesHonoured (vat ctr "capabilities") = true →
  ∃ drop add, capabilities_of gs ctr = Ok (drop, add) ∧ Forall (λ s, s = "NET_BIND_SERVICE") add.
Proof.
  unfold capabilities_of. intros H. destruct (vat ctr "capabilities") as [| | | | | |cm]; try by destruct H.
  - exists [], []. split; [done|constructor].
  - destruct H as [|H]; [done|].
    destruct (stringList_ok cm "drop" (field ctrPath "capabilities") H) as (d & -> & _).
    destruct (stringList_ok cm "add" (field ctrPath "capabilities") H) as (a & -> & Ha).
    exists d, a. split; [done|]. by apply Ha.
Qed.

(** A container whose settings the host honours resolves, and never adds a
    capability other than NET_BIND_SERVICE. *)
Lemma honoured_resolves pod ctr :
  podSecurityNeedsKubernetes gs pod = false → containerSecurityNeedsKubernetes gs ctr = false →
  ∃ eff, ResolveSecurity gs pod ctr = Ok eff ∧ Forall (λ s, s = "NET_BIND_SERVICE") (ef_CapAdd eff).
Proof.
  intros Hp Hc.
  pose proof (λ k f, honoured_or_null pod (podSecurityFields gs) k f Hp) as HP.
  pose proof (λ k f, honoured_or_null ctr (containerSecurityFields gs) k f Hc) as HC.
  unfold ResolveSecurity.
  destruct (proj1 (is_ok_spec _) (prefer_ok (optionalID gs) pod ctr "runAsUser"
    (optionalID_ok _ _ _ (HC "runAsUser" _ eq_refl)) (optionalID_ok _ _ _ (HP "runAsUser" _ eq_refl)))) as [uid ->].
  destruct (proj1 (is_ok_spec _) (prefer_ok (optionalID gs) pod ctr "runAsGroup"
    (optionalID_ok _ _ _ (HC "runAsGroup" _ eq_refl)) (optionalID_ok _ _ _ (HP "runAsGroup" _ eq_refl)))) as [gid ->].
  destruct (proj1 (is_ok_spec _) (idList_ok pod "supplementalGroups" podPath (HP "supplementalGroups" _ eq_refl))) as [groups ->].
  destruct (proj1 (is_ok_spec _) (optionalID_ok pod "fsGroup" podPath (HP "fsGroup" _ eq_refl))) as [fsg ->].
  destruct (proj1 (is_ok_spec _) (prefer_ok (optionalBool gs) pod ctr "runAsNonRoot"
    (optionalBool_ok _ _ _ (HC "runAsNonRoot" _ eq_refl)) (optionalBool_ok _ _ _ (HP "runAsNonRoot" _ eq_refl)))) as [nr ->].
  destruct (capabilities_ok ctr (HC "capabilities" _ eq_refl)) as (drop & add & -> & Hadd).
  destruct (proj1 (is_ok_spec _) (optionalBool_ok ctr "allowPrivilegeEscalation" ctrPath (HC "allowPrivilegeEscalation" _ eq_refl)))
    as [ape ->].
  destruct (proj1 (is_ok_spec _) (optionalBool_ok ctr "readOnlyRootFilesystem" ctrPath (HC "readOnlyRootFilesystem" _ eq_refl)))
    as [ro ->].
  unfold mbind, res_bind. pose proof (HP "fsGroupChangePolicy" _ eq_refl) as Hpol. cbn [f_honoured] in Hpol.
  destruct (vat pod "fsGroupChangePolicy") as [| | | |s| |];
    (destruct Hpol as [|Hpol]; try done); unfold checkEnum; rewrite ?Hpol;
    eexists; (split; [reflexivity|exact Hadd]).
Qed.
End facts.

(** ** Properties *)

(** The security-context map of a pod template or container (null: empty). *)
Definition sc_map (v : val) : vmap := match v with VMap m => m | _ => [] end.

(** An agent with capabilities [caps] may claim a run of [spec]. *)
Definition may_claim (gs : val → string) (caps : list string) (spec : Spec) : Prop :=
  ∀ c, c ∈ RequiredCaps gs spec → c ∈ NormalizeCapabilities caps.

(** Whatever an agent without the pod capability may claim, it can run as
    written: the job is native, or its pod template uses nothing the host drops,
    sets a security context only if the agent proved it honours one, and for
    every container the effective security resolves without an error and adds no
    capability but NET_BIND_SERVICE. *)
Theorem host_honours_what_it_claims (gs : val → string) (caps : list string) (spec : Spec)
    (Hpod : CapPod ∉ caps) (Hclaim : may_claim gs caps spec) :
  (sp_Native spec = true ∧ CapNative ∈ caps) ∨
  (CapContainer ∈ caps ∧ PodTemplateNeedsKubernetes gs (sp_PodTemplate spec) = false ∧
   (HasSecurityContext (sp_PodTemplate spec) = true → CapSecurityContext ∈ caps) ∧
   ∀ pt c, sp_PodTemplate spec = Some pt → c ∈ PodTemplateContainers (Some pt) →
     ∃ eff, ResolveSecurity gs (sc_map (vat (pt_Spec pt) "securityContext"))
                               (sc_map (vat c "securityContext")) = Ok eff ∧
            Forall (λ s, s = "NET_BIND_SERVICE") (ef_CapAdd eff)).
Proof.
  unfold may_claim, NormalizeCapabilities in Hclaim. rewrite bool_decide_eq_false_2 in Hclaim by done.
  simpl in Hclaim. unfold RequiredCaps in Hclaim.
  destruct (sp_Native spec); [left; split; [done|]; apply Hclaim; left|right].
  destruct (PodTemplateNeedsKubernetes gs (sp_PodTemplate spec)) eqn:En.
  { destruct Hpod. apply Hclaim. left. }
  split; [apply Hclaim; destruct (HasSecurityContext _); left|]. split; [done|]. split.
  { intros Hsc. rewrite Hsc in Hclaim. apply Hclaim. right. left. }
  intros pt c Hpt Hc. rewrite Hpt in En. unfold PodTemplateNeedsKubernetes in En.
  apply orb_false_iff in En as [En Hctrs]. apply orb_false_iff in En as [_ Hspec].
  rewrite existsb_false_elem in Hspec. pose proof (proj1 (existsb_false_elem _ _) Hctrs c Hc) as Hcc.
  clear Hctrs. rename Hcc into Hctrs.
  apply orb_false_iff in Hctrs as [_ Hctr]. unfold containerNeedsKubernetes in Hctr.
  apply orb_false_iff in Hctr as [Hctr _]. apply orb_false_iff in Hctr as [_ Hctr].
  apply honoured_resolves.
  - unfold vat. destruct (vget (pt_Spec pt) "securityContext") as [v|] eqn:E; [|done].
    apply vget_elem in E. specialize (Hspec _ E). simpl in Hspec. by destruct v.
  - unfold sc_needs in Hctr. by destruct (vat c "securityContext").
Qed.

Definition host_spec_example : Spec :=
  MkSpec (MkParams [] []) None [] [] []
    (Some (MkPodTemplate "" false false None None
       [("securityContext", VMap [("runAsUser", VInt 1000); ("fsGroup", VFloat 2000 true)]);
        ("containers", VList [VMap [("name", VStr "job"); ("image", VStr "alpine");
           ("securityContext", VMap [("capabilities", VMap [("add", VList [VStr "NET_BIND_SERVICE"])])])]])]))
    false false false None [] "" ∅.

Lemma host_honours_what_it_claims_witness :
  may_claim (λ _, "") ["native"; "container"; "securitycontext"] host_spec_example ∧
  PodTemplateNeedsKubernetes (λ _, "") (sp_PodTemplate host_spec_example) = false.
Proof.
  assert (may_claim (λ _, "") ["native"; "container"; "securitycontext"] host_spec_example) as H.
  { intros c Hc. vm_compute in Hc. apply list_elem_of_In in Hc. apply list_elem_of_In.
    simpl in *. tauto. }
  split; [exact H|].
  destruct (host_honours_what_it_claims (λ _, "") ["native"; "container"; "securitycontext"]
    host_spec_example) as [[Hn _]|(_ & Hk & _)].
  - intros Hin. apply list_elem_of_In in Hin. simpl in Hin.
    destruct Hin as [E|[E|[E|[]]]]; discriminate E.
  - exact H.
  - discriminate Hn.
  - exact Hk.
Defined.

(** The effective security of a container follows Kubernetes precedence: a
    user, group or non-root setting of the container wins over the pod's; the
    group list, the volume group and its policy come from the pod; privilege
    escalation and a writable root are withdrawn exactly when the container says
    so; every id lies in the 32-bit range. *)
Theorem security_precedence (gs : val → string) (pod ctr : vmap) (eff : EffectiveSecurity)
    (H : ResolveSecurity gs pod ctr = Ok eff) :
  (∀ uid, optionalID gs ctr "runAsUser" ctrPath = Ok (Some uid) → ef_UID eff = Some uid) ∧
  (vat ctr "runAsUser" = VNull → optionalID gs pod "runAsUser" podPath = Ok (ef_UID eff)) ∧
  (∀ gid, optionalID gs ctr "runAsGroup" ctrPath = Ok (Some gid) → ef_GID eff = Some gid) ∧
  (vat ctr "runAsGroup" = VNull → optionalID gs pod "runAsGroup" podPath = Ok (ef_GID eff)) ∧
  optionalID gs pod "fsGroup" podPath = Ok (ef_FSGroup eff) ∧
  idList gs pod "supplementalGroups" podPath = Ok (ef_SupplementalGroups eff) ∧
  (ef_NoNewPrivileges eff = true ↔ vat ctr "allowPrivilegeEscalation" = VBool false) ∧
  (ef_ReadOnlyRootfs eff = true ↔ vat ctr "readOnlyRootFilesystem" = VBool true) ∧
  (∀ n, ef_UID eff = Some n ∨ ef_GID eff = Some n ∨ ef_FSGroup eff = Some n → (0 ≤ n < 2 ^ 31)%Z).
Proof.
  unfold ResolveSecurity in H.
  assert (∀ sc k p n, optionalID gs sc k p = Ok (Some n) → (0 ≤ n < 2 ^ 31)%Z) as Hrange.
  { intros sc k p n. unfold optionalID, mbind, res_bind, securityID, in_range, maxSecurityID.
    destruct (vat sc k); try done.
    - destruct (_ && _) eqn:E; [|done]. intros [= <-]. apply andb_true_iff in E as [??]. lia.
    - destruct (_ && _) eqn:E; [|done]. intros [= <-]. apply andb_true_iff in E as [_ E].
      apply andb_true_iff in E as [??]. lia. }
  assert (∀ k v, prefer (optionalID gs) pod ctr k = Ok v →
    (∀ n, optionalID gs ctr k ctrPath = Ok (Some n) → v = Some n) ∧
    (vat ctr k = VNull → optionalID gs pod k podPath = Ok v) ∧
    ∀ n, v = Some n → (0 ≤ n < 2 ^ 31)%Z) as Hpref.
  { intros k v. unfold prefer, mbind, res_bind. destruct (optionalID gs ctr k ctrPath) as [[c|]|] eqn:E; [| |done].
    - intros [= <-]. split; [by intros n [= <-]|]. split.
      + intros Hn. unfold optionalID in E. by rewrite Hn in E.
      + intros n [= <-]. by eapply Hrange.
    - intros Hp. split; [done|]. split; [done|]. intros n ->. by eapply Hrange. }
  destruct (prefer (optionalID gs) pod ctr "runAsUser") as [uid|] eqn:Eu; [|done].
  destruct (Hpref _ _ Eu) as (Hu1 & Hu2 & Hu3).
  destruct (prefer (optionalID gs) pod ctr "runAsGroup") as [gid|] eqn:Eg; [|done].
  destruct (Hpref _ _ Eg) as (Hg1 & Hg2 & Hg3). clear Hpref Eu Eg.
  unfold mbind, res_bind in H.
  destruct (idList _ _ _ _) as [groups|] eqn:El; [|done].
  destruct (optionalID gs pod "fsGroup" podPath) as [fsg|] eqn:Ef; [|done].
  match type of H with match ?x with Ok _ => _ | Err _ => _ end = _ => destruct x; [|done] end.
  destruct (prefer (optionalBool gs) _ _ _); [|done].
  destruct (capabilities_of _ _); [|done].
  destruct (optionalBool gs ctr "allowPrivilegeEscalation" ctrPath) as [ape|] eqn:Ea; [|done].
  destruct (optionalBool gs ctr "readOnlyRootFilesystem" ctrPath) as [ro|] eqn:Er; [|done].
  injection H as <-. cbn. unfold optionalBool in Ea, Er.
  split; [done|]. split; [done|]. split; [done|]. split; [done|]. split; [done|]. split; [done|].
  split; [|split].
  - destruct (vat ctr "allowPrivilegeEscalation") as [|b| | | | |]; try done; injection Ea as <-.
    + split; done.
    + destruct b; split; try done.
  - destruct (vat ctr "readOnlyRootFilesystem") as [|b| | | | |]; try done; injection Er as <-.
    + split; done.
    + destruct b; split; try done.
  - intros n [Hn|[Hn|Hn]]; [by apply Hu3|by apply Hg3|]. rewrite Hn in Ef. by eapply Hrange.
Qed.

Lemma security_precedence_witness :
  ∃ eff, ResolveSecurity (λ _, "") [("runAsUser", VInt 1000)] [("runAsUser", VInt 7)] = Ok eff ∧
         ef_UID eff = Some 7%Z.
Proof.
  eexists. split; [vm_compute; reflexivity|].
  apply (security_precedence (λ _, "") [("runAsUser", VInt 1000)] [("runAsUser", VInt 7)] _
           ltac:(vm_compute; reflexivity)). vm_compute. reflexivity.
Defined.
