(* ===== verification/DslMatrix.v ===== *)
(** * internal/dsl: foreach and matrix expansion

    Models [foreach.go], [matrix.go] and the data of a template context
    ([template.go]).  Executing a Go text/template and decoding JSON are
    parameters; the loops, the combination cap, the keys and the exclusion rules
    are the code's. *)

From S2P Require Import Prelude GoStrings DslTypes.
From stdpp Require Import options.

(** ** The template context *)

(** An output value: a plain string, or a matrix step's values by combination
    key. *)
Inductive output := OStr (s : string) | OMap (m : gmap string string).

#[export] Instance output_eq_dec : EqDecision output.
Proof. solve_decision. Defined.

Record StepData := MkStepData {
  sd_Outputs : option (gmap string output); (* None: a nil map *)
  sd_ChildRunID : option output             (* None: nil *)
}.

Record TemplateData := MkTemplateData {
  td_Params : gmap string string;
  td_Vars : gmap string string;
  td_Steps : gmap string StepData;
  td_Stdout : string;
  td_Secrets : gmap string string;
  td_Foreach : gmap string string;
  td_Matrix : gmap string string
}.

Definition TemplateData_zero : TemplateData := MkTemplateData ∅ ∅ ∅ "" ∅ ∅ ∅.

Definition StringOutputs (m : option (gmap string string)) : option (gmap string output) :=
  match m with None => None | Some m => Some (OStr <$> m) end.

(** ** Sources and combinations *)

Definition DefaultMatrixMaxCombinations : Z := 64.

Record MatrixCombo := MkMatrixCombo { mc_Values : gmap string string; mc_Key : string }.

(** An entry excludes a combination when all its pairs agree; a dimension the
    combination lacks reads as the empty string. *)
Definition exclude_matches (values ex : gmap string string) : bool :=
  negb (bool_decide (ex = ∅))
  && forallb (λ kv, (default "" (values !! kv.1) =? kv.2)%string) (map_to_list ex).

Definition matchesAnyExclude (values : gmap string string) (exclude : list (gmap string string)) : bool :=
  existsb (exclude_matches values) exclude.

(** One combination with one more dimension. *)
Definition extend (c : MatrixCombo) (dv : string * string) : MatrixCombo :=
  MkMatrixCombo (<[dv.1 := dv.2]> (mc_Values c))
    (if negb (mc_Key c =? "")%string then mc_Key c +:+ "/" +:+ dv.2 else dv.2).

Definition too_many (n max : Z) : text :=
  [Lit "matrix expands to "; Lit (pretty n); Lit " combinations, exceeding the limit of "; Lit (pretty max)].

Section expansion.
(** [ExpandTemplate], [json.Unmarshal] into a [[]string] ([None]: an error), and
    the context the sources are evaluated in. *)
Variables (ExpandTemplate : string → TemplateData → res string)
          (json_strings : string → option (list string)).

Definition EvalForeachSource (src : ForeachSource) (data : TemplateData) : res (list string) :=
  match fs_Literal src with
  | _ :: _ => Ok (fs_Literal src)
  | [] =>
      let expr := fs_Expr src in
      if HasPrefix expr "$" then
        let paramName := TrimPrefix expr "$" in
        match td_Params data !! paramName with
        | None => Err [Lit "param "; Quo paramName; Lit " not found"]
        | Some raw => Ok (match json_strings raw with
                          | Some items => items
                          | None => Split "," raw
                          end)
        end
      else
        result ← ExpandTemplate expr data;
        let result := TrimSpace result in
        if (result =? "")%string then Ok []
        else
          let result := TrimSuffix (TrimPrefix result "[") "]" in
          let parts := Fields result in
          let parts := if bool_decide (length parts = 1) then Split "," result else parts in
          Ok (TrimSpace <$> parts)
  end.

(** The two nested loops of one dimension, and the check of each value. *)
Definition extend_checked (name : string) (cv : MatrixCombo * string) : res MatrixCombo :=
  let '(c, v) := cv in
  _ ← fail_if (Contains v "/")
        [Lit "matrix."; Lit name; Lit ": value "; Quo v; Lit " must not contain "; Quo "/";
         Lit " (reserved as the combination key separator)"];
  Ok (extend c (name, v)).

Definition pairs (combos : list MatrixCombo) (items : list string) : list (MatrixCombo * string) :=
  combos ≫= λ c, (λ v, (c, v)) <$> items.

Definition expand_dimension (data : TemplateData) (maxCombos : Z) (combos : list MatrixCombo)
    (dim : MatrixDimension) : res (list MatrixCombo) :=
  items ← wrap [Lit "matrix."; Lit (md_Name dim); Lit ": "] (EvalForeachSource (md_Source dim) data);
  let n := Z.of_nat (length items) in
  let k := Z.of_nat (length combos) in
  _ ← fail_if (negb (n =? 0)%Z && (maxCombos / n <? k)%Z) (too_many (k * n) maxCombos);
  map_res (extend_checked (md_Name dim)) (pairs combos items).

Definition EvalMatrix (def : MatrixDef) (data : TemplateData) (maxCombos : Z)
  : res (list MatrixCombo) :=
  let maxCombos := if (maxCombos <=? 0)%Z then DefaultMatrixMaxCombinations else maxCombos in
  _ ← fail_if (bool_decide (mx_Dimensions def = [])) [Lit "matrix has no dimensions"];
  combos ← fold_res (expand_dimension data maxCombos) [MkMatrixCombo ∅ ""] (mx_Dimensions def);
  let filtered := filter (λ c, matchesAnyExclude (mc_Values c) (mx_Exclude def) = false) combos in
  _ ← fail_if (maxCombos <? Z.of_nat (length filtered))%Z
        (too_many (Z.of_nat (length filtered)) maxCombos);
  Ok filtered.

(** ** Specification: the filtered cartesian product *)

(** The assignments of values to dimensions, the first dimension slowest. *)
Fixpoint product (l : list (string * list string)) : list (list (string * string)) :=
  match l with
  | [] => [[]]
  | (d, vs) :: l' => vs ≫= λ v, cons (d, v) <$> product l'
  end.

Definition combo_of (t : list (string * string)) : MatrixCombo :=
  foldl extend (MkMatrixCombo ∅ "") t.

Definition cap (maxCombos : Z) : Z :=
  if (maxCombos <=? 0)%Z then DefaultMatrixMaxCombinations else maxCombos.

(** What the dimensions evaluate to. *)
Definition evaluates (def : MatrixDef) (data : TemplateData) (dims : list (string * list string)) : Prop :=
  Forall2 (λ d dv, dv.1 = md_Name d ∧ EvalForeachSource (md_Source d) data = Ok dv.2)
    (mx_Dimensions def) dims.

(** The running number of combinations [k] never exceeds the cap, and no value
    that is combined with at least one combination contains the separator. *)
Fixpoint fits (max : Z) (k : nat) (dims : list (string * list string)) : Prop :=
  match dims with
  | [] => True
  | (_, vs) :: dims' =>
      (Z.of_nat (k * length vs) ≤ max)%Z ∧ (k ≠ 0 → Forall (λ v, has_byte "/" v = false) vs)
      ∧ fits max (k * length vs) dims'
  end.

End expansion.

(** ** Facts *)

Lemma map_res_pure {A B} (f : A → res B) (g : A → B) (P : A → Prop) l l' :
  (∀ x y, f x = Ok y ↔ P x ∧ y = g x) →
  map_res f l = Ok l' ↔ Forall P l ∧ l' = g <$> l.
Proof.
  intros Hf. revert l'. induction l as [|x l IH]; intros l'; cbn [map_res].
  - split; [intros [= <-]; by split|by intros [_ ->]].
  - rewrite bind_ok. setoid_rewrite bind_ok. setoid_rewrite Hf. setoid_rewrite IH.
    rewrite Forall_cons, fmap_cons. split.
    + by intros (y & [HP ->] & ys & [HF ->] & [= <-]).
    + intros [[HP HF] ->]. eauto 10.
Qed.

Lemma elem_of_pairs combos items c v : (c, v) ∈ pairs combos items ↔ c ∈ combos ∧ v ∈ items.
Proof.
  unfold pairs. rewrite list_elem_of_bind. setoid_rewrite list_elem_of_fmap. split.
  - by intros (c' & (v' & [= -> ->] & Hv) & Hc).
  - intros [Hc Hv]. exists c. split; [by exists v|done].
Qed.

Lemma length_pairs combos items : length (pairs combos items) = length combos * length items.
Proof.
  unfold pairs. induction combos as [|c l IH]; [done|].
  rewrite bind_cons, length_app, length_fmap, IH. done.
Qed.

Lemma Forall_pairs (P : string → Prop) combos items :
  Forall (λ cv, P cv.2) (pairs combos items) ↔ (length combos ≠ 0 → Forall P items).
Proof.
  rewrite !Forall_forall. split.
  - intros H Hne v Hv. destruct combos as [|c l]; [done|].
    apply (H (c, v)), elem_of_pairs. split; [left|done].
  - intros H [c v] [Hc Hv]%elem_of_pairs. apply H; [|done].
    intros E%nil_length_inv. subst. by apply not_elem_of_nil in Hc.
Qed.

Lemma extend_checked_ok name cv c' :
  extend_checked name cv = Ok c' ↔ has_byte "/" cv.2 = false ∧ c' = extend cv.1 (name, cv.2).
Proof.
  destruct cv as [c v]. unfold extend_checked.
  rewrite then_ok, fail_if_ok, (Contains_byte "/" v). cbn [fst snd]. split; intros [H1 H2]; split; congruence.
Qed.

(** The early test of the running size, without the division. *)
Lemma size_check (max : Z) (k n : nat) :
  (1 ≤ max)%Z →
  negb (Z.of_nat n =? 0)%Z && (max / Z.of_nat n <? Z.of_nat k)%Z = false ↔ (Z.of_nat (k * n) ≤ max)%Z.
Proof.
  intros Hmax. destruct (Z.eqb_spec (Z.of_nat n) 0) as [E|E]; simpl.
  - split; [intros _|done]. rewrite Nat2Z.inj_mul, E, Z.mul_0_r. lia.
  - rewrite Z.ltb_ge, Nat2Z.inj_mul. split; intros H.
    + pose proof (Z.mul_div_le max (Z.of_nat n) ltac:(lia)). nia.
    + apply Z.div_le_lower_bound; lia.
Qed.

Section facts.
Context (ET : string → TemplateData → res string) (js : string → option (list string)) (data : TemplateData).

Definition source_is (d : MatrixDimension) (dv : string * list string) : Prop :=
  dv.1 = md_Name d ∧ EvalForeachSource ET js (md_Source d) data = Ok dv.2.

Lemma expand_dimension_ok max combos d combos' :
  (1 ≤ max)%Z →
  expand_dimension ET js data max combos d = Ok combos' ↔
  ∃ vs, source_is d (md_Name d, vs) ∧
        (Z.of_nat (length combos * length vs) ≤ max)%Z ∧
        (length combos ≠ 0 → Forall (λ v, has_byte "/" v = false) vs) ∧
        combos' = combos ≫= λ c, (λ v, extend c (md_Name d, v)) <$> vs.
Proof.
  intros Hmax. unfold expand_dimension, source_is. rewrite bind_ok. setoid_rewrite wrap_ok.
  f_equiv. intros vs. rewrite then_ok, fail_if_ok, size_check by done.
  rewrite (map_res_pure _ (λ cv, extend cv.1 (md_Name d, cv.2)) (λ cv, has_byte "/" cv.2 = false))
    by apply extend_checked_ok.
  rewrite (Forall_pairs (λ v, has_byte "/" v = false)).
  assert ((λ cv : MatrixCombo * string, extend cv.1 (md_Name d, cv.2)) <$> pairs combos vs
          = combos ≫= λ c, (λ v, extend c (md_Name d, v)) <$> vs) as ->.
  { unfold pairs. induction combos as [|c l IH]; [done|].
    rewrite !bind_cons, fmap_app, <-list_fmap_compose. f_equal. apply IH. }
  cbn [fst snd]. naive_solver.
Qed.

(** All the dimensions from some combinations on. *)
Lemma expand_dimensions_ok max ds :
  (1 ≤ max)%Z → ∀ combos combos',
  fold_res (expand_dimension ET js data max) combos ds = Ok combos' ↔
  ∃ dims, Forall2 source_is ds dims ∧ fits max (length combos) dims ∧
          combos' = combos ≫= λ c, foldl extend c <$> product dims.
Proof.
  intros Hmax. induction ds as [|d ds IH]; intros combos combos'.
  - cbn [fold_res]. split.
    + intros [= <-]. exists []. split; [constructor|]. split; [done|].
      induction combos as [|c l IH]; [done|]. rewrite bind_cons, <-IH. done.
    + intros (dims & ->%Forall2_nil_inv_l & _ & ->). f_equal.
      induction combos as [|c l IH]; [done|]. rewrite bind_cons, <-IH. done.
  - rewrite fold_res_cons. setoid_rewrite expand_dimension_ok; [|done..]. setoid_rewrite IH.
    assert (∀ vs : list string,
      length (combos ≫= λ c, (λ v, extend c (md_Name d, v)) <$> vs) = length combos * length vs) as Hlen.
    { intros vs. clear. induction combos as [|c l IH]; [done|].
      rewrite bind_cons, length_app, IH, length_fmap. done. }
    assert (∀ (vs : list string) dims,
      ((combos ≫= λ c, (λ v, extend c (md_Name d, v)) <$> vs) ≫= λ c, foldl extend c <$> product dims)
      = combos ≫= λ c, foldl extend c <$> product ((md_Name d, vs) :: dims)) as Hassoc.
    { intros vs dims. clear. induction combos as [|c l IH]; [done|].
      rewrite !bind_cons, bind_app, IH. f_equal. cbn [product]. clear.
      induction vs as [|v vs IH]; [done|].
      rewrite fmap_cons, !bind_cons, fmap_app, <-list_fmap_compose, IH. done. }
    split.
    + intros (s' & (vs & Hsrc & Hmx & Hsep & ->) & dims & HF & Hfit & ->).
      exists ((md_Name d, vs) :: dims). rewrite Hlen in Hfit. rewrite Hassoc.
      split; [by constructor|]. split; [by split|done].
    + intros (dims & HF & Hfit & ->). apply Forall2_cons_inv_l in HF as ([nm vs] & dims' & Hsrc & HF & ->).
      pose proof Hsrc as [Hnm _]. simpl in Hnm. subst nm. destruct Hfit as (Hmx & Hsep & Hfit).
      eexists. split; [by exists vs|]. exists dims'. rewrite Hlen, Hassoc. done.
Qed.

(** ** Keys *)

(** The values of a combination that its key shows: the empty ones in front are
    lost. *)
Fixpoint strip (vs : list string) : list string :=
  match vs with
  | [] => []
  | v :: vs' => if (v =? "")%string then strip vs' else vs
  end.

Lemma strip_length vs : ∃ k, vs = replicate k "" ++ strip vs.
Proof.
  induction vs as [|v vs [k IH]]; [by exists 0|]. simpl.
  destruct (String.eqb_spec v "") as [->|]; [|by exists 0]. exists (S k). simpl. by f_equal.
Qed.

Lemma strip_inj vs ws : length vs = length ws → strip vs = strip ws → vs = ws.
Proof.
  intros Hl Hs. destruct (strip_length vs) as [j Hj], (strip_length ws) as [k Hk].
  rewrite Hj, Hk, !length_app, !length_replicate, Hs in Hl.
  rewrite Hj, Hk, Hs. by replace j with k by lia.
Qed.

Lemma strip_first vs : match strip vs with [] => True | v :: _ => v ≠ "" end.
Proof. induction vs as [|v vs IH]; [done|]. simpl. by destruct (String.eqb_spec v ""). Qed.

Lemma key_from_nonempty t c :
  mc_Key c ≠ "" → mc_Key (foldl extend c t) = Join "/" (mc_Key c :: t.*2).
Proof.
  revert c. induction t as [|[d v] t IH]; intros c Hc; [done|]. cbn [foldl].
  assert (mc_Key (extend c (d, v)) = mc_Key c +:+ "/" +:+ v) as E.
  { unfold extend. cbn [mc_Key]. by apply String.eqb_neq in Hc as ->. }
  rewrite IH by (rewrite E; by destruct (mc_Key c)). rewrite E, fmap_cons. cbn [snd].
  rewrite (Join_cons _ (mc_Key c)) by done.
  destruct (t.*2) as [|w ws]; [done|]. rewrite !Join_cons by done. by rewrite <-!str_app_assoc.
Qed.

Lemma combo_key t : mc_Key (combo_of t) = Join "/" (strip t.*2).
Proof.
  unfold combo_of.
  enough (∀ c, mc_Key c = "" → mc_Key (foldl extend c t) = Join "/" (strip t.*2)) as H by by apply H.
  induction t as [|[d v] t IH]; intros c Hc; [done|]. cbn [foldl]. rewrite fmap_cons. cbn [strip snd].
  assert (mc_Key (extend c (d, v)) = v) as E by (unfold extend; cbn [mc_Key]; by rewrite Hc).
  destruct (String.eqb_spec v "") as [->|Hv]; [by apply IH|].
  rewrite key_from_nonempty by by rewrite E. by rewrite E.
Qed.

Lemma combo_values_from t c d :
  d ∉ t.*1 → mc_Values (foldl extend c t) !! d = mc_Values c !! d.
Proof.
  revert c. induction t as [|[d' v] t IH]; intros c; [done|].
  rewrite fmap_cons, not_elem_of_cons. intros [Hne Hd]. cbn [foldl]. rewrite IH by done.
  unfold extend. cbn [mc_Values fst snd] in *. by apply lookup_insert_ne.
Qed.

Lemma elem_of_product dims t :
  t ∈ product dims ↔ Forall2 (λ dv dvs, dv.1 = dvs.1 ∧ dv.2 ∈ dvs.2) t dims.
Proof.
  revert t. induction dims as [|[d vs] dims IH]; intros t; cbn [product].
  - rewrite list_elem_of_singleton. split; [by intros ->|by intros ->%Forall2_nil_inv_r].
  - rewrite list_elem_of_bind. setoid_rewrite list_elem_of_fmap. setoid_rewrite IH. split.
    + intros (v & (t' & -> & HF) & Hv). by constructor.
    + intros ([d' v] & t' & [H1 H2] & HF & ->)%Forall2_cons_inv_r. simpl in *. subst d'. eauto 10.
Qed.

Lemma product_NoDup dims :
  Forall (λ dv, NoDup dv.2) dims → NoDup (product dims).
Proof.
  induction dims as [|[d vs] dims IH]; cbn [product]; [intros _; apply NoDup_singleton|].
  intros [Hvs Hd]%Forall_cons. cbn [snd] in Hvs. apply IH in Hd. clear IH.
  induction vs as [|v vs IHv]; [constructor|]. apply NoDup_cons in Hvs as [Hv Hvs].
  rewrite bind_cons. apply NoDup_app. split; [|split; [|by apply IHv]].
  - apply NoDup_fmap_2; [|done]. intros x y [= ->]. done.
  - intros t (t' & -> & _)%list_elem_of_fmap. rewrite list_elem_of_bind. setoid_rewrite list_elem_of_fmap.
    intros (w & (t2 & [= -> ->] & _) & Hw). done.
Qed.

Definition separated (dims : list (string * list string)) : Prop :=
  Forall (λ dv, Forall (λ v, has_byte "/" v = false) dv.2) dims.

(** Different assignments have different keys. *)
Lemma combo_key_inj dims t u :
  separated dims → t ∈ product dims → u ∈ product dims →
  mc_Key (combo_of t) = mc_Key (combo_of u) → t = u.
Proof.
  unfold separated. rewrite !elem_of_product, !combo_key. intros Hsep Ht Hu Hk.
  assert (∀ x, Forall2 (λ dv dvs, dv.1 = dvs.1 ∧ dv.2 ∈ dvs.2) x dims →
    x.*1 = dims.*1 ∧ Forall (λ v, has_byte "/" v = false) (strip x.*2)) as Hx.
  { clear Ht Hu Hk. intros x HF. split.
    - induction HF as [|[d v] [d' vs] x l [H1 _] HF IH]; [done|]. rewrite !fmap_cons. simpl in *.
      apply Forall_cons in Hsep as [_ Hsep]. by rewrite H1, IH.
    - destruct (strip_length x.*2) as [k Hstrip].
      assert (Forall (λ v, has_byte "/" v = false) x.*2) as HA.
      { clear -HF Hsep. induction HF as [|[d v] [d' vs] x l [_ H2] HF IH]; [constructor|].
        apply Forall_cons in Hsep as [Hv Hsep]. rewrite fmap_cons. constructor; [|by apply IH].
        simpl in *. by apply (proj1 (Forall_forall _ _) Hv). }
      rewrite Hstrip in HA. by apply Forall_app in HA as [_ HA]. }
  destruct (Hx t Ht) as [Ht1 Ht2], (Hx u Hu) as [Hu1 Hu2].
  assert (strip t.*2 = strip u.*2) as Hs.
  { pose proof (strip_first t.*2). pose proof (strip_first u.*2).
    destruct (strip t.*2) as [|a l] eqn:E1, (strip u.*2) as [|b l'] eqn:E2; [done| | |].
    - destruct b; [done|]. by destruct l'.
    - destruct a; [done|]. by destruct l.
    - rewrite <-(Split_Join "/" (a :: l)), <-(Split_Join "/" (b :: l')) by done. by rewrite Hk. }
  apply strip_inj in Hs; [|rewrite !length_fmap; apply Forall2_length in Ht, Hu; congruence].
  assert (∀ x : list (string * string), x = zip x.*1 x.*2) as Hz by (intros; by rewrite zip_fst_snd).
  rewrite (Hz t), (Hz u). by rewrite Ht1, Hu1, Hs.
Qed.
End facts.

Lemma length_product d vs dims : length (product ((d, vs) :: dims)) = length vs * length (product dims).
Proof.
  cbn [product]. induction vs as [|v vs IH]; [done|]. rewrite bind_cons, length_app, length_fmap, IH. done.
Qed.

Lemma fits_size max k dims :
  (Z.of_nat k ≤ max)%Z → fits max k dims → (Z.of_nat (k * length (product dims)) ≤ max)%Z.
Proof.
  revert k. induction dims as [|[d vs] dims IH]; intros k Hk.
  - intros _. change (length (product [])) with 1. by rewrite Nat.mul_1_r.
  - intros (H1 & _ & H2). rewrite length_product, Nat.mul_assoc. by apply IH.
Qed.

Lemma fits_separated max k dims :
  k ≠ 0 → product dims ≠ [] → fits max k dims → separated dims.
Proof.
  revert k. induction dims as [|[d vs] dims IH]; intros k Hk; [constructor|].
  intros Hp (_ & Hv & Hf). rewrite <-length_zero_iff_nil, length_product, Nat.eq_mul_0 in Hp.
  constructor; [by apply Hv|]. apply (IH (k * length vs)); [rewrite Nat.eq_mul_0; tauto| |done].
  rewrite <-length_zero_iff_nil. tauto.
Qed.

Lemma start_product dims :
  ([MkMatrixCombo ∅ ""] ≫= λ c, foldl extend c <$> product dims) = combo_of <$> product dims.
Proof. rewrite bind_cons. by apply app_nil_r. Qed.

Lemma cap_pos m : (1 ≤ cap m)%Z.
Proof. unfold cap, DefaultMatrixMaxCombinations. destruct (Z.leb_spec m 0); lia. Qed.

(** ** Properties *)

(** Expanding a matrix gives exactly the cartesian product of what its
    dimensions evaluate to, in declaration order with the first dimension
    slowest, without the excluded combinations; it succeeds exactly when there is
    a dimension, every dimension evaluates, the running product never exceeds the
    cap, and no value that takes part contains the key separator. *)
Theorem eval_matrix_exact (ET : string → TemplateData → res string)
    (js : string → option (list string)) (def : MatrixDef) (data : TemplateData) (maxCombos : Z)
    (combos : list MatrixCombo) :
  EvalMatrix ET js def data maxCombos = Ok combos ↔
  mx_Dimensions def ≠ [] ∧
  ∃ dims, evaluates ET js def data dims ∧ fits (cap maxCombos) 1 dims ∧
    combos = filter (λ c, matchesAnyExclude (mc_Values c) (mx_Exclude def) = false)
                    (combo_of <$> product dims).
Proof.
  unfold EvalMatrix. cbv zeta. fold (cap maxCombos).
  pose proof (cap_pos maxCombos) as Hcap.
  rewrite then_ok, fail_if_ok, bool_decide_eq_false, bind_ok. f_equiv.
  setoid_rewrite expand_dimensions_ok; [|done]. change (length [MkMatrixCombo ∅ ""]) with 1.
  unfold evaluates, source_is. split.
  - intros (all & (dims & HF & Hfit & ->) & H). rewrite then_ok, start_product in H.
    destruct H as [_ [= <-]]. by exists dims.
  - intros (dims & HF & Hfit & ->). eexists. split; [by exists dims|]. rewrite start_product.
    rewrite then_ok, fail_if_ok, Z.ltb_ge. split; [|done].
    apply fits_size in Hfit; [|done]. rewrite Nat.mul_1_l in Hfit.
    etrans; [|exact Hfit]. rewrite <-(length_fmap combo_of (product dims)).
    apply Nat2Z.inj_le, length_filter.
Qed.

(** An expansion never has more combinations than the cap; a combination is
    determined by its key, although the key drops the empty values in front; and
    when no dimension repeats a value the keys are distinct, so the aggregated
    outputs of the copies never overwrite one another. *)
Theorem matrix_keys_unique (ET : string → TemplateData → res string)
    (js : string → option (list string)) (def : MatrixDef) (data : TemplateData) (maxCombos : Z)
    (combos : list MatrixCombo) (Hok : EvalMatrix ET js def data maxCombos = Ok combos) :
  (Z.of_nat (length combos) ≤ cap maxCombos)%Z ∧
  (∀ c d, c ∈ combos → d ∈ combos → mc_Key c = mc_Key d → c = d) ∧
  (Forall (λ dim, ∀ vs, EvalForeachSource ET js (md_Source dim) data = Ok vs → NoDup vs)
     (mx_Dimensions def) → NoDup (mc_Key <$> combos)).
Proof.
  unfold EvalMatrix in Hok. cbv zeta in Hok. fold (cap maxCombos) in Hok.
  rewrite then_ok, fail_if_ok, bool_decide_eq_false, bind_ok in Hok.
  destruct Hok as (_ & all & Hf & Hok). rewrite then_ok, fail_if_ok, Z.ltb_ge in Hok.
  destruct Hok as [Hlen [= <-]]. split; [done|].
  pose proof (cap_pos maxCombos) as Hcap.
  apply expand_dimensions_ok in Hf as (dims & HF & Hfit & ->); [|done]. rewrite start_product.
  change (length [MkMatrixCombo ∅ ""]) with 1 in Hfit.
  assert (∀ t u, t ∈ product dims → u ∈ product dims →
    mc_Key (combo_of t) = mc_Key (combo_of u) → t = u) as Hinj.
  { intros t u Ht Hu. apply (combo_key_inj dims); [|done..].
    apply (fits_separated (cap maxCombos) 1); [done| |done].
    intros E. rewrite E in Ht. by apply not_elem_of_nil in Ht. }
  match goal with |- (∀ c d, c ∈ ?l → _) ∧ _ => set (combos := l) end.
  assert (∀ c d, c ∈ combos → d ∈ combos → mc_Key c = mc_Key d → c = d) as Hck.
  { intros c d [_ (t & -> & Ht)%list_elem_of_fmap]%list_elem_of_filter
      [_ (u & -> & Hu)%list_elem_of_fmap]%list_elem_of_filter Hk. by rewrite (Hinj t u). }
  split; [done|]. intros Hnd. apply NoDup_fmap_2_strong; [done|].
  apply NoDup_filter, NoDup_fmap_2_strong; [intros t u Ht Hu E; apply Hinj; congruence|].
  apply product_NoDup. clear -HF Hnd. induction HF as [|d dv ds dims [_ H] _ IH]; [constructor|].
  apply Forall_cons in Hnd as [Hd Hnd]. constructor; [by apply Hd|by apply IH].
Qed.

(** ** A matrix *)

Definition literal_template : string → TemplateData → res string := λ s _, Ok s.
Definition no_json : string → option (list string) := λ _, None.

Definition matrix_example : MatrixDef :=
  MkMatrixDef [MkMatrixDimension "os" (MkForeachSource ["linux"; "darwin"] "");
               MkMatrixDimension "arch" (MkForeachSource [] "$archs")]
    [<["os" := "darwin"]> (<["arch" := "amd64"]> ∅)].
Definition matrix_data : TemplateData :=
  MkTemplateData (<["archs" := "amd64,arm64"]> ∅) ∅ ∅ "" ∅ ∅ ∅.

Example matrix_example_keys :
  match EvalMatrix literal_template no_json matrix_example matrix_data 0 with
  | Ok combos => mc_Key <$> combos
  | Err _ => []
  end = ["linux/amd64"; "linux/arm64"; "darwin/arm64"].
Proof. vm_compute. reflexivity. Qed.

Definition matrix_combos : list MatrixCombo :=
  [MkMatrixCombo (<["os" := "linux"]> (<["arch" := "amd64"]> ∅)) "linux/amd64";
   MkMatrixCombo (<["os" := "linux"]> (<["arch" := "arm64"]> ∅)) "linux/arm64";
   MkMatrixCombo (<["os" := "darwin"]> (<["arch" := "arm64"]> ∅)) "darwin/arm64"].

Lemma matrix_keys_unique_witness :
  EvalMatrix literal_template no_json matrix_example matrix_data 0 = Ok matrix_combos ∧
  (∀ c d, c ∈ matrix_combos → d ∈ matrix_combos → mc_Key c = mc_Key d → c = d).
Proof.
  assert (EvalMatrix literal_template no_json matrix_example matrix_data 0 = Ok matrix_combos) as H
    by (vm_compute; reflexivity).
  split; [exact H|]. apply (matrix_keys_unique _ _ _ _ _ _ H).
Defined.
