(* ===== verification/DslCondition.v ===== *)
(** * internal/dsl: if: conditions

    Models [condition.go]: the environment an [if:] expression is evaluated in,
    the maps whose undefined keys read as the empty string and are recorded, the
    apply-time check and [EvalCondition].

    The expression language itself is cel-go's.  Compiling is a parameter; a
    compiled program is any finite interaction with the environment: it may look
    a key up in [params], [vars] or [secrets], read such a map or [steps] as a
    whole, call a status function, and finally return a value or raise an
    error. *)

From S2P Require Import Prelude GoStrings DslTypes DslMatrix.
From stdpp Require Import options.

Record RunStatusView := MkRunStatusView { rs_Failed : bool; rs_Cancelled : bool }.

Definition success (status : RunStatusView) : bool := negb (rs_Failed status) && negb (rs_Cancelled status).

(** ** Environment *)

(** The string maps of the table [conditionVars]; its remaining row, [steps], is
    a plain map. *)
Inductive string_var := VParams | VVars | VSecrets.

Definition var_name (v : string_var) : string :=
  match v with VParams => "params" | VVars => "vars" | VSecrets => "secrets" end.
Definition var_value (v : string_var) (data : TemplateData) : gmap string string :=
  match v with VParams => td_Params data | VVars => td_Vars data | VSecrets => td_Secrets data end.

Definition stepsActivation (steps : gmap string StepData) : gmap string (gmap string output) :=
  (λ sd, default ∅ (sd_Outputs sd)) <$> steps.

(** A value of the expression language, as far as the environment tells values
    apart. *)
Inductive cel_val := CelBool (b : bool) | CelString (s : string) | CelOther.

(** The answer of a map: a member, no member, or an error value for a key of
    the wrong type. *)
Inductive found := Found (s : string) | NotFound | BadKey.

(** [Find] of cel-go's string map. *)
Definition string_map_find (m : gmap string string) (key : cel_val) : found :=
  match key with
  | CelString s => match m !! s with Some v => Found v | None => NotFound end
  | _ => BadKey
  end.

(** [defaultingMap.Find], with the recorder [undef]. *)
Definition defaulting_find (varName : string) (m : gmap string string) (key : cel_val)
    (undef : gset string) : found * gset string :=
  match string_map_find m key with
  | Found v => (Found v, undef)
  | BadKey => (BadKey, undef)
  | NotFound =>
      match key with
      | CelString s => (Found "", {[varName +:+ "." +:+ s]} ∪ undef)
      | _ => (NotFound, undef)
      end
  end.

(** A compiled program. *)
Inductive prog :=
| Ret (v : cel_val)
| Raise (e : text)
| Find (v : string_var) (key : cel_val) (k : found → prog)
| Whole (v : string_var) (k : gmap string string → prog)
| Steps (k : gmap string (gmap string output) → prog)
| Failure (k : bool → prog)
| Success (k : bool → prog)
| Always (k : bool → prog).

(** [prg.Eval(conditionActivation(data, undef))]. *)
Fixpoint run_prog (data : TemplateData) (status : RunStatusView) (p : prog) (undef : gset string)
  : res cel_val * gset string :=
  match p with
  | Ret v => (Ok v, undef)
  | Raise e => (Err e, undef)
  | Find v key k =>
      let '(a, undef') := defaulting_find (var_name v) (var_value v data) key undef in
      run_prog data status (k a) undef'
  | Whole v k => run_prog data status (k (var_value v data)) undef
  | Steps k => run_prog data status (k (stepsActivation (td_Steps data))) undef
  | Failure k => run_prog data status (k (rs_Failed status)) undef
  | Success k => run_prog data status (k (success status)) undef
  | Always k => run_prog data status (k true) undef
  end.

(** ** Status functions in the text *)

Definition is_word (c : ascii) : bool := is_alpha c || is_digit c || Ascii.eqb c "_".
Definition is_re_space (c : ascii) : bool :=
  existsb (λ n, Ascii.eqb c (ascii_of_nat n)) [9; 10; 12; 13; 32].

Fixpoint spaces_then_paren (s : string) : bool :=
  match s with
  | "" => false
  | String c s' => Ascii.eqb c "(" || (is_re_space c && spaces_then_paren s')
  end.

Definition status_call_at (s : string) : bool :=
  existsb (λ w, HasPrefix s w && spaces_then_paren (TrimPrefix s w)) ["always"; "failure"; "success"].

(** [statusFuncRe.MatchString], [\b(?:always|failure|success)\s*\(]; [prev] says
    whether a word character comes before. *)
Fixpoint status_call (prev : bool) (s : string) : bool :=
  match s with
  | "" => false
  | String c s' => (negb prev && status_call_at s) || status_call (is_word c) s'
  end.

Definition calls_status (expr : string) : bool := status_call false expr.

(** ** Compiling and evaluating *)

Inductive cel_issue := CelEnv (e : text) | CelCompile (e : text).

(** A checked expression: whether its type is exactly bool, the printed type,
    and its program. *)
Record cel_ast := MkAst { ast_bool : bool; ast_type : string; ast_program : res prog }.

Section cel.
(** [cel.NewEnv(conditionEnvOptions(...))] and [env.Compile]; the declarations do
    not depend on the run. *)
Variable CompileExpr : string → cel_issue + cel_ast.

Definition ValidateConditionExpr (expr : string) : res unit :=
  if (expr =? "")%string then Ok tt
  else match CompileExpr expr with
       | inl (CelEnv e) => Err ([Lit "if: cel env: "] ++ e)
       | inl (CelCompile e) =>
           Err ([Lit "if: expression "; Quo expr;
                 Lit " does not compile (if: is a CEL expression, not a Go template): "] ++ e)
       | inr _ => Ok tt
       end.

Record condition_result := MkCondition {
  cr_value : bool; cr_warnings : list text; cr_error : option text
}.

Definition fails (e : text) : condition_result := MkCondition false [] (Some e).

Definition undefined_warning (expr : string) (missing : list string) : text :=
  [Lit "if: expression "; Quo expr; Lit " referenced undefined "; Lit (Join ", " missing);
   Lit " — an undefined key reads as the empty string, so the condition was evaluated as though it were ";
   Quo ""; Lit " (check the spelling; params come from the run's parameters, vars from a kind: Vars manifest or the job's spec.vars, and secrets from the job's declared secret references)"].

Definition EvalCondition (expr : string) (data : TemplateData) (status : RunStatusView)
    (implicitSuccess : bool) : condition_result :=
  if (expr =? "")%string
  then MkCondition (if implicitSuccess then success status else true) [] None
  else
    match CompileExpr expr with
    | inl (CelEnv e) => fails ([Lit "if: cel env: "] ++ e)
    | inl (CelCompile e) => fails ([Lit "if: expression "; Quo expr; Lit " compile error: "] ++ e)
    | inr ast =>
        if negb (ast_bool ast)
        then fails [Lit "if: expression "; Quo expr; Lit " must return bool, got "; Lit (ast_type ast)]
        else
          match ast_program ast with
          | Err e => fails ([Lit "if: program: "] ++ e)
          | Ok p =>
              let '(out, undef) := run_prog data status p ∅ in
              match out with
              | Err e => fails ([Lit "if: expression "; Quo expr; Lit " eval error: "] ++ e)
              | Ok v =>
                  let missing := SortStrings (elements undef) in
                  let warnings := if bool_decide (missing = []) then []
                                  else [undefined_warning expr missing] in
                  match v with
                  | CelBool b =>
                      MkCondition (if implicitSuccess && negb (calls_status expr)
                                   then b && success status else b) warnings None
                  | _ => fails [Lit "if: expression "; Quo expr; Lit " returned non-bool"]
                  end
              end
          end
    end.

End cel.

(** ** Specification *)

(** The undefined keys a program consults, in order. *)
Fixpoint consulted (data : TemplateData) (status : RunStatusView) (p : prog) : list string :=
  match p with
  | Ret _ | Raise _ => []
  | Find v key k =>
      match key, string_map_find (var_value v data) key with
      | CelString s, NotFound => (var_name v +:+ "." +:+ s) :: consulted data status (k (Found ""))
      | _, a => consulted data status (k a)
      end
  | Whole v k => consulted data status (k (var_value v data))
  | Steps k => consulted data status (k (stepsActivation (td_Steps data)))
  | Failure k => consulted data status (k (rs_Failed status))
  | Success k => consulted data status (k (success status))
  | Always k => consulted data status (k true)
  end.

(** A program that reads the string maps key by key (no presence test). *)
Fixpoint pointwise (p : prog) : Prop :=
  match p with
  | Ret _ | Raise _ => True
  | Find _ _ k => ∀ a, pointwise (k a)
  | Whole _ _ => False
  | Steps k => ∀ m, pointwise (k m)
  | Failure k | Success k | Always k => ∀ b, pointwise (k b)
  end.

(** Two contexts that agree once an undefined key reads as empty. *)
Definition same_reading (d1 d2 : TemplateData) : Prop :=
  (∀ v s, default "" (var_value v d1 !! s) = default "" (var_value v d2 !! s)) ∧ td_Steps d1 = td_Steps d2.

(** ** Facts *)

Lemma run_prog_recorded data status p undef :
  (run_prog data status p undef).2 = list_to_set (consulted data status p) ∪ undef.
Proof.
  revert undef. induction p as [v|e|v key k IH|v k IH|k IH|k IH|k IH|k IH]; intros undef;
    cbn [run_prog consulted]; try apply IH; try set_solver.
  unfold defaulting_find. destruct key as [b|s|]; simpl; [apply IH| |apply IH].
  destruct (var_value v data !! s); rewrite IH; [done|set_solver].
Qed.

Lemma run_prog_result_recorder data status p u1 u2 :
  (run_prog data status p u1).1 = (run_prog data status p u2).1.
Proof.
  revert u1 u2. induction p as [v|e|v key k IH|v k IH|k IH|k IH|k IH|k IH]; intros u1 u2;
    cbn [run_prog]; try done; try apply IH.
  unfold defaulting_find. destruct (string_map_find _ _); try apply IH. destruct key; apply IH.
Qed.

(** The answer of a defaulting map depends only on how undefined keys read. *)
Lemma defaulting_find_answer name m key undef :
  (defaulting_find name m key undef).1
  = match key with CelString s => Found (default "" (m !! s)) | _ => BadKey end.
Proof. unfold defaulting_find, string_map_find. destruct key as [b|s|]; [done| |done]. by destruct (m !! s). Qed.

Lemma run_prog_same_reading d1 d2 status p u1 u2 :
  same_reading d1 d2 → pointwise p → (run_prog d1 status p u1).1 = (run_prog d2 status p u2).1.
Proof.
  intros [Hv Hs]. revert u1 u2.
  induction p as [v|e|v key k IH|v k IH|k IH|k IH|k IH|k IH]; intros u1 u2 Hp; cbn [run_prog pointwise] in *;
    try done; try by apply IH.
  - pose proof (defaulting_find_answer (var_name v) (var_value v d1) key u1) as E1.
    pose proof (defaulting_find_answer (var_name v) (var_value v d2) key u2) as E2.
    destruct (defaulting_find _ (var_value v d1) _ _) as [a1 v1], (defaulting_find _ (var_value v d2) _ _) as [a2 v2].
    simpl in E1, E2. assert (a1 = a2) as -> by (subst; by destruct key; rewrite ?Hv). by apply IH.
  - rewrite Hs. by apply IH.
Qed.

Lemma status_call_empty b : status_call b "" = false.
Proof. done. Qed.

(** A successful evaluation, taken apart. *)
Lemma EvalCondition_program CE expr data status imp ast p :
  expr ≠ "" → CE expr = inr ast → ast_program ast = Ok p →
  EvalCondition CE expr data status imp =
  if negb (ast_bool ast) then fails [Lit "if: expression "; Quo expr; Lit " must return bool, got "; Lit (ast_type ast)]
  else match (run_prog data status p ∅).1 with
       | Err e => fails ([Lit "if: expression "; Quo expr; Lit " eval error: "] ++ e)
       | Ok (CelBool b) =>
           MkCondition (if imp && negb (calls_status expr) then b && success status else b)
             (match SortStrings (remove_dups (consulted data status p)) with
              | [] => []
              | missing => [undefined_warning expr missing]
              end) None
       | Ok _ => fails [Lit "if: expression "; Quo expr; Lit " returned non-bool"]
       end.
Proof.
  intros He%String.eqb_neq HC Hp. unfold EvalCondition. rewrite He, HC, Hp.
  destruct (ast_bool ast); [|done]. cbn [negb].
  pose proof (run_prog_recorded data status p ∅) as Hrec.
  destruct (run_prog data status p ∅) as [out undef]. cbn [fst snd] in *.
  assert (SortStrings (elements undef) = SortStrings (remove_dups (consulted data status p))) as ->.
  { apply SortStrings_unique, NoDup_Permutation; [apply NoDup_elements|apply NoDup_remove_dups|].
    intros k. rewrite elem_of_elements, elem_of_remove_dups, Hrec. set_solver. }
  destruct out as [[]|]; [|done..]. by destruct (SortStrings _).
Qed.

(** ** Properties *)

(** Conditions fail closed: a step runs exactly when its condition is empty
    and the implicit success (if any) holds, or the condition compiles to a
    boolean program that evaluates to true and, where the success is implicit and
    no status function is called, the run has neither failed nor been cancelled;
    an error means the step does not run and no warning is shown; and what the
    apply-time check rejects is an error in every run. *)
Theorem condition_fails_closed (CE : string → cel_issue + cel_ast) (expr : string)
    (data : TemplateData) (status : RunStatusView) (imp : bool) :
  let r := EvalCondition CE expr data status imp in
  (cr_value r = true ↔
     (expr = "" ∧ (imp = true → success status = true)) ∨
     (expr ≠ "" ∧ ∃ ast p, CE expr = inr ast ∧ ast_bool ast = true ∧ ast_program ast = Ok p ∧
        (run_prog data status p ∅).1 = Ok (CelBool true) ∧
        (imp = true → calls_status expr = false → success status = true))) ∧
  (cr_error r ≠ None → cr_value r = false ∧ cr_warnings r = []) ∧
  (ValidateConditionExpr CE expr ≠ Ok tt → cr_error r ≠ None).
Proof.
  cbv zeta. destruct (String.eqb_spec expr "") as [->|He].
  { unfold EvalCondition, ValidateConditionExpr. simpl. split; [|by split]. split.
    - intros H. left. split; [done|]. by intros ->.
    - intros [[_ H]|[[] _]]; [|done]. destruct imp; auto. }
  apply String.eqb_neq in He as He'.
  destruct (CE expr) as [iss|ast] eqn:HC.
  { unfold EvalCondition, ValidateConditionExpr. rewrite He', HC.
    destruct iss; (split; [split; [done|by intros [[? _]|(_ & ast & p & ? & _)]]|by split]). }
  assert (ValidateConditionExpr CE expr = Ok tt) as -> by (unfold ValidateConditionExpr; by rewrite He', HC).
  destruct (ast_program ast) as [p|e] eqn:Hp.
  2: { unfold EvalCondition. rewrite He', HC, Hp.
    destruct (ast_bool ast); (split; [split; [done|intros [[? _]|(_ & ast' & p' & [= <-] & _ & ? & _)]; congruence]|by split]). }
  rewrite (EvalCondition_program _ _ _ _ _ _ _ He HC Hp).
  destruct (ast_bool ast) eqn:Hb.
  2: { split; [split; [done|intros [[? _]|(_ & ast' & p' & [= <-] & ? & _)]; congruence]|by split]. }
  cbn [negb]. destruct (run_prog data status p ∅).1 as [[b|s|]|e] eqn:Hr.
  2-4: split; [split; [done|]|by split]; intros [[? _]|(_ & ast' & p' & [= <-] & _ & Hp' & Hr' & _)];
    [done|]; rewrite Hp in Hp'; injection Hp' as <-; congruence.
  cbn [cr_value cr_error cr_warnings]. split; [|by split]. split.
  - intros H. right. split; [done|]. exists ast, p. do 3 (split; [done|]).
    destruct imp, (calls_status expr), b, (success status); try done; by split.
  - intros [[? _]|(_ & ast' & p' & [= <-] & _ & Hp' & Hr' & Himp)]; [done|].
    rewrite Hp in Hp'. injection Hp' as <-. rewrite Hr in Hr'. injection Hr' as ->.
    destruct imp, (calls_status expr); simpl; auto.
Qed.

(** An undefined parameter, variable or secret reads as the empty string:
    a condition that reads the maps key by key gives the same value and the same
    error in any two contexts that differ only in keys that are undefined in one
    and empty in the other; the warning names exactly the undefined keys that were
    consulted, sorted and once each, and never changes the result. *)
Theorem undefined_keys_read_empty (CE : string → cel_issue + cel_ast) (expr : string) (ast : cel_ast)
    (p : prog) (data data' : TemplateData) (status : RunStatusView) (imp : bool)
    (He : expr ≠ "") (HC : CE expr = inr ast) (Hp : ast_program ast = Ok p)
    (Hpw : pointwise p) (Hs : same_reading data data') :
  let r := EvalCondition CE expr data status imp in
  let r' := EvalCondition CE expr data' status imp in
  cr_value r = cr_value r' ∧ cr_error r = cr_error r' ∧
  (cr_error r = None → cr_warnings r =
     match SortStrings (remove_dups (consulted data status p)) with
     | [] => []
     | missing => [undefined_warning expr missing]
     end).
Proof.
  cbv zeta. rewrite !(EvalCondition_program _ _ _ _ _ _ _ He HC Hp).
  destruct (ast_bool ast); [|done]. cbn [negb].
  rewrite (run_prog_same_reading data data' status p ∅ ∅) by done.
  by destruct (run_prog data' status p ∅).1 as [[]|].
Qed.

(** ** A condition *)

(** params.deploy == "yes" && vars.zone == "" *)
Definition condition_example : prog :=
  Find VParams (CelString "deploy") (λ a,
    Find VVars (CelString "zone") (λ b,
      match a, b with
      | Found x, Found y => Ret (CelBool ((x =? "yes")%string && (y =? "")%string))
      | _, _ => Raise [Lit "no such overload"]
      end)).
Definition condition_compile : string → cel_issue + cel_ast :=
  λ _, inr (MkAst true "bool" (Ok condition_example)).
Definition condition_data : TemplateData :=
  MkTemplateData (<["deploy" := "yes"]> ∅) ∅ ∅ "" ∅ ∅ ∅.
Definition condition_data' : TemplateData :=
  MkTemplateData (<["deploy" := "yes"]> ∅) (<["zone" := ""]> ∅) ∅ "" ∅ ∅ ∅.

Example status_calls :
  calls_status <$> ["always()"; "x && failure ()"; "myfailure()"; "success"; "params.success == 'x'"]
  = [true; true; false; false; false].
Proof. vm_compute. reflexivity. Qed.

Lemma undefined_keys_read_empty_witness :
  consulted condition_data (MkRunStatusView false false) condition_example = ["vars.zone"] ∧
  cr_value (EvalCondition condition_compile "c" condition_data (MkRunStatusView false false) true)
  = cr_value (EvalCondition condition_compile "c" condition_data' (MkRunStatusView false false) true).
Proof.
  split; [vm_compute; reflexivity|].
  apply (undefined_keys_read_empty condition_compile "c" (MkAst true "bool" (Ok condition_example)) condition_example).
  - done.
  - reflexivity.
  - reflexivity.
  - intros [] []; exact I.
  - split; [|reflexivity]. intros [] s; [reflexivity| |reflexivity].
    unfold var_value, condition_data, condition_data'. cbn [td_Vars].
    destruct (decide (s = "zone")) as [->|Hne]; [reflexivity|]. by rewrite lookup_insert_ne.
Defined.
