(* ===== verification/DslValidate.v ===== *)
(** * internal/dsl: validation of a job

    Models the apply-time validation of [parse.go], the container and podTemplate
    checks of [container.go], [validateWorkspaceMountPath] of [mountpath.go] and
    the volume checks of [volumes.go].

    Third-party parts are parameters: whether a CEL expression compiles, whether
    a Kubernetes quantity parses; so are
    [time.ParseDuration] and the printing verbs used in messages.  Where the
    code ranges over a Go map, the keys are visited in sorted order here: the
    order decides only which of several errors is reported. *)

From S2P Require Import Prelude GoStrings GoPath DslNames DslTypes DslSecurity DslMatrix DslCondition.
From stdpp Require Import options.

Definition SupportedAPIVersion : string := "unified-cd/v1".
Definition maxCacheTTLDays : Z := 365.
Definition defaultWorkspaceRoot : string := "/workspace".

(** [for i, x := range l] with loop-carried state. *)
Definition indexed {A} (l : list A) : list (nat * A) := zip (seq 0 (length l)) l.
Definition at_ (path : text) (i : nat) : text := path ++ [Lit "["; Lit (pretty i); Lit "]"].
Definition named (path : text) (name : string) : text := path ++ [Lit " ("; Lit name; Lit "): "].

(** ** Container and podTemplate checks *)

Definition spec_entries (spec : Spec) : list (string * list StepEntry) :=
  [("spec.steps", sp_Steps spec); ("spec.finally", sp_Finally spec)].

(** An entry's own fields, then its parallel children. *)
Definition entry_steps (e : StepEntry) : list Step := e_Step e :: e_Parallel e.
Definition all_steps (spec : Spec) : list Step :=
  flat_map entry_steps (sp_Steps spec) ++ flat_map entry_steps (sp_Finally spec).

Definition check_target (path : string) (st : Step) : res unit :=
  fail_if (IsForbiddenStepContainer (s_Container st))
    (ForbiddenStepContainerError path (s_Name st) (s_Container st)).

Definition ValidateStepContainerTargets (spec : Spec) : res unit :=
  each (λ _ pe, each (λ i e,
      let p := pe.1 +:+ "[" +:+ pretty i +:+ "]" in
      _ ← check_target p (e_Step e);
      each (λ j s, check_target (p +:+ ".parallel[" +:+ pretty j +:+ "]") s) (e_Parallel e)) pe.2)
    (spec_entries spec).

Definition check_labels_of (what : string) (defs : list vmap) : res unit :=
  each (λ _ d, wrap [Lit "podTemplate "; Lit what; Lit " "] (ValidateDNS1123Label (DefName d))) defs.

Definition validatePodTemplateNames (pt : option PodTemplate) : res unit :=
  _ ← check_labels_of "container" (PodTemplateContainers pt);
  _ ← check_labels_of "volume" (PodTemplateVolumes pt);
  match pt ≫= pt_Override with
  | None => Ok tt
  | Some o =>
      _ ← check_labels_of "override container" (pp_Containers o);
      check_labels_of "override volume" (pp_Volumes o)
  end.

Definition targeted (spec : Spec) : list string :=
  PrimaryContainerName :: filter (λ c, c ≠ "") (s_Container <$> all_steps spec).

Definition workingDirMessage : string :=
  " declares workingDir, but steps execute in it: steps always run at the workspace mount (artifact/cache paths and UNIFIED_WORKSPACE resolve there); move the cd into the step script, or put workingDir on a sidecar".

Definition check_working_dir (spec : Spec) (where_ : string) (defs : list vmap) : res unit :=
  each (λ _ c, fail_if (bool_decide (DefName c ∈ targeted spec)
                        && bool_decide (is_Some (vget c "workingDir")))
                 [Lit where_; Lit " container "; Quo (DefName c); Lit workingDirMessage]) defs.

Definition validateStepTargetedWorkingDir (spec : Spec) : res unit :=
  _ ← check_working_dir spec "podTemplate" (PodTemplateContainers (sp_PodTemplate spec));
  match sp_PodTemplate spec ≫= pt_Override with
  | None => Ok tt
  | Some o => check_working_dir spec "podTemplate.override" (pp_Containers o)
  end.

(** The container names the podTemplate defines, overrides included. *)
Definition defined_containers (spec : Spec) : list string :=
  filter (λ n, n ≠ "")
    (DefName <$> PodTemplateContainers (sp_PodTemplate spec)
                 ++ match sp_PodTemplate spec ≫= pt_Override with
                    | None => [] | Some o => pp_Containers o end).

Definition check_reference (spec : Spec) (st : Step) : res unit :=
  let c := s_Container st in
  if (c =? "")%string || negb (s_ScopeID st =? "")%string then Ok tt
  else if IsForbiddenStepContainer c then Err (ForbiddenStepContainerError "step" (s_Name st) c)
  else if IsReservedContainerName c || bool_decide (c ∈ defined_containers spec) then Ok tt
  else Err [Lit "step "; Quo (s_Name st); Lit " references container "; Quo c;
            Lit ", which is not defined in the job's podTemplate"].

Definition ValidateContainerReferences (spec : Spec) : res unit :=
  each (λ _, check_reference spec) (all_steps spec).

Definition validateWorkspaceMountPath (spec : Spec) : res unit :=
  match sp_PodTemplate spec ≫= pt_Workspace with
  | None => Ok tt
  | Some w =>
      if (wc_MountPath w =? "")%string then Ok tt
      else wrap [Lit "spec.podTemplate.workspace: "] (CheckContainerMountPath (wc_MountPath w) [])
  end.

(** ** volumes.go *)

Definition isTemplatedVolumeName (name : string) : bool := Contains name "{{".

Definition singleLiteralName (v : VolumeMount) : string :=
  match vm_Name v with
  | [n] => if negb (isTemplatedVolumeName n) then n else ""
  | _ => ""
  end.

Definition VolumeAlias (v : VolumeMount) : string :=
  if negb (vm_As v =? "")%string then vm_As v else singleLiteralName v.

Definition VolumeEnvName (alias : string) : string :=
  VolumeEnvPrefix +:+ ToUpper (ReplaceByte alias "-" "_").

Definition volumePath (i : nat) : text := at_ [Lit "spec.volumes"] i.

Definition validateVolumeEnvName (p : text) (v : VolumeMount) : res string :=
  let alias := VolumeAlias v in
  let env := VolumeEnvName alias in
  _ ← fail_if (negb (is_identifier env))
        (p ++ [Lit ": the alias "; Quo alias; Lit " (`as`, or the name when there is no `as`) cannot be part of an environment variable name ("; Lit env; Lit "): use letters, digits, '-' and '_'"]);
  _ ← fail_if (bool_decide (env ∈ reservedVarNames))
        (p ++ [Lit ": the alias "; Quo alias; Lit " would expose the volume as "; Lit env; Lit ", which is reserved"]);
  Ok env.

Definition validateVolumeName (p : text) (v : VolumeMount) : res unit :=
  _ ← fail_if (bool_decide (vm_Name v = [])) (p ++ [Lit ": name is required"]);
  _ ← each (λ _ n, fail_if (n =? "")%string
                     (p ++ [Lit ": name is required (empty candidate in ["; Lit (Join " " (vm_Name v)); Lit "])"]))
        (vm_Name v);
  fail_if ((vm_As v =? "")%string && (singleLiteralName v =? "")%string)
    (p ++ [Lit ": a name that is a list of candidates or contains a template requires `as`: the chosen name is not known when the job is written"]).

Definition isPathAncestor (a b : string) : bool :=
  if (a =? "/")%string then negb (b =? "/")%string else HasPrefix b (a +:+ "/").

(** A Windows drive letter and a colon. *)
Definition has_drive (mp : string) : bool :=
  match mp with
  | String d (String c _) => is_char ":" c && is_alpha d
  | _ => false
  end.

Definition posix_hint : string :=
  "; mountPath must be a POSIX path (relative to the workspace, or absolute and starting with ".

Definition cleanVolumeMountPath (p : text) (v : VolumeMount) (workspaceRoot : string) : res string :=
  let mp := vm_MountPath v in
  _ ← fail_if (mp =? "")%string (p ++ [Lit ": mountPath is required"]);
  _ ← fail_if (has_drive mp)
        (p ++ [Lit ": mountPath "; Quo mp; Lit " starts with a Windows drive letter"; Lit posix_hint; Quo "/"; Lit ")"]);
  _ ← fail_if (Contains mp "\")
        (p ++ [Lit ": mountPath "; Quo mp; Lit " contains a backslash"; Lit posix_hint; Quo "/"; Lit ")"]);
  let c := Clean mp in
  if IsAbs c then
    if isPathAncestor (Clean workspaceRoot) c || (c =? Clean workspaceRoot)%string
    then Err (p ++ [Lit ": absolute mountPath "; Quo mp; Lit " is inside the workspace "; Quo workspaceRoot;
                    Lit "; use a relative mountPath instead"])
    else Ok c
  else if (c =? "..")%string || HasPrefix c "../"
  then Err (p ++ [Lit ": mountPath "; Quo mp; Lit " escapes the workspace"])
  else Ok c.

(** One volume of the first loop: [envNames] maps a variable to the index of the
    volume that took it. *)
Definition check_volume (vols : list VolumeMount) (root : string)
    (st : gmap string nat * list string) (iv : nat * VolumeMount)
  : res (gmap string nat * list string) :=
  let '(i, v) := iv in
  _ ← validateVolumeName (volumePath i) v;
  env ← validateVolumeEnvName (volumePath i) v;
  match st.1 !! env with
  | Some first =>
      Err (volumePath i ++ [Lit ": alias "; Quo (VolumeAlias v); Lit " and "] ++ volumePath first
           ++ [Lit " ("; Quo (default "" (VolumeAlias <$> vols !! first)); Lit ") both become "; Lit env;
               Lit ": aliases are upper-cased and '-' becomes '_', so they must differ by more than case or '-' versus '_'"])
  | None =>
      c ← cleanVolumeMountPath (volumePath i) v root;
      Ok (<[env := i]> st.1, st.2 ++ [c])
  end.

(** The pairs [i < j] of the second loop. *)
Definition overlap (ci cj : string) : bool :=
  negb (ci =? ".")%string && negb (cj =? ".")%string && (isPathAncestor ci cj || isPathAncestor cj ci).

Definition check_pair (vols : list VolumeMount) (i j : nat) (ci cj : string) : res unit :=
  let mp k := default "" (vm_MountPath <$> vols !! k) in
  _ ← fail_if (ci =? cj)%string
        (volumePath j ++ [Lit ": duplicate mountPath "; Quo (mp j); Lit " (also used by "]
         ++ volumePath i ++ [Lit ")"]);
  fail_if (overlap ci cj)
    (volumePath j ++ [Lit ": nested mountPath "; Quo (mp j); Lit " overlaps "] ++ volumePath i
     ++ [Lit " ("; Quo (mp i); Lit "): a volume cannot be mounted inside another volume"]).

Fixpoint check_pairs (vols : list VolumeMount) (i : nat) (cleaned : list string) : res unit :=
  match cleaned with
  | [] => Ok tt
  | ci :: rest =>
      _ ← each_from (S i) (λ j cj, check_pair vols i j ci cj) rest;
      check_pairs vols (S i) rest
  end.

Definition workspace_root (spec : Spec) : string :=
  match sp_PodTemplate spec ≫= pt_Workspace with
  | Some w => if negb (wc_MountPath w =? "")%string then wc_MountPath w else defaultWorkspaceRoot
  | None => defaultWorkspaceRoot
  end.

Definition ValidateVolumes (spec : Spec) : res unit :=
  let vols := sp_Volumes spec in
  if bool_decide (vols = []) then Ok tt
  else
    _ ← fail_if (sp_Detached spec)
          [Lit "spec.volumes is not supported on a detached job: a detached run's workspace is deleted when the run finishes, which contradicts a persistent volume"];
    _ ← fail_if (match sp_PodTemplate spec with Some pt => pt_Reuse pt | None => false end)
          [Lit "spec.volumes is not supported with podTemplate.reuse: a pooled pod keeps the volumes it was created with, but each run may need different ones"];
    st ← fold_res (check_volume vols (workspace_root spec)) (∅, []) (indexed vols);
    check_pairs vols 0 st.2.

(** ** Steps *)

Section steps.
(** cel-go's compile, and the error texts of [resource.ParseQuantity] and
    [time.ParseDuration], if any. *)
Variables (CompileExpr : string → cel_issue + cel_ast) (ParseQuantity ParseDuration : string → option text).

Definition parse_error (r : option text) (pre : text) : res unit :=
  match r with None => Ok tt | Some e => Err (pre ++ e) end.

Definition validateResources (rs : ResourceSpec) : res unit :=
  match rs_Requests rs with
  | Some _ => Err [Lit "runsIn.resources.requests is not supported (the host agent has no request concept, and this scope has no pod to route to Kubernetes); use podTemplate.spec.containers[].resources.requests instead, which is honored on a Kubernetes agent"]
  | None =>
      match rs_Limits rs with
      | None => Ok tt
      | Some l =>
          each (λ _ fv, if (fv.2 =? "")%string then Ok tt
                        else parse_error (ParseQuantity fv.2)
                               [Lit "invalid resources "; Lit fv.1; Lit " quantity "; Quo fv.2; Lit ": "])
            [("cpu", rl_CPU l); ("memory", rl_Memory l)]
      end
  end.

Definition checkStepExecTarget (container : string) (runsIn : option RunsIn) (isUses : bool)
    (path : text) (name : string) : res unit :=
  match runsIn with
  | None => Ok tt
  | Some ri =>
      _ ← fail_if (negb isUses) (named path name ++ [Lit "step-level runsIn: is no longer supported — use container: <podTemplate container name>, or move image isolation to the job's podTemplate or a uses: template"]);
      _ ← fail_if (negb (ri_Container ri =? "")%string)
            (named path name ++ [Lit "runsIn.container is not valid on a uses: step — set container: on the template's steps instead"]);
      _ ← fail_if (ri_Image ri =? "")%string (named path name ++ [Lit "uses runsIn: requires image:"]);
      _ ← fail_if (negb (container =? "")%string)
            (named path name ++ [Lit "cannot set both container: and runsIn:"]);
      match ri_Resources ri with
      | None => Ok tt
      | Some rs => wrap (named path name) (validateResources rs)
      end
  end.

Definition validateRetry (name : string) (path : text) (retry : option RetrySpec) (isRunStep : bool)
  : res unit :=
  match retry with
  | None => Ok tt
  | Some r =>
      _ ← fail_if (negb isRunStep) (named path name ++ [Lit "retry: is only valid on a run: step"]);
      _ ← fail_if (re_Attempts r <? 1)%Z
            (named path name ++ [Lit "retry.attempts must be >= 1 (1 = no retry)"]);
      if (re_Backoff r =? "")%string then Ok tt
      else parse_error (ParseDuration (re_Backoff r))
             (named path name ++ [Lit "retry.backoff "; Quo (re_Backoff r); Lit " is not a valid duration: "])
  end.

Definition some {A} (o : option A) : bool := match o with Some _ => true | None => false end.

Definition actionCount (st : Step) : nat :=
  length (filter (λ b, b = true)
    [negb (s_Run st =? "")%string; some (s_Call st); some (s_Cache st); some (s_Uses st);
     some (s_Approval st); some (s_Upload st); some (s_Download st)]).

Definition empty_source (s : ForeachSource) : bool :=
  bool_decide (fs_Literal s = []) && (fs_Expr s =? "")%string.

Definition check_upload (pre : text) (u : UploadArtifactStep) : res unit :=
  _ ← fail_if (up_Name u =? "")%string (pre ++ [Lit "uploadArtifact.name is required"]);
  _ ← wrap (pre ++ [Lit "uploadArtifact.name "; Quo (up_Name u); Lit " is invalid: "])
        (validateArtifactName (up_Name u));
  fail_if (up_Path u =? "")%string (pre ++ [Lit "uploadArtifact.path is required"]).

Definition check_download (pre : text) (d : DownloadArtifactStep) : res unit :=
  _ ← fail_if (dl_Name d =? "")%string (pre ++ [Lit "downloadArtifact.name is required"]);
  wrap (pre ++ [Lit "downloadArtifact.name "; Quo (dl_Name d); Lit " is invalid: "])
    (validateArtifactName (dl_Name d)).

Definition check_foreach (pre : text) (f : ForeachDef) : res unit :=
  _ ← fail_if (fd_Key f =? "")%string (pre ++ [Lit "foreach.key is required"]);
  _ ← fail_if (negb (is_identifier (fd_Key f)))
        (pre ++ [Lit "foreach.key "; Quo (fd_Key f); Lit " must match "; Lit identifier_text]);
  fail_if (empty_source (fd_Source f)) (pre ++ [Lit "foreach.in must be a non-empty list or expression"]).

Definition check_dimension (pre : text) (dimNames : gset string) (d : MatrixDimension)
  : res (gset string) :=
  _ ← fail_if (negb (is_identifier (md_Name d)))
        (pre ++ [Lit "matrix dimension name "; Quo (md_Name d); Lit " must match "; Lit identifier_text]);
  _ ← fail_if (bool_decide (md_Name d ∈ dimNames))
        (pre ++ [Lit "duplicate matrix dimension "; Quo (md_Name d)]);
  _ ← fail_if (empty_source (md_Source d))
        (pre ++ [Lit "matrix."; Lit (md_Name d); Lit " must be a non-empty list or expression"]);
  Ok ({[md_Name d]} ∪ dimNames).

Definition check_matrix (pre : text) (m : MatrixDef) : res unit :=
  _ ← fail_if (bool_decide (mx_Dimensions m = [])) (pre ++ [Lit "matrix requires at least one dimension"]);
  dimNames ← fold_res (check_dimension pre) ∅ (mx_Dimensions m);
  each (λ _ ex, each (λ _ k, fail_if (bool_decide (k ∉ dimNames))
                               (pre ++ [Lit "matrix.exclude references unknown dimension "; Quo k]))
                  (sorted_keys ex)) (mx_Exclude m).

Definition on {A} (o : option A) (f : A → res unit) : res unit :=
  match o with None => Ok tt | Some a => f a end.

(** [validateStepFull]: the new set of step names. *)
Definition validateStepFull (path : text) (nameSet : gset string) (st : Step) : res (gset string) :=
  let name := s_Name st in
  let pre := named path name in
  _ ← fail_if (bool_decide (name ∈ nameSet)) (path ++ [Lit ": duplicate step name "; Quo name]);
  _ ← fail_if (negb (name =? "")%string && negb (is_identifier name))
        (path ++ [Lit ": step name "; Quo name; Lit " must match "; Lit identifier_text; Lit " (use underscores, e.g. build_app — hyphenated names are not addressable via {{ .Steps.<name> }})"]);
  _ ← each (λ _ key, fail_if (negb (is_identifier key))
                       (pre ++ [Lit "outputs["; Quo key; Lit "] must match "; Lit identifier_text]))
        (sorted_keys (s_Outputs st));
  _ ← fail_if (actionCount st =? 0)%nat
        (pre ++ [Lit "one of run, call, uses, approval, uploadArtifact, or downloadArtifact is required"]);
  _ ← fail_if (1 <? actionCount st)%nat
        (pre ++ [Lit "only one of run, call, cache, uses, approval, uploadArtifact, downloadArtifact may be specified"]);
  _ ← on (s_Call st) (λ c, fail_if (cs_Job c =? "")%string (pre ++ [Lit "call.job is required"]));
  _ ← on (s_Upload st) (check_upload pre);
  _ ← on (s_Download st) (check_download pre);
  _ ← on (s_Foreach st) (check_foreach pre);
  _ ← fail_if (some (s_Foreach st) && some (s_Matrix st))
        (pre ++ [Lit "foreach and matrix are mutually exclusive"]);
  _ ← fail_if ((some (s_Foreach st) || some (s_Matrix st)) && some (s_Approval st))
        (pre ++ [Lit "approval is not supported with matrix/foreach"]);
  _ ← on (s_Matrix st) (check_matrix pre);
  Ok ({[name]} ∪ nameSet).

Definition validateCacheStep (name : string) (cache : option CacheStep) : res unit :=
  on cache (λ c,
    _ ← fail_if (ca_Path c =? "")%string [Lit "step "; Quo name; Lit ": cache.path is required"];
    _ ← fail_if (ca_Key c =? "")%string [Lit "step "; Quo name; Lit ": cache.key is required"];
    _ ← fail_if (ca_TTLDays c <? 0)%Z [Lit "step "; Quo name; Lit ": cache.ttlDays must be non-negative"];
    fail_if (maxCacheTTLDays <? ca_TTLDays c)%Z
      [Lit "step "; Quo name; Lit ": cache.ttlDays "; Lit (pretty (ca_TTLDays c));
       Lit " exceeds the maximum of "; Lit (pretty maxCacheTTLDays)]).

Definition validateUsesStep (name : string) (uses : option UsesStep) (call : option CallStep)
  : res unit :=
  _ ← on call (λ c, fail_if (HasPrefix (cs_Job c) "git://")
        [Lit "step "; Quo name; Lit ": call.job no longer supports git:// URIs; use "; Quo "uses"; Lit " instead"]);
  on uses (λ u,
    _ ← fail_if (us_Job u =? "")%string [Lit "step "; Quo name; Lit ": uses.job is required"];
    _ ← fail_if (negb (HasPrefix (us_Job u) "git://"))
          [Lit "step "; Quo name; Lit ": uses.job must be a git:// URI (e.g. git://host/org/repo/path@ref)"];
    _ ← fail_if (negb (Contains (us_Job u) "@"))
          [Lit "step "; Quo name; Lit ": git URI must contain @ref (e.g. git://host/org/repo/path@v1)"];
    fail_if (Contains (us_Job u) "..") [Lit "step "; Quo name; Lit ": git URI must not contain .."]).

(** The checks a concrete step and a parallel child share, in their order. *)
Definition validate_concrete (native : bool) (path : text) (nameSet : gset string) (st : Step)
  : res (gset string) :=
  let pre := named path (s_Name st) in
  nameSet' ← validateStepFull path nameSet st;
  _ ← validateCacheStep (s_Name st) (s_Cache st);
  _ ← validateUsesStep (s_Name st) (s_Uses st) (s_Call st);
  _ ← wrap (pre ++ [Lit "shell: "]) (validShellArgv (s_Shell st));
  _ ← on (s_Post st) (λ p, fail_if (po_Run p =? "")%string
        [Lit "step "; Quo (s_Name st); Lit ": post.run is required when post is specified"]);
  _ ← on (s_Post st) (λ p, wrap (pre ++ [Lit "post.shell: "]) (validShellArgv (po_Shell p)));
  _ ← fail_if (IsForbiddenStepContainer (s_Container st))
        (ForbiddenStepContainerError (render (λ s, s) path) (s_Name st) (s_Container st));
  _ ← checkStepExecTarget (s_Container st) (s_RunsIn st) (some (s_Uses st)) path (s_Name st);
  _ ← validateRetry (s_Name st) path (s_Retry st) (negb (s_Run st =? "")%string);
  _ ← wrap pre (ValidateConditionExpr CompileExpr (s_If st));
  _ ← fail_if (native && negb (s_Container st =? "")%string)
        (pre ++ [Lit "container: requires an isolated job — remove spec.native"]);
  Ok nameSet'.

Definition no_approval (allowApproval : bool) (path : text) (st : Step) : res unit :=
  fail_if (negb allowApproval && some (s_Approval st))
    (path ++ [Lit ": approval: is not supported in finally steps"]).

Definition validate_child (allowApproval native : bool) (path : text) (nameSet : gset string)
    (jst : nat * Step) : res (gset string) :=
  let subPath := at_ (path ++ [Lit ".parallel"]) jst.1 in
  let st := jst.2 in
  _ ← no_approval allowApproval subPath st;
  _ ← fail_if (some (s_Uses st))
        (subPath ++ [Lit ": uses: is not supported inside parallel: (a uses template expands to a sequence of steps); move it to a top-level step"]);
  validate_concrete native subPath nameSet st.

Definition validate_entry (pathPrefix : string) (allowApproval native : bool) (nameSet : gset string)
    (ie : nat * StepEntry) : res (gset string) :=
  let path := at_ [Lit pathPrefix] ie.1 in
  let st := e_Step ie.2 in
  match e_Parallel ie.2 with
  | _ :: _ =>
      _ ← fail_if (negb (s_Name st =? "")%string || negb (s_Run st =? "")%string
                   || some (s_Call st) || some (s_Uses st))
            (path ++ [Lit ": parallel: block must not have name, run, call, or uses fields"]);
      fold_res (validate_child allowApproval native path) nameSet (indexed (e_Parallel ie.2))
  | [] =>
      _ ← fail_if (s_Name st =? "")%string
            (path ++ [Lit ": name is required (or use parallel: for a parallel block)"]);
      _ ← no_approval allowApproval path st;
      validate_concrete native path nameSet st
  end.

Definition validateStepEntries (entries : list StepEntry) (pathPrefix : string)
    (nameSet : gset string) (allowApproval native : bool) : res (gset string) :=
  fold_res (validate_entry pathPrefix allowApproval native) nameSet (indexed entries).

(** ** Params and locks *)

(** [fmt.Sprintf("%v", v)]. *)
Variable sprint : val → string.

Definition check_choice (i : nat) (seen : gset string) (c : string) : res (gset string) :=
  if decide (c ∈ seen)
  then Err (at_ [Lit "spec.params.inputs"] i ++ [Lit ".choices: duplicate value "; Quo c])
  else Ok ({[c]} ∪ seen).

Definition check_choices (i : nat) (p : Input) (choices : list string) : res unit :=
  let pre := at_ [Lit "spec.params.inputs"] i in
  _ ← fail_if (in_Type p =? "bool")%string
        (pre ++ [Lit ".choices is set but type is "; Quo "bool"; Lit ": a bool already has exactly two values, so choices is meaningless here"]);
  _ ← fail_if (in_Type p =? "array")%string
        (pre ++ [Lit ".choices is set but type is "; Quo "array"; Lit ": choices on a multi-value array is ambiguous (per-element or whole-array?) and cannot be rendered as a plain <select>; use pattern: instead"]);
  _ ← fail_if (negb (in_Pattern p =? "")%string)
        (pre ++ [Lit ": choices and pattern are mutually exclusive (choices is already a strict allow-list, stronger than any regex)"]);
  _ ← fail_if (bool_decide (choices = []))
        (pre ++ [Lit ".choices is declared but empty: a whitelist with no entries can never be satisfied"]);
  seen ← fold_res (check_choice i) ∅ choices;
  match in_Default p with
  | VNull => Ok tt
  | d => fail_if (bool_decide (sprint d ∉ seen))
           (pre ++ [Lit ".default "; Quo (sprint d); Lit " is not one of choices [";
                    Lit (Join " " choices); Lit "]"])
  end.

Definition validTypes : list string := ["string"; "bool"; "int"; "array"].

Definition check_input (i : nat) (p : Input) : res unit :=
  let pre := at_ [Lit "spec.params.inputs"] i in
  _ ← fail_if (in_Name p =? "")%string (pre ++ [Lit ".name is required"]);
  _ ← fail_if (negb (is_identifier (in_Name p)))
        (pre ++ [Lit ".name "; Quo (in_Name p); Lit " must match "; Lit identifier_text]);
  _ ← fail_if (bool_decide (in_Type p ∉ validTypes))
        (pre ++ [Lit ".type "; Quo (in_Type p); Lit " is invalid (want string|bool|int|array)"]);
  on (in_Choices p) (check_choices i p).

Definition check_output (i : nat) (o : Output) : res unit :=
  let pre := at_ [Lit "spec.params.outputs"] i in
  _ ← fail_if (ou_Name o =? "")%string (pre ++ [Lit ".name is required"]);
  _ ← fail_if (negb (is_identifier (ou_Name o)))
        (pre ++ [Lit ".name "; Quo (ou_Name o); Lit " must match "; Lit identifier_text]);
  fail_if (ou_Type o =? "")%string (pre ++ [Lit ".type is required"]).

Definition check_semaphore (i : nat) (nl : Semaphore) : res unit :=
  let pre := at_ [Lit "spec.concurrency.semaphores"] i in
  _ ← fail_if (sm_Pool nl =? "")%string (pre ++ [Lit ".pool is required"]);
  fail_if (sm_Capacity nl <=? 0)%Z (pre ++ [Lit ".capacity must be > 0"]).

Definition check_orlock (seen : gset string) (il : nat * OrLock) : res (gset string) :=
  let pre := at_ [Lit "spec.concurrency.orLocks"] il.1 in
  let ol := il.2 in
  _ ← fail_if (ol_Name ol =? "")%string (pre ++ [Lit ".name is required"]);
  _ ← fail_if (negb (is_identifier (ol_Name ol)))
        (pre ++ [Lit ".name "; Quo (ol_Name ol); Lit " must match "; Lit identifier_text]);
  _ ← fail_if (bool_decide (ol_Name ol ∈ seen)) (pre ++ [Lit ".name "; Quo (ol_Name ol); Lit " is duplicated"]);
  let hasLiteral := negb (bool_decide (fs_Literal (ol_In ol) = [])) in
  let hasExpr := negb (fs_Expr (ol_In ol) =? "")%string in
  _ ← fail_if (negb hasLiteral && negb hasExpr) (pre ++ [Lit ".in is required"]);
  _ ← fail_if (hasLiteral && hasExpr) (pre ++ [Lit ".in: cannot set both a list and an expression"]);
  Ok ({[ol_Name ol]} ∪ seen).

Definition check_concurrency (c : Concurrency) : res unit :=
  _ ← each check_semaphore (co_Semaphores c);
  _ ← fold_res check_orlock ∅ (indexed (co_OrLocks c));
  Ok tt.

(** ** The whole job *)

Definition specDefersContainerValidation (spec : Spec) : bool :=
  match sp_PodTemplate spec with
  | Some pt => negb (pt_Name pt =? "")%string
  | None => false
  end || existsb (λ st, some (s_Uses st)) (all_steps spec).

Variables (gosyntax : val → string) (quote : string → string).

Definition Job_Validate (j : Job) : res unit :=
  let spec := j_Spec j in
  _ ← fail_if (negb (j_APIVersion j =? SupportedAPIVersion)%string)
        [Lit "unsupported apiVersion "; Quo (j_APIVersion j); Lit " (want "; Quo SupportedAPIVersion; Lit ")"];
  _ ← fail_if (negb (j_Kind j =? "Job")%string)
        [Lit "unsupported kind "; Quo (j_Kind j); Lit " (want "; Quo "Job"; Lit ")"];
  _ ← fail_if (me_Name (j_Metadata j) =? "")%string [Lit "metadata.name is required"];
  _ ← wrap [Lit "metadata.name "] (ValidateName (me_Name (j_Metadata j)));
  _ ← fail_if (bool_decide (length (sp_Steps spec) = 0)) [Lit "spec.steps must contain at least one step"];
  _ ← wrap [Lit "spec.shell: "] (validShellArgv (sp_Shell spec));
  _ ← fail_if (sp_Native spec && some (sp_PodTemplate spec))
        [Lit "spec.native: true is incompatible with spec.podTemplate — a native job runs host processes only"];
  _ ← validatePodTemplateSecurityContext gosyntax (sp_PodTemplate spec);
  _ ← validatePodTemplateNames (sp_PodTemplate spec);
  _ ← validateStepTargetedWorkingDir spec;
  _ ← validateWorkspaceMountPath spec;
  _ ← ValidateVolumes spec;
  _ ← wrap [Lit "spec.vars: "] (ValidateVarKeys quote (sp_Vars spec));
  nameSet ← validateStepEntries (sp_Steps spec) "spec.steps" ∅ true (sp_Native spec);
  _ ← validateStepEntries (sp_Finally spec) "spec.finally" nameSet false (sp_Native spec);
  _ ← (if negb (specDefersContainerValidation spec) && negb (sp_Native spec)
       then ValidateContainerReferences spec else Ok tt);
  _ ← each check_input (pa_Inputs (sp_Params spec));
  _ ← each check_output (pa_Outputs (sp_Params spec));
  on (sp_Concurrency spec) check_concurrency.
End steps.

(** ** Removed fields *)

Definition WorkspacePVCRemovedMessage : string :=
  "workspace.pvc was removed: the workspace is now ephemeral on every agent, and persistence comes from an agent-owned named volume (declare it in the agent's config and mount it with spec.volumes); see docs/operator-manual/migrations/2026-10-20-named-volumes.md".

Definition CheckRemovedWorkspacePVC (podTemplate : val) (where_ : string) : res unit :=
  let pt := default [] (as_map podTemplate) in
  let ws := default [] (as_map (vat pt "workspace")) in
  match vget ws "pvc" with
  | Some _ => Err [Lit where_; Lit ".workspace.pvc: "; Lit WorkspacePVCRemovedMessage]
  | None => Ok tt
  end.

Definition checkNeedsInEntries (entries : list val) (prefix : string) : res unit :=
  each (λ i s,
    match s with
    | VMap sm =>
        _ ← fail_if (some (vget sm "needs"))
              (at_ [Lit prefix] i ++ [Lit ": needs: is no longer supported — use parallel: blocks for concurrent execution"]);
        each (λ j ps, match ps with
                      | VMap pm => fail_if (some (vget pm "needs"))
                          (at_ (at_ [Lit prefix] i ++ [Lit ".parallel"]) j ++ [Lit ": needs: is no longer supported"])
                      | _ => Ok tt
                      end) (as_list (vat sm "parallel"))
    | _ => Ok tt
    end) entries.

Definition checkForbiddenJobFields (raw : option vmap) : res unit :=
  match raw ≫= (λ m, as_map (vat m "spec")) with
  | None => Ok tt
  | Some spec =>
      _ ← fail_if (some (vget spec "failFast"))
            [Lit "spec.failFast is no longer supported: remove it (all started steps run to completion)"];
      _ ← CheckRemovedWorkspacePVC (vat spec "podTemplate") "spec.podTemplate";
      _ ← checkNeedsInEntries (as_list (vat spec "steps")) "spec.steps";
      checkNeedsInEntries (as_list (vat spec "finally")) "spec.finally"
  end.

(** ** Facts *)

Lemma elem_of_indexed {A} (l : list A) i x : (i, x) ∈ indexed l → l !! i = Some x.
Proof.
  unfold indexed. intros [k Hk]%list_elem_of_lookup. apply lookup_zip_Some in Hk as [H1 H2].
  apply lookup_seq in H1 as [-> _]. done.
Qed.

Lemma indexed_snd {A} (l : list A) : (indexed l).*2 = l.
Proof. unfold indexed. apply snd_zip. by rewrite length_seq. Qed.

(** A loop that threads a set of names and rejects a repeated one. *)
Lemma fold_names {A} (f : gset string → A → res (gset string)) (name : A → list string) (P : A → Prop) l :
  (∀ s x s', x ∈ l → f s x = Ok s' →
     s' = list_to_set (name x) ∪ s ∧ NoDup (name x) ∧ (∀ n, n ∈ name x → n ∉ s) ∧ P x) →
  ∀ s s', fold_res f s l = Ok s' →
  s' = list_to_set (flat_map name l) ∪ s ∧ NoDup (flat_map name l) ∧
  (∀ n, n ∈ flat_map name l → n ∉ s) ∧ Forall P l.
Proof.
  induction l as [|x l IH]; intros Hf s s'.
  - intros [= <-]. simpl. split; [set_solver|]. split; [constructor|]. split; [|constructor].
    by intros n ?%not_elem_of_nil.
  - rewrite fold_res_cons. intros (s1 & H1 & H2).
    apply Hf in H1 as (-> & Hnd & Hnew & HP); [|left].
    apply IH in H2 as (-> & Hnd' & Hnew' & HP'); [|intros; apply Hf; [by right|done]].
    cbn [flat_map]. split_and!.
    + set_solver.
    + apply NoDup_app. split; [done|]. split; [|done]. intros n Hn Hn'. apply (Hnew' n Hn'). set_solver.
    + intros n [Hn|Hn]%elem_of_app; [auto|]. specialize (Hnew' n Hn). set_solver.
    + by constructor.
Qed.

(** What validation guarantees of a concrete step. *)
Record step_wf (CompileExpr : string → cel_issue + cel_ast) (native : bool) (st : Step) : Prop := {
  wf_name : s_Name st = "" ∨ is_identifier (s_Name st) = true;
  wf_outputs : ∀ k, is_Some (s_Outputs st !! k) → is_identifier k = true;
  wf_action : actionCount st = 1;
  wf_container : IsForbiddenStepContainer (s_Container st) = false;
  wf_native : native = true → s_Container st = "";
  wf_runsIn : s_RunsIn st ≠ None → s_Container st = "" ∧ is_Some (s_Uses st);
  wf_cache : ∀ c, s_Cache st = Some c → (0 ≤ ca_TTLDays c ≤ maxCacheTTLDays)%Z ∧ ca_Key c ≠ "";
  wf_retry : ∀ r, s_Retry st = Some r → (1 ≤ re_Attempts r)%Z ∧ s_Run st ≠ "";
  wf_uses : ∀ u, s_Uses st = Some u → HasPrefix (us_Job u) "git://" = true ∧ Contains (us_Job u) ".." = false;
  wf_fanout : s_Foreach st = None ∨ s_Matrix st = None;
  wf_matrix : ∀ m, s_Matrix st = Some m →
    mx_Dimensions m ≠ [] ∧ NoDup (md_Name <$> mx_Dimensions m) ∧
    (∀ ex k, ex ∈ mx_Exclude m → is_Some (ex !! k) → k ∈ md_Name <$> mx_Dimensions m);
  wf_if : s_If st = "" ∨ ∃ ast, CompileExpr (s_If st) = inr ast
}.

Lemma on_ok {A} (o : option A) f : on o f = Ok tt ↔ ∀ a, o = Some a → f a = Ok tt.
Proof. destruct o; simpl; naive_solver. Qed.

Lemma sorted_keys_each {V} (m : gmap string V) (f : string → res unit) :
  each (λ _, f) (sorted_keys m) = Ok tt ↔ ∀ k, is_Some (m !! k) → f k = Ok tt.
Proof.
  rewrite each_ok. setoid_rewrite <-elem_of_sorted_keys. setoid_rewrite list_elem_of_lookup. naive_solver.
Qed.

Lemma flat_map_singleton {A B} (f : A → B) l : flat_map (λ x, [f x]) l = f <$> l.
Proof. induction l as [|x l IH]; [done|]. rewrite fmap_cons. cbn [flat_map app]. by rewrite IH. Qed.

Lemma fmap_indexed_snd {A B} (f : A → B) l : (λ x : nat * A, f x.2) <$> indexed l = f <$> l.
Proof. rewrite <-(indexed_snd l) at 2. by rewrite <-list_fmap_compose. Qed.

Lemma check_matrix_ok pre m :
  check_matrix pre m = Ok tt →
  mx_Dimensions m ≠ [] ∧ NoDup (md_Name <$> mx_Dimensions m) ∧
  (∀ ex k, ex ∈ mx_Exclude m → is_Some (ex !! k) → k ∈ md_Name <$> mx_Dimensions m).
Proof.
  unfold check_matrix. rewrite then_ok, fail_if_ok, bool_decide_eq_false.
  intros [Hne (names & Hf & Hex)%bind_ok]. split; [done|].
  apply (fold_names _ (λ d, [md_Name d]) (λ _, True)) in Hf as (-> & Hnd & _ & _).
  - rewrite flat_map_singleton in *. split; [done|]. intros ex k Hin Hk.
    apply list_elem_of_lookup in Hin as [i Hi].
    pose proof (proj1 (each_ok _ _) Hex i ex Hi) as H. simpl in H.
    rewrite (sorted_keys_each ex) in H. specialize (H k Hk).
    apply fail_if_ok, bool_decide_eq_false, dec_stable in H.
    by rewrite elem_of_union, elem_of_list_to_set in H; destruct H as [H| ?%elem_of_empty].
  - intros s d s' _. unfold check_dimension. rewrite !then_ok, !fail_if_ok.
    rewrite bool_decide_eq_false. intros (_ & Hnew & _ & [= <-]).
    split; [set_solver|]. split; [apply NoDup_singleton|].
    split; [|done]. by intros n ->%list_elem_of_singleton.
Qed.

Lemma validateStepFull_ok path ns st ns' :
  validateStepFull path ns st = Ok ns' →
  ns' = {[s_Name st]} ∪ ns ∧ (s_Name st ∉ ns) ∧
  (s_Name st = "" ∨ is_identifier (s_Name st) = true) ∧
  (∀ k, is_Some (s_Outputs st !! k) → is_identifier k = true) ∧
  actionCount st = 1 ∧
  (s_Foreach st = None ∨ s_Matrix st = None) ∧
  (∀ m, s_Matrix st = Some m →
    mx_Dimensions m ≠ [] ∧ NoDup (md_Name <$> mx_Dimensions m) ∧
    (∀ ex k, ex ∈ mx_Exclude m → is_Some (ex !! k) → k ∈ md_Name <$> mx_Dimensions m)).
Proof.
  unfold validateStepFull. rewrite !then_ok, !fail_if_ok, bool_decide_eq_false.
  rewrite (sorted_keys_each (s_Outputs st)).
  intros (Hnew & Hid & Hout & H0 & H1 & _ & _ & _ & _ & Hfan & _ & Hmx & [= <-]).
  split; [done|]. split; [done|]. split.
  { destruct (String.eqb_spec (s_Name st) ""); [by left|right]. simpl in Hid. by apply negb_false_iff in Hid. }
  split. { intros k Hk. specialize (Hout k Hk). by apply fail_if_ok, negb_false_iff in Hout. }
  split. { apply Nat.eqb_neq in H0. apply Nat.ltb_ge in H1. lia. }
  split. { destruct (s_Foreach st), (s_Matrix st); auto; done. }
  intros m Hm. eapply check_matrix_ok. by apply (proj1 (on_ok _ _) Hmx).
Qed.

Lemma validate_concrete_ok CE PQ PD native path ns st ns' :
  validate_concrete CE PQ PD native path ns st = Ok ns' →
  ns' = {[s_Name st]} ∪ ns ∧ (s_Name st ∉ ns) ∧ step_wf CE native st.
Proof.
  unfold validate_concrete. rewrite bind_ok.
  intros (n1 & Hfull & H). rewrite !then_ok, !fail_if_ok in H.
  destruct H as (Hcache & Huses & _ & _ & _ & Hforb & Htarget & Hretry & Hif & Hnat & [= <-]).
  apply validateStepFull_ok in Hfull as (-> & Hnew & Hname & Hout & Hact & Hfan & Hmx).
  split; [done|]. split; [done|]. constructor; try done.
  - intros ->. simpl in Hnat. by destruct (String.eqb_spec (s_Container st) "").
  - intros Hne. unfold checkStepExecTarget in Htarget. destruct (s_RunsIn st) as [ri|]; [|done].
    rewrite !then_ok, !fail_if_ok in Htarget. destruct Htarget as (Hu & _ & _ & Hc & _).
    split; [by destruct (String.eqb_spec (s_Container st) "")|by destruct (s_Uses st)].
  - intros c Hc. pose proof (proj1 (on_ok _ _) Hcache c Hc) as H.
    rewrite !then_ok, !fail_if_ok in H. destruct H as (_ & Hk & Hlo & Hhi).
    apply Z.ltb_ge in Hlo, Hhi. by apply String.eqb_neq in Hk.
  - intros r Hr. unfold validateRetry in Hretry. rewrite Hr in Hretry.
    rewrite !then_ok, !fail_if_ok in Hretry. destruct Hretry as (Hrun & Ha & _).
    apply Z.ltb_ge in Ha. split; [done|]. by destruct (String.eqb_spec (s_Run st) "").
  - intros u Hu. unfold validateUsesStep in Huses. rewrite then_ok in Huses.
    destruct Huses as [_ Huses]. pose proof (proj1 (on_ok _ _) Huses u Hu) as H.
    rewrite !then_ok, !fail_if_ok in H. destruct H as (_ & Hg & _ & Hd). by apply negb_false_iff in Hg.
  - apply wrap_ok in Hif. unfold ValidateConditionExpr in Hif.
    destruct (String.eqb_spec (s_If st) ""); [by left|right]. destruct (CE _) as [[]|ast]; [done..|by exists ast].
Qed.

(** The concrete steps of a list of entries: a parallel block stands for its
    children. *)
Definition concrete (e : StepEntry) : list Step :=
  match e_Parallel e with [] => [e_Step e] | l => l end.

Lemma validate_entry_ok CE PQ PD prefix allow native ns ie ns' :
  validate_entry CE PQ PD prefix allow native ns ie = Ok ns' →
  let names := s_Name <$> concrete ie.2 in
  ns' = list_to_set names ∪ ns ∧ NoDup names ∧ (∀ n, n ∈ names → n ∉ ns) ∧
  Forall (λ st, step_wf CE native st ∧ (allow = false → s_Approval st = None)) (concrete ie.2) ∧
  (e_Parallel ie.2 = [] → s_Name (e_Step ie.2) ≠ "") ∧
  Forall (λ st, s_Uses st = None) (e_Parallel ie.2).
Proof.
  assert (∀ path st, no_approval allow path st = Ok tt → allow = false → s_Approval st = None) as Happ.
  { intros path st H%fail_if_ok ->. by destruct (s_Approval st). }
  unfold validate_entry, concrete. destruct (e_Parallel ie.2) as [|c cs] eqn:Ep.
  - rewrite !then_ok, fail_if_ok. intros (Hne & Ha & (-> & Hnew & Hwf)%validate_concrete_ok).
    simpl. split; [set_solver|]. split; [apply NoDup_singleton|]. split; [set_solver|].
    split; [by constructor; eauto|]. split; [intros _; by apply String.eqb_neq|constructor].
  - rewrite then_ok. intros [_ H]. cbv zeta.
    apply (fold_names _ (λ jst, [s_Name jst.2]) (λ jst, (step_wf CE native jst.2 ∧
      (allow = false → s_Approval jst.2 = None)) ∧ s_Uses jst.2 = None)) in H as (-> & Hnd & Hnew & HP).
    + rewrite (flat_map_singleton (λ jst : nat * Step, s_Name jst.2)), fmap_indexed_snd in *. split; [done|]. split; [done|]. split; [done|].
      assert (Forall (λ st, (step_wf CE native st ∧ (allow = false → s_Approval st = None)) ∧
                            s_Uses st = None) (c :: cs)) as HF.
      { rewrite <-(indexed_snd (c :: cs)). rewrite Forall_fmap. exact HP. }
      split; [eapply Forall_impl; [exact HF|naive_solver]|].
      split; [done|eapply Forall_impl; [exact HF|naive_solver]].
    + intros s jst s' _. unfold validate_child. rewrite !then_ok, fail_if_ok.
      intros (Ha & Hu & (-> & Hn & Hwf)%validate_concrete_ok).
      split; [set_solver|]. split; [apply NoDup_singleton|]. split; [set_solver|].
      split; [eauto|]. by destruct (s_Uses jst.2).
Qed.

Lemma validateStepEntries_ok CE PQ PD entries prefix ns allow native ns' :
  validateStepEntries CE PQ PD entries prefix ns allow native = Ok ns' →
  let names := s_Name <$> flat_map concrete entries in
  ns' = list_to_set names ∪ ns ∧ NoDup names ∧ (∀ n, n ∈ names → n ∉ ns) ∧
  Forall (λ st, step_wf CE native st ∧ (allow = false → s_Approval st = None)) (flat_map concrete entries) ∧
  Forall (λ e, (e_Parallel e = [] → s_Name (e_Step e) ≠ "") ∧ Forall (λ st, s_Uses st = None) (e_Parallel e))
    entries.
Proof.
  unfold validateStepEntries. intros H.
  apply (fold_names _ (λ ie, s_Name <$> concrete ie.2) (λ ie,
    Forall (λ st, step_wf CE native st ∧ (allow = false → s_Approval st = None)) (concrete ie.2) ∧
    (e_Parallel ie.2 = [] → s_Name (e_Step ie.2) ≠ "") ∧ Forall (λ st, s_Uses st = None) (e_Parallel ie.2)))
    in H as (-> & Hnd & Hnew & HP).
  - assert (flat_map (λ ie : nat * StepEntry, s_Name <$> concrete ie.2) (indexed entries)
            = s_Name <$> flat_map concrete entries) as E.
    { rewrite <-(indexed_snd entries) at 2. clear.
      induction (indexed entries) as [|x l IH]; simpl; [done|]. by rewrite fmap_app, IH. }
    rewrite E in *. cbv zeta. split; [done|]. split; [done|]. split; [done|].
    assert (Forall (λ e,
      Forall (λ st, step_wf CE native st ∧ (allow = false → s_Approval st = None)) (concrete e) ∧
      (e_Parallel e = [] → s_Name (e_Step e) ≠ "") ∧ Forall (λ st, s_Uses st = None) (e_Parallel e)) entries) as HF.
    { rewrite <-(indexed_snd entries). rewrite Forall_fmap. exact HP. }
    split; [|eapply Forall_impl; [exact HF|naive_solver]].
    clear -HF. induction HF as [|e l [He _] _ IH]; simpl; [constructor|]. by apply Forall_app.
  - intros s ie s' _ Hv. apply validate_entry_ok in Hv. naive_solver.
Qed.

(** ** Volumes *)

Lemma isPathAncestor_spec a b :
  IsAbs a = IsAbs b → Clean a = a → Clean b = b → a ≠ "." → b ≠ "." →
  isPathAncestor a b = true ↔ ∃ w ws, segments b = segments a ++ w :: ws.
Proof.
  intros Hk Ha Hb Hna Hnb. unfold isPathAncestor. destruct (String.eqb_spec a "/") as [->|Hra].
  - change (IsAbs "/") with true in Hk. rewrite clean_root_segments, negb_true_iff, String.eqb_neq.
    destruct (String.eqb_spec b "/") as [->|Hrb].
    + rewrite clean_root_segments. split; [done|]. by intros (w & ws & ?).
    + split; [|done]. intros _.
      destruct (segments b) as [|w ws] eqn:E; [|by exists w, ws]. exfalso. apply Hrb.
      apply clean_segments_inj; [by rewrite <-Hk|done|done|by rewrite E, clean_root_segments].
  - destruct (IsAbs a) eqn:Ea; [|by apply HasPrefix_dir_rel; congruence].
    destruct (decide (b = "/")) as [->|Hrb]; [|by apply HasPrefix_dir; split_and!; congruence].
    rewrite clean_root_segments. split.
    + intros [r Hr]%HasPrefix_spec. by destruct a as [|c [|c' a]].
    + intros (w & ws & Hw). by destruct (segments a).
Qed.

(** Two clean paths of one kind that are neither equal nor nested contain one
    another in no sense. *)
Lemma ancestors_disjoint a b :
  IsAbs a = IsAbs b → Clean a = a → Clean b = b → a ≠ "." → b ≠ "." → a ≠ b →
  isPathAncestor a b = false → isPathAncestor b a = false → disjoint_dirs a b.
Proof.
  intros Hk Ha Hb Hna Hnb Hab.
  rewrite <-!not_true_iff_false, !isPathAncestor_spec by congruence. intros H1 H2. split.
  - intros [[|w ws] E]; [|by eauto]. rewrite app_nil_r in E.
    apply Hab, clean_segments_inj; congruence.
  - intros [[|w ws] E]; [|by eauto]. rewrite app_nil_r in E.
    apply Hab, clean_segments_inj; congruence.
Qed.

(** The cleaned mount path of a volume, and what its own check guarantees. *)
Definition mount_of (v : VolumeMount) : string := Clean (vm_MountPath v).
Definition env_of (v : VolumeMount) : string := VolumeEnvName (VolumeAlias v).

Record volume_wf (root : string) (v : VolumeMount) : Prop := {
  vol_names : vm_Name v ≠ [] ∧ "" ∉ vm_Name v;
  vol_alias : VolumeAlias v ≠ "";
  vol_env : is_identifier (env_of v) = true ∧ env_of v ∉ reservedVarNames;
  vol_posix : Contains (vm_MountPath v) "\" = false ∧ has_drive (vm_MountPath v) = false;
  vol_inside : IsAbs (mount_of v) = false → Forall proper_seg (segments (mount_of v));
  vol_outside : IsAbs root = true → IsAbs (mount_of v) = true →
    ¬ segments (Clean root) `prefix_of` segments (mount_of v)
}.

Lemma clean_mount_ok p v root c :
  cleanVolumeMountPath p v root = Ok c →
  c = mount_of v ∧
  (Contains (vm_MountPath v) "\" = false ∧ has_drive (vm_MountPath v) = false) ∧
  (IsAbs c = false → Forall proper_seg (segments c)) ∧
  (IsAbs root = true → IsAbs c = true → ¬ segments (Clean root) `prefix_of` segments c).
Proof.
  unfold cleanVolumeMountPath. rewrite !then_ok, !fail_if_ok. intros (Hne & Hdrive & Hbs & H).
  rewrite Clean_IsAbs in H. destruct (IsAbs (vm_MountPath v)) eqn:Habs.
  - destruct (_ || _) eqn:Hin in H; [done|]. injection H as <-. apply orb_false_iff in Hin as [Hanc Heq].
    split; [done|]. split; [done|]. rewrite Clean_IsAbs, Habs. split; [done|]. intros Hroot _ Hpre.
    apply String.eqb_neq in Heq. apply not_true_iff_false in Hanc.
    assert (∀ q, IsAbs q = true → Clean q ≠ ".") as Hdot.
    { intros q Hq Hd. rewrite <-(Clean_IsAbs q), Hd in Hq. done. }
    apply Hanc, isPathAncestor_spec; [by rewrite !Clean_IsAbs; congruence|apply Clean_idemp..| | |];
      [by auto..|]. destruct Hpre as [[|w ws] E]; [|by eauto]. exfalso. apply Heq.
    rewrite app_nil_r in E. apply clean_segments_inj; [|apply Clean_idemp..|done].
    rewrite !Clean_IsAbs; congruence.
  - destruct (_ || _) eqn:Hesc in H; [done|]. injection H as <-. apply orb_false_iff in Hesc as [Hd Hpre].
    split; [done|]. split; [done|]. rewrite Clean_IsAbs, Habs. split; [|done]. intros _.
    apply Clean_relative_contained; [done|by apply String.eqb_neq|done].
Qed.

Lemma check_volume_ok vols root st i v st' :
  check_volume vols root st (i, v) = Ok st' →
  st' = (<[env_of v := i]> st.1, st.2 ++ [mount_of v]) ∧ st.1 !! env_of v = None ∧ volume_wf root v.
Proof.
  unfold check_volume. rewrite then_ok. intros [Hn (env & He & H)%bind_ok].
  unfold validateVolumeEnvName in He. rewrite !then_ok, !fail_if_ok in He.
  destruct He as (Hid & Hres & [= <-]). apply negb_false_iff in Hid. apply bool_decide_eq_false in Hres.
  fold (env_of v) in *. destruct (st.1 !! env_of v) eqn:E; [done|].
  apply bind_ok in H as (c & (-> & Hpos & Hin & Hout)%clean_mount_ok & [= <-]).
  split; [done|]. split; [done|].
  unfold validateVolumeName in Hn. rewrite !then_ok, !fail_if_ok, each_ok in Hn.
  destruct Hn as (Hnil & Hall & Has). apply bool_decide_eq_false in Hnil.
  assert ("" ∉ vm_Name v) as Hempty.
  { intros [k Hk]%list_elem_of_lookup. apply Hall, fail_if_ok in Hk. done. }
  constructor; try done. unfold VolumeAlias.
  destruct (String.eqb_spec (vm_As v) ""); simpl in Has |- *; [|done]. by apply String.eqb_neq.
Qed.

Lemma check_volumes_ok vols root l :
  ∀ st st', fold_res (check_volume vols root) st l = Ok st' →
  st'.2 = st.2 ++ (mount_of <$> l.*2) ∧ NoDup (env_of <$> l.*2) ∧
  (∀ v, v ∈ l.*2 → st.1 !! env_of v = None) ∧ Forall (volume_wf root) l.*2.
Proof.
  induction l as [|[i v] l IH]; intros st st'.
  - intros [= <-]. rewrite !fmap_nil, app_nil_r. split; [done|]. split; [constructor|].
    split; [by intros v ?%not_elem_of_nil|constructor].
  - rewrite fold_res_cons. intros (s1 & (-> & Hnew & Hwf)%check_volume_ok & H).
    apply IH in H as (E & Hnd & Hfresh & Hall). rewrite !fmap_cons. cbn [fst snd] in *.
    split; [by rewrite E, <-app_assoc|]. split.
    { apply NoDup_cons. split; [|done]. intros (w & Hw & Hin)%list_elem_of_fmap.
      specialize (Hfresh w Hin). by rewrite <-Hw, lookup_insert_eq in Hfresh. }
    split; [|by constructor].
    intros w [->|Hw]%elem_of_cons; [done|]. specialize (Hfresh w Hw).
    by apply lookup_insert_None in Hfresh as [??].
Qed.

Lemma check_pairs_ok vols cleaned :
  ∀ k, check_pairs vols k cleaned = Ok tt →
  ∀ i j ci cj, i < j → cleaned !! i = Some ci → cleaned !! j = Some cj → ci ≠ cj ∧ overlap ci cj = false.
Proof.
  induction cleaned as [|c l IH]; intros k; [done|]. cbn [check_pairs]. rewrite then_ok, each_from_ok.
  intros [H1 H2] [|i] [|j] ci cj Hij Hi Hj; [lia| |lia|].
  - injection Hi as <-. specialize (H1 j cj Hj). unfold check_pair in H1.
    rewrite then_ok, !fail_if_ok in H1. by rewrite String.eqb_neq in H1.
  - eapply (IH (S k) H2 i j); [lia|done|done].
Qed.

(** ** The pieces of [Job_Validate] *)

Section pieces.
Variables (CE : string → cel_issue + cel_ast) (PQ PD : string → option text) (sprint gosyntax : val → string) (quote : string → string).

Lemma Job_Validate_ok j :
  Job_Validate CE PQ PD sprint gosyntax quote j = Ok tt →
  let spec := j_Spec j in
  ValidateName (me_Name (j_Metadata j)) = Ok tt ∧ sp_Steps spec ≠ [] ∧
  ValidateVolumes spec = Ok tt ∧
  (∃ names all, validateStepEntries CE PQ PD (sp_Steps spec) "spec.steps" ∅ true (sp_Native spec) = Ok names ∧
     validateStepEntries CE PQ PD (sp_Finally spec) "spec.finally" names false (sp_Native spec) = Ok all) ∧
  (specDefersContainerValidation spec = false → sp_Native spec = false → ValidateContainerReferences spec = Ok tt) ∧
  each (check_input sprint) (pa_Inputs (sp_Params spec)) = Ok tt ∧
  each check_output (pa_Outputs (sp_Params spec)) = Ok tt ∧
  on (sp_Concurrency spec) check_concurrency = Ok tt.
Proof.
  unfold Job_Validate. rewrite !then_ok, !fail_if_ok, !wrap_ok.
  intros (_ & _ & _ & Hname & Hlen & _ & _ & _ & _ & _ & _ & Hvol & _ & H).
  apply bind_ok in H as (names & Hsteps & H). apply bind_ok in H as (all & Hfin & H).
  rewrite !then_ok in H. destruct H as (Href & Hin & Hout & Hconc).
  split; [done|]. split. { intros E. by rewrite E in Hlen. }
  split; [done|]. split; [by exists names, all|]. split; [|done].
  intros Hd Hn. by rewrite Hd, Hn in Href.
Qed.
End pieces.

Lemma check_input_ok sprint i p :
  check_input sprint i p = Ok tt →
  is_identifier (in_Name p) = true ∧ in_Type p ∈ validTypes ∧
  ∀ choices, in_Choices p = Some choices →
    in_Type p ∈ ["string"; "int"] ∧ in_Pattern p = "" ∧ choices ≠ [] ∧ NoDup choices ∧
    (in_Default p ≠ VNull → sprint (in_Default p) ∈ choices).
Proof.
  unfold check_input. rewrite !then_ok, !fail_if_ok, negb_false_iff, bool_decide_eq_false, on_ok.
  intros (_ & Hid & Hty & Hc). apply dec_stable in Hty. split; [done|]. split; [done|].
  intros choices E. specialize (Hc choices E). unfold check_choices in Hc.
  rewrite !then_ok, !fail_if_ok, negb_false_iff, bool_decide_eq_false in Hc.
  destruct Hc as (Hb & Ha & Hp & Hne & (seen & Hf & Hd)%bind_ok).
  apply String.eqb_neq in Hb, Ha. apply String.eqb_eq in Hp.
  apply (fold_names _ (λ c, [c]) (λ _, True)) in Hf as (-> & Hnd & _ & _).
  - rewrite flat_map_singleton, list_fmap_id in *. split.
    { unfold validTypes in Hty. rewrite !elem_of_cons in Hty.
      destruct Hty as [E1|[E1|[E1|[E1|[]%elem_of_nil]]]]; rewrite E1 in *;
        [left|done|right; left|done]. }
    split; [done|]. split; [done|]. split; [done|]. intros Hnull.
    assert (sprint (in_Default p) ∈@{gset string} list_to_set choices ∪ ∅) as Hs.
    { destruct (in_Default p); try done; by apply fail_if_ok, bool_decide_eq_false, dec_stable in Hd. }
    by apply elem_of_union in Hs as [?%elem_of_list_to_set| ?%elem_of_empty].
  - intros s c s' _. unfold check_choice. destruct (decide (c ∈ s)); [done|]. intros [= <-].
    split; [set_solver|]. split; [apply NoDup_singleton|]. split; [|done].
    by intros n0 ->%list_elem_of_singleton.
Qed.

Lemma check_concurrency_ok c :
  check_concurrency c = Ok tt →
  Forall (λ s, sm_Pool s ≠ "" ∧ (0 < sm_Capacity s)%Z) (co_Semaphores c) ∧
  NoDup (ol_Name <$> co_OrLocks c) ∧
  Forall (λ l, is_identifier (ol_Name l) = true ∧ (fs_Literal (ol_In l) = [] ↔ fs_Expr (ol_In l) ≠ ""))
    (co_OrLocks c).
Proof.
  unfold check_concurrency. rewrite then_ok. intros [Hs (names & Hf & _)%bind_ok]. split.
  { apply Forall_lookup. intros k s Hk. specialize (proj1 (each_ok _ _) Hs k s Hk) as H.
    unfold check_semaphore in H. rewrite then_ok, !fail_if_ok in H. destruct H as [H1 H2].
    apply String.eqb_neq in H1. apply Z.leb_gt in H2. by split. }
  apply (fold_names _ (λ il, [ol_Name il.2]) (λ il, is_identifier (ol_Name il.2) = true ∧
    (fs_Literal (ol_In il.2) = [] ↔ fs_Expr (ol_In il.2) ≠ ""))) in Hf as (_ & Hnd & _ & HF).
  - rewrite (flat_map_singleton (λ il : nat * OrLock, ol_Name il.2)), fmap_indexed_snd in Hnd.
    split; [done|]. rewrite <-(indexed_snd (co_OrLocks c)), Forall_fmap. exact HF.
  - intros s [k ol] s' _. unfold check_orlock. cbn [snd fst]. cbv zeta.
    rewrite !then_ok, !fail_if_ok, negb_false_iff, bool_decide_eq_false.
    intros (_ & Hid & Hnew & H1 & H2 & [= <-]).
    split; [set_solver|]. split; [apply NoDup_singleton|].
    split; [by intros n0 ->%list_elem_of_singleton|]. split; [done|].
    destruct (fs_Literal (ol_In ol)), (String.eqb_spec (fs_Expr (ol_In ol)) ""); simpl in *; naive_solver.
Qed.

(** ** Properties *)

(** A job that validation accepts has well-formed steps: there is at least
    one, all the concrete steps of [steps] and [finally] (the children of parallel
    blocks included) have distinct names, each does exactly one action and
    satisfies the per-step rules, no step of [finally] waits for an approval, a
    step outside a parallel block is named and a child of one is no [uses:]; and,
    unless the check waits for a template or the job is native, every [container:]
    names the primary container, a reserved one or one the podTemplate defines. *)
Theorem validated_steps_wf CE PQ PD sprint gosyntax quote (j : Job)
    (Hok : Job_Validate CE PQ PD sprint gosyntax quote j = Ok tt) :
  let spec := j_Spec j in
  let all := flat_map concrete (sp_Steps spec ++ sp_Finally spec) in
  sp_Steps spec ≠ [] ∧
  NoDup (s_Name <$> all) ∧
  Forall (step_wf CE (sp_Native spec)) all ∧
  Forall (λ st, s_Approval st = None) (flat_map concrete (sp_Finally spec)) ∧
  Forall (λ e, (e_Parallel e = [] → s_Name (e_Step e) ≠ "") ∧ Forall (λ st, s_Uses st = None) (e_Parallel e))
    (sp_Steps spec ++ sp_Finally spec) ∧
  (specDefersContainerValidation spec = false → sp_Native spec = false →
   ∀ st, st ∈ all_steps spec → s_Container st ≠ "" → s_ScopeID st = "" →
   IsForbiddenStepContainer (s_Container st) = false ∧
   (IsReservedContainerName (s_Container st) = true ∨ s_Container st ∈ defined_containers spec)).
Proof.
  apply Job_Validate_ok in Hok as (_ & Hne & _ & (names & nall & Hs & Hf) & Href & _). cbv zeta.
  apply validateStepEntries_ok in Hs as (Hn & Hnd & _ & Hwf & Hent).
  apply validateStepEntries_ok in Hf as (_ & Hndf & Hdis & Hwff & Hentf).
  rewrite flat_map_app, fmap_app. split; [done|]. split.
  { apply NoDup_app. split; [done|]. split; [|done]. intros x Hx Hxf. apply (Hdis x Hxf). subst names.
    apply elem_of_union_l. by apply elem_of_list_to_set. }
  split. { apply Forall_app. split; (eapply Forall_impl; [eassumption|]); by intros st [??]. }
  split. { eapply Forall_impl; [exact Hwff|]. intros st [_ H]. by apply H. }
  split; [by apply Forall_app|]. intros Hd Hnat st Hin Hc Hscope.
  apply list_elem_of_lookup in Hin as [k Hk].
  pose proof (proj1 (each_ok _ _) (Href Hd Hnat) k st Hk) as H. unfold check_reference in H.
  apply String.eqb_neq in Hc. rewrite Hc, Hscope in H. simpl in H.
  destruct (IsForbiddenStepContainer _); [done|]. split; [done|].
  destruct (IsReservedContainerName _); [by left|]. right. simpl in H.
  by destruct (bool_decide_reflect (s_Container st ∈ defined_containers (j_Spec j))).
Qed.

(** A job's volumes never collide: each has a usable alias whose variable is
    a fresh, unreserved identifier, a relative mount path stays inside the
    workspace and an absolute one outside it, and no two mount paths coincide or,
    the workspace root apart, contain one another. *)
Theorem validated_volumes_isolated (spec : Spec)
    (Hok : ValidateVolumes spec = Ok tt) (Hne : sp_Volumes spec ≠ []) :
  sp_Detached spec = false ∧
  Forall (volume_wf (workspace_root spec)) (sp_Volumes spec) ∧
  NoDup (env_of <$> sp_Volumes spec) ∧
  (∀ i k v w, i < k → sp_Volumes spec !! i = Some v → sp_Volumes spec !! k = Some w →
     mount_of v ≠ mount_of w ∧
     (IsAbs (mount_of v) = IsAbs (mount_of w) → mount_of v ≠ "." → mount_of w ≠ "." →
      disjoint_dirs (mount_of v) (mount_of w))).
Proof.
  unfold ValidateVolumes in Hok. rewrite bool_decide_eq_false_2 in Hok by done.
  rewrite !then_ok, !fail_if_ok in Hok. destruct Hok as (Hdet & _ & (st & Hf & Hp)%bind_ok).
  apply check_volumes_ok in Hf as (Hmounts & Hnd & _ & Hwf). rewrite indexed_snd in *.
  split; [done|]. split; [done|]. split; [done|]. intros i k v w Hik Hv Hw.
  simpl in Hmounts. rewrite Hmounts in Hp.
  destruct (check_pairs_ok _ _ _ Hp i k (mount_of v) (mount_of w) Hik) as [Hneq Hov];
    [by rewrite list_lookup_fmap, Hv|by rewrite list_lookup_fmap, Hw|].
  split; [done|]. intros Habs Hdv Hdw. unfold overlap in Hov.
  rewrite (proj2 (String.eqb_neq _ _) Hdv), (proj2 (String.eqb_neq _ _) Hdw) in Hov. simpl in Hov.
  apply orb_false_iff in Hov as [H1 H2]. apply ancestors_disjoint; auto; apply Clean_idemp.
Qed.

(** The parameters and locks of an accepted job are well formed: inputs are
    identifiers of a known type; a declared choice list is non-empty, free of
    duplicates, belongs to a string or int input without a pattern, and contains
    the default when there is one; outputs are typed identifiers; a semaphore has
    a pool and a positive capacity; or-locks have distinct identifier names and
    exactly one of a literal list and an expression. *)
Theorem validated_params_wf CE PQ PD sprint gosyntax quote (j : Job)
    (Hok : Job_Validate CE PQ PD sprint gosyntax quote j = Ok tt) :
  let spec := j_Spec j in
  Forall (λ p, is_identifier (in_Name p) = true ∧ in_Type p ∈ validTypes ∧
    ∀ choices, in_Choices p = Some choices →
      in_Type p ∈ ["string"; "int"] ∧ in_Pattern p = "" ∧ choices ≠ [] ∧ NoDup choices ∧
      (in_Default p ≠ VNull → sprint (in_Default p) ∈ choices)) (pa_Inputs (sp_Params spec)) ∧
  Forall (λ o, is_identifier (ou_Name o) = true ∧ ou_Type o ≠ "") (pa_Outputs (sp_Params spec)) ∧
  (∀ c, sp_Concurrency spec = Some c →
    Forall (λ s, sm_Pool s ≠ "" ∧ (0 < sm_Capacity s)%Z) (co_Semaphores c) ∧
    NoDup (ol_Name <$> co_OrLocks c) ∧
    Forall (λ l, is_identifier (ol_Name l) = true ∧ (fs_Literal (ol_In l) = [] ↔ fs_Expr (ol_In l) ≠ ""))
      (co_OrLocks c)).
Proof.
  apply Job_Validate_ok in Hok as (_ & _ & _ & _ & _ & Hin & Hout & Hc). cbv zeta. split_and!.
  - apply Forall_lookup. intros k p Hk. eapply check_input_ok. by apply (proj1 (each_ok _ _) Hin k p).
  - apply Forall_lookup. intros k o Hk. pose proof (proj1 (each_ok _ _) Hout k o Hk) as H.
    unfold check_output in H. rewrite !then_ok, !fail_if_ok, negb_false_iff in H.
    destruct H as (_ & Hid & Hty). split; [done|by apply String.eqb_neq].
  - intros c E. apply check_concurrency_ok. by apply (proj1 (on_ok _ _) Hc).
Qed.

(** ** An accepted job *)

Definition run_step (name : string) : Step :=
  MkStep name "" ∅ "make" ∅ None None None None None None None false "" None "" "" None (whole_minutes 0) None None None None.

Definition example_matrix : MatrixDef :=
  MkMatrixDef [MkMatrixDimension "os" (MkForeachSource ["linux"; "darwin"] "");
               MkMatrixDimension "arch" (MkForeachSource [] "{{ .Params.archs }}")]
    [<["os" := "darwin"]> ∅].

Definition example_spec : Spec :=
  MkSpec
    (MkParams [MkInput "level" "int" false (VStr "2") "" false (Some ["1"; "2"; "3"])]
              [MkOutput "digest" "string"])
    (Some (MkConcurrency "" [MkSemaphore "licences" 3] [MkOrLock "board" (MkForeachSource ["b1"; "b2"] "")]))
    []
    [MkStepEntry (run_step "fetch") [];
     MkStepEntry Step_zero
       [MkStep "build" "" ∅ "make" ∅ None None None None None None None false "go" None "" "" None (whole_minutes 0)
          (Some (MkRetrySpec 2 "")) None (Some example_matrix) None;
        run_step "lint"]]
    [MkStepEntry (run_step "cleanup") []]
    (Some (MkPodTemplate "" false false None None [("containers", VList [VMap [("name", VStr "go")]])]))
    false false false None
    [MkVolumeMount ["go-cache"] "" "/root/.cache"; MkVolumeMount ["a"; "b"] "src" "vendor/../src"]
    "" ∅.

Definition example_job : Job :=
  MkJob SupportedAPIVersion "Job" (MkMetadata "build" ∅ ∅) example_spec.

Definition any_ast : string → cel_issue + cel_ast := λ _, inr (MkAst true "bool" (Ok (Ret (CelBool true)))).
Definition no_parse_error : string → option text := λ _, None.
Definition show_string (v : val) : string := as_str v.

Definition validate_example : res unit :=
  Job_Validate any_ast no_parse_error no_parse_error show_string show_string (λ s, s) example_job.

Lemma validated_steps_wf_witness :
  validate_example = Ok tt ∧ NoDup (s_Name <$> flat_map concrete (sp_Steps example_spec ++ sp_Finally example_spec)).
Proof.
  split; [vm_compute; reflexivity|].
  apply (validated_steps_wf any_ast no_parse_error no_parse_error show_string show_string (λ s, s) example_job).
  vm_compute; reflexivity.
Defined.

Lemma validated_volumes_isolated_witness :
  ValidateVolumes example_spec = Ok tt
  ∧ NoDup (env_of <$> sp_Volumes example_spec).
Proof.
  split; [vm_compute; reflexivity|].
  apply (validated_volumes_isolated example_spec); [vm_compute; reflexivity|done].
Defined.

Lemma validated_params_wf_witness :
  validate_example = Ok tt ∧
  Forall (λ o, is_identifier (ou_Name o) = true ∧ ou_Type o ≠ "") (pa_Outputs (sp_Params example_spec)).
Proof.
  split; [vm_compute; reflexivity|].
  apply (validated_params_wf any_ast no_parse_error no_parse_error show_string show_string (λ s, s) example_job).
  vm_compute; reflexivity.
Defined.
