(* ===== verification/DslKinds.v ===== *)
(** * The other documents: [internal/dsl]'s schedules, webhooks, sources, credentials, variables

    What [ParseSchedule], [ParseWebhookReceiver], [ParseAppSource],
    [ParseGitCredential] and [ParseVars] accept once the YAML is decoded
    ([schedule_parse.go], [webhook_parse.go], [appsource_parse.go],
    [gitcredential_parse.go], [vars_parse.go]), and [Parse] of a job.  The YAML
    decoder, the cron parser and [time.ParseDuration] are parameters. *)

From S2P Require Import Prelude GoStrings Regex DslNames DslTypes DslCondition DslValidate.
From stdpp Require Import options.

(** The five document types have one shape. *)
Record Document (S : Type) := MkDocument {
  dc_APIVersion : string; dc_Kind : string; dc_Metadata : Metadata; dc_Spec : S
}.
Arguments MkDocument {S} _ _ _ _.
Arguments dc_APIVersion {S} _.
Arguments dc_Kind {S} _.
Arguments dc_Metadata {S} _.
Arguments dc_Spec {S} _.
Definition dc_Name {S} (d : Document S) : string := me_Name (dc_Metadata d).

Record AppSyncPolicy := MkSyncPolicy { sp_Interval : string; sp_Prune : bool; sp_AllowManualOverride : bool }.
Record AppSourceSpec := MkAppSourceSpec {
  sc_RepoURL : string; sc_TargetRevision : string; sc_Path : string; sc_SyncPolicy : AppSyncPolicy
}.
Record ScheduleSpec := MkScheduleSpec { sh_Cron : string; sh_Job : string; sh_Params : gmap string string }.
Record WebhookAuth := MkWebhookAuth { wa_Type : string; wa_SecretRef : string; wa_Header : string; wa_AllowUnauthenticated : bool }.
Record WebhookReceiverSpec := MkWebhookReceiverSpec {
  ws_Job : string; ws_AppSource : string; ws_Auth : WebhookAuth; ws_ParamsMapping : gmap string string; ws_Filters : list string
}.
Record GitCredentialSpec := MkGitCredentialSpec { gs_Host : string; gs_Type : string; gs_SecretRef : string }.
Record VarsSpec := MkVarsSpec { vs_Vars : gmap string string }.

#[export] Instance AppSyncPolicy_eq_dec : EqDecision AppSyncPolicy.
Proof. solve_decision. Defined.
#[export] Instance AppSourceSpec_eq_dec : EqDecision AppSourceSpec.
Proof. solve_decision. Defined.

Definition minute : Z := 60 * 1000000000.

Section kinds.
Variables (quote : string → string) (RedactURLCredentials : string → string).
Variables (parseCron : string → res unit) (ParseDuration : string → res Z).

(** The checks every kind begins with; two of the kinds name the version they
    want. *)
Definition validate_header {S} (kind : string) (want : bool) (d : Document S) : res unit :=
  _ ← fail_if (negb (dc_APIVersion d =? SupportedAPIVersion)%string)
        ([Lit "unsupported apiVersion "; Quo (dc_APIVersion d)]
         ++ if want then [Lit " (want "; Quo SupportedAPIVersion; Lit ")"] else []);
  _ ← fail_if (negb (dc_Kind d =? kind)%string)
        ([Lit "unsupported kind "; Quo (dc_Kind d)]
         ++ if (kind =? "Vars")%string then [] else [Lit " (want "; Quo kind; Lit ")"]);
  wrap [Lit "metadata.name "] (ValidateName (dc_Name d)).

Definition Schedule_Validate (s : Document ScheduleSpec) : res unit :=
  _ ← validate_header "Schedule" false s;
  _ ← fail_if (sh_Cron (dc_Spec s) =? "")%string [Lit "spec.cron is required"];
  _ ← wrap [Lit "spec.cron is invalid: "] (parseCron (sh_Cron (dc_Spec s)));
  fail_if (sh_Job (dc_Spec s) =? "")%string [Lit "spec.job is required"].

Definition unauthenticated : string :=
  " requires allowUnauthenticated: true — an unauthenticated webhook lets anyone trigger this job".
Definition auth_required : string :=
  ": spec.auth is required (use type: hmac-sha256, github, or token; or type: none with allowUnauthenticated: true)".

Definition WebhookReceiver_Validate (wr : Document WebhookReceiverSpec) : res unit :=
  let auth := ws_Auth (dc_Spec wr) in
  _ ← validate_header "WebhookReceiver" false wr;
  let hasJob := negb (ws_Job (dc_Spec wr) =? "")%string in
  let hasAppSource := negb (ws_AppSource (dc_Spec wr) =? "")%string in
  _ ← fail_if (Bool.eqb hasJob hasAppSource) [Lit "spec.trigger must set exactly one of job or appSource"];
  _ ← (if existsb (String.eqb (wa_Type auth)) ["hmac-sha256"; "github"; "token"] then Ok tt
       else if (wa_Type auth =? "none")%string then
         fail_if (negb (wa_AllowUnauthenticated auth))
           [Lit "webhook receiver "; Quo (dc_Name wr); Lit ": auth.type "; Quo "none"; Lit unauthenticated]
       else if (wa_Type auth =? "")%string then Err [Lit "webhook receiver "; Quo (dc_Name wr); Lit auth_required]
       else Err [Lit "unsupported auth.type "; Quo (wa_Type auth)]);
  fail_if (negb (wa_Type auth =? "none")%string && (wa_SecretRef auth =? "")%string)
    [Lit "spec.auth.secretRef is required for auth.type "; Quo (wa_Type auth)].

(** [AppSourceSpec.ValidateGitFields] and [IntervalDuration]. *)
Definition ValidateGitFields (s : AppSourceSpec) : res unit :=
  _ ← wrap [Lit "spec.repoURL: "] (ValidateGitRepoURL RedactURLCredentials (sc_RepoURL s));
  _ ← wrap [Lit "spec.targetRevision: "] (ValidateGitRef (sc_TargetRevision s));
  fail_if (HasPrefix (sc_Path s) "-") [Lit "spec.path "; Quo (sc_Path s); Lit " must not start with '-'"].

Definition IntervalDuration (s : AppSourceSpec) : Z :=
  if (sp_Interval (sc_SyncPolicy s) =? "")%string then (5 * minute)%Z
  else match ParseDuration (sp_Interval (sc_SyncPolicy s)) with Ok d => d | Err _ => 0%Z end.

Definition AppSource_Validate (a : Document AppSourceSpec) : res unit :=
  let s := dc_Spec a in
  _ ← validate_header "AppSource" true a;
  _ ← fail_if (sc_RepoURL s =? "")%string [Lit "spec.repoURL is required"];
  _ ← fail_if (sc_TargetRevision s =? "")%string [Lit "spec.targetRevision is required"];
  _ ← fail_if (sc_Path s =? "")%string [Lit "spec.path is required"];
  _ ← ValidateGitFields s;
  _ ← fail_if (Contains (sc_Path s) "..") [Lit "spec.path must not contain .."];
  if (sp_Interval (sc_SyncPolicy s) =? "")%string then Ok tt
  else
    d ← wrap [Lit "spec.syncPolicy.interval: "] (ParseDuration (sp_Interval (sc_SyncPolicy s)));
    fail_if (d <? minute)%Z [Lit "spec.syncPolicy.interval must be at least 1m"].

Definition GitCredential_Validate (gc : Document GitCredentialSpec) : res unit :=
  let s := dc_Spec gc in
  _ ← validate_header "GitCredential" true gc;
  _ ← fail_if (gs_Host s =? "")%string [Lit "spec.host is required"];
  _ ← fail_if (negb (gs_Type s =? "token")%string && negb (gs_Type s =? "sshKey")%string)
        [Lit "spec.type must be "; Quo "token"; Lit " or "; Quo "sshKey"; Lit ", got "; Quo (gs_Type s)];
  fail_if (gs_SecretRef s =? "")%string [Lit "spec.secretRef is required"].

Definition Vars_Validate (v : Document VarsSpec) : res unit :=
  _ ← validate_header "Vars" false v;
  ValidateVarKeys quote (vs_Vars (dc_Spec v)).

(** The [Parse] functions, over what the decoder returns. *)
Definition parse_with {D} (validate : D → res unit) (decoded : res D) : res D :=
  d ← wrap [Lit "decode yaml: "] decoded; _ ← validate d; Ok d.

Definition ParseSchedule := parse_with Schedule_Validate.
Definition ParseWebhookReceiver := parse_with WebhookReceiver_Validate.
Definition ParseAppSource := parse_with AppSource_Validate.
Definition ParseGitCredential := parse_with GitCredential_Validate.
Definition ParseVars := parse_with Vars_Validate.
End kinds.

Lemma parse_with_ok {D} (validate : D → res unit) r d :
  parse_with validate r = Ok d ↔ r = Ok d ∧ validate d = Ok tt.
Proof.
  unfold parse_with. rewrite bind_ok. setoid_rewrite wrap_ok. setoid_rewrite then_ok. naive_solver.
Qed.
