(* ===== verification/AgentSteps.v ===== *)
(** * internal/agent: steps, their environment and their outputs

    Models the wire types of a claim ([internal/api/types.go]), the expansion of
    a matrix step ([matrix.go]), the step context and the aggregation of outputs
    ([pipeline.go], [stepoutputs.go], [outputsguard.go]), the step environment
    ([stepenv.go], [agent_os.go]) and the containment of paths ([pathguard.go]). *)

From S2P Require Import Prelude GoStrings GoPath DslNames DslTypes DslMatrix DslValidate.
From stdpp Require Import options.

(** ** Wire types *)

Record ClaimMatrixDef := MkClaimMatrix {
  cm_Dimensions : list MatrixDimension; cm_Exclude : list (gmap string string)
}.
Record ClaimCallStep := MkClaimCall { cc_Job : string; cc_Params : gmap string string }.

Record ClaimApproval := MkClaimApproval { cp_Message : string; cp_TimeoutMinutes : minutes }.

(** [None] is a nil pointer, map or slice where the code tells it apart. *)
Record ClaimStep := MkClaimStep {
  cl_Index : Z;
  cl_StageIndex : Z;
  cl_Name : string;
  cl_If : string;
  cl_Env : gmap string string;
  cl_Run : string;
  cl_Outputs : gmap string string;
  cl_Call : option ClaimCallStep;
  cl_Cache : option CacheStep;
  cl_Post : option PostStep;
  cl_ContinueOnError : bool;
  cl_Container : string;
  cl_ScopeID : string;
  cl_ScopeImage : string;
  cl_ScopeResourceLimits : option ResourceList;
  cl_TimeoutMinutes : minutes;
  cl_Retry : option RetrySpec;
  cl_Upload : option UploadArtifactStep;
  cl_Download : option DownloadArtifactStep;
  cl_Matrix : option ClaimMatrixDef;
  cl_MatrixValues : option (gmap string string);
  cl_MatrixKey : string;
  cl_Approval : option ClaimApproval;
  cl_Shell : option (list string)
}.

Record ClaimStage := MkStage { sg_Step : option ClaimStep; sg_Parallel : list ClaimStep }.

Definition StageSteps (stage : ClaimStage) : list ClaimStep :=
  match sg_Step stage with Some s => [s] | None => sg_Parallel stage end.

(** The answer to a claim; the job's timeout is left out. *)
Record ClaimResponse := MkClaim {
  c_RunID : string;
  c_JobName : string;
  c_Params : gmap string string;
  c_Vars : gmap string string;
  c_Stages : list ClaimStage;
  c_Finally : list ClaimStage;
  c_JobOutputs : list string;
  c_SecretsNeeded : list string;
  c_PodTemplate : option PodTemplate;
  c_Native : bool;
  c_CleanWorkspace : bool;
  c_MatrixMax : Z;
  c_Volumes : list VolumeMount
}.

(** "linux/amd64" is shown as "linux, amd64". *)
Definition DisplayName (s : ClaimStep) : string :=
  if (cl_MatrixKey s =? "")%string then cl_Name s
  else cl_Name s +:+ " (" +:+ Join ", " (Split "/" (cl_MatrixKey s)) +:+ ")".

(** A copy of a matrix step for one combination. *)
Definition matrix_copy (s : ClaimStep) (c : MatrixCombo) : ClaimStep :=
  MkClaimStep (cl_Index s) (cl_StageIndex s) (cl_Name s) (cl_If s) (cl_Env s) (cl_Run s) (cl_Outputs s)
    (cl_Call s) (cl_Cache s) (cl_Post s) (cl_ContinueOnError s) (cl_Container s) (cl_ScopeID s)
    (cl_ScopeImage s) (cl_ScopeResourceLimits s) (cl_TimeoutMinutes s) (cl_Retry s) (cl_Upload s) (cl_Download s) None (Some (mc_Values c)) (mc_Key c)
    (cl_Approval s) (cl_Shell s).

Section expand.
Variables (ExpandTemplate : string → TemplateData → res string)
          (json_strings : string → option (list string)).

Definition ExpandMatrixStep (step : ClaimStep) (data : TemplateData) (maxCombos : Z)
  : res (list ClaimStep) :=
  match cl_Matrix step with
  | None => Ok [step]
  | Some m =>
      combos ← wrap [Lit "matrix expansion for step "; Quo (cl_Name step); Lit ": "]
                 (EvalMatrix ExpandTemplate json_strings (MkMatrixDef (cm_Dimensions m) (cm_Exclude m))
                    data maxCombos);
      Ok (map (matrix_copy step) combos)
  end.
End expand.

(** ** Outputs *)

(** One output of a matrix copy, merged under its combination key. *)
Definition merge_output (matrixKey v : string) (prev : option output) : output :=
  match prev with
  | Some (OMap m) => OMap (<[matrixKey := v]> m)
  | _ => OMap {[matrixKey := v]}
  end.

Definition merge_outputs (matrixKey : string) (outputs : gmap string string)
    (old : gmap string output) : gmap string output :=
  merge (λ o v, match v with
                | Some v => Some (merge_output matrixKey v o)
                | None => o
                end) old outputs.

Definition StepData_zero : StepData := MkStepData None None.

Definition ApplyStepOutputs (steps : gmap string StepData) (stepName matrixKey : string)
    (outputs : option (gmap string string)) : gmap string StepData :=
  if (matrixKey =? "")%string then <[stepName := MkStepData (StringOutputs outputs) None]> steps
  else
    let sd := default StepData_zero (steps !! stepName) in
    <[stepName := MkStepData (Some (merge_outputs matrixKey (default ∅ outputs) (default ∅ (sd_Outputs sd))))
                    (sd_ChildRunID sd)]> steps.

Definition ApplyChildRunID (steps : gmap string StepData) (stepName matrixKey childRunID : string)
  : gmap string StepData :=
  let sd := default StepData_zero (steps !! stepName) in
  <[stepName := MkStepData (sd_Outputs sd)
                  (Some (if (matrixKey =? "")%string then OStr childRunID
                         else merge_output matrixKey childRunID (sd_ChildRunID sd)))]> steps.

(** [FilterSecretOutputs]; [Detects] is the masker's test. *)
Definition FilterSecretOutputs (Detects : string → bool) (outputs : gmap string string)
  : gmap string string := filter (λ kv, Detects kv.2 = false) outputs.

(** The keys [onSkip] is called with, sorted. *)
Definition skipped_outputs (Detects : string → bool) (outputs : gmap string string) : list string :=
  sorted_keys (filter (λ kv, Detects kv.2 = true) outputs).

(** [safeStepCtx.snapshot] *)
Definition snapshot (data : TemplateData) : TemplateData :=
  MkTemplateData (td_Params data) (td_Vars data) (td_Steps data) "" (td_Secrets data) ∅ ∅.

(** [setStep]: a nil map is allocated first. *)
Definition setStep (steps : gmap string StepData) (name : string) (d : StepData) := <[name := d]> steps.

Definition setStepMatrixOutputs := ApplyStepOutputs.

Definition setCallStepResult (steps : gmap string StepData) (name comboKey : string)
    (outputs : option (gmap string string)) (childRunID : string) : gmap string StepData :=
  ApplyChildRunID (ApplyStepOutputs steps name comboKey outputs) name comboKey childRunID.

(** ** Environment *)

Definition stepEnvDenied : list string :=
  ["UNIFIED_CACHE_KEY"; "UNIFIED_CACHE_SECRET"; "UNIFIED_TOKEN"; "UNIFIED_AGENT_CREDENTIAL_FILE";
   "UNIFIED_AGENT_ENROLLMENT_TOKEN_FILE"].

Definition EnvAgentOS : string := "UNIFIED_AGENT_OS".
Definition EnvWorkspace : string := "UNIFIED_WORKSPACE".
Definition SynthesizedStepEnv : list string := [EnvAgentOS; EnvWorkspace].
Definition SynthesizedStepEnvPrefixes : list string := [VolumeEnvPrefix].

(** [NAME=value], and the name of such an entry. *)
Definition env_entry (k v : string) : string := k +:+ "=" +:+ v.
Definition env_name (e : string) : string := hd "" (Split "=" e).

Definition volumeExtraEnv (paths : gmap string string) : list string :=
  (λ a, env_entry (VolumeEnvName a) (default "" (paths !! a))) <$> sorted_keys paths.

Definition varsDenied : list string :=
  reservedVarNames ++ (ToUpper <$> stepEnvDenied) ++ (ToUpper <$> SynthesizedStepEnv).

Definition varDenied (name : string) : bool :=
  let u := ToUpper name in
  bool_decide (u ∈ varsDenied) || IsReservedVarName u
  || existsb (λ p, HasPrefix u (ToUpper p)) SynthesizedStepEnvPrefixes.

Definition varsExtraEnv (vars : gmap string string) : list string :=
  (λ k, env_entry k (default "" (vars !! k)))
    <$> filter (λ k, varDenied k = false) (sorted_keys vars).

(** [StepEnv]: [baseline] is the list for the operating system and [LookupEnv]
    the agent's own environment. *)
Fixpoint step_env_base (LookupEnv : string → option string) (seen : gset string) (names : list string)
  : list string :=
  match names with
  | [] => []
  | n :: names' =>
      if (n =? "")%string || bool_decide (n ∈ seen) || bool_decide (n ∈ stepEnvDenied)
      then step_env_base LookupEnv seen names'
      else match LookupEnv n with
           | None => step_env_base LookupEnv seen names'
           | Some v => env_entry n v :: step_env_base LookupEnv ({[n]} ∪ seen) names'
           end
  end.

Definition stepEnvBaseline (windows : bool) : list string :=
  if windows then
    ["PATH"; "PATHEXT"; "SystemRoot"; "SystemDrive"; "COMSPEC"; "TEMP"; "TMP"; "USERPROFILE"; "APPDATA";
     "LOCALAPPDATA"; "PROGRAMDATA"; "ALLUSERSPROFILE"; "USERNAME"; "HOMEDRIVE"; "HOMEPATH";
     "NUMBER_OF_PROCESSORS"; "PROCESSOR_ARCHITECTURE"]
  else
    ["PATH"; "HOME"; "PWD"; "SHELL"; "TMPDIR"; "LANG"; "LC_ALL"; "TZ"; "USER"; "XDG_CONFIG_HOME";
     "XDG_DATA_HOME"; "XDG_CACHE_HOME"; "XDG_STATE_HOME"; "LOGNAME"].

Definition StepEnv (windows : bool) (LookupEnv : string → option string)
    (exposeEnv extraEnv : list string) : list string :=
  step_env_base LookupEnv ∅ (stepEnvBaseline windows ++ (TrimSpace <$> exposeEnv)) ++ extraEnv.

Definition isScopedStep (step : ClaimStep) : bool := negb (cl_ScopeID step =? "")%string.

Definition agentOSForStep (step : ClaimStep) (defaultOS : string) : string :=
  if negb (cl_ScopeID step =? "")%string || negb (cl_Container step =? "")%string then "linux"
  else defaultOS.

(** ** Paths of artifacts and caches *)

(** [path.Join(root, p)] of a non-empty root. *)
Definition join2 (root p : string) : string :=
  if (root =? "")%string then (if (p =? "")%string then "" else Clean p) else Clean (root +:+ "/" +:+ p).

Definition ContainWithinSlash (root p : string) : res string :=
  if (p =? "")%string then Ok root
  else
    let escapes := [Lit "artifact/cache path "; Quo p; Lit " escapes the workspace"] in
    if IsAbs p then Err escapes
    else
      let cleanRoot := Clean root in
      let joined := Clean (join2 cleanRoot p) in
      if negb (joined =? cleanRoot)%string && negb (HasPrefix joined (cleanRoot +:+ "/"))
      then Err escapes
      else Ok joined.

(** ** Facts *)

(** Recording the outputs of one copy of step [name] after another. *)
Definition record_copies (name : string) (steps : gmap string StepData)
    (copies : list (string * gmap string string)) : gmap string StepData :=
  foldl (λ s c, ApplyStepOutputs s name c.1 (Some c.2)) steps copies.

Lemma merge_output_comm k1 k2 v1 v2 o :
  k1 ≠ k2 →
  merge_output k2 v2 (Some (merge_output k1 v1 o)) = merge_output k1 v1 (Some (merge_output k2 v2 o)).
Proof.
  intros Hne. unfold merge_output. destruct o as [[s|m]|]; f_equal;
    rewrite <-?insert_empty; by rewrite insert_insert_ne.
Qed.

Lemma lookup_merge_outputs k outs old i :
  merge_outputs k outs old !! i = match outs !! i with
                                  | Some v => Some (merge_output k v (old !! i))
                                  | None => old !! i
                                  end.
Proof. unfold merge_outputs. rewrite lookup_merge. by destruct (old !! i), (outs !! i). Qed.

Lemma merge_outputs_comm k1 k2 o1 o2 old :
  k1 ≠ k2 → merge_outputs k2 o2 (merge_outputs k1 o1 old) = merge_outputs k1 o1 (merge_outputs k2 o2 old).
Proof.
  intros Hne. apply map_eq. intros i. rewrite !lookup_merge_outputs.
  destruct (o1 !! i), (o2 !! i); [|done..]. f_equal. by apply merge_output_comm.
Qed.

Lemma ApplyStepOutputs_matrix steps name k outs :
  k ≠ "" →
  ApplyStepOutputs steps name k (Some outs) =
  <[name := MkStepData (Some (merge_outputs k outs (default ∅ (sd_Outputs (default StepData_zero (steps !! name))))))
              (sd_ChildRunID (default StepData_zero (steps !! name)))]> steps.
Proof. intros Hk%String.eqb_neq. unfold ApplyStepOutputs. by rewrite Hk. Qed.

Lemma ApplyStepOutputs_comm steps name k1 k2 o1 o2 :
  k1 ≠ "" → k2 ≠ "" → k1 ≠ k2 →
  ApplyStepOutputs (ApplyStepOutputs steps name k1 (Some o1)) name k2 (Some o2)
  = ApplyStepOutputs (ApplyStepOutputs steps name k2 (Some o2)) name k1 (Some o1).
Proof.
  intros H1 H2 Hne. rewrite !(ApplyStepOutputs_matrix _ _ k2), !(ApplyStepOutputs_matrix _ _ k1) by done.
  rewrite !lookup_insert_eq, !insert_insert_eq. simpl.
  by rewrite merge_outputs_comm.
Qed.

Lemma record_copies_perm name rs rs' :
  rs ≡ₚ rs' → NoDup rs.*1 → "" ∉ rs.*1 → ∀ steps, record_copies name steps rs = record_copies name steps rs'.
Proof.
  unfold record_copies. induction 1 as [|[k o] l l' Hp IH|[k1 o1] [k2 o2] l|l1 l2 l3 H12 IH1 H23 IH2];
    intros Hnd Hem steps; cbn [foldl]; [done| | |].
  - rewrite fmap_cons in Hnd, Hem. apply NoDup_cons in Hnd as [_ Hnd]. apply not_elem_of_cons in Hem as [_ Hem].
    by apply IH.
  - rewrite !fmap_cons in Hnd, Hem. rewrite !NoDup_cons, not_elem_of_cons in Hnd.
    rewrite !not_elem_of_cons in Hem. cbn [fst snd] in *. rewrite ApplyStepOutputs_comm; [done|..]; naive_solver.
  - rewrite IH1 by done. apply IH2; by rewrite <-H12.
Qed.

(** The value a copy recorded is in the aggregate. *)
Definition aggregated (steps : gmap string StepData) (name out key : string) : option string :=
  sd ← steps !! name;
  os ← sd_Outputs sd;
  match os !! out with Some (OMap m) => m !! key | _ => None end.

Lemma aggregated_apply steps name out key k outs :
  k ≠ "" →
  aggregated (ApplyStepOutputs steps name k (Some outs)) name out key =
  if decide (k = key) then match outs !! out with Some v => Some v | None => aggregated steps name out key end
  else aggregated steps name out key.
Proof.
  intros Hk. rewrite ApplyStepOutputs_matrix by done. unfold aggregated at 1. rewrite lookup_insert_eq.
  cbn [mbind option_bind sd_Outputs]. rewrite lookup_merge_outputs.
  assert (match default ∅ (sd_Outputs (default StepData_zero (steps !! name))) !! out with
          | Some (OMap m) => m !! key | _ => None end = aggregated steps name out key) as Hold.
  { unfold aggregated. destruct (steps !! name) as [sd|]; [|done]. simpl. by destruct (sd_Outputs sd). }
  destruct (outs !! out) as [v|]; [|rewrite Hold; by destruct (decide (k = key))].
  unfold merge_output. destruct (default ∅ _ !! out) as [[s|m]|]; rewrite <-Hold;
    destruct (decide (k = key)) as [->|Hne].
  all: rewrite ?lookup_insert_eq, ?lookup_singleton_eq; try done.
  all: by rewrite ?lookup_insert_ne, ?lookup_singleton_ne.
Qed.

Lemma aggregated_fresh name out key rs :
  key ∉ rs.*1 → "" ∉ rs.*1 →
  ∀ steps, aggregated (record_copies name steps rs) name out key = aggregated steps name out key.
Proof.
  unfold record_copies. induction rs as [|[k o] rs IH]; intros Hk He steps; [done|]. cbn [foldl].
  rewrite fmap_cons in Hk, He. apply not_elem_of_cons in Hk as [Hk Hks], He as [He Hes].
  rewrite IH by done. cbn [fst snd] in *. rewrite aggregated_apply by done. by rewrite decide_False.
Qed.

Lemma step_env_base_entry L seen names e :
  e ∈ step_env_base L seen names →
  ∃ n v, e = env_entry n v ∧ L n = Some v ∧ n ∈ names ∧ n ∉ stepEnvDenied.
Proof.
  revert seen. induction names as [|n names IH]; intros seen; cbn [step_env_base];
    [by intros ?%not_elem_of_nil|].
  destruct (_ || _ || _) eqn:Ec.
  { intros (m & v & ? & ? & ? & ?)%IH. exists m, v. rewrite elem_of_cons. auto. }
  apply orb_false_iff in Ec as [_ Hd]. apply bool_decide_eq_false in Hd.
  destruct (L n) as [v|] eqn:EL.
  2: { intros (m & w & ? & ? & ? & ?)%IH. exists m, w. rewrite elem_of_cons. auto. }
  intros [->|(m & w & ? & ? & ? & ?)%IH]%elem_of_cons.
  - exists n, v. split; [done|]. split; [done|]. split; [left|done].
  - exists m, w. rewrite elem_of_cons. auto.
Qed.

Lemma env_name_entry k v : has_byte "=" k = false → env_name (env_entry k v) = k.
Proof.
  intros Hk. unfold env_name, env_entry. rewrite str_app_cons, str_app_nil_l, Split_app_sep.
  by rewrite Split_no_sep.
Qed.

(** The cleaning of a path below a clean absolute one. *)
Lemma HasPrefix_dir_strict a b :
  IsAbs a = true → Clean a = a → IsAbs b = true → Clean b = b →
  b = a ∨ HasPrefix b (a +:+ "/") = true → segments a `prefix_of` segments b.
Proof.
  intros Ha Hca Hb Hcb [->|Hp]; [done|]. destruct (decide (a = "/")) as [->|Hra].
  { rewrite clean_root_segments. apply prefix_nil. }
  destruct (decide (b = "/")) as [->|Hrb].
  { apply HasPrefix_spec in Hp as [r Hr]. destruct a as [|c [|c' a]]; [done|done|done]. }
  apply HasPrefix_dir in Hp as (w & ws & ->); [by apply prefix_app_r|by split_and!..].
Qed.

(** ** Properties *)

(** The outputs of the copies of a matrix step are aggregated independently
    of the order in which the copies finish, and the aggregate holds every value
    of every copy under the copy's key (for keys that are distinct and not
    empty). *)
Theorem copies_order_free (name : string) (steps : gmap string StepData)
    (rs rs' : list (string * gmap string string))
    (Hp : rs ≡ₚ rs') (Hnd : NoDup rs.*1) (Hkey : "" ∉ rs.*1) :
  record_copies name steps rs = record_copies name steps rs' ∧
  ∀ key outs out v, (key, outs) ∈ rs → outs !! out = Some v →
    aggregated (record_copies name steps rs) name out key = Some v.
Proof.
  split; [by apply record_copies_perm|]. intros key outs out v Hin Hv.
  apply list_elem_of_split in Hin as (l1 & l2 & ->).
  rewrite fmap_app, fmap_cons in Hnd, Hkey. apply NoDup_app in Hnd as (_ & _ & Hnd).
  apply NoDup_cons in Hnd as [Hnew _].
  rewrite not_elem_of_app, not_elem_of_cons in Hkey. destruct Hkey as (_ & Hk & Hk2). cbn [fst] in *.
  unfold record_copies. rewrite foldl_app. cbn [foldl fst snd].
  pose proof (aggregated_fresh name out key l2 Hnew Hk2) as Hfresh. unfold record_copies in Hfresh.
  rewrite Hfresh, aggregated_apply by done. by rewrite decide_True, Hv.
Qed.

(** A step's environment never carries the agent's credentials: every entry
    taken from the agent's own environment has a name outside the deny list, even
    when the operator names it; and a run's variables never define, in any letter
    case, a credential, a name the agent synthesises, PATH, HOME or a volume
    variable. *)
Theorem step_env_safe (windows : bool) (L : string → option string) (expose extra : list string)
    (vars : gmap string string) :
  (∀ e, e ∈ StepEnv windows L expose extra → e ∈ extra ∨
     ∃ n v, e = env_entry n v ∧ L n = Some v ∧ (n ∉ stepEnvDenied) ∧
            (n ∈ stepEnvBaseline windows ∨ n ∈ TrimSpace <$> expose)) ∧
  (∀ e, e ∈ varsExtraEnv vars →
     ∃ k v, e = env_entry k v ∧ vars !! k = Some v ∧
     (has_byte "=" k = false → env_name e = k) ∧
     (ToUpper k ∉ stepEnvDenied ++ SynthesizedStepEnv ++ ["PATH"; "HOME"]) ∧
     HasPrefix (ToUpper k) VolumeEnvPrefix = false).
Proof.
  split.
  - intros e. unfold StepEnv. rewrite elem_of_app.
    intros [(n & v & ? & ? & Hn & ?)%step_env_base_entry|?]; [right|by left].
    exists n, v. apply elem_of_app in Hn. done.
  - intros e. unfold varsExtraEnv. rewrite list_elem_of_fmap.
    intros (k & -> & [Hd [v Hv]%elem_of_sorted_keys]%list_elem_of_filter).
    exists k, v. rewrite Hv. split; [done|]. split; [done|]. split; [apply env_name_entry|].
    unfold varDenied in Hd. apply orb_false_iff in Hd as [[Hd _]%orb_false_iff Hpre].
    apply bool_decide_eq_false in Hd. split.
    + intros Hin. apply Hd. revert Hin. generalize (ToUpper k). intros u.
      assert (Forall (λ x, x ∈ varsDenied) (stepEnvDenied ++ SynthesizedStepEnv ++ ["PATH"; "HOME"])) as H
        by (apply (bool_decide_unpack _); by vm_compute).
      rewrite Forall_forall in H. apply H.
    + unfold SynthesizedStepEnvPrefixes in Hpre. cbn [existsb] in Hpre. rewrite orb_false_r in Hpre.
      replace (ToUpper VolumeEnvPrefix) with VolumeEnvPrefix in Hpre by (vm_compute; reflexivity). done.
Qed.

(** An artifact or cache path that is accepted below an absolute root
    resolves to a clean absolute path whose segments extend those of the root:
    no combination of "..", "." and repeated slashes leaves it, and an absolute
    path is never accepted. *)
Theorem contained_within_root (root p r : string)
    (Hroot : IsAbs root = true) (Hp : p ≠ "") (Hok : ContainWithinSlash root p = Ok r) :
  IsAbs p = false ∧ IsAbs r = true ∧ Clean r = r ∧ segments (Clean root) `prefix_of` segments r.
Proof.
  unfold ContainWithinSlash in Hok. apply String.eqb_neq in Hp. rewrite Hp in Hok.
  destruct (IsAbs p) eqn:Ep; [done|]. destruct (_ && _) eqn:Eb in Hok; [done|]. injection Hok as <-.
  assert (IsAbs (join2 (Clean root) p) = true) as Hj.
  { pose proof (Clean_IsAbs root) as Hc. rewrite Hroot in Hc. unfold join2.
    destruct (String.eqb_spec (Clean root) "") as [E|_]; [by rewrite E in Hc|].
    rewrite Clean_IsAbs. apply IsAbs_first. apply IsAbs_first in Hc. by destruct (Clean root). }
  split; [done|]. split; [by rewrite Clean_IsAbs|]. split; [apply Clean_idemp|].
  apply HasPrefix_dir_strict; [by rewrite Clean_IsAbs|apply Clean_idemp|by rewrite Clean_IsAbs|apply Clean_idemp|].
  apply andb_false_iff in Eb as [E|E]; apply negb_false_iff in E; [left|by right]. by apply String.eqb_eq.
Qed.

(** ** Examples *)

Example contain_examples :
  (ContainWithinSlash "/workspace/" <$> ["dist/./out"; "a/../../x"; "../workspace/y"; "/etc"])
  = [Ok "/workspace/dist/out"; Err [Lit "artifact/cache path "; Quo "a/../../x"; Lit " escapes the workspace"];
     Ok "/workspace/y"; Err [Lit "artifact/cache path "; Quo "/etc"; Lit " escapes the workspace"]].
Proof. vm_compute. reflexivity. Qed.

Lemma contained_within_root_witness :
  ContainWithinSlash "/workspace" "a/../b" = Ok "/workspace/b" ∧ IsAbs "/workspace/b" = true.
Proof.
  split; [vm_compute; reflexivity|].
  apply (contained_within_root "/workspace" "a/../b" "/workspace/b"); [reflexivity|done|vm_compute; reflexivity].
Defined.

Definition copies_example : list (string * gmap string string) :=
  [("linux", <["digest" := "1"]> ∅); ("darwin", <["digest" := "2"]> ∅)].

Lemma copies_order_free_witness :
  record_copies "build" ∅ copies_example = record_copies "build" ∅ (reverse copies_example).
Proof.
  apply (copies_order_free "build" ∅ copies_example (reverse copies_example)).
  - symmetry. apply reverse_Permutation.
  - apply (bool_decide_unpack _). by vm_compute.
  - apply (bool_decide_unpack _). by vm_compute.
Defined.

(** A copy whose key is empty (a single dimension with an empty value) is taken
    for a plain step: it overwrites the aggregate of the other copies, so the
    result depends on which copy finishes last. *)
Example empty_key_overwrites :
  let rs := [("", <["digest" := "1"]> (∅ : gmap string string)); ("-v", <["digest" := "2"]> ∅)] in
  aggregated (record_copies "build" ∅ rs) "build" "digest" "-v" = Some "2" ∧
  aggregated (record_copies "build" ∅ (reverse rs)) "build" "digest" "-v" = None.
Proof. split; vm_compute; reflexivity. Qed.
