(* ===== verification/Threads.v ===== *)
(** * Concurrent procedures

    A small theory of goroutines over a shared state, for the step loop of the
    agent.  A procedure is a sequence of atomic actions; an action updates the
    shared state and emits events, and what follows depends on the state it
    saw.  The members of a stage are interleaved arbitrarily, and the environment
    (the passing of time, the cancellation poller) may change the state between
    any two actions.

    Guarantees ([keeps]) and weakest preconditions under interference ([wp]) are
    compositional: a thread is reasoned about alone, and [par_wp] puts the
    threads together. *)

From S2P Require Import Prelude.
From stdpp Require Import options.

Section threads.
Context {St Ev : Type}.

(** ** Procedures *)

Inductive proc (A : Type) : Type :=
| Ret (a : A)
| Act (upd : St → St) (evs : St → list Ev) (k : St → proc A).
Arguments Ret {A} a.
Arguments Act {A} upd evs k.

Fixpoint proc_bind {A B} (f : A → proc B) (t : proc A) : proc B :=
  match t with
  | Ret a => f a
  | Act u e k => Act u e (λ s, proc_bind f (k s))
  end.

#[global] Instance proc_mbind : MBind proc := λ A B f t, proc_bind f t.
#[global] Instance proc_mret : MRet proc := λ A a, Ret a.

(** Reading the state, changing it, emitting an event, and asking the
    environment a question (the answer may depend on the state, which records
    the time). *)
Definition read {A} (f : St → A) : proc A := Act id (λ _, []) (λ s, Ret (f s)).
Definition modify (f : St → St) : proc unit := Act f (λ _, []) (λ _, Ret tt).
Definition emit (e : Ev) : proc unit := Act id (λ _, [e]) (λ _, Ret tt).
Definition ask {A} (e : list Ev) (f : St → A) : proc A := Act id (λ _, e) (λ s, Ret (f s)).

(** ** Interleaving *)

Variable env : St → St → Prop.

(** [par s ts s' results own all]: the threads [ts] run from [s] to completion in
    [s']; [own] has the events of each thread, [all] those of all threads in the
    order they happened. *)
Inductive par {A} : St → list (proc A) → St → list A → list (list Ev) → list Ev → Prop :=
| par_done s rs : par s (Ret <$> rs) s rs ((λ _, []) <$> rs) []
| par_act s ts i u e k s' rs own all o :
    ts !! i = Some (Act u e k) → par (u s) (<[i := k s]> ts) s' rs own all → own !! i = Some o →
    par s ts s' rs (<[i := e s ++ o]> own) (e s ++ all)
| par_env s s1 ts s' rs own all :
    env s s1 → par s1 ts s' rs own all → par s ts s' rs own all.

(** ** Programs that fork and join *)

Inductive main (R A : Type) : Type :=
| Fin (a : A)
| Do (upd : St → St) (evs : St → list Ev) (k : St → main R A)
| Fork (ts : list (proc R)) (k : list R → main R A).
Arguments Fin {R A} a.
Arguments Do {R A} upd evs k.
Arguments Fork {R A} ts k.

Fixpoint main_bind {R A B} (f : A → main R B) (m : main R A) : main R B :=
  match m with
  | Fin a => f a
  | Do u e k => Do u e (λ s, main_bind f (k s))
  | Fork ts k => Fork ts (λ rs, main_bind f (k rs))
  end.

#[global] Instance main_mbind {R} : MBind (main R) := λ A B f m, main_bind f m.
#[global] Instance main_mret {R} : MRet (main R) := λ A a, Fin a.

Fixpoint lift {R A} (t : proc A) : main R A :=
  match t with
  | Ret a => Fin a
  | Act u e k => Do u e (λ s, lift (k s))
  end.

Definition fork {R} (ts : list (proc R)) : main R (list R) := Fork ts Fin.

Inductive mrun {R A} : St → main R A → St → A → list Ev → Prop :=
| mrun_ret s a : mrun s (Fin a) s a []
| mrun_act s u e k s' a es :
    mrun (u s) (k s) s' a es → mrun s (Do u e k) s' a (e s ++ es)
| mrun_par s ts k s1 rs own all s' a es :
    par s ts s1 rs own all → mrun s1 (k rs) s' a es → mrun s (Fork ts k) s' a (all ++ es)
| mrun_env s s1 m s' a es :
    env s s1 → mrun s1 m s' a es → mrun s m s' a es.

Lemma mrun_bind {R A B} (m : main R A) (f : A → main R B) s s' b es :
  mrun s (m ≫= f) s' b es ↔
  ∃ s1 a es1 es2, mrun s m s1 a es1 ∧ mrun s1 (f a) s' b es2 ∧ es = es1 ++ es2.
Proof.
  split.
  - intros H. remember (m ≫= f) as mf eqn:E. revert m E.
    induction H as [s b0|s u e k s' b es H IH|s ts k s1 rs own all s' b es Hp H IH|s s1 mf s' b es He H IH];
      intros m E.
    + destruct m as [a| |]; [|done..]. exists s, a, [], []. split; [constructor|].
      split; [|done]. cbn in E. rewrite <-E. constructor.
    + destruct m as [a|u' e' k'|]; [|injection E as -> -> ->|done].
      * cbn in E. exists s, a, [], (e s ++ es). split; [constructor|]. split; [|done].
        rewrite <-E. by constructor.
      * destruct (IH (k' s) eq_refl) as (s2 & a & es1 & es2 & H1 & H2 & ->).
        exists s2, a, (e' s ++ es1), es2. split; [by constructor|]. split; [done|]. by rewrite app_assoc.
    + destruct m as [a| |ts' k']; [|done|injection E as -> ->].
      * cbn in E. exists s, a, [], (all ++ es). split; [constructor|]. split; [|done].
        rewrite <-E. by econstructor.
      * destruct (IH (k' rs) eq_refl) as (s2 & a & es1 & es2 & H1 & H2 & ->).
        exists s2, a, (all ++ es1), es2. split; [by econstructor|]. split; [done|]. by rewrite app_assoc.
    + destruct (IH m E) as (s2 & a & es1 & es2 & H1 & H2 & ->).
      exists s2, a, es1, es2. split; [by eapply mrun_env|done].
  - intros (s1 & a & es1 & es2 & H & H2 & ->).
    induction H as [s a|s u e k s1 a es H IH|s ts k s0 rs own all s1 a es Hp H IH|s s0 m s1 a es He H IH];
      [done| | |by eapply mrun_env; [done|apply IH]]; rewrite <-app_assoc.
    + apply (mrun_act s u e (λ s, k s ≫= f)). by apply IH.
    + apply (mrun_par s ts (λ rs, k rs ≫= f) s0 rs own all); [done|]. by apply IH.
Qed.

(** ** Guarantees *)

(** Every action of [t], from every state, is a [G]-step with the events it
    emits. *)
Fixpoint keeps {A} (G : St → list Ev → St → Prop) (t : proc A) : Prop :=
  match t with
  | Ret _ => True
  | Act u e k => ∀ s, G s (e s) (u s) ∧ keeps G (k s)
  end.

Fixpoint main_keeps {R A} (G : St → list Ev → St → Prop) (m : main R A) : Prop :=
  match m with
  | Fin _ => True
  | Do u e k => ∀ s, G s (e s) (u s) ∧ main_keeps G (k s)
  | Fork ts k => Forall (keeps G) ts ∧ ∀ rs, main_keeps G (k rs)
  end.

(** A guarantee that can be chained. *)
Class Chain (G : St → list Ev → St → Prop) : Prop := {
  chain_refl s : G s [] s;
  chain_trans s1 s2 s3 e1 e2 : G s1 e1 s2 → G s2 e2 s3 → G s1 (e1 ++ e2) s3
}.

#[global] Instance chain_rel R `{!PreOrder R} : Chain (λ s _ s', R s s').
Proof. split; [done|intros; by etrans]. Qed.

Lemma keeps_bind {A B} G (t : proc A) (f : A → proc B) :
  keeps G t → (∀ a, keeps G (f a)) → keeps G (t ≫= f).
Proof.
  intros Ht Hf. induction t as [a|u e k IH]; [apply Hf|].
  cbn. intros s. destruct (Ht s) as [H1 H2]. split; [done|by apply IH].
Qed.

Lemma main_keeps_bind {R A B} G (m : main R A) (f : A → main R B) :
  main_keeps G m → (∀ a, main_keeps G (f a)) → main_keeps G (m ≫= f).
Proof.
  intros Hm Hf. induction m as [a|u e k IH|ts k IH]; [apply Hf| |]; cbn.
  - intros s. destruct (Hm s) as [H1 H2]. split; [done|by apply IH].
  - destruct Hm as [H1 H2]. split; [done|]. intros rs. by apply IH.
Qed.

Lemma main_keeps_lift {R A} G (t : proc A) : keeps G t → main_keeps (R := R) G (lift t).
Proof. induction t as [|u e k IH]; [done|]. cbn. intros H s. destruct (H s) as [H1 H2]. split; [done|by apply IH]. Qed.

Lemma par_keeps {A} G `{!Chain G} s (ts : list (proc A)) s' rs own all :
  (∀ x y, env x y → G x [] y) → Forall (keeps G) ts → par s ts s' rs own all → G s all s'.
Proof.
  intros He Hts H. induction H as [|s ts i u e k s' rs own all o Hi H IH Ho|s s1 ts s' rs own all Hs H IH];
    [apply chain_refl| |].
  - pose proof (proj1 (Forall_lookup _ _) Hts i _ Hi s) as [H1 H2]. eapply chain_trans; [exact H1|].
    apply IH. by apply Forall_insert.
  - apply (chain_trans s s1 s' [] all); [by apply He|by apply IH].
Qed.

Lemma mrun_keeps {R A} G `{!Chain G} s (m : main R A) s' a es :
  (∀ x y, env x y → G x [] y) → main_keeps G m → mrun s m s' a es → G s es s'.
Proof.
  intros He Hm H. induction H as [s a|s u e k s' a es H IH|s ts k s1 rs own all s' a es Hp H IH|s s1 m s' a es Hs H IH].
  - apply chain_refl.
  - destruct (Hm s) as [H1 H2]. eapply chain_trans; [exact H1|by apply IH].
  - destruct Hm as [H1 H2]. eapply chain_trans; [by eapply par_keeps|by apply IH].
  - apply (chain_trans s s1 s' [] es); [by apply He|by apply IH].
Qed.

(** ** Preconditions under interference *)

(** [t], started in [s], ends with a result, events of its own and a state that
    satisfy [Q], whatever [R]-steps happen between its actions. *)
Fixpoint wp {A} (R : St → St → Prop) (t : proc A) (Q : A → list Ev → St → Prop) (s : St) : Prop :=
  match t with
  | Ret a => ∀ s', R s s' → Q a [] s'
  | Act u e k => ∀ s', R s s' → wp R (k s') (λ a l, Q a (e s' ++ l)) (u s')
  end.

Lemma wp_mono {A} R (t : proc A) (Q Q' : A → list Ev → St → Prop) s :
  (∀ a l s, Q a l s → Q' a l s) → wp R t Q s → wp R t Q' s.
Proof.
  revert Q Q' s. induction t as [a|u e k IH]; intros Q Q' s HQ; cbn; [by auto|].
  intros H s' Hs. eapply IH; [|by apply H]. intros; by apply HQ.
Qed.

Lemma wp_bind {A B} R `{!PreOrder R} (t : proc A) (f : A → proc B) Q s :
  wp R t (λ a l s', wp R (f a) (λ b l', Q b (l ++ l')) s') s → wp R (t ≫= f) Q s.
Proof.
  revert Q s. induction t as [a|u e k IH]; intros Q s; cbn.
  - intros H. apply (H s). done.
  - intros H s' Hs. apply IH. eapply wp_mono; [|by apply H]. cbn. intros a l s2 H2.
    eapply wp_mono; [|exact H2]. intros b l' s3 H3. cbn in H3. by rewrite <-app_assoc in H3.
Qed.

Lemma wp_weaken {A} R `{!PreOrder R} (t : proc A) Q s s1 : R s s1 → wp R t Q s → wp R t Q s1.
Proof. destruct t; cbn; intros H H1 s' Hs'; apply H1; by etrans. Qed.

Lemma wp_read {A B} R `{!PreOrder R} (f : St → A) (k : A → proc B) Q s :
  (∀ s', R s s' → wp R (k (f s')) Q s') → wp R (read f ≫= k) Q s.
Proof. intros H s' Hs. cbn. by apply H. Qed.

Lemma wp_emit {B} R `{!PreOrder R} e (k : unit → proc B) Q s :
  wp R (k tt) (λ a l, Q a (e :: l)) s → wp R (emit e ≫= k) Q s.
Proof. intros H s' Hs. cbn. by eapply wp_weaken. Qed.

Lemma wp_ask {A B} R `{!PreOrder R} es (f : St → A) (k : A → proc B) Q s :
  (∀ s', R s s' → wp R (k (f s')) (λ a l, Q a (es ++ l)) s') → wp R (ask es f ≫= k) Q s.
Proof. intros H s' Hs. cbn. by apply H. Qed.

Lemma wp_modify {B} R `{!PreOrder R} f (k : unit → proc B) Q s :
  (∀ s', R s s' → wp R (k tt) Q (f s')) → wp R (modify f ≫= k) Q s.
Proof. intros H s' Hs. cbn. by apply H. Qed.

Lemma wp_ret {A} (R : St → St → Prop) (a : A) Q s : (∀ s', R s s' → Q a [] s') → wp R (mret a) Q s.
Proof. done. Qed.

(** A thread run alone. *)
Lemma mrun_lift {A R0} R `{!PreOrder R} (t : proc A) (Q : A → list Ev → St → Prop) s s' a es :
  (∀ x y, env x y → R x y) → wp R t Q s → mrun (R := R0) s (lift t) s' a es → Q a es s'.
Proof.
  intros He Hwp H. remember (lift t) as m eqn:E. revert t Q Hwp E.
  induction H as [s a|s u e k s' a es H IH|s ts k s1 rs own all s' a es Hp H IH|s s1 m s' a es Hs H IH];
    intros t Q Hwp E.
  - destruct t as [a'|]; [|done]. injection E as ->. by apply Hwp.
  - destruct t as [|u' e' k']; [done|]. injection E as -> -> ->.
    apply (IH (k' s) (λ a l, Q a (e' s ++ l))); [|done]. by apply (Hwp s).
  - by destruct t.
  - apply (IH t Q); [|done]. eapply wp_weaken; [done|by apply He|done].
Qed.

Lemma wp_conj {A} (R : St → St → Prop) (t : proc A) (Q1 Q2 : A → list Ev → St → Prop) s :
  wp R t Q1 s → wp R t Q2 s → wp R t (λ a l s', Q1 a l s' ∧ Q2 a l s') s.
Proof.
  revert Q1 Q2 s. induction t as [|u e k IH]; intros Q1 Q2 s; cbn; [by auto|].
  intros H1 H2 s' Hs. by apply IH; [apply H1|apply H2].
Qed.

(** Less interference. *)
Lemma wp_rel {A} (R R' : St → St → Prop) (t : proc A) Q s :
  (∀ x y, R x y → R' x y) → wp R' t Q s → wp R t Q s.
Proof.
  intros HR. revert Q s. induction t as [|u e k IH]; intros Q s; cbn; [by auto|].
  intros H s' Hs. apply IH, H. auto.
Qed.

Lemma wp_true {A} R (t : proc A) s : wp R t (λ _ _ _, True) s.
Proof. revert s. induction t as [|u e k IH]; cbn; [done|]. intros s s1 _. apply IH. Qed.

(** Guarantees, weakened and used in a postcondition. *)
Lemma keeps_weaken {A} (G G' : St → list Ev → St → Prop) (t : proc A) :
  (∀ s l s', G s l s' → G' s l s') → keeps G t → keeps G' t.
Proof.
  intros HG. induction t as [|u e k IH]; [done|]. intros Ht s. destruct (Ht s) as [H1 H2].
  split; [by apply HG|by apply IH].
Qed.

Lemma main_keeps_weaken {R A} (G G' : St → list Ev → St → Prop) (m : main R A) :
  (∀ s l s', G s l s' → G' s l s') → main_keeps G m → main_keeps G' m.
Proof.
  intros HG. induction m as [a|u e k IH|ts k IH]; [done| |]; cbn.
  - intros Hm s. destruct (Hm s) as [H1 H2]. split; [by apply HG|by apply IH].
  - intros [H1 H2]. split; [|intros rs; by apply IH]. eapply Forall_impl; [exact H1|].
    intros t. by apply keeps_weaken.
Qed.

Lemma wp_guarantee {A} R `{!PreOrder R} (t : proc A) Q s :
  keeps (λ s _ s', R s s') t → wp R t Q s → wp R t (λ a l s', Q a l s' ∧ R s s') s.
Proof.
  revert Q s. induction t as [a|u e k IH]; intros Q s Ht; cbn.
  - intros H s' Hs. by split; [apply H|].
  - intros H s' Hs. destruct (Ht s') as [H1 H2].
    eapply wp_mono; [|apply IH; [done|by apply H]]. intros a l s2 [H3 H4]. split; [done|].
    etrans; [exact Hs|]. by etrans.
Qed.

Lemma wp_events {A} R (P : Ev → Prop) (t : proc A) s :
  keeps (λ _ l _, Forall P l) t → wp R t (λ _ l _, Forall P l) s.
Proof.
  revert s. induction t as [a|u e k IH]; intros s Ht; cbn; [done|].
  intros s' _. destruct (Ht s') as [H1 H2]. eapply wp_mono; [|by apply IH].
  intros a l s2 Hl. cbn. by apply Forall_app.
Qed.

(** A property of the events so far that stays true while the state moves on. *)
Lemma wp_seq {A B} R `{!PreOrder R} (acc : list Ev → St → Prop) (t : proc A) (f : A → proc B) s :
  (∀ l s s', R s s' → acc l s → acc l s') →
  (∀ l1 l2 s, acc l1 s → acc l2 s → acc (l1 ++ l2) s) →
  (∀ a, keeps (λ s _ s', R s s') (f a)) →
  wp R t (λ _, acc) s → (∀ a s, wp R (f a) (λ _, acc) s) → wp R (t ≫= f) (λ _, acc) s.
Proof.
  intros Hst Happ Hf Ht Hwp. apply wp_bind; [done|]. eapply wp_mono; [|exact Ht].
  cbn. intros a l s1 Hl. eapply wp_mono; [|by apply wp_guarantee].
  cbn. intros b l' s2 [Hl' HR]. apply Happ; [by eapply Hst|done].
Qed.

(** Threads put together: each ends as its own precondition says, provided the
    others (and the environment) only do what it tolerates. *)
Lemma par_wp {A} R `{!PreOrder R} (Q : nat → A → list Ev → St → Prop) s ts s' rs own all :
  (∀ x y, env x y → R x y) → Forall (keeps (λ s _ s', R s s')) ts →
  (∀ i t, ts !! i = Some t → wp R t (Q i) s) →
  par s ts s' rs own all →
  ∀ i r o, rs !! i = Some r → own !! i = Some o → Q i r o s'.
Proof.
  intros He Hts Hwp H. revert Q Hts Hwp.
  induction H as [s rs|s ts j u e k s' rs own all o Hj H IH Ho|s s1 ts s' rs own all Hs H IH];
    intros Q Hts Hwp i r oi Hr Hoi.
  - rewrite list_lookup_fmap, Hr in Hoi. injection Hoi as <-.
    apply (Hwp i (Ret r)); [|done]. by rewrite list_lookup_fmap, Hr.
  - pose proof (proj1 (Forall_lookup _ _) Hts j _ Hj s) as [H1 H2].
    destruct (decide (i = j)) as [->|Hne].
    + rewrite list_lookup_insert_eq in Hoi by (by eapply lookup_lt_Some). injection Hoi as <-.
      pose (Q' := λ i' r l s'', if decide (i' = j) then Q j r (e s ++ l) s'' else True).
      enough (Q' j r o s') as HQ by (unfold Q' in HQ; by rewrite decide_True in HQ).
      apply IH; [by apply Forall_insert| |done|done]. intros i' t Ht. unfold Q'.
      destruct (decide (i' = j)) as [->|Hne]; [|apply wp_true].
      rewrite list_lookup_insert_eq in Ht by (by eapply lookup_lt_Some). injection Ht as <-.
      apply (Hwp j _ Hj s). done.
    + rewrite list_lookup_insert_ne in Hoi by done.
      pose (Q' := λ i' r l s'', if decide (i' = i) then Q i r l s'' else True).
      enough (Q' i r oi s') as HQ by (unfold Q' in HQ; by rewrite decide_True in HQ).
      apply IH; [by apply Forall_insert| |done|done]. intros i' t Ht. unfold Q'.
      destruct (decide (i' = i)) as [->|Hni]; [|apply wp_true].
      rewrite list_lookup_insert_ne in Ht by done. eapply wp_weaken; [done|exact H1|]. by apply Hwp.
  - apply (IH Q Hts); [|done..]. intros i' t Ht. eapply wp_weaken; [done|by apply He|]. by apply Hwp.
Qed.

(** The events of all threads are the events of the threads. *)
Lemma par_events {A} s (ts : list (proc A)) s' rs own all :
  par s ts s' rs own all →
  length own = length ts ∧ length rs = length ts ∧
  ∀ e, e ∈ all ↔ ∃ i o, own !! i = Some o ∧ e ∈ o.
Proof.
  induction 1 as [s rs|s ts j u e k s' rs own all o Hj H IH Ho|]; [| |done].
  - rewrite !length_fmap. split; [done|]. split; [done|]. intros e. split; [by intros ?%not_elem_of_nil|].
    intros (i & o & Ho & He). rewrite list_lookup_fmap in Ho. destruct (rs !! i); [|done].
    injection Ho as <-. by apply not_elem_of_nil in He.
  - rewrite length_insert. destruct IH as (H1 & H2 & H3). rewrite length_insert in H1, H2. split; [done|]. split; [done|].
    intros x. rewrite elem_of_app, H3. split.
    + intros [Hx|(i & oi & Hi & Hx)].
      * exists j, (e s ++ o). rewrite list_lookup_insert_eq by (by eapply lookup_lt_Some).
        split; [done|]. apply elem_of_app. by left.
      * destruct (decide (i = j)) as [->|Hne].
        -- exists j, (e s ++ o). rewrite list_lookup_insert_eq by (by eapply lookup_lt_Some).
           split; [done|]. apply elem_of_app. right. congruence.
        -- exists i, oi. by rewrite list_lookup_insert_ne.
    + intros (i & oi & Hi & Hx). destruct (decide (i = j)) as [->|Hne].
      * rewrite list_lookup_insert_eq in Hi by (by eapply lookup_lt_Some). injection Hi as <-.
        apply elem_of_app in Hx as [?|?]; [by left|right; by exists j, o].
      * rewrite list_lookup_insert_ne in Hi by done. right. by exists i, oi.
Qed.

(** ** One schedule

    The threads of a fork one after the other, and no environment step: an
    executable run, and one of the runs of the program. *)
Fixpoint run_proc {A} (t : proc A) (s : St) : St * A * list Ev :=
  match t with
  | Ret a => (s, a, [])
  | Act u e k => let '(s', a, l) := run_proc (k s) (u s) in (s', a, e s ++ l)
  end.

Fixpoint run_threads {A} (ts : list (proc A)) (s : St) : St * list A * list Ev :=
  match ts with
  | [] => (s, [], [])
  | t :: ts' =>
      let '(s1, a, l) := run_proc t s in
      let '(s', rs, l') := run_threads ts' s1 in (s', a :: rs, l ++ l')
  end.

Fixpoint run_main {R A} (m : main R A) (s : St) : St * A * list Ev :=
  match m with
  | Fin a => (s, a, [])
  | Do u e k => let '(s', a, l) := run_main (k s) (u s) in (s', a, e s ++ l)
  | Fork ts k =>
      let '(s1, rs, l) := run_threads ts s in
      let '(s', a, l') := run_main (k rs) s1 in (s', a, l ++ l')
  end.

Lemma par_run_proc {A} i (t : proc A) ts s s1 a l s' rs own all :
  run_proc t s = (s1, a, l) → ts !! i = Some t →
  par s1 (<[i := Ret a]> ts) s' rs own all → ∃ own', par s ts s' rs own' (l ++ all).
Proof.
  revert ts s s1 a l. induction t as [b|u e k IH]; intros ts s s1 a l; cbn.
  - intros [= <- <- <-] Hi H. rewrite list_insert_id in H by done. by exists own.
  - destruct (run_proc (k s) (u s)) as [[s2 b] l2] eqn:E. intros [= <- <- <-] Hi H.
    destruct (IH s (<[i := k s]> ts) (u s) s2 b l2) as [own' Hown']; [done| | |].
    + rewrite list_lookup_insert_eq by (by eapply lookup_lt_Some). done.
    + by rewrite list_insert_insert_eq.
    + destruct (par_events _ _ _ _ _ _ Hown') as [Hl _]. rewrite length_insert in Hl.
      destruct (lookup_lt_is_Some_2 own' i) as [o Ho].
      { rewrite Hl. by eapply lookup_lt_Some. }
      rewrite <-app_assoc. eexists. by eapply par_act.
Qed.

Lemma par_run_threads {A} (ts : list (proc A)) donel s s' rs l :
  run_threads ts s = (s', rs, l) → ∃ own, par s ((Ret <$> donel) ++ ts) s' (donel ++ rs) own l.
Proof.
  revert donel s s' rs l. induction ts as [|t ts IH]; intros donel s s' rs l; cbn.
  - intros [= <- <- <-]. rewrite !app_nil_r. eexists. apply par_done.
  - destruct (run_proc t s) as [[s1 a] l1] eqn:E1, (run_threads ts s1) as [[s2 rs2] l2] eqn:E2.
    intros [= <- <- <-]. destruct (IH (donel ++ [a]) s1 s2 rs2 l2 E2) as [own H].
    rewrite fmap_app, <-!app_assoc in H. cbn in H.
    eapply (par_run_proc (length donel) t _ s s1 a l1 s2 (donel ++ a :: rs2) own l2); [done| |].
    + by rewrite lookup_app_r, length_fmap, Nat.sub_diag by (by rewrite length_fmap).
    + rewrite insert_app_r_alt, length_fmap, Nat.sub_diag by (by rewrite length_fmap). done.
Qed.

Lemma run_main_mrun {R A} (m : main R A) s :
  mrun s m (run_main m s).1.1 (run_main m s).1.2 (run_main m s).2.
Proof.
  revert s. induction m as [a|u e k IH|ts k IH]; intros s; cbn; [constructor|..].
  - pose proof (IH s (u s)) as H. destruct (run_main (k s) (u s)) as [[s' a] l]. by constructor.
  - destruct (run_threads ts s) as [[s1 rs] l] eqn:E. pose proof (IH rs s1) as H.
    destruct (run_main (k rs) s1) as [[s' a] l']. destruct (par_run_threads ts [] s s1 rs l E) as [own Hp].
    by eapply mrun_par.
Qed.

End threads.

Arguments proc : clear implicits.
Arguments main : clear implicits.
Arguments Ret {St Ev A} a.
Arguments Act {St Ev A} upd evs k.
Arguments Fin {St Ev R A} a.
Arguments Do {St Ev R A} upd evs k.
Arguments Fork {St Ev R A} ts k.
