(* ===== verification/AgentRun.v ===== *)
(** * internal/agent: the step loop

    Models [orchestrator.go] (the step runner, the hook drains and [RunClaim]),
    [pipeline.go] and the decisions of [callstep.go] and [approval.go].

    A step is a thread over the state the goroutines of a claim share.  What the
    backend, the controller and the clock answer is a parameter [World]: an
    arbitrary function of the time, which the environment advances between any
    two actions; the cancellation poller is part of the environment.  Contexts
    and timeouts only decide what the environment answers.  The events list what
    the run does: reports, log lines, executions, hooks. *)

From S2P Require Import Prelude GoStrings DslNames DslTypes DslMatrix DslCondition AgentSteps Threads.
From stdpp Require Import options.

(** ** Shared state *)

(** A deferred cache save, and a registered post hook. *)
Record deferredHook := MkSave {
  sv_step : ClaimStep; sv_label : string; sv_key : string; sv_path : string; sv_ttl : Z
}.
Record postHookEntry := MkHook {
  hk_step : ClaimStep; hk_post : PostStep; hk_shell : option (list string)
}.

Record St := MkSt {
  st_time : nat;
  st_data : TemplateData;            (* safeStepCtx *)
  st_failed : bool;                  (* anyStepFailed *)
  st_ffailed : bool;                 (* finallyFailed *)
  st_cancelled : bool;               (* cancelledByMaster *)
  st_reaped : bool;                  (* reapedByMaster *)
  st_saves : list deferredHook;      (* postHooks *)
  st_hooks : list postHookEntry;     (* hookStack *)
  st_diag : list (string * string)   (* seenIfDiag *)
}.

Inductive flag := FMain | FFinally.

Definition flag_set (f : flag) (s : St) : bool :=
  match f with FMain => st_failed s | FFinally => st_ffailed s end.

Definition set_flag (f : flag) (s : St) : St :=
  match f with
  | FMain => MkSt (st_time s) (st_data s) true (st_ffailed s) (st_cancelled s) (st_reaped s) (st_saves s) (st_hooks s) (st_diag s)
  | FFinally => MkSt (st_time s) (st_data s) (st_failed s) true (st_cancelled s) (st_reaped s) (st_saves s) (st_hooks s) (st_diag s)
  end.

Definition with_data (d : TemplateData) (s : St) : St :=
  MkSt (st_time s) d (st_failed s) (st_ffailed s) (st_cancelled s) (st_reaped s) (st_saves s) (st_hooks s) (st_diag s).
Definition with_steps (f : gmap string StepData → gmap string StepData) (s : St) : St :=
  let d := st_data s in
  with_data (MkTemplateData (td_Params d) (td_Vars d) (f (td_Steps d)) (td_Stdout d) (td_Secrets d)
               (td_Foreach d) (td_Matrix d)) s.
Definition with_hooks (saves : list deferredHook) (hooks : list postHookEntry) (s : St) : St :=
  MkSt (st_time s) (st_data s) (st_failed s) (st_ffailed s) (st_cancelled s) (st_reaped s) saves hooks (st_diag s).
Definition push_save (h : deferredHook) (s : St) : St := with_hooks (st_saves s ++ [h]) (st_hooks s) s.
Definition push_hook (h : postHookEntry) (s : St) : St := with_hooks (st_saves s) (st_hooks s ++ [h]) s.
Definition add_diag (k : string * string) (s : St) : St :=
  MkSt (st_time s) (st_data s) (st_failed s) (st_ffailed s) (st_cancelled s) (st_reaped s) (st_saves s)
    (st_hooks s) (k :: st_diag s).

(** The environment: time passes, and the poller may find the run terminal at the
    controller, once: cancelled, or in another terminal status. *)
Definition env (s s' : St) : Prop :=
  ∃ t c r, s' = MkSt t (st_data s) (st_failed s) (st_ffailed s) c r (st_saves s) (st_hooks s) (st_diag s) ∧
    st_time s ≤ t ∧
    ((c = st_cancelled s ∧ r = st_reaped s) ∨
     (st_cancelled s = false ∧ st_reaped s = false ∧ (c, r) ∈ [(true, false); (false, true)])).

(** ** Events *)

Inductive step_status := Running | WaitingApproval | Succeeded | Failed | Cancelled | Skipped.

Inductive event :=
| EReport (step : ClaimStep) (status : step_status) (exit : Z) (child callJob : string)
| EApproval (step : ClaimStep)
| ELog (index : Z) (line : string)
| EExec (step : ClaimStep) (try : nat) (script : string) (env : list string)
| ECreateChild (step : ClaimStep) (job : string) (params : gmap string string)
| ESetOutputs (step : ClaimStep) (outputs : gmap string string)
| EUpload (step : ClaimStep) (path : string)
| EDownload (step : ClaimStep) (run path : string)
| ERestore (step : ClaimStep) (key : string) (restoreKeys : list string) (path : string)
| ESave (save : deferredHook)
| EPost (hook : postHookEntry)
| EFlag (f : flag)
| ERunOutputs (outputs : gmap string string)
| EFinish (status : step_status).

(** ** Environment *)

Inductive attempt_result :=
| Exited (code : Z) (stdout : string)
| ExecError (e : string) (code : Z) (stdout : string)
| ExecPanic (msg : string).

Inductive io_result := IoOk | IoErr (e : string) | IoPanic (msg : string).
Inductive path_result := PathOk (path : string) | PathErr (e : string) | PathPanic (msg : string).

Inductive call_result :=
| CallNotCreated (e : string)
| CallFailed (child : string) (e : string)
| CallDone (child : string) (outputs : option (gmap string string)).

Record World := MkWorld {
  w_ExpandTemplate : string → TemplateData → res string;
  w_json_strings : string → option (list string);
  w_CompileExpr : string → cel_issue + cel_ast;
  w_quote : string → string;
  w_Mask : string → string;
  w_Detects : string → bool;
  w_OS : string;
  w_WorkspacePath : bool → string;                    (* of a scoped step *)
  w_VolumePaths : bool → gmap string string;
  w_EnsureScope : nat → ClaimStep → io_result;
  w_exec : nat → ClaimStep → string → list string → attempt_result;
  w_backoff : string → string;                        (* the parsed backoff, printed *)
  w_sleep : nat → string → bool;                      (* the backoff was cut short *)
  w_call : nat → string → gmap string string → call_result;
  w_approve : nat → ClaimStep → bool;
  w_Resolve : bool → string → path_result;            (* ResolveArtifactPath, ResolveCachePath *)
  w_upload : nat → ClaimStep → string → io_result;
  w_download : nat → ClaimStep → string → string → io_result;
  w_restore : nat → ClaimStep → string → io_result;
  w_expired : string → nat → bool;                    (* the deadline of a cleanup phase *)
  w_budget : string;                                  (* the printed budget *)
  w_json_map : gmap string string → string;           (* json.Marshal *)
  w_FetchSecrets : nat → res (gmap string string)
}.

Abbreviation thread := (proc St event).
Abbreviation program := (main St event (option text)).

(** What distinguishes the main pipeline from finally. *)
Record phase := MkPhase {
  ph_frozen : option RunStatusView;  (* None: the live status *)
  ph_implicitSuccess : bool;
  ph_flag : flag;
  ph_suppressOnCancel : bool
}.

Section agent.
Variables (W : World) (Vars : gmap string string).

Definition log (index : Z) (line : string) : thread unit := emit (ELog index line).
Definition report (step : ClaimStep) (status : step_status) : thread unit :=
  emit (EReport step status 0 "" "").

Fixpoint for_each {A} (l : list A) (f : A → thread unit) : thread unit :=
  match l with
  | [] => mret ()
  | x :: l' => _ ← f x; for_each l' f
  end.

(** ** One step *)

Definition cancelMasksFailure (ph : phase) : thread bool :=
  read (λ s, ph_suppressOnCancel ph && st_cancelled s).

Definition recordFailure (ph : phase) (step : ClaimStep) : thread unit :=
  if cl_ContinueOnError step then mret ()
  else
    masked ← cancelMasksFailure ph;
    if masked : bool then mret ()
    else Act (set_flag (ph_flag ph)) (λ _, [EFlag (ph_flag ph)]) (λ _, Ret ()).

Definition markFailed (ph : phase) (step : ClaimStep) : thread unit :=
  _ ← recordFailure ph step; report step Failed.

(** The deferred recover of the step runner. *)
Definition recovered (ph : phase) (step : ClaimStep) (msg : string) : thread unit :=
  _ ← log (cl_Index step) ("step panicked: " +:+ msg); markFailed ph step.

(** [statusView]: two atomic loads, the cancellation first. *)
Definition status_view (ph : phase) : thread RunStatusView :=
  match ph_frozen ph with
  | Some v => mret v
  | None =>
      cancelled ← read st_cancelled;
      failed ← read st_failed;
      mret (MkRunStatusView (failed && negb cancelled) cancelled)
  end.

Definition recordIfDiagnostic (step : ClaimStep) (msg : string) : thread unit :=
  let key := (cl_Name step, msg) in
  dup ← Act (add_diag key) (λ _, []) (λ s, Ret (bool_decide (key ∈ st_diag s)));
  if dup : bool then mret ()
  else log (-1) (w_Mask W (Join " " (Fields
         ("unified-cd: step " +:+ w_quote W (DisplayName step) +:+ ": " +:+ msg)))).

Definition warn_condition (step : ClaimStep) (warnings : list text) : thread unit :=
  for_each warnings (λ w, recordIfDiagnostic step (render (w_quote W) w)).

(** [sctx.snapshot()] with a copy's values. *)
Definition step_data (step : ClaimStep) (d : TemplateData) : TemplateData :=
  match cl_MatrixValues step with
  | None => d
  | Some m => MkTemplateData (td_Params d) (td_Vars d) (td_Steps d) (td_Stdout d) (td_Secrets d) m m
  end.

Definition take_snapshot : thread TemplateData := read (λ s, snapshot (st_data s)).

Definition resolveScope (step : ClaimStep) : thread io_result :=
  if isScopedStep step then ask [] (λ s, w_EnsureScope W (st_time s) step) else mret IoOk.

(** The approval gate. *)
Definition run_approval (ph : phase) (step : ClaimStep) : thread unit :=
  _ ← emit (EApproval step);
  _ ← report step WaitingApproval;
  approved ← ask [] (λ s, w_approve W (st_time s) step);
  if approved : bool then report step Succeeded
  else _ ← report step Failed; recordFailure ph step.

Definition expand (tpl : string) (d : TemplateData) : res string := w_ExpandTemplate W tpl d.

(** [executeCacheStep]; the boolean is false for a returned error. *)
Definition save_label (step : ClaimStep) (key : string) : string :=
  "the cache: save for step " +:+ w_quote W (DisplayName step) +:+ " (key " +:+ w_quote W key +:+ ")".

Definition restore_keys (cs : CacheStep) (d : TemplateData) : list string :=
  filter (λ k, k ≠ "") ((λ rk, match expand rk d with Ok s => s | Err _ => "" end) <$> ca_RestoreKeys cs).

Definition cache_body (ph : phase) (step : ClaimStep) (cs : CacheStep) (d : TemplateData) : thread unit :=
  match expand (ca_Key cs) d with
  | Err _ => markFailed ph step
  | Ok key =>
      match expand (ca_Path cs) d with
      | Err _ => markFailed ph step
      | Ok path =>
          if (key =? "")%string || (path =? "")%string then report step Succeeded
          else match w_Resolve W (isScopedStep step) path with
               | PathPanic msg => recovered ph step msg
               | PathErr _ => markFailed ph step
               | PathOk resolved =>
                   r ← ask [ERestore step key (restore_keys cs d) resolved] (λ s, w_restore W (st_time s) step key);
                   match r with
                   | IoPanic msg => recovered ph step msg
                   | _ =>
                       let ttl := if (ca_TTLDays cs =? 0)%Z then 30%Z else ca_TTLDays cs in
                       _ ← modify (push_save (MkSave step (save_label step key) key resolved ttl));
                       report step Succeeded
                   end
               end
      end
  end.

Definition run_cache (ph : phase) (step : ClaimStep) (cs : CacheStep) : thread unit :=
  scope ← resolveScope step;
  match scope with
  | IoPanic msg => recovered ph step msg
  | IoErr _ => report step Succeeded
  | IoOk =>
      _ ← report step Running;
      d ← take_snapshot;
      cache_body ph step cs d
  end.

(** [executeUploadArtifact] and its caller: both report the failure. *)
Definition run_upload (ph : phase) (step : ClaimStep) (ua : UploadArtifactStep) : thread unit :=
  scope ← resolveScope step;
  match scope with
  | IoPanic msg => recovered ph step msg
  | IoErr _ => markFailed ph step
  | IoOk =>
      _ ← report step Running;
      match w_Resolve W (isScopedStep step) (up_Path ua) with
      | PathPanic msg => recovered ph step msg
      | PathErr _ => _ ← report step Failed; markFailed ph step
      | PathOk path =>
          r ← ask [EUpload step path] (λ s, w_upload W (st_time s) step path);
          match r with
          | IoPanic msg => recovered ph step msg
          | IoErr _ => _ ← report step Failed; markFailed ph step
          | IoOk => report step Succeeded
          end
      end
  end.

(** [artifactRunIDRe], [^[A-Za-z0-9_-]{1,64}$] *)
Definition is_run_id (s : string) : bool :=
  (1 <=? String.length s)%nat && (String.length s <=? 64)%nat
  && forallb (λ c, is_alpha c || is_digit c || Ascii.eqb c "_" || Ascii.eqb c "-") (String.list_ascii_of_string s).

(** The run a download reads from: the template sees neither secrets nor stdout. *)
Definition download_run (runID : string) (da : DownloadArtifactStep) (d : TemplateData) : option string :=
  if (dl_RunID da =? "")%string then Some runID
  else match expand (dl_RunID da)
               (MkTemplateData (td_Params d) (td_Vars d) (td_Steps d) "" ∅ (td_Foreach d) (td_Matrix d)) with
       | Ok id => if is_run_id id then Some id else None
       | Err _ => None
       end.

Definition run_download (runID : string) (ph : phase) (step : ClaimStep) (da : DownloadArtifactStep)
  : thread unit :=
  let failStep := (_ ← report step Failed; markFailed ph step) in
  scope ← resolveScope step;
  match scope with
  | IoPanic msg => recovered ph step msg
  | IoErr _ => markFailed ph step
  | IoOk =>
      d ← take_snapshot;
      _ ← report step Running;
      match download_run runID da (step_data step d) with
      | None => failStep
      | Some target =>
          let destDir := if (dl_DestDir da =? "")%string then "." else dl_DestDir da in
          match w_Resolve W (isScopedStep step) destDir with
          | PathPanic msg => recovered ph step msg
          | PathErr _ => failStep
          | PathOk path =>
              r ← ask [EDownload step target path] (λ s, w_download W (st_time s) step target path);
              match r with
              | IoPanic msg => recovered ph step msg
              | IoErr _ => failStep
              | IoOk => report step Succeeded
              end
          end
      end
  end.

(** *** call: steps *)

(** The parameters of the child run, or [None] when one does not expand; the
    context has neither secrets nor stdout nor a copy's values. *)
Definition call_params (call : ClaimCallStep) (d : TemplateData) : option (gmap string string) :=
  let ctx := MkTemplateData (td_Params d) (td_Vars d) (td_Steps d) "" ∅ ∅ ∅ in
  foldr (λ k acc, match acc, expand (default "" (cc_Params call !! k)) ctx with
                  | Some m, Ok v => Some (<[k := v]> m)
                  | _, _ => None
                  end) (Some ∅) (sorted_keys (cc_Params call)).

(** Outputs kept, and a warning in the run's log for each one that may hold a
    secret. *)
Definition set_outputs (step : ClaimStep) (outputs : gmap string string) : thread unit :=
  if bool_decide (outputs = ∅) then mret ()
  else
    _ ← for_each (skipped_outputs (w_Detects W) outputs) (λ k,
          log (cl_Index step) ("output " +:+ w_quote W k +:+ " skipped: value may contain a secret"));
    let safe := FilterSecretOutputs (w_Detects W) outputs in
    if bool_decide (safe = ∅) then mret () else emit (ESetOutputs step safe).

(** The status of the step and the child run. *)
Definition run_call (step : ClaimStep) (call : ClaimCallStep) (d : TemplateData)
  : thread (step_status * string) :=
  match call_params call d with
  | None => mret (Failed, "")
  | Some params =>
      r ← ask [ECreateChild step (cc_Job call) params] (λ s, w_call W (st_time s) (cc_Job call) params);
      match r with
      | CallNotCreated _ => mret (Failed, "")
      | CallFailed child _ =>
          _ ← emit (EReport step Running 0 child (cc_Job call));
          mret (Failed, child)
      | CallDone child outputs =>
          _ ← emit (EReport step Running 0 child (cc_Job call));
          _ ← modify (with_steps (λ steps, setCallStepResult steps (cl_Name step) (cl_MatrixKey step) outputs child));
          _ ← set_outputs step (default ∅ outputs);
          mret (Succeeded, child)
      end
  end.

(** *** run: steps *)

(** The environment of a run step; a later duplicate wins. *)
Definition step_extra_env (step : ClaimStep) (d : TemplateData) : list string :=
  let scoped := isScopedStep step in
  [env_entry EnvAgentOS (agentOSForStep step (w_OS W)); env_entry EnvWorkspace (w_WorkspacePath W scoped)]
  ++ volumeExtraEnv (w_VolumePaths W scoped)
  ++ varsExtraEnv Vars
  ++ ((λ k, env_entry k (match expand (default "" (cl_Env step !! k)) d with Ok v => v | Err _ => "" end))
        <$> sorted_keys (cl_Env step)).

(** One attempt: a scoped step provisions its scope first. *)
Definition attempt (step : ClaimStep) (try : nat) (script : string) (extraEnv : list string)
  : thread attempt_result :=
  let exec := ask [EExec step try script extraEnv] (λ s, w_exec W (st_time s) step script extraEnv) in
  if isScopedStep step then
    scope ← ask [] (λ s, w_EnsureScope W (st_time s) step);
    match scope with
    | IoPanic msg => mret (ExecPanic msg)
    | IoErr e => mret (ExecError e (-1) "")
    | IoOk => exec
    end
  else exec.

Inductive loop_result :=
| LoopDone (ok : bool) (code : Z) (stdout : string)
| LoopPanic (msg : string).

(** What an attempt that did not panic gave: the error, the exit code, stdout. *)
Definition attempt_values (r : attempt_result) : option string * Z * string :=
  match r with
  | Exited code stdout => (None, code, stdout)
  | ExecError e code stdout => (Some e, code, stdout)
  | ExecPanic _ => (None, 0, "")%Z
  end.

(** The reason an exec failed goes to the step's log, unless the failure is the
    expected end of a cancelled pipeline. *)
Definition log_exec_error (ph : phase) (step : ClaimStep) (err : option string) : thread unit :=
  match err with
  | None => mret ()
  | Some e =>
      masked ← cancelMasksFailure ph;
      if masked : bool then mret ()
      else log (cl_Index step) ("unified-cd: step " +:+ w_quote W (cl_Name step) +:+ " failed to execute: " +:+ e)
  end.

(** The attempt loop, at attempt [try] with [more] allowed after it. *)
Fixpoint attempts_loop (ph : phase) (step : ClaimStep) (script : string) (extraEnv : list string)
    (attempts : Z) (backoff : string) (more : nat) (try : nat) : thread loop_result :=
  r ← attempt step try script extraEnv;
  match r with
  | ExecPanic msg => mret (LoopPanic msg)
  | _ =>
      let '(err, code, stdout) := attempt_values r in
      _ ← log_exec_error ph step err;
      if bool_decide (err = None) && (code =? 0)%Z then mret (LoopDone true code stdout)
      else
        masked ← cancelMasksFailure ph;
        if masked : bool then mret (LoopDone false code stdout)
        else
          match more with
          | 0 => mret (LoopDone false code stdout)
          | S more' =>
              _ ← log (cl_Index step)
                    ("── retry " +:+ pretty (S try) +:+ "/" +:+ pretty attempts +:+ " after "
                     +:+ w_backoff W backoff +:+ " (previous: exit " +:+ pretty code +:+ ") ──");
              cut ← ask [] (λ s, w_sleep W (st_time s) backoff);
              if cut : bool then mret (LoopDone false code stdout)
              else attempts_loop ph step script extraEnv attempts backoff more' (S try)
          end
  end.

Definition run_attempts (ph : phase) (step : ClaimStep) (script : string) (extraEnv : list string)
  : thread loop_result :=
  let attempts := match cl_Retry step with Some r => re_Attempts r | None => 1%Z end in
  let backoff := match cl_Retry step with Some r => re_Backoff r | None => "" end in
  match Z.to_nat attempts with
  | 0 => mret (LoopDone true 0 "")
  | S more => attempts_loop ph step script extraEnv attempts backoff more 1
  end.

(** The declared outputs that expand, in the context that has the step's stdout. *)
Definition captured_outputs (step : ClaimStep) (d : TemplateData) (stdout : string) : gmap string string :=
  let ctx := MkTemplateData (td_Params d) (td_Vars d) (td_Steps d) stdout (td_Secrets d) (td_Foreach d) (td_Matrix d) in
  omap (λ tpl, match expand tpl ctx with Ok v => Some v | Err _ => None end) (cl_Outputs step).

Definition record_outputs (step : ClaimStep) (outputs : gmap string string) : thread unit :=
  _ ← modify (with_steps (λ steps, ApplyStepOutputs steps (cl_Name step) (cl_MatrixKey step) (Some outputs)));
  set_outputs step outputs.

(** The status and exit code of a run step; [None] for a panic. *)
Definition run_script (ph : phase) (step : ClaimStep) (d : TemplateData)
  : thread (string + (step_status * Z)) :=
  let script := match expand (cl_Run step) d with Ok s => s | Err _ => cl_Run step end in
  r ← run_attempts ph step script (step_extra_env step d);
  match r with
  | LoopPanic msg => mret (inl msg)
  | LoopDone true code stdout =>
      _ ← record_outputs step (captured_outputs step d stdout);
      mret (inr (Succeeded, code))
  | LoopDone false code stdout =>
      masked ← cancelMasksFailure ph;
      mret (inr (if masked : bool then Cancelled else Failed, code))
  end.

(** The end of a run or call step: its post hook, its report, its failure. *)
Definition hook_of (step : ClaimStep) (post : PostStep) : postHookEntry :=
  let own := default [] (po_Shell post) in
  MkHook step post (if bool_decide (own = []) then cl_Shell step else po_Shell post).

Definition step_status_eqb (a b : step_status) : bool :=
  match a, b with
  | Running, Running | WaitingApproval, WaitingApproval | Succeeded, Succeeded
  | Failed, Failed | Cancelled, Cancelled | Skipped, Skipped => true
  | _, _ => false
  end.

Definition finish_step (ph : phase) (step : ClaimStep) (status : step_status) (exit : Z) (child : string)
  : thread unit :=
  let callJob := match cl_Call step with Some c => cc_Job c | None => "" end in
  _ ← match cl_Post step with
      | Some post => if step_status_eqb status Succeeded then modify (push_hook (hook_of step post)) else mret ()
      | None => mret ()
      end;
  _ ← emit (EReport step status exit child callJob);
  if step_status_eqb status Failed then recordFailure ph step else mret ().

Definition run_main_action (ph : phase) (step : ClaimStep) : thread unit :=
  _ ← report step Running;
  d0 ← take_snapshot;
  let d := step_data step d0 in
  match cl_Call step with
  | Some call =>
      r ← run_call step call d;
      finish_step ph step r.1 0 r.2
  | None =>
      r ← run_script ph step d;
      match r with
      | inl msg => recovered ph step msg
      | inr (status, code) => finish_step ph step status code ""
      end
  end.

(** The step runner [makeStepRunner] builds for a phase. *)
Definition run_action (runID : string) (ph : phase) (step : ClaimStep) : thread unit :=
  match cl_Approval step, cl_Cache step, cl_Upload step, cl_Download step with
  | Some _, _, _, _ => run_approval ph step
  | None, Some cs, _, _ => run_cache ph step cs
  | None, None, Some ua, _ => run_upload ph step ua
  | None, None, None, Some da => run_download runID ph step da
  | None, None, None, None => run_main_action ph step
  end.

Definition not_evaluated (e : text) : string :=
  render (w_quote W) e
  +:+ " — the condition could not be evaluated, so the step did NOT run and is reported Failed (fail closed)".

Definition stepRunner (runID : string) (ph : phase) (step : ClaimStep) : thread (option text) :=
  d ← take_snapshot;
  status ← status_view ph;
  let r := EvalCondition (w_CompileExpr W) (cl_If step) d status (ph_implicitSuccess ph) in
  _ ← match cr_error r with
      | Some e =>
          _ ← recordIfDiagnostic step (not_evaluated e);
          _ ← warn_condition step (cr_warnings r);
          markFailed ph step
      | None =>
          _ ← warn_condition step (cr_warnings r);
          if cr_value r then run_action runID ph step else report step Skipped
      end;
  mret None.

(** ** Pipelines *)

Inductive ConcurrencyMode := Concurrent | Sequential.

Definition runOne (run : ClaimStep → thread (option text)) (step : ClaimStep) : thread (option text) :=
  e ← run step;
  mret (if cl_ContinueOnError step then None else e).

Definition first_error (es : list (option text)) : option text := head (omap id es).

Definition runParallel (run : ClaimStep → thread (option text)) (steps : list ClaimStep)
  : program (option text) :=
  es ← fork (runOne run <$> steps);
  mret (first_error es).

Fixpoint runSequential (run : ClaimStep → thread (option text)) (steps : list ClaimStep)
  : program (option text) :=
  match steps with
  | [] => mret None
  | s :: steps' =>
      e ← lift (runOne run s);
      match (e : option text) with
      | Some e => mret (Some e)
      | None => runSequential run steps'
      end
  end.

(** The copies of the members of a stage; each member sees the context anew. *)
Fixpoint expand_members (maxCombos : Z) (members : list ClaimStep) : program (res (list ClaimStep)) :=
  match members with
  | [] => mret (Ok [])
  | st :: members' =>
      d ← lift take_snapshot;
      match ExpandMatrixStep (w_ExpandTemplate W) (w_json_strings W) st d maxCombos with
      | Err e => mret (Err e)
      | Ok copies =>
          rest ← expand_members maxCombos members';
          mret (match rest with Ok l => Ok (copies ++ l) | Err e => Err e end)
      end
  end.

Definition run_stage (mode : ConcurrencyMode) (run : ClaimStep → thread (option text)) (stage : ClaimStage)
    (expanded : list ClaimStep) : program (option text) :=
  match match sg_Step stage with Some s => cl_Matrix s | None => Some (MkClaimMatrix [] []) end, expanded with
  | None, s :: _ => lift (runOne run s)
  | _, _ =>
      match mode with
      | Sequential => runSequential run expanded
      | Concurrent => runParallel run expanded
      end
  end.

Fixpoint RunPipeline (maxCombos : Z) (mode : ConcurrencyMode) (run : ClaimStep → thread (option text))
    (stages : list ClaimStage) : program (option text) :=
  match stages with
  | [] => mret None
  | stage :: stages' =>
      ex ← expand_members maxCombos (StageSteps stage);
      match (ex : res (list ClaimStep)) with
      | Err e => mret (Some e)
      | Ok expanded =>
          e ← run_stage mode run stage expanded;
          match (e : option text) with
          | Some e => mret (Some e)
          | None => RunPipeline maxCombos mode run stages'
          end
      end
  end.

(** ** Cleanup *)

Definition maxTruncationAttributionNames : nat := 5.

Definition truncationAttribution (interrupted : string) (skipped : list string) : string :=
  let n := maxTruncationAttributionNames in
  let more := (if (n <? length skipped)%nat
               then " (+" +:+ pretty (length skipped - n) +:+ " more)" else "") in
  Join " "
    ((if (interrupted =? "")%string then [] else ["Interrupted: " +:+ interrupted +:+ "."])
     ++ (if bool_decide (skipped = []) then []
         else ["Never started: " +:+ Join ", " (take n skipped) +:+ more +:+ "."])).

Definition truncation_message (ph attribution : string) : string :=
  "unified-cd: " +:+ ph +:+ " did not finish: it hit the " +:+ w_budget W
  +:+ " cleanup budget (finallyTimeout) and was stopped. Work still in flight was interrupted and anything not yet started was skipped."
  +:+ (if (attribution =? "")%string then "" else " " +:+ attribution).

Definition recordPhaseTruncated (ph attribution : string) : thread unit :=
  log (-1) (w_Mask W (truncation_message ph attribution)).

Definition expired (ph : string) : thread bool := ask [] (λ s, w_expired W ph (st_time s)).

(** One queued item after another; the labels of the interrupted item and of
    those that never started. *)
Fixpoint run_hooks (ph : string) (items : list (string * event)) (interrupted : string)
    (skipped : list string) : thread (string * list string) :=
  match items with
  | [] => mret (interrupted, skipped)
  | (label, ev) :: items' =>
      late ← expired ph;
      if late : bool then run_hooks ph items' interrupted (skipped ++ [label])
      else
        _ ← emit ev;
        if (interrupted =? "")%string then
          late' ← expired ph;
          run_hooks ph items' (if late' : bool then label else "") skipped
        else run_hooks ph items' interrupted skipped
  end.

Definition hook_label (h : postHookEntry) : string :=
  "the post: hook of step " +:+ w_quote W (cl_Name (hk_step h)).

(** Saves in the order of registration, then post hooks, the last one first. *)
Definition drain_items (saves : list deferredHook) (hooks : list postHookEntry) : list (string * event) :=
  ((λ h, (sv_label h, ESave h)) <$> saves) ++ ((λ h, (hook_label h, EPost h)) <$> reverse hooks).

Definition drainHooks (ph : string) : thread unit :=
  queued ← Act (with_hooks [] []) (λ _, []) (λ s, Ret (st_saves s, st_hooks s));
  r ← run_hooks ph (drain_items queued.1 queued.2) "" [];
  late ← expired ph;
  if late : bool then recordPhaseTruncated ph (truncationAttribution r.1 r.2) else mret ().

End agent.

(** ** The claim *)

Section claim.
Variable W : World.

Definition init_state (c : ClaimResponse) : St :=
  MkSt 0 (MkTemplateData (c_Params c) (c_Vars c) ∅ "" ∅ ∅ ∅) false false false false [] [] [].

Definition main_phase : phase := MkPhase None true FMain true.
Definition finally_phase (frozen : RunStatusView) : phase := MkPhase (Some frozen) false FFinally false.

Definition OutputValueString (v : output) : string :=
  match v with OStr s => s | OMap m => w_json_map W m end.

(** The value of one declared output: the last step that declares it wins. *)
Definition promote_output (data : TemplateData) (stages : list ClaimStage) (acc : gmap string string)
    (outName : string) : gmap string string :=
  foldl (λ acc step,
           match (sd ← td_Steps data !! cl_Name step; os ← sd_Outputs sd; os !! outName) with
           | Some v => <[outName := OutputValueString v]> acc
           | None => acc
           end) acc (stages ≫= StageSteps).

Definition promote (c : ClaimResponse) (data : TemplateData) (stages : list ClaimStage)
    (acc : gmap string string) : gmap string string :=
  foldl (promote_output data stages) acc (c_JobOutputs c).

Definition promote_outputs (c : ClaimResponse) : thread unit :=
  data ← take_snapshot;
  let outputs := promote c data (c_Finally c) (promote c data (c_Stages c) ∅) in
  if bool_decide (outputs = ∅) then mret ()
  else
    _ ← for_each (skipped_outputs (w_Detects W) outputs) (λ k,
          log (-1) ("output " +:+ w_quote W k +:+ " skipped: value may contain a secret"));
    let safe := FilterSecretOutputs (w_Detects W) outputs in
    if bool_decide (safe = ∅) then mret () else emit (ERunOutputs safe).

Definition finally_name : string := "the finally: phase".

(** [finallyFailed.Store(true)] *)
Definition fail_finally : thread unit :=
  Act (set_flag FFinally) (λ _, [EFlag FFinally]) (λ _, Ret ()).

Definition run_finally (c : ClaimResponse) (mode : ConcurrencyMode) (frozen : RunStatusView) : program unit :=
  match c_Finally c with
  | [] => mret ()
  | _ =>
      err ← RunPipeline W (c_MatrixMax c) mode (stepRunner W (c_Vars c) (c_RunID c) (finally_phase frozen)) (c_Finally c);
      _ ← match (err : option text) with Some _ => lift fail_finally | None => mret () end;
      late ← lift (expired W finally_name);
      _ ← (if late : bool then lift (_ ← recordPhaseTruncated W finally_name ""; fail_finally) else mret ());
      lift (drainHooks W "the post:/cache: hook drain that follows finally:")
  end.

Definition overall_status (mainFailed finallyFailed cancelled : bool) : step_status :=
  if mainFailed || finallyFailed then Failed else if cancelled then Cancelled else Succeeded.

Definition run_dag (c : ClaimResponse) (mode : ConcurrencyMode) : program unit :=
  dagErr ← RunPipeline W (c_MatrixMax c) mode (stepRunner W (c_Vars c) (c_RunID c) main_phase) (c_Stages c);
  _ ← lift (drainHooks W "the post:/cache: hook drain that follows the main steps");
  cancelled ← lift (read st_cancelled);
  failed ← lift (read st_failed);
  let mainFailed := failed || (bool_decide (dagErr ≠ None) && negb cancelled) in
  _ ← run_finally c mode (MkRunStatusView mainFailed cancelled);
  finallyFailed ← lift (read st_ffailed);
  reaped ← lift (read st_reaped);
  if reaped : bool then mret ()
  else
    _ ← lift (promote_outputs c);
    lift (emit (EFinish (overall_status mainFailed finallyFailed cancelled))).

Definition with_secrets (secrets : gmap string string) (s : St) : St :=
  let d := st_data s in
  with_data (MkTemplateData (td_Params d) (td_Vars d) (td_Steps d) (td_Stdout d) secrets
               (td_Foreach d) (td_Matrix d)) s.

Definition RunClaim (c : ClaimResponse) (mode : ConcurrencyMode) : program unit :=
  match c_SecretsNeeded c with
  | [] => run_dag c mode
  | _ =>
      r ← lift (ask [] (λ s, w_FetchSecrets W (st_time s)));
      match (r : res (gmap string string)) with
      | Err e =>
          lift (_ ← log (-1) ("fetch secrets for run " +:+ c_RunID c +:+ ": " +:+ render (w_quote W) e);
                emit (EFinish Failed))
      | Ok secrets => _ ← lift (modify (with_secrets secrets)); run_dag c mode
      end
  end.
End claim.

(** ** A claim to run *)

(** A world in which scripts exit 0, except "false", and nothing else goes wrong. *)
Definition sample_world : World := MkWorld
  (λ tpl _, Ok tpl) (λ _, Some []) (λ _, inl (CelCompile [])) id id (λ _, false) "linux"
  (λ _, "/work") (λ _, ∅) (λ _ _, IoOk)
  (λ _ step script _, Exited (if (script =? "false")%string then 1 else 0) "")
  id (λ _ _, false) (λ _ job _, CallDone ("run-" +:+ job) None) (λ _ _, true) (λ _ p, PathOk p)
  (λ _ _ _, IoOk) (λ _ _ _ _, IoOk) (λ _ _ _, IoOk) (λ _ _, false) "5m" (λ _, "{}") (λ _, Ok ∅).

Definition sample_step (name script : string) (tolerated : bool) : ClaimStep :=
  MkClaimStep 0 0 name "" ∅ script ∅ None None (Some (MkPostStep ("undo " +:+ name) ∅ None)) tolerated "" "" "" None (whole_minutes 0)
    (Some (MkRetrySpec 2 "1s")) None None None None "" None None.

(** Two parallel steps, of which one may fail, a step that fails, a step after it,
    and a finally step. *)
Definition sample_claim : ClaimResponse :=
  MkClaim "run-1" "nightly" ∅ ∅
    [ MkStage None [sample_step "lint" "false" true; sample_step "unit" "go test" false];
      MkStage (Some (sample_step "build" "false" false)) [];
      MkStage (Some (sample_step "deploy" "push" false)) [] ]
    [ MkStage (Some (sample_step "notify" "mail" false)) [] ] [] [] None false false 256 [].

Definition statuses (es : list event) : list (string * step_status) :=
  omap (λ e, match e with EReport step st _ _ _ => Some (cl_Name step, st) | _ => None end) es.

Example sample_run :
  statuses (run_main (RunClaim sample_world sample_claim Concurrent) (init_state sample_claim)).2
  = [("lint", Running); ("lint", Failed); ("unit", Running); ("unit", Succeeded); ("build", Running);
     ("build", Failed); ("deploy", Skipped); ("notify", Running); ("notify", Succeeded)].
Proof. vm_compute. reflexivity. Qed.
