(* ===== verification/AgentFacts.v ===== *)
(** * internal/agent: correctness of the step loop

    The lemmas on [AgentRun] that the properties of [AgentOutcome],
    [AgentProtocol] and [AgentPhases] share: what each action may change and
    emit, for every interleaving of the members of a stage and for every
    behaviour of the backend, the controller and the clock. *)

From S2P Require Import Prelude GoStrings DslTypes DslMatrix DslCondition AgentSteps Threads AgentRun.
From stdpp Require Import options.

(** ** What the other threads and the environment may do *)

Record grows (s s' : St) : Prop := {
  g_time : st_time s ≤ st_time s';
  g_cancelled : st_cancelled s = true → st_cancelled s' = true;
  g_reaped : st_reaped s = true → st_reaped s' = true;
  g_flag : ∀ f, flag_set f s = true → flag_set f s' = true
}.

#[export] Instance grows_preorder : PreOrder grows.
Proof. split; [by split|]. intros s1 s2 s3 [] []. split; [lia|auto..]. Qed.

Lemma env_grows s s' : env s s' → grows s s'.
Proof.
  intros (t & c & r & -> & Ht & Hcr). split; simpl; [done| | |by intros []].
  - intros Hc. destruct Hcr as [[-> _]|[Hc' _]]; congruence.
  - intros Hc. destruct Hcr as [[_ ->]|(_ & Hc' & _)]; congruence.
Qed.

(** What the actions of a thread may emit: never the end of the run, and only
    outputs the secret detector passed. *)
Definition thread_event (W : World) (e : event) : Prop :=
  match e with
  | EFinish _ => False
  | ESetOutputs _ m | ERunOutputs m => m ≠ ∅ ∧ map_Forall (λ _ v, w_Detects W v = false) m
  | _ => True
  end.

(** What they emit apart from reports, executions and raised flags. *)
Definition quiet_event (W : World) (e : event) : Prop :=
  match e with EReport _ _ _ _ _ | EExec _ _ _ _ | EFlag _ => False | _ => thread_event W e end.

(** What they emit apart from reports. *)
Definition mute_event (W : World) (e : event) : Prop :=
  match e with EReport _ _ _ _ _ => False | _ => thread_event W e end.

(** Only events in [P]; a flag is only raised together with the event that says
    so, and only the poller cancels. *)
Record guarded (P : event → Prop) (s : St) (es : list event) (s' : St) : Prop := {
  f_grows : grows s s';
  f_flag : ∀ f, flag_set f s' = true → flag_set f s = true ∨ EFlag f ∈ es;
  f_events : Forall P es
}.
Arguments f_grows {P s es s'} _.
Arguments f_flag {P s es s'} _.
Arguments f_events {P s es s'} _.

Abbreviation flagged W := (guarded (thread_event W)).
Abbreviation mute W := (guarded (mute_event W)).
Abbreviation quiet W := (guarded (quiet_event W)).

#[export] Instance guarded_chain P : Chain (guarded P).
Proof.
  split.
  - intros s. split; [done|by left|done].
  - intros s1 s2 s3 e1 e2 [G1 F1 E1] [G2 F2 E2]. split; [by etrans| |by apply Forall_app].
    intros f Hf. rewrite elem_of_app. destruct (F2 f Hf) as [H|H]; [|by right; right].
    destruct (F1 f H) as [?|?]; [by left|by right; left].
Qed.

Lemma env_guarded P s s' : env s s' → guarded P s [] s'.
Proof.
  intros H. split; [by apply env_grows| |done]. destruct H as (t & c & r & -> & _). by intros []; left.
Qed.

(** Nothing but the environment moved. *)
Definition idle (s s' : St) : Prop := guarded (λ _, False) s [] s'.

#[export] Instance idle_preorder : PreOrder idle.
Proof. split; [intros s; apply (chain_refl (G := guarded _))|]. intros s1 s2 s3. apply (chain_trans s1 s2 s3 [] []). Qed.

Lemma idle_flag s s' f : idle s s' → flag_set f s' = flag_set f s.
Proof.
  intros [[_ _ _ Hg] Hf _]. destruct (flag_set f s) eqn:E; [by apply Hg|].
  apply not_true_is_false. by intros [?|?%not_elem_of_nil]%Hf; [congruence|].
Qed.

Lemma grows_set_flag f s : grows s (set_flag f s).
Proof. destruct f, s; split; simpl; try done; by intros []. Qed.

Lemma flag_set_flag f g s : flag_set g (set_flag f s) = true → g = f ∨ flag_set g s = true.
Proof. destruct f, g, s; simpl; auto. Qed.

Lemma set_flag_set f s : flag_set f (set_flag f s) = true.
Proof. by destruct f. Qed.

Lemma guarded_set_flag (P : event → Prop) f s : P (EFlag f) → guarded P s [EFlag f] (set_flag f s).
Proof.
  intros HP. split; [apply grows_set_flag| |by repeat constructor].
  intros g [->|?]%flag_set_flag; [right; left|by left].
Qed.

(** An update that touches neither the time nor the flags. *)
Definition neutral (u : St → St) : Prop :=
  ∀ s, st_time (u s) = st_time s ∧ st_cancelled (u s) = st_cancelled s ∧ st_reaped (u s) = st_reaped s ∧
    ∀ f, flag_set f (u s) = flag_set f s.

Lemma neutral_id : neutral id.
Proof. done. Qed.

Lemma neutral_guarded P u es s : neutral u → Forall P es → guarded P s es (u s).
Proof.
  intros Hu He. destruct (Hu s) as (Ht & Hc & Hr & Hf). split; [split| |done].
  - lia.
  - congruence.
  - congruence.
  - intros f. by rewrite Hf.
  - intros f. rewrite Hf. by left.
Qed.

(** ** Every thread keeps to that *)

Create HintDb agent.

Lemma keeps_act {A} P u es (k : St → proc St event A) :
  neutral u → (∀ s, Forall P (es s)) → (∀ s, keeps (guarded P) (k s)) → keeps (guarded P) (Act u es k).
Proof. intros Hu He Hk s. split; [by apply neutral_guarded|done]. Qed.
Lemma keeps_read {A} P (f : St → A) : keeps (guarded P) (read f).
Proof. by apply keeps_act; [apply neutral_id|..]. Qed.
Lemma keeps_emit (P : event → Prop) e : P e → keeps (guarded P) (emit e).
Proof. intros He. apply keeps_act; [apply neutral_id| |done]. by repeat constructor. Qed.
Lemma keeps_ask {A} P es (f : St → A) : Forall P es → keeps (guarded P) (ask es f).
Proof. intros He. by apply keeps_act; [apply neutral_id|..]. Qed.
Lemma keeps_modify P u : neutral u → keeps (guarded P) (modify u).
Proof. intros Hu. by apply keeps_act. Qed.
Lemma keeps_mret {A} P (a : A) : keeps (guarded P) (mret a).
Proof. done. Qed.
Lemma keeps_flag (P : event → Prop) f :
  P (EFlag f) → keeps (guarded P) (Act (set_flag f) (λ _, [EFlag f]) (λ _, Ret ())).
Proof. intros HP s. split; [by apply guarded_set_flag|done]. Qed.

Lemma keeps_guarded {A} (P P' : event → Prop) (t : proc St event A) :
  (∀ e, P e → P' e) → keeps (guarded P) t → keeps (guarded P') t.
Proof.
  intros HP. apply keeps_weaken. intros s l s' [H1 H2 H3]. split; [done..|]. by eapply Forall_impl.
Qed.
Lemma quiet_mute {A} W (t : proc St event A) : keeps (quiet W) t → keeps (mute W) t.
Proof. apply keeps_guarded. by intros []. Qed.
Lemma mute_flagged {A} W (t : proc St event A) : keeps (mute W) t → keeps (flagged W) t.
Proof. apply keeps_guarded. by intros []. Qed.
Lemma quiet_flagged {A} W (t : proc St event A) : keeps (quiet W) t → keeps (flagged W) t.
Proof. intros. by apply mute_flagged, quiet_mute. Qed.
#[export] Hint Resolve keeps_read keeps_emit keeps_ask keeps_mret keeps_flag Forall_nil_2 Forall_cons_2 : agent.
#[export] Hint Extern 0 (thread_event _ _) => exact I : agent.
#[export] Hint Extern 0 (quiet_event _ _) => exact I : agent.
#[export] Hint Extern 0 (mute_event _ _) => exact I : agent.
#[export] Hint Resolve quiet_flagged quiet_mute mute_flagged | 5 : agent.

(** The outputs kept for publication. *)
Lemma FilterSecretOutputs_safe Detects m :
  map_Forall (λ _ v, Detects v = false) (FilterSecretOutputs Detects m).
Proof. intros k v [_ H]%map_lookup_filter_Some. exact H. Qed.

(** Decompose a thread into its actions. *)
Ltac keeps :=
  repeat first
    [ progress cbv zeta
    | match goal with
      | |- keeps _ (mbind _ _) => apply keeps_bind; [|intros ?]
      | |- keeps _ (match ?x with _ => _ end) => destruct x
      end
    | solve [auto with agent] ].

(** The same decomposition for programs. *)
Ltac mkeeps :=
  repeat first
    [ progress cbv zeta
    | match goal with
      | |- main_keeps _ (mbind _ _) => apply main_keeps_bind; [|intros ?]
      | |- main_keeps _ (lift _) => apply main_keeps_lift; keeps
      | |- main_keeps _ (match ?x with _ => _ end) => destruct x
      end
    | solve [auto with agent] ].

Section keeps.
Context (W : World) (Vars : gmap string string).

Lemma keeps_for_each {A} P (l : list A) f : (∀ x, keeps (guarded P) (f x)) → keeps (guarded P) (for_each l f).
Proof. intros Hf. induction l; cbn [for_each]; keeps; auto. Qed.
#[local] Hint Resolve keeps_for_each : agent.

Lemma keeps_cancelMasksFailure ph : keeps (quiet W) (cancelMasksFailure ph).
Proof. unfold cancelMasksFailure. keeps. Qed.
#[local] Hint Resolve keeps_cancelMasksFailure : agent.
Lemma keeps_report step st : keeps (flagged W) (report step st).
Proof. unfold report. keeps. Qed.
#[local] Hint Resolve keeps_report : agent.
Lemma keeps_log i l : keeps (quiet W) (log i l).
Proof. unfold log. keeps. Qed.
#[local] Hint Resolve keeps_log : agent.
Lemma keeps_recordFailure ph step : keeps (mute W) (recordFailure ph step).
Proof. unfold recordFailure. keeps. Qed.
#[local] Hint Resolve keeps_recordFailure : agent.
Lemma keeps_markFailed ph step : keeps (flagged W) (markFailed ph step).
Proof. unfold markFailed. keeps. Qed.
#[local] Hint Resolve keeps_markFailed : agent.
Lemma keeps_recovered ph step msg : keeps (flagged W) (recovered ph step msg).
Proof. unfold recovered. keeps. Qed.
#[local] Hint Resolve keeps_recovered : agent.
Lemma keeps_status_view ph : keeps (quiet W) (status_view ph).
Proof. unfold status_view. keeps. Qed.
#[local] Hint Resolve keeps_status_view : agent.
Lemma keeps_take_snapshot : keeps (quiet W) take_snapshot.
Proof. unfold take_snapshot. keeps. Qed.
#[local] Hint Resolve keeps_take_snapshot : agent.

Lemma keeps_recordIfDiagnostic step msg : keeps (quiet W) (recordIfDiagnostic W step msg).
Proof.
  unfold recordIfDiagnostic. cbv zeta. apply keeps_bind; [|intros []; keeps].
  apply keeps_act; [intros []; split_and!; [done..|by intros []]|by constructor|done].
Qed.
#[local] Hint Resolve keeps_recordIfDiagnostic : agent.
Lemma keeps_warn_condition step ws : keeps (quiet W) (warn_condition W step ws).
Proof. unfold warn_condition. keeps. Qed.
#[local] Hint Resolve keeps_warn_condition : agent.
Lemma keeps_resolveScope step : keeps (quiet W) (resolveScope W step).
Proof. unfold resolveScope. keeps. Qed.
#[local] Hint Resolve keeps_resolveScope : agent.

Lemma neutral_with_data d : neutral (with_data d).
Proof. intros []. split_and!; [done..|by intros []]. Qed.
Lemma neutral_with_steps f : neutral (with_steps f).
Proof. intros []. split_and!; [done..|by intros []]. Qed.
Lemma neutral_with_hooks a b : neutral (with_hooks a b).
Proof. intros []. split_and!; [done..|by intros []]. Qed.
Lemma neutral_push_save h : neutral (push_save h).
Proof. intros []. split_and!; [done..|by intros []]. Qed.
Lemma neutral_push_hook h : neutral (push_hook h).
Proof. intros []. split_and!; [done..|by intros []]. Qed.
#[local] Hint Resolve keeps_modify neutral_with_data neutral_with_steps neutral_with_hooks
  neutral_push_save neutral_push_hook : agent.

Lemma keeps_set_outputs step outs : keeps (quiet W) (set_outputs W step outs).
Proof.
  unfold set_outputs. case_bool_decide; [done|]. apply keeps_bind; [keeps|intros []]. cbv zeta.
  case_bool_decide; [done|]. apply keeps_emit. split; [done|].
  apply FilterSecretOutputs_safe.
Qed.
#[local] Hint Resolve keeps_set_outputs : agent.
Lemma keeps_record_outputs step outs : keeps (quiet W) (record_outputs W step outs).
Proof. unfold record_outputs. keeps. Qed.
#[local] Hint Resolve keeps_record_outputs : agent.

Lemma keeps_attempt step try script env : keeps (mute W) (attempt W step try script env).
Proof. unfold attempt. keeps. Qed.
#[local] Hint Resolve keeps_attempt : agent.
Lemma keeps_log_exec_error ph step err : keeps (quiet W) (log_exec_error W ph step err).
Proof. unfold log_exec_error. keeps. Qed.
#[local] Hint Resolve keeps_log_exec_error : agent.
Lemma keeps_attempts_loop ph step script env n b more : ∀ try,
  keeps (mute W) (attempts_loop W ph step script env n b more try).
Proof. induction more as [|more IH]; intros try; cbn [attempts_loop]; keeps; auto. Qed.
#[local] Hint Resolve keeps_attempts_loop : agent.
Lemma keeps_finish_step ph step st code child : keeps (flagged W) (finish_step ph step st code child).
Proof. unfold finish_step. keeps. Qed.
#[local] Hint Resolve keeps_finish_step : agent.
Lemma keeps_run_script ph step d : keeps (mute W) (run_script W Vars ph step d).
Proof. unfold run_script, run_attempts. keeps. Qed.
#[local] Hint Resolve keeps_run_script : agent.
Lemma keeps_run_call step call d : keeps (flagged W) (run_call W step call d).
Proof. unfold run_call. keeps. Qed.
#[local] Hint Resolve keeps_run_call : agent.

Lemma keeps_run_action run ph step : keeps (flagged W) (run_action W Vars run ph step).
Proof.
  unfold run_action, run_approval, run_cache, cache_body, run_upload, run_download, run_main_action. keeps.
Qed.
#[local] Hint Resolve keeps_run_action : agent.

Lemma keeps_stepRunner run ph step : keeps (flagged W) (stepRunner W Vars run ph step).
Proof. unfold stepRunner. keeps. Qed.
#[local] Hint Resolve keeps_stepRunner : agent.

Lemma keeps_runOne run ph step : keeps (flagged W) (runOne (stepRunner W Vars run ph) step).
Proof. unfold runOne. keeps. Qed.
#[local] Hint Resolve keeps_runOne : agent.

(** *** The cleanup phases and the pipelines *)

Lemma keeps_expired ph : keeps (quiet W) (expired W ph).
Proof. unfold expired. keeps. Qed.
#[local] Hint Resolve keeps_expired : agent.

Lemma keeps_run_hooks ph items : Forall (λ it, quiet_event W it.2) items → ∀ i sk,
  keeps (quiet W) (run_hooks W ph items i sk).
Proof.
  induction 1 as [|[label ev] items Hev _ IH]; intros i sk; cbn [run_hooks]; [done|]. simpl in Hev.
  keeps.
Qed.

Lemma drain_items_events saves hooks : Forall (λ it, quiet_event W it.2) (drain_items W saves hooks).
Proof. unfold drain_items. apply Forall_app. by split; apply Forall_fmap, Forall_true. Qed.

Lemma keeps_drainHooks ph : keeps (quiet W) (drainHooks W ph).
Proof.
  unfold drainHooks. apply keeps_bind; [apply keeps_act|intros q; apply keeps_bind].
  - apply neutral_with_hooks.
  - done.
  - done.
  - apply keeps_run_hooks, drain_items_events.
  - intros r. unfold recordPhaseTruncated. keeps.
Qed.

Lemma keeps_promote_outputs c : keeps (quiet W) (promote_outputs W c).
Proof.
  unfold promote_outputs. apply keeps_bind; [keeps|intros d]. cbv zeta.
  case_bool_decide; [done|]. apply keeps_bind; [keeps|intros []].
  case_bool_decide; [done|]. apply keeps_emit. split; [done|]. apply FilterSecretOutputs_safe.
Qed.

Lemma keeps_fail_finally : keeps (mute W) fail_finally.
Proof. by apply keeps_flag. Qed.

Lemma main_keeps_mret {R A} (a : A) : main_keeps (R := R) (flagged W) (mret a).
Proof. done. Qed.
#[local] Hint Resolve main_keeps_lift main_keeps_mret keeps_drainHooks keeps_promote_outputs keeps_fail_finally : agent.

Section pipeline.
Context (run : ClaimStep → proc St event (option text)).
Context (Hrun : ∀ step, keeps (flagged W) (runOne run step)).
#[local] Hint Resolve Hrun : agent.

Lemma main_keeps_fork {A} (ts : list (proc St event A)) :
  Forall (keeps (flagged W)) ts → main_keeps (flagged W) (fork ts).
Proof. by split. Qed.

Lemma main_keeps_expand max members : main_keeps (flagged W) (expand_members W max members).
Proof. induction members as [|m members IH]; cbn [expand_members]; mkeeps. Qed.
#[local] Hint Resolve main_keeps_expand : agent.

Lemma main_keeps_runSequential steps : main_keeps (flagged W) (runSequential run steps).
Proof using Hrun. induction steps as [|m members IH]; cbn [runSequential]; mkeeps. Qed.
#[local] Hint Resolve main_keeps_runSequential : agent.

Lemma main_keeps_run_stage mode stage steps : main_keeps (flagged W) (run_stage mode run stage steps).
Proof using Hrun.
  unfold run_stage, runParallel. mkeeps; apply main_keeps_fork, Forall_fmap, Forall_true; apply Hrun.
Qed.
#[local] Hint Resolve main_keeps_run_stage : agent.

Lemma main_keeps_RunPipeline max mode stages : main_keeps (flagged W) (RunPipeline W max mode run stages).
Proof using Hrun. induction stages as [|m stages IH]; cbn [RunPipeline]; mkeeps. Qed.
End pipeline.
#[local] Hint Resolve main_keeps_RunPipeline : agent.

End keeps.
#[export] Hint Resolve main_keeps_lift main_keeps_mret keeps_drainHooks keeps_promote_outputs keeps_fail_finally
  keeps_report keeps_markFailed keeps_recovered keeps_run_script keeps_run_call keeps_run_action keeps_stepRunner
  keeps_log keeps_expired keeps_runOne keeps_cancelMasksFailure keeps_recordFailure keeps_status_view
  keeps_take_snapshot keeps_recordIfDiagnostic keeps_warn_condition keeps_resolveScope keeps_set_outputs
  keeps_record_outputs keeps_attempt keeps_log_exec_error keeps_attempts_loop keeps_for_each keeps_modify
  neutral_with_data neutral_with_steps neutral_with_hooks neutral_push_save neutral_push_hook : agent.

Lemma main_keeps_run_finally W c mode frozen : main_keeps (flagged W) (run_finally W c mode frozen).
Proof.
  unfold run_finally, recordPhaseTruncated. destruct (c_Finally c); [done|].
  apply main_keeps_bind; [apply main_keeps_RunPipeline; intros; keeps|intros err]. mkeeps.
Qed.

(** ** Programs

    A property of the events so far, lifted from the threads to the program:
    [sound Φ m] says that [m], run from a state in [I], emits events that satisfy
    [acc] in the end, and gives a result in [Φ].  The property has to survive the
    moves of the state, and to hold of a list that is covered by lists it holds of
    (as the events of a stage are by those of its members). *)
Section sound.
Context (W : World) (I : St → Prop) (acc : St → list event → Prop).

Definition sound {A} (Φ : A → Prop) (m : main St event (option text) A) : Prop :=
  main_keeps (flagged W) m ∧
  ∀ s s' a es, I s → mrun env s m s' a es → acc s' es ∧ Φ a.

Context (I_grows : ∀ s s', grows s s' → I s → I s').
Context (acc_grows : ∀ s s' l, grows s s' → acc s l → acc s' l).
Context (acc_cover : ∀ s l, (∀ e, e ∈ l → ∃ o, acc s o ∧ e ∈ o ∧ o ⊆ l) → acc s l).

Lemma acc_nil s : acc s [].
Proof using acc_cover. apply acc_cover. by intros e ?%not_elem_of_nil. Qed.

Lemma acc_app s l1 l2 : acc s l1 → acc s l2 → acc s (l1 ++ l2).
Proof using acc_cover.
  intros H1 H2. apply acc_cover. intros e [He|He]%elem_of_app; [exists l1|exists l2];
    (split; [done|]; split; [done|]); intros x ?; apply elem_of_app; [by left|by right].
Qed.

Lemma mrun_flagged {A} P s (m : main St event (option text) A) s' a es :
  main_keeps (guarded P) m → mrun env s m s' a es → guarded P s es s'.
Proof. intros Hm. apply mrun_keeps; [apply _| |done]. apply env_guarded. Qed.

Lemma sound_mret {A} (Φ : A → Prop) a : Φ a → sound Φ (mret a).
Proof using acc_cover.
  intros Ha. split; [done|]. intros s s' b es _ H.
  remember (mret a) as m eqn:E. induction H as [s b| | |s s1 m s' b es _ _ IH]; [|done|done|by apply IH].
  injection E as ->. split; [apply acc_nil|done].
Qed.

Lemma sound_bind {A B} (Φ : A → Prop) (Ψ : B → Prop) (m : main St event (option text) A) f :
  sound Φ m → (∀ a, main_keeps (flagged W) (f a)) → (∀ a, Φ a → sound Ψ (f a)) → sound Ψ (m ≫= f).
Proof using I_grows acc_grows acc_cover.
  intros [Hk Hm] Hkf Hf. split; [by apply main_keeps_bind|].
  intros s s' b es Hs (s1 & a & es1 & es2 & H1 & H2 & ->)%mrun_bind.
  destruct (Hm s s1 a es1 Hs H1) as [He Ha].
  pose proof (f_grows (mrun_flagged _ _ _ _ _ _ Hk H1)) as G1.
  pose proof (f_grows (mrun_flagged _ _ _ _ _ _ (Hkf a) H2)) as G2.
  destruct (Hf a Ha) as [_ Hf']. destruct (Hf' s1 s' b es2) as [He2 Hb]; [by eapply I_grows|done|].
  split; [|done]. apply acc_app; [|done]. by eapply acc_grows.
Qed.

Lemma sound_lift {A} (Φ : A → Prop) (t : proc St event A) :
  keeps (flagged W) t → (∀ s, I s → wp grows t (λ a l s', acc s' l ∧ Φ a) s) → sound Φ (lift t).
Proof.
  intros Hk Hwp. split; [by apply main_keeps_lift|]. intros s s' a es Hs H.
  by eapply (mrun_lift env grows t (λ a l s', acc s' l ∧ Φ a)) in H; [|apply env_grows|apply Hwp].
Qed.

Lemma sound_fork (Ψ : option text → Prop) (ts : list (proc St event (option text))) :
  Forall (λ t, keeps (flagged W) t ∧ ∀ s, I s → wp grows t (λ a l s', acc s' l ∧ Ψ a) s) ts →
  sound (Forall Ψ) (fork ts).
Proof using I_grows acc_grows acc_cover.
  intros Hts. assert (Forall (keeps (flagged W)) ts) as Hk by (by eapply Forall_impl; [exact Hts|intros t []]).
  split; [by apply main_keeps_fork|]. intros s s' rs es Hs H.
  unfold fork in H. remember (Fork ts Fin) as m eqn:E. revert Hs E.
  induction H as [|s u e k s' rs es H IH|s ts' k s1 rs' own all s' rs es Hp H _|s s1 m s' rs es He H IH];
    [done|done| |]; intros Hs E.
  - injection E as -> ->.
    destruct (par_events _ _ _ _ _ _ _ Hp) as (Hl1 & Hl2 & Hev).
    assert (∀ i r o, rs' !! i = Some r → own !! i = Some o → acc s1 o ∧ Ψ r) as Hown.
    { apply (par_wp env grows (λ _ a l s', acc s' l ∧ Ψ a) s ts s1 rs' own all); [apply env_grows| | |done].
      - eapply Forall_impl; [exact Hk|]. intros t. apply keeps_weaken. by intros ? ? ? [].
      - intros j t Hj. by eapply Forall_lookup in Hts as [_ Hw]; [apply Hw|]. }
    assert (grows s1 s') as G by
      (by eapply (f_grows (P := thread_event W)), (mrun_flagged _ _ (Fin rs')); [|exact H]).
    assert (es = [] ∧ rs = rs') as [-> ->].
    { clear -H. remember (Fin rs') as m eqn:E. induction H; [by injection E as ->|done..|by apply IHmrun]. }
    rewrite app_nil_r. split.
    + eapply acc_grows; [exact G|]. apply acc_cover. intros e (i & o & Ho & He)%Hev.
      destruct (lookup_lt_is_Some_2 rs' i) as [r Hr].
      { apply lookup_lt_Some in Ho. lia. }
      exists o. split; [by eapply Hown|]. split; [done|]. intros e' He'. apply Hev. by exists i, o.
    + apply Forall_lookup. intros i r Hr. destruct (lookup_lt_is_Some_2 own i) as [o Ho].
      { apply lookup_lt_Some in Hr. lia. }
      by eapply Hown.
  - apply IH; [|done]. eapply I_grows; [by apply env_grows|done].
Qed.

(** *** Pipelines: the steps satisfy [ok], a property the copies inherit.  A
    pipeline only fails where the copies of a step cannot be made. *)
Context (ok : ClaimStep → Prop).
Context (ok_copies : ∀ st d max copies,
  ok st → ExpandMatrixStep (w_ExpandTemplate W) (w_json_strings W) st d max = Ok copies → Forall ok copies).
Context (run : ClaimStep → proc St event (option text)).
Context (Hrun : ∀ step, keeps (flagged W) (runOne run step)).
Context (run_acc : ∀ step s, ok step → I s → wp grows (runOne run step) (λ a l s', acc s' l ∧ a = None) s).

Lemma sound_runOne step : ok step → sound (λ e, e = None) (lift (runOne run step)).
Proof using Hrun run_acc. intros Hok. apply sound_lift; [done|]. intros s Hs. by apply run_acc. Qed.

Lemma sound_runSequential steps : Forall ok steps → sound (λ e, e = None) (runSequential run steps).
Proof using All.
  induction 1 as [|step steps Hok _ IH]; cbn [runSequential]; [by apply sound_mret|].
  eapply sound_bind; [by apply sound_runOne| |].
  - intros []; [done|]. apply main_keeps_runSequential, Hrun.
  - by intros ? ->.
Qed.

Lemma sound_runParallel steps : Forall ok steps → sound (λ e, e = None) (runParallel run steps).
Proof using All.
  intros Hok. unfold runParallel. eapply sound_bind; [apply (sound_fork (λ e, e = None))|done|].
  2: { intros rs Hrs. apply sound_mret. unfold first_error. induction Hrs as [|? ? -> _ IH]; [done|exact IH]. }
  apply Forall_fmap. eapply Forall_impl; [exact Hok|]. intros step Hstep. split; [apply Hrun|].
  intros s Hs. by apply run_acc.
Qed.

Definition expansion_fails (max : Z) : Prop :=
  ∃ st d e, ok st ∧ ExpandMatrixStep (w_ExpandTemplate W) (w_json_strings W) st d max = Err e.

Lemma sound_expand max members : Forall ok members →
  sound (λ ex, match ex with Ok copies => Forall ok copies | Err _ => expansion_fails max end) (expand_members W max members).
Proof using I_grows acc_grows acc_cover ok_copies.
  induction 1 as [|st members Hok _ IH]; cbn [expand_members]; [by apply sound_mret|].
  apply (sound_bind (λ _, True)).
  - apply sound_lift; [auto with agent|]. intros s _ s1 _ s2 _. split; [apply acc_nil|done].
  - intros d. mkeeps. apply main_keeps_expand.
  - intros d _. destruct (ExpandMatrixStep _ _ st d max) as [copies|e] eqn:E; [|by apply sound_mret; exists st, d, e].
    eapply sound_bind; [exact IH|done|]. intros [l|e] Hl; apply sound_mret; [|exact Hl].
    apply Forall_app. split; [by eapply ok_copies|done].
Qed.

Lemma sound_run_stage mode stage steps :
  Forall ok steps → sound (λ e, e = None) (run_stage mode run stage steps).
Proof using All.
  intros Hok. unfold run_stage.
  assert (sound (λ e, e = None) (match mode with Sequential => runSequential run steps | Concurrent => runParallel run steps end))
    as H by (destruct mode; [by apply sound_runParallel|by apply sound_runSequential]).
  destruct (match sg_Step stage with Some s => cl_Matrix s | None => _ end); [done|].
  destruct steps as [|step steps]; [done|]. apply sound_runOne. by inversion Hok.
Qed.

Lemma sound_RunPipeline max mode stages :
  Forall (λ stage, Forall ok (StageSteps stage)) stages → sound (λ e, e ≠ None → expansion_fails max) (RunPipeline W max mode run stages).
Proof using All.
  induction 1 as [|stage stages Hok _ IH]; cbn [RunPipeline]; [by apply sound_mret|].
  eapply sound_bind; [by apply sound_expand| |].
  - intros [l|e]; mkeeps; [by apply main_keeps_run_stage|by apply main_keeps_RunPipeline].
  - intros [l|e] Hl; [|by apply sound_mret].
    eapply sound_bind; [by apply sound_run_stage| |].
    + intros []; mkeeps. by apply main_keeps_RunPipeline.
    + by intros ? ->.
Qed.
End sound.
