(* ===== verification/AgentProtocol.v ===== *)
(** * internal/agent: what each step does

    The protocol of a step's reports ([report_protocol]) and the retry budget
    ([retry_budget]). *)

From S2P Require Import Prelude GoStrings DslTypes DslMatrix DslCondition AgentSteps Threads AgentRun AgentFacts.
From stdpp Require Import options.

(** ** The events of a thread, whatever happens around it *)

(** [emits calm t Q]: the events of [t] satisfy [Q]; when [calm], provided the run is
    not cancelled by the time [t] ends. *)
Record emits {A} (calm : bool) (t : proc St event A) (Q : A → list event → Prop) : Prop := {
  em_keeps : keeps (guarded (λ _, True)) t;
  em_wp : ∀ s, wp grows t (λ a l s', (calm = true → st_cancelled s' = false) → Q a l) s
}.

Section emits.
Context (calm : bool).
Abbreviation emits := (emits calm).

Lemma keeps_any {A} P (t : proc St event A) : keeps (guarded P) t → keeps (guarded (λ _, True)) t.
Proof. by apply keeps_guarded. Qed.
Lemma flagged_any {A} W (t : proc St event A) : keeps (flagged W) t → keeps (guarded (λ _, True)) t.
Proof. apply keeps_any. Qed.

Lemma emits_mono {A} (t : proc St event A) (Q Q' : A → list event → Prop) :
  (∀ a l, Q a l → Q' a l) → emits t Q → emits t Q'.
Proof. intros HQ [Hk H]. split; [done|]. intros s. eapply wp_mono; [|apply H]. intros a l s' Hl Hc. by apply HQ, Hl. Qed.

Lemma emits_bind {A B} (t : proc St event A) (f : A → proc St event B) Q1 (Q : B → list event → Prop) :
  emits t Q1 → (∀ a l1, Q1 a l1 → emits (f a) (λ b l2, Q b (l1 ++ l2))) → (∀ a, keeps (guarded (λ _, True)) (f a)) → emits (t ≫= f) Q.
Proof.
  intros [Hk Ht] Hf Hkf. split; [by apply keeps_bind|]. intros s. apply wp_bind; [apply _|]. eapply wp_mono; [|apply Ht].
  cbv beta. intros a l s' Hl. destruct (decide (calm = true ∧ st_cancelled s' = true)) as [[Hc Hs]|Hn].
  - eapply wp_mono; [|apply wp_guarantee; [apply _| |apply wp_true]].
    + intros b l2 s2 [_ G] Hs2. specialize (Hs2 Hc). by rewrite (g_cancelled _ _ G Hs) in Hs2.
    + eapply keeps_weaken; [|apply Hkf]. by intros ? ? ? [].
  - apply Hf, Hl. intros Hc. destruct (st_cancelled s') eqn:E; [by destruct Hn|done].
Qed.

Lemma emits_mret {A} (a : A) (Q : A → list event → Prop) : Q a [] → emits (mret a) Q.
Proof. intros H. split; [done|]. by intros s s' _ _. Qed.

Lemma emits_emit e (Q : unit → list event → Prop) : Q tt [e] → emits (emit e) Q.
Proof. intros H. split; [by apply keeps_emit|]. intros s s' _ s2 _ _. exact H. Qed.

Lemma emits_ask {A} es (f : St → A) (Q : A → list event → Prop) : (∀ s, Q (f s) es) → emits (ask es f) Q.
Proof. intros H. split; [by apply keeps_ask, Forall_true|]. intros s s' _ s2 _ _. rewrite app_nil_r. apply H. Qed.

Lemma emits_keeps {A} P (t : proc St event A) : keeps (guarded P) t → emits t (λ _ l, Forall P l).
Proof.
  intros Ht. split; [by eapply keeps_any|]. intros s. eapply wp_mono; [|apply (wp_events _ P)]; [by auto|].
  eapply keeps_weaken; [|exact Ht]. by intros ? ? ? [].
Qed.

Lemma emits_wp {A} (t : proc St event A) (Q : A → list event → Prop) s :
  emits t Q → wp grows t (λ a l s', (calm = true → st_cancelled s' = false) → Q a l) s.
Proof. intros [_ H]. apply H. Qed.

Lemma emits_conj {A} (t : proc St event A) (Q1 Q2 : A → list event → Prop) :
  emits t Q1 → emits t Q2 → emits t (λ a l, Q1 a l ∧ Q2 a l).
Proof.
  intros [Hk H1] [_ H2]. split; [done|]. intros s. eapply wp_mono; [|by apply (wp_conj grows t _ _ s (H1 s) (H2 s))].
  cbv beta. intros a l s' [? ?] ?. auto.
Qed.
End emits.

(** A thread run alone, with what is known of the end. *)
Lemma emits_run {A} (t : proc St event A) (Q : bool → A → list event → Prop) s s' a es :
  (∀ calm, emits calm t (Q calm)) → mrun (R := option text) env s (lift t) s' a es → Q (negb (st_cancelled s')) a es.
Proof.
  intros Ht H. set (calm := negb (st_cancelled s')).
  refine (mrun_lift env grows t (λ a l s'', (calm = true → st_cancelled s'' = false) → Q calm a l) s s' a es env_grows _ H _).
  - apply Ht.
  - unfold calm. by destruct (st_cancelled s').
Qed.

(** ** Reports *)

Definition reports (l : list event) : list (ClaimStep * step_status) :=
  omap (λ e, match e with EReport step st _ _ _ => Some (step, st) | _ => None end) l.

#[export] Instance step_status_dec : EqDecision step_status.
Proof. solve_decision. Defined.

Definition outcome (st : step_status) : bool :=
  match st with Succeeded | Failed | Cancelled => true | _ => false end.

(** What a step reports once it is under way.  An upload or download that fails
    reports its failure twice; a call reports again that it is under way once it
    knows its child; a cache step whose scope fails is skipped over as a success. *)
Definition protocol (step : ClaimStep) : list (list step_status) :=
  match cl_Approval step, cl_Cache step, cl_Upload step, cl_Download step, cl_Call step with
  | Some _, _, _, _, _ => [[WaitingApproval; Succeeded]; [WaitingApproval; Failed]]
  | None, Some _, _, _, _ => (if isScopedStep step then [[Succeeded]] else []) ++ [[Running; Succeeded]; [Running; Failed]]
  | None, None, Some _, _, _ | None, None, None, Some _, _ =>
      [[Running; Succeeded]; [Running; Failed]; [Running; Failed; Failed]]
  | None, None, None, None, Some _ =>
      [[Running; Succeeded]; [Running; Failed]; [Running; Running; Succeeded]; [Running; Running; Failed]]
  | None, None, None, None, None => [[Running; Succeeded]; [Running; Failed]; [Running; Cancelled]]
  end.

(** The kinds that provision the scope of a scoped step before they report. *)
Definition scoped_io (step : ClaimStep) : bool :=
  isScopedStep step && match cl_Approval step, cl_Cache step, cl_Upload step, cl_Download step with
                       | Some _, _, _, _ | None, None, None, None => false | _, _, _, _ => true end.

(** What an action reports: it may also fail before it starts. *)
Definition action_reports (step : ClaimStep) : list (list step_status) :=
  (if scoped_io step then [[Failed]] else []) ++ protocol step.

Lemma reports_app l1 l2 : reports (l1 ++ l2) = reports l1 ++ reports l2.
Proof. apply omap_app. Qed.

Lemma reports_mute W l : Forall (mute_event W) l → reports l = [].
Proof. induction 1 as [|e l He _ IH]; [done|]. destruct e; [destruct He|exact IH..]. Qed.

Section reports.
Context (W : World) (calm : bool).
Abbreviation emits := (emits calm).

(** The reports of [step] a thread makes are one of [ls], and it reports no other step. *)
Definition says {A} (step : ClaimStep) (ls : list (list step_status)) (t : proc St event A) : Prop :=
  emits t (λ _ l, ∃ x, x ∈ ls ∧ reports l = (λ st, (step, st)) <$> x).

Lemma says_mono {A} step ls ls' (t : proc St event A) : ls ⊆ ls' → says step ls t → says step ls' t.
Proof. intros H. apply emits_mono. intros a l (x & Hx & E). exists x. auto. Qed.

Lemma says_bind_mute {A B} step ls (t : proc St event A) (f : A → proc St event B) :
  keeps (mute W) t → (∀ a, says step ls (f a)) → says step ls (t ≫= f).
Proof using W.
  intros Ht Hf. eapply emits_bind; [by apply emits_keeps| |intros a; apply (em_keeps _ _ _ (Hf a))]. cbv beta. intros a l Hl.
  eapply emits_mono; [|apply Hf]. cbv beta. intros b l2. by rewrite reports_app, (reports_mute W l).
Qed.

Lemma says_emit step st x ch cj ls : bool_decide ([st] ∈ ls) = true → says step ls (emit (EReport step st x ch cj)).
Proof. intros H%bool_decide_eq_true. apply emits_emit. by exists [st]. Qed.
Lemma says_report step st ls : bool_decide ([st] ∈ ls) = true → says step ls (report step st).
Proof. apply says_emit. Qed.

(** What may follow a report. *)
Definition tails (st : step_status) (ls : list (list step_status)) : list (list step_status) :=
  omap (λ x, match x with st' :: x => if bool_decide (st' = st) then Some x else None | [] => None end) ls.

Lemma says_after {A B} step st ls (t : proc St event A) (f : A → proc St event B) :
  says step [[st]] t → (∀ a, says step (tails st ls) (f a)) → says step ls (t ≫= f).
Proof.
  intros Ht Hf. eapply emits_bind; [exact Ht| |intros a; apply (em_keeps _ _ _ (Hf a))].
  intros a l (x & ->%list_elem_of_singleton & E). eapply emits_mono; [|apply Hf]. cbv beta. intros b l2 (y & Hy & E2).
  apply list_elem_of_omap in Hy as ([|st' y'] & Hin & Hy); [done|]. case_bool_decide; [|done]. simplify_eq.
  exists (st :: y). split; [done|]. by rewrite reports_app, E, E2.
Qed.

Lemma says_one step st x ch cj : says step [[st]] (emit (EReport step st x ch cj)).
Proof. apply says_emit. by apply bool_decide_eq_true; left. Qed.

Lemma says_mute {A} step ls (t : proc St event A) : keeps (mute W) t → bool_decide ([] ∈ ls) = true → says step ls t.
Proof.
  intros Ht H%bool_decide_eq_true. eapply emits_mono; [|by apply emits_keeps]. intros a l Hl. exists []. by rewrite (reports_mute W l Hl).
Qed.

Lemma says_markFailed ph step ls : bool_decide ([Failed] ∈ ls) = true → says step ls (markFailed ph step).
Proof using W. intros H. apply says_bind_mute; [auto with agent|]. intros []. by apply says_report. Qed.

Lemma says_recovered ph step msg ls : bool_decide ([Failed] ∈ ls) = true → says step ls (recovered ph step msg).
Proof using W. intros H. apply says_bind_mute; [auto with agent|]. intros []. by apply says_markFailed. Qed.
End reports.

(** Decompose a thread into its reports. *)
Ltac known_tails := match goal with |- says _ _ ?ls _ => let x := eval vm_compute in ls in change ls with x end.
Ltac says W :=
  repeat first
    [ progress cbv zeta
    | match goal with
      | |- says _ _ _ (report _ _) => apply says_report; reflexivity
      | |- says _ _ _ (markFailed _ _) => apply (says_markFailed W); reflexivity
      | |- says _ _ _ (recovered _ _ _) => apply (says_recovered W); reflexivity
      | |- says _ _ _ (mret _) => apply (says_mute W); [auto with agent|reflexivity]
      | |- says _ _ _ (recordFailure _ _) => apply (says_mute W); [auto with agent|reflexivity]
      | |- says _ _ _ (report _ _ ≫= _) => eapply says_after; [apply says_one|intros []; known_tails]
      | |- says _ _ _ (emit (EReport _ _ _ _ _) ≫= _) => eapply says_after; [apply says_one|intros []; known_tails]
      | |- says _ _ _ (ask _ _ ≫= _) => apply (says_bind_mute W); [apply keeps_ask; by repeat constructor|intros ?]
      | |- says _ _ _ (mbind _ _) => apply (says_bind_mute W); [solve [auto with agent]|intros ?]
      | |- says _ _ _ (match ?x with _ => _ end) => destruct x
      end ].

Section steps.
Context (W : World) (Vars : gmap string string) (ph : phase) (calm : bool).
Abbreviation emits := (emits calm).
Abbreviation says := (says calm).
#[local] Hint Extern 6 (keeps (guarded (λ _, True)) _) => apply (flagged_any W) : agent.

Lemma says_run_approval step : says step [[WaitingApproval; Succeeded]; [WaitingApproval; Failed]] (run_approval W ph step).
Proof. unfold run_approval. says W. Qed.

Lemma says_resolveScope {B} step ls1 ls2 (f : io_result → proc St event B) :
  (∀ r, r ≠ IoOk → isScopedStep step = true → says step ls1 (f r)) → says step ls2 (f IoOk) →
  says step ((if isScopedStep step then ls1 else []) ++ ls2) (resolveScope W step ≫= f).
Proof.
  intros H1 H2. unfold resolveScope. destruct (isScopedStep step) eqn:Es; [|exact H2].
  apply (says_bind_mute W); [apply keeps_ask; by repeat constructor|]. intros r.
  assert (r ≠ IoOk → says step (ls1 ++ ls2) (f r)) as Hr.
  { intros Hr. eapply says_mono; [|by apply H1]. intros x Hx. apply elem_of_app. by left. }
  destruct r; [eapply says_mono; [|exact H2]; intros x Hx; apply elem_of_app; by right|by apply Hr..].
Qed.

Lemma says_run_cache step cs :
  says step ((if isScopedStep step then [[Failed]; [Succeeded]] else []) ++ [[Running; Succeeded]; [Running; Failed]]) (run_cache W ph step cs).
Proof.
  apply says_resolveScope; [intros [] Hr _; [done|says W..]|]. unfold cache_body. says W.
Qed.

Lemma says_run_upload step ua :
  says step ((if isScopedStep step then [[Failed]] else []) ++ [[Running; Succeeded]; [Running; Failed]; [Running; Failed; Failed]]) (run_upload W ph step ua).
Proof. apply says_resolveScope; [intros [] Hr _; [done|says W..]|]. says W. Qed.

Lemma says_run_download run step da :
  says step ((if isScopedStep step then [[Failed]] else []) ++ [[Running; Succeeded]; [Running; Failed]; [Running; Failed; Failed]]) (run_download W run ph step da).
Proof. apply says_resolveScope; [intros [] Hr _; [done|says W..]|]. says W. Qed.

Lemma says_finish_step step st exit child : says step [[st]] (finish_step ph step st exit child).
Proof using W.
  unfold finish_step. cbv zeta. apply (says_bind_mute W).
  - destruct (cl_Post step), (step_status_eqb st Succeeded); auto with agent.
  - intros []. eapply says_after; [apply says_one|]. intros []. unfold tails; cbn [omap list_omap]. rewrite bool_decide_true by done.
    destruct (step_status_eqb st Failed); says W.
Qed.

(** The reports of a call: it tells of its child once there is one. *)
Lemma says_run_call step call d :
  emits (run_call W step call d) (λ r l, r.1 ∈ [Succeeded; Failed] ∧ ∃ x, x ∈ [[]; [Running]] ∧ reports l = (λ st, (step, st)) <$> x).
Proof.
  unfold run_call. destruct (call_params W call d) as [params|]; [|apply emits_mret; split; [by right; left|exists []; split; [left|done]]].
  eapply (emits_bind _ _ _ (λ _ l, reports l = [])); [by apply emits_ask| |intros []; keeps]. intros r l Hl.
  assert (∀ st (t : proc St event (step_status * string)), st ∈ [Succeeded; Failed] → ∀ child, emits t (λ r l, r = (st, child) ∧ reports l = []) →
    emits (_ ← emit (EReport step Running 0 child (cc_Job call)); t) (λ r l2, r.1 ∈ [Succeeded; Failed] ∧ ∃ x, x ∈ [[]; [Running]] ∧ reports (l ++ l2) = (λ st, (step, st)) <$> x)) as Hc.
  { intros st t Hst child Ht. eapply (emits_bind _ _ _ (λ _ l, reports l = [(step, Running)])); [by apply emits_emit| |intros []; apply Ht].
    intros [] l1 H1. eapply emits_mono; [|exact Ht]. cbv beta. intros r2 l2 [-> H2]. split; [done|]. exists [Running]. split; [by right; left|].
    by rewrite !reports_app, Hl, H1, H2. }
  destruct r as [e|child e|child outs].
  - apply emits_mret. split; [by right; left|]. exists []. split; [left|]. by rewrite app_nil_r.
  - apply (Hc Failed); [by right; left|]. by apply emits_mret.
  - apply (Hc Succeeded); [left|]. eapply emits_bind; [apply (emits_keeps _ (mute_event W)); auto with agent| |intros []; keeps].
    intros [] l2 Hl2. eapply emits_bind; [apply (emits_keeps _ (mute_event W)); auto with agent| |done].
    intros [] l3 Hl3. apply emits_mret. split; [done|]. by rewrite !reports_app, (reports_mute W l2), (reports_mute W l3).
Qed.

Lemma emits_true {A} (t : proc St event A) (Q : A → list event → Prop) : keeps (flagged W) t → (∀ a l, Q a l) → emits t Q.
Proof. intros Hk H. eapply emits_mono; [|by apply emits_keeps]. auto. Qed.

(** The status of a run step is terminal. *)
Lemma run_script_status step d :
  emits (run_script W Vars ph step d) (λ r _, match r with inr (st, _) => outcome st = true | _ => True end).
Proof.
  assert (keeps (flagged W) (run_script W Vars ph step d)) as Hk by auto with agent. split; [by eapply keeps_any|]. revert Hk.
  unfold run_script. cbv zeta. intros Hk s. apply wp_bind; [apply _|]. eapply wp_mono; [|apply wp_true]. intros [[] code out|msg] l s' _.
  - apply wp_bind; [apply _|]. eapply wp_mono; [|apply wp_true]. intros [] l2 s2 _. by intros s3 _ _.
  - intros s2 _. cbn. intros s3 _ _. by destruct (_ && _).
  - by intros s2 _ _.
Qed.

Lemma says_run_main_action step :
  cl_Approval step = None → cl_Cache step = None → cl_Upload step = None → cl_Download step = None → says step (protocol step) (run_main_action W Vars ph step).
Proof.
  intros Ha Hc Hu Hd. unfold protocol, run_main_action. rewrite Ha, Hc, Hu, Hd. assert (∀ d, keeps (flagged W) (run_script W Vars ph step d)) by auto with agent. eapply says_after; [apply says_one|]. intros [].
  apply (says_bind_mute W); [auto with agent|]. intros d0. cbv zeta. destruct (cl_Call step) as [call|]; known_tails.
  - eapply emits_bind; [apply says_run_call| |intros r; keeps; eauto using keeps_finish_step with agent]. intros r l [Hr (x & Hx & E)].
    eapply emits_mono; [|by apply (says_finish_step step r.1)]. cbv beta. intros _ l2 (y & ->%list_elem_of_singleton & E2).
    exists (x ++ [r.1]). split; [|by rewrite reports_app, fmap_app, E, E2].
    destruct r as [st ch]. change ((st, ch).1) with st in *. set_solver.
  - eapply emits_bind; [apply emits_conj; [apply run_script_status|apply (emits_keeps _ (mute_event W)), keeps_run_script]| |intros [|[]]; keeps; eauto using keeps_finish_step with agent].
    cbv beta. intros r l [Hr Hl]. destruct r as [msg|[st code]].
    + eapply emits_mono; [|by apply (says_recovered W calm ph step msg [[Succeeded]; [Failed]; [Cancelled]])]. cbv beta. intros _ l2 (y & Hy & E2).
      exists y. split; [set_solver|]. by rewrite reports_app, (reports_mute W l).
    + eapply emits_mono; [|by apply (says_finish_step step st)]. cbv beta. intros _ l2 (y & ->%list_elem_of_singleton & E2).
      exists [st]. rewrite reports_app, (reports_mute W l), E2 by done. split; [|done]. destruct st; try done; set_solver.
Qed.

Lemma says_run_action run step : says step (action_reports step) (run_action W Vars run ph step).
Proof.
  unfold run_action, action_reports, scoped_io. pose proof (says_run_main_action step) as Hm. unfold protocol in *.
  destruct (cl_Approval step) as [ap|]; [rewrite andb_false_r; apply says_run_approval|].
  destruct (cl_Cache step) as [cs|]; [eapply says_mono; [|apply says_run_cache]; destruct (isScopedStep step); set_solver|].
  destruct (cl_Upload step) as [ua|]; [rewrite andb_true_r; apply says_run_upload|].
  destruct (cl_Download step) as [da|]; [rewrite andb_true_r; apply says_run_download|].
  rewrite andb_false_r. by apply Hm.
Qed.

Lemma says_then_ret {A B} step ls (t : proc St event A) (b : B) : says step ls t → says step ls (_ ← t; mret b).
Proof.
  intros Ht. eapply emits_bind; [exact Ht| |done]. intros u l Hl. apply emits_mret. by rewrite app_nil_r.
Qed.

(** What a step reports, given its condition. *)
Definition reported (step : ClaimStep) (r : condition_result) (l : list event) : Prop :=
  match cr_error r with
  | Some _ => reports l = [(step, Failed)]
  | None =>
      if cr_value r then ∃ x, x ∈ action_reports step ∧ reports l = (λ st, (step, st)) <$> x
      else reports l = [(step, Skipped)]
  end.

Lemma status_view_frozen : emits (status_view ph) (λ v l, reports l = [] ∧ ∀ w, ph_frozen ph = Some w → v = w).
Proof using W.
  apply emits_conj; [eapply emits_mono; [|apply (emits_keeps _ (quiet_event W)); auto with agent]; intros v l Hl; apply (reports_mute W); eapply Forall_impl; [exact Hl|]; by intros []|].
  unfold status_view. destruct (ph_frozen ph); [apply emits_mret; by intros w [= ->]|]. apply emits_true; [keeps|done].
Qed.

Lemma says_stepRunner run step :
  emits (stepRunner W Vars run ph step) (λ _ l, ∃ d status, (∀ v, ph_frozen ph = Some v → status = v) ∧
    reported step (EvalCondition (w_CompileExpr W) (cl_If step) d status (ph_implicitSuccess ph)) l).
Proof.
  unfold stepRunner. eapply emits_bind; [apply (emits_keeps _ (mute_event W)); auto with agent| |intros d; keeps]. intros d l1 H1.
  eapply emits_bind; [apply status_view_frozen| |intros d'; keeps]. intros status l2 [H2 Hs]. cbv zeta.
  set (r := EvalCondition _ _ _ _ _). eapply emits_mono with (Q := λ _ l, reported step r l).
  { intros _ l H. exists d, status. split; [done|]. fold r. unfold reported in *. by rewrite !reports_app, (reports_mute W l1), H2 by done. }
  unfold reported. destruct (cr_error r) as [e|]; [|destruct (cr_value r)].
  - eapply emits_mono; [|apply (says_then_ret step [[Failed]]); says W]. by intros _ l (x & ->%list_elem_of_singleton & E).
  - apply (says_then_ret step (action_reports step)). apply (says_bind_mute W); [auto with agent|]. intros []. apply says_run_action.
  - eapply emits_mono; [|apply (says_then_ret step [[Skipped]]); says W]. by intros _ l (x & ->%list_elem_of_singleton & E).
Qed.
End steps.



(** ** Attempts *)

Definition tries (l : list event) : list nat :=
  omap (λ e, match e with EExec _ try _ _ => Some try | _ => None end) l.

Definition budget (step : ClaimStep) : nat :=
  Z.to_nat (match cl_Retry step with Some r => re_Attempts r | None => 1 end).

Definition plain (step : ClaimStep) : Prop :=
  cl_Approval step = None ∧ cl_Cache step = None ∧ cl_Upload step = None ∧ cl_Download step = None ∧
  cl_Call step = None.

(** A scope could not be provisioned. *)
Definition unscoped (W : World) (step : ClaimStep) : Prop :=
  isScopedStep step = true ∧ ∃ t, w_EnsureScope W t step ≠ IoOk.

(** Nothing cuts the retries short: no scope that fails, no cancellation that masks the
    failure (in the main phase, none at all: [calm]), no backoff interrupted. *)
Definition unhurried (W : World) (ph : phase) (step : ClaimStep) (calm : bool) : Prop :=
  ¬ unscoped W step ∧ (ph_suppressOnCancel ph = false ∨ calm = true) ∧ ∀ t b, w_sleep W t b = false.

(** Whatever is executed exits 0. *)
Definition sure (W : World) (step : ClaimStep) : Prop := ∀ t script env, ∃ out, w_exec W t step script env = Exited 0 out.

(** Some attempt ran and exited 0. *)
Definition exited_zero (W : World) (step : ClaimStep) (l : list event) : Prop :=
  ∃ try script env t out, EExec step try script env ∈ l ∧ w_exec W t step script env = Exited 0 out.

Lemma tries_app l1 l2 : tries (l1 ++ l2) = tries l1 ++ tries l2.
Proof. apply omap_app. Qed.

Lemma tries_quiet W l : Forall (quiet_event W) l → tries l = [].
Proof. induction 1 as [|e l He _ IH]; [done|]. destruct e; try exact IH; destruct He. Qed.

Lemma exited_zero_app W step l1 l2 : exited_zero W step l1 ∨ exited_zero W step l2 → exited_zero W step (l1 ++ l2).
Proof.
  intros [(try & sc & ev & t & out & H & Ht)|(try & sc & ev & t & out & H & Ht)]; exists try, sc, ev, t, out;
    (split; [apply elem_of_app; auto|done]).
Qed.

Section attempts.
Context (W : World) (Vars : gmap string string) (ph : phase) (step : ClaimStep) (calm : bool).
Abbreviation emits := (emits calm).
Abbreviation unhurried := (unhurried W ph step calm).
Abbreviation unscoped := (unscoped W step).
Abbreviation sure := (sure W step).
#[local] Hint Extern 6 (keeps (guarded (λ _, True)) _) => apply (flagged_any W) : agent.

Definition panics (msg : string) : Prop :=
  (∃ t script env, w_exec W t step script env = ExecPanic msg) ∨ isScopedStep step = true ∧ ∃ t, w_EnsureScope W t step = IoPanic msg.

Lemma emits_attempt try script env :
  emits (attempt W step try script env) (λ r l,
    (l = [] ∧ unscoped ∧ ((∃ e, r = ExecError e (-1) "") ∨ ∃ msg, r = ExecPanic msg ∧ panics msg)) ∨
    (l = [EExec step try script env] ∧ ∃ t, w_exec W t step script env = r)).
Proof.
  assert (emits (ask [EExec step try script env] (λ s, w_exec W (st_time s) step script env)) (λ r l,
    (l = [] ∧ unscoped ∧ ((∃ e, r = ExecError e (-1) "") ∨ ∃ msg, r = ExecPanic msg ∧ panics msg)) ∨
    (l = [EExec step try script env] ∧ ∃ t, w_exec W t step script env = r))) as He by (apply emits_ask; intros s; right; by eauto).
  unfold attempt. cbv zeta. destruct (isScopedStep step) eqn:E; [|exact He].
  eapply (emits_bind _ _ _ (λ r l, l = [] ∧ ∃ t, w_EnsureScope W t step = r)); [apply emits_ask; by eauto| |intros []; keeps].
  intros [|e|msg] l [-> [t Ht]]; [exact He|apply emits_mret; left..].
  - split; [done|]. split; [split; [done|by exists t; rewrite Ht]|by eauto].
  - split; [done|]. split; [split; [done|by exists t; rewrite Ht]|]. right. exists msg. split; [done|]. right. by eauto.
Qed.

(** What the loop gives from attempt [try] on. *)
Definition attempted (more try : nat) (r : loop_result) (l : list event) : Prop :=
  StronglySorted lt (tries l) ∧ Forall (λ t, try ≤ t ≤ try + more) (tries l) ∧
  (sure → tries l = [try] ∨ unscoped) ∧
  match r with
  | LoopDone true _ _ => exited_zero W step l
  | LoopDone false _ _ => unhurried → tries l = seq try (S more)
  | LoopPanic msg => panics msg
  end.

Lemma emits_quiet {A} (t : proc St event A) : keeps (quiet W) t → emits t (λ _ l, tries l = []).
Proof. intros Ht. eapply emits_mono; [|by apply emits_keeps]. intros a l Hl. eapply tries_quiet, Hl. Qed.

Lemma emits_cancelMasksFailure :
  emits (cancelMasksFailure ph) (λ m l, tries l = [] ∧ (ph_suppressOnCancel ph = false ∨ calm = true → m = false)).
Proof using W.
  split; [auto with agent|]. intros s s1 _ s2 G Hc. split; [done|]. intros [->|H]; [done|]. specialize (Hc H).
  apply andb_false_iff. right. apply not_true_is_false. intros H1. by rewrite (g_cancelled _ _ G H1) in Hc.
Qed.

(** The events of one attempt. *)
Definition one_try (try : nat) (l : list event) : Prop :=
  (tries l = [try] ∨ (tries l = [] ∧ unscoped)).

Lemma one_try_app try l1 l2 : one_try try l1 → tries l2 = [] → one_try try (l1 ++ l2).
Proof. unfold one_try. rewrite tries_app. intros H ->. by rewrite app_nil_r. Qed.

(** An attempt followed by the rest of the loop, and one that ends it. *)
Lemma attempted_after more try r l1 l2 :
  one_try try l1 → (sure → unscoped) → attempted more (S try) r l2 → attempted (S more) try r (l1 ++ l2).
Proof.
  intros H1 Hs (S2 & F2 & _ & R2). unfold attempted. rewrite tries_app.
  assert (Forall (λ t, try ≤ t ≤ try + S more) (tries l2)) as HF.
  { eapply Forall_impl; [exact F2|]. cbv beta. lia. }
  assert (Forall (lt try) (tries l2)) as HL.
  { eapply Forall_impl; [exact F2|]. cbv beta. lia. }
  split_and!.
  - destruct H1 as [->|[-> _]]; [by constructor|done].
  - destruct H1 as [->|[-> _]]; [constructor; [lia|done]|done].
  - intros H. right. by apply Hs.
  - destruct r as [[] code out|msg]; [apply exited_zero_app; by right| |done].
    intros Hu. rewrite R2 by done. destruct H1 as [->|[_ Hx]]; [done|]. by destruct Hu.
Qed.

Lemma attempted_end more try r l :
  one_try try l →
  match r with
  | LoopDone true _ _ => exited_zero W step l
  | LoopDone false _ _ => unhurried → more = 0
  | LoopPanic msg => panics msg
  end → attempted more try r l.
Proof.
  intros H1 Hr. unfold attempted. split_and!.
  - destruct H1 as [->|[-> _]]; repeat constructor.
  - destruct H1 as [->|[-> _]]; [constructor; [lia|done]|done].
  - intros _. destruct H1 as [->|[_ ?]]; auto.
  - destruct r as [[] code out|msg]; [done| |done]. intros Hu. rewrite (Hr Hu).
    destruct H1 as [->|[_ Hs]]; [done|]. by destruct Hu.
Qed.

(** After an attempt that did not panic: it succeeded, or a cancellation masks its
    failure, or [again]. *)
Lemma emits_checked more try err code out (again : thread loop_result) l1 :
  one_try try l1 → (err = None → code = 0%Z → exited_zero W step l1) →
  keeps (guarded (λ _, True)) again →
  (¬ (err = None ∧ code = 0%Z) → ∀ l1, one_try try l1 → emits again (λ r l2, attempted more try r (l1 ++ l2))) →
  emits (_ ← log_exec_error W ph step err;
         if bool_decide (err = None) && (code =? 0)%Z then mret (LoopDone true code out)
         else masked ← cancelMasksFailure ph;
              if masked : bool then mret (LoopDone false code out) else again)
    (λ r l2, attempted more try r (l1 ++ l2)).
Proof.
  intros H1 Hz Hk Hag. eapply emits_bind; [apply emits_quiet, keeps_log_exec_error| |intros []; keeps]. cbv beta. intros [] l2 H2.
  destruct (bool_decide (err = None) && (code =? 0)%Z) eqn:E.
  { apply andb_true_iff in E as [->%bool_decide_eq_true ->%Z.eqb_eq]. apply emits_mret. rewrite app_nil_r.
    apply attempted_end; [by apply one_try_app|]. apply exited_zero_app. left. by apply Hz. }
  eapply emits_bind; [apply emits_cancelMasksFailure| |intros []; keeps]. intros m l3 [H3 Hm].
  assert (H13 : one_try try (l1 ++ l2 ++ l3)) by (apply one_try_app; [done|by rewrite tries_app, H2, H3]).
  destruct m.
  - apply emits_mret. rewrite app_nil_r. apply attempted_end; [done|].
    intros (_ & Hs & _). by specialize (Hm Hs).
  - eapply emits_mono; [|apply Hag; [|exact H13]]; [cbv beta; intros r l; by rewrite <-!app_assoc|].
    intros [-> ->]. by rewrite bool_decide_true in E by done.
Qed.

Lemma emits_attempts_loop script env n b more : ∀ try,
  emits (attempts_loop W ph step script env n b more try) (attempted more try).
Proof.
  assert (∀ more try, keeps (mute W) (attempts_loop W ph step script env n b more try)) as Hk by auto with agent.
  induction more as [|more IH]; intros try; cbn [attempts_loop];
    (eapply emits_bind; [apply emits_attempt| |intros []; keeps]); intros r l1 Hr;
    (assert (one_try try l1) as H1 by (by destruct Hr as [(-> & ? & _)|[-> _]]; [right|left]));
    (assert (∀ out, r = Exited 0 out → exited_zero W step l1) as Hz by
      (intros out ->; destruct Hr as [(_ & _ & [[e ?]|(msg & ? & _)])|[-> [t Ht]]]; [done..|];
       exists try, script, env, t, out; by split; [left|]));
    (assert (sure → unscoped ∨ ∃ out, r = Exited 0 out) as Hs by
      (intros H; destruct Hr as [(_ & ? & _)|[_ [t <-]]]; [by left|right; apply H]));
    (destruct r as [code out|e code out|msg];
      [ apply emits_checked; [done|intros _ ->; by eapply Hz|keeps|]
      | apply emits_checked; [done|done|keeps|]
      | apply emits_mret; rewrite app_nil_r; apply attempted_end; [done|];
        destruct Hr as [(_ & _ & [[e ?]|(m & [= ->] & ?)])|[_ [t Ht]]]; [done|done|left; by exists t, script, env] ]).
  1, 2: intros _ l Hl; apply emits_mret; rewrite app_nil_r; by apply attempted_end.
  all: intros Hne l Hl; (eapply emits_bind; [apply emits_quiet; auto with agent| |intros []; keeps]); cbv beta; intros [] l2 H2;
    (eapply (emits_bind _ _ _ (λ cut l, tries l = [] ∧ ((∀ t b, w_sleep W t b = false) → cut = false)));
      [apply emits_ask; by intros s| |intros []; keeps]); intros [] l3 [H3 Hcut].
  all: (assert (one_try try (l ++ l2 ++ l3)) as H13 by (apply one_try_app; [done|by rewrite tries_app, H2, H3])).
  1, 3: apply emits_mret; rewrite app_nil_r; apply attempted_end; [done|]; intros (_ & _ & Hsl); by specialize (Hcut Hsl).
  all: eapply emits_mono; [|apply IH]; cbv beta; intros r l4 H4; rewrite !app_assoc in *; apply attempted_after; [done| |done].
  all: intros H; destruct (Hs H) as [?|[out' E']]; [done|]; exfalso; first [discriminate E'|injection E' as -> ->; by apply Hne].
Qed.

Lemma emits_run_attempts script env :
  emits (run_attempts W ph step script env) (λ r l,
    budget step = 0 ∧ l = [] ∧ r = LoopDone true 0 "" ∨ budget step ≠ 0 ∧ attempted (budget step - 1) 1 r l).
Proof.
  unfold run_attempts, budget. cbv zeta.
  assert (∀ n more, emits (attempts_loop W ph step script env n (match cl_Retry step with Some r => re_Backoff r | None => "" end) more 1)
    (λ r l, S more = 0 ∧ l = [] ∧ r = LoopDone true 0 "" ∨ S more ≠ 0 ∧ attempted (S more - 1) 1 r l)) as Hl.
  { intros n more. eapply emits_mono; [|apply emits_attempts_loop]. intros x l H. right. split; [done|]. by replace (S more - 1) with more by lia. }
  destruct (Z.to_nat (match cl_Retry step with Some r => re_Attempts r | None => 1 end)) as [|more]; [apply emits_mret; by left|apply Hl].
Qed.

(** What a step's events say of its attempts. *)
Definition within_budget (l : list event) : Prop :=
  StronglySorted lt (tries l) ∧ Forall (λ t, 1 ≤ t ≤ budget step) (tries l).

(** What a run step that started gives. *)
Definition script_result (st : string + step_status) (l : list event) : Prop :=
  within_budget l ∧ (budget step ≠ 0 → sure → tries l = [1] ∨ unscoped) ∧
  match st with
  | inr Succeeded => budget step ≠ 0 → exited_zero W step l
  | inr Failed => unhurried → tries l = seq 1 (budget step)
  | inr _ => True
  | inl msg => panics msg
  end.

Lemma script_result_quiet st l1 l2 : tries l2 = [] → script_result st l1 → script_result st (l1 ++ l2).
Proof.
  intros E ([H1 H2] & H3 & H4). unfold script_result, within_budget. rewrite tries_app, E, app_nil_r. split_and!; [done..|].
  destruct st as [msg|[]]; try done. intros Hn. apply exited_zero_app. left. by apply H4.
Qed.

Lemma emits_run_script d :
  emits (run_script W Vars ph step d) (λ r l, reports l = [] ∧
    script_result (match r with inr (st, _) => inr st | inl msg => inl msg end) l).
Proof.
  apply emits_conj; [eapply emits_mono; [|apply (emits_keeps _ _ _ (keeps_run_script W Vars ph step d))]; intros r l Hm; eapply reports_mute, Hm|].
  unfold run_script. cbv zeta. eapply emits_bind; [apply emits_run_attempts| |intros [[]|]; keeps]. intros r l Hr.
  assert (within_budget l ∧ (budget step ≠ 0 → sure → tries l = [1] ∨ unscoped)) as [Hb Hsure].
  { destruct Hr as [(? & -> & _)|[Hne (S1 & F1 & Hs & _)]]; [split; [by repeat constructor|done]|]. split; [split; [done|]|done].
    eapply Forall_impl; [exact F1|]. cbv beta. lia. }
  destruct r as [[] code out|msg].
  - eapply emits_bind; [apply emits_quiet; auto with agent| |done]. cbv beta. intros [] l2 H2. apply emits_mret. rewrite app_nil_r.
    apply script_result_quiet; [done|]. split_and!; [apply Hb..|done|]. intros Hne. destruct Hr as [(? & _)|[_ (_ & _ & _ & H)]]; done.
  - eapply emits_bind; [apply emits_cancelMasksFailure| |done]. intros m l2 [H2 Hm]. apply emits_mret. rewrite app_nil_r.
    apply script_result_quiet; [done|]. split_and!; [apply Hb..|done|]. destruct m; [done|]. intros Hu.
    destruct Hr as [(_ & _ & ?)|[Hne (_ & _ & _ & H)]]; [done|]. rewrite H by done. f_equal. lia.
  - apply emits_mret. rewrite app_nil_r. split_and!; [apply Hb..|done|]. by destruct Hr as [(_ & _ & ?)|[_ (_ & _ & _ & H)]].
Qed.

(** Nothing of it: no attempt, no report. *)
Definition idle_events (l : list event) : Prop := tries l = [] ∧ reports l = [].

Lemma emits_still {A} (t : proc St event A) : keeps (quiet W) t → emits t (λ _ l, idle_events l).
Proof.
  intros Ht. eapply emits_mono; [|by apply emits_keeps]. intros a l Hl.
  split; [eapply tries_quiet, Hl|eapply (reports_mute W)]. eapply Forall_impl; [exact Hl|]. by intros [].
Qed.

(** The rest of a step makes no attempt. *)
Definition attempt_free (e : event) : Prop := match e with EExec _ _ _ _ => False | _ => thread_event W e end.
Lemma tries_free l : Forall attempt_free l → tries l = [].
Proof using. induction 1 as [|e l He _ IH]; [done|]. destruct e; try exact IH; destruct He. Qed.
Lemma quiet_free {A} (t : proc St event A) : keeps (quiet W) t → keeps (guarded attempt_free) t.
Proof using. apply keeps_guarded. by intros []. Qed.
#[local] Hint Resolve quiet_free : agent.
#[local] Hint Extern 0 (attempt_free _) => exact I : agent.

Lemma free_markFailed : keeps (guarded attempt_free) (markFailed ph step).
Proof using. unfold markFailed, recordFailure, report. keeps. Qed.
Lemma free_recovered msg : keeps (guarded attempt_free) (recovered ph step msg).
Proof using. unfold recovered. keeps. apply free_markFailed. Qed.
Lemma free_finish_step st code child : keeps (guarded attempt_free) (finish_step ph step st code child).
Proof using. unfold finish_step, recordFailure. keeps. Qed.

(** What the events of a run step say of its attempts. *)
Definition attempts_ok (l : list event) : Prop :=
  within_budget l ∧
  (tries l ≠ [] → (step, Running) ∈ reports l) ∧
  ((step, Running) ∈ reports l →
     (budget step ≠ 0 → sure → tries l = [1] ∨ unscoped) ∧
     (budget step ≠ 0 → (step, Succeeded) ∈ reports l → exited_zero W step l) ∧
     (unhurried → (∀ msg, ¬ panics msg) → (step, Failed) ∈ reports l → tries l = seq 1 (budget step))).

Lemma emits_run_main_action :
  cl_Call step = None → emits (run_main_action W Vars ph step) (λ _ l, attempts_ok l).
Proof.
  intros Hcall. unfold run_main_action.
  eapply (emits_bind _ _ _ (λ _ l, tries l = [] ∧ reports l = [(step, Running)])); [by apply emits_emit| |
    intros []; keeps; eauto using keeps_finish_step with agent].
  intros [] l1 [T1 R1]. eapply emits_bind; [apply emits_still; auto with agent| |intros d0; keeps; eauto using keeps_finish_step with agent].
  intros d0 l2 [T2 R2]. cbv zeta. rewrite Hcall.
  eapply emits_bind; [apply emits_run_script| |intros [|[]]; [eauto with agent|eauto using keeps_finish_step with agent]].
  intros r l3 (R3 & Hb & Hsure & Hr).
  assert (∀ st l4, tries l4 = [] → reports l4 = [(step, st)] →
    tries (l1 ++ l2 ++ l3 ++ l4) = tries l3 ∧ reports (l1 ++ l2 ++ l3 ++ l4) = [(step, Running); (step, st)]) as Hall.
  { intros st l4 T4 R4. rewrite !tries_app, !reports_app, T1, T2, R1, R2, R3, T4, R4. by rewrite app_nil_r. }
  assert (∀ l4, exited_zero W step l3 → exited_zero W step (l1 ++ l2 ++ l3 ++ l4)) as Hz.
  { intros l4 H. apply exited_zero_app. right. apply exited_zero_app. right. apply exited_zero_app. by left. }
  destruct r as [msg|[st code]].
  - eapply emits_mono; [|apply emits_conj; [apply (emits_keeps _ _ _ (free_recovered msg))|by apply (says_recovered W calm ph step msg [[Failed]])]].
    intros _ l4 [T4%tries_free (x & ->%list_elem_of_singleton & R4)]. destruct (Hall Failed l4 T4 R4) as [T R]. unfold attempts_ok, within_budget. rewrite T, R.
    split; [done|]. split; [intros _; left|]. intros _. split; [done|]. split; [|intros _ Hn; by destruct (Hn msg)].
    intros _ H. apply elem_of_cons in H as [[=]|[=]%list_elem_of_singleton].
  - eapply emits_mono; [|apply emits_conj; [apply (emits_keeps _ _ _ (free_finish_step st code ""))|apply (says_finish_step W ph calm step st)]].
    intros _ l4 [T4%tries_free (x & ->%list_elem_of_singleton & R4)]. destruct (Hall st l4 T4 R4) as [T R]. unfold attempts_ok, within_budget. rewrite T, R.
    split; [done|]. split; [intros _; left|]. intros _. split; [done|]. split.
    + intros Hne H. apply elem_of_cons in H as [[=]|[= <-]%list_elem_of_singleton]. by apply Hz, Hr.
    + intros Hu _ H. apply elem_of_cons in H as [[=]|[= <-]%list_elem_of_singleton]. by apply Hr.
Qed.

Lemma attempts_ok_none l : tries l = [] → (step, Running) ∉ reports l → attempts_ok l.
Proof using. intros Ht Hr. split; [|by split]. unfold within_budget. rewrite Ht. by repeat constructor. Qed.

Lemma attempts_ok_after l1 l2 : idle_events l1 → attempts_ok l2 → attempts_ok (l1 ++ l2).
Proof.
  intros [T R] (Hb & Ha & Hs). unfold attempts_ok, within_budget. rewrite tries_app, reports_app, T, R.
  split; [done|]. split; [done|]. intros Hr. destruct (Hs Hr) as (H1 & H2 & H3). split; [done|]. split; [|done].
  intros Hne H. apply exited_zero_app. right. by apply H2.
Qed.

(** Put something idle before a thread. *)
Lemma attempts_ok_bind {A B} (t : proc St event A) (f : A → proc St event B) :
  keeps (quiet W) t → (∀ a, emits (f a) (λ _ l, attempts_ok l)) → emits (t ≫= f) (λ _ l, attempts_ok l).
Proof.
  intros Ht Hf. eapply emits_bind; [by apply emits_still| |intros a; apply (em_keeps _ _ _ (Hf a))]. cbv beta. intros a l Hl.
  eapply emits_mono; [|apply Hf]. intros b l2. by apply attempts_ok_after.
Qed.

Lemma emits_report_none st : st ≠ Running → emits (report step st) (λ _ l, attempts_ok l).
Proof. intros H. apply emits_emit, attempts_ok_none; [done|]. by intros [= <-]%list_elem_of_singleton. Qed.
Lemma emits_markFailed : emits (markFailed ph step) (λ _ l, attempts_ok l).
Proof.
  eapply emits_mono; [|apply emits_conj; [apply (emits_keeps _ _ _ free_markFailed)|by apply (says_markFailed W calm ph step [[Failed]])]].
  intros _ l [T%tries_free (x & ->%list_elem_of_singleton & R)]. apply attempts_ok_none; [done|]. rewrite R. by intros [=]%list_elem_of_singleton.
Qed.

Lemma emits_stepRunner run :
  plain step → emits (stepRunner W Vars run ph step) (λ _ l, attempts_ok l).
Proof.
  intros (Ha & Hc & Hu & Hd & Hcall). unfold stepRunner, run_action. rewrite Ha, Hc, Hu, Hd.
  apply attempts_ok_bind; [auto with agent|intros d]. apply attempts_ok_bind; [auto with agent|intros status].
  cbv zeta. assert (Hret : ∀ t : proc St event unit, emits t (λ _ l, attempts_ok l) →
    emits (_ ← t; mret (None : option text)) (λ _ l, attempts_ok l)).
  { intros t Ht. eapply emits_bind; [exact Ht| |done]. intros u l Hl. apply emits_mret. by rewrite app_nil_r. }
  apply Hret. destruct (cr_error _).
  - apply attempts_ok_bind; [auto with agent|intros _]. apply attempts_ok_bind; [auto with agent|intros _].
    apply emits_markFailed.
  - apply attempts_ok_bind; [auto with agent|intros _]. destruct (cr_value _); [by apply emits_run_main_action|].
    by apply emits_report_none.
Qed.
End attempts.

(** C6: the retry budget.  The attempts of a run step are started in order, each
    once, after the step reported Running and never beyond the attempts its retry
    allows (one without a retry).  Once it reported Running, it reports Succeeded only
    if one of the attempts exited 0; a step whose attempts succeed makes one attempt;
    and it reports Failed only when every attempt has been used, in the main phase as
    in the finally phase, unless something cuts the retries short: a cancellation of
    the run (in the main phase), an interrupted backoff, a scope that cannot be
    provisioned, or a panic. *)
Theorem retry_budget (W : World) (Vars : gmap string string) (run : string) (ph : phase)
    (step : ClaimStep) (s s' : St) (r : option text) (es : list event)
    (Hplain : plain step)
    (H : mrun (R := option text) env s (lift (stepRunner W Vars run ph step)) s' r es) :
  StronglySorted lt (tries es) ∧ Forall (λ t, 1 ≤ t ≤ budget step) (tries es) ∧
  (tries es ≠ [] → (step, Running) ∈ reports es) ∧
  ((step, Running) ∈ reports es →
     (budget step ≠ 0 → sure W step → tries es = [1] ∨ unscoped W step) ∧
     (budget step ≠ 0 → (step, Succeeded) ∈ reports es → exited_zero W step es) ∧
     (unhurried W ph step (negb (st_cancelled s')) → (∀ msg, ¬ panics W step msg) → (step, Failed) ∈ reports es →
        tries es = seq 1 (budget step))).
Proof.
  pose proof (emits_run _ (λ calm _ l, attempts_ok W ph step calm l) s s' r es (λ calm, emits_stepRunner W Vars ph step calm run Hplain) H) as ([H1 H2] & H3 & H4). auto.
Qed.

Lemma retry_budget_witness :
  let step := sample_step "notify" "false" false in
  let es := (run_main (lift (R := option text) (stepRunner sample_world ∅ "run-1" main_phase step))
               (init_state sample_claim)).2 in
  (step, Failed) ∈ reports es ∧ tries es = seq 1 2.
Proof.
  set (step := sample_step _ _ _). cbv zeta.
  pose (m := lift (R := option text) (stepRunner sample_world ∅ "run-1" main_phase step)).
  destruct (retry_budget sample_world ∅ "run-1" main_phase step (init_state sample_claim) _ _ _
              ltac:(by repeat split) (run_main_mrun env m (init_state sample_claim))) as (_ & _ & _ & H).
  assert (Hf : (step, Failed) ∈ reports (run_main m (init_state sample_claim)).2) by (vm_compute; right; left).
  assert (Hr : (step, Running) ∈ reports (run_main m (init_state sample_claim)).2) by (vm_compute; left).
  split; [exact Hf|]. apply (proj2 (proj2 (H Hr))); [|by intros msg [(t & sc & ev & Hx)|[Hx _]]|exact Hf].
  split; [by intros [? _]|]. split; [right; vm_compute; reflexivity|done].
Defined.
