(* ===== verification/AgentOutcome.v ===== *)
(** * internal/agent: the outcome of a run

    No failure is lost: whatever the interleaving and the environment, a step that
    reports Failed without [continueOnError] either raises the flag of its phase
    or was cut down by a cancellation, and the status the run ends with says so.
    The argument is per thread (each thread accounts for the failures it reports)
    and is lifted to the stages, the pipelines and the claim. *)

From S2P Require Import Prelude GoStrings DslTypes DslMatrix DslCondition AgentSteps Threads AgentRun AgentFacts AgentProtocol.
From stdpp Require Import options.

(** ** Accounting for failures *)

(** The run knows of a failure of [step]: it need not, a flag tells it, or the run
    is cancelled and the phase lets a cancellation mask failures. *)
Definition known (ph : phase) (step : ClaimStep) (s : St) : Prop :=
  cl_ContinueOnError step = true ∨ flag_set (ph_flag ph) s = true ∨
  ph_suppressOnCancel ph && st_cancelled s = true.

Definition excused (ph : phase) (s : St) (e : event) : Prop :=
  match e with EReport step Failed _ _ _ => known ph step s | _ => True end.

(** A report of a failure the run may not forget. *)
Definition unexcused (e : event) : Prop :=
  match e with EReport step Failed _ _ _ => cl_ContinueOnError step = false | _ => False end.

(** No failure is lost, and no flag is raised without one or without another
    reason [why]; a flag raised stays so. *)
Definition accounted (why : Prop) (ph : phase) (s : St) (l : list event) : Prop :=
  Forall (excused ph s) l ∧
  ∀ f, EFlag f ∈ l → f = ph_flag ph ∧ flag_set f s = true ∧ (Exists unexcused l ∨ why).

Lemma known_grows ph step s s' : grows s s' → known ph step s → known ph step s'.
Proof.
  intros [_ Hc _ Hf] [?|[?|H]]; [by left|by right; left; apply Hf|right; right].
  destruct (ph_suppressOnCancel ph); [by apply Hc|done].
Qed.

Lemma excused_other ph s e : ¬ (∃ step x ch cj, e = EReport step Failed x ch cj) → excused ph s e.
Proof. intros He. destruct e as [? [] ? ? ?| | | | | | | | | | | | |]; try done. destruct He. by repeat eexists. Qed.

Lemma accounted_grows why ph s s' l : grows s s' → accounted why ph s l → accounted why ph s' l.
Proof.
  intros HR [Hl Hf]. split; [|intros f (? & ? & ?)%Hf; split_and!; [done|by apply HR|done]]. eapply Forall_impl; [exact Hl|].
  intros [? [] ? ? ?| | | | | | | | | | | | |]; try done. by apply known_grows.
Qed.

Lemma accounted_cover why ph s l :
  (∀ e, e ∈ l → ∃ o, accounted why ph s o ∧ e ∈ o ∧ o ⊆ l) → accounted why ph s l.
Proof.
  intros H. split.
  - apply Forall_forall. intros e He. destruct (H e He) as (o & [Ho _] & Heo & _). by eapply Forall_forall in Ho.
  - intros f Hf. destruct (H _ Hf) as (o & [_ Ho] & Hfo & Hsub). destruct (Ho f Hfo) as (-> & Hs & He).
    split; [done|]. split; [done|]. destruct He as [He|?]; [left|by right].
    apply Exists_exists in He as (e & He & Hu). apply Exists_exists. exists e. auto.
Qed.

Lemma accounted_app why ph s l1 l2 : accounted why ph s l1 → accounted why ph s l2 → accounted why ph s (l1 ++ l2).
Proof. apply (acc_app (accounted why ph)), accounted_cover. Qed.

Lemma accounted_quiet W why ph s l : Forall (quiet_event W) l → accounted why ph s l.
Proof.
  intros Hl. split.
  - eapply Forall_impl; [exact Hl|]. by intros [].
  - intros f Hf. by eapply Forall_forall in Hl; [|exact Hf].
Qed.

(** The events of a step that fails. *)
Lemma accounted_failure why ph s step l :
  known ph step s →
  Forall (λ e, (e = EFlag (ph_flag ph) ∧ cl_ContinueOnError step = false ∧ flag_set (ph_flag ph) s = true) ∨
               ∃ x ch cj, e = EReport step Failed x ch cj) l →
  Exists (λ e, ∃ x ch cj, e = EReport step Failed x ch cj) l → accounted why ph s l.
Proof.
  intros Hk Hl He. split.
  - eapply Forall_impl; [exact Hl|]. by intros e [(-> & _)|(x & ch & cj & ->)].
  - intros f Hf. pose proof (proj1 (Forall_forall _ _) Hl _ Hf) as [(Hg & Hc & Hs)|(? & ? & ? & ?)]; [|done]. injection Hg as ->.
    split; [done|]. split; [done|]. left. eapply Exists_impl; [exact He|]. by intros e (x & ch & cj & ->).
Qed.

Section threads.
Context (W : World) (Vars : gmap string string) (why : Prop) (ph : phase).

Lemma keeps_grows {A} P (t : proc St event A) : keeps (guarded P) t → keeps (λ s _ s', grows s s') t.
Proof. apply keeps_weaken. by intros s l s' []. Qed.

(** A thread that accounts for its failures. *)
Record good {A} (t : proc St event A) : Prop := {
  good_keeps : keeps (flagged W) t;
  good_wp : ∀ s, wp grows t (λ _ l s', accounted why ph s' l) s
}.

Lemma good_bind {A B} (t : proc St event A) (f : A → proc St event B) :
  good t → (∀ a, good (f a)) → good (t ≫= f).
Proof.
  intros [Hk Ht] Hf. split; [apply keeps_bind; [done|apply Hf]|].
  intros s. apply (wp_seq grows (λ l s, accounted why ph s l));
    [| |intros a; eapply keeps_grows, Hf|apply Ht|intros a s'; apply Hf].
  - intros. by eapply accounted_grows.
  - intros. by apply accounted_app.
Qed.

Lemma good_quiet {A} (t : proc St event A) : keeps (quiet W) t → good t.
Proof.
  intros Ht. split; [by apply quiet_flagged|]. intros s. eapply wp_mono; [|apply (wp_events _ (quiet_event W))].
  - intros a l s' Hl. eapply accounted_quiet, Hl.
  - eapply keeps_weaken; [|exact Ht]. by intros ? ? ? [].
Qed.

Lemma accounted_one s e : excused ph s e → (∀ f, e ≠ EFlag f) → accounted why ph s [e].
Proof.
  intros He Hf. split; [by constructor|]. intros f Hin%list_elem_of_singleton. by destruct (Hf f).
Qed.

Lemma good_emit e : thread_event W e → (∀ s, excused ph s e) → (∀ f, e ≠ EFlag f) → good (emit e).
Proof.
  intros He Hx Hf. split; [by apply keeps_emit|]. intros s. cbn. intros s1 _ s2 _. by apply accounted_one.
Qed.

Lemma good_ask {A} es (f : St → A) : Forall (thread_event W) es → (∀ s, accounted why ph s es) → good (ask es f).
Proof.
  intros He Hx. split; [by apply keeps_ask|]. intros s. cbn. intros s1 _ s2 _. rewrite app_nil_r. apply Hx.
Qed.

(** Noting a failure: the flag is raised unless the run need not know. *)
Lemma wp_recordFailure step s :
  wp grows (recordFailure ph step)
    (λ _ l s', known ph step s' ∧
       Forall (λ e, e = EFlag (ph_flag ph) ∧ cl_ContinueOnError step = false ∧ flag_set (ph_flag ph) s' = true) l) s.
Proof.
  unfold recordFailure. destruct (cl_ContinueOnError step) eqn:E; [by repeat split; [left|]|].
  cbn. intros s1 _. destruct (ph_suppressOnCancel ph && st_cancelled s1) eqn:E1; cbn.
  - intros s2 HR. split; [|done]. eapply known_grows; [exact HR|]. by right; right.
  - intros s2 _ s3 HR. assert (flag_set (ph_flag ph) s3 = true) as Hs by (apply HR, set_flag_set).
    split; [by right; left|by repeat constructor].
Qed.

Lemma flags_grow step s s' l : grows s s' →
  Forall (λ e, e = EFlag (ph_flag ph) ∧ cl_ContinueOnError step = false ∧ flag_set (ph_flag ph) s = true) l →
  Forall (λ e, (e = EFlag (ph_flag ph) ∧ cl_ContinueOnError step = false ∧ flag_set (ph_flag ph) s' = true) ∨
               ∃ x ch cj, e = EReport step Failed x ch cj) l.
Proof. intros HR Hl. eapply Forall_impl; [exact Hl|]. intros e (-> & ? & ?). left. split_and!; [done..|by apply HR]. Qed.

(** The three ways a failure is reported and noted. *)
Lemma good_fail_then_record step x ch cj :
  good (_ ← emit (EReport step Failed x ch cj); recordFailure ph step).
Proof.
  split; [keeps|]. intros s. apply wp_emit; [apply _|]. eapply wp_mono; [|apply wp_recordFailure].
  intros [] l s' [Hk Hl]. apply (accounted_failure _ _ _ step); [done| |].
  - constructor; [right; by eauto|]. by eapply flags_grow.
  - left. by eauto.
Qed.

Lemma good_markFailed step : good (markFailed ph step).
Proof.
  split; [auto with agent|]. intros s. apply wp_bind; [apply _|]. eapply wp_mono; [|apply wp_recordFailure].
  intros [] l s' [Hk Hl] s1 H1 s2 H2. apply (accounted_failure _ _ _ step).
  - eapply known_grows; [|exact Hk]. by etrans.
  - apply Forall_app. split; [eapply flags_grow; [|exact Hl]; by etrans|]. constructor; [right; by eauto|done].
  - apply Exists_app. right. left. by eauto.
Qed.

Lemma good_fail_again step : good (_ ← report step Failed; markFailed ph step).
Proof.
  split; [keeps|]. intros s. apply wp_emit; [apply _|]. apply wp_bind; [apply _|].
  eapply wp_mono; [|apply wp_recordFailure].
  intros [] l s' [Hk Hl] s1 H1 s2 H2. apply (accounted_failure _ _ _ step).
  - eapply known_grows; [|exact Hk]. by etrans.
  - constructor; [right; by eauto|]. apply Forall_app.
    split; [eapply flags_grow; [|exact Hl]; by etrans|]. constructor; [right; by eauto|done].
  - left. by eauto.
Qed.

Lemma good_recovered step msg : good (recovered ph step msg).
Proof. apply good_bind; [apply good_quiet; auto with agent|intros _; apply good_markFailed]. Qed.

Lemma good_report step st : st ≠ Failed → good (report step st).
Proof. intros Hst. apply good_emit; [done|by destruct st|done]. Qed.

Lemma good_mret {A} (a : A) : good (mret a).
Proof. apply good_quiet. auto with agent. Qed.

End threads.

Create HintDb outcome.
#[export] Hint Resolve good_quiet good_mret good_markFailed good_recovered good_fail_again good_fail_then_record | 1 : outcome.
#[export] Hint Extern 1 (keeps _ _) => solve [auto with agent] : outcome.
#[export] Hint Extern 1 (good _ _ _ (report _ _)) => apply good_report; discriminate : outcome.
#[export] Hint Extern 1 (good _ _ _ (mbind _ _)) => apply good_fail_then_record : outcome.

(** Decompose a thread, accounting for its failures. *)
Ltac goods :=
  repeat first
    [ progress cbv zeta
    | solve [auto with outcome]
    | match goal with
      | |- good _ _ _ (mbind _ _) => apply good_bind; [|intros ?]
      | |- good _ _ _ (ask _ _) => apply good_ask; [by repeat constructor|intros ?; solve [by apply accounted_one | eapply accounted_quiet; by repeat constructor]]
      | |- good _ _ _ (emit _) => apply good_emit; [exact I|intros ?; exact I|done]
      | |- good _ _ _ (match ?x with _ => _ end) => destruct x
      end ].

Section steps.
Context (W : World) (Vars : gmap string string) (why : Prop) (ph : phase).

Lemma good_run_approval step : good W why ph (run_approval W ph step).
Proof. unfold run_approval. goods. Qed.

Lemma good_run_cache step cs : good W why ph (run_cache W ph step cs).
Proof. unfold run_cache, cache_body. goods. Qed.

Lemma good_run_upload step ua : good W why ph (run_upload W ph step ua).
Proof. unfold run_upload. goods. Qed.

Lemma good_run_download run step da : good W why ph (run_download W run ph step da).
Proof. unfold run_download. goods. Qed.

Lemma good_run_call step call d : good W why ph (run_call W step call d).
Proof. unfold run_call. goods. Qed.

Lemma good_finish_step step status exit child : good W why ph (finish_step ph step status exit child).
Proof.
  unfold finish_step. cbv zeta. apply good_bind; [destruct status; goods|intros _].
  destruct status; cbn [step_status_eqb]; goods.
Qed.

Lemma good_attempt step try script env : good W why ph (attempt W step try script env).
Proof. unfold attempt. goods. Qed.
#[local] Hint Resolve good_attempt : outcome.

Lemma good_attempts_loop step script env n b more : ∀ try,
  good W why ph (attempts_loop W ph step script env n b more try).
Proof. induction more as [|more IH]; intros try; cbn [attempts_loop]; goods. Qed.
#[local] Hint Resolve good_attempts_loop : outcome.

Lemma good_run_script step d : good W why ph (run_script W Vars ph step d).
Proof.
  unfold run_script, run_attempts. goods.
Qed.
#[local] Hint Resolve good_run_approval good_run_cache good_run_upload good_run_download good_run_call
  good_finish_step good_run_script : outcome.

Lemma good_stepRunner run step : good W why ph (stepRunner W Vars run ph step).
Proof. unfold stepRunner, run_action, run_main_action. goods. Qed.

Lemma good_runOne run step : good W why ph (runOne (stepRunner W Vars run ph) step).
Proof. unfold runOne. goods. apply good_stepRunner. Qed.
End steps.

(** ** The parts of a claim *)

Section claim.
Context (W : World).

Lemma wp_stepRunner_result Vars run ph step s :
  wp grows (runOne (stepRunner W Vars run ph) step) (λ a _ _, a = None) s.
Proof.
  unfold runOne, stepRunner. cbv zeta. apply wp_bind; [apply _|].
  do 3 (apply wp_bind; [apply _|]; eapply wp_mono; [|apply wp_true]; cbv beta; intros ? ? ? _).
  cbn. intros ? _ ? _. by destruct (cl_ContinueOnError step).
Qed.

(** *** Every step is run *)

(** [step] has reported how it ended. *)
Definition told (step : ClaimStep) (es : list event) : Prop :=
  ∃ st, (outcome st = true ∨ st = Skipped) ∧ (step, st) ∈ reports es.

(** Every step of the stages has been expanded, and all of its copies have reported
    how they ended. *)
Definition covered (max : Z) (stages : list ClaimStage) (es : list event) : Prop :=
  ∀ stage st, stage ∈ stages → st ∈ StageSteps stage →
    ∃ d copies, ExpandMatrixStep (w_ExpandTemplate W) (w_json_strings W) st d max = Ok copies ∧
      ∀ copy, copy ∈ copies → told copy es.

(** The copies of some step of the stages cannot be made. *)
Definition unexpanded (max : Z) (stages : list ClaimStage) : Prop :=
  ∃ stage st d e, stage ∈ stages ∧ st ∈ StageSteps stage ∧
    ExpandMatrixStep (w_ExpandTemplate W) (w_json_strings W) st d max = Err e.

Definition overrun : Prop := ∃ t, w_expired W finally_name t = true.

Lemma told_mono step l1 l2 : l1 ⊆ l2 → told step l1 → told step l2.
Proof.
  intros H (st & Hst & Hin). exists st. split; [done|]. unfold reports in *.
  apply list_elem_of_omap in Hin as (e & He & Hx). apply list_elem_of_omap. eauto.
Qed.

Lemma covered_mono max stages l1 l2 : l1 ⊆ l2 → covered max stages l1 → covered max stages l2.
Proof.
  intros Hl H stage st H1 H2. destruct (H stage st H1 H2) as (d & copies & He & Hc). exists d, copies. split; [done|].
  intros copy Hin. by eapply told_mono, Hc.
Qed.

Lemma reported_told step r l : reported step r l → told step l.
Proof.
  unfold reported, told. destruct (cr_error r); [intros ->; exists Failed; split; [by left|left]|].
  destruct (cr_value r); [|intros ->; exists Skipped; split; [by right|left]].
  intros (x & Hx & ->). assert (∃ st, outcome st = true ∧ st ∈ x) as (st & Hst & Hin).
  { unfold action_reports, protocol in Hx.
    apply elem_of_app in Hx as [Hx|Hx].
    - destruct (scoped_io step); [|by apply not_elem_of_nil in Hx]. apply list_elem_of_singleton in Hx as ->. exists Failed. split; [done|left].
    - destruct (cl_Approval step), (cl_Cache step), (cl_Upload step), (cl_Download step), (cl_Call step), (isScopedStep step);
        cbn in Hx; repeat (apply elem_of_cons in Hx as [->|Hx]; [(exists Succeeded; split; [done|set_solver]) || (exists Failed; split; [done|set_solver]) || (exists Cancelled; split; [done|set_solver])|]); by apply not_elem_of_nil in Hx. }
  exists st. split; [by left|]. apply list_elem_of_fmap. eauto.
Qed.

Lemma wp_runOne_told Vars run ph step s :
  wp grows (runOne (stepRunner W Vars run ph) step) (λ a l _, told step l ∧ a = None) s.
Proof.
  apply wp_conj; [|apply wp_stepRunner_result]. eapply wp_mono; [|apply (emits_wp false _ (λ _ l, told step l))].
  - intros a l s' H. by apply H.
  - unfold runOne. eapply emits_bind; [apply says_stepRunner| |done]. cbv beta.
    intros r l (d & status & _ & H). apply emits_mret. rewrite app_nil_r. by eapply reported_told.
Qed.

Section pipeline.
Context (Vars : gmap string string) (run : string) (ph : phase) (max : Z).
Abbreviation runner := (stepRunner W Vars run ph).

Lemma told_runOne step s s' r es :
  mrun (R := option text) env s (lift (runOne runner step)) s' r es → r = None ∧ told step es.
Proof.
  intros H. eapply (mrun_lift env grows) in H; [|apply env_grows|apply wp_runOne_told]. by destruct H.
Qed.

Lemma mrun_mret {R A} (a b : A) s s' es : mrun (Ev := event) (R := R) env s (mret a) s' b es → b = a ∧ es = [].
Proof.
  intros H. remember (mret a) as m eqn:E. induction H as [s b| | |s s1 m s' b es _ _ IH]; [|done|done|by apply IH].
  by injection E as ->.
Qed.

Lemma told_runSequential steps : ∀ s s' r es,
  mrun env s (runSequential runner steps) s' r es → r = None ∧ ∀ step, step ∈ steps → told step es.
Proof.
  induction steps as [|step steps IH]; intros s s' r es; cbn [runSequential].
  { intros [-> ->]%mrun_mret. split; [done|]. by intros step ?%not_elem_of_nil. }
  intros (s1 & a & es1 & es2 & H1 & H2 & ->)%mrun_bind. apply told_runOne in H1 as [-> H1].
  apply IH in H2 as [-> H2]. split; [done|]. intros st [->|Hin]%elem_of_cons.
  - eapply told_mono, H1. set_solver.
  - eapply told_mono, H2; [set_solver|done].
Qed.

Lemma mrun_fork {A} (ts : list (proc St event A)) s s' rs es :
  mrun (R := A) env s (fork ts) s' rs es → ∃ s0 s1 own, par env s0 ts s1 rs own es.
Proof.
  unfold fork. intros H. remember (Fork ts Fin) as m eqn:E.
  induction H as [| |s ts' k s1 rs' own all s' rs es Hp H _|s s1 m s' rs es _ _ IH]; [done|done| |by apply IH].
  injection E as -> ->. apply mrun_mret in H as [-> ->]. rewrite app_nil_r. eauto.
Qed.

Lemma told_runParallel steps s s' r es :
  mrun env s (runParallel runner steps) s' r es → r = None ∧ ∀ step, step ∈ steps → told step es.
Proof.
  unfold runParallel. intros (s1 & rs & es1 & es2 & (s2 & s3 & own & Hp)%mrun_fork & [-> ->]%mrun_mret & ->)%mrun_bind.
  rewrite app_nil_r. destruct (par_events _ _ _ _ _ _ _ Hp) as (Hl1 & Hl2 & Hev). rewrite length_fmap in Hl1, Hl2.
  assert (∀ i step, steps !! i = Some step → rs !! i = Some None ∧ told step es1) as Hall.
  { intros i step Hi. assert (i < length steps) as Hlt by (by eapply lookup_lt_Some).
    destruct (lookup_lt_is_Some_2 rs i) as [r Hr]; [lia|]. destruct (lookup_lt_is_Some_2 own i) as [o Ho]; [lia|].
    assert (told step o ∧ r = None) as [Ht ->].
    { refine (par_wp env grows (λ i a l _, ∀ step, steps !! i = Some step → told step l ∧ a = None) _ _ _ _ _ _ env_grows _ _ Hp i r o Hr Ho step Hi).
      - apply Forall_fmap, Forall_true. intros st. eapply keeps_weaken; [|apply (keeps_runOne W)]. by intros ? ? ? [].
      - intros j t Hj. apply list_lookup_fmap_Some in Hj as (st & -> & Hj). eapply wp_mono; [|apply wp_runOne_told].
        intros a l s4 H st' Hj'. by simplify_eq. }
    split; [done|]. eapply told_mono; [|exact Ht]. intros e He. apply Hev. eauto. }
  split.
  - unfold first_error. assert (Forall (λ a, a = None) rs) as Hn.
    { apply Forall_lookup. intros i a Ha. destruct (lookup_lt_is_Some_2 steps i) as [step Hs]; [rewrite <-Hl2; by eapply lookup_lt_Some|].
      destruct (Hall i step Hs) as [Hx _]. congruence. }
    clear -Hn. induction Hn as [|? ? -> _ IH]; [done|exact IH].
  - intros step [i Hi]%list_elem_of_lookup. by eapply Hall.
Qed.

Lemma mrun_expand members : ∀ s s' r es,
  mrun (R := option text) env s (expand_members W max members) s' r es →
  match r with
  | Ok l => ∀ st, st ∈ members → ∃ d copies, ExpandMatrixStep (w_ExpandTemplate W) (w_json_strings W) st d max = Ok copies ∧ copies ⊆ l
  | Err _ => ∃ st d e, st ∈ members ∧ ExpandMatrixStep (w_ExpandTemplate W) (w_json_strings W) st d max = Err e
  end.
Proof.
  induction members as [|m members IH]; intros s s' r es; cbn [expand_members].
  { intros [-> _]%mrun_mret. by intros st ?%not_elem_of_nil. }
  intros (s1 & d & es1 & es2 & _ & H & _)%mrun_bind.
  destruct (ExpandMatrixStep _ _ m d max) as [copies|e] eqn:E; [|apply mrun_mret in H as [-> _]; exists m, d, e; split; [left|done]].
  apply mrun_bind in H as (s2 & rest & es3 & es4 & H3%IH & [-> _]%mrun_mret & _). destruct rest as [l|e].
  - intros st [->|Hin]%elem_of_cons; [exists d, copies; split; [done|set_solver]|].
    destruct (H3 st Hin) as (d' & c' & ? & ?). exists d', c'. split; [done|set_solver].
  - destruct H3 as (st & d' & e' & Hin & He). exists st, d', e'. split; [by right|done].
Qed.

Lemma told_run_stage mode stage steps s s' r es :
  (∀ st, sg_Step stage = Some st → cl_Matrix st = None → steps = [st]) →
  mrun env s (run_stage mode runner stage steps) s' r es → r = None ∧ ∀ step, step ∈ steps → told step es.
Proof.
  intros Hs. unfold run_stage.
  assert (mrun env s (match mode with Sequential => runSequential runner steps | Concurrent => runParallel runner steps end) s' r es →
    r = None ∧ ∀ step, step ∈ steps → told step es) as H
    by (destruct mode; [apply told_runParallel|apply told_runSequential]).
  destruct (sg_Step stage) as [st|] eqn:Es; [|by destruct steps]. destruct (cl_Matrix st) eqn:Em; [by destruct steps|].
  rewrite (Hs st eq_refl Em). intros [-> Ht]%told_runOne. split; [done|]. by intros step ->%list_elem_of_singleton.
Qed.

(** A pipeline runs all of its steps, unless the copies of one cannot be made. *)
Lemma covers_pipeline mode stages : ∀ s s' r es,
  mrun env s (RunPipeline W max mode runner stages) s' r es →
  match r with Some _ => unexpanded max stages | None => covered max stages es end.
Proof.
  induction stages as [|stage stages IH]; intros s s' r es; cbn [RunPipeline].
  { intros [-> ->]%mrun_mret. by intros stage st ?%not_elem_of_nil. }
  intros (s1 & ex & es1 & es2 & H1 & H & ->)%mrun_bind. pose proof (mrun_expand _ _ _ _ _ H1) as Hex.
  destruct ex as [l|e].
  2: { apply mrun_mret in H as [-> _]. destruct Hex as (st & d & e' & Hin & He). exists stage, st, d, e'. split_and!; [left|done..]. }
  apply mrun_bind in H as (s2 & a & es3 & es4 & H3 & H & ->). apply told_run_stage in H3 as [-> H3].
  2: { intros st Hst Hm. unfold StageSteps in H1. rewrite Hst in H1. cbn [expand_members] in H1.
       apply mrun_bind in H1 as (? & d & ? & ? & _ & H1 & _). unfold ExpandMatrixStep in H1. rewrite Hm in H1.
       apply mrun_bind in H1 as (? & rest & ? & ? & [-> _]%mrun_mret & [[= ->] _]%mrun_mret & _). done. }
  specialize (IH _ _ _ _ H). destruct r.
  - destruct IH as (stage' & st & d & e & ? & ?). exists stage', st, d, e. split; [by right|done].
  - intros stage' st [->|Hin]%elem_of_cons Hst.
    + destruct (Hex st Hst) as (d & copies & He & Hsub). exists d, copies. split; [done|].
      intros copy Hc. eapply told_mono, H3, Hsub, Hc. set_solver.
    + destruct (IH stage' st Hin Hst) as (d & copies & He & Hc). exists d, copies. split; [done|].
      intros copy Hcp. eapply told_mono, Hc, Hcp. set_solver.
Qed.
End pipeline.

(** *** The flags *)

Abbreviation accounts why ph := (sound W (λ _, True) (accounted why ph)).

Lemma accounts_mret {A} why ph (Φ : A → Prop) a : Φ a → accounts why ph Φ (mret a).
Proof. apply sound_mret, accounted_cover. Qed.

Lemma accounts_bind {A B} why ph (Φ : A → Prop) (Ψ : B → Prop) (m : main St event (option text) A) f :
  accounts why ph Φ m → (∀ a, main_keeps (flagged W) (f a)) → (∀ a, Φ a → accounts why ph Ψ (f a)) →
  accounts why ph Ψ (m ≫= f).
Proof.
  apply sound_bind; [done|intros; by eapply accounted_grows|apply accounted_cover].
Qed.

Lemma accounts_good {A} why ph (t : proc St event A) : good W why ph t → accounts why ph (λ _, True) (lift t).
Proof.
  intros [Hk Hw]. apply sound_lift; [done|]. intros s _. eapply wp_mono; [|apply Hw]. by intros a l s' H.
Qed.

Lemma accounts_pipeline why ph Vars run max mode stages :
  accounts why ph (λ e, e ≠ None → unexpanded max stages)
    (RunPipeline W max mode (stepRunner W Vars run ph) stages).
Proof.
  destruct (sound_RunPipeline W (λ _, True) (accounted why ph)) with (ok := λ _ : ClaimStep, True)
    (run := stepRunner W Vars run ph) (max := max) (mode := mode) (stages := stages) as [Hk Hs].
  - done.
  - intros. by eapply accounted_grows.
  - apply accounted_cover.
  - intros. by apply Forall_true.
  - apply keeps_runOne.
  - intros step s _ _. apply (wp_conj grows _ (λ _ l s', accounted why ph s' l) (λ a _ _, a = None));
      [apply good_runOne|apply wp_stepRunner_result].
  - apply Forall_true. intros stage. by apply Forall_true.
  - split; [done|]. intros s s' a es Hst H. destruct (Hs s s' a es Hst H) as [He Ha]. split; [done|].
    intros Hne. apply covers_pipeline in H. by destruct a.
Qed.

(** The finally pipeline: a flag it raises has a failure, an expansion error or an
    exhausted budget behind it. *)
Lemma accounts_run_finally c mode frozen :
  accounts (unexpanded (c_MatrixMax c) (c_Finally c) ∨ overrun) (finally_phase frozen) (λ _, True)
    (run_finally W c mode frozen).
Proof.
  unfold run_finally, recordPhaseTruncated. destruct (c_Finally c) as [|stage stages] eqn:Ec; [by apply accounts_mret|]. rewrite <-Ec.
  assert (Hff : ∀ why, why → accounts why (finally_phase frozen) (λ _, True) (lift fail_finally)).
  { intros why Hw. apply sound_lift; [auto with agent|]. intros s _ s1 _ s2 G2. split; [|done].
    split; [by repeat constructor|]. intros f [= ->]%list_elem_of_singleton. split_and!; [done| |by right].
    apply G2, (set_flag_set FFinally). }
  eapply accounts_bind; [apply accounts_pipeline|intros; mkeeps|intros err Herr].
  eapply (accounts_bind _ _ (λ _, True)); [|intros; mkeeps|intros _ _].
  { destruct err; [apply Hff; left; by apply Herr|by apply accounts_mret]. }
  eapply (accounts_bind _ _ (λ late : bool, late = true → overrun)); [|intros; mkeeps|intros late Hlate].
  { apply sound_lift; [auto with agent|]. intros s _ s1 _ s2 _. split; [by apply (accounted_quiet W)|].
    intros H. by exists (st_time s1). }
  eapply (accounts_bind _ _ (λ _, True)); [|intros; mkeeps|intros _ _].
  { destruct late; [|by apply accounts_mret]. eapply sound_lift; [keeps|].
    intros s _. cbn. intros s1 _ s2 _ s3 G3. split; [|done]. split; [by repeat constructor|].
    intros f Hf. apply elem_of_cons in Hf as [?|[= ->]%list_elem_of_singleton]; [done|].
    split_and!; [done|apply G3, (set_flag_set FFinally)|]. right; right. by apply Hlate. }
  apply accounts_good, good_quiet. auto with agent.
Qed.

(** The finally pipeline runs all of its steps, or raises its flag. *)
Lemma covers_run_finally c mode frozen s s' es :
  mrun env s (run_finally W c mode frozen) s' tt es →
  covered (c_MatrixMax c) (c_Finally c) es ∨ unexpanded (c_MatrixMax c) (c_Finally c) ∧ EFlag FFinally ∈ es.
Proof.
  unfold run_finally. destruct (c_Finally c) as [|stage stages] eqn:Ec.
  { intros _. left. by intros ? ? ?%not_elem_of_nil. }
  rewrite <-Ec. intros (s1 & err & es1 & es2 & H1 & H & ->)%mrun_bind. apply covers_pipeline in H1.
  destruct err; [right; split; [done|]|left; eapply covered_mono, H1; set_solver].
  apply mrun_bind in H as (s2 & [] & es3 & es4 & H3 & _ & ->).
  apply (mrun_lift env idle _ (λ _ l _, l = [EFlag FFinally])) in H3 as ->; [set_solver|apply env_guarded|].
  by intros s3 _ s4 _.
Qed.

(** Reading the state between two steps of a program. *)
Lemma mrun_read {A} (f : St → A) s s' a es :
  mrun (Ev := event) (R := option text) env s (lift (read f)) s' a es →
  ∃ s1, idle s s1 ∧ idle s1 s' ∧ a = f s1 ∧ es = [].
Proof.
  intros H. eapply (mrun_lift env idle _ (λ a l s', ∃ s1, idle s s1 ∧ idle s1 s' ∧ a = f s1 ∧ l = [])) in H;
    [exact H|apply env_guarded|].
  intros s1 H1 s2 H2. by exists s1.
Qed.

Definition not_finish (e : event) : Prop := ∀ st, e ≠ EFinish st.

Lemma not_finish_guarded s es s' : flagged W s es s' → Forall not_finish es.
Proof. intros [_ _ He]. eapply Forall_impl; [exact He|]. intros e He' st ->. done. Qed.

Lemma quiet_run {A} (t : proc St event A) s s' a es :
  keeps (quiet W) t → mrun (R := option text) env s (lift t) s' a es → quiet W s es s'.
Proof. intros Hk. apply mrun_keeps; [apply _|apply env_guarded|by apply main_keeps_lift]. Qed.

Lemma quiet_guarded s es s' : quiet W s es s' → flagged W s es s'.
Proof. intros [H1 H2 H3]. split; [done..|]. eapply Forall_impl; [exact H3|]. by intros []. Qed.

(** The failures of the main phase: the flag is raised by a failure the run may not
    forget, and every such failure raises it unless the run is cancelled; every step
    is run unless the copies of one cannot be made. *)
Definition main_told (c : ClaimResponse) (mn : list event) (s : St) : Prop :=
  (EFlag FMain ∈ mn → Exists unexcused mn) ∧
  (Exists unexcused mn → EFlag FMain ∈ mn ∨ st_cancelled s = true) ∧
  (EFlag FFinally ∉ mn) ∧
  (covered (c_MatrixMax c) (c_Stages c) mn ∨ unexpanded (c_MatrixMax c) (c_Stages c)).

(** Those of the finally phase, which no cancellation masks. *)
Definition finally_told (c : ClaimResponse) (fin : list event) : Prop :=
  (EFlag FFinally ∈ fin → Exists unexcused fin ∨ unexpanded (c_MatrixMax c) (c_Finally c) ∨ overrun) ∧
  (Exists unexcused fin → EFlag FFinally ∈ fin) ∧
  (EFlag FMain ∉ fin) ∧
  (covered (c_MatrixMax c) (c_Finally c) fin ∨ unexpanded (c_MatrixMax c) (c_Finally c) ∧ EFlag FFinally ∈ fin).

(** What a status says of the events before it. *)
Definition verdict (c : ClaimResponse) (st : step_status) (mn fin : list event) (s : St) : Prop :=
  match st with
  | Failed => EFlag FMain ∈ mn ∨ EFlag FFinally ∈ fin ∨ unexpanded (c_MatrixMax c) (c_Stages c)
  | Cancelled => st_cancelled s = true ∧ (EFlag FMain ∉ mn) ∧ (EFlag FFinally ∉ fin)
  | Succeeded => (EFlag FMain ∉ mn) ∧ (EFlag FFinally ∉ fin) ∧ (¬ Exists unexcused (mn ++ fin)) ∧
                 covered (c_MatrixMax c) (c_Stages c) mn
  | _ => False
  end.

Definition decided (c : ClaimResponse) (es : list event) (s : St) : Prop :=
  (st_reaped s = true ∧ Forall not_finish es) ∨
  (c_SecretsNeeded c ≠ [] ∧ (∃ t e, w_FetchSecrets W t = Err e) ∧ ∃ line, es = [ELog (-1) line; EFinish Failed]) ∨
  ∃ mn fin st, es = mn ++ fin ++ [EFinish st] ∧ Forall not_finish (mn ++ fin) ∧
    main_told c mn s ∧ finally_told c fin ∧ verdict c st mn fin s.

Lemma quiet_no_flag s es s' f : quiet W s es s' → flag_set f s' = flag_set f s.
Proof.
  intros [[_ _ _ Hg] Hf He]. destruct (flag_set f s) eqn:E; [by apply Hg|].
  apply not_true_is_false. intros [?|H]%Hf; [congruence|]. by eapply Forall_forall in H; [|exact He].
Qed.

(** The end of the claim: nothing if the run is over at the controller, otherwise
    the outputs and the status. *)
Lemma run_end c (reaped : bool) st s s' es :
  mrun (R := option text) env s (if reaped then mret () else _ ← lift (promote_outputs W c); lift (emit (EFinish st))) s' tt es →
  grows s s' ∧
  if reaped then es = [] else ∃ es', es = es' ++ [EFinish st] ∧ Forall (quiet_event W) es'.
Proof.
  destruct reaped; intros H.
  - change (mrun (R := option text) env s (lift (Ret () : proc St event unit)) s' () es) in H.
    apply (mrun_lift env idle _ (λ _ l s', idle s s' ∧ l = [])) in H
      as [[G _ _] ->]; [done|apply env_guarded|by intros s1 ?].
  - apply mrun_bind in H as (s1 & [] & es1 & r1 & H1 & H & ->).
    apply quiet_run in H1 as [G1 _ Q1]; [|apply keeps_promote_outputs].
    apply (mrun_lift env idle (emit (EFinish st)) (λ _ l s', idle s1 s' ∧ l = [EFinish st])) in H
      as [[G2 _ _] ->]; [|apply env_guarded|].
    + split; [by etrans|]. by exists es1.
    + intros s2 H2 s3 H3. split; [|done]. by etrans.
Qed.

(** The flag of a phase, as its events tell it. *)
Lemma evidence why ph s es s1 :
  flagged W s es s1 → accounted why ph s1 es → flag_set (ph_flag ph) s = false →
  (flag_set (ph_flag ph) s1 = true ↔ EFlag (ph_flag ph) ∈ es) ∧
  (EFlag (ph_flag ph) ∈ es → Exists unexcused es ∨ why) ∧
  (Exists unexcused es → EFlag (ph_flag ph) ∈ es ∨ ph_suppressOnCancel ph && st_cancelled s1 = true) ∧
  (∀ f, f ≠ ph_flag ph → (EFlag f ∉ es) ∧ (flag_set f s = false → flag_set f s1 = false)).
Proof.
  intros F [He Hf] Hs. assert (flag_set (ph_flag ph) s1 = true ↔ EFlag (ph_flag ph) ∈ es) as Hiff.
  { split; [|by intros (_ & ? & _)%Hf]. intros [?|?]%(f_flag F); congruence. }
  split_and!; [done|by intros (_ & _ & ?)%Hf| |].
  - intros (e & Hin & Hu)%Exists_exists. eapply Forall_forall in He; [|exact Hin].
    destruct e as [step [] x ch cj| | | | | | | | | | | | |]; try done.
    destruct He as [Hc|[Hg|Hc]]; [cbn in Hu; congruence|left; by apply Hiff|by right].
  - intros f Hne. assert (EFlag f ∉ es) as Hn by (by intros (-> & _)%Hf). split; [done|].
    intros H0. apply not_true_is_false. intros [?|?]%(f_flag F); [congruence|done].
Qed.

Lemma quiet_told es : Forall (quiet_event W) es → (∀ f, EFlag f ∉ es) ∧ (¬ Exists unexcused es) ∧ Forall not_finish es.
Proof.
  intros Hq. split_and!.
  - intros f Hin. by eapply Forall_forall in Hq; [|exact Hin].
  - intros (e & Hin & Hu)%Exists_exists. eapply Forall_forall in Hq; [|exact Hin]. by destruct e.
  - eapply Forall_impl; [exact Hq|]. by intros [] ?.
Qed.

Lemma told_quiet_app es q f : Forall (quiet_event W) q →
  (EFlag f ∈ es ++ q ↔ EFlag f ∈ es) ∧ (Exists unexcused (es ++ q) ↔ Exists unexcused es).
Proof.
  intros (Hn & Hx & _)%quiet_told. rewrite elem_of_app, Exists_app. split; split; auto; intros [?|H]; try done. by apply Hn in H.
Qed.

(** The status, from what is known of the parts. *)
Lemma verdict_status c (failed dag ffailed cancelled : bool) mn fin s :
  (failed = true ↔ EFlag FMain ∈ mn) → (ffailed = true ↔ EFlag FFinally ∈ fin) →
  (failed = false → cancelled = false → ¬ Exists unexcused mn) → (ffailed = false → ¬ Exists unexcused fin) →
  (if dag then unexpanded (c_MatrixMax c) (c_Stages c) else covered (c_MatrixMax c) (c_Stages c) mn) →
  (cancelled = true → st_cancelled s = true) →
  verdict c (overall_status (failed || (dag && negb cancelled)) ffailed cancelled) mn fin s.
Proof.
  intros [M1 M2] [N1 N2] Mn Nn D C. unfold overall_status, verdict.
  assert (failed = false → EFlag FMain ∉ mn) as M3 by (by intros -> ?%M2).
  assert (ffailed = false → EFlag FFinally ∉ fin) as N3 by (by intros -> ?%N2).
  destruct failed, ffailed, dag, cancelled; cbn; auto; split_and!; auto; rewrite Exists_app; intros [?|?]; [by apply Mn|by apply Nn].
Qed.

Lemma run_dag_decided c mode s s' es :
  st_failed s = false → st_ffailed s = false →
  mrun env s (run_dag W c mode) s' tt es → decided c es s'.
Proof.
  intros Hf0 Hff0 H. unfold run_dag in H.
  apply mrun_bind in H as (s1 & dagErr & es1 & r1 & H1 & H & ->).
  apply mrun_bind in H as (s2 & [] & es2 & r2 & H2 & H & ->).
  apply mrun_bind in H as (s3 & cancelled & es3 & r3 & H3 & H & ->).
  apply mrun_bind in H as (s4 & failed & es4 & r4 & H4 & H & ->).
  apply mrun_read in H3 as (t3 & G3 & G3' & -> & ->), H4 as (t4 & G4 & G4' & -> & ->).
  cbv zeta in H. apply mrun_bind in H as (s5 & [] & es5 & r5 & H5 & H & ->).
  apply mrun_bind in H as (s6 & ffailed & es6 & r6 & H6 & H & ->).
  apply mrun_bind in H as (s7 & reaped & es7 & r7 & H7 & H & ->).
  apply mrun_read in H6 as (t6 & G6 & G6' & -> & ->), H7 as (t7 & G7 & G7' & -> & ->).
  apply run_end in H as [G8 H]. apply quiet_run in H2; [|auto with agent].
  destruct (accounts_pipeline False main_phase (c_Vars c) (c_RunID c) (c_MatrixMax c) mode (c_Stages c)) as [K1 S1].
  eapply mrun_flagged in H1 as F1; [|done]. destruct (S1 _ _ _ _ I H1) as [A1 _]. apply covers_pipeline in H1. clear S1 K1.
  set (frozen := MkRunStatusView _ _) in H5.
  destruct (accounts_run_finally c mode frozen) as [K5 S5].
  eapply mrun_flagged in H5 as F5; [|done]. destruct (S5 _ _ _ _ I H5) as [A5 _]. apply covers_run_finally in H5. clear S5 K5.
  destruct (evidence _ _ _ _ _ F1 A1 Hf0) as (I1 & W1 & U1 & O1). destruct (O1 FFinally) as [O1' Hff1]; [done|].
  assert (Hst : ∀ f, flag_set f s4 = flag_set f s1 ∧ flag_set f t4 = flag_set f s1).
  { intros f. rewrite (idle_flag _ _ _ G4'), (idle_flag _ _ _ G4), (idle_flag _ _ _ G3'), (idle_flag _ _ _ G3).
    by rewrite (quiet_no_flag _ _ _ _ H2). }
  destruct (evidence _ _ _ _ _ F5 A5) as (I5 & W5 & U5 & O5); [change (flag_set FFinally s4 = false); destruct (Hst FFinally) as [-> _]; by apply Hff1|].
  destruct (O5 FMain) as [O5' _]; [done|]. cbn [ph_flag ph_suppressOnCancel main_phase finally_phase andb] in *.
  assert (Hfail : st_failed t4 = st_failed s1) by apply (Hst FMain).
  assert (Hffail : st_ffailed t6 = st_ffailed s5) by apply (idle_flag _ _ FFinally G6).
  assert (Hc1 : st_cancelled s1 = true → st_cancelled t3 = true).
  { intros Hc. apply (g_cancelled _ _ (f_grows G3)), (g_cancelled _ _ (f_grows H2)), Hc. }
  assert (grows t3 s') as G.
  { repeat first [exact (f_grows G3') | exact G8 | etrans; [|exact G8]; clear G8
      | etrans; [|exact (f_grows G7')]; clear G7' | etrans; [|exact (f_grows G7)]; clear G7
      | etrans; [|exact (f_grows G6')]; clear G6' | etrans; [|exact (f_grows G6)]; clear G6
      | etrans; [|exact (f_grows F5)]; clear F5 | etrans; [|exact (f_grows G4')]; clear G4'
      | etrans; [|exact (f_grows G4)]; clear G4 ]. }
  destruct (quiet_told es2) as (_ & _ & N2); [apply H2|].
  assert (N : Forall not_finish es1 ∧ Forall not_finish es5) by (split; eapply not_finish_guarded; [exact F1|exact F5]).
  cbn [app]. destruct (st_reaped t7) eqn:Hr.
  - left. subst r7. split; [by apply G8, (g_reaped _ _ (f_grows G7'))|].
    rewrite app_nil_r, !Forall_app. by destruct N.
  - right; right. destruct H as (es8 & -> & Q8). destruct (quiet_told es8 Q8) as (_ & _ & N8).
    exists (es1 ++ es2), (es5 ++ es8), (overall_status (st_failed t4 || (bool_decide (dagErr ≠ None) && negb (st_cancelled t3))) (st_ffailed t6) (st_cancelled t3)).
    split; [by rewrite <-!app_assoc|]. split; [rewrite !Forall_app; by destruct N|].
    pose proof (told_quiet_app es1 es2 FMain (f_events H2)) as [T1 T1x]. pose proof (told_quiet_app es1 es2 FFinally (f_events H2)) as [T1' _].
    pose proof (told_quiet_app es5 es8 FFinally Q8) as [T5 T5x]. pose proof (told_quiet_app es5 es8 FMain Q8) as [T5' _].
    assert (C1 : covered (c_MatrixMax c) (c_Stages c) es1 → covered (c_MatrixMax c) (c_Stages c) (es1 ++ es2)) by (apply covered_mono; set_solver).
    assert (U1' : Exists unexcused es1 → EFlag FMain ∈ es1 ∨ st_cancelled t3 = true) by (intros [?|?]%U1; auto).
    split; [|split].
    + unfold main_told. rewrite T1, T1x, T1'. split_and!; [by intros [?|[]]%W1| |done|destruct dagErr; auto].
      intros [?|?]%U1'; [by left|right; by apply (g_cancelled _ _ G)].
    + unfold finally_told. rewrite T5, T5x, T5'. split_and!; [done|by intros [?|?]%U5|done|].
      destruct H5 as [H5|?]; [left|by right]. eapply covered_mono, H5; set_solver.
    + rewrite Hfail, Hffail. apply verdict_status; rewrite ?T1, ?T1x, ?T5, ?T5x; [exact I1|exact I5| | | |].
      * intros Hs Hc [Hin%I1|?]%U1'; cbn in *; congruence.
      * intros Hs [Hin%I5|?]%U5; cbn in *; congruence.
      * destruct dagErr; cbn; auto.
      * apply (g_cancelled _ _ G).
Qed.
End claim.

(** ** The outcome *)

(** C2: no failure is lost and none is invented: in every run of a claim, for
    every interleaving of the steps of a stage and every behaviour of the backend,
    the controller, the clock and the cancellation poller, one of three: the run is
    over at the controller and the agent sends no final status; the secrets could not
    be fetched and all it does is say so and send Failed; or it runs the main phase and
    the finally phase and then sends exactly one status, last.  In each phase every
    step is expanded and all of its copies report how they ended (unless the copies of
    one cannot be made), the flag of the phase is raised by nothing but a failure
    without [continueOnError] (in the finally phase also by a step that cannot be
    expanded and by the cleanup budget running out), and every such failure raises it,
    except in the main phase of a run that is cancelled.  Failed says that a flag is
    raised, or that the copies of a main step could not be made; Cancelled, that the
    controller cancelled the run and no flag is raised, so that no failure of the
    finally phase is reported as a cancellation; Succeeded, that there is no failure
    without [continueOnError] at all and every main step was run. *)
Theorem run_outcome (W : World) (c : ClaimResponse) (mode : ConcurrencyMode) (s' : St) (es : list event)
    (H : mrun env (init_state c) (RunClaim W c mode) s' tt es) :
  decided W c es s'.
Proof.
  unfold RunClaim in H. destruct (c_SecretsNeeded c) as [|n needed] eqn:En.
  { by apply run_dag_decided in H. }
  apply mrun_bind in H as (s1 & r & es1 & r1 & H1 & H & ->).
  apply (mrun_lift env idle _ (λ r l s', idle (init_state c) s' ∧ l = [] ∧ ∃ t, w_FetchSecrets W t = r)) in H1
    as (G1 & -> & t & Ht); [|apply env_guarded|intros s2 H2 s3 H3; split; [by etrans|by eauto]].
  assert (Hf : ∀ f, flag_set f s1 = false) by (intros f; rewrite (idle_flag _ _ f G1); by destruct f).
  destruct r as [secrets|e].
  - apply mrun_bind in H as (s2 & [] & es2 & r2 & H2 & H & ->).
    apply (mrun_lift env idle _ (λ _ l s', (∀ f, flag_set f s' = flag_set f s1) ∧ l = [])) in H2
      as (G2 & ->); [|apply env_guarded|].
    + specialize (G2 FMain) as GM. specialize (G2 FFinally) as GF. rewrite Hf in GM, GF.
      by apply run_dag_decided in H.
    + intros s3 H3 s4 H4. split; [|done]. intros f. rewrite (idle_flag _ _ f H4), <-(idle_flag _ _ f H3).
      by destruct f.
  - right; left. rewrite En. split; [done|]. split; [by eauto|].
    apply (mrun_lift env idle _ (λ _ l s', ∃ line, l = [ELog (-1) line; EFinish Failed])) in H
      as [line ->]; [by exists line|apply env_guarded|intros s2 H2 s3 H3 s4 H4; by eexists].
Qed.

Lemma run_outcome_witness :
  let r := run_main (RunClaim sample_world sample_claim Concurrent) (init_state sample_claim) in
  last r.2 = Some (EFinish Failed) ∧ decided sample_world sample_claim r.2 r.1.1.
Proof.
  split; [vm_compute; reflexivity|]. apply (run_outcome sample_world sample_claim Concurrent).
  pose proof (run_main_mrun env (RunClaim sample_world sample_claim Concurrent) (init_state sample_claim)) as H.
  destruct (run_main _ _).1.2. exact H.
Defined.
