(* ===== verification/AgentPhases.v ===== *)
(** * internal/agent: the phases of a claim

    When steps are skipped, how the cleanup hooks are drained, which outputs are
    promoted and what may be published. *)

From S2P Require Import Prelude GoStrings DslNames DslTypes DslMatrix DslCondition AgentSteps Threads AgentRun AgentFacts AgentOutcome AgentProtocol.
From stdpp Require Import options.

Lemma Forall_cover (P : event → Prop) (l : list event) :
  (∀ e, e ∈ l → ∃ o, Forall P o ∧ e ∈ o ∧ o ⊆ l) → Forall P l.
Proof.
  intros H. apply Forall_forall. intros e He. destruct (H e He) as (o & Ho & Heo & _). by eapply Forall_forall in Ho.
Qed.

(** ** Skipping *)

Section skipping.
Context (W : World) (Vars : gmap string string) (run : string).

(** A step without a condition, and the copies made of it. *)
Definition unconditional (step : ClaimStep) : Prop := cl_If step = "".

Lemma unconditional_copies st d max copies :
  unconditional st → ExpandMatrixStep (w_ExpandTemplate W) (w_json_strings W) st d max = Ok copies →
  Forall unconditional copies.
Proof.
  intros Hst. unfold ExpandMatrixStep. destruct (cl_Matrix st) as [m|].
  - destruct (EvalMatrix _ _ _ _ _) as [combos|]; [|done]. cbn. intros [= <-].
    apply List.Forall_map, Forall_true. intros c. exact Hst.
  - intros [= <-]. by constructor.
Qed.

Definition skip_report (e : event) : Prop := ∃ step, e = EReport step Skipped 0 "" "".
Definition over (s : St) : Prop := st_failed s = true ∨ st_cancelled s = true.

Lemma over_grows s s' : grows s s' → over s → over s'.
Proof. intros G [H|H]; [left; by apply (g_flag _ _ G FMain)|right; by apply (g_cancelled _ _ G)]. Qed.

Lemma EvalCondition_empty CE d status imp :
  EvalCondition CE "" d status imp = MkCondition (if imp then success status else true) [] None.
Proof. done. Qed.

(** In the main phase an unconditional step that starts when the run is over only
    reports that it is skipped. *)
Lemma wp_skipped step s :
  unconditional step → over s →
  wp grows (runOne (stepRunner W Vars run main_phase) step) (λ a l _, Forall skip_report l ∧ a = None) s.
Proof.
  intros Hif Hs. cbn. intros s1 G1 s2 G2 s3 G3. rewrite Hif.
  assert (success (MkRunStatusView (st_failed s3 && negb (st_cancelled s2)) (st_cancelled s2)) = false) as E.
  { unfold success. cbn. destruct (st_cancelled s2) eqn:E2; [by rewrite andb_false_r|].
    assert (over s2) as [H|H] by (by eapply over_grows; [|eapply over_grows; [|exact Hs]]); [|congruence].
    by rewrite (g_flag _ _ G3 FMain H : st_failed s3 = true). }
  rewrite EvalCondition_empty. cbn [cr_error cr_warnings cr_value main_phase ph_implicitSuccess]. rewrite E.
  cbn. intros s4 _ s5 _. split; [|by destruct (cl_ContinueOnError step)]. constructor; [by exists step|done].
Qed.

(** In the finally phase an unconditional step is never skipped. *)
Lemma says_unskipped frozen step :
  unconditional step → says false step (action_reports step) (stepRunner W Vars run (finally_phase frozen) step).
Proof.
  intros Hif. unfold stepRunner. rewrite Hif. apply (says_bind_mute W); [auto with agent|intros d].
  apply (says_bind_mute W); [auto with agent|intros status]. rewrite EvalCondition_empty.
  cbn [cr_error cr_warnings cr_value finally_phase ph_implicitSuccess]. cbv zeta. apply says_then_ret.
  apply (says_bind_mute W); [auto with agent|intros []]. apply says_run_action.
Qed.

Definition not_skipped (e : event) : Prop := match e with EReport _ Skipped _ _ _ => False | _ => True end.

Lemma action_reports_not_skipped step x : x ∈ action_reports step → Skipped ∉ x.
Proof.
  unfold action_reports, protocol. intros [Hx|Hx]%elem_of_app.
  - destruct (scoped_io step); [apply list_elem_of_singleton in Hx as ->|by apply not_elem_of_nil in Hx].
    by intros [=]%list_elem_of_singleton.
  - revert x Hx. apply Forall_forall.
    destruct (cl_Approval step), (cl_Cache step), (cl_Upload step), (cl_Download step), (cl_Call step), (isScopedStep step);
      repeat apply Forall_cons_2; try apply Forall_nil_2; by apply (bool_decide_unpack (Skipped ∉ _)).
Qed.

Lemma told_not_skipped step x l : Skipped ∉ x → reports l = (λ st, (step, st)) <$> x → Forall not_skipped l.
Proof.
  intros Hx Hr. apply Forall_forall. intros e He. destruct e as [step' [] y ch cj| | | | | | | | | | | | |]; try done.
  assert ((step', Skipped) ∈ reports l) as Hin by (apply list_elem_of_omap; by eexists; split; [exact He|]).
  rewrite Hr in Hin. by apply list_elem_of_fmap in Hin as (st & [= -> <-] & ?).
Qed.
End skipping.


(** C10: when steps are skipped: once a step of the run has failed or the run is
    cancelled, a main pipeline of steps without a condition only reports its steps
    skipped - nothing is executed, no hook registered, no child run created; in the
    finally pipeline a step without a condition is never skipped, whatever happened
    to the run. *)
Theorem skip_rules (W : World) (Vars : gmap string string) (run : string) (max : Z) (mode : ConcurrencyMode)
    (stages : list ClaimStage) (s s' : St) (r : option text) (es : list event)
    (Hif : Forall (λ stage, Forall unconditional (StageSteps stage)) stages) :
  (over s → mrun env s (RunPipeline W max mode (stepRunner W Vars run main_phase) stages) s' r es →
     Forall skip_report es) ∧
  (∀ frozen, mrun env s (RunPipeline W max mode (stepRunner W Vars run (finally_phase frozen)) stages) s' r es →
     Forall not_skipped es).
Proof.
  split.
  - intros Hs H. destruct (sound_RunPipeline W over (λ _, Forall skip_report)) with
      (ok := unconditional) (run := stepRunner W Vars run main_phase) (max := max) (mode := mode)
      (stages := stages) as [_ Hm]; [apply over_grows|done| | | | |done|by eapply Hm].
    + intros _. apply Forall_cover.
    + intros. by eapply unconditional_copies.
    + apply keeps_runOne.
    + intros. by apply wp_skipped.
  - intros frozen H. destruct (sound_RunPipeline W (λ _, True) (λ _, Forall not_skipped)) with
      (ok := unconditional) (run := stepRunner W Vars run (finally_phase frozen)) (max := max) (mode := mode)
      (stages := stages) as [_ Hm]; [done|done| | | | |done|by eapply Hm].
    + intros _. apply Forall_cover.
    + intros. by eapply unconditional_copies.
    + apply keeps_runOne.
    + intros step s0 Hok _. apply wp_conj; [|apply wp_stepRunner_result].
      eapply wp_mono; [|apply (emits_wp false _ (λ _ l, Forall not_skipped l))]; [intros a l s1 Hl; by apply Hl|]. unfold runOne.
      eapply emits_bind; [apply says_unskipped, Hok| |done].
      cbv beta. intros a l (x & Hx & Hl). apply emits_mret. rewrite app_nil_r.
      eapply told_not_skipped, Hl. by eapply action_reports_not_skipped.
Qed.

Lemma skip_rules_witness :
  let s := set_flag FMain (init_state sample_claim) in
  let stages := c_Stages sample_claim in
  let m ph := RunPipeline sample_world 256 Concurrent (stepRunner sample_world ∅ "run-1" ph) stages in
  Forall skip_report (run_main (m main_phase) s).2 ∧
  Forall not_skipped (run_main (m (finally_phase (MkRunStatusView true false))) s).2.
Proof.
  assert (Hif : Forall (λ stage, Forall unconditional (StageSteps stage)) (c_Stages sample_claim))
    by (repeat constructor).
  cbv zeta. split.
  - eapply (proj1 (skip_rules sample_world ∅ "run-1" 256 Concurrent _ _ _ _ _ Hif)); [|apply run_main_mrun].
    left. reflexivity.
  - eapply (proj2 (skip_rules sample_world ∅ "run-1" 256 Concurrent _ _ _ _ _ Hif)), run_main_mrun.
Defined.

(** ** Draining the hooks *)

Section drain.
Context (W : World) (ph : string).
Context (Hmono : ∀ t t', t ≤ t' → w_expired W ph t = true → w_expired W ph t' = true).

(** Only the time moves. *)
Definition ticks (s s' : St) : Prop :=
  st_time s ≤ st_time s' ∧ st_saves s = st_saves s' ∧ st_hooks s = st_hooks s'.

#[export] Instance ticks_preorder : PreOrder ticks.
Proof. split; [by split|]. intros s1 s2 s3 (? & ? & ?) (? & ? & ?). split_and!; [lia|congruence..]. Qed.

Lemma env_ticks s s' : env s s' → ticks s s'.
Proof. by intros (t & c & r & -> & Ht & _). Qed.

Definition is_expired (s : St) : Prop := w_expired W ph (st_time s) = true.

Lemma ticks_expired s s' : ticks s s' → is_expired s → is_expired s'.
Proof using Hmono. intros (Ht & _). by apply Hmono. Qed.

(** What is executed is a prefix; what is not is named. *)
Definition drained (items : list (string * event)) (i : string) (sk : list string) (s : St)
    (r : string * list string) (l : list event) (s' : St) : Prop :=
  ticks s s' ∧ ∃ n, n ≤ length items ∧ l = (take n items).*2 ∧ r.2 = sk ++ (drop n items).*1 ∧
    (n < length items → is_expired s') ∧ (is_expired s → n = 0) ∧
    (r.1 = i ∨ last (take n items).*1 = Some r.1).

Lemma wp_run_hooks items : ∀ i sk s, (i ≠ "" → is_expired s) →
  wp ticks (run_hooks W ph items i sk) (drained items i sk s) s.
Proof using Hmono.
  induction items as [|[label ev] items IH]; intros i sk s Hi; cbn [run_hooks].
  { intros s' Hs. split; [done|]. exists 0. rewrite app_nil_r. split_and!; auto. simpl; lia. }
  intros s1 H1. cbn [proc_bind]. destruct (w_expired W ph (st_time s1)) eqn:E1.
  - eapply wp_mono; [|apply (IH i (sk ++ [label]) s1)].
    2: { intros Hne. by eapply ticks_expired, Hi. }
    intros r l s' (Ht & n & Hn & Hl & Hr & _ & H0 & Hlast).
    assert (n = 0) as -> by (by apply H0). cbn in Hl, Hlast. subst l. split; [by etrans|].
    exists 0. cbn in *. rewrite Hr, <-app_assoc. split_and!; [lia|done|done| |done|].
    + intros _. by eapply ticks_expired.
    + destruct Hlast as [?|?]; [by left|done].
  - assert (i = "") as ->.
    { destruct (decide (i = "")) as [|Hne]; [done|].
      apply Hi in Hne. eapply ticks_expired in Hne; [|exact H1]. unfold is_expired in Hne. congruence. }
    cbn. intros s2 H2 s3 H3. eapply wp_mono; [|apply IH].
    2: { destruct (w_expired W ph (st_time s3)) eqn:E3; [by intros _|done]. }
    intros r l s' (Ht & n & Hn & Hl & Hr & Hexp & H0 & Hlast).
    split; [by do 3 (etrans; [eassumption|])|].
    exists (S n). cbn. subst l. split_and!; [lia|done|done|by intros ?; apply Hexp; lia| |].
    + intros He. eapply ticks_expired in He; [|exact H1]. unfold is_expired in He. congruence.
    + destruct Hlast as [Hi'|Hlast]; [|right; by rewrite last_cons, Hlast].
      destruct (w_expired W ph (st_time s3)) eqn:E3; [right|by left].
      by rewrite (H0 E3), Hi'.
Qed.

Lemma wp_drainHooks s :
  wp ticks (drainHooks W ph) (λ _ l s', st_saves s' = [] ∧ st_hooks s' = [] ∧
    ∃ n interrupted note, let items := drain_items W (st_saves s) (st_hooks s) in
      n ≤ length items ∧ l = (take n items).*2 ++ note ∧
      (interrupted = "" ∨ last (take n items).*1 = Some interrupted) ∧
      (note = [] ∧ n = length items ∨
       note = [ELog (-1) (w_Mask W (truncation_message W ph (truncationAttribution interrupted (drop n items).*1)))])) s.
Proof using Hmono.
  unfold drainHooks. intros s1 (_ & Hsv & Hhk). cbn [app]. rewrite Hsv, Hhk. apply wp_bind; [apply _|].
  eapply wp_mono; [|apply (wp_run_hooks _ "" []); by intros Hne].
  intros [i sk] l s2 (H2 & n & Hn & -> & Hr & Hexp & _ & Hlast). cbn in Hr, Hlast. subst sk.
  intros s3 H3. cbn [proc_bind]. destruct (w_expired W ph (st_time s3)) eqn:E3; cbn.
  - intros s4 H4 s5 H5. assert (ticks (with_hooks [] [] s1) s5) as (_ & Es & Eh) by
      (by do 4 (etrans; [eassumption|])). split; [by rewrite <-Es|]. split; [by rewrite <-Eh|].
    exists n, i, [ELog (-1) (w_Mask W (truncation_message W ph (truncationAttribution i (drop n (drain_items W (st_saves s1) (st_hooks s1))).*1)))].
    split_and!; [done|done|done|by right].
  - intros s4 H4. assert (ticks (with_hooks [] [] s1) s4) as (_ & Es & Eh) by
      (by do 3 (etrans; [eassumption|])). split; [by rewrite <-Es|]. split; [by rewrite <-Eh|].
    exists n, i, []. split_and!; [done|done|done|left; split; [done|]].
    destruct (le_lt_eq_dec _ _ Hn) as [Hlt|?]; [|done].
    apply Hexp in Hlt. eapply ticks_expired in Hlt; [|exact H3]. unfold is_expired in Hlt. congruence.
Qed.
End drain.

(** The drain of the cleanup hooks: the queued cache saves are made in the
    order they were registered, then the post hooks run, the last one first; the
    queues are empty afterwards; and when the cleanup budget runs out, what was
    executed is a prefix of that order, and the message in the run's log names
    exactly the hooks that never started (and the one that was interrupted, if
    any, is the last one started). *)
Theorem drain_in_order (W : World) (ph : string) (s s' : St) (es : list event)
    (Hmono : ∀ t t', t ≤ t' → w_expired W ph t = true → w_expired W ph t' = true)
    (H : mrun (R := option text) env s (lift (drainHooks W ph)) s' tt es) :
  let items := ((λ h, (sv_label h, ESave h)) <$> st_saves s) ++
               ((λ h, (hook_label W h, EPost h)) <$> reverse (st_hooks s)) in
  st_saves s' = [] ∧ st_hooks s' = [] ∧
  ∃ n interrupted note,
    n ≤ length items ∧ es = (take n items).*2 ++ note ∧
    (interrupted = "" ∨ last (take n items).*1 = Some interrupted) ∧
    (note = [] ∧ n = length items ∨
     note = [ELog (-1) (w_Mask W (truncation_message W ph (truncationAttribution interrupted (drop n items).*1)))]).
Proof.
  cbv zeta. pose proof (wp_drainHooks W ph Hmono s) as Hw.
  by eapply (mrun_lift env ticks) in H; [|apply env_ticks|exact Hw].
Qed.

Lemma drain_in_order_witness :
  let s := init_state sample_claim in
  let h n := MkHook (sample_step n "x" false) (MkPostStep "undo" ∅ None) None in
  let s := push_hook (h "b") (push_hook (h "a") (push_save (MkSave (sample_step "c" "x" false) "save c" "k" "/p" 30) s)) in
  let es := (run_main (lift (R := option text) (drainHooks sample_world "drain")) s).2 in
  es = [ESave (MkSave (sample_step "c" "x" false) "save c" "k" "/p" 30); EPost (h "b"); EPost (h "a")] ∧
  st_hooks (run_main (lift (R := option text) (drainHooks sample_world "drain")) s).1.1 = [].
Proof.
  intros s h s1 es. split; [reflexivity|].
  refine (proj1 (proj2 (drain_in_order sample_world "drain" s1 _ es _ (run_main_mrun env _ s1)))). done.
Defined.

(** ** Outputs *)

(** What a step leaves under a name. *)
Definition step_output (data : TemplateData) (name : string) (step : ClaimStep) : option output :=
  sd ← td_Steps data !! cl_Name step; os ← sd_Outputs sd; os !! name.

Lemma promote_output_spec W data stages acc name k :
  promote_output W data stages acc name !! k =
  if decide (k = name)
  then match last (omap (step_output data name) (stages ≫= StageSteps)) with
       | Some v => Some (OutputValueString W v)
       | None => acc !! k
       end
  else acc !! k.
Proof.
  unfold promote_output. fold (step_output data name).
  generalize (stages ≫= StageSteps). intros steps. induction steps as [|step steps IH] using rev_ind.
  { by destruct (decide (k = name)). }
  rewrite foldl_app, omap_app, last_app. cbn [foldl].
  change (match sd ← td_Steps data !! cl_Name step; os ← sd_Outputs sd; os !! name with
          | Some v => <[name:=OutputValueString W v]> (foldl _ acc steps) | None => foldl _ acc steps end)
    with (match step_output data name step with
          | Some v => <[name:=OutputValueString W v]>
              (foldl (λ acc0 step0, match step_output data name step0 with
                 | Some v => <[name:=OutputValueString W v]> acc0 | None => acc0 end) acc steps)
          | None => foldl (λ acc0 step0, match step_output data name step0 with
                 | Some v => <[name:=OutputValueString W v]> acc0 | None => acc0 end) acc steps end).
  cbn [omap list_omap]. destruct (step_output data name step) as [v|]; cbn; [|exact IH].
  destruct (decide (k = name)) as [->|Hne]; [by rewrite lookup_insert_eq|]. rewrite lookup_insert_ne by done. exact IH.
Qed.

Lemma promote_spec W c data stages acc k :
  promote W c data stages acc !! k =
  if decide (k ∈ c_JobOutputs c)
  then match last (omap (step_output data k) (stages ≫= StageSteps)) with
       | Some v => Some (OutputValueString W v)
       | None => acc !! k
       end
  else acc !! k.
Proof.
  unfold promote. revert acc. induction (c_JobOutputs c) as [|n names IH]; intros acc; [done|].
  cbn [foldl]. rewrite IH, promote_output_spec.
  destruct (decide (k = n)) as [<-|Hne].
  - rewrite (decide_True (P := k ∈ k :: names)) by (by left).
    destruct (decide (k ∈ names)); by destruct (last _).
  - destruct (decide (k ∈ names)) as [Hk|Hk].
    + rewrite decide_True by (by right). done.
    + rewrite decide_False; [done|]. by intros [?|?]%elem_of_cons.
Qed.

(** The outputs of the job: after the main and the finally steps, a declared
    output has the value left by the last step that has one, in the order the
    steps are declared (the finally steps after the main ones; a matrix step's
    copies together, as a JSON object), and nothing that is not declared is
    promoted. *)
Theorem promoted_last_wins (W : World) (c : ClaimResponse) (data : TemplateData) (k : string) :
  promote W c data (c_Finally c) (promote W c data (c_Stages c) ∅) !! k =
  if decide (k ∈ c_JobOutputs c)
  then OutputValueString W <$> last (omap (step_output data k) ((c_Stages c ++ c_Finally c) ≫= StageSteps))
  else None.
Proof.
  rewrite !promote_spec, lookup_empty, bind_app, omap_app, last_app.
  destruct (decide _); [|done]. destruct (last (omap _ (c_Finally c ≫= _))); [done|]. by destruct (last _).
Qed.

(** What may appear in a run: what a thread emits, and the end. *)
Definition run_event (W : World) (e : event) : Prop :=
  match e with EFinish _ => True | _ => thread_event W e end.

Lemma thread_run {R A} W (m : main St event R A) :
  main_keeps (flagged W) m → main_keeps (guarded (run_event W)) m.
Proof.
  intros Hm. eapply main_keeps_weaken; [|exact Hm]. intros s l s' [H1 H2 H3]. split; [done..|].
  eapply Forall_impl; [exact H3|]. by intros [].
Qed.

Lemma main_keeps_run_dag W c mode : main_keeps (guarded (run_event W)) (run_dag W c mode).
Proof.
  unfold run_dag.
  apply main_keeps_bind; [apply thread_run, main_keeps_RunPipeline; intros; auto with agent|intros err].
  do 3 (apply main_keeps_bind; [apply thread_run, main_keeps_lift; auto with agent|intros ?]). cbv zeta.
  apply main_keeps_bind; [apply thread_run, main_keeps_run_finally|intros []].
  do 2 (apply main_keeps_bind; [apply thread_run, main_keeps_lift; auto with agent|intros ?]).
  destruct (_ : bool); [done|].
  apply main_keeps_bind; [apply thread_run, main_keeps_lift; auto with agent|intros []].
  apply main_keeps_lift, keeps_emit. exact I.
Qed.

Definition outputs_safe (W : World) (e : event) : Prop :=
  match e with
  | ESetOutputs _ m | ERunOutputs m => m ≠ ∅ ∧ map_Forall (λ _ v, w_Detects W v = false) m
  | _ => True
  end.

(** No output that the masker takes for a secret leaves the agent: in every
    run of a claim, whatever the steps print and the children return, each set of
    outputs sent to the controller, of a step or of the run, is not empty and has
    only values in which no secret is detected. *)
Theorem published_outputs_safe (W : World) (c : ClaimResponse) (mode : ConcurrencyMode) (s s' : St)
    (es : list event) (H : mrun env s (RunClaim W c mode) s' tt es) :
  Forall (outputs_safe W) es.
Proof.
  assert (main_keeps (guarded (run_event W)) (RunClaim W c mode)) as Hk.
  { unfold RunClaim. destruct (c_SecretsNeeded c); [apply main_keeps_run_dag|].
    apply main_keeps_bind; [apply thread_run, main_keeps_lift; auto with agent|intros [secrets|e]].
    - apply main_keeps_bind; [|intros []; apply main_keeps_run_dag].
      apply thread_run, main_keeps_lift, keeps_modify. intros ?. apply neutral_with_data.
    - apply main_keeps_lift, keeps_bind; [by apply keeps_emit|intros _]. by apply keeps_emit. }
  apply mrun_keeps with (G := guarded (run_event W)) in H; [|apply _|apply env_guarded|done].
  destruct H as [_ _ He]. eapply Forall_impl; [exact He|]. by intros [].
Qed.

Lemma published_outputs_safe_witness :
  let m := RunClaim sample_world sample_claim Sequential in
  Forall (outputs_safe sample_world) (run_main m (init_state sample_claim)).2.
Proof.
  cbv zeta. eapply (published_outputs_safe sample_world sample_claim Sequential (init_state sample_claim)).
  pose proof (run_main_mrun env (RunClaim sample_world sample_claim Sequential) (init_state sample_claim)) as H.
  destruct (run_main _ _).1.2. exact H.
Defined.
