(* ===== verification/StoreRuns.v ===== *)
(** * internal/store: runs, their locks and their step reports

    The tables of the Postgres store that the life of a run goes through
    ([runs], [mutex_holders], [named_lock_slots], [agents], [step_reports]) and
    the store's operations on them ([postgres.go]), with the expansion of the
    lock and volume names ([dsl/template.go]).

    Each operation is one statement or one transaction of the source and is
    modelled as one atomic function on the tables: Postgres serializes them on
    the row locks and unique indexes the statements take.  A transaction that
    fails on a database error is rolled back and changes nothing, which
    [StoreLife] has as an idle step; rows locked by a concurrent transaction
    under [SKIP LOCKED] are the argument [locked].  Log lines are not modelled.

    A uuid is an [N] (compared as such); an instant is a [Z], 0 being Go's zero
    time.  A run's [spec] is [None] when its JSON does not parse. *)

From S2P Require Import Prelude GoStrings DslTypes DslSecurity DslMatrix.
From stdpp Require Import options.

(** ** The tables *)

Inductive RunStatus := RunPending | RunQueued | RunRunning | RunSucceeded | RunFailed | RunCancelled.
#[export] Instance RunStatus_eq_dec : EqDecision RunStatus.
Proof. solve_decision. Defined.

(** The set the guards call terminal: [IN ('Succeeded', 'Failed', 'Cancelled')]. *)
Definition terminal (s : RunStatus) : bool :=
  match s with RunSucceeded | RunFailed | RunCancelled => true | _ => false end.

Abbreviation runid := N (only parsing).

Record run := MkRun {
  r_job : string;
  r_status : RunStatus;
  r_params : gmap string string;
  r_spec : option Spec;
  r_selector : list string;
  r_caps : list string;
  r_volumes : list (list string); (* required_volumes *)
  r_detached : bool;
  r_claimed_by : option string;
  r_claimed_at : option Z;
  r_created : Z
}.

Record agent := MkAgent {
  a_labels : list string;
  a_caps : option (list string); (* NULL: never advertised *)
  a_volumes : list string;
  a_seen : Z
}.

(** The step statuses of the table's CHECK constraint are strings the agents
    send; [sr_child] is the run a [call:] step started. *)
Record report := MkReport {
  sr_stage : Z;
  sr_name : string;
  sr_status : string;
  sr_exit : option Z;
  sr_started : option Z;
  sr_ended : option Z;
  sr_child : option runid;
  sr_call_job : option string
}.

Record db := MkDb {
  d_runs : gmap runid run;
  d_mutexes : gmap string runid;             (* mutex_holders *)
  d_slots : gmap (string * Z) (option runid); (* named_lock_slots *)
  d_agents : gmap string agent;
  d_reports : gmap (runid * Z * string) report
}.

Definition db_empty : db := MkDb ∅ ∅ ∅ ∅ ∅.

Definition set_runs (f : gmap runid run → gmap runid run) (d : db) : db :=
  MkDb (f (d_runs d)) (d_mutexes d) (d_slots d) (d_agents d) (d_reports d).
Definition set_locks (m : gmap string runid) (s : gmap (string * Z) (option runid)) (d : db) : db :=
  MkDb (d_runs d) m s (d_agents d) (d_reports d).
Definition set_agents (a : gmap string agent) (d : db) : db :=
  MkDb (d_runs d) (d_mutexes d) (d_slots d) a (d_reports d).
Definition set_reports (f : gmap (runid * Z * string) report → gmap (runid * Z * string) report) (d : db) : db :=
  MkDb (d_runs d) (d_mutexes d) (d_slots d) (d_agents d) (f (d_reports d)).

Definition with_status (s : RunStatus) (r : run) : run :=
  MkRun (r_job r) s (r_params r) (r_spec r) (r_selector r) (r_caps r) (r_volumes r) (r_detached r)
    (r_claimed_by r) (r_claimed_at r) (r_created r).
Definition with_claim (by_ : option string) (at_ : option Z) (s : RunStatus) (r : run) : run :=
  MkRun (r_job r) s (r_params r) (r_spec r) (r_selector r) (r_caps r) (r_volumes r) (r_detached r)
    by_ at_ (r_created r).

Definition status_of (d : db) (id : runid) : option RunStatus := r_status <$> d_runs d !! id.

(** ** Creating runs and storing resolved specs *)

(** [CreateRun]: the inserted row, and the insertion under a generated id. *)
Definition new_run (jobName : string) (params : gmap string string) (spec : option Spec)
    (agentSelector requiredCaps : list string) (now : Z) : run :=
  MkRun jobName RunPending params spec agentSelector requiredCaps []
    (match spec with Some s => sp_Detached s | None => false end) None None now.

Definition CreateRun (id : runid) (jobName : string) (params : gmap string string) (spec : option Spec)
    (agentSelector requiredCaps : list string) (now : Z) (d : db) : db :=
  set_runs <[id := new_run jobName params spec agentSelector requiredCaps now]> d.

(** [UpdateRunSpec]; [caps] is [dsl.RequiredCaps]. *)
Definition UpdateRunSpec (caps : Spec → list string) (id : runid) (spec : option Spec) (d : db) : res db :=
  match spec with
  | None => Err [Lit "update run spec: parse spec to derive required capabilities"]
  | Some s =>
      Ok (set_runs (alter (λ r,
            if bool_decide (r_status r = RunPending)
            then MkRun (r_job r) (r_status r) (r_params r) (Some s) (r_selector r) (caps s) (r_volumes r)
                   (r_detached r) (r_claimed_by r) (r_claimed_at r) (r_created r)
            else r) id) d)
  end.

(** ** Finishing a run *)

(** [finishRunFrom]: a compare-and-set on the status; the locks are released
    only when it matched. *)
Definition release_mutexes (id : runid) (m : gmap string runid) : gmap string runid :=
  filter (λ kv, kv.2 ≠ id) m.
Definition release_slots (id : runid) (s : gmap (string * Z) (option runid)) : gmap (string * Z) (option runid) :=
  (λ o, if bool_decide (o = Some id) then None else o) <$> s.

Definition finishRunFrom (id : runid) (expected : option RunStatus) (status : RunStatus) (d : db)
  : res (bool * db) :=
  if negb (terminal status) then Err [Lit "invalid terminal status"]
  else
    match d_runs d !! id with
    | Some r =>
        if negb (terminal (r_status r)) && match expected with None => true | Some e => bool_decide (r_status r = e) end
        then Ok (true, set_locks (release_mutexes id (d_mutexes d)) (release_slots id (d_slots d))
                         (set_runs <[id := with_status status r]> d))
        else Ok (false, d)
    | None => Ok (false, d)
    end.

Definition FinishRun (id : runid) (status : RunStatus) (d : db) : res (bool * db) :=
  finishRunFrom id None status d.

(** An empty [expected] is the [None] here. *)
Definition FinishRunIfStatus (id : runid) (expected : option RunStatus) (status : RunStatus) (d : db)
  : res (bool * db) :=
  match expected with
  | None => Err [Lit "expected status must not be empty"]
  | Some _ => finishRunFrom id expected status d
  end.

Definition MarkRunFinished (id : runid) (status : RunStatus) (d : db) : res db := snd <$> FinishRun id status d.

(** [DeleteRun]: [mutex_holders] and [step_reports] are [ON DELETE CASCADE],
    [named_lock_slots] is [ON DELETE SET NULL]. *)
Definition DeleteRun (id : runid) (d : db) : db :=
  if bool_decide (is_Some (d_runs d !! id))
  then set_reports (filter (λ kv, kv.1.1.1 ≠ id))
         (set_locks (release_mutexes id (d_mutexes d)) (release_slots id (d_slots d)) (set_runs (delete id) d))
  else d.

(** ** Queueing a run *)

Section queue.
(** [ExpandTemplate], and [json.Unmarshal] into a [[]string]. *)
Variables (ExpandTemplate : string → TemplateData → res string)
          (json_strings : string → option (list string)).

Definition params_only (params : gmap string string) : TemplateData := MkTemplateData params ∅ ∅ "" ∅ ∅ ∅.

(** [imap_res f l]: [for i, x := range l { out[i], err = f(i, x) }]. *)
Fixpoint imap_res {A B} (i : nat) (f : nat → A → res B) (l : list A) : res (list B) :=
  match l with
  | [] => Ok []
  | x :: l' => y ← f i x; ys ← imap_res (S i) f l'; Ok (y :: ys)
  end.

Definition ExpandConcurrency (c : option Concurrency) (params : gmap string string) : res (option Concurrency) :=
  match c with
  | None => Ok None
  | Some c =>
      mutex ← (if (co_Mutex c =? "")%string then Ok ""
               else wrap [Lit "concurrency.mutex: "] (ExpandTemplate (co_Mutex c) (params_only params)));
      sems ← imap_res 0 (λ i nl,
               v ← wrap [Lit "concurrency.semaphores["; Lit (pretty i); Lit "].pool: "]
                     (ExpandTemplate (sm_Pool nl) (params_only params));
               Ok (MkSemaphore v (sm_Capacity nl))) (co_Semaphores c);
      ors ← imap_res 0 (λ i ol,
               candidates ← wrap [Lit "concurrency.orLocks["; Lit (pretty i); Lit "].in: "]
                     (EvalForeachSource ExpandTemplate json_strings (ol_In ol) (params_only params));
               Ok (MkOrLock (ol_Name ol) (MkForeachSource candidates ""))) (co_OrLocks c);
      Ok (Some (MkConcurrency mutex sems ors))
  end.

Definition ExpandVolumes (vs : list VolumeMount) (params : gmap string string) : res (list VolumeMount) :=
  imap_res 0 (λ i v,
    names ← imap_res 0 (λ j n,
      wrap [Lit "volumes["; Lit (pretty i); Lit "].name["; Lit (pretty j); Lit "]: "]
        (ExpandTemplate n (params_only params))) (vm_Name v);
    Ok (MkVolumeMount names (vm_As v) (vm_MountPath v))) vs.

Definition expandVolumesNonEmpty (vs : list VolumeMount) (params : gmap string string) : res (list VolumeMount) :=
  out ← ExpandVolumes vs params;
  _ ← each (λ i v, each (λ j n,
        fail_if (n =? "")%string
          [Lit "volumes["; Lit (pretty i); Lit "].name["; Lit (pretty j); Lit "]: expands to an empty string"])
        (vm_Name v)) out;
  Ok out.

(** *** The locks of one run *)

(** [INSERT INTO mutex_holders], whose unique violation means another holder. *)
Definition insert_mutex (name : string) (id : runid) (m : gmap string runid) : option (gmap string runid) :=
  match m !! name with Some _ => None | None => Some (<[name := id]> m) end.

(** [INSERT INTO named_lock_slots ... generate_series(1, $2) ON CONFLICT DO NOTHING] *)
Definition create_slots (pool : string) (capacity : Z) (s : gmap (string * Z) (option runid))
  : gmap (string * Z) (option runid) :=
  s ∪ list_to_map ((λ i, ((pool, i), None)) <$> seqZ 1 capacity).

(** [ORDER BY slot_id LIMIT 1 FOR UPDATE SKIP LOCKED] over the pool's free slots. *)
Definition free_slots (locked : string * Z → bool) (pool : string) (s : gmap (string * Z) (option runid)) : list Z :=
  merge_sort Z.le (omap (λ kv, if bool_decide (kv.1.1 = pool ∧ kv.2 = None) && negb (locked kv.1)
                               then Some kv.1.2 else None) (map_to_list s)).

Definition acquire_slot (locked : string * Z → bool) (id : runid) (s : gmap (string * Z) (option runid))
    (nl : Semaphore) : option (gmap (string * Z) (option runid)) :=
  let s := create_slots (sm_Pool nl) (sm_Capacity nl) s in
  match free_slots locked (sm_Pool nl) s with
  | [] => None
  | i :: _ => Some (<[(sm_Pool nl, i) := Some id]> s)
  end.

(** The candidates of an or-lock in order, up to the first that is acquired. *)
Fixpoint first_candidate (cands : list string) (id : runid) (m : gmap string runid)
  : option (string * gmap string runid) :=
  match cands with
  | [] => None
  | c :: cands' =>
      match insert_mutex c id m with
      | Some m' => Some (c, m')
      | None => first_candidate cands' id m
      end
  end.

Definition lock_value_key (ol : OrLock) : string := ToUpper (ol_Name ol) +:+ "_LOCK_VALUE".

(** One iteration of the or-lock loop; an acquired candidate that is the empty
    string reads as none acquired. *)
Definition acquire_or (id : runid) (st : gmap string runid * gmap string string) (ol : OrLock)
  : option (gmap string runid * gmap string string) :=
  match first_candidate (fs_Literal (ol_In ol)) id st.1 with
  | Some (c, m) => if (c =? "")%string then None else Some (m, <[lock_value_key ol := c]> st.2)
  | None => None
  end.

Fixpoint fold_opt {A S} (f : S → A → option S) (s : S) (l : list A) : option S :=
  match l with [] => Some s | x :: l' => s' ← f s x; fold_opt f s' l' end.

Record acquired := MkAcquired {
  aq_mutexes : gmap string runid;
  aq_slots : gmap (string * Z) (option runid);
  aq_values : gmap string string (* orLockValues *)
}.

Definition acquire_locks (locked : string * Z → bool) (id : runid) (c : option Concurrency) (d : db)
  : option acquired :=
  match c with
  | None => Some (MkAcquired (d_mutexes d) (d_slots d) ∅)
  | Some c =>
      m ← (if (co_Mutex c =? "")%string then Some (d_mutexes d) else insert_mutex (co_Mutex c) id (d_mutexes d));
      s ← fold_opt (acquire_slot locked id) (d_slots d) (co_Semaphores c);
      mv ← fold_opt (acquire_or id) (m, ∅) (co_OrLocks c);
      Some (MkAcquired mv.1 s mv.2)
  end.

(** *** [tryQueueRun] *)

Definition Spec_zero : Spec :=
  MkSpec (MkParams [] []) None [] [] [] None false false false None [] "" ∅.

Definition git_uses (e : StepEntry) : bool :=
  match s_Uses (e_Step e) with Some u => HasPrefix (us_Job u) "git://" | None => false end.

Definition with_volumes (vs : list VolumeMount) (s : Spec) : Spec :=
  MkSpec (sp_Params s) (sp_Concurrency s) (sp_AgentSelector s) (sp_Steps s) (sp_Finally s) (sp_PodTemplate s)
    (sp_Native s) (sp_CleanWorkspace s) (sp_Detached s) (sp_Shell s) vs (sp_DisplayName s) (sp_Vars s).

(** An or-lock variable that is already a parameter. *)
Definition conflicts (values params : gmap string string) : bool :=
  existsb (λ kv, bool_decide (is_Some (params !! kv.1))) (map_to_list values).

(** What the transaction decides for a Pending run, from the spec and the
    parameters its caller read: leave it, fail it, or queue it holding locks. *)
Inductive queue_decision :=
| Leave
| FailIt
| QueueIt (c : option Concurrency) (aq : acquired) (volumes : list (list string)).

Definition decide_queue (locked : string * Z → bool) (id : runid) (spec : option Spec)
    (params : gmap string string) (d : db) : queue_decision :=
  let spec := default Spec_zero spec in
  if existsb git_uses (sp_Steps spec) then Leave
  else
    match ExpandConcurrency (sp_Concurrency spec) params with
    | Err _ => FailIt
    | Ok c =>
        match expandVolumesNonEmpty (sp_Volumes spec) params with
        | Err _ => FailIt
        | Ok vs =>
            match acquire_locks locked id c d with
            | None => Leave
            | Some aq =>
                if conflicts (aq_values aq) params then FailIt
                else QueueIt c aq (RequiredVolumes (with_volumes vs spec))
            end
        end
    end.

Definition queued_run (values : gmap string string) (volumes : list (list string)) (r : run) : run :=
  MkRun (r_job r) RunQueued (values ∪ r_params r) (r_spec r) (r_selector r) (r_caps r) volumes (r_detached r)
    (r_claimed_by r) (r_claimed_at r) (r_created r).

(** A failed [MarkRunFinished] after the rollback is only logged. *)
Definition fail_run (id : runid) (d : db) : db :=
  match MarkRunFinished id RunFailed d with Ok d' => d' | Err _ => d end.

Definition tryQueueRun (locked : string * Z → bool) (id : runid) (spec : option Spec)
    (params : gmap string string) (d : db) : bool * db :=
  match d_runs d !! id with
  | None => (false, d)
  | Some r =>
      if bool_decide (r_status r ≠ RunPending) then (false, d)
      else
        match decide_queue locked id spec params d with
        | Leave => (false, d)
        | FailIt => (false, fail_run id d)
        | QueueIt _ aq vols =>
            (true, set_locks (aq_mutexes aq) (aq_slots aq)
                     (set_runs <[id := queued_run (aq_values aq) vols r]> d))
        end
  end.

(** *** [TransitionPendingToQueuedFrom] *)

Record PendingCursor := MkPendingCursor { pc_CreatedAt : Z; pc_ID : runid }.

(** [(created_at, id) > (t, i)], and its reflexive closure. *)
Definition after_cursor (c : Z * runid) (x : Z * runid) : Prop :=
  (c.1 < x.1)%Z ∨ c.1 = x.1 ∧ (c.2 < x.2)%N.
Definition row_key (x : runid * run) : Z * runid := (r_created x.2, x.1).
Definition row_le (x y : runid * run) : Prop := ¬ after_cursor (row_key y) (row_key x).

#[export] Instance after_cursor_dec c x : Decision (after_cursor c x).
Proof. unfold after_cursor. apply _. Defined.
#[export] Instance row_le_dec x y : Decision (row_le x y).
Proof. unfold row_le. apply _. Defined.

Definition pending_rows (d : db) : list (runid * run) :=
  merge_sort row_le (filter (λ x, r_status x.2 = RunPending) (map_to_list (d_runs d))).

(** [nullableTime]: a zero time in the cursor means no cursor. *)
Definition cursor_key (after : option PendingCursor) : option (Z * runid) :=
  match after with
  | None => None
  | Some c => if (pc_CreatedAt c =? 0)%Z then None else Some (pc_CreatedAt c, pc_ID c)
  end.

Definition candidates (limit : nat) (after : option PendingCursor) (d : db) : list (runid * run) :=
  take limit (match cursor_key after with
              | None => pending_rows d
              | Some c => filter (λ x, after_cursor c (row_key x)) (pending_rows d)
              end).

Definition next_cursor (limit : nat) (cs : list (runid * run)) : option PendingCursor :=
  match last cs with
  | Some (id, r) =>
      if bool_decide (length cs = limit ∧ 0 < limit) then Some (MkPendingCursor (r_created r) id) else None
  | None => None
  end.

Fixpoint queue_all (locked : string * Z → bool) (cs : list (runid * run)) (d : db) : nat * db :=
  match cs with
  | [] => (0, d)
  | (id, r) :: cs' =>
      let '(queued, d1) := tryQueueRun locked id (r_spec r) (r_params r) d in
      let '(n, d2) := queue_all locked cs' d1 in
      ((if queued : bool then S n else n), d2)
  end.

Definition TransitionPendingToQueuedFrom (locked : string * Z → bool) (limit : nat)
    (after : option PendingCursor) (d : db) : nat * option PendingCursor * db :=
  let cs := candidates limit after d in
  let '(n, d') := queue_all locked cs d in
  (n, next_cursor limit cs, d').
End queue.

(** ** Claiming *)

Section claim.
(** The order in which the database visits the rows of a table: ties under
    [ORDER BY created_at] are broken by it. *)
Variable visit : gmap runid run → list (runid * run).

Definition covers (required available : list string) : bool := forallb (λ x, bool_decide (x ∈ available)) required.

(** The [NOT EXISTS] clause: every required volume has a candidate that the
    agent advertises and has not lent out. *)
Definition volumes_free (required : list (list string)) (volumes busy : list string) : bool :=
  forallb (λ cands, existsb (λ n, bool_decide (n ∈ volumes) && negb (bool_decide (n ∈ busy))) cands) required.

Definition claimable (d : db) (agentID : string) (labels busy : list string) (detached : bool) (r : run) : bool :=
  let a := d_agents d !! agentID in
  bool_decide (r_status r = RunQueued)
  && Bool.eqb (r_detached r) detached
  && covers (r_selector r) labels
  && covers (r_caps r) (default LegacyAgentCapabilities (a ≫= a_caps))
  && volumes_free (r_volumes r) (default [] (a_volumes <$> a)) busy.

(** [ORDER BY created_at LIMIT 1] *)
Fixpoint oldest (l : list (runid * run)) : option (runid * run) :=
  match l with
  | [] => None
  | x :: l' =>
      match oldest l' with
      | Some y => Some (if bool_decide (r_created y.2 < r_created x.2)%Z then y else x)
      | None => Some x
      end
  end.

Definition claimNextRun (locked : runid → bool) (agentID : string) (labels busy : list string)
    (detached : bool) (now : Z) (d : db) : option (runid * run) * db :=
  match oldest (filter (λ x, claimable d agentID labels busy detached x.2 = true ∧ locked x.1 = false)
                  (visit (d_runs d))) with
  | None => (None, d)
  | Some (id, r) =>
      let r' := with_claim (Some agentID) (Some now) RunRunning r in
      (Some (id, r'), set_runs <[id := r']> d)
  end.

Definition ClaimNextRun (locked : runid → bool) (agentID : string) (labels busy : list string) (now : Z) (d : db) :=
  claimNextRun locked agentID labels busy false now d.

Definition ClaimNextRunDetached (locked : runid → bool) (agentID : string) (labels : list string) (now : Z) (d : db) :=
  claimNextRun locked agentID labels [] true now d.
End claim.

Definition RequeueClaimedRun (id : runid) (agentID : string) (d : db) : bool * db :=
  match d_runs d !! id with
  | Some r =>
      if bool_decide (r_status r = RunRunning ∧ r_claimed_by r = Some agentID)
      then (true, set_runs <[id := with_claim None None RunQueued r]> d) else (false, d)
  | None => (false, d)
  end.

Definition MarkRunRunning (id : runid) (d : db) : db :=
  set_runs (alter (λ r, if terminal (r_status r) then r else with_status RunRunning r) id) d.

(** ** Step reports *)

Inductive report_error := ErrRunNotFound | ErrRunFinalized.

Definition or_else {A} (new old : option A) : option A := match new with Some _ => new | None => old end.

Definition merge_report (new old : report) : report :=
  MkReport (sr_stage new) (sr_name new) (sr_status new)
    (or_else (sr_exit new) (sr_exit old)) (or_else (sr_started new) (sr_started old))
    (or_else (sr_ended new) (sr_ended old)) (or_else (sr_child new) (sr_child old))
    (or_else (sr_call_job new) (sr_call_job old)).

Definition UpsertStepReport (id : runid) (stepIndex : Z) (variant : string) (new : report) (d : db)
  : report_error + db :=
  match d_runs d !! id with
  | None => inl ErrRunNotFound
  | Some r =>
      if terminal (r_status r) then inl ErrRunFinalized
      else inr (set_reports (partial_alter (λ old, Some (match old with
                                                         | None => new
                                                         | Some o => merge_report new o
                                                         end)) (id, stepIndex, variant)) d)
  end.

Definition interrupt (now : Z) (sr : report) : report :=
  MkReport (sr_stage sr) (sr_name sr) "Failed" (sr_exit sr) (sr_started sr) (or_else (sr_ended sr) (Some now))
    (sr_child sr) (sr_call_job sr).

Definition MarkRunStepsInterrupted (id : runid) (now : Z) (d : db) : db :=
  set_reports (map_imap (λ k sr, Some (if bool_decide (k.1.1 = id ∧ sr_status sr = "Running")
                                       then interrupt now sr else sr))) d.

(** The runs started by the [call:] steps of a run, in the order of [visit]. *)
Definition ListChildRunIDs (visit : gmap (runid * Z * string) report → list ((runid * Z * string) * report))
    (parent : runid) (d : db) : list runid :=
  omap (λ kv, if bool_decide (kv.1.1.1 = parent) then sr_child kv.2 else None) (visit (d_reports d)).

(** ** What the reapers list *)

Record StuckRunRef := MkStuckRunRef { sk_ID : runid; sk_AgentMissing : bool }.

Definition stuck (d : db) (now staleAfter grace : Z) (x : runid * run) : option StuckRunRef :=
  let a := r_claimed_by x.2 ≫= λ by_, d_agents d !! by_ in
  match r_claimed_at x.2 with
  | None => None
  | Some at_ =>
      if bool_decide (r_status x.2 = RunRunning) && (at_ <? now - grace)%Z
         && match a with None => true | Some a => (a_seen a <? now - staleAfter)%Z end
      then Some (MkStuckRunRef x.1 (bool_decide (a = None))) else None
  end.

Definition ListStuckRuns (visit : gmap runid run → list (runid * run)) (now staleAfter grace : Z) (d : db)
  : list StuckRunRef := omap (stuck d now staleAfter grace) (visit (d_runs d)).

(** A run no agent seen since [now - staleAfter] has the labels for. *)
Definition unclaimable (d : db) (now minAge staleAfter : Z) (r : run) : bool :=
  bool_decide (r_status r = RunQueued) && (r_created r <? now - minAge)%Z
  && negb (existsb (λ a, (now - staleAfter <=? a_seen a.2)%Z && covers (r_selector r) (a_labels a.2))
             (map_to_list (d_agents d))).

Definition created_le (x y : runid * run) : Prop := (r_created x.2 ≤ r_created y.2)%Z.
#[export] Instance created_le_dec x y : Decision (created_le x y).
Proof. unfold created_le. apply _. Defined.

(** [limit ≤ 0] is unbounded. *)
Definition ListUnclaimableQueuedRuns (visit : gmap runid run → list (runid * run))
    (now minAge staleAfter : Z) (limit : Z) (d : db) : list (runid * list string) :=
  let rows := merge_sort created_le (filter (λ x, unclaimable d now minAge staleAfter x.2 = true) (visit (d_runs d))) in
  (λ x, (x.1, r_selector x.2)) <$> (if (0 <? limit)%Z then take (Z.to_nat limit) rows else rows).
