(* ===== verification/StoreLocks.v ===== *)
(** * internal/store: what queueing and finishing do to the locks

    The facts on the lock tables that [StoreLife] builds on: what a transaction
    that queues a run acquires, and what a finished run gives back. *)

From S2P Require Import Prelude GoStrings DslTypes DslMatrix StoreRuns.
From stdpp Require Import options.

Abbreviation mutexes := (gmap string runid).
Abbreviation slots := (gmap (string * Z) (option runid)).

(** ** Growing lock tables *)

(** [m'] is [m] with more names held, by [id]. *)
Definition took (id : runid) (m m' : mutexes) : Prop :=
  m ⊆ m' ∧ ∀ x j, m' !! x = Some j → m !! x = Some j ∨ j = id ∧ m !! x = None.

(** [s'] is [s] with more slots, some free ones and new ones being held by [id]. *)
Definition took_slots (id : runid) (s s' : slots) : Prop :=
  (∀ k j, s !! k = Some (Some j) → s' !! k = Some (Some j)) ∧
  (∀ k j, s' !! k = Some (Some j) → s !! k = Some (Some j) ∨ j = id ∧ s !! k ≠ Some (Some id)).

Lemma took_refl id m : took id m m.
Proof. split; [done|]. eauto. Qed.

Lemma took_trans id m1 m2 m3 : took id m1 m2 → took id m2 m3 → took id m1 m3.
Proof.
  intros [S1 H1] [S2 H2]. split; [by transitivity m2|].
  intros x j [Hx|[-> Hx]]%H2; [by apply H1|]. right. split; [done|].
  destruct (m1 !! x) eqn:E; [|done]. by rewrite (lookup_weaken _ _ _ _ E S1) in Hx.
Qed.

Lemma took_insert id x m : m !! x = None → took id m (<[x := id]> m).
Proof.
  intros Hx. split; [by apply insert_subseteq|]. intros y j.
  rewrite lookup_insert_Some. intros [[-> <-]|[? ?]]; auto.
Qed.

Lemma took_slots_refl id s : took_slots id s s.
Proof. split; eauto. Qed.

Lemma took_slots_trans id s1 s2 s3 : took_slots id s1 s2 → took_slots id s2 s3 → took_slots id s1 s3.
Proof.
  intros [S1 H1] [S2 H2]. split; [eauto|]. intros k j [Hk|[-> Hk]]%H2; [by apply H1|].
  right. split; [done|]. intros E. apply Hk, S1, E.
Qed.

#[export] Hint Resolve took_refl took_slots_refl : ucd.
Hint Resolve took_insert : ucd.

Lemma insert_mutex_ok x id m m' : insert_mutex x id m = Some m' ↔ m !! x = None ∧ m' = <[x := id]> m.
Proof. unfold insert_mutex. case_match; naive_solver. Qed.

(** ** One semaphore *)

Lemma create_slots_lookup pool cap s k o :
  create_slots pool cap s !! k = Some o →
  s !! k = Some o ∨ s !! k = None ∧ o = None ∧ k.1 = pool ∧ (1 ≤ k.2 ≤ cap)%Z.
Proof.
  unfold create_slots. intros [?|[? H]]%lookup_union_Some_raw; [auto|].
  apply elem_of_list_to_map_2, list_elem_of_fmap in H as (i & [= -> ->] & Hi%elem_of_seqZ).
  right. split_and!; simpl; [done..|lia|lia].
Qed.

Lemma free_slots_elem locked pool s i :
  i ∈ free_slots locked pool s ↔ s !! (pool, i) = Some None ∧ locked (pool, i) = false.
Proof.
  unfold free_slots. rewrite merge_sort_Permutation, list_elem_of_omap. split.
  - intros ([[p j] o] & Hk & H). destruct (bool_decide _ && _) eqn:E; simplify_eq/=. reflect.
    destruct_and!; subst. by apply elem_of_map_to_list in Hk.
  - intros [Hs Hl]. exists ((pool, i), None). rewrite elem_of_map_to_list. split; [done|].
    rewrite bool_decide_true by done. simpl. by rewrite Hl.
Qed.

Lemma acquire_slot_ok locked id s nl s' :
  acquire_slot locked id s nl = Some s' →
  took_slots id s s'
  ∧ (∃ i, s' !! (sm_Pool nl, i) = Some (Some id) ∧ s !! (sm_Pool nl, i) ≠ Some (Some id))
  ∧ (∀ p i o, s' !! (p, i) = Some o → is_Some (s !! (p, i)) ∨ p = sm_Pool nl ∧ (1 ≤ i ≤ sm_Capacity nl)%Z).
Proof.
  unfold acquire_slot. destruct (free_slots _ _ _) as [|i l] eqn:E; [done|]. intros [= <-].
  assert (i ∈ free_slots locked (sm_Pool nl) (create_slots (sm_Pool nl) (sm_Capacity nl) s)) as Hi
    by (rewrite E; left).
  apply free_slots_elem in Hi as [Hi _]. apply create_slots_lookup in Hi as Hfree. simpl in Hfree.
  split; [split|split].
  - intros k j Hk. rewrite lookup_insert_ne; [by apply lookup_union_Some_l|].
    intros <-. naive_solver.
  - intros k j. rewrite lookup_insert_Some. intros [[<- [= <-]]|[_ Hk]].
    + right. split; [done|]. naive_solver.
    + apply create_slots_lookup in Hk. naive_solver.
  - exists i. rewrite lookup_insert_eq. split; [done|]. naive_solver.
  - intros p j o. rewrite lookup_insert_Some. intros [[[= <- <-] _]|[_ Hk]].
    + destruct Hfree as [->|(_ & _ & _ & ?)]; [by left; eexists|right; done].
    + apply create_slots_lookup in Hk as [->|(_ & _ & ? & ?)]; [by left; eexists|right; done].
Qed.

(** ** Loops of acquisitions *)

(** An invariant of the steps that succeed, with what each establishes for its
    element kept to the end. *)
Lemma fold_opt_ok {A S} (f : S → A → option S) (R : S → S → Prop) (Q : A → S → Prop) l s s' :
  (∀ s, R s s) → (∀ s1 s2 s3, R s1 s2 → R s2 s3 → R s1 s3) →
  (∀ x s1 s2, Q x s1 → R s1 s2 → Q x s2) →
  (∀ s1 x s2, x ∈ l → f s1 x = Some s2 → R s1 s2 ∧ Q x s2) →
  fold_opt f s l = Some s' → R s s' ∧ ∀ x, x ∈ l → Q x s'.
Proof.
  intros Hrefl Htrans Hkeep. revert s. induction l as [|x l IH]; intros s Hf; simpl.
  - intros [= <-]. split; [apply Hrefl|]. by intros ? ?%elem_of_nil.
  - intros (s1 & Hs1 & Hrec)%bind_Some. apply Hf in Hs1 as [HR HQ]; [|left].
    apply IH in Hrec as [HR' HQ']; [|by intros; apply Hf; [right|]].
    split; [by eapply Htrans|]. intros y [->|Hy]%elem_of_cons; [by eapply Hkeep|by apply HQ'].
Qed.

Definition holds_slot (id : runid) (nl : Semaphore) (s : slots) : Prop :=
  ∃ i, s !! (sm_Pool nl, i) = Some (Some id).

Definition slot_bound (sems : list Semaphore) (k : string * Z) : Prop :=
  ∃ nl, nl ∈ sems ∧ k.1 = sm_Pool nl ∧ (1 ≤ k.2 ≤ sm_Capacity nl)%Z.

Lemma acquire_slots_ok locked id sems s s' :
  fold_opt (acquire_slot locked id) s sems = Some s' →
  took_slots id s s' ∧ (∀ nl, nl ∈ sems → holds_slot id nl s')
  ∧ (∀ k o, s' !! k = Some o → is_Some (s !! k) ∨ slot_bound sems k).
Proof.
  intros H. apply (fold_opt_ok _
    (λ s1 s2, took_slots id s1 s2 ∧ ∀ k o, s2 !! k = Some o → is_Some (s1 !! k) ∨ slot_bound sems k)
    (holds_slot id)) in H as [[? ?] ?].
  - done.
  - intros. split; [apply took_slots_refl|]. eauto.
  - intros s1 s2 s3 [T1 B1] [T2 B2]. split; [by eapply took_slots_trans|].
    intros k o [[o' Ho']|?]%B2; [by eapply B1|by right].
  - intros nl s1 s2 [i Hi] [[T _] _]. exists i. by apply T.
  - intros s1 nl s2 Hnl (T & (i & Hi & _) & B)%acquire_slot_ok. split; [split; [done|]|by exists i].
    intros [p j] o [?|[-> ?]]%B; [by left|]. right. by exists nl.
Qed.

(** ** The or-locks *)

Lemma first_candidate_ok cands id m c m' :
  first_candidate cands id m = Some (c, m') →
  c ∈ cands ∧ m !! c = None ∧ m' = <[c := id]> m.
Proof.
  induction cands as [|c' cands IH]; simpl; [done|].
  destruct (insert_mutex c' id m) eqn:E.
  - intros [= -> <-]. apply insert_mutex_ok in E as [? ->]. split; [left|done].
  - intros (? & ? & ?)%IH. split; [by right|done].
Qed.

Definition holds_or (id : runid) (ol : OrLock) (m : mutexes) (values : gmap string string) : Prop :=
  (∃ c, c ∈ fs_Literal (ol_In ol) ∧ m !! c = Some id) ∧ is_Some (values !! lock_value_key ol).

Lemma acquire_ors_ok id ors m v m' v' :
  (∀ k c, v !! k = Some c → m !! c = Some id) →
  fold_opt (acquire_or id) (m, v) ors = Some (m', v') →
  took id m m' ∧ (∀ k c, v' !! k = Some c → m' !! c = Some id) ∧ ∀ ol, ol ∈ ors → holds_or id ol m' v'.
Proof.
  intros Hv H. apply (fold_opt_ok _
    (λ st1 st2, took id st1.1 st2.1 ∧ (∀ k, is_Some (st1.2 !! k) → is_Some (st2.2 !! k)) ∧
       ((∀ k c, st1.2 !! k = Some c → st1.1 !! c = Some id) → ∀ k c, st2.2 !! k = Some c → st2.1 !! c = Some id))
    (λ ol st, holds_or id ol st.1 st.2)) in H as [(? & ? & Hkept) ?].
  - split; [done|]. split; [by apply Hkept|done].
  - intros. split; [apply took_refl|]. eauto.
  - intros s1 s2 s3 (? & K1 & L1) (? & K2 & L2). split; [by eapply took_trans|].
    split; [intros k Hk; by apply K2, K1|intros Hh; by apply L2, L1].
  - intros ol s1 s2 [(c & ? & Hc) ?] ([S _] & ? & _). split; [|eauto].
    exists c. split; [done|]. by eapply lookup_weaken.
  - intros [m1 v1] ol st2 _ Hacq. unfold acquire_or in Hacq. simpl in Hacq.
    destruct (first_candidate _ _ _) as [[c m2]|] eqn:E; [|done].
    apply first_candidate_ok in E as (Hc & Hfree & ->). case_match; [done|]. injection Hacq as <-. simpl.
    split_and!; [by apply took_insert| | |split].
    + intros k Hk. destruct (decide (lock_value_key ol = k)) as [<-|]; simplify_map_eq; eauto.
    + intros Hh k c'. rewrite lookup_insert_Some. intros [[_ <-]|[_ Hk]]; [by rewrite lookup_insert_eq|].
      apply Hh in Hk. rewrite lookup_insert_ne; [done|]. congruence.
    + exists c. by rewrite lookup_insert_eq.
    + rewrite lookup_insert_eq. eauto.
Qed.

(** ** All the locks of a run *)

Definition no_locks : Concurrency := MkConcurrency "" [] [].

(** What a run that was queued with the configuration [c] holds. *)
Record holds (id : runid) (c : Concurrency) (m : mutexes) (s : slots) (values : gmap string string) : Prop := {
  holds_mutex : co_Mutex c ≠ "" → m !! co_Mutex c = Some id;
  holds_sems : ∀ nl, nl ∈ co_Semaphores c → holds_slot id nl s;
  holds_ors : ∀ ol, ol ∈ co_OrLocks c → holds_or id ol m values
}.

Lemma acquire_locks_ok locked id c d aq :
  acquire_locks locked id c d = Some aq →
  let c := default no_locks c in
  took id (d_mutexes d) (aq_mutexes aq) ∧ took_slots id (d_slots d) (aq_slots aq)
  ∧ holds id c (aq_mutexes aq) (aq_slots aq) (aq_values aq)
  ∧ (∀ k v, aq_values aq !! k = Some v → aq_mutexes aq !! v = Some id)
  ∧ (∀ k o, aq_slots aq !! k = Some o → is_Some (d_slots d !! k) ∨ slot_bound (co_Semaphores c) k).
Proof.
  destruct c as [c|]; simpl.
  - intros (m & Hm & (s & Hs & ([m' v] & Ho & [= <-])%bind_Some)%bind_Some)%bind_Some. simpl.
    apply acquire_slots_ok in Hs as (? & ? & ?).
    apply acquire_ors_ok in Ho as (? & ? & ?); [|by intros k c'; rewrite lookup_empty].
    assert (took id (d_mutexes d) m ∧ (co_Mutex c ≠ "" → m !! co_Mutex c = Some id)) as [Ht Hmx].
    { destruct (String.eqb_spec (co_Mutex c) "") as [E|]; simplify_eq/=; [split; [apply took_refl|done]|].
      apply insert_mutex_ok in Hm as [? ->]. split; [by apply took_insert|]. by rewrite lookup_insert_eq. }
    split_and!; [by eapply took_trans|done|split; [|done..]|done|done].
    intros E. eapply lookup_weaken; [by apply Hmx|]. by destruct H2.
  - intros [= <-]. simpl. split_and!; auto with ucd; [|intros k v; by rewrite lookup_empty].
    split; simpl; [done|by intros ? ?%elem_of_nil..].
Qed.

(** ** Releasing *)

Lemma release_mutexes_lookup id m x j : release_mutexes id m !! x = Some j ↔ m !! x = Some j ∧ j ≠ id.
Proof. unfold release_mutexes. by rewrite map_lookup_filter_Some. Qed.

Lemma release_slots_held id s k j : release_slots id s !! k = Some (Some j) ↔ s !! k = Some (Some j) ∧ j ≠ id.
Proof.
  unfold release_slots. rewrite lookup_fmap_Some. split.
  - intros (o & E & Hk). case_bool_decide; simplify_eq. split; [done|]. congruence.
  - intros [Hk Hj]. exists (Some j). split; [|done]. case_bool_decide; congruence.
Qed.

Lemma release_slots_dom id s k o : release_slots id s !! k = Some o → is_Some (s !! k).
Proof. unfold release_slots. intros (? & _ & ?)%lookup_fmap_Some. eauto. Qed.

(** ** [finishRunFrom] *)

Definition expected_met (expected : option RunStatus) (r : run) : Prop :=
  match expected with None => True | Some e => r_status r = e end.

(** The three ways the call can end. *)
Lemma finishRunFrom_cases id expected status d b d' :
  finishRunFrom id expected status d = Ok (b, d') →
  terminal status = true ∧
  (b = false ∧ d' = d
   ∧ (∀ r, d_runs d !! id = Some r → terminal (r_status r) = true ∨ ¬ expected_met expected r)
   ∨ ∃ r, b = true ∧ d_runs d !! id = Some r ∧ terminal (r_status r) = false ∧ expected_met expected r
     ∧ d' = set_locks (release_mutexes id (d_mutexes d)) (release_slots id (d_slots d))
              (set_runs <[id := with_status status r]> d)).
Proof.
  unfold finishRunFrom. destruct (terminal status); simpl; [|done]. intros H. split; [done|].
  destruct (d_runs d !! id) as [r|] eqn:E; [|left; naive_solver].
  destruct (terminal (r_status r)) eqn:Et; simpl in H; [left; naive_solver|].
  destruct expected as [e|]; simpl in *; [|right; naive_solver].
  case_bool_decide; simplify_eq; [right; eauto 10|left; naive_solver].
Qed.

Lemma fail_run_cases id d :
  fail_run id d = d ∧ (∀ r, d_runs d !! id = Some r → terminal (r_status r) = true)
  ∨ finishRunFrom id None RunFailed d = Ok (true, fail_run id d).
Proof.
  unfold fail_run, MarkRunFinished, FinishRun.
  destruct (finishRunFrom id None RunFailed d) as [[b d']|e] eqn:E; simpl.
  - apply finishRunFrom_cases in E as [_ [(-> & -> & H)|(r & -> & _)]]; [left|by right].
    split; [done|]. intros r [?|[]]%H; [done|]. exact I.
  - unfold finishRunFrom in E. simpl in E. repeat case_match; discriminate.
Qed.

(** ** [tryQueueRun] *)

Inductive queue_outcome ET js locked id spec params (d : db) : bool → db → Prop :=
| QO_left : queue_outcome ET js locked id spec params d false d
| QO_failed r :
    d_runs d !! id = Some r → r_status r = RunPending →
    queue_outcome ET js locked id spec params d false (fail_run id d)
| QO_queued r c aq vols :
    d_runs d !! id = Some r → r_status r = RunPending →
    decide_queue ET js locked id spec params d = QueueIt c aq vols →
    queue_outcome ET js locked id spec params d true
      (set_locks (aq_mutexes aq) (aq_slots aq) (set_runs <[id := queued_run (aq_values aq) vols r]> d)).

Lemma tryQueueRun_outcome ET js locked id spec params d :
  let r := tryQueueRun ET js locked id spec params d in
  queue_outcome ET js locked id spec params d r.1 r.2.
Proof.
  simpl. unfold tryQueueRun. destruct (d_runs d !! id) as [r|] eqn:E; [|constructor].
  case_bool_decide as Hp; simpl; [constructor|].
  destruct (decide_queue _ _ _ _ _ _ _) eqn:Ed; simpl; econstructor; eauto.
Qed.

Lemma decide_queue_acquires ET js locked id spec params d c aq vols :
  decide_queue ET js locked id spec params d = QueueIt c aq vols →
  acquire_locks locked id c d = Some aq ∧ ExpandConcurrency ET js (sp_Concurrency (default Spec_zero spec)) params = Ok c
  ∧ conflicts (aq_values aq) params = false.
Proof.
  unfold decide_queue. destruct (existsb _ _); [done|].
  destruct (ExpandConcurrency _ _ _ _) as [c'|]; [|done].
  destruct (expandVolumesNonEmpty _ _ _); [|done].
  destruct (acquire_locks _ _ _ _) as [aq'|] eqn:Ha; [|done].
  destruct (conflicts _ _) eqn:Hd; [done|]. intros E. simplify_eq. auto.
Qed.

(** ** Claiming picks the oldest claimable run *)

Lemma oldest_spec l :
  match oldest l with
  | Some x => x ∈ l ∧ ∀ y, y ∈ l → (r_created x.2 ≤ r_created y.2)%Z
  | None => l = []
  end.
Proof.
  induction l as [|x l IH]; [done|]. simpl. destruct (oldest l) as [y|].
  - destruct IH as [Hy Hmin]. case_bool_decide as Hlt.
    + split; [by right|]. intros z [->|Hz]%elem_of_cons; [lia|by apply Hmin].
    + split; [left|]. intros z [->|Hz]%elem_of_cons; [lia|]. specialize (Hmin z Hz). lia.
  - subst. split; [left|]. intros z Hz%list_elem_of_singleton. subst. lia.
Qed.

Section claim.
Variable visit : gmap runid run → list (runid * run).
(** A table scan returns each row once. *)
Hypothesis visit_perm : ∀ m, visit m ≡ₚ map_to_list m.

Lemma claim_cases locked agentID labels busy detached now d :
  let P x := claimable d agentID labels busy detached x.2 = true ∧ locked x.1 = false in
  match claimNextRun visit locked agentID labels busy detached now d with
  | (None, d') => d' = d ∧ ∀ id r, d_runs d !! id = Some r → ¬ P (id, r)
  | (Some (id, r'), d') =>
      ∃ r, d_runs d !! id = Some r ∧ P (id, r) ∧ r' = with_claim (Some agentID) (Some now) RunRunning r
        ∧ d' = set_runs <[id := r']> d
        ∧ ∀ j x, d_runs d !! j = Some x → P (j, x) → (r_created r ≤ r_created x)%Z
  end.
Proof using visit_perm.
  intros P. unfold claimNextRun.
  assert (∀ j x, (j, x) ∈ filter P (visit (d_runs d)) ↔ d_runs d !! j = Some x ∧ P (j, x)) as Hin.
  { intros j x. rewrite list_elem_of_filter, visit_perm, elem_of_map_to_list. tauto. }
  pose proof (oldest_spec (filter P (visit (d_runs d)))) as H. fold P in H. unfold P in H at 1. unfold P in H at 1.
  subst P. simpl in *. destruct (oldest _) as [[id r]|].
  - destruct H as [Hx Hmin]. apply Hin in Hx as [Hr HP]. exists r. split_and!; try done.
    + apply HP.
    + apply HP.
    + intros j x Hj HPx. apply (Hmin (j, x)), Hin. auto.
  - split; [done|]. intros id r Hr HP. assert ((id, r) ∈ @nil (runid * run)) as Hn; [|by apply elem_of_nil in Hn].
    rewrite <-H. apply Hin. auto.
Qed.
End claim.
