(* ===== verification/StoreLife.v ===== *)
(** * The life of a run in the store

    The store's operations as the steps of one system ([store_step]), in any
    order and interleaving: several controller replicas, agents and reapers
    share the database and each call is one step.  The invariant [sound] of the
    reachable states ([reach_sound]) gives mutual exclusion, the bound on the
    semaphores, and the refinement of the abstract lock manager [spec_step]. *)

From S2P Require Import Prelude GoStrings DslTypes DslMatrix StoreRuns StoreLocks.
From stdpp Require Import options.

Section life.
Variables (ET : string → TemplateData → res string) (js : string → option (list string))
          (caps : Spec → list string) (visit : gmap runid run → list (runid * run)).
(** A table scan returns each row once. *)
Hypothesis visit_perm : ∀ m, visit m ≡ₚ map_to_list m.

(** ** The system *)

(** The database and two histories no operation reads: the lock configuration
    each run was last queued with, and every semaphore a run was queued with. *)
Record sys := MkSys {
  y_db : db;
  y_with : gmap runid Concurrency;
  y_sems : list Semaphore
}.

Definition on_db (d : db) (s : sys) : sys := MkSys d (y_with s) (y_sems s).

Definition queue_step (locked : string * Z → bool) (id : runid) (spec : option Spec)
    (params : gmap string string) (s : sys) : sys :=
  let '(queued, d) := tryQueueRun ET js locked id spec params (y_db s) in
  match queued, decide_queue ET js locked id spec params (y_db s) with
  | true, QueueIt c _ _ =>
      let c := default no_locks c in MkSys d (<[id := c]> (y_with s)) (co_Semaphores c ++ y_sems s)
  | _, _ => on_db d s
  end.

(** Queueing takes any specification and parameters: what the scheduler read
    may have changed since.  Only the agent a run is claimed by reports its
    steps (the controller's guard), which is when a run is marked running. *)
Inductive store_step : sys → sys → Prop :=
| SS_idle s : store_step s s
| SS_create s id job params spec sel rc now :
    d_runs (y_db s) !! id = None →
    store_step s (on_db (CreateRun id job params spec sel rc now (y_db s)) s)
| SS_spec s id spec d :
    UpdateRunSpec caps id spec (y_db s) = Ok d → store_step s (on_db d s)
| SS_queue s locked id spec params : store_step s (queue_step locked id spec params s)
| SS_claim s locked agentID labels busy detached now :
    store_step s (on_db (claimNextRun visit locked agentID labels busy detached now (y_db s)).2 s)
| SS_requeue s id agentID : store_step s (on_db (RequeueClaimedRun id agentID (y_db s)).2 s)
| SS_running s id r agentID :
    d_runs (y_db s) !! id = Some r → r_claimed_by r = Some agentID →
    store_step s (on_db (MarkRunRunning id (y_db s)) s)
| SS_finish s id expected status b d :
    finishRunFrom id expected status (y_db s) = Ok (b, d) → store_step s (on_db d s)
| SS_delete s id : store_step s (on_db (DeleteRun id (y_db s)) s)
| SS_report s id i variant new d :
    UpsertStepReport id i variant new (y_db s) = inr d → store_step s (on_db d s)
| SS_interrupt s id now : store_step s (on_db (MarkRunStepsInterrupted id now (y_db s)) s)
| SS_agents s a : store_step s (on_db (set_agents a (y_db s)) s).

Inductive reach : sys → Prop :=
| reach_init : reach (MkSys db_empty ∅ [])
| reach_step s s' : reach s → store_step s s' → reach s'.

(** ** The invariant *)

Definition active (r : run) : Prop := r_status r = RunQueued ∨ r_status r = RunRunning.
Definition active_in (d : db) (id : runid) : Prop := ∃ r, d_runs d !! id = Some r ∧ active r.

#[local] Instance active_dec r : Decision (active r).
Proof. unfold active. apply _. Defined.

(** Exactly the running runs are claimed, and nothing waiting is. *)
Definition claim_wf (r : run) : Prop :=
  match r_status r with
  | RunPending | RunQueued => r_claimed_by r = None ∧ r_claimed_at r = None
  | RunRunning => is_Some (r_claimed_by r) ∧ is_Some (r_claimed_at r)
  | _ => True
  end.

Record sound (s : sys) : Prop := {
  so_mutex : ∀ x id, d_mutexes (y_db s) !! x = Some id → active_in (y_db s) id;
  so_slot : ∀ k id, d_slots (y_db s) !! k = Some (Some id) → active_in (y_db s) id;
  so_held : ∀ id r, d_runs (y_db s) !! id = Some r → active r →
    ∃ c, y_with s !! id = Some c ∧ holds id c (d_mutexes (y_db s)) (d_slots (y_db s)) (r_params r);
  so_value : ∀ id c ol r, y_with s !! id = Some c → d_runs (y_db s) !! id = Some r → active r →
    ol ∈ co_OrLocks c → ∃ v, r_params r !! lock_value_key ol = Some v ∧ d_mutexes (y_db s) !! v = Some id;
  so_sems : ∀ id c nl, y_with s !! id = Some c → nl ∈ co_Semaphores c → nl ∈ y_sems s;
  so_bound : ∀ k o, d_slots (y_db s) !! k = Some o → slot_bound (y_sems s) k;
  so_claim : ∀ id r, d_runs (y_db s) !! id = Some r → claim_wf r
}.

(** ** Steps that leave the locks alone *)

(** The rows of [d'] are those of [d] up to changes that keep the activity of a
    run and the parameters of an active one. *)
Definition calm (d d' : db) : Prop :=
  d_mutexes d' = d_mutexes d ∧ d_slots d' = d_slots d ∧
  (∀ id r', d_runs d' !! id = Some r' → claim_wf r') ∧
  (∀ id r', d_runs d' !! id = Some r' → active r' →
     ∃ r, d_runs d !! id = Some r ∧ active r ∧ r_params r = r_params r') ∧
  (∀ id, active_in d id → active_in d' id).

Lemma calm_sound s d : sound s → calm (y_db s) d → sound (on_db d s).
Proof.
  intros [Hm Hs Hh Hv Hc Hb Hcl] (Em & Es & Hwf & Hback & Hfwd). split; simpl; rewrite ?Em, ?Es; eauto.
  - intros id r' Hr' Ha'. destruct (Hback id r' Hr' Ha') as (r & Hr & Ha & <-). eauto.
  - intros id c ol r' Hw Hr' Ha' Hol. destruct (Hback id r' Hr' Ha') as (r & Hr & Ha & <-). eauto.
Qed.

Lemma calm_same_runs d d' :
  (∀ id r, d_runs d !! id = Some r → claim_wf r) →
  d_mutexes d' = d_mutexes d → d_slots d' = d_slots d → d_runs d' = d_runs d → calm d d'.
Proof. intros Hwf ?? E. unfold calm, active_in. rewrite E. eauto 10. Qed.

(** One row written, its activity and parameters kept. *)
Lemma calm_set_run d id r r' :
  (∀ j x, d_runs d !! j = Some x → claim_wf x) →
  d_runs d !! id = Some r → (active r ↔ active r') → r_params r' = r_params r → claim_wf r' →
  calm d (set_runs <[id := r']> d).
Proof.
  intros Hwf Hr Ha Hp Hc. unfold calm, active_in. simpl. split_and!; [done..| | |].
  - intros j x. rewrite lookup_insert_Some. naive_solver.
  - intros j x. rewrite lookup_insert_Some. intros [[<- <-]|[? ?]]; [|eauto].
    intros ?. exists r. split; [done|]. split; [by apply Ha|done].
  - intros j (x & Hx & Hax). destruct (decide (id = j)) as [<-|].
    + exists r'. rewrite lookup_insert_eq. simplify_eq. split; [done|by apply Ha].
    + exists x. by rewrite lookup_insert_ne.
Qed.

Lemma set_runs_alter f id d :
  set_runs (alter f id) d
  = match d_runs d !! id with Some r => set_runs <[id := f r]> d | None => d end.
Proof.
  unfold set_runs. destruct (d_runs d !! id) as [r|] eqn:E.
  - f_equal. apply map_eq. intros j. destruct (decide (id = j)) as [<-|].
    + by rewrite lookup_alter_eq, lookup_insert_eq, E.
    + by rewrite lookup_alter_ne, lookup_insert_ne.
  - rewrite alter_id by naive_solver. by destruct d.
Qed.

(** ** The other steps *)

(** A run that stops being active gives back its locks. *)
Lemma release_sound s id d :
  sound s →
  d_mutexes d = release_mutexes id (d_mutexes (y_db s)) → d_slots d = release_slots id (d_slots (y_db s)) →
  (∀ j, j ≠ id → d_runs d !! j = d_runs (y_db s) !! j) →
  (∀ r, d_runs d !! id = Some r → claim_wf r ∧ ¬ active r) →
  sound (on_db d s).
Proof.
  intros [Hm Hs Hh Hv Hc Hb Hcl] Em Es Hj Hid. split; simpl; rewrite ?Em, ?Es.
  - intros x j [Hx Hne]%release_mutexes_lookup. apply Hm in Hx as (r & Hr & Ha).
    exists r. by rewrite Hj.
  - intros k j [Hk Hne]%release_slots_held. apply Hs in Hk as (r & Hr & Ha). exists r. by rewrite Hj.
  - intros j r Hr Ha. destruct (decide (j = id)) as [->|Hne]; [by destruct (Hid r Hr)|].
    rewrite Hj in Hr by done. destruct (Hh j r Hr Ha) as (c & Hc' & [Mx Se Or]). exists c. split; [done|]. split.
    + intros E. apply release_mutexes_lookup. auto.
    + intros nl [i Hi]%Se. exists i. by apply release_slots_held.
    + intros ol Hol. destruct (Or ol Hol) as [(x & Hx & Hmx) ?]. split; [|done].
      exists x. split; [done|]. by apply release_mutexes_lookup.
  - intros j c ol r Hw Hr Ha Hol. destruct (decide (j = id)) as [->|Hne]; [by destruct (Hid r Hr)|].
    rewrite Hj in Hr by done. destruct (Hv j c ol r Hw Hr Ha Hol) as (v & Hv' & Hmx). exists v.
    split; [done|]. by apply release_mutexes_lookup.
  - done.
  - intros k o Hk%release_slots_dom. destruct Hk as [o' Hk]. eauto.
  - intros j r Hr. destruct (decide (j = id)) as [->|Hne]; [by apply Hid|]. rewrite Hj in Hr by done. eauto.
Qed.

Lemma terminal_inactive r : terminal (r_status r) = true → ¬ active r.
Proof. by intros H [E|E]; rewrite E in H. Qed.

Lemma finish_sound s id expected status b d :
  sound s → finishRunFrom id expected status (y_db s) = Ok (b, d) → sound (on_db d s).
Proof.
  intros Hs [Ht [(_ & -> & _)|(r & -> & Hr & Hn & _ & ->)]]%finishRunFrom_cases; [by destruct s|].
  apply (release_sound s id); [done..| |]; simpl.
  - intros j Hj. by rewrite lookup_insert_ne.
  - intros r'. rewrite lookup_insert_eq. intros [= <-]. split; [|by apply terminal_inactive].
    unfold claim_wf. simpl. by destruct status.
Qed.

Lemma fail_sound s id : sound s → sound (on_db (fail_run id (y_db s)) s).
Proof.
  intros Hs. destruct (fail_run_cases id (y_db s)) as [[-> _]|H]; [by destruct s|by eapply finish_sound].
Qed.

(** Locks that only grew keep what was held. *)
Lemma holds_grow id c m m' sl sl' p j :
  took j m m' → took_slots j sl sl' → holds id c m sl p → holds id c m' sl' p.
Proof.
  intros [Sm _] [Ss _] [Mx Se Or]. split.
  - intros E. eapply lookup_weaken; eauto.
  - intros nl [i Hi]%Se. exists i. auto.
  - intros ol Hol. destruct (Or ol Hol) as [(x & Hx & Hmx) ?]. split; [|done].
    exists x. split; [done|]. by eapply lookup_weaken.
Qed.

(** A Pending run holds nothing, so a transaction that queues it is the only
    holder of what it took. *)
Lemma queued_sound s locked id r c aq vols :
  sound s → d_runs (y_db s) !! id = Some r → r_status r = RunPending →
  acquire_locks locked id c (y_db s) = Some aq →
  sound (MkSys (set_locks (aq_mutexes aq) (aq_slots aq)
                  (set_runs <[id := queued_run (aq_values aq) vols r]> (y_db s)))
               (<[id := default no_locks c]> (y_with s)) (co_Semaphores (default no_locks c) ++ y_sems s)).
Proof.
  intros [Hm Hs Hh Hv Hc Hb Hcl] Hr Hp Haq.
  apply acquire_locks_ok in Haq as (Tm & Ts & Hh' & Hval & Hbd). simpl in *.
  assert (∀ j, active_in (y_db s) j → ∃ x, <[id:=queued_run (aq_values aq) vols r]> (d_runs (y_db s)) !! j = Some x ∧ active x)
    as Hact.
  { intros j (x & Hx & Hax). destruct (decide (id = j)) as [<-|].
    - simplify_eq. by destruct Hax as [E|E]; rewrite Hp in E.
    - exists x. by rewrite lookup_insert_ne. }
  assert (∃ x, <[id:=queued_run (aq_values aq) vols r]> (d_runs (y_db s)) !! id = Some x ∧ active x) as Hself.
  { eexists. rewrite lookup_insert_eq. split; [done|]. by left. }
  split; simpl.
  - intros x j [Hx|[-> _]]%Tm; [exact (Hact j (Hm _ _ Hx))|exact Hself].
  - intros k j [Hk|[-> _]]%Ts; [exact (Hact j (Hs _ _ Hk))|exact Hself].
  - intros j x. rewrite lookup_insert_Some. intros [[<- <-]|[Hne Hx]] Ha.
    + exists (default no_locks c). rewrite lookup_insert_eq. split; [done|].
      destruct Hh' as [Mx Se Or]. split; [done..|]. intros ol Hol. destruct (Or ol Hol) as [? [v Hv']].
      split; [done|]. exists v. simpl. by apply lookup_union_Some_l.
    + destruct (Hh j x Hx Ha) as (c' & ? & ?). exists c'. rewrite lookup_insert_ne by done. split; [done|].
      by eapply holds_grow.
  - intros j c' ol x Hw. rewrite lookup_insert_Some. intros [[<- <-]|[Hne Hx]] Ha Hol.
    + rewrite lookup_insert_eq in Hw. simplify_eq. destruct Hh' as [_ _ Or].
      destruct (Or ol Hol) as [_ [v Hv']]. exists v. split; [by apply lookup_union_Some_l|by eapply Hval].
    + rewrite lookup_insert_ne in Hw by done. destruct (Hv j c' ol x Hw Hx Ha Hol) as (v & ? & ?).
      exists v. split; [done|]. destruct Tm as [Sm _]. by eapply lookup_weaken.
  - intros j c' nl. rewrite elem_of_app, lookup_insert_Some. intros [[<- <-]|[? ?]]; eauto.
  - intros k o Hk. destruct (Hbd k o Hk) as [[o' Ho']|(nl & ? & ?)].
    + destruct (Hb k o' Ho') as (nl & ? & ?). exists nl. rewrite elem_of_app. auto.
    + exists nl. rewrite elem_of_app. auto.
  - intros j x. rewrite lookup_insert_Some. intros [[<- <-]|[? ?]]; [|eauto].
    pose proof (Hcl id r Hr) as Hw. unfold claim_wf in *. rewrite Hp in Hw. done.
Qed.

Lemma queue_sound s locked id spec params : sound s → sound (queue_step locked id spec params s).
Proof.
  intros Hs. unfold queue_step. pose proof (tryQueueRun_outcome ET js locked id spec params (y_db s)) as H.
  simpl in H. destruct (tryQueueRun _ _ _ _ _ _ _) as [q d] eqn:E. simpl in H. clear E.
  destruct H as [|r Hr Hp|r c aq vols Hr Hp Hd].
  - by destruct s.
  - by apply fail_sound.
  - rewrite Hd. apply decide_queue_acquires in Hd as (Ha & _ & _). by eapply queued_sound.
Qed.

(** Every step preserves the invariant. *)
Lemma step_sound s s' : sound s → store_step s s' → sound s'.
Proof using visit_perm.
  intros Hs Hst. pose proof (so_claim s Hs) as Hwf. destruct Hst as
    [s|s id job params spec sel rc now Hfree|s id spec d Hd|s locked id spec params
    |s locked agentID labels busy detached now|s id agentID|s id r agentID Hr Hby|s id expected status b d Hd
    |s id|s id i variant new d Hd|s id now|s a].
  - done.
  - apply calm_sound; [done|]. unfold calm, active_in. simpl. split_and!; [done..| | |].
    + intros j x. rewrite lookup_insert_Some. intros [[_ <-]|[_ ?]]; [by split|eauto].
    + intros j x. rewrite lookup_insert_Some. intros [[_ <-]|[_ ?]] Ha; [by destruct Ha|eauto].
    + intros j (x & Hx & ?). exists x. rewrite lookup_insert_ne by congruence. done.
  - unfold UpdateRunSpec in Hd. destruct spec as [sp|]; [|done]. injection Hd as <-.
    apply calm_sound; [done|]. rewrite set_runs_alter. destruct (d_runs (y_db s) !! id) as [r|] eqn:Hr;
      [|by apply calm_same_runs]. case_bool_decide;
      (eapply calm_set_run; [exact Hwf|exact Hr|unfold active; done|done|exact (Hwf id r Hr)]).
  - by apply queue_sound.
  - apply calm_sound; [done|]. pose proof (claim_cases visit visit_perm locked agentID labels busy detached now (y_db s)) as H.
    simpl in H. destruct (claimNextRun _ _ _ _ _ _ _ _) as [[[id r']|] d]; simpl.
    + destruct H as (r & Hr & [Hcl _] & -> & -> & _). unfold claimable in Hcl. reflect.
      eapply calm_set_run; eauto; [unfold active; naive_solver|by split; eexists].
    + destruct H as [-> _]. by apply calm_same_runs.
  - apply calm_sound; [done|]. unfold RequeueClaimedRun. destruct (d_runs (y_db s) !! id) as [r|] eqn:Hr;
      [|by apply calm_same_runs]. case_bool_decide as H; [|by apply calm_same_runs]. destruct H as [Hr1 Hr2].
    eapply calm_set_run; eauto; [unfold active; naive_solver|done].
  - apply calm_sound; [done|]. unfold MarkRunRunning. rewrite set_runs_alter, Hr.
    destruct (terminal (r_status r)) eqn:Ht; [by eapply calm_set_run; eauto|].
    pose proof (Hwf id r Hr) as Hc. unfold claim_wf in Hc.
    destruct (r_status r) eqn:Est; try done; [by rewrite Hby in Hc; destruct Hc..|].
    eapply calm_set_run; eauto. unfold active. naive_solver.
  - by eapply finish_sound.
  - unfold DeleteRun. case_bool_decide as H; [|by destruct s].
    apply (release_sound s id); simpl; [done..| |]; [intros; by rewrite lookup_delete_ne|].
    intros r. by rewrite lookup_delete_eq.
  - apply calm_sound; [done|]. unfold UpsertStepReport in Hd.
    destruct (d_runs (y_db s) !! id) as [r|]; [|done]. destruct (terminal _); [done|]. injection Hd as <-.
    by apply calm_same_runs.
  - apply calm_sound; [done|]. by apply calm_same_runs.
  - apply calm_sound; [done|]. by apply calm_same_runs.
Qed.

Lemma reach_sound s : reach s → sound s.
Proof using visit_perm.
  induction 1 as [|s s' _ IH Hst]; [|by eapply step_sound].
  split; simpl; intros *; by rewrite lookup_empty.
Qed.
End life.
