(* ===== verification/StoreSpec.v ===== *)
(** * What the store promises about runs and locks

    The abstract lock manager that the store's run operations implement
    ([lifecycle_refines]), mutual exclusion of locks ([mutual_exclusion]), the
    bound on semaphores ([semaphore_bound]), and the exact effect of finishing
    ([finish_exact]) and claiming ([claim_oldest]). *)

From S2P Require Import Prelude GoStrings DslTypes DslSecurity DslMatrix StoreRuns StoreLocks StoreLife.
From stdpp Require Import options.

(** ** The abstract lock manager *)

Inductive lock := LMutex (name : string) | LSlot (pool : string) (i : Z).

#[export] Instance lock_eq_dec : EqDecision lock.
Proof. solve_decision. Defined.
#[export] Instance lock_countable : Countable lock.
Proof.
  apply (inj_countable' (λ l, match l with LMutex n => inl n | LSlot p i => inr (p, i) end)
           (λ s, match s with inl n => LMutex n | inr (p, i) => LSlot p i end)).
  by intros [].
Qed.

(** A run waits for its locks, owns them from queueing to its end (being
    claimed by an agent or not), and is done. *)
Inductive phase :=
| PWaiting
| POwning (claimed : option string) (locks : gset lock)
| PDone.

Abbreviation spec_state := (runid → option phase).

Definition owns (a : spec_state) (id : runid) (l : lock) : Prop :=
  ∃ c L, a id = Some (POwning c L) ∧ l ∈ L.

(** What can happen to run [id]; only queueing asks something of the others. *)
Inductive spec_move (a : spec_state) (id : runid) : option phase → option phase → Prop :=
| SM_create : spec_move a id None (Some PWaiting)
| SM_queue L : (∀ l j, l ∈ L → ¬ owns a j l) → spec_move a id (Some PWaiting) (Some (POwning None L))
| SM_claim agentID L : spec_move a id (Some (POwning None L)) (Some (POwning (Some agentID) L))
| SM_requeue agentID L : spec_move a id (Some (POwning (Some agentID) L)) (Some (POwning None L))
| SM_finish p : p ≠ PDone → spec_move a id (Some p) (Some PDone)
| SM_delete p : spec_move a id (Some p) None.

Definition spec_step (a a' : spec_state) : Prop :=
  (∀ j, a' j = a j) ∨ ∃ id, (∀ j, j ≠ id → a' j = a j) ∧ spec_move a id (a id) (a' id).

(** *** The abstraction of a database *)

Definition locks_of (d : db) (id : runid) : gset lock :=
  set_map LMutex (dom (filter (λ kv, kv.2 = id) (d_mutexes d)) : gset string)
  ∪ set_map (λ k, LSlot k.1 k.2) (dom (filter (λ kv, kv.2 = Some id) (d_slots d)) : gset (string * Z)).

Definition phase_of (d : db) (id : runid) (r : run) : phase :=
  match r_status r with
  | RunPending => PWaiting
  | RunQueued | RunRunning => POwning (r_claimed_by r) (locks_of d id)
  | _ => PDone
  end.

Definition abstract (d : db) : spec_state := λ id, phase_of d id <$> d_runs d !! id.

Definition holder (d : db) (l : lock) : option runid :=
  match l with LMutex x => d_mutexes d !! x | LSlot p i => mjoin (d_slots d !! (p, i)) end.

Lemma join_Some {A} (o : option (option A)) a : mjoin o = Some a ↔ o = Some (Some a).
Proof. destruct o as [[]|]; naive_solver. Qed.

Lemma locks_of_spec d id l : l ∈ locks_of d id ↔ holder d l = Some id.
Proof.
  unfold locks_of. rewrite elem_of_union, !elem_of_map. setoid_rewrite elem_of_dom.
  unfold is_Some. setoid_rewrite map_lookup_filter_Some. destruct l as [x|p i]; simpl.
  - split; [|naive_solver]. intros [(y & [= <-] & z & ? & <-)|([] & ? & ?)]; naive_solver.
  - split.
    + intros [(y & ? & _)|([p' i'] & [= -> ->] & o & Ho & E)]; [done|]. simpl in *. by rewrite Ho, E.
    + intros Hj. destruct (d_slots d !! (p, i)) as [o|] eqn:E; simplify_eq/=. right. exists (p, i).
      split; [done|]. eauto.
Qed.

Lemma locks_of_ext d d' id : (∀ l, holder d' l = Some id ↔ holder d l = Some id) → locks_of d' id = locks_of d id.
Proof. intros H. apply leibniz_equiv. intros l. by rewrite !locks_of_spec. Qed.

(** ** The refinement *)

Lemma abstract_ext d d' j :
  d_runs d' !! j = d_runs d !! j → (∀ l, holder d' l = Some j ↔ holder d l = Some j) → abstract d' j = abstract d j.
Proof.
  intros Hr Hl. unfold abstract. rewrite Hr. destruct (d_runs d !! j) as [r|]; [|done]. simpl.
  unfold phase_of. by rewrite (locks_of_ext d d' j Hl).
Qed.

(** A step that only writes the row of [id], and no lock of another run. *)
Lemma move_one d d' id :
  (∀ j, j ≠ id → d_runs d' !! j = d_runs d !! j) →
  (∀ j l, j ≠ id → holder d' l = Some j ↔ holder d l = Some j) →
  abstract d' id = abstract d id ∨ spec_move (abstract d) id (abstract d id) (abstract d' id) →
  spec_step (abstract d) (abstract d').
Proof.
  intros Hr Hl [E|Hm]; [left|right].
  - intros j. destruct (decide (j = id)) as [->|]; [done|]. apply abstract_ext; eauto.
  - exists id. split; [|done]. intros j Hj. apply abstract_ext; eauto.
Qed.

Lemma same_locks_holder d d' l : d_mutexes d' = d_mutexes d → d_slots d' = d_slots d → holder d' l = holder d l.
Proof. intros E1 E2. destruct l; simpl; by rewrite ?E1, ?E2. Qed.

(** A row rewritten with the locks as they were. *)
Lemma set_run_step d id r r' :
  d_runs d !! id = Some r →
  phase_of d id r' = phase_of d id r ∨ spec_move (abstract d) id (Some (phase_of d id r)) (Some (phase_of d id r')) →
  spec_step (abstract d) (abstract (set_runs <[id := r']> d)).
Proof.
  intros Hr Hm. apply (move_one _ _ id).
  - intros j Hj. simpl. by rewrite lookup_insert_ne.
  - done.
  - assert (abstract (set_runs <[id := r']> d) id = Some (phase_of d id r')) as ->
      by (unfold abstract; simpl; by rewrite lookup_insert_eq).
    assert (abstract d id = Some (phase_of d id r)) as -> by (unfold abstract; by rewrite Hr).
    destruct Hm as [->|Hm]; [by left|by right].
Qed.

Lemma same_step d d' :
  d_runs d' = d_runs d → d_mutexes d' = d_mutexes d → d_slots d' = d_slots d → spec_step (abstract d) (abstract d').
Proof.
  intros Hr Hm Hs. left. intros j. apply abstract_ext; [by rewrite Hr|]. intros l. by rewrite (same_locks_holder d d').
Qed.

Lemma released_holder id d f l j : j ≠ id →
  holder (set_locks (release_mutexes id (d_mutexes d)) (release_slots id (d_slots d)) (set_runs f d)) l = Some j
  ↔ holder d l = Some j.
Proof.
  intros Hj. destruct l as [x|p i]; simpl; [rewrite release_mutexes_lookup; naive_solver|].
  rewrite !join_Some. rewrite release_slots_held. naive_solver.
Qed.

Lemma finish_step id expected status d b d' :
  finishRunFrom id expected status d = Ok (b, d') → spec_step (abstract d) (abstract d').
Proof.
  intros [Ht [(_ & -> & _)|(r & -> & Hr & Hn & _ & ->)]]%finishRunFrom_cases; [by left|].
  apply (move_one _ _ id).
  - intros j Hj. simpl. by rewrite lookup_insert_ne.
  - intros. by apply released_holder.
  - right. unfold abstract. simpl. rewrite lookup_insert_eq, Hr. simpl.
    replace (phase_of _ id (with_status status r)) with PDone by (unfold phase_of; simpl; by destruct status).
    apply SM_finish. unfold phase_of. by destruct (r_status r).
Qed.

Lemma fail_step id d : spec_step (abstract d) (abstract (fail_run id d)).
Proof.
  destruct (fail_run_cases id d) as [[-> _]|H]; [by left|by eapply finish_step].
Qed.

Section spec.
Variables (ET : string → TemplateData → res string) (js : string → option (list string))
          (caps : Spec → list string) (visit : gmap runid run → list (runid * run)).

Lemma queued_step s locked id r c aq vols :
  sound s → d_runs (y_db s) !! id = Some r → r_status r = RunPending →
  acquire_locks locked id c (y_db s) = Some aq →
  spec_step (abstract (y_db s))
    (abstract (set_locks (aq_mutexes aq) (aq_slots aq)
                 (set_runs <[id := queued_run (aq_values aq) vols r]> (y_db s)))).
Proof.
  intros Hs Hr Hp ([Sm Tm] & [Ss Ts] & _)%acquire_locks_ok.
  assert (∀ l, holder (y_db s) l ≠ Some id) as Hnone.
  { assert (¬ active_in (y_db s) id) as Hn.
    { intros (x & Hx & [E|E]); simplify_eq; by rewrite Hp in E. }
    intros [x|p i]; simpl; [by intros E%(so_mutex s Hs)|]. rewrite join_Some. by intros E%(so_slot s Hs). }
  assert (∀ l j, j ≠ id → holder (set_locks (aq_mutexes aq) (aq_slots aq)
      (set_runs <[id := queued_run (aq_values aq) vols r]> (y_db s))) l = Some j ↔ holder (y_db s) l = Some j) as Hj.
  { intros [x|p i] j Hj; simpl.
    - split; [intros [?|[? _]]%Tm; done|]. intros E. by eapply lookup_weaken.
    - rewrite !join_Some. split; [intros [?|[? _]]%Ts; done|]. apply Ss. }
  apply (move_one _ _ id); [by intros j ?; simpl; rewrite lookup_insert_ne|by intros; apply Hj|].
  right. unfold abstract at 2 3. simpl. rewrite lookup_insert_eq, Hr. simpl. unfold phase_of at 1 2. simpl. rewrite Hp.
  pose proof (so_claim s Hs id r Hr) as Hc. unfold claim_wf in Hc. rewrite Hp in Hc. destruct Hc as [-> _].
  apply SM_queue. intros l j Hl (c' & L & Ha & HlL). apply locks_of_spec in Hl.
  unfold abstract in Ha. destruct (d_runs (y_db s) !! j) as [x|]; [|done]. simpl in Ha. unfold phase_of in Ha.
  assert (holder (y_db s) l = Some j) as Hold.
  { destruct (r_status x); simplify_eq; by apply locks_of_spec in HlL. }
  destruct (decide (j = id)) as [->|Hne]; [by eapply Hnone|]. apply (Hj l j Hne) in Hold.
  rewrite Hold in Hl. by simplify_eq.
Qed.

Lemma queue_refines s locked id spec params :
  sound s → spec_step (abstract (y_db s)) (abstract (y_db (queue_step ET js locked id spec params s))).
Proof.
  intros Hs. unfold queue_step. pose proof (tryQueueRun_outcome ET js locked id spec params (y_db s)) as H.
  simpl in H. destruct (tryQueueRun _ _ _ _ _ _ _) as [q d] eqn:E. simpl in H. clear E.
  destruct H as [|r Hr Hp|r c aq vols Hr Hp Hd]; [by left|apply fail_step|].
  rewrite Hd. apply decide_queue_acquires in Hd as (Ha & _ & _). by eapply queued_step.
Qed.

(** The rows a step rewrites without touching the locks. *)
Lemma rewrite_refines s id r r' :
  sound s → d_runs (y_db s) !! id = Some r → (r_status r' = r_status r ∧ r_claimed_by r' = r_claimed_by r) →
  spec_step (abstract (y_db s)) (abstract (set_runs <[id := r']> (y_db s))).
Proof.
  intros Hs Hr [E1 E2]. eapply set_run_step; [done|]. left. unfold phase_of. by rewrite E1, E2.
Qed.

Lemma create_refines s id r :
  d_runs (y_db s) !! id = None → r_status r = RunPending →
  spec_step (abstract (y_db s)) (abstract (set_runs <[id := r]> (y_db s))).
Proof.
  intros Hfree Hp. apply (move_one _ _ id); [by intros j Hj; simpl; rewrite lookup_insert_ne|done|].
  right. unfold abstract at 2 3. simpl. rewrite lookup_insert_eq, Hfree. simpl. unfold phase_of. rewrite Hp.
  constructor.
Qed.

Lemma delete_refines d id : spec_step (abstract d) (abstract (DeleteRun id d)).
Proof.
  unfold DeleteRun. case_bool_decide as H; [|by left]. destruct H as [r Hr].
  apply (move_one _ _ id); simpl.
  - intros j Hj. by rewrite lookup_delete_ne.
  - intros j l Hj. rewrite <-(released_holder id d (delete id) l j Hj). by destruct l.
  - right. unfold abstract at 2 3. simpl. rewrite lookup_delete_eq, Hr. constructor.
Qed.
End spec.

(** C1: the store refines an abstract lock manager.  In every reachable
    state, each operation is either invisible or moves exactly one run along
    the phases waiting, owning, done: a run is queued only with locks that no
    other run owns, keeps exactly those locks while agents claim it and give it
    back, and loses them only with its end or its deletion; a finished run
    stays finished. *)
Theorem lifecycle_refines (ET : string → TemplateData → res string) (js : string → option (list string))
    (caps : Spec → list string) (visit : gmap runid run → list (runid * run)) (s s' : sys) :
  (∀ m, visit m ≡ₚ map_to_list m) →
  reach ET js caps visit s → store_step ET js caps visit s s' →
  spec_step (abstract (y_db s)) (abstract (y_db s')).
Proof.
  intros Hv Hreach Hst. apply (reach_sound ET js caps visit Hv) in Hreach as Hs.
  destruct Hst as
    [s|s id job params spec sel rc now Hfree|s id spec d Hd|s locked id spec params
    |s locked agentID labels busy detached now|s id agentID|s id r agentID Hr Hby|s id expected status b d Hd
    |s id|s id i variant new d Hd|s id now|s a].
  - by left.
  - by apply create_refines.
  - unfold UpdateRunSpec in Hd. destruct spec as [sp|]; [|done]. injection Hd as <-. simpl. rewrite set_runs_alter.
    destruct (d_runs (y_db s) !! id) as [r|] eqn:Hr; [|by left].
    case_bool_decide; by eapply rewrite_refines.
  - by apply queue_refines.
  - pose proof (claim_cases visit Hv locked agentID labels busy detached now (y_db s)) as H.
    simpl in *. destruct (claimNextRun _ _ _ _ _ _ _ _) as [[[id r']|] d]; simpl.
    + destruct H as (r & Hr & [Hcl _] & -> & -> & _). unfold claimable in Hcl. reflect. eapply set_run_step; [done|].
      pose proof (so_claim s Hs id r Hr) as Hw. unfold claim_wf in Hw. right. unfold phase_of. simpl.
      repeat match goal with E : r_status r = _ |- _ => rewrite E in * end. destruct Hw as [-> _]. constructor.
    + destruct H as [-> _]. by left.
  - simpl. unfold RequeueClaimedRun. destruct (d_runs (y_db s) !! id) as [r|] eqn:Hr; [|by left].
    case_bool_decide as H; [|by left]. destruct H as [Hr1 Hr2]. eapply set_run_step; [done|]. right.
    unfold phase_of. simpl. rewrite Hr1, Hr2. constructor.
  - simpl. unfold MarkRunRunning. rewrite set_runs_alter, Hr. pose proof (so_claim s Hs id r Hr) as Hw.
    unfold claim_wf in Hw. destruct (r_status r) eqn:E; simpl; try (by eapply rewrite_refines);
      by rewrite Hby in Hw; destruct Hw.
  - simpl. by eapply finish_step.
  - apply delete_refines.
  - unfold UpsertStepReport in Hd. destruct (d_runs (y_db s) !! id) as [r|]; [|done].
    destruct (terminal _); [done|]. injection Hd as <-. by apply same_step.
  - by apply same_step.
  - by apply same_step.
Qed.

(** ** A sample history *)

(** Two jobs with mutexes of their own, sharing a pool of two and the or-lock
    candidates [a] and [b]: both are queued, the second claimed. *)
Definition sample_conc (mutex : string) : Concurrency :=
  MkConcurrency mutex [MkSemaphore "gpu" 2] [MkOrLock "rig" (MkForeachSource ["a"; "b"] "")].
Definition sample_spec (mutex : string) : Spec :=
  MkSpec (MkParams [] []) (Some (sample_conc mutex)) [] [] [] None false false false None [] "" ∅.

Definition sample_ET : string → TemplateData → res string := λ s _, Ok s.
Definition sample_js : string → option (list string) := λ _, None.
Definition sample_caps : Spec → list string := λ _, [CapContainer].

Definition sys_init : sys := MkSys db_empty ∅ [].
Definition create_sample (id : runid) (mutex : string) (now : Z) (s : sys) : sys :=
  on_db (CreateRun id "deploy" ∅ (Some (sample_spec mutex)) [] [CapContainer] now (y_db s)) s.
Definition queue_sample (id : runid) (mutex : string) (s : sys) : sys :=
  queue_step sample_ET sample_js (λ _, false) id (Some (sample_spec mutex)) ∅ s.

Definition sample_created : sys := create_sample 2 "staging" 6 (create_sample 1 "prod" 5 sys_init).
Definition sample_queued : sys := queue_sample 2 "staging" (queue_sample 1 "prod" sample_created).
Definition sample_claimed : sys :=
  on_db (claimNextRun map_to_list (λ _, false) "agent-1" [] [] false 9 (y_db sample_queued)).2 sample_queued.

Lemma sample_created_reach : reach sample_ET sample_js sample_caps map_to_list sample_created.
Proof.
  eapply reach_step; [eapply reach_step; [constructor|]|]; [by apply SS_create|]. by apply SS_create.
Qed.

Lemma sample_queued_reach : reach sample_ET sample_js sample_caps map_to_list sample_queued.
Proof.
  eapply reach_step; [eapply reach_step; [apply sample_created_reach|]|]; apply SS_queue.
Qed.

Lemma sample_claimed_reach : reach sample_ET sample_js sample_caps map_to_list sample_claimed.
Proof. eapply reach_step; [apply sample_queued_reach|]. apply SS_claim. Qed.

Lemma lifecycle_refines_witness :
  spec_step (abstract (y_db sample_queued)) (abstract (y_db sample_claimed))
  ∧ abstract (y_db sample_queued) 1%N ≠ abstract (y_db sample_claimed) 1%N.
Proof.
  split; [|vm_compute; congruence].
  apply (lifecycle_refines sample_ET sample_js sample_caps map_to_list); [done| |].
  - apply sample_queued_reach.
  - apply SS_claim.
Defined.

(** ** Locks *)

(** C3: mutual exclusion.  Every lock is held by a queued or running run, so
    none leaks; a queued or running run holds every lock it was queued with: its
    mutex, a slot of each of its pools, and one candidate of each of its or-locks,
    where the value it is told in its parameters is a mutex it holds; and two of
    them never share a mutex, an or-lock value or one's mutex and the other's
    or-lock value. *)
Theorem mutual_exclusion (ET : string → TemplateData → res string) (js : string → option (list string))
    (caps : Spec → list string) (visit : gmap runid run → list (runid * run)) (s : sys) :
  (∀ m, visit m ≡ₚ map_to_list m) → reach ET js caps visit s →
  (∀ l id, holder (y_db s) l = Some id → active_in (y_db s) id) ∧
  (∀ id r, d_runs (y_db s) !! id = Some r → active r → ∃ c, y_with s !! id = Some c ∧
     (co_Mutex c ≠ "" → d_mutexes (y_db s) !! co_Mutex c = Some id) ∧
     (∀ nl, nl ∈ co_Semaphores c → ∃ i, d_slots (y_db s) !! (sm_Pool nl, i) = Some (Some id)) ∧
     ∀ ol, ol ∈ co_OrLocks c →
       (∃ x, x ∈ fs_Literal (ol_In ol) ∧ d_mutexes (y_db s) !! x = Some id) ∧
       ∃ v, r_params r !! lock_value_key ol = Some v ∧ d_mutexes (y_db s) !! v = Some id) ∧
  ∀ id1 id2 r1 r2 c1 c2, id1 ≠ id2 →
    d_runs (y_db s) !! id1 = Some r1 → active r1 → y_with s !! id1 = Some c1 →
    d_runs (y_db s) !! id2 = Some r2 → active r2 → y_with s !! id2 = Some c2 →
    (co_Mutex c1 ≠ "" → co_Mutex c1 ≠ co_Mutex c2) ∧
    (∀ o1 o2, o1 ∈ co_OrLocks c1 → o2 ∈ co_OrLocks c2 →
       ∃ v1 v2, r_params r1 !! lock_value_key o1 = Some v1 ∧ r_params r2 !! lock_value_key o2 = Some v2 ∧ v1 ≠ v2) ∧
    (∀ o2, co_Mutex c1 ≠ "" → o2 ∈ co_OrLocks c2 → r_params r2 !! lock_value_key o2 ≠ Some (co_Mutex c1)).
Proof.
  intros Hv Hreach. apply (reach_sound ET js caps visit Hv) in Hreach as Hs. split_and!.
  - intros [x|p i] id; simpl; [apply (so_mutex s Hs)|]. rewrite join_Some. apply (so_slot s Hs).
  - intros id r Hr Ha. destruct (so_held s Hs id r Hr Ha) as (c & Hc & [Hm Hsl Hor]). exists c. split_and!; [done..|].
    intros ol Hol. split; [apply (Hor ol Hol)|]. by apply (so_value s Hs id c ol r).
  - intros id1 id2 r1 r2 c1 c2 Hne Hr1 Ha1 Hc1 Hr2 Ha2 Hc2.
    destruct (so_held s Hs id1 r1 Hr1 Ha1) as (? & ? & H1), (so_held s Hs id2 r2 Hr2 Ha2) as (? & ? & H2). simplify_eq.
    pose proof (λ o, so_value s Hs id1 c1 o r1 Hc1 Hr1 Ha1) as V1. pose proof (λ o, so_value s Hs id2 c2 o r2 Hc2 Hr2 Ha2) as V2.
    split_and!.
    + intros Hm E. apply (holds_mutex _ _ _ _ _ H1) in Hm as M1. rewrite E in Hm, M1.
      apply (holds_mutex _ _ _ _ _ H2) in Hm. by simplify_eq.
    + intros o1 o2 (v1 & Hp1 & M1)%V1 (v2 & Hp2 & M2)%V2. exists v1, v2. split_and!; [done..|]. congruence.
    + intros o2 Hm (v2 & Hp2 & M2)%V2 Hp. apply (holds_mutex _ _ _ _ _ H1) in Hm. congruence.
Qed.

Lemma mutual_exclusion_witness :
  ∃ r1 r2, d_runs (y_db sample_claimed) !! 1%N = Some r1 ∧ d_runs (y_db sample_claimed) !! 2%N = Some r2 ∧
    ∃ v1 v2, r_params r1 !! "RIG_LOCK_VALUE" = Some v1 ∧ r_params r2 !! "RIG_LOCK_VALUE" = Some v2 ∧ v1 ≠ v2.
Proof.
  destruct (mutual_exclusion sample_ET sample_js sample_caps map_to_list sample_claimed (λ m, reflexivity _)
              sample_claimed_reach) as (_ & _ & H).
  eexists _, _. split; [vm_compute; reflexivity|]. split; [vm_compute; reflexivity|].
  edestruct (H 1%N 2%N) as (_ & Hor & _);
    [done|vm_compute; reflexivity|by right|vm_compute; reflexivity|vm_compute; reflexivity|by left|vm_compute; reflexivity|].
  apply (Hor (MkOrLock "rig" (MkForeachSource ["a"; "b"] "")) (MkOrLock "rig" (MkForeachSource ["a"; "b"] ""))); left.
Defined.

Lemma omap_length_le {A B} (f : A → option B) l : (length (omap f l) ≤ length l)%nat.
Proof. induction l as [|x l IH]; csimpl; [done|]. destruct (f x); csimpl; lia. Qed.

(** The runs that hold a slot of [pool], counted by the slots they hold. *)
Lemma slots_count (d : db) (pool : string) (n : Z) (ids : list runid) :
  (∀ i o, d_slots d !! (pool, i) = Some o → (1 ≤ i ≤ n)%Z) →
  NoDup ids → (∀ id, id ∈ ids → ∃ i, d_slots d !! (pool, i) = Some (Some id)) →
  (length ids ≤ Z.to_nat n)%nat.
Proof.
  intros Hb Hnd Hids. set (owner := λ i, mjoin (d_slots d !! (pool, i))).
  transitivity (length (omap owner (seqZ 1 n))).
  - apply submseteq_length, NoDup_submseteq; [done|]. intros id (i & Hi)%Hids.
    apply list_elem_of_omap. exists i. split; [|by unfold owner; rewrite Hi].
    apply Hb in Hi as ?. apply elem_of_seqZ. lia.
  - pose proof (omap_length_le owner (seqZ 1 n)) as H. by rewrite length_seqZ in H.
Qed.

(** Semaphores are bounded.  If no run was ever queued with a capacity
    above [n] for a pool, at most [n] distinct queued or running runs were
    queued with that pool: jobs that disagree on a pool's capacity share the
    largest. *)
Theorem semaphore_bound (ET : string → TemplateData → res string) (js : string → option (list string))
    (caps : Spec → list string) (visit : gmap runid run → list (runid * run)) (s : sys)
    (pool : string) (n : Z) (ids : list runid) :
  (∀ m, visit m ≡ₚ map_to_list m) → reach ET js caps visit s →
  (∀ nl, nl ∈ y_sems s → sm_Pool nl = pool → (sm_Capacity nl ≤ n)%Z) →
  NoDup ids →
  (∀ id, id ∈ ids → ∃ r c nl, d_runs (y_db s) !! id = Some r ∧ active r ∧ y_with s !! id = Some c ∧
                              nl ∈ co_Semaphores c ∧ sm_Pool nl = pool) →
  (length ids ≤ Z.to_nat n)%nat.
Proof.
  intros Hv Hreach Hcap Hnd Hids. apply (reach_sound ET js caps visit Hv) in Hreach as Hs.
  apply (slots_count (y_db s) pool n ids); [|done|].
  - intros i o Hi. destruct (so_bound s Hs _ _ Hi) as (nl & Hnl & Hp & Hi'). simpl in *.
    specialize (Hcap nl Hnl (eq_sym Hp)). lia.
  - intros id (r & c & nl & Hr & Ha & Hc & Hnl & <-)%Hids.
    destruct (so_held s Hs id r Hr Ha) as (c' & ? & H). simplify_eq. by apply (holds_sems _ _ _ _ _ H).
Qed.

Lemma semaphore_bound_witness : (length [1%N; 2%N] ≤ Z.to_nat 2)%nat.
Proof.
  apply (semaphore_bound sample_ET sample_js sample_caps map_to_list sample_claimed "gpu" 2 [1%N; 2%N]);
    [done|apply sample_claimed_reach| | |].
  - assert (Forall (λ nl, (sm_Capacity nl ≤ 2)%Z) (y_sems sample_claimed)) as H
      by (vm_compute; repeat constructor; discriminate).
    rewrite Forall_forall in H. intros nl Hnl _. by apply H.
  - by apply (bool_decide_unpack (NoDup [1%N; 2%N])).
  - intros id Hid. exists (default (new_run "" ∅ None [] [] 0) (d_runs (y_db sample_claimed) !! id)),
      (default no_locks (y_with sample_claimed !! id)), (MkSemaphore "gpu" 2).
    apply elem_of_cons in Hid as [->|Hid%list_elem_of_singleton]; [|subst].
    + split; [vm_compute; reflexivity|]. split; [by right|]. split; [vm_compute; reflexivity|]. split; [left|done].
    + split; [vm_compute; reflexivity|]. split; [by left|]. split; [vm_compute; reflexivity|]. split; [left|done].
Defined.

(** ** Finishing and claiming *)

(** Finishing a run is a compare-and-set that owns the release of the
    locks.  With a terminal target the call reports success exactly when the
    run exists, is not finished and is in the expected status; then the run
    has the target status and every lock it held is free, all else being
    unchanged.  Otherwise nothing at all changes, the locks of a run that moved
    on included.  A target that is not terminal is an error. *)
Theorem finish_exact (id : runid) (expected : option RunStatus) (status : RunStatus) (d : db) :
  if terminal status then
    ∃ b d', finishRunFrom id expected status d = Ok (b, d') ∧
      (b = true ↔ ∃ r, d_runs d !! id = Some r ∧ terminal (r_status r) = false ∧ expected_met expected r) ∧
      (b = false → d' = d) ∧
      (b = true →
         status_of d' id = Some status ∧
         (∀ j, j ≠ id → d_runs d' !! j = d_runs d !! j) ∧
         (∀ l, holder d' l = (if bool_decide (holder d l = Some id) then None else holder d l)) ∧
         dom (d_slots d') = dom (d_slots d) ∧ d_agents d' = d_agents d ∧ d_reports d' = d_reports d)
  else ∃ e, finishRunFrom id expected status d = Err e.
Proof.
  destruct (finishRunFrom id expected status d) as [[b d']|e] eqn:E.
  - apply finishRunFrom_cases in E as [-> [(-> & -> & Hno)|(r & -> & Hr & Hn & He & ->)]]; eexists _, _;
      (split; [done|]).
    + split; [|by split; [intros; done|]]. split; [done|]. intros (r & Hr & Hn & He).
      destruct (Hno r Hr) as [Ht|Hne]; [congruence|done].
    + split; [split; [eauto|done]|]. split; [done|]. intros _. unfold status_of. simpl. split_and!; [| | | |done..].
      * by rewrite lookup_insert_eq.
      * intros j Hj. by rewrite lookup_insert_ne.
      * intros [x|p i]; simpl; apply option_eq; intros j.
        -- rewrite release_mutexes_lookup. case_bool_decide as Hb; rewrite ?Hb; naive_solver.
        -- rewrite join_Some, release_slots_held. case_bool_decide as Hb; rewrite ?join_Some in *; [naive_solver|].
           split; [naive_solver|]. intros Hj. split; [done|]. naive_solver.
      * unfold release_slots. by rewrite dom_fmap_L.
  - unfold finishRunFrom in E. destruct (terminal status); simpl in E; [|by eexists]. repeat case_match; discriminate.
Qed.

(** Claiming is first come, first served among the runs the agent can
    take.  A claim that finds a run gives the agent the oldest unlocked queued
    run whose labels, capabilities and volumes the agent satisfies, marks it
    running under the agent's name and changes nothing else; it comes back
    empty only when there is no such run.  A run never reaches an agent that
    lacks a required capability, an agent that advertised none having the
    legacy ones. *)
Theorem claim_oldest (visit : gmap runid run → list (runid * run)) (locked : runid → bool)
    (agentID : string) (labels busy : list string) (detached : bool) (now : Z) (d : db) :
  (∀ m, visit m ≡ₚ map_to_list m) →
  let can r := r_status r = RunQueued ∧ r_detached r = detached ∧
    (∀ l, l ∈ r_selector r → l ∈ labels) ∧
    (∀ c, c ∈ r_caps r → c ∈ default LegacyAgentCapabilities ((d_agents d !! agentID) ≫= a_caps)) ∧
    (∀ v, v ∈ r_volumes r → ∃ n, n ∈ v ∧ (n ∉ busy) ∧ ∃ a, (d_agents d !! agentID = Some a) ∧ n ∈ a_volumes a) in
  match claimNextRun visit locked agentID labels busy detached now d with
  | (Some (id, r'), d') =>
      ∃ r, d_runs d !! id = Some r ∧ locked id = false ∧ can r ∧
        (∀ j x, d_runs d !! j = Some x → locked j = false → can x → (r_created r ≤ r_created x)%Z) ∧
        r' = with_claim (Some agentID) (Some now) RunRunning r ∧ d' = set_runs <[id := r']> d
  | (None, d') => d' = d ∧ ∀ j x, d_runs d !! j = Some x → locked j = false → ¬ can x
  end.
Proof.
  intros Hv can. assert (∀ r, claimable d agentID labels busy detached r = true ↔ can r) as Hcan.
  { intros r. unfold claimable, can, covers, volumes_free.
    rewrite !andb_true_iff, bool_decide_eq_true, eqb_true_iff, !forallb_forall.
    setoid_rewrite <-list_elem_of_In. setoid_rewrite bool_decide_eq_true. setoid_rewrite existsb_elem.
    setoid_rewrite andb_true_iff. setoid_rewrite negb_true_iff. setoid_rewrite bool_decide_eq_true.
    setoid_rewrite bool_decide_eq_false. destruct (d_agents d !! agentID) as [a|]; simpl; [naive_solver|].
    setoid_rewrite elem_of_nil. naive_solver. }
  pose proof (claim_cases visit Hv locked agentID labels busy detached now d) as H. simpl in H.
  destruct (claimNextRun _ _ _ _ _ _ _ _) as [[[id r']|] d'].
  - destruct H as (r & Hr & [Hc Hl] & -> & -> & Hmin). exists r. rewrite Hcan in Hc. split_and!; try done; try apply Hc.
    intros j x Hj Hlj Hx. eapply Hmin; [done|]. by rewrite Hcan.
  - destruct H as [-> H]. split; [done|]. intros j x Hj Hlj Hx. eapply H; [done|]. by rewrite Hcan.
Qed.

Lemma claim_oldest_witness :
  ∃ r', (claimNextRun map_to_list (λ _, false) "agent-1" [] [] false 9 (y_db sample_queued)).1 = Some (1%N, r')
    ∧ ∃ r, d_runs (y_db sample_queued) !! 1%N = Some r ∧ r_status r = RunQueued.
Proof.
  pose proof (claim_oldest map_to_list (λ _, false) "agent-1" [] [] false 9 (y_db sample_queued) (λ m, reflexivity _)) as H.
  simpl in H. eexists. split; [vm_compute; reflexivity|].
  assert ((claimNextRun map_to_list (λ _, false) "agent-1" [] [] false 9 (y_db sample_queued)).1 <> None)
    as Hn by (vm_compute; discriminate).
  assert (∀ x, (claimNextRun map_to_list (λ _, false) "agent-1" [] [] false 9 (y_db sample_queued)).1 = Some x → x.1 = 1%N)
    as Hone by (intros x Hx; vm_compute in Hx; injection Hx as <-; reflexivity).
  destruct (claimNextRun _ _ _ _ _ _ _ _) as [[[id r']|] d']; simpl in *; [|done].
  specialize (Hone _ eq_refl). simpl in Hone. subst id. destruct H as (r & Hr & _ & [Hq _] & _). eauto.
Defined.
