(* ===== verification/StoreSweep.v ===== *)
(** * The scheduler's sweep over the Pending runs

    [RunScheduler] ([controller/scheduler.go]) examines the Pending runs in
    windows of [pendingWindow], threading a cursor from tick to tick.  No run
    that stays Pending is passed over for ever ([sweep_examines]), whatever
    happens to the database between the ticks. *)

From S2P Require Import Prelude DslTypes DslMatrix StoreRuns.
From stdpp Require Import options.

(** ** Rows in (created_at, id) order *)

Abbreviation key := (Z * runid)%type (only parsing).

Lemma after_irrefl (k : key) : ¬ after_cursor k k.
Proof. unfold after_cursor. lia. Qed.

Lemma after_trans (a b c : key) : after_cursor a b → after_cursor b c → after_cursor a c.
Proof. unfold after_cursor. lia. Qed.

Lemma after_total (a b : key) : a ≠ b → after_cursor a b ∨ after_cursor b a.
Proof.
  destruct a as [t i], b as [t' i']. unfold after_cursor. simpl. intros H.
  assert (t ≠ t' ∨ i ≠ i') by (destruct (decide (t = t')); [right|left]; congruence). lia.
Qed.

Lemma row_le_spec x y : row_le x y ↔ after_cursor (row_key x) (row_key y) ∨ row_key x = row_key y.
Proof.
  unfold row_le. split.
  - intros H. destruct (decide (row_key x = row_key y)); [by right|].
    destruct (after_total (row_key x) (row_key y)); tauto.
  - intros [H| ->]; [|apply after_irrefl]. intros H'. eapply after_irrefl, after_trans; eauto.
Qed.

#[export] Instance row_le_trans : Transitive row_le.
Proof.
  intros x y z [Hx|Hx]%row_le_spec [Hy|Hy]%row_le_spec; apply row_le_spec; rewrite ?Hx, <-?Hy; auto.
  left. by eapply after_trans.
Qed.
#[export] Instance row_le_total : Total row_le.
Proof.
  intros x y. rewrite !row_le_spec. destruct (decide (row_key x = row_key y)) as [->|H]; [auto|].
  destruct (after_total _ _ H); auto.
Qed.

Lemma pending_elem d x : x ∈ pending_rows d ↔ d_runs d !! x.1 = Some x.2 ∧ r_status x.2 = RunPending.
Proof.
  unfold pending_rows. rewrite merge_sort_Permutation, list_elem_of_filter.
  destruct x as [id r]. rewrite elem_of_map_to_list. tauto.
Qed.

Lemma pending_nodup d : NoDup (pending_rows d).
Proof. unfold pending_rows. rewrite merge_sort_Permutation. apply NoDup_filter, NoDup_map_to_list. Qed.

Lemma pending_key_inj d x y : x ∈ pending_rows d → y ∈ pending_rows d → row_key x = row_key y → x = y.
Proof.
  destruct x as [i r], y as [j r']. intros [Hx _]%pending_elem [Hy _]%pending_elem [= _ ->]. simpl in *. congruence.
Qed.

(** The window after the cursor, before it is cut. *)
Definition window (after : option PendingCursor) (d : db) : list (runid * run) :=
  match cursor_key after with
  | None => pending_rows d
  | Some c => filter (λ x, after_cursor c (row_key x)) (pending_rows d)
  end.

Definition beyond (after : option PendingCursor) (k : key) : Prop :=
  match cursor_key after with None => True | Some c => after_cursor c k end.

#[export] Instance beyond_dec after k : Decision (beyond after k).
Proof. unfold beyond. destruct (cursor_key after); apply _. Defined.

Lemma candidates_window limit after d : candidates limit after d = take limit (window after d).
Proof. done. Qed.

Lemma window_elem after d x : x ∈ window after d ↔ x ∈ pending_rows d ∧ beyond after (row_key x).
Proof.
  unfold window, beyond. destruct (cursor_key after); [rewrite list_elem_of_filter|]; tauto.
Qed.

Lemma StronglySorted_sublist {A} (R : A → A → Prop) l k : l `sublist_of` k → StronglySorted R k → StronglySorted R l.
Proof.
  induction 1 as [|x l k Hs IH|x l k Hs IH]; intros H; [done| |]; apply StronglySorted_cons in H as [Hx H].
  - apply StronglySorted_cons. split; [|auto]. rewrite Forall_forall in *. intros y Hy. apply Hx.
    exact (sublist_subseteq _ _ Hs y Hy).
  - auto.
Qed.

Lemma window_sublist after d : window after d `sublist_of` pending_rows d.
Proof. unfold window. destruct (cursor_key after); [apply sublist_filter|done]. Qed.

Lemma window_sorted after d : StronglySorted row_le (window after d).
Proof.
  eapply StronglySorted_sublist; [apply window_sublist|]. apply StronglySorted_merge_sort; apply _.
Qed.

(** ** One tick *)

(** A row of the window that the batch does not reach is after everything in
    the batch, and the batch is full. *)
Lemma missed limit after d x :
  x ∈ window after d → x ∉ candidates limit after d →
  length (candidates limit after d) = limit ∧ ∀ y, y ∈ candidates limit after d → row_le y x.
Proof.
  rewrite candidates_window. pose proof (window_sorted after d) as Hs. revert Hs.
  generalize (window after d) as l. intros l Hs Hx Hno.
  rewrite <-(take_drop limit l) in Hx, Hs. apply elem_of_app in Hx as [Hx|Hx]; [done|].
  split.
  - apply length_take_le. destruct (drop limit l) eqn:E; [by apply elem_of_nil in Hx|].
    assert (length (drop limit l) ≠ 0%nat) by (by rewrite E). rewrite length_drop in *. lia.
  - intros y Hy. by eapply StronglySorted_app_1_elem_of.
Qed.

Lemma next_cursor_spec limit cs :
  0 < limit →
  match next_cursor limit cs with
  | Some c => length cs = limit ∧ ∃ x, last cs = Some x ∧ (pc_CreatedAt c, pc_ID c) = row_key x
  | None => length cs ≠ limit
  end.
Proof.
  intros Hl. unfold next_cursor. destruct (last cs) as [[id r]|] eqn:E.
  - case_bool_decide as H; [|lia]. split; [lia|]. by exists (id, r).
  - apply last_None in E as ->. simpl. lia.
Qed.

(** A cursor set at a key beyond another cursor has less beyond it. *)
Lemma beyond_trans after k k' : beyond after k → after_cursor k k' → beyond after k'.
Proof. unfold beyond. destruct (cursor_key after); [apply after_trans|done]. Qed.

Section progress.
Context (limit : nat) (Hlimit : 0 < limit) (U : gset key) (k0 : key).
(** Every Pending run has its key among [U], none at Go's zero time. *)
Definition within (d : db) : Prop :=
  ∀ x, x ∈ pending_rows d → row_key x ∈ U ∧ r_created x.2 ≠ 0%Z.

Definition count (P : key → Prop) `{!∀ k, Decision (P k)} : nat := size (filter P U).

Lemma count_le (P Q : key → Prop) `{!∀ k, Decision (P k), !∀ k, Decision (Q k)} :
  (∀ k, P k → Q k) → count P ≤ count Q.
Proof using Type. intros HPQ. apply subseteq_size. intros k. rewrite !elem_of_filter. naive_solver. Qed.

Lemma candidates_pending after d x : x ∈ candidates limit after d → x ∈ pending_rows d ∧ beyond after (row_key x).
Proof using Type.
  rewrite candidates_window. intros Hx%(sublist_subseteq _ _ (sublist_take (window after d) limit)).
  by apply window_elem.
Qed.

Lemma candidates_keys_nodup after d : NoDup (row_key <$> candidates limit after d).
Proof using Type.
  apply NoDup_fmap_2_strong.
  - intros x y [Hx _]%candidates_pending [Hy _]%candidates_pending. by eapply pending_key_inj.
  - rewrite candidates_window. eapply sublist_NoDup; [apply (pending_nodup d)|].
    etrans; [apply sublist_take|apply window_sublist].
Qed.

(** The last candidate closes the batch. *)
Lemma candidates_last after d x y :
  last (candidates limit after d) = Some x → y ∈ candidates limit after d → row_le y x.
Proof using Type.
  intros Hx Hy. pose proof (window_sorted after d) as Hs. rewrite candidates_window in *.
  eapply StronglySorted_sublist in Hs; [|apply (sublist_take _ limit)].
  apply last_Some in Hx as [l E]. rewrite E in Hs, Hy.
  apply elem_of_app in Hy as [Hy|Hy%list_elem_of_singleton].
  - eapply StronglySorted_app_1_elem_of; [exact Hs|done|left].
  - subst. apply row_le_spec. by right.
Qed.

(** A full batch takes [limit] keys out of those beyond the cursor. *)
Lemma full_batch after d c (P : key → Prop) `{!∀ k, Decision (P k)} :
  within d → next_cursor limit (candidates limit after d) = Some c →
  (∀ y, y ∈ candidates limit after d → P (row_key y)) →
  (∃ x, x ∈ candidates limit after d ∧ cursor_key (Some c) = Some (row_key x)) ∧
  count (λ k, beyond (Some c) k ∧ P k) + limit ≤ count (λ k, beyond after k ∧ P k).
Proof using Hlimit.
  intros Hw Hnext HP. pose proof (next_cursor_spec limit (candidates limit after d) Hlimit) as Hn.
  rewrite Hnext in Hn. destruct Hn as (Hlen & x & Hlast & Hkey).
  assert (x ∈ candidates limit after d) as Hx by (apply last_Some_elem_of; done).
  destruct (candidates_pending _ _ _ Hx) as [Hp Hbx]. destruct (Hw x Hp) as [_ Hnz].
  assert (cursor_key (Some c) = Some (row_key x)) as Hck.
  { unfold cursor_key. rewrite Hkey. assert (pc_CreatedAt c = r_created x.2) as -> by (by injection Hkey).
    by rewrite (proj2 (Z.eqb_neq _ _) Hnz). }
  split; [eauto|]. set (C := list_to_set (row_key <$> candidates limit after d) : gset key).
  assert (size C = limit) as Hsize.
  { unfold C. rewrite size_list_to_set by apply candidates_keys_nodup. by rewrite length_fmap. }
  assert (∀ k, k ∈ C → (beyond after k ∧ P k) ∧ k ∈ U ∧ ¬ beyond (Some c) k) as HC.
  { intros k (y & -> & Hy)%elem_of_list_to_set%list_elem_of_fmap. destruct (candidates_pending _ _ _ Hy) as [Hyp ?].
    split; [auto|]. split; [by apply Hw|]. unfold beyond. rewrite Hck. exact (candidates_last _ _ _ _ Hlast Hy). }
  rewrite <-Hsize at 1. unfold count. rewrite <-size_union.
  - apply subseteq_size. intros k. rewrite elem_of_union, !elem_of_filter. intros [[[Hb Hk] ?]|Hk].
    + split; [|done]. split; [|done]. unfold beyond in Hb at 1. rewrite Hck in Hb. by eapply beyond_trans.
    + apply HC in Hk. naive_solver.
  - intros k. rewrite elem_of_filter. intros [[Hb _] _] Hk. by apply HC in Hk as (_ & _ & ?).
Qed.

(** How far the sweep is from [k0]. *)
Definition upto (k : key) : Prop := ¬ after_cursor k0 k.
Definition distance (after : option PendingCursor) : nat :=
  if decide (beyond after k0) then count (λ k, beyond after k ∧ upto k)
  else count (λ k, beyond after k ∧ True) + limit + count upto.

Lemma tick_progress after d x :
  within d → x ∈ pending_rows d → row_key x = k0 → x ∉ candidates limit after d →
  distance (next_cursor limit (candidates limit after d)) + limit ≤ distance after.
Proof using Hlimit.
  intros Hw Hx Hk Hno. unfold distance at 2. destruct (decide (beyond after k0)) as [Hb|Hb].
  - assert (x ∈ window after d) as Hwin by (apply window_elem; rewrite Hk; auto).
    destruct (missed limit after d x Hwin Hno) as [Hfull Hle].
    pose proof (next_cursor_spec limit (candidates limit after d) Hlimit) as Hn.
    destruct (next_cursor _ _) as [c|] eqn:E; [clear Hn|lia].
    destruct (full_batch after d c upto Hw E) as [(y & Hy & Hc) Hcount].
    { intros y Hy. unfold upto. rewrite <-Hk. exact (Hle y Hy). }
    assert (beyond (Some c) k0) as Hbc.
    { unfold beyond. rewrite Hc. destruct (proj1 (row_le_spec y x) (Hle y Hy)) as [Hlt|Heq]; [by rewrite <-Hk|].
      exfalso. apply Hno. rewrite <-(pending_key_inj d y x); [done| |done|done]. by eapply candidates_pending. }
    unfold distance. by rewrite decide_True.
  - pose proof (next_cursor_spec limit (candidates limit after d) Hlimit) as Hn.
    destruct (next_cursor _ _) as [c|] eqn:E; [clear Hn|].
    + destruct (full_batch after d c (λ _, True) Hw E) as [(y & Hy & Hc) Hcount]; [done|].
      assert (¬ beyond (Some c) k0) as Hbc.
      { apply candidates_pending in Hy as [_ Hy]. unfold beyond at 1. rewrite Hc. intros Hlt.
        apply Hb. by eapply beyond_trans. }
      unfold distance. rewrite decide_False by done. lia.
    + unfold distance. rewrite decide_True by exact I.
      assert (count (λ k, beyond None k ∧ upto k) ≤ count upto) by (apply count_le; tauto). lia.
Qed.

Lemma distance_bound after : distance after ≤ size U + limit.
Proof using Hlimit.
  unfold distance. destruct (decide _) as [Hb|Hb].
  - transitivity (size U); [|lia]. apply subseteq_size. intros k. rewrite elem_of_filter. tauto.
  - assert (count (λ k, beyond after k ∧ True) + count upto ≤ size U); [|lia].
    unfold count. rewrite <-size_union.
    + apply subseteq_size. intros k. rewrite elem_of_union, !elem_of_filter. tauto.
    + intros k. rewrite !elem_of_filter. intros [[Hk _] _] [Hu _]. unfold upto in Hu.
      destruct (decide (k = k0)) as [->|Hne]; [done|].
      destruct (after_total k k0 Hne) as [?|?]; [|done]. apply Hb. by eapply beyond_trans.
Qed.
End progress.

(** ** The sweep *)

(** [pendingWindow] of [scheduler.go]. *)
Definition pendingWindow : nat := 50.

(** One tick of a leader whose store calls succeed, and the cursor it carries
    from tick to tick over the databases [ds] it finds; a tick that errs gives
    up leadership, and the next leader starts at the head. *)
Definition sched_tick (ET : string → TemplateData → res string) (js : string → option (list string))
    (locked : string * Z → bool) (cursor : option PendingCursor) (d : db) : nat * option PendingCursor * db :=
  TransitionPendingToQueuedFrom ET js locked pendingWindow cursor d.

Fixpoint cursor_at (ET : string → TemplateData → res string) (js : string → option (list string))
    (locked : string * Z → bool) (start : option PendingCursor) (ds : nat → db) (k : nat) : option PendingCursor :=
  match k with
  | O => start
  | S k => (sched_tick ET js locked (cursor_at ET js locked start ds k) (ds k)).1.2
  end.

(** The runs a tick examines: [tryQueueRun] is called on each. *)
Definition examined (cursor : option PendingCursor) (d : db) : list runid :=
  (candidates pendingWindow cursor d).*1.

Lemma tick_next ET js locked cursor d :
  (sched_tick ET js locked cursor d).1.2 = next_cursor pendingWindow (candidates pendingWindow cursor d).
Proof.
  unfold sched_tick, TransitionPendingToQueuedFrom. by destruct (queue_all _ _ _ _ _).
Qed.

(** C4: no Pending run starves behind blocked ones.  Whatever the other
    replicas, agents and users do between the ticks, a run that stays Pending is
    examined within the next [N / pendingWindow + 2] ticks, [N] bounding the
    Pending runs seen meanwhile: the window moves past runs that stay blocked,
    and wraps at the end. *)
Theorem sweep_examines (ET : string → TemplateData → res string) (js : string → option (list string))
    (locked : string * Z → bool) (start : option PendingCursor) (ds : nat → db) (U : gset (Z * runid))
    (id : runid) (created : Z) :
  (∀ k, within U (ds k)) →
  (∀ k, ∃ r, d_runs (ds k) !! id = Some r ∧ r_status r = RunPending ∧ r_created r = created) →
  ∃ k, k < size U / pendingWindow + 2 ∧ id ∈ examined (cursor_at ET js locked start ds k) (ds k).
Proof.
  intros HU Hx. set (cur := cursor_at ET js locked start ds).
  destruct (decide (Exists (λ k, id ∈ examined (cur k) (ds k)) (seq 0 (size U / pendingWindow + 2)))) as [He|Hn].
  - apply Exists_exists in He as (k & Hk%elem_of_seq & He). exists k. split; [lia|done].
  - exfalso. assert (0 < pendingWindow) as Hl by (unfold pendingWindow; lia).
    assert (∀ k, k ≤ size U / pendingWindow + 2 →
              distance pendingWindow U (created, id) (cur k) + k * pendingWindow ≤ size U + pendingWindow) as H.
    { induction k as [|k IH]; intros Hk; [pose proof (distance_bound pendingWindow Hl U (created, id) (cur 0)) as Hd; rewrite Nat.add_0_r; exact Hd|].
      specialize (IH ltac:(lia)). destruct (Hx k) as (r & Hr & Hp & Hc).
      assert ((id, r) ∉ candidates pendingWindow (cur k) (ds k)) as Hno.
      { intros Hin. apply Hn, Exists_exists. exists k. rewrite elem_of_seq. split; [lia|].
        apply list_elem_of_fmap. by exists (id, r). }
      pose proof (tick_progress pendingWindow Hl U (created, id) (cur k) (ds k) (id, r)) as Ht.
      assert (cur (S k) = next_cursor pendingWindow (candidates pendingWindow (cur k) (ds k))) as -> by apply tick_next.
      specialize (Ht (HU k)). rewrite pending_elem in Ht. specialize (Ht (conj Hr Hp)).
      unfold row_key in Ht. simpl in Ht. rewrite Hc in Ht. specialize (Ht eq_refl Hno). lia. }
    specialize (H _ ltac:(reflexivity)). pose proof (Nat.div_mod_eq (size U) pendingWindow) as E.
    pose proof (Nat.mod_upper_bound (size U) pendingWindow). nia.
Qed.

(** Sixty runs created one after the other, none of which can be queued: the
    last one is examined by the second tick. *)
Definition backlog : db :=
  MkDb (list_to_map ((λ i, (N.of_nat i, new_run "job" ∅ None [] [] (Z.of_nat i))) <$> seq 1 60)) ∅ ∅ ∅ ∅.

Lemma sweep_examines_witness :
  ∃ k, k < 3 ∧ 60%N ∈ examined (cursor_at (λ s _, Ok s) (λ _, None) (λ _, false) None (λ _, backlog) k) backlog.
Proof.
  pose proof (sweep_examines (λ s _, Ok s) (λ _, None) (λ _, false) None (λ _, backlog)
    (list_to_set (row_key <$> pending_rows backlog)) 60 60) as H.
  replace (size _ / pendingWindow + 2) with 3 in H by (vm_compute; reflexivity). apply H.
  - intros _ x Hx. split; [apply elem_of_list_to_set, list_elem_of_fmap; eauto|].
    assert (Forall (λ x, r_created x.2 ≠ 0%Z) (pending_rows backlog)) as HF
      by (apply (bool_decide_unpack _); vm_compute; reflexivity).
    rewrite Forall_forall in HF. by apply HF.
  - intros _. eexists. split; [vm_compute; reflexivity|done].
Defined.
