(* ===== verification/RunControl.v ===== *)
(** * internal/controller: how runs are ended

    The controller's side of the end of a run: the cancel cascade over the
    [call:] tree and its handlers ([api_runs.go]) and the two reapers
    ([queuedrun_reaper.go], [stuckrun_reaper.go]).

    Store calls that may fail with a database error are modelled with a verdict
    per call ([lists], [marks]: true when the call succeeds), because the code
    goes on after such an error.  Advisory locks, logs and metrics are not
    modelled. *)

From S2P Require Import Prelude GoStrings DslTypes StoreRuns StoreLocks.
From stdpp Require Import options.

(** ** The cascade *)

Section cascade.
(** The rows of [step_reports] in the order they are visited; whether listing
    the children of a run and cancelling a run succeed. *)
Variables (visit : gmap (runid * Z * string) report → list ((runid * Z * string) * report))
          (lists marks : runid → bool).

Record walk := MkWalk { wk_visited : gset runid; wk_queue : list runid; wk_db : db }.

(** [MarkRunFinished(ctx, child, api.RunCancelled)], whose error is logged. *)
Definition mark_cancelled (id : runid) (d : db) : db :=
  if marks id then match MarkRunFinished id RunCancelled d with Ok d' => d' | Err _ => d end else d.

Definition visit_child (w : walk) (child : runid) : walk :=
  if bool_decide (child ∈ wk_visited w) then w
  else MkWalk ({[child]} ∪ wk_visited w) (wk_queue w ++ [child]) (mark_cancelled child (wk_db w)).

(** One iteration of [for len(queue) > 0]; [None] when the queue is empty. *)
Definition cascade_step (w : walk) : option walk :=
  match wk_queue w with
  | [] => None
  | parent :: queue =>
      let w := MkWalk (wk_visited w) queue (wk_db w) in
      Some (if lists parent then fold_left visit_child (ListChildRunIDs visit parent (wk_db w)) w else w)
  end.

Fixpoint cascade (fuel : nat) (w : walk) : option walk :=
  match cascade_step w with
  | None => Some w
  | Some w' => match fuel with O => None | S fuel => cascade fuel w' end
  end.

(** Every run enters the queue once, and only as the child of some report. *)
Definition cascade_fuel (d : db) : nat := S (size (d_reports d)).

Definition cancelDescendantRuns (rootID : runid) (d : db) : option db :=
  wk_db <$> cascade (cascade_fuel d) (MkWalk {[rootID]} [rootID] d).
End cascade.

(** ** Handlers and reapers that end runs *)

Section handlers.
Variables (visit : gmap (runid * Z * string) report → list ((runid * Z * string) * report))
          (lists marks : runid → bool).

(** [handleCancelRun]: the answer's status, and the database. *)
Definition handleCancelRun (id : runid) (d : db) : option (Z * db) :=
  if negb (marks id) then Some (500, d)%Z
  else
    match MarkRunFinished id RunCancelled d with
    | Err _ => Some (500, d)%Z
    | Ok d => (pair 204%Z) <$> cancelDescendantRuns visit lists marks id d
    end.

(** [handleDeleteRun], the archived logs and cached objects of the run apart. *)
Definition handleDeleteRun (id : runid) (d : db) : Z * db :=
  match d_runs d !! id with
  | None => (404, d)%Z
  | Some r => if terminal (r_status r) then (204%Z, DeleteRun id d) else (409, d)%Z
  end.

(** [failOrphanedRun]; [ok1] and [ok2] say whether its two writes succeed. *)
Definition failOrphanedRun (ok1 ok2 : bool) (now : Z) (id : runid) (d : db) : option (bool * db) :=
  if negb ok1 then Some (false, d)
  else
    let d := MarkRunStepsInterrupted id now d in
    if negb ok2 then Some (false, d)
    else
      match MarkRunFinished id RunFailed d with
      | Err _ => Some (false, d)
      | Ok d => (pair true) <$> cancelDescendantRuns visit lists marks id d
      end.

(** One reference of [runQueuedRunReaperOnce]'s loop, and the loop. *)
Definition reap_queued (id : runid) (d : db) : option db :=
  match FinishRunIfStatus id (Some RunQueued) RunFailed d with
  | Ok (true, d') => cancelDescendantRuns visit lists marks id d'
  | Ok (false, d') => Some d'
  | Err _ => Some d
  end.

Fixpoint reap_all (ids : list runid) (d : db) : option db :=
  match ids with
  | [] => Some d
  | id :: ids => d' ← reap_queued id d; reap_all ids d'
  end.

(** The references may be older than the database the loop writes to. *)
Definition runQueuedRunReaperOnce (refs : list (runid * list string)) (d : db) : option db :=
  reap_all refs.*1 d.

(** [runStuckRunReaperOnce]: a run whose agent's row is missing is failed only
    when it has been listed so, sweep after sweep, for [staleAfter]. *)
Definition forget (refs : list StuckRunRef) (missingSince : gmap runid Z) : gmap runid Z :=
  filter (λ kv, existsb (λ ref, bool_decide (sk_ID ref = kv.1) && sk_AgentMissing ref) refs = true) missingSince.

Definition confirmed (now staleAfter : Z) (ref : StuckRunRef) (missingSince : gmap runid Z) : bool * gmap runid Z :=
  if sk_AgentMissing ref then
    match missingSince !! sk_ID ref with
    | None => (false, <[sk_ID ref := now]> missingSince)
    | Some first => (negb (now - first <? staleAfter)%Z, missingSince)
    end
  else (true, missingSince).

Definition reap_stuck (now staleAfter : Z) (oks : runid → bool * bool)
    (st : gmap runid Z * db) (ref : StuckRunRef) : option (gmap runid Z * db) :=
  let '(act, missing) := confirmed now staleAfter ref st.1 in
  if negb act then Some (missing, st.2)
  else
    '(ok, d) ← failOrphanedRun (oks (sk_ID ref)).1 (oks (sk_ID ref)).2 now (sk_ID ref) st.2;
    Some (if ok : bool then delete (sk_ID ref) missing else missing, d).

Fixpoint reap_stuck_all (now staleAfter : Z) (oks : runid → bool * bool) (refs : list StuckRunRef)
    (st : gmap runid Z * db) : option (gmap runid Z * db) :=
  match refs with
  | [] => Some st
  | ref :: refs => st' ← reap_stuck now staleAfter oks st ref; reap_stuck_all now staleAfter oks refs st'
  end.

Definition runStuckRunReaperOnce (now staleAfter : Z) (oks : runid → bool * bool) (refs : list StuckRunRef)
    (missingSince : gmap runid Z) (d : db) : option (gmap runid Z * db) :=
  reap_stuck_all now staleAfter oks refs (forget refs missingSince, d).
End handlers.
