(* ===== verification/RunControlFacts.v ===== *)
(** * internal/controller: the cascade is exact and terminates

    [cascade_exact] for [cancelDescendantRuns], and what the reapers never do. *)

From S2P Require Import Prelude GoStrings DslTypes StoreRuns StoreLocks StoreLife StoreSpec RunControl.
From stdpp Require Import options.

Lemma list_to_set_size (l : list runid) : size (list_to_set l : gset runid) ≤ length l.
Proof.
  induction l as [|x l IH]; simpl; [done|].
  rewrite size_union_alt, size_singleton. assert (size (list_to_set l ∖ {[x]} : gset runid) ≤ size (list_to_set l : gset runid));
    [|lia]. apply subseteq_size. set_solver.
Qed.

Section effect.
Variable marks : runid → bool.

(** ** What cancelling a set of runs does *)

Definition live (d : db) (j : runid) : bool :=
  match d_runs d !! j with Some r => negb (terminal (r_status r)) | None => false end.

Definition hit (d : db) (P : runid → Prop) (j : runid) : Prop := P j ∧ marks j && live d j = true.

Record cancels (P : runid → Prop) (d d' : db) : Prop := {
  ca_hit : ∀ j, hit d P j → d_runs d' !! j = with_status RunCancelled <$> d_runs d !! j;
  ca_miss : ∀ j, ¬ hit d P j → d_runs d' !! j = d_runs d !! j;
  ca_locks : ∀ l j, holder d' l = Some j ↔ holder d l = Some j ∧ ¬ hit d P j;
  ca_reports : d_reports d' = d_reports d
}.

Lemma cancels_ext P Q d d' : (∀ j, P j ↔ Q j) → cancels P d d' → cancels Q d d'.
Proof using Type.
  intros H [Hh Hm Hl Hr]. assert (∀ j, hit d P j ↔ hit d Q j) as E by (intros j; unfold hit; by rewrite H).
  split; [intros j ?; apply Hh; by apply E|intros j ?; apply Hm; by rewrite E|intros l j; by rewrite Hl, E|done].
Qed.

Lemma cancels_none P d : (∀ j, ¬ P j) → cancels P d d.
Proof using Type.
  intros H. assert (∀ j, ¬ hit d P j) as Hn by (intros j [Hp _]; by apply (H j)).
  split; [intros j Hh; by destruct (Hn j)|done| |done]. intros l j. naive_solver.
Qed.

(** [finishRunFrom] on the locks, by holder. *)
Lemma finish_mark c d :
  match MarkRunFinished c RunCancelled d with
  | Ok d' =>
      d_reports d' = d_reports d ∧ (∀ j, j ≠ c → d_runs d' !! j = d_runs d !! j)
      ∧ if live d c
        then d_runs d' !! c = with_status RunCancelled <$> d_runs d !! c
             ∧ (∀ l j, holder d' l = Some j ↔ holder d l = Some j ∧ j ≠ c)
        else d' = d
  | Err _ => False
  end.
Proof using Type.
  unfold MarkRunFinished, FinishRun, live. destruct (finishRunFrom c None RunCancelled d) as [[b d']|] eqn:E.
  - apply finishRunFrom_cases in E as [_ [(-> & -> & Hno)|(r & -> & Hr & Hn & _ & ->)]]; simpl.
    + split; [done|]. split; [done|]. destruct (d_runs d !! c) as [r|]; [|done].
      destruct (Hno r eq_refl) as [->|[]]; done.
    + split; [done|]. split; [intros; by rewrite lookup_insert_ne|].
      rewrite Hr, Hn. simpl. split; [by rewrite lookup_insert_eq|].
      intros [x|p i] j; simpl; [apply release_mutexes_lookup|]. by rewrite !join_Some, release_slots_held.
  - unfold finishRunFrom in E. simpl in E. repeat case_match; discriminate.
Qed.

Lemma cancels_mark P c d d1 :
  cancels P d d1 → ¬ P c → cancels (λ j, P j ∨ j = c) d (mark_cancelled marks c d1).
Proof using Type.
  intros [Hh Hm Hl Hr] Hc. assert (d_runs d1 !! c = d_runs d !! c) as Ec by (apply Hm; by intros [? _]).
  assert (live d1 c = live d c) as El by (unfold live; by rewrite Ec).
  assert (∀ j, j ≠ c → hit d (λ j, P j ∨ j = c) j ↔ hit d P j) as Hj by (intros j ?; unfold hit; naive_solver).
  destruct (marks c && live d c) eqn:Em.
  - apply andb_true_iff in Em as [Em Elc]. unfold mark_cancelled. rewrite Em.
    pose proof (finish_mark c d1) as Hf. destruct (MarkRunFinished c RunCancelled d1) as [d2|]; [|done].
    rewrite El, Elc in Hf. destruct Hf as (E1 & E2 & E3 & E4).
    assert (hit d (λ j, P j ∨ j = c) c) as Hhit by (split; [by right|by rewrite Em, Elc]). split.
    + intros j Hhj. destruct (decide (j = c)) as [->|Hne]; [by rewrite E3, Ec|].
      rewrite E2 by done. apply Hh. by apply Hj.
    + intros j Hhj. destruct (decide (j = c)) as [->|Hne]; [done|]. rewrite E2 by done. apply Hm. by rewrite <-Hj.
    + intros l j. rewrite E4, Hl. destruct (decide (j = c)) as [->|Hne]; [naive_solver|].
      rewrite Hj by done. naive_solver.
    + by rewrite E1.
  - assert (mark_cancelled marks c d1 = d1) as ->.
    { unfold mark_cancelled. destruct (marks c); [|done]. simpl in Em.
      pose proof (finish_mark c d1) as Hf. destruct (MarkRunFinished c RunCancelled d1) as [d2|]; [|done].
      rewrite El, Em in Hf. by destruct Hf as (_ & _ & ->). }
    assert (∀ j, hit d (λ j, P j ∨ j = c) j ↔ hit d P j) as Hj'.
    { intros j. destruct (decide (j = c)) as [->|]; [|by apply Hj]. unfold hit. rewrite Em. naive_solver. }
    split; [intros j ?; apply Hh; by apply Hj'|intros j ?; apply Hm; by rewrite <-Hj'| |done].
    intros l j. by rewrite Hl, Hj'.
Qed.
End effect.

Section cascade.
Variables (visit : gmap (runid * Z * string) report → list ((runid * Z * string) * report))
          (lists marks : runid → bool).
Hypothesis visit_perm : ∀ m, visit m ≡ₚ map_to_list m.

(** [p] reported a [call:] step that started [c]. *)
Definition child_of (d : db) (p c : runid) : Prop :=
  ∃ i v sr, d_reports d !! (p, i, v) = Some sr ∧ sr_child sr = Some c.

(** [root] and everything reached from it through runs whose children the
    store could list. *)
Inductive descends (d : db) (root : runid) : runid → Prop :=
| desc_root : descends d root root
| desc_child p c : descends d root p → lists p = true → child_of d p c → descends d root c.

Lemma ListChildRunIDs_elem p d c : c ∈ ListChildRunIDs visit p d ↔ child_of d p c.
Proof using visit_perm.
  unfold ListChildRunIDs, child_of. rewrite list_elem_of_omap. split.
  - intros ([[[q i] v] sr] & Hin & E). rewrite visit_perm, elem_of_map_to_list in Hin. simpl in E.
    case_bool_decide; [|done]. subst. eauto.
  - intros (i & v & sr & Hsr & E). exists ((p, i, v), sr). rewrite visit_perm, elem_of_map_to_list. split; [done|].
    simpl. by rewrite bool_decide_true.
Qed.

(** *** The loop *)

Section loop.
Variables (d0 : db) (root : runid).

(** The runs that can enter the queue. *)
Definition universe : gset runid := {[root]} ∪ list_to_set (omap (λ kv, sr_child kv.2) (map_to_list (d_reports d0))).

Lemma universe_child p c : child_of d0 p c → c ∈ universe.
Proof using All.
  intros (i & v & sr & Hsr & E). unfold universe. apply elem_of_union. right.
  apply elem_of_list_to_set, list_elem_of_omap. exists ((p, i, v), sr). by rewrite elem_of_map_to_list.
Qed.

Lemma universe_size : size (universe ∖ {[root]}) ≤ size (d_reports d0).
Proof using All.
  transitivity (size (list_to_set (omap (λ kv, sr_child kv.2) (map_to_list (d_reports d0))) : gset runid)).
  - apply subseteq_size. unfold universe. set_solver.
  - etrans; [apply list_to_set_size|]. etrans; [apply omap_length_le|]. by rewrite length_map_to_list.
Qed.

(** Before each child of [p]: what is visited is cancelled, everything visited
    but [p] and the queue has its children visited. *)
Record walking (open : runid → Prop) (w : walk) : Prop := {
  wi_cancels : cancels marks (λ j, j ∈ wk_visited w ∧ j ≠ root) d0 (wk_db w);
  wi_root : root ∈ wk_visited w;
  wi_desc : ∀ j, j ∈ wk_visited w → descends d0 root j;
  wi_universe : wk_visited w ⊆ universe;
  wi_queue : ∀ j, j ∈ wk_queue w → j ∈ wk_visited w;
  wi_closed : ∀ p c, p ∈ wk_visited w → p ∉ wk_queue w → ¬ open p → lists p = true → child_of d0 p c → c ∈ wk_visited w
}.

Definition remaining (w : walk) : nat := size (universe ∖ wk_visited w) + length (wk_queue w).

Lemma visit_child_walking open w p c :
  walking open w → descends d0 root p → lists p = true → child_of d0 p c →
  let w' := visit_child marks w c in
  walking open w' ∧ remaining w' = remaining w ∧ c ∈ wk_visited w' ∧ wk_visited w ⊆ wk_visited w'.
Proof using All.
  intros [Hca Hro Hde Hun Hqu Hcl] Hp Hl Hc. simpl. unfold visit_child.
  case_bool_decide as Hin; [by split_and!|]. assert (c ∈ universe) as Hcu by by eapply universe_child.
  split; [split; simpl|split_and!; simpl].
  - eapply cancels_ext; [|apply (cancels_mark marks _ c _ _ Hca)].
    + intros j. simpl. rewrite elem_of_union, elem_of_singleton. split; [|naive_solver].
      intros [[? ?]| ->]; [auto|]. split; [by left|]. intros ->. done.
    + simpl. intros [? _]. done.
  - set_solver.
  - intros j [->%elem_of_singleton|Hj]%elem_of_union; [|auto]. by eapply desc_child.
  - set_solver.
  - intros j [Hj| ->%list_elem_of_singleton]%elem_of_app; [|set_solver]. apply elem_of_union. auto.
  - intros q x [->%elem_of_singleton|Hq]%elem_of_union Hnq Ho Hlq Hx.
    + exfalso. apply Hnq, elem_of_app. right. left.
    + apply elem_of_union. right. eapply Hcl; eauto. intros ?. apply Hnq, elem_of_app. auto.
  - unfold remaining. simpl. rewrite length_app. simpl.
    assert (universe ∖ wk_visited w = {[c]} ∪ universe ∖ ({[c]} ∪ wk_visited w)) as ->.
    { apply leibniz_equiv. intros x. destruct (decide (x = c)); set_solver. }
    rewrite (size_union {[c]} (universe ∖ ({[c]} ∪ wk_visited w))) by set_solver. rewrite size_singleton. lia.
  - set_solver.
  - set_solver.
Qed.

Lemma visit_children_walking open p cs w :
  walking open w → descends d0 root p → lists p = true → (∀ c, c ∈ cs → child_of d0 p c) →
  let w' := fold_left (visit_child marks) cs w in
  walking open w' ∧ remaining w' = remaining w ∧ (∀ c, c ∈ cs → c ∈ wk_visited w') ∧ wk_visited w ⊆ wk_visited w'.
Proof using All.
  intros Hw Hp Hl. revert w Hw. induction cs as [|c cs IH]; intros w Hw Hcs; simpl.
  - split_and!; [done..|by intros ? ?%elem_of_nil|done].
  - destruct (visit_child_walking open w p c Hw Hp Hl) as (Hw1 & E1 & Hin & Hsub); [apply Hcs; left|].
    destruct (IH _ Hw1) as (Hw2 & E2 & Hall & Hsub2); [intros; apply Hcs; by right|].
    split; [done|]. split; [lia|]. split; [|set_solver].
    intros x [->|Hx]%elem_of_cons; [by apply Hsub2|by apply Hall].
Qed.

Lemma cascade_step_walking w w' :
  walking (λ _, False) w → cascade_step visit lists marks w = Some w' →
  walking (λ _, False) w' ∧ S (remaining w') = remaining w.
Proof using All.
  intros Hw Hst. unfold cascade_step in Hst. destruct (wk_queue w) as [|p q] eqn:Eq; [done|].
  injection Hst as <-. set (w1 := MkWalk (wk_visited w) q (wk_db w)).
  assert (p ∈ wk_visited w) as Hpv by (apply (wi_queue _ _ Hw); rewrite Eq; left).
  assert (walking (λ j, j = p) w1) as Hw1.
  { destruct Hw as [Hca Hro Hde Hun Hqu Hcl]. split; simpl; try done.
    - intros j Hj. apply Hqu. rewrite Eq. by right.
    - intros x c Hx Hnq Ho. apply Hcl; [done| |auto]. rewrite Eq. intros [?|?]%elem_of_cons; auto. }
  assert (S (remaining w1) = remaining w) as E1 by (unfold remaining, w1; simpl; rewrite Eq; simpl; lia).
  assert (d_reports (wk_db w) = d_reports d0) as Er by apply (wi_cancels _ _ Hw).
  assert (∀ c, c ∈ ListChildRunIDs visit p (wk_db w) ↔ child_of d0 p c) as Hch.
  { intros c. rewrite (ListChildRunIDs_elem p (wk_db w) c). unfold child_of. by rewrite Er. }
  destruct (lists p) eqn:El.
  - destruct (visit_children_walking (λ j, j = p) p (ListChildRunIDs visit p (wk_db w)) w1 Hw1) as (Hw2 & E2 & Hall & _);
      [by apply (wi_desc _ _ Hw)|done|by intros c ?%Hch|].
    split; [|simpl in *; lia]. destruct Hw2 as [Hca Hro Hde Hun Hqu Hcl]. split; try done.
    intros x c Hx Hnq _ Hlx Hc. destruct (decide (x = p)) as [->|Hne]; [by apply Hall, Hch|by eapply Hcl].
  - split; [|done]. destruct Hw1 as [Hca Hro Hde Hun Hqu Hcl]. split; try done.
    intros x c Hx Hnq _ Hlx Hc. destruct (decide (x = p)) as [->|Hne]; [congruence|by eapply Hcl].
Qed.

Lemma cascade_walking fuel w :
  walking (λ _, False) w → remaining w ≤ fuel →
  ∃ w', cascade visit lists marks fuel w = Some w' ∧ walking (λ _, False) w' ∧ wk_queue w' = [].
Proof using All.
  revert w. induction fuel as [|fuel IH]; intros w Hw Hf; simpl.
  - destruct (cascade_step visit lists marks w) as [w'|] eqn:E.
    + apply cascade_step_walking in E as [_ E]; [|done]. lia.
    + exists w. split_and!; [done..|]. unfold cascade_step in E. by destruct (wk_queue w).
  - destruct (cascade_step visit lists marks w) as [w'|] eqn:E.
    + apply cascade_step_walking in E as [Hw' E]; [|done]. apply IH; [done|lia].
    + exists w. split_and!; [done..|]. unfold cascade_step in E. by destruct (wk_queue w).
Qed.

Lemma walk_start : walking (λ _, False) (MkWalk {[root]} [root] d0).
Proof using All.
  split; simpl.
  - apply cancels_none. intros j [?%elem_of_singleton ?]. done.
  - set_solver.
  - intros j ->%elem_of_singleton. constructor.
  - unfold universe. set_solver.
  - intros j ->%list_elem_of_singleton. set_solver.
  - intros p c ->%elem_of_singleton Hn. exfalso. apply Hn. left.
Qed.

Lemma cascade_result :
  ∃ d', cancelDescendantRuns visit lists marks root d0 = Some d'
    ∧ cancels marks (λ j, descends d0 root j ∧ j ≠ root) d0 d'.
Proof using All.
  destruct (cascade_walking (cascade_fuel d0) (MkWalk {[root]} [root] d0)) as (w & E & Hw & Hq); [apply walk_start| |].
  - unfold remaining, cascade_fuel. simpl. pose proof universe_size. lia.
  - exists (wk_db w). unfold cancelDescendantRuns. rewrite E. split; [done|].
    eapply cancels_ext; [|apply (wi_cancels _ _ Hw)]. intros j. cbv beta.
    assert (j ∈ wk_visited w ↔ descends d0 root j) as ->; [|done]. split; [apply (wi_desc _ _ Hw)|].
    induction 1 as [|p c _ IH Hl Hc]; [apply (wi_root _ _ Hw)|].
    apply (wi_closed _ _ Hw p c); [done| |auto|done|done]. rewrite Hq. by intros ?%elem_of_nil.
Qed.
End loop.
End cascade.

(** ** Cancelling a run *)

Lemma cancels_seq marks P Q d d1 d2 :
  (∀ j, P j → ¬ Q j) → cancels marks P d d1 → cancels marks Q d1 d2 → cancels marks (λ j, P j ∨ Q j) d d2.
Proof.
  intros Hdis [Hh1 Hm1 Hl1 Hr1] [Hh2 Hm2 Hl2 Hr2].
  assert (∀ j, ¬ P j → d_runs d1 !! j = d_runs d !! j) as Hrow by (intros j ?; apply Hm1; by intros [? _]).
  assert (∀ j, hit marks d1 Q j ↔ hit marks d Q j) as Hq.
  { intros j. unfold hit, live. split; intros [HQ Hx]; (split; [done|]);
      (assert (¬ P j) as HP by (intros ?; by eapply Hdis)); by rewrite (Hrow j HP) in *. }
  assert (∀ j, hit marks d (λ j, P j ∨ Q j) j ↔ hit marks d P j ∨ hit marks d Q j) as Hor
    by (intros j; unfold hit; naive_solver). split.
  - intros j [Hj|Hj]%Hor.
    + rewrite Hm2, Hh1; [done..|]. rewrite Hq. destruct Hj as [? _]. intros [? _]. by eapply Hdis.
    + rewrite Hh2 by (by apply Hq). f_equal. apply Hrow. destruct Hj as [? _]. intros ?. by eapply Hdis.
  - intros j Hj. rewrite Hor in Hj. rewrite Hm2, Hm1; [done|tauto|]. rewrite Hq. tauto.
  - intros l j. rewrite Hl2, Hl1, Hq, Hor. tauto.
  - by rewrite Hr2.
Qed.

Lemma descends_reports lists d d' root j :
  d_reports d' = d_reports d → descends lists d' root j ↔ descends lists d root j.
Proof.
  intros E. assert (∀ p c, child_of d' p c ↔ child_of d p c) as Hc by (intros; unfold child_of; by rewrite E).
  split; induction 1 as [|p c _ IH Hl Hch]; try constructor; (eapply desc_child; [done..|]); by apply Hc.
Qed.

Lemma mark_cancels marks id d :
  marks id = true → ∃ d1, MarkRunFinished id RunCancelled d = Ok d1 ∧ cancels marks (λ j, j = id) d d1.
Proof.
  intros Hm. pose proof (cancels_mark marks (λ _, False) id d d (cancels_none marks _ d (λ _ H, H)) (λ H, H)) as Hc.
  unfold mark_cancelled in Hc. rewrite Hm in Hc. pose proof (finish_mark id d) as Hf.
  destruct (MarkRunFinished id RunCancelled d) as [d1|]; [|done]. exists d1. split; [done|].
  eapply cancels_ext; [|exact Hc]. intros j. cbv beta. tauto.
Qed.

(** C8: cancelling a run cancels its whole [call:] tree, once, and returns.
    Even when runs call each other in a cycle, the walk ends; afterwards exactly
    the run itself and the runs below it that were not finished, and whose row
    could be written, are Cancelled, every lock they held is free, and every
    other row, lock and report is as it was.  Runs below one whose children
    could not be listed are left alone unless reached another way. *)
Theorem cancel_run_exact (visit : gmap (runid * Z * string) report → list ((runid * Z * string) * report))
    (lists marks : runid → bool) (id : runid) (d : db) :
  (∀ m, visit m ≡ₚ map_to_list m) → marks id = true →
  ∃ d', handleCancelRun visit lists marks id d = Some (204%Z, d')
    ∧ cancels marks (descends lists d id) d d'.
Proof.
  intros Hv Hm. unfold handleCancelRun. rewrite Hm. simpl.
  destruct (mark_cancels marks id d Hm) as (d1 & -> & H1).
  destruct (cascade_result visit lists marks Hv d1 id) as (d' & -> & H2). exists d'. split; [done|].
  eapply cancels_ext; [|eapply cancels_seq; [|exact H1|exact H2]].
  - intros j. cbv beta. rewrite (descends_reports lists d d1) by apply (ca_reports _ _ _ _ H1).
    destruct (decide (j = id)) as [->|]; [|naive_solver]. split; [constructor|auto].
  - naive_solver.
Qed.

(** A run that called two others, one of which called it back and another one
    that is already finished. *)
Definition call_report (child : runid) : report :=
  MkReport 0 "call" "Running" None None None (Some child) (Some "job").
Definition call_tree : db :=
  MkDb (list_to_map [(1%N, with_claim (Some "a") (Some 1%Z) RunRunning (new_run "top" ∅ None [] [] 1));
                     (2%N, with_claim (Some "a") (Some 1%Z) RunRunning (new_run "mid" ∅ None [] [] 2));
                     (3%N, new_run "leaf" ∅ None [] [] 3);
                     (4%N, with_status RunSucceeded (new_run "done" ∅ None [] [] 3));
                     (5%N, new_run "other" ∅ None [] [] 4)])
       (<["m" := 2%N]> (<["n" := 5%N]> ∅)) ∅ ∅
       (list_to_map [((1%N, 0%Z, ""), call_report 2); ((2%N, 0%Z, ""), call_report 1);
                     ((2%N, 1%Z, ""), call_report 3); ((2%N, 2%Z, ""), call_report 4)]).

Lemma cancel_run_exact_witness :
  ∃ d', handleCancelRun map_to_list (λ _, true) (λ _, true) 1 call_tree = Some (204%Z, d')
    ∧ status_of d' <$> [1; 2; 3; 4; 5]%N
      = [Some RunCancelled; Some RunCancelled; Some RunCancelled; Some RunSucceeded; Some RunPending]
    ∧ d_mutexes d' !! "m" = None ∧ d_mutexes d' !! "n" = Some 5%N.
Proof.
  destruct (cancel_run_exact map_to_list (λ _, true) (λ _, true) 1 call_tree) as (d' & E & _); [done..|].
  exists d'. split; [exact E|]. vm_compute in E. injection E as <-. vm_compute. auto.
Defined.

(** ** The stuck-run reaper *)

(** Only rows of [S] were written, and the call tree is as it was. *)
Definition touches (S : runid → Prop) (d d' : db) : Prop :=
  (∀ j, ¬ S j → d_runs d' !! j = d_runs d !! j) ∧ ∀ p c, child_of d' p c ↔ child_of d p c.

Lemma touches_refl S d : touches S d d.
Proof. done. Qed.

Lemma touches_trans (S T : runid → Prop) d d1 d2 :
  touches S d d1 → touches T d1 d2 → touches (λ j, S j ∨ T j) d d2.
Proof.
  intros [R1 C1] [R2 C2]. split; [|intros; by rewrite C2]. intros j Hj. rewrite R2, R1; tauto.
Qed.

Lemma touches_impl (S T : runid → Prop) d d' : (∀ j, S j → T j) → touches S d d' → touches T d d'.
Proof. intros H [R C]. split; [|done]. intros j Hj. apply R. auto. Qed.

Lemma descends_touches S lists d d' root j : touches S d d' → descends lists d' root j ↔ descends lists d root j.
Proof.
  intros [_ Hc]. split; induction 1 as [|p c _ IH Hl Hch]; try constructor; (eapply desc_child; [done..|]); by apply Hc.
Qed.

Lemma cancels_touches marks P d d' : cancels marks P d d' → touches P d d'.
Proof.
  intros [Hh Hm _ Hr]. split; [|intros; unfold child_of; by rewrite Hr].
  intros j Hj. apply Hm. by intros [? _].
Qed.

Lemma finish_touches id expected status d b d' :
  finishRunFrom id expected status d = Ok (b, d') → touches (λ j, j = id) d d'.
Proof.
  intros [_ [(_ & -> & _)|(r & _ & _ & _ & _ & ->)]]%finishRunFrom_cases; [done|]. split; [|done].
  intros j Hj. simpl. by rewrite lookup_insert_ne.
Qed.

Lemma interrupt_touches id now d : touches (λ _, False) d (MarkRunStepsInterrupted id now d).
Proof.
  split; [done|]. intros p c. unfold child_of, MarkRunStepsInterrupted. simpl.
  split; intros (i & v & sr & Hsr & E); exists i, v.
  - rewrite map_lookup_imap in Hsr. destruct (d_reports d !! (p, i, v)) as [o|]; [|done]. exists o. split; [done|].
    simpl in Hsr. injection Hsr as <-. by case_bool_decide.
  - eexists. rewrite map_lookup_imap, Hsr. split; [done|]. by case_bool_decide.
Qed.

Section reaper.
Variables (visit : gmap (runid * Z * string) report → list ((runid * Z * string) * report))
          (lists marks : runid → bool).
Hypothesis visit_perm : ∀ m, visit m ≡ₚ map_to_list m.

Lemma failOrphanedRun_touches ok1 ok2 now id d b d' :
  failOrphanedRun visit lists marks ok1 ok2 now id d = Some (b, d') → touches (descends lists d id) d d'.
Proof using All.
  unfold failOrphanedRun. destruct ok1; simpl; [|by intros [= _ <-]].
  pose proof (interrupt_touches id now d) as T1. set (d1 := MarkRunStepsInterrupted id now d) in *.
  assert (touches (descends lists d id) d d1) as T1' by (eapply touches_impl; [|exact T1]; done).
  destruct ok2; simpl; [|by intros [= _ <-]].
  unfold MarkRunFinished, FinishRun. destruct (finishRunFrom id None RunFailed d1) as [[b2 d2]|] eqn:E2; simpl;
    [|by intros [= _ <-]].
  destruct (cascade_result visit lists marks visit_perm d2 id) as (d3 & -> & H3). intros [= _ <-].
  apply finish_touches in E2 as T2. apply cancels_touches in H3 as T3.
  eapply touches_impl; [|exact (touches_trans _ _ _ _ _ (touches_trans _ _ _ _ _ T1 T2) T3)].
  intros j [[[]| ->]|[Hj _]]; [constructor|].
  by apply (descends_touches _ lists d1 d2 id j T2), (descends_touches _ lists d d1 id j T1) in Hj.
Qed.

(** A run is listed with a missing agent. *)
Definition listed_missing (id : runid) (refs : list StuckRunRef) : Prop :=
  ∃ ref, ref ∈ refs ∧ sk_ID ref = id ∧ sk_AgentMissing ref = true.

(** The sweeps of one leader, latest first, each with its time and what it
    listed; the database changes freely between them. *)
Inductive missing_after (staleAfter : Z) : list (Z * list StuckRunRef) → gmap runid Z → Prop :=
| missing_init : missing_after staleAfter [] ∅
| missing_next h m now oks refs d m' d' :
    missing_after staleAfter h m →
    runStuckRunReaperOnce visit lists marks now staleAfter oks refs m d = Some (m', d') →
    missing_after staleAfter ((now, refs) :: h) m'.

(** The run has been listed with a missing agent in every sweep since [t]. *)
Definition missing_since (h : list (Z * list StuckRunRef)) (id : runid) (t : Z) : Prop :=
  ∃ h1 refs h2, h = h1 ++ (t, refs) :: h2 ∧ listed_missing id refs ∧ Forall (λ s, listed_missing id s.2) h1.

Definition tracked (h : list (Z * list StuckRunRef)) (m : gmap runid Z) : Prop :=
  ∀ id t, m !! id = Some t → missing_since h id t.

Lemma forget_lookup refs m id t : forget refs m !! id = Some t ↔ m !! id = Some t ∧ listed_missing id refs.
Proof using All.
  unfold forget. rewrite map_lookup_filter_Some. simpl. rewrite existsb_elem. unfold listed_missing.
  setoid_rewrite andb_true_iff. setoid_rewrite bool_decide_eq_true. naive_solver.
Qed.

Lemma tracked_forget now refs h m : tracked h m → tracked ((now, refs) :: h) (forget refs m).
Proof using All.
  intros H id t [(h1 & rs & h2 & -> & Hrs & Hall)%H Hl]%forget_lookup.
  exists ((now, refs) :: h1), rs, h2. split; [done|]. split; [done|]. by constructor.
Qed.

(** What justifies failing a listed run. *)
Definition justified (h : list (Z * list StuckRunRef)) (now staleAfter : Z) (ref : StuckRunRef) : Prop :=
  sk_AgentMissing ref = false ∨ ∃ t, missing_since h (sk_ID ref) t ∧ (staleAfter ≤ now - t)%Z.

Lemma reap_stuck_all_touches now staleAfter oks all h refs m d m' d' :
  refs ⊆ all → tracked ((now, all) :: h) m →
  reap_stuck_all visit lists marks now staleAfter oks refs (m, d) = Some (m', d') →
  tracked ((now, all) :: h) m' ∧
  touches (λ j, ∃ ref, ref ∈ refs ∧ justified ((now, all) :: h) now staleAfter ref ∧ descends lists d (sk_ID ref) j) d d'.
Proof using All.
  revert m d. induction refs as [|ref refs IH]; intros m d Hsub Htr; simpl.
  - intros [= <- <-]. split; [done|apply touches_refl].
  - intros ([m1 d1] & Hst & Hrec)%bind_Some.
    assert (refs ⊆ all) as Hsub' by (intros x Hx; apply Hsub; by right).
    assert (tracked ((now, all) :: h) m1
            ∧ touches (λ j, justified ((now, all) :: h) now staleAfter ref ∧ descends lists d (sk_ID ref) j) d d1)
      as [Htr1 T1].
    { unfold reap_stuck in Hst. cbn [fst snd] in Hst.
      destruct (confirmed now staleAfter ref m) as [act m2] eqn:Ec. simpl in Hst.
      assert (tracked ((now, all) :: h) m2 ∧ (act = true → justified ((now, all) :: h) now staleAfter ref)) as [Htr2 Hact].
      { unfold confirmed in Ec. destruct (sk_AgentMissing ref) eqn:Em; [|injection Ec as <- <-; split; [done|by left]].
        destruct (m !! sk_ID ref) as [t|] eqn:Et; injection Ec as <- <-.
        - split; [done|]. intros Hn%negb_true_iff%Z.ltb_ge. right. exists t. split; [by apply Htr|lia].
        - split; [|done]. intros id t. rewrite lookup_insert_Some. intros [[<- <-]|[_ ?]]; [|by apply Htr].
          exists [], all, h. split; [done|]. split; [|constructor]. exists ref. split; [apply Hsub; left|done]. }
      destruct act; simpl in Hst.
      - apply bind_Some in Hst as ([b d2] & Hf & E). injection E as <- <-. split.
        + intros id t Hid. apply Htr2. destruct b; [|done]. by apply lookup_delete_Some in Hid as [_ ?].
        + eapply touches_impl; [|by eapply failOrphanedRun_touches]. auto.
      - injection Hst as <- <-. split; [done|apply touches_refl]. }
    destruct (IH m1 d1 Hsub' Htr1 Hrec) as [Htr' T2]. split; [done|].
    eapply touches_impl; [|exact (touches_trans _ _ _ _ _ T1 T2)].
    intros j [[? ?]|(x & Hx & ? & Hd)]; [exists ref; split; [left|done]|].
    exists x. split; [by right|]. split; [done|]. by apply (descends_touches _ lists d d1 _ j T1) in Hd.
Qed.

Lemma missing_tracked staleAfter h m : missing_after staleAfter h m → tracked h m.
Proof using All.
  induction 1 as [|h m now oks refs d m' d' _ IH E]; [by intros id t; rewrite lookup_empty|].
  unfold runStuckRunReaperOnce in E. by eapply reap_stuck_all_touches in E as [? _]; [| |apply tracked_forget].
Qed.
End reaper.

(** A run is not failed for a missing inventory row alone.  Whatever
    happened between the sweeps of a leader, a sweep leaves every run alone that
    is not at or below a listed run whose agent's heartbeat is stale, or whose
    agent has been missing in every sweep since one at least [staleAfter] ago. *)
Theorem missing_confirmed (visit : gmap (runid * Z * string) report → list ((runid * Z * string) * report))
    (lists marks : runid → bool) (staleAfter : Z) (h : list (Z * list StuckRunRef)) (m : gmap runid Z)
    (now : Z) (oks : runid → bool * bool) (refs : list StuckRunRef) (d : db) (m' : gmap runid Z) (d' : db) (j : runid) :
  (∀ m, visit m ≡ₚ map_to_list m) →
  missing_after visit lists marks staleAfter h m →
  runStuckRunReaperOnce visit lists marks now staleAfter oks refs m d = Some (m', d') →
  (∀ ref, ref ∈ refs → justified ((now, refs) :: h) now staleAfter ref → ¬ descends lists d (sk_ID ref) j) →
  d_runs d' !! j = d_runs d !! j.
Proof.
  intros Hv Hm E Hj. apply (missing_tracked visit lists marks Hv) in Hm.
  unfold runStuckRunReaperOnce in E.
  eapply (reap_stuck_all_touches visit lists marks Hv now staleAfter oks refs h) in E as [_ [Hrows _]];
    [|done|by apply (tracked_forget visit lists marks Hv)].
  apply Hrows. intros (ref & Hr & Hjust & Hd). by eapply Hj.
Qed.

(** Run 1, whose agent's row vanished; seen so at time 100 only. *)
Definition orphan_refs : list StuckRunRef := [MkStuckRunRef 1 true].
Definition orphan_db : db :=
  MkDb {[ 1%N := with_claim (Some "a") (Some 1%Z) RunRunning (new_run "job" ∅ None [] [] 1) ]} ∅ ∅ ∅ ∅.

Lemma missing_confirmed_witness :
  ∃ m' d', runStuckRunReaperOnce map_to_list (λ _, true) (λ _, true) 130 60 (λ _, (true, true)) orphan_refs
             {[ 1%N := 100%Z ]} orphan_db = Some (m', d')
    ∧ d_runs d' !! 1%N = d_runs orphan_db !! 1%N
    ∧ ∃ m2 d2, runStuckRunReaperOnce map_to_list (λ _, true) (λ _, true) 160 60 (λ _, (true, true)) orphan_refs m' d'
               = Some (m2, d2) ∧ status_of d2 1%N = Some RunFailed.
Proof.
  eexists _, _. split; [vm_compute; reflexivity|]. split.
  - eapply (missing_confirmed map_to_list (λ _, true) (λ _, true) 60 [(100%Z, orphan_refs)] {[ 1%N := 100%Z ]}
              130 (λ _, (true, true)) orphan_refs orphan_db).
    + done.
    + eapply (missing_next _ _ _ 60 [] ∅ 100 (λ _, (true, true)) orphan_refs orphan_db); [constructor|].
      vm_compute. reflexivity.
    + vm_compute. reflexivity.
    + intros ref ->%list_elem_of_singleton [Hm|(t & (h1 & rs & h2 & E & _) & Ht)]; [done|]. exfalso.
      destruct h1 as [|s1 [|s2 h1]]; simplify_eq/=; [lia..|].
      destruct h1; simplify_eq/=.
  - eexists _, _. split; vm_compute; reflexivity.
Defined.
