(* ===== verification/AgentGuard.v ===== *)
(** * internal/controller: what an agent may write to a run

    The ownership guard in front of every agent write ([agent_guard.go]) with
    its bounded cache of claims, and the handlers behind it that change a run:
    the finish report, the step report and the reconciliation at the start of an
    agent ([api_agent.go]).  [guard_exact] says when the cache may be trusted, and
    [guard_stale_after_requeue] when not. *)

From S2P Require Import Prelude GoStrings DslTypes DslMatrix StoreRuns StoreLocks StoreLife StoreSpec RunControl RunControlFacts.
From stdpp Require Import options.

(** ** The cache of claims *)

(** The entries, most recently used first; [cc_cap] is [claimedByCacheCap].  A
    nil cache is [None] where it is used. *)
Record claimedByCache := MkCache { cc_entries : list (runid * string); cc_cap : nat }.

Definition claimedByCacheCap : nat := Z.to_nat 10000.
Definition newClaimedByCache (cap : nat) : claimedByCache := MkCache [] cap.

Fixpoint entry (l : list (runid * string)) (id : runid) : option string :=
  match l with
  | [] => None
  | (k, o) :: l' => if bool_decide (k = id) then Some o else entry l' id
  end.

(** [get], whose hit moves to the front. *)
Definition cache_get (id : runid) (c : option claimedByCache) : option string * option claimedByCache :=
  match c with
  | None => (None, None)
  | Some c =>
      match entry (cc_entries c) id with
      | None => (None, Some c)
      | Some o => (Some o, Some (MkCache ((id, o) :: filter (λ e, e.1 ≠ id) (cc_entries c)) (cc_cap c)))
      end
  end.

(** [for len(c.m) > c.cap] drops the least recently used entry. *)
Definition evict (cap : nat) (l : list (runid * string)) : list (runid * string) := take cap l.

(** [put]: an unclaimed run is not cached, a cached one is left as it is. *)
Definition cache_put (id : runid) (owner : option string) (c : option claimedByCache) : option claimedByCache :=
  match c, owner with
  | Some c, Some o =>
      match entry (cc_entries c) id with
      | Some _ => Some c
      | None => Some (MkCache (evict (cc_cap c) ((id, o) :: cc_entries c)) (cc_cap c))
      end
  | _, _ => c
  end.

(** ** The guard *)

Inductive runWriteVerdict := runWriteOK | runWriteNotFound | runWriteNotOwned | runWriteTerminal.

(** The verdict on a fetched run. *)
Definition verdict (agentID : string) (rejectTerminal : bool) (r : run) : runWriteVerdict :=
  if negb (bool_decide (r_claimed_by r = Some agentID)) then runWriteNotOwned
  else if rejectTerminal && terminal (r_status r) then runWriteTerminal
  else runWriteOK.

(** [agentRunGuard]; [inl tt] is a database error of [GetRun] ([ok] false). *)
Definition agentRunGuard (ok : bool) (agentID : string) (id : runid) (rejectTerminal : bool)
    (d : db) (c : option claimedByCache) : (unit + runWriteVerdict) * option claimedByCache :=
  let '(hit, c) := if rejectTerminal then (None, c) else cache_get id c in
  match hit with
  | Some owner => (inr (if (owner =? agentID)%string then runWriteOK else runWriteNotOwned), c)
  | None =>
      if negb ok then (inl tt, c)
      else
        match d_runs d !! id with
        | None => (inr runWriteNotFound, c)
        | Some r => (inr (verdict agentID rejectTerminal r), cache_put id (r_claimed_by r) c)
        end
  end.

(** [respondRunWriteVerdict]: the answer's status when the verdict is final. *)
Definition respondRunWriteVerdict (v : runWriteVerdict) : option Z :=
  match v with
  | runWriteNotFound => Some 404
  | runWriteNotOwned => Some 403
  | runWriteTerminal => Some 200
  | runWriteOK => None
  end%Z.

(** ** The handlers *)

Record server := MkServer { sv_db : db; sv_cache : option claimedByCache }.

(** A decoded status string; [None] is any other one. *)
Definition parse_status (s : string) : option RunStatus :=
  if (s =? "Succeeded")%string then Some RunSucceeded
  else if (s =? "Failed")%string then Some RunFailed
  else if (s =? "Cancelled")%string then Some RunCancelled
  else None.

(** A request behind the guard: its answer and the server after it. *)
Definition guarded (ok : bool) (agentID : string) (id : runid) (rejectTerminal : bool) (sv : server)
    (k : server → option (Z * server)) : option (Z * server) :=
  let '(v, c) := agentRunGuard ok agentID id rejectTerminal (sv_db sv) (sv_cache sv) in
  let sv := MkServer (sv_db sv) c in
  match v with
  | inl _ => Some (500%Z, sv)
  | inr v => match respondRunWriteVerdict v with Some code => Some (code, sv) | None => k sv end
  end.

Section handlers.
Variables (visit : gmap (runid * Z * string) report → list ((runid * Z * string) * report))
          (lists marks : runid → bool).

(** [handleAgentFinishRun]; [ok2] says whether [FinishRun] succeeds. *)
Definition handleAgentFinishRun (ok ok2 : bool) (agentID : string) (id : runid) (status : string) (sv : server)
  : option (Z * server) :=
  match parse_status status with
  | None => Some (400%Z, sv)
  | Some st =>
      guarded ok agentID id false sv (λ sv,
        if negb ok2 then Some (500%Z, sv)
        else
          match FinishRun id st (sv_db sv) with
          | Err _ => Some (500%Z, sv)
          | Ok (false, _) => Some (200%Z, sv)
          | Ok (true, d) =>
              if bool_decide (st = RunFailed ∨ st = RunCancelled) then
                d ← cancelDescendantRuns visit lists marks id d; Some (204%Z, MkServer d (sv_cache sv))
              else Some (204%Z, MkServer d (sv_cache sv))
          end)
  end.

(** [handleAgentStepReport] with a decoded and sanitized report; [ok2] says
    whether its own read of the run succeeds, [ok3] whether the write does. *)
Definition handleAgentStepReport (ok ok2 ok3 : bool) (agentID : string) (id : runid) (stepIndex : Z)
    (variant : string) (new : report) (sv : server) : option (Z * server) :=
  guarded ok agentID id false sv (λ sv,
    if negb ok2 then Some (500%Z, sv)
    else if match d_runs (sv_db sv) !! id with Some r => terminal (r_status r) | None => false end
    then Some (200%Z, sv)
    else if negb ok3 then Some (500%Z, sv)
    else
      match UpsertStepReport id stepIndex variant new (sv_db sv) with
      | inl ErrRunFinalized => Some (200%Z, sv)
      | inl ErrRunNotFound => Some (500%Z, sv)
      | inr d =>
          let d := if (sr_status new =? "Running")%string then MarkRunRunning id d else d in
          Some (204%Z, MkServer d (sv_cache sv))
      end).

(** [handleAgentReconcileRuns] over the ids [ListRunningRunIDsByAgent] found:
    how many were failed. *)
Fixpoint reconcile (oks : runid → bool * bool) (now : Z) (ids : list runid) (d : db) : option (nat * db) :=
  match ids with
  | [] => Some (0, d)
  | id :: ids =>
      '(ok, d) ← failOrphanedRun visit lists marks (oks id).1 (oks id).2 now id d;
      '(n, d) ← reconcile oks now ids d;
      Some ((if ok : bool then S n else n), d)
  end.

Definition ListRunningRunIDsByAgent (agentID : string) (rows : list (runid * run)) : list runid :=
  (filter (λ x, r_claimed_by x.2 = Some agentID ∧ r_status x.2 = RunRunning) rows).*1.

Definition handleAgentReconcileRuns (oks : runid → bool * bool) (now : Z) (agentID : string)
    (rows : list (runid * run)) (d : db) : option (nat * db) :=
  reconcile oks now (ListRunningRunIDsByAgent agentID rows) d.
End handlers.

(** ** The cache agrees with the claims it saw *)

(** Every cached owner is the run's claimant. *)
Definition coherent (c : option claimedByCache) (d : db) : Prop :=
  match c with
  | None => True
  | Some c => ∀ id o, entry (cc_entries c) id = Some o → ∃ r, d_runs d !! id = Some r ∧ r_claimed_by r = Some o
  end.

Definition bounded (c : option claimedByCache) : Prop :=
  match c with None => True | Some c => length (cc_entries c) ≤ cc_cap c ∧ NoDup (cc_entries c).*1 end.

Lemma entry_filter l id id' :
  entry (filter (λ e, e.1 ≠ id) l) id' = if bool_decide (id' = id) then None else entry l id'.
Proof.
  induction l as [|[k o] l IH]; simpl; [by case_bool_decide|].
  rewrite filter_cons. cbn [fst]. destruct (decide (k ≠ id)) as [Hk|Hk]; cbn [entry].
  - rewrite IH. repeat case_bool_decide; subst; naive_solver.
  - rewrite IH. repeat case_bool_decide; subst; naive_solver.
Qed.

Lemma entry_take n l id o : entry (take n l) id = Some o → entry l id = Some o.
Proof.
  revert l. induction n as [|n IH]; intros [|[k o'] l]; simpl; [done..|].
  case_bool_decide; [done|apply IH].
Qed.

Lemma entry_none l id : entry l id = None ↔ id ∉ l.*1.
Proof.
  induction l as [|[k o] l IH]; csimpl; [by split; [intros _ ?%elem_of_nil|]|].
  rewrite not_elem_of_cons. case_bool_decide; naive_solver.
Qed.

Lemma entry_some l id o : entry l id = Some o → id ∈ l.*1.
Proof. intros H. destruct (decide (id ∈ l.*1)) as [|Hn]; [done|]. apply entry_none in Hn. congruence. Qed.

Lemma filter_keys l id : (filter (λ e : runid * string, e.1 ≠ id) l).*1 = filter (λ k, k ≠ id) l.*1.
Proof.
  induction l as [|[k o] l IH]; [done|]. csimpl. rewrite !filter_cons. simpl.
  repeat case_decide; csimpl; by rewrite IH.
Qed.

Lemma cache_get_ok id c d :
  coherent c d → bounded c →
  let '(hit, c') := cache_get id c in
  coherent c' d ∧ bounded c' ∧
  match hit with Some o => ∃ r, d_runs d !! id = Some r ∧ r_claimed_by r = Some o | None => c' = c end.
Proof.
  intros Hc Hb. destruct c as [[l cap]|]; simpl in *; [|done].
  destruct (entry l id) as [o|] eqn:E; simpl; [|done]. split_and!; [| | |by apply Hc].
  - intros id' o'. simpl. case_bool_decide as Hid; [intros [= <-]; subst; by apply Hc|].
    rewrite entry_filter, bool_decide_false by congruence. apply Hc.
  - destruct Hb as [Hlen Hnd]. etrans; [|exact Hlen]. apply entry_some, list_elem_of_fmap in E as ([k o2] & -> & Hin).
    apply Nat.le_succ_l. apply (length_filter_lt _ l (k, o2)); [done|]. simpl. auto.
  - destruct Hb as [_ Hnd]. csimpl. rewrite filter_keys. constructor; [|by apply NoDup_filter].
    rewrite list_elem_of_filter. naive_solver.
Qed.

Lemma cache_put_ok id r c d :
  d_runs d !! id = Some r → coherent c d → bounded c →
  coherent (cache_put id (r_claimed_by r) c) d ∧ bounded (cache_put id (r_claimed_by r) c).
Proof.
  intros Hr Hc Hb. destruct c as [[l cap]|]; [|done]. destruct (r_claimed_by r) as [o|] eqn:Eo; [|done]. simpl in *.
  destruct (entry l id) eqn:E; [done|]. simpl. split.
  - intros id' o' H%entry_take. simpl in H. case_bool_decide; [|by apply Hc]. simplify_eq. eauto.
  - unfold evict. split; [rewrite length_take; lia|]. rewrite fmap_take. csimpl.
    eapply sublist_NoDup; [|apply sublist_take]. constructor; [by apply entry_none|apply Hb].
Qed.

(** ** The guard is the policy *)

(** The policy, read off the database. *)
Definition policy (agentID : string) (rejectTerminal : bool) (id : runid) (d : db) : runWriteVerdict :=
  match d_runs d !! id with None => runWriteNotFound | Some r => verdict agentID rejectTerminal r end.

(** What a guarded call may answer: a database error, when there was one, or
    the policy's verdict. *)
Lemma guard_policy ok agentID id rejectTerminal d c :
  coherent c d → bounded c →
  let '(v, c') := agentRunGuard ok agentID id rejectTerminal d c in
  coherent c' d ∧ bounded c' ∧ (v = inr (policy agentID rejectTerminal id d) ∨ ok = false ∧ v = inl tt).
Proof.
  intros Hc Hb. unfold agentRunGuard, policy.
  assert (∃ hit c1, (if rejectTerminal then (None, c) else cache_get id c) = (hit, c1) ∧ coherent c1 d ∧ bounded c1 ∧
            match hit with
            | Some o => rejectTerminal = false ∧ ∃ r, d_runs d !! id = Some r ∧ r_claimed_by r = Some o
            | None => True
            end) as (hit & c1 & -> & Hc1 & Hb1 & Hhit).
  { destruct rejectTerminal; [by exists None, c|]. pose proof (cache_get_ok id c d Hc Hb) as H.
    destruct (cache_get id c) as [hit c1]. exists hit, c1. destruct H as (? & ? & ?). split_and!; try done. by destruct hit. }
  destruct hit as [o|].
  - destruct Hhit as [-> (r & Hr & Ho)]. split_and!; [done..|]. left. rewrite Hr. unfold verdict. rewrite Ho. simpl.
    f_equal. destruct (String.eqb_spec o agentID) as [->|Hne]; [by rewrite bool_decide_true|].
    rewrite bool_decide_false; [done|]. congruence.
  - destruct ok; simpl; [|auto]. destruct (d_runs d !! id) as [r|] eqn:Hr; [|auto].
    destruct (cache_put_ok id r c1 d Hr Hc1 Hb1). auto.
Qed.

(** A store step that takes no claim back: [claimed_by] is immutable once set. *)
Definition keeps_claims (d d' : db) : Prop :=
  ∀ id r o, d_runs d !! id = Some r → r_claimed_by r = Some o →
    ∃ r', d_runs d' !! id = Some r' ∧ r_claimed_by r' = Some o.

Lemma coherent_keeps c d d' : keeps_claims d d' → coherent c d → coherent c d'.
Proof.
  intros Hk. destruct c as [c|]; [|done]. intros Hc id o (r & Hr & Ho)%Hc. by eapply Hk.
Qed.

(** A replica: its cache, through guarded requests and whatever happens to the
    database around it. *)
Inductive replica : db → option claimedByCache → Prop :=
| replica_start d cap : replica d (Some (newClaimedByCache cap))
| replica_store d d' c : replica d c → keeps_claims d d' → replica d' c
| replica_guard d c ok agentID id rejectTerminal :
    replica d c → replica d (agentRunGuard ok agentID id rejectTerminal d c).2.

Lemma replica_coherent d c : replica d c → coherent c d ∧ bounded c.
Proof.
  induction 1 as [d cap|d d' c _ [IHc IHb] Hk|d c ok agentID id rt _ [IHc IHb]].
  - split; [done|]. split; [simpl; lia|constructor].
  - split; [by eapply coherent_keeps|done].
  - pose proof (guard_policy ok agentID id rt d c IHc IHb) as H. by destruct (agentRunGuard _ _ _ _ _ _), H as (? & ? & _).
Qed.

(** The cached ownership check is the check.  On a replica of any age,
    as long as no run loses its claim, the guard answers every agent exactly as
    reading the run would: missing, claimed by another agent or by none,
    finished when the caller asks, or fine; and the cache never outgrows its
    cap or holds a run twice. *)
Theorem guard_exact (ok : bool) (agentID : string) (id : runid) (rejectTerminal : bool)
    (d : db) (c : option claimedByCache) :
  replica d c →
  let '(v, c') := agentRunGuard ok agentID id rejectTerminal d c in
  (v = inr (policy agentID rejectTerminal id d) ∨ ok = false ∧ v = inl tt) ∧ bounded c' ∧ replica d c'.
Proof.
  intros Hr. destruct (replica_coherent d c Hr) as [Hc Hb].
  pose proof (guard_policy ok agentID id rejectTerminal d c Hc Hb) as H.
  pose proof (replica_guard d c ok agentID id rejectTerminal Hr) as Hr'.
  destruct (agentRunGuard _ _ _ _ _ _) as [v c']. destruct H as (_ & ? & ?). auto.
Qed.

(** A run claimed by [a1], checked once for [a2]. *)
Definition claimed_db : db :=
  MkDb {[ 1%N := with_claim (Some "a1") (Some 1%Z) RunRunning (new_run "job" ∅ None [] [] 1) ]} ∅ ∅ ∅ ∅.
Definition warm_cache : option claimedByCache :=
  (agentRunGuard true "a2" 1 false claimed_db (Some (newClaimedByCache 2))).2.

Lemma guard_exact_witness :
  let '(v, _) := agentRunGuard false "a1" 1 false claimed_db warm_cache in
  v = inr runWriteOK.
Proof.
  pose proof (guard_exact false "a1" 1 false claimed_db warm_cache) as H.
  assert (replica claimed_db warm_cache) as Hr by apply replica_guard, replica_start.
  specialize (H Hr). destruct (agentRunGuard false "a1" 1 false claimed_db warm_cache) as [v c'] eqn:E.
  vm_compute in E. destruct H as [[->|[_ ->]] _]; [reflexivity|discriminate].
Defined.

(** [RequeueClaimedRun] is the one writer that takes a claim back.  A replica
    that cached the first claim refuses the agent the run went to next. *)
Example guard_stale_after_requeue :
  let d1 := (RequeueClaimedRun 1 "a1" claimed_db).2 in
  let d2 := (claimNextRun map_to_list (λ _, false) "a2" [] [] false 5 d1).2 in
  policy "a2" false 1 d2 = runWriteOK ∧ (agentRunGuard true "a2" 1 false d2 warm_cache).1 = inr runWriteNotOwned.
Proof. vm_compute. auto. Qed.

(** ** The handlers *)

Lemma guarded_ok ok agentID id sv k code sv' :
  replica (sv_db sv) (sv_cache sv) → guarded ok agentID id false sv k = Some (code, sv') →
  sv_db sv' = sv_db sv
  ∨ policy agentID false id (sv_db sv) = runWriteOK ∧ ∃ c, replica (sv_db sv) c ∧ k (MkServer (sv_db sv) c) = Some (code, sv').
Proof.
  intros Hr. unfold guarded. pose proof (replica_guard _ _ ok agentID id false Hr) as Hr'.
  destruct (replica_coherent _ _ Hr) as [Hc Hb]. pose proof (guard_policy ok agentID id false _ _ Hc Hb) as H.
  destruct (agentRunGuard _ _ _ _ _ _) as [v c]. destruct H as (_ & _ & [-> |[_ ->]]); [|intros [= <- <-]; by left].
  destruct (policy _ _ _ _); simpl; [right; eauto|intros [= <- <-]; by left..].
Qed.

Lemma policy_ok agentID id d :
  policy agentID false id d = runWriteOK ↔ ∃ r, d_runs d !! id = Some r ∧ r_claimed_by r = Some agentID.
Proof.
  unfold policy, verdict. destruct (d_runs d !! id) as [r|]; [|naive_solver]. simpl.
  case_bool_decide; simpl; naive_solver.
Qed.

Lemma finish_live id st d :
  terminal st = true →
  if live d id then ∃ d1, FinishRun id st d = Ok (true, d1) ∧ status_of d1 id = Some st else FinishRun id st d = Ok (false, d).
Proof.
  intros Ht. unfold FinishRun, finishRunFrom, live, status_of. rewrite Ht. simpl.
  destruct (d_runs d !! id) as [r|]; [|done]. destruct (terminal (r_status r)); simpl; [done|].
  eexists. split; [done|]. simpl. by rewrite lookup_insert_eq.
Qed.

(** What an agent's finish report does.  It is answered in every case; a
    status that is not terminal is refused, a run that is missing or not the
    agent's own too, and nothing is written.  On the agent's own unfinished run
    it finishes the run with that status, freeing its locks, and cancels what
    the run had called unless it succeeded; on one already finished it changes
    nothing and says so. *)
Theorem agent_finish_exact (visit : gmap (runid * Z * string) report → list ((runid * Z * string) * report))
    (lists marks : runid → bool) (agentID : string) (id : runid) (status : string) (d : db)
    (c : option claimedByCache) :
  (∀ m, visit m ≡ₚ map_to_list m) → replica d c →
  ∃ code sv', handleAgentFinishRun visit lists marks true true agentID id status (MkServer d c) = Some (code, sv') ∧
    match parse_status status with
    | None => code = 400%Z ∧ sv_db sv' = d
    | Some st =>
        match policy agentID false id d with
        | runWriteOK =>
            if live d id then
              code = 204%Z ∧ ∃ d1, finishRunFrom id None st d = Ok (true, d1) ∧ status_of d1 id = Some st ∧
                (if bool_decide (st = RunSucceeded) then sv_db sv' = d1
                 else cancels marks (λ j, descends lists d id j ∧ j ≠ id) d1 (sv_db sv'))
            else code = 200%Z ∧ sv_db sv' = d
        | runWriteNotFound => code = 404%Z ∧ sv_db sv' = d
        | runWriteNotOwned => code = 403%Z ∧ sv_db sv' = d
        | runWriteTerminal => False
        end
    end.
Proof.
  intros Hv Hr. unfold handleAgentFinishRun. destruct (parse_status status) as [st|] eqn:Est; [|eauto 6].
  assert (terminal st = true) as Ht.
  { unfold parse_status in Est. repeat (case_match; simplify_eq; try done). }
  unfold guarded. simpl. destruct (replica_coherent _ _ Hr) as [Hc Hb].
  pose proof (guard_policy true agentID id false d c Hc Hb) as H.
  destruct (agentRunGuard _ _ _ _ _ _) as [v c']. destruct H as (_ & _ & [-> |[? _]]); [|done].
  assert (policy agentID false id d ≠ runWriteTerminal) as Hnt.
  { unfold policy, verdict. destruct (d_runs d !! id); [|done]. simpl. by case_bool_decide. }
  destruct (policy agentID false id d); simpl; [|by eauto 6..|done].
  pose proof (finish_live id st d Ht) as Hf. destruct (live d id); [|rewrite Hf; eauto 6].
  destruct Hf as (d1 & Hd1 & Hst). rewrite Hd1. case_bool_decide as Hs.
  - destruct (cascade_result visit lists marks Hv d1 id) as (d2 & -> & H2). simpl.
    eexists _, _. split; [done|]. split; [done|]. exists d1. split; [done|]. split; [done|].
    rewrite bool_decide_false by naive_solver. eapply cancels_ext; [|exact H2].
    intros j. cbv beta. unfold FinishRun in Hd1. apply finish_touches in Hd1.
    by rewrite (descends_touches _ lists d d1 id j Hd1).
  - eexists _, _. split; [done|]. split; [done|]. exists d1. split; [done|]. split; [done|].
    rewrite bool_decide_true; [done|]. destruct st; naive_solver.
Qed.

Lemma agent_finish_exact_witness :
  ∃ code sv', handleAgentFinishRun map_to_list (λ _, true) (λ _, true) true true "a" 1 "Failed"
                (MkServer call_tree (Some (newClaimedByCache 4))) = Some (code, sv')
    ∧ code = 204%Z ∧ status_of (sv_db sv') <$> [1; 2; 3]%N = [Some RunFailed; Some RunCancelled; Some RunCancelled].
Proof.
  destruct (agent_finish_exact map_to_list (λ _, true) (λ _, true) "a" 1 "Failed" call_tree
              (Some (newClaimedByCache 4))) as (code & sv' & E & _); [done|apply replica_start|].
  exists code, sv'. split; [exact E|]. vm_compute in E. injection E as <- <-. vm_compute. auto.
Defined.

(** An agent's step report touches only its own live run.  Whether it is
    stored or not, the report of a step changes at most that step of a run
    claimed by the reporting agent and not finished, and a stored report carries
    the reported status; a late report leaves the finished run as it ended. *)
Theorem step_report_owned (ok ok2 ok3 : bool) (agentID : string) (id : runid) (stepIndex : Z) (variant : string)
    (new : report) (d : db) (c : option claimedByCache) (code : Z) (sv' : server) :
  replica d c →
  handleAgentStepReport ok ok2 ok3 agentID id stepIndex variant new (MkServer d c) = Some (code, sv') →
  sv_db sv' = d
  ∨ code = 204%Z ∧
    (∃ r, d_runs d !! id = Some r ∧ r_claimed_by r = Some agentID ∧ terminal (r_status r) = false) ∧
    (∃ sr, d_reports (sv_db sv') !! (id, stepIndex, variant) = Some sr ∧ sr_status sr = sr_status new) ∧
    (∀ k, k ≠ (id, stepIndex, variant) → d_reports (sv_db sv') !! k = d_reports d !! k) ∧
    (∀ j, j ≠ id → d_runs (sv_db sv') !! j = d_runs d !! j) ∧
    (∀ l, holder (sv_db sv') l = holder d l).
Proof.
  intros Hr H. unfold handleAgentStepReport in H. apply guarded_ok in H as [H|[Hp (c' & _ & H)]]; [by left| |done].
  simpl in *. destruct ok2; simpl in H; [|injection H as <- <-; by left].
  apply policy_ok in Hp as (r & Hrow & Hby). rewrite Hrow in H.
  destruct (terminal (r_status r)) eqn:Et; [injection H as <- <-; by left|].
  destruct ok3; simpl in H; [|injection H as <- <-; by left].
  unfold UpsertStepReport in H. rewrite Hrow, Et in H. injection H as <- <-. right. simpl.
  split; [done|]. split; [eauto|].
  set (d1 := set_reports _ d).
  assert (∀ b : bool, d_reports (if b then MarkRunRunning id d1 else d1) = d_reports d1
          ∧ (∀ j, j ≠ id → d_runs (if b then MarkRunRunning id d1 else d1) !! j = d_runs d !! j)
          ∧ ∀ l, holder (if b then MarkRunRunning id d1 else d1) l = holder d l) as Hb.
  { intros []; (split; [done|]; split; [|done]); intros j Hj; [|done]. unfold MarkRunRunning. simpl.
    by rewrite lookup_alter_ne. }
  destruct (Hb (sr_status new =? "Running")%string) as (-> & Hrows & Hl). simpl. split; [|split; [|done]].
  - rewrite lookup_partial_alter_eq. destruct (d_reports d !! _); eexists; done.
  - intros k Hk. by rewrite lookup_partial_alter_ne.
Qed.

Lemma step_report_owned_witness :
  ∃ code sv', handleAgentStepReport true true true "a1" 1 0 "" (MkReport 0 "build" "Running" None (Some 7%Z) None None None)
                (MkServer claimed_db (Some (newClaimedByCache 4))) = Some (code, sv')
    ∧ code = 204%Z ∧ holder (sv_db sv') (LMutex "m") = None.
Proof.
  eexists _, _. split; [vm_compute; reflexivity|]. split; [done|].
  edestruct (step_report_owned true true true "a1" 1 0 "" (MkReport 0 "build" "Running" None (Some 7%Z) None None None)
    claimed_db (Some (newClaimedByCache 4))) as [E|(_ & _ & _ & _ & _ & E)]; [apply replica_start|vm_compute; reflexivity|..].
  - vm_compute in E. discriminate.
  - exact (E (LMutex "m")).
Defined.
