(* ===== verification/SecretRefs.v ===== *)
(** * internal/dsl: secret references in templates

    [secretrefs.go] and [secretrefs_ast.go]: how a secret name chosen by a
    parameter is written into a template before it runs, and the check that
    every reference to the secrets of a run is static.  Parsing a template is
    Go's [text/template/parse], a parameter; its syntax tree is [node].

    A position in a template is modelled by the text after it. *)

From S2P Require Import Prelude GoStrings Regex DslNames DslTypes.
From stdpp Require Import options.

(** ** Scanning *)

Definition quote_char : ascii := "034".

(** [[ \t\r\n]] and [\s] *)
Definition isTemplateWhitespace (c : ascii) : bool :=
  is_char " " c || is_char "009" c || is_char "013" c || is_char "010" c.
Definition re_space (c : ascii) : bool := isTemplateWhitespace c || is_char "012" c.

(** The longest prefix of bytes satisfying [p], and the rest. *)
Fixpoint span (p : ascii → bool) (s : string) : string * string :=
  match s with
  | "" => ("", "")
  | String c s' => if p c then let '(a, b) := span p s' in (String c a, b) else ("", s)
  end.

Definition skipTemplateWhitespace (s : string) : string := (span isTemplateWhitespace s).2.

(** The text before the first [sub], and the text from it on. *)
Fixpoint find_sub (s sub : string) : option (string * string) :=
  if HasPrefix s sub then Some ("", s)
  else match s with
       | "" => None
       | String c s' => (λ p, (String c p.1, p.2)) <$> find_sub s' sub
       end.

(** The text after the [/*] of a comment action. *)
Definition comment_start (s : string) : option string :=
  let s := skipTemplateWhitespace s in
  let s := match s with String c s' => if is_char "-" c then skipTemplateWhitespace s' else s | "" => s end in
  if HasPrefix s "/*" then Some (str_drop 2 s) else None.

Definition isTemplateCommentAction (action : string) : bool := bool_decide (is_Some (comment_start action)).

Definition is_quote (c : ascii) : bool := is_char quote_char c || is_char "'" c || is_char "`" c.

(** The scan of [templateActionEnd] outside a comment: [quote] is the open
    quote, [skip] says that the next byte is escaped. *)
Fixpoint action_scan (quote : option ascii) (skip : bool) (s : string) : option (string * string) :=
  match s with
  | "" => None
  | String c s' =>
      let go quote skip := (λ p, (String c p.1, p.2)) <$> action_scan quote skip s' in
      if skip then go quote false
      else match quote with
           | Some q =>
               if negb (is_char "`" q) && is_char "\" c then go quote true
               else if is_char q c then go None false
               else go quote false
           | None =>
               if is_quote c then go (Some c) false
               else if is_char "}" c && HasPrefix s' "}" then Some ("", s)
               else go None false
           end
  end.

(** [templateActionEnd]: the action and the text from its closing braces on. *)
Definition templateActionEnd (s : string) : option (string * string) :=
  match comment_start s with
  | Some body =>
      '(_, r) ← find_sub body "*/";
      '(_, close) ← find_sub (str_drop 2 r) "}}";
      Some (str_take (String.length s - String.length close) s, close)
  | None => action_scan None false s
  end.

(** [templatePositionQuoted action position], on the text before the position. *)
Fixpoint quoted_after (quote : option ascii) (skip : bool) (s : string) : bool :=
  match s with
  | "" => bool_decide (is_Some quote)
  | String c s' =>
      if skip then quoted_after quote false s'
      else match quote with
           | Some q =>
               if negb (is_char "`" q) && is_char "\" c then quoted_after quote true s'
               else quoted_after (if is_char q c then None else quote) false s'
           | None => quoted_after (if is_quote c then Some c else None) false s'
           end
  end.
Definition templatePositionQuoted (before : string) : bool := quoted_after None false before.

(** ** [secretIndexRe] *)

(** The rest of a double-quoted string, closing quote included:
    [(?:\\.|[^"\\])*"]. *)
Fixpoint quoted_tail (esc : bool) (s : string) : option string :=
  match s with
  | "" => None
  | String c s' =>
      if esc then (if is_char "010" c then None else String c <$> quoted_tail false s')
      else if is_char quote_char c then Some (String c "")
      else String c <$> quoted_tail (is_char "\" c) s'
  end.

Definition index_operand (s : string) : option string :=
  match s with
  | String c s' =>
      match (if is_char quote_char c then String c <$> quoted_tail false s' else None) with
      | Some o => Some o
      | None => match (span (λ c, negb (re_space c || is_char "}" c)) s).1 with "" => None | o => Some o end
      end
  | "" => None
  end.

(** The match at the start of [s]: the part before the operand, and the operand. *)
Definition secretIndexRe_at (s : string) : option (string * string) :=
  if HasPrefix s "index" then
    let '(w1, r1) := span isTemplateWhitespace (str_drop 5 s) in
    if negb (w1 =? "")%string && HasPrefix r1 ".Secrets" then
      let '(w2, r2) := span isTemplateWhitespace (str_drop 8 r1) in
      if (w2 =? "")%string then None
      else (λ o, ("index" +:+ w1 +:+ ".Secrets" +:+ w2, o)) <$> index_operand r2
    else None
  else None.

(** [secretParamOperandRe] *)
Definition param_operand (operand : string) : option string :=
  if HasPrefix operand ".Params." && is_identifier (str_drop 8 operand) then Some (str_drop 8 operand) else None.

(** ** Literals *)

(** [strconv.Quote] of a text without special bytes. *)
Definition Quote (s : string) : string := String quote_char s +:+ String quote_char "".

Definition hex_digit (c : ascii) : option N :=
  let n := N_of_ascii c in
  if is_digit c then Some (n - 48)%N
  else if byte_in 97 102 c then Some (n - 87)%N
  else if byte_in 65 70 c then Some (n - 55)%N else None.
Definition octal_digit (c : ascii) : option N := if byte_in 48 55 c then Some (N_of_ascii c - 48)%N else None.

(** [n] digits in base [b], and the rest. *)
Fixpoint digits (digit : ascii → option N) (b : N) (n : nat) (acc : N) (s : string) : option (N * string) :=
  match n, s with
  | O, _ => Some (acc, s)
  | S n, String c s' => d ← digit c; digits digit b n (acc * b + d)%N s'
  | S _, "" => None
  end.

(** [utf8.AppendRune] of a rune that is not a surrogate nor out of range. *)
Definition encode_rune (r : N) : string :=
  let tail k := ascii_of_N (128 + (r / 64 ^ k) mod 64) in
  if (r <? 128)%N then String (ascii_of_N r) ""
  else if (r <? 2048)%N then String (ascii_of_N (192 + r / 64)) (String (tail 0%N) "")
  else if (r <? 65536)%N then String (ascii_of_N (224 + r / 4096)) (String (tail 1%N) (String (tail 0%N) ""))
  else String (ascii_of_N (240 + r / 262144)) (String (tail 2%N) (String (tail 1%N) (String (tail 0%N) ""))).
Definition valid_rune (r : N) : bool := (r <? 55296)%N || ((57343 <? r)%N && (r <=? 1114111)%N).

(** The escape after a backslash, as [unquoteChar] reads it in a double-quoted
    literal: the bytes it stands for, and the rest. *)
Definition unescape (s : string) : option (string * string) :=
  match s with
  | "" => None
  | String c s' =>
      let one n := Some (String (ascii_of_N n) "", s') in
      if is_char "a" c then one 7%N else if is_char "b" c then one 8%N
      else if is_char "f" c then one 12%N else if is_char "n" c then one 10%N
      else if is_char "r" c then one 13%N else if is_char "t" c then one 9%N
      else if is_char "v" c then one 11%N
      else if is_char "\" c || is_char quote_char c then Some (String c "", s')
      else if is_char "x" c then
        '(n, r) ← digits hex_digit 16 2 0 s'; Some (String (ascii_of_N n) "", r)
      else if is_char "u" c then
        '(n, r) ← digits hex_digit 16 4 0 s'; if valid_rune n then Some (encode_rune n, r) else None
      else if is_char "U" c then
        '(n, r) ← digits hex_digit 16 8 0 s'; if valid_rune n then Some (encode_rune n, r) else None
      else
        '(n, r) ← digits octal_digit 8 3 0 s; if (n <? 256)%N then Some (String (ascii_of_N n) "", r) else None
  end.

(** The body of a double-quoted literal up to its closing quote, which must end
    the text; [fuel] bounds the number of characters. *)
Fixpoint unquote_body (fuel : nat) (s : string) : option string :=
  match fuel, s with
  | O, _ | _, "" => None
  | S fuel, String c s' =>
      if is_char quote_char c then (if (s' =? "")%string then Some "" else None)
      else if is_char "010" c then None
      else if is_char "\" c then '(b, r) ← unescape s'; (String.append b) <$> unquote_body fuel r
      else match rune_at s with
           | Some (r, w) => (String.append (encode_rune r)) <$> unquote_body fuel (str_drop w s)
           | None => None
           end
  end.

(** [strconv.Unquote] of a text that starts with a double quote. *)
Definition Unquote (s : string) : option string := unquote_body (String.length s) (str_drop 1 s).

(** ** [ResolveSecretNameParams] *)

Definition errDynamicSecretName : text := [Lit "dynamic secret name must be resolved from a parameter before execution"].

Section resolve.
(** [strconv.Unquote]'s error text. *)
Variable syntax_error : text.

(** The replacement of one match. *)
Definition replace_index (params : gmap string string) (pre operand : string) : res string :=
  if HasPrefix operand (String quote_char "") then
    match Unquote operand with
    | None => Err ([Lit "invalid secret name literal: "] ++ syntax_error)
    | Some name =>
        _ ← (if (name =? "")%string then Ok tt
             else wrap [Lit "secret name "; Quo name; Lit " "] (ValidateSecretName name));
        Ok (pre +:+ operand)
    end
  else
    match param_operand operand with
    | None => Err errDynamicSecretName
    | Some paramName =>
        let name := default "" (params !! paramName) in
        _ ← (if (name =? "")%string then Ok tt
             else
               _ ← fail_if (Contains name "{{" || Contains name "}}")
                     [Lit "secret name parameter "; Quo paramName; Lit " must be a literal secret name"];
               wrap [Lit "secret name parameter "; Quo paramName; Lit " "] (ValidateSecretName name));
        Ok (pre +:+ Quote name)
    end.

(** [replaceSecretIndexMatchesInAction]: [before] is the action up to here,
    [skip] bytes belong to a match already dealt with, [keep] says whether they
    are copied. *)
Fixpoint replace_in_action (params : gmap string string) (before : string) (skip : nat) (keep : bool) (s : string)
  : res string :=
  match s with
  | "" => Ok ""
  | String c s' =>
      let before' := before +:+ String c "" in
      match skip with
      | S k => out ← replace_in_action params before' k keep s'; Ok (if keep then String c out else out)
      | O =>
          match secretIndexRe_at s with
          | None => out ← replace_in_action params before' 0 true s'; Ok (String c out)
          | Some (pre, operand) =>
              let n := pred (String.length pre + String.length operand) in
              if templatePositionQuoted before then
                out ← replace_in_action params before' n true s'; Ok (String c out)
              else
                new ← replace_index params pre operand;
                out ← replace_in_action params before' n false s'; Ok (new +:+ out)
          end
      end
  end.

(** [replaceSecretIndexMatches]: one action per unit of fuel. *)
Fixpoint replace_actions (fuel : nat) (params : gmap string string) (s : string) : res string :=
  match fuel with
  | O => Ok s
  | S fuel =>
      match find_sub s "{{" with
      | None => Ok s
      | Some (lit, rest) =>
          match templateActionEnd (str_drop 2 rest) with
          | None => Ok s
          | Some (action, rest) =>
              new ← (if isTemplateCommentAction action then Ok action
                     else replace_in_action params "" 0 true action);
              out ← replace_actions fuel params rest;
              Ok (lit +:+ "{{" +:+ new +:+ out)
          end
      end
  end.

(** *** Normalization of references ([template.go]) *)

Definition name_char (c : ascii) : bool := is_ident_char c || is_char "-" c.

(** A reference at the start of [s] with the given head: what the pattern's
    three groups capture, and the rest. *)
Definition secret_ref_at (head : string) (hyphen : bool) (s : string) : option (string * string * string * string) :=
  if HasPrefix s "{{" then
    let s := str_drop 2 s in
    let '(dash, s) := match s with String c s' => if is_char "-" c then ("-", s') else ("", s) | "" => ("", s) end in
    let '(w1, s) := span re_space s in
    if HasPrefix s head then
      let '(name, s) := span name_char (str_drop (String.length head) s) in
      let '(w2, s) := span re_space s in
      let '(dash2, s) := match s with String c s' => if is_char "-" c then ("-", s') else ("", s) | "" => ("", s) end in
      if match first_byte name with Some c => is_ident_start c | None => false end
         && (negb hyphen || has_byte "-" name) && HasPrefix s "}}"
      then Some (dash +:+ w1, name, w2 +:+ dash2, str_drop 2 s) else None
    else None
  else None.

Fixpoint rewriteToIndex (head : string) (hyphen : bool) (skip : nat) (s : string) : string :=
  match s with
  | "" => ""
  | String c s' =>
      match skip with
      | S k => rewriteToIndex head hyphen k s'
      | O =>
          match secret_ref_at head hyphen s with
          | Some (open, name, close, rest) =>
              "{{" +:+ open +:+ "index .Secrets " +:+ Quote name +:+ close +:+ "}}"
              +:+ rewriteToIndex head hyphen (pred (String.length s - String.length rest)) s'
          | None => String c (rewriteToIndex head hyphen 0 s')
          end
      end
  end.

Definition normalizeSecretsRefs (tpl : string) : string :=
  rewriteToIndex ".Secrets." true 0 (rewriteToIndex "secrets." false 0 tpl).

(** ** The syntax tree *)

(** The nodes of [text/template/parse] the check distinguishes; [NNil] is a nil
    node, [NOther] any other one (text, dot, nil, number, bool, comment, break,
    continue, identifier outside a command's head).  A pipe holds the arguments
    of each of its commands. *)
Inductive node :=
| NNil
| NList (l : list node)
| NAction (pipe : node)
| NBranch (pipe list_ else_ : node) (* if, with, range *)
| NTemplate (pipe : node)
| NPipe (cmds : list (list node))
| NCommand (args : list node)
| NField (ident : list string)
| NVariable (ident : list string)
| NChain (n : node) (field : list string)
| NIdentifier (ident : string)
| NString (text_ : string)
| NOther.

Definition containsReservedSecrets (fields : list string) : bool := bool_decide ("Secrets" ∈ fields).

Definition canonicalSecretIndexName (args : list node) : option string :=
  match args with
  | [NIdentifier f; NField [r]; NString key] =>
      if (f =? "index")%string && (r =? "Secrets")%string then Some key else None
  | _ => None
  end.

Definition collect_name (name : string) (names : list string) : res (list string) :=
  _ ← wrap [Lit "secret name "; Quo name; Lit " "] (ValidateSecretName name); Ok (names ++ [name]).

Fixpoint collectSecretReferenceNames (n : node) (names : list string) {struct n} : res (list string) :=
  let command (args : list node) (names : list string) :=
    match canonicalSecretIndexName args with
    | Some name => if (name =? "")%string then Ok names else collect_name name names
    | None => (fix go args names := match args with
                                    | [] => Ok names
                                    | a :: args => names ← collectSecretReferenceNames a names; go args names
                                    end) args names
    end in
  match n with
  | NNil | NIdentifier _ | NString _ | NOther => Ok names
  | NList l => (fix go l names := match l with
                                  | [] => Ok names
                                  | a :: l => names ← collectSecretReferenceNames a names; go l names
                                  end) l names
  | NAction pipe | NTemplate pipe => collectSecretReferenceNames pipe names
  | NBranch pipe list_ else_ =>
      names ← collectSecretReferenceNames pipe names;
      names ← collectSecretReferenceNames list_ names;
      collectSecretReferenceNames else_ names
  | NPipe cmds => (fix go cmds names := match cmds with
                                        | [] => Ok names
                                        | c :: cmds => names ← command c names; go cmds names
                                        end) cmds names
  | NCommand args => command args names
  | NField ident =>
      match ident with
      | [s; name] => if (s =? "Secrets")%string then collect_name name names
                     else if containsReservedSecrets ident then Err errDynamicSecretName else Ok names
      | _ => if containsReservedSecrets ident then Err errDynamicSecretName else Ok names
      end
  | NVariable ident => if containsReservedSecrets ident then Err errDynamicSecretName else Ok names
  | NChain n field =>
      if containsReservedSecrets field then Err errDynamicSecretName else collectSecretReferenceNames n names
  end.

(** [template.New("").Funcs(funcMap).Parse]: the roots of the templates it
    defines, or an error. *)
Variable parse_template : string → res (list node).

Definition ReferencedSecretNames (tpl : string) : res (list string) :=
  roots ← wrap [Lit "parse secret references: "] (parse_template (normalizeSecretsRefs tpl));
  fold_res (λ names root, collectSecretReferenceNames root names) [] roots.

Definition ResolveSecretNameParams (tpl : string) (params : gmap string string) : res string :=
  out ← replace_actions (S (String.length tpl)) params tpl;
  _ ← ReferencedSecretNames out;
  Ok out.
End resolve.

(** ** The check finds every reference *)

(** A mention of the secrets in a tree: a field, variable or chain that names
    them, or an [index .Secrets] command with a literal key. *)
Inductive site := SNames (ident : list string) | SIndex (key : string).

Inductive mentions : node → site → Prop :=
| me_field ident : "Secrets" ∈ ident → mentions (NField ident) (SNames ident)
| me_variable ident : "Secrets" ∈ ident → mentions (NVariable ident) (SNames ident)
| me_chain_field n field : "Secrets" ∈ field → mentions (NChain n field) (SNames field)
| me_chain n field s : mentions n s → mentions (NChain n field) s
| me_list l n s : n ∈ l → mentions n s → mentions (NList l) s
| me_action n s : mentions n s → mentions (NAction n) s
| me_branch_pipe p l e s : mentions p s → mentions (NBranch p l e) s
| me_branch_list p l e s : mentions l s → mentions (NBranch p l e) s
| me_branch_else p l e s : mentions e s → mentions (NBranch p l e) s
| me_template n s : mentions n s → mentions (NTemplate n) s
| me_pipe cmds args s : args ∈ cmds → mentions (NCommand args) s → mentions (NPipe cmds) s
| me_index args key : canonicalSecretIndexName args = Some key → mentions (NCommand args) (SIndex key)
| me_arg args n s : canonicalSecretIndexName args = None → n ∈ args → mentions n s → mentions (NCommand args) s.

(** A mention whose secret is known before the template runs, and which. *)
Definition static_name (s : site) : option string :=
  match s with
  | SNames [r; name] => if (r =? "Secrets")%string then Some name else None
  | SNames _ => None
  | SIndex key => Some key
  end.

Section node_ind.
Variable P : node → Prop.
Hypotheses (Hleaf : ∀ n, n = NNil ∨ n = NOther ∨ (∃ i, n = NIdentifier i) ∨ (∃ t, n = NString t)
                          ∨ (∃ i, n = NField i) ∨ (∃ i, n = NVariable i) → P n)
           (Hlist : ∀ l, (∀ n, n ∈ l → P n) → P (NList l))
           (Haction : ∀ n, P n → P (NAction n))
           (Hbranch : ∀ p l e, P p → P l → P e → P (NBranch p l e))
           (Htemplate : ∀ n, P n → P (NTemplate n))
           (Hpipe : ∀ cmds, (∀ args n, args ∈ cmds → n ∈ args → P n) → P (NPipe cmds))
           (Hcommand : ∀ args, (∀ n, n ∈ args → P n) → P (NCommand args))
           (Hchain : ∀ n f, P n → P (NChain n f)).

Fixpoint node_nested_ind (n : node) : P n.
Proof using All.
  refine (let all := fix all (l : list node) : ∀ n, n ∈ l → P n :=
            match l with
            | [] => λ n H, False_ind _ (proj1 (elem_of_nil n) H)
            | x :: l => λ n H, match proj1 (elem_of_cons l n x) H with
                               | or_introl E => eq_ind_r P (node_nested_ind x) E
                               | or_intror H => all l n H
                               end
            end in
          let alls := fix alls (c : list (list node)) : ∀ args n, args ∈ c → n ∈ args → P n :=
            match c with
            | [] => λ args n H _, False_ind _ (proj1 (elem_of_nil args) H)
            | x :: c => λ args n H Hn, match proj1 (elem_of_cons c args x) H with
                                       | or_introl E => all x n (eq_ind args (λ a, n ∈ a) Hn x E)
                                       | or_intror H => alls c args n H Hn
                                       end
            end in _).
  destruct n.
  - apply Hleaf. auto.
  - apply Hlist. exact (all l).
  - apply Haction, node_nested_ind.
  - apply Hbranch; apply node_nested_ind.
  - apply Htemplate, node_nested_ind.
  - apply Hpipe. exact (alls cmds).
  - apply Hcommand. exact (all args).
  - apply Hleaf. eauto 10.
  - apply Hleaf. eauto 10.
  - apply Hchain, node_nested_ind.
  - apply Hleaf. eauto 10.
  - apply Hleaf. eauto 10.
  - apply Hleaf. eauto 10.
Qed.
End node_ind.

(** [collected l found names]: [l] are exactly the non-empty names among the
    sites [found], which are all static. *)
Definition collected (l : list string) (found : site → Prop) : Prop :=
  (∀ s, found s → ∃ name, static_name s = Some name ∧ (name = "" ∨ name ∈ l)) ∧
  (∀ name, name ∈ l → ValidateSecretName name = Ok tt ∧ ∃ s, found s ∧ static_name s = Some name).

(** A traversal that appends the names of the sites [found]. *)
Definition gathers (f : list string → res (list string)) (found : site → Prop) : Prop :=
  ∀ names names', f names = Ok names' → ∃ l, names' = names ++ l ∧ collected l found.

Lemma collected_ext l P Q : (∀ s, P s ↔ Q s) → collected l P → collected l Q.
Proof.
  intros H [H1 H2]. split; [intros s Hs; by apply H1, H|].
  intros name Hn. destruct (H2 name Hn) as (? & s & ? & ?). split; [done|]. exists s. by rewrite <-H.
Qed.

Lemma gathers_ext f P Q : (∀ s, P s ↔ Q s) → gathers f P → gathers f Q.
Proof. intros H Hf names names' E. destruct (Hf _ _ E) as (l & ? & ?). exists l. eauto using collected_ext. Qed.

Lemma gathers_none P : (∀ s, ¬ P s) → gathers Ok P.
Proof.
  intros H names names' [= <-]. exists []. rewrite app_nil_r. split; [done|].
  split; [intros s Hs; by destruct (H s)|by intros ? ?%elem_of_nil].
Qed.

Lemma gathers_seq f g P Q : gathers f P → gathers g Q → gathers (λ names, names ← f names; g names) (λ s, P s ∨ Q s).
Proof.
  intros Hf Hg names names' (n1 & E1 & E2)%bind_ok.
  destruct (Hf _ _ E1) as (l1 & -> & A1 & B1), (Hg _ _ E2) as (l2 & -> & A2 & B2).
  exists (l1 ++ l2). rewrite (assoc_L (++)). split; [done|]. split.
  - intros s [Hs|Hs]; [destruct (A1 s Hs) as (name & ? & [?|?])|destruct (A2 s Hs) as (name & ? & [?|?])];
      exists name; rewrite elem_of_app; auto.
  - intros name [Hn|Hn]%elem_of_app; [destruct (B1 name Hn) as (? & s & ? & ?)|destruct (B2 name Hn) as (? & s & ? & ?)];
      eauto.
Qed.

Lemma gathers_fold {A} (f : list string → A → res (list string)) (P : A → site → Prop) l :
  (∀ x, x ∈ l → gathers (λ names, f names x) (P x)) →
  gathers (λ names, fold_res f names l) (λ s, ∃ x, x ∈ l ∧ P x s).
Proof.
  induction l as [|x l IH]; intros Hf; simpl.
  - apply gathers_none. by intros s (x & ?%elem_of_nil & _).
  - eapply gathers_ext; [|apply (gathers_seq _ _ (P x) (λ s, ∃ y, y ∈ l ∧ P y s))].
    + intros s. setoid_rewrite elem_of_cons. naive_solver.
    + apply Hf. left.
    + apply IH. intros y Hy. apply Hf. by right.
Qed.

Lemma gathers_name name s (P : site → Prop) :
  static_name s = Some name → (∀ s', P s' ↔ s' = s) → gathers (collect_name name) P.
Proof.
  intros Hs HP names names' E. unfold collect_name in E. apply then_ok in E as [Hv [= <-]]. rewrite wrap_ok in Hv.
  exists [name]. split; [done|]. split.
  - intros s' ->%HP. exists name. split; [done|]. right. left.
  - intros name' ->%list_elem_of_singleton. split; [done|]. exists s. split; [by apply HP|done].
Qed.

(** The inner loops are [fold_res]. *)
Definition collect_command (args : list node) (names : list string) : res (list string) :=
  match canonicalSecretIndexName args with
  | Some name => if (name =? "")%string then Ok names else collect_name name names
  | None => fold_res (λ names a, collectSecretReferenceNames a names) names args
  end.

Lemma collect_list l names :
  collectSecretReferenceNames (NList l) names = fold_res (λ names a, collectSecretReferenceNames a names) names l.
Proof.
  revert names. induction l as [|x l IH]; intros names; [done|]. simpl. unfold mbind, res_bind.
  destruct (collectSecretReferenceNames x names); [apply IH|done].
Qed.

Lemma collect_args args names : collectSecretReferenceNames (NCommand args) names = collect_command args names.
Proof.
  unfold collect_command. simpl. destruct (canonicalSecretIndexName args); [done|].
  exact (collect_list args names).
Qed.

Lemma collect_pipe cmds names :
  collectSecretReferenceNames (NPipe cmds) names = fold_res (λ names c, collect_command c names) names cmds.
Proof.
  revert names. induction cmds as [|x cmds IH]; intros names; [done|].
  change (collectSecretReferenceNames (NPipe (x :: cmds)) names)
    with (collectSecretReferenceNames (NCommand x) names ≫= collectSecretReferenceNames (NPipe cmds)).
  rewrite collect_args. simpl. unfold mbind, res_bind. destruct (collect_command x names); [apply IH|done].
Qed.

Lemma gathers_command args :
  (∀ n, n ∈ args → gathers (collectSecretReferenceNames n) (mentions n)) →
  gathers (collect_command args) (mentions (NCommand args)).
Proof.
  intros Hargs. unfold collect_command. destruct (canonicalSecretIndexName args) as [key|] eqn:E.
  - assert (∀ s, mentions (NCommand args) s ↔ s = SIndex key) as Hm.
    { intros s. split; [|intros ->; by constructor].
      intros H. inversion H as [| | | | | | | | | | |a k Hk|a n s' Hn]; subst; congruence. }
    destruct (String.eqb_spec key "") as [->|Hne]; [|by apply (gathers_name key (SIndex key))].
    intros names names' [= <-]. exists []. rewrite app_nil_r. split; [done|].
    split; [|by intros ? ?%elem_of_nil]. intros s ->%Hm. exists ""; auto.
  - eapply gathers_ext; [|apply (gathers_fold (λ names a, collectSecretReferenceNames a names) mentions args Hargs)].
    intros s. split; [intros (n & ? & ?); by eapply me_arg|]. intros H. inversion H as [| | | | | | | | | | |a k Hk|a n s' Hn]; subst; [congruence|eauto].
Qed.

Lemma gathers_node n : gathers (collectSecretReferenceNames n) (mentions n).
Proof.
  induction n as [n Hn|l IH|n IH|p l e IHp IHl IHe|n IH|cmds IH|args IH|n f IH] using node_nested_ind.
  - destruct Hn as [->|[->|[[i ->]|[[t ->]|[[i ->]|[i ->]]]]]]; try (apply gathers_none; intros s H; by inversion H).
    + assert (∀ s, mentions (NField i) s ↔ s = SNames i ∧ "Secrets" ∈ i) as Hm.
      { intros s. split; [by inversion 1|]. intros [-> ?]. by constructor. }
      assert (∀ names names', (if containsReservedSecrets i then Err errDynamicSecretName else Ok names) = Ok names' →
                ∃ l, names' = names ++ l ∧ collected l (mentions (NField i))) as Hres.
      { intros names names'. unfold containsReservedSecrets. case_bool_decide as Hin; [done|].
        apply gathers_none. intros s [_ ?]%Hm. done. }
      destruct i as [|r [|name [|]]]; try exact Hres. simpl.
      destruct (String.eqb_spec r "Secrets") as [->|Hr]; [|exact Hres].
      eapply (gathers_name name (SNames ["Secrets"; name])); [done|]. intros s. rewrite Hm.
      split; [naive_solver|]. intros ->. split; [done|left].
    + simpl. unfold containsReservedSecrets. case_bool_decide; [done|]. apply gathers_none. intros s H'. by inversion H'.
  - intros names names'. rewrite collect_list. revert names names'. fold (gathers (λ names,
      fold_res (λ names a, collectSecretReferenceNames a names) names l) (mentions (NList l))).
    eapply gathers_ext; [|apply (gathers_fold _ mentions l IH)].
    intros s. split; [intros (n & ? & ?); by eapply me_list|]. inversion 1; eauto.
  - eapply gathers_ext; [|exact IH]. intros s. split; [by constructor|]. by inversion 1.
  - eapply gathers_ext; [|exact (gathers_seq _ _ _ _ IHp (gathers_seq _ _ _ _ IHl IHe))].
    intros s. split; [intros [?|[?|?]]; by constructor|]. inversion 1; auto.
  - eapply gathers_ext; [|exact IH]. intros s. split; [by constructor|]. by inversion 1.
  - intros names names'. rewrite collect_pipe. revert names names'.
    fold (gathers (λ names, fold_res (λ names c, collect_command c names) names cmds) (mentions (NPipe cmds))).
    eapply gathers_ext; [|apply (gathers_fold (λ names c, collect_command c names) (λ c, mentions (NCommand c)) cmds)].
    + intros s. split; [intros (c & ? & ?); by eapply me_pipe|]. inversion 1; eauto.
    + intros c Hc. apply gathers_command. intros n Hn. by eapply IH.
  - intros names names'. rewrite collect_args. revert names names'. by apply gathers_command.
  - simpl. unfold containsReservedSecrets. case_bool_decide as Hin; [done|].
    eapply gathers_ext; [|exact IH]. intros s. split; [by constructor|]. by inversion 1.
Qed.

(** The static check of secret references is exact.  A template accepted
    by the check mentions the secrets of the run only by names known before it
    runs, directly or as the literal key of an index; the names returned, which
    are the ones that will be resolved, are exactly those, and valid.  Anything
    else (a variable, a range, a computed key, an alias of the whole map) is an
    error. *)
Theorem secret_names_exact (parse_template : string → res (list node)) (tpl : string) (names : list string) :
  ReferencedSecretNames parse_template tpl = Ok names →
  ∃ roots, parse_template (normalizeSecretsRefs tpl) = Ok roots ∧
    collected names (λ s, ∃ root, root ∈ roots ∧ mentions root s).
Proof.
  intros (roots & Hp & Hf)%bind_ok. rewrite wrap_ok in Hp. exists roots. split; [done|].
  destruct (gathers_fold (λ names root, collectSecretReferenceNames root names) mentions roots
              (λ n _, gathers_node n) [] names Hf) as (l & -> & H). exact H.
Qed.

(** The tree of [{{ index .Secrets "K" }}] and [{{ if .Secrets.TOKEN }}]. *)
Definition sample_roots : list node :=
  [NList [NAction (NPipe [[NIdentifier "index"; NField ["Secrets"]; NString "K"]]);
          NBranch (NPipe [[NField ["Secrets"; "TOKEN"]]]) (NList [NOther]) NNil]].

Lemma secret_names_exact_witness :
  ReferencedSecretNames (λ _, Ok sample_roots) "x" = Ok ["K"; "TOKEN"] ∧
  ∀ s, mentions (NList [NAction (NPipe [[NIdentifier "index"; NField ["Secrets"]; NString "K"]]);
                        NBranch (NPipe [[NField ["Secrets"; "TOKEN"]]]) (NList [NOther]) NNil]) s →
    is_Some (static_name s).
Proof.
  assert (ReferencedSecretNames (λ _, Ok sample_roots) "x" = Ok ["K"; "TOKEN"]) as H by (vm_compute; reflexivity).
  split; [exact H|]. intros s Hs.
  destruct (secret_names_exact (λ _, Ok sample_roots) "x" _ H) as (roots & [= <-] & Hc & _).
  destruct (Hc s) as (name & -> & _); [eexists; split; [left|exact Hs]|by eexists].
Defined.

(** The literal and the parameter operand of an index, and a computed one. *)
Definition dq : string := String quote_char "".

Example resolve_sample :
  let params := <["which" := "AWS_KEY"]> ∅ in
  replace_actions [] 99 params "a {{ index .Secrets .Params.which }} {{ `index .Secrets .X` }}"
    = Ok ("a {{ index .Secrets " +:+ dq +:+ "AWS_KEY" +:+ dq +:+ " }} {{ `index .Secrets .X` }}")
  ∧ is_ok (replace_actions [] 99 params "{{ index .Secrets .Steps.x }}") = false
  ∧ normalizeSecretsRefs "{{ secrets.gh-token }}" = "{{ index .Secrets " +:+ dq +:+ "gh-token" +:+ dq +:+ " }}".
Proof. vm_compute. auto. Qed.
