(* ===== verification/GitInline.v ===== *)
(** * internal/gittemplate: inlining a template

    [inline.go]: how a [uses:] step becomes the template's own steps, renamed
    and rewritten into the caller's list.  The templates are already parsed
    ([dsl.Spec]); fetching and recursion are in [GitResolve].  A nil slice and
    an empty one are one value here. *)

From S2P Require Import Prelude GoStrings Regex DslNames DslTypes SecretRefs.
From stdpp Require Import options.

(** ** Names and references *)

Definition usesPrefixSep : string := "__".

(** [unsafeNameChar.ReplaceAllString(s, "_")]: one underscore per rune. *)
Definition safe_seg (x : N * string) : string :=
  match x.2 with String c "" => if is_ident_char c then x.2 else "_" | _ => "_" end.
Definition safeName (s : string) : string := concat_str (safe_seg <$> segs s).

Definition combineIf (outer inner : string) : string :=
  if (outer =? "")%string then inner
  else if (inner =? "")%string then outer
  else "(" +:+ outer +:+ ") && (" +:+ inner +:+ ")".

Definition prefixedName (usesName innerName : string) : string :=
  safeName usesName +:+ usesPrefixSep +:+ safeName innerName.
Definition inputsStepName (usesName : string) : string := safeName usesName +:+ usesPrefixSep +:+ "inputs".
Definition scopeIDFor (usesName : string) : string := "scope:" +:+ usesName.

(** [re.ReplaceAllStringFunc] for a matcher that gets whether a word byte
    precedes (for [\b]) and the text, and returns the replacement of a match at
    its start and the text after the match. *)
Fixpoint replace_all (m : bool → string → option (string * string)) (word : bool) (skip : nat) (s : string) : string :=
  match s with
  | "" => ""
  | String c s' =>
      match skip with
      | S k => replace_all m (is_ident_char c) k s'
      | O =>
          match m word s with
          | Some (new, rest) =>
              new +:+ replace_all m (is_ident_char c) (pred (String.length s - String.length rest)) s'
          | None => String c (replace_all m (is_ident_char c) 0 s')
          end
      end
  end.

(** An identifier at the start of the text after [head]. *)
Definition head_ident (head s : string) : option (string * string) :=
  if HasPrefix s head then
    let '(name, rest) := span is_ident_char (str_drop (String.length head) s) in
    match first_byte name with
    | Some c => if is_ident_start c then Some (name, rest) else None
    | None => None
    end
  else None.

Definition param_ref (head : string) (boundary : bool) (before after : string) (word : bool) (s : string)
  : option (string * string) :=
  if boundary && word then None
  else '(name, rest) ← head_ident head s; Some (before +:+ name +:+ after, rest).

Definition step_ref (head mid : string) (boundary : bool) (rename : string → option string) (word : bool) (s : string)
  : option (string * string) :=
  if boundary && word then None
  else
    '(name, rest) ← head_ident head s;
    if HasPrefix rest mid
    then Some (head +:+ default name (rename name) +:+ mid, str_drop (String.length mid) rest) else None.

(** [paramRefGoRe], [paramRefCondRe], [stepRefGoRe] and [stepRefCondRe], in the
    order they are applied. *)
Definition rewriteRefs (s usesName : string) (innerNames : gset string) : string :=
  if (s =? "")%string then s
  else
    let inputs := inputsStepName usesName in
    let rename name := if bool_decide (name ∈ innerNames) then Some (prefixedName usesName name) else None in
    let s := replace_all (param_ref ".Params." false (".Steps." +:+ inputs +:+ ".Outputs.") "") false 0 s in
    let s := replace_all (param_ref "params." true ("steps." +:+ inputs +:+ ".outputs.") "") false 0 s in
    let s := replace_all (step_ref ".Steps." ".Outputs." false rename) false 0 s in
    replace_all (step_ref "steps." ".outputs." true rename) false 0 s.

Definition rewriteMap (m : gmap string string) (usesName : string) (innerNames : gset string) : gmap string string :=
  (λ v, rewriteRefs v usesName innerNames) <$> m.

(** ** One step *)

Definition checkScopeStepAllowed (name container : string) (hasApproval hasCall : bool) : res unit :=
  _ ← fail_if (negb (container =? "")%string)
        [Lit "step "; Quo name; Lit ": container: is not allowed inside a uses running with runsIn.image (the scope is a single environment)"];
  _ ← fail_if hasApproval
        [Lit "step "; Quo name; Lit ": approval is not allowed inside a uses running with runsIn.image (it would hold the scope environment alive across a human wait)"];
  fail_if hasCall
    [Lit "step "; Quo name; Lit ": call is not allowed inside a uses running with runsIn.image (a called job cannot see the scope's isolated filesystem)"].

Definition is_some {A} (o : option A) : bool := match o with Some _ => true | None => false end.

(** The scope of the invocation: its identity, image and limits, when it has
    one ([runsIn.image]); otherwise the container its steps inherit. *)
Record scope := MkScope { sc_ID : string; sc_Image : string; sc_Limits : option ResourceList }.

Section rename.
Variables (usesName : string) (innerNames : gset string) (outerIf : string)
          (scoped : option scope) (outerContainer : string).

Definition rewrite (s : string) : string := rewriteRefs s usesName innerNames.
Definition rewrite_map (m : gmap string string) : gmap string string := rewriteMap m usesName innerNames.

Definition rewrite_cache (c : CacheStep) : CacheStep :=
  MkCacheStep (rewrite (ca_Path c)) (rewrite (ca_Key c)) (rewrite <$> ca_RestoreKeys c) (ca_TTLDays c).
Definition rewrite_upload (u : UploadArtifactStep) : UploadArtifactStep :=
  MkUpload (rewrite (up_Name u)) (rewrite (up_Path u)).
Definition rewrite_download (u : DownloadArtifactStep) : DownloadArtifactStep :=
  MkDownload (rewrite (dl_Name u)) (rewrite (dl_DestDir u)) (dl_RunID u).
Definition rewrite_post (p : PostStep) : PostStep :=
  MkPostStep (rewrite (po_Run p)) (rewrite_map (po_Env p)) (po_Shell p).

(** The copied and rewritten step. *)
Definition renamed (st : Step) : Step :=
  MkStep (prefixedName usesName (s_Name st)) (combineIf outerIf (rewrite (s_If st))) (rewrite_map (s_Env st))
    (rewrite (s_Run st)) (rewrite_map (s_Outputs st)) (s_Call st) (s_Uses st)
    (rewrite_cache <$> s_Cache st) (rewrite_upload <$> s_Upload st) (rewrite_download <$> s_Download st)
    (s_Approval st) (rewrite_post <$> s_Post st) (s_ContinueOnError st)
    (match scoped with
     | Some _ => s_Container st
     | None => if (s_Container st =? "")%string then outerContainer else s_Container st
     end)
    (s_RunsIn st)
    (match scoped with Some sc => sc_ID sc | None => s_ScopeID st end)
    (match scoped with Some sc => sc_Image sc | None => s_ScopeImage st end)
    (match scoped with Some sc => sc_Limits sc | None => s_ScopeResourceLimits st end)
    (s_TimeoutMinutes st)
    (s_Retry st) (s_Foreach st) (s_Matrix st) (s_Shell st).

(** The checks of the two branches of [renameInnerEntry], which make them in a
    different order, and the result. *)
Definition no_runsIn (st : Step) : res unit :=
  fail_if (is_some (s_RunsIn st))
    [Lit "template step "; Quo (s_Name st); Lit ": step-level runsIn: is no longer supported — use container: (see 2026-07-08 job isolation)"].
Definition no_uses (what : string) (st : Step) : res unit :=
  fail_if (is_some (s_Uses st))
    [Lit "internal error: "; Lit what; Lit " "; Quo (s_Name st); Lit " has unresolved nested uses; must be resolved before expandUsesStep"].
Definition scope_allowed (st : Step) : res unit :=
  match scoped with
  | Some _ => checkScopeStepAllowed (s_Name st) (s_Container st) (is_some (s_Approval st)) (is_some (s_Call st))
  | None => Ok tt
  end.

Definition rename_concrete (st : Step) : res Step :=
  _ ← no_runsIn st; _ ← scope_allowed st; _ ← no_uses "step" st; Ok (renamed st).
Definition rename_child (st : Step) : res Step :=
  _ ← no_uses "parallel step" st; _ ← no_runsIn st; _ ← scope_allowed st; Ok (renamed st).

Definition renameInnerEntry (inner : StepEntry) : res StepEntry :=
  match e_Parallel inner with
  | [] => st ← rename_concrete (e_Step inner); Ok (MkStepEntry st [])
  | children => rp ← map_res rename_child children; Ok (MkStepEntry Step_zero rp)
  end.
End rename.

Definition empty_argv (a : option (list string)) : bool :=
  match a with Some (_ :: _) => false | _ => true end.

Definition stamp_step (shell : option (list string)) (st : Step) : Step :=
  if empty_argv (s_Shell st) then
    MkStep (s_Name st) (s_If st) (s_Env st) (s_Run st) (s_Outputs st) (s_Call st) (s_Uses st) (s_Cache st) (s_Upload st)
      (s_Download st) (s_Approval st) (s_Post st) (s_ContinueOnError st) (s_Container st) (s_RunsIn st) (s_ScopeID st)
      (s_ScopeImage st) (s_ScopeResourceLimits st) (s_TimeoutMinutes st) (s_Retry st) (s_Foreach st) (s_Matrix st) shell
  else st.

Definition stampShell (shell : option (list string)) (entries : list StepEntry) : list StepEntry :=
  if empty_argv shell then entries
  else (λ e, match e_Parallel e with
             | [] => MkStepEntry (stamp_step shell (e_Step e)) []
             | children => MkStepEntry (e_Step e) (stamp_step shell <$> children)
             end) <$> entries.

(** ** The expansion of one uses step *)

Record podContribution := MkContribution {
  pc_containers : list vmap; pc_volumes : list vmap; pc_finally : list StepEntry
}.
Definition no_contribution : podContribution := MkContribution [] [] [].

(** The named definitions a template contributes; a reserved name is an error. *)
Definition contribute (what : string) (reserved : string → bool) (defs : list vmap) : res (list vmap) :=
  fold_res (λ acc def,
    let name := DefName def in
    if (name =? "")%string then Ok acc
    else
      _ ← fail_if (reserved name)
            [Lit "template defines reserved "; Lit what; Lit " name "; Quo name; Lit ", which cannot be injected into the caller"];
      Ok (acc ++ [def])) [] defs.

(** Every non-empty name of the entries, children included. *)
Definition entry_names (entries : list StepEntry) : list string :=
  filter (λ n, n ≠ "") (entries ≫= λ e, s_Name (e_Step e) :: (s_Name <$> e_Parallel e)).

(** The template with other steps and finally steps. *)
Definition with_steps (steps finally : list StepEntry) (s : Spec) : Spec :=
  MkSpec (sp_Params s) (sp_Concurrency s) (sp_AgentSelector s) steps finally (sp_PodTemplate s)
    (sp_Native s) (sp_CleanWorkspace s) (sp_Detached s) (sp_Shell s) (sp_Volumes s) (sp_DisplayName s) (sp_Vars s).

Section expand.
(** [fmt.Sprint] of a decoded value, the text of [strconv]'s syntax error and
    [text/template]'s parser. *)
Variables (sprint : val → string) (syntax_error : text) (parse_template : string → res (list node)).

(** *** [ResolveSecretNameParamsInSpec] *)

Definition resolve_secret_step (params : gmap string string) (st : Step) : res Step :=
  run ← wrap [Lit "step "; Quo (s_Name st); Lit " run: "]
          (ResolveSecretNameParams syntax_error parse_template (s_Run st) params);
  env ← map_res (λ kv, v ← wrap [Lit "step "; Quo (s_Name st); Lit " env "; Quo kv.1; Lit ": "]
                         (ResolveSecretNameParams syntax_error parse_template kv.2 params);
                       Ok (kv.1, v)) (map_to_list (s_Env st));
  Ok (MkStep (s_Name st) (s_If st) (list_to_map env) run (s_Outputs st) (s_Call st) (s_Uses st) (s_Cache st)
        (s_Upload st) (s_Download st) (s_Approval st) (s_Post st) (s_ContinueOnError st) (s_Container st) (s_RunsIn st)
        (s_ScopeID st) (s_ScopeImage st) (s_ScopeResourceLimits st) (s_TimeoutMinutes st) (s_Retry st) (s_Foreach st) (s_Matrix st) (s_Shell st)).

Definition resolve_secret_entry (params : gmap string string) (e : StepEntry) : res StepEntry :=
  match e_Parallel e with
  | [] => st ← resolve_secret_step params (e_Step e); Ok (MkStepEntry st [])
  | children => rp ← map_res (resolve_secret_step params) children; Ok (MkStepEntry (e_Step e) rp)
  end.

Definition ResolveSecretNameParamsInSpec (spec : Spec) (params : gmap string string) : res Spec :=
  steps ← map_res (resolve_secret_entry params) (sp_Steps spec);
  finally ← map_res (resolve_secret_entry params) (sp_Finally spec);
  Ok (with_steps steps finally spec).

(** *** The inputs *)

(** The required inputs the caller leaves unset; an empty string is unset. *)
Definition missing_inputs (with_ : gmap string string) (inputs : list Input) : list string :=
  in_Name <$> filter (λ i, in_Required i = true ∧ is_null (in_Default i) = true ∧ default "" (with_ !! in_Name i) = "") inputs.

(** The declared defaults, overridden by the caller's values; an empty one
    falls back to the default when there is one. *)
Definition inputs_outputs (with_ : gmap string string) (p : Params) : gmap string string :=
  let defaults : gmap string string := list_to_map (reverse (InputDefaultsAsStrings sprint p)) in
  filter (λ kv, ¬ (kv.2 = "" ∧ is_Some (defaults !! kv.1))) with_ ∪ defaults.

(** *** The outputs *)

#[local] Instance entry_parallel_dec (e : StepEntry) : Decision (e_Parallel e = []).
Proof. destruct (e_Parallel e); [left|right]; done. Defined.

(** The last concrete step of the template that captures the output. *)
Definition source_step (name : string) (entries : list StepEntry) : string :=
  fold_left (λ acc e, if bool_decide (e_Parallel e = []) && is_some (s_Outputs (e_Step e) !! name)
                      then s_Name (e_Step e) else acc) entries "".

Definition outputs_map (usesName : string) (outputs : list Output) (entries : list StepEntry) : gmap string string :=
  list_to_map (reverse (omap (λ decl,
    let src := source_step (ou_Name decl) entries in
    if (src =? "")%string then None
    else Some (ou_Name decl, "{{ .Steps." +:+ prefixedName usesName src +:+ ".Outputs." +:+ ou_Name decl +:+ " }}"))
    outputs)).

(** A step that only captures outputs. *)
Definition capture_step (name if_ : string) (outputs : gmap string string) : StepEntry :=
  MkStepEntry (MkStep name if_ ∅ "true" outputs None None None None None None None false "" None "" "" None (whole_minutes 0) None None None None) [].

(** *** [expandUsesStep] *)

Definition scope_of (usesName : string) (outerRunsIn : option RunsIn) : option scope :=
  match outerRunsIn with
  | Some ri =>
      if (ri_Image ri =? "")%string then None
      else Some (MkScope (scopeIDFor usesName) (ri_Image ri) (ri_Resources ri ≫= rs_Limits))
  | None => None
  end.

Definition expandUsesStep (usesName : string) (with_ : gmap string string) (tplSpec : Spec)
    (outerRunsIn : option RunsIn) (outerContainer outerIf : string) : res (list StepEntry * podContribution) :=
  _ ← fail_if (bool_decide (length (sp_Steps tplSpec) = 0)) [Lit "template job has no steps"];
  let scoped := scope_of usesName outerRunsIn in
  _ ← fail_if (is_some scoped && is_some (sp_PodTemplate tplSpec))
        [Lit "template declares a podTemplate, but this uses: step has runsIn.image (scope mode): the template runs in its own scope pod, so its podTemplate cannot be honored"];
  _ ← fail_if (is_some scoped && negb (bool_decide (length (sp_Finally tplSpec) = 0)))
        [Lit "template declares finally:, but this uses: step has runsIn.image (scope mode): the scope pod's lifetime ends with the template body, so its finally cannot be honored"];
  containers ← (if is_some scoped then Ok []
                else contribute "container" IsReservedContainerName (PodTemplateContainers (sp_PodTemplate tplSpec)));
  volumes ← (if is_some scoped then Ok []
             else contribute "volume" IsReservedVolumeName (PodTemplateVolumes (sp_PodTemplate tplSpec)));
  let innerNames : gset string := list_to_set (entry_names (sp_Steps tplSpec) ++ entry_names (sp_Finally tplSpec)) in
  _ ← (match missing_inputs with_ (pa_Inputs (sp_Params tplSpec)) with
       | [] => Ok tt
       | [m] => Err [Lit "uses "; Quo usesName; Lit ": missing required input: "; Lit m]
       | ms => Err [Lit "uses "; Quo usesName; Lit ": missing required inputs: ["; Lit (Join " " ms); Lit "]"]
       end);
  let inputsOutputs := inputs_outputs with_ (sp_Params tplSpec) in
  tpl ← wrap [Lit "uses "; Quo usesName; Lit ": resolve secret name parameters: "]
          (ResolveSecretNameParamsInSpec tplSpec inputsOutputs);
  let rename := renameInnerEntry usesName innerNames outerIf scoped outerContainer in
  steps ← map_res rename (sp_Steps tpl);
  finally ← map_res rename (sp_Finally tpl);
  Ok (capture_step (inputsStepName usesName) outerIf inputsOutputs
        :: stampShell (sp_Shell tpl) steps
        ++ [capture_step usesName outerIf (outputs_map usesName (pa_Outputs (sp_Params tpl)) (sp_Steps tpl))],
      MkContribution containers volumes (stampShell (sp_Shell tpl) finally)).

(** [ExpandUsesStep], the exported form. *)
Definition ExpandUsesStep (usesName : string) (with_ : gmap string string) (tplSpec : Spec)
    (outerRunsIn : option RunsIn) (outerContainer outerIf : string) : res (list StepEntry) :=
  fst <$> expandUsesStep usesName with_ tplSpec outerRunsIn outerContainer outerIf.
End expand.
