(* ===== verification/GitResolve.v ===== *)
(** * internal/gittemplate: resolving git templates

    [uri.go], [resolve.go] and [dsl/jobtemplate.go]: every [uses:] step that
    names a [git://] template is replaced, recursively, by that template's
    steps.  Fetching a template (git and its credentials, behind a cache in an
    object store) and decoding YAML are parameters.

    An error is permanent (a [resolveError]: the run is failed) or transient
    (the run stays Pending and is retried). *)

From S2P Require Import Prelude GoStrings Regex DslNames DslTypes DslCondition DslValidate SecretRefs GitInline.
From stdpp Require Import options.

Inductive outcome (A : Type) :=
| Done (a : A)
| Fails (permanent : bool) (e : text).
Arguments Done {A} a.
Arguments Fails {A} permanent e.

#[export] Instance outcome_ret : MRet outcome := @Done.
#[export] Instance outcome_bind : MBind outcome := λ A B f m,
  match m with Done a => f a | Fails p e => Fails p e end.

(** [newResolveError] or [wrapResolveError] of a failed step, with its prefix. *)
Definition permanently {A} (pre : text) (r : res A) : outcome A :=
  match r with Ok a => Done a | Err e => Fails true (pre ++ e) end.
Definition transiently {A} (pre : text) (r : res A) : outcome A :=
  match r with Ok a => Done a | Err e => Fails false (pre ++ e) end.

Lemma outcome_bind_done {A B} (r : outcome A) (f : A → outcome B) b :
  r ≫= f = Done b ↔ ∃ a, r = Done a ∧ f a = Done b.
Proof. destruct r; simpl; naive_solver. Qed.

Lemma permanently_done {A} pre (r : res A) a : permanently pre r = Done a ↔ r = Ok a.
Proof. destruct r; simpl; naive_solver. Qed.
Lemma transiently_done {A} pre (r : res A) a : transiently pre r = Done a ↔ r = Ok a.
Proof. destruct r; simpl; naive_solver. Qed.

(** ** Template URIs *)

Record URI := MkURI { u_Host : string; u_Owner : string; u_Repo : string; u_Path : string; u_Ref : string; u_Raw : string }.

(** [hostAllowed] *)
Definition hostRe : regex :=
  RSeq (RCls is_alnum) (RStar (RCls (λ c, is_alnum c || is_char "." c || is_char "_" c || is_char "-" c))).

(** [strings.SplitN(s, "/", 4)] with four parts. *)
Definition split4 (s : string) : option (string * string * string * string) :=
  match Split "/" s with
  | a :: b :: c :: ((_ :: _) as rest) => Some (a, b, c, Join "/" rest)
  | _ => None
  end.

Definition empty (s : string) : bool := (s =? "")%string.

Definition ParseURI (raw : string) : res URI :=
  _ ← fail_if (negb (HasPrefix raw "git://")) [Lit "git URI must start with git://, got "; Quo raw];
  match split_last "@" (TrimPrefix raw "git://") with
  | None => Err [Lit "git URI must contain @ref, got "; Quo raw]
  | Some (hostAndPath, ref) =>
      _ ← fail_if (empty ref) [Lit "git URI has empty ref in "; Quo raw];
      _ ← wrap [Lit "git URI ref "; Quo ref; Lit " contains invalid characters: "] (ValidateGitRef ref);
      match split4 hostAndPath with
      | None => Err [Lit "git URI must be git://host/owner/repo/path@ref, got "; Quo raw]
      | Some (host, owner, repo, path) =>
          _ ← fail_if (empty host || empty owner || empty repo || empty path)
                [Lit "git URI has empty component in "; Quo raw];
          _ ← fail_if (negb (re_match hostRe host))
                [Lit "git URI host "; Quo host; Lit " is invalid (must start alphanumeric)"];
          _ ← fail_if (Contains path "..") [Lit "git URI path must not contain .., got "; Quo raw];
          Ok (MkURI host owner repo path ref raw)
      end
  end.

Fixpoint all_bytes (p : ascii → bool) (s : string) : bool :=
  match s with "" => true | String c s' => p c && all_bytes p s' end.
Definition isHexString (s : string) : bool :=
  all_bytes (λ c, is_digit c || byte_in 97 102 c || byte_in 65 70 c) s.

Definition IsFixed (u : URI) : bool :=
  let r := u_Ref u in
  bool_decide (String.length r = 40) && isHexString r
  || match r with String v (String d _) => is_char "v" v && is_digit d | _ => false end.

(** ** Templates *)

Record JobTemplate := MkJobTemplate {
  jt_APIVersion : string;
  jt_Kind : string;
  jt_Metadata : Metadata;
  jt_Params : Params;
  jt_Shell : option (list string);
  jt_PodTemplate : option (list vmap * list vmap); (* containers, volumes *)
  jt_Steps : list StepEntry;
  jt_Finally : list StepEntry
}.

Definition list_field (key : string) (defs : list vmap) : vmap :=
  match defs with [] => [] | _ => [(key, VList (VMap <$> defs))] end.

Definition ToSpec (t : JobTemplate) : Spec :=
  MkSpec (jt_Params t) None [] (jt_Steps t) (jt_Finally t)
    ((λ cv, MkPodTemplate "" false false None None (list_field "containers" cv.1 ++ list_field "volumes" cv.2))
       <$> jt_PodTemplate t)
    false false false (jt_Shell t) [] "" ∅.

Section templates.
(** CEL compilation, quantity and duration parsing (see [DslValidate]); YAML
    decoding: the kind alone, the untyped document, the strict template. *)
Variables (CompileExpr : string → cel_issue + cel_ast) (ParseQuantity ParseDuration : string → option text)
          (yaml_kind : string → res string) (yaml_any : string → option vmap) (yaml_template : string → res JobTemplate).

Definition valid_input (i : nat) (p : Input) : res unit :=
  _ ← fail_if (empty (in_Name p)) (at_ [Lit "spec.params.inputs"] i ++ [Lit ".name is required"]);
  fail_if (negb (bool_decide (in_Type p ∈ ["string"; "bool"; "int"; "array"])))
    (at_ [Lit "spec.params.inputs"] i ++ [Lit ".type "; Quo (in_Type p); Lit " is invalid (want string|bool|int|array)"]).
Definition valid_output (i : nat) (o : Output) : res unit :=
  _ ← fail_if (empty (ou_Name o)) (at_ [Lit "spec.params.outputs"] i ++ [Lit ".name is required"]);
  fail_if (empty (ou_Type o)) (at_ [Lit "spec.params.outputs"] i ++ [Lit ".type is required"]).

Definition JobTemplate_Validate (t : JobTemplate) : res unit :=
  _ ← fail_if (negb (jt_APIVersion t =? SupportedAPIVersion)%string)
        [Lit "unsupported apiVersion "; Quo (jt_APIVersion t); Lit " (want "; Quo SupportedAPIVersion; Lit ")"];
  _ ← fail_if (negb (jt_Kind t =? "JobTemplate")%string)
        [Lit "unsupported kind "; Quo (jt_Kind t); Lit " (want "; Quo "JobTemplate"; Lit ")"];
  _ ← fail_if (empty (me_Name (jt_Metadata t))) [Lit "metadata.name is required"];
  _ ← wrap [Lit "metadata.name "] (ValidateName (me_Name (jt_Metadata t)));
  _ ← fail_if (bool_decide (length (jt_Steps t) = 0)) [Lit "spec.steps must contain at least one step"];
  _ ← wrap [Lit "spec.shell: "] (validShellArgv (jt_Shell t));
  nameSet ← validateStepEntries CompileExpr ParseQuantity ParseDuration (jt_Steps t) "spec.steps" ∅ true false;
  _ ← validateStepEntries CompileExpr ParseQuantity ParseDuration (jt_Finally t) "spec.finally" nameSet false false;
  _ ← (match jt_PodTemplate t with
       | Some (containers, volumes) =>
           _ ← check_labels_of "container" containers; check_labels_of "volume" volumes
       | None => Ok tt
       end);
  _ ← validateStepTargetedWorkingDir (ToSpec t);
  _ ← each valid_input (pa_Inputs (jt_Params t));
  each valid_output (pa_Outputs (jt_Params t)).

Definition ParseJobTemplate (data : string) : res JobTemplate :=
  kind ← yaml_kind data;
  _ ← fail_if (kind =? "Job")%string
        [Lit "uses: targets must be kind: JobTemplate (got kind: Job); convert the template, or invoke the job with call:"];
  _ ← checkForbiddenJobFields (yaml_any data);
  tpl ← yaml_template data;
  _ ← JobTemplate_Validate tpl;
  Ok tpl.

(** ** Resolution *)

Definition maxUsesDepth : nat := 10.

Variables (sprint : val → string) (syntax_error : text) (parse_template : string → res (list node)).
(** The template at a URI: the credential's lookup, or the fetch, fails or gives
    the document. *)
Variables (credential : string → res string) (fetch : URI → string → res string).

Definition cat (a b : podContribution) : podContribution :=
  MkContribution (pc_containers a ++ pc_containers b) (pc_volumes a ++ pc_volumes b) (pc_finally a ++ pc_finally b).
Definition no_finally (c : podContribution) : podContribution := MkContribution (pc_containers c) (pc_volumes c) [].

(** The collision check of one expansion; the step that bears the uses step's
    own name is the output capture. *)
Definition check_expanded (usesName : string) (seen : gset string) (expanded : list StepEntry) : res (gset string) :=
  fold_res (λ seen e,
    let name := s_Name (e_Step e) in
    if (name =? usesName)%string then Ok seen
    else
      _ ← fail_if (bool_decide (name ∈ seen))
            [Lit "step "; Quo usesName; Lit ": expanded step name "; Quo name; Lit " collides with an existing step"];
      Ok ({[name]} ∪ seen)) seen expanded.

Record resolving := MkResolving { rs_seen : gset string; rs_out : list StepEntry; rs_contrib : podContribution }.

(** One level of [resolveSteps]; [resolve] is the level below, with its path. *)
Section level.
Variable resolve : list string → list StepEntry → outcome (list StepEntry * podContribution).

Definition scope_mode (st : Step) : bool := is_some (scope_of (s_Name st) (s_RunsIn st)).

Definition resolve_uses (path : list string) (seen : gset string) (st : Step) (uses : UsesStep)
  : outcome (gset string * list StepEntry * podContribution) :=
  let rawURI := us_Job uses in
  let at_step := [Lit "step "; Quo (s_Name st); Lit ": "] in
  _ ← permanently [] (fail_if (bool_decide (rawURI ∈ path)) [Lit "circular uses reference: "; Quo rawURI]);
  uri ← permanently (at_step ++ [Lit "parse git URI: "]) (ParseURI rawURI);
  cred ← transiently (at_step ++ [Lit "get credential for "; Quo (u_Host uri); Lit ": "]) (credential (u_Host uri));
  rawYAML ← transiently (at_step ++ [Lit "fetch "; Quo rawURI; Lit ": "]) (fetch uri cred);
  tpl ← permanently (at_step ++ [Lit "fetched template "; Quo rawURI; Lit ": "]) (ParseJobTemplate rawYAML);
  let tplSpec := ToSpec tpl in
  let nestedPath := path ++ [rawURI] in
  '(nestedSteps, nested) ← resolve nestedPath (sp_Steps tplSpec);
  '(nestedFinally, nestedFin) ←
    (if negb (scope_mode st) && negb (bool_decide (length (sp_Finally tplSpec) = 0))
     then resolve nestedPath (sp_Finally tplSpec) else Done (sp_Finally tplSpec, no_contribution));
  let tplSpec := with_steps nestedSteps (nestedFinally ++ pc_finally nested ++ pc_finally nestedFin) tplSpec in
  _ ← permanently [] (fail_if (scope_mode st && negb (bool_decide (length (pc_containers nested ++ pc_volumes nested) = 0)))
        (at_step ++ [Lit "a template used with runsIn.image (scope mode) cannot contribute pod containers/volumes to the caller (nested uses template declares a podTemplate)"]));
  '(expanded, contrib) ← permanently (at_step ++ [Lit "expand uses: "])
        (expandUsesStep sprint syntax_error parse_template (s_Name st)
           (list_to_map (withAsStrings sprint (us_With uses))) tplSpec (s_RunsIn st) (s_Container st) (s_If st));
  seen ← permanently [] (check_expanded (s_Name st) seen expanded);
  Done (seen, expanded, cat (cat (no_finally nested) (no_finally nestedFin)) contrib).

Definition resolve_entry (path : list string) (rs : resolving) (e : StepEntry) : outcome resolving :=
  match s_Uses (e_Step e) with
  | None => Done (MkResolving (rs_seen rs) (rs_out rs ++ [e]) (rs_contrib rs))
  | Some uses =>
      '(seen, expanded, contrib) ← resolve_uses path (rs_seen rs) (e_Step e) uses;
      Done (MkResolving seen (rs_out rs ++ expanded) (cat (rs_contrib rs) contrib))
  end.

Fixpoint resolve_entries (path : list string) (rs : resolving) (l : list StepEntry) : outcome resolving :=
  match l with
  | [] => Done rs
  | e :: l => rs ← resolve_entry path rs e; resolve_entries path rs l
  end.
End level.

(** [resolveSteps] with [levels] levels left: a call at depth
    [maxUsesDepth + 1] has none. *)
Fixpoint resolveSteps (levels : nat) (path : list string) (steps : list StepEntry)
  : outcome (list StepEntry * podContribution) :=
  match levels with
  | O => Fails true [Lit "uses nesting exceeds max depth "; Lit (pretty maxUsesDepth)]
  | S levels =>
      rs ← resolve_entries (resolveSteps levels) path
             (MkResolving (list_to_set (entry_names steps)) [] no_contribution) steps;
      Done (rs_out rs, rs_contrib rs)
  end.

(** *** Merging into the caller *)

(** [jsonEqual] on decoded values: their JSON texts agree. *)
Variable json : val → option string.

(** One definition of [mergeDefs], with the definitions so far. *)
Definition merge_def (what : string) (st : list val * gmap string vmap) (def : vmap)
  : outcome (list val * gmap string vmap) :=
  let name := DefName def in
  if empty name then Done st
  else
    match st.2 !! name with
    | None => Done (st.1 ++ [VMap def], <[name := def]> st.2)
    | Some prev =>
        match json (VMap prev), json (VMap def) with
        | Some a, Some b =>
            if (a =? b)%string then Done st
            else Fails true [Lit what; Lit " "; Quo name; Lit " is defined differently by the caller (or another uses template) and a uses template; rename one or align their definitions"]
        | _, _ => Fails true [Lit "compare "; Lit what; Lit " "; Quo name; Lit ": "]
        end
    end.

Fixpoint merge_each (what : string) (st : list val * gmap string vmap) (defs : list vmap)
  : outcome (list val * gmap string vmap) :=
  match defs with
  | [] => Done st
  | d :: defs => st ← merge_def what st d; merge_each what st defs
  end.

Definition vset (m : vmap) (key : string) (v : val) : vmap :=
  filter (λ kv, kv.1 ≠ key) m ++ [(key, v)].

Definition existing_defs (rawList : list val) : gmap string vmap :=
  list_to_map (reverse (omap (λ v, d ← as_map v; if empty (DefName d) then None else Some (DefName d, d)) rawList)).

Definition mergeDefs (key what : string) (defs : list vmap) (ptspec : vmap) : outcome vmap :=
  match defs with
  | [] => Done ptspec
  | _ =>
      let rawList := as_list (vat ptspec key) in
      st ← merge_each what (rawList, existing_defs rawList) defs;
      Done (vset ptspec key (VList st.1))
  end.

Definition with_pod (pt : option PodTemplate) (s : Spec) : Spec :=
  MkSpec (sp_Params s) (sp_Concurrency s) (sp_AgentSelector s) (sp_Steps s) (sp_Finally s) pt
    (sp_Native s) (sp_CleanWorkspace s) (sp_Detached s) (sp_Shell s) (sp_Volumes s) (sp_DisplayName s) (sp_Vars s).

Definition mergeContribution (spec : Spec) (c : podContribution) : outcome Spec :=
  if bool_decide (length (pc_containers c ++ pc_volumes c) = 0) then Done spec
  else
    let pt := default (MkPodTemplate "" false false None None []) (sp_PodTemplate spec) in
    m ← mergeDefs "containers" "container" (pc_containers c) (pt_Spec pt);
    m ← mergeDefs "volumes" "volume" (pc_volumes c) m;
    Done (with_pod (Some (MkPodTemplate (pt_Name pt) (pt_Reuse pt) (pt_CleanWorkspace pt) (pt_Workspace pt)
                            (pt_Override pt) m)) spec).

(** [checkGlobalNameCollisions] *)
Definition checkGlobalNameCollisions (steps finally : list StepEntry) : res unit :=
  _ ← fold_res (λ seen name,
        _ ← fail_if (bool_decide (name ∈ seen))
              [Lit "step name "; Quo name; Lit " appears in both the main steps and finally after uses expansion; rename one"];
        Ok ({[name]} ∪ seen)) (∅ : gset string) (entry_names steps ++ entry_names finally);
  Ok tt.

Definition git_entry (e : StepEntry) : bool :=
  match s_Uses (e_Step e) with Some u => HasPrefix (us_Job u) "git://" | None => false end.

(** [HasGitURIs], on the parsed specification. *)
Definition HasGitURIs (spec : Spec) : bool :=
  existsb git_entry (sp_Steps spec) || existsb git_entry (sp_Finally spec).

Definition ResolveSpec (spec : Spec) : outcome Spec :=
  if negb (HasGitURIs spec) then Done spec
  else
    '(steps, contrib) ← resolveSteps (S maxUsesDepth) [] (sp_Steps spec);
    '(finally, contrib) ←
      (match sp_Finally spec with
       | [] => Done ([], contrib)
       | l => '(finally, fcontrib) ← resolveSteps (S maxUsesDepth) [] l; Done (finally, cat contrib fcontrib)
       end);
    spec ← mergeContribution (with_steps steps finally spec) contrib;
    let spec := with_steps (sp_Steps spec) (sp_Finally spec ++ pc_finally contrib) spec in
    _ ← permanently [] (checkGlobalNameCollisions (sp_Steps spec) (sp_Finally spec));
    Done spec.
End templates.
