(* ===== verification/GitFacts.v ===== *)
(** * internal/gittemplate: facts on resolution

    What a resolved specification looks like, what an inlined template keeps of
    the step that used it, and what merging does to the caller's podTemplate. *)

From S2P Require Import Prelude GoStrings Regex DslNames DslTypes DslCondition DslValidate SecretRefs GitInline GitResolve.
From stdpp Require Import options.

(** The steps an entry runs. *)
Definition entry_concrete (e : StepEntry) : list Step :=
  match e_Parallel e with [] => [e_Step e] | children => children end.

(** ** One expansion *)

Section rename.
Variables (usesName : string) (innerNames : gset string) (outerIf : string)
          (scoped : option scope) (outerContainer : string).

(** What the uses step imposes on an inlined step. *)
Record inlined (st : Step) : Prop := {
  il_uses : s_Uses st = None;
  il_runsIn : s_RunsIn st = None;
  il_if : ∃ inner, s_If st = combineIf outerIf inner;
  il_name : ∃ inner, s_Name st = prefixedName usesName inner;
  il_scope : match scoped with
             | Some sc => s_ScopeID st = sc_ID sc ∧ s_ScopeImage st = sc_Image sc ∧ s_Container st = ""
                          ∧ s_Approval st = None ∧ s_Call st = None
             | None => s_Container st = "" → outerContainer = ""
             end
}.

Lemma is_some_false {A} (o : option A) : is_some o = false ↔ o = None.
Proof. by destruct o. Qed.

Lemma checks_inlined st :
  no_runsIn st = Ok tt → scope_allowed scoped st = Ok tt → (∃ what, no_uses what st = Ok tt) →
  inlined (renamed usesName innerNames outerIf scoped outerContainer st).
Proof using Type.
  intros H1%fail_if_ok%is_some_false H2 [what H3%fail_if_ok%is_some_false]. split; simpl; [done|done|eauto|eauto|].
  unfold scope_allowed, checkScopeStepAllowed in H2. destruct scoped as [sc|].
  - apply then_ok in H2 as [Ha%fail_if_ok%negb_false_iff%String.eqb_eq [Hb%fail_if_ok Hc%fail_if_ok]%then_ok].
    apply is_some_false in Hb, Hc. auto.
  - destruct (String.eqb_spec (s_Container st) ""); [done|]. intros ?. done.
Qed.

Lemma rename_entry_inlined inner e :
  renameInnerEntry usesName innerNames outerIf scoped outerContainer inner = Ok e →
  s_Uses (e_Step e) = None ∧ Forall inlined (entry_concrete e)
  ∧ length (e_Parallel e) = length (e_Parallel inner).
Proof using Type.
  unfold renameInnerEntry. destruct (e_Parallel inner) as [|c cs] eqn:E.
  - intros (st & Hst & [= <-])%bind_ok. unfold rename_concrete in Hst.
    apply then_ok in Hst as [H1 [H2 [H3 [= <-]]%then_ok]%then_ok].
    assert (inlined (renamed usesName innerNames outerIf scoped outerContainer (e_Step inner))) as Hi
      by (apply checks_inlined; eauto).
    split; [apply Hi|]. split; [by constructor|done].
  - intros (rp & Hrp%map_res_ok & [= <-])%bind_ok. split; [done|]. unfold entry_concrete. simpl.
    split; [|apply Forall2_length in Hrp; simpl in Hrp; congruence].
    destruct rp as [|x rp]; [by inversion Hrp|].
    eapply Forall2_Forall_r; [exact Hrp|]. apply Forall_true. intros a b Hb. unfold rename_child in Hb.
    apply then_ok in Hb as [H1 [H2 [H3 [= <-]]%then_ok]%then_ok]. apply checks_inlined; eauto.
Qed.
End rename.

Lemma stamp_inlined u o sc oc shell st : inlined u o sc oc st → inlined u o sc oc (stamp_step shell st).
Proof.
  intros [Hu Hr Hi Hn Hsc]. unfold stamp_step. destruct (empty_argv _); split; simpl; assumption.
Qed.

Lemma stamp_entry u o sc oc shell entries :
  Forall (λ e, s_Uses (e_Step e) = None ∧ Forall (inlined u o sc oc) (entry_concrete e)) entries →
  Forall (λ e, s_Uses (e_Step e) = None ∧ Forall (inlined u o sc oc) (entry_concrete e)) (stampShell shell entries).
Proof.
  intros H. unfold stampShell. destruct (empty_argv shell); [done|]. rewrite Forall_fmap.
  eapply Forall_impl; [exact H|]. intros e [Hu Hc]. unfold compose, entry_concrete in *.
  destruct (e_Parallel e) as [|c cs]; simpl in *.
  - apply (proj1 (Forall_singleton _ _)) in Hc. split; [unfold stamp_step; by destruct (empty_argv _)|].
    apply (proj2 (Forall_singleton _ _)). exact (stamp_inlined _ _ _ _ shell _ Hc).
  - split; [done|]. assert (Forall (inlined u o sc oc) (stamp_step shell <$> c :: cs)) as Hf; [|exact Hf].
    rewrite Forall_fmap. eapply Forall_impl; [exact Hc|]. intros st Hi. exact (stamp_inlined _ _ _ _ shell st Hi).
Qed.

Section expand.
Variables (sprint : val → string) (syntax_error : text) (parse_template : string → res (list node)).

(** A used template runs under its caller's terms.  Every step that a uses
    step expands to, in the main list or in the finally list, carries the uses
    step's condition in front of its own; bears the uses step's name, prefixed
    to its own unless it is the capture of the outputs; uses nothing further and
    pins no image of its own.  With [runsIn.image] it belongs to the one scope
    of that invocation and neither pins a container, waits for an approval nor
    calls a job; without, it runs in its own container or the uses step's.  A
    scoped template contributes nothing to the caller's pod. *)
Theorem expansion_inherits (usesName : string) (with_ : gmap string string) (tplSpec : Spec)
    (outerRunsIn : option RunsIn) (outerContainer outerIf : string) (entries : list StepEntry) (c : podContribution) :
  expandUsesStep sprint syntax_error parse_template usesName with_ tplSpec outerRunsIn outerContainer outerIf
    = Ok (entries, c) →
  let scoped := scope_of usesName outerRunsIn in
  let ok := inlined usesName outerIf scoped outerContainer in
  (∃ inputs body outputs,
     entries = capture_step (inputsStepName usesName) outerIf inputs :: body ++ [capture_step usesName outerIf outputs] ∧
     length body = length (sp_Steps tplSpec) ∧
     Forall (λ e, Forall ok (entry_concrete e)) (body ++ pc_finally c)) ∧
  (scoped ≠ None → pc_containers c = [] ∧ pc_volumes c = [] ∧ pc_finally c = []).
Proof.
  unfold expandUsesStep. intros H. apply then_ok in H as [_ H].
  apply then_ok in H as [_ H]. apply then_ok in H as [Hfin H]. apply bind_ok in H as (containers & Hco & H).
  apply bind_ok in H as (volumes & Hvo & H). apply then_ok in H as [_ H].
  apply bind_ok in H as (tpl & Htpl & H). apply bind_ok in H as (steps & Hst%map_res_ok & H).
  apply bind_ok in H as (finally & Hfi%map_res_ok & [= <- <-]). simpl.
  rewrite wrap_ok in Htpl. unfold ResolveSecretNameParamsInSpec in Htpl.
  apply bind_ok in Htpl as (s1 & Hs1%map_res_ok%Forall2_length & Htpl).
  apply bind_ok in Htpl as (f1 & Hf1%map_res_ok%Forall2_length & [= <-]). simpl in *.
  assert (∀ l l', Forall2 (λ x y, renameInnerEntry usesName
      (list_to_set (entry_names (sp_Steps tplSpec) ++ entry_names (sp_Finally tplSpec))) outerIf
      (scope_of usesName outerRunsIn) outerContainer x = Ok y) l l' →
      Forall (λ e, Forall (inlined usesName outerIf (scope_of usesName outerRunsIn) outerContainer) (entry_concrete e))
        (stampShell (sp_Shell tplSpec) l')) as Hall.
  { intros l l' HF. eapply Forall_impl; [apply stamp_entry; eapply Forall2_Forall_r; [exact HF|]|].
    - apply Forall_true. intros x y Hy. by destruct (rename_entry_inlined _ _ _ _ _ _ _ Hy) as (? & ? & _).
    - by intros e [_ ?]. }
  split.
  - eexists _, (stampShell (sp_Shell tplSpec) steps), _. split; [done|]. split.
    + rewrite Hs1, (Forall2_length _ _ _ Hst). unfold stampShell. destruct (empty_argv _); [done|]. by rewrite length_fmap.
    + apply Forall_app. split; by eapply Hall.
  - intros Hsc. destruct (scope_of usesName outerRunsIn) as [sc|]; [|done]. simpl in *.
    injection Hco as <-. injection Hvo as <-. split; [done|]. split; [done|].
    apply fail_if_ok, negb_false_iff, bool_decide_eq_true in Hfin. rewrite Hf1 in Hfin.
    apply Forall2_length in Hfi. rewrite Hfin in Hfi. destruct finally; [|done].
    unfold stampShell. by destruct (empty_argv _).
Qed.

Lemma expansion_no_uses usesName with_ tplSpec ri oc oi entries c :
  expandUsesStep sprint syntax_error parse_template usesName with_ tplSpec ri oc oi = Ok (entries, c) →
  Forall (λ e, s_Uses (e_Step e) = None) (entries ++ pc_finally c).
Proof.
  unfold expandUsesStep. intros H. apply then_ok in H as [_ H].
  apply then_ok in H as [_ H]. apply then_ok in H as [Hfin H]. apply bind_ok in H as (containers & Hco & H).
  apply bind_ok in H as (volumes & Hvo & H). apply then_ok in H as [_ H].
  apply bind_ok in H as (tpl & Htpl & H). apply bind_ok in H as (steps & Hst%map_res_ok & H).
  apply bind_ok in H as (finally & Hfi%map_res_ok & [= <- <-]). simpl.
  assert (∀ names l l', Forall2 (λ x y, renameInnerEntry usesName names oi (scope_of usesName ri) oc x = Ok y) l l' →
      Forall (λ e, s_Uses (e_Step e) = None) (stampShell (sp_Shell tpl) l')) as Hall.
  { intros names l l' HF. eapply Forall_impl; [apply stamp_entry; eapply Forall2_Forall_r; [exact HF|]|].
    - apply Forall_true. intros x y Hy. by destruct (rename_entry_inlined _ _ _ _ _ _ _ Hy) as (? & ? & _).
    - by intros e [? _]. }
  apply Forall_cons. split; [done|]. apply Forall_app. split; [|by eapply Hall].
  apply Forall_app. split; [by eapply Hall|]. by apply Forall_singleton.
Qed.
End expand.

(** ** Recursion *)

(** The collision check leaves no name twice. *)
Lemma unique_from names seen seen' :
  fold_res (λ seen name,
    _ ← fail_if (bool_decide (name ∈ seen))
          [Lit "step name "; Quo name; Lit " appears in both the main steps and finally after uses expansion; rename one"];
    Ok ({[name]} ∪ seen)) (seen : gset string) names = Ok seen' →
  NoDup names ∧ ∀ n, n ∈ names → n ∉ seen.
Proof.
  revert seen. induction names as [|n names IH]; intros seen; simpl.
  - intros _. split; [constructor|by intros ? ?%elem_of_nil].
  - intros (s1 & [Hn%fail_if_ok [= <-]]%then_ok & Hrest)%bind_ok. reflect. apply IH in Hrest as [Hnd Hno]. split.
    + constructor; [|done]. intros Hin. apply (Hno n Hin). set_solver.
    + intros m [->|Hm]%elem_of_cons; [done|]. specialize (Hno m Hm). set_solver.
Qed.

Lemma unique_names steps finally :
  checkGlobalNameCollisions steps finally = Ok tt → NoDup (entry_names steps ++ entry_names finally).
Proof. intros (s & H & _)%bind_ok. by apply unique_from in H as [? _]. Qed.

Section resolve.
Context (CE : string → cel_issue + cel_ast) (PQ PD : string → option text)
        (yk : string → res string) (ya : string → option vmap) (yt : string → res JobTemplate)
        (sprint : val → string) (syntax_error : text) (parse_template : string → res (list node))
        (credential : string → res string) (fetch : URI → string → res string) (json : val → option string).

Abbreviation resolve_steps := (resolveSteps CE PQ PD yk ya yt sprint syntax_error parse_template credential fetch).
Abbreviation resolve_spec := (ResolveSpec CE PQ PD yk ya yt sprint syntax_error parse_template credential fetch json).

Definition no_uses_left (entries : list StepEntry) : Prop := Forall (λ e, s_Uses (e_Step e) = None) entries.

(** A chain of uses: an entry of [steps] uses the first URI, whose template
    uses the second one, and so on. *)
Inductive uses_chain : list StepEntry → list string → Prop :=
| uc_nil steps : uses_chain steps []
| uc_cons steps e u uri cred raw tpl uris :
    e ∈ steps → s_Uses (e_Step e) = Some u → ParseURI (us_Job u) = Ok uri →
    credential (u_Host uri) = Ok cred → fetch uri cred = Ok raw →
    ParseJobTemplate CE PQ PD yk ya yt raw = Ok tpl →
    uses_chain (jt_Steps tpl) uris ∨ uses_chain (jt_Finally tpl) uris →
    uses_chain steps (us_Job u :: uris).

(** What a level that resolves guarantees for its path. *)
Definition bounded_by (levels : nat) (path : list string) (steps : list StepEntry) : Prop :=
  ∀ uris, uses_chain steps uris → (length uris < levels)%nat ∧ NoDup uris ∧ ∀ u, u ∈ uris → u ∉ path.

Lemma chain_cons_inv steps u uris :
  uses_chain steps (u :: uris) →
  ∃ e us uri cred raw tpl, e ∈ steps ∧ s_Uses (e_Step e) = Some us ∧ us_Job us = u ∧ ParseURI u = Ok uri ∧
    credential (u_Host uri) = Ok cred ∧ fetch uri cred = Ok raw ∧ ParseJobTemplate CE PQ PD yk ya yt raw = Ok tpl ∧
    (uses_chain (jt_Steps tpl) uris ∨ uses_chain (jt_Finally tpl) uris).
Proof using Type. inversion 1; subst; eauto 20. Qed.

(** One uses step: its template's lists were resolved one level down. *)
Lemma resolve_uses_done resolve path seen st uses seen' expanded contrib :
  resolve_uses CE PQ PD yk ya yt sprint syntax_error parse_template credential fetch resolve path seen st uses
    = Done (seen', expanded, contrib) →
  (us_Job uses ∉ path) ∧ no_uses_left (expanded ++ pc_finally contrib) ∧
  ∃ uri cred raw tpl, ParseURI (us_Job uses) = Ok uri ∧ credential (u_Host uri) = Ok cred ∧ fetch uri cred = Ok raw ∧
    ParseJobTemplate CE PQ PD yk ya yt raw = Ok tpl ∧
    (∃ x, resolve (path ++ [us_Job uses]) (jt_Steps tpl) = Done x) ∧
    (jt_Finally tpl = [] ∨ ∃ x, resolve (path ++ [us_Job uses]) (jt_Finally tpl) = Done x).
Proof using Type.
  unfold resolve_uses. intros H.
  apply outcome_bind_done in H as ([] & Hc%permanently_done%fail_if_ok & H). reflect.
  apply outcome_bind_done in H as (uri & Hu%permanently_done & H).
  apply outcome_bind_done in H as (cred & Hcr%transiently_done & H).
  apply outcome_bind_done in H as (raw & Hraw%transiently_done & H).
  apply outcome_bind_done in H as (tpl & Htpl%permanently_done & H).
  apply outcome_bind_done in H as ([ns nc] & Hn & H).
  apply outcome_bind_done in H as ([nf nfc] & Hf & H).
  apply outcome_bind_done in H as ([] & _ & H).
  apply outcome_bind_done in H as ([ex ec] & He%permanently_done & H).
  apply outcome_bind_done in H as (seen2 & _ & [= <- <- <-]).
  split; [done|]. split; [apply expansion_no_uses in He; exact He|].
  exists uri, cred, raw, tpl. split_and!; [done..|by eexists|].
  simpl in Hf, Hn. destruct (jt_Finally tpl) as [|f fs] eqn:Ef; [by left|right].
  destruct (scope_mode st) eqn:Es; simpl in Hf; [|by eexists].
  (* in scope mode the expansion refuses a template with finally steps *)
  exfalso. injection Hf as <- <-. unfold expandUsesStep in He.
  apply then_ok in He as [_ He]. apply then_ok in He as [_ He]. apply then_ok in He as [Hbad _].
  unfold scope_mode in Es. rewrite Es in Hbad. by apply fail_if_ok in Hbad.
Qed.

Lemma resolve_entries_done resolve path l rs rs' :
  resolve_entries CE PQ PD yk ya yt sprint syntax_error parse_template credential fetch resolve path rs l = Done rs' →
  no_uses_left (rs_out rs ++ pc_finally (rs_contrib rs)) →
  no_uses_left (rs_out rs' ++ pc_finally (rs_contrib rs')) ∧
  ∀ e u, e ∈ l → s_Uses (e_Step e) = Some u →
    (us_Job u ∉ path) ∧
    ∃ uri cred raw tpl, ParseURI (us_Job u) = Ok uri ∧ credential (u_Host uri) = Ok cred ∧ fetch uri cred = Ok raw ∧
      ParseJobTemplate CE PQ PD yk ya yt raw = Ok tpl ∧
      (∃ x, resolve (path ++ [us_Job u]) (jt_Steps tpl) = Done x) ∧
      (jt_Finally tpl = [] ∨ ∃ x, resolve (path ++ [us_Job u]) (jt_Finally tpl) = Done x).
Proof using Type.
  revert rs. induction l as [|e l IH]; intros rs; simpl.
  - intros [= <-] Hn. split; [done|]. by intros ?? ?%elem_of_nil.
  - intros (rs1 & He & Hl)%outcome_bind_done Hn. unfold resolve_entry in He.
    destruct (s_Uses (e_Step e)) as [u|] eqn:Eu.
    + apply outcome_bind_done in He as ([[seen ex] c] & Hu & [= <-]).
      apply resolve_uses_done in Hu as (Hp & Hno & Htpl). apply IH in Hl as [Hno' Hall].
      * split; [done|]. intros e' u' [->|He']%elem_of_cons Eu'; [|by eapply Hall]. rewrite Eu in Eu'. by simplify_eq.
      * simpl. unfold no_uses_left in *. rewrite !Forall_app in *. naive_solver.
    + injection He as <-. apply IH in Hl as [Hno' Hall].
      * split; [done|]. intros e' u' [->|He']%elem_of_cons Eu'; [congruence|by eapply Hall].
      * simpl. unfold no_uses_left in *. rewrite !Forall_app in *. rewrite Forall_singleton. naive_solver.
Qed.

Lemma resolveSteps_done levels path steps out c :
  resolve_steps levels path steps = Done (out, c) →
  no_uses_left (out ++ pc_finally c) ∧ bounded_by levels path steps.
Proof using Type.
  revert path steps out c. induction levels as [|levels IH]; intros path steps out c; simpl; [done|].
  intros (rs & Hrs & [= <- <-])%outcome_bind_done. apply resolve_entries_done in Hrs as [Hno Hall]; [|by constructor].
  split; [done|]. intros [|u uris] Hch; [simpl; split_and!; [lia|constructor|by intros ? ?%elem_of_nil]|].
  apply chain_cons_inv in Hch as (e & us & uri & cred & raw & tpl & He & Hus & <- & Hu & Hcr & Hraw & Htpl & Hnext).
  destruct (Hall e us He Hus) as (Hp & uri' & cred' & raw' & tpl' & Hu' & Hcr' & Hraw' & Htpl' & [[o1 c1] H1] & H2).
  rewrite Hu in Hu'. injection Hu' as <-. rewrite Hcr in Hcr'. injection Hcr' as <-.
  rewrite Hraw in Hraw'. injection Hraw' as <-. rewrite Htpl in Htpl'. injection Htpl' as <-.
  assert (length uris < levels ∧ NoDup uris ∧ ∀ u, u ∈ uris → u ∉ path ++ [us_Job us]) as (Hlen & Hnd & Hnot).
  { destruct Hnext as [Hn|Hn]; [exact (proj2 (IH _ _ _ _ H1) uris Hn)|].
    destruct H2 as [E|[[o2 c2] H2]]; [|exact (proj2 (IH _ _ _ _ H2) uris Hn)].
    rewrite E in Hn. destruct uris as [|u uris]; [exact (proj2 (IH _ _ _ _ H1) [] (uc_nil _))|].
    apply chain_cons_inv in Hn as (e' & ? & ? & ? & ? & ? & ?%elem_of_nil & _). done. }
  setoid_rewrite elem_of_app in Hnot. setoid_rewrite list_elem_of_singleton in Hnot.
  split; [simpl; lia|]. split; [constructor; [|done]; intros Hin; apply (Hnot _ Hin); auto|].
  intros u [->|Hin]%elem_of_cons; [done|]. intros Hpath. apply (Hnot _ Hin). auto.
Qed.

(** C9: resolution ends, acyclic and bounded.  It is a total function of its
    inputs, and when it succeeds the specification's chains of templates never
    repeat a URI and are at most [maxUsesDepth] long, nothing is left to resolve
    (no entry of the result uses a template), and every step name of the result
    is unique across the main and finally lists. *)
Theorem resolution_bounded (spec spec' : Spec) :
  HasGitURIs spec = true → resolve_spec spec = Done spec' →
  no_uses_left (sp_Steps spec' ++ sp_Finally spec') ∧ HasGitURIs spec' = false ∧
  NoDup (entry_names (sp_Steps spec') ++ entry_names (sp_Finally spec')) ∧
  ∀ uris, uses_chain (sp_Steps spec) uris ∨ uses_chain (sp_Finally spec) uris →
    NoDup uris ∧ (length uris ≤ maxUsesDepth)%nat.
Proof using Type.
  unfold ResolveSpec. intros -> H. simpl negb in H. cbv iota in H.
  apply outcome_bind_done in H as ([steps c] & Hsteps & H). apply resolveSteps_done in Hsteps as [Hno1 Hb1].
  apply outcome_bind_done in H as ([finally c2] & Hfin & H).
  apply outcome_bind_done in H as (spec2 & Hmerge & H). apply outcome_bind_done in H as ([] & Hnames%permanently_done & [= <-]). simpl.
  assert (no_uses_left (finally ++ pc_finally c2) ∧ bounded_by (S maxUsesDepth) [] (sp_Finally spec)) as [Hno2 Hb2].
  { destruct (sp_Finally spec) as [|f fs].
    - injection Hfin as <- <-. split; [unfold no_uses_left in *; rewrite Forall_app in *; naive_solver|].
      intros [|u uris] Hch; [simpl; split_and!; [lia|constructor|by intros ? ?%elem_of_nil]|].
      apply chain_cons_inv in Hch as (e & ? & ? & ? & ? & ? & ?%elem_of_nil & _). done.
    - apply outcome_bind_done in Hfin as ([fin fc] & Hf & [= <- <-]). apply resolveSteps_done in Hf as [Hnof Hbf].
      split; [|done]. unfold no_uses_left in *. simpl. rewrite !Forall_app in *. naive_solver. }
  apply unique_names in Hnames. simpl in Hnames.
  assert (sp_Steps spec2 = steps ∧ sp_Finally spec2 = finally) as [E1 E2].
  { unfold mergeContribution in Hmerge. case_bool_decide; [by injection Hmerge as <-|].
    apply outcome_bind_done in Hmerge as (m1 & _ & (m2 & _ & [= <-])%outcome_bind_done). done. }
  rewrite E1, E2 in *. assert (no_uses_left (steps ++ finally ++ pc_finally c2)) as Hno.
  { unfold no_uses_left in *. rewrite !Forall_app in *. naive_solver. }
  split; [done|]. split; [|split; [exact Hnames|]].
  - assert (∀ l, no_uses_left l → existsb git_entry l = false) as Hg.
    { intros l Hl. apply existsb_false_elem. intros e He. unfold no_uses_left in Hl. rewrite Forall_forall in Hl.
      unfold git_entry. by rewrite (Hl e He). }
    unfold no_uses_left in Hno. rewrite Forall_app in Hno. destruct Hno as [Ha Hb].
    unfold HasGitURIs. simpl. by rewrite (Hg _ Ha), (Hg _ Hb).
  - intros uris [Hch|Hch]; [destruct (Hb1 uris Hch) as (? & ? & _)|destruct (Hb2 uris Hch) as (? & ? & _)]; split; done || lia.
Qed.
End resolve.

(** ** Merging the contributions *)

Section merge.
Variable json : val → option string.

(** The definitions [defs] are all present in [old ++ new] up to their JSON
    text, and [new] takes only what [old] lacks. *)
Record merged (defs : list vmap) (old : gmap string vmap) (new : list vmap) : Prop := {
  mg_from : ∀ d, d ∈ new → d ∈ defs;
  mg_fresh : ∀ d, d ∈ new → DefName d ≠ "" ∧ old !! DefName d = None;
  mg_nodup : NoDup (DefName <$> new);
  mg_all : ∀ d, d ∈ defs → DefName d ≠ "" →
    ∃ p, (old !! DefName d = Some p ∨ p ∈ new ∧ DefName p = DefName d) ∧ json (VMap p) = json (VMap d)
}.

Lemma merge_each_done what defs raw old st' :
  merge_each json what (raw, old) defs = Done st' →
  ∃ new, st'.1 = raw ++ (VMap <$> new) ∧ merged defs old new.
Proof using Type.
  revert raw old. induction defs as [|d defs IH]; intros raw old; simpl.
  - intros [= <-]. exists []. simpl. rewrite app_nil_r. split; [done|].
    split; [by intros ? ?%elem_of_nil..|constructor|by intros ? ?%elem_of_nil].
  - intros ([raw1 old1] & Hd & Hl)%outcome_bind_done. unfold merge_def in Hd. simpl in Hd.
    destruct (String.eqb_spec (DefName d) "") as [E|Hne]; [unfold empty in Hd; rewrite E in Hd; simpl in Hd|
      unfold empty in Hd; rewrite (proj2 (String.eqb_neq _ _) Hne) in Hd].
    + injection Hd as <- <-. destruct (IH _ _ Hl) as (new & Hraw & [Hf Hfr Hnd Ha]). exists new. split; [done|]. split.
      * intros x Hx. right. auto.
      * done.
      * done.
      * intros x [->|Hx]%elem_of_cons Hn; [done|auto].
    + destruct (old !! DefName d) as [prev|] eqn:Eold.
      * destruct (json (VMap prev)) as [a|] eqn:Ea; [|done]. destruct (json (VMap d)) as [b|] eqn:Eb; [|done].
        destruct (String.eqb_spec a b) as [->|]; [|done]. injection Hd as <- <-.
        destruct (IH _ _ Hl) as (new & Hraw & [Hf Hfr Hnd Ha]). exists new. split; [done|]. split.
        -- intros x Hx. right. auto.
        -- done.
        -- done.
        -- intros x [->|Hx]%elem_of_cons Hn; [|auto]. exists prev. split; [auto|congruence].
      * injection Hd as <- <-. destruct (IH _ _ Hl) as (new & Hraw & [Hf Hfr Hnd Ha]). exists (d :: new).
        split; [rewrite Hraw, <-(assoc_L (++)); done|]. split.
        -- intros x [->|Hx]%elem_of_cons; [left|right; auto].
        -- intros x [->|Hx]%elem_of_cons; [done|]. destruct (Hfr x Hx) as [? Hx']. split; [done|].
           by apply lookup_insert_None in Hx' as [? _].
        -- csimpl. constructor; [|done]. intros (x & E & Hx)%list_elem_of_fmap. destruct (Hfr x Hx) as [_ Hx'].
           apply lookup_insert_None in Hx' as [_ Hx']. congruence.
        -- intros x [->|Hx]%elem_of_cons Hn; [exists d; split; [right; split; [left|done]|done]|].
           destruct (Ha x Hx Hn) as (p & [Hp|[Hp Ep]] & Hj).
           ++ apply lookup_insert_Some in Hp as [[E <-]|[_ Hp]].
              ** exists d. split; [right; split; [left|done]|done].
              ** exists p. auto.
           ++ exists p. split; [right; split; [by right|done]|done].
Qed.

Lemma vat_vset m key v key' : vat (vset m key v) key' = if (key' =? key)%string then v else vat m key'.
Proof using Type.
  unfold vat, vset. induction m as [|[k x] m IH].
  - simpl. destruct (String.eqb_spec key key') as [->|Hne]; [by rewrite String.eqb_refl|].
    by rewrite (proj2 (String.eqb_neq _ _) (not_eq_sym Hne)).
  - rewrite filter_cons. destruct (decide ((k, x).1 ≠ key)) as [Hk|Hk]; simpl in *.
    + destruct (String.eqb_spec k key') as [->|]; [|exact IH]. by rewrite (proj2 (String.eqb_neq _ _) Hk).
    + apply dec_stable in Hk. subst k. rewrite IH. destruct (String.eqb_spec key' key) as [E|Hne]; [done|].
      by rewrite (proj2 (String.eqb_neq _ _) (not_eq_sym Hne)).
Qed.

Lemma omap_vmap raw new : omap as_map (raw ++ (VMap <$> new)) = omap as_map raw ++ new.
Proof using Type.
  rewrite omap_app. f_equal. induction new as [|d new IH]; [done|]. csimpl. by rewrite IH.
Qed.

(** The named definitions of a podTemplate list. *)
Definition defs_of (m : vmap) (key : string) : list vmap := omap as_map (as_list (vat m key)).

Lemma mergeDefs_done key what defs m m' :
  mergeDefs json key what defs m = Done m' →
  (∀ key', key' ≠ key → vat m' key' = vat m key') ∧
  ∃ new, defs_of m' key = defs_of m key ++ new ∧ merged defs (existing_defs (as_list (vat m key))) new.
Proof using Type.
  unfold mergeDefs. destruct defs as [|d defs].
  - intros [= <-]. split; [done|]. exists []. rewrite app_nil_r. split; [done|].
    split; [by intros ? ?%elem_of_nil..|constructor|by intros ? ?%elem_of_nil].
  - intros (st & Hm & [= <-])%outcome_bind_done. apply merge_each_done in Hm as (new & E & Hm). split.
    + intros key' Hne. rewrite vat_vset. by rewrite (proj2 (String.eqb_neq _ _) Hne).
    + exists new. split; [|done]. unfold defs_of. rewrite vat_vset, String.eqb_refl. simpl. by rewrite E, omap_vmap.
Qed.

(** Merging never redefines what the caller defined.  When the templates'
    contributions are merged, the caller's containers and volumes are kept as
    they are and in their order; what is added comes from the templates, under
    names the caller did not use and each once; and every contributed
    definition with a name is in the result, the caller's or an earlier one
    standing for it only when their JSON texts agree. *)
Theorem merge_keeps_caller (spec spec' : Spec) (c : podContribution) :
  mergeContribution json spec c = Done spec' →
  ∃ newc newv,
    PodTemplateContainers (sp_PodTemplate spec') = PodTemplateContainers (sp_PodTemplate spec) ++ newc ∧
    PodTemplateVolumes (sp_PodTemplate spec') = PodTemplateVolumes (sp_PodTemplate spec) ++ newv ∧
    let m := from_option pt_Spec [] (sp_PodTemplate spec) in
    merged (pc_containers c) (existing_defs (as_list (vat m "containers"))) newc ∧
    merged (pc_volumes c) (existing_defs (as_list (vat m "volumes"))) newv.
Proof using Type.
  unfold mergeContribution. case_bool_decide as Hlen.
  - intros [= <-]. exists [], []. rewrite !app_nil_r. rewrite length_app in Hlen.
    assert (pc_containers c = [] ∧ pc_volumes c = []) as [-> ->].
    { destruct (pc_containers c), (pc_volumes c); simpl in Hlen; try lia; done. }
    split_and!; [done..| |]; (split; [by intros ? ?%elem_of_nil..|constructor|by intros ? ?%elem_of_nil]).
  - intros (m1 & H1 & (m2 & H2 & [= <-])%outcome_bind_done)%outcome_bind_done.
    set (pt := default (MkPodTemplate "" false false None None []) (sp_PodTemplate spec)) in *.
    assert (pt_Spec pt = from_option pt_Spec [] (sp_PodTemplate spec)) as Ept by (unfold pt; by destruct (sp_PodTemplate spec)).
    apply mergeDefs_done in H1 as [K1 (newc & E1 & G1)]. apply mergeDefs_done in H2 as [K2 (newv & E2 & G2)].
    assert (∀ key, podTemplateDefs (sp_PodTemplate spec) key = defs_of (pt_Spec pt) key) as Eold.
    { intros key. rewrite Ept. unfold podTemplateDefs, defs_of. by destruct (sp_PodTemplate spec). }
    exists newc, newv. unfold PodTemplateContainers, PodTemplateVolumes. rewrite !Eold, <-Ept. split_and!; [| |done|].
    + change (defs_of m2 "containers" = defs_of (pt_Spec pt) "containers" ++ newc). unfold defs_of at 1.
      rewrite K2 by done. exact E1.
    + change (defs_of m2 "volumes" = defs_of (pt_Spec pt) "volumes" ++ newv). rewrite E2. unfold defs_of at 1.
      by rewrite K1.
    + by rewrite <-(K1 "volumes").
Qed.
End merge.

(** ** A sample template *)

Definition step_named (name run : string) : Step :=
  MkStep name "" ∅ run ∅ None None None None None None None false "" None "" "" None (whole_minutes 0) None None None None.
Definition uses_named (name uri : string) : Step :=
  MkStep name "ready" ∅ "" ∅ None (Some (MkUsesStep uri [])) None None None None None false "" None "" "" None (whole_minutes 0) None None None None.

(** One step that prints its parameter, and a cleanup. *)
Definition sample_template : JobTemplate :=
  MkJobTemplate SupportedAPIVersion "JobTemplate" (MkMetadata "greet" ∅ ∅)
    (MkParams [MkInput "WHO" "string" false (VStr "you") "" false None] []) None
    (Some ([[("name", VStr "tool")]], []))
    [MkStepEntry (step_named "say" "echo {{ .Params.WHO }}") []]
    [MkStepEntry (step_named "tidy" "rm -f out") []].

Definition sample_uri : string := "git://github.com/org/repo/greet.yaml@v1".
Definition sample_caller : Spec :=
  MkSpec (MkParams [] []) None [] [MkStepEntry (uses_named "hello" sample_uri) []] [] None
    false false false None [] "" ∅.

Definition resolve_sample : outcome Spec :=
  ResolveSpec any_ast no_parse_error no_parse_error (λ _, Ok "JobTemplate") (λ _, None) (λ _, Ok sample_template)
    show_string [] (λ _, Ok []) (λ _, Ok "") (λ _ _, Ok "doc") (λ _, None) sample_caller.

Example resolve_sample_names :
  match resolve_sample with
  | Done s => entry_names (sp_Steps s) ++ entry_names (sp_Finally s)
              = ["hello__inputs"; "hello__say"; "hello"; "hello__tidy"]
              ∧ (s_Run (e_Step (nth 1 (sp_Steps s) (MkStepEntry Step_zero []))))
                = "echo {{ .Steps.hello__inputs.Outputs.WHO }}"
  | Fails _ _ => False
  end.
Proof. vm_compute. auto. Qed.

Lemma resolution_bounded_witness :
  ∃ spec', resolve_sample = Done spec' ∧ HasGitURIs sample_caller = true ∧ HasGitURIs spec' = false
    ∧ NoDup (entry_names (sp_Steps spec') ++ entry_names (sp_Finally spec')).
Proof.
  assert (∃ spec', resolve_sample = Done spec') as [spec' E] by (vm_compute; eauto).
  exists spec'. assert (HasGitURIs sample_caller = true) as Hg by (vm_compute; reflexivity).
  destruct (resolution_bounded any_ast no_parse_error no_parse_error (λ _, Ok "JobTemplate") (λ _, None)
    (λ _, Ok sample_template) show_string [] (λ _, Ok []) (λ _, Ok "") (λ _ _, Ok "doc") (λ _, None)
    sample_caller spec' Hg E) as (_ & H1 & H2 & _). auto.
Defined.

Lemma expansion_inherits_witness :
  ∃ entries c, expandUsesStep show_string [] (λ _, Ok []) "hello" ∅ (ToSpec sample_template) None "tool" "ready"
                 = Ok (entries, c)
    ∧ length entries = 3 ∧ Forall (λ e, s_Container (e_Step e) = "tool") (pc_finally c).
Proof.
  assert (∃ r, expandUsesStep show_string [] (λ _, Ok []) "hello" ∅ (ToSpec sample_template) None "tool" "ready" = Ok r)
    as [[entries c] E] by (vm_compute; eauto).
  exists entries, c. split; [exact E|].
  destruct (expansion_inherits show_string [] (λ _, Ok []) "hello" ∅ (ToSpec sample_template) None "tool" "ready" entries c E)
    as [(inputs & body & outputs & Ee & Hlen & _) _].
  split; [rewrite Ee; simpl; rewrite length_app, Hlen; reflexivity|].
  vm_compute in E. injection E as <- <-. by apply Forall_singleton.
Defined.

(** The caller defines [go] and the templates contribute [tool] twice. *)
Definition pod_caller : Spec :=
  with_pod (Some (MkPodTemplate "" false false None None [("containers", VList [VMap [("name", VStr "go")]])])) sample_caller.
Definition pod_contribution : podContribution :=
  MkContribution [[("name", VStr "tool")]; [("name", VStr "tool")]; [("name", VStr "go")]] [] [].

Lemma merge_keeps_caller_witness :
  ∃ spec', mergeContribution (λ _, Some "{}") pod_caller pod_contribution = Done spec'
    ∧ PodTemplateContainers (sp_PodTemplate spec') = [[("name", VStr "go")]; [("name", VStr "tool")]].
Proof.
  assert (∃ s, mergeContribution (λ _, Some "{}") pod_caller pod_contribution = Done s) as [spec' E] by (vm_compute; eauto).
  exists spec'. split; [exact E|].
  destruct (merge_keeps_caller (λ _, Some "{}") pod_caller spec' pod_contribution E) as (newc & newv & E1 & _).
  rewrite E1. vm_compute in E. injection E as <-. vm_compute in E1. injection E1 as <-. reflexivity.
Defined.

(** ** What resolution gets wrong *)

(** The name of a parallel block is empty, so a second one in the expansions of
    one list collides with the first. *)
Example second_parallel_block_collides :
  let block := MkStepEntry Step_zero [step_named "u__a" "true"; step_named "u__b" "true"] in
  let block2 := MkStepEntry Step_zero [step_named "u__c" "true"; step_named "u__d" "true"] in
  is_ok (check_expanded "u" ∅ [block]) = true ∧ is_ok (check_expanded "u" ∅ [block; block2]) = false.
Proof. vm_compute. auto. Qed.

(** A template whose own uses step bears the name of the caller's: after the
    inner expansion [u__inputs] is a step of the template, so the reference to
    the outer inputs, once written, is taken for one to the inner inputs. *)
Example nested_inputs_captured :
  rewriteRefs "{{ .Params.X }}" "u" {["u__inputs"; "u"]} = "{{ .Steps.u__u__inputs.Outputs.X }}"
  ∧ rewriteRefs "{{ .Params.X }}" "v" {["u__inputs"; "u"]} = "{{ .Steps.v__inputs.Outputs.X }}".
Proof. vm_compute. auto. Qed.
