(* ===== verification/ClaimBuild.v ===== *)
(** * internal/controller: the parameters of a run and the claim built from it

    [params.go] resolves the parameters of a run against the inputs of its job;
    [api_agent.go] turns the stored specification of a claimed run into the
    [ClaimResponse] its agent executes, and recomputes from the same
    specification which secrets the agent may fetch; [planned_steps.go] derives
    the list of steps shown to users.  JSON decoding, [fmt.Sprint],
    [regexp.Compile] and the template parser are parameters; a run's
    specification that does not decode is [None].

    Where the code ranges over a map the model takes the order of
    [map_to_list]; it decides only which of several errors is returned. *)

From S2P Require Import Prelude GoStrings DslNames DslTypes DslMatrix DslSecurity SecretRefs StoreRuns AgentSteps.
From Stdlib Require QArith_base.
From stdpp Require Import options.

(** ** [resolveParams] *)

Section params.
(** [fmt.Sprintf("%v", v)], and [regexp.Compile] with the test of the compiled
    expression. *)
Variables (sprint : val → string) (compile_re : string → text + (string → bool)).

(** The first loop: the defaults, and the inputs that stay unset. *)
Definition fill_input (st : gmap string string * list string) (i : Input) : gmap string string * list string :=
  if negb (default "" (st.1 !! in_Name i) =? "")%string then st
  else if negb (is_null (in_Default i)) then (<[in_Name i := sprint (in_Default i)]> st.1, st.2)
  else if in_Required i then (st.1, st.2 ++ [in_Name i]) else st.

(** The second loop's body. *)
Definition check_pattern (resolved : gmap string string) (i : Input) : res unit :=
  if (in_Pattern i =? "")%string then Ok tt
  else
    match resolved !! in_Name i with
    | None => Ok tt
    | Some value =>
        match compile_re (in_Pattern i) with
        | inl e => Err ([Lit "param "; Quo (in_Name i); Lit ": invalid pattern "; Quo (in_Pattern i); Lit ": "] ++ e)
        | inr matches =>
            fail_if (negb (matches value))
              [Lit "param "; Quo (in_Name i); Lit " does not match required pattern "; Quo (in_Pattern i)]
        end
    end.

(** The third loop's body. *)
Definition check_choice (resolved : gmap string string) (i : Input) : res unit :=
  match in_Choices i with
  | None | Some [] => Ok tt
  | Some choices =>
      match resolved !! in_Name i with
      | None => Ok tt
      | Some value =>
          if (value =? "")%string then Ok tt
          else fail_if (negb (bool_decide (value ∈ choices)))
                 [Lit "param "; Quo (in_Name i); Lit " must be one of: "; Lit (Join ", " choices)]
      end
  end.

Definition resolveParams (inputs : list Input) (supplied : gmap string string) : res (gmap string string) :=
  let '(resolved, missing) := fold_left fill_input inputs (supplied, []) in
  _ ← (match missing with
       | [] => Ok tt
       | [m] => Err [Lit "missing required param: "; Lit m]
       | ms => Err [Lit "missing required params: ["; Lit (Join " " ms); Lit "]"]
       end);
  _ ← each (λ _, check_pattern resolved) inputs;
  _ ← each (λ _, check_choice resolved) inputs;
  Ok resolved.

(** [validateWebhookPayloadMappedParams]: the first parameter, in sorted order,
    that is mapped from the payload without a constraint of the job. *)
Definition input_named (inputs : list Input) (name : string) : option Input :=
  last (filter (λ i, in_Name i = name) inputs).
Definition constrained (inputs : list Input) (param : string) : bool :=
  match input_named inputs param with
  | None => false
  | Some i => negb (in_Pattern i =? "")%string || in_Unvalidated i
              || match in_Choices i with Some (_ :: _) => true | _ => false end
  end.
Definition validateWebhookPayloadMappedParams (receiverName : string) (mapping : gmap string string)
    (inputs : list Input) (jobName : string) : res unit :=
  each (λ _ param,
    fail_if (Contains (default "" (mapping !! param)) "{{" && negb (constrained inputs param))
      [Lit "webhook receiver "; Quo receiverName; Lit ": param "; Quo param;
       Lit " is mapped from the request payload but job "; Quo jobName;
       Lit " declares no pattern for it (add pattern: to the input, choices: to restrict it to a fixed set of values, or unvalidated: true to accept it explicitly)"])
    (sorted_keys mapping).
End params.

(** ** Steps of a claim *)

Definition stepToStepEntry (st : Step) : Step :=
  MkStep (s_Name st) (s_If st) (s_Env st) (s_Run st) (s_Outputs st) (s_Call st) (s_Uses st) (s_Cache st) (s_Upload st)
    (s_Download st) (s_Approval st) (s_Post st) (s_ContinueOnError st) (s_Container st) None (s_ScopeID st)
    (s_ScopeImage st) (s_ScopeResourceLimits st) (s_TimeoutMinutes st) (s_Retry st) (s_Foreach st) (s_Matrix st) (s_Shell st).

Definition resolveShell (stepShell jobShell : option (list string)) : option (list string) :=
  match stepShell, jobShell with
  | Some (_ :: _), _ => stepShell
  | _, Some (_ :: _) => jobShell
  | _, _ => None
  end.

Section claim.
Variables (sprint : val → string) (parse_template : string → res (list node)).

(** A [uses:] wins over a [call:], a [matrix:] over a [foreach:]. *)
Definition claim_call (st : Step) : option ClaimCallStep :=
  match s_Uses st, s_Call st with
  | Some u, _ => Some (MkClaimCall (us_Job u) (list_to_map (withAsStrings sprint (us_With u))))
  | None, Some c => Some (MkClaimCall (cs_Job c) (list_to_map (withAsStrings sprint (cs_With c))))
  | None, None => None
  end.
Definition claim_matrix (st : Step) : option ClaimMatrixDef :=
  match s_Matrix st, s_Foreach st with
  | Some m, _ => Some (MkClaimMatrix (mx_Dimensions m) (mx_Exclude m))
  | None, Some f => Some (MkClaimMatrix [MkMatrixDimension (fd_Key f) (fd_Source f)] [])
  | None, None => None
  end.

Definition claim_approval (a : ApprovalStep) : ClaimApproval :=
  MkClaimApproval (ap_Message a)
    (if (QArith_base.Qnum (ap_TimeoutMinutes a) =? 0)%Z then whole_minutes 60 else ap_TimeoutMinutes a).

Definition buildOneClaimStep (stepIdx stageIdx : Z) (st : Step) (jobShell : option (list string)) : ClaimStep :=
  MkClaimStep stepIdx stageIdx (s_Name st) (s_If st) (s_Env st) (s_Run st) (s_Outputs st) (claim_call st) (s_Cache st)
    (s_Post st) (s_ContinueOnError st) (s_Container st) (s_ScopeID st) (s_ScopeImage st) (s_ScopeResourceLimits st)
    (s_TimeoutMinutes st) (s_Retry st) (s_Upload st) (s_Download st) (claim_matrix st) None "" (claim_approval <$> s_Approval st)
    (resolveShell (s_Shell st) jobShell).

(** A loop over [l] that stops at the first error, with the state it leaves. *)
Fixpoint until {S A} (f : S → A → S * option text) (s : S) (l : list A) : S * option text :=
  match l with
  | [] => (s, None)
  | x :: l =>
      match f s x with
      | (s, Some e) => (s, Some e)
      | (s, None) => until f s l
      end
  end.

Definition collectSecretNames (tpl : string) (seen : gset string) : gset string * option text :=
  match ReferencedSecretNames parse_template tpl with
  | Err e => (seen, Some e)
  | Ok names => (seen ∪ list_to_set names, None)
  end.

Definition prefixed (pre : text) (r : gset string * option text) : gset string * option text :=
  (r.1, (λ e, pre ++ e) <$> r.2).

(** The templates of a step that may mention secrets: its script and its
    environment. *)
Definition collect_step (st : Step) (needed : gset string) : gset string * option text :=
  match prefixed [Lit "step "; Quo (s_Name st); Lit " run: "] (collectSecretNames (s_Run st) needed) with
  | (needed, Some e) => (needed, Some e)
  | (needed, None) =>
      until (λ needed kv, prefixed [Lit "step "; Quo (s_Name st); Lit " env "; Quo kv.1; Lit ": "]
                            (collectSecretNames kv.2 needed)) needed (map_to_list (s_Env st))
  end.

Record building := MkBuilding { bd_steps : list ClaimStep; bd_idx : Z; bd_needed : gset string }.

(** One member of a parallel group. *)
Definition build_child (stageIdx : Z) (jobShell : option (list string)) (b : building) (st : Step)
  : building * option text :=
  let steps := bd_steps b ++ [buildOneClaimStep (bd_idx b) stageIdx (stepToStepEntry st) jobShell] in
  match collect_step st (bd_needed b) with
  | (needed, Some e) => (MkBuilding steps (bd_idx b) needed, Some e)
  | (needed, None) => (MkBuilding steps (bd_idx b + 1) needed, None)
  end.

Record built := MkBuilt { bt_stages : list ClaimStage; bt_idx : Z; bt_needed : gset string }.

(** One entry.  A group or step whose secrets cannot be collected is not among
    the stages. *)
Definition build_entry (stageIdx : Z) (jobShell : option (list string)) (b : built) (e : StepEntry)
  : built * option text :=
  match e_Parallel e with
  | [] =>
      let cs := buildOneClaimStep (bt_idx b) stageIdx (e_Step e) jobShell in
      match collect_step (e_Step e) (bt_needed b) with
      | (needed, Some err) => (MkBuilt (bt_stages b) (bt_idx b) needed, Some err)
      | (needed, None) => (MkBuilt (bt_stages b ++ [MkStage (Some cs) []]) (bt_idx b + 1) needed, None)
      end
  | children =>
      match until (build_child stageIdx jobShell) (MkBuilding [] (bt_idx b) (bt_needed b)) children with
      | (g, Some err) => (MkBuilt (bt_stages b) (bd_idx g) (bd_needed g), Some err)
      | (g, None) => (MkBuilt (bt_stages b ++ [MkStage None (bd_steps g)]) (bd_idx g) (bd_needed g), None)
      end
  end.

(** [buildStages]: the stages, the step index and the secrets after it, and the
    error that stopped it. *)
Fixpoint build_from (stageIdx : Z) (jobShell : option (list string)) (b : built) (entries : list StepEntry)
  : built * option text :=
  match entries with
  | [] => (b, None)
  | e :: entries =>
      match build_entry stageIdx jobShell b e with
      | (b, Some err) => (b, Some err)
      | (b, None) => build_from (stageIdx + 1) jobShell b entries
      end
  end.

Definition buildStages (entries : list StepEntry) (stepIdx : Z) (secretsNeeded : gset string)
    (jobShell : option (list string)) : built * option text :=
  build_from 0 jobShell (MkBuilt [] stepIdx secretsNeeded) entries.

Definition then_built (r : built * option text) : res built :=
  match r with (b, None) => Ok b | (_, Some e) => Err e end.

(** ** The claim *)

Definition pre_migration (jobName : string) (st : Step) : res unit :=
  fail_if (match s_RunsIn st, s_Uses st with Some _, None => true | _, _ => false end)
    [Lit "job "; Quo jobName; Lit ": step "; Quo (s_Name st);
     Lit " uses the removed step-level runsIn: — set step-level container: (referencing a podTemplate container) instead"].

Definition rejectPreMigrationRunsIn (jobName : string) (entries : list StepEntry) : res unit :=
  each (λ _ e, match e_Parallel e with
               | [] => pre_migration jobName (e_Step e)
               | children => each (λ _, pre_migration jobName) children
               end) entries.

Record ClaimedRun := MkClaimedRun {
  cr_ID : string; cr_JobName : string; cr_Params : gmap string string; cr_Spec : option Spec
}.

Variables (ExpandTemplate : string → TemplateData → res string) (json_error : text).

Definition decode_spec (s : option Spec) : res Spec := match s with Some s => Ok s | None => Err json_error end.

Definition buildClaimResponse (c : ClaimedRun) (globalVars : gmap string string) : res ClaimResponse :=
  spec ← decode_spec (cr_Spec c);
  _ ← rejectPreMigrationRunsIn (cr_JobName c) (sp_Steps spec);
  _ ← rejectPreMigrationRunsIn (cr_JobName c) (sp_Finally spec);
  volumes ← wrap [Lit "expand spec.volumes: "] (ExpandVolumes ExpandTemplate (sp_Volumes spec) (cr_Params c));
  stages ← then_built (buildStages (sp_Steps spec) 0 ∅ (sp_Shell spec));
  finally ← then_built (buildStages (sp_Finally spec) (bt_idx stages) (bt_needed stages) (sp_Shell spec));
  Ok (MkClaim (cr_ID c) (cr_JobName c) (cr_Params c) (sp_Vars spec ∪ globalVars) (bt_stages stages) (bt_stages finally)
        (ou_Name <$> pa_Outputs (sp_Params spec)) (elements (bt_needed finally)) (sp_PodTemplate spec)
        (sp_Native spec) (sp_CleanWorkspace spec) 0 volumes).

(** [secretNamesForRun], on the stored specification. *)
Definition secretNamesForRun (stored : option Spec) : res (gset string) :=
  spec ← decode_spec stored;
  stages ← then_built (buildStages (sp_Steps spec) 0 ∅ (sp_Shell spec));
  finally ← then_built (buildStages (sp_Finally spec) (bt_idx stages) (bt_needed stages) (sp_Shell spec));
  Ok (bt_needed finally).

(** ** The steps shown to users *)

(** A row of a run's step list.  [st_Rest] stands for what only a report carries:
    exit code, times, variant, child run. *)
Record StepReport := MkStepReport {
  st_Index : Z; st_StageIndex : Z; st_Name : string; st_Status : string;
  st_Kind : string; st_Section : string; st_Matrix : bool; st_Rest : option report
}.

Definition stepKind (cs : ClaimStep) : string :=
  match cl_Cache cs, cl_Call cs, cl_Upload cs, cl_Download cs, cl_Approval cs with
  | Some _, _, _, _, _ => "cache"
  | None, Some c, _, _, _ => if HasPrefix (cc_Job c) "git://" then "uses" else "call"
  | None, None, Some _, _, _ => "uploadArtifact"
  | None, None, None, Some _, _ => "downloadArtifact"
  | None, None, None, None, Some _ => "approval"
  | _, _, _, _, _ => "run"
  end.

Definition planned_step (section : string) (cs : ClaimStep) : StepReport :=
  MkStepReport (cl_Index cs) (cl_StageIndex cs) (cl_Name cs) "Pending" (stepKind cs) section
    (match cl_Matrix cs with Some _ => true | None => false end) None.

Definition planned_sidecar (k : nat) (name : string) : StepReport :=
  MkStepReport (SidecarLogIndex (Z.of_nat k)) 0 name "Running" "sidecar" "sidecars" false None.

Definition plannedSteps (spec : Spec) : list StepReport :=
  let main := (buildStages (sp_Steps spec) 0 ∅ (sp_Shell spec)).1 in
  let finally := (buildStages (sp_Finally spec) (bt_idx main) (bt_needed main) (sp_Shell spec)).1 in
  (planned_step "main" <$> (bt_stages main ≫= StageSteps))
    ++ (planned_step "finally" <$> (bt_stages finally ≫= StageSteps))
    ++ imap planned_sidecar (SidecarContainerNames (sp_PodTemplate spec)).

(** A reported row with the plan's kind, section and matrix flag. *)
Definition overlay (p r : StepReport) : StepReport :=
  MkStepReport (st_Index r) (st_StageIndex r) (st_Name r) (st_Status r) (st_Kind p) (st_Section p) (st_Matrix p) (st_Rest r).

Definition mergedRunSteps (reported : list StepReport) (spec : Spec) : list StepReport :=
  let planned := plannedSteps spec in
  (planned ≫= λ p, match filter (λ r, st_Index r = st_Index p) reported with
                   | [] => [p]
                   | rs => overlay p <$> rs
                   end)
    ++ filter (λ r, st_Index r ∉ (st_Index <$> planned)) reported.
End claim.

(** ** Parameters: what is accepted, and what they resolve to *)

Section params_facts.
Variable sprint : val → string.

(** What a parameter resolves to: a value of the caller that is not empty, else
    the declared default, else what the caller gave. *)
Definition param_value (inputs : list Input) (supplied : gmap string string) (name : string) : option string :=
  if negb (default "" (supplied !! name) =? "")%string then supplied !! name
  else match list_find (λ i, in_Name i = name ∧ is_null (in_Default i) = false) inputs with
       | Some (_, i) => Some (sprint (in_Default i))
       | None => supplied !! name
       end.

Lemma fill_other st i name : in_Name i ≠ name → (fill_input sprint st i).1 !! name = st.1 !! name.
Proof. intros. unfold fill_input. repeat case_match; simpl; [done| |done..]. by rewrite lookup_insert_ne. Qed.

Lemma fill_all_other inputs st name :
  name ∉ (in_Name <$> inputs) → (fold_left (fill_input sprint) inputs st).1 !! name = st.1 !! name.
Proof.
  revert st. induction inputs as [|i inputs IH]; intros st; simpl; [done|].
  intros [? ?]%not_elem_of_cons. rewrite IH by done. by apply fill_other.
Qed.

Lemma fill_all_missing inputs st name :
  NoDup (in_Name <$> inputs) →
  name ∈ (fold_left (fill_input sprint) inputs st).2 ↔
    name ∈ st.2 ∨ ∃ i, i ∈ inputs ∧ in_Name i = name ∧ in_Required i = true ∧ is_null (in_Default i) = true
                       ∧ default "" (st.1 !! name) = "".
Proof.
  revert st. induction inputs as [|i inputs IH]; intros st; simpl.
  { intros _. split; [by left|]. intros [?|(? & []%elem_of_nil & _)]; done. }
  intros [Hi Hd]%NoDup_cons. rewrite IH by done.
  assert (name ∈ (fill_input sprint st i).2 ↔ name ∈ st.2 ∨ in_Name i = name ∧ in_Required i = true
          ∧ is_null (in_Default i) = true ∧ default "" (st.1 !! name) = "") as ->.
  { unfold fill_input. destruct (String.eqb_spec (default "" (st.1 !! in_Name i)) "") as [E|E]; simpl.
    - destruct (is_null (in_Default i)), (in_Required i); simpl; rewrite ?elem_of_app, ?list_elem_of_singleton; naive_solver.
    - naive_solver. }
  split.
  - intros [[?|?]|(j & Hj & <- & ? & ? & Hv)]; [by left| |]; right.
    + exists i. split; [left|naive_solver].
    + exists j. split; [by right|]. split_and!; [done..|].
      rewrite fill_other in Hv; [done|]. intros E. apply Hi, list_elem_of_fmap. eauto.
  - intros [?|(j & [->|Hj]%elem_of_cons & <- & ? & ? & Hv)]; [by left; left| |].
    + left. right. naive_solver.
    + right. exists j. split_and!; try done. rewrite fill_other; [done|].
      intros E. apply Hi, list_elem_of_fmap. eauto.
Qed.

Lemma fill_all_value inputs st name :
  NoDup (in_Name <$> inputs) →
  (fold_left (fill_input sprint) inputs st).1 !! name = param_value inputs st.1 name.
Proof.
  revert st. induction inputs as [|i inputs IH]; intros st; simpl; [intros _; unfold param_value; by case_match|].
  intros [Hi Hd]%NoDup_cons. destruct (decide (in_Name i = name)) as [<-|Hne].
  - rewrite fill_all_other by done. unfold param_value, fill_input. simpl.
    destruct (String.eqb_spec (default "" (st.1 !! in_Name i)) "") as [E|E]; simpl; [|done].
    destruct (is_null (in_Default i)); simpl.
    + rewrite decide_False by naive_solver.
      assert (list_find (λ j, in_Name j = in_Name i ∧ is_null (in_Default j) = false) inputs = None) as ->.
      { apply list_find_None, Forall_forall. intros j Hj [E' _]. apply Hi, list_elem_of_fmap. eauto. }
      simpl. by destruct (in_Required i).
    + rewrite decide_True by done. simpl. by rewrite lookup_insert_eq.
  - rewrite IH by done. unfold param_value. rewrite fill_other by done. simpl.
    rewrite (decide_False (P := in_Name i = name ∧ _)) by naive_solver.
    destruct (list_find _ inputs) as [[? ?]|]; done.
Qed.

End params_facts.

Section constraints.
Variable compile_re : string → text + (string → bool).

(** The constraints an input puts on the resolved parameters. *)
Definition input_met (supplied resolved : gmap string string) (i : Input) : Prop :=
  (in_Required i = true → is_null (in_Default i) = true → default "" (supplied !! in_Name i) ≠ "") ∧
  (∀ v, in_Pattern i ≠ "" → resolved !! in_Name i = Some v →
     ∃ matches, compile_re (in_Pattern i) = inr matches ∧ matches v = true) ∧
  (∀ cs v, in_Choices i = Some cs → cs ≠ [] → resolved !! in_Name i = Some v → v ≠ "" → v ∈ cs).

Lemma check_pattern_ok resolved i :
  check_pattern compile_re resolved i = Ok tt ↔
  ∀ v, in_Pattern i ≠ "" → resolved !! in_Name i = Some v →
    ∃ matches, compile_re (in_Pattern i) = inr matches ∧ matches v = true.
Proof.
  unfold check_pattern. destruct (String.eqb_spec (in_Pattern i) "") as [->|Hp]; [naive_solver|].
  destruct (resolved !! in_Name i) as [v|]; [|naive_solver].
  destruct (compile_re (in_Pattern i)) as [e|m]; [split; [done|]; intros H; destruct (H v) as (? & ? & ?); done|].
  rewrite fail_if_ok, negb_false_iff. naive_solver.
Qed.

Lemma check_choice_ok resolved i :
  check_choice resolved i = Ok tt ↔
  ∀ cs v, in_Choices i = Some cs → cs ≠ [] → resolved !! in_Name i = Some v → v ≠ "" → v ∈ cs.
Proof using Type.
  clear compile_re. unfold check_choice. destruct (in_Choices i) as [[|c cs]|]; [naive_solver| |naive_solver].
  destruct (resolved !! in_Name i) as [v|]; [|naive_solver].
  destruct (String.eqb_spec v "") as [->|Hv]; [naive_solver|].
  rewrite fail_if_ok, negb_false_iff, bool_decide_eq_true. naive_solver.
Qed.
End constraints.

Lemma fill_all_grows sprint inputs st :
  (∃ l, (fold_left (fill_input sprint) inputs st).2 = st.2 ++ l) ∧
  ∀ n, default "" (st.1 !! n) ≠ "" → default "" ((fold_left (fill_input sprint) inputs st).1 !! n) ≠ "".
Proof.
  revert st. induction inputs as [|i inputs IH]; intros st; simpl; [split; [exists []; by rewrite app_nil_r|done]|].
  destruct (IH (fill_input sprint st i)) as [[l ->] Hv]. unfold fill_input in *.
  destruct (String.eqb_spec (default "" (st.1 !! in_Name i)) "") as [E|E]; simpl in *; [|split; [by exists l|done]].
  destruct (is_null (in_Default i)), (in_Required i); simpl in *;
    (split; [rewrite <-?app_assoc; by eexists|]); try done;
    intros n Hn; apply Hv; rewrite lookup_insert_ne; try done; by intros <-.
Qed.

(** Whatever the inputs, the parameters that come out meet each of them. *)
Lemma resolve_meets sprint compile_re inputs supplied resolved :
  resolveParams sprint compile_re inputs supplied = Ok resolved →
  ∀ i, i ∈ inputs → input_met compile_re resolved resolved i.
Proof.
  unfold resolveParams. destruct (fold_left _ inputs _) as [r missing] eqn:E. rewrite !then_ok, !each_ok.
  intros (Hm & Hp & Hc & [= <-]) i Hi. apply list_elem_of_lookup in Hi as Hk. destruct Hk as [k Hk]. split_and!.
  - intros Hr Hn. assert (missing = []) as -> by (by destruct missing as [|? []]). clear Hm Hp Hc Hk.
    revert E. generalize (supplied, [] : list string). induction inputs as [|j inputs IH]; [by apply not_elem_of_nil in Hi|].
    intros st E. simpl in E. apply elem_of_cons in Hi as [->|Hi]; [|by eapply IH].
    destruct (fill_all_grows sprint inputs (fill_input sprint st j)) as [[l Hl] Hv]. rewrite E in Hl, Hv. simpl in Hl, Hv.
    apply Hv. unfold fill_input in *. destruct (String.eqb_spec (default "" (st.1 !! in_Name j)) "") as [E'|E']; simpl; [|done].
    rewrite Hn, Hr in Hl. simpl in Hl. by destruct (app_cons_not_nil _ _ _ (eq_trans Hl (eq_sym (app_assoc _ _ _)))).
  - by eapply check_pattern_ok, Hp.
  - by eapply check_choice_ok, Hc.
Qed.

(** A run's parameters are exactly those its job admits.  When the inputs
    have distinct names, resolving succeeds exactly when every required input
    without a default has a value that is not empty, every patterned input's
    value matches its pattern, and every input with choices is unset, empty or
    one of them; each parameter is then the caller's value, or the declared
    default where the caller gave none or an empty one, and a parameter that is
    no input passes through. *)
Theorem resolve_params_exact (sprint : val → string) (compile_re : string → text + (string → bool))
    (inputs : list Input) (supplied resolved : gmap string string) :
  NoDup (in_Name <$> inputs) →
  resolveParams sprint compile_re inputs supplied = Ok resolved ↔
    (∀ name, resolved !! name = param_value sprint inputs supplied name) ∧
    ∀ i, i ∈ inputs → input_met compile_re supplied resolved i.
Proof.
  intros Hd. unfold resolveParams.
  pose proof (fill_all_value sprint inputs (supplied, []) ) as Hv.
  pose proof (λ n, fill_all_missing sprint inputs (supplied, []) n Hd) as Hm. simpl in Hv, Hm.
  destruct (fold_left _ inputs _) as [r missing] eqn:E. simpl in Hv, Hm.
  rewrite !then_ok.
  assert (∀ n, n ∉ missing ↔ ∀ i, i ∈ inputs → in_Name i = n → in_Required i = true →
           is_null (in_Default i) = true → default "" (supplied !! n) ≠ "") as Hm'.
  { intros n. rewrite Hm. set_unfold. naive_solver. }
  assert ((match missing with [] => Ok tt | [m] => Err [Lit "missing required param: "; Lit m]
            | ms => Err [Lit "missing required params: ["; Lit (Join " " ms); Lit "]"] end : res unit) = Ok tt
          ↔ missing = []) as -> by (destruct missing as [|? [|]]; naive_solver).
  rewrite !each_ok. unfold input_met. split.
  - intros (Hn & Hp & Hc & [= <-]). split; [by intros; apply Hv|].
    intros i Hi. split_and!.
    + intros ??. eapply Hm'; [rewrite Hn; apply not_elem_of_nil|done..].
    + apply list_elem_of_lookup in Hi as [k Hk]. by eapply check_pattern_ok, Hp.
    + apply list_elem_of_lookup in Hi as [k Hk]. by eapply check_choice_ok, Hc.
  - intros [Hval Hmet].
    assert (r = resolved) as -> by (apply map_eq; intros n; rewrite Hval; by apply Hv).
    split_and!; [| | |done].
    + destruct missing as [|n missing]; [done|]. exfalso.
      apply (proj2 (Hm' n)); [|left]. intros i Hi <- ??. by apply Hmet.
    + intros k i Hk%list_elem_of_lookup_2. apply check_pattern_ok. by apply Hmet.
    + intros k i Hk%list_elem_of_lookup_2. apply check_choice_ok. by apply Hmet.
Qed.

Definition sample_inputs : list Input :=
  [MkInput "branch" "string" true VNull "main" false None;
   MkInput "env" "string" false (VStr "dev") "" false (Some ["dev"; "prod"]);
   MkInput "tags" "array" false (VList [VStr "a"; VStr "b"]) "" false None].
(** [fmt.Sprintf("%v", v)] on strings and lists of strings. *)
Definition sample_sprint (v : val) : string :=
  match v with VStr s => s | VList l => "[" +:+ Join " " (as_str <$> l) +:+ "]" | _ => "" end.
Definition literal_re (p : string) : text + (string → bool) := inr (λ v, (v =? p)%string).
Definition sample_supplied : gmap string string := {["branch" := "main"; "env" := ""; "extra" := "1"]}.

Lemma resolve_params_exact_witness :
  ∃ resolved, resolveParams sample_sprint literal_re sample_inputs sample_supplied = Ok resolved
    ∧ resolved !! "env" = Some "dev" ∧ resolved !! "extra" = Some "1"
    ∧ ∀ i, i ∈ sample_inputs → input_met literal_re sample_supplied resolved i.
Proof.
  eexists. split; [vm_compute; reflexivity|]. split_and!; [reflexivity..|].
  apply (resolve_params_exact sample_sprint literal_re sample_inputs sample_supplied); [|vm_compute; reflexivity].
  apply (bool_decide_unpack _). vm_compute. exact I.
Defined.

(** An array default reaches a triggered or called run as one bracketed text,
    and an inlined template as one item per line. *)
Example array_default_differs :
  (resolveParams sample_sprint literal_re sample_inputs sample_supplied ≫= λ r, Ok (r !! "tags")) = Ok (Some "[a b]")
  ∧ InputDefaultsAsStrings sample_sprint (MkParams sample_inputs []) !! 1%nat
    = Some ("tags", "a" +:+ String "010" "b").
Proof. split; vm_compute; reflexivity. Qed.

(** ** Building the stages *)

(** The concrete steps of an entry, and the templates of a step that may mention
    secrets. *)
Definition concrete (e : StepEntry) : list Step := match e_Parallel e with [] => [e_Step e] | l => l end.
Definition secret_templates (st : Step) : list string := s_Run st :: (map_to_list (s_Env st)).*2.

Section build_facts.
Variables (sprint : val → string) (parse_template : string → res (list node)) (jobShell : option (list string)).

Abbreviation built_as idx stage st := (buildOneClaimStep sprint idx stage st jobShell).

(** [st] asks for the secret [name]. *)
Definition asks (st : Step) (name : string) : Prop :=
  ∃ tpl names, tpl ∈ secret_templates st ∧ ReferencedSecretNames parse_template tpl = Ok names ∧ name ∈ names.

Lemma collect_names_ok tpl seen seen' :
  collectSecretNames parse_template tpl seen = (seen', None) →
  ∃ names, ReferencedSecretNames parse_template tpl = Ok names ∧ seen' = seen ∪ list_to_set names.
Proof. unfold collectSecretNames. case_match; naive_solver. Qed.

Lemma prefixed_none pre r s : prefixed pre r = (s, None) ↔ r = (s, None).
Proof. destruct r as [? [?|]]; unfold prefixed; simpl; naive_solver. Qed.

Lemma until_cons {S A} (f : S → A → S * option text) s x l s' :
  until f s (x :: l) = (s', None) ↔ ∃ s1, f s x = (s1, None) ∧ until f s1 l = (s', None).
Proof. simpl. destruct (f s x) as [s1 [e|]]; naive_solver. Qed.

Lemma collect_all_ok (pre : string * string → text) env seen seen' :
  until (λ n kv, prefixed (pre kv) (collectSecretNames parse_template kv.2 n)) seen env = (seen', None) →
  ∀ s, s ∈ seen' ↔ s ∈ seen ∨ ∃ tpl names, tpl ∈ env.*2 ∧ ReferencedSecretNames parse_template tpl = Ok names ∧ s ∈ names.
Proof.
  revert seen. induction env as [|kv env IH]; intros seen.
  - intros [= <-] s. csimpl. set_solver.
  - intros (s1 & (names & Hn & ->)%prefixed_none%collect_names_ok & Hr)%until_cons s.
    rewrite (IH _ Hr), elem_of_union, elem_of_list_to_set. csimpl. setoid_rewrite elem_of_cons. split.
    + intros [[?|?]|(tpl & ns & ? & ? & ?)]; [by left|right; exists kv.2, names; auto|right; exists tpl, ns; auto].
    + intros [?|(tpl & ns & [->|?] & Hns & ?)]; [by left; left|rewrite Hn in Hns; injection Hns as ->; by left; right|right; exists tpl, ns; auto].
Qed.

Lemma collect_step_ok st needed needed' :
  collect_step parse_template st needed = (needed', None) → ∀ s, s ∈ needed' ↔ s ∈ needed ∨ asks st s.
Proof.
  unfold collect_step. destruct (prefixed _ _) as [n1 [e|]] eqn:E; [done|].
  apply prefixed_none, collect_names_ok in E as (names & Hn & ->).
  intros H s. rewrite (collect_all_ok _ _ _ _ H), elem_of_union, elem_of_list_to_set.
  unfold asks, secret_templates. setoid_rewrite elem_of_cons. split.
  - intros [[?|?]|(tpl & ns & ? & ? & ?)]; [by left|right; exists (s_Run st), names; auto|right; exists tpl, ns; auto].
  - intros [?|(tpl & ns & [->|?] & Hns & ?)]; [by left; left|rewrite Hn in Hns; injection Hns as ->; by left; right|right; exists tpl, ns; auto].
Qed.

(** [steps] are the claim steps of [sts], numbered from [idx]; [stages] names
    their stages. *)
Definition numbered (idx : Z) (sts : list Step) (steps : list ClaimStep) : Prop :=
  length steps = length sts ∧
  ∀ (k : nat) st, sts !! k = Some st → ∃ stage, steps !! k = Some (built_as (idx + Z.of_nat k)%Z stage st).

(** What the claim step of [st] carries, field by field. *)
Record carries (idx : Z) (st : Step) (cs : ClaimStep) : Prop := {
  ca_index : cl_Index cs = idx;
  ca_own : (cl_Name cs, cl_If cs, cl_Env cs, cl_Run cs, cl_Outputs cs) = (s_Name st, s_If st, s_Env st, s_Run st, s_Outputs st);
  ca_kind : (cl_Cache cs, cl_Upload cs, cl_Download cs) = (s_Cache st, s_Upload st, s_Download st);
  ca_flow : (cl_Post cs, cl_ContinueOnError cs, cl_Retry cs, cl_TimeoutMinutes cs)
            = (s_Post st, s_ContinueOnError st, s_Retry st, s_TimeoutMinutes st);
  ca_place : (cl_Container cs, cl_ScopeID cs, cl_ScopeImage cs, cl_ScopeResourceLimits cs)
             = (s_Container st, s_ScopeID st, s_ScopeImage st, s_ScopeResourceLimits st);
  ca_call : cl_Call cs = match s_Uses st with
                         | Some u => Some (MkClaimCall (us_Job u) (list_to_map (withAsStrings sprint (us_With u))))
                         | None => (λ c, MkClaimCall (cs_Job c) (list_to_map (withAsStrings sprint (cs_With c)))) <$> s_Call st
                         end;
  ca_matrix : cl_Matrix cs = match s_Matrix st with
                             | Some m => Some (MkClaimMatrix (mx_Dimensions m) (mx_Exclude m))
                             | None => (λ f, MkClaimMatrix [MkMatrixDimension (fd_Key f) (fd_Source f)] []) <$> s_Foreach st
                             end;
  ca_single : cl_MatrixValues cs = None ∧ cl_MatrixKey cs = "";
  ca_approval : match s_Approval st, cl_Approval cs with
                | Some a, Some p => cp_Message p = ap_Message a ∧
                    (QArith_base.Qeq (ap_TimeoutMinutes a) (whole_minutes 0) → cp_TimeoutMinutes p = whole_minutes 60) ∧
                    (¬ QArith_base.Qeq (ap_TimeoutMinutes a) (whole_minutes 0) → cp_TimeoutMinutes p = ap_TimeoutMinutes a)
                | None, None => True
                | _, _ => False
                end;
  ca_shell : cl_Shell cs = if negb (bool_decide (default [] (s_Shell st) = [])) then s_Shell st
                           else if negb (bool_decide (default [] jobShell = [])) then jobShell else None
}.

Lemma built_carries idx stage st : carries idx st (built_as idx stage st).
Proof.
  split; try done.
  - simpl. destruct (s_Approval st) as [[m t]|]; [|done]. simpl. split; [done|].
    unfold QArith_base.Qeq, whole_minutes. simpl. rewrite Z.mul_1_r. split; [by intros ->|].
    intros Hne. change (QArith_base.Qnum t ≠ 0%Z) in Hne. by rewrite (proj2 (Z.eqb_neq _ _) Hne).
  - simpl. unfold resolveShell. by destruct (s_Shell st) as [[]|], jobShell as [[]|].
Qed.

(** [stage] is the stage numbered [i], made of the entry [e]. *)
Definition shaped (i : Z) (e : StepEntry) (stage : ClaimStage) : Prop :=
  Forall (λ cs, cl_StageIndex cs = i) (StageSteps stage) ∧ length (StageSteps stage) = length (concrete e) ∧
  match e_Parallel e with [] => ∃ cs, stage = MkStage (Some cs) [] | _ => sg_Step stage = None end.

Definition staged (i : Z) (entries : list StepEntry) (stages : list ClaimStage) : Prop :=
  length stages = length entries ∧
  ∀ (k : nat) e, entries !! k = Some e → ∃ stage, stages !! k = Some stage ∧ shaped (i + Z.of_nat k) e stage.

Lemma children_shaped i b sts b' :
  until (build_child sprint parse_template i jobShell) b sts = (b', None) →
  ∃ new, bd_steps b' = bd_steps b ++ new ∧ Forall (λ cs, cl_StageIndex cs = i) new ∧ length new = length sts.
Proof.
  revert b. induction sts as [|st sts IH]; intros b.
  { intros [= <-]. exists []. by rewrite app_nil_r. }
  intros (b1 & H1 & (new & Hnew & Hf & Hl)%IH)%until_cons. unfold build_child in H1.
  destruct (collect_step _ st _) as [needed [e|]]; [done|]. injection H1 as <-. simpl in Hnew.
  eexists (_ :: new). rewrite Hnew, <-app_assoc. split; [done|]. split; [by constructor|]. simpl. by f_equal.
Qed.

Lemma build_from_staged i b entries b' :
  build_from sprint parse_template i jobShell b entries = (b', None) →
  ∃ new, bt_stages b' = bt_stages b ++ new ∧ staged i entries new.
Proof.
  revert i b. induction entries as [|e entries IH]; intros i b; cbn [build_from].
  { intros [= <-]. exists []. by rewrite app_nil_r. }
  destruct (build_entry _ _ i jobShell b e) as [b1 [err|]] eqn:E; [done|]. intros (new & Hnew & Hl & Hs)%IH.
  assert (∃ stage, bt_stages b1 = bt_stages b ++ [stage] ∧ shaped i e stage) as (stage & E1 & Hsh).
  { unfold build_entry in E. unfold shaped, concrete. destruct (e_Parallel e) as [|st sts].
    - destruct (collect_step _ _ _) as [needed [err|]]; [done|]. injection E as <-. eexists. split; [done|].
      split_and!; [by repeat constructor|done|by eexists].
    - destruct (until _ _ _) as [g [err|]] eqn:Eu; [done|]. injection E as <-.
      apply children_shaped in Eu as (cs & Hcs & Hf & Hlen). simpl in Hcs. eexists. split; [done|]. rewrite Hcs.
      split_and!; done. }
  exists (stage :: new). rewrite Hnew, E1, <-app_assoc. split; [done|]. split; [simpl; by f_equal|].
  intros [|k] e'; [intros [= <-]; exists stage; split; [done|]; by rewrite Z.add_0_r|].
  intros (stage' & ? & Hk)%Hs. exists stage'. split; [done|]. by replace (i + Z.of_nat (S k))%Z with (i + 1 + Z.of_nat k)%Z by lia.
Qed.

Lemma build_stages_staged entries idx needed b :
  buildStages sprint parse_template entries idx needed jobShell = (b, None) → staged 0 entries (bt_stages b).
Proof. by intros (new & -> & ?)%build_from_staged. Qed.

Lemma numbered_carries idx sts steps : numbered idx sts steps →
  length steps = length sts ∧
  ∀ (k : nat) st, sts !! k = Some st → ∃ cs, steps !! k = Some cs ∧ carries (idx + Z.of_nat k) st cs.
Proof.
  intros [L H]. split; [done|]. intros k st (stage & Hs)%H. eexists. split; [done|]. apply built_carries.
Qed.

Lemma numbered_nil idx : numbered idx [] [].
Proof. done. Qed.

Lemma numbered_app idx sts1 sts2 steps1 steps2 :
  numbered idx sts1 steps1 → numbered (idx + Z.of_nat (length sts1))%Z sts2 steps2 →
  numbered idx (sts1 ++ sts2) (steps1 ++ steps2).
Proof.
  intros [L1 H1] [L2 H2]. split; [rewrite !length_app; lia|].
  intros k st [Hk|[Hk Hst]]%lookup_app_Some.
  - destruct (H1 _ _ Hk) as [stage ?]. exists stage. by apply lookup_app_l_Some.
  - destruct (H2 _ _ Hst) as [stage Hs]. exists stage. rewrite lookup_app_r, L1, Hs by lia. do 2 f_equal. lia.
Qed.

Lemma numbered_one idx stage st : numbered idx [st] [built_as idx stage st].
Proof.
  split; [done|]. intros [|k] st'; [|done]. intros [= <-]. exists stage. simpl. do 2 f_equal. lia.
Qed.

Lemma built_as_entry idx stage st : built_as idx stage (stepToStepEntry st) = built_as idx stage st.
Proof. done. Qed.

(** What a run of the builder over [sts] leaves, whether it was stopped or not:
    the steps built are a prefix of [sts] in order, the index never falls behind
    them. *)
Lemma build_children_ok stage b sts b' :
  until (build_child sprint parse_template stage jobShell) b sts = (b', None) →
  ∃ new, bd_steps b' = bd_steps b ++ new ∧ numbered (bd_idx b) sts new ∧
    bd_idx b' = (bd_idx b + Z.of_nat (length sts))%Z ∧
    ∀ s, s ∈ bd_needed b' ↔ s ∈ bd_needed b ∨ ∃ st, st ∈ sts ∧ asks st s.
Proof.
  revert b. induction sts as [|st sts IH]; intros b.
  { intros [= <-]. exists []. rewrite app_nil_r. split_and!; [done..|simpl; lia|]. set_solver. }
  intros (b1 & H1 & Hr)%until_cons. unfold build_child in H1.
  destruct (collect_step _ st _) as [needed [e|]] eqn:E; [done|]. injection H1 as <-.
  pose proof (collect_step_ok _ _ _ E) as Hs.
  apply IH in Hr as (new & Hnew & Hnum & Hidx & Hneed). simpl in *.
  exists (built_as (bd_idx b) stage st :: new). split_and!.
  - rewrite Hnew, <-app_assoc. by rewrite built_as_entry.
  - apply (numbered_app _ [st] sts [_] new); [apply numbered_one|]. simpl. by replace (Z.of_nat 1) with 1%Z by lia.
  - rewrite Hidx. lia.
  - intros s. rewrite Hneed, Hs. setoid_rewrite elem_of_cons. naive_solver.
Qed.

Lemma build_entry_ok stage b e b' :
  build_entry sprint parse_template stage jobShell b e = (b', None) →
  ∃ new, (bt_stages b' ≫= StageSteps) = (bt_stages b ≫= StageSteps) ++ new ∧ numbered (bt_idx b) (concrete e) new ∧
    bt_idx b' = (bt_idx b + Z.of_nat (length (concrete e)))%Z ∧
    ∀ s, s ∈ bt_needed b' ↔ s ∈ bt_needed b ∨ ∃ st, st ∈ concrete e ∧ asks st s.
Proof.
  unfold build_entry, concrete. destruct (e_Parallel e) as [|c cs].
  - destruct (collect_step _ _ _) as [needed [err|]] eqn:E; [done|]. intros [= <-]. simpl.
    exists [built_as (bt_idx b) stage (e_Step e)]. rewrite bind_app. csimpl. split_and!; [done|apply numbered_one|done|].
    intros s. rewrite (collect_step_ok _ _ _ E). set_solver.
  - destruct (until _ _ _) as [g [err|]] eqn:E; [done|]. intros [= <-].
    apply build_children_ok in E as (new & Hnew & Hnum & Hidx & Hneed). simpl in *. exists new.
    rewrite bind_app. csimpl. rewrite app_nil_r. unfold StageSteps. simpl. by rewrite Hnew.
Qed.

Lemma build_from_ok stage b entries b' :
  build_from sprint parse_template stage jobShell b entries = (b', None) →
  ∃ new, (bt_stages b' ≫= StageSteps) = (bt_stages b ≫= StageSteps) ++ new ∧
    numbered (bt_idx b) (entries ≫= concrete) new ∧
    bt_idx b' = (bt_idx b + Z.of_nat (length (entries ≫= concrete)))%Z ∧
    ∀ s, s ∈ bt_needed b' ↔ s ∈ bt_needed b ∨ ∃ st, st ∈ entries ≫= concrete ∧ asks st s.
Proof.
  revert stage b. induction entries as [|e entries IH]; intros stage b.
  { intros [= <-]. exists []. rewrite app_nil_r. split_and!; [done..|simpl; lia|]. set_solver. }
  csimpl. destruct (build_entry _ _ _ _ _ e) as [b1 [err|]] eqn:E; [done|]. intros Hr.
  apply build_entry_ok in E as (n1 & H1 & Hn1 & Hi1 & Hs1).
  apply IH in Hr as (n2 & H2 & Hn2 & Hi2 & Hs2). exists (n1 ++ n2).
  rewrite length_app. split_and!.
  - by rewrite H2, H1, app_assoc.
  - apply numbered_app; [done|]. by rewrite <-Hi1.
  - rewrite Hi2, Hi1. lia.
  - intros s. rewrite Hs2, Hs1. setoid_rewrite elem_of_app. naive_solver.
Qed.

Lemma build_stages_ok entries idx needed b :
  buildStages sprint parse_template entries idx needed jobShell = (b, None) →
  numbered idx (entries ≫= concrete) (bt_stages b ≫= StageSteps) ∧
  bt_idx b = (idx + Z.of_nat (length (entries ≫= concrete)))%Z ∧
  ∀ s, s ∈ bt_needed b ↔ s ∈ needed ∨ ∃ st, st ∈ entries ≫= concrete ∧ asks st s.
Proof. intros (new & -> & ? & ? & ?)%build_from_ok. done. Qed.

Lemma numbered_index idx sts steps :
  numbered idx sts steps → cl_Index <$> steps = seqZ idx (Z.of_nat (length sts)).
Proof.
  intros [L H]. apply list_eq. intros k. rewrite list_lookup_fmap.
  destruct (sts !! k) as [st|] eqn:E.
  - destruct (H k st E) as [stage ->]. symmetry. apply lookup_lt_Some in E.
    apply lookup_seqZ. simpl. lia.
  - apply lookup_ge_None in E. rewrite lookup_seqZ_ge by lia.
    rewrite (proj2 (lookup_ge_None steps k)) by lia. done.
Qed.
End build_facts.

Lemma then_built_ok r b : then_built r = Ok b ↔ r = (b, None).
Proof. destruct r as [? [?|]]; simpl; naive_solver. Qed.

(** The stages of a specification that can be claimed. *)
Lemma secret_names_built sprint parse_template json_error spec needed :
  secretNamesForRun sprint parse_template json_error (Some spec) = Ok needed →
  ∃ b1 b2, buildStages sprint parse_template (sp_Steps spec) 0 ∅ (sp_Shell spec) = (b1, None) ∧
    buildStages sprint parse_template (sp_Finally spec) (bt_idx b1) (bt_needed b1) (sp_Shell spec) = (b2, None) ∧
    needed = bt_needed b2 ∧
    numbered sprint (sp_Shell spec) 0 ((sp_Steps spec ++ sp_Finally spec) ≫= concrete)
      ((bt_stages b1 ++ bt_stages b2) ≫= StageSteps) ∧
    ∀ s, s ∈ needed ↔ ∃ st, st ∈ (sp_Steps spec ++ sp_Finally spec) ≫= concrete ∧ asks parse_template st s.
Proof.
  unfold secretNamesForRun. simpl.
  intros (b1 & H1%then_built_ok & (b2 & H2%then_built_ok & [= <-])%bind_ok)%bind_ok.
  exists b1, b2. split_and!; [done..| |].
  - rewrite !bind_app. apply build_stages_ok in H1 as (? & Hi & _). apply build_stages_ok in H2 as (? & _ & _).
    apply numbered_app; [done|]. by rewrite <-Hi.
  - intros s. apply build_stages_ok in H1 as (_ & _ & Hs1). apply build_stages_ok in H2 as (_ & _ & Hs2).
    rewrite Hs2, Hs1, bind_app. setoid_rewrite elem_of_app. set_solver.
Qed.

(** C13: A claim is the run's specification, neither more nor less.  The steps
    an agent receives are the concrete steps of the specification, main before
    finally, in order and numbered from 0 without gaps, each carrying every field
    of its own step ([carries]: a [uses:] wins over a [call:], a [matrix:] over a
    [foreach:], an approval waits 60 minutes unless it says otherwise, the job's
    shell stands in for a step's); every entry is one stage, in order, a parallel
    group a stage of its children; a variable of the job overrides the global one of
    the same name; the secrets named are exactly those the scripts and environments
    of the steps ask for; the secrets the agent may later fetch are the same; and
    the step list shown to users has one row for each of these steps, under the
    same number and name, and one for each sidecar. *)
Theorem claim_faithful (sprint : val → string) (parse_template : string → res (list node))
    (ET : string → TemplateData → res string) (json_error : text) (c : ClaimedRun) (spec : Spec)
    (globalVars : gmap string string) (resp : ClaimResponse) :
  cr_Spec c = Some spec → buildClaimResponse sprint parse_template ET json_error c globalVars = Ok resp →
  let sts := (sp_Steps spec ++ sp_Finally spec) ≫= concrete in
  let steps := (c_Stages resp ++ c_Finally resp) ≫= StageSteps in
  (length steps = length sts ∧
   ∀ (k : nat) st, sts !! k = Some st → ∃ cs, steps !! k = Some cs ∧ carries sprint (sp_Shell spec) (Z.of_nat k) st cs) ∧
  staged 0 (sp_Steps spec) (c_Stages resp) ∧ staged 0 (sp_Finally spec) (c_Finally resp) ∧
  (c_RunID resp, c_JobName resp, c_Params resp, c_JobOutputs resp)
    = (cr_ID c, cr_JobName c, cr_Params c, ou_Name <$> pa_Outputs (sp_Params spec)) ∧
  (c_PodTemplate resp, c_Native resp, c_CleanWorkspace resp) = (sp_PodTemplate spec, sp_Native spec, sp_CleanWorkspace spec) ∧
  ExpandVolumes ET (sp_Volumes spec) (cr_Params c) = Ok (c_Volumes resp) ∧
  (∀ name, c_Vars resp !! name = match sp_Vars spec !! name with Some v => Some v | None => globalVars !! name end) ∧
  (∀ s, s ∈ c_SecretsNeeded resp ↔ ∃ st, st ∈ sts ∧ asks parse_template st s) ∧
  (∃ needed, secretNamesForRun sprint parse_template json_error (cr_Spec c) = Ok needed ∧
             ∀ s, s ∈ needed ↔ s ∈ c_SecretsNeeded resp) ∧
  (λ p, (st_Index p, st_StageIndex p, st_Name p, st_Section p, st_Status p)) <$> plannedSteps sprint parse_template spec
    = ((λ cs, (cl_Index cs, cl_StageIndex cs, cl_Name cs, "main", "Pending")) <$> (c_Stages resp ≫= StageSteps))
      ++ ((λ cs, (cl_Index cs, cl_StageIndex cs, cl_Name cs, "finally", "Pending")) <$> (c_Finally resp ≫= StageSteps))
      ++ imap (λ k name, (SidecarLogIndex (Z.of_nat k), 0%Z, name, "sidecars", "Running")) (SidecarContainerNames (sp_PodTemplate spec)).
Proof.
  intros Hspec. unfold buildClaimResponse. rewrite Hspec. simpl.
  intros (_ & (_ & (vs & Hv%wrap_ok & (b1 & H1 & (b2 & H2 & [= <-])%bind_ok)%bind_ok)%bind_ok)%then_ok)%then_ok.
  assert (secretNamesForRun sprint parse_template json_error (Some spec) = Ok (bt_needed b2)) as Hn
    by (unfold secretNamesForRun; simpl; rewrite H1; simpl; by rewrite H2).
  apply then_built_ok in H1, H2.
  destruct (secret_names_built _ _ _ _ _ Hn) as (b1' & b2' & E1 & E2 & _ & Hnum & Hneed).
  rewrite H1 in E1. injection E1 as <-. rewrite H2 in E2. injection E2 as <-. simpl.
  split; [exact (numbered_carries sprint (sp_Shell spec) 0 _ _ Hnum)|].
  split_and!; [by eapply build_stages_staged|by eapply build_stages_staged|done|done|done| | | |].
  - intros name. rewrite lookup_union. destruct (sp_Vars spec !! name), (globalVars !! name); done.
  - intros s. by rewrite elem_of_elements.
  - exists (bt_needed b2). split; [done|]. intros s. by rewrite elem_of_elements.
  - unfold plannedSteps. rewrite H1. simpl. rewrite H2. simpl. rewrite !fmap_app, fmap_imap, <-!list_fmap_compose. done.
Qed.

Definition sample_build : Step :=
  MkStep "build" "" {["TOKEN" := "{{ secrets.REGISTRY }}"]} "make" ∅ None None None None None None None false "" None "" ""
    None (whole_minutes 0) None None None None.
Definition sample_notify : Step :=
  MkStep "notify" "" ∅ "curl {{ .Secrets.HOOK }}" ∅ None None None None None None None false "" None "" ""
    None (whole_minutes 0) None None None None.
Definition sample_stored : Spec :=
  MkSpec (MkParams [] []) None [] [MkStepEntry Step_zero [sample_build; sample_build]] [MkStepEntry sample_notify []]
    None false false false None [] "" {["REGION" := "eu"]}.
(** A parser that knows the templates above. *)
Definition sample_parse (tpl : string) : res (list node) :=
  if (tpl =? "{{ index .Secrets " +:+ SecretRefs.Quote "REGISTRY" +:+ " }}")%string
  then Ok [NAction (NPipe [[NIdentifier "index"; NField ["Secrets"]; NString "REGISTRY"]])]
  else if HasPrefix tpl "curl" then Ok [NAction (NPipe [[NField ["Secrets"; "HOOK"]]])] else Ok [NOther].

Lemma claim_faithful_witness :
  ∃ resp, buildClaimResponse sample_sprint sample_parse (λ s _, Ok s) [] (MkClaimedRun "r1" "ci" ∅ (Some sample_stored))
            {["REGION" := "us"; "STAGE" := "dev"]} = Ok resp
    ∧ cl_Name <$> ((c_Stages resp ++ c_Finally resp) ≫= StageSteps) = ["build"; "build"; "notify"]
    ∧ c_Vars resp !! "REGION" = Some "eu" ∧ "HOOK" ∈ c_SecretsNeeded resp
    ∧ staged 0 [MkStepEntry Step_zero [sample_build; sample_build]] (c_Stages resp).
Proof.
  eexists. split; [vm_compute; reflexivity|]. split_and!; [reflexivity..| |].
  - apply (bool_decide_unpack _). vm_compute. exact I.
  - apply (claim_faithful sample_sprint sample_parse (λ s _, Ok s) []
      (MkClaimedRun "r1" "ci" ∅ (Some sample_stored)) sample_stored {["REGION" := "us"; "STAGE" := "dev"]});
      [reflexivity|vm_compute; reflexivity].
Defined.

(** ** The step list *)

Lemma filter_index_other {A} (idx : A → Z) i (l : list A) :
  (∀ x, x ∈ l → idx x ≠ i) → filter (λ x, idx x = i) l = [].
Proof.
  intros H. induction l as [|x l IH]; [done|]. rewrite filter_cons_False by (apply H; left).
  apply IH. intros y Hy. apply H. by right.
Qed.

Lemma filter_index_same {A} (idx : A → Z) i (l : list A) :
  (∀ x, x ∈ l → idx x = i) → filter (λ x, idx x = i) l = l.
Proof.
  intros H. induction l as [|x l IH]; [done|]. rewrite filter_cons_True by (apply H; left).
  f_equal. apply IH. intros y Hy. apply H. by right.
Qed.

(** Expanding entries of distinct numbers into rows of the same number. *)
Lemma filter_index_bind (f : StepReport → list StepReport) i (l : list StepReport) :
  NoDup (st_Index <$> l) → (∀ p x, x ∈ f p → st_Index x = st_Index p) →
  filter (λ x, st_Index x = i) (l ≫= f) =
    match list_find (λ p, st_Index p = i) l with Some (_, p) => f p | None => [] end.
Proof.
  intros Hd Hf. induction l as [|p l IH]; [done|]. csimpl in *. apply NoDup_cons in Hd as [Hp Hd].
  rewrite filter_app, (IH Hd). destruct (decide (st_Index p = i)) as [<-|Hne].
  - rewrite (filter_index_same st_Index) by eauto.
    assert (list_find (λ q, st_Index q = st_Index p) l = None) as ->; [|by rewrite app_nil_r].
    apply list_find_None, Forall_forall. intros q Hq E. apply Hp, list_elem_of_fmap. eauto.
  - rewrite (filter_index_other st_Index) by (intros x Hx%Hf; congruence). simpl.
    by destruct (list_find _ l) as [[? ?]|].
Qed.

Lemma sidecar_indexes k0 names :
  st_Index <$> imap (λ k, planned_sidecar (k0 + k)) names
    = seqZ (SidecarLogIndexBase + Z.of_nat k0) (Z.of_nat (length names)).
Proof.
  revert k0. induction names as [|n names IH]; intros k0; [done|]. csimpl. rewrite Nat2Z.inj_succ, seqZ_cons by lia.
  f_equal; [unfold SidecarLogIndex; simpl; f_equal; lia|].
  rewrite Z.pred_succ. replace (Z.succ (SidecarLogIndexBase + Z.of_nat k0)) with (SidecarLogIndexBase + Z.of_nat (S k0))%Z by lia.
  rewrite <-IH. f_equal. apply imap_ext. intros. simpl. f_equal. lia.
Qed.

(** The numbers of the planned rows: the steps from 0, the sidecars from their base. *)
Lemma planned_indexes sprint parse_template json_error spec needed :
  secretNamesForRun sprint parse_template json_error (Some spec) = Ok needed →
  st_Index <$> plannedSteps sprint parse_template spec =
    seqZ 0 (Z.of_nat (length ((sp_Steps spec ++ sp_Finally spec) ≫= concrete)))
      ++ seqZ SidecarLogIndexBase (Z.of_nat (length (SidecarContainerNames (sp_PodTemplate spec)))).
Proof.
  intros (b1 & b2 & H1 & H2 & _ & Hnum & _)%secret_names_built.
  unfold plannedSteps. rewrite H1. simpl. rewrite H2. simpl.
  rewrite !fmap_app, app_assoc. f_equal.
  - apply numbered_index in Hnum. rewrite <-Hnum, bind_app, fmap_app, <-!list_fmap_compose. done.
  - rewrite <-(Z.add_0_r SidecarLogIndexBase). apply (sidecar_indexes 0).
Qed.

Lemma planned_nodup sprint parse_template json_error spec needed :
  secretNamesForRun sprint parse_template json_error (Some spec) = Ok needed →
  (Z.of_nat (length ((sp_Steps spec ++ sp_Finally spec) ≫= concrete)) ≤ SidecarLogIndexBase)%Z →
  NoDup (st_Index <$> plannedSteps sprint parse_template spec).
Proof.
  intros Hn Hle. rewrite (planned_indexes _ _ _ _ _ Hn). apply NoDup_app.
  split_and!; [apply NoDup_seqZ| |apply NoDup_seqZ]. intros i. rewrite !elem_of_seqZ. lia.
Qed.

(** A run's step list loses no report and invents none.  Under each number
    the list shows the rows reported under it, in order, with the kind, section
    and matrix flag of the plan, or the one planned row while nothing is
    reported; rows under a number that is not planned are shown as reported.  The
    planned numbers are the steps' and the sidecars'. *)
Theorem merged_steps_exact (sprint : val → string) (parse_template : string → res (list node)) (json_error : text)
    (reported : list StepReport) (spec : Spec) (needed : gset string) (i : Z) :
  secretNamesForRun sprint parse_template json_error (Some spec) = Ok needed →
  let n := Z.of_nat (length ((sp_Steps spec ++ sp_Finally spec) ≫= concrete)) in
  (n ≤ SidecarLogIndexBase)%Z →
  let rows := filter (λ r, st_Index r = i) reported in
  let planned := list_find (λ p, st_Index p = i) (plannedSteps sprint parse_template spec) in
  filter (λ r, st_Index r = i) (mergedRunSteps sprint parse_template reported spec) =
    match planned with
    | Some (_, p) => match rows with [] => [p] | _ => overlay p <$> rows end
    | None => rows
    end
  ∧ (is_Some planned ↔
       (0 ≤ i < n)%Z ∨
       (SidecarLogIndexBase ≤ i < SidecarLogIndexBase + Z.of_nat (length (SidecarContainerNames (sp_PodTemplate spec))))%Z).
Proof.
  intros Hn n Hle rows planned.
  pose proof (planned_nodup _ _ _ _ _ Hn Hle) as Hd. pose proof (planned_indexes _ _ _ _ _ Hn) as Hidx.
  assert (is_Some planned ↔ i ∈ st_Index <$> plannedSteps sprint parse_template spec) as Hp.
  { subst planned. rewrite list_elem_of_fmap. split.
    - intros [[k p] (Hk & <- & _)%list_find_Some]. exists p. split; [done|]. by eapply list_elem_of_lookup_2.
    - intros (p & -> & Hin). eapply list_find_elem_of; [done|]. done. }
  split; [|rewrite Hp, Hidx, elem_of_app, !elem_of_seqZ; subst n; lia].
  unfold mergedRunSteps. rewrite filter_app, filter_index_bind; [|done|].
  2: { intros p x. case_match eqn:E; [by intros ->%list_elem_of_singleton|].
       intros (r & -> & Hr)%list_elem_of_fmap. simpl. rewrite <-E in Hr. by apply list_elem_of_filter in Hr as [-> _]. }
  fold planned. destruct planned as [[k p]|] eqn:E.
  - rewrite (filter_index_other st_Index i (filter _ _)).
    + rewrite app_nil_r. apply list_find_Some in E as (_ & E & _). unfold rows. rewrite E. by destruct (filter _ reported).
    + intros x [Hx _]%list_elem_of_filter <-. apply Hx, Hp. eauto.
  - simpl. rewrite list_filter_filter. apply list_filter_iff. intros r. split; [naive_solver|].
    intros <-. split; [done|]. intros Hx%Hp. by apply is_Some_None in Hx.
Qed.

Lemma merged_steps_exact_witness :
  let report := MkStepReport 1 0 "build" "Failed" "" "" false None in
  mergedRunSteps sample_sprint sample_parse [report] sample_stored
  = [MkStepReport 0 0 "build" "Pending" "run" "main" false None; MkStepReport 1 0 "build" "Failed" "run" "main" false None;
     MkStepReport 2 0 "notify" "Pending" "run" "finally" false None]
  ∧ filter (λ r, st_Index r = 1%Z) (mergedRunSteps sample_sprint sample_parse [report] sample_stored)
    = [overlay (MkStepReport 1 0 "build" "Pending" "run" "main" false None) report].
Proof.
  split; [vm_compute; reflexivity|].
  apply (merged_steps_exact sample_sprint sample_parse [] [MkStepReport 1 0 "build" "Failed" "" "" false None]
           sample_stored {["REGISTRY"; "HOOK"]} 1%Z); [vm_compute; reflexivity|vm_compute; discriminate].
Defined.
