(* ===== verification/Schedulability.v ===== *)
(** * internal/controller: can a job ever be claimed

    [schedulability.go]: the verdict shown with a job, on the agents of the
    inventory, against the rule by which the store really hands runs out
    ([StoreRuns.claimable]). *)

From S2P Require Import Prelude GoStrings DslTypes DslSecurity DslMatrix StoreRuns.
From stdpp Require Import options.

(** ** The verdict *)

Record Schedulability := MkSchedulability {
  sc_RequiredCaps : list string;
  sc_Selector : list string;
  sc_Satisfiable : bool;
  sc_Reason : text;
  sc_SelectorDependsOnParams : bool;
  sc_RequiredVolumes : list (list string);
  sc_VolumesDependOnParams : bool
}.

Definition templated (s : string) : bool := Contains s "{{".

(** [judgeableVolumes]: the sets of literal candidates, and whether another was
    dropped. *)
Definition judgeableVolumes (sets : list (list string)) : list (list string) * bool :=
  (filter (λ set, existsb templated set = false) sets, existsb (existsb templated) sets).

Definition setCovered (agentVolumes set : list string) : bool := existsb (λ n, bool_decide (n ∈ agentVolumes)) set.
Definition volumesCover (agentVolumes : list string) (sets : list (list string)) : bool :=
  forallb (setCovered agentVolumes) sets.
Definition setDeclaredBy (agents : list agent) (set : list string) : bool :=
  existsb (λ a, setCovered (a_volumes a) set) agents.

Definition capsCover (agentCaps : option (list string)) (required : list string) : bool :=
  covers required (NormalizeCapabilities (default LegacyAgentCapabilities agentCaps)).
Definition labelsCover (agentLabels selector : list string) : bool := covers selector agentLabels.

(** [%v] of a list of strings, [%q] of one, and [%q] of a list of lists. *)
Definition list_v (l : list string) : text := [Lit "["; Lit (Join " " l); Lit "]"].
Definition list_q (l : list string) : text :=
  [Lit "["] ++ concat (imap (λ i s, (if (i =? 0)%nat then [] else [Lit " "]) ++ [Quo s]) l) ++ [Lit "]"].
Definition lists_q (l : list (list string)) : text :=
  [Lit "["] ++ concat (imap (λ i s, (if (i =? 0)%nat then [] else [Lit " "]) ++ list_q s) l) ++ [Lit "]"].

Definition reasonNoAgent (agents : list agent) (req sel : list string) (vols : list (list string)) : text :=
  match list_find (λ set, setDeclaredBy agents set = false) vols with
  | Some (_, [v]) => [Lit "no agent declares volume "; Quo v]
  | Some (_, set) => [Lit "no agent declares any of the volumes "] ++ list_q set
  | None =>
      if negb (existsb (λ a, capsCover (a_caps a) req) agents)
      then [Lit "no registered agent provides capability "] ++ list_v req
      else if negb (existsb (λ a, capsCover (a_caps a) req && labelsCover (a_labels a) sel) agents)
      then [Lit "no registered agent matches labels "] ++ list_v sel
      else [Lit "no single agent that provides capability "] ++ list_v req ++ [Lit " and matches labels "] ++ list_v sel
           ++ [Lit " declares all of the volumes "] ++ lists_q vols
  end.

Definition can_run (req sel : list string) (vols : list (list string)) (a : agent) : bool :=
  capsCover (a_caps a) req && labelsCover (a_labels a) sel && volumesCover (a_volumes a) vols.

Definition EvaluateSchedulability (gosyntax : val → string) (spec : Spec) (agents : list agent) : Schedulability :=
  let req := RequiredCaps gosyntax spec in
  let reqVols := RequiredVolumes spec in
  let '(vols, volsDependOnParams) := judgeableVolumes reqVols in
  let sel := sp_AgentSelector spec in
  let dependsOnParams := existsb templated sel in
  let staticSel := filter (λ s, templated s = false) sel in
  let satisfiable := existsb (can_run req staticSel vols) agents in
  MkSchedulability req sel satisfiable (if satisfiable then [] else reasonNoAgent agents req staticSel vols)
    dependsOnParams reqVols volsDependOnParams.

(** ** The selector of a run *)

Section selector.
Variable ExpandTemplate : string → TemplateData → res string.

(** [dsl.ExpandAgentSelector] *)
Definition ExpandAgentSelector (selector : list string) (params : gmap string string) : res (list string) :=
  imap_res 0 (λ i s, wrap [Lit "agentSelector["; Lit (pretty i); Lit "]: "] (ExpandTemplate s (params_only params))) selector.

(** [degenerateSelectorElement]: the first element no label can match. *)
Definition degenerate (s : string) : bool := (s =? "")%string || HasPrefix s ":" || HasSuffix s ":".
Definition degenerateSelectorElement (sel : list string) : option string :=
  snd <$> list_find (λ s, degenerate s = true) sel.
End selector.

(** ** The verdict against the claim *)

Lemma covers_elem req av : covers req av = true ↔ ∀ x, x ∈ req → x ∈ av.
Proof. unfold covers. rewrite forallb_forall. setoid_rewrite <-list_elem_of_In. setoid_rewrite bool_decide_eq_true. done. Qed.

Lemma set_covered_elem av set : setCovered av set = true ↔ ∃ n, n ∈ set ∧ n ∈ av.
Proof. unfold setCovered. rewrite existsb_elem. setoid_rewrite bool_decide_eq_true. done. Qed.

Lemma volumes_cover_elem av sets : volumesCover av sets = true ↔ ∀ set, set ∈ sets → ∃ n, n ∈ set ∧ n ∈ av.
Proof.
  unfold volumesCover. rewrite forallb_forall. setoid_rewrite <-list_elem_of_In.
  setoid_rewrite set_covered_elem. done.
Qed.

Lemma volumes_free_elem req av busy :
  volumes_free req av busy = true ↔ ∀ set, set ∈ req → ∃ n, n ∈ set ∧ n ∈ av ∧ (n ∉ busy).
Proof.
  unfold volumes_free. rewrite forallb_forall. setoid_rewrite <-list_elem_of_In. setoid_rewrite existsb_elem.
  setoid_rewrite andb_true_iff. setoid_rewrite negb_true_iff. setoid_rewrite bool_decide_eq_true.
  setoid_rewrite bool_decide_eq_false. done.
Qed.

Lemma imap_res_lookup {A B} (f : nat → A → res B) i l l' (k : nat) x :
  imap_res i f l = Ok l' → l !! k = Some x → ∃ y, l' !! k = Some y ∧ f (i + k)%nat x = Ok y.
Proof.
  revert i l' k. induction l as [|a l IH]; intros i l' k; [done|].
  simpl. intros (y & Hy & (ys & Hys & [= <-])%bind_ok)%bind_ok. destruct k as [|k]; simpl.
  - intros [= <-]. exists y. by rewrite Nat.add_0_r.
  - intros Hk. destruct (IH _ _ _ Hys Hk) as (z & ? & ?). exists z. by rewrite Nat.add_succ_r.
Qed.

Lemma imap_res_back {A B} (f : nat → A → res B) i l l' (k : nat) y :
  imap_res i f l = Ok l' → l' !! k = Some y → ∃ x, l !! k = Some x ∧ f (i + k)%nat x = Ok y.
Proof.
  revert i l' k. induction l as [|a l IH]; intros i l' k; simpl; [by intros [= <-]|].
  intros (b & Hb & (ys & Hys & [= <-])%bind_ok)%bind_ok. destruct k as [|k]; simpl.
  - intros [= <-]. exists a. by rewrite Nat.add_0_r.
  - intros Hk. destruct (IH _ _ _ Hys Hk) as (z & ? & ?). exists z. by rewrite Nat.add_succ_r.
Qed.

Section agreement.
Variable ET : string → TemplateData → res string.
(** A text without an action is its own expansion. *)
Hypothesis ET_plain : ∀ s data, templated s = false → ET s data = Ok s.

Lemma expand_selector_static selector params out s :
  ExpandAgentSelector ET selector params = Ok out → templated s = false → s ∈ selector → s ∈ out.
Proof using ET_plain.
  intros H Hs [k Hk]%list_elem_of_lookup. destruct (imap_res_lookup _ _ _ _ _ _ H Hk) as (y & Hy & Hw).
  apply wrap_ok in Hw. rewrite ET_plain in Hw by done. injection Hw as <-. by eapply list_elem_of_lookup_2.
Qed.

Lemma plain_names i (pre : nat → text) names params out :
  imap_res i (λ j n, wrap (pre j) (ET n (params_only params))) names = Ok out →
  existsb templated names = false → out = names.
Proof using ET_plain.
  intros H Hs. apply list_eq. intros k. destruct (names !! k) as [s|] eqn:Hk.
  - destruct (imap_res_lookup _ _ _ _ _ _ H Hk) as (y & -> & Hw). apply wrap_ok in Hw.
    rewrite ET_plain in Hw; [by injection Hw as <-|]. eapply existsb_false_elem; [done|]. by eapply list_elem_of_lookup_2.
  - destruct (out !! k) as [y|] eqn:Hy; [|done].
    destruct (imap_res_back _ _ _ _ _ _ H Hy) as (x & Hx & _). congruence.
Qed.

Lemma expand_volumes_static vs params out v :
  ExpandVolumes ET vs params = Ok out → v ∈ vs → existsb templated (vm_Name v) = false →
  vm_Name v ∈ vm_Name <$> out.
Proof using ET_plain.
  intros H [k Hk]%list_elem_of_lookup Hs. destruct (imap_res_lookup _ _ _ _ _ _ H Hk) as (y & Hy & Hf).
  apply bind_ok in Hf as (names & ->%plain_names & [= <-]); [|done].
  apply list_elem_of_fmap. eexists. split; [|by eapply list_elem_of_lookup_2]. done.
Qed.

Lemma expand_volumes_back vs params out w :
  ExpandVolumes ET vs params = Ok out → w ∈ out → ∃ v, v ∈ vs ∧
    (existsb templated (vm_Name v) = false → vm_Name w = vm_Name v).
Proof using ET_plain.
  intros H [k Hk]%list_elem_of_lookup. destruct (imap_res_back _ _ _ _ _ _ H Hk) as (v & Hv & Hf).
  exists v. split; [by eapply list_elem_of_lookup_2|]. intros Hs.
  by apply bind_ok in Hf as (names & ->%plain_names & [= <-]).
Qed.
End agreement.

(** Capabilities as registration and claims store them. *)
Definition normalized (caps : option (list string)) : Prop :=
  NormalizeCapabilities (default LegacyAgentCapabilities caps) = default LegacyAgentCapabilities caps.

(** [r] is a queued run of [spec] with the parameters [params]. *)
Definition queued_of (gosyntax : val → string) (ET : string → TemplateData → res string) (spec : Spec)
    (params : gmap string string) (r : run) : Prop :=
  r_status r = RunQueued ∧ r_detached r = sp_Detached spec ∧ r_caps r = RequiredCaps gosyntax spec ∧
  ExpandAgentSelector ET (sp_AgentSelector spec) params = Ok (r_selector r) ∧
  ∃ vs, ExpandVolumes ET (sp_Volumes spec) params = Ok vs ∧ r_volumes r = vm_Name <$> vs.

(** The verdict on a job predicts what agents may claim.  A job declared
    unsatisfiable has, whatever its parameters, no run that an agent of the
    inventory could claim, with whatever part of its labels and however idle.  A
    satisfiable job without templates in its selector and volumes has an agent
    that, when idle, may claim each of its queued runs. *)
Theorem schedulability_exact (gosyntax : val → string) (ET : string → TemplateData → res string) (spec : Spec) (d : db) :
  (∀ s data, templated s = false → ET s data = Ok s) →
  (∀ id a, d_agents d !! id = Some a → normalized (a_caps a)) →
  let verdict := EvaluateSchedulability gosyntax spec (map_to_list (d_agents d)).*2 in
  (sc_Satisfiable verdict = false → ∀ params r id a labels busy,
     queued_of gosyntax ET spec params r → d_agents d !! id = Some a → (∀ l, l ∈ labels → l ∈ a_labels a) →
     claimable d id labels busy (sp_Detached spec) r = false) ∧
  (sc_Satisfiable verdict = true → sc_SelectorDependsOnParams verdict = false → sc_VolumesDependOnParams verdict = false →
     ∃ id a, d_agents d !! id = Some a ∧ ∀ params r, queued_of gosyntax ET spec params r →
       claimable d id (a_labels a) [] (sp_Detached spec) r = true).
Proof.
  intros HET Hnorm verdict.
  assert (∀ id a req, d_agents d !! id = Some a →
            capsCover (a_caps a) req = covers req (default LegacyAgentCapabilities (a_caps a))) as Hcaps
    by (intros id a req Ha; unfold capsCover; by rewrite (Hnorm _ _ Ha)).
  split.
  - intros Hsat params r id a labels busy (Hst & Hdet & Hc & Hsel & vs & Hvs & Hv) Ha Hlab.
    apply not_true_iff_false. unfold claimable. rewrite Ha, Hv, Hc. simpl. rewrite !andb_true_iff. intros ((((_ & _) & Hl) & Hcap) & Hvol).
    apply (existsb_false_elem (can_run _ _ _) _) with (x := a) in Hsat.
    2: { apply list_elem_of_fmap. exists (id, a). by rewrite elem_of_map_to_list. }
    apply not_true_iff_false in Hsat. apply Hsat. unfold can_run. rewrite !andb_true_iff. split_and!.
    + rewrite (Hcaps _ _ _ Ha). exact Hcap.
    + apply covers_elem. intros s [Hs Hin]%list_elem_of_filter. apply Hlab. rewrite covers_elem in Hl. apply Hl.
      by eapply expand_selector_static.
    + apply volumes_cover_elem. intros set [Hs Hin]%list_elem_of_filter.
      apply list_elem_of_fmap in Hin as (v & -> & Hin). rewrite volumes_free_elem in Hvol.
      destruct (Hvol (vm_Name v)) as (n & ? & ? & _); [by eapply expand_volumes_static|eauto].
  - intros Hsat Hsd Hvd.
    apply existsb_elem in Hsat as (a & ([id a'] & -> & Ha%elem_of_map_to_list)%list_elem_of_fmap & Hcan). simpl in *.
    exists id, a'. split; [done|]. intros params r (Hst & Hdet & Hc & Hsel & vs & Hvs & Hv).
    unfold can_run in Hcan. rewrite !andb_true_iff in Hcan. destruct Hcan as ((Hcap & Hl) & Hvol).
    unfold claimable. rewrite Ha, Hv, Hc, Hst, Hdet. simpl. rewrite !andb_true_iff. split_and!; [by apply eqb_true_iff| | |].
    + apply plain_names in Hsel as ->; [|done..]. unfold labelsCover in Hl. rewrite covers_elem in Hl |- *.
      intros s Hs. apply Hl, list_elem_of_filter. split; [|done]. by eapply existsb_false_elem.
    + by rewrite <-(Hcaps _ _ _ Ha).
    + apply volumes_free_elem. intros set (w & -> & Hw)%list_elem_of_fmap.
      destruct (expand_volumes_back _ HET _ _ _ _ Hvs Hw) as (v & Hin & Hname).
      assert (existsb templated (vm_Name v) = false) as Hlit.
      { eapply (existsb_false_elem (existsb templated)); [exact Hvd|]. apply list_elem_of_fmap. eauto. }
      rewrite (Hname Hlit). rewrite volumes_cover_elem in Hvol. destruct (Hvol (vm_Name v)) as (n & ? & ?).
      { apply list_elem_of_filter. split; [done|]. apply list_elem_of_fmap. eauto. }
      exists n. split_and!; [done..|apply not_elem_of_nil].
Qed.

Definition sample_job (sel : list string) (vols : list VolumeMount) : Spec :=
  MkSpec (MkParams [] []) None sel [] [] None false false false None vols "" ∅.
Definition sample_fleet : db := set_agents {["h1" := MkAgent ["linux"] None ["lib"] 0]} db_empty.
Definition identity_ET : string → TemplateData → res string := λ s _, Ok s.
Definition sample_queued_run (vols : list VolumeMount) : run :=
  MkRun "ci" RunQueued ∅ None ["linux"] [CapContainer] (vm_Name <$> vols) false None None 0.

Lemma schedulability_exact_witness :
  (∀ busy, claimable sample_fleet "h1" ["linux"] busy false
             (sample_queued_run [MkVolumeMount ["tools"] "T" "/t"]) = false)
  ∧ ∃ id a, d_agents sample_fleet !! id = Some a
      ∧ claimable sample_fleet id (a_labels a) [] false (sample_queued_run [MkVolumeMount ["lib"; "x"] "L" "/l"]) = true.
Proof.
  assert (∀ id a, d_agents sample_fleet !! id = Some a → normalized (a_caps a)) as Hn.
  { intros id a. unfold sample_fleet, set_agents. cbn [d_agents]. rewrite lookup_singleton_Some. by intros [_ <-]. }
  split.
  - intros busy. destruct (schedulability_exact (λ _, "") identity_ET
      (sample_job ["linux"] [MkVolumeMount ["tools"] "T" "/t"]) sample_fleet (λ _ _ _, eq_refl) Hn) as [H _].
    apply (H eq_refl ∅ _ "h1" (MkAgent ["linux"] None ["lib"] 0)); [|reflexivity|done].
    split_and!; [reflexivity..|]. eexists. split; reflexivity.
  - destruct (schedulability_exact (λ _, "") identity_ET
      (sample_job ["linux"] [MkVolumeMount ["lib"; "x"] "L" "/l"]) sample_fleet (λ _ _ _, eq_refl) Hn) as [_ H].
    destruct (H eq_refl eq_refl eq_refl) as (id & a & Ha & Hc). exists id, a. split; [exact Ha|].
    apply (Hc ∅). split_and!; [reflexivity..|]. eexists. split; reflexivity.
Defined.
