(* ===== verification/AgentClaim.v ===== *)
(** * internal/controller: handing runs out

    The claim and heartbeat endpoints of the agents ([api_agent.go]): the
    inventory row each refreshes, one poll of the claim's long poll, and the
    reconciliation of the runs an agent no longer executes.  A run taken from the
    queue is never left behind ([no_stranded_claim]).

    The handler of a poll makes one store call at a time ([serve_next]); between
    two of them, and between two polls, anything may happen to the database that
    [StoreLife] lets happen.  The lines it appends to the run's log are not rows of
    [db] ([LogStore] has them): its phase says what is appended. *)

From S2P Require Import Prelude GoStrings DslTypes DslSecurity DslMatrix SecretRefs StoreRuns StoreLocks StoreLife StoreSpec RunControl RunControlFacts AgentSteps ClaimBuild.
From stdpp Require Import options.

(** ** The inventory row *)

(** [UpsertAgentOnClaim], on the columns modelled; what is empty in the claim is
    kept, labels accumulate. *)
Definition keep_if_empty {A} (new old : list A) : list A := match new with [] => old | _ => new end.
Definition advertised (caps : list string) (old : option (list string)) : option (list string) :=
  match caps with [] => old | _ => Some caps end.
Definition UpsertAgentOnClaim (agentID : string) (labels caps volumes : list string) (now : Z) (d : db) : db :=
  set_agents (partial_alter (λ old, Some match old with
    | None => MkAgent labels (advertised caps None) volumes now
    | Some a => MkAgent (remove_dups (a_labels a ++ labels)) (advertised caps (a_caps a))
                  (keep_if_empty volumes (a_volumes a)) now
    end) agentID (d_agents d)) d.

(** [TouchAgent], which re-creates a missing row without labels. *)
Definition TouchAgent (agentID : string) (now : Z) (d : db) : bool * db :=
  (negb (bool_decide (is_Some (d_agents d !! agentID))),
   set_agents (partial_alter (λ old, Some match old with
     | None => MkAgent [] None [] now
     | Some a => MkAgent (a_labels a) (a_caps a) (a_volumes a) now
     end) agentID (d_agents d)) d).

(** ** Claiming *)

(** What loading the global variables gives: the map, a store error, or a
    manifest that does not decode. *)
Inductive vars_load :=
| VarsOk (m : gmap string string)
| VarsTransient (e : text)
| VarsCorrupt (e : text).

(** [mergedGlobalVars], over the manifests by name. *)
Abbreviation var_rows := (text + list (string * (text + gmap string string)))%type.
Definition mergedGlobalVars (recs : var_rows) : vars_load :=
  match recs with
  | inl e => VarsTransient e
  | inr recs =>
      match fold_res (λ merged rec, match rec.2 with
              | inl e => Err ([Lit "vars manifest "; Quo rec.1;
                               Lit " is stored corrupt and cannot be decoded (fix or delete it — every claim reads it): "] ++ e)
              | inr vars => Ok (vars ∪ merged)
              end) ∅ recs with
      | Ok merged => VarsOk merged
      | Err e => VarsCorrupt e
      end
  end.

(** An answer to a poll. *)
Inductive claim_answer :=
| NoRun
| Answer (resp : ClaimResponse)
| PollError.

Definition with_matrix_max (n : Z) (c : ClaimResponse) : ClaimResponse :=
  MkClaim (c_RunID c) (c_JobName c) (c_Params c) (c_Vars c) (c_Stages c) (c_Finally c) (c_JobOutputs c)
    (c_SecretsNeeded c) (c_PodTemplate c) (c_Native c) (c_CleanWorkspace c) n (c_Volumes c).

(** What becomes of a run taken from the queue: it is handed out, given back or
    failed, with the reason. *)
Inductive reply := RAnswer (c : ClaimResponse) | RRequeue (e : text) | RFail (e : text).

(** Where the handler of a poll is: the store call it makes next. *)
Inductive serving :=
| PollRun
| LoadVars (id : runid) (r : run)
| GiveBack (id : runid) (e : text)
| NoteFailure (id : runid) (e : text)
| InterruptSteps (id : runid)
| FailRun (id : runid)
| CancelChildren (visited : gset runid) (queue children : list runid)
| Answered (ans : claim_answer).

(** The statements that may fail. *)
Inductive statement := StClaim | StRequeue | StInterrupt | StFinish.

Section claims.
Variables (visit_runs : gmap runid run → list (runid * run))
          (visit : gmap (runid * Z * string) report → list ((runid * Z * string) * report))
          (lists marks : runid → bool)
          (uuid : runid → string) (sprint : val → string) (parse_template : string → res (list node))
          (ExpandTemplate : string → TemplateData → res string) (json_error : text) (matrixMax : Z).

Definition claimed_run (id : runid) (r : run) : ClaimedRun :=
  MkClaimedRun (uuid id) (r_job r) (r_params r) (r_spec r).

Definition claim_reply (recs : var_rows) (id : runid) (r : run) : reply :=
  match mergedGlobalVars recs with
  | VarsTransient e => RRequeue e
  | VarsCorrupt e => RFail e
  | VarsOk globals =>
      match buildClaimResponse sprint parse_template ExpandTemplate json_error (claimed_run id r) globals with
      | Err e => RFail e
      | Ok resp => RAnswer (with_matrix_max matrixMax resp)
      end
  end.

(** The next store call of a poll of [handleAgentClaim]; detached claims send no busy
    volumes.  [ok] says which statements succeed; a cancelled request fails them all.
    The last three calls but the answer are [failOrphanedRun]'s. *)
Definition serve_next (ok : statement → bool) (locked : runid → bool) (detached : bool) (labels busy : list string)
    (recs : var_rows) (agentID : string) (now : Z) (x : serving * db) : serving * db :=
  let '(p, d) := x in
  match p with
  | PollRun =>
      if negb (ok StClaim) then (Answered PollError, d)
      else match (if detached then ClaimNextRunDetached visit_runs locked agentID labels now d
                  else ClaimNextRun visit_runs locked agentID labels busy now d) with
           | (None, d) => (Answered NoRun, d)
           | (Some (id, r), d) => (LoadVars id r, d)
           end
  | LoadVars id r =>
      (match claim_reply recs id r with
       | RAnswer c => Answered (Answer c)
       | RRequeue e => GiveBack id e
       | RFail e => NoteFailure id e
       end, d)
  | GiveBack id e =>
      if ok StRequeue then (Answered NoRun, (RequeueClaimedRun id agentID d).2) else (NoteFailure id e, d)
  | NoteFailure id _ => (InterruptSteps id, d)
  | InterruptSteps id =>
      if ok StInterrupt then (FailRun id, MarkRunStepsInterrupted id now d) else (Answered NoRun, d)
  | FailRun id =>
      if negb (ok StFinish) then (Answered NoRun, d)
      else match MarkRunFinished id RunFailed d with
           | Ok d => (CancelChildren {[id]} [id] [], d)
           | Err _ => (Answered NoRun, d)
           end
  | CancelChildren visited (parent :: queue) [] =>
      (CancelChildren visited queue (if lists parent then ListChildRunIDs visit parent d else []), d)
  | CancelChildren visited queue (child :: children) =>
      let w := visit_child marks (MkWalk visited queue d) child in
      (CancelChildren (wk_visited w) (wk_queue w) children, wk_db w)
  | CancelChildren _ [] [] | Answered _ => (match p with Answered ans => Answered ans | _ => Answered NoRun end, d)
  end.

(** The checks and the write before the first poll. *)
Definition claim_start (agentID : string) (labels caps volumes : list string) (now : Z) (d : db) : Z * db :=
  if forallb ValidCapability caps
  then (200%Z, UpsertAgentOnClaim agentID labels (NormalizeCapabilities caps) volumes now d) else (400%Z, d).

(** ** The heartbeat *)

(** In seconds. *)
Definition heartbeatReconcileGrace : Z := 60.

(** [ListReconcilableRunIDsByAgent] *)
Definition reconcilable (now : Z) (agentID : string) (x : runid * run) : bool :=
  bool_decide (r_claimed_by x.2 = Some agentID ∧ r_status x.2 = RunRunning)
  && match r_claimed_at x.2 with Some at_ => (at_ <? now - heartbeatReconcileGrace)%Z | None => false end.
Definition ListReconcilableRunIDsByAgent (now : Z) (agentID : string) (d : db) : list runid :=
  (filter (λ x, reconcilable now agentID x = true) (visit_runs (d_runs d))).*1.

Fixpoint reconcile_missing (now : Z) (oks : runid → bool * bool) (reported : list runid) (ids : list runid) (d : db)
  : option db :=
  match ids with
  | [] => Some d
  | id :: ids =>
      if bool_decide (id ∈ reported) then reconcile_missing now oks reported ids d
      else '(_, d) ← failOrphanedRun visit lists marks (oks id).1 (oks id).2 now id d;
           reconcile_missing now oks reported ids d
  end.

(** [handleAgentHeartbeat]; [body] is the reported run ids when the request has a
    body that decodes, [list_ok] says whether the listing succeeds. *)
Definition handleAgentHeartbeat (now : Z) (oks : runid → bool * bool) (list_ok : bool) (agentID : string)
    (body : option (list runid)) (d : db) : option db :=
  let '(_, d) := TouchAgent agentID now d in
  match body with
  | None => Some d
  | Some reported =>
      if list_ok then reconcile_missing now oks reported (ListReconcilableRunIDsByAgent now agentID d) d else Some d
  end.
End claims.

(** ** A run taken from the queue is never left behind *)

Section served.
Variables (visit : gmap (runid * Z * string) report → list ((runid * Z * string) * report)) (lists marks : runid → bool).
Hypothesis visit_perm : ∀ m, visit m ≡ₚ map_to_list m.

(** [failOrphanedRun] returns, and fails the run when its writes succeed. *)
Lemma orphan_result ok1 ok2 now id d :
  ∃ b d', failOrphanedRun visit lists marks ok1 ok2 now id d = Some (b, d')
    ∧ touches (descends lists d id) d d'
    ∧ (ok1 && ok2 = true → live d id = true → status_of d' id = Some RunFailed).
Proof using All.
  destruct (failOrphanedRun visit lists marks ok1 ok2 now id d) as [[b d']|] eqn:E.
  - exists b, d'. split; [done|]. split; [by eapply failOrphanedRun_touches|].
    intros [-> ->]%andb_true_iff Hlive. unfold failOrphanedRun, MarkRunFinished, FinishRun in E. simpl in E.
    set (d1 := MarkRunStepsInterrupted id now d) in *.
    destruct (finishRunFrom id None RunFailed d1) as [[b2 d2]|] eqn:E2.
    2: { unfold finishRunFrom in E2. simpl in E2. repeat case_match; done. }
    simpl in E. destruct (cascade_result visit lists marks visit_perm d2 id) as (d3 & E3 & H3).
    rewrite E3 in E. injection E as _ <-.
    apply finishRunFrom_cases in E2 as [_ [(_ & _ & Hno)|(r & _ & Hr & _ & _ & ->)]].
    + unfold live in Hlive. change (d_runs d) with (d_runs d1) in Hlive.
      destruct (d_runs d1 !! id) as [r|]; [|done]. apply negb_true_iff in Hlive.
      destruct (Hno r eq_refl) as [?|[]]; [congruence|done].
    + unfold status_of. rewrite (ca_miss _ _ _ _ H3) by (by intros [[_ []] _]). simpl. by rewrite lookup_insert_eq.
  - exfalso. unfold failOrphanedRun in E. destruct ok1; [|done]. destruct ok2; [|done]. simpl in E.
    destruct (MarkRunFinished id RunFailed _) as [d2|]; [|done].
    destruct (cascade_result visit lists marks visit_perm d2 id) as (d3 & E3 & _). by rewrite E3 in E.
Qed.
End served.

(** ** A poll among everything else *)

Section given.
Context (agentID : string).

(** The run is not, or no longer, in the hands of this claim: it is gone or over, with
    its locks released, waits for another agent, or runs at another agent. *)
Definition given_up (d : db) (id : runid) : Prop :=
  match d_runs d !! id with
  | None => locks_of d id = ∅
  | Some r => match r_status r with
              | RunRunning => r_claimed_by r ≠ Some agentID
              | RunPending | RunQueued => r_claimed_by r = None
              | _ => locks_of d id = ∅
              end
  end.

Lemma inactive_locks y id : sound y → ¬ active_in (y_db y) id → locks_of (y_db y) id = ∅.
Proof using.
  intros Hs Hn. apply leibniz_equiv, equiv_empty. intros l Hl. apply locks_of_spec in Hl. exfalso. apply Hn.
  destruct l as [x|p i]; [by eapply (so_mutex y Hs)|]. apply join_Some in Hl. by eapply (so_slot y Hs).
Qed.

Lemma given_up_when y id : sound y →
  (∀ r, d_runs (y_db y) !! id = Some r → ¬ (r_status r = RunRunning ∧ r_claimed_by r = Some agentID)) → given_up (y_db y) id.
Proof using.
  intros Hs Hn. unfold given_up. pose proof (inactive_locks y id Hs) as Hl. unfold active_in, active in Hl.
  destruct (d_runs (y_db y) !! id) as [r|] eqn:E; [|apply Hl; naive_solver].
  pose proof (so_claim y Hs id r E) as Hc. unfold claim_wf in Hc. specialize (Hn r eq_refl).
  destruct (r_status r) eqn:Es; try (by destruct Hc); try (apply Hl; intros (? & ? & [?|?]); simplify_eq; congruence). naive_solver.
Qed.
End given.

Section handled.
Context (visit_runs : gmap runid run → list (runid * run))
  (visit : gmap (runid * Z * string) report → list ((runid * Z * string) * report)) (lists marks : runid → bool)
  (uuid : runid → string) (sprint : val → string) (parse_template : string → res (list node))
  (ET : string → TemplateData → res string) (json_error : text) (matrixMax : Z)
  (ETq : string → TemplateData → res string) (js : string → option (list string)) (caps : Spec → list string)
  (ok : statement → bool) (locked : runid → bool) (detached : bool) (labels busy : list string) (recs : var_rows) (agentID : string).
Hypothesis visit_runs_perm : ∀ m, visit_runs m ≡ₚ map_to_list m.
Hypothesis visit_perm : ∀ m, visit m ≡ₚ map_to_list m.

Abbreviation next now := (serve_next visit_runs visit lists marks uuid sprint parse_template ET json_error matrixMax ok locked detached labels busy recs agentID now).
Abbreviation given_up := (given_up agentID).
Abbreviation given_up_when := (given_up_when agentID).
Abbreviation replied := (claim_reply uuid sprint parse_template ET json_error matrixMax recs).
Abbreviation reach := (StoreLife.reach ETq js caps visit_runs).
Abbreviation store_step := (StoreLife.store_step ETq js caps visit_runs).

(** The states of a poll, the last one first, each with where the handler is: its
    calls, in any order with other steps of the store. *)
Inductive handled : list (serving * sys) → Prop :=
| hd_start y : reach y → handled [(PollRun, y)]
| hd_other p y y' h : handled ((p, y) :: h) → store_step y y' → handled ((p, y') :: (p, y) :: h)
| hd_call p y now h : handled ((p, y) :: h) → handled (((next now (p, y_db y)).1, on_db (next now (p, y_db y)).2 y) :: (p, y) :: h).

(** *** Each call is a step of the store *)

Lemma finish_reach y id d : reach y → MarkRunFinished id RunCancelled (y_db y) = Ok d ∨ MarkRunFinished id RunFailed (y_db y) = Ok d → reach (on_db d y).
Proof using -(visit_runs_perm visit_perm).
  intros Hr H. eapply reach_step; [exact Hr|]. unfold MarkRunFinished, FinishRun in H.
  destruct H as [H|H]; apply bind_ok in H as ([b d'] & E & [= <-]); by eapply SS_finish.
Qed.

Lemma child_reach y w c : reach y → wk_db w = y_db y → reach (on_db (wk_db (visit_child marks w c)) y).
Proof using -(visit_runs_perm visit_perm).
  intros Hr E. unfold visit_child. case_bool_decide; cbn; rewrite ?E; [by destruct y|]. unfold mark_cancelled.
  destruct (marks c); [|by destruct y]. destruct (MarkRunFinished c RunCancelled (y_db y)) eqn:Ef; [|by destruct y]. eapply finish_reach; [done|by left].
Qed.

Lemma poll_claim_reach y now : reach y →
  reach (on_db (if detached then ClaimNextRunDetached visit_runs locked agentID labels now (y_db y)
                else ClaimNextRun visit_runs locked agentID labels busy now (y_db y)).2 y).
Proof using -(visit_runs_perm visit_perm). intros Hr. eapply reach_step; [exact Hr|]. destruct detached; apply SS_claim. Qed.

Lemma next_reach now p y : reach y → reach (on_db (next now (p, y_db y)).2 y).
Proof using -(visit_runs_perm visit_perm).
  intros Hr. pose proof (poll_claim_reach y now Hr) as Hc. assert (on_db (y_db y) y = y) as Eid by by destruct y.
  destruct p as [|id r|id e|id e|id|id|vis [|q queue] [|c children]|ans]; cbn [serve_next snd]; rewrite ?Eid; try done.
  - destruct (ok StClaim); cbn [negb snd]; [|by rewrite Eid].
    destruct (if detached then _ else _) as [[[id r]|] d]; exact Hc.
  - destruct (ok StRequeue); cbn [snd]; [|by rewrite Eid]. eapply reach_step; [exact Hr|]. apply SS_requeue.
  - destruct (ok StInterrupt); cbn [snd]; [|by rewrite Eid]. eapply reach_step; [exact Hr|]. apply SS_interrupt.
  - destruct (ok StFinish); cbn [negb snd]; [|by rewrite Eid]. destruct (MarkRunFinished id RunFailed (y_db y)) eqn:Ef; cbn [snd]; [|by rewrite Eid].
    eapply finish_reach; [done|by right].
  - by apply (child_reach y (MkWalk vis [] (y_db y))).
  - by apply (child_reach y (MkWalk vis (q :: queue) (y_db y))).
Qed.

(** *** What is known at each call *)

Abbreviation entry := (serving * sys)%type.

(** The run of [id] was taken at some point of the history; [Q] holds of what came after. *)
Definition taken (id : runid) (r : run) (h : list entry) (Q : list entry → Prop) : Prop :=
  ∃ h1 y1 h2, h = h1 ++ (LoadVars id r, y1) :: h2 ∧ Forall (λ x, x.1 = PollRun) h2 ∧
    d_runs (y_db y1) !! id = Some r ∧ r_status r = RunRunning ∧ r_claimed_by r = Some agentID ∧ Q h1.

Definition parted (h : list entry) (id : runid) : Prop := ∃ p y, (p, y) ∈ h ∧ given_up (y_db y) id.
Definition noted (h : list entry) (id : runid) (e : text) : Prop := ∃ y, (NoteFailure id e, y) ∈ h.
Definition failing (id : runid) (r : run) (e : text) : Prop :=
  replied id r = RFail e ∨ replied id r = RRequeue e ∧ ok StRequeue = false.

Definition known (p : serving) (h : list entry) : Prop :=
  match p with
  | PollRun => Forall (λ x, x.1 = PollRun) h
  | LoadVars id r => taken id r h (λ _, True)
  | GiveBack id e => ∃ r, taken id r h (λ _, replied id r = RRequeue e)
  | NoteFailure id e => ∃ r, taken id r h (λ h1, failing id r e ∧ noted h1 id e)
  | InterruptSteps id => ∃ r e, taken id r h (λ h1, failing id r e ∧ noted h1 id e)
  | FailRun id => ∃ r e, taken id r h (λ h1, failing id r e ∧ noted h1 id e ∧ ok StInterrupt = true)
  | CancelChildren _ _ _ => ∃ id r e, taken id r h (λ h1, failing id r e ∧ noted h1 id e ∧ parted h1 id)
  | Answered PollError => Forall (λ x, x.1 = PollRun ∨ x.1 = Answered PollError) h
  | Answered NoRun =>
      Forall (λ x, x.1 = PollRun ∨ x.1 = Answered NoRun) h ∨
      ∃ id r, taken id r h (λ h1,
        (∃ e, replied id r = RRequeue e ∧ ok StRequeue = true ∧ parted h1 id) ∨
        ∃ e, failing id r e ∧ noted h1 id e ∧ (ok StInterrupt && ok StFinish = true → parted h1 id))
  | Answered (Answer c) => ∃ id r, taken id r h (λ _, replied id r = RAnswer c)
  end.

Lemma taken_cons id r x h (Q Q' : list entry → Prop) : taken id r h Q → (∀ h1, Q h1 → Q' (x :: h1)) → taken id r (x :: h) Q'.
Proof using -(visit_runs_perm visit_perm). intros (h1 & y1 & h2 & -> & ? & ? & ? & ? & ?) HQ. exists (x :: h1), y1, h2. split_and!; auto. Qed.
Lemma parted_cons x h id : parted h id → parted (x :: h) id.
Proof using -(visit_runs_perm visit_perm). intros (p & y & ? & ?). exists p, y. split; [by right|done]. Qed.
Lemma noted_cons x h id e : noted h id e → noted (x :: h) id e.
Proof using -(visit_runs_perm visit_perm). intros (y & ?). exists y. by right. Qed.
Hint Resolve parted_cons noted_cons : core.

(** It stays known while other steps go on. *)
Lemma known_other p y h : known p h → known p ((p, y) :: h).
Proof using -(visit_runs_perm visit_perm).
  intros H. destruct p as [|id r|id e|id e|id|id|vis queue children|[|c|]]; cbn in *.
  - by constructor.
  - by eapply taken_cons.
  - destruct H as [r H]. exists r. by eapply taken_cons.
  - destruct H as [r H]. exists r. eapply taken_cons; [exact H|]. intros h1 [? ?]; auto.
  - destruct H as (r & e & H). exists r, e. eapply taken_cons; [exact H|]. intros h1 H1; destruct_and! H1; auto.
  - destruct H as (r & e & H). exists r, e. eapply taken_cons; [exact H|]. intros h1 H1; destruct_and! H1; auto.
  - destruct H as (id' & r & e & H). exists id', r, e. eapply taken_cons; [exact H|]. intros h1 (? & ? & ?); auto.
  - destruct H as [H|(id & r & H)]; [left; constructor; auto|right]. exists id, r. eapply taken_cons; [exact H|].
    intros h1 [(e & ? & ? & ?)|(e & ? & ? & ?)]; [left|right]; exists e; auto.
  - destruct H as (id & r & H). exists id, r. by eapply taken_cons.
  - constructor; auto.
Qed.

Lemma known_claim now y h : known PollRun h → reach y →
  known (next now (PollRun, y_db y)).1 (((next now (PollRun, y_db y)).1, on_db (next now (PollRun, y_db y)).2 y) :: h).
Proof using -(visit_perm).
  intros H Hr. cbn [serve_next]. cbn in H. assert (∀ ans, Forall (λ x, x.1 = PollRun ∨ x.1 = Answered ans) h) as Hh by (intros ans; eapply Forall_impl; [exact H|auto]).
  destruct (ok StClaim); cbn [negb fst]; [|constructor; auto].
  assert (claimNextRun visit_runs locked agentID labels (if detached then [] else busy) detached now (y_db y)
    = if detached then ClaimNextRunDetached visit_runs locked agentID labels now (y_db y) else ClaimNextRun visit_runs locked agentID labels busy now (y_db y)) as <- by by destruct detached.
  pose proof (claim_cases visit_runs visit_runs_perm locked agentID labels (if detached then [] else busy) detached now (y_db y)) as Hc. cbv zeta in Hc.
  destruct (claimNextRun _ _ _ _ _ _ _ _) as [[[id r]|] d]; cbn [fst snd].
  - destruct Hc as (r0 & _ & _ & Er & -> & _). exists [], (on_db (set_runs <[id := r]> (y_db y)) y), h.
    split_and!; [done|done|cbn; apply lookup_insert_eq|by rewrite Er..|done].
  - left. constructor; auto.
Qed.

(** After a call that gave the run up, the history has such a state. *)
Lemma parted_here p y h id : given_up (y_db y) id → parted ((p, y) :: h) id.
Proof using -(visit_runs_perm visit_perm). intros. exists p, y. split; [left|done]. Qed.

Lemma requeue_parts y id : sound (on_db (RequeueClaimedRun id agentID (y_db y)).2 y) → given_up (RequeueClaimedRun id agentID (y_db y)).2 id.
Proof using -(visit_runs_perm visit_perm).
  intros Hs. apply (given_up_when _ id Hs). cbn. unfold RequeueClaimedRun. intros r Hr [H1 H2].
  destruct (d_runs (y_db y) !! id) as [r0|] eqn:E; cbn in Hr; [|congruence]. case_bool_decide as Hb; cbn in Hr; [rewrite lookup_insert_eq in Hr; by simplify_eq|].
  rewrite E in Hr. injection Hr as ->. by apply Hb.
Qed.

Lemma finish_parts y id d : sound (on_db d y) → MarkRunFinished id RunFailed (y_db y) = Ok d → given_up d id.
Proof using -(visit_runs_perm visit_perm).
  intros Hs H. apply (given_up_when _ id Hs). cbn. unfold MarkRunFinished, FinishRun in H.
  apply bind_ok in H as ([b d'] & E & [= <-]). apply finishRunFrom_cases in E as [_ [(_ & -> & Hno)|(r & _ & Hr & _ & _ & ->)]].
  - intros r Hr [H1 _]. destruct (Hno r Hr) as [Ht|[]]; [by rewrite H1 in Ht|done].
  - intros x Hx [H1 _]. cbn in Hx. rewrite lookup_insert_eq in Hx. by injection Hx as <-.
Qed.

Lemma known_call now p y h : known p h → reach y → (∃ h', h = (p, y) :: h') →
  known (next now (p, y_db y)).1 (((next now (p, y_db y)).1, on_db (next now (p, y_db y)).2 y) :: h).
Proof using -(visit_perm).
  intros H Hr Hh. pose proof (reach_sound ETq js caps visit_runs visit_runs_perm _ (next_reach now p y Hr)) as Hs.
  destruct p as [|id r|id e|id e|id|id|vis queue children|ans].
  - by apply known_claim.
  - cbn [serve_next fst snd]. destruct (replied id r) as [c|e|e] eqn:E; cbn in *.
    + exists id, r. by eapply taken_cons.
    + exists r. by eapply taken_cons.
    + exists r. eapply taken_cons; [exact H|]. intros h1 _. split; [by left|]. exists (on_db (y_db y) y). left.
  - destruct H as [r H]. cbn [serve_next] in *. destruct (ok StRequeue) eqn:Ek; cbn [fst snd known] in *.
    + right. exists id, r. eapply taken_cons; [exact H|]. intros h1 He. left. exists e. split; [done|]. split; [done|].
      apply parted_here. by apply requeue_parts.
    + exists r. eapply taken_cons; [exact H|]. intros h1 He. split; [by right|]. exists (on_db (y_db y) y). left.
  - destruct H as [r H]. cbn. exists r, e. eapply taken_cons; [exact H|]. intros h1 H1; destruct_and! H1; auto.
  - destruct H as (r & e & H). cbn [serve_next] in *. destruct (ok StInterrupt) eqn:Ek; cbn [fst snd known] in *.
    + exists r, e. eapply taken_cons; [exact H|]. intros h1 H1; destruct_and! H1; auto.
    + right. exists id, r. eapply taken_cons; [exact H|]. intros h1 [H1 H2]. right. exists e. split_and!; auto. by rewrite Ek.
  - destruct H as (r & e & H). cbn [serve_next] in *. destruct (ok StFinish) eqn:Ek; cbn [negb fst snd known] in *.
    + destruct (MarkRunFinished id RunFailed (y_db y)) as [d|e'] eqn:Ef; cbn [fst snd known] in *.
      * exists id, r, e. eapply taken_cons; [exact H|]. intros h1 (H1 & H2 & _). split_and!; [done|by apply noted_cons|]. apply parted_here. by eapply finish_parts.
      * exfalso. unfold MarkRunFinished, FinishRun in Ef. destruct (finishRunFrom id None RunFailed (y_db y)) as [[b d]|] eqn:E; [done|]. unfold finishRunFrom in E. cbn in E. repeat case_match; done.
    + right. exists id, r. eapply taken_cons; [exact H|]. intros h1 (H1 & H2 & _). right. exists e. split_and!; auto. by rewrite Ek, andb_false_r.
  - destruct H as (id & r & e & H).
    assert (∀ x, taken id r (x :: h) (λ h1, failing id r e ∧ noted h1 id e ∧ parted h1 id)) as Hx by (intros x; eapply taken_cons; [exact H|]; cbv beta; intros h1 (? & ? & ?); auto).
    destruct queue as [|q queue], children as [|c children]; cbn [serve_next fst snd known] in *; [right; exists id, r|exists id, r, e; apply Hx..].
    eapply taken_cons; [exact H|]. intros h1 (H1 & H2 & H3). right. exists e. split_and!; auto.
  - cbn [serve_next fst snd] in *. by apply known_other.
Qed.

Lemma handled_known h : handled h → ∃ p y h', h = (p, y) :: h' ∧ reach y ∧ known p h.
Proof using -(visit_perm).
  induction 1 as [y Hy|p y y' h H (p' & y2 & h' & [= <- <- <-] & Hr & Hk) Hs|p y now h H (p' & y2 & h' & [= <- <- <-] & Hr & Hk)].
  - exists PollRun, y, []. split_and!; [done..|by constructor].
  - exists p, y', ((p, y) :: h). split_and!; [done|by eapply reach_step|]. by apply known_other.
  - eexists _, _, _. split; [done|]. split; [by apply next_reach|]. apply known_call; eauto.
Qed.

(** *** A poll left alone *)

Fixpoint serve_n (n : nat) (now : Z) (x : serving * db) : serving * db :=
  match n with O => x | S n => serve_n n now (next now x) end.
Lemma serve_n_add n m now x : serve_n (n + m) now x = serve_n m now (serve_n n now x).
Proof using -(visit_runs_perm visit_perm). revert x. induction n as [|n IH]; intros x; [done|]. apply IH. Qed.

Lemma serve_children now children : ∀ vis queue d,
  let w := fold_left (visit_child marks) children (MkWalk vis queue d) in
  serve_n (length children) now (CancelChildren vis queue children, d) = (CancelChildren (wk_visited w) (wk_queue w) [], wk_db w).
Proof using -(visit_runs_perm visit_perm).
  induction children as [|c children IH]; intros vis queue d; [done|]. cbn [length serve_n fold_left].
  assert (next now (CancelChildren vis queue (c :: children), d) = (let w := visit_child marks (MkWalk vis queue d) c in (CancelChildren (wk_visited w) (wk_queue w) children, wk_db w))) as -> by by destruct queue.
  rewrite IH. by destruct (visit_child marks (MkWalk vis queue d) c).
Qed.

Lemma serve_cascade now fuel : ∀ w w', cascade visit lists marks fuel w = Some w' →
  ∃ n, serve_n n now (CancelChildren (wk_visited w) (wk_queue w) [], wk_db w) = (Answered NoRun, wk_db w').
Proof using -(visit_runs_perm visit_perm).
  induction fuel as [|fuel IH]; intros [vis queue d] w'; cbn [cascade]; unfold cascade_step; cbn [wk_queue wk_visited wk_db].
  - destruct queue; [|done]. intros [= <-]. by exists 1.
  - destruct queue as [|parent queue]; [intros [= <-]; by exists 1|].
    set (children := if lists parent then ListChildRunIDs visit parent d else []).
    set (w1 := fold_left (visit_child marks) children (MkWalk vis queue d)).
    assert ((if lists parent then fold_left (visit_child marks) (ListChildRunIDs visit parent d) (MkWalk vis queue d) else MkWalk vis queue d) = w1) as ->
      by (unfold w1, children; by destruct (lists parent)).
    intros [n Hn]%IH. exists (1 + (length children + n)). rewrite !serve_n_add. cbn [serve_n serve_next]. fold children. rewrite serve_children. exact Hn.
Qed.

Lemma serve_orphan now id d :
  ∃ n b d', serve_n n now (InterruptSteps id, d) = (Answered NoRun, d') ∧ failOrphanedRun visit lists marks (ok StInterrupt) (ok StFinish) now id d = Some (b, d').
Proof using -(visit_runs_perm).
  destruct (orphan_result visit lists marks visit_perm (ok StInterrupt) (ok StFinish) now id d) as (b & d' & E & _).
  unfold failOrphanedRun in *. destruct (ok StInterrupt) eqn:E1; cbn [negb] in *.
  2: { injection E as <- <-. exists 1, false, d. cbn. by rewrite E1. }
  destruct (ok StFinish) eqn:E2; cbn [negb] in *.
  2: { injection E as <- <-. eexists 2, false, _. cbn [serve_n serve_next]. rewrite E1. cbn [serve_next]. by rewrite E2. }
  destruct (MarkRunFinished id RunFailed _) as [d2|] eqn:E3.
  2: { injection E as <- <-. eexists 2, false, _. cbn [serve_n serve_next]. rewrite E1. cbn [serve_next]. rewrite E2. cbn [negb]. by rewrite E3. }
  unfold cancelDescendantRuns in *. destruct (cascade _ _ _ _ _) as [w|] eqn:E4; [|done]. injection E as <- <-.
  destruct (serve_cascade now _ _ _ E4) as [n Hn]. exists (2 + n), true, (wk_db w). split; [|done].
  rewrite serve_n_add. cbn [serve_n serve_next]. rewrite E1. cbn [serve_next]. rewrite E2. cbn [negb]. rewrite E3. exact Hn.
Qed.

(** It returns, and touches no run outside the tree of the run it took. *)
Lemma serve_alone now d :
  ∃ n ans d', serve_n n now (PollRun, d) = (Answered ans, d') ∧
    (d' = d ∨ match claimNextRun visit_runs locked agentID labels (if detached then [] else busy) detached now d with
              | (None, _) => False
              | (Some (id, r), d1) => touches (descends lists d1 id) d1 d'
              end).
Proof using -(visit_runs_perm).
  destruct (ok StClaim) eqn:Ek.
  2: { exists 1, PollError, d. cbn. rewrite Ek. auto. }
  assert (next now (PollRun, d) = match claimNextRun visit_runs locked agentID labels (if detached then [] else busy) detached now d with
     | (None, d) => (Answered NoRun, d) | (Some (id, r), d) => (LoadVars id r, d) end) as E0 by (cbn; rewrite Ek; by destruct detached).
  destruct (claimNextRun _ _ _ _ _ _ _ _) as [[[id r]|] d1] eqn:Ec.
  2: { exists 1, NoRun, d1. cbn [serve_n]. rewrite E0. split; [done|]. left. unfold claimNextRun in Ec. destruct (oldest _) as [[? ?]|]; [done|]. by injection Ec as <-. }
  assert (∀ e, ∃ n ans d', serve_n n now (NoteFailure id e, d1) = (Answered ans, d') ∧ touches (descends lists d1 id) d1 d') as Hf.
  { intros e. destruct (serve_orphan now id d1) as (n & b & d' & Hn & Ho). exists (S n), NoRun, d'. split; [exact Hn|].
    by eapply failOrphanedRun_touches. }
  assert (∃ n ans d', serve_n n now (LoadVars id r, d1) = (Answered ans, d') ∧ touches (descends lists d1 id) d1 d') as (n & ans & d' & Hn & Ht).
  { destruct (replied id r) as [c|e|e] eqn:Er.
    - exists 1, (Answer c), d1. cbn. by rewrite Er.
    - destruct (ok StRequeue) eqn:Eq.
      + exists 2, NoRun, (RequeueClaimedRun id agentID d1).2. cbn. rewrite Er. cbn. rewrite Eq. split; [done|]. unfold RequeueClaimedRun.
        destruct (d_runs d1 !! id) as [x|]; [|done]. case_bool_decide; [|done]. split; [|done]. intros j Hj. cbn. rewrite lookup_insert_ne; [done|]. intros <-. apply Hj. constructor.
      + destruct (Hf e) as (n & ans & d' & Hn & Ht). exists (2 + n), ans, d'. split; [|done]. rewrite serve_n_add. cbn [serve_n serve_next]. rewrite Er. cbn [serve_next]. by rewrite Eq.
    - destruct (Hf e) as (n & ans & d' & Hn & Ht). exists (1 + n), ans, d'. split; [|done]. rewrite serve_n_add. cbn [serve_n serve_next]. by rewrite Er. }
  exists (S n), ans, d'. cbn [serve_n]. rewrite E0. split; [done|]. by right.
Qed.
End handled.

(** C12: A run taken from the queue is handed out, given back or failed.  The handler
    of a poll makes its store calls one at a time, in any order with everything else
    that happens to the store.  When it has answered: either it took no run; or it
    answers with the run it took, which was Running under the agent's name when it
    took it, built from its stored specification and the global variables; or it
    answers without one, because the variables could not be loaded (it gives the run
    back, and fails it when that statement fails) or the claim cannot be built (it
    fails the run, having first appended the reason to the run's log).  In these cases
    there is a moment since the claim at which the run was out of this claim's hands,
    waiting without a claimant, running at another agent, or over or deleted with its
    locks released, provided the requeue succeeds or, where the run is to be failed,
    the two statements that do it succeed: when they fail too the run stays Running
    until a heartbeat of the agent or a reaper finds it.  Left alone the handler
    always answers, and it writes to no run outside the [call:] tree of the run it
    took. *)
Theorem no_stranded_claim (visit_runs : gmap runid run → list (runid * run))
    (visit : gmap (runid * Z * string) report → list ((runid * Z * string) * report)) (lists marks : runid → bool)
    (uuid : runid → string) (sprint : val → string) (parse_template : string → res (list node))
    (ET : string → TemplateData → res string) (json_error : text) (matrixMax : Z)
    (ETq : string → TemplateData → res string) (js : string → option (list string)) (caps : Spec → list string)
    (ok : statement → bool) (locked : runid → bool) (detached : bool) (labels busy : list string)
    (recs : var_rows) (agentID : string) (now : Z) (d : db) (ans : claim_answer) (y : sys) (h : list (serving * sys)) :
  (∀ m, visit_runs m ≡ₚ map_to_list m) → (∀ m, visit m ≡ₚ map_to_list m) →
  handled visit_runs visit lists marks uuid sprint parse_template ET json_error matrixMax ETq js caps
    ok locked detached labels busy recs agentID ((Answered ans, y) :: h) →
  (Forall (λ x, x.1 = PollRun ∨ x.1 = Answered ans) h ∧ (ans = NoRun ∨ ans = PollError)
   ∨ ∃ id r y1 h1 h2, (Answered ans, y) :: h = h1 ++ (LoadVars id r, y1) :: h2 ∧ Forall (λ x, x.1 = PollRun) h2 ∧
       d_runs (y_db y1) !! id = Some r ∧ r_status r = RunRunning ∧ r_claimed_by r = Some agentID ∧
       match mergedGlobalVars recs, ans with
       | VarsOk globals, Answer c =>
           ∃ resp, buildClaimResponse sprint parse_template ET json_error (claimed_run uuid id r) globals = Ok resp ∧
             c = with_matrix_max matrixMax resp
       | VarsOk globals, NoRun =>
           ∃ e, buildClaimResponse sprint parse_template ET json_error (claimed_run uuid id r) globals = Err e ∧
             noted h1 id e ∧ (ok StInterrupt && ok StFinish = true → parted agentID h1 id)
       | VarsCorrupt e, NoRun => noted h1 id e ∧ (ok StInterrupt && ok StFinish = true → parted agentID h1 id)
       | VarsTransient e, NoRun =>
           if ok StRequeue then parted agentID h1 id
           else noted h1 id e ∧ (ok StInterrupt && ok StFinish = true → parted agentID h1 id)
       | _, _ => False
       end) ∧
  ∃ n ans' d', serve_n visit_runs visit lists marks uuid sprint parse_template ET json_error matrixMax
                 ok locked detached labels busy recs agentID n now (PollRun, d) = (Answered ans', d') ∧
    (d' = d ∨ match claimNextRun visit_runs locked agentID labels (if detached then [] else busy) detached now d with
              | (None, _) => False
              | (Some (id, r), d1) => touches (descends lists d1 id) d1 d'
              end).
Proof.
  intros Hvr Hv H. split; [|by apply serve_alone]. eapply handled_known in H as (p & y' & h' & [= <- <- <-] & _ & Hk); [|done].
  destruct ans as [|c|]; cbn in Hk.
  - destruct Hk as [Hk|(id & r & h1 & y1 & h2 & E & Hp & Hr & Hst & Hby & Hq)]; [left; split; [by apply Forall_cons in Hk as [_ Hk]|by left]|].
    right. exists id, r, y1, h1, h2. split_and!; [done..|]. unfold failing, claim_reply in Hq.
    destruct (mergedGlobalVars recs) as [globals|e|e].
    + destruct (buildClaimResponse _ _ _ _ _ _) as [resp|e]; [naive_solver|]. exists e. split; [done|]. naive_solver.
    + destruct Hq as [(e' & [= ->] & -> & Hpt)|(e' & [?|[[= ->] ->]] & Hn & Hpt)]; [done|done|auto].
    + naive_solver.
  - right. destruct Hk as (id & r & h1 & y1 & h2 & E & Hp & Hr & Hst & Hby & Hq). exists id, r, y1, h1, h2. split_and!; [done..|].
    unfold claim_reply in Hq. destruct (mergedGlobalVars recs) as [globals|e|e]; [|done..]. destruct (buildClaimResponse _ _ _ _ _ _) as [resp|e]; [|done].
    injection Hq as <-. eauto.
  - left. split; [by apply Forall_cons in Hk as [_ Hk]|by right].
Qed.

(** A run that waits, reached in the store. *)
Definition claim_sample : sys :=
  on_db (set_agents {["h1" := MkAgent ["linux"] None [] 0]} db_empty) (MkSys db_empty ∅ []).
Definition claim_sample_created : sys := on_db (CreateRun 7 "ci" ∅ (Some sample_stored) ["linux"] [CapContainer] 5 (y_db claim_sample)) claim_sample.
Definition claim_sample_queued : sys := queue_step sample_ET sample_js (λ _, false) 7 (Some sample_stored) ∅ claim_sample_created.
Lemma claim_sample_reach : reach sample_ET sample_js sample_caps map_to_list claim_sample_queued.
Proof.
  eapply reach_step; [|apply SS_queue]. eapply reach_step; [|by apply SS_create]. eapply reach_step; [apply reach_init|].
  apply SS_agents.
Qed.
Abbreviation sample_next recs := (serve_next map_to_list map_to_list (λ _, true) (λ _, true) (λ _, "run-7") sample_sprint sample_parse
  (λ s _, Ok s) [] 256 (λ _, true) (λ _, false) false ["linux"] [] recs "h1" 100).
Fixpoint sample_history (n : nat) (recs : var_rows) : list (serving * sys) :=
  match n with
  | O => [(PollRun, claim_sample_queued)]
  | S n => match sample_history n recs with
           | (p, y) :: h => ((sample_next recs (p, y_db y)).1, on_db (sample_next recs (p, y_db y)).2 y) :: (p, y) :: h
           | [] => []
           end
  end.
Lemma sample_handled n recs :
  handled map_to_list map_to_list (λ _, true) (λ _, true) (λ _, "run-7") sample_sprint sample_parse (λ s _, Ok s) [] 256
    sample_ET sample_js sample_caps (λ _, true) (λ _, false) false ["linux"] [] recs "h1" (sample_history n recs).
Proof.
  induction n as [|n IH]; [apply hd_start, claim_sample_reach|]. cbn [sample_history]. destruct (sample_history n recs) as [|[p y] h]; [inversion IH|by apply hd_call].
Qed.

(** With a corrupt manifest the run is failed. *)
Lemma no_stranded_claim_witness :
  let h := sample_history 7 (inr [("prod", inl [Lit "bad"])]) in
  (∃ y, head h = Some (Answered NoRun, y) ∧ status_of (y_db y) 7 = Some RunFailed)
  ∧ ∃ id r y1 h1 h2, h = h1 ++ (LoadVars id r, y1) :: h2 ∧ parted "h1" h1 id.
Proof.
  cbv zeta. assert (∃ y h, sample_history 7 (inr [("prod", inl [Lit "bad"])]) = (Answered NoRun, y) :: h ∧ status_of (y_db y) 7 = Some RunFailed
    ∧ existsb (λ x, match x.1 with LoadVars _ _ => true | _ => false end) h = true) as (y & h & E & Hf & Hx).
  { eexists _, _. split; [vm_compute; reflexivity|]. split; vm_compute; reflexivity. }
  pose proof (sample_handled 7 (inr [("prod", inl [Lit "bad"])])) as Hh. rewrite E in *.
  split; [by exists y|].
  destruct (no_stranded_claim map_to_list map_to_list (λ _, true) (λ _, true) (λ _, "run-7") sample_sprint sample_parse (λ s _, Ok s) [] 256
    sample_ET sample_js sample_caps (λ _, true) (λ _, false) false ["linux"] [] _ "h1" 100 db_empty NoRun y h (λ m, reflexivity _) (λ m, reflexivity _) Hh)
    as [[[Hn _]|(id & r & y1 & h1 & h2 & E1 & _ & _ & _ & _ & Hm)] _].
  - exfalso. apply existsb_elem in Hx as ([p y2] & Hin & Hp). pose proof (proj1 (Forall_forall _ _) Hn _ Hin) as Hq. cbn in Hp, Hq. by destruct Hq as [->| ->].
  - exists id, r, y1, h1, h2. split; [exact E1|].
    change (noted h1 id [Lit "vars manifest "; Quo "prod"; Lit " is stored corrupt and cannot be decoded (fix or delete it — every claim reads it): "; Lit "bad"] ∧ (true = true → parted "h1" h1 id)) in Hm. exact (proj2 Hm eq_refl).
Defined.

(** ** The heartbeat *)

Lemma reconcile_missing_touches visit lists marks now oks reported ids d :
  (∀ m, visit m ≡ₚ map_to_list m) →
  ∃ d', reconcile_missing visit lists marks now oks reported ids d = Some d' ∧
    touches (λ j, ∃ id, id ∈ ids ∧ (id ∉ reported) ∧ descends lists d id j) d d'.
Proof.
  intros Hv. revert d. induction ids as [|id ids IH]; intros d; simpl; [by exists d|].
  case_bool_decide as Hrep.
  - destruct (IH d) as (d' & -> & Ht). exists d'. split; [done|]. eapply touches_impl; [|exact Ht].
    intros j (i & ? & ? & ?). exists i. split_and!; [by right|done..].
  - destruct (orphan_result visit lists marks Hv (oks id).1 (oks id).2 now id d) as (b & d1 & -> & T1 & _). simpl.
    destruct (IH d1) as (d' & -> & T2). exists d'. split; [done|].
    eapply touches_impl; [|exact (touches_trans _ _ _ _ _ T1 T2)].
    intros j [Hj|(i & ? & ? & Hj)].
    + exists id. split_and!; [by left|done..].
    + exists i. split_and!; [by right|done|]. by apply (descends_touches _ lists _ _ i j T1).
Qed.

(** A heartbeat spares what the agent still runs.  It always returns,
    and it leaves every run alone that is not at or below a run that this agent
    had claimed, that is Running, whose claim is older than the grace period and
    that the heartbeat's own list of active runs does not name; without such a
    list it changes no run. *)
Theorem heartbeat_spares (visit_runs : gmap runid run → list (runid * run))
    (visit : gmap (runid * Z * string) report → list ((runid * Z * string) * report)) (lists marks : runid → bool)
    (now : Z) (oks : runid → bool * bool) (list_ok : bool) (agentID : string) (body : option (list runid)) (d : db) :
  (∀ m, visit_runs m ≡ₚ map_to_list m) → (∀ m, visit m ≡ₚ map_to_list m) →
  ∃ d', handleAgentHeartbeat visit_runs visit lists marks now oks list_ok agentID body d = Some d' ∧
    ∀ j, (∀ reported id r at_, body = Some reported → (id ∉ reported) → d_runs d !! id = Some r →
            r_claimed_by r = Some agentID → r_status r = RunRunning → r_claimed_at r = Some at_ →
            (at_ < now - heartbeatReconcileGrace)%Z → ¬ descends lists d id j) →
      d_runs d' !! j = d_runs d !! j.
Proof.
  intros Hvr Hv. unfold handleAgentHeartbeat.
  destruct (TouchAgent agentID now d) as [b d1] eqn:E.
  assert (d_runs d1 = d_runs d ∧ d_reports d1 = d_reports d) as [Er Ep] by (unfold TouchAgent in E; by injection E as _ <-).
  destruct body as [reported|]; [|exists d1; rewrite Er; naive_solver].
  destruct list_ok; [|exists d1; rewrite Er; naive_solver].
  destruct (reconcile_missing_touches visit lists marks now oks reported
    (ListReconcilableRunIDsByAgent visit_runs now agentID d1) d1 Hv) as (d' & -> & [Ht _]).
  exists d'. split; [done|]. intros j Hj. rewrite <-Er. apply Ht. intros (id & Hid & Hrep & Hdesc).
  apply list_elem_of_fmap in Hid as ([id' r] & -> & [Hr Hin]%list_elem_of_filter). simpl in *.
  rewrite Hvr, elem_of_map_to_list, Er in Hin. unfold reconcilable in Hr. simpl in Hr.
  apply andb_true_iff in Hr as [[Hcl Hst]%bool_decide_eq_true Hat].
  destruct (r_claimed_at r) as [at_|] eqn:Ea; [|done]. apply Z.ltb_lt in Hat.
  eapply Hj; [done..|]. by rewrite <-(descends_reports lists d d1).
Qed.

Lemma heartbeat_spares_witness :
  ∃ d', handleAgentHeartbeat map_to_list map_to_list (λ _, true) (λ _, true) 200 (λ _, (true, true)) true "a"
          (Some [2%N]) call_tree = Some d'
    ∧ status_of d' 1 = Some RunFailed ∧ status_of d' 5 = Some RunPending.
Proof.
  destruct (heartbeat_spares map_to_list map_to_list (λ _, true) (λ _, true) 200 (λ _, (true, true)) true "a"
    (Some [2%N]) call_tree (λ m, reflexivity _) (λ m, reflexivity _)) as (d' & E & _).
  exists d'. split; [exact E|]. vm_compute in E. injection E as <-. split; reflexivity.
Defined.
