(* ===== verification/RunText.v ===== *)
(** * internal/controller: the texts of a new run

    [agent_text_sanitize.go], [run_display_name.go] and [run_secret_refs.go]: what
    is stored of text that comes from outside, the display name of a run, and the
    resolution of secret names in a stored specification, on its JSON tree. *)

From S2P Require Import Prelude GoStrings DslTypes DslMatrix SecretRefs.
From stdpp Require Import options.

(** ** [sanitizeAgentText] *)

(** U+FFFD in UTF-8. *)
Definition replacement : string :=
  String (ascii_of_N 239) (String (ascii_of_N 191) (String (ascii_of_N 189) "")).

(** A byte that starts no rune decodes as U+FFFD of width one. *)
Definition invalid_seg (x : N * string) : bool := (x.1 =? rune_error)%N && (String.length x.2 <=? 1).
(** [WriteRune] of the decoded rune. *)
Definition encode_seg (x : N * string) : string := if invalid_seg x then replacement else x.2.
Definition ValidString (s : string) : bool := forallb (λ x, negb (invalid_seg x)) (segs s).

Definition clean_seg (x : N * string) : string := if (x.1 =? 0)%N then replacement else encode_seg x.
Definition sanitizeAgentText (s : string) : string * bool :=
  if negb (has_byte "000" s) && ValidString s then (s, false)
  else (concat_str (clean_seg <$> segs s), true).

(** ** The display name *)

Definition maxDisplayNameLength : nat := 200.
Definition ellipsis : string := String (ascii_of_N 226) (String (ascii_of_N 128) (String (ascii_of_N 166) "")).

Definition truncateDisplayName (s : string) (limit : nat) : string :=
  if length (runes s) <=? limit then s
  else concat_str (encode_seg <$> take limit (segs s)) +:+ ellipsis.

Definition expandRunDisplayName (ExpandTemplate : string → TemplateData → res string) (tmpl : string)
    (params : gmap string string) : res string :=
  if (tmpl =? "")%string then Ok "" else
  expanded ← ExpandTemplate tmpl (MkTemplateData params ∅ ∅ "" ∅ ∅ ∅);
  let expanded := (sanitizeAgentText expanded).1 in
  Ok (if (TrimSpace expanded =? "")%string then "" else truncateDisplayName expanded maxDisplayNameLength).

(** ** [prepareRunSpec] *)

(** [strings.EqualFold] against an ASCII word: the only other runes that fold to
    an ASCII letter are U+017F and U+212A. *)
Definition fold_rune (r : N) : N :=
  if (65 <=? r)%N && (r <=? 90)%N then (r + 32)%N
  else if (r =? 383)%N then 115%N else if (r =? 8490)%N then 107%N else r.
Definition EqualFold (s t : string) : bool := bool_decide (fold_rune <$> runes s = fold_rune <$> runes t).

Definition findJSONField (object : vmap) (wanted : string) : res (option (string * val)) :=
  fold_res (λ found kv,
    if negb (EqualFold kv.1 wanted) then Ok found
    else match found with
         | Some (k, _) => Err [Lit "ambiguous fields "; Quo k; Lit " and "; Quo kv.1]
         | None => Ok (Some kv)
         end) None object.

(** [object[key] = v] for a key that is there. *)
Definition put (object : vmap) (key : string) (v : val) : vmap :=
  (λ kv, if (kv.1 =? key)%string then (kv.1, v) else kv) <$> object.

(** The frame of the four functions below: a field that is absent or null is left
    alone, another is replaced by what [f] makes of it. *)
Definition on_field (f : string → val → res val) (object : vmap) (field : string) : res vmap :=
  found ← findJSONField object field;
  match found with
  | None | Some (_, VNull) => Ok object
  | Some (key, v) => v' ← f key v; Ok (put object key v')
  end.

Definition must_be (path what : string) {A} : res A := Err [Lit "field "; Quo path; Lit (" must be " +:+ what)].
Definition indexed_path (path : string) (i : nat) : string := path +:+ "[" +:+ pretty i +:+ "]".

Section prepare.
Variables (syntax_error : text) (parse_template : string → res (list node)) (params : gmap string string).

Definition resolve_text (path text : string) : res val :=
  resolved ← wrap [Lit "field "; Quo path; Lit ": "] (ResolveSecretNameParams syntax_error parse_template text params);
  Ok (VStr resolved).

Definition resolveRunSpecStringField (object : vmap) (field path : string) : res vmap :=
  on_field (λ key v, match v with
                     | VStr s => resolve_text (path +:+ "." +:+ key) s
                     | _ => must_be (path +:+ "." +:+ key) "a string"
                     end) object field.

Definition resolve_variable (path : string) (kv : string * val) : res (string * val) :=
  match kv.2 with
  | VNull => Ok kv
  | VStr s => v ← resolve_text (path +:+ "." +:+ kv.1) s; Ok (kv.1, v)
  | _ => must_be (path +:+ "." +:+ kv.1) "a string"
  end.

Definition resolveRunSpecEnv (step : vmap) (path : string) : res vmap :=
  on_field (λ key v, match v with
                     | VMap env => env' ← map_res (resolve_variable (path +:+ "." +:+ key)) env; Ok (VMap env')
                     | _ => must_be (path +:+ "." +:+ key) "an object"
                     end) step "env".

(** The objects of an array, each with its path. *)
Fixpoint each_object (f : vmap → string → res vmap) (path : string) (i : nat) (l : list val) : res (list val) :=
  match l with
  | [] => Ok []
  | VMap m :: l =>
      m' ← f m (indexed_path path i);
      l' ← each_object f path (S i) l;
      Ok (VMap m' :: l')
  | _ :: _ => must_be (indexed_path path i) "an object"
  end.

Definition resolve_array (f : vmap → string → res vmap) (path : string) (v : val) : res val :=
  match v with
  | VList l => l' ← each_object f path 0 l; Ok (VList l')
  | _ => must_be path "an array"
  end.

Definition resolve_child (child : vmap) (path : string) : res vmap :=
  child ← resolveRunSpecStringField child "run" path;
  resolveRunSpecEnv child path.

Definition resolveRunSpecStep (step : vmap) (path : string) : res vmap :=
  step ← resolveRunSpecStringField step "run" path;
  step ← resolveRunSpecEnv step path;
  on_field (λ key, resolve_array resolve_child (path +:+ "." +:+ key)) step "parallel".

Definition resolveRunSpecEntries (root : vmap) (field : string) : res vmap :=
  on_field (λ key, resolve_array resolveRunSpecStep key) root field.

(** Decoding: the JSON values of the text in order, and the error that ends them
    unless it is the end of the input. *)
Variables (json_values : string → list val * option text) (json_marshal : val → string).

Definition decode_root (specJSON : string) : res vmap :=
  match json_values specJSON with
  | ([], e) => Err (Lit "decode stored run spec: " :: default [Lit "EOF"] e)
  | (v :: rest, e) =>
      match v with
      | VMap _ | VNull =>
          match rest, e with
          | VMap _ :: _, _ | VNull :: _, _ => Err [Lit "decode stored run spec: invalid trailing JSON value"]
          | _ :: _, _ => Err [Lit "decode stored run spec: json: cannot unmarshal"]
          | [], Some e => Err (Lit "decode stored run spec: " :: e)
          | [], None => match v with VMap m => Ok m | _ => Err [Lit "stored run spec must be an object"] end
          end
      | _ => Err [Lit "decode stored run spec: json: cannot unmarshal"]
      end
  end.

Definition prepareRunSpec (specJSON : string) : res string :=
  root ← decode_root specJSON;
  root ← wrap [Lit "resolve secret name parameters: "] (resolveRunSpecEntries root "steps");
  root ← wrap [Lit "resolve secret name parameters: "] (resolveRunSpecEntries root "finally");
  Ok (json_marshal (VMap root)).
End prepare.

(** ** What is stored is storable *)

(** An encoding whose decoding does not depend on what follows. *)
Definition settled (x : N * string) : Prop :=
  0 < String.length x.2 ∧ ∀ t, rune_at (x.2 +:+ t) = Some (x.1, String.length x.2).

Lemma segs_from_skip b t : segs_from (String.length b) (b +:+ t) = segs t.
Proof. induction b as [|c b IH]; [by destruct t|]. rewrite str_app_cons. exact IH. Qed.

Lemma segs_cons c s r w :
  rune_at (String c s) = Some (r, w) → segs (String c s) = (r, str_take w (String c s)) :: segs_from (pred w) s.
Proof. intros E. unfold segs. cbn [segs_from]. by rewrite E. Qed.

Lemma segs_settled (l : list (N * string)) : Forall settled l → segs (concat_str l.*2) = l.
Proof.
  induction 1 as [|[r b] l [Hb Hr] Hl IH]; [done|].
  change (concat_str ((r, b) :: l).*2) with (b +:+ concat_str l.*2).
  destruct b as [|c b]; [simpl in Hb; lia|]. specialize (Hr (concat_str l.*2)). simpl snd in Hr. simpl fst in Hr.
  pose proof (str_take_app (String c b) (concat_str l.*2)) as Ht.
  rewrite str_app_cons in Hr, Ht |- *. rewrite (segs_cons _ _ _ _ Hr), Ht. f_equal.
  cbn [String.length pred]. by rewrite segs_from_skip.
Qed.

Lemma rune_at_settled s r w :
  rune_at s = Some (r, w) → invalid_seg (r, str_take w s) = false → settled (r, str_take w s).
Proof.
  intros E Hi. pose proof (rune_at_width _ _ _ E) as [Hw Hl]. split; [simpl; rewrite str_length_take; lia|].
  intros t. simpl. rewrite str_length_take by done. revert E Hi.
  assert (0 < w ≤ 1 → (String.length (str_take w s) <=? 1) = true) as Hlen.
  { intros. rewrite str_length_take by done. apply Nat.leb_le. lia. }
  unfold invalid_seg. simpl. unfold rune_at at 1.
  destruct s as [|b0 s]; [done|]. repeat case_match; intros; simplify_eq; simpl in *; try done;
    unfold rune_at; repeat match goal with H : _ = true |- _ => rewrite H | H : _ = false |- _ => rewrite H end; try done.
Qed.

(** The bytes of a rune other than U+0000 hold no NUL. *)
Lemma rune_at_no_nul s r w :
  rune_at s = Some (r, w) → r ≠ 0%N → invalid_seg (r, str_take w s) = false → has_byte "000" (str_take w s) = false.
Proof.
  assert (∀ lo hi c, (0 < lo)%N → byte_in lo hi c = true → Ascii.eqb "000" c = false) as Hin.
  { intros lo hi c Hlo H. apply andb_true_iff in H as [H _]. apply N.leb_le in H. apply Ascii.eqb_neq. intros <-.
    simpl in H. lia. }
  assert (∀ c, N_of_ascii c ≠ 0%N → Ascii.eqb "000" c = false) as Hz.
  { intros c H. apply Ascii.eqb_neq. by intros <-. }
  intros E Hr Hi. revert E Hr Hi. unfold rune_at, invalid_seg, cont_byte.
  destruct s as [|b0 s]; [done|]. repeat case_match; intros; simplify_eq; try done;
    repeat match goal with H : (_ && _)%bool = true |- _ => apply andb_true_iff in H as [? ?] end;
    repeat match goal with H : byte_in ?lo ?hi _ = true |- _ => apply Hin in H; [|by repeat case_match] end;
    repeat match goal with H : (N_of_ascii _ <? _)%N = false |- _ => apply N.ltb_ge in H end;
    cbn [str_take has_byte]; rewrite ?(Hz b0) by (done || lia);
    repeat match goal with H : Ascii.eqb "000" _ = false |- _ => rewrite H end; done.
Qed.

Lemma segs_from_elem n s x :
  x ∈ segs_from n s → ∃ i w, rune_at (str_drop i s) = Some (x.1, w) ∧ x.2 = str_take w (str_drop i s).
Proof.
  revert n. induction s as [|c s IH]; intros n; cbn [segs_from]; [by intros ?%elem_of_nil|].
  destruct n as [|n].
  - destruct (rune_at (String c s)) as [[r w]|] eqn:E; [|by intros ?%elem_of_nil].
    intros [->|H]%elem_of_cons; [by exists 0, w|]. destruct (IH _ H) as (i & w' & ? & ?). by exists (S i), w'.
  - intros H. destruct (IH _ H) as (i & w' & ? & ?). by exists (S i), w'.
Qed.

Lemma rune_at_zero s w : rune_at s = Some (0%N, w) → has_byte "000" (str_take w s) = true.
Proof.
  destruct s as [|b0 s]; [done|]. unfold rune_at, rune_error, cont_byte, byte_in.
  destruct (N.ltb_spec (N_of_ascii b0) 128) as [?|?].
  - intros [= H0 <-]. cbn [str_take has_byte]. rewrite orb_true_iff, Ascii.eqb_eq. left.
    apply (f_equal ascii_of_N) in H0. by rewrite ascii_N_embedding in H0.
  - repeat case_match; intros; simplify_eq; unfold cbits in *; exfalso;
      repeat match goal with
      | H : (_ && _)%bool = true |- _ => apply andb_true_iff in H as [? ?]
      | H : (_ <=? _)%N = true |- _ => apply N.leb_le in H
      | H : (_ <? _)%N = false |- _ => apply N.ltb_ge in H
      | H : (_ =? _)%N = true |- _ => apply N.eqb_eq in H
      | H : (_ =? _)%N = false |- _ => apply N.eqb_neq in H
      end; lia.
Qed.

Definition shown_rune (r : N) : N := if (r =? 0)%N then rune_error else r.
Definition storable_seg (x : N * string) : Prop := settled x ∧ has_byte "000" x.2 = false ∧ invalid_seg x = false.

Lemma replacement_storable : storable_seg (rune_error, replacement).
Proof. split_and!; [|reflexivity|reflexivity]. split; [simpl; lia|]. intros t. reflexivity. Qed.

Lemma clean_seg_storable s x : x ∈ segs s → storable_seg (shown_rune x.1, clean_seg x).
Proof.
  intros (i & w & E & Hx)%segs_from_elem. destruct x as [r b]. simpl in *. subst b.
  unfold shown_rune, clean_seg, encode_seg. simpl. destruct (N.eqb_spec r 0) as [->|Hr]; [apply replacement_storable|].
  destruct (invalid_seg (r, str_take w (str_drop i s))) eqn:Hi.
  - unfold invalid_seg in Hi. simpl in Hi. apply andb_true_iff in Hi as [->%N.eqb_eq _]. apply replacement_storable.
  - split_and!; [by apply rune_at_settled|by eapply rune_at_no_nul|done].
Qed.

Lemma has_byte_concat c l : has_byte c (concat_str l) = existsb (has_byte c) l.
Proof. induction l as [|s l IH]; simpl; [done|]. by rewrite has_byte_app, IH. Qed.

(** What PostgreSQL stores: valid UTF-8 without U+0000. *)
Definition storable (s : string) : bool := negb (has_byte "000" s) && ValidString s.

Lemma storable_concat (l : list (N * string)) :
  Forall storable_seg l → segs (concat_str l.*2) = l ∧ storable (concat_str l.*2) = true.
Proof.
  intros H. assert (segs (concat_str l.*2) = l) as Hs by (apply segs_settled; eapply Forall_impl; [done|by intros ? []]).
  split; [done|]. unfold storable, ValidString. rewrite Hs, has_byte_concat, andb_true_iff, negb_true_iff. split.
  - apply existsb_false_elem. intros b (x & -> & Hx)%list_elem_of_fmap. rewrite Forall_forall in H. by apply H.
  - apply forallb_forall. intros x Hx%list_elem_of_In. rewrite Forall_forall in H. destruct (H x Hx) as (_ & _ & ->). done.
Qed.

Definition cleaned (s : string) : list (N * string) := (λ x, (shown_rune x.1, clean_seg x)) <$> segs s.
Lemma cleaned_storable s : Forall storable_seg (cleaned s).
Proof. apply Forall_forall. intros x (y & -> & Hy)%list_elem_of_fmap. by eapply clean_seg_storable. Qed.
Lemma cleaned_bytes s : clean_seg <$> segs s = (cleaned s).*2.
Proof. unfold cleaned. by rewrite <-list_fmap_compose. Qed.

Lemma sanitize_storable s : storable (sanitizeAgentText s).1 = true.
Proof.
  unfold sanitizeAgentText. fold (storable s). destruct (storable s) eqn:E; [done|]. simpl. rewrite cleaned_bytes.
  apply storable_concat, cleaned_storable.
Qed.

(** What is stored of outside text is storable and altered only where it
    must be.  The result is valid UTF-8 without U+0000, whatever the bytes; rune
    by rune it is what the input decodes to, with U+0000 shown as U+FFFD; it is
    reported changed exactly when it differs from the input, which is exactly
    when the input could not be stored. *)
Theorem sanitize_exact (s : string) :
  let '(out, changed) := sanitizeAgentText s in
  storable out = true ∧ runes out = shown_rune <$> runes s
  ∧ (changed = false ↔ out = s) ∧ (changed = false ↔ storable s = true).
Proof.
  pose proof (sanitize_storable s) as Hout. revert Hout.
  unfold sanitizeAgentText. fold (storable s). rewrite cleaned_bytes.
  destruct (storable_concat (cleaned s) (cleaned_storable s)) as [Hs Hst].
  destruct (storable s) eqn:E; intros _.
  - split_and!; [done| |done|done]. unfold storable in E. apply andb_true_iff in E as [Hn _]. apply negb_true_iff in Hn.
    unfold runes. rewrite <-list_fmap_compose. apply list_fmap_ext. intros i [r b] Hx. simpl. unfold shown_rune.
    destruct (N.eqb_spec r 0) as [->|]; [|done]. exfalso.
    apply list_elem_of_lookup_2 in Hx as Hin. apply segs_from_elem in Hin as (j & w & Ej & Hb). simpl in *.
    apply rune_at_zero in Ej. rewrite <-Hb in Ej.
    rewrite <-(segs_concat s), has_byte_concat, existsb_false_elem in Hn.
    rewrite Hn in Ej; [done|]. apply list_elem_of_fmap. exists (0%N, b). split; [done|]. by eapply list_elem_of_lookup_2.
  - split_and!; [done| | |done].
    + unfold runes at 1. rewrite Hs. unfold cleaned, runes. by rewrite <-!list_fmap_compose.
    + split; [done|]. intros Heq. by rewrite Heq, E in Hst.
Qed.

(** ** Display names are short, storable and visible *)

Lemma storable_segs s : storable s = true → Forall storable_seg (segs s).
Proof.
  unfold storable, ValidString. rewrite andb_true_iff, negb_true_iff, forallb_forall. intros [Hn Hv].
  apply Forall_forall. intros [r b] Hx. pose proof (Hv (r, b) ltac:(by apply list_elem_of_In)) as Hi.
  apply negb_true_iff in Hi. apply segs_from_elem in Hx as Hx'. destruct Hx' as (i & w & E & Hb). simpl in *. subst b.
  split_and!; [by apply rune_at_settled| |done]. simpl.
  rewrite <-(segs_concat s), has_byte_concat, existsb_false_elem in Hn. apply Hn. by apply (list_elem_of_fmap_2 snd) in Hx.
Qed.

Lemma drop_spaces_all l : (∀ x, x ∈ l → IsSpace x.1 = true) → drop_spaces l = [].
Proof.
  induction l as [|x l IH]; intros H; simpl; [done|]. rewrite H by set_solver. apply IH. set_solver.
Qed.

Lemma TrimSpace_visible s : TrimSpace s ≠ "" → ∃ r, r ∈ runes s ∧ IsSpace r = false.
Proof.
  intros H. destruct (forallb IsSpace (runes s)) eqn:E.
  - destruct H. unfold TrimSpace. rewrite (drop_spaces_all (segs s)); [done|]. intros x Hx.
    rewrite forallb_forall in E. apply E, list_elem_of_In, list_elem_of_fmap_2, Hx.
  - apply not_true_iff_false in E. rewrite forallb_forall in E. clear H.
    induction (runes s) as [|r l IH]; [by destruct E|]. destruct (IsSpace r) eqn:Er.
    + destruct IH as (r' & ? & ?); [|exists r'; split; [by right|done]].
      intros H. apply E. intros x [->|?]; [done|by apply H].
    + exists r. split; [by left|done].
Qed.

Lemma concat_str_app l1 l2 : concat_str (l1 ++ l2) = concat_str l1 +:+ concat_str l2.
Proof. induction l1 as [|s l1 IH]; simpl; [by rewrite str_app_nil_l|]. by rewrite IH, str_app_assoc. Qed.

Lemma encode_storable l : Forall storable_seg l → encode_seg <$> l = l.*2.
Proof. induction 1 as [|x l (_ & _ & Hi) _ IH]; [done|]. csimpl. rewrite IH. unfold encode_seg. by rewrite Hi. Qed.

(** A display name is short, storable and visible.  Whatever the
    template expands to, the name kept is empty, or it has at most 200 runes (201
    with the mark of a cut), is valid UTF-8 without U+0000, and shows at least
    one rune that is not a space. *)
Theorem display_name_safe (ET : string → TemplateData → res string) tmpl params out :
  expandRunDisplayName ET tmpl params = Ok out →
  out = "" ∨ storable out = true ∧ length (runes out) ≤ S maxDisplayNameLength ∧ ∃ r, r ∈ runes out ∧ IsSpace r = false.
Proof.
  unfold expandRunDisplayName. destruct (tmpl =? "")%string; [intros [= <-]; by left|].
  rewrite bind_ok. intros (e & _ & [= <-]). set (s := (sanitizeAgentText e).1).
  assert (storable s = true) as Hs by apply sanitize_storable.
  destruct (String.eqb_spec (TrimSpace s) "") as [|Ht]; [by left|]. right.
  unfold truncateDisplayName. destruct (Nat.leb_spec (length (runes s)) maxDisplayNameLength).
  - split_and!; [done|lia|by apply TrimSpace_visible].
  - set (l := take maxDisplayNameLength (segs s) ++ [(8230%N, ellipsis)]).
    assert (Forall storable_seg l) as Hl.
    { apply Forall_app. split; [by apply Forall_take, storable_segs|]. constructor; [|done].
      split_and!; [|reflexivity|reflexivity]. split; [simpl; lia|]. intros t. reflexivity. }
    assert (concat_str (encode_seg <$> take maxDisplayNameLength (segs s)) +:+ ellipsis = concat_str l.*2) as ->.
    { unfold l. rewrite fmap_app, concat_str_app, encode_storable by apply Forall_take, storable_segs, Hs.
      simpl. by rewrite str_app_nil_r. }
    destruct (storable_concat l Hl) as [El ?]. unfold runes. rewrite El. split_and!; [done| |].
    + unfold l. rewrite length_fmap, length_app, length_take. cbn [length]. lia.
    + exists 8230%N. split; [|reflexivity]. unfold l. rewrite fmap_app. apply elem_of_app. right. by left.
Qed.

Lemma display_name_safe_witness :
  ∃ out, expandRunDisplayName (λ s _, Ok s) "deploy" ∅ = Ok out ∧ out = "deploy"
    ∧ (out = "" ∨ storable out = true ∧ length (runes out) ≤ S maxDisplayNameLength
       ∧ ∃ r, r ∈ runes out ∧ IsSpace r = false).
Proof.
  exists "deploy". split_and!; [reflexivity..|]. by apply (display_name_safe (λ s _, Ok s) "deploy" ∅).
Defined.

(** ** A prepared specification differs in its secret names only *)

Lemma fold_only_false (w : string) (l : vmap) kv r :
  fold_res (λ found kv, if negb (EqualFold kv.1 w) then Ok found
      else match found with
           | Some (k, _) => Err [Lit "ambiguous fields "; Quo k; Lit " and "; Quo kv.1]
           | None => Ok (Some kv)
           end) (Some kv) l = Ok r →
  r = Some kv ∧ ∀ x, x ∈ l → EqualFold x.1 w = false.
Proof.
  induction l as [|x l IH]; simpl; [intros [= <-]; split; [done|by intros ? ?%elem_of_nil]|].
  rewrite bind_ok. intros (s & Hs & H). destruct (EqualFold x.1 w) eqn:E; simpl in Hs; [by destruct kv|].
  injection Hs as <-. destruct (IH H) as [-> Hl]. split; [done|]. by intros y [->|?]%elem_of_cons; [|apply Hl].
Qed.

Lemma find_ok (m : vmap) w r :
  findJSONField m w = Ok r →
  match r with
  | None => ∀ x, x ∈ m → EqualFold x.1 w = false
  | Some (k, v) => EqualFold k w = true ∧ vget m k = Some v ∧ ∀ x, x ∈ m → EqualFold x.1 w = true → x.1 = k
  end.
Proof.
  unfold findJSONField. induction m as [|[k v] m IH]; simpl; [intros [= <-]; by intros ? ?%elem_of_nil|].
  rewrite bind_ok. intros (s & Hs & H). destruct (EqualFold k w) eqn:E; simpl in Hs; injection Hs as <-.
  - apply fold_only_false in H as [-> Hl]. rewrite String.eqb_refl. split_and!; [done..|].
    intros x [->|Hx]%elem_of_cons Hw; [done|]. by rewrite (Hl x Hx) in Hw.
  - specialize (IH H). destruct r as [[k' v']|].
    + destruct IH as (Hk & Hg & Hl). split_and!; [done| |].
      * destruct (String.eqb_spec k k') as [->|]; [congruence|done].
      * intros x [->|Hx]%elem_of_cons Hw; [simpl in *; congruence|by apply Hl].
    + by intros x [->|Hx]%elem_of_cons; [|apply IH].
Qed.

Lemma vget_in (m : vmap) k v : vget m k = Some v → (k, v) ∈ m.
Proof.
  induction m as [|[k' v'] m IH]; simpl; [done|]. destruct (String.eqb_spec k' k) as [->|].
  - intros [= ->]. by left.
  - intros H. right. by apply IH.
Qed.

Lemma vget_put (m : vmap) k v k' :
  vget (put m k v) k' = if (k' =? k)%string then (λ _, v) <$> vget m k else vget m k'.
Proof.
  unfold put. induction m as [|[k0 v0] m IH]; csimpl; [by destruct (_ =? _)%string|].
  destruct (String.eqb_spec k0 k) as [->|Hk]; simpl; rewrite IH; clear IH;
    repeat match goal with |- context [(?a =? ?b)%string] => destruct (String.eqb_spec a b) end; simplify_eq/=; done.
Qed.

(** The keys [R] picks change by the relation it gives, the others not at all. *)
Definition fields (R : string → option (val → val → Prop)) (m m' : vmap) : Prop :=
  ∀ k, match R k with
       | Some Rv => option_Forall2 Rv (vget m k) (vget m' k)
       | None => vget m' k = vget m k
       end.

Definition null_or (P : val → val → Prop) (v v' : val) : Prop := v = VNull ∧ v' = VNull ∨ P v v'.

Lemma on_field_ok f m w m' (P : val → val → Prop) :
  on_field f m w = Ok m' → (∀ k v v', f k v = Ok v' → P v v') →
  fields (λ k, if EqualFold k w then Some (null_or P) else None) m m'.
Proof.
  unfold on_field. rewrite bind_ok. intros (r & Hr & H) HP k. apply find_ok in Hr. destruct r as [[k0 v0]|].
  - destruct Hr as (Hk0 & Hg & Hu).
    assert (m' = m ∧ v0 = VNull ∨ ∃ v', f k0 v0 = Ok v' ∧ m' = put m k0 v') as Hm'.
    { destruct v0; try (right; revert H; rewrite bind_ok; intros (v' & ? & [= <-]); by exists v').
      left. by injection H as <-. }
    clear H. destruct (EqualFold k w) eqn:E.
    + destruct (vget m k) as [v|] eqn:Ev.
      * assert (k = k0) as -> by (apply vget_in in Ev; by apply (Hu _ Ev)).
        rewrite Hg in Ev. injection Ev as <-. destruct Hm' as [[-> ->]|(v' & Hf & ->)].
        -- rewrite Hg. constructor. by left.
        -- rewrite vget_put, String.eqb_refl, Hg. constructor. right. by eapply HP.
      * destruct Hm' as [[-> ->]|(v' & Hf & ->)]; [rewrite Ev; constructor|].
        rewrite vget_put. destruct (String.eqb_spec k k0) as [->|]; [congruence|]. rewrite Ev. constructor.
    + destruct Hm' as [[-> ->]|(v' & Hf & ->)]; [done|]. rewrite vget_put.
      destruct (String.eqb_spec k k0) as [->|]; [congruence|done].
  - injection H as <-. destruct (EqualFold k w) eqn:E; [|done].
    destruct (vget m k) as [v|] eqn:Ev; [|constructor]. apply vget_in, Hr in Ev. simpl in Ev. congruence.
Qed.

Lemma EqualFold_two k w w' : EqualFold k w = true → EqualFold k w' = true → EqualFold w w' = true.
Proof. unfold EqualFold. rewrite !bool_decide_eq_true. congruence. Qed.

Section prepared.
Variables (syntax_error : text) (parse_template : string → res (list node)) (params : gmap string string).
Let resolves (s s' : string) : Prop := ResolveSecretNameParams syntax_error parse_template s params = Ok s'.

Definition text_resolved (v v' : val) : Prop := ∃ s s', v = VStr s ∧ resolves s s' ∧ v' = VStr s'.
Definition env_resolved (v v' : val) : Prop :=
  ∃ m m', v = VMap m ∧ v' = VMap m' ∧ ∀ x, option_Forall2 (null_or text_resolved) (vget m x) (vget m' x).
Definition objects (P : vmap → vmap → Prop) (v v' : val) : Prop :=
  ∃ l l', v = VList l ∧ v' = VList l' ∧ Forall2 (λ a b, ∃ m m', a = VMap m ∧ b = VMap m' ∧ P m m') l l'.

(** What changes in a child of [parallel:], in a step, and at the top. *)
Definition child_fields (k : string) : option (val → val → Prop) :=
  if EqualFold k "run" then Some (null_or text_resolved)
  else if EqualFold k "env" then Some (null_or env_resolved) else None.
Definition step_fields (k : string) : option (val → val → Prop) :=
  if EqualFold k "parallel" then Some (null_or (objects (fields child_fields))) else child_fields k.
Definition root_fields (k : string) : option (val → val → Prop) :=
  if EqualFold k "steps" || EqualFold k "finally" then Some (null_or (objects (fields step_fields))) else None.

Lemma resolve_text_ok path s v : resolve_text syntax_error parse_template params path s = Ok v → text_resolved (VStr s) v.
Proof. unfold resolve_text. rewrite bind_ok. intros (s' & Hs%wrap_ok & [= <-]). by exists s, s'. Qed.

Lemma string_field_ok m w path m' :
  resolveRunSpecStringField syntax_error parse_template params m w path = Ok m' →
  fields (λ k, if EqualFold k w then Some (null_or text_resolved) else None) m m'.
Proof. intros H. apply (on_field_ok _ _ _ _ _ H). intros k [] v'; try done. apply resolve_text_ok. Qed.

Lemma env_ok m path m' :
  resolveRunSpecEnv syntax_error parse_template params m path = Ok m' →
  fields (λ k, if EqualFold k "env" then Some (null_or env_resolved) else None) m m'.
Proof.
  intros H. apply (on_field_ok _ _ _ _ _ H). intros k [] v'; try done. rewrite bind_ok. intros (env & He & [= <-]).
  rename m0 into env0. exists env0, env. split_and!; [done..|]. intros x. apply map_res_ok in He.
  induction He as [|[y v] kv env0 env Hkv _ IH]; [constructor|].
  assert (∃ v', kv = (y, v') ∧ null_or text_resolved v v') as (v' & -> & Hv).
  { unfold resolve_variable in Hkv. simpl in Hkv. destruct v; try done.
    - injection Hkv as <-. exists VNull. split; [done|by left].
    - revert Hkv. rewrite bind_ok. intros (v' & Hv%resolve_text_ok & [= <-]). exists v'. split; [done|by right]. }
  simpl. by destruct (_ =? _)%string; [constructor|].
Qed.

Lemma resolve_array_ok f path v v' P :
  (∀ m p m', f m p = Ok m' → P m m') → resolve_array f path v = Ok v' → objects P v v'.
Proof.
  intros HP. destruct v; try done. simpl. rewrite bind_ok. intros (l' & H & [= <-]). exists l, l'. split_and!; [done..|].
  revert H. generalize 0. revert l'. induction l as [|a l IH]; intros l' i; simpl; [by intros [= <-]|].
  destruct a; try done. rewrite bind_ok. intros (m' & Hm & H). revert H. rewrite bind_ok. intros (k' & Hk & [= <-]).
  constructor; [|by eapply IH]. exists m, m'. split_and!; [done..|by eapply HP].
Qed.

(** Fields changed one after the other, when no key is meant twice. *)
Lemma fields_trans R1 R2 R m1 m2 m3 :
  (∀ k, match R1 k, R2 k with
        | Some P, None | None, Some P => R k = Some P
        | None, None => R k = None
        | Some _, Some _ => False
        end) →
  fields R1 m1 m2 → fields R2 m2 m3 → fields R m1 m3.
Proof.
  intros HR H1 H2 k. specialize (HR k). specialize (H1 k). specialize (H2 k).
  destruct (R1 k), (R2 k); [done|..]; rewrite HR; congruence.
Qed.

Ltac by_folds k :=
  repeat match goal with |- context [EqualFold k ?w] => destruct (EqualFold k w) eqn:? end; simpl; try done;
  repeat match goal with H : EqualFold k ?w = true, H' : EqualFold k ?w' = true |- _ =>
    assert_fails (constr_eq w w'); pose proof (EqualFold_two _ _ _ H H') as He; vm_compute in He; discriminate He end.

Lemma resolve_child_ok m path m' :
  resolve_child syntax_error parse_template params m path = Ok m' → fields child_fields m m'.
Proof.
  unfold resolve_child. rewrite bind_ok. intros (m1 & H1%string_field_ok & H2%env_ok).
  refine (fields_trans _ _ _ _ _ _ _ H1 H2). intros k. unfold child_fields. by_folds k.
Qed.

Lemma resolve_step_ok m path m' :
  resolveRunSpecStep syntax_error parse_template params m path = Ok m' → fields step_fields m m'.
Proof.
  unfold resolveRunSpecStep. rewrite bind_ok. intros (m1 & H1 & H). revert H. rewrite bind_ok. intros (m2 & H2 & H3).
  assert (fields child_fields m m2) as H12 by (apply (resolve_child_ok _ path); unfold resolve_child; by rewrite H1).
  apply (on_field_ok _ _ _ _ (objects (fields child_fields))) in H3.
  - refine (fields_trans _ _ _ _ _ _ _ H12 H3). intros k. unfold step_fields, child_fields. by_folds k.
  - intros k v v'. apply resolve_array_ok, resolve_child_ok.
Qed.

Lemma resolve_entries_ok root w root' :
  resolveRunSpecEntries syntax_error parse_template params root w = Ok root' →
  fields (λ k, if EqualFold k w then Some (null_or (objects (fields step_fields))) else None) root root'.
Proof. intros H. apply (on_field_ok _ _ _ _ _ H). intros k v v'. apply resolve_array_ok, resolve_step_ok. Qed.

Lemma resolve_root_ok root root1 root' :
  resolveRunSpecEntries syntax_error parse_template params root "steps" = Ok root1 →
  resolveRunSpecEntries syntax_error parse_template params root1 "finally" = Ok root' →
  fields root_fields root root'.
Proof.
  intros H1%resolve_entries_ok H2%resolve_entries_ok. refine (fields_trans _ _ _ _ _ _ _ H1 H2).
  intros k. unfold root_fields. by_folds k.
Qed.
End prepared.

(** Preparing a specification resolves the secret names of its steps
    and changes nothing else.  The prepared text is the stored object in which,
    in every step of [steps] and [finally] and every child of a [parallel] block,
    the [run] text and the texts of [env] are replaced by their resolution with
    the run's parameters, field names being read as the JSON decoder reads them;
    every other field, and every null, stays as it is. *)
Theorem prepare_exact (syntax_error : text) (parse_template : string → res (list node)) (params : gmap string string)
    (json_values : string → list val * option text) (json_marshal : val → string) (specJSON out : string) :
  prepareRunSpec syntax_error parse_template params json_values json_marshal specJSON = Ok out →
  ∃ root root', decode_root json_values specJSON = Ok root ∧ out = json_marshal (VMap root')
    ∧ fields (root_fields syntax_error parse_template params) root root'.
Proof.
  unfold prepareRunSpec. rewrite bind_ok. intros (root & Hroot & H). revert H.
  rewrite bind_ok. intros (r1 & H1%wrap_ok & H). revert H. rewrite bind_ok. intros (r2 & H2%wrap_ok & [= <-]).
  exists root, r2. split_and!; [done..|]. by eapply resolve_root_ok.
Qed.

Definition spec_value : vmap :=
  [("Steps", VList [VMap [("run", VStr "make"); ("env", VMap [("A", VNull)])]]); ("detached", VBool true)].

Lemma prepare_exact_witness :
  ∃ root root', decode_root (λ _, ([VMap spec_value], None)) "stored" = Ok root
    ∧ "out" = (λ _, "out") (VMap root')
    ∧ fields (root_fields [Lit "syntax"] (λ _, Ok []) ∅) root root'.
Proof.
  apply (prepare_exact [Lit "syntax"] (λ _, Ok []) ∅ (λ _, ([VMap spec_value], None)) (λ _, "out") "stored" "out").
  vm_compute. reflexivity.
Defined.
