(* ===== verification/RunCreate.v ===== *)
(** * internal/controller: the ways a run is created

    A human or an agent triggers a job ([api_runs.go], [api_agent.go]), a run is
    replayed ([api_runs.go]) or a webhook arrives ([api_webhooks.go]); the
    schedules are in [Schedules].  The JSON decoders, HMAC and the encryption of
    secrets are parameters. *)

From S2P Require Import Prelude GoStrings DslTypes DslMatrix SecretRefs DslSecurity AgentSteps StoreRuns Authz AuthzServer AgentGuard ClaimBuild Schedulability RunText DslKinds.
From stdpp Require Import options.

Record Job := MkJob { jb_Name : string; jb_Spec : string }.

(** What a caller sees of a created run beside its row. *)
Record created := MkCreated { ct_id : runid; ct_triggeredBy : string; ct_displayName : string }.

Inductive run_answer :=
| Refused (o : outcome)              (* answered by the authorization check *)
| Answered (status : Z) (msg : text) (* answered without a run *)
| Created (c : created).

(** The inputs of [CreateRun] that a specification and parameters determine. *)
Record prepared := MkPrepared {
  np_params : gmap string string; np_selector : list string; np_display : string; np_spec : string; np_caps : list string
}.

(** The libraries these functions call: the printing of values and the syntax of
    Go values, regular expressions, templates, JSON, and the decoder of a
    specification. *)
Record CreateEnv := MkCreateEnv {
  ce_gosyntax : val → string;
  ce_sprint : val → string;
  ce_compile_re : string → text + (string → bool);
  ce_ExpandTemplate : string → TemplateData → res string;
  ce_syntax_error : text;
  ce_parse_template : string → res (list node);
  ce_json_values : string → list val * option text;
  ce_json_marshal : val → string;
  ce_decode_spec : string → res Spec
}.

Section create.
Variable E : CreateEnv.

(** The steps shared by every way of creating a run: parameters, selector,
    display name, secret names, capabilities; [pre] is the prefix of an error in
    the parameters. *)
Definition prepare_run (pre : text) (spec : Spec) (specJSON : string) (given : gmap string string) : res prepared :=
  params ← wrap pre (resolveParams (ce_sprint E) (ce_compile_re E) (pa_Inputs (sp_Params spec)) given);
  sel ← wrap [Lit "agentSelector: "] (ExpandAgentSelector (ce_ExpandTemplate E) (sp_AgentSelector spec) params);
  name ← wrap [Lit "displayName: "] (expandRunDisplayName (ce_ExpandTemplate E) (sp_DisplayName spec) params);
  runSpec ← prepareRunSpec (ce_syntax_error E) (ce_parse_template E) params (ce_json_values E) (ce_json_marshal E) specJSON;
  Ok (MkPrepared params sel name runSpec (RequiredCaps (ce_gosyntax E) spec)).

(** [CreateRun] on the stored text; [ok] says whether the insertion succeeds, [id]
    is the identifier the database generates. *)
Definition decoded (specJSON : string) : option Spec := match ce_decode_spec E specJSON with Ok s => Some s | Err _ => None end.
Definition insert_run (ok : bool) (id : runid) (now : Z) (jobName : string) (p : prepared) (triggeredBy : string) (d : db)
  : run_answer * db :=
  if ok then (Created (MkCreated id (if (triggeredBy =? "")%string then "api" else triggeredBy) (np_display p)),
              CreateRun id jobName (np_params p) (decoded (np_spec p)) (np_selector p) (np_caps p) now d)
  else (Answered 500 [Lit "create run: "], d).

Variables (GetJob : string → option Job) (ok : bool) (id : runid) (now : Z).

Definition createRunFromJob (jobName : string) (reqParams : gmap string string) (triggeredBy : string) (d : db)
  : run_answer * db :=
  match GetJob jobName with
  | None => (Answered 404 [Lit "job not found: "; Lit jobName], d)
  | Some job =>
      match ce_decode_spec E (jb_Spec job) with
      | Err e => (Answered 500 (Lit "invalid stored job spec: " :: e), d)
      | Ok spec =>
          match prepare_run [] spec (jb_Spec job) reqParams with
          | Err e => (Answered 400 e, d)
          | Ok p => insert_run ok id now (jb_Name job) p triggeredBy d
          end
      end
  end.

(** [handleTriggerRun]; the body is the job and its parameters, or does not
    decode. *)
Definition handleTriggerRun (principal : option Principal) (body : res (string * gmap string string)) (d : db)
  : run_answer * db :=
  match body with
  | Err e => (Answered 400 (Lit "invalid json: " :: e), d)
  | Ok (jobName, params) =>
      if (jobName =? "")%string then (Answered 400 [Lit "jobName is required"], d) else
      match requireJob principal RunTrigger jobName (Some (MkAnswer 404 [Lit "job not found: "; Lit jobName])) with
      | inl o => (Refused o, d)
      | inr _ =>
          let triggeredBy := match principal with
                             | Some p => if (pr_Name p =? "")%string then "api" else pr_Name p
                             | None => "api"
                             end in
          createRunFromJob jobName params triggeredBy d
      end
  end.

(** [handleAgentCreateChildRun]; [read_ok] says whether the guard's read of the
    run succeeds. *)
Definition handleAgentCreateChildRun (read_ok : bool) (agentID : string) (parent : runid)
    (body : res (string * gmap string string)) (sv : server) : run_answer * server :=
  let '(v, c) := agentRunGuard read_ok agentID parent true (sv_db sv) (sv_cache sv) in
  let sv := MkServer (sv_db sv) c in
  match v with
  | inl _ => (Answered 500 [], sv)
  | inr v =>
      match respondRunWriteVerdict v with
      | Some code => (Answered code [], sv)
      | None =>
          match body with
          | Err e => (Answered 400 (Lit "invalid json: " :: e), sv)
          | Ok (jobName, params) =>
              if (jobName =? "")%string then (Answered 400 [Lit "jobName is required"], sv) else
              let '(a, d) := createRunFromJob jobName params ("agent:" +:+ agentID) (sv_db sv) in
              (a, MkServer d c)
          end
      end
  end.

(** [handleReplayRun] of the run [orig]; [specJSON] is what [GetRunSpec] gives. *)
Definition handleReplayRun (uuid : runid → string) (read_ok : bool) (orig : runid) (specJSON : res string) (d : db)
  : run_answer * db :=
  if negb read_ok then (Answered 500 [], d) else
  match d_runs d !! orig with
  | None => (Answered 404 [Lit "run not found"], d)
  | Some r =>
      match specJSON with
      | Err e => (Answered 500 e, d)
      | Ok raw =>
          if (raw =? "")%string then (Answered 500 [Lit "run has no stored spec to replay"], d) else
          match ce_decode_spec E raw with
          | Err e => (Answered 500 (Lit "invalid stored run spec: " :: e), d)
          | Ok spec =>
              match prepare_run [Lit "replay: "] spec raw (r_params r) with
              | Err e => (Answered 400 e, d)
              | Ok p => insert_run ok id now (r_job r) p ("replay:" +:+ uuid orig) d
              end
          end
      end
  end.

(** ** Webhooks *)

(** What the checks read of a request, and what they call: the headers, the body,
    whether a key manager is configured, the secrets as they decrypt, and the
    hexadecimal HMAC-SHA256. *)
Variables (header : string → string) (body : string) (km : bool) (secret : string → res (res string))
          (hmac_hex : string → string → string).

(** [GetSecret] and [Decrypt]: [Err] when there is no such secret, [Ok (Err _)]
    when it does not decrypt. *)
Definition read_secret (missing : text) (ref : string) : res string :=
  match secret ref with
  | Err _ => Err missing
  | Ok r => wrap [Lit "decrypt secret "; Quo ref; Lit ": "] r
  end.

Definition signature_header (auth : WebhookAuth) : string * string :=
  if (wa_Type auth =? "github")%string then ("X-Hub-Signature-256", header "X-Hub-Signature-256")
  else if (header "X-Signature" =? "")%string then ("X-Hub-Signature-256", header "X-Hub-Signature-256")
  else ("X-Signature", header "X-Signature").

Definition verifyWebhookSignature (auth : WebhookAuth) : res unit :=
  _ ← fail_if (negb km) [Lit "key manager not configured — cannot verify signature"];
  key ← read_secret [Lit "secret "; Quo (wa_SecretRef auth); Lit " not found"] (wa_SecretRef auth);
  _ ← fail_if (key =? "")%string [Lit "secret "; Quo (wa_SecretRef auth); Lit " is empty"];
  let '(name, got) := signature_header auth in
  _ ← fail_if (got =? "")%string [Lit "missing signature header"];
  fail_if (negb (got =? "sha256=" +:+ hmac_hex key body)%string) [Lit name; Lit " does not match"].

Definition verifyWebhookToken (auth : WebhookAuth) : res unit :=
  _ ← fail_if (negb km) [Lit "key manager not configured — cannot verify token"];
  key ← read_secret [Lit "secret "; Quo (wa_SecretRef auth); Lit " not found"] (wa_SecretRef auth);
  let name := if (wa_Header auth =? "")%string then "X-Gitlab-Token" else wa_Header auth in
  _ ← fail_if (header name =? "")%string [Lit "missing "; Lit name; Lit " header"];
  fail_if (negb (header name =? key)%string) [Lit "token in "; Lit name; Lit " does not match secret "; Quo (wa_SecretRef auth)].

Definition webhook_auth (receiver : string) (auth : WebhookAuth) : res unit :=
  if (wa_Type auth =? "none")%string then
    fail_if (negb (wa_AllowUnauthenticated auth)) [Lit "webhook receiver "; Quo receiver; Lit " has auth.type none"]
  else wrap [Lit "signature verification failed: "]
         (if (wa_Type auth =? "token")%string then verifyWebhookToken auth else verifyWebhookSignature auth).

Variables (ExpandWebhookTemplate : string → vmap → res string) (decode_payload : string → option vmap)
          (app_source : string → bool) (reset_ok : bool).

(** The filters: [Ok false] when one of them does not read "true". *)
Fixpoint passes_filters (i : nat) (payload : vmap) (filters : list string) : res bool :=
  match filters with
  | [] => Ok true
  | f :: fs =>
      r ← wrap [Lit "filter["; Lit (pretty i); Lit "] error: "] (ExpandWebhookTemplate f payload);
      if (TrimSpace r =? "true")%string then passes_filters (S i) payload fs else Ok false
  end.

Definition map_params (payload : vmap) (mapping : gmap string string) : res (gmap string string) :=
  l ← map_res (λ kv, v ← wrap [Lit "paramsMapping["; Lit kv.1; Lit "] error: "] (ExpandWebhookTemplate kv.2 payload);
                     Ok (kv.1, v)) (map_to_list mapping);
  Ok (list_to_map l).

Definition webhook_run (receiver : string) (spec : WebhookReceiverSpec) (payload : vmap) (d : db) : run_answer * db :=
  match map_params payload (ws_ParamsMapping spec) with
  | Err e => (Answered 400 e, d)
  | Ok given =>
      match GetJob (ws_Job spec) with
      | None => (Answered 400 [Lit "job not found: "; Lit (ws_Job spec)], d)
      | Some job =>
          match ce_decode_spec E (jb_Spec job) with
          | Err e => (Answered 500 (Lit "invalid stored job spec: " :: e), d)
          | Ok jobSpec =>
              match (_ ← validateWebhookPayloadMappedParams receiver (ws_ParamsMapping spec)
                           (pa_Inputs (sp_Params jobSpec)) (ws_Job spec);
                     prepare_run [] jobSpec (jb_Spec job) given) with
              | Err e => (Answered 400 e, d)
              | Ok p => insert_run ok id now (jb_Name job) p ("webhook:" +:+ receiver) d
              end
          end
      end
  end.

(** [handleWebhookIngress]; [receiver_spec] is the stored receiver, which may not
    decode, and [too_large] says whether the body exceeds the limit.  The second
    component of the result says whether a sync of the app source is forced. *)
Definition handleWebhookIngress (receiver : string) (receiver_spec : option (option WebhookReceiverSpec)) (too_large : bool)
    (d : db) : run_answer * bool * db :=
  match receiver_spec with
  | None => (Answered 404 [Lit "webhook receiver not found"], false, d)
  | Some None => (Answered 500 [Lit "invalid receiver spec"], false, d)
  | Some (Some spec) =>
      if too_large then (Answered 413 [], false, d) else
      match webhook_auth receiver (ws_Auth spec) with
      | Err e => (Answered 401 e, false, d)
      | Ok _ =>
          match decode_payload body with
          | None => (Answered 400 [Lit "invalid JSON payload"], false, d)
          | Some payload =>
              match passes_filters 0 payload (ws_Filters spec) with
              | Err e => (Answered 400 e, false, d)
              | Ok false => (Answered 204 [], false, d)
              | Ok true =>
                  if negb (ws_AppSource spec =? "")%string then
                    if negb (app_source (ws_AppSource spec))
                    then (Answered 400 [Lit "appSource not found: "; Lit (ws_AppSource spec)], false, d)
                    else if reset_ok then (Answered 202 [], true, d)
                    else (Answered 500 [Lit "trigger appSource sync: "], false, d)
                  else let '(a, d) := webhook_run receiver spec payload d in (a, false, d)
              end
          end
      end
  end.
End create.

(** ** What every way of creating a run guarantees *)

Section sound.
Variable E : CreateEnv.

(** A run whose parameters meet the inputs of the specification it was created
    from, and which is routed as that specification says. *)
Definition well_created (r : run) : Prop :=
  r_status r = RunPending ∧ r_claimed_by r = None ∧
  ∃ spec specJSON out, ce_decode_spec E specJSON = Ok spec
    ∧ (∀ i, i ∈ pa_Inputs (sp_Params spec) → input_met (ce_compile_re E) (r_params r) (r_params r) i)
    ∧ ExpandAgentSelector (ce_ExpandTemplate E) (sp_AgentSelector spec) (r_params r) = Ok (r_selector r)
    ∧ r_caps r = RequiredCaps (ce_gosyntax E) spec
    ∧ prepareRunSpec (ce_syntax_error E) (ce_parse_template E) (r_params r) (ce_json_values E) (ce_json_marshal E) specJSON = Ok out
    ∧ r_spec r = decoded E out.

(** An answer that tells of a run goes with the insertion of that run alone. *)
Definition told (P : run → Prop) (d : db) (a : run_answer) (d' : db) : Prop :=
  match a with
  | Created c => ∃ r, d' = set_runs <[ct_id c := r]> d ∧ P r
  | _ => d' = d
  end.

Lemma prepared_told pre spec raw given p ok id now job trig d a d' :
  ce_decode_spec E raw = Ok spec → prepare_run E pre spec raw given = Ok p →
  insert_run E ok id now job p trig d = (a, d') → told well_created d a d'.
Proof.
  intros Hd. unfold prepare_run. rewrite bind_ok. intros (params & Hp%wrap_ok & H). revert H.
  rewrite bind_ok. intros (sel & Hs%wrap_ok & H). revert H. rewrite bind_ok. intros (name & _ & H). revert H.
  rewrite bind_ok. intros (out & Ho & [= <-]). unfold insert_run. destruct ok; intros [= <- <-]; [|done].
  simpl. eexists. split; [reflexivity|]. split_and!; [done..|]. exists spec, raw, out. simpl. split_and!; try done.
  exact (resolve_meets _ _ _ _ _ Hp).
Qed.

Lemma from_job_told GetJob ok id now job given trig d a d' :
  createRunFromJob E GetJob ok id now job given trig d = (a, d') → told well_created d a d'.
Proof.
  unfold createRunFromJob. destruct (GetJob job) as [j|]; [|by intros [= <- <-]].
  destruct (ce_decode_spec E (jb_Spec j)) as [spec|e] eqn:Hd; [|by intros [= <- <-]].
  destruct (prepare_run E [] spec (jb_Spec j) given) as [p|e] eqn:Hp; [|by intros [= <- <-]].
  by apply (prepared_told _ _ _ _ _ _ _ _ _ _ _ _ _ Hd Hp).
Qed.

Lemma trigger_told GetJob ok id now principal body d a d' :
  handleTriggerRun E GetJob ok id now principal body d = (a, d') → told well_created d a d'.
Proof.
  unfold handleTriggerRun. destruct body as [[job given]|]; [|by intros [= <- <-]].
  destruct (_ =? _)%string; [by intros [= <- <-]|]. destruct (requireJob _ _ _ _); [by intros [= <- <-]|].
  apply from_job_told.
Qed.

Lemma child_told GetJob ok id now read_ok agentID parent body sv a sv' :
  handleAgentCreateChildRun E GetJob ok id now read_ok agentID parent body sv = (a, sv') →
  told well_created (sv_db sv) a (sv_db sv').
Proof.
  unfold handleAgentCreateChildRun. destruct (agentRunGuard _ _ _ _ _ _) as [[[]|v] c]; [by intros [= <- <-]|].
  destruct (respondRunWriteVerdict v); [by intros [= <- <-]|]. destruct body as [[job given]|]; [|by intros [= <- <-]].
  destruct (_ =? _)%string; [by intros [= <- <-]|]. simpl. destruct (createRunFromJob _ _ _ _ _ _ _ _ _) as [a' d'] eqn:H.
  intros [= <- <-]. by apply from_job_told in H.
Qed.

Lemma replay_told ok id now uuid read_ok orig raw d a d' :
  handleReplayRun E ok id now uuid read_ok orig raw d = (a, d') → told well_created d a d'.
Proof.
  unfold handleReplayRun. destruct read_ok; simpl; [|by intros [= <- <-]].
  destruct (d_runs d !! orig) as [r|]; [|by intros [= <- <-]]. destruct raw as [raw|]; [|by intros [= <- <-]].
  destruct (_ =? _)%string; [by intros [= <- <-]|]. destruct (ce_decode_spec E raw) as [spec|] eqn:Hd; [|by intros [= <- <-]].
  destruct (prepare_run _ _ _ _ _) as [p|] eqn:Hp; [|by intros [= <- <-]].
  by apply (prepared_told _ _ _ _ _ _ _ _ _ _ _ _ _ Hd Hp).
Qed.

Lemma webhook_run_told GetJob ok id now EWT receiver spec payload d a d' :
  webhook_run E GetJob ok id now EWT receiver spec payload d = (a, d') → told well_created d a d'.
Proof.
  unfold webhook_run. destruct (map_params _ _ _); [|by intros [= <- <-]].
  destruct (GetJob _) as [j|]; [|by intros [= <- <-]].
  destruct (ce_decode_spec E (jb_Spec j)) as [js|] eqn:Hd; [|by intros [= <- <-]].
  destruct (_ ← validateWebhookPayloadMappedParams _ _ _ _; _) as [p|] eqn:Hp; [|by intros [= <- <-]].
  apply then_ok in Hp as [_ Hp]. by apply (prepared_told _ _ _ _ _ _ _ _ _ _ _ _ _ Hd Hp).
Qed.
End sound.

(** ** Webhooks are authentic *)

Section authentic.
Variables (header : string → string) (body : string) (km : bool) (secret : string → res (res string))
          (hmac_hex : string → string → string).

(** What a request has to show for a receiver's [auth] block. *)
Definition authentic (auth : WebhookAuth) : Prop :=
  if (wa_Type auth =? "none")%string then wa_AllowUnauthenticated auth = true
  else km = true ∧ ∃ key, secret (wa_SecretRef auth) = Ok (Ok key) ∧ key ≠ "" ∧
    if (wa_Type auth =? "token")%string
    then header (if (wa_Header auth =? "")%string then "X-Gitlab-Token" else wa_Header auth) = key
    else (signature_header header auth).2 = "sha256=" +:+ hmac_hex key body.

Lemma read_secret_ok missing ref key : read_secret secret missing ref = Ok key ↔ secret ref = Ok (Ok key).
Proof using Type. clear header body km hmac_hex.
  unfold read_secret. destruct (secret ref) as [[k|e]|e]; simpl; naive_solver.
Qed.

Lemma webhook_auth_ok receiver auth :
  webhook_auth header body km secret hmac_hex receiver auth = Ok tt ↔ authentic auth.
Proof.
  unfold webhook_auth, authentic. destruct (wa_Type auth =? "none")%string.
  { by rewrite fail_if_ok, negb_false_iff. }
  rewrite wrap_ok. destruct (wa_Type auth =? "token")%string.
  - unfold verifyWebhookToken. rewrite then_ok, fail_if_ok, negb_false_iff, bind_ok. f_equiv.
    split; intros (key & H); exists key; revert H; rewrite read_secret_ok, then_ok, !fail_if_ok, negb_false_iff, String.eqb_eq,
      String.eqb_neq; naive_solver.
  - unfold verifyWebhookSignature. rewrite then_ok, fail_if_ok, negb_false_iff, bind_ok. f_equiv.
    destruct (signature_header header auth) as [name got]. simpl.
    split; intros (key & H); exists key; revert H;
      rewrite read_secret_ok, !then_ok, !fail_if_ok, negb_false_iff, String.eqb_eq, !String.eqb_neq; [naive_solver|].
    intros (? & ? & ->). split_and!; done.
Qed.
End authentic.

(** C16: A webhook acts only for an authentic sender, whose values the job
    constrains.  A request that creates a run or forces a sync names a stored
    receiver and passes its check: the receiver says none and allows it, or the
    token or the HMAC of the body under the receiver's non-empty secret is right.
    The run it creates has parameters that meet the job's inputs, and every
    parameter whose mapping is a template is an input with a pattern, choices or
    an explicit opt-out.  A request that fails the check is answered 401 and
    changes nothing; any other answer without a run or a sync changes nothing
    either. *)
Theorem webhook_authentic (E : CreateEnv) (GetJob : string → option Job) (ok : bool) (id : runid) (now : Z)
    (header : string → string) (body : string) (km : bool) (secret : string → res (res string))
    (hmac_hex : string → string → string) (EWT : string → vmap → res string) (decode_payload : string → option vmap)
    (app_source : string → bool) (reset_ok : bool) (receiver : string) (rs : option (option WebhookReceiverSpec))
    (too_large : bool) (d d' : db) (a : run_answer) (sync : bool) :
  handleWebhookIngress E GetJob ok id now header body km secret hmac_hex EWT decode_payload app_source reset_ok
    receiver rs too_large d = (a, sync, d') →
  told (well_created E) d a d' ∧
  (sync = true ∨ (∃ c, a = Created c) →
     ∃ spec, rs = Some (Some spec) ∧ authentic header body km secret hmac_hex (ws_Auth spec)) ∧
  (∀ c, a = Created c → ∃ spec job js, rs = Some (Some spec) ∧ GetJob (ws_Job spec) = Some job
     ∧ ce_decode_spec E (jb_Spec job) = Ok js
     ∧ ∀ param tpl, ws_ParamsMapping spec !! param = Some tpl → Contains tpl "{{" = true →
         constrained (pa_Inputs (sp_Params js)) param = true) ∧
  (∀ spec, rs = Some (Some spec) → too_large = false → ¬ authentic header body km secret hmac_hex (ws_Auth spec) →
     ∃ e, a = Answered 401 e ∧ sync = false ∧ d' = d).
Proof.
  unfold handleWebhookIngress. destruct rs as [[spec|]|]; [|intros [= <- <- <-]; naive_solver..].
  destruct too_large; [intros [= <- <- <-]; naive_solver|].
  pose proof (webhook_auth_ok header body km secret hmac_hex receiver (ws_Auth spec)) as Hauth.
  destruct (webhook_auth _ _ _ _ _ _ _) as [[]|e]; [|intros [= <- <- <-]; naive_solver].
  apply proj1 in Hauth. specialize (Hauth eq_refl).
  destruct (decode_payload body) as [payload|]; [|intros [= <- <- <-]; naive_solver].
  destruct (passes_filters _ _ _ _) as [[]|]; [|intros [= <- <- <-]; naive_solver..].
  destruct (negb _).
  { repeat case_match; intros [= <- <- <-]; naive_solver. }
  destruct (webhook_run _ _ _ _ _ _ _ _ _ _) as [a' d1] eqn:H. intros [= <- <- <-].
  split; [by eapply webhook_run_told|]. split; [eauto|]. split; [|intros ? [= <-]; naive_solver].
  intros c ->. revert H. unfold webhook_run. destruct (map_params _ _ _); [|done].
  destruct (GetJob _) as [job|] eqn:Hj; [|done]. destruct (ce_decode_spec E (jb_Spec job)) as [js|] eqn:Hd; [|done].
  destruct (_ ← validateWebhookPayloadMappedParams _ _ _ _; _) as [p|] eqn:Hp; [|done]. intros _.
  exists spec, job, js. split_and!; [done..|]. apply then_ok in Hp as [Hv _]. intros param tpl Hm Ht.
  unfold validateWebhookPayloadMappedParams in Hv. rewrite each_ok in Hv.
  assert (param ∈ sorted_keys (ws_ParamsMapping spec)) as Hin by (apply elem_of_sorted_keys; by eexists).
  apply list_elem_of_lookup in Hin as [k Hk]. specialize (Hv k param Hk). rewrite fail_if_ok, Hm in Hv. simpl in Hv.
  rewrite Ht in Hv. simpl in Hv. by apply negb_false_iff in Hv.
Qed.

(** ** A sample *)

Definition sample_env : CreateEnv :=
  MkCreateEnv (λ _, "") sample_sprint literal_re (λ s _, Ok s) [Lit "syntax"] (λ _, Ok [])
    (λ _, ([VMap spec_value], None)) (λ _, "prepared") (λ _, Ok sample_stored).
Definition sample_receiver : WebhookReceiverSpec :=
  MkWebhookReceiverSpec "ci" "" (MkWebhookAuth "github" "gh" "" false) ∅ [].
Definition sample_ingress (signature : string) : run_answer * bool * db :=
  handleWebhookIngress sample_env (λ n, Some (MkJob n "stored")) true 1 100 (λ _, signature) "{}" true (λ _, Ok (Ok "key"))
    (λ k b, k +:+ b) (λ s _, Ok s) (λ _, Some []) (λ _, true) true "hook" (Some (Some sample_receiver)) false db_empty.

Lemma webhook_authentic_witness :
  (∃ c d, sample_ingress "sha256=key{}" = (Created c, false, d) ∧ status_of d 1 = Some RunPending)
  ∧ ∃ e, sample_ingress "sha256=other" = (Answered 401 e, false, db_empty).
Proof.
  split.
  - destruct (sample_ingress "sha256=key{}") as [[a sync] d] eqn:H.
    pose proof (proj1 (webhook_authentic _ _ _ _ _ _ _ _ _ _ _ _ _ _ _ _ _ _ _ _ _ H)) as Ht.
    vm_compute in H. injection H as <- <- <-. eexists _, _. split; [reflexivity|]. destruct Ht as (r & Hd & Hr & _).
    unfold status_of. rewrite Hd. simpl. by rewrite lookup_insert_eq; simpl; rewrite Hr.
  - destruct (sample_ingress "sha256=other") as [[a sync] d] eqn:H.
    destruct (proj2 (proj2 (proj2 (webhook_authentic _ _ _ _ _ _ _ _ _ _ _ _ _ _ _ _ _ _ _ _ _ H))) sample_receiver
      eq_refl eq_refl) as (e & -> & -> & ->).
    + intros (_ & key & [= <-] & _ & Hs). vm_compute in Hs. discriminate.
    + by exists e.
Defined.

(** A receiver without an auth type, as an old row may hold, is checked like
    hmac-sha256: with the right signature it is accepted. *)
Example empty_type_is_hmac :
  webhook_auth (λ _, "sha256=key{}") "{}" true (λ _, Ok (Ok "key")) (λ k b, k +:+ b) "hook" (MkWebhookAuth "" "gh" "" false) = Ok tt.
Proof. reflexivity. Qed.
