(* ===== verification/Schedules.v ===== *)
(** * internal/controller/scheduler.go: the schedules

    [checkAndFireSchedules] over the table of schedules ([store/postgres.go]); the
    cron library is a parameter.  Times are in seconds.  The last theorem gathers
    the ways a run is created ([RunCreate]). *)

From S2P Require Import Prelude GoStrings DslTypes DslMatrix SecretRefs DslSecurity AgentSteps StoreRuns StoreLocks StoreLife StoreSpec Authz AuthzServer AgentGuard ClaimBuild Schedulability RunText RunCreate.
From stdpp Require Import options.

(** A row of [schedules], by its name. *)
Record Schedule := MkSchedule {
  sd_Cron : string; sd_JobName : string; sd_Params : gmap string string; sd_LastFiredAt : option Z
}.

Definition fired_at (t : Z) (sc : Schedule) : Schedule := MkSchedule (sd_Cron sc) (sd_JobName sc) (sd_Params sc) (Some t).

(** [UpsertSchedule], which keeps the time of the last firing. *)
Definition UpsertSchedule (name cron jobName : string) (params : gmap string string) (scs : gmap string Schedule)
  : gmap string Schedule :=
  partial_alter (λ old, Some (MkSchedule cron jobName params (old ≫= sd_LastFiredAt))) name scs.
Definition UpdateScheduleLastFiredAt (name : string) (t : Z) (scs : gmap string Schedule) : gmap string Schedule :=
  alter (fired_at t) name scs.
Definition ListSchedules (scs : gmap string Schedule) : list (string * Schedule) :=
  omap (λ n, pair n <$> scs !! n) (sorted_keys scs).

(** What one pass meets: the time, the jobs, the statements that succeed and the
    identifiers the database generates, by schedule; and the inputs that decoding a
    stored specification leaves when it fails half way. *)
Record pass := MkPass {
  ps_now : Z;
  ps_list_ok : bool;
  ps_GetJob : string → option Job;
  ps_create_ok : string → bool;
  ps_update_ok : string → bool;
  ps_id : string → runid;
  ps_partial : string → list Input
}.

Record sched_state := MkSched { ss_db : db; ss_schedules : gmap string Schedule }.

(** What a pass did for a schedule, at the time of the pass: an occurrence was
    fired, or passed over as too old. *)
Inductive event :=
| Fired (name : string) (at_ occurrence : Z) (id : runid)
| PassedOver (name : string) (at_ occurrence : Z).

Section schedules.
Variables (E : CreateEnv) (NextCronTime : string → Z → res Z).

(** The firing branch up to the creation of the run; [None] skips this pass. *)
Definition fire (p : pass) (name : string) (sc : Schedule) (d : db) : option (created * db) :=
  job ← ps_GetJob p (sd_JobName sc);
  np ← (match ce_decode_spec E (jb_Spec job) with
        | Ok spec =>
            match prepare_run E [] spec (jb_Spec job) (sd_Params sc) with
            | Ok np => match degenerateSelectorElement (np_selector np) with Some _ => None | None => Some np end
            | Err _ => None
            end
        | Err _ =>
            match resolveParams (ce_sprint E) (ce_compile_re E) (ps_partial p (jb_Spec job)) (sd_Params sc) with
            | Ok params => Some (MkPrepared params [] "" (jb_Spec job) [])
            | Err _ => None
            end
        end);
  match insert_run E (ps_create_ok p name) (ps_id p name) (ps_now p) (sd_JobName sc) np ("schedule:" +:+ name) d with
  | (Created c, d) => Some (c, d)
  | _ => None
  end.

Definition advance (p : pass) (name : string) (t : Z) (scs : gmap string Schedule) : gmap string Schedule :=
  if ps_update_ok p name then UpdateScheduleLastFiredAt name t scs else scs.

(** One turn of the loop. *)
Definition check_schedule (p : pass) (row : string * Schedule) (st : sched_state) : list event * sched_state :=
  let '(name, sc) := row in
  let windowStart := (ps_now p - 3600)%Z in
  match NextCronTime (sd_Cron sc) (default windowStart (sd_LastFiredAt sc)) with
  | Err _ => ([], st)
  | Ok next =>
      if (ps_now p <? next)%Z then ([], st)
      else if (windowStart <=? next)%Z then
        match fire p name sc (ss_db st) with
        | None => ([], st)
        | Some (c, d) => ([Fired name (ps_now p) next (ct_id c)], MkSched d (advance p name next (ss_schedules st)))
        end
      else ([PassedOver name (ps_now p) next], MkSched (ss_db st) (advance p name next (ss_schedules st)))
  end.

Fixpoint check_rows (p : pass) (rows : list (string * Schedule)) (st : sched_state) : list event * sched_state :=
  match rows with
  | [] => ([], st)
  | row :: rows =>
      let '(e, st) := check_schedule p row st in
      let '(es, st) := check_rows p rows st in
      (e ++ es, st)
  end.

Definition checkAndFireSchedules (p : pass) (st : sched_state) : list event * sched_state :=
  if ps_list_ok p then check_rows p (ListSchedules (ss_schedules st)) st else ([], st).

(** [RunScheduler]'s use of it: at most once per minute. *)
Definition schedule_tick (p : pass) (last : Z) (st : sched_state) : list event * (Z * sched_state) :=
  if (60 <=? ps_now p - last)%Z
  then let '(es, st) := checkAndFireSchedules p st in (es, (ps_now p, st)) else ([], (last, st)).

Fixpoint schedule_ticks (ps : list pass) (last : Z) (st : sched_state) : list event * (Z * sched_state) :=
  match ps with
  | [] => ([], (last, st))
  | p :: ps =>
      let '(es, (last, st)) := schedule_tick p last st in
      let '(es', r) := schedule_ticks ps last st in
      (es ++ es', r)
  end.
End schedules.

(** ** Each occurrence is handled once, in order *)

Definition ev_name (e : event) : string := match e with Fired n _ _ _ | PassedOver n _ _ => n end.
Definition ev_occurrence (e : event) : Z := match e with Fired _ _ o _ | PassedOver _ _ o => o end.
Definition named (n : string) (es : list event) : list event := filter (λ e, ev_name e = n) es.

Lemma named_app n es1 es2 : named n (es1 ++ es2) = named n es1 ++ named n es2.
Proof. apply filter_app. Qed.

(** An occurrence is fired when at most an hour old, and passed over otherwise. *)
Definition timely (e : event) : Prop :=
  match e with
  | Fired _ at_ o _ => (at_ - 3600 ≤ o ≤ at_)%Z
  | PassedOver _ at_ o => (o < at_ - 3600)%Z
  end.

Lemma ListSchedules_elem scs n sc : (n, sc) ∈ ListSchedules scs ↔ scs !! n = Some sc.
Proof.
  unfold ListSchedules. rewrite list_elem_of_omap. split.
  - intros (k & _ & Hk). destruct (scs !! k) eqn:Ek; naive_solver.
  - intros H. exists n. rewrite H. split; [apply elem_of_sorted_keys; by eexists|done].
Qed.

Lemma ListSchedules_NoDup scs : NoDup (ListSchedules scs).*1.
Proof.
  unfold ListSchedules. assert (∀ l, NoDup l → NoDup (omap (λ n, pair n <$> scs !! n) l).*1) as H.
  { induction 1 as [|n l Hn _ IH]; [constructor|]. simpl. destruct (scs !! n); simpl; [|done].
    constructor; [|done]. intros ([? ?] & -> & (k & Hk & Hx)%list_elem_of_omap)%list_elem_of_fmap.
    destruct (scs !! k); naive_solver. }
  apply H, sorted_keys_NoDup.
Qed.

Section once.
Variables (E : CreateEnv) (NextCronTime : string → Z → res Z).

Lemma fire_db p name sc d d' :
  fst <$> fire E p name sc d = fst <$> fire E p name sc d'.
Proof.
  unfold fire. destruct (ps_GetJob p (sd_JobName sc)) as [j|]; [|done]. cbn [mbind option_bind].
  match goal with |- context [mbind _ ?x] => destruct x as [np|] end; [|done]. cbn [mbind option_bind].
  unfold insert_run. by destruct (ps_create_ok p name).
Qed.

(** What a pass does to one row does not depend on the rest. *)
Definition row_events (p : pass) (name : string) (sc : Schedule) : list event :=
  (check_schedule E NextCronTime p (name, sc) (MkSched db_empty ∅)).1.

Lemma check_schedule_eq p name sc st :
  let '(es, st') := check_schedule E NextCronTime p (name, sc) st in
  es = row_events p name sc ∧
  ss_schedules st' = match row_events p name sc with
                     | [] => ss_schedules st
                     | e :: _ => advance p name (ev_occurrence e) (ss_schedules st)
                     end.
Proof.
  unfold row_events, check_schedule. destruct (NextCronTime _ _) as [next|]; [|done].
  destruct (_ <? _)%Z; [done|]. destruct (_ <=? _)%Z; [|done]. simpl.
  pose proof (fire_db p name sc (ss_db st) db_empty) as H.
  destruct (fire E p name sc (ss_db st)) as [[c d]|], (fire E p name sc db_empty) as [[c' d']|]; simpl in H; try done.
  injection H as <-. done.
Qed.

Lemma row_events_facts p name sc e es :
  row_events p name sc = e :: es →
  es = [] ∧ ev_name e = name ∧ timely e ∧
  NextCronTime (sd_Cron sc) (default (ps_now p - 3600)%Z (sd_LastFiredAt sc)) = Ok (ev_occurrence e).
Proof.
  unfold row_events, check_schedule. destruct (NextCronTime _ _) as [next|]; [|done].
  destruct (Z.ltb_spec (ps_now p) next); [done|]. destruct (Z.leb_spec (ps_now p - 3600) next).
  - destruct (fire _ _ _ _ _) as [[c d]|]; [|done]. simpl. intros [= <- <-]. simpl. split_and!; [done..|lia|lia|done].
  - simpl. intros [= <- <-]. simpl. done.
Qed.

Lemma check_rows_at p rows st es st' n :
  check_rows E NextCronTime p rows st = (es, st') → NoDup rows.*1 →
  (n ∉ rows.*1 → named n es = [] ∧ ss_schedules st' !! n = ss_schedules st !! n) ∧
  ∀ sc, (n, sc) ∈ rows → named n es = row_events p n sc ∧
    ss_schedules st' !! n = match row_events p n sc with
                            | [] => ss_schedules st !! n
                            | e :: _ => if ps_update_ok p n then fired_at (ev_occurrence e) <$> ss_schedules st !! n
                                        else ss_schedules st !! n
                            end.
Proof.
  revert st es. induction rows as [|[k sc0] rows IH]; intros st es; cbn [check_rows].
  { intros [= <- <-] _. split; [done|]. by intros ? ?%elem_of_nil. }
  pose proof (check_schedule_eq p k sc0 st) as Hc. destruct (check_schedule _ _ _ _ _) as [e st1].
  destruct (check_rows _ _ p rows st1) as [es1 st2] eqn:Hrows. intros [= <- <-] [Hk Hd]%NoDup_cons.
  destruct Hc as [-> Hst1]. destruct (IH _ _ Hrows Hd) as [Hother Hthis]. clear IH Hrows.
  assert (∀ m, named m (row_events p k sc0) = if bool_decide (k = m) then row_events p k sc0 else []) as Hn.
  { intros m. unfold named. destruct (row_events p k sc0) as [|x l] eqn:Hr; [by destruct (bool_decide _)|].
    apply row_events_facts in Hr as (-> & Hx & _). rewrite filter_cons, filter_nil, Hx. by case_bool_decide; case_decide. }
  assert (∀ m, m ≠ k → ss_schedules st1 !! m = ss_schedules st !! m) as Hst1'.
  { intros m Hm. rewrite Hst1. destruct (row_events p k sc0); [done|]. unfold advance.
    destruct (ps_update_ok p k); [|done]. unfold UpdateScheduleLastFiredAt. by rewrite lookup_alter_ne. }
  split.
  - intros [Hnk Hnr]%not_elem_of_cons. rewrite named_app, Hn, bool_decide_false by done. destruct (Hother Hnr) as [-> ->]. split; [done|]. by apply Hst1'.
  - intros sc [[= -> ->]|Hin]%elem_of_cons.
    + rewrite named_app, Hn, bool_decide_true by done. destruct (Hother Hk) as [-> ->]. rewrite app_nil_r. split; [done|].
      rewrite Hst1. destruct (row_events p k sc0) as [|x l]; [done|]. unfold advance.
      destruct (ps_update_ok p k); [|done]. unfold UpdateScheduleLastFiredAt. by rewrite lookup_alter_eq.
    + assert (n ≠ k) as Hnk by (intros ->; apply Hk, list_elem_of_fmap; by exists (k, sc)).
      rewrite named_app, Hn, bool_decide_false by done. destruct (Hthis sc Hin) as [-> ->]. split; [done|].
      rewrite Hst1' by done. done.
Qed.

(** The row after a pass. *)
Definition row_after (p : pass) (name : string) (sc : Schedule) : Schedule :=
  match row_events p name sc with
  | e :: _ => if ps_update_ok p name then fired_at (ev_occurrence e) sc else sc
  | [] => sc
  end.

Lemma pass_at p st es st' n sc :
  checkAndFireSchedules E NextCronTime p st = (es, st') → ss_schedules st !! n = Some sc →
  named n es = (if ps_list_ok p then row_events p n sc else []) ∧
  ss_schedules st' !! n = Some (if ps_list_ok p then row_after p n sc else sc).
Proof.
  unfold checkAndFireSchedules. destruct (ps_list_ok p); [|by intros [= <- <-]]. intros H Hsc.
  destruct (check_rows_at _ _ _ _ _ n H (ListSchedules_NoDup _)) as [_ Hrow].
  destruct (Hrow sc) as [-> ->]; [by apply ListSchedules_elem|]. split; [done|]. unfold row_after. rewrite Hsc.
  destruct (row_events p n sc); [done|]. by destruct (ps_update_ok p n).
Qed.

(** Occurrences that follow one another, from the last one handled. *)
Fixpoint follow (cron : string) (prev : option Z) (os : list Z) : Prop :=
  match os with
  | [] => True
  | o :: os => match prev with Some b => NextCronTime cron b = Ok o | None => True end ∧ follow cron (Some o) os
  end.

Lemma follow_sorted cron prev os :
  (∀ b o, NextCronTime cron b = Ok o → (b < o)%Z) → follow cron prev os →
  StronglySorted Z.lt os ∧ ∀ b, prev = Some b → Forall (Z.lt b) os.
Proof.
  intros Hnext. revert prev. induction os as [|o os IH]; intros prev; simpl; [split; [constructor|by constructor]|].
  intros [Ho Hf]. destruct (IH _ Hf) as [Hs Ha]. specialize (Ha o eq_refl). split; [by constructor|].
  intros b ->. apply Hnext in Ho. constructor; [done|]. eapply Forall_impl; [exact Ha|]. intros x ?. simpl. lia.
Qed.

Definition last_or (old : option Z) (os : list Z) : option Z := match last os with Some o => Some o | None => old end.

Lemma ticks_at n ps last st es last' st' sc :
  Forall (λ p, ps_update_ok p n = true) ps →
  schedule_ticks E NextCronTime ps last st = (es, (last', st')) → ss_schedules st !! n = Some sc →
  follow (sd_Cron sc) (sd_LastFiredAt sc) (ev_occurrence <$> named n es) ∧
  Forall timely (named n es) ∧
  ss_schedules st' !! n
    = Some (MkSchedule (sd_Cron sc) (sd_JobName sc) (sd_Params sc)
              (last_or (sd_LastFiredAt sc) (ev_occurrence <$> named n es))).
Proof.
  intros Hup. revert last st es sc. induction Hup as [|p ps Hp _ IH]; intros last st es sc; cbn [schedule_ticks].
  { intros [= <- <- <-] ->. split_and!; [done|by constructor|]. by destruct sc. }
  destruct (schedule_tick E NextCronTime p last st) as [es1 [last1 st1]] eqn:H1.
  destruct (schedule_ticks E NextCronTime ps last1 st1) as [es2 [last2 st2]] eqn:H2. intros [= <- <- <-] Hsc.
  assert ((named n es1 = [] ∧ ss_schedules st1 !! n = Some sc) ∨
          ∃ e, named n es1 = [e] ∧ timely e ∧
            NextCronTime (sd_Cron sc) (default (ps_now p - 3600)%Z (sd_LastFiredAt sc)) = Ok (ev_occurrence e) ∧
            ss_schedules st1 !! n = Some (fired_at (ev_occurrence e) sc)) as Hpass.
  { unfold schedule_tick in H1. destruct (_ <=? _)%Z; [|injection H1 as <- <- <-; by left].
    destruct (checkAndFireSchedules E NextCronTime p st) as [es0 st0] eqn:H0. injection H1 as <- <- <-.
    apply (pass_at _ _ _ _ n sc) in H0; [|done]. destruct H0 as [-> ->].
    destruct (ps_list_ok p); [|by left]. unfold row_after. rewrite Hp.
    destruct (row_events p n sc) as [|e l] eqn:Hr; [by left|]. right. exists e.
    apply row_events_facts in Hr as (-> & _ & ? & ?). done. }
  rewrite named_app, fmap_app. destruct Hpass as [[-> Hsc1]|(e & -> & Ht & Hnext & Hsc1)].
  - by apply (IH _ _ _ _ H2 Hsc1).
  - destruct (IH _ _ _ _ H2 Hsc1) as (Hf & Hts & ->). csimpl. split_and!.
    + by destruct (sd_LastFiredAt sc).
    + exact Hf.
    + by constructor.
    + f_equal. f_equal. unfold last_or. simpl. rewrite last_cons.
      by destruct (list.last _).
Qed.
(** The run of a schedule can be created: its job is there and its stored
    specification can be prepared with the schedule's parameters (one that does not
    decode only needs parameters that resolve). *)
Definition fireable (p : pass) (sc : Schedule) : Prop :=
  ∃ job, ps_GetJob p (sd_JobName sc) = Some job ∧
    match ce_decode_spec E (jb_Spec job) with
    | Ok spec => ∃ np, prepare_run E [] spec (jb_Spec job) (sd_Params sc) = Ok np ∧ degenerateSelectorElement (np_selector np) = None
    | Err _ => ∃ params, resolveParams (ce_sprint E) (ce_compile_re E) (ps_partial p (jb_Spec job)) (sd_Params sc) = Ok params
    end.

Lemma fireable_fires p n sc d : fireable p sc → ps_create_ok p n = true → is_Some (fire E p n sc d).
Proof.
  intros (job & Hj & H) Hc. unfold fire. rewrite Hj. cbn [mbind option_bind]. destruct (ce_decode_spec E (jb_Spec job)) as [spec|e].
  - destruct H as (np & -> & ->). cbn [mbind option_bind]. unfold insert_run. rewrite Hc. by eexists.
  - destruct H as (params & ->). cbn [mbind option_bind]. unfold insert_run. rewrite Hc. by eexists.
Qed.

(** A schedule that is due is handled by a pass that looks. *)
Lemma due_handled p n sc o :
  NextCronTime (sd_Cron sc) (default (ps_now p - 3600)%Z (sd_LastFiredAt sc)) = Ok o → (o ≤ ps_now p)%Z →
  ((o < ps_now p - 3600)%Z → row_events p n sc = [PassedOver n (ps_now p) o]) ∧
  ((ps_now p - 3600 ≤ o)%Z → fireable p sc → ps_create_ok p n = true → ∃ id, row_events p n sc = [Fired n (ps_now p) o id]).
Proof.
  intros Hnext Hle. unfold row_events, check_schedule. rewrite Hnext. rewrite (proj2 (Z.ltb_ge _ _)) by done. split; intros Ho.
  - by rewrite (proj2 (Z.leb_gt _ _)) by lia.
  - intros Hf Hc. rewrite (proj2 (Z.leb_le _ _)) by done. destruct (fireable_fires p n sc (ss_db (MkSched db_empty ∅)) Hf Hc) as [[c d] ->]. by eexists.
Qed.

Lemma ticks_app ps1 ps2 last st :
  schedule_ticks E NextCronTime (ps1 ++ ps2) last st
  = (let '(es1, (last1, st1)) := schedule_ticks E NextCronTime ps1 last st in
     let '(es2, r) := schedule_ticks E NextCronTime ps2 last1 st1 in (es1 ++ es2, r)).
Proof.
  revert last st. induction ps1 as [|p ps1 IH]; intros last st; cbn [app schedule_ticks].
  { by destruct (schedule_ticks E NextCronTime ps2 last st) as [es r]. }
  destruct (schedule_tick E NextCronTime p last st) as [es [last1 st1]]. rewrite IH.
  destruct (schedule_ticks E NextCronTime ps1 last1 st1) as [es1 [last2 st2]].
  destruct (schedule_ticks E NextCronTime ps2 last2 st2) as [es2 r]. by rewrite app_assoc.
Qed.

Lemma tick_handles p last st n sc e :
  ss_schedules st !! n = Some sc → (60 ≤ ps_now p - last)%Z → ps_list_ok p = true → row_events p n sc = [e] →
  e ∈ (schedule_tick E NextCronTime p last st).1.
Proof.
  intros Hsc Hgap Hok Hr. unfold schedule_tick. rewrite (proj2 (Z.leb_le _ _)) by done.
  destruct (checkAndFireSchedules E NextCronTime p st) as [es st'] eqn:H. apply (pass_at _ _ _ _ n sc) in H as [Hn _]; [|done].
  rewrite Hok, Hr in Hn. assert (e ∈ named n es) as Hin by (rewrite Hn; left). by apply list_elem_of_filter in Hin as [_ ?].
Qed.
End once.

(** C15: every occurrence of a schedule is handled once, in order, and none is left
    waiting.  Over any ticks of the scheduler, as long as the table takes the writes
    of the last occurrence (one that is refused makes the next pass handle the same
    occurrence again), the occurrences fired or passed over for a schedule follow one
    another in the cron expression, each the next after the one before, from the
    last one handled on; so none is handled twice and none is left out.  What is
    fired is at most an hour old and due, what is passed over is older, and the
    table ends with the last occurrence handled.  And a tick at least a minute after
    the last one, whose listing succeeds, handles a schedule whose next occurrence is
    due: it passes over one more than an hour old, and fires any other one whose run
    can be created. *)
Theorem occurrences_once (E : CreateEnv) (NextCronTime : string → Z → res Z) (n : string) (ps : list pass) (last : Z)
    (st : sched_state) (sc : Schedule) es last' st' :
  (∀ cron b o, NextCronTime cron b = Ok o → (b < o)%Z) →
  (∀ p, p ∈ ps → ps_update_ok p n = true) →
  ss_schedules st !! n = Some sc →
  schedule_ticks E NextCronTime ps last st = (es, (last', st')) →
  let os := ev_occurrence <$> named n es in
  follow NextCronTime (sd_Cron sc) (sd_LastFiredAt sc) os ∧
  NoDup os ∧ (∀ b o, sd_LastFiredAt sc = Some b → o ∈ os → (b < o)%Z) ∧
  (∀ e, e ∈ es → ev_name e = n → timely e) ∧
  sd_LastFiredAt <$> ss_schedules st' !! n = Some (last_or (sd_LastFiredAt sc) os) ∧
  ∀ ps1 p ps2 es1 last1 st1 sc1 o,
    ps = ps1 ++ p :: ps2 → schedule_ticks E NextCronTime ps1 last st = (es1, (last1, st1)) → ss_schedules st1 !! n = Some sc1 →
    (60 ≤ ps_now p - last1)%Z → ps_list_ok p = true →
    NextCronTime (sd_Cron sc1) (default (ps_now p - 3600)%Z (sd_LastFiredAt sc1)) = Ok o → (o ≤ ps_now p)%Z →
    ((o < ps_now p - 3600)%Z → PassedOver n (ps_now p) o ∈ es) ∧
    ((ps_now p - 3600 ≤ o)%Z → fireable E p sc1 → ps_create_ok p n = true → ∃ id, Fired n (ps_now p) o id ∈ es).
Proof.
  intros Hnext Hup Hsc H. destruct (ticks_at E NextCronTime n ps last st es last' st' sc) as (Hf & Ht & ->); [|done..|].
  { by apply Forall_forall. }
  destruct (follow_sorted NextCronTime (sd_Cron sc) _ _ (Hnext (sd_Cron sc)) Hf) as [Hs Ha]. split; [done|]. split; [|split; [|split; [|split; [done|]]]].
  - clear -Hs. induction Hs as [|o os _ IH Ho]; constructor; [|done]. intros Hin.
    rewrite Forall_forall in Ho. specialize (Ho o Hin). lia.
  - intros b o Hb Ho. specialize (Ha b Hb). rewrite Forall_forall in Ha. by apply Ha.
  - intros e He Hn. rewrite Forall_forall in Ht. by apply Ht, list_elem_of_filter.
  - intros ps1 p ps2 es1 last1 st1 sc1 o -> H1 Hsc1 Hgap Hok Ho Hle. rewrite ticks_app, H1 in H. cbn [schedule_ticks] in H.
    destruct (due_handled E NextCronTime p n sc1 o Ho Hle) as [Hpass Hfire].
    pose proof (tick_handles E NextCronTime p last1 st1 n sc1) as Hin. destruct (schedule_tick E NextCronTime p last1 st1) as [es2 [last2 st2]].
    destruct (schedule_ticks E NextCronTime ps2 last2 st2) as [es3 r]. injection H as <- ->. cbn [fst] in Hin.
    split; [intros Hold|intros Hnew Hfa Hc; destruct (Hfire Hnew Hfa Hc) as [id Hr]; exists id];
      apply elem_of_app; right; apply elem_of_app; left; auto.
Qed.

(** Every quarter of an hour; the job and its creation never fail. *)
Definition quarters (_ : string) (b : Z) : res Z := Ok ((b / 900 + 1) * 900)%Z.
Definition quiet_pass (now : Z) : pass := MkPass now true (λ n, Some (MkJob n "stored")) (λ _, true) (λ _, true) (λ _, 1%N) (λ _, []).
Definition quarter_sample : sched_state :=
  MkSched db_empty {["nightly" := MkSchedule "*/15 * * * *" "ci" ∅ (Some 0%Z)]}.

Lemma occurrences_once_witness :
  let '(es, (_, st')) := schedule_ticks sample_env quarters (quiet_pass <$> [960; 980; 1900; 8000; 8060]%Z) 0 quarter_sample in
  ev_occurrence <$> named "nightly" es = [900; 1800; 2700; 3600]%Z ∧ NoDup [900; 1800; 2700; 3600]%Z.
Proof.
  destruct (schedule_ticks sample_env quarters (quiet_pass <$> [960; 980; 1900; 8000; 8060]%Z) 0 quarter_sample)
    as [es [last' st']] eqn:H.
  pose proof (occurrences_once sample_env quarters "nightly" (quiet_pass <$> [960; 980; 1900; 8000; 8060]%Z) 0 quarter_sample
    (MkSchedule "*/15 * * * *" "ci" ∅ (Some 0%Z)) es last' st') as Ht.
  assert (ev_occurrence <$> named "nightly" es = [900; 1800; 2700; 3600]%Z) as E.
  { revert H. vm_compute. intros [= <- <- <-]. reflexivity. }
  rewrite E in Ht. split; [done|]. apply Ht; [| |reflexivity|exact H].
  - intros cron b o [= <-]. pose proof (Z.mod_pos_bound b 900 ltac:(lia)). pose proof (Z_div_mod_eq_full b 900). lia.
  - intros p (x & -> & _)%list_elem_of_fmap. done.
Defined.

(** ** Falling behind *)

(** A schedule that is due every minute and has once fallen an hour behind never
    fires again: each pass handles one occurrence, and there is one pass per
    minute. *)
Lemma minutes_stuck (E : CreateEnv) (n : string) (ps : list pass) (last : Z) (st : sched_state) (sc : Schedule) b :
  let minutes (_ : string) (b : Z) : res Z := Ok ((b / 60 + 1) * 60)%Z in
  ss_schedules st !! n = Some sc → sd_LastFiredAt sc = Some b → (b < last - 3600)%Z →
  ∀ at_ o id, Fired n at_ o id ∉ (schedule_ticks E minutes ps last st).1.
Proof.
  intros minutes. revert last st sc b. induction ps as [|p ps IH]; intros last st sc b Hsc Hb Hlag at_ o id; cbn [schedule_ticks].
  { apply not_elem_of_nil. }
  unfold schedule_tick. destruct (Z.leb_spec 60 (ps_now p - last)) as [Hgap|Hgap].
  - destruct (checkAndFireSchedules E minutes p st) as [es1 st1] eqn:H1.
    destruct (pass_at _ _ _ _ _ _ n sc H1 Hsc) as [Hes Hsc1].
    pose proof (Z.mod_pos_bound b 60 ltac:(lia)). pose proof (Z_div_mod_eq_full b 60).
    assert (row_events E minutes p n sc = [PassedOver n (ps_now p) ((b / 60 + 1) * 60)%Z]) as Hrow.
    { unfold row_events, check_schedule, minutes. rewrite Hb. simpl.
      destruct (Z.ltb_spec (ps_now p) ((b / 60 + 1) * 60)); [lia|].
      destruct (Z.leb_spec (ps_now p - 3600) ((b / 60 + 1) * 60)); [lia|done]. }
    specialize (IH (ps_now p) st1). destruct (schedule_ticks E minutes ps (ps_now p) st1) as [es2 [last2 st2]].
    simpl in *. intros [Hin|Hin]%elem_of_app.
    + assert (Fired n at_ o id ∈ named n es1) as Hn by (by apply list_elem_of_filter).
      rewrite Hes in Hn. destruct (ps_list_ok p); [rewrite Hrow in Hn; set_solver|by apply elem_of_nil in Hn].
    + revert Hin. destruct (ps_list_ok p); [|by eapply IH; [|done|lia]]. unfold row_after in Hsc1. rewrite Hrow in Hsc1.
      destruct (ps_update_ok p n); (eapply IH; [exact Hsc1|done|simpl; lia]).
  - specialize (IH last st sc b Hsc Hb Hlag). by destruct (schedule_ticks E minutes ps last st) as [es2 [last2 st2]].
Qed.

(** ** No run without the checks *)

Inductive creates (E : CreateEnv) : db → db → Prop :=
| cr_trigger GetJob ok id now principal body d a d' :
    handleTriggerRun E GetJob ok id now principal body d = (a, d') → creates E d d'
| cr_child GetJob ok id now read_ok agentID parent body sv a sv' :
    handleAgentCreateChildRun E GetJob ok id now read_ok agentID parent body sv = (a, sv') →
    creates E (sv_db sv) (sv_db sv')
| cr_replay ok id now uuid read_ok orig raw d a d' :
    handleReplayRun E ok id now uuid read_ok orig raw d = (a, d') → creates E d d'
| cr_webhook GetJob ok id now header body km secret hmac_hex EWT decode_payload app_source reset_ok receiver rs too_large
    d a sync d' :
    handleWebhookIngress E GetJob ok id now header body km secret hmac_hex EWT decode_payload app_source reset_ok
      receiver rs too_large d = (a, sync, d') → creates E d d'
| cr_schedules NextCronTime p st es st' :
    checkAndFireSchedules E NextCronTime p st = (es, st') → creates E (ss_db st) (ss_db st').

Section checked.
Variable E : CreateEnv.

(** A run that met the checks, or whose specification does not decode, which no
    agent is ever handed ([AgentClaim]). *)
Definition admitted (r : run) : Prop := well_created E r ∨ r_status r = RunPending ∧ r_spec r = None.

Definition adds (d d' : db) : Prop :=
  (∀ j, d_runs d' !! j = d_runs d !! j ∨ ∃ r, d_runs d' !! j = Some r ∧ admitted r) ∧
  d_mutexes d' = d_mutexes d ∧ d_slots d' = d_slots d ∧ d_agents d' = d_agents d ∧ d_reports d' = d_reports d.

Lemma adds_refl d : adds d d.
Proof. split_and!; [by left|done..]. Qed.

Lemma adds_trans d1 d2 d3 : adds d1 d2 → adds d2 d3 → adds d1 d3.
Proof.
  intros (Hfst & ? & ? & ? & ?) (Hsnd & ? & ? & ? & ?). split_and!; [|congruence..].
  intros j. destruct (Hsnd j) as [->|?]; [apply Hfst|by right].
Qed.

Lemma adds_insert id r d : admitted r → adds d (set_runs <[id := r]> d).
Proof.
  intros Hr. split_and!; [|done..]. intros j. simpl. destruct (decide (j = id)) as [->|].
  - right. exists r. by rewrite lookup_insert_eq.
  - left. by rewrite lookup_insert_ne.
Qed.

Lemma told_adds d a d' : told (well_created E) d a d' → adds d d'.
Proof. destruct a; simpl; [intros ->; apply adds_refl..|]. intros (r & -> & Hr). apply adds_insert. by left. Qed.

Lemma ingress_told GetJob ok id now header body km secret hmac_hex EWT decode_payload app_source reset_ok receiver rs
    too_large d a sync d' :
  handleWebhookIngress E GetJob ok id now header body km secret hmac_hex EWT decode_payload app_source reset_ok
    receiver rs too_large d = (a, sync, d') → told (well_created E) d a d'.
Proof.
  unfold handleWebhookIngress. destruct rs as [[spec|]|]; [|by intros [= <- <- <-]..].
  destruct too_large; [by intros [= <- <- <-]|]. destruct (webhook_auth _ _ _ _ _ _ _); [|by intros [= <- <- <-]].
  destruct (decode_payload body); [|by intros [= <- <- <-]]. destruct (passes_filters _ _ _ _) as [[]|]; [|by intros [= <- <- <-]..].
  destruct (negb _); [repeat case_match; by intros [= <- <- <-]|].
  destruct (webhook_run _ _ _ _ _ _ _ _ _ _) as [a' d1] eqn:H. intros [= <- <- <-]. by eapply webhook_run_told.
Qed.

Lemma fire_adds p name sc d c d' : fire E p name sc d = Some (c, d') → adds d d'.
Proof.
  unfold fire. destruct (ps_GetJob p (sd_JobName sc)) as [j|]; [|done]. cbn [mbind option_bind].
  destruct (ce_decode_spec E (jb_Spec j)) as [spec|e] eqn:Hd.
  - destruct (prepare_run _ _ _ _ _) as [np|] eqn:Hp; [|done]. destruct (degenerateSelectorElement _); [done|].
    cbn [mbind option_bind]. destruct (insert_run _ _ _ _ _ _ _ _) as [a d1] eqn:Hi.
    intros H. assert (d1 = d') as <- by (destruct a; by simplify_eq).
    eapply told_adds, (prepared_told _ _ _ _ _ _ _ _ _ _ _ _ _ _ Hd Hp Hi).
  - destruct (resolveParams _ _ _ _) as [params|]; [|done]. cbn [mbind option_bind]. unfold insert_run.
    destruct (ps_create_ok p name); [|done]. intros [= _ <-]. apply adds_insert. right. split; [done|].
    simpl. unfold decoded. by rewrite Hd.
Qed.

Lemma rows_adds NextCronTime p rows st es st' :
  check_rows E NextCronTime p rows st = (es, st') → adds (ss_db st) (ss_db st').
Proof.
  revert st es. induction rows as [|[n sc] rows IH]; intros st es; cbn [check_rows]; [intros [= <- <-]; apply adds_refl|].
  destruct (check_schedule E NextCronTime p (n, sc) st) as [e st1] eqn:H1.
  destruct (check_rows E NextCronTime p rows st1) as [es1 st2] eqn:H2. intros [= <- <-].
  apply IH in H2. eapply adds_trans; [|exact H2]. clear H2 IH. revert H1. unfold check_schedule.
  destruct (NextCronTime _ _); [|intros [= <- <-]; apply adds_refl].
  destruct (_ <? _)%Z; [intros [= <- <-]; apply adds_refl|]. destruct (_ <=? _)%Z; [|intros [= <- <-]; apply adds_refl].
  destruct (fire _ _ _ _ _) as [[c d]|] eqn:Hf; intros [= <- <-]; [|apply adds_refl]. by apply fire_adds in Hf.
Qed.
End checked.

(** C14: no run is created without the checks.  Whichever way a run comes to
    be, by a trigger, from an agent's step, by a replay, a webhook or a schedule,
    it is Pending, its parameters meet every input its specification declares
    (required inputs are there, patterns match, choices are kept), its selector
    and capabilities are those of that specification and its secret names are
    resolved with those parameters; the one exception is a schedule of a job whose
    stored specification does not decode, whose run has none.  Nothing else in
    the database changes. *)
Theorem no_unchecked_run (E : CreateEnv) (d d' : db) :
  creates E d d' →
  (∀ j r, d_runs d' !! j = Some r → d_runs d !! j ≠ Some r → admitted E r) ∧
  (∀ j, d_runs d' !! j = None → d_runs d !! j = None) ∧
  d_mutexes d' = d_mutexes d ∧ d_slots d' = d_slots d ∧ d_agents d' = d_agents d ∧ d_reports d' = d_reports d.
Proof.
  intros H. assert (adds E d d') as (Hr & Hrest).
  { destruct H as [???????? ? H|??????????? H|????????? ? H|???????????????????? H|????? H].
    - eapply told_adds, trigger_told, H.
    - eapply told_adds, child_told, H.
    - eapply told_adds, replay_told, H.
    - eapply told_adds, ingress_told, H.
    - revert H. unfold checkAndFireSchedules. destruct (ps_list_ok p); [apply rows_adds|intros [= <- <-]; apply adds_refl]. }
  split_and!; [| |by apply Hrest..].
  - intros j r Hj Hne. destruct (Hr j) as [E'|(r' & E' & ?)]; congruence.
  - intros j Hj. destruct (Hr j) as [E'|(r' & E' & ?)]; congruence.
Qed.

Lemma no_unchecked_run_witness :
  ∃ d', creates sample_env db_empty d' ∧ status_of d' 1 = Some RunPending ∧ d_mutexes d' = ∅.
Proof.
  destruct (checkAndFireSchedules sample_env quarters (quiet_pass 960) quarter_sample) as [es st'] eqn:H.
  exists (ss_db st'). pose proof (cr_schedules sample_env quarters _ _ _ _ H) as Hc. split; [exact Hc|].
  destruct (no_unchecked_run _ _ _ Hc) as (_ & _ & Hm & _). split; [|exact Hm].
  clear Hc Hm. revert H. vm_compute. by intros [= _ <-].
Defined.
