(* ===== verification/GitPending.v ===== *)
(** * internal/controller: the loop that resolves templates of Pending runs

    [failure_backoff.go] and [resolveGitPendingRuns] of [scheduler.go].  Times of
    the backoff are nanoseconds ([time.Duration] is an [int64]); fetching is in the
    parameter [resolve] ([GitResolve]). *)

From S2P Require Import Prelude GoStrings DslTypes DslValidate StoreRuns StoreLocks StoreLife StoreSpec GitResolve GitFacts.
From stdpp Require Import options.

(** ** [failureBackoff] *)

Record backoffEntry := MkBackoff { be_id : runid; be_failures : Z; be_retryAt : Z }.

(** The entries, the most recently failed first. *)
Record failureBackoff := MkFailureBackoff { fb_entries : list backoffEntry; fb_base : Z; fb_max : Z; fb_cap : nat }.

Definition newFailureBackoff (base max_ : Z) (cap : nat) : failureBackoff := MkFailureBackoff [] base max_ cap.

(** The value of a 64-bit signed integer. *)
Definition int64 (z : Z) : Z := ((z + 2 ^ 63) mod 2 ^ 64 - 2 ^ 63)%Z.

Definition wait_after (base max_ failures : Z) : Z :=
  let n := (failures - 1)%Z in
  if (n <? 63)%Z then
    let w := int64 (Z.shiftl base n) in
    if (0 <? w)%Z && (w <? max_)%Z then w else max_
  else max_.

Definition Failure (b : failureBackoff) (id : runid) (now : Z) : failureBackoff :=
  let es := fb_entries b in
  let bumped k := MkBackoff id (k + 1) (now + wait_after (fb_base b) (fb_max b) (k + 1))%Z in
  MkFailureBackoff
    (match list_find (λ e, be_id e = id) es with
     | Some (_, e) => bumped (be_failures e) :: filter (λ e, be_id e ≠ id) es
     | None => take (fb_cap b) (bumped 0%Z :: es)
     end) (fb_base b) (fb_max b) (fb_cap b).

Definition Success (b : failureBackoff) (id : runid) : failureBackoff :=
  MkFailureBackoff (filter (λ e, be_id e ≠ id) (fb_entries b)) (fb_base b) (fb_max b) (fb_cap b).

Definition Excluded (b : failureBackoff) (now : Z) : list runid :=
  be_id <$> filter (λ e, (now < be_retryAt e)%Z) (fb_entries b).

(** ** [resolveGitPendingRuns] *)

(** [ListPendingRuns]: the oldest Pending runs outside [excluded]; rows of equal
    age may come in either order. *)
Definition pending_order (x y : runid * run) : bool := (r_created x.2 <=? r_created y.2)%Z.
Fixpoint insert_pending (x : runid * run) (l : list (runid * run)) : list (runid * run) :=
  match l with
  | [] => [x]
  | y :: l' => if pending_order x y then x :: l else y :: insert_pending x l'
  end.
Definition ListPendingRuns (visit : gmap runid run → list (runid * run)) (limit : nat) (excluded : list runid) (d : db)
  : list (runid * run) :=
  take limit (foldr insert_pending [] (filter (λ x, r_status x.2 = RunPending ∧ x.1 ∉ excluded) (visit (d_runs d)))).

(** What one pass meets for a run: what resolving gives, the time of a failure,
    and whether the two writes succeed. *)
Record meets := MkMeets { mt_resolved : outcome Spec; mt_now : Z; mt_finish_ok : bool; mt_update_ok : bool }.

Section loop.
Variables (visit : gmap runid run → list (runid * run)) (caps : Spec → list string) (deadline : Z).

(** The checks on a resolved specification. *)
Definition check_resolved (spec : Spec) : res unit :=
  _ ← ValidateStepContainerTargets spec;
  match sp_PodTemplate spec with
  | Some pt => if (pt_Name pt =? "")%string then ValidateContainerReferences spec else Ok tt
  | None => ValidateContainerReferences spec
  end.

Definition abandon (m : meets) (id : runid) (d : db) : db := if mt_finish_ok m then fail_run id d else d.

(** The body of the loop for a run of the batch; [created] is in nanoseconds. *)
Definition resolve_one (m : meets) (id : runid) (spec : option Spec) (created : Z) (s : db * failureBackoff)
  : db * failureBackoff :=
  let '(d, b) := s in
  match spec with
  | None => s
  | Some spec =>
      if negb (HasGitURIs spec) then s
      else
        match mt_resolved m with
        | Fails true _ => (abandon m id d, Success b id)
        | Fails false _ =>
            let b := Failure b id (mt_now m) in
            if (deadline <? mt_now m - created)%Z then (abandon m id d, Success b id) else (d, b)
        | Done resolved =>
            match check_resolved resolved with
            | Err _ => (abandon m id d, Success b id)
            | Ok _ =>
                match (if mt_update_ok m then UpdateRunSpec caps id (Some resolved) d else Err []) with
                | Ok d => (d, Success b id)
                | Err _ => (d, Failure b id (mt_now m))
                end
            end
        end
  end.

Definition resolveGitPendingRuns (env : runid → meets) (now : Z) (s : db * failureBackoff) : db * failureBackoff :=
  fold_left (λ s x, resolve_one (env x.1) x.1 (r_spec x.2) (r_created x.2 * 1000000000)%Z s)
    (ListPendingRuns visit 50 (Excluded s.2 now) s.1) s.
End loop.

(** ** The backoff *)

Section backoff.
Implicit Type b : failureBackoff.

Definition backoff_ok b : Prop :=
  NoDup (be_id <$> fb_entries b) ∧ length (fb_entries b) ≤ fb_cap b ∧
  Forall (λ e, (1 ≤ be_failures e)%Z) (fb_entries b).

Lemma wait_bounds base max_ k : (0 < max_)%Z → (0 < wait_after base max_ k ≤ max_)%Z.
Proof.
  intros. unfold wait_after. destruct (_ <? 63)%Z; [|lia].
  destruct (Z.ltb_spec 0 (int64 (Z.shiftl base (k - 1)))), (Z.ltb_spec (int64 (Z.shiftl base (k - 1))) max_); simpl; lia.
Qed.

Lemma without_NoDup b id : backoff_ok b → backoff_ok (Success b id).
Proof.
  intros (Hd & Hl & Hf). split_and!; simpl.
  - eapply sublist_NoDup; [exact Hd|]. apply fmap_sublist, sublist_filter.
  - etrans; [apply length_filter|done].
  - apply Forall_forall. intros e He. rewrite list_elem_of_filter in He. rewrite Forall_forall in Hf. apply Hf, He.
Qed.

Lemma find_entry b id :
  match list_find (λ e, be_id e = id) (fb_entries b) with
  | Some (_, e) => be_id e = id ∧ e ∈ fb_entries b
  | None => id ∉ (be_id <$> fb_entries b)
  end.
Proof.
  destruct (list_find _ _) as [[i e]|] eqn:H.
  - apply list_find_Some in H as (Hi & He & _). split; [done|]. by eapply list_elem_of_lookup_2.
  - apply list_find_None in H. intros (e & -> & He)%list_elem_of_fmap. rewrite Forall_forall in H. by apply (H e).
Qed.

Definition failures b id : Z :=
  match list_find (λ e, be_id e = id) (fb_entries b) with Some (_, e) => be_failures e | None => 0 end.

Lemma Failure_ok b id now : backoff_ok b → backoff_ok (Failure b id now).
Proof.
  intros (Hd & Hl & Hf). unfold Failure. pose proof (find_entry b id) as He.
  destruct (list_find _ _) as [[i e]|]; split_and!; simpl.
  - constructor; [|apply (without_NoDup b id); split_and!; done]. intros (x & Hx & Hin)%list_elem_of_fmap.
    apply list_elem_of_filter in Hin as [Hne _]. by apply Hne.
  - destruct He as [Hid He]. assert (length (filter (λ e, be_id e ≠ id) (fb_entries b)) < length (fb_entries b)); [|lia].
    clear -He Hid. induction (fb_entries b) as [|x l IH]; [by apply elem_of_nil in He|]. rewrite filter_cons.
    apply elem_of_cons in He as [->|He].
    + case_decide; [done|]. simpl. pose proof (length_filter (λ e, be_id e ≠ id) l). lia.
    + specialize (IH He). case_decide; simpl; lia.
  - constructor; [|apply (without_NoDup b id); split_and!; done]. simpl. rewrite Forall_forall in Hf.
    specialize (Hf e (proj2 He)). lia.
  - rewrite fmap_take. simpl. eapply sublist_NoDup; [|apply sublist_take]. by constructor.
  - rewrite length_take. lia.
  - apply Forall_take. by constructor.
Qed.

(** What a failure does to the exclusions, when nothing is evicted. *)
Lemma Failure_excluded b id now t j :
  backoff_ok b → length (fb_entries b) < fb_cap b →
  j ∈ Excluded (Failure b id now) t ↔
    if decide (j = id) then (t < now + wait_after (fb_base b) (fb_max b) (failures b id + 1))%Z else j ∈ Excluded b t.
Proof.
  intros (Hd & Hl & Hf) Hlt. unfold Failure, Excluded, failures. simpl. pose proof (find_entry b id) as He.
  destruct (list_find _ _) as [[i e]|].
  - rewrite list_elem_of_fmap. case_decide as Hj.
    + subst j. split.
      * intros (x & Hx & [Ht Hin]%list_elem_of_filter). apply elem_of_cons in Hin as [->|[Hne _]%list_elem_of_filter]; [done|].
        by destruct Hne.
      * intros Ht. exists (MkBackoff id (be_failures e + 1)
          (now + wait_after (fb_base b) (fb_max b) (be_failures e + 1))). split; [done|].
        apply list_elem_of_filter. split; [exact Ht|by left].
    + rewrite list_elem_of_fmap. split; intros (x & -> & [Ht Hin]%list_elem_of_filter); exists x; (split; [done|]);
        apply list_elem_of_filter; (split; [done|]).
      * apply elem_of_cons in Hin as [->|Hin%list_elem_of_filter]; [done|naive_solver].
      * right. by apply list_elem_of_filter.
  - rewrite take_ge by (simpl; lia). rewrite filter_cons. case_decide as Ht; simpl in Ht; case_decide as Hj.
    + subst j. csimpl. split; [done|]. intros _. by left.
    + csimpl. rewrite elem_of_cons. naive_solver.
    + subst j. split; [|done]. intros (x & -> & [_ Hin]%list_elem_of_filter)%list_elem_of_fmap. destruct He.
      by apply list_elem_of_fmap_2.
    + done.
Qed.

Lemma Success_excluded b id t j : j ∈ Excluded (Success b id) t ↔ j ≠ id ∧ j ∈ Excluded b t.
Proof.
  unfold Excluded, Success. simpl. rewrite !list_elem_of_fmap. split.
  - intros (x & -> & [? [? ?]%list_elem_of_filter]%list_elem_of_filter). split; [done|]. exists x. split; [done|].
    by apply list_elem_of_filter.
  - intros (Hj & x & -> & [? ?]%list_elem_of_filter). exists x. split; [done|]. apply list_elem_of_filter. split; [done|].
    by apply list_elem_of_filter.
Qed.
End backoff.

Lemma new_backoff_ok base max_ cap : backoff_ok (newFailureBackoff base max_ cap).
Proof. split_and!; simpl; [constructor|lia|constructor]. Qed.

Definition minute : Z := 60000000000.
Definition hour : Z := 3600000000000.

Lemma wait_minutes k : (1 ≤ k)%Z → wait_after minute hour k = Z.min (minute * 2 ^ (k - 1)) hour.
Proof.
  intros Hk. destruct (Z.le_gt_cases 64 k) as [Hbig|Hsmall].
  - unfold wait_after. destruct (Z.ltb_spec (k - 1) 63); [lia|].
    assert (2 ^ 63 ≤ 2 ^ (k - 1))%Z by (apply Z.pow_le_mono_r; lia). unfold minute, hour in *. lia.
  - assert (∀ n : nat, n < 63 → wait_after minute hour (Z.of_nat n + 1) = Z.min (minute * 2 ^ Z.of_nat n) hour) as H.
    { intros n Hn. assert (forallb (λ n, wait_after minute hour (Z.of_nat n + 1) =? Z.min (minute * 2 ^ Z.of_nat n) hour)%Z
        (seq 0 63) = true) as Hall by (vm_compute; reflexivity).
      rewrite forallb_forall in Hall. apply Z.eqb_eq, Hall, in_seq. lia. }
    specialize (H (Z.to_nat (k - 1)) ltac:(lia)). rewrite Z2Nat.id in H by lia.
    by replace (k - 1 + 1)%Z with k in H by lia.
Qed.

Lemma failures_nonneg b id : backoff_ok b → (0 ≤ failures b id)%Z.
Proof.
  intros (_ & _ & Hf). unfold failures. pose proof (find_entry b id) as He. destruct (list_find _ _) as [[i e]|]; [|lia].
  rewrite Forall_forall in Hf. specialize (Hf e (proj2 He)). lia.
Qed.

(** ** One pass *)

(** What a pass makes of a run. *)
Inductive pass_result := Untouched | GaveUp | Resolved (s : Spec) | Again.

Definition with_spec (s : Spec) (caps : list string) (r : run) : run :=
  MkRun (r_job r) (r_status r) (r_params r) (Some s) (r_selector r) caps (r_volumes r)
    (r_detached r) (r_claimed_by r) (r_claimed_at r) (r_created r).

Section one_pass.
Variables (visit : gmap runid run → list (runid * run)) (caps : Spec → list string) (deadline : Z).

Definition result_of (m : meets) (r : run) : pass_result :=
  match r_spec r with
  | None => Untouched
  | Some spec =>
      if negb (HasGitURIs spec) then Untouched
      else
        match mt_resolved m with
        | Fails true _ => GaveUp
        | Fails false _ => if (deadline <? mt_now m - r_created r * 1000000000)%Z then GaveUp else Again
        | Done s => if is_ok (check_resolved s) then if mt_update_ok m then Resolved s else Again else GaveUp
        end
  end.

Definition row_next (m : meets) (r : run) : run :=
  match result_of m r with
  | Untouched | Again => r
  | GaveUp => if mt_finish_ok m then with_status RunFailed r else r
  | Resolved s => with_spec s (caps s) r
  end.

Definition same_caps (b b' : failureBackoff) : Prop :=
  fb_base b' = fb_base b ∧ fb_max b' = fb_max b ∧ fb_cap b' = fb_cap b.

Lemma Failure_length b id now : length (fb_entries (Failure b id now)) ≤ S (length (fb_entries b)).
Proof.
  unfold Failure. destruct (list_find _ _) as [[i e]|]; simpl.
  - pose proof (length_filter (λ e, be_id e ≠ id) (fb_entries b)). lia.
  - rewrite length_take. simpl. lia.
Qed.

Lemma give_up_runs m id d r :
  d_runs d !! id = Some r → r_status r = RunPending →
  d_runs (abandon m id d) = <[id := if mt_finish_ok m then with_status RunFailed r else r]> (d_runs d).
Proof.
  intros Hr Hs. unfold abandon. destruct (mt_finish_ok m); [|by rewrite insert_id].
  unfold fail_run, MarkRunFinished, FinishRun, finishRunFrom. simpl. by rewrite Hr, Hs.
Qed.

Lemma resolve_one_effect m id r d b :
  d_runs d !! id = Some r → r_status r = RunPending → backoff_ok b → length (fb_entries b) < fb_cap b →
  let '(d', b') := resolve_one caps deadline m id (r_spec r) (r_created r * 1000000000) (d, b) in
  d_runs d' = <[id := row_next m r]> (d_runs d) ∧
  backoff_ok b' ∧ same_caps b b' ∧ length (fb_entries b') ≤ S (length (fb_entries b)) ∧
  ∀ j t, j ∈ Excluded b' t ↔
    if decide (j = id)
    then match result_of m r with
         | Untouched => j ∈ Excluded b t
         | Again => (t < mt_now m + wait_after (fb_base b) (fb_max b) (failures b id + 1))%Z
         | _ => False
         end
    else j ∈ Excluded b t.
Proof.
  intros Hr Hs Hok Hlt.
  assert (∀ b0 : failureBackoff, length (fb_entries (Success b0 id)) ≤ length (fb_entries b0)) as Hlen
    by (intros; apply length_filter).
  assert (∀ m', backoff_ok (Success (Failure b id m') id)) as Hok' by (intros; by apply without_NoDup, Failure_ok).
  assert (∀ (b0 : failureBackoff) j t, j ∈ Excluded (Success b0 id) t ↔ if decide (j = id) then False else j ∈ Excluded b0 t) as Hsucc.
  { intros b0 j t. rewrite Success_excluded. case_decide; naive_solver. }
  assert (∀ j t, j ∈ Excluded (Success (Failure b id (mt_now m)) id) t ↔ if decide (j = id) then False else j ∈ Excluded b t) as Hboth.
  { intros j t. rewrite Hsucc. case_decide; [done|]. rewrite Failure_excluded by done. by rewrite decide_False by done. }
  unfold resolve_one, row_next, result_of. destruct (r_spec r) as [spec|].
  2:{ rewrite insert_id by done. split_and!; try done; [lia|]. intros. by case_decide. }
  destruct (negb (HasGitURIs spec)).
  { rewrite insert_id by done. split_and!; try done; [lia|]. intros. by case_decide. }
  destruct (mt_resolved m) as [s|[] e].
  - destruct (check_resolved s) as [[]|e]; simpl.
    + destruct (mt_update_ok m); simpl.
      * split_and!; [|by apply without_NoDup|done|specialize (Hlen b); simpl in *; lia|by apply Hsucc].
        apply map_eq. intros j. destruct (decide (j = id)) as [->|].
        -- rewrite lookup_alter_eq, lookup_insert_eq, Hr. simpl. by rewrite bool_decide_true.
        -- by rewrite lookup_alter_ne, lookup_insert_ne.
      * rewrite insert_id by done. split_and!; [done|by apply Failure_ok|done|apply Failure_length|].
        intros. by apply Failure_excluded.
    + rewrite (give_up_runs m id d r) by done.
      split_and!; [done|by apply without_NoDup|done|specialize (Hlen b); simpl in *; lia|by apply Hsucc].
  - rewrite (give_up_runs m id d r) by done.
    split_and!; [done|by apply without_NoDup|done|specialize (Hlen b); simpl in *; lia|by apply Hsucc].
  - destruct (_ <? _)%Z.
    + rewrite (give_up_runs m id d r) by done. split_and!; [done|done|done| |by apply Hboth].
      specialize (Hlen (Failure b id (mt_now m))). pose proof (Failure_length b id (mt_now m)). lia.
    + rewrite insert_id by done. split_and!; [done|by apply Failure_ok|done|apply Failure_length|].
      intros. by apply Failure_excluded.
Qed.

Definition passed (env : runid → meets) (d : db) (b : failureBackoff) (j : runid) (r : run) (d' : db) (b' : failureBackoff) : Prop :=
  d_runs d' !! j = Some (row_next (env j) r) ∧
  match result_of (env j) r with
  | Untouched => ∀ t, j ∈ Excluded b' t ↔ j ∈ Excluded b t
  | Again => ∃ k, (1 ≤ k)%Z ∧ ∀ t, j ∈ Excluded b' t ↔ (t < mt_now (env j) + wait_after (fb_base b) (fb_max b) k)%Z
  | _ => ∀ t, j ∉ Excluded b' t
  end.

Lemma resolve_batch env l d b :
  NoDup l.*1 → (∀ x, x ∈ l → d_runs d !! x.1 = Some x.2 ∧ r_status x.2 = RunPending) →
  backoff_ok b → length (fb_entries b) + length l ≤ fb_cap b →
  let '(d', b') := fold_left (λ s x, resolve_one caps deadline (env x.1) x.1 (r_spec x.2) (r_created x.2 * 1000000000) s)
                     l (d, b) in
  (∀ x, x ∈ l → passed env d b x.1 x.2 d' b') ∧
  (∀ j, j ∉ l.*1 → d_runs d' !! j = d_runs d !! j ∧ ∀ t, j ∈ Excluded b' t ↔ j ∈ Excluded b t) ∧
  backoff_ok b' ∧ same_caps b b'.
Proof.
  revert d b. induction l as [|[id r] l IH]; intros d b Hd Hl Hok Hcap; cbn [fold_left fst snd].
  { split_and!; [by intros ? ?%elem_of_nil|done..]. }
  rewrite fmap_cons in Hd.   apply NoDup_cons in Hd as [Hid Hd]. destruct (Hl (id, r) ltac:(by left)) as [Hr Hs]. simpl in Hr, Hs, Hcap.
  pose proof (resolve_one_effect (env id) id r d b Hr Hs Hok ltac:(lia)) as H1.
  destruct (resolve_one _ _ _ _ _ _ _) as [d1 b1]. destruct H1 as (Hruns & Hok1 & (Hb & Hm & Hc) & Hlen & Hex).
  specialize (IH d1 b1 Hd). destruct (fold_left _ l (d1, b1)) as [d' b']. destruct IH as (Hin & Hout & Hok' & (Hb' & Hm' & Hc')).
  { intros x Hx. rewrite Hruns, lookup_insert_ne; [apply Hl; by right|]. intros E. apply Hid. apply list_elem_of_fmap. by exists x. }
  { done. } { rewrite Hc. lia. }
  split_and!; [| |done|unfold same_caps in *; split_and!; congruence].
  - intros x [->|Hx]%elem_of_cons.
    + simpl. destruct (Hout id Hid) as [Hrow Hexc]. unfold passed. rewrite Hrow, Hruns, lookup_insert_eq. split; [done|].
      assert (∀ t, id ∈ Excluded b' t ↔ match result_of (env id) r with
          | Untouched => id ∈ Excluded b t
          | Again => (t < mt_now (env id) + wait_after (fb_base b) (fb_max b) (failures b id + 1))%Z
          | _ => False
          end) as Hthis by (intros t; by rewrite Hexc, Hex, decide_True by done).
      destruct (result_of (env id) r); [exact Hthis|by intros t ?%Hthis..|].
      exists (failures b id + 1)%Z. split; [pose proof (failures_nonneg b id Hok); lia|exact Hthis].
    + specialize (Hin x Hx). assert (x.1 ≠ id) as Hne by (intros E; apply Hid, list_elem_of_fmap; by exists x).
      unfold passed in *. rewrite Hb, Hm in Hin. destruct Hin as [? Hin]. split; [done|].
      destruct (result_of (env x.1) x.2); try done. intros t. rewrite Hin, Hex. by rewrite decide_False.
  - intros j Hj'. rewrite fmap_cons in Hj'. apply not_elem_of_cons in Hj' as [Hne Hj].
    destruct (Hout j Hj) as [-> Hexc]. split.
    + by rewrite Hruns, lookup_insert_ne.
    + intros t. rewrite Hexc, Hex. by rewrite decide_False.
Qed.
End one_pass.

(** *** The batch *)

Lemma insert_pending_perm x l : insert_pending x l ≡ₚ x :: l.
Proof.
  induction l as [|y l IH]; simpl; [done|]. destruct (pending_order x y); [done|]. rewrite IH. apply Permutation_swap.
Qed.

Lemma sort_pending_perm l : foldr insert_pending [] l ≡ₚ l.
Proof. induction l as [|x l IH]; simpl; [done|]. by rewrite insert_pending_perm, IH. Qed.

Lemma batch_facts visit limit excluded d :
  (∀ m, visit m ≡ₚ map_to_list m) →
  let l := ListPendingRuns visit limit excluded d in
  NoDup l.*1 ∧ length l ≤ limit ∧
  ∀ x, x ∈ l → d_runs d !! x.1 = Some x.2 ∧ r_status x.2 = RunPending ∧ x.1 ∉ excluded.
Proof.
  intros Hv l. split_and!.
  - unfold l, ListPendingRuns. rewrite fmap_take. eapply sublist_NoDup; [|apply sublist_take].
    rewrite sort_pending_perm. eapply sublist_NoDup; [|apply fmap_sublist, sublist_filter].
    rewrite Hv. apply NoDup_fst_map_to_list.
  - unfold l, ListPendingRuns. rewrite length_take. lia.
  - intros [j r] Hx. unfold l, ListPendingRuns in Hx. eapply elem_of_sublist in Hx; [|apply sublist_take].
    rewrite sort_pending_perm, list_elem_of_filter, Hv, elem_of_map_to_list in Hx.
    simpl in *. naive_solver.
Qed.

(** A pass of the template resolver decides every run it takes, or puts
    it aside.  With the backoff of the program (one minute, doubled up to one
    hour) and room left in it: a run of the batch without templates is left as it
    is; one whose templates fail for good, fail for longer than the deadline, or
    resolve to a specification with a forbidden container fails (if the write
    succeeds); one that resolves gets exactly that specification and its
    capabilities and stays Pending; one that may still succeed is unchanged and
    is not taken again before its wait, at least a minute and at most an hour, is
    over.  No other run is touched, and no other exclusion changes. *)
Theorem git_pass_exact (visit : gmap runid run → list (runid * run)) (caps : Spec → list string) (deadline now : Z)
    (env : runid → meets) (d d' : db) (b b' : failureBackoff) :
  (∀ m, visit m ≡ₚ map_to_list m) → backoff_ok b → fb_base b = minute → fb_max b = hour →
  length (fb_entries b) + 50 ≤ fb_cap b →
  resolveGitPendingRuns visit caps deadline env now (d, b) = (d', b') →
  let batch := ListPendingRuns visit 50 (Excluded b now) d in
  backoff_ok b' ∧
  (∀ j, j ∉ batch.*1 → d_runs d' !! j = d_runs d !! j ∧ ∀ t, j ∈ Excluded b' t ↔ j ∈ Excluded b t) ∧
  ∀ j r, (j, r) ∈ batch →
    d_runs d !! j = Some r ∧ r_status r = RunPending ∧
    match result_of deadline (env j) r with
    | Untouched => d_runs d' !! j = Some r
    | GaveUp => d_runs d' !! j = Some (if mt_finish_ok (env j) then with_status RunFailed r else r) ∧ ∀ t, j ∉ Excluded b' t
    | Resolved s => check_resolved s = Ok tt ∧ d_runs d' !! j = Some (with_spec s (caps s) r) ∧ ∀ t, j ∉ Excluded b' t
    | Again => d_runs d' !! j = Some r ∧ ∃ wait, (minute ≤ wait ≤ hour)%Z ∧ ∀ t, j ∈ Excluded b' t ↔ (t < mt_now (env j) + wait)%Z
    end.
Proof.
  intros Hv Hok Hb Hm Hcap H batch. destruct (batch_facts visit 50 (Excluded b now) d Hv) as (Hd & Hlen & Hin).
  pose proof (resolve_batch caps deadline env batch d b Hd) as Hr. unfold resolveGitPendingRuns in H.
  fold batch in Hin, Hlen, Hd. simpl in H. fold batch in H. rewrite H in Hr.
  destruct Hr as (Hpass & Hout & Hok' & _); [intros x Hx; by destruct (Hin x Hx) as (? & ? & _)|done|lia|].
  split_and!; [done|done|]. intros j r Hj. destruct (Hin _ Hj) as (Hrow & Hst & _). specialize (Hpass _ Hj).
  simpl in *. split_and!; [done..|]. destruct Hpass as [Hnext Hex]. unfold row_next in Hnext.
  destruct (result_of deadline (env j) r) as [| |s|] eqn:E; try done.
  - split_and!; [|done..]. revert E. unfold result_of. repeat case_match; try done. intros [= <-].
    match goal with H : is_ok ?c = true |- _ => destruct c as [[]|]; done end.
  - split; [done|]. destruct Hex as (k & Hk & Hex). exists (wait_after (fb_base b) (fb_max b) k). split; [|done].
    rewrite Hb, Hm, wait_minutes by done.
    pose proof (Z.pow_pos_nonneg 2 (k - 1) ltac:(lia) ltac:(lia)). unfold minute, hour. lia.
Qed.

Definition uses_run : run := new_run "ci" ∅ (Some GitFacts.sample_caller) [] [] 0.
Definition pending_db : db := set_runs (λ _, {[1%N := uses_run]}) db_empty.
Definition sample_meets : runid → meets := λ _, MkMeets (Fails false [Lit "dial tcp"]) 1000 true true.

Lemma git_pass_exact_witness :
  let b := newFailureBackoff minute hour 60 in
  let '(d', b') := resolveGitPendingRuns map_to_list (λ _, []) hour sample_meets 0 (pending_db, b) in
  d_runs d' !! 1%N = Some uses_run ∧ 1%N ∈ Excluded b' 2000.
Proof.
  intros b. destruct (resolveGitPendingRuns map_to_list (λ _, []) hour sample_meets 0 (pending_db, b)) as [d' b'] eqn:H.
  pose proof (git_pass_exact map_to_list (λ _, []) hour 0 sample_meets pending_db d' b b' (λ m, reflexivity _)) as Ht.
  destruct Ht as (_ & _ & Ht); [apply new_backoff_ok|done|done|simpl; lia|exact H|].
  assert ((1%N, uses_run) ∈ ListPendingRuns map_to_list 50 (Excluded b 0) pending_db) as Hin by (vm_compute; left).
  specialize (Ht _ _ Hin) as (_ & _ & Ht).
  assert (result_of hour (sample_meets 1%N) uses_run = Again) as Hres by (vm_compute; reflexivity).
  rewrite Hres in Ht. destruct Ht as (Hrow & wait & Hw & Hex). split; [exact Hrow|]. apply Hex.
  unfold sample_meets, minute in *. simpl. lia.
Defined.
