(* ===== verification/LogStore.v ===== *)
(** * internal/store and internal/controller: log lines and their archives

    The statements on [logs] and [run_log_archives] ([store/postgres.go]), the
    pieces of the archiver ([archiver.go]), the trimmer ([log_trim.go]) and the
    deletion of runs ([run_retention.go]), and the reads of trimmed logs
    ([archived_logs.go], [api_runs.go]).  [LogLife] interleaves them. *)

From S2P Require Import Prelude GoStrings StoreRuns.
From stdpp Require Import options.

Record LogLine := MkLogLine { ll_Seq : Z; ll_StepIndex : Z; ll_Stream : string; ll_Timestamp : Z; ll_Line : string }.
Record LogArchive := MkLogArchive { la_LineCount : Z; la_MaxSeq : Z; la_Trimmed : bool }.

(** The rows of [logs], in the order of [seq]; the archive records; the objects
    under [runLogArchiveKey]; and the runs, each with whether it has ended. *)
Record logs := MkLogs {
  lg_runs : gmap runid bool;
  lg_rows : gmap runid (list LogLine);
  lg_archives : gmap runid LogArchive;
  lg_objects : gmap runid (list LogLine)
}.

Definition rows_of (id : runid) (s : logs) : list LogLine := default [] (lg_rows s !! id).
Definition set_rows (id : runid) (l : list LogLine) (s : logs) : logs :=
  MkLogs (lg_runs s) (<[id := l]> (lg_rows s)) (lg_archives s) (lg_objects s).
Definition set_archives (m : gmap runid LogArchive) (s : logs) : logs :=
  MkLogs (lg_runs s) (lg_rows s) m (lg_objects s).
Definition set_objects (m : gmap runid (list LogLine)) (s : logs) : logs :=
  MkLogs (lg_runs s) (lg_rows s) (lg_archives s) m.

(** ** Appending *)

(** A new row of the index on [seq]. *)
Fixpoint insert_row (x : LogLine) (l : list LogLine) : list LogLine :=
  match l with
  | [] => [x]
  | y :: l' => if (ll_Seq x <? ll_Seq y)%Z then x :: l else y :: insert_row x l'
  end.

(** The [INSERT] of [AppendLog] (one line) and of [AppendLogs] (the lines of a run
    in one statement) passes over a sealed run and fails without the run; [seqs]
    is what the sequence gives. *)
Definition sealed (id : runid) (s : logs) : bool := bool_decide (is_Some (lg_archives s !! id)).
Inductive append_start := Dropped | NoRun | Inserting (lines : list LogLine).
Definition start_append (id : runid) (lines : list LogLine) (s : logs) : append_start :=
  if sealed id s then Dropped
  else if bool_decide (is_Some (lg_runs s !! id)) then Inserting lines else NoRun.
(** Its end makes the rows visible. *)
Definition commit_append (id : runid) (lines : list LogLine) (s : logs) : logs :=
  set_rows id (foldr insert_row (rows_of id s) lines) s.

(** ** Reading *)

Definition after_seq (a : Z) (l : list LogLine) : list LogLine := filter (λ x, (a < ll_Seq x)%Z) l.
Definition TailLogs (id : runid) (afterSeq : Z) (limit : nat) (s : logs) : list LogLine :=
  take limit (after_seq afterSeq (rows_of id s)).
(** The newest [limit] rows, in ascending order. *)
Definition TailLogsRecent (id : runid) (limit : nat) (s : logs) : list LogLine :=
  reverse (take limit (reverse (rows_of id s))).

Definition step_rows (steps : list Z) (l : list LogLine) : list LogLine :=
  match steps with [] => l | _ => filter (λ x, ll_StepIndex x ∈ steps) l end.
Definition min_seq (l : list LogLine) : Z := match l with [] => 0 | x :: l => foldr Z.min (ll_Seq x) (ll_Seq <$> l) end.
Definition max_seq (l : list LogLine) : Z := match l with [] => 0 | x :: l => foldr Z.max (ll_Seq x) (ll_Seq <$> l) end.
Definition CountLogs (id : runid) (steps : list Z) (s : logs) : Z * Z * Z :=
  let v := step_rows steps (rows_of id s) in (Z.of_nat (length v), min_seq v, max_seq v).
Definition ListLogsRange (id : runid) (steps : list Z) (offset limit : nat) (s : logs) : list LogLine :=
  take limit (drop offset (step_rows steps (rows_of id s))).

(** The same over the lines of an archive. *)
Definition filterSteps (lines : list LogLine) (steps : list Z) : list LogLine :=
  match steps with [] => lines | _ => filter (λ x, ll_StepIndex x ∈ steps) lines end.
(** [sort.Search] finds the first index whose line is past [afterSeq]. *)
Definition tailAfter (lines : list LogLine) (afterSeq : Z) (limit : nat) : list LogLine :=
  let i := match list_find (λ x, (afterSeq < ll_Seq x)%Z) lines with Some (i, _) => i | None => length lines end in
  let out := drop i lines in
  if limit <? length out then take limit out else out.
Definition tailRecent (lines : list LogLine) (limit : nat) : list LogLine :=
  if limit <? length lines then drop (length lines - limit) lines else lines.
Definition countArchivedLogs (lines : list LogLine) (steps : list Z) : Z * Z * Z :=
  match filterSteps lines steps with
  | [] => (0, 0, 0)%Z
  | x :: v => (Z.of_nat (length (x :: v)), ll_Seq x, default (ll_Seq x) (ll_Seq <$> last v))
  end.
Definition archivedLogRange (lines : list LogLine) (steps : list Z) (offset limit : nat) : list LogLine :=
  let v := filterSteps lines steps in
  if length v <=? offset then []
  else let v := drop offset v in if limit <? length v then take limit v else v.

(** [logsTrimmed]; without an object store nothing is read from archives. *)
Definition logsTrimmed (store : bool) (id : runid) (s : logs) : bool :=
  store && match lg_archives s !! id with Some a => la_Trimmed a | None => false end.

(** The three readers: the database is read first ([s1]), the record later ([s2])
    and the object last ([s3]); [None] is the answer 503, which a missing object gets.
    A store that does not answer in time, or whose answer cannot be read or decoded,
    gets it too; that is left out, and so are the entries a replica keeps in memory. *)
Definition read_logs {A} (db : A) (archived : list LogLine → A) (store : bool) (id : runid) (s2 s3 : logs) : option A :=
  if logsTrimmed store id s2 then archived <$> lg_objects s3 !! id else Some db.
Definition handleTailLogs (store : bool) (id : runid) (afterSeq : Z) (s1 s2 s3 : logs) : option (list LogLine) :=
  read_logs (TailLogs id afterSeq 1000 s1) (λ l, tailAfter l afterSeq 1000) store id s2 s3.
Definition handleLogStats (store : bool) (id : runid) (steps : list Z) (s1 s2 s3 : logs) : option (Z * Z * Z) :=
  read_logs (CountLogs id steps s1) (λ l, countArchivedLogs l steps) store id s2 s3.
Definition handleLogRange (store : bool) (id : runid) (steps : list Z) (offset limit : nat) (s1 s2 s3 : logs)
  : option (list LogLine) :=
  let limit := Nat.min limit (Z.to_nat 10000) in
  read_logs (ListLogsRange id steps offset limit s1) (λ l, archivedLogRange l steps offset limit) store id s2 s3.

(** ** Archiving *)

(** [ListRunsNeedingArchival]: ended runs without a record. *)
Definition needs_archival (id : runid) (s : logs) : bool :=
  bool_decide (lg_runs s !! id = Some true) && negb (sealed id s).

Definition archive_cap : nat := Z.to_nat 1000000.
Definition last_seq (l : list LogLine) : Z := match last l with Some x => ll_Seq x | None => 0 end.

(** [CreateLogArchive] over lines [l]; it fails when the run is gone, and keeps
    the trimmed mark of a record it replaces. *)
Definition CreateLogArchive (id : runid) (l : list LogLine) (s : logs) : option logs :=
  if bool_decide (is_Some (lg_runs s !! id)) then
    Some (set_archives (<[id := MkLogArchive (Z.of_nat (length l)) (last_seq l)
                                  (match lg_archives s !! id with Some a => la_Trimmed a | None => false end)]>
            (lg_archives s)) s)
  else None.

(** ** Trimming *)

Inductive trim_check := TrimNothing | TrimIncomplete | TrimUpTo (maxSeq : Z).

(** [TrimRunLogs]: the coverage check, and the deletion with the mark. *)
Definition trim_checks (id : runid) (s : logs) : trim_check :=
  match lg_archives s !! id with
  | Some a =>
      if la_Trimmed a then TrimNothing
      else if (la_LineCount a <? Z.of_nat (length (rows_of id s)))%Z || (la_MaxSeq a <? max_seq (rows_of id s))%Z
      then TrimIncomplete else TrimUpTo (la_MaxSeq a)
  | None => TrimNothing
  end.
Definition trim_deletes (id : runid) (maxSeq : Z) (s : logs) : logs :=
  let trimmed := alter (λ a, MkLogArchive (la_LineCount a) (la_MaxSeq a) true) id (lg_archives s) in
  set_rows id (filter (λ x, (maxSeq < ll_Seq x)%Z) (rows_of id s)) (set_archives trimmed s).

Definition DeleteLogArchive (id : runid) (s : logs) : logs := set_archives (delete id (lg_archives s)) s.

(** A record from before coverage was kept, which the sweep deletes when its
    coverage does not suffice. *)
Definition legacy (a : LogArchive) : bool := (la_LineCount a =? 0)%Z && (la_MaxSeq a =? 0)%Z.

(** ** Deleting *)

Definition delete_object (id : runid) (s : logs) : logs := set_objects (delete id (lg_objects s)) s.
(** [DeleteRun]: the rows and the record go with the run. *)
Definition delete_run (id : runid) (s : logs) : logs :=
  MkLogs (delete id (lg_runs s)) (delete id (lg_rows s)) (delete id (lg_archives s)) (lg_objects s).
