(* ===== verification/LogLife.v ===== *)
(** * The life of a run's logs

    Appending statements, the archiver, the trimmer, the deletion of runs and the
    readers, interleaved statement by statement over [LogStore].  There is one
    archiver and one trimmer, as the advisory locks of [archiver.go] and
    [log_trim.go] ensure; deletions run any number at a time.  A statement
    reported as failed had no effect. *)

From S2P Require Import Prelude GoStrings StoreRuns LogStore.
From stdpp Require Import options.

(** Where [archiveRunLogs] is: before the read, the upload, the record, and the
    removal of an object without a record. *)
Inductive archiver :=
| AIdle | ATail (id : runid) | APut (id : runid) (l : list LogLine) | ACreate (id : runid) (l : list LogLine) | AUndo (id : runid).
(** Where [runLogTrimOnce] is with a candidate: before it looks for the object,
    before and between the statements of the transaction, before it reads the
    record of an incomplete archive, and before it deletes the record. *)
Inductive trimmer :=
| TIdle | TVerify (id : runid) | TTrim (id : runid) | TDelete (id : runid) (maxSeq : Z) | TFetch (id : runid) | TDrop (id : runid).
(** Where [deleteRunEverywhere] is: before the objects, the row, and the object
    again. *)
Inductive stage := DelObject | DelRow | DelAgain.

(** [lf_open] are the inserting statements under way; [lf_drawn], [lf_written],
    [lf_dropped], [lf_doomed] and [lf_leaked] keep the sequence numbers given out, the
    lines whose statements ended, those that a statement passed over, the runs whose
    deletion began, and those for which the removal of an object failed. *)
Record life := MkLife {
  lf_logs : logs;
  lf_open : list (runid * list LogLine);
  lf_archiver : archiver;
  lf_trimmer : trimmer;
  lf_deleters : list (runid * stage);
  lf_written : list (runid * LogLine);
  lf_dropped : list (runid * LogLine);
  lf_drawn : gset Z;
  lf_doomed : gset runid;
  lf_leaked : gset runid
}.

Definition with_logs (s : logs) (x : life) : life :=
  MkLife s (lf_open x) (lf_archiver x) (lf_trimmer x) (lf_deleters x) (lf_written x) (lf_dropped x) (lf_drawn x) (lf_doomed x) (lf_leaked x).
Definition with_open (o : list (runid * list LogLine)) (w : list (runid * LogLine)) (drawn : gset Z) (x : life) : life :=
  MkLife (lf_logs x) o (lf_archiver x) (lf_trimmer x) (lf_deleters x) w (lf_dropped x) drawn (lf_doomed x) (lf_leaked x).
Definition with_archiver (a : archiver) (x : life) : life :=
  MkLife (lf_logs x) (lf_open x) a (lf_trimmer x) (lf_deleters x) (lf_written x) (lf_dropped x) (lf_drawn x) (lf_doomed x) (lf_leaked x).
Definition with_trimmer (t : trimmer) (x : life) : life :=
  MkLife (lf_logs x) (lf_open x) (lf_archiver x) t (lf_deleters x) (lf_written x) (lf_dropped x) (lf_drawn x) (lf_doomed x) (lf_leaked x).
Definition with_deleters (d : list (runid * stage)) (doomed : gset runid) (x : life) : life :=
  MkLife (lf_logs x) (lf_open x) (lf_archiver x) (lf_trimmer x) d (lf_written x) (lf_dropped x) (lf_drawn x) doomed (lf_leaked x).
Definition with_leaked (id : runid) (x : life) : life :=
  MkLife (lf_logs x) (lf_open x) (lf_archiver x) (lf_trimmer x) (lf_deleters x) (lf_written x) (lf_dropped x) (lf_drawn x) (lf_doomed x)
    ({[id]} ∪ lf_leaked x).
Definition with_dropped (d : list (runid * LogLine)) (x : life) : life :=
  MkLife (lf_logs x) (lf_open x) (lf_archiver x) (lf_trimmer x) (lf_deleters x) (lf_written x) d (lf_drawn x) (lf_doomed x) (lf_leaked x).

(** No statement of the run is under way. *)
Definition quiet (id : runid) (x : life) : Prop := id ∉ (lf_open x).*1.

(** The lines of the statements under way come after [m] in the sequence. *)
Definition above (id : runid) (m : Z) (x : life) : Prop := ∀ lines l, (id, lines) ∈ lf_open x → l ∈ lines → (m < ll_Seq l)%Z.

(** The steps.  The trimmer's candidates were archived, hence sealed, at least a day
    before: its check finds no statement under way ([late] is false); or it finds some
    ([late] is true), which may end at any time from then on, but none that began
    before the archiver read the lines, so what they insert comes after these in the
    sequence.  A row is deleted while no statement references it and no transaction
    holds its archive record. *)
Section steps.
Variable late : bool.
Definition settling (id : runid) (m : Z) (x : life) : Prop := if late then above id m x else quiet id x.

Inductive life_step_of : life → life → Prop :=
| ls_finish x id :
    is_Some (lg_runs (lf_logs x) !! id) →
    life_step_of x (with_logs (MkLogs (<[id := true]> (lg_runs (lf_logs x))) (lg_rows (lf_logs x)) (lg_archives (lf_logs x))
                              (lg_objects (lf_logs x))) x)
| ls_append x id lines :
    start_append id lines (lf_logs x) = Inserting lines →
    NoDup (ll_Seq <$> lines) → (∀ l, l ∈ lines → (0 < ll_Seq l)%Z ∧ (ll_Seq l ∉ lf_drawn x)) →
    life_step_of x (with_open ((id, lines) :: lf_open x) (lf_written x) (list_to_set (ll_Seq <$> lines) ∪ lf_drawn x) x)
| ls_dropped x id lines :
    start_append id lines (lf_logs x) = Dropped → life_step_of x (with_dropped ((pair id <$> lines) ++ lf_dropped x) x)
| ls_commit x o1 id lines o2 :
    lf_open x = o1 ++ (id, lines) :: o2 →
    life_step_of x (with_logs (commit_append id lines (lf_logs x))
                   (with_open (o1 ++ o2) ((pair id <$> lines) ++ lf_written x) (lf_drawn x) x))
| ls_abort x o1 id lines o2 :
    lf_open x = o1 ++ (id, lines) :: o2 →
    life_step_of x (with_open (o1 ++ o2) (lf_written x) (lf_drawn x) x)
| ls_pick x id :
    lf_archiver x = AIdle → needs_archival id (lf_logs x) = true → life_step_of x (with_archiver (ATail id) x)
| ls_tail x id :
    lf_archiver x = ATail id → life_step_of x (with_archiver (APut id (TailLogs id 0 archive_cap (lf_logs x))) x)
| ls_put x id l :
    lf_archiver x = APut id l →
    life_step_of x (with_logs (set_objects (<[id := l]> (lg_objects (lf_logs x))) (lf_logs x)) (with_archiver (ACreate id l) x))
| ls_archive_fails x id l :
    lf_archiver x = ATail id ∨ lf_archiver x = APut id l → life_step_of x (with_archiver AIdle x)
| ls_create x id l s :
    lf_archiver x = ACreate id l → CreateLogArchive id l (lf_logs x) = Some s →
    life_step_of x (with_logs s (with_archiver AIdle x))
| ls_create_fails x id l :
    lf_archiver x = ACreate id l → life_step_of x (with_archiver (AUndo id) x)
| ls_undo x id :
    lf_archiver x = AUndo id → life_step_of x (with_logs (delete_object id (lf_logs x)) (with_archiver AIdle x))
| ls_undo_fails x id l :
    lf_archiver x = AUndo id ∨ lf_archiver x = ACreate id l → life_step_of x (with_leaked id (with_archiver AIdle x))
| ls_candidate x id a :
    lf_trimmer x = TIdle → lg_archives (lf_logs x) !! id = Some a → la_Trimmed a = false →
    life_step_of x (with_trimmer (TVerify id) x)
| ls_missing x id :
    lf_trimmer x = TVerify id → lg_objects (lf_logs x) !! id = None → life_step_of x (with_trimmer (TDrop id) x)
| ls_found x id :
    lf_trimmer x = TVerify id → is_Some (lg_objects (lf_logs x) !! id) → life_step_of x (with_trimmer (TTrim id) x)
| ls_check x id m :
    lf_trimmer x = TTrim id → settling id m x → trim_checks id (lf_logs x) = TrimUpTo m → life_step_of x (with_trimmer (TDelete id m) x)
| ls_incomplete x id :
    lf_trimmer x = TTrim id → trim_checks id (lf_logs x) = TrimIncomplete → life_step_of x (with_trimmer (TFetch id) x)
| ls_fetch x id a :
    lf_trimmer x = TFetch id → lg_archives (lf_logs x) !! id = Some a → legacy a = true →
    life_step_of x (with_trimmer (TDrop id) x)
| ls_drop x id :
    lf_trimmer x = TDrop id → life_step_of x (with_logs (DeleteLogArchive id (lf_logs x)) (with_trimmer TIdle x))
| ls_trim x id m :
    lf_trimmer x = TDelete id m → life_step_of x (with_logs (trim_deletes id m (lf_logs x)) (with_trimmer TIdle x))
| ls_trim_stops x : life_step_of x (with_trimmer TIdle x)
| ls_delete x id :
    lg_runs (lf_logs x) !! id = Some true →
    life_step_of x (with_deleters ((id, DelObject) :: lf_deleters x) ({[id]} ∪ lf_doomed x) x)
| ls_delete_object x d1 id d2 :
    lf_deleters x = d1 ++ (id, DelObject) :: d2 →
    life_step_of x (with_logs (delete_object id (lf_logs x)) (with_deleters (d1 ++ (id, DelRow) :: d2) (lf_doomed x) x))
| ls_delete_row x d1 id d2 :
    lf_deleters x = d1 ++ (id, DelRow) :: d2 → quiet id x → (∀ m, lf_trimmer x ≠ TDelete id m) →
    life_step_of x (with_logs (delete_run id (lf_logs x)) (with_deleters (d1 ++ (id, DelAgain) :: d2) (lf_doomed x) x))
| ls_delete_fails x d1 id st d2 :
    lf_deleters x = d1 ++ (id, st) :: d2 → st ≠ DelAgain → life_step_of x (with_deleters (d1 ++ d2) (lf_doomed x) x)
| ls_delete_again x d1 id d2 :
    lf_deleters x = d1 ++ (id, DelAgain) :: d2 →
    life_step_of x (with_logs (delete_object id (lf_logs x)) (with_deleters (d1 ++ d2) (lf_doomed x) x))
| ls_delete_again_fails x d1 id d2 :
    lf_deleters x = d1 ++ (id, DelAgain) :: d2 → life_step_of x (with_leaked id (with_deleters (d1 ++ d2) (lf_doomed x) x)).
End steps.
Abbreviation life_step := (life_step_of false).

(** At first there are runs and nothing else. *)
Definition life_init (runs : gmap runid bool) : life :=
  MkLife (MkLogs runs ∅ ∅ ∅) [] AIdle TIdle [] [] [] ∅ ∅ ∅.
Definition lives_of (late : bool) (x : life) : Prop := ∃ runs, rtc (life_step_of late) (life_init runs) x.
Abbreviation lives := (lives_of false).

(** ** Rows and archives *)

Definition ascending (l : list LogLine) : Prop := StronglySorted Z.lt (ll_Seq <$> l).

Lemma ascending_NoDup l : ascending l → NoDup l.
Proof.
  unfold ascending. induction l as [|x l IH]; simpl; [constructor|]. intros [Hs Hx]%StronglySorted_inv.
  constructor; [|by apply IH]. intros Hin. rewrite Forall_forall in Hx.
  specialize (Hx (ll_Seq x) ltac:(by apply list_elem_of_fmap_2)). lia.
Qed.

Lemma insert_row_perm x l : insert_row x l ≡ₚ x :: l.
Proof.
  induction l as [|y l IH]; simpl; [done|]. destruct (_ <? _)%Z; [done|]. rewrite IH. apply Permutation_swap.
Qed.

Lemma insert_rows_perm xs l : foldr insert_row l xs ≡ₚ xs ++ l.
Proof. induction xs as [|x xs IH]; simpl; [done|]. by rewrite insert_row_perm, IH. Qed.

Lemma insert_row_ascending x l : ascending l → (ll_Seq x ∉ (ll_Seq <$> l)) → ascending (insert_row x l).
Proof.
  unfold ascending. induction l as [|y l IH]; intros Hs Hx; simpl; [repeat constructor|].
  apply StronglySorted_inv in Hs as [Hs Hy]. rewrite Forall_forall in Hy. csimpl in Hx. apply not_elem_of_cons in Hx as [Hxy Hx].
  destruct (Z.ltb_spec (ll_Seq x) (ll_Seq y)); csimpl.
  - constructor; [constructor; [done|by apply Forall_forall]|]. apply Forall_forall. intros z [->|Hz]%elem_of_cons; [done|].
    specialize (Hy z Hz). lia.
  - constructor; [by apply IH|]. apply Forall_forall. intros z Hz. rewrite insert_row_perm in Hz. csimpl in Hz.
    apply elem_of_cons in Hz as [->|Hz]; [lia|by apply Hy].
Qed.

Lemma insert_rows_ascending xs l : ascending l → NoDup (ll_Seq <$> xs ++ l) → ascending (foldr insert_row l xs).
Proof.
  intros Hl. induction xs as [|x xs IH]; csimpl; [done|]. intros [Hx Hd]%NoDup_cons.
  apply insert_row_ascending; [by apply IH|]. by rewrite insert_rows_perm.
Qed.

Lemma ascending_filter (P : LogLine → Prop) `{!∀ x, Decision (P x)} l : ascending l → ascending (filter P l).
Proof.
  unfold ascending. induction l as [|x l IH]; intros Hs; [done|]. csimpl in Hs. apply StronglySorted_inv in Hs as [Hs Hx].
  rewrite filter_cons. case_decide; [|by apply IH]. csimpl. constructor; [by apply IH|].
  rewrite Forall_forall in Hx |- *. intros z (y & -> & [_ Hy]%list_elem_of_filter)%list_elem_of_fmap.
  apply Hx. by apply list_elem_of_fmap_2.
Qed.

Lemma ascending_take n l : ascending l → ascending (take n l).
Proof.
  unfold ascending. revert n. induction l as [|x l IH]; intros [|n] Hs; csimpl; try constructor; csimpl in Hs;
    apply StronglySorted_inv in Hs as [Hs Hx]; [by apply IH|].
  rewrite Forall_forall in Hx |- *. intros z Hz. apply Hx. rewrite fmap_take in Hz.
  eapply elem_of_sublist; [exact Hz|apply sublist_take].
Qed.

(** An ascending list is determined by its elements. *)
Lemma ascending_unique l k : ascending l → ascending k → (∀ x, x ∈ l ↔ x ∈ k) → l = k.
Proof.
  revert k. induction l as [|x l IH]; intros [|y k] Hl Hk Heq; [done| | |].
  - exfalso. apply (not_elem_of_nil y), Heq. by left.
  - exfalso. apply (not_elem_of_nil x), Heq. by left.
  - pose proof (ascending_NoDup _ Hl) as [Hxl _]%NoDup_cons. pose proof (ascending_NoDup _ Hk) as [Hyk _]%NoDup_cons.
    unfold ascending in Hl, Hk. csimpl in Hl. csimpl in Hk.
    apply StronglySorted_inv in Hl as [Hl Hx], Hk as [Hk Hy]. rewrite Forall_forall in Hx, Hy.
    assert (x = y) as ->.
    { pose proof (proj1 (Heq x) ltac:(by left)) as Hx'. pose proof (proj2 (Heq y) ltac:(by left)) as Hy'.
      apply elem_of_cons in Hx' as [->|Hx']; [done|]. apply elem_of_cons in Hy' as [->|Hy']; [done|].
      specialize (Hy _ (list_elem_of_fmap_2 ll_Seq _ _ Hx')). specialize (Hx _ (list_elem_of_fmap_2 ll_Seq _ _ Hy')). lia. }
    f_equal. apply IH; [done..|]. intros z. specialize (Heq z). rewrite !elem_of_cons in Heq.
    split; intros Hz; [destruct (proj1 Heq (or_intror Hz)) as [->|]|destruct (proj2 Heq (or_intror Hz)) as [->|]]; done.
Qed.

(** A list that contains another of its length, neither repeating an element, is
    the same in another order. *)
Lemma NoDup_covered {A} (l k : list A) : NoDup l → NoDup k → (∀ x, x ∈ l → x ∈ k) → length k ≤ length l → l ≡ₚ k.
Proof.
  intros Hl Hk Hin Hlen. apply submseteq_length_Permutation; [|done]. by apply NoDup_submseteq.
Qed.

Lemma last_seq_ge x l : ascending (x :: l) → (ll_Seq x ≤ last_seq (x :: l))%Z.
Proof.
  unfold last_seq. revert x. induction l as [|y l IH]; intros x Hs; [simpl; lia|]. rewrite last_cons_cons.
  unfold ascending in Hs. csimpl in Hs. apply StronglySorted_inv in Hs as [Hs Hx]. rewrite Forall_forall in Hx.
  specialize (Hx (ll_Seq y) ltac:(left)). specialize (IH y Hs). lia.
Qed.

Lemma last_seq_max l x : ascending l → x ∈ l → (ll_Seq x ≤ last_seq l)%Z.
Proof.
  unfold last_seq. intros Hs. induction l as [|y l IH]; [by intros ?%elem_of_nil|].
  unfold ascending in Hs. csimpl in Hs. apply StronglySorted_inv in Hs as [Hs Hy]. rewrite Forall_forall in Hy.
  intros Hx. destruct l as [|z l]; [apply list_elem_of_singleton in Hx as ->; simpl; lia|].
  rewrite last_cons_cons. apply elem_of_cons in Hx as [->|Hx]; [|by apply IH].
  assert (ll_Seq y < ll_Seq z)%Z by (apply Hy; csimpl; left). destruct l as [|w l]; [simpl; lia|].
  etrans; [|apply (last_seq_ge z (w :: l) Hs)]. lia.
Qed.

(** ** The invariant *)

Definition wrote (x : life) (id : runid) (l : LogLine) : Prop := (id, l) ∈ lf_written x.
Definition dropped (x : life) (id : runid) (l : LogLine) : Prop := (id, l) ∈ lf_dropped x.
Definition all_lines (x : life) : list LogLine := (lf_written x).*2 ++ concat (lf_open x).*2.

(** No sequence number is used twice, and rows are written lines in order. *)
Record rows_inv (x : life) : Prop := {
  ri_unique : NoDup (ll_Seq <$> all_lines x);
  ri_drawn : ∀ l, l ∈ all_lines x → (0 < ll_Seq l)%Z ∧ ll_Seq l ∈ lf_drawn x;
  ri_rows : ∀ id, ascending (rows_of id (lf_logs x)) ∧ ∀ l, l ∈ rows_of id (lf_logs x) → wrote x id l
}.

(** An object that covers part of what was written. *)
Definition covers_part (x : life) (id : runid) (l : list LogLine) : Prop := ascending l ∧ ∀ y, y ∈ l → wrote x id y.

Section invariant.
Variable late : bool.

(** Of a run whose coverage was checked, the object has every line but those of the
    statements that were still under way. *)
Definition covered (x : life) (id : runid) (l : list LogLine) (m : Z) : Prop :=
  above id m x ∧ (∀ y, wrote x id y → y ∈ l ∨ (m < ll_Seq y)%Z ∧ y ∈ rows_of id (lf_logs x))
  ∧ (late = false → quiet id x ∧ ∀ y, wrote x id y → y ∈ l).

(** A run whose deletion has not begun: its rows are all there until they are
    trimmed, and then they are all in the object its record describes, but for those
    that came late. *)
Definition stored_ok (x : life) (id : runid) : Prop :=
  match lg_archives (lf_logs x) !! id with
  | None => ∀ l, wrote x id l → l ∈ rows_of id (lf_logs x)
  | Some a =>
      ∃ l, lg_objects (lf_logs x) !! id = Some l ∧ covers_part x id l
        ∧ la_LineCount a = Z.of_nat (length l) ∧ la_MaxSeq a = last_seq l
        ∧ if la_Trimmed a then covered x id l (la_MaxSeq a) ∧ ∀ y, y ∈ rows_of id (lf_logs x) → (la_MaxSeq a < ll_Seq y)%Z
          else ∀ y, wrote x id y → y ∈ rows_of id (lf_logs x)
  end.

Definition archiver_ok (x : life) (id : runid) : Prop :=
  match lf_archiver x with
  | AIdle => True
  | ATail i | AUndo i => i = id → lg_archives (lf_logs x) !! id = None
  | APut i l => i = id → lg_archives (lf_logs x) !! id = None ∧ covers_part x id l
  | ACreate i l => i = id → lg_archives (lf_logs x) !! id = None ∧ covers_part x id l ∧ lg_objects (lf_logs x) !! id = Some l
  end.

Definition trimmer_ok (x : life) (id : runid) : Prop :=
  match lf_trimmer x with
  | TIdle => True
  | TDelete i m => i = id → ∃ a l, lg_archives (lf_logs x) !! id = Some a ∧ la_Trimmed a = false ∧ la_MaxSeq a = m
                     ∧ lg_objects (lf_logs x) !! id = Some l ∧ covered x id l m
  | TVerify i | TTrim i | TFetch i | TDrop i => i = id → ∀ a, lg_archives (lf_logs x) !! id = Some a → la_Trimmed a = false
  end.

Lemma rows_of_set id l s j : rows_of j (set_rows id l s) = if decide (j = id) then l else rows_of j s.
Proof.
  unfold rows_of, set_rows. simpl. case_decide as E; [subst; by rewrite lookup_insert_eq|]. by rewrite lookup_insert_ne.
Qed.

Lemma open_middle (o1 o2 : list (runid * list LogLine)) id lines :
  concat (o1 ++ (id, lines) :: o2).*2 ≡ₚ lines ++ concat (o1 ++ o2).*2.
Proof.
  rewrite !fmap_app, fmap_cons, !concat_app. simpl. rewrite !app_assoc. by rewrite (Permutation_app_comm _ lines).
Qed.

Lemma written_pair id lines (w : list (runid * LogLine)) : ((pair id <$> lines) ++ w).*2 = lines ++ w.*2.
Proof. rewrite fmap_app, <-list_fmap_compose. f_equal. by rewrite list_fmap_id. Qed.

Lemma rows_inv_step x y : life_step_of late x y → rows_inv x → rows_inv y.
Proof.
  intros Hstep [Hu Hd Hr].
  assert (∀ s : logs, (∀ id, rows_of id s = rows_of id (lf_logs x)) →
    ∀ id, ascending (rows_of id s) ∧ ∀ l, l ∈ rows_of id s → wrote x id l) as Hsame by (intros s Hs id; by rewrite Hs).
  destruct Hstep; try (by constructor).
  - (* append *)
    assert (all_lines (with_open ((id, lines) :: lf_open x) (lf_written x) (list_to_set (ll_Seq <$> lines) ∪ lf_drawn x) x)
            ≡ₚ lines ++ all_lines x) as Hp.
    { unfold all_lines. simpl. rewrite !app_assoc. by rewrite (Permutation_app_comm _ lines). }
    constructor; [| |done].
    + rewrite Hp, fmap_app, NoDup_app. split_and!; [done| |done]. intros z (l & -> & Hl)%list_elem_of_fmap Hz.
      apply list_elem_of_fmap in Hz as (k & Ek & Hk). destruct (Hd k Hk) as [_ Hk']. destruct (H1 l Hl) as [_ Hn].
      apply Hn. by rewrite Ek.
    + intros l. rewrite Hp, elem_of_app. simpl. intros [Hl|Hl].
      * split; [by apply H1|]. apply elem_of_union. left. apply elem_of_list_to_set. by apply list_elem_of_fmap_2.
      * destruct (Hd l Hl). split; [done|]. apply elem_of_union. by right.
  - (* commit *)
    set (y := with_logs _ _). assert (all_lines y ≡ₚ all_lines x) as Hp.
    { unfold all_lines, y. simpl. rewrite H, open_middle, written_pair. rewrite !app_assoc.
      by rewrite (Permutation_app_comm lines). }
    constructor; [by rewrite Hp|intros l; rewrite Hp; apply Hd|]. intros j. unfold y, commit_append. simpl.
    rewrite rows_of_set. case_decide as Hj.
    + subst j. destruct (Hr id) as [Ha Hw]. split.
      * apply insert_rows_ascending; [done|]. rewrite <-Hp in Hu.
        assert (∃ k, all_lines y ≡ₚ (lines ++ rows_of id (lf_logs x)) ++ k) as [k Hk].
        { apply submseteq_Permutation. unfold all_lines, y. simpl. rewrite written_pair.
          apply submseteq_inserts_r. apply submseteq_app; [done|].
          apply NoDup_submseteq; [by apply ascending_NoDup|]. intros l Hl. apply list_elem_of_fmap. exists (id, l).
          split; [done|by apply Hw]. }
        rewrite Hk, fmap_app in Hu. by apply NoDup_app in Hu as [? _].
      * intros l Hl. rewrite insert_rows_perm in Hl. unfold wrote. simpl. apply elem_of_app.
        apply elem_of_app in Hl as [Hl|Hl]; [left; by apply list_elem_of_fmap_2|right; by apply Hw].
    + destruct (Hr j) as [Ha Hw]. split; [done|]. intros l Hl. unfold wrote. simpl. apply elem_of_app. right. by apply Hw.
  - (* abort *)
    assert (sublist (all_lines (with_open (o1 ++ o2) (lf_written x) (lf_drawn x) x)) (all_lines x)) as Hs.
    { unfold all_lines. simpl. apply sublist_app; [done|]. rewrite H, !fmap_app, fmap_cons, !concat_app. simpl.
      apply sublist_app; [done|]. by apply sublist_inserts_l. }
    constructor; [|intros l Hl; apply Hd; by eapply elem_of_sublist|done].
    eapply sublist_NoDup; [exact Hu|]. by apply fmap_sublist.
  - (* create *)
    unfold CreateLogArchive in H0. case_bool_decide; [|done]. injection H0 as <-. by constructor.
  - (* trim *)
    constructor; [done..|]. intros j. unfold trim_deletes. simpl. rewrite rows_of_set. case_decide as Hj; [subst j|apply Hr].
    destruct (Hr id) as [Ha Hw]. split; [by apply ascending_filter|]. intros l [_ Hl]%list_elem_of_filter. by apply Hw.
  - (* delete row *)
    constructor; [done..|]. intros j. unfold rows_of, delete_run. simpl. destruct (decide (j = id)) as [->|].
    + rewrite lookup_delete_eq. simpl. split; [constructor|by intros ? ?%elem_of_nil].
    + rewrite lookup_delete_ne by done. apply Hr.
Qed.

(** Two states that agree on what concerns a run. *)
Record same_at (id : runid) (x y : life) : Prop := {
  sa_archive : lg_archives (lf_logs y) !! id = lg_archives (lf_logs x) !! id;
  sa_object : lg_objects (lf_logs y) !! id = lg_objects (lf_logs x) !! id;
  sa_rows : rows_of id (lf_logs y) = rows_of id (lf_logs x);
  sa_wrote : ∀ l, wrote y id l ↔ wrote x id l;
  sa_open lines : (id, lines) ∈ lf_open y → (id, lines) ∈ lf_open x
}.

Lemma quiet_open x id : quiet id x ↔ ∀ lines, (id, lines) ∉ lf_open x.
Proof using.
  unfold quiet. split.
  - intros H lines Hin. apply H. by apply (list_elem_of_fmap_2 fst _ (id, lines)).
  - intros H Hin. apply list_elem_of_fmap in Hin as ([i lines] & -> & Hin). by apply (H lines).
Qed.

Lemma covered_same id x y l m : same_at id x y → covered x id l m → covered y id l m.
Proof.
  intros [_ _ Er Ew Eo] (Ha & Hw & Hq). split; [intros lines z Hz; by apply (Ha lines), Eo|]. split.
  - intros z Hz. rewrite Er. apply Hw. by apply Ew.
  - intros E. destruct (Hq E) as [Hq1 Hq2]. split; [|intros z Hz; by apply Hq2, Ew]. rewrite quiet_open in Hq1 |- *. intros lines Hin. by eapply Hq1, Eo.
Qed.

Lemma covers_same id x y l : same_at id x y → covers_part x id l → covers_part y id l.
Proof. intros [????] [Ha Hw]. split; [done|]. intros z Hz. naive_solver. Qed.

Lemma stored_same id x y : same_at id x y → stored_ok x id → stored_ok y id.
Proof.
  intros Hs. pose proof Hs as [Ea Eo Er Ew _]. unfold stored_ok. rewrite Ea, Eo, Er.
  destruct (lg_archives (lf_logs x) !! id) as [a|]; [|naive_solver].
  intros (l & ? & Hc & ? & ? & H). exists l. split_and!; [done|by eapply covers_same|done..|].
  destruct (la_Trimmed a); [|naive_solver]. destruct H as [Hc1 Hc2]. split; [by eapply covered_same|done].
Qed.

Lemma archiver_same id x y : same_at id x y → lf_archiver y = lf_archiver x → archiver_ok x id → archiver_ok y id.
Proof.
  intros Hs Ea. pose proof Hs as [Er Eo _ _ _]. unfold archiver_ok. rewrite Ea, Er, Eo.
  destruct (lf_archiver x); try done; naive_solver eauto using covers_same.
Qed.

Lemma trimmer_same id x y : same_at id x y → lf_trimmer y = lf_trimmer x → trimmer_ok x id → trimmer_ok y id.
Proof.
  intros Hs Et. pose proof Hs as [Ea Eo _ _ _]. unfold trimmer_ok. rewrite Et, Ea, Eo.
  destruct (lf_trimmer x); try done. intros H E. destruct (H E) as (a & l & ? & ? & ? & ? & Hc). exists a, l. split_and!; [done..|by eapply covered_same].
Qed.

Definition live_ok (x : life) (id : runid) : Prop := stored_ok x id ∧ archiver_ok x id ∧ trimmer_ok x id.

Lemma live_same id x y :
  same_at id x y → lf_archiver y = lf_archiver x → lf_trimmer y = lf_trimmer x → live_ok x id → live_ok y id.
Proof.
  intros Hs Ea Et (H1 & H2 & H3).
  split_and!; [by eapply stored_same|by eapply archiver_same|by eapply trimmer_same].
Qed.

Lemma same_refl id x : same_at id x x.
Proof. by split. Qed.

(** What [CreateLogArchive] of a run without a record does. *)
Lemma create_ok id l s s' :
  CreateLogArchive id l s = Some s' → lg_archives s !! id = None →
  s' = set_archives (<[id := MkLogArchive (Z.of_nat (length l)) (last_seq l) false]> (lg_archives s)) s.
Proof. unfold CreateLogArchive. case_bool_decide; [|done]. intros [= <-] ->. done. Qed.

(** The coverage check holds only if the object has every row. *)
Lemma check_complete x id m :
  rows_inv x → stored_ok x id → trim_checks id (lf_logs x) = TrimUpTo m →
  ∃ a, lg_archives (lf_logs x) !! id = Some a ∧ la_Trimmed a = false ∧ la_MaxSeq a = m
    ∧ lg_objects (lf_logs x) !! id = Some (rows_of id (lf_logs x)).
Proof.
  intros Hrows Hst. unfold trim_checks. destruct (lg_archives _ !! id) as [a|] eqn:Ha; [|done].
  destruct (la_Trimmed a) eqn:Et; [done|]. destruct (Z.ltb_spec (la_LineCount a) (Z.of_nat (length (rows_of id (lf_logs x))))); [done|].
  destruct (_ <? _)%Z; [done|]. intros [= <-]. unfold stored_ok in Hst. rewrite Ha, Et in Hst.
  destruct Hst as (l & Ho & [Hl Hw] & Hc & Hm & Hall). exists a. split_and!; [done..|]. rewrite Ho. f_equal.
  destruct (ri_rows _ Hrows id) as [Hr Hrw]. apply ascending_unique; [done..|].
  assert (l ≡ₚ rows_of id (lf_logs x)) as Hp; [|intros z; by rewrite Hp].
  apply NoDup_covered; [by apply ascending_NoDup..| |lia]. intros z Hz. by apply Hall, Hw.
Qed.

Definition doomed_only (x : life) : Prop := ∀ i st, (i, st) ∈ lf_deleters x → i ∈ lf_doomed x.
Definition life_inv (x : life) : Prop :=
  rows_inv x ∧ doomed_only x ∧ ∀ id, id ∉ lf_doomed x → live_ok x id.

Lemma doomed_step x y : life_step_of late x y → doomed_only x → doomed_only y ∧ lf_doomed x ⊆ lf_doomed y.
Proof.
  intros Hstep Hd.
  assert (∀ d1 d2 e e', lf_deleters x = d1 ++ e :: d2 → e'.1 = e.1 → ∀ i st, (i, st) ∈ d1 ++ e' :: d2 → i ∈ lf_doomed x) as Hmid.
  { intros d1 d2 [j st0] [j' st1] E [= ->] i st Hin. rewrite elem_of_app, elem_of_cons in Hin.
    destruct Hin as [?|[[= -> ->]|?]]; eapply Hd; rewrite E, elem_of_app, elem_of_cons; eauto. }
  assert (∀ d1 d2 e, lf_deleters x = d1 ++ e :: d2 → ∀ i st, (i, st) ∈ d1 ++ d2 → i ∈ lf_doomed x) as Hrest.
  { intros d1 d2 e E i st Hin. eapply Hd. rewrite E, elem_of_app, elem_of_cons. apply elem_of_app in Hin as [?|?]; eauto. }
  destruct Hstep; (split; [|try exact (reflexivity _)]); try exact Hd.
  - intros i st [[= -> _]|Hin]%elem_of_cons; apply elem_of_union; [left; by apply elem_of_singleton|right; by eapply Hd].
  - apply union_subseteq_r.
  - exact (Hmid _ _ _ (id, DelRow) H eq_refl).
  - exact (Hmid _ _ _ (id, DelAgain) H eq_refl).
  - exact (Hrest _ _ _ H).
  - exact (Hrest _ _ _ H).
  - exact (Hrest _ _ _ H).
Qed.

Section live.
Variables (x : life) (id : runid).
Hypotheses (Hrows : rows_inv x) (Hlive : live_ok x id).

Lemma live_append i lines :
  start_append i lines (lf_logs x) = Inserting lines →
  live_ok (with_open ((i, lines) :: lf_open x) (lf_written x) (list_to_set (ll_Seq <$> lines) ∪ lf_drawn x) x) id.
Proof using Hlive. clear Hrows.
  intros Hstart. destruct (decide (i = id)) as [->|Hi].
  - assert (lg_archives (lf_logs x) !! id = None) as Hn.
    { unfold start_append, sealed in Hstart. destruct (lg_archives (lf_logs x) !! id) eqn:E; [|done].
      rewrite bool_decide_true in Hstart by eauto. done. }
    destruct Hlive as (H1 & H2 & H3). split_and!.
    + unfold stored_ok in *. simpl. rewrite Hn in *. exact H1.
    + exact H2.
    + unfold trimmer_ok in *. simpl in *. destruct (lf_trimmer x); try done. intros ->. destruct (H3 eq_refl) as (? & ? & ? & _). congruence.
  - apply (live_same id x); [|done..|exact Hlive]. split; try done. intros ls. cbn. intros [[= E _]|Hin]%elem_of_cons; [congruence|done].
Qed.

Lemma live_commit o1 i lines o2 :
  lf_open x = o1 ++ (i, lines) :: o2 →
  live_ok (with_logs (commit_append i lines (lf_logs x))
             (with_open (o1 ++ o2) ((pair i <$> lines) ++ lf_written x) (lf_drawn x) x)) id.
Proof using Hlive. clear Hrows.
  intros Ho. set (y := with_logs _ _).
  assert (∀ j l, wrote y j l ↔ (j = i ∧ l ∈ lines) ∨ wrote x j l) as Hw.
  { intros j l. unfold wrote, y. simpl. rewrite elem_of_app, list_elem_of_fmap. naive_solver. }
  assert (∀ j ls, (j, ls) ∈ lf_open y → (j, ls) ∈ lf_open x) as Hq.
  { intros j ls. unfold y. simpl. rewrite Ho, !elem_of_app, elem_of_cons. naive_solver. }
  destruct (decide (i = id)) as [->|Hi].
  - assert ((id, lines) ∈ lf_open x) as Hin by (rewrite Ho, elem_of_app, elem_of_cons; naive_solver).
    assert (∀ l, l ∈ rows_of id (lf_logs y) ↔ l ∈ lines ∨ l ∈ rows_of id (lf_logs x)) as Hr.
    { intros l. unfold y. simpl. unfold commit_append. rewrite rows_of_set, decide_True by done.
      by rewrite insert_rows_perm, elem_of_app. }
    assert (∀ l, covers_part x id l → covers_part y id l) as Hc.
    { intros l [Ha Hl]. split; [done|]. intros z Hz. apply Hw. right. by apply Hl. }
    assert (∀ l m, covered x id l m → covered y id l m) as Hcov.
    { intros l m (Ha & Hall & Hl). split; [intros ls z Hz; by apply (Ha ls), Hq|]. split.
      - intros z. rewrite Hw, Hr. intros [[_ Hz]|Hz]; [right; split; [by apply (Ha lines)|by left]|]. destruct (Hall z Hz) as [?|[? ?]]; [by left|right; split; [done|by right]].
      - intros E. destruct (Hl E) as [Hqx _]. rewrite quiet_open in Hqx. by destruct (Hqx lines). }
    destruct Hlive as (H1 & H2 & H3). split_and!.
    + unfold stored_ok in *. change (lg_archives (lf_logs y)) with (lg_archives (lf_logs x)).
      change (lg_objects (lf_logs y)) with (lg_objects (lf_logs x)).
      destruct (lg_archives (lf_logs x) !! id) as [a|]; [|intros l; rewrite Hw, Hr; naive_solver].
      destruct H1 as (l & ? & ? & ? & ? & H1). exists l. split_and!; [done|by apply Hc|done..|].
      destruct (la_Trimmed a); [|intros z; rewrite Hw, Hr; naive_solver]. destruct H1 as [H1 H1r]. split; [by apply Hcov|].
      intros z. rewrite Hr. intros [Hz|Hz]; [by eapply (proj1 H1)|by apply H1r].
    + unfold archiver_ok in *. change (lf_archiver y) with (lf_archiver x). change (lg_archives (lf_logs y)) with (lg_archives (lf_logs x)).
      change (lg_objects (lf_logs y)) with (lg_objects (lf_logs x)). clear -H2 Hc. destruct (lf_archiver x); try exact H2.
      * intros E. destruct (H2 E). auto.
      * intros E. destruct (H2 E) as (? & ? & ?). auto.
    + unfold trimmer_ok in *. change (lf_trimmer y) with (lf_trimmer x). change (lg_archives (lf_logs y)) with (lg_archives (lf_logs x)).
      change (lg_objects (lf_logs y)) with (lg_objects (lf_logs x)). clear -H3 Hcov. destruct (lf_trimmer x); try exact H3. intros E. destruct (H3 E) as (a & l & ? & ? & ? & ? & ?). exists a, l. auto 10.
  - apply (live_same id x); [|done..|exact Hlive]. split; [done|done| | |by apply Hq].
    + unfold y. simpl. unfold commit_append. by rewrite rows_of_set, decide_False.
    + intros l. rewrite Hw. naive_solver.
Qed.

Lemma live_abort o1 i lines o2 :
  lf_open x = o1 ++ (i, lines) :: o2 → live_ok (with_open (o1 ++ o2) (lf_written x) (lf_drawn x) x) id.
Proof using Hlive. clear Hrows.
  intros Ho. apply (live_same id x); [|done..|exact Hlive]. split; try done. intros ls. cbn.
  rewrite Ho, !elem_of_app, elem_of_cons. naive_solver.
Qed.

(** A step of the archiver, and one of the trimmer, that leaves the data of the run. *)
Lemma live_archiver y : same_at id x y → lf_trimmer y = lf_trimmer x → archiver_ok y id → live_ok y id.
Proof using Hlive. clear Hrows.
  intros Hs Et Ha. destruct Hlive as (H1 & _ & H3). split_and!; [by eapply stored_same|done|by eapply trimmer_same].
Qed.

Lemma live_trimmer y : same_at id x y → lf_archiver y = lf_archiver x → trimmer_ok y id → live_ok y id.
Proof using Hlive. clear Hrows.
  intros Hs Ea Ht. destruct Hlive as (H1 & H2 & _). split_and!; [by eapply stored_same|by eapply archiver_same|done].
Qed.

Lemma live_other y i :
  (id ∉ lf_doomed x) → i ∈ lf_doomed x → (∀ j, j ≠ i → same_at j x y) → lf_archiver y = lf_archiver x → lf_trimmer y = lf_trimmer x →
  live_ok y id.
Proof using Hlive. clear Hrows.
  intros Hn Hi Hs Ea Et. apply (live_same id x); [|done..|exact Hlive]. apply Hs. intros ->. by apply Hn.
Qed.

Lemma live_tail i : lf_archiver x = ATail i → live_ok (with_archiver (APut i (TailLogs i 0 archive_cap (lf_logs x))) x) id.
Proof using Hlive Hrows.
  intros Ea. apply live_archiver; [by split|done|]. destruct Hlive as (_ & H2 & _). unfold archiver_ok in *.
  rewrite Ea in H2. cbn [lf_archiver with_archiver]. intros ->. split; [by apply H2|].
  destruct (ri_rows _ Hrows id) as [Ha Hw]. unfold TailLogs, after_seq.
  split; [by apply ascending_take, ascending_filter|]. intros y Hy. apply Hw.
  eapply elem_of_sublist; [exact Hy|]. etrans; [apply sublist_take|apply sublist_filter].
Qed.

Lemma live_put i l :
  lf_archiver x = APut i l →
  live_ok (with_logs (set_objects (<[i := l]> (lg_objects (lf_logs x))) (lf_logs x)) (with_archiver (ACreate i l) x)) id.
Proof using Hlive. clear Hrows.
  intros Ea. destruct (decide (i = id)) as [->|Hi].
  - destruct Hlive as (H1 & H2 & H3). unfold archiver_ok in H2. rewrite Ea in H2. destruct (H2 eq_refl) as [Hn Hc].
    unfold live_ok, stored_ok, archiver_ok, trimmer_ok in *. cbn in *. rewrite Hn in *. split_and!; [done| |].
    + intros _. by rewrite lookup_insert_eq.
    + destruct (lf_trimmer x); try done. intros E. by destruct (H3 E) as (? & ? & ? & _).
  - apply live_archiver; [|done|by intros ?]. split; try done. cbn. by rewrite lookup_insert_ne.
Qed.

Lemma live_create i l s :
  lf_archiver x = ACreate i l → CreateLogArchive i l (lf_logs x) = Some s →
  live_ok (with_logs s (with_archiver AIdle x)) id.
Proof using Hlive. clear Hrows.
  intros Ea Hs. destruct (decide (i = id)) as [->|Hi].
  - destruct Hlive as (H1 & H2 & H3). unfold archiver_ok in H2. rewrite Ea in H2. destruct (H2 eq_refl) as (Hn & Hc & Ho).
    rewrite (create_ok _ _ _ _ Hs Hn). unfold live_ok, stored_ok, archiver_ok, trimmer_ok in *. cbn in *. rewrite Hn in *.
    rewrite lookup_insert_eq. split_and!; [by exists l|done|].
    destruct (lf_trimmer x); try done; intros E; try (by intros a [= <-]). by destruct (H3 E) as (? & ? & ? & _).
  - apply live_archiver; [|done|done]. unfold CreateLogArchive in Hs. case_bool_decide; [|done]. injection Hs as <-.
    split; try done. cbn. by rewrite lookup_insert_ne.
Qed.

Lemma live_undo i :
  lf_archiver x = AUndo i → live_ok (with_logs (delete_object i (lf_logs x)) (with_archiver AIdle x)) id.
Proof using Hlive. clear Hrows.
  intros Ea. destruct (decide (i = id)) as [->|Hi].
  - destruct Hlive as (H1 & H2 & H3). unfold archiver_ok in H2. rewrite Ea in H2. pose proof (H2 eq_refl) as Hn.
    unfold live_ok, stored_ok, archiver_ok, trimmer_ok in *. cbn in *. rewrite Hn in *. split_and!; [done..|].
    destruct (lf_trimmer x); try done. intros E. by destruct (H3 E) as (? & ? & ? & _).
  - apply live_archiver; [|done|done]. split; try done. cbn. by rewrite lookup_delete_ne.
Qed.

Lemma live_check i m :
  lf_trimmer x = TTrim i → settling late i m x → trim_checks i (lf_logs x) = TrimUpTo m → live_ok (with_trimmer (TDelete i m) x) id.
Proof using Hlive Hrows.
  intros Et Hq Hc. apply live_trimmer; [by split|done|]. unfold trimmer_ok. cbn. intros ->. destruct Hlive as (H1 & _ & _).
  destruct (check_complete x id m Hrows H1 Hc) as (a & Ha & Htr & Hm & Ho). exists a, (rows_of id (lf_logs x)). split_and!; [done..|].
  assert (∀ y, wrote x id y → y ∈ rows_of id (lf_logs x)) as Hall.
  { unfold stored_ok in H1. rewrite Ha, Htr in H1. by destruct H1 as (? & _ & _ & _ & _ & H1). }
  unfold settling in Hq. split; [|split; [by intros y Hy; left; apply Hall|]]; destruct late; try done. rewrite quiet_open in Hq. intros lines z Hz. by destruct (Hq lines).
Qed.

Lemma live_drop i :
  lf_trimmer x = TDrop i → live_ok (with_logs (DeleteLogArchive i (lf_logs x)) (with_trimmer TIdle x)) id.
Proof using Hlive. clear Hrows.
  intros Et. destruct (decide (i = id)) as [->|Hi].
  - destruct Hlive as (H1 & H2 & H3). unfold trimmer_ok in H3. rewrite Et in H3. specialize (H3 eq_refl).
    unfold live_ok, stored_ok, archiver_ok, trimmer_ok in *. cbn in *. rewrite lookup_delete_eq. split_and!; [| |done].
    2:{ destruct (lf_archiver x); try done; intros E; destruct (H2 E) as [_ ?]; by split. }
    destruct (lg_archives _ !! id) as [a|]; [|done]. specialize (H3 a eq_refl). destruct H1 as (l & _ & _ & _ & _ & H1).
    by rewrite H3 in H1.
  - apply live_trimmer; [|done|done]. split; try done. cbn. by rewrite lookup_delete_ne.
Qed.

Lemma live_trim i m :
  lf_trimmer x = TDelete i m → live_ok (with_logs (trim_deletes i m (lf_logs x)) (with_trimmer TIdle x)) id.
Proof using Hlive. clear Hrows.
  intros Et. destruct (decide (i = id)) as [->|Hi].
  - destruct Hlive as (H1 & H2 & H3). unfold trimmer_ok in H3. rewrite Et in H3.
    destruct (H3 eq_refl) as (a & o & Ha & Htr & Hm & Ho & Hq & Hcw & Hcl). split_and!; [| |done].
    2:{ unfold archiver_ok in *. cbn in *. rewrite Ha in H2.
        destruct (lf_archiver x); try done; intros E; try (by specialize (H2 E)); by destruct (H2 E). }
    unfold stored_ok in *. rewrite Ha, Htr in H1. destruct H1 as (l & Hl & Hc & Hn & Hx & Hall).
    assert (o = l) as -> by congruence. cbn. rewrite lookup_alter_eq, Ha. cbn. exists l. do 4 (split; [done|]).
    unfold covered, trim_deletes. cbn [lf_logs with_logs]. rewrite rows_of_set, decide_True by done. rewrite Hm. split.
    + split; [exact Hq|]. split; [|exact Hcl]. intros z Hz. destruct (Hcw z Hz) as [?|[? ?]]; [by left|right]. split; [done|]. by apply list_elem_of_filter.
    + by intros z [? _]%list_elem_of_filter.
  - apply live_trimmer; [|done|done]. split; try done; [cbn; by rewrite lookup_alter_ne|].
    cbn [lf_logs with_logs]. unfold trim_deletes. by rewrite rows_of_set, decide_False.
Qed.
End live.

(** ** The invariant along a life *)

Lemma delete_object_same i j x y :
  j ≠ i → lf_logs y = delete_object i (lf_logs x) → lf_written y = lf_written x → lf_open y = lf_open x → same_at j x y.
Proof. intros Hj El Ew Eo. split; unfold wrote; rewrite ?El, ?Ew, ?Eo; try done. cbn. by rewrite lookup_delete_ne. Qed.

Lemma doomed_middle x d1 i st d2 : doomed_only x → lf_deleters x = d1 ++ (i, st) :: d2 → i ∈ lf_doomed x.
Proof. intros Hd E. apply (Hd i st). rewrite E. apply elem_of_app. right. left. Qed.

Lemma life_inv_step x y : life_step_of late x y → life_inv x → life_inv y.
Proof.
  intros Hstep (Hrows & Hd & Hlive). destruct (doomed_step _ _ Hstep Hd) as [Hd' Hsub].
  split_and!; [by eapply rows_inv_step|done|]. intros id Hid.
  assert (id ∉ lf_doomed x) as Hx by set_solver. specialize (Hlive id Hx). clear Hsub.
  destruct Hstep; try (apply (live_same id x); [by split|done..|exact Hlive]).
  - eapply live_append; [exact Hlive|eassumption].
  - eapply live_commit; [exact Hlive|eassumption].
  - by apply (live_abort x id Hlive _ _ _ _ H).
  - eapply live_archiver; [exact Hlive|by split|done|]. unfold archiver_ok. cbn. intros ->. unfold needs_archival, sealed in H0.
    apply andb_prop in H0 as [_ H0]. destruct (lg_archives _ !! id) eqn:E; [|done]. rewrite bool_decide_true in H0 by eauto. done.
  - eapply live_tail; [done|exact Hlive|done].
  - eapply live_put; [exact Hlive|done].
  - eapply live_archiver; [exact Hlive|by split|done|done].
  - eapply live_create; [exact Hlive|done..].
  - eapply live_archiver; [exact Hlive|by split|done|]. destruct Hlive as (_ & H2 & _). unfold archiver_ok in *. rewrite H in H2.
    cbn. intros E. by destruct (H2 E).
  - eapply live_undo; [exact Hlive|done].
  - eapply live_archiver; [exact Hlive|by split|done|done].
  - eapply live_trimmer; [exact Hlive|by split|done|]. unfold trimmer_ok. cbn. intros ->. congruence.
  - eapply live_trimmer; [exact Hlive|by split|done|]. destruct Hlive as (_ & _ & H3). unfold trimmer_ok in *. by rewrite H in H3.
  - eapply live_trimmer; [exact Hlive|by split|done|]. destruct Hlive as (_ & _ & H3). unfold trimmer_ok in *. by rewrite H in H3.
  - eapply live_check; [done|exact Hlive|done..].
  - eapply live_trimmer; [exact Hlive|by split|done|]. destruct Hlive as (_ & _ & H3). unfold trimmer_ok in *. by rewrite H in H3.
  - eapply live_trimmer; [exact Hlive|by split|done|]. destruct Hlive as (_ & _ & H3). unfold trimmer_ok in *. by rewrite H in H3.
  - eapply live_drop; [exact Hlive|done].
  - eapply live_trim; [exact Hlive|done].
  - eapply live_trimmer; [exact Hlive|by split|done|done].
  - eapply live_other; [exact Hlive|exact Hx| | |done|done]; [by eapply doomed_middle|]. intros j Hj. by eapply delete_object_same.
  - eapply live_other; [exact Hlive|exact Hx| | |done|done]; [by eapply doomed_middle|]. intros j Hj.
    split; try done; cbn; unfold rows_of; cbn; by rewrite lookup_delete_ne.
  - eapply live_other; [exact Hlive|exact Hx| | |done|done]; [by eapply doomed_middle|]. intros j Hj. by eapply delete_object_same.
Qed.

Lemma life_inv_init runs : life_inv (life_init runs).
Proof.
  split_and!.
  - split; cbn; [constructor|by intros ? ?%elem_of_nil|]. intros id. unfold rows_of. cbn. rewrite lookup_empty. cbn.
    split; [constructor|by intros ? ?%elem_of_nil].
  - by intros ? ? ?%elem_of_nil.
  - intros id _. split_and!; [|done..]. unfold stored_ok. cbn. rewrite lookup_empty. by intros l ?%elem_of_nil.
Qed.

Lemma life_inv_rtc x y : rtc (life_step_of late) x y → life_inv x → life_inv y.
Proof. induction 1; [done|]. intros Hx. by eauto using life_inv_step. Qed.

Lemma lives_inv x : lives_of late x → life_inv x.
Proof. intros [runs Hr]. eapply life_inv_rtc; [exact Hr|]. apply life_inv_init. Qed.

(** A trimmed run stays trimmed until its deletion. *)
Definition trimmed_at (id : runid) (x : life) : bool := logsTrimmed true id (lf_logs x).

Lemma trimmed_at_spec id x : trimmed_at id x = true ↔ ∃ a, lg_archives (lf_logs x) !! id = Some a ∧ la_Trimmed a = true.
Proof. unfold trimmed_at, logsTrimmed. simpl. destruct (lg_archives _ !! id); naive_solver. Qed.

Lemma trimmed_step x y id :
  life_step_of late x y → life_inv x → (id ∉ lf_doomed y) → trimmed_at id x = true → trimmed_at id y = true.
Proof.
  intros Hstep (_ & Hd & Hlive) Hid. rewrite !trimmed_at_spec. intros (a & Ha & Ht).
  assert (id ∉ lf_doomed x) as Hx by (destruct (doomed_step _ _ Hstep Hd); set_solver).
  destruct (Hlive id Hx) as (_ & H2 & H3). unfold archiver_ok, trimmer_ok in *. destruct Hstep; try (by exists a).
  - rewrite H in H2. unfold CreateLogArchive in H0. case_bool_decide; [|done]. injection H0 as <-. exists a. split; [|done].
    cbn. rewrite lookup_insert_ne; [done|]. intros ->. destruct (H2 eq_refl). congruence.
  - rewrite H in H3. exists a. split; [|done]. cbn. rewrite lookup_delete_ne; [done|]. intros ->. specialize (H3 eq_refl a Ha). congruence.
  - cbn. destruct (decide (id0 = id)) as [->|]; [|exists a; by rewrite lookup_alter_ne].
    rewrite lookup_alter_eq, Ha. by eexists.
  - exists a. split; [|done]. cbn. rewrite lookup_delete_ne; [done|]. intros ->. apply Hx. by eapply doomed_middle.
Qed.

Lemma doomed_rtc x y : rtc (life_step_of late) x y → life_inv x → lf_doomed x ⊆ lf_doomed y.
Proof.
  induction 1 as [|x z y Hs _ IH]; intros Hx; [done|]. etrans; [|apply IH; by eapply life_inv_step].
  destruct Hx as (_ & Hd & _). by apply (doomed_step _ _ Hs Hd).
Qed.

Lemma trimmed_rtc x y id :
  rtc (life_step_of late) x y → life_inv x → (id ∉ lf_doomed y) → trimmed_at id x = true → trimmed_at id y = true.
Proof.
  induction 1 as [|x z y Hs Hr IH]; intros Hx Hid Ht; [done|]. pose proof (life_inv_step _ _ Hs Hx) as Hz.
  apply IH; [done|done|]. eapply trimmed_step; [done..| |done]. pose proof (doomed_rtc _ _ Hr Hz). set_solver.
Qed.

Lemma wrote_step x y id l : life_step_of late x y → wrote x id l → wrote y id l.
Proof. intros Hs Hw. destruct Hs; try done. unfold wrote. cbn. apply elem_of_app. by right. Qed.

Lemma wrote_rtc x y id l : rtc (life_step_of late) x y → wrote x id l → wrote y id l.
Proof. induction 1; [done|]. intros Hw. by eauto using wrote_step. Qed.

(** What an untrimmed run has in its rows and a trimmed one in its object. *)
Lemma untrimmed_rows x id :
  life_inv x → (id ∉ lf_doomed x) → trimmed_at id x = false → ∀ l, wrote x id l ↔ l ∈ rows_of id (lf_logs x).
Proof.
  intros (Hr & _ & Hlive) Hid Ht l. split; [|by apply (ri_rows _ Hr)]. destruct (Hlive id Hid) as (H1 & _ & _). unfold stored_ok in H1.
  unfold trimmed_at, logsTrimmed in Ht. simpl in Ht. destruct (lg_archives _ !! id) as [a|]; [|by apply H1].
  destruct H1 as (o & _ & _ & _ & _ & H1). rewrite Ht in H1. by apply H1.
Qed.

Lemma trimmed_store x id a :
  life_inv x → (id ∉ lf_doomed x) → lg_archives (lf_logs x) !! id = Some a → la_Trimmed a = true →
  ∃ o, lg_objects (lf_logs x) !! id = Some o ∧ ascending o ∧ (∀ l, wrote x id l ↔ l ∈ o ∨ l ∈ rows_of id (lf_logs x))
    ∧ (∀ l, l ∈ rows_of id (lf_logs x) → (la_MaxSeq a < ll_Seq l)%Z) ∧ (late = false → ∀ l, wrote x id l ↔ l ∈ o).
Proof using.
  intros (Hr & _ & Hlive) Hid Ha Ht. destruct (Hlive id Hid) as (H1 & _ & _). unfold stored_ok in H1.
  rewrite Ha, Ht in H1. destruct H1 as (o & Ho & [Hs Hw] & _ & _ & (_ & Hall & Hl) & Hrows). exists o. split_and!; [done..| |done|].
  - intros l. split; [intros Hy; destruct (Hall l Hy) as [?|[_ ?]]; auto|]. intros [?|?]; [by apply Hw|by apply (ri_rows _ Hr)].
  - intros E l. destruct (Hl E) as [_ Hq]. split; [apply Hq|apply Hw].
Qed.
End invariant.

Lemma trimmed_object x id :
  life_inv false x → (id ∉ lf_doomed x) → trimmed_at id x = true →
  ∃ o, lg_objects (lf_logs x) !! id = Some o ∧ ascending o ∧ ∀ l, wrote x id l ↔ l ∈ o.
Proof.
  intros Hx Hid (a & Ha & Ht)%trimmed_at_spec. destruct (trimmed_store _ _ _ _ Hx Hid Ha Ht) as (o & ? & ? & _ & _ & H). exists o. split_and!; [done..|by apply H].
Qed.

(** ** Reads of archives agree with reads of rows *)

Lemma step_rows_filter steps l : filterSteps l steps = step_rows steps l.
Proof. done. Qed.

Lemma after_none a l : ascending l → (∀ y, y ∈ l → ¬ (a < ll_Seq y)%Z) → after_seq a l = [].
Proof.
  intros _ H. unfold after_seq. induction l as [|x l IH]; [done|]. rewrite filter_cons, decide_False by (apply H; left).
  apply IH. intros y Hy. apply H. by right.
Qed.

Lemma after_all a l : (∀ y, y ∈ l → (a < ll_Seq y)%Z) → after_seq a l = l.
Proof.
  unfold after_seq. induction l as [|x l IH]; intros H; [done|]. rewrite filter_cons, decide_True by (apply H; left).
  f_equal. apply IH. intros y Hy. apply H. by right.
Qed.

Lemma take_short {A} n (l : list A) : (if n <? length l then take n l else l) = take n l.
Proof. destruct (Nat.ltb_spec n (length l)); [done|]. by rewrite take_ge. Qed.

Lemma tailAfter_rows l a n : ascending l → tailAfter l a n = take n (after_seq a l).
Proof.
  intros Hs. unfold tailAfter. rewrite take_short. f_equal. induction l as [|x l IH]; [done|].
  unfold ascending in Hs. csimpl in Hs. apply StronglySorted_inv in Hs as [Hs Hx]. simpl. unfold after_seq. rewrite filter_cons.
  case_decide as Hc.
  - simpl. f_equal. symmetry. apply after_all. intros y Hy. rewrite Forall_forall in Hx.
    specialize (Hx _ (list_elem_of_fmap_2 ll_Seq _ _ Hy)). lia.
  - specialize (IH Hs). destruct (list_find _ l) as [[i y]|]; simpl; exact IH.
Qed.

Lemma tailRecent_rows l n : tailRecent l n = reverse (take n (reverse l)).
Proof.
  unfold tailRecent. rewrite take_reverse, reverse_involutive. destruct (Nat.ltb_spec n (length l)); [done|].
  by replace (length l - n) with 0 by lia.
Qed.

Lemma archivedLogRange_rows l steps o n : archivedLogRange l steps o n = take n (drop o (step_rows steps l)).
Proof.
  unfold archivedLogRange. rewrite step_rows_filter, take_short. destruct (Nat.leb_spec (length (step_rows steps l)) o); [|done].
  by rewrite drop_ge, take_nil.
Qed.

Lemma foldr_max_lub a k m : (a ≤ m)%Z → (∀ z, z ∈ k → (z ≤ m)%Z) → (foldr Z.max a k ≤ m)%Z.
Proof.
  intros Ha. induction k as [|y k IH]; intros Hk; simpl; [done|]. apply Z.max_lub; [apply Hk; left|].
  apply IH. intros z Hz. apply Hk. by right.
Qed.

Lemma foldr_max_ge a k z : z ∈ a :: k → (z ≤ foldr Z.max a k)%Z.
Proof.
  intros Hz. induction k as [|y k IH]; simpl; [apply list_elem_of_singleton in Hz; lia|].
  rewrite !elem_of_cons in Hz. rewrite elem_of_cons in IH. destruct Hz as [Hz|[->|Hz]]; [|lia|]; specialize (IH ltac:(tauto)); lia.
Qed.

Lemma foldr_min_first a k : (∀ z, z ∈ k → (a < z)%Z) → foldr Z.min a k = a.
Proof.
  induction k as [|z k IH]; intros Hk; simpl; [done|]. rewrite IH by (intros; apply Hk; by right).
  specialize (Hk z ltac:(left)). lia.
Qed.

Lemma last_seq_elem x l : ∃ y, y ∈ x :: l ∧ last_seq (x :: l) = ll_Seq y.
Proof.
  unfold last_seq. destruct (last (x :: l)) as [y|] eqn:E; [|by apply last_None in E]. exists y. split; [|done].
  apply last_Some in E as [k ->]. apply elem_of_app. right. left.
Qed.

Lemma min_max_ascending x l : ascending (x :: l) → min_seq (x :: l) = ll_Seq x ∧ max_seq (x :: l) = last_seq (x :: l).
Proof.
  intros Hs. split.
  - apply foldr_min_first. unfold ascending in Hs. csimpl in Hs. apply StronglySorted_inv in Hs as [_ Hx].
    by rewrite Forall_forall in Hx.
  - apply Z.le_antisymm; unfold max_seq.
    + apply foldr_max_lub; [apply last_seq_ge, Hs|]. intros z (y & -> & Hy)%list_elem_of_fmap.
      apply last_seq_max; [done|by right].
    + destruct (last_seq_elem x l) as (y & Hy & ->). apply foldr_max_ge. change (ll_Seq x :: (ll_Seq <$> l)) with (ll_Seq <$> x :: l).
      by apply list_elem_of_fmap_2.
Qed.

Lemma step_rows_ascending steps l : ascending l → ascending (step_rows steps l).
Proof. destruct steps; [done|]. apply ascending_filter. Qed.

Lemma countArchivedLogs_rows l steps :
  ascending l →
  countArchivedLogs l steps = (Z.of_nat (length (step_rows steps l)), min_seq (step_rows steps l), max_seq (step_rows steps l)).
Proof.
  intros Hs%(step_rows_ascending steps). unfold countArchivedLogs. rewrite step_rows_filter.
  destruct (step_rows steps l) as [|x v]; [done|]. destruct (min_max_ascending x v Hs) as [-> ->]. unfold last_seq.
  destruct v as [|y v]; [done|]. rewrite last_cons_cons. destruct (last (y :: v)) eqn:E; [by simpl|]. by apply last_None in E.
Qed.

(** ** Objects of deleted runs *)

(** An object without its run has something left that removes it. *)
Definition orphan_ok (x : life) (id : runid) : Prop :=
  lg_runs (lf_logs x) !! id = None → is_Some (lg_objects (lf_logs x) !! id) →
  id ∈ lf_leaked x ∨ (∃ l, lf_archiver x = ACreate id l) ∨ lf_archiver x = AUndo id ∨ (id, DelAgain) ∈ lf_deleters x.

Lemma orphan_step x y id : life_step x y → orphan_ok x id → orphan_ok y id.
Proof.
  unfold orphan_ok. intros Hstep H0.
  destruct Hstep as
    [x i [b Hb]|x i lines|x i lines|x o1 i lines o2|x o1 i lines o2|x i Ea|x i Ea|x i l Ea|x i l Ea|x i l s Ea Hs|x i l Ea|x i Ea|x i l Ea
    |x i a|x i|x i|x i m|x i|x i a|x i|x i m|x|x i Hr|x d1 i d2 Ed|x d1 i d2 Ed|x d1 i st d2 Ed|x d1 i d2 Ed|x d1 i d2 Ed];
    cbn; try exact H0.
  - rewrite lookup_insert_None. intros [Hn _]. by apply H0.
  - intros Hr Ho. destruct (H0 Hr Ho) as [?|[[? ?]|[?|?]]]; [by left|congruence..|by do 3 right].
  - intros Hr Ho. destruct (H0 Hr Ho) as [?|[[? ?]|[?|?]]]; [by left|congruence..|by do 3 right].
  - intros Hr. destruct (decide (i = id)) as [->|]; [eauto|]. rewrite lookup_insert_ne by done. intros Ho.
    destruct (H0 Hr Ho) as [?|[[? ?]|[?|?]]]; [by left|congruence..|by do 3 right].
  - intros Hr Ho. destruct (H0 Hr Ho) as [?|[[? ?]|[?|?]]]; [by left|destruct Ea; congruence..|by do 3 right].
  - unfold CreateLogArchive in Hs. case_bool_decide as Hi; [|done]. injection Hs as <-. cbn. intros Hr Ho.
    destruct (H0 Hr Ho) as [?|[[? E]|[?|?]]]; [by left| |congruence|by do 3 right].
    rewrite Ea in E. injection E as -> _. rewrite Hr in Hi. by destruct Hi.
  - intros Hr Ho. destruct (H0 Hr Ho) as [?|[[? E]|[?|?]]]; [by left| |congruence|by do 3 right].
    rewrite Ea in E. injection E as -> _. by do 2 right; left.
  - intros Hr. destruct (decide (i = id)) as [->|]; [rewrite lookup_delete_eq; by intros []|]. rewrite lookup_delete_ne by done.
    intros Ho. destruct (H0 Hr Ho) as [?|[[? ?]|[?|?]]]; [by left|congruence..|by do 3 right].
  - intros Hr Ho. destruct (H0 Hr Ho) as [?|[[? E]|[E|?]]]; [left; set_solver| | |by do 3 right];
      left; apply elem_of_union; left; apply elem_of_singleton; destruct Ea; congruence.
  - intros Hn Ho. destruct (H0 Hn Ho) as [?|[?|[?|?]]]; [auto..|]. do 3 right. apply elem_of_cons. by right.
  - intros Hn. destruct (decide (i = id)) as [->|]; [rewrite lookup_delete_eq; by intros []|]. rewrite lookup_delete_ne by done.
    intros Ho. destruct (H0 Hn Ho) as [?|[?|[?|Hd]]]; [auto..|]. do 3 right. rewrite Ed in Hd.
    rewrite elem_of_app, elem_of_cons in Hd |- *. naive_solver.
  - destruct (decide (i = id)) as [->|].
    + intros _ _. do 3 right. apply elem_of_app. right. left.
    + rewrite lookup_delete_ne by done. intros Hn Ho. destruct (H0 Hn Ho) as [?|[?|[?|Hd]]]; [auto..|]. do 3 right.
      rewrite Ed in Hd. rewrite elem_of_app, elem_of_cons in Hd |- *. naive_solver.
  - intros Hn Ho. destruct (H0 Hn Ho) as [?|[?|[?|Hd]]]; [auto..|]. do 3 right. rewrite Ed in Hd.
    rewrite elem_of_app, elem_of_cons in Hd. rewrite elem_of_app. destruct Hd as [?|[[= -> <-]|?]]; [auto|done|auto].
  - intros Hn. destruct (decide (i = id)) as [->|]; [rewrite lookup_delete_eq; by intros []|]. rewrite lookup_delete_ne by done.
    intros Ho. destruct (H0 Hn Ho) as [?|[?|[?|Hd]]]; [auto..|]. do 3 right. rewrite Ed in Hd.
    rewrite elem_of_app, elem_of_cons in Hd. rewrite elem_of_app. naive_solver.
  - intros Hn Ho. destruct (H0 Hn Ho) as [?|[?|[?|Hd]]]; [left; set_solver|auto..|]. rewrite Ed in Hd.
    rewrite elem_of_app, elem_of_cons in Hd. rewrite elem_of_app. destruct Hd as [?|[[= ->]|?]]; [auto| |auto].
    left. apply elem_of_union. left. by apply elem_of_singleton.
Qed.

Lemma orphan_rtc x y id : rtc life_step x y → orphan_ok x id → orphan_ok y id.
Proof. induction 1; [done|]. intros Hx. by eauto using orphan_step. Qed.

(** ** Properties *)

(** Nothing is dropped but of runs that ended: only these are archived. *)
Definition at_work (a : archiver) (id : runid) : Prop :=
  match a with AIdle => False | ATail i | APut i _ | ACreate i _ | AUndo i => i = id end.
Definition closed (x : life) (id : runid) : Prop :=
  is_Some (lg_archives (lf_logs x) !! id) ∨ at_work (lf_archiver x) id ∨ ∃ l, dropped x id l.

Lemma closed_step late x y id : life_step_of late x y → doomed_only x → (id ∉ lf_doomed y) →
  (closed x id → lg_runs (lf_logs x) !! id = Some true) → closed y id → lg_runs (lf_logs y) !! id = Some true.
Proof.
  unfold closed. intros Hstep Hd Hid H0. destruct Hstep; cbn in *; try exact H0.
  - intros Hc. destruct (decide (id0 = id)) as [->|]; [by rewrite lookup_insert_eq|]. rewrite lookup_insert_ne by done. by apply H0.
  - unfold start_append, sealed in H. case_bool_decide as Hs; [|by case_bool_decide]. intros [Ha|[Hw|(l & Hl)]]; [by apply H0; left|by apply H0; right; left|].
    unfold dropped in Hl. cbn in Hl. apply elem_of_app in Hl as [Hl|Hl]; [|apply H0; right; right; by exists l]. apply list_elem_of_fmap in Hl as (l' & [= -> _] & _). apply H0. by left.
  - unfold needs_archival in H1. apply andb_true_iff in H1 as [He _]. apply bool_decide_eq_true in He.
    intros [?|[->|?]]; [apply H0; by left|done|apply H0; by right; right].
  - intros Hc. apply H0. rewrite H. destruct Hc as [?|[?|?]]; auto.
  - intros Hc. apply H0. rewrite H. destruct Hc as [?|[?|?]]; auto.
  - intros [?|[[]|?]]; apply H0; auto.
  - unfold CreateLogArchive in H1. case_bool_decide as Hi; [|done]. injection H1 as <-. cbn. intros [Ha|[[]|?]]; [|apply H0; auto].
    destruct (decide (id0 = id)) as [->|]; [apply H0; rewrite H; right; left; done|]. rewrite lookup_insert_ne in Ha by done. apply H0; auto.
  - intros Hc. apply H0. rewrite H. destruct Hc as [?|[?|?]]; auto.
  - intros [?|[[]|?]]; apply H0; auto.
  - intros [?|[[]|?]]; apply H0; auto.
  - intros [Ha|?]; [|apply H0; auto]. apply H0. left. destruct (decide (id0 = id)) as [->|]; [rewrite lookup_delete_eq in Ha; by destruct Ha|by rewrite lookup_delete_ne in Ha].
  - intros [Ha|?]; [|apply H0; auto]. apply H0. left. destruct (decide (id0 = id)) as [->|]; [|by rewrite lookup_alter_ne in Ha].
    rewrite lookup_alter_eq in Ha. destruct (lg_archives (lf_logs x) !! id); [by eexists|by destruct Ha].
  - assert (id0 ≠ id) as Hne by (intros ->; apply Hid; by eapply doomed_middle). rewrite !lookup_delete_ne by done. exact H0.
Qed.

Lemma closed_rtc late x y : rtc (life_step_of late) x y → life_inv late x →
  (∀ id, id ∉ lf_doomed x → closed x id → lg_runs (lf_logs x) !! id = Some true) →
  ∀ id, id ∉ lf_doomed y → closed y id → lg_runs (lf_logs y) !! id = Some true.
Proof.
  induction 1 as [|x z y Hs _ IH]; intros Hx H0; [done|]. pose proof Hx as (_ & Hd & _). apply IH; [by eapply life_inv_step|].
  intros id Hid. eapply closed_step; [exact Hs|exact Hd|exact Hid|]. apply H0. intros Hin. apply Hid. by apply (doomed_step _ _ _ Hs Hd).
Qed.

Lemma closed_ended late x id : lives_of late x → (id ∉ lf_doomed x) → closed x id → lg_runs (lf_logs x) !! id = Some true.
Proof.
  intros [runs Hr]. apply (closed_rtc _ _ _ Hr (life_inv_init late runs)). clear.
  intros id _ [Ha|[[]|(l & Hl)]]; [cbn in Ha; rewrite lookup_empty in Ha; by destruct Ha|by apply elem_of_nil in Hl].
Qed.


(** The database as it would be if the run still had the rows [l]. *)
Definition untrimmed (id : runid) (l : list LogLine) (s : logs) : logs := set_rows id l s.

(** C39: the three readers look at the rows, then at the archive record, then at
    the object, while appends, archiving and trimming go on.  For a run whose
    deletion has not begun they never fail, and all three answer exactly as the
    queries on the table would over one ascending list of lines, which has every
    line written before the request and only lines written by its end.  (No statement
    of a run is under way when the trimmer looks at it, and the object store answers:
    [read_logs].) *)
Theorem trimmed_reads_exact x1 x2 x3 id :
  lives x1 → rtc life_step x1 x2 → rtc life_step x2 x3 → (id ∉ lf_doomed x3) →
  ∃ l, ascending l ∧ (∀ y, wrote x1 id y → y ∈ l) ∧ (∀ y, y ∈ l → wrote x3 id y)
    ∧ (∀ after, handleTailLogs true id after (lf_logs x1) (lf_logs x2) (lf_logs x3)
                = Some (TailLogs id after 1000 (untrimmed id l (lf_logs x3))))
    ∧ (∀ steps, handleLogStats true id steps (lf_logs x1) (lf_logs x2) (lf_logs x3)
                = Some (CountLogs id steps (untrimmed id l (lf_logs x3))))
    ∧ (∀ steps o n, handleLogRange true id steps o n (lf_logs x1) (lf_logs x2) (lf_logs x3)
                = Some (ListLogsRange id steps o (Nat.min n (Z.to_nat 10000)) (untrimmed id l (lf_logs x3)))).
Proof.
  intros H1%lives_inv H12 H23 Hid. pose proof (life_inv_rtc _ _ _ H12 H1) as H2. pose proof (life_inv_rtc _ _ _ H23 H2) as H3.
  assert (id ∉ lf_doomed x2) as Hid2 by (pose proof (doomed_rtc _ _ _ H23 H2); set_solver).
  assert (id ∉ lf_doomed x1) as Hid1 by (pose proof (doomed_rtc _ _ _ H12 H1); set_solver).
  unfold handleTailLogs, handleLogStats, handleLogRange, read_logs, TailLogs, CountLogs, ListLogsRange, untrimmed.
  fold (trimmed_at id x2). destruct (trimmed_at id x2) eqn:Ht.
  - pose proof (trimmed_rtc _ _ _ _ H23 H2 Hid Ht) as Ht3. destruct (trimmed_object x3 id H3 Hid Ht3) as (o & Ho & Hs & Hall).
    exists o. rewrite Ho, rows_of_set, decide_True by done. simpl. split_and!; [done| |naive_solver|..].
    + intros y Hy. apply Hall. eapply (wrote_rtc false); [exact H23|]. by eapply (wrote_rtc false).
    + intros after. by rewrite tailAfter_rows.
    + intros steps. by rewrite countArchivedLogs_rows.
    + intros steps p n. by rewrite archivedLogRange_rows.
  - assert (trimmed_at id x1 = false) as Ht1.
    { destruct (trimmed_at id x1) eqn:E; [|done]. by rewrite (trimmed_rtc _ _ _ _ H12 H1 Hid2 E) in Ht. }
    pose proof (untrimmed_rows false x1 id H1 Hid1 Ht1) as Hall. exists (rows_of id (lf_logs x1)).
    rewrite rows_of_set, decide_True by done. split_and!; [by apply (ri_rows _ (proj1 H1))|by intros y Hy; apply Hall| |done..].
    intros y Hy%Hall. eapply (wrote_rtc false); [exact H23|]. by eapply (wrote_rtc false).
Qed.

(** No archive object outlives its run unnoticed: where the run is gone and
    an object is there, the deletion will remove it again, or the archiver is
    about to find that the run is gone and remove it, or a removal has failed and
    been logged. *)
Theorem no_orphan_object x id :
  lives x → lg_runs (lf_logs x) !! id = None → is_Some (lg_objects (lf_logs x) !! id) →
  id ∈ lf_leaked x ∨ (∃ l, lf_archiver x = ACreate id l) ∨ lf_archiver x = AUndo id ∨ (id, DelAgain) ∈ lf_deleters x.
Proof.
  intros [runs Hx] Hr Ho. apply (orphan_rtc _ _ id Hx); [|done..]. intros _. cbn. rewrite lookup_empty. by intros [].
Qed.

(** *** A run with two lines, archived and trimmed *)

Module Demo.
Definition line1 := MkLogLine 1 0 "stdout" 100 "make".
Definition line2 := MkLogLine 2 1 "stderr" 101 "done".
Definition start := life_init {[ 7%N := true ]}.
Definition appending := with_open [(7%N, [line1; line2])] [] (list_to_set [1%Z; 2%Z] ∪ ∅) start.
Definition written := with_logs (commit_append 7 [line1; line2] (lf_logs start))
  (with_open [] [(7%N, line1); (7%N, line2)] (lf_drawn appending) appending).
Definition uploading := with_archiver (APut 7 [line1; line2]) written.
Definition uploaded := with_logs (set_objects (<[7%N := [line1; line2]]> ∅) (lf_logs written)) (with_archiver (ACreate 7 [line1; line2]) written).
Definition archived := with_logs (set_archives {[ 7%N := MkLogArchive 2 2 false ]} (lf_logs uploaded)) (with_archiver AIdle uploaded).
Definition trimming := with_trimmer (TDelete 7 2) archived.
Definition trimmed := with_logs (trim_deletes 7 2 (lf_logs archived)) (with_trimmer TIdle archived).
(** The deletion of the run overtakes the archiver. *)
Definition deleted1 := with_deleters [(7%N, DelObject)] ({[7%N]} ∪ ∅) written.
Definition deleted2 := with_logs (delete_object 7 (lf_logs written)) (with_deleters [(7%N, DelRow)] ({[7%N]} ∪ ∅) written).
Definition raced := with_logs (set_objects (<[7%N := [line1; line2]]> ∅) (lf_logs deleted2)) (with_archiver (ACreate 7 [line1; line2]) deleted2).
Definition deleting := with_logs (delete_run 7 (lf_logs raced)) (with_deleters [(7%N, DelAgain)] ({[7%N]} ∪ ∅) raced).

Lemma to_written : rtc life_step start written.
Proof.
  eapply (rtc_l _ _ appending); [refine (ls_append false start 7 [line1; line2] _ _ _); [done| |]|].
  - apply (bool_decide_unpack _). by vm_compute.
  - intros l [->|[->|[]%elem_of_nil]%elem_of_cons]%elem_of_cons; split; [done|apply not_elem_of_empty|done|apply not_elem_of_empty].
  - eapply rtc_l; [refine (ls_commit false appending [] 7 [line1; line2] [] _); done|]. apply rtc_refl.
Qed.

Lemma to_archived : rtc life_step written archived.
Proof.
  eapply rtc_l; [refine (ls_pick false written 7 _ _); done|].
  eapply (rtc_l _ _ uploading); [exact (ls_tail false (with_archiver (ATail 7) written) 7 eq_refl)|].
  eapply (rtc_l _ _ uploaded); [exact (ls_put false uploading 7 [line1; line2] eq_refl)|].
  apply rtc_once. refine (ls_create false uploaded 7 [line1; line2] _ _ _); [done|by vm_compute].
Qed.

Lemma to_trimmed : rtc life_step archived trimmed.
Proof.
  eapply rtc_l; [refine (ls_candidate false archived 7 (MkLogArchive 2 2 false) _ _ _); done|].
  eapply rtc_l; [refine (ls_found false (with_trimmer (TVerify 7) archived) 7 _ _); [done|by eexists]|].
  eapply (rtc_l _ _ trimming); [refine (ls_check false (with_trimmer (TTrim 7) archived) 7 2 _ _ _); [done|by intros ?%elem_of_nil|done]|].
  apply rtc_once. exact (ls_trim false trimming 7 2 eq_refl).
Qed.

Lemma to_deleting : rtc life_step written deleting.
Proof.
  eapply (rtc_l _ _ deleted1); [refine (ls_delete false written 7 _); done|].
  eapply (rtc_l _ _ deleted2); [exact (ls_delete_object false deleted1 [] 7 [] eq_refl)|].
  eapply rtc_l; [refine (ls_pick false deleted2 7 _ _); done|].
  eapply (rtc_l _ _ (with_archiver (APut 7 [line1; line2]) deleted2)); [exact (ls_tail false (with_archiver (ATail 7) deleted2) 7 eq_refl)|].
  eapply (rtc_l _ _ raced); [exact (ls_put false (with_archiver (APut 7 [line1; line2]) deleted2) 7 [line1; line2] eq_refl)|].
  apply rtc_once. refine (ls_delete_row false raced [] 7 [] _ _ _); [done|by intros ?%elem_of_nil|done].
Qed.
End Demo.

(** *** A line that is committed between the trimmer's check and its deletion *)

Module Race.
Import Demo.
Definition line1_only := MkLogArchive 1 1 false.
(** The second line's statement began before the record was there, and goes on. *)
Definition first := with_logs (commit_append 7 [line1] (lf_logs start)) (with_open [] [(7%N, line1)] {[1%Z]} start).
Definition reading := with_archiver (APut 7 [line1]) first.
Definition begun := with_open [(7%N, [line2])] [(7%N, line1)] (list_to_set [2%Z] ∪ {[1%Z]}) reading.
Definition put := with_logs (set_objects (<[7%N := [line1]]> ∅) (lf_logs begun)) (with_archiver (ACreate 7 [line1]) begun).
Definition recorded := with_logs (set_archives {[ 7%N := line1_only ]} (lf_logs put)) (with_archiver AIdle put).
Definition checked := with_trimmer (TDelete 7 1) recorded.
Definition ended := with_logs (commit_append 7 [line2] (lf_logs checked)) (with_open [] [(7%N, line2); (7%N, line1)] (lf_drawn checked) checked).
Definition late_trimmed := with_logs (trim_deletes 7 1 (lf_logs ended)) (with_trimmer TIdle ended).

Lemma to_late_trimmed : lives_of true late_trimmed.
Proof.
  exists {[ 7%N := true ]}. eapply (rtc_l _ _ (with_open [(7%N, [line1])] [] (list_to_set [1%Z] ∪ ∅) start)).
  { refine (ls_append true start 7 [line1] _ _ _); [done|apply (bool_decide_unpack _); by vm_compute|].
    intros l ->%list_elem_of_singleton. split; [done|apply not_elem_of_empty]. }
  eapply (rtc_l _ _ first); [exact (ls_commit true (with_open [(7%N, [line1])] [] {[1%Z]} start) [] 7 [line1] [] eq_refl)|].
  eapply rtc_l; [refine (ls_pick true first 7 _ _); done|].
  eapply (rtc_l _ _ reading); [exact (ls_tail true (with_archiver (ATail 7) first) 7 eq_refl)|].
  eapply (rtc_l _ _ begun).
  { refine (ls_append true reading 7 [line2] _ _ _); [done|apply (bool_decide_unpack _); by vm_compute|].
    intros l ->%list_elem_of_singleton. split; [done|]. change (2%Z ∉ ({[1%Z]} : gset Z)). by apply (bool_decide_unpack _). }
  eapply (rtc_l _ _ put); [exact (ls_put true begun 7 [line1] eq_refl)|].
  eapply (rtc_l _ _ recorded); [refine (ls_create true put 7 [line1] _ _ _); [done|by vm_compute]|].
  eapply rtc_l; [refine (ls_candidate true recorded 7 line1_only _ _ _); done|].
  eapply rtc_l; [refine (ls_found true (with_trimmer (TVerify 7) recorded) 7 _ _); [done|by eexists]|].
  eapply (rtc_l _ _ checked); [refine (ls_check true (with_trimmer (TTrim 7) recorded) 7 1 _ _ _); [done| |done]|].
  { intros ls l [[= ->]|[]%elem_of_nil]%elem_of_cons. by intros ->%list_elem_of_singleton. }
  eapply (rtc_l _ _ ended); [exact (ls_commit true checked [] 7 [line2] [] eq_refl)|].
  apply rtc_once. exact (ls_trim true ended 7 1 eq_refl).
Qed.
End Race.


Lemma trimmed_reads_exact_witness :
  (7%N ∉ lf_doomed Demo.trimmed)
  ∧ handleTailLogs true 7 1 (lf_logs Demo.written) (lf_logs Demo.trimmed) (lf_logs Demo.trimmed) = Some [Demo.line2]
  ∧ ∃ l, ascending l ∧ (∀ y, wrote Demo.written 7 y → y ∈ l) ∧ (∀ y, y ∈ l → wrote Demo.trimmed 7 y)
    ∧ (∀ after, handleTailLogs true 7 after (lf_logs Demo.written) (lf_logs Demo.trimmed) (lf_logs Demo.trimmed)
                = Some (TailLogs 7 after 1000 (untrimmed 7 l (lf_logs Demo.trimmed))))
    ∧ (∀ steps, handleLogStats true 7 steps (lf_logs Demo.written) (lf_logs Demo.trimmed) (lf_logs Demo.trimmed)
                = Some (CountLogs 7 steps (untrimmed 7 l (lf_logs Demo.trimmed))))
    ∧ (∀ steps o n, handleLogRange true 7 steps o n (lf_logs Demo.written) (lf_logs Demo.trimmed) (lf_logs Demo.trimmed)
                = Some (ListLogsRange 7 steps o (Nat.min n (Z.to_nat 10000)) (untrimmed 7 l (lf_logs Demo.trimmed)))).
Proof.
  split_and!; [apply not_elem_of_empty|by vm_compute|]. apply (trimmed_reads_exact Demo.written Demo.trimmed Demo.trimmed 7).
  - exists {[ 7%N := true ]}. exact Demo.to_written.
  - etrans; [exact Demo.to_archived|exact Demo.to_trimmed].
  - apply rtc_refl.
  - apply not_elem_of_empty.
Defined.

Lemma no_orphan_object_witness :
  lg_runs (lf_logs Demo.deleting) !! 7%N = None ∧ is_Some (lg_objects (lf_logs Demo.deleting) !! 7%N)
  ∧ (7%N ∈ lf_leaked Demo.deleting ∨ (∃ l, lf_archiver Demo.deleting = ACreate 7 l) ∨ lf_archiver Demo.deleting = AUndo 7
     ∨ (7%N, DelAgain) ∈ lf_deleters Demo.deleting).
Proof.
  split; [done|]. split; [by eexists|]. apply (no_orphan_object Demo.deleting 7); [|done|by eexists].
  exists {[ 7%N := true ]}. etrans; [exact Demo.to_written|exact Demo.to_deleting].
Defined.
