(* ===== verification/AgentIds.v ===== *)
(** * internal/store: identities and credentials of agents

    The tables of [migrations/013_agent_identity_auth.up.sql] and the statements
    and transactions of [postgres_agent_auth.go] over them, one function per
    transaction.  The row locks they take make each atomic from the lock on; a
    look-up that precedes the lock is the argument [missed].  Hashes are compared,
    never computed, here. *)

From S2P Require Import Prelude GoStrings.
From stdpp Require Import options.

Inductive identity_status := active | disabled.
Inductive credential_kind := access | refresh.
#[export] Instance identity_status_eq_dec : EqDecision identity_status.
Proof. solve_decision. Defined.
#[export] Instance credential_kind_eq_dec : EqDecision credential_kind.
Proof. solve_decision. Defined.

(** The rows, without their keys.  [ai_ExternalSubject] is NULL for an enrolled
    agent. *)
Record AgentIdentity := MkAgentIdentity {
  ai_AgentID : string;
  ai_Status : identity_status;
  ai_EnrollmentMethod : string;
  ai_ExternalSubject : option string;
  ai_AuthorizedLabels : list string;
  ai_AuthorizedCapabilities : list string;
  ai_DisabledAt : option Z
}.

Record AgentCredential := MkAgentCredential {
  cr_IdentityID : string;
  cr_Kind : credential_kind;
  cr_FamilyID : option string;
  cr_Generation : Z;
  cr_TokenHash : string;
  cr_ExpiresAt : Z;
  cr_RevokedAt : option Z;
  cr_ReplacedBy : option string;
  cr_SupersededAt : option Z;
  cr_OverlapExpiresAt : option Z;
  cr_LastUsedAt : option Z
}.

Record AgentEnrollmentToken := MkEnrollmentToken {
  et_AgentID : string;
  et_TokenHash : string;
  et_AuthorizedLabels : list string;
  et_AuthorizedCapabilities : list string;
  et_ExpiresAt : Z;
  et_UsedAt : option Z;
  et_RevokedAt : option Z;
  et_CreatedBy : string
}.

Record agent_db := MkAgentDb {
  ad_identities : gmap string AgentIdentity;
  ad_credentials : gmap string AgentCredential;
  ad_tokens : gmap string AgentEnrollmentToken
}.

Definition set_identities (m : gmap string AgentIdentity) (d : agent_db) : agent_db := MkAgentDb m (ad_credentials d) (ad_tokens d).
Definition set_credentials (m : gmap string AgentCredential) (d : agent_db) : agent_db := MkAgentDb (ad_identities d) m (ad_tokens d).
Definition set_tokens (m : gmap string AgentEnrollmentToken) (d : agent_db) : agent_db := MkAgentDb (ad_identities d) (ad_credentials d) m.

(** [ErrStatement] is any other error of the database, a violated constraint
    among them. *)
Inductive agent_error :=
| ErrAgentCredentialNotFound | ErrAgentIdentityDisabled | ErrAgentEnrollmentInvalid | ErrAgentRefreshReplay | ErrStatement.
#[export] Instance agent_error_eq_dec : EqDecision agent_error.
Proof. solve_decision. Defined.

(** What the callers ask to be inserted. *)
Record NewAgentCredential := MkNewCredential {
  nc_ID : string; nc_Kind : credential_kind; nc_FamilyID : string; nc_TokenHash : string; nc_Generation : Z; nc_ExpiresAt : Z
}.
Record AgentCredentialIssue := MkIssue {
  is_AgentID : string;
  is_EnrollmentMethod : string;
  is_ExternalSubject : string;
  is_AuthorizedLabels : list string;
  is_AuthorizedCapabilities : list string;
  is_Access : NewAgentCredential;
  is_Refresh : option NewAgentCredential
}.

(** ** Identities *)

Definition find_identity (p : AgentIdentity → bool) (d : agent_db) : option (string * AgentIdentity) :=
  head (filter (λ x, p x.2 = true) (map_to_list (ad_identities d))).
Definition by_agent_id (agentID : string) (i : AgentIdentity) : bool := (ai_AgentID i =? agentID)%string.
Definition by_subject (method subject : string) (i : AgentIdentity) : bool :=
  (ai_EnrollmentMethod i =? method)%string && bool_decide (ai_ExternalSubject i = Some subject).
Definition getAgentIdentityByAgentID (agentID : string) (d : agent_db) : option (string * AgentIdentity) :=
  find_identity (by_agent_id agentID) d.
Definition getAgentIdentityByExternalSubject (method subject : string) (d : agent_db) : option (string * AgentIdentity) :=
  find_identity (by_subject method subject) d.

(** The two unique keys beside the primary key. *)
Definition agent_id_taken (i : AgentIdentity) (d : agent_db) : bool :=
  bool_decide (is_Some (getAgentIdentityByAgentID (ai_AgentID i) d)).
Definition subject_taken (i : AgentIdentity) (d : agent_db) : bool :=
  match ai_ExternalSubject i with
  | Some s => bool_decide (is_Some (getAgentIdentityByExternalSubject (ai_EnrollmentMethod i) s d))
  | None => false
  end.

(** [id] is the [gen_random_uuid()] of the new row. *)
Definition insertAgentIdentity (id : string) (i : AgentIdentity) (d : agent_db) : option agent_db :=
  if bool_decide (is_Some (ad_identities d !! id)) || agent_id_taken i d || subject_taken i d then None
  else Some (set_identities (<[id := i]> (ad_identities d)) d).

(** [ON CONFLICT ... DO NOTHING] looks at the subject alone; the row found then is
    the one that was there. *)
Definition insertExternalAgentIdentity (id : string) (i : AgentIdentity) (subject : string) (d : agent_db)
  : option (string * AgentIdentity * agent_db) :=
  if bool_decide (is_Some (ad_identities d !! id)) then None
  else
    match getAgentIdentityByExternalSubject (ai_EnrollmentMethod i) subject d with
    | Some (k, j) => Some (k, j, d)
    | None => if agent_id_taken i d then None else Some (id, i, set_identities (<[id := i]> (ad_identities d)) d)
    end.

(** ** Credentials *)

(** The constraints of the table: the key, the identity, the hash. *)
Definition insertAgentCredential (identityID : string) (c : NewAgentCredential) (d : agent_db) : option agent_db :=
  let row := MkAgentCredential identityID (nc_Kind c) (if (nc_FamilyID c =? "")%string then None else Some (nc_FamilyID c))
               (nc_Generation c) (nc_TokenHash c) (nc_ExpiresAt c) None None None None None in
  if bool_decide (is_Some (ad_credentials d !! nc_ID c))
     || bool_decide (map_Exists (λ _ x, cr_TokenHash x = nc_TokenHash c) (ad_credentials d))
     || bool_decide (ad_identities d !! identityID = None)
     || negb (String.length (nc_TokenHash c) =? 64)%nat || (nc_Generation c <? 0)%Z
  then None
  else Some (set_credentials (<[nc_ID c := row]> (ad_credentials d)) d).

Definition mark (now : Z) (t : option Z) : option Z := Some (default now t).
Definition revoke (now : Z) (c : AgentCredential) : AgentCredential :=
  MkAgentCredential (cr_IdentityID c) (cr_Kind c) (cr_FamilyID c) (cr_Generation c) (cr_TokenHash c) (cr_ExpiresAt c)
    (mark now (cr_RevokedAt c)) (cr_ReplacedBy c) (cr_SupersededAt c) (cr_OverlapExpiresAt c) (cr_LastUsedAt c).
(** [superseded_at], [overlap_expires_at] and [replaced_by] set. *)
Definition supersede (now overlap : Z) (by_id : string) (c : AgentCredential) : AgentCredential :=
  MkAgentCredential (cr_IdentityID c) (cr_Kind c) (cr_FamilyID c) (cr_Generation c) (cr_TokenHash c) (cr_ExpiresAt c)
    (cr_RevokedAt c) (Some by_id) (Some now) (Some (now + overlap)%Z) (cr_LastUsedAt c).
Definition replace_by (by_id : string) (c : AgentCredential) : AgentCredential :=
  MkAgentCredential (cr_IdentityID c) (cr_Kind c) (cr_FamilyID c) (cr_Generation c) (cr_TokenHash c) (cr_ExpiresAt c)
    (cr_RevokedAt c) (Some by_id) (cr_SupersededAt c) (cr_OverlapExpiresAt c) (cr_LastUsedAt c).
Definition touch (now : Z) (c : AgentCredential) : AgentCredential :=
  MkAgentCredential (cr_IdentityID c) (cr_Kind c) (cr_FamilyID c) (cr_Generation c) (cr_TokenHash c) (cr_ExpiresAt c)
    (cr_RevokedAt c) (cr_ReplacedBy c) (cr_SupersededAt c) (cr_OverlapExpiresAt c) (Some now).

(** [UPDATE agent_credentials SET revoked_at = ... WHERE ...] *)
Definition revoke_where (p : AgentCredential → bool) (now : Z) (d : agent_db) : agent_db :=
  set_credentials ((λ c, if p c then revoke now c else c) <$> ad_credentials d) d.
Definition of_identity (id : string) (c : AgentCredential) : bool := (cr_IdentityID c =? id)%string.
Definition of_family (f : string) (c : AgentCredential) : bool := bool_decide (cr_FamilyID c = Some f).
Definition revokeAgentRefreshFamily (f : string) (now : Z) (d : agent_db) : agent_db := revoke_where (of_family f) now d.

(** A credential joined with its identity. *)
Record AgentCredentialAuth := MkCredentialAuth {
  ca_CredentialID : string; ca_IdentityID : string; ca_AgentID : string; ca_Kind : credential_kind; ca_TokenHash : string;
  ca_Status : identity_status; ca_AuthorizedLabels : list string; ca_AuthorizedCapabilities : list string;
  ca_ExpiresAt : Z; ca_RevokedAt : option Z
}.

Definition GetAgentCredentialForAuth (id : string) (now : Z) (d : agent_db) : agent_error + AgentCredentialAuth :=
  match ad_credentials d !! id with
  | None => inl ErrAgentCredentialNotFound
  | Some c =>
      match ad_identities d !! cr_IdentityID c with
      | None => inl ErrAgentCredentialNotFound
      | Some i =>
          if bool_decide (ai_Status i = disabled) then inl ErrAgentIdentityDisabled
          else if bool_decide (is_Some (cr_RevokedAt c)) || negb (now <? cr_ExpiresAt c)%Z then inl ErrAgentCredentialNotFound
          else inr (MkCredentialAuth id (cr_IdentityID c) (ai_AgentID i) (cr_Kind c) (cr_TokenHash c) (ai_Status i)
                      (ai_AuthorizedLabels i) (ai_AuthorizedCapabilities i) (cr_ExpiresAt c) (cr_RevokedAt c))
      end
  end.

Definition TouchAgentCredential (id : string) (now : Z) (d : agent_db) : option agent_error * agent_db :=
  match ad_credentials d !! id with
  | Some c => (None, set_credentials (<[id := touch now c]> (ad_credentials d)) d)
  | None => (Some ErrAgentCredentialNotFound, d)
  end.

(** ** Enrollment tokens *)

Definition CreateAgentEnrollmentToken (id : string) (t : AgentEnrollmentToken) (d : agent_db) : option agent_db :=
  if bool_decide (is_Some (ad_tokens d !! id)) || bool_decide (map_Exists (λ _ x, et_TokenHash x = et_TokenHash t) (ad_tokens d))
     || negb (String.length (et_TokenHash t) =? 64)%nat
  then None
  else Some (set_tokens (<[id := t]> (ad_tokens d)) d).

Definition with_used (now : Z) (t : AgentEnrollmentToken) : AgentEnrollmentToken :=
  MkEnrollmentToken (et_AgentID t) (et_TokenHash t) (et_AuthorizedLabels t) (et_AuthorizedCapabilities t) (et_ExpiresAt t)
    (Some now) (et_RevokedAt t) (et_CreatedBy t).
Definition with_revoked (now : Z) (t : AgentEnrollmentToken) : AgentEnrollmentToken :=
  MkEnrollmentToken (et_AgentID t) (et_TokenHash t) (et_AuthorizedLabels t) (et_AuthorizedCapabilities t) (et_ExpiresAt t)
    (et_UsedAt t) (mark now (et_RevokedAt t)) (et_CreatedBy t).
Definition RevokeAgentEnrollmentToken (id : string) (now : Z) (d : agent_db) : agent_db :=
  set_tokens (alter (with_revoked now) id (ad_tokens d)) d.

Definition with_labels (labels : list string) (i : AgentIdentity) : AgentIdentity :=
  MkAgentIdentity (ai_AgentID i) (ai_Status i) (ai_EnrollmentMethod i) (ai_ExternalSubject i) labels
    (ai_AuthorizedCapabilities i) (ai_DisabledAt i).
Definition nullif (s : string) : option string := if (s =? "")%string then None else Some s.

(** The identity the exchange of token [t] yields: a new one, or the one enrolled
    before, with the token's labels. *)
Definition enrolled_identity (newid : string) (missed : bool) (t : AgentEnrollmentToken) (issue : AgentCredentialIssue) (d : agent_db)
  : agent_error + string * AgentIdentity * agent_db :=
  match (if missed then None else getAgentIdentityByAgentID (et_AgentID t) d) with
  | None =>
      let i := MkAgentIdentity (et_AgentID t) active (is_EnrollmentMethod issue) (nullif (is_ExternalSubject issue))
                 (et_AuthorizedLabels t) (et_AuthorizedCapabilities t) None in
      match insertAgentIdentity newid i d with Some d' => inr (newid, i, d') | None => inl ErrStatement end
  | Some (id, i) =>
      if bool_decide (ai_Status i = disabled) then inl ErrAgentIdentityDisabled
      else if negb (ai_EnrollmentMethod i =? is_EnrollmentMethod issue)%string
              || negb (default EmptyString (ai_ExternalSubject i) =? is_ExternalSubject issue)%string
      then inl ErrAgentEnrollmentInvalid
      else inr (id, with_labels (et_AuthorizedLabels t) i,
                set_identities (<[id := with_labels (et_AuthorizedLabels t) i]> (ad_identities d)) d)
  end.

Definition ConsumeAgentEnrollment (newid : string) (missed : bool) (enrollmentID presentedHash : string)
    (issue : AgentCredentialIssue) (now : Z) (d : agent_db) : (agent_error + AgentIdentity) * agent_db :=
  match ad_tokens d !! enrollmentID with
  | None => (inl ErrAgentEnrollmentInvalid, d)
  | Some t =>
      if negb (et_TokenHash t =? presentedHash)%string || bool_decide (is_Some (et_UsedAt t))
         || bool_decide (is_Some (et_RevokedAt t)) || negb (now <? et_ExpiresAt t)%Z
      then (inl ErrAgentEnrollmentInvalid, d)
      else
        match enrolled_identity newid missed t issue d with
        | inl e => (inl e, d)
        | inr (id, i, d1) =>
            match d2 ← insertAgentCredential id (is_Access issue) d1;
                  match is_Refresh issue with Some r => insertAgentCredential id r d2 | None => Some d2 end with
            | None => (inl ErrStatement, d)
            | Some d3 => (inr i, set_tokens (alter (with_used now) enrollmentID (ad_tokens d3)) d3)
            end
        end
  end.

(** ** Credentials for a workload identity *)

Definition with_grants (labels caps : list string) (i : AgentIdentity) : AgentIdentity :=
  MkAgentIdentity (ai_AgentID i) (ai_Status i) (ai_EnrollmentMethod i) (ai_ExternalSubject i) labels caps (ai_DisabledAt i).

Definition IssueExternalAgentAccess (newid : string) (missed : bool) (issue : AgentCredentialIssue) (d : agent_db)
  : (agent_error + AgentIdentity) * agent_db :=
  if (is_ExternalSubject issue =? "")%string then (inl ErrStatement, d)
  else
    let labels := is_AuthorizedLabels issue in
    let caps := is_AuthorizedCapabilities issue in
    let found :=
      match (if missed then None else getAgentIdentityByExternalSubject (is_EnrollmentMethod issue) (is_ExternalSubject issue) d) with
      | Some (id, i) => Some (id, i, d)
      | None =>
          insertExternalAgentIdentity newid
            (MkAgentIdentity (is_AgentID issue) active (is_EnrollmentMethod issue) (Some (is_ExternalSubject issue)) labels caps None)
            (is_ExternalSubject issue) d
      end in
    match found with
    | None => (inl ErrStatement, d)
    | Some (id, i, d1) =>
        if negb (ai_AgentID i =? is_AgentID issue)%string then (inl ErrStatement, d)
        else if bool_decide (ai_Status i = disabled) then (inl ErrAgentIdentityDisabled, d)
        else
          let i' := with_grants labels caps i in
          match insertAgentCredential id (is_Access issue) (set_identities (<[id := i']> (ad_identities d1)) d1) with
          | None => (inl ErrStatement, d)
          | Some d2 => (inr i', d2)
          end
    end.

(** ** Rotation of refresh credentials *)

(** What a retry needs of the credential that replaced the presented one: it was
    never used. *)
Definition replacementIsSafe (identityID familyID : string) (generation now : Z) (r : AgentCredential) : bool :=
  (cr_IdentityID r =? identityID)%string && bool_decide (cr_Kind r = refresh) && of_family familyID r
  && (cr_Generation r =? generation + 1)%Z && bool_decide (cr_RevokedAt r = None) && bool_decide (cr_SupersededAt r = None)
  && bool_decide (cr_ReplacedBy r = None) && (now <? cr_ExpiresAt r)%Z.

(** [inl true] is a refusal that revokes the family. *)
Definition rotation_allowed (identityID familyID : string) (current : AgentCredential) (now : Z) (d : agent_db) : option (option string) :=
  match cr_SupersededAt current with
  | None => Some None
  | Some _ =>
      match cr_OverlapExpiresAt current with
      | None => None
      | Some limit =>
          if negb (now <? limit)%Z then None
          else
            match cr_ReplacedBy current with
            | None => None
            | Some rid =>
                match ad_credentials d !! rid with
                | None => None
                | Some r => if replacementIsSafe identityID familyID (cr_Generation current) now r then Some (Some rid) else None
                end
            end
      end
  end.

Definition in_family (f : string) (g : Z) (c : NewAgentCredential) : NewAgentCredential :=
  MkNewCredential (nc_ID c) (nc_Kind c) f (nc_TokenHash c) g (nc_ExpiresAt c).

(** The statements that follow the decision: the lost replacement is revoked, the
    two credentials are inserted, and the presented one is marked. *)
Definition rotate_to (identityID familyID currentID : string) (current : AgentCredential) (lost : option string)
    (now overlap : Z) (acc ref : NewAgentCredential) (d : agent_db) : option agent_db :=
  let d0 := match lost with Some rid => set_credentials (alter (revoke now) rid (ad_credentials d)) d | None => d end in
  let g := (cr_Generation current + 1)%Z in
  d1 ← insertAgentCredential identityID (in_family familyID g acc) d0;
  d2 ← insertAgentCredential identityID (in_family familyID g ref) d1;
  let upd := match cr_SupersededAt current with None => supersede now overlap (nc_ID ref) | Some _ => replace_by (nc_ID ref) end in
  Some (set_credentials (alter upd currentID (ad_credentials d2)) d2).

Definition RotateAgentRefresh (currentID presentedHash : string) (now : Z) (acc ref : NewAgentCredential) (overlap : Z) (d : agent_db)
  : (agent_error + AgentIdentity) * agent_db :=
  match ad_credentials d !! currentID with
  | None => (inl ErrAgentCredentialNotFound, d)
  | Some current =>
      match ad_identities d !! cr_IdentityID current with
      | None => (inl ErrAgentCredentialNotFound, d)
      | Some i =>
          if bool_decide (ai_Status i = disabled) then (inl ErrAgentIdentityDisabled, d)
          else if negb (bool_decide (cr_Kind current = refresh)) || bool_decide (is_Some (cr_RevokedAt current))
                  || negb (now <? cr_ExpiresAt current)%Z || negb (cr_TokenHash current =? presentedHash)%string
          then (inl ErrAgentCredentialNotFound, d)
          else
            match cr_FamilyID current with
            | None => (inl ErrAgentCredentialNotFound, d)
            | Some f =>
                match rotation_allowed (cr_IdentityID current) f current now d with
                | None => (inl ErrAgentRefreshReplay, revokeAgentRefreshFamily f now d)
                | Some lost =>
                    match rotate_to (cr_IdentityID current) f currentID current lost now overlap acc ref d with
                    | None => (inl ErrStatement, d)
                    | Some d' => (inr i, d')
                    end
                end
            end
      end
  end.

(** ** Administration *)

Definition with_status (enabled : bool) (now : Z) (i : AgentIdentity) : AgentIdentity :=
  MkAgentIdentity (ai_AgentID i) (if enabled then active else disabled) (ai_EnrollmentMethod i) (ai_ExternalSubject i)
    (ai_AuthorizedLabels i) (ai_AuthorizedCapabilities i) (if enabled then None else mark now (ai_DisabledAt i)).

Definition SetAgentIdentityEnabled (agentID : string) (enabled : bool) (now : Z) (d : agent_db) : option agent_error * agent_db :=
  match getAgentIdentityByAgentID agentID d with
  | None => (Some ErrAgentCredentialNotFound, d)
  | Some (id, i) =>
      let d1 := set_identities (<[id := with_status enabled now i]> (ad_identities d)) d in
      (None, if enabled then d1 else revoke_where (of_identity id) now d1)
  end.

Definition RevokeAgentIdentityCredentials (agentID : string) (now : Z) (d : agent_db) : agent_db :=
  match getAgentIdentityByAgentID agentID d with
  | None => d
  | Some (id, _) => revoke_where (of_identity id) now d
  end.
