(* ===== verification/AgentPolicies.v ===== *)
(** * Enrollment policies and the proofs of workload identities

    Policies name the workloads that may enroll without a token: their validation
    and storage ([store/postgres_agent_auth.go]), the handlers over them
    ([api_agent_enrollment.go]) and what a verifier demands of a proof
    ([agent_enrollment_kubernetes.go], [kubernetes_token.go],
    [agent_enrollment_cloud.go], [agent_enrollment_aws.go]).  The API server of
    Kubernetes, STS and the OIDC library are parameters. *)

From S2P Require Import Prelude GoStrings Regex DslNames.
From stdpp Require Import options.

Definition second : Z := 1000000000.
Definition minAgentEnrollmentPolicyTTL : Z := 5 * 60 * second.
Definition maxAgentEnrollmentPolicyTTL : Z := 4 * 3600 * second.

(** The stored JSON objects, by their fields; a field that is absent is zero. *)
Record ProviderConfig := MkProviderConfig {
  pc_Cluster : string; pc_Audience : string; pc_STSRegions : list string; pc_TenantID : string
}.
Record SubjectConstraints := MkSubjectConstraints {
  sc_Namespaces : list string; sc_ServiceAccounts : list string;
  sc_AccountIDs : list string; sc_RoleNames : list string; sc_ProjectIDs : list string;
  sc_SubscriptionIDs : list string; sc_ResourceGroups : list string; sc_ManagedIdentityObjectIDs : list string
}.

Record AgentEnrollmentPolicy := MkPolicy {
  ep_Name : string;
  ep_Provider : string;
  ep_ProviderConfig : ProviderConfig;
  ep_SubjectConstraints : SubjectConstraints;
  ep_AgentIDTemplate : string;
  ep_AllowedLabels : list string;
  ep_RequiredLabels : list string;
  ep_AuthorizedCapabilities : list string;
  ep_AccessTokenTTL : Z;
  ep_Enabled : bool
}.

Definition template_of (provider : string) : option string :=
  if (provider =? "kubernetes")%string then Some "k8s:{cluster}:{namespace}:{podUID}"
  else if (provider =? "aws")%string then Some "aws:{account}:{instanceId}"
  else if (provider =? "gcp")%string then Some "gcp:{project}:{instanceId}"
  else if (provider =? "azure")%string then Some "azure:{subscription}:{resourceGroup}:{vmName}"
  else None.

Fixpoint RRep (n : nat) (r : regex) : regex := match n with 0 => REps | S n => RSeq r (RRep n r) end.
Definition is_hex (c : ascii) : bool := is_digit c || byte_in 97 102 c || byte_in 65 70 c.
Definition stsRegionPattern : regex :=
  RSeq (RRep 2 (RCls is_lower)) (RSeq (RPlus (RSeq (RCls (is_char "-")) (RPlus (RCls is_lower)))) (RSeq (RCls (is_char "-")) (RCls is_digit))).
Definition azureTenantIDPattern : regex :=
  RSeq (RRep 8 (RCls is_hex)) (RSeq (RRep 3 (RSeq (RCls (is_char "-")) (RRep 4 (RCls is_hex)))) (RSeq (RCls (is_char "-")) (RRep 12 (RCls is_hex)))).

Definition empty {A} (l : list A) : bool := match l with [] => true | _ => false end.

(** The demands of each provider on the two objects. *)
Definition provider_fields (p : AgentEnrollmentPolicy) : res unit :=
  let cfg := ep_ProviderConfig p in
  let c := ep_SubjectConstraints p in
  if (ep_Provider p =? "aws")%string then
    _ ← fail_if ((pc_Audience cfg =? "")%string || empty (sc_AccountIDs c) || empty (sc_RoleNames c))
          [Lit "aws enrollment policy requires audience, accountIds and roleNames"];
    each (λ _ region, fail_if (negb (re_match stsRegionPattern region)) [Lit "invalid stsRegions entry "; Quo region]) (pc_STSRegions cfg)
  else if (ep_Provider p =? "gcp")%string then
    fail_if ((pc_Audience cfg =? "")%string || empty (sc_ProjectIDs c) || empty (sc_ServiceAccounts c))
      [Lit "gcp enrollment policy requires audience, projectIds and serviceAccounts"]
  else if (ep_Provider p =? "azure")%string then
    _ ← fail_if ((pc_TenantID cfg =? "")%string || (pc_Audience cfg =? "")%string || empty (sc_SubscriptionIDs c)
                 || empty (sc_ManagedIdentityObjectIDs c))
          [Lit "azure enrollment policy requires tenantId, audience, subscriptionIds and managedIdentityObjectIds"];
    fail_if (negb (re_match azureTenantIDPattern (pc_TenantID cfg))) [Lit "invalid tenantId "; Quo (pc_TenantID cfg)]
  else
    fail_if ((pc_Cluster cfg =? "")%string || empty (sc_Namespaces c) || empty (sc_ServiceAccounts c))
      [Lit "invalid kubernetes enrollment policy constraints"].

Definition validateAgentEnrollmentPolicy (p : AgentEnrollmentPolicy) : res unit :=
  _ ← fail_if (ep_Name p =? "")%string
        (if (ep_Provider p =? "kubernetes")%string then [Lit "policy name and kubernetes provider are required"]
         else [Lit "policy name is required"]);
  template ← (match template_of (ep_Provider p) with
              | Some t => Ok t
              | None => Err [Lit "unsupported enrollment provider "; Quo (ep_Provider p)]
              end);
  _ ← fail_if (negb (ep_AgentIDTemplate p =? template)%string) [Lit "unsupported agent ID template"];
  _ ← fail_if ((ep_AccessTokenTTL p <? minAgentEnrollmentPolicyTTL)%Z || (maxAgentEnrollmentPolicyTTL <? ep_AccessTokenTTL p)%Z)
        [Lit "access token TTL must be between 5m and 4h"];
  provider_fields p.

(** The column keeps whole seconds. *)
Definition stored_policy (p : AgentEnrollmentPolicy) : AgentEnrollmentPolicy :=
  MkPolicy (ep_Name p) (ep_Provider p) (ep_ProviderConfig p) (ep_SubjectConstraints p) (ep_AgentIDTemplate p) (ep_AllowedLabels p)
    (ep_RequiredLabels p) (ep_AuthorizedCapabilities p) (Z.quot (ep_AccessTokenTTL p) second * second) (ep_Enabled p).

Abbreviation policies := (gmap string AgentEnrollmentPolicy).
Definition UpsertAgentEnrollmentPolicy (p : AgentEnrollmentPolicy) (ps : policies) : res (AgentEnrollmentPolicy * policies) :=
  _ ← validateAgentEnrollmentPolicy p;
  Ok (stored_policy p, <[ep_Name p := stored_policy p]> ps).
Definition GetAgentEnrollmentPolicy (name : string) (ps : policies) : option AgentEnrollmentPolicy := ps !! name.
Definition ListAgentEnrollmentPolicies (ps : policies) : list AgentEnrollmentPolicy := omap (λ k, ps !! k) (sorted_keys ps).
Definition DeleteAgentEnrollmentPolicy (name : string) (ps : policies) : policies := delete name ps.

(** ** The handlers *)

Record AgentEnrollmentPolicyRequest := MkPolicyRequest {
  rq_Name : string; rq_Provider : string; rq_Cluster : string; rq_Namespaces : list string; rq_ServiceAccounts : list string;
  rq_Audience : string; rq_STSRegions : list string; rq_AccountIDs : list string; rq_RoleNames : list string;
  rq_ProjectIDs : list string; rq_TenantID : string; rq_SubscriptionIDs : list string; rq_ResourceGroups : list string;
  rq_ManagedIdentityObjectIDs : list string; rq_AgentIDTemplate : string; rq_AllowedLabels : list string;
  rq_RequiredLabels : list string; rq_AccessTokenTTL : string; rq_Enabled : bool
}.

Definition no_config : ProviderConfig := MkProviderConfig "" "" [] "".
Definition no_constraints : SubjectConstraints := MkSubjectConstraints [] [] [] [] [] [] [] [].

Section handlers.
Variables (ParseDuration : string → res Z) (duration_String : Z → string).

Definition enrollmentPolicyFromRequest (name : string) (req : AgentEnrollmentPolicyRequest) : res AgentEnrollmentPolicy :=
  let name := if (name =? "")%string then TrimSpace (rq_Name req) else name in
  match ParseDuration (rq_AccessTokenTTL req) with
  | Err _ => Err [Lit "invalid accessTokenTTL"]
  | Ok ttl =>
      let '(cfg, c) :=
        if (rq_Provider req =? "aws")%string then
          (MkProviderConfig "" (rq_Audience req) (rq_STSRegions req) "",
           MkSubjectConstraints [] [] (rq_AccountIDs req) (rq_RoleNames req) [] [] [] [])
        else if (rq_Provider req =? "gcp")%string then
          (MkProviderConfig "" (rq_Audience req) [] "",
           MkSubjectConstraints [] (rq_ServiceAccounts req) [] [] (rq_ProjectIDs req) [] [] [])
        else if (rq_Provider req =? "azure")%string then
          (MkProviderConfig "" (rq_Audience req) [] (rq_TenantID req),
           MkSubjectConstraints [] [] [] [] [] (rq_SubscriptionIDs req) (rq_ResourceGroups req) (rq_ManagedIdentityObjectIDs req))
        else
          (MkProviderConfig (rq_Cluster req) "" [] "",
           MkSubjectConstraints (rq_Namespaces req) (rq_ServiceAccounts req) [] [] [] [] [] []) in
      Ok (MkPolicy name (rq_Provider req) cfg c (rq_AgentIDTemplate req) (rq_AllowedLabels req) (rq_RequiredLabels req) [] ttl
            (rq_Enabled req))
  end.

Definition enrollmentPolicyResponse (p : AgentEnrollmentPolicy) : AgentEnrollmentPolicyRequest :=
  let cfg := ep_ProviderConfig p in
  let c := ep_SubjectConstraints p in
  let resp cluster namespaces accounts audience regions ids roles projects tenant subs groups objects :=
    MkPolicyRequest (ep_Name p) (ep_Provider p) cluster namespaces accounts audience regions ids roles projects tenant subs groups objects
      (ep_AgentIDTemplate p) (ep_AllowedLabels p) (ep_RequiredLabels p) (duration_String (ep_AccessTokenTTL p)) (ep_Enabled p) in
  if (ep_Provider p =? "aws")%string then
    resp "" [] [] (pc_Audience cfg) (pc_STSRegions cfg) (sc_AccountIDs c) (sc_RoleNames c) [] "" [] [] []
  else if (ep_Provider p =? "gcp")%string then
    resp "" [] (sc_ServiceAccounts c) (pc_Audience cfg) [] [] [] (sc_ProjectIDs c) "" [] [] []
  else if (ep_Provider p =? "azure")%string then
    resp "" [] [] (pc_Audience cfg) [] [] [] [] (pc_TenantID cfg) (sc_SubscriptionIDs c) (sc_ResourceGroups c)
      (sc_ManagedIdentityObjectIDs c)
  else resp (pc_Cluster cfg) (sc_Namespaces c) (sc_ServiceAccounts c) "" [] [] [] [] "" [] [] [].

(** A status with the policy it is about, if any; [req] is [None] where the body
    does not decode, [ok] is [false] where the database fails. *)
Definition upsertAgentEnrollmentPolicy (ok : bool) (name : string) (status : Z) (req : option AgentEnrollmentPolicyRequest) (ps : policies)
  : Z * option AgentEnrollmentPolicyRequest * policies :=
  match req with
  | None => (400%Z, None, ps)
  | Some req =>
      match enrollmentPolicyFromRequest name req with
      | Err _ => (400%Z, None, ps)
      | Ok policy =>
          match UpsertAgentEnrollmentPolicy policy ps with
          | Err _ => (400%Z, None, ps)
          | Ok (created, ps') => if ok then (status, Some (enrollmentPolicyResponse created), ps') else (400%Z, None, ps)
          end
      end
  end.
Definition handleCreateAgentEnrollmentPolicy (ok : bool) := upsertAgentEnrollmentPolicy ok "" 201.
Definition handleUpdateAgentEnrollmentPolicy (ok : bool) (name : string) := upsertAgentEnrollmentPolicy ok name 200.
Definition handleGetAgentEnrollmentPolicy (ok : bool) (name : string) (ps : policies) : Z * option AgentEnrollmentPolicyRequest :=
  if negb ok then (500%Z, None)
  else match GetAgentEnrollmentPolicy name ps with None => (404%Z, None) | Some p => (200%Z, Some (enrollmentPolicyResponse p)) end.
Definition handleListAgentEnrollmentPolicies (ok : bool) (ps : policies) : Z * list AgentEnrollmentPolicyRequest :=
  if ok then (200%Z, enrollmentPolicyResponse <$> ListAgentEnrollmentPolicies ps) else (500%Z, []).
Definition handleDeleteAgentEnrollmentPolicy (ok : bool) (name : string) (ps : policies) : Z * policies :=
  if ok then (204%Z, DeleteAgentEnrollmentPolicy name ps) else (500%Z, ps).
End handlers.
