(* ===== verification/AgentProof.v ===== *)
(** * The proofs of workload identities

    What a verifier demands before it derives an agent's identifier:
    [kubernetes_token.go] and [agent_enrollment_kubernetes.go] for a Pod,
    [agent_enrollment_cloud.go] for a GCP instance, [agent_enrollment_aws.go] for
    an EC2 instance; and the encoding of tokens ([agentauth/token.go] and
    [encoding/base64]).  The API server of Kubernetes, STS, the OIDC library and
    the JSON decoder are parameters.  The Azure verifier folds letters beyond
    ASCII and is left out. *)

From S2P Require Import Prelude GoStrings Regex DslNames RunText AgentPolicies.
From stdpp Require Import options.

(** ** base64.RawURLEncoding *)

Definition b64_char (n : N) : ascii :=
  ascii_of_N (if (n <? 26)%N then 65 + n else if (n <? 52)%N then 71 + n else if (n <? 62)%N then n - 4
              else if (n =? 62)%N then 45 else 95).
Definition b64_digit (c : ascii) : option N :=
  let x := N_of_ascii c in
  if byte_in 65 90 c then Some (x - 65)%N else if byte_in 97 122 c then Some (x - 71)%N
  else if byte_in 48 57 c then Some (x + 4)%N else if (x =? 45)%N then Some 62%N else if (x =? 95)%N then Some 63%N else None.

Fixpoint digits_of (bytes : list N) : list N :=
  (match bytes with
   | a :: b :: c :: l => (a / 4) :: ((a mod 4) * 16 + b / 16) :: ((b mod 16) * 4 + c / 64) :: (c mod 64) :: digits_of l
   | [a; b] => [a / 4; (a mod 4) * 16 + b / 16; (b mod 16) * 4]
   | [a] => [a / 4; (a mod 4) * 16]
   | [] => []
   end)%N.
Definition EncodeToString (s : string) : string :=
  String.string_of_list_ascii (b64_char <$> digits_of (N_of_ascii <$> String.list_ascii_of_string s)).

(** The decoder skips line ends, and ignores the bits left over. *)
Fixpoint bytes_of (digits : list N) : option (list N) :=
  (match digits with
   | a :: b :: c :: d :: l =>
       rest ← bytes_of l; Some ((a * 4 + b / 16) :: ((b mod 16) * 16 + c / 4) :: ((c mod 4) * 64 + d) :: rest)
   | [a; b; c] => Some [a * 4 + b / 16; (b mod 16) * 16 + c / 4]
   | [a; b] => Some [a * 4 + b / 16]
   | [_] => None
   | [] => Some []
   end)%N.
Definition line_end (c : ascii) : bool := (N_of_ascii c =? 10)%N || (N_of_ascii c =? 13)%N.
Definition DecodeString (s : string) : option string :=
  digits ← mapM b64_digit (filter (λ c, line_end c = false) (String.list_ascii_of_string s));
  bytes ← bytes_of digits;
  Some (String.string_of_list_ascii (ascii_of_N <$> bytes)).

(** ** agentauth/token.go *)

Inductive TokenKind := AccessToken | RefreshToken | EnrollmentToken.
Definition kind_string (k : TokenKind) : string :=
  match k with AccessToken => "uca" | RefreshToken => "ucr" | EnrollmentToken => "uce" end.
Record IssuedToken := MkIssuedToken { it_ID : string; it_Plaintext : string; it_Hash : string }.
Record ParsedToken := MkParsedToken { pt_ID : string; pt_Secret : string }.

(** The text before and after the first [c]. *)
Fixpoint cut_at (c : ascii) (s : string) : option (string * string) :=
  match s with
  | "" => None
  | String x s' => if Ascii.eqb x c then Some ("", s') else match cut_at c s' with Some (a, b) => Some (String x a, b) | None => None end
  end.
(** [strings.SplitN s "_" 3] where it has three parts. *)
Definition SplitN3 (s : string) : option (string * string * string) :=
  match cut_at "_" s with
  | Some (a, rest) => match cut_at "_" rest with Some (b, c) => Some (a, b, c) | None => None end
  | None => None
  end.

Section tokens.
(** [uuid.Parse] accepts its argument; SHA-256 in hexadecimal. *)
Variables (uuid_ok : string → bool) (Hash : string → string).

(** [id] and [secret] are what [uuid.NewString] and [rand.Read] gave. *)
Definition Generate (kind : TokenKind) (id secret : string) : IssuedToken :=
  let plaintext := kind_string kind +:+ "_" +:+ id +:+ "_" +:+ EncodeToString secret in
  MkIssuedToken id plaintext (Hash plaintext).

Definition Parse (plaintext : string) (kind : TokenKind) : res ParsedToken :=
  match SplitN3 plaintext with
  | None => Err [Lit "invalid token format"]
  | Some (k, id, secret) =>
      if negb (k =? kind_string kind)%string then Err [Lit "unexpected token type"]
      else if negb (uuid_ok id) then Err [Lit "invalid token format"]
      else match DecodeString secret with
           | Some s => if (String.length s =? 32)%nat then Ok (MkParsedToken id s) else Err [Lit "invalid token format"]
           | None => Err [Lit "invalid token format"]
           end
  end.
End tokens.

(** ** The verifiers *)

Inductive verify_error := Rejected | Unavailable.
Definition contains (values : list string) (want : string) : bool := existsb (λ v, (v =? want)%string) values.

(** *** Kubernetes *)

Definition KubernetesEnrollmentAudience : string := "unified-cd-agent-enrollment".
Record BoundPodIdentity := MkBoundPod { bp_Cluster : string; bp_Namespace : string; bp_ServiceAccount : string; bp_PodName : string; bp_PodUID : string }.
Record boundPodClaims := MkPodClaims { bc_Namespace : string; bc_AccountName : string; bc_AccountUID : string; bc_PodName : string; bc_PodUID : string }.

(** What the API server answers. *)
Record TokenReview := MkTokenReview { tr_Authenticated : bool; tr_Audiences : list string; tr_Username : string; tr_UID : string }.
Record Pod := MkPod { po_UID : string; po_Namespace : string; po_Name : string; po_ServiceAccountName : string }.
Inductive pod_answer := PodFound (p : Pod) | PodNotFound | PodError.
Record KubeClient := MkKubeClient { kc_review : string → string → option TokenReview; kc_pod : string → string → pod_answer }.

Section kubernetes.
(** The claims of a decoded payload; [None] where it does not decode or has none
    for Kubernetes. *)
Variable pod_claims : string → option boundPodClaims.

Definition parseBoundPodClaims (token : string) : option boundPodClaims :=
  match Split "." token with
  | [_; payload; _] =>
      raw ← DecodeString payload;
      c ← pod_claims raw;
      if (bc_Namespace c =? "")%string || (bc_AccountName c =? "")%string || (bc_AccountUID c =? "")%string
         || (bc_PodName c =? "")%string || (bc_PodUID c =? "")%string
      then None else Some c
  | _ => None
  end.

Definition VerifyProjectedToken (client : option KubeClient) (cluster audience token : string) : verify_error + BoundPodIdentity :=
  match client with
  | None => inl Unavailable
  | Some k =>
      match kc_review k token audience with
      | None => inl Unavailable
      | Some review =>
          if negb (tr_Authenticated review) || negb (contains (tr_Audiences review) audience) then inl Rejected
          else
            match parseBoundPodClaims token with
            | None => inl Rejected
            | Some c =>
                if negb (tr_Username review =? "system:serviceaccount:" +:+ bc_Namespace c +:+ ":" +:+ bc_AccountName c)%string
                then inl Rejected
                else if (bc_AccountUID c =? "")%string || (tr_UID review =? "")%string || negb (tr_UID review =? bc_AccountUID c)%string
                then inl Rejected
                else
                  match kc_pod k (bc_Namespace c) (bc_PodName c) with
                  | PodNotFound => inl Rejected
                  | PodError => inl Unavailable
                  | PodFound p =>
                      if negb (po_UID p =? bc_PodUID c)%string || negb (po_Namespace p =? bc_Namespace c)%string
                         || negb (po_Name p =? bc_PodName c)%string || negb (po_ServiceAccountName p =? bc_AccountName c)%string
                      then inl Rejected
                      else inr (MkBoundPod cluster (bc_Namespace c) (bc_AccountName c) (bc_PodName c) (bc_PodUID c))
                  end
            end
      end
  end.

Definition kubernetes_Verify (cluster : string) (client : option KubeClient) (token : string) (policy : AgentEnrollmentPolicy)
  : verify_error + BoundPodIdentity :=
  match client with
  | None => inl Unavailable
  | Some _ =>
      let c := ep_SubjectConstraints policy in
      if empty (sc_Namespaces c) || empty (sc_ServiceAccounts c) then inl Rejected
      else
        match VerifyProjectedToken client cluster KubernetesEnrollmentAudience token with
        | inl e => inl e
        | inr i =>
            if negb (contains (sc_Namespaces c) (bp_Namespace i)) || negb (contains (sc_ServiceAccounts c) (bp_ServiceAccount i))
            then inl Rejected else inr i
        end
  end.
End kubernetes.

(** *** GCP *)

(** The error text of a failed fetch of keys. *)
Definition oidcKeyFetchErrorPrefix : string := "failed to verify signature: fetching keys".
Definition verifyOIDCToken {T} (verify : string → string + T) (raw : string) : verify_error + T :=
  match verify raw with
  | inr t => inr t
  | inl msg => if HasPrefix msg oidcKeyFetchErrorPrefix then inl Unavailable else inl Rejected
  end.

Record gcpClaims := MkGcpClaims { gc_Email : string; gc_EmailVerified : bool; gc_ProjectID : string; gc_InstanceID : string }.

Section gcp.
(** [verify audience] is the go-oidc verifier for Google's issuer and keys. *)
Context {T : Type} (verify : string → string → string + T) (claims : T → option gcpClaims).
Definition gcp_Verify (bearer : string) (policy : AgentEnrollmentPolicy) : verify_error + string :=
  let cfg := ep_ProviderConfig policy in
  let c := ep_SubjectConstraints policy in
  if (pc_Audience cfg =? "")%string then inl Rejected
  else
    match verifyOIDCToken (verify (pc_Audience cfg)) bearer with
    | inl e => inl e
    | inr token =>
        match claims token with
        | None => inl Rejected
        | Some g =>
            if negb (gc_EmailVerified g) || (gc_Email g =? "")%string || (gc_ProjectID g =? "")%string || (gc_InstanceID g =? "")%string
            then inl Rejected
            else if negb (contains (sc_ProjectIDs c) (gc_ProjectID g)) || negb (contains (sc_ServiceAccounts c) (gc_Email g))
            then inl Rejected
            else inr ("gcp:" +:+ gc_ProjectID g +:+ ":" +:+ gc_InstanceID g)
        end
    end.
End gcp.

(** *** AWS *)

Record AWSSignedRequest := MkSigned { sg_Method : string; sg_URL : string; sg_Headers : gmap string (list string); sg_Body : string }.
(** What [url.Parse] gives. *)
Record parsed_url := MkUrl {
  ur_Scheme : string; ur_User : bool; ur_Hostname : string; ur_Port : string; ur_Path : string; ur_RawQuery : string;
  ur_ForceQuery : bool; ur_Fragment : string; ur_Opaque : string
}.

Definition awsAudienceHeader : string := "X-Unified-CD-Audience".
Definition awsGetCallerIdentity : string := "Action=GetCallerIdentity&Version=2011-06-15".
Definition awsGlobalSTSHost : string := "sts.amazonaws.com".
Definition awsGlobalSTSRegion : string := "us-east-1".
Definition awsForwardedHeaders : list string :=
  ["Authorization"; "Content-Type"; "X-Amz-Date"; "X-Amz-Security-Token"; "X-Amz-Content-Sha256"; awsAudienceHeader; "User-Agent"].

(** The region of [awsSTSRegionalHost]. *)
Definition sts_region (host : string) : option string :=
  if HasPrefix host "sts." && HasSuffix (TrimPrefix host "sts.") ".amazonaws.com" then
    let region := TrimSuffix (TrimPrefix host "sts.") ".amazonaws.com" in
    if re_match stsRegionPattern region then Some region else None
  else None.

(** The groups of [awsAssumedRoleARN]: account, role and session. *)
Definition arn_prefixes : list string := ["arn:aws:sts::"; "arn:aws-us-gov:sts::"; "arn:aws-cn:sts::"].
Definition awsAssumedRoleARN (arn : string) : option (string * string * string) :=
  match Split "/" arn with
  | [head; role; session] =>
      if (role =? "")%string || (session =? "")%string || negb (HasSuffix head ":assumed-role") then None
      else
        let left := TrimSuffix head ":assumed-role" in
        match list_find (λ p, HasPrefix left p = true) arn_prefixes with
        | None => None
        | Some (_, p) =>
            let account := TrimPrefix left p in
            if re_match (RRep 12 (RCls is_digit)) account then Some (account, role, session) else None
        end
  | _ => None
  end.
Definition is_lower_hex (c : ascii) : bool := is_digit c || byte_in 97 102 c.
Fixpoint RUpTo (n : nat) (r : regex) : regex := match n with 0 => REps | S n => ROpt (RSeq r (RUpTo n r)) end.
Definition awsInstanceSession : regex :=
  RSeq (RCls (is_char "i")) (RSeq (RCls (is_char "-")) (RSeq (RRep 8 (RCls is_lower_hex)) (RUpTo 9 (RCls is_lower_hex)))).

(** The group of [awsAuthorization]: the list of signed headers. *)
Definition space_free (s : string) : bool :=
  negb (s =? "")%string && all_bytes (λ c, negb (bool_decide (N_of_ascii c ∈ [9; 10; 12; 13; 32]%N))) s.
Definition awsAuthorization (s : string) : option string :=
  match Split "," s with
  | [credential; headers; signature] =>
      let p := "AWS4-HMAC-SHA256 Credential=" in
      let headers := TrimPrefix headers " " in
      let signature := TrimPrefix signature " " in
      if HasPrefix credential p && space_free (TrimPrefix credential p) && HasPrefix headers "SignedHeaders="
         && space_free (TrimPrefix headers "SignedHeaders=") && HasPrefix signature "Signature="
         && re_match (RPlus (RCls is_lower_hex)) (TrimPrefix signature "Signature=")
      then Some (TrimPrefix headers "SignedHeaders=") else None
  | _ => None
  end.

Definition headerValues (h : gmap string (list string)) (name : string) : list string :=
  flat_map (λ kv, if EqualFold kv.1 name then kv.2 else []) (map_to_list h).
Definition awsAudienceSigned (h : gmap string (list string)) : bool :=
  match headerValues h "Authorization" with
  | [auth] =>
      match awsAuthorization auth with
      | Some signed => existsb (λ name, (name =? ToLower awsAudienceHeader)%string) (Split ";" signed)
      | None => false
      end
  | _ => false
  end.
Definition awsForwardable (name : string) : bool := existsb (EqualFold name) awsForwardedHeaders.

(** The headers that are sent, or [None] where a value would end its line. *)
Definition forwarded (h : gmap string (list string)) : option (list (string * string)) :=
  let sent := flat_map (λ kv, if awsForwardable kv.1 then pair kv.1 <$> kv.2 else []) (map_to_list h) in
  if existsb (λ kv, existsb (λ c, has_byte c kv.2) ["010"; "013"; "000"]%char) sent then None else Some sent.

Section aws.
(** [url.Parse], the decoder of padded base64, and STS: its status and, where the
    answer decodes, the ARN in it; [None] where it cannot be reached. *)
Variables (parse_url : string → option parsed_url) (std_base64 : string → option string).
Variable sts : string → list (string * string) → option (Z * option string).

Definition callerIdentityARN (host : string) (headers : gmap string (list string)) : verify_error + string :=
  match forwarded headers with
  | None => inl Rejected
  | Some sent =>
      match sts host sent with
      | None => inl Unavailable
      | Some (status, arn) =>
          if (500 <=? status)%Z || (status =? 429)%Z then inl Unavailable
          else if negb (status =? 200)%Z then inl Rejected
          else match arn with Some a => if (a =? "")%string then inl Rejected else inr a | None => inl Rejected end
      end
  end.

Definition bad_url (u : parsed_url) : bool :=
  negb (ur_Scheme u =? "https")%string || ur_User u || negb (ur_Port u =? "")%string
  || (negb (ur_Path u =? "")%string && negb (ur_Path u =? "/")%string) || negb (ur_RawQuery u =? "")%string || ur_ForceQuery u
  || negb (ur_Fragment u =? "")%string || negb (ur_Opaque u =? "")%string.

(** The checks before anything is sent; the host they settle on. *)
Definition aws_checks (signed : AWSSignedRequest) (cfg : ProviderConfig) : option string :=
  if negb (sg_Method signed =? "POST")%string then None
  else
    u ← parse_url (sg_URL signed);
    if bad_url u then None
    else
      let host := ur_Hostname u in
      region ← (if (host =? awsGlobalSTSHost)%string then Some awsGlobalSTSRegion else sts_region host);
      if negb (empty (pc_STSRegions cfg)) && negb (contains (pc_STSRegions cfg) region) then None
      else if negb (bool_decide (std_base64 (sg_Body signed) = Some awsGetCallerIdentity)) then None
      else if negb (bool_decide (headerValues (sg_Headers signed) awsAudienceHeader = [pc_Audience cfg])) then None
      else if negb (awsAudienceSigned (sg_Headers signed)) then None
      else if existsb (λ h, negb (h =? host)%string) (headerValues (sg_Headers signed) "Host") then None
      else Some host.

Definition aws_Verify (proof : option AWSSignedRequest) (policy : AgentEnrollmentPolicy) : verify_error + string :=
  let cfg := ep_ProviderConfig policy in
  let c := ep_SubjectConstraints policy in
  if (pc_Audience cfg =? "")%string then inl Rejected
  else
    match proof with
    | None => inl Rejected
    | Some signed =>
        match aws_checks signed cfg with
        | None => inl Rejected
        | Some host =>
            match callerIdentityARN host (sg_Headers signed) with
            | inl e => inl e
            | inr arn =>
                match awsAssumedRoleARN arn with
                | None => inl Rejected
                | Some (account, role, session) =>
                    if negb (re_match awsInstanceSession session) then inl Rejected
                    else if negb (contains (sc_AccountIDs c) account) || negb (contains (sc_RoleNames c) role) then inl Rejected
                    else inr ("aws:" +:+ account +:+ ":" +:+ session)
                end
            end
        end
    end.
End aws.

(** ** Tokens round trip *)

Lemma bytes_of_digits l : Forall (λ n, (n < 256)%N) l → bytes_of (digits_of l) = Some l ∧ Forall (λ n, (n < 64)%N) (digits_of l).
Proof.
  remember (length l) as n eqn:En. assert (length l ≤ n) as Hn by lia. clear En. revert l Hn.
  induction n as [|n IH]; intros l Hn Hl; [destruct l; [by repeat constructor|simpl in Hn; lia]|].
  destruct l as [|a [|b [|c l]]]; [by repeat constructor|..].
  - apply Forall_cons in Hl as [Ha _]. simpl. split.
    + do 2 f_equal. zify; Z.to_euclidean_division_equations; lia.
    + repeat constructor; zify; Z.to_euclidean_division_equations; lia.
  - apply Forall_cons in Hl as [Ha [Hb _]%Forall_cons]. simpl. split.
    + do 2 f_equal; [|f_equal]; zify; Z.to_euclidean_division_equations; lia.
    + repeat constructor; zify; Z.to_euclidean_division_equations; lia.
  - apply Forall_cons in Hl as [Ha [Hb [Hc Hl]%Forall_cons]%Forall_cons]. destruct (IH l) as [E F]; [simpl in Hn; lia|done|].
    cbn [digits_of bytes_of]. rewrite E. simpl. split.
    + f_equal. f_equal; [|f_equal; [|f_equal]]; zify; Z.to_euclidean_division_equations; lia.
    + repeat (constructor; [zify; Z.to_euclidean_division_equations; lia|]). done.
Qed.

Lemma b64_chars n : (n < 64)%N → b64_digit (b64_char n) = Some n ∧ line_end (b64_char n) = false.
Proof.
  assert (Forall (λ n, b64_digit (b64_char n) = Some n ∧ line_end (b64_char n) = false) (N.of_nat <$> seq 0 64)) as H
    by (apply (bool_decide_unpack _); by vm_compute).
  intros Hn. rewrite Forall_forall in H. apply H, list_elem_of_fmap. exists (N.to_nat n). split; [lia|]. apply elem_of_seq. lia.
Qed.

Lemma decode_encode s : DecodeString (EncodeToString s) = Some s.
Proof.
  unfold DecodeString, EncodeToString. rewrite String.list_ascii_of_string_of_list_ascii.
  destruct (bytes_of_digits (N_of_ascii <$> String.list_ascii_of_string s)) as [E F].
  { apply Forall_fmap, Forall_forall. intros c _. apply N_ascii_bounded. }
  set (ds := digits_of _) in *.
  assert (filter (λ c, line_end c = false) (b64_char <$> ds) = b64_char <$> ds) as ->.
  { clear E. induction F as [|n l Hn _ IH]; [done|]. csimpl. rewrite filter_cons, decide_True by (by apply b64_chars). by rewrite IH. }
  assert (mapM b64_digit (b64_char <$> ds) = Some ds) as ->.
  { apply mapM_Some, Forall2_fmap_l, Forall_Forall2_diag. eapply Forall_impl; [exact F|]. intros n Hn. by apply b64_chars. }
  simpl. rewrite E. simpl. f_equal. rewrite <-list_fmap_compose. transitivity (String.string_of_list_ascii (String.list_ascii_of_string s)).
  - f_equal. rewrite <-(list_fmap_id (String.list_ascii_of_string s)) at 2. apply list_fmap_ext. intros i c _. apply ascii_N_embedding.
  - apply String.string_of_list_ascii_of_string.
Qed.

Lemma cut_at_app c a b : has_byte c a = false → cut_at c (a +:+ String c b) = Some (a, b).
Proof.
  induction a as [|x a IH]; simpl; [by rewrite Ascii.eqb_refl|]. intros [Hx Ha]%orb_false_iff.
  destruct (Ascii.eqb x c) eqn:E; [|by rewrite IH]. exfalso. revert Hx. by rewrite ?E, ?(Ascii.eqb_sym c x), ?E.
Qed.

(** A token parses, as its own kind and no other, to the identifier and the
    secret it was made of. *)
Theorem token_roundtrip (uuid_ok : string → bool) (Hash : string → string) k id secret :
  uuid_ok id = true → has_byte "_" id = false → String.length secret = 32 →
  Parse uuid_ok (it_Plaintext (Generate Hash k id secret)) k = Ok (MkParsedToken id secret)
  ∧ ∀ k', k' ≠ k → is_ok (Parse uuid_ok (it_Plaintext (Generate Hash k id secret)) k') = false.
Proof.
  intros Hu Hid Hs. unfold Parse, Generate. cbn [it_Plaintext].
  assert (SplitN3 (kind_string k +:+ "_" +:+ id +:+ "_" +:+ EncodeToString secret) = Some (kind_string k, id, EncodeToString secret)) as ->.
  { unfold SplitN3. change ("_" +:+ id +:+ "_" +:+ EncodeToString secret) with (String "_" (id +:+ String "_" (EncodeToString secret))).
    rewrite cut_at_app by (by destruct k). by rewrite cut_at_app. }
  rewrite String.eqb_refl, Hu, decode_encode, Hs. simpl. split; [done|]. intros k' Hk'.
  destruct (String.eqb_spec (kind_string k) (kind_string k')); [|done]. by destruct k, k'.
Qed.

Example region_of_host : sts_region "sts.eu-west-1.amazonaws.com" = Some "eu-west-1" ∧ sts_region "sts.evil.amazonaws.com.attacker.io" = None
  ∧ sts_region "sts.amazonaws.com" = None.
Proof. by vm_compute. Qed.
Example role_of_arn : awsAssumedRoleARN "arn:aws:sts::123456789012:assumed-role/ci-agent/i-0123456789abcdef0"
  = Some ("123456789012", "ci-agent", "i-0123456789abcdef0") ∧ re_match awsInstanceSession "i-0123456789abcdef0" = true
  ∧ re_match awsInstanceSession "i-0123456" = false ∧ awsAssumedRoleARN "arn:aws:iam::123456789012:role/ci-agent" = None.
Proof. by vm_compute. Qed.
Example headers_signed : awsAuthorization "AWS4-HMAC-SHA256 Credential=AKID/20240101/us-east-1/sts/aws4_request, SignedHeaders=host;x-unified-cd-audience, Signature=00ff"
  = Some "host;x-unified-cd-audience".
Proof. by vm_compute. Qed.

Lemma token_roundtrip_witness :
  let secret := "0123456789abcdef0123456789abcdef" in
  let id := "6f1c1f8e-54f7-4d2a-9d59-0a1b2c3d4e5f" in
  Parse (λ _, true) (it_Plaintext (Generate (λ s, s) RefreshToken id secret)) RefreshToken = Ok (MkParsedToken id secret)
  ∧ ∀ k', k' ≠ RefreshToken → is_ok (Parse (λ _, true) (it_Plaintext (Generate (λ s, s) RefreshToken id secret)) k') = false.
Proof. apply (token_roundtrip (λ _, true) (λ s, s) RefreshToken); by vm_compute. Defined.
