(* ===== verification/AgentEnroll.v ===== *)
(** * internal/controller: enrollment and authentication of agents

    The handlers that issue agents their credentials ([api_agent_enrollment.go],
    [agent_enrollment_cloud.go]), the portable form of an agent's identifier
    ([agentid]), and the middleware that authenticates agents ([agent_auth.go]),
    over the tables of [AgentIds].  Metrics and the audit log are left out, as are
    the decoding and encoding of bodies.  Identifiers are in their canonical form. *)

From S2P Require Import Prelude GoStrings Authz AuthzServer AgentIds AgentPolicies AgentProof.
From stdpp Require Import options.

(** ** agentid *)

Definition isASCIIAlphaNumeric (c : ascii) : bool := is_lower c || is_digit c.
Definition isWindowsReservedName (v : string) : bool :=
  existsb (λ w, (v =? w)%string) ["con"; "prn"; "aux"; "nul"]
  || match v with
     | String a (String b (String c (String d ""))) =>
         let p := String a (String b (String c "")) in
         ((p =? "com")%string || (p =? "lpt")%string) && byte_in 49 57 d
     | _ => false
     end.
Definition ValidatePortable (id : string) : bool :=
  match first_byte id, last_byte id with
  | Some a, Some z =>
      isASCIIAlphaNumeric a && isASCIIAlphaNumeric z
      && forallb (λ c, isASCIIAlphaNumeric c || bool_decide (c ∈ ["."; "_"; "-"]%char)) (String.list_ascii_of_string id)
      && negb (isWindowsReservedName (match cut_at "." id with Some (base, _) => base | None => id end))
  | _, _ => false
  end.

(** ** The environment of a request *)

Definition agentAccessTTL : Z := 3600 * second.
Definition agentRefreshTTL : Z := 30 * 24 * 3600 * second.
Definition agentRefreshOverlap : Z := 5 * 60 * second.
Definition defaultAgentEnrollmentTTL : Z := 10 * 60 * second.
Definition maxAgentEnrollmentTTL : Z := 24 * 3600 * second.

(** The clock; whether the limiter lets the request through, there is a store and
    its statements succeed; the identifier and secret of each token drawn, unless
    random numbers fail; the identifiers drawn for a family and by the database;
    and whether a look-up came before a concurrent insertion. *)
Record enroll_env := MkEnrollEnv {
  ee_now : Z;
  ee_allow : bool;
  ee_store : bool;
  ee_db_ok : bool;
  ee_access : option (string * string);
  ee_refresh : option (string * string);
  ee_family : string;
  ee_newid : string;
  ee_missed : bool
}.

(** The body of the response, [ts_] after [AgentTokenResponse]. *)
Record AgentTokenResponse := MkTokenResponse {
  ts_AgentID : string; ts_AccessToken : string; ts_AccessExpiresAt : Z; ts_RefreshToken : string;
  ts_RefreshExpiresAt : option Z; ts_Labels : list string; ts_Capabilities : list string
}.
Inductive enroll_answer := Denied (status : Z) | Granted (r : AgentTokenResponse).

Record AgentEnrollRequest := MkEnrollRequest {
  er_Provider : string; er_Policy : string; er_Labels : list string; er_AWS : option AWSSignedRequest
}.

Definition bearerPrefix : string := "Bearer ".
Definition bearerToken (header : string) : option string :=
  if HasPrefix header bearerPrefix then
    let token := TrimPrefix header bearerPrefix in
    if (token =? "")%string then None else Some token
  else None.

Definition credential_status (e : agent_error) : Z :=
  match e with
  | ErrAgentIdentityDisabled => 403
  | ErrAgentRefreshReplay | ErrAgentEnrollmentInvalid | ErrAgentCredentialNotFound => 401
  | ErrStatement => 503
  end.

(** A transaction that may fail as a whole. *)
Definition db_call {A} (ok : bool) (f : agent_db → (agent_error + A) * agent_db) (d : agent_db) : (agent_error + A) * agent_db :=
  if ok then f d else (inl ErrStatement, d).

Definition newAgentCredential (token : IssuedToken) (kind : credential_kind) (family : string) (generation expiresAt : Z)
  : NewAgentCredential := MkNewCredential (it_ID token) kind family (it_Hash token) generation expiresAt.

Definition agentTokenResponse (i : AgentIdentity) (accessToken refreshToken : string) (now : Z) : AgentTokenResponse :=
  MkTokenResponse (ai_AgentID i) accessToken (now + agentAccessTTL) refreshToken (Some (now + agentRefreshTTL)%Z)
    (ai_AuthorizedLabels i) (ai_AuthorizedCapabilities i).

Section enroll.
Variables (uuid_ok : string → bool) (Hash : string → string).
Variable E : enroll_env.

Definition issueAgentTokenPair : option (IssuedToken * IssuedToken) :=
  '(id, secret) ← ee_access E; '(id', secret') ← ee_refresh E;
  Some (Generate Hash AccessToken id secret, Generate Hash RefreshToken id' secret').

Definition exchange_issue (acc ref : IssuedToken) : AgentCredentialIssue :=
  MkIssue "" "enrollment" "" [] []
    (newAgentCredential acc access (ee_family E) 1 (ee_now E + agentAccessTTL))
    (Some (newAgentCredential ref refresh (ee_family E) 1 (ee_now E + agentRefreshTTL))).

(** The exchange of a one-time token, the last branch of [handleAgentEnroll]. *)
Definition handleTokenEnroll (header : string) (d : agent_db) : enroll_answer * agent_db :=
  if negb (ee_allow E) then (Denied 429, d)
  else
    match bearerToken header with
    | None => (Denied 401, d)
    | Some token =>
        match Parse uuid_ok token EnrollmentToken with
        | Err _ => (Denied 401, d)
        | Ok parsed =>
            if negb (ee_store E) then (Denied 503, d)
            else
              match issueAgentTokenPair with
              | None => (Denied 503, d)
              | Some (acc, ref) =>
                  match db_call (ee_db_ok E) (ConsumeAgentEnrollment (ee_newid E) (ee_missed E) (pt_ID parsed) (Hash token)
                                                (exchange_issue acc ref) (ee_now E)) d with
                  | (inl e, d') => (Denied (credential_status e), d')
                  | (inr i, d') => (Granted (agentTokenResponse i (it_Plaintext acc) (it_Plaintext ref) (ee_now E)), d')
                  end
              end
        end
    end.

Definition handleAgentRefresh (header : string) (d : agent_db) : enroll_answer * agent_db :=
  if negb (ee_allow E) then (Denied 429, d)
  else
    match bearerToken header with
    | None => (Denied 401, d)
    | Some token =>
        match Parse uuid_ok token RefreshToken with
        | Err _ => (Denied 401, d)
        | Ok parsed =>
            if negb (ee_store E) then (Denied 503, d)
            else
              match issueAgentTokenPair with
              | None => (Denied 503, d)
              | Some (acc, ref) =>
                  match db_call (ee_db_ok E) (RotateAgentRefresh (pt_ID parsed) (Hash token) (ee_now E)
                          (newAgentCredential acc access "" 0 (ee_now E + agentAccessTTL))
                          (newAgentCredential ref refresh "" 0 (ee_now E + agentRefreshTTL)) agentRefreshOverlap) d with
                  | (inl e, d') => (Denied (credential_status e), d')
                  | (inr i, d') => (Granted (agentTokenResponse i (it_Plaintext acc) (it_Plaintext ref) (ee_now E)), d')
                  end
              end
        end
    end.

(** The labels the policy requires and those requested, or nothing. *)
Fixpoint add_labels (requested allowed labels : list string) : option (list string) :=
  match requested with
  | [] => Some labels
  | l :: requested =>
      if negb (contains allowed l) then None
      else add_labels requested allowed (if contains labels l then labels else labels ++ [l])
  end.
Definition authorizedEnrollmentLabels (req : AgentEnrollRequest) (p : AgentEnrollmentPolicy) : option (list string) :=
  add_labels (er_Labels req) (ep_AllowedLabels p) (ep_RequiredLabels p).

(** The end that the exchanges of workload identities share. *)
Definition issue_external (provider agentID : string) (req : AgentEnrollRequest) (p : AgentEnrollmentPolicy) (d : agent_db)
  : enroll_answer * agent_db :=
  match authorizedEnrollmentLabels req p with
  | None => (Denied 403, d)
  | Some labels =>
      match ee_access E with
      | None => (Denied 503, d)
      | Some (id, secret) =>
          let acc := Generate Hash AccessToken id secret in
          let expires := (ee_now E + ep_AccessTokenTTL p)%Z in
          match db_call (ee_db_ok E) (IssueExternalAgentAccess (ee_newid E) (ee_missed E)
                  (MkIssue agentID provider agentID labels [] (newAgentCredential acc access "" 0 expires) None)) d with
          | (inl e, d') => (Denied (credential_status e), d')
          | (inr i, d') =>
              (Granted (MkTokenResponse (ai_AgentID i) (it_Plaintext acc) expires "" None (ai_AuthorizedLabels i)
                          (ai_AuthorizedCapabilities i)), d')
          end
      end
  end.

(** The policies, read with or without an error, and the verifiers: of Kubernetes
    by cluster, of the clouds by provider. *)
Variable policy_read : string → option (option AgentEnrollmentPolicy).
Variable kubernetes_verifiers : gmap string (string → AgentEnrollmentPolicy → verify_error + BoundPodIdentity).
Variable cloud_verifiers : gmap string (string → option AWSSignedRequest → AgentEnrollmentPolicy → verify_error + string).

Definition k8s_agent_id (i : BoundPodIdentity) : string :=
  "k8s:" +:+ bp_Cluster i +:+ ":" +:+ bp_Namespace i +:+ ":" +:+ bp_PodUID i.

Definition handleKubernetesAgentEnroll (header : string) (req : AgentEnrollRequest) (d : agent_db) : enroll_answer * agent_db :=
  if negb (ee_allow E) then (Denied 429, d)
  else
    match bearerToken header with
    | None => (Denied 403, d)
    | Some token =>
        if negb (ee_store E) then (Denied 503, d)
        else
          match policy_read (er_Policy req) with
          | None => (Denied 503, d)
          | Some None => (Denied 403, d)
          | Some (Some p) =>
              if negb (ep_Enabled p) || negb (ep_Provider p =? "kubernetes")%string then (Denied 403, d)
              else
                match kubernetes_verifiers !! pc_Cluster (ep_ProviderConfig p) with
                | None => (Denied 503, d)
                | Some verify =>
                    match verify token p with
                    | inl Unavailable => (Denied 503, d)
                    | inl Rejected => (Denied 403, d)
                    | inr i => issue_external "kubernetes" (k8s_agent_id i) req p d
                    end
                end
          end
    end.

Definition handleCloudAgentEnroll (header : string) (req : AgentEnrollRequest) (d : agent_db) : enroll_answer * agent_db :=
  let provider := er_Provider req in
  if negb (ee_allow E) then (Denied 429, d)
  else
    match (if negb (provider =? "aws")%string then bearerToken header
           else match er_AWS req with Some _ => Some EmptyString | None => None end) with
    | None => (Denied 403, d)
    | Some bearer =>
        if negb (ee_store E) then (Denied 503, d)
        else
          match policy_read (er_Policy req) with
          | None => (Denied 503, d)
          | Some None => (Denied 403, d)
          | Some (Some p) =>
              if negb (ep_Enabled p) || negb (ep_Provider p =? provider)%string then (Denied 403, d)
              else
                match cloud_verifiers !! provider with
                | None => (Denied 503, d)
                | Some verify =>
                    match verify bearer (er_AWS req) p with
                    | inl Unavailable => (Denied 503, d)
                    | inl Rejected => (Denied 403, d)
                    | inr agentID => issue_external provider agentID req p d
                    end
                end
          end
    end.

(** [req] is [None] where the body does not decode; an empty body is the zero
    request. *)
Definition handleAgentEnroll (header : string) (req : option AgentEnrollRequest) (d : agent_db) : enroll_answer * agent_db :=
  match req with
  | None => (Denied 401, d)
  | Some req =>
      if (er_Provider req =? "kubernetes")%string then handleKubernetesAgentEnroll header req d
      else if existsb (λ p, (er_Provider req =? p)%string) ["aws"; "gcp"; "azure"] then handleCloudAgentEnroll header req d
      else if (er_Provider req =? "")%string then handleTokenEnroll header d
      else (Denied 403, d)
  end.
End enroll.

(** ** Administration of enrollments and identities *)

Record CreateAgentEnrollmentRequest := MkCreateEnrollment { ce_AgentID : string; ce_ExpiresIn : string; ce_Labels : list string }.
Record CreateAgentEnrollmentResponse := MkCreatedEnrollment { cn_ID : string; cn_AgentID : string; cn_Token : string; cn_ExpiresAt : Z }.

Section administration.
Variables (Hash : string → string) (ParseDuration : string → res Z).

Definition generateAgentID (uuid : string) : string := "agent-" +:+ str_take 8 uuid.

(** What a caller that may only enroll must not ask for. *)
Definition enroll_only_denied (caller : Principal) (req : CreateAgentEnrollmentRequest) : bool :=
  negb (Grants_Can (pr_Grants caller) AgentManage "")
  && (negb (ce_AgentID req =? "")%string
      || existsb (λ l, negb (contains (default [] (pr_EnrollLabels caller)) l)) (ce_Labels req)).

Definition enrollment_ttl (req : CreateAgentEnrollmentRequest) : option Z :=
  if (ce_ExpiresIn req =? "")%string then Some defaultAgentEnrollmentTTL
  else match ParseDuration (ce_ExpiresIn req) with
       | Ok t => if (t <=? 0)%Z || (maxAgentEnrollmentTTL <? t)%Z then None else Some t
       | Err _ => None
       end.

(** [uuid] names an agent that gives no name; [drawn] is the identifier and the
    secret of the token. *)
Definition handleCreateAgentEnrollment (ok : bool) (caller : Principal) (uuid : string) (drawn : option (string * string)) (now : Z)
    (body : option CreateAgentEnrollmentRequest) (d : agent_db) : Z * option CreateAgentEnrollmentResponse * agent_db :=
  match body with
  | None => (400%Z, None, d)
  | Some req =>
      if enroll_only_denied caller req then (403%Z, None, d)
      else
        let trimmed := TrimSpace (ce_AgentID req) in
        let agentID := if (trimmed =? "")%string then generateAgentID uuid else trimmed in
        if negb (ValidatePortable agentID) then (400%Z, None, d)
        else
          match enrollment_ttl req with
          | None => (400%Z, None, d)
          | Some ttl =>
              match drawn with
              | None => (500%Z, None, d)
              | Some (id, secret) =>
                  let issued := Generate Hash EnrollmentToken id secret in
                  let row := MkEnrollmentToken agentID (it_Hash issued) (ce_Labels req) [] (now + ttl) None None (pr_Name caller) in
                  match (if ok then CreateAgentEnrollmentToken (it_ID issued) row d else None) with
                  | None => (500%Z, None, d)
                  | Some d' => (201%Z, Some (MkCreatedEnrollment (it_ID issued) agentID (it_Plaintext issued) (now + ttl)), d')
                  end
              end
          end
  end.

Definition handleRevokeAgentEnrollment (ok : bool) (id : string) (now : Z) (d : agent_db) : Z * agent_db :=
  if ok then (204%Z, RevokeAgentEnrollmentToken id now d) else (500%Z, d).

Definition setAgentIdentityEnabled (ok enabled : bool) (agentID : string) (now : Z) (d : agent_db) : Z * agent_db :=
  if negb ok then (500%Z, d)
  else match SetAgentIdentityEnabled agentID enabled now d with
       | (Some ErrAgentCredentialNotFound, d') => (404%Z, d')
       | (Some _, d') => (500%Z, d')
       | (None, d') => (204%Z, d')
       end.
Definition handleEnableAgentIdentity (ok : bool) := setAgentIdentityEnabled ok true.
Definition handleDisableAgentIdentity (ok : bool) := setAgentIdentityEnabled ok false.

Definition handleGetAgentIdentity (ok : bool) (agentID : string) (d : agent_db) : Z * option AgentIdentity :=
  if negb ok then (500%Z, None)
  else match getAgentIdentityByAgentID agentID d with None => (404%Z, None) | Some (_, i) => (200%Z, Some i) end.

(** The identity is read before the revocation, with its own chance to fail. *)
Definition handleRevokeAgentCredentials (ok_get ok : bool) (agentID : string) (now : Z) (d : agent_db) : Z * agent_db :=
  if negb ok_get then (500%Z, d)
  else match getAgentIdentityByAgentID agentID d with
       | None => (404%Z, d)
       | Some _ => if ok then (204%Z, RevokeAgentIdentityCredentials agentID now d) else (500%Z, d)
       end.
End administration.

(** ** agent_auth.go *)

(** [hex.DecodeString], as the values of the bytes. *)
Definition hex_digit (c : ascii) : option N :=
  let x := N_of_ascii c in
  if is_digit c then Some (x - 48)%N else if byte_in 97 102 c then Some (x - 87)%N
  else if byte_in 65 70 c then Some (x - 55)%N else None.
Fixpoint HexDecode (s : string) : option (list N) :=
  match s with
  | "" => Some []
  | String a (String b s) => x ← hex_digit a; y ← hex_digit b; l ← HexDecode s; Some (16 * x + y :: l)%N
  | _ => None
  end.

Record AgentPrincipal := MkAgentPrincipal {
  ap_IdentityID : string; ap_AgentID : string; ap_CredentialID : string; ap_AuthMethod : string;
  ap_AuthorizedLabels : list string; ap_AuthorizedCapabilities : list string
}.

Section authentication.
Variables (uuid_ok : string → bool) (Hash : string → string).

Definition Matches (plaintext hash : string) : bool :=
  match HexDecode (Hash plaintext), HexDecode hash with
  | Some a, Some b => bool_decide (a = b)
  | _, _ => false
  end.

(** The status of a refusal, or the agent the next handler is called for.
    [read_ok] is [false] where the database cannot be read, [touch_due] says
    whether the use is recorded. *)
Definition agentAuth (store read_ok touch_due : bool) (now : Z) (header : string) (d : agent_db) : (Z + AgentPrincipal) * agent_db :=
  if negb (HasPrefix header bearerPrefix) then (inl 401%Z, d)
  else
    let token := TrimPrefix header bearerPrefix in
    if negb (HasPrefix token "uca_") then (inl 401%Z, d)
    else
      match Parse uuid_ok token AccessToken with
      | Err _ => (inl 401%Z, d)
      | Ok parsed =>
          if negb store || negb read_ok then (inl 503%Z, d)
          else
            match GetAgentCredentialForAuth (pt_ID parsed) now d with
            | inl ErrAgentCredentialNotFound | inl ErrAgentIdentityDisabled => (inl 401%Z, d)
            | inl _ => (inl 503%Z, d)
            | inr c =>
                if negb (bool_decide (ca_Kind c = access)) || negb (bool_decide (ca_Status c = active))
                   || bool_decide (is_Some (ca_RevokedAt c)) || negb (now <? ca_ExpiresAt c)%Z
                   || negb (Matches token (ca_TokenHash c))
                then (inl 401%Z, d)
                else (inr (MkAgentPrincipal (ca_IdentityID c) (ca_AgentID c) (ca_CredentialID c) "bearer" (ca_AuthorizedLabels c)
                             (ca_AuthorizedCapabilities c)),
                      if touch_due then (TouchAgentCredential (ca_CredentialID c) now d).2 else d)
            end
      end.

(** The route parameter must name the agent; a human passes. *)
Definition requireAgentPathIdentity (principal : option AgentPrincipal) (agentId : string) : bool :=
  match principal with Some p => (ap_AgentID p =? agentId)%string | None => true end.
End authentication.
