(* ===== verification/AgentIdsFacts.v ===== *)
(** * Facts on the identities and credentials of agents

    The steps of the store on its tables, what every step keeps of a row, and the
    well-formedness of every reachable database. *)

From S2P Require Import Prelude GoStrings AgentIds.
From stdpp Require Import options.

(** ** The steps *)

(** What the handlers ask to be inserted for an enrolled agent: an access and a
    refresh credential of a family drawn afresh. *)
Definition fresh_family (f : string) (d : agent_db) : Prop :=
  f ≠ "" ∧ ∀ k c, ad_credentials d !! k = Some c → cr_FamilyID c ≠ Some f.
Definition exchange_ok (issue : AgentCredentialIssue) (d : agent_db) : Prop :=
  ∃ f r, is_Refresh issue = Some r ∧ nc_Kind (is_Access issue) = access ∧ nc_Kind r = refresh
    ∧ nc_FamilyID (is_Access issue) = f ∧ nc_FamilyID r = f ∧ fresh_family f d.

Inductive store_step : agent_db → agent_db → Prop :=
| ss_none d : store_step d d
| ss_token d id t d' :
    CreateAgentEnrollmentToken id t d = Some d' → store_step d d'
| ss_revoke_token d id now : store_step d (RevokeAgentEnrollmentToken id now d)
| ss_consume d newid missed eid hash issue now :
    exchange_ok issue d → store_step d (ConsumeAgentEnrollment newid missed eid hash issue now d).2
| ss_external d newid missed issue :
    nc_Kind (is_Access issue) = access → nc_FamilyID (is_Access issue) = "" →
    store_step d (IssueExternalAgentAccess newid missed issue d).2
| ss_rotate d id hash now acc ref overlap :
    nc_Kind acc = access → nc_Kind ref = refresh → store_step d (RotateAgentRefresh id hash now acc ref overlap d).2
| ss_status d agentID enabled now : store_step d (SetAgentIdentityEnabled agentID enabled now d).2
| ss_revoke d agentID now : store_step d (RevokeAgentIdentityCredentials agentID now d)
| ss_touch d id now : store_step d (TouchAgentCredential id now d).2.

(** ** What a step keeps *)

(** Nothing of a credential but its revocation, its successor and its last use
    changes; a revocation and a succession stay. *)
Record same_credential (c c' : AgentCredential) : Prop := {
  sc_identity : cr_IdentityID c' = cr_IdentityID c;
  sc_kind : cr_Kind c' = cr_Kind c;
  sc_family : cr_FamilyID c' = cr_FamilyID c;
  sc_generation : cr_Generation c' = cr_Generation c;
  sc_hash : cr_TokenHash c' = cr_TokenHash c;
  sc_expires : cr_ExpiresAt c' = cr_ExpiresAt c;
  sc_revoked : is_Some (cr_RevokedAt c) → cr_RevokedAt c' = cr_RevokedAt c;
  sc_superseded : is_Some (cr_SupersededAt c) → cr_SupersededAt c' = cr_SupersededAt c ∧ cr_OverlapExpiresAt c' = cr_OverlapExpiresAt c
}.
Record same_token (t t' : AgentEnrollmentToken) : Prop := {
  st_agent : et_AgentID t' = et_AgentID t;
  st_hash : et_TokenHash t' = et_TokenHash t;
  st_labels : et_AuthorizedLabels t' = et_AuthorizedLabels t;
  st_expires : et_ExpiresAt t' = et_ExpiresAt t;
  st_used : is_Some (et_UsedAt t) → is_Some (et_UsedAt t');
  st_revoked : is_Some (et_RevokedAt t) → is_Some (et_RevokedAt t')
}.
Record same_identity (i i' : AgentIdentity) : Prop := {
  si_agent : ai_AgentID i' = ai_AgentID i;
  si_method : ai_EnrollmentMethod i' = ai_EnrollmentMethod i;
  si_subject : ai_ExternalSubject i' = ai_ExternalSubject i
}.

Definition extends {A} (R : A → A → Prop) (m m' : gmap string A) : Prop :=
  ∀ k x, m !! k = Some x → ∃ y, m' !! k = Some y ∧ R x y.
Record older (d d' : agent_db) : Prop := {
  ol_credentials : extends same_credential (ad_credentials d) (ad_credentials d');
  ol_tokens : extends same_token (ad_tokens d) (ad_tokens d');
  ol_identities : extends same_identity (ad_identities d) (ad_identities d')
}.

#[export] Instance same_credential_preorder : PreOrder same_credential.
Proof.
  split; [by split|]. intros a b c [] []. split; try congruence.
  - intros H. rewrite sc_revoked1; [by apply sc_revoked0|by rewrite sc_revoked0].
  - intros H. destruct (sc_superseded0 H) as [H1 H2]. rewrite <-H1 in H. destruct (sc_superseded1 H). split; congruence.
Qed.
#[export] Instance same_token_preorder : PreOrder same_token.
Proof. split; [by split|]. intros a b c [] []. split; try congruence; eauto. Qed.
#[export] Instance same_identity_preorder : PreOrder same_identity.
Proof. split; [by split|]. intros a b c [] []. split; congruence. Qed.

Section extends.
Context {A : Type} (R : A → A → Prop) `{!PreOrder R}.
#[export] Instance extends_preorder : PreOrder (extends R).
Proof using PreOrder0.
  split; [intros m k x Hk; by exists x|]. intros m1 m2 m3 H12 H23 k x Hk. destruct (H12 k x Hk) as (y & Hy & Hxy).
  destruct (H23 k y Hy) as (z & Hz & Hyz). exists z. split; [done|]. by etrans.
Qed.
Lemma extends_insert_new m k x : m !! k = None → extends R m (<[k := x]> m).
Proof using PreOrder0.
  intros Hk j y Hj. exists y. split; [|done]. rewrite lookup_insert_ne; [done|]. intros ->. congruence.
Qed.
Lemma extends_insert m k x y : m !! k = Some x → R x y → extends R m (<[k := y]> m).
Proof using PreOrder0.
  intros Hk Hxy j z Hj. destruct (decide (k = j)) as [->|].
  - exists y. rewrite lookup_insert_eq. split; [done|]. congruence.
  - exists z. by rewrite lookup_insert_ne.
Qed.
Lemma extends_alter m k f : (∀ x, m !! k = Some x → R x (f x)) → extends R m (alter f k m).
Proof using PreOrder0.
  intros Hf j z Hj. destruct (decide (k = j)) as [->|].
  - exists (f z). rewrite lookup_alter_eq, Hj. split; [done|by apply Hf].
  - exists z. by rewrite lookup_alter_ne.
Qed.
Lemma extends_fmap m f : (∀ x, R x (f x)) → extends R m (f <$> m).
Proof. intros Hf j z Hj. exists (f z). by rewrite lookup_fmap, Hj. Qed.
End extends.

#[export] Instance older_preorder : PreOrder older.
Proof. split; [intros d; by split|]. intros d1 d2 d3 [? ? ?] [? ? ?]. split; by etrans. Qed.

Create HintDb older.
#[export] Hint Resolve extends_insert_new : older.

Lemma revoke_same now c : same_credential c (revoke now c).
Proof. split; try done. intros [t Ht]. simpl. by rewrite Ht. Qed.
Lemma touch_same now c : same_credential c (touch now c).
Proof. by split. Qed.
Lemma replace_same id c : same_credential c (replace_by id c).
Proof. by split. Qed.
Lemma supersede_same now overlap id c : cr_SupersededAt c = None → same_credential c (supersede now overlap id c).
Proof. intros H. split; try done. rewrite H. by intros []. Qed.
Lemma with_labels_same l i : same_identity i (with_labels l i).
Proof. by split. Qed.
Lemma with_grants_same l c i : same_identity i (with_grants l c i).
Proof. by split. Qed.
Lemma with_status_same b now i : same_identity i (with_status b now i).
Proof. by split. Qed.

(** The look-ups of identities. *)
Lemma find_identity_Some p d k i : find_identity p d = Some (k, i) → ad_identities d !! k = Some i ∧ p i = true.
Proof.
  unfold find_identity. intros H. apply head_Some_elem_of in H. apply list_elem_of_filter in H as [Hp H].
  by apply elem_of_map_to_list in H.
Qed.
Lemma find_identity_None p d : find_identity p d = None → ∀ k i, ad_identities d !! k = Some i → p i = false.
Proof.
  unfold find_identity. intros H%head_None k i Hk. destruct (p i) eqn:E; [|done].
  assert ((k, i) ∈ filter (λ x, p x.2 = true) (map_to_list (ad_identities d))) as Hin.
  { apply list_elem_of_filter. split; [done|]. by apply elem_of_map_to_list. }
  rewrite H in Hin. by apply elem_of_nil in Hin.
Qed.
Lemma by_agent_id_true a i : by_agent_id a i = true ↔ ai_AgentID i = a.
Proof. unfold by_agent_id. by rewrite String.eqb_eq. Qed.
Lemma by_subject_true m s i : by_subject m s i = true ↔ ai_EnrollmentMethod i = m ∧ ai_ExternalSubject i = Some s.
Proof. unfold by_subject. by rewrite andb_true_iff, String.eqb_eq, bool_decide_eq_true. Qed.
Lemma agent_row a d k i :
  getAgentIdentityByAgentID a d = Some (k, i) → ad_identities d !! k = Some i ∧ ai_AgentID i = a.
Proof. intros [? ?%by_agent_id_true]%find_identity_Some. done. Qed.
Lemma subject_row m s d k i :
  getAgentIdentityByExternalSubject m s d = Some (k, i) →
  ad_identities d !! k = Some i ∧ ai_EnrollmentMethod i = m ∧ ai_ExternalSubject i = Some s.
Proof. intros [? [? ?]%by_subject_true]%find_identity_Some. done. Qed.

(** ** Each transaction, as one change *)

Lemma older_identities d m : extends same_identity (ad_identities d) m → older d (set_identities m d).
Proof. intros H. by split. Qed.
Lemma older_credentials d m : extends same_credential (ad_credentials d) m → older d (set_credentials m d).
Proof. intros H. by split. Qed.
Lemma older_tokens d m : extends same_token (ad_tokens d) m → older d (set_tokens m d).
Proof. intros H. by split. Qed.

(** The row [insertAgentCredential] inserts. *)
Definition new_row (id : string) (c : NewAgentCredential) : AgentCredential :=
  MkAgentCredential id (nc_Kind c) (if (nc_FamilyID c =? "")%string then None else Some (nc_FamilyID c))
    (nc_Generation c) (nc_TokenHash c) (nc_ExpiresAt c) None None None None None.

Lemma insert_credential_ok id c d d' :
  insertAgentCredential id c d = Some d' →
  d' = set_credentials (<[nc_ID c := new_row id c]> (ad_credentials d)) d
  ∧ ad_credentials d !! nc_ID c = None ∧ is_Some (ad_identities d !! id)
  ∧ (∀ k x, ad_credentials d !! k = Some x → cr_TokenHash x ≠ nc_TokenHash c).
Proof.
  unfold insertAgentCredential. destruct (_ || _) eqn:E; [done|]. intros [= <-].
  apply orb_false_iff in E as [E _]. apply orb_false_iff in E as [E _]. apply orb_false_iff in E as [E Hi].
  apply orb_false_iff in E as [Hk Hh]. apply bool_decide_eq_false in Hk, Hh, Hi. split_and!; [done| | |].
  - by apply eq_None_not_Some.
  - by apply not_eq_None_Some.
  - intros k x Hx He. apply Hh. exists k, x. done.
Qed.

Lemma insert_credential_older id c d d' : insertAgentCredential id c d = Some d' → older d d'.
Proof.
  intros (-> & Hn & _ & _)%insert_credential_ok. apply older_credentials. apply extends_insert_new; [apply _|done].
Qed.

Lemma insert_identity_ok id i d d' :
  insertAgentIdentity id i d = Some d' →
  d' = set_identities (<[id := i]> (ad_identities d)) d ∧ ad_identities d !! id = None
  ∧ (∀ k j, ad_identities d !! k = Some j → ai_AgentID j ≠ ai_AgentID i
       ∧ (is_Some (ai_ExternalSubject i) → ¬ (ai_EnrollmentMethod j = ai_EnrollmentMethod i ∧ ai_ExternalSubject j = ai_ExternalSubject i))).
Proof.
  unfold insertAgentIdentity. destruct (_ || _) eqn:E; [done|]. intros [= <-].
  apply orb_false_iff in E as [E Hs]. apply orb_false_iff in E as [Hk Ha]. apply bool_decide_eq_false in Hk, Ha.
  split_and!; [done|by apply eq_None_not_Some|]. intros k j Hj. rewrite <-eq_None_not_Some in Ha.
  pose proof (find_identity_None _ _ Ha k j Hj) as Hf. split.
  - intros He. by rewrite (proj2 (by_agent_id_true _ _) He) in Hf.
  - intros [s Es] [Em Ej]. unfold subject_taken in Hs. rewrite Es in Hs. apply bool_decide_eq_false in Hs.
    rewrite <-eq_None_not_Some in Hs. pose proof (find_identity_None _ _ Hs k j Hj) as Hg.
    rewrite (proj2 (by_subject_true _ _ _)) in Hg; [done|]. by rewrite Ej, Es.
Qed.

(** An identity to issue credentials for: one there was, with other grants, or a
    new one. *)
Inductive identity_for (d : agent_db) : string → AgentIdentity → agent_db → Prop :=
| if_old k i i' : ad_identities d !! k = Some i → same_identity i i' → ai_Status i' = ai_Status i → ai_Status i = active →
    identity_for d k i' (set_identities (<[k := i']> (ad_identities d)) d)
| if_new k i i' : ad_identities d !! k = None → ai_Status i' = active → same_identity i i' →
    (∀ j x, ad_identities d !! j = Some x → ai_AgentID x ≠ ai_AgentID i
       ∧ (is_Some (ai_ExternalSubject i) → ¬ (ai_EnrollmentMethod x = ai_EnrollmentMethod i ∧ ai_ExternalSubject x = ai_ExternalSubject i))) →
    identity_for d k i' (set_identities (<[k := i']> (ad_identities d)) d).

Lemma status_active i : bool_decide (ai_Status i = disabled) = false → ai_Status i = active.
Proof. intros H%bool_decide_eq_false. by destruct (ai_Status i). Qed.

Lemma enrolled_identity_for newid missed t issue d k i d' :
  enrolled_identity newid missed t issue d = inr (k, i, d') → identity_for d k i d' ∧ ai_AgentID i = et_AgentID t
  ∧ ai_EnrollmentMethod i = is_EnrollmentMethod issue ∧ ai_AuthorizedLabels i = et_AuthorizedLabels t.
Proof.
  unfold enrolled_identity. destruct (if missed then _ else _) as [[k0 i0]|] eqn:Ef.
  - assert (getAgentIdentityByAgentID (et_AgentID t) d = Some (k0, i0)) as [Hk Ha]%agent_row by (by destruct missed).
    destruct (bool_decide _) eqn:Ed; [done|]. destruct (_ || _) eqn:Em; [done|]. intros [= <- <- <-].
    apply orb_false_iff in Em as [Em _]. apply negb_false_iff, String.eqb_eq in Em. apply status_active in Ed.
    split; [|done]. by eapply if_old.
  - destruct (insertAgentIdentity newid _ d) as [d1|] eqn:Ei; [|done]. intros [= <- <- <-].
    apply insert_identity_ok in Ei as (-> & Hn & Hu). split; [|done]. by eapply if_new.
Qed.

Lemma identity_for_older d k i d' : identity_for d k i d' → older d d'.
Proof.
  intros []; apply older_identities; [eapply extends_insert; [apply _|eassumption|done]|apply extends_insert_new; [apply _|done]].
Qed.

(** The transactions, branch by branch: nothing changed, or this. *)
Lemma consume_cases newid missed eid hash issue now d :
  let '(r, d') := ConsumeAgentEnrollment newid missed eid hash issue now d in
  (∃ e, r = inl e ∧ d' = d)
  ∨ ∃ t k i d1 d2 d3, r = inr i ∧ ad_tokens d !! eid = Some t ∧ et_TokenHash t = hash ∧ et_UsedAt t = None ∧ et_RevokedAt t = None
      ∧ (now < et_ExpiresAt t)%Z ∧ enrolled_identity newid missed t issue d = inr (k, i, d1) ∧ identity_for d k i d1
      ∧ insertAgentCredential k (is_Access issue) d1 = Some d2
      ∧ match is_Refresh issue with Some r => insertAgentCredential k r d2 = Some d3 | None => d3 = d2 end
      ∧ d' = set_tokens (alter (with_used now) eid (ad_tokens d3)) d3.
Proof.
  destruct (ConsumeAgentEnrollment _ _ _ _ _ _ _) as [r d'] eqn:E. unfold ConsumeAgentEnrollment in E.
  destruct (ad_tokens d !! eid) as [t|] eqn:Et; [|injection E as <- <-; eauto].
  destruct (_ || _) eqn:Ec; [injection E as <- <-; eauto|].
  apply orb_false_iff in Ec as [Ec Hexp]. apply orb_false_iff in Ec as [Ec Hrev]. apply orb_false_iff in Ec as [Hh Hu].
  apply negb_false_iff, String.eqb_eq in Hh. apply negb_false_iff, Z.ltb_lt in Hexp. apply bool_decide_eq_false in Hrev, Hu.
  rewrite <-eq_None_not_Some in Hrev, Hu.
  destruct (enrolled_identity _ _ _ _ _) as [e|[[k i] d1]] eqn:Ei; [injection E as <- <-; eauto|].
  pose proof (enrolled_identity_for _ _ _ _ _ _ _ _ Ei) as (Hf & _).
  destruct (insertAgentCredential k (is_Access issue) d1) as [d2|] eqn:Ea; simpl in E; [|injection E as <- <-; eauto].
  destruct (is_Refresh issue) as [rf|] eqn:Er.
  - destruct (insertAgentCredential k rf d2) as [d3|] eqn:Eb; [|injection E as <- <-; eauto].
    injection E as <- <-. right. by exists t, k, i, d1, d2, d3.
  - injection E as <- <-. right. by exists t, k, i, d1, d2, d2.
Qed.

Lemma external_cases newid missed issue d :
  let '(r, d') := IssueExternalAgentAccess newid missed issue d in
  (∃ e, r = inl e ∧ d' = d)
  ∨ ∃ k i d1, r = inr i ∧ identity_for d k i d1 ∧ insertAgentCredential k (is_Access issue) d1 = Some d'
      ∧ ai_AgentID i = is_AgentID issue ∧ ai_EnrollmentMethod i = is_EnrollmentMethod issue
      ∧ ai_ExternalSubject i = Some (is_ExternalSubject issue)
      ∧ ai_AuthorizedLabels i = is_AuthorizedLabels issue.
Proof.
  destruct (IssueExternalAgentAccess _ _ _ _) as [r d'] eqn:E. unfold IssueExternalAgentAccess in E.
  destruct (_ =? "")%string; [injection E as <- <-; eauto|]. cbn zeta in E.
  match type of E with (match ?f with _ => _ end) = _ => set (found := f) in E end.
  destruct found as [[[k i] d1]|] eqn:Ef; [|injection E as <- <-; eauto].
  destruct (negb _) eqn:Ea; [injection E as <- <-; eauto|]. apply negb_false_iff, String.eqb_eq in Ea.
  destruct (bool_decide _) eqn:Ed; [injection E as <- <-; eauto|]. apply status_active in Ed.
  destruct (insertAgentCredential _ _ _) as [d2|] eqn:Ei; [|injection E as <- <-; eauto].
  injection E as <- <-. right. exists k, (with_grants (is_AuthorizedLabels issue) (is_AuthorizedCapabilities issue) i),
    (set_identities (<[k := with_grants (is_AuthorizedLabels issue) (is_AuthorizedCapabilities issue) i]> (ad_identities d1)) d1).
  assert (∀ kk ii, getAgentIdentityByExternalSubject (is_EnrollmentMethod issue) (is_ExternalSubject issue) d = Some (kk, ii) →
    (k, i, d1) = (kk, ii, d) →
    identity_for d k (with_grants (is_AuthorizedLabels issue) (is_AuthorizedCapabilities issue) i)
      (set_identities (<[k := with_grants (is_AuthorizedLabels issue) (is_AuthorizedCapabilities issue) i]> (ad_identities d1)) d1)
    ∧ ai_EnrollmentMethod i = is_EnrollmentMethod issue ∧ ai_ExternalSubject i = Some (is_ExternalSubject issue)) as Hold.
  { intros kk ii (Hk & Hm & Hs)%subject_row [= <- <- ->]. split; [|done]. by eapply if_old. }
  destruct (if missed then _ else _) as [[kk ii]|] eqn:Eg.
  - assert (getAgentIdentityByExternalSubject (is_EnrollmentMethod issue) (is_ExternalSubject issue) d = Some (kk, ii)) as Hg
      by (destruct missed; [discriminate Eg|exact Eg]).
    destruct (Hold kk ii Hg) as (H1 & H2 & H3); [unfold found in Ef; congruence|]. done.
  - unfold found, insertExternalAgentIdentity in Ef. case_bool_decide as Hk; [done|]. simpl in Ef.
    destruct (getAgentIdentityByExternalSubject _ _ d) as [[kk ii]|] eqn:Eh.
    + destruct (Hold kk ii eq_refl) as (H1 & H2 & H3); [congruence|]. done.
    + destruct (agent_id_taken _ _) eqn:Et; [done|]. injection Ef as <- <- <-. split_and!; [done| |done..].
      apply bool_decide_eq_false in Et. rewrite <-eq_None_not_Some in Et. simpl in Et. assert (ad_identities d !! newid = None) by (by apply eq_None_not_Some).
      unfold set_identities. simpl. rewrite insert_insert_eq.
      eapply (if_new d newid (MkAgentIdentity (is_AgentID issue) active (is_EnrollmentMethod issue) (Some (is_ExternalSubject issue))
                (is_AuthorizedLabels issue) (is_AuthorizedCapabilities issue) None)); [done..|by split|]. intros j x Hj. split.
      * intros He. pose proof (find_identity_None _ _ Et j x Hj) as Hf. apply by_agent_id_true in He. simpl in He. congruence.
      * intros _ [Em Es]. pose proof (find_identity_None _ _ Eh j x Hj) as Hf. simpl in Em, Es.
        by rewrite (proj2 (by_subject_true _ _ _) (conj Em Es)) in Hf.
Qed.

(** How a rotation marks the presented credential [c]. *)
Definition marked (c : AgentCredential) (now overlap : Z) (ref : string) : AgentCredential → AgentCredential :=
  match cr_SupersededAt c with None => supersede now overlap ref | Some _ => replace_by ref end.

Lemma rotate_to_ok k f id c lost now overlap acc ref d d' :
  rotate_to k f id c lost now overlap acc ref d = Some d' →
  let d0 := match lost with Some rid => set_credentials (alter (revoke now) rid (ad_credentials d)) d | None => d end in
  ∃ d1 d2, insertAgentCredential k (in_family f (cr_Generation c + 1) acc) d0 = Some d1
    ∧ insertAgentCredential k (in_family f (cr_Generation c + 1) ref) d1 = Some d2
    ∧ d' = set_credentials (alter (marked c now overlap (nc_ID ref)) id (ad_credentials d2)) d2.
Proof.
  unfold rotate_to. intros H. cbn zeta in *.
  destruct (insertAgentCredential k (in_family f _ acc) _) as [d1|] eqn:E1; simpl in H; [|done].
  destruct (insertAgentCredential k (in_family f _ ref) d1) as [d2|] eqn:E2; simpl in H; [|done].
  injection H as <-. by exists d1, d2.
Qed.

Lemma rotation_lost k f c now d rid :
  rotation_allowed k f c now d = Some (Some rid) →
  is_Some (cr_SupersededAt c) ∧ cr_ReplacedBy c = Some rid
  ∧ ∃ r, ad_credentials d !! rid = Some r ∧ replacementIsSafe k f (cr_Generation c) now r = true
  ∧ ∃ limit, cr_OverlapExpiresAt c = Some limit ∧ (now < limit)%Z.
Proof.
  unfold rotation_allowed. destruct (cr_SupersededAt c); [|done]. destruct (cr_OverlapExpiresAt c) as [limit|]; [|done].
  destruct (Z.ltb_spec now limit); [|done]. simpl. destruct (cr_ReplacedBy c) as [r0|]; [|done].
  destruct (ad_credentials d !! r0) as [r|] eqn:Er; [|done]. destruct (replacementIsSafe _ _ _ _ _) eqn:Es; [|done].
  intros [= ->]. split; [by eexists|]. split; [done|]. exists r. split_and!; [done..|]. by exists limit.
Qed.
Lemma rotation_first k f c now d : rotation_allowed k f c now d = Some None → cr_SupersededAt c = None.
Proof.
  unfold rotation_allowed. destruct (cr_SupersededAt c); [|done]. destruct (cr_OverlapExpiresAt c) as [limit|]; [|done].
  destruct (negb _); [done|]. destruct (cr_ReplacedBy c) as [r0|]; [|done].
  destruct (ad_credentials d !! r0) as [r|]; [|done]. by destruct (replacementIsSafe _ _ _ _ _).
Qed.

Lemma rotate_cases id hash now acc ref overlap d :
  let '(r, d') := RotateAgentRefresh id hash now acc ref overlap d in
  (∃ e, r = inl e ∧ e ≠ ErrAgentRefreshReplay ∧ d' = d)
  ∨ ∃ c i f, ad_credentials d !! id = Some c ∧ ad_identities d !! cr_IdentityID c = Some i ∧ ai_Status i = active
      ∧ cr_Kind c = refresh ∧ cr_RevokedAt c = None ∧ (now < cr_ExpiresAt c)%Z ∧ cr_TokenHash c = hash ∧ cr_FamilyID c = Some f
      ∧ ((rotation_allowed (cr_IdentityID c) f c now d = None ∧ r = inl ErrAgentRefreshReplay ∧ d' = revokeAgentRefreshFamily f now d)
         ∨ ∃ lost, rotation_allowed (cr_IdentityID c) f c now d = Some lost ∧ r = inr i
             ∧ rotate_to (cr_IdentityID c) f id c lost now overlap acc ref d = Some d').
Proof.
  destruct (RotateAgentRefresh _ _ _ _ _ _ _) as [r d'] eqn:E. unfold RotateAgentRefresh in E.
  destruct (ad_credentials d !! id) as [c|] eqn:Ec; [|injection E as <- <-; left; eauto].
  destruct (ad_identities d !! cr_IdentityID c) as [i|] eqn:Ei; [|injection E as <- <-; left; eauto].
  destruct (bool_decide (ai_Status i = disabled)) eqn:Ed; [injection E as <- <-; left; eauto|]. apply status_active in Ed.
  destruct (_ || _) eqn:Eg; [injection E as <- <-; left; eauto|].
  apply orb_false_iff in Eg as [Eg Hh]. apply orb_false_iff in Eg as [Eg Hx]. apply orb_false_iff in Eg as [Hk Hr].
  apply negb_false_iff, bool_decide_eq_true in Hk. apply bool_decide_eq_false in Hr. apply negb_false_iff, Z.ltb_lt in Hx.
  apply negb_false_iff, String.eqb_eq in Hh. rewrite <-eq_None_not_Some in Hr.
  destruct (cr_FamilyID c) as [f|] eqn:Ef; [|injection E as <- <-; left; eauto].
  destruct (rotation_allowed _ _ _ _ _) as [lost|] eqn:El.
  - destruct (rotate_to _ _ _ _ _ _ _ _ _ _) as [d2|] eqn:Et; [|injection E as <- <-; left; eauto].
    injection E as <- <-. right. exists c, i, f. split_and!; [done..|]. right. by exists lost.
  - injection E as <- <-. right. exists c, i, f. split_and!; [done..|]. by left.
Qed.

(** ** Every step keeps the rows *)

Lemma revoke_where_older p now d : older d (revoke_where p now d).
Proof.
  apply older_credentials, extends_fmap. intros c. destruct (p c); [apply revoke_same|done].
Qed.

(** The row of the presented credential after the insertions. *)
Lemma rotate_keeps k f id c lost now acc ref d d1 d2 :
  ad_credentials d !! id = Some c → rotation_allowed k f c now d = Some lost →
  insertAgentCredential k (in_family f (cr_Generation c + 1) acc)
    (match lost with Some rid => set_credentials (alter (revoke now) rid (ad_credentials d)) d | None => d end) = Some d1 →
  insertAgentCredential k (in_family f (cr_Generation c + 1) ref) d1 = Some d2 →
  nc_ID acc ≠ id ∧ nc_ID ref ≠ id ∧ nc_ID ref ≠ nc_ID acc
  ∧ ∃ m0, m0 = match lost with Some rid => alter (revoke now) rid (ad_credentials d) | None => ad_credentials d end
    ∧ m0 !! id = Some c ∧ m0 !! nc_ID acc = None ∧ m0 !! nc_ID ref = None ∧ extends same_credential (ad_credentials d) m0
    ∧ ad_credentials d2 = <[nc_ID ref := new_row k (in_family f (cr_Generation c + 1) ref)]>
                            (<[nc_ID acc := new_row k (in_family f (cr_Generation c + 1) acc)]> m0)
    ∧ ad_identities d2 = ad_identities d ∧ ad_tokens d2 = ad_tokens d
    ∧ (∀ x y, m0 !! x = Some y → cr_TokenHash y ≠ nc_TokenHash acc ∧ cr_TokenHash y ≠ nc_TokenHash ref)
    ∧ nc_TokenHash acc ≠ nc_TokenHash ref ∧ is_Some (ad_identities d !! k).
Proof.
  intros Hc Hl H1 H2. set (d0 := match lost with Some _ => _ | None => _ end) in H1.
  set (m0 := match lost with Some rid => alter (revoke now) rid (ad_credentials d) | None => ad_credentials d end).
  assert (ad_credentials d0 = m0 ∧ ad_identities d0 = ad_identities d ∧ ad_tokens d0 = ad_tokens d) as (Em & Ei & Et)
    by (unfold d0, m0; by destruct lost).
  apply insert_credential_ok in H1 as (-> & Ha & Hi & Hha). apply insert_credential_ok in H2 as (-> & Hr & _ & Hhr).
  cbn [ad_credentials set_credentials ad_identities ad_tokens] in *. rewrite Em in *. cbn [nc_ID in_family] in *. rewrite Ei, Et.
  apply lookup_insert_None in Hr as [Hr Hne].
  assert (m0 !! id = Some c) as Hid.
  { unfold m0. destruct lost as [rid|]; [|done]. rewrite lookup_alter_ne; [done|]. intros ->.
    apply rotation_lost in Hl as ([t Ht] & _ & r & Hrr & Hsafe & _). rewrite Hc in Hrr. injection Hrr as <-.
    unfold replacementIsSafe in Hsafe. rewrite Ht in Hsafe. simpl in Hsafe. by rewrite !andb_false_r in Hsafe. }
  split; [intros E; rewrite E in Ha; congruence|]. split; [intros E; rewrite E in Hr; congruence|]. split; [congruence|]. exists m0. split_and!; try done.
  - unfold m0. destruct lost; [|reflexivity]. apply extends_alter; [apply _|]. intros; apply revoke_same.
  - intros x y Hx. split; [by eapply Hha|]. apply (Hhr x). rewrite lookup_insert_ne; [done|]. intros E. rewrite E in Ha. congruence.
  - specialize (Hhr (nc_ID acc)). rewrite lookup_insert_eq in Hhr. by apply (Hhr _ eq_refl).
  - by rewrite <-Ei.
Qed.

Lemma rotate_to_older k f id c lost now overlap acc ref d d' :
  ad_credentials d !! id = Some c → rotation_allowed k f c now d = Some lost →
  rotate_to k f id c lost now overlap acc ref d = Some d' → older d d'.
Proof.
  intros Hc Hl (d1 & d2 & H1 & H2 & ->)%rotate_to_ok.
  destruct (rotate_keeps _ _ _ _ _ _ _ _ _ _ _ Hc Hl H1 H2) as (Ha & Hr & _ & m0 & _ & Hid & Hna & Hnr & He & Ed & Ei & Et & _).
  split; cbn; [|by rewrite Et|by rewrite Ei]. etrans; [exact He|]. rewrite Ed. etrans; [|etrans].
  - apply extends_insert_new; [apply _|exact Hna].
  - apply extends_insert_new; [apply _|]. rewrite lookup_insert_None. split; [exact Hnr|].
    intros E. apply insert_credential_ok in H2 as (_ & H2 & _). apply insert_credential_ok in H1 as (-> & _).
    cbn in H2. by rewrite E, lookup_insert_eq in H2.
  - apply extends_alter; [apply _|]. intros x Hx. rewrite !lookup_insert_ne in Hx by done. rewrite Hid in Hx. injection Hx as <-.
    unfold marked. destruct (cr_SupersededAt c) eqn:Es; [apply replace_same|by apply supersede_same].
Qed.

Lemma store_step_older d d' : store_step d d' → older d d'.
Proof.
  intros [d0|d0 id t d1 H|d0 id now|d0 newid missed eid hash issue now H|d0 newid missed issue _ _|d0 id hash now acc ref overlap _ _
         |d0 agentID enabled now|d0 agentID now|d0 id now].
  - done.
  - unfold CreateAgentEnrollmentToken in H. destruct (_ || _) eqn:E; [done|]. injection H as <-. apply older_tokens.
    apply extends_insert_new; [apply _|]. apply orb_false_iff in E as [E _]. apply orb_false_iff in E as [E _].
    apply bool_decide_eq_false in E. by apply eq_None_not_Some.
  - apply older_tokens, extends_alter; [apply _|]. intros t _. by split.
  - pose proof (consume_cases newid missed eid hash issue now d0) as Hc. destruct (ConsumeAgentEnrollment _ _ _ _ _ _ _) as [r d1].
    destruct Hc as [(e & _ & ->)|(t & k & i & d1' & d2 & d3 & _ & Ht & _ & Hu & _ & _ & _ & Hf & H2 & H3 & ->)]; [done|]. cbn [snd].
    etrans; [by eapply identity_for_older|]. etrans; [by eapply insert_credential_older|].
    trans d3; [destruct (is_Refresh issue); [by eapply insert_credential_older|by subst]|].
    apply older_tokens, extends_alter; [apply _|]. intros x _. by split.
  - pose proof (external_cases newid missed issue d0) as Hc. destruct (IssueExternalAgentAccess _ _ _ _) as [r d1].
    destruct Hc as [(e & _ & ->)|(k & i & d1' & _ & Hf & H2 & _)]; [done|]. cbn [snd].
    etrans; [by eapply identity_for_older|by eapply insert_credential_older].
  - pose proof (rotate_cases id hash now acc ref overlap d0) as Hc. destruct (RotateAgentRefresh _ _ _ _ _ _ _) as [r d1].
    destruct Hc as [(e & _ & _ & ->)|(c & i & f & Hc & _ & _ & _ & _ & _ & _ & _ & [(_ & _ & ->)|(lost & Hl & _ & Ht)])]; [done| |].
    + apply revoke_where_older.
    + by eapply rotate_to_older.
  - unfold SetAgentIdentityEnabled. destruct (getAgentIdentityByAgentID agentID d0) as [[k i]|] eqn:E; [|done].
    apply agent_row in E as [Hk _]. cbn [snd].
    assert (older d0 (set_identities (<[k := with_status enabled now i]> (ad_identities d0)) d0)) as Ho.
    { apply older_identities. eapply extends_insert; [apply _|exact Hk|apply with_status_same]. }
    destruct enabled; [done|]. etrans; [exact Ho|apply revoke_where_older].
  - unfold RevokeAgentIdentityCredentials. destruct (getAgentIdentityByAgentID agentID d0) as [[k i]|]; [|done].
    apply revoke_where_older.
  - unfold TouchAgentCredential. destruct (ad_credentials d0 !! id) as [c|] eqn:E; [|done]. cbn [snd].
    apply older_credentials. eapply extends_insert; [apply _|exact E|apply touch_same].
Qed.

Lemma steps_older d d' : rtc store_step d d' → older d d'.
Proof. induction 1 as [|x y z H _ IH]; [done|]. etrans; [by apply store_step_older|exact IH]. Qed.

(** ** Well-formed tables *)

(** The newest refresh credential of a family: neither revoked nor superseded. *)
Definition is_head (f : string) (c : AgentCredential) : Prop :=
  cr_Kind c = refresh ∧ cr_FamilyID c = Some f ∧ cr_RevokedAt c = None ∧ cr_SupersededAt c = None.
Definition one_head (m : gmap string AgentCredential) : Prop :=
  ∀ f k c k' c', m !! k = Some c → m !! k' = Some c' → is_head f c → is_head f c' → k = k'.

(** What a superseded credential names. *)
Definition linked (m : gmap string AgentCredential) (c : AgentCredential) : Prop :=
  cr_Kind c = refresh ∧ is_Some (cr_OverlapExpiresAt c)
  ∧ ∃ f rid r, cr_FamilyID c = Some f ∧ cr_ReplacedBy c = Some rid ∧ m !! rid = Some r ∧ cr_Kind r = refresh
      ∧ cr_FamilyID r = Some f ∧ cr_Generation r = (cr_Generation c + 1)%Z ∧ cr_IdentityID r = cr_IdentityID c.
Definition links (m : gmap string AgentCredential) : Prop :=
  ∀ k c, m !! k = Some c → is_Some (cr_SupersededAt c) → linked m c.

Record base_wf (d : agent_db) : Prop := {
  wf_identity : ∀ k c, ad_credentials d !! k = Some c →
    ∃ i, ad_identities d !! cr_IdentityID c = Some i ∧ (ai_Status i = disabled → is_Some (cr_RevokedAt c));
  wf_agent : ∀ k i k' i', ad_identities d !! k = Some i → ad_identities d !! k' = Some i' → ai_AgentID i = ai_AgentID i' → k = k';
  wf_subject : ∀ k i k' i', ad_identities d !! k = Some i → ad_identities d !! k' = Some i' → is_Some (ai_ExternalSubject i) →
    ai_EnrollmentMethod i = ai_EnrollmentMethod i' → ai_ExternalSubject i = ai_ExternalSubject i' → k = k';
  wf_family : ∀ f k c k' c', ad_credentials d !! k = Some c → ad_credentials d !! k' = Some c' →
    cr_FamilyID c = Some f → cr_FamilyID c' = Some f → cr_IdentityID c = cr_IdentityID c';
  wf_head : one_head (ad_credentials d);
  wf_named : ∀ k c, ad_credentials d !! k = Some c → cr_FamilyID c ≠ Some EmptyString;
  wf_hash : ∀ k c k' c', ad_credentials d !! k = Some c → ad_credentials d !! k' = Some c' → cr_TokenHash c = cr_TokenHash c' → k = k'
}.
Definition ids_wf (d : agent_db) : Prop := base_wf d ∧ links (ad_credentials d).

(** The rows of [m'] are those of [m], seen from [m']. *)
Definition covers (m m' : gmap string AgentCredential) : Prop :=
  ∀ k c', m' !! k = Some c' → ∃ c, m !! k = Some c ∧ same_credential c c'.

Lemma covers_fmap (p : AgentCredential → bool) now (m : gmap string AgentCredential) : covers m ((λ c, if p c then revoke now c else c) <$> m).
Proof.
  intros k c'. rewrite lookup_fmap. destruct (m !! k) as [c|]; [|done]. intros [= <-]. exists c. split; [done|].
  destruct (p c); [apply revoke_same|done].
Qed.
Lemma covers_alter f k (m : gmap string AgentCredential) : (∀ c, m !! k = Some c → same_credential c (f c)) → covers m (alter f k m).
Proof.
  intros Hf j c'. destruct (decide (k = j)) as [->|].
  - rewrite lookup_alter_eq. destruct (m !! j) as [c|]; [|done]. intros [= <-]. exists c. split; [done|by apply Hf].
  - rewrite lookup_alter_ne by done. intros H. by exists c'.
Qed.

Lemma head_back f c c' : same_credential c c' → is_head f c' → is_head f c.
Proof.
  intros [] (Hk & Hf & Hr & Hs). split_and!; [congruence|congruence|..]; apply eq_None_not_Some.
  - intros H. rewrite sc_revoked0 in Hr by done. rewrite Hr in H. by destruct H.
  - intros H. destruct (sc_superseded0 H) as [E _]. rewrite E in Hs. rewrite Hs in H. by destruct H.
Qed.

Lemma one_head_covers m m' : covers m m' → one_head m → one_head m'.
Proof.
  intros Hc Hh f k c k' c' Hk Hk' H H'. destruct (Hc k c Hk) as (x & Hx & Sx). destruct (Hc k' c' Hk') as (y & Hy & Sy).
  eapply (Hh f k x k' y); [done..| |]; by eapply head_back.
Qed.

Lemma one_head_insert m k row :
  m !! k = None → (∀ f, is_head f row → ∀ j c, m !! j = Some c → ¬ is_head f c) → one_head m → one_head (<[k := row]> m).
Proof.
  intros Hn Hf Hh f x c y c' Hx Hy H H'. rewrite lookup_insert in Hx, Hy. repeat case_decide; simplify_eq; [done|..].
  - exfalso. by eapply Hf.
  - exfalso. by eapply Hf.
  - by eapply Hh.
Qed.

(** Links are kept where a successor keeps its row, and a change of the link is
    accounted for. *)
Lemma links_extends m m' :
  extends same_credential m m' → links m →
  (∀ k c', m' !! k = Some c' → is_Some (cr_SupersededAt c') →
     linked m' c' ∨ ∃ c, m !! k = Some c ∧ same_credential c c' ∧ is_Some (cr_SupersededAt c) ∧ cr_ReplacedBy c' = cr_ReplacedBy c) →
  links m'.
Proof.
  intros He Hl Hk k c' Hc' Hs. destruct (Hk k c' Hc' Hs) as [?|(c & Hc & [] & Hsc & Er)]; [done|].
  destruct (Hl k c Hc Hsc) as (Kc & Oc & f & rid & r & Ef & Erid & Hr & Kr & Fr & Gr & Ir).
  destruct (He rid r Hr) as (r' & Hr' & []). destruct (sc_superseded0 Hsc) as [_ Eo]. split_and!; [congruence|by rewrite Eo|].
  exists f, rid, r'. split_and!; congruence.
Qed.

Lemma links_same m m' :
  extends same_credential m m' → covers m m' →
  (∀ k c c', m !! k = Some c → m' !! k = Some c' → cr_SupersededAt c' = cr_SupersededAt c ∧ cr_ReplacedBy c' = cr_ReplacedBy c) →
  links m → links m'.
Proof.
  intros He Hc Hs Hl. eapply links_extends; [done..|]. intros k c' Hk Hsup. right. destruct (Hc k c' Hk) as (c & Hkc & Sc).
  destruct (Hs k c c' Hkc Hk) as [E1 E2]. exists c. rewrite E1 in Hsup. done.
Qed.

Lemma links_insert m k row : m !! k = None → cr_SupersededAt row = None → links m → links (<[k := row]> m).
Proof.
  intros Hn Hr Hl. eapply links_extends; [apply extends_insert_new; [apply _|done]|done|]. intros j c' Hj Hs.
  rewrite lookup_insert in Hj. case_decide; simplify_eq; [rewrite Hr in Hs; by destruct Hs|]. right. by exists c'.
Qed.

(** ** Every step keeps the tables well formed *)

Lemma wf_tokens m d : ids_wf d → ids_wf (set_tokens m d).
Proof. intros [[] ?]. by split. Qed.

Lemma wf_identity_for d k i d' :
  identity_for d k i d' → base_wf d → base_wf d' ∧ ad_identities d' !! k = Some i ∧ ai_Status i = active ∧ ad_credentials d' = ad_credentials d.
Proof.
  intros Hf Hwf. assert (∃ j, same_identity j i ∧ ai_Status i = active ∧ d' = set_identities (<[k := i]> (ad_identities d)) d
    ∧ (ad_identities d !! k = Some j
       ∨ ad_identities d !! k = None ∧ ∀ x y, ad_identities d !! x = Some y → ai_AgentID y ≠ ai_AgentID j
          ∧ (is_Some (ai_ExternalSubject j) → ¬ (ai_EnrollmentMethod y = ai_EnrollmentMethod j ∧ ai_ExternalSubject y = ai_ExternalSubject j))))
    as (j & [Sa Sm Ss] & Hst & -> & Hk).
  { destruct Hf as [k j i Hk Hs Hst Ha|k j i Hk Hst Hs Hu]; exists j; split_and!; try done; [congruence|by left|by right]. }
  clear Hf. cbn. rewrite lookup_insert_eq. split_and!; [|done..]. destruct Hwf as [Wi Wa Ws Wf Wh Wn Wt]. split; cbn; try done.
  - intros x c Hc. destruct (Wi x c Hc) as (y & Hy & Hd). rewrite lookup_insert. case_decide as E; [|by exists y].
    exists i. split; [done|]. rewrite Hst. done.
  - intros x y x' y' Hx Hx' E. rewrite lookup_insert in Hx, Hx'. repeat case_decide; simplify_eq; [done|..].
    + destruct Hk as [Hk|[_ Hu]]; [eapply Wa; [done..|congruence]|]. destruct (Hu x y Hx) as [Hn _]. congruence.
    + destruct Hk as [Hk|[_ Hu]]; [eapply Wa; [done..|congruence]|]. destruct (Hu x' y' Hx') as [Hn _]. congruence.
    + by eapply Wa.
  - intros x y x' y' Hx Hx' Hsome Em Es. rewrite lookup_insert in Hx, Hx'. repeat case_decide; simplify_eq; [done|..].
    + destruct Hk as [Hk|[_ Hu]]; [eapply (Ws _ y _ j); [done..|congruence|congruence]|].
      destruct (Hu x y Hx) as [_ Hn]. exfalso. apply Hn; [rewrite <-Ss; congruence|]. split; congruence.
    + destruct Hk as [Hk|[_ Hu]]; [eapply (Ws _ j); [done..|congruence|congruence|congruence]|].
      destruct (Hu x' y' Hx') as [_ Hn]. exfalso. apply Hn; [by rewrite <-Ss|]. split; congruence.
    + by eapply Ws.
Qed.

Lemma base_insert key row d :
  base_wf d → ad_credentials d !! key = None → cr_FamilyID row ≠ Some EmptyString →
  (∃ i, ad_identities d !! cr_IdentityID row = Some i ∧ ai_Status i = active) →
  (∀ k x, ad_credentials d !! k = Some x → cr_TokenHash x ≠ cr_TokenHash row) →
  (∀ f j x, cr_FamilyID row = Some f → ad_credentials d !! j = Some x → cr_FamilyID x = Some f →
     cr_IdentityID x = cr_IdentityID row ∧ (cr_Kind row = refresh → ¬ is_head f x)) →
  base_wf (set_credentials (<[key := row]> (ad_credentials d)) d).
Proof.
  intros [Wi Wa Ws Wf Wh Wn Wt] Hn Hrow (i & Hi & Hact) Hh Hfam. split; cbn; try done.
  - intros j x Hx. rewrite lookup_insert in Hx. case_decide; [|by eapply Wi]. simplify_eq. exists i. split; [done|].
    rewrite Hact. done.
  - intros f j x j' x' Hx Hx' E E'. rewrite lookup_insert in Hx, Hx'. repeat case_decide; simplify_eq; [done|..].
    + by eapply Hfam.
    + symmetry. by eapply Hfam.
    + by eapply Wf.
  - apply one_head_insert; [done| |done]. intros f (Kr & Er & _ & _) j x Hj Hx. destruct (Hfam f j x Er Hj) as [_ Hnh].
    { by destruct Hx as (_ & ? & _). } by apply Hnh.
  - intros j x Hx. rewrite lookup_insert in Hx. case_decide; [by simplify_eq|by eapply Wn].
  - intros j x j' x' Hx Hx' E. rewrite lookup_insert in Hx, Hx'. repeat case_decide; simplify_eq; [done|..].
    + by destruct (Hh _ _ Hx).
    + by destruct (Hh _ _ Hx').
    + by eapply Wt.
Qed.

Lemma new_row_named k c : cr_FamilyID (new_row k c) ≠ Some EmptyString.
Proof. cbn. destruct (String.eqb_spec (nc_FamilyID c) ""); congruence. Qed.

Lemma wf_insert_credential k c d d' :
  ids_wf d → insertAgentCredential k c d = Some d' → (∀ i, ad_identities d !! k = Some i → ai_Status i = active) →
  (∀ f j x, cr_FamilyID (new_row k c) = Some f → ad_credentials d !! j = Some x → cr_FamilyID x = Some f →
     cr_IdentityID x = k ∧ (nc_Kind c = refresh → ¬ is_head f x)) →
  ids_wf d'.
Proof.
  intros [Hb Hl] (-> & Hn & [i Hi] & Hh)%insert_credential_ok Hact Hfam.
  split; [|by apply links_insert]. apply base_insert; eauto. apply new_row_named.
Qed.

Lemma base_credentials d m : base_wf d → covers (ad_credentials d) m → base_wf (set_credentials m d).
Proof.
  intros [Wi Wa Ws Wf Wh Wn Wt] Hc. split; cbn; try done.
  - intros k c' Hk. destruct (Hc k c' Hk) as (c & Hkc & []). destruct (Wi k c Hkc) as (i & Hi & Hd). exists i.
    rewrite sc_identity0. split; [done|]. intros H%Hd. by rewrite sc_revoked0.
  - intros f k c' j x' Hk Hj E E'. destruct (Hc k c' Hk) as (c & Hkc & []), (Hc j x' Hj) as (x & Hjx & []).
    rewrite sc_identity0, sc_identity1. eapply (Wf f); [done..|congruence|congruence].
  - by eapply one_head_covers.
  - intros k c' Hk. destruct (Hc k c' Hk) as (c & Hkc & []). rewrite sc_family0. by eapply Wn.
  - intros k c' j x' Hk Hj E. destruct (Hc k c' Hk) as (c & Hkc & []), (Hc j x' Hj) as (x & Hjx & []).
    eapply Wt; [done..|congruence].
Qed.

Lemma wf_credentials d m :
  ids_wf d → covers (ad_credentials d) m → extends same_credential (ad_credentials d) m →
  (∀ k c c', ad_credentials d !! k = Some c → m !! k = Some c' → cr_SupersededAt c' = cr_SupersededAt c ∧ cr_ReplacedBy c' = cr_ReplacedBy c) →
  ids_wf (set_credentials m d).
Proof. intros [Hb Hl] Hc He Hs. split; [by apply base_credentials|]. by eapply links_same. Qed.

Lemma revoke_where_rows p now d k c c' :
  ad_credentials d !! k = Some c → ad_credentials (revoke_where p now d) !! k = Some c' → c' = if p c then revoke now c else c.
Proof. unfold revoke_where. cbn. rewrite lookup_fmap. intros -> [= <-]. done. Qed.

Lemma wf_revoke_where p now d : ids_wf d → ids_wf (revoke_where p now d).
Proof.
  intros Hwf. apply wf_credentials; [done|apply covers_fmap|apply (revoke_where_older p now d)|].
  intros k c c' Hc Hc'. rewrite lookup_fmap, Hc in Hc'. injection Hc' as <-. by destruct (p c).
Qed.

Lemma wf_touch id now c d : ad_credentials d !! id = Some c → ids_wf d → ids_wf (set_credentials (<[id := touch now c]> (ad_credentials d)) d).
Proof.
  intros Hc Hwf. assert (<[id := touch now c]> (ad_credentials d) = alter (touch now) id (ad_credentials d)) as ->.
  { by apply map_eq; intros k; rewrite lookup_insert, lookup_alter; case_decide; subst; rewrite ?Hc. }
  apply wf_credentials; [done|by apply covers_alter; intros; apply touch_same|apply extends_alter; [apply _|intros; apply touch_same]|].
  intros k x x' Hx Hx'. rewrite lookup_alter, Hx in Hx'. case_decide; subst; rewrite ?Hx in Hx'; by simplify_eq/=.
Qed.

Lemma wf_status agentID enabled now d : ids_wf d → ids_wf (SetAgentIdentityEnabled agentID enabled now d).2.
Proof.
  intros Hwf. unfold SetAgentIdentityEnabled. destruct (getAgentIdentityByAgentID agentID d) as [[k i]|] eqn:E; [|done].
  apply agent_row in E as [Hk _]. cbn [snd]. pose proof Hwf as [[Wi Wa Ws Wf Wh Wn Wt] Wl].
  assert (∀ m, (∀ j c, m !! j = Some c → ∃ x, <[k := with_status enabled now i]> (ad_identities d) !! cr_IdentityID c = Some x
       ∧ (ai_Status x = disabled → is_Some (cr_RevokedAt c))) →
    ids_wf (set_credentials m d) → ids_wf (set_credentials m (set_identities (<[k := with_status enabled now i]> (ad_identities d)) d))) as Hm.
  { intros m Hi [[_ _ _ Wf' Wh' Wn' Wt'] Wl']. split; [|done]. split; cbn in *; try done.
    - intros x y x' y' Hx Hx' Ea. rewrite lookup_insert in Hx, Hx'. repeat case_decide; simplify_eq; [done|..]; by eapply Wa.
    - intros x y x' y' Hx Hx' Hs Em Es. rewrite lookup_insert in Hx, Hx'. repeat case_decide; simplify_eq; [done|..]; by eapply Ws. }
  destruct enabled.
  - assert (set_identities (<[k := with_status true now i]> (ad_identities d)) d
      = set_credentials (ad_credentials d) (set_identities (<[k := with_status true now i]> (ad_identities d)) d)) as -> by done.
    apply Hm; [|by destruct d]. intros j c Hc. destruct (Wi j c Hc) as (x & Hx & Hd). rewrite lookup_insert. case_decide; [|by exists x].
    by eexists.
  - unfold revoke_where. apply Hm; [|apply (wf_revoke_where (of_identity k) now d Hwf)]. intros j c'. cbn. rewrite lookup_fmap.
    destruct (ad_credentials d !! j) as [c|] eqn:Hc; [|done]. intros [= <-]. destruct (Wi j c Hc) as (x & Hx & Hd).
    rewrite lookup_insert. unfold of_identity. destruct (String.eqb_spec (cr_IdentityID c) k) as [E|E].
    + exists (with_status false now i). cbn. rewrite decide_True by done. split; [done|]. by eexists.
    + exists x. rewrite decide_False by done. done.
Qed.

(** The tables of a rotation before the new credentials are inserted: the lost
    replacement revoked, the presented credential marked.  Its family then has no
    newest credential. *)
Section rotation.
Variables (k f id : string) (c : AgentCredential) (lost : option string) (now overlap : Z) (ref : string) (d : agent_db).
Variables (m0 : gmap string AgentCredential).
Hypotheses (Hwf : ids_wf d) (Hc : ad_credentials d !! id = Some c) (Hid : m0 !! id = Some c).
Hypotheses (Kc : cr_Kind c = refresh) (Rc : cr_RevokedAt c = None) (Fc : cr_FamilyID c = Some f).
Hypothesis Hl : rotation_allowed k f c now d = Some lost.
Hypothesis Em0 : m0 = match lost with Some rid => alter (revoke now) rid (ad_credentials d) | None => ad_credentials d end.
Let m1 : gmap string AgentCredential := alter (marked c now overlap ref) id m0.

Lemma marked_same : same_credential c (marked c now overlap ref c).
Proof using. unfold marked. destruct (cr_SupersededAt c) eqn:E; [apply replace_same|by apply supersede_same]. Qed.
Lemma marked_superseded : is_Some (cr_SupersededAt (marked c now overlap ref c)).
Proof using. unfold marked. destruct (cr_SupersededAt c) eqn:E; cbn; [rewrite E|]; by eexists. Qed.

(** Every row of [m1], with where it comes from. *)
Lemma rotation_row z w :
  m1 !! z = Some w →
  z = id ∧ w = marked c now overlap ref c
  ∨ z ≠ id ∧ m0 !! z = Some w ∧ ∃ v, ad_credentials d !! z = Some v ∧ (w = v ∨ lost = Some z ∧ w = revoke now v).
Proof using Hid Em0. clear Hl.
  unfold m1. rewrite lookup_alter. case_decide as E; [subst z; rewrite Hid; intros [= <-]; by left|].
  intros Hz. right. split_and!; [done..|]. subst m0. destruct lost as [rid|]; [|exists w; auto].
  rewrite lookup_alter in Hz. case_decide; [|exists w; auto]. subst z. destruct (ad_credentials d !! rid) as [v|]; [|done].
  injection Hz as <-. exists v. auto.
Qed.

Lemma rotation_covers : covers (ad_credentials d) m1.
Proof using Hc Hid Em0.
  intros z w Hz. destruct (rotation_row z w Hz) as [[-> ->]|(_ & _ & v & Hv & [->|[_ ->]])].
  - exists c. split; [done|apply marked_same].
  - by exists v.
  - exists v. split; [done|apply revoke_same].
Qed.

Lemma rotation_no_head x y : m1 !! x = Some y → ¬ is_head f y.
Proof using Hwf Hc Hid Kc Rc Fc Hl Em0.
  intros Hx Hy. destruct Hwf as [[_ _ _ _ Hh _ _] _].
  destruct (rotation_row x y Hx) as [[-> ->]|(Hne & _ & v & Hv & [->|[-> ->]])].
  - destruct marked_superseded as [t Ht]. destruct Hy as (_ & _ & _ & Hs). congruence.
  - destruct lost as [rid|] eqn:El.
    + apply rotation_lost in Hl as (_ & _ & r & Hrr & Hsafe & _). unfold replacementIsSafe in Hsafe.
      rewrite !andb_true_iff in Hsafe. destruct Hsafe as [[[[[[[_ K] F] _] R] S] _] _].
      apply bool_decide_eq_true in K, F, R, S. assert (rid = x) as -> by (by eapply (Hh f rid r x v)).
      assert (m0 !! x = Some (revoke now v)) as E by (by rewrite Em0, lookup_alter_eq, Hv).
      unfold m1 in Hx. rewrite lookup_alter_ne, E in Hx by done. destruct Hy as (_ & _ & Ry & _). injection Hx as Hx. by rewrite <-Hx in Ry.
    + apply Hne. eapply (Hh f x v id c); [done..|]. split_and!; [done..|]. by eapply rotation_first.
  - destruct Hy as (_ & _ & Hr & _). done.
Qed.
End rotation.

Lemma wf_rotate k f id c i lost now overlap acc ref d d' :
  ids_wf d → ad_credentials d !! id = Some c → cr_IdentityID c = k → ad_identities d !! k = Some i → ai_Status i = active →
  cr_Kind c = refresh → cr_RevokedAt c = None → cr_FamilyID c = Some f → nc_Kind acc = access → nc_Kind ref = refresh →
  rotation_allowed k f c now d = Some lost → rotate_to k f id c lost now overlap acc ref d = Some d' → ids_wf d'.
Proof.
  intros Hwf Hc Hk Hi Hact Kc Rc Fc Ka Kr Hl Hto.
  pose proof (rotate_to_older _ _ _ _ _ _ _ _ _ _ _ Hc Hl Hto) as Hold.
  apply rotate_to_ok in Hto as (d1 & d2 & H1 & H2 & ->).
  destruct (rotate_keeps _ _ _ _ _ _ _ _ _ _ _ Hc Hl H1 H2)
    as (Ha & Hr & Har & m0 & Em0 & Hid & Hna & Hnr & _ & Ed & Ei & Et & Hhash & Hhne & _).
  pose proof Hwf as [Hb Hlinks]. set (g := (cr_Generation c + 1)%Z) in *. set (m1 := alter (marked c now overlap (nc_ID ref)) id m0).
  assert (String.eqb f "" = false) as Hfb by (apply String.eqb_neq; intros ->; by eapply (wf_named _ Hb id c)).
  assert (set_credentials (alter (marked c now overlap (nc_ID ref)) id (ad_credentials d2)) d2
    = set_tokens (ad_tokens d) (set_credentials (<[nc_ID ref := new_row k (in_family f g ref)]>
        (<[nc_ID acc := new_row k (in_family f g acc)]> m1)) d)) as Eq.
  { unfold set_credentials, set_tokens. cbn. rewrite Ed, Ei, Et. f_equal. by rewrite !alter_insert_ne by congruence. }
  rewrite Eq in Hold |- *. apply wf_tokens. pose proof (rotation_covers id c lost now overlap (nc_ID ref) d m0 Hc Hid Em0) as Hcov.
  fold m1 in Hcov. pose proof (rotation_no_head k f id c lost now overlap (nc_ID ref) d m0 Hwf Hc Hid Kc Rc Fc Hl Em0) as Hnh. fold m1 in Hnh.
  assert (∀ z w, m1 !! z = Some w → (cr_FamilyID w = Some f → cr_IdentityID w = k)
      ∧ cr_TokenHash w ≠ nc_TokenHash acc ∧ cr_TokenHash w ≠ nc_TokenHash ref) as Hrow.
  { intros z w Hz. assert (∃ u, m0 !! z = Some u ∧ cr_TokenHash w = cr_TokenHash u) as (u & Hu & ->).
    { unfold m1 in Hz. rewrite lookup_alter in Hz. case_decide; [|by exists w]. subst z. rewrite Hid in Hz. injection Hz as <-.
      exists c. split; [done|]. apply marked_same. }
    split; [|by eapply Hhash]. destruct (Hcov z w Hz) as (v & Hv & []). intros Hf. rewrite sc_identity0, <-Hk.
    eapply (wf_family _ Hb f z v id c); congruence. }
  assert (m1 !! nc_ID acc = None) as Hna' by (unfold m1; by rewrite lookup_alter_ne).
  assert (base_wf (set_credentials (<[nc_ID acc := new_row k (in_family f g acc)]> m1) d)) as Hb1.
  { apply (base_insert (nc_ID acc) _ (set_credentials m1 d)); [by apply base_credentials|done|apply (new_row_named k (in_family f g acc))|by exists i|by intros; eapply Hrow|].
    cbn. rewrite Hfb. intros f' j x [= <-] Hj Hf. split; [by eapply Hrow|]. rewrite Ka. done. }
  set (da := set_credentials (<[nc_ID acc := new_row k (in_family f g acc)]> m1) d) in Hb1.
  assert (base_wf (set_credentials (<[nc_ID ref := new_row k (in_family f g ref)]> (ad_credentials da)) da)) as Hb2.
  { apply base_insert; [done| |apply (new_row_named k (in_family f g ref))|by exists i| |]; cbn.
    - rewrite lookup_insert_ne by congruence. unfold m1. by rewrite lookup_alter_ne.
    - intros j x Hj. rewrite lookup_insert in Hj. case_decide; [by simplify_eq|]. by eapply Hrow.
    - rewrite Hfb. intros f' j x [= <-] Hj Hf. rewrite lookup_insert in Hj. case_decide.
      + simplify_eq. split; [done|]. intros _ (Hx & _). cbn in Hx. congruence.
      + split; [by eapply Hrow|]. intros _. by eapply Hnh. }
  split; [exact Hb2|].
  eapply links_extends; [apply (ol_credentials _ _ Hold)|done|]. cbn. intros z w Hz Hs.
    rewrite lookup_insert in Hz. case_decide; [simplify_eq; by destruct Hs|].
    rewrite lookup_insert in Hz. case_decide; [simplify_eq; by destruct Hs|].
    destruct (rotation_row id c lost now overlap (nc_ID ref) d m0 Hid Em0 z w Hz) as [[-> ->]|(Hne & _ & v & Hv & [->|[_ ->]])].
    + left. assert (is_Some (cr_OverlapExpiresAt (marked c now overlap (nc_ID ref) c)) ∧ cr_ReplacedBy (marked c now overlap (nc_ID ref) c) = Some (nc_ID ref))
        as [Ho Erb].
      { unfold marked. destruct (cr_SupersededAt c) eqn:Es; cbn; [|by split; [eexists|]]. split; [|done].
        destruct (Hlinks id c Hc) as (_ & Ho & _); [by rewrite Es|done]. }
      pose proof (marked_same c now overlap (nc_ID ref)) as []. split_and!; [congruence|done|].
      exists f, (nc_ID ref), (new_row k (in_family f g ref)). rewrite lookup_insert_eq, Erb. cbn. rewrite Hfb.
      split_and!; [congruence|done..|unfold g; congruence|congruence].
    + right. by exists v.
    + right. exists v. split_and!; [done|apply revoke_same|done|done].
Qed.

(** ** Reachable databases *)

Lemma wf_empty : ids_wf (MkAgentDb ∅ ∅ ∅).
Proof. split; [split|]; cbn; try done; intros ?; intros; by rewrite lookup_empty in *. Qed.


Lemma store_step_wf d d' : store_step d d' → ids_wf d → ids_wf d'.
Proof.
  intros Hs Hwf. destruct Hs as
    [d|d id t d1 H|d id now|d newid missed eid hash issue now H|d newid missed issue Ka Kf|d id hash now acc ref overlap Ka Kr
    |d agentID enabled now|d agentID now|d id now].
  - done.
  - unfold CreateAgentEnrollmentToken in H. destruct (_ || _); [done|]. injection H as <-. by apply wf_tokens.
  - by apply wf_tokens.
  - pose proof (consume_cases newid missed eid hash issue now d) as Hc. destruct (ConsumeAgentEnrollment _ _ _ _ _ _ _) as [r d1].
    destruct Hc as [(e & _ & ->)|(t & k & i & d1' & d2 & d3 & _ & _ & _ & _ & _ & _ & _ & Hf & H2 & H3 & ->)]; [done|]. cbn [snd].
    apply wf_tokens. destruct H as (f & rf & Er & Ka & Kr & Fa & Fr & Hne & Hfresh). rewrite Er in H3. destruct Hwf as [Hb Hl].
    destruct (wf_identity_for _ _ _ _ Hf Hb) as (Hb1 & Hi & Hact & Ec).
    assert (ids_wf d1') as Hw1 by (split; [done|by rewrite Ec]).
    assert (ids_wf d2) as Hw2.
    { eapply wf_insert_credential; [exact Hw1|exact H2|by intros ? E; rewrite Hi in E; simplify_eq|].
      rewrite Ec. cbn. rewrite Fa. intros f' j x Ef Hx Hxf. exfalso. destruct (_ =? _)%string; [done|]. simplify_eq. by eapply Hfresh. }
    apply insert_credential_ok in H2 as (-> & _ & _ & _).
    eapply wf_insert_credential; [exact Hw2|exact H3|by intros ? E; cbn in E; rewrite Hi in E; simplify_eq|].
    cbn. rewrite Fr, Ec. intros f' j x Ef Hx Hxf. rewrite lookup_insert in Hx. destruct (_ =? _)%string; [done|]. simplify_eq.
    case_decide; [|exfalso; by eapply Hfresh]. simplify_eq. split; [done|]. intros _ (K & _). cbn in K. congruence.
  - pose proof (external_cases newid missed issue d) as Hc. destruct (IssueExternalAgentAccess _ _ _ _) as [r d1].
    destruct Hc as [(e & _ & ->)|(k & i & d1' & _ & Hf & H2 & _)]; [done|]. cbn [snd]. destruct Hwf as [Hb Hl].
    destruct (wf_identity_for _ _ _ _ Hf Hb) as (Hb1 & Hi & Hact & Ec).
    eapply wf_insert_credential; [split; [exact Hb1|by rewrite Ec]|exact H2|by intros ? E; rewrite Hi in E; simplify_eq|].
    cbn. rewrite Kf. done.
  - pose proof (rotate_cases id hash now acc ref overlap d) as Hc. destruct (RotateAgentRefresh _ _ _ _ _ _ _) as [r d1].
    destruct Hc as [(e & _ & _ & ->)|(c & i & f & Hc & Hi & Ha & Kc & Rc & _ & _ & Fc & [(_ & _ & ->)|(lost & Hl & _ & Ht)])]; [done| |].
    + by apply wf_revoke_where.
    + by eapply wf_rotate.
  - by apply wf_status.
  - unfold RevokeAgentIdentityCredentials. destruct (getAgentIdentityByAgentID agentID d) as [[k i]|]; [|done].
    by apply wf_revoke_where.
  - unfold TouchAgentCredential. destruct (ad_credentials d !! id) as [c|] eqn:E; [|done]. by apply wf_touch.
Qed.

(** The databases the steps lead to from an empty one. *)
Definition ids_reachable (d : agent_db) : Prop := rtc store_step (MkAgentDb ∅ ∅ ∅) d.
Lemma reachable_wf d : ids_reachable d → ids_wf d.
Proof.
  unfold ids_reachable. generalize wf_empty. generalize (MkAgentDb ∅ ∅ ∅). intros d0 H0 Hr.
  induction Hr as [|x y z Hs _ IH]; [done|]. apply IH. by eapply store_step_wf.
Qed.
