(* ===== verification/AgentEnrollFacts.v ===== *)
(** * What enrollment and authentication of agents promise

    The handlers of [AgentEnroll] as the steps of a system, and the theorems over
    every sequence of them. *)

From S2P Require Import Prelude GoStrings Authz AuthzServer AuthzTokens AgentIds AgentPolicies AgentProof AgentEnroll AgentIdsFacts.
From stdpp Require Import options.

Section system.
Variables (uuid_ok : string → bool) (Hash : string → string) (ParseDuration : string → res Z).

(** ** The steps *)

Abbreviation enroll_step E := (handleAgentEnroll uuid_ok Hash E).
Inductive agent_step : agent_db → agent_db → Prop :=
| as_create d ok caller uuid drawn now body :
    agent_step d (handleCreateAgentEnrollment Hash ParseDuration ok caller uuid drawn now body d).2
| as_revoke_token d ok id now : agent_step d (handleRevokeAgentEnrollment ok id now d).2
| as_enroll d E read kubernetes clouds header req :
    fresh_family (ee_family E) d → agent_step d (enroll_step E read kubernetes clouds header req d).2
| as_refresh d E header : agent_step d (handleAgentRefresh uuid_ok Hash E header d).2
| as_enable d ok agentID now : agent_step d (handleEnableAgentIdentity ok agentID now d).2
| as_disable d ok agentID now : agent_step d (handleDisableAgentIdentity ok agentID now d).2
| as_revoke d ok_get ok agentID now : agent_step d (handleRevokeAgentCredentials ok_get ok agentID now d).2
| as_auth d store read_ok due now header : agent_step d (agentAuth uuid_ok Hash store read_ok due now header d).2.

(** Each handler makes at most one transaction. *)
Lemma issue_external_step E provider agentID req p d : store_step d (issue_external Hash E provider agentID req p d).2.
Proof using.
  unfold issue_external. destruct (authorizedEnrollmentLabels req p); [|apply ss_none]. destruct (ee_access E) as [[id secret]|]; [|apply ss_none].
  unfold db_call. destruct (ee_db_ok E); [|apply ss_none].
  match goal with |- context [IssueExternalAgentAccess ?n ?m ?j d] =>
    pose proof (ss_external d n m j eq_refl eq_refl) as H; destruct (IssueExternalAgentAccess n m j d) as [[e|i'] d'] end; exact H.
Qed.

Lemma token_enroll_step E header d : fresh_family (ee_family E) d → store_step d (handleTokenEnroll uuid_ok Hash E header d).2.
Proof using.
  intros Hf. unfold handleTokenEnroll. repeat (case_match; try apply ss_none). all: unfold db_call in *; destruct (ee_db_ok E); simplify_eq; try apply ss_none.
  all: match goal with H : ConsumeAgentEnrollment ?n ?m ?j ?h ?u ?t ?x = _ |- _ =>
    assert (store_step x (ConsumeAgentEnrollment n m j h u t x).2) as Hs; [|rewrite H in Hs; exact Hs] end.
  all: apply ss_consume; eexists _, _; split_and!; [reflexivity..|exact Hf].
Qed.

Lemma refresh_step E header d : store_step d (handleAgentRefresh uuid_ok Hash E header d).2.
Proof using.
  unfold handleAgentRefresh. repeat (case_match; try apply ss_none). all: unfold db_call in *; destruct (ee_db_ok E); simplify_eq; try apply ss_none.
  all: match goal with H : RotateAgentRefresh ?j ?h ?t ?a ?r ?o ?x = _ |- _ =>
    assert (store_step x (RotateAgentRefresh j h t a r o x).2) as Hs; [|rewrite H in Hs; exact Hs] end.
  all: by apply ss_rotate.
Qed.

Lemma set_enabled_step ok enabled agentID now d : store_step d (setAgentIdentityEnabled ok enabled agentID now d).2.
Proof using.
  unfold setAgentIdentityEnabled. destruct ok; [|apply ss_none]. pose proof (ss_status d agentID enabled now) as H. simpl.
  destruct (SetAgentIdentityEnabled agentID enabled now d) as [[[]|] d']; exact H.
Qed.

Lemma auth_step store read_ok due now header d : store_step d (agentAuth uuid_ok Hash store read_ok due now header d).2.
Proof using.
  unfold agentAuth. repeat (case_match; try apply ss_none). all: apply ss_touch.
Qed.

Lemma agent_step_store d d' : agent_step d d' → store_step d d'.
Proof using.
  intros [d0 ok caller uuid drawn now body|d0 ok id now|d0 E read kubernetes clouds header req Hf|d0 E header|d0 ok agentID now
         |d0 ok agentID now|d0 ok_get ok agentID now|d0 store read_ok due now header].
  - unfold handleCreateAgentEnrollment. repeat (case_match; try apply ss_none). all: try discriminate; simpl; by eapply ss_token.
  - unfold handleRevokeAgentEnrollment. destruct ok; [apply ss_revoke_token|apply ss_none].
  - unfold handleAgentEnroll. destruct req as [req|]; [|apply ss_none].
    destruct (er_Provider req =? "kubernetes")%string; [|destruct (existsb _ _)].
    + unfold handleKubernetesAgentEnroll. repeat (case_match; try apply ss_none); apply issue_external_step.
    + unfold handleCloudAgentEnroll. repeat (case_match; try apply ss_none); apply issue_external_step.
    + destruct (er_Provider req =? "")%string; [by apply token_enroll_step|apply ss_none].
  - apply refresh_step.
  - apply set_enabled_step.
  - apply set_enabled_step.
  - unfold handleRevokeAgentCredentials. repeat (case_match; try apply ss_none). apply ss_revoke.
  - apply auth_step.
Qed.

Lemma agent_steps_store d d' : rtc agent_step d d' → rtc store_step d d'.
Proof using. induction 1; [done|]. eapply rtc_l; [by apply agent_step_store|done]. Qed.
Lemma agent_steps_older d d' : rtc agent_step d d' → older d d'.
Proof using. intros H%agent_steps_store. by apply steps_older. Qed.

Definition no_agents : agent_db := MkAgentDb ∅ ∅ ∅.
Definition agents_reachable (d : agent_db) : Prop := rtc agent_step no_agents d.
Lemma agents_wf d : agents_reachable d → ids_wf d.
Proof using. intros H%agent_steps_store. by apply reachable_wf. Qed.
End system.

(** ** Presented tokens *)

(** The token of a header and the identifier in it. *)
Definition presented (uuid_ok : string → bool) (kind : TokenKind) (header : string) : option (string * string) :=
  match bearerToken header with
  | Some token => match Parse uuid_ok token kind with Ok p => Some (token, pt_ID p) | Err _ => None end
  | None => None
  end.

Section granted.
Variables (uuid_ok : string → bool) (Hash : string → string).

(** What a successful exchange of a one-time token shows. *)
Lemma token_enroll_granted E header d r d' :
  handleTokenEnroll uuid_ok Hash E header d = (Granted r, d') →
  ∃ token id t, presented uuid_ok EnrollmentToken header = Some (token, id) ∧ ad_tokens d !! id = Some t ∧ et_TokenHash t = Hash token
    ∧ et_UsedAt t = None ∧ et_RevokedAt t = None ∧ (ee_now E < et_ExpiresAt t)%Z
    ∧ ts_AgentID r = et_AgentID t ∧ ts_Labels r = et_AuthorizedLabels t
    ∧ ∃ t', ad_tokens d' !! id = Some t' ∧ is_Some (et_UsedAt t').
Proof using.
  unfold handleTokenEnroll, presented. destruct (negb (ee_allow E)); [done|]. destruct (bearerToken header) as [token|]; [|done].
  destruct (Parse uuid_ok token EnrollmentToken) as [p|]; [|done]. destruct (negb (ee_store E)); [done|].
  destruct (issueAgentTokenPair Hash E) as [[acc ref]|]; [|done]. unfold db_call. destruct (ee_db_ok E); [|done].
  pose proof (consume_cases (ee_newid E) (ee_missed E) (pt_ID p) (Hash token) (exchange_issue E acc ref) (ee_now E) d) as Hc.
  destruct (ConsumeAgentEnrollment _ _ _ _ _ _ _) as [res d1]. intros H.
  destruct Hc as [(e & -> & _)|(t & k & i & d1' & d2 & d3 & -> & Ht & Hh & Hu & Hr & Hx & Hi & Hf & H2 & H3 & ->)]; [done|].
  injection H as <- <-. apply enrolled_identity_for in Hi as (_ & Ha & _ & Hl).
  exists token, (pt_ID p), t. split_and!; [done..|]. cbn. rewrite lookup_alter_eq.
  assert (ad_tokens d3 = ad_tokens d) as ->; [|rewrite Ht; by eexists].
  destruct (is_Refresh _); [apply insert_credential_ok in H3 as (-> & _)|subst d3]; apply insert_credential_ok in H2 as (-> & _); by destruct Hf.
Qed.

(** What a successful refresh shows. *)
Lemma refresh_granted E header d r d' :
  handleAgentRefresh uuid_ok Hash E header d = (Granted r, d') →
  ∃ token id c i f lost, presented uuid_ok RefreshToken header = Some (token, id) ∧ ad_credentials d !! id = Some c
    ∧ cr_TokenHash c = Hash token ∧ cr_Kind c = refresh ∧ cr_RevokedAt c = None ∧ (ee_now E < cr_ExpiresAt c)%Z
    ∧ ad_identities d !! cr_IdentityID c = Some i ∧ ai_Status i = active ∧ cr_FamilyID c = Some f
    ∧ rotation_allowed (cr_IdentityID c) f c (ee_now E) d = Some lost ∧ ts_AgentID r = ai_AgentID i.
Proof using.
  unfold handleAgentRefresh, presented. destruct (negb (ee_allow E)); [done|]. destruct (bearerToken header) as [token|]; [|done].
  destruct (Parse uuid_ok token RefreshToken) as [p|]; [|done]. destruct (negb (ee_store E)); [done|].
  destruct (issueAgentTokenPair Hash E) as [[acc ref]|]; [|done]. unfold db_call. destruct (ee_db_ok E); [|done].
  match goal with |- context [RotateAgentRefresh ?j ?h ?t ?a ?b ?o d] => pose proof (rotate_cases j h t a b o d) as Hc end.
  destruct (RotateAgentRefresh _ _ _ _ _ _ _) as [res d1]. intros H.
  destruct Hc as [(e & -> & _)|(c & i & f & Hc & Hi & Ha & Hk & Hr & Hx & Hh & Hf & [(_ & -> & _)|(lost & Hl & -> & _)])]; [done..|].
  injection H as <- <-. exists token, (pt_ID p), c, i, f, lost. done.
Qed.

(** What an authenticated request shows. *)
Lemma auth_granted store read_ok due now header d p d' :
  agentAuth uuid_ok Hash store read_ok due now header d = (inr p, d') →
  ∃ token id c i, presented uuid_ok AccessToken header = Some (token, id) ∧ ad_credentials d !! id = Some c
    ∧ ad_identities d !! cr_IdentityID c = Some i ∧ cr_Kind c = access ∧ ai_Status i = active ∧ cr_RevokedAt c = None
    ∧ (now < cr_ExpiresAt c)%Z ∧ Matches Hash token (cr_TokenHash c) = true
    ∧ p = MkAgentPrincipal (cr_IdentityID c) (ai_AgentID i) id "bearer" (ai_AuthorizedLabels i) (ai_AuthorizedCapabilities i).
Proof using.
  unfold agentAuth, presented, bearerToken. destruct (HasPrefix header bearerPrefix); [|done]. simpl.
  set (token := TrimPrefix header bearerPrefix). destruct (HasPrefix token "uca_") eqn:Ep; [|done]. simpl.
  destruct (Parse uuid_ok token AccessToken) as [q|] eqn:Eq; [|done]. destruct (negb store || negb read_ok); [done|].
  destruct (GetAgentCredentialForAuth (pt_ID q) now d) as [e|c] eqn:Eg; [by destruct e|].
  destruct (_ || _) eqn:Ec; [done|]. intros [= <- _].
  apply orb_false_iff in Ec as [Ec Hm]. apply orb_false_iff in Ec as [Ec Hx]. apply orb_false_iff in Ec as [Ec _].
  apply orb_false_iff in Ec as [Hk _]. apply negb_false_iff in Hk, Hx, Hm. apply bool_decide_eq_true in Hk. apply Z.ltb_lt in Hx.
  unfold GetAgentCredentialForAuth in Eg. destruct (ad_credentials d !! pt_ID q) as [row|] eqn:Er; [|done].
  destruct (ad_identities d !! cr_IdentityID row) as [i|] eqn:Ei; [|done]. destruct (bool_decide (ai_Status i = disabled)) eqn:Ed; [done|].
  apply status_active in Ed. destruct (bool_decide (is_Some (cr_RevokedAt row)) || _) eqn:Ev; [done|]. injection Eg as <-.
  apply orb_false_iff in Ev as [Ev _]. apply bool_decide_eq_false in Ev. rewrite <-eq_None_not_Some in Ev.
  exists token, (pt_ID q), row, i. cbn in *. assert ((token =? "")%string = false) as ->.
  { destruct (String.eqb_spec token ""); [|done]. by rewrite e in Ep. }
  by rewrite Eq.
Qed.
End granted.

(** ** One-time tokens *)

(** C20: A one-time enrollment token is exchanged once.  The exchange succeeds
    only for a token that is stored with the hash of what was presented, unused,
    unrevoked and unexpired; it enrolls the agent the token names with the labels
    the token authorizes; and after it no sequence of requests makes another
    exchange with that token succeed. *)
Theorem enrollment_once (uuid_ok : string → bool) (Hash : string → string) (ParseDuration : string → res Z) E header d r d1 :
  handleTokenEnroll uuid_ok Hash E header d = (Granted r, d1) →
  ∃ token id t, presented uuid_ok EnrollmentToken header = Some (token, id) ∧ ad_tokens d !! id = Some t ∧ et_TokenHash t = Hash token
    ∧ et_UsedAt t = None ∧ et_RevokedAt t = None ∧ (ee_now E < et_ExpiresAt t)%Z
    ∧ ts_AgentID r = et_AgentID t ∧ ts_Labels r = et_AuthorizedLabels t
    ∧ ∀ d2 E' header' token' r' d3, rtc (agent_step uuid_ok Hash ParseDuration) d1 d2 →
        presented uuid_ok EnrollmentToken header' = Some (token', id) →
        handleTokenEnroll uuid_ok Hash E' header' d2 ≠ (Granted r', d3).
Proof.
  intros H. apply token_enroll_granted in H as (token & id & t & Hp & Ht & Hh & Hu & Hr & Hx & Ha & Hl & t1 & Ht1 & Hu1).
  exists token, id, t. split_and!; [done..|]. intros d2 E' header' token' r' d3 Hs Hp' Hg.
  apply token_enroll_granted in Hg as (token2 & id2 & t2 & Hp2 & Ht2 & _ & Hu2 & _). rewrite Hp' in Hp2. injection Hp2 as <- <-.
  destruct (ol_tokens _ _ (agent_steps_older _ _ _ _ _ Hs) id t1 Ht1) as (t2' & Ht2' & Hst). rewrite Ht2 in Ht2'. injection Ht2' as <-.
  pose proof (st_used _ _ Hst Hu1) as [u Hu']. congruence.
Qed.

(** ** Revocation *)

Definition revoked_in (id : string) (d : agent_db) : Prop := ∃ c, ad_credentials d !! id = Some c ∧ is_Some (cr_RevokedAt c).

Lemma revoked_later uuid_ok Hash PD id d d' : rtc (agent_step uuid_ok Hash PD) d d' → revoked_in id d → revoked_in id d'.
Proof.
  intros Hs (c & Hc & Hr). destruct (ol_credentials _ _ (agent_steps_older _ _ _ _ _ Hs) id c Hc) as (c' & Hc' & Hsc).
  exists c'. split; [done|]. by rewrite (sc_revoked _ _ Hsc Hr).
Qed.

(** No request that presents credential [id] is authenticated or refreshed. *)
Definition opens_nothing (uuid_ok : string → bool) (Hash : string → string) (id : string) (d : agent_db) : Prop :=
  (∀ store read_ok due now header token, presented uuid_ok AccessToken header = Some (token, id) →
     ∀ p d', agentAuth uuid_ok Hash store read_ok due now header d ≠ (inr p, d'))
  ∧ ∀ E header token, presented uuid_ok RefreshToken header = Some (token, id) →
     ∀ r d', handleAgentRefresh uuid_ok Hash E header d ≠ (Granted r, d').

Lemma revoked_useless uuid_ok Hash id d : revoked_in id d → opens_nothing uuid_ok Hash id d.
Proof.
  intros (c & Hc & t & Hr). split.
  - intros store read_ok due now header token Hp p d' H. apply auth_granted in H as (tk & i & c' & x & Hp' & Hc' & _ & _ & _ & Hr' & _).
    rewrite Hp in Hp'. injection Hp' as <- <-. congruence.
  - intros E header token Hp r d' H. apply refresh_granted in H as (tk & i & c' & x & f & lost & Hp' & Hc' & _ & _ & Hr' & _).
    rewrite Hp in Hp'. injection Hp' as <- <-. congruence.
Qed.

Lemma agent_found A k i d : ids_wf d → ad_identities d !! k = Some i → ai_AgentID i = A → getAgentIdentityByAgentID A d = Some (k, i).
Proof.
  intros [Hb _] Hk Ha. destruct (getAgentIdentityByAgentID A d) as [[k' i']|] eqn:E.
  - apply agent_row in E as [Hk' Ha']. assert (k = k') as <- by (eapply (wf_agent _ Hb); [done..|congruence]). congruence.
  - pose proof (find_identity_None _ _ E k i Hk) as Hf. by rewrite (proj2 (by_agent_id_true _ _) Ha) in Hf.
Qed.

(** The two requests that take an agent's credentials away, and what they leave. *)
Definition cut_off (disable : bool) (A : string) (now : Z) (d : agent_db) : Z * agent_db :=
  if disable then handleDisableAgentIdentity true A now d else handleRevokeAgentCredentials true true A now d.

Lemma cut_off_revokes disable A now d k i :
  ids_wf d → ad_identities d !! k = Some i → ai_AgentID i = A →
  (cut_off disable A now d).1 = 204%Z
  ∧ ∀ id c, ad_credentials (cut_off disable A now d).2 !! id = Some c → cr_IdentityID c = k → is_Some (cr_RevokedAt c).
Proof.
  intros Hwf Hk Ha. pose proof (agent_found A k i d Hwf Hk Ha) as Hf. destruct disable; cbn [cut_off].
  - unfold handleDisableAgentIdentity, setAgentIdentityEnabled, SetAgentIdentityEnabled. rewrite Hf. cbn. split; [done|].
    intros id c. rewrite lookup_fmap. destruct (ad_credentials d !! id) as [c0|]; [|done]. cbn. intros [= <-]. unfold of_identity.
    destruct (String.eqb_spec (cr_IdentityID c0) k); [by eexists|done].
  - unfold handleRevokeAgentCredentials, RevokeAgentIdentityCredentials. rewrite Hf. cbn. split; [done|].
    intros id c. rewrite lookup_fmap. destruct (ad_credentials d !! id) as [c0|]; [|done]. cbn. intros [= <-]. unfold of_identity.
    destruct (String.eqb_spec (cr_IdentityID c0) k); [by eexists|done].
Qed.

Lemma cut_off_step uuid_ok Hash PD disable A now d : agent_step uuid_ok Hash PD d (cut_off disable A now d).2.
Proof. destruct disable; [apply as_disable|apply as_revoke]. Qed.

(** C18: revocation is final.  Once an agent is disabled or its credentials are
    revoked, no credential that exists then is ever again accepted for it, neither
    to authenticate nor to refresh, whatever requests follow, its being enabled
    again among them: what is accepted later was issued later. *)
Theorem revocation_final (uuid_ok : string → bool) (Hash : string → string) (ParseDuration : string → res Z) disable A now d k i :
  agents_reachable uuid_ok Hash ParseDuration d → ad_identities d !! k = Some i → ai_AgentID i = A →
  (cut_off disable A now d).1 = 204%Z
  ∧ ∀ d2 id c, rtc (agent_step uuid_ok Hash ParseDuration) (cut_off disable A now d).2 d2 →
      ad_credentials (cut_off disable A now d).2 !! id = Some c → cr_IdentityID c = k → opens_nothing uuid_ok Hash id d2.
Proof.
  intros Hd Hk Ha. pose proof (agents_wf _ _ _ _ Hd) as Hwf. destruct (cut_off_revokes disable A now d k i Hwf Hk Ha) as [Hs Hr].
  split; [done|]. intros d2 id c H2 Hc Hi. apply revoked_useless. eapply revoked_later; [exact H2|]. exists c. split; [done|]. by eapply Hr.
Qed.

(** ** Replay of refresh credentials *)

(** Where the new rows of a step come from: a family that had none, or one whose
    refresh credential was presented unrevoked. *)
Lemma new_rows d d' k x f :
  store_step d d' → ad_credentials d !! k = None → ad_credentials d' !! k = Some x → cr_FamilyID x = Some f →
  (∀ j c, ad_credentials d !! j = Some c → cr_FamilyID c ≠ Some f)
  ∨ ∃ j c, ad_credentials d !! j = Some c ∧ cr_FamilyID c = Some f ∧ cr_RevokedAt c = None.
Proof.
  intros Hs Hn Hx Hf. destruct Hs as
    [d|d id t d1 H|d id now|d newid missed eid hash issue now H|d newid missed issue Ka Kf|d id hash now acc ref overlap Ka Kr
    |d agentID enabled now|d agentID now|d id now].
  - congruence.
  - unfold CreateAgentEnrollmentToken in H. destruct (_ || _); [done|]. injection H as <-. cbn in Hx. congruence.
  - cbn in Hx. congruence.
  - pose proof (consume_cases newid missed eid hash issue now d) as Hc. destruct (ConsumeAgentEnrollment _ _ _ _ _ _ _) as [r d1].
    destruct Hc as [(e & _ & ->)|(t & k' & i & d1' & d2 & d3 & _ & _ & _ & _ & _ & _ & _ & Hi & H2 & H3 & ->)]; [cbn in Hx; congruence|].
    destruct H as (g & rf & Er & _ & _ & Fa & Fr & _ & Hfresh). rewrite Er in H3. cbn [snd ad_credentials set_tokens] in Hx.
    apply insert_credential_ok in H2 as (-> & _), H3 as (-> & _). assert (ad_credentials d1' = ad_credentials d) as E by (by destruct Hi).
    cbn in Hx. rewrite E in Hx. left. assert (f = g) as ->; [|done]. rewrite !lookup_insert in Hx.
    repeat case_decide; simplify_eq; cbn in Hf; rewrite ?Fa, ?Fr in Hf; destruct (_ =? _)%string; congruence.
  - pose proof (external_cases newid missed issue d) as Hc. destruct (IssueExternalAgentAccess _ _ _ _) as [r d1].
    destruct Hc as [(e & _ & ->)|(k' & i & d1' & _ & Hi & H2 & _)]; [cbn in Hx; congruence|].
    apply insert_credential_ok in H2 as (-> & _). assert (ad_credentials d1' = ad_credentials d) as E by (by destruct Hi).
    cbn in Hx. rewrite E, lookup_insert in Hx. case_decide; [|congruence]. simplify_eq. cbn in Hf. by rewrite Kf in Hf.
  - pose proof (rotate_cases id hash now acc ref overlap d) as Hc. destruct (RotateAgentRefresh _ _ _ _ _ _ _) as [r d1].
    destruct Hc as [(e & _ & _ & ->)|(c & i & g & Hc & Hi & Ha & Kc & Rc & _ & _ & Fc & [(_ & _ & ->)|(lost & Hl & _ & Ht)])]; cbn [snd] in Hx.
    + congruence.
    + unfold revokeAgentRefreshFamily, revoke_where in Hx. cbn in Hx. rewrite lookup_fmap, Hn in Hx. done.
    + right. exists id, c. split_and!; [done| |done]. apply rotate_to_ok in Ht as (d1' & d2 & H1 & H2 & ->).
      destruct (rotate_keeps _ _ _ _ _ _ _ _ _ _ _ Hc Hl H1 H2) as (_ & _ & _ & m0 & Em0 & Hid & _ & _ & _ & Ed & _).
      cbn in Hx. rewrite Ed in Hx. assert (id ≠ k) as Hne by (intros ->; congruence). rewrite lookup_alter_ne in Hx by done.
      assert (m0 !! k = None) as Hm by (rewrite Em0; destruct lost; [rewrite lookup_alter; case_decide; subst; by rewrite ?Hn|done]).
      rewrite !lookup_insert in Hx. repeat case_decide; simplify_eq; cbn in Hf; destruct (_ =? _)%string; congruence.
  - unfold SetAgentIdentityEnabled in Hx. destruct (getAgentIdentityByAgentID agentID d) as [[j i]|]; [|cbn in Hx; congruence].
    destruct enabled; cbn in Hx; [congruence|]. by rewrite lookup_fmap, Hn in Hx.
  - unfold RevokeAgentIdentityCredentials in Hx. destruct (getAgentIdentityByAgentID agentID d) as [[j i]|]; [|congruence].
    cbn in Hx. by rewrite lookup_fmap, Hn in Hx.
  - unfold TouchAgentCredential in Hx. destruct (ad_credentials d !! id) as [c|] eqn:E; cbn in Hx; [|congruence].
    rewrite lookup_insert in Hx. case_decide; [|congruence]. subst. congruence.
Qed.

(** A family with members, all of them revoked. *)
Definition dead_family (f : string) (d : agent_db) : Prop :=
  (∃ k c, ad_credentials d !! k = Some c ∧ cr_FamilyID c = Some f)
  ∧ ∀ k c, ad_credentials d !! k = Some c → cr_FamilyID c = Some f → is_Some (cr_RevokedAt c).

Lemma dead_family_step f d d' : store_step d d' → dead_family f d → dead_family f d'.
Proof.
  intros Hs [(k & c & Hk & Hf) Hall]. pose proof (ol_credentials _ _ (store_step_older _ _ Hs)) as He. split.
  - destruct (He k c Hk) as (y & Hy & Hc). exists k, y. split; [done|]. by rewrite (sc_family _ _ Hc).
  - intros j x Hj Hx. destruct (ad_credentials d !! j) as [z|] eqn:Ez.
    + destruct (He j z Ez) as (y & Hy & Hc). rewrite Hj in Hy. injection Hy as <-. rewrite (sc_family _ _ Hc) in Hx.
      pose proof (Hall j z Ez Hx) as Hr. by rewrite (sc_revoked _ _ Hc Hr).
    + destruct (new_rows _ _ _ _ _ Hs Ez Hj Hx) as [Hno|(i & w & Hw & Fw & Rw)]; [by destruct (Hno k c Hk)|].
      destruct (Hall i w Hw Fw) as [t Ht]. congruence.
Qed.

Lemma dead_family_later uuid_ok Hash PD f d d' : rtc (agent_step uuid_ok Hash PD) d d' → dead_family f d → dead_family f d'.
Proof.
  induction 1 as [|x y z H _ IH]; [done|]. intros Hx. apply IH. eapply dead_family_step; [|exact Hx]. by eapply agent_step_store.
Qed.

(** A refresh credential that was exchanged before, presented again when its time
    for a retry is over, or when the credential it was exchanged for has itself
    been exchanged. *)
Definition replayed (now : Z) (c : AgentCredential) (d : agent_db) : Prop :=
  is_Some (cr_SupersededAt c)
  ∧ ((∃ limit, cr_OverlapExpiresAt c = Some limit ∧ (limit ≤ now)%Z)
     ∨ ∃ rid r, cr_ReplacedBy c = Some rid ∧ ad_credentials d !! rid = Some r ∧ is_Some (cr_SupersededAt r)).

Lemma replayed_refused k f c now d : replayed now c d → rotation_allowed k f c now d = None.
Proof.
  intros [[s Hs] H]. unfold rotation_allowed. rewrite Hs. destruct H as [(limit & -> & Hl)|(rid & r & -> & Hr & t & Ht)].
  - destruct (Z.ltb_spec now limit); [lia|done].
  - destruct (cr_OverlapExpiresAt c) as [limit|]; [|done]. destruct (negb _); [done|]. rewrite Hr. unfold replacementIsSafe.
    rewrite Ht. rewrite (bool_decide_false (Some t = None)) by done. by rewrite !andb_false_r.
Qed.

(** A request that reaches the database. *)
Definition request_ok (E : enroll_env) : Prop :=
  ee_allow E = true ∧ ee_store E = true ∧ ee_db_ok E = true ∧ is_Some (ee_access E) ∧ is_Some (ee_refresh E).

(** C17: presenting a refresh credential again after it served ends the family
    for good, when its overlap of five minutes is over or the credential that replaced
    it was itself exchanged ([replayed]; within the overlap, and while the replacement
    was not used, the request is a retry and is granted).  The request is refused, and from then on every credential of the
    family, access and refresh, whoever holds it and whenever it was issued, is
    revoked and opens nothing. *)
Theorem replay_ends_family (uuid_ok : string → bool) (Hash : string → string) (ParseDuration : string → res Z) E header token id c i f d :
  request_ok E → presented uuid_ok RefreshToken header = Some (token, id) → ad_credentials d !! id = Some c →
  ad_identities d !! cr_IdentityID c = Some i → ai_Status i = active → cr_Kind c = refresh → cr_RevokedAt c = None →
  (ee_now E < cr_ExpiresAt c)%Z → cr_TokenHash c = Hash token → cr_FamilyID c = Some f → replayed (ee_now E) c d →
  ∃ d1, handleAgentRefresh uuid_ok Hash E header d = (Denied 401, d1)
    ∧ ∀ d2 k x, rtc (agent_step uuid_ok Hash ParseDuration) d1 d2 → ad_credentials d2 !! k = Some x → cr_FamilyID x = Some f →
        is_Some (cr_RevokedAt x) ∧ opens_nothing uuid_ok Hash k d2.
Proof.
  intros (Ea & Es & Ed & [[ia sa] Eacc] & [ir sr] & Eref) Hp Hc Hi Hact Kc Rc Hx Hh Hf Hrep.
  exists (revokeAgentRefreshFamily f (ee_now E) d). split.
  - unfold handleAgentRefresh, presented in *. rewrite Ea. destruct (bearerToken header) as [tk|]; [|done].
    destruct (Parse uuid_ok tk RefreshToken) as [p|]; [|done]. injection Hp as -> Hp. rewrite Es. unfold issueAgentTokenPair.
    rewrite Eacc. simpl. rewrite Eref. simpl. rewrite Hp, Ed. unfold db_call, RotateAgentRefresh. rewrite Hc, Hi, Hact, Kc, Rc, Hf.
    rewrite (replayed_refused _ _ _ _ _ Hrep), Hh, String.eqb_refl. simpl. apply Z.ltb_lt in Hx. by rewrite Hx.
  - intros d2 k x H2 Hk Hfx. assert (dead_family f d2) as [_ Hall].
    { eapply dead_family_later; [exact H2|]. split.
      - exists id, (revoke (ee_now E) c). cbn. rewrite lookup_fmap, Hc. unfold of_family. cbn. by rewrite Hf, bool_decide_true.
      - intros j y. cbn. rewrite lookup_fmap. destruct (ad_credentials d !! j) as [z|]; [|done]. cbn. unfold of_family.
        case_bool_decide; intros [= <-]; [by eexists|done]. }
    pose proof (Hall k x Hk Hfx) as Hr. split; [done|]. apply revoked_useless. by exists x.
Qed.

(** ** Workload identities *)

(** The policies that the handlers write. *)
Inductive policy_step (PD : string → res Z) (show : Z → string) : policies → policies → Prop :=
| ps_create ok req ps : policy_step PD show ps (handleCreateAgentEnrollmentPolicy PD show ok req ps).2
| ps_update ok name req ps : policy_step PD show ps (handleUpdateAgentEnrollmentPolicy PD show ok name req ps).2
| ps_delete ok name ps : policy_step PD show ps (handleDeleteAgentEnrollmentPolicy ok name ps).2.

Definition policy_ok (p : AgentEnrollmentPolicy) : Prop :=
  (minAgentEnrollmentPolicyTTL ≤ ep_AccessTokenTTL p ≤ maxAgentEnrollmentPolicyTTL)%Z
  ∧ template_of (ep_Provider p) = Some (ep_AgentIDTemplate p).

Lemma stored_policy_ok p : validateAgentEnrollmentPolicy p = Ok () → policy_ok (stored_policy p).
Proof.
  unfold validateAgentEnrollmentPolicy. intros [_ H]%then_ok. apply bind_ok in H as (t & Ht & H).
  destruct (template_of (ep_Provider p)) as [t'|] eqn:Et; [|done]. injection Ht as ->.
  apply then_ok in H as [Ha H]. apply then_ok in H as [Hb _]. unfold fail_if in Ha, Hb.
  destruct (ep_AgentIDTemplate p =? t)%string eqn:Ei; [|done]. apply String.eqb_eq in Ei.
  destruct (Z.ltb_spec (ep_AccessTokenTTL p) minAgentEnrollmentPolicyTTL); [done|].
  destruct (Z.ltb_spec maxAgentEnrollmentPolicyTTL (ep_AccessTokenTTL p)); [done|].
  split; cbn; [|congruence]. unfold minAgentEnrollmentPolicyTTL, maxAgentEnrollmentPolicyTTL, second in *.
  Z.to_euclidean_division_equations. lia.
Qed.

Lemma upsert_ok PD show ok name status req ps :
  map_Forall (λ _, policy_ok) ps → map_Forall (λ _, policy_ok) (upsertAgentEnrollmentPolicy PD show ok name status req ps).2.
Proof.
  intros Hps. unfold upsertAgentEnrollmentPolicy. destruct req as [req|]; [|done].
  destruct (enrollmentPolicyFromRequest PD name req) as [p|]; [|done]. unfold UpsertAgentEnrollmentPolicy.
  destruct (validateAgentEnrollmentPolicy p) as [[]|] eqn:Ev; [|done]. simpl. destruct ok; [|done].
  cbn. apply map_Forall_insert_2; [by apply stored_policy_ok|done].
Qed.

Lemma policies_ok PD show ps : rtc (policy_step PD show) ∅ ps → map_Forall (λ _, policy_ok) ps.
Proof.
  assert (map_Forall (λ _, policy_ok) (∅ : policies)) as H0 by apply map_Forall_empty. revert H0. generalize (∅ : policies).
  intros ps0 H0 Hr. induction Hr as [|x y z Hs _ IH]; [done|]. apply IH. clear IH. destruct Hs.
  - by apply upsert_ok.
  - by apply upsert_ok.
  - unfold handleDeleteAgentEnrollmentPolicy. destruct ok; [|done]. cbn. by apply map_Forall_delete.
Qed.

Lemma add_labels_spec requested allowed labels out :
  add_labels requested allowed labels = Some out →
  (∀ l, l ∈ requested → l ∈ allowed) ∧ ∀ l, l ∈ out ↔ l ∈ labels ∨ l ∈ requested.
Proof.
  assert (∀ (v : list string) l, contains v l = true ↔ l ∈ v) as Hc.
  { intros v l. unfold contains. rewrite existsb_exists. setoid_rewrite String.eqb_eq. setoid_rewrite <-list_elem_of_In. naive_solver. }
  revert labels. induction requested as [|x requested IH]; intros labels; simpl.
  - intros [= ->]. split; [by intros l ?%elem_of_nil|]. intros l. rewrite elem_of_nil. tauto.
  - destruct (contains allowed x) eqn:Ex; [|done]. simpl. intros [H1 H2]%IH. split.
    + intros l [->|Hl]%elem_of_cons; [by apply Hc|by apply H1].
    + intros l. rewrite H2, elem_of_cons. destruct (contains labels x) eqn:Ey; [apply Hc in Ey; naive_solver|].
      rewrite elem_of_app, list_elem_of_singleton. naive_solver.
Qed.

Lemma issue_external_granted Hash E provider agentID req p d r d' :
  issue_external Hash E provider agentID req p d = (Granted r, d') →
  ts_AgentID r = agentID ∧ ts_RefreshToken r = "" ∧ ts_AccessExpiresAt r = (ee_now E + ep_AccessTokenTTL p)%Z
  ∧ (∀ l, l ∈ er_Labels req → l ∈ ep_AllowedLabels p) ∧ (∀ l, l ∈ ts_Labels r ↔ l ∈ ep_RequiredLabels p ∨ l ∈ er_Labels req)
  ∧ ∃ k i, ad_identities d' !! k = Some i ∧ ai_AgentID i = agentID ∧ ai_EnrollmentMethod i = provider ∧ ai_ExternalSubject i = Some agentID
      ∧ ai_Status i = active ∧ ts_Labels r = ai_AuthorizedLabels i.
Proof.
  unfold issue_external. destruct (authorizedEnrollmentLabels req p) as [labels|] eqn:El; [|done].
  destruct (ee_access E) as [[id secret]|]; [|done]. unfold db_call. destruct (ee_db_ok E); [|done].
  match goal with |- context [IssueExternalAgentAccess ?n ?m ?j d] => pose proof (external_cases n m j d) as Hc end.
  destruct (IssueExternalAgentAccess _ _ _ _) as [res d1]. intros H.
  destruct Hc as [(e & -> & _)|(k & i & d1' & -> & Hi & H2 & Ha & Hm & Hs & Hl)]; [done|]. injection H as <- <-.
  apply add_labels_spec in El as [H3 H4]. cbn in *. rewrite Hl. split_and!; [done..|]. exists k, i.
  apply insert_credential_ok in H2 as (-> & _ & _ & _). destruct Hi; cbn; rewrite lookup_insert_eq; split_and!; congruence.
Qed.

(** C21: A workload enrolls only within a policy.  An exchange without a token
    succeeds only under a stored, enabled policy of its provider whose verifier
    accepted the proof; the agent's identifier is the one the verifier derived,
    bound to that provider; its labels are exactly those the policy requires and
    those requested, all of which the policy allows; there is no refresh
    credential; and the access credential lasts between five minutes and four
    hours. *)
Theorem external_bounded (uuid_ok : string → bool) (Hash : string → string) (PD : string → res Z) (show : Z → string) E ps kubernetes clouds
    header req d r d' :
  rtc (policy_step PD show) ∅ ps → er_Provider req ≠ EmptyString →
  handleAgentEnroll uuid_ok Hash E (λ n, Some (ps !! n)) kubernetes clouds header (Some req) d = (Granted r, d') →
  ∃ p, ps !! er_Policy req = Some p ∧ ep_Enabled p = true ∧ ep_Provider p = er_Provider req
    ∧ ((∃ verify token w, er_Provider req = "kubernetes" ∧ kubernetes !! pc_Cluster (ep_ProviderConfig p) = Some verify
          ∧ bearerToken header = Some token ∧ verify token p = inr w ∧ ts_AgentID r = k8s_agent_id w)
       ∨ ∃ verify bearer, er_Provider req ∈ ["aws"; "gcp"; "azure"] ∧ clouds !! er_Provider req = Some verify
          ∧ verify bearer (er_AWS req) p = inr (ts_AgentID r))
    ∧ (∀ l, l ∈ er_Labels req → l ∈ ep_AllowedLabels p)
    ∧ (∀ l, l ∈ ts_Labels r ↔ l ∈ ep_RequiredLabels p ∨ l ∈ er_Labels req)
    ∧ ts_RefreshToken r = EmptyString
    ∧ (ee_now E + minAgentEnrollmentPolicyTTL ≤ ts_AccessExpiresAt r ≤ ee_now E + maxAgentEnrollmentPolicyTTL)%Z
    ∧ ∃ k i, ad_identities d' !! k = Some i ∧ ai_AgentID i = ts_AgentID r ∧ ai_EnrollmentMethod i = er_Provider req
        ∧ ai_ExternalSubject i = Some (ts_AgentID r) ∧ ai_Status i = active.
Proof.
  intros Hps%policies_ok Hne. unfold handleAgentEnroll.
  assert (∀ provider agentID p, ps !! er_Policy req = Some p → issue_external Hash E provider agentID req p d = (Granted r, d') →
    ts_AgentID r = agentID ∧ (∀ l, l ∈ er_Labels req → l ∈ ep_AllowedLabels p)
    ∧ (∀ l, l ∈ ts_Labels r ↔ l ∈ ep_RequiredLabels p ∨ l ∈ er_Labels req) ∧ ts_RefreshToken r = EmptyString
    ∧ (ee_now E + minAgentEnrollmentPolicyTTL ≤ ts_AccessExpiresAt r ≤ ee_now E + maxAgentEnrollmentPolicyTTL)%Z
    ∧ ∃ k i, ad_identities d' !! k = Some i ∧ ai_AgentID i = agentID ∧ ai_EnrollmentMethod i = provider
        ∧ ai_ExternalSubject i = Some agentID ∧ ai_Status i = active) as Hissue.
  { intros provider agentID p Hp (Ha & Hr & Hx & Hall & Hl & k & i & Hk & H1 & H2 & H3 & H4 & _)%issue_external_granted.
    destruct (Hps _ _ Hp) as [Httl _]. rewrite Hx. split_and!; try done; [lia..|]. by exists k, i. }
  destruct (er_Provider req =? "kubernetes")%string eqn:Ek; [apply String.eqb_eq in Ek|destruct (existsb _ _) eqn:Ec].
  - unfold handleKubernetesAgentEnroll. destruct (negb (ee_allow E)); [done|]. destruct (bearerToken header) as [token|]; [|done].
    destruct (negb (ee_store E)); [done|]. destruct (ps !! er_Policy req) as [p|] eqn:Ep; [|done].
    destruct (ep_Enabled p) eqn:Een; [|done]. destruct (ep_Provider p =? "kubernetes")%string eqn:Epk; [|done]. apply String.eqb_eq in Epk.
    simpl. destruct (kubernetes !! _) as [verify|] eqn:Ev; [|done]. destruct (verify token p) as [[]|w] eqn:Ew; [done..|].
    intros (Ha & H)%(Hissue _ _ _ eq_refl). exists p. rewrite <-Ha in H. rewrite Ek. split; [done|]. split; [done|]. split; [done|].
    split; [left; by exists verify, token, w|exact H].
  - unfold handleCloudAgentEnroll. destruct (negb (ee_allow E)); [done|].
    destruct (if negb (er_Provider req =? "aws")%string then _ else _) as [bearer|]; [|done].
    destruct (negb (ee_store E)); [done|]. destruct (ps !! er_Policy req) as [p|] eqn:Ep; [|done].
    destruct (ep_Enabled p) eqn:Een; [|done]. destruct (ep_Provider p =? er_Provider req)%string eqn:Epk; [|done]. apply String.eqb_eq in Epk.
    simpl. destruct (clouds !! _) as [verify|] eqn:Ev; [|done]. destruct (verify bearer (er_AWS req) p) as [[]|w] eqn:Ew; [done..|].
    intros (Ha & H)%(Hissue _ _ _ eq_refl). exists p. rewrite <-Ha in H. split; [done|]. split; [done|]. split; [done|].
    split; [right|exact H]. exists verify, bearer. rewrite Ha. split_and!; [|done..].
    apply existsb_exists in Ec as (q & Hq & Eq). apply String.eqb_eq in Eq. rewrite Eq. by apply list_elem_of_In.
  - destruct (er_Provider req =? "")%string eqn:Ee; [by apply String.eqb_eq in Ee|done].
Qed.

(** ** The tables *)

(** C22: in every database that requests lead to, a credential belongs to an
    identity, and is revoked where that is disabled; no two identities share a
    name or a workload; a family belongs to one identity and has at most one
    refresh credential that is neither revoked nor superseded; and a superseded
    credential names its successor, of its family and identity and one generation
    later. *)
Theorem agent_tables_wf (uuid_ok : string → bool) (Hash : string → string) (PD : string → res Z) d :
  agents_reachable uuid_ok Hash PD d →
  (∀ k c, ad_credentials d !! k = Some c → ∃ i, ad_identities d !! cr_IdentityID c = Some i ∧ (ai_Status i = disabled → is_Some (cr_RevokedAt c)))
  ∧ (∀ k i k' i', ad_identities d !! k = Some i → ad_identities d !! k' = Some i' →
       ai_AgentID i = ai_AgentID i' ∨ (is_Some (ai_ExternalSubject i) ∧ ai_EnrollmentMethod i = ai_EnrollmentMethod i'
                                         ∧ ai_ExternalSubject i = ai_ExternalSubject i') → k = k')
  ∧ (∀ f k c k' c', ad_credentials d !! k = Some c → ad_credentials d !! k' = Some c' → cr_FamilyID c = Some f → cr_FamilyID c' = Some f →
       cr_IdentityID c = cr_IdentityID c' ∧ (is_head f c → is_head f c' → k = k'))
  ∧ ∀ k c, ad_credentials d !! k = Some c → is_Some (cr_SupersededAt c) →
       cr_Kind c = refresh ∧ ∃ rid r, cr_ReplacedBy c = Some rid ∧ ad_credentials d !! rid = Some r ∧ cr_Kind r = refresh
         ∧ cr_FamilyID r = cr_FamilyID c ∧ cr_IdentityID r = cr_IdentityID c ∧ cr_Generation r = (cr_Generation c + 1)%Z.
Proof.
  intros [[Wi Wa Ws Wf Wh _ _] Wl]%agents_wf. split_and!; [exact Wi| | |].
  - intros k i k' i' Hk Hk' [E|(Hs & Em & Es)]; [by eapply Wa|by eapply Ws].
  - intros f k c k' c' Hk Hk' Hf Hf'. split; [by eapply Wf|]. by eapply Wh.
  - intros k c Hk Hs. destruct (Wl k c Hk Hs) as (Kc & _ & f & rid & r & Fc & Er & Hr & Kr & Fr & Gr & Ir). split; [done|].
    exists rid, r. split_and!; congruence.
Qed.

(** An agent stays what it was enrolled as: whatever requests follow, its
    name belongs to the same identity, enrolled the same way and, for a workload,
    for the same workload. *)
Theorem agents_keep_identity (uuid_ok : string → bool) (Hash : string → string) (PD : string → res Z) d d' k i k' i' :
  agents_reachable uuid_ok Hash PD d → rtc (agent_step uuid_ok Hash PD) d d' →
  ad_identities d !! k = Some i → ad_identities d' !! k' = Some i' → ai_AgentID i = ai_AgentID i' →
  k = k' ∧ ai_EnrollmentMethod i' = ai_EnrollmentMethod i ∧ ai_ExternalSubject i' = ai_ExternalSubject i.
Proof.
  intros Hd Hs Hk Hk' E. destruct (ol_identities _ _ (agent_steps_older _ _ _ _ _ Hs) k i Hk) as (j & Hj & [Ea Em Es]).
  assert (ids_wf d') as [Hb _] by (eapply agents_wf; unfold agents_reachable; by etrans).
  assert (k = k') as <- by (eapply (wf_agent _ Hb); [done..|congruence]). rewrite Hk' in Hj. by injection Hj as <-.
Qed.

Lemma enrollment_ttl_bounds PD req ttl : enrollment_ttl PD req = Some ttl → (0 < ttl ≤ maxAgentEnrollmentTTL)%Z.
Proof.
  unfold enrollment_ttl. destruct (_ =? "")%string; [by intros [= <-]|]. destruct (PD _) as [t|]; [|done].
  destruct (Z.leb_spec t 0); [done|]. destruct (Z.ltb_spec maxAgentEnrollmentTTL t); [done|]. intros [= <-]. lia.
Qed.

(** A caller that may only enroll cannot choose the agent's name, and gets
    a token for no label outside its bound, for no capability and for no more than
    a day. *)
Theorem enroll_only_bounded (Hash : string → string) (PD : string → res Z) ok caller uuid drawn now body d resp d' :
  Grants_Can (pr_Grants caller) AgentManage "" = false →
  handleCreateAgentEnrollment Hash PD ok caller uuid drawn now body d = (201%Z, Some resp, d') →
  ∃ t, ad_tokens d' !! cn_ID resp = Some t ∧ et_TokenHash t = Hash (cn_Token resp) ∧ et_AgentID t = generateAgentID uuid
    ∧ (∀ l, l ∈ et_AuthorizedLabels t → l ∈ default [] (pr_EnrollLabels caller)) ∧ et_AuthorizedCapabilities t = []
    ∧ (now < et_ExpiresAt t ≤ now + maxAgentEnrollmentTTL)%Z.
Proof.
  intros Hg. unfold handleCreateAgentEnrollment. destruct body as [req|]; [|done]. unfold enroll_only_denied. rewrite Hg. cbn [negb andb].
  destruct (negb (ce_AgentID req =? "")%string || _) eqn:Ed; [done|]. apply orb_false_iff in Ed as [Ea El].
  apply negb_false_iff, String.eqb_eq in Ea. rewrite Ea. change (TrimSpace "" =? "")%string with true. cbn iota zeta.
  destruct (negb (ValidatePortable _)); [done|].
  destruct (enrollment_ttl PD req) as [ttl|] eqn:Et; [|done]. destruct drawn as [[id secret]|]; [|done].
  destruct ok; [|done]. destruct (CreateAgentEnrollmentToken _ _ d) as [d1|] eqn:Ec; [|done]. intros [= <- <-]. cbn [cn_ID cn_Token].
  unfold CreateAgentEnrollmentToken in Ec. destruct (_ || _); [done|]. injection Ec as <-. cbn [ad_tokens set_tokens].
  rewrite lookup_insert_eq. eexists. split_and!; [reflexivity|done..| |done| |].
  - intros l Hl. cbn in Hl. destruct (contains (default [] (pr_EnrollLabels caller)) l) eqn:E.
    + unfold contains in E. apply existsb_exists in E as (v & Hv & Ev). apply String.eqb_eq in Ev as ->. by apply list_elem_of_In.
    + exfalso. assert (existsb (λ l, negb (contains (default [] (pr_EnrollLabels caller)) l)) (ce_Labels req) = true) as Hx; [|congruence].
      apply existsb_exists. exists l. split; [by apply list_elem_of_In|by rewrite E].
  - cbn. apply enrollment_ttl_bounds in Et. lia.
  - cbn. apply enrollment_ttl_bounds in Et. lia.
Qed.

(** ** An agent enrolls, refreshes twice, and its first refresh credential is replayed *)

Module Demo.
Definition Hash (s : string) : string := str_take 64 (s +:+ "0000000000000000000000000000000000000000000000000000000000000000").
Definition secret : string := "0123456789abcdef0123456789abcdef".
Definition uuid (c : string) : string := "0000000" +:+ c +:+ "-0000-4000-8000-000000000000".
Definition any (s : string) : bool := true.
Definition PD (s : string) : res Z := Ok (600 * second)%Z.
Definition env (now : Z) (acc ref : string) : enroll_env :=
  MkEnrollEnv now true true true (Some (uuid acc, secret)) (Some (uuid ref, secret)) "family" "identity" false.
Definition bearer (kind : TokenKind) (id : string) : string := bearerPrefix +:+ it_Plaintext (Generate Hash kind (uuid id) secret).

Definition created := (handleCreateAgentEnrollment Hash PD true zero_principal (uuid "1") (Some (uuid "e", secret)) 0
  (Some (MkCreateEnrollment "" "" [])) no_agents).2.
Definition enroll (d : agent_db) := handleAgentEnroll any Hash (env 1 "a" "b") (λ _, None) ∅ ∅ (bearer EnrollmentToken "e")
  (Some (MkEnrollRequest "" "" [] None)) d.
Definition enrolled := (enroll created).2.
Definition once := (handleAgentRefresh any Hash (env 2 "c" "d") (bearer RefreshToken "b") enrolled).2.
Definition twice := (handleAgentRefresh any Hash (env 3 "5" "6") (bearer RefreshToken "d") once).2.
Definition first : AgentCredential :=
  default (new_row "" (MkNewCredential "" access "" "" 0 0)) (ad_credentials twice !! uuid "b").
Definition identity : AgentIdentity := MkAgentIdentity "agent-00000001" active "enrollment" None [] [] None.

Lemma to_enrolled : agents_reachable any Hash PD enrolled.
Proof.
  eapply rtc_l; [apply (as_create any Hash PD no_agents true zero_principal (uuid "1") (Some (uuid "e", secret)) 0
    (Some (MkCreateEnrollment "" "" [])))|]. apply rtc_once, as_enroll. split; [done|]. intros k c Hc.
  assert (ad_credentials created = ∅) as E by by vm_compute. fold created in Hc. by rewrite E, lookup_empty in Hc.
Qed.
End Demo.

Lemma enrollment_once_witness :
  match handleTokenEnroll Demo.any Demo.Hash (Demo.env 1 "a" "b") (Demo.bearer EnrollmentToken "e") Demo.created with
  | (Granted r, d1) =>
      ts_AgentID r = "agent-00000001"
      ∧ ∃ token id t, presented Demo.any EnrollmentToken (Demo.bearer EnrollmentToken "e") = Some (token, id)
        ∧ ad_tokens Demo.created !! id = Some t ∧ et_TokenHash t = Demo.Hash token
        ∧ et_UsedAt t = None ∧ et_RevokedAt t = None ∧ (1 < et_ExpiresAt t)%Z
        ∧ ts_AgentID r = et_AgentID t ∧ ts_Labels r = et_AuthorizedLabels t
        ∧ ∀ d2 E' header' token' r' d3, rtc (agent_step Demo.any Demo.Hash Demo.PD) d1 d2 →
            presented Demo.any EnrollmentToken header' = Some (token', id) →
            handleTokenEnroll Demo.any Demo.Hash E' header' d2 ≠ (Granted r', d3)
  | _ => False
  end.
Proof.
  destruct (handleTokenEnroll Demo.any Demo.Hash (Demo.env 1 "a" "b") (Demo.bearer EnrollmentToken "e") Demo.created) as [[s|r] d1] eqn:E.
  - exfalso. vm_compute in E. discriminate.
  - split; [vm_compute in E; by injection E as <- _|]. exact (enrollment_once _ _ Demo.PD _ _ _ _ _ E).
Defined.

Lemma revocation_final_witness :
  ad_identities Demo.enrolled !! "identity" = Some Demo.identity
  ∧ is_Some (ad_credentials (cut_off true "agent-00000001" 2 Demo.enrolled).2 !! Demo.uuid "b")
  ∧ (cut_off true "agent-00000001" 2 Demo.enrolled).1 = 204%Z
  ∧ ∀ d2 id c, rtc (agent_step Demo.any Demo.Hash Demo.PD) (cut_off true "agent-00000001" 2 Demo.enrolled).2 d2 →
      ad_credentials (cut_off true "agent-00000001" 2 Demo.enrolled).2 !! id = Some c → cr_IdentityID c = "identity" →
      opens_nothing Demo.any Demo.Hash id d2.
Proof.
  split; [by vm_compute|]. split; [apply (bool_decide_unpack _); by vm_compute|].
  apply (revocation_final Demo.any Demo.Hash Demo.PD true "agent-00000001" 2 Demo.enrolled "identity" Demo.identity);
    [exact Demo.to_enrolled|by vm_compute|done].
Defined.

Lemma replay_ends_family_witness :
  is_Some (ad_credentials Demo.twice !! Demo.uuid "6")
  ∧ ∃ d1, handleAgentRefresh Demo.any Demo.Hash (Demo.env 4 "7" "8") (Demo.bearer RefreshToken "b") Demo.twice = (Denied 401, d1)
    ∧ ∀ d2 k x, rtc (agent_step Demo.any Demo.Hash Demo.PD) d1 d2 → ad_credentials d2 !! k = Some x → cr_FamilyID x = Some "family" →
        is_Some (cr_RevokedAt x) ∧ opens_nothing Demo.any Demo.Hash k d2.
Proof.
  split; [apply (bool_decide_unpack _); by vm_compute|].
  apply (replay_ends_family Demo.any Demo.Hash Demo.PD (Demo.env 4 "7" "8") (Demo.bearer RefreshToken "b")
           (it_Plaintext (Generate Demo.Hash RefreshToken (Demo.uuid "b") Demo.secret)) (Demo.uuid "b") Demo.first Demo.identity).
  - split_and!; try done; by eexists.
  - by vm_compute.
  - by vm_compute.
  - by vm_compute.
  - done.
  - by vm_compute.
  - by vm_compute.
  - by vm_compute.
  - by vm_compute.
  - by vm_compute.
  - split; [apply (bool_decide_unpack _); by vm_compute|]. right.
    destruct (ad_credentials Demo.twice !! Demo.uuid "d") as [r|] eqn:E; [|exfalso; vm_compute in E; discriminate].
    exists (Demo.uuid "d"), r. split; [by vm_compute|]. split; [done|]. vm_compute in E. injection E as <-. by eexists.
Defined.

Module DemoPolicy.
Definition request : AgentEnrollmentPolicyRequest :=
  MkPolicyRequest "builders" "kubernetes" "c1" ["ci"] ["agent"] "" [] [] [] [] "" [] [] [] "k8s:{cluster}:{namespace}:{podUID}"
    ["gpu"; "big"] ["linux"] "10m" true.
Definition show (t : Z) : string := "10m0s".
Definition stored : policies := (handleCreateAgentEnrollmentPolicy Demo.PD show true (Some request) ∅).2.
Definition pod : BoundPodIdentity := MkBoundPod "c1" "ci" "agent" "agent-0" "uid-1".
Definition verifiers : gmap string (string → AgentEnrollmentPolicy → verify_error + BoundPodIdentity) :=
  {[ "c1" := λ _ _, inr pod ]}.
Definition ask : AgentEnrollRequest := MkEnrollRequest "kubernetes" "builders" ["gpu"] None.
Definition answer := handleAgentEnroll Demo.any Demo.Hash (Demo.env 1 "a" "b") (λ n, Some (stored !! n)) verifiers ∅ "Bearer jwt" (Some ask) no_agents.
End DemoPolicy.

Lemma external_bounded_witness :
  match DemoPolicy.answer with
  | (Granted r, d') =>
      (ts_AgentID r = "k8s:c1:ci:uid-1" ∧ ts_Labels r = ["linux"; "gpu"])
      ∧ ∃ p, DemoPolicy.stored !! "builders" = Some p ∧ ep_Enabled p = true ∧ ep_Provider p = "kubernetes"
        ∧ ((∃ verify token w, "kubernetes" = "kubernetes" ∧ DemoPolicy.verifiers !! pc_Cluster (ep_ProviderConfig p) = Some verify
              ∧ bearerToken "Bearer jwt" = Some token ∧ verify token p = inr w ∧ ts_AgentID r = k8s_agent_id w)
           ∨ ∃ verify bearer, "kubernetes" ∈ ["aws"; "gcp"; "azure"]
              ∧ (∅ : gmap string (string → option AWSSignedRequest → AgentEnrollmentPolicy → verify_error + string)) !! "kubernetes" = Some verify
              ∧ verify bearer None p = inr (ts_AgentID r))
        ∧ (∀ l, l ∈ er_Labels DemoPolicy.ask → l ∈ ep_AllowedLabels p)
        ∧ (∀ l, l ∈ ts_Labels r ↔ l ∈ ep_RequiredLabels p ∨ l ∈ er_Labels DemoPolicy.ask)
        ∧ ts_RefreshToken r = EmptyString
        ∧ (1 + minAgentEnrollmentPolicyTTL ≤ ts_AccessExpiresAt r ≤ 1 + maxAgentEnrollmentPolicyTTL)%Z
        ∧ ∃ k i, ad_identities d' !! k = Some i ∧ ai_AgentID i = ts_AgentID r ∧ ai_EnrollmentMethod i = "kubernetes"
            ∧ ai_ExternalSubject i = Some (ts_AgentID r) ∧ ai_Status i = active
  | _ => False
  end.
Proof.
  destruct DemoPolicy.answer as [[s|r] d1] eqn:E.
  - exfalso. vm_compute in E. discriminate.
  - split; [vm_compute in E; by injection E as <- _|].
    refine (external_bounded Demo.any Demo.Hash Demo.PD DemoPolicy.show (Demo.env 1 "a" "b") DemoPolicy.stored DemoPolicy.verifiers ∅
      "Bearer jwt" DemoPolicy.ask no_agents r d1 _ _ E); [|done].
    apply rtc_once. exact (ps_create Demo.PD DemoPolicy.show true (Some DemoPolicy.request) ∅).
Defined.

Lemma agent_tables_wf_witness :
  (∀ k c, ad_credentials Demo.enrolled !! k = Some c →
     ∃ i, ad_identities Demo.enrolled !! cr_IdentityID c = Some i ∧ (ai_Status i = disabled → is_Some (cr_RevokedAt c)))
  ∧ (∀ k i k' i', ad_identities Demo.enrolled !! k = Some i → ad_identities Demo.enrolled !! k' = Some i' →
       ai_AgentID i = ai_AgentID i' ∨ (is_Some (ai_ExternalSubject i) ∧ ai_EnrollmentMethod i = ai_EnrollmentMethod i'
                                         ∧ ai_ExternalSubject i = ai_ExternalSubject i') → k = k')
  ∧ (∀ f k c k' c', ad_credentials Demo.enrolled !! k = Some c → ad_credentials Demo.enrolled !! k' = Some c' →
       cr_FamilyID c = Some f → cr_FamilyID c' = Some f → cr_IdentityID c = cr_IdentityID c' ∧ (is_head f c → is_head f c' → k = k'))
  ∧ ∀ k c, ad_credentials Demo.enrolled !! k = Some c → is_Some (cr_SupersededAt c) →
       cr_Kind c = refresh ∧ ∃ rid r, cr_ReplacedBy c = Some rid ∧ ad_credentials Demo.enrolled !! rid = Some r ∧ cr_Kind r = refresh
         ∧ cr_FamilyID r = cr_FamilyID c ∧ cr_IdentityID r = cr_IdentityID c ∧ cr_Generation r = (cr_Generation c + 1)%Z.
Proof. exact (agent_tables_wf Demo.any Demo.Hash Demo.PD Demo.enrolled Demo.to_enrolled). Defined.

Lemma agents_keep_identity_witness :
  let i' := with_status false 2 Demo.identity in
  ad_identities (cut_off true "agent-00000001" 2 Demo.enrolled).2 !! "identity" = Some i'
  ∧ "identity" = "identity" ∧ ai_EnrollmentMethod i' = ai_EnrollmentMethod Demo.identity
  ∧ ai_ExternalSubject i' = ai_ExternalSubject Demo.identity.
Proof.
  cbv zeta. split; [by vm_compute|].
  apply (agents_keep_identity Demo.any Demo.Hash Demo.PD Demo.enrolled (cut_off true "agent-00000001" 2 Demo.enrolled).2);
    [exact Demo.to_enrolled|apply rtc_once, (cut_off_step Demo.any Demo.Hash Demo.PD true)|by vm_compute|by vm_compute|done].
Defined.

Lemma enroll_only_bounded_witness :
  match handleCreateAgentEnrollment Demo.Hash Demo.PD true zero_principal (Demo.uuid "1") (Some (Demo.uuid "e", Demo.secret)) 0
          (Some (MkCreateEnrollment "" "" [])) no_agents with
  | (status, Some resp, d') =>
      status = 201%Z
      ∧ ∃ t, ad_tokens d' !! cn_ID resp = Some t ∧ et_TokenHash t = Demo.Hash (cn_Token resp) ∧ et_AgentID t = generateAgentID (Demo.uuid "1")
        ∧ (∀ l, l ∈ et_AuthorizedLabels t → l ∈ default [] (pr_EnrollLabels zero_principal)) ∧ et_AuthorizedCapabilities t = []
        ∧ (0 < et_ExpiresAt t ≤ 0 + maxAgentEnrollmentTTL)%Z
  | _ => False
  end.
Proof.
  destruct (handleCreateAgentEnrollment _ _ _ _ _ _ _ _ _) as [[status [resp|]] d'] eqn:E; [|exfalso; vm_compute in E; discriminate].
  assert (status = 201%Z) as -> by (vm_compute in E; by injection E as <- _). split; [done|].
  apply (enroll_only_bounded Demo.Hash Demo.PD true zero_principal (Demo.uuid "1") (Some (Demo.uuid "e", Demo.secret)) 0
           (Some (MkCreateEnrollment "" "" [])) no_agents resp d'); [by vm_compute|exact E].
Defined.
