(* ===== verification/Resources.v ===== *)
(** * internal/store: the tables of declared resources

    Jobs, schedules, webhook receivers, git credentials, variables and sources,
    a function per statement of [store/postgres.go], with the two foreign keys
    (schedules and runs refer to their job and are deleted with it).  A statement
    that violates a constraint is [None].  Times are in nanoseconds; a jsonb value
    is its canonical text. *)

From S2P Require Import Prelude GoStrings DslNames DslKinds Schedules.
From stdpp Require Import options.

Record ResourceRef := MkRef { rr_Kind : string; rr_Name : string }.
#[export] Instance ResourceRef_eq_dec : EqDecision ResourceRef.
Proof. solve_decision. Defined.

Record job_row := MkJobRow { jr_APIVersion : string; jr_Spec : string }.
Record GitCredential := MkGitCredential { gc_Host : string; gc_CredType : string; gc_SecretRef : string; gc_UpdatedAt : Z }.
Record AppSource := MkAppSource {
  as_Spec : string;
  as_LastSyncedAt : option Z;
  as_LastCommit : string;
  as_ManagedResources : list ResourceRef;
  as_UpdatedAt : Z;
  as_SyncStatus : string;
  as_LastError : string
}.

(** The tables, by name; of the runs the column [job_name], by identifier. *)
Record resources := MkResources {
  rs_jobs : gmap string job_row;
  rs_schedules : gmap string Schedule;
  rs_webhooks : gmap string string;
  rs_creds : gmap string GitCredential;
  rs_vars : gmap string string;
  rs_sources : gmap string AppSource;
  rs_runs : gmap string string
}.

Definition set_jobs x s := MkResources x (rs_schedules s) (rs_webhooks s) (rs_creds s) (rs_vars s) (rs_sources s) (rs_runs s).
Definition set_schedules x s := MkResources (rs_jobs s) x (rs_webhooks s) (rs_creds s) (rs_vars s) (rs_sources s) (rs_runs s).
Definition set_webhooks x s := MkResources (rs_jobs s) (rs_schedules s) x (rs_creds s) (rs_vars s) (rs_sources s) (rs_runs s).
Definition set_creds x s := MkResources (rs_jobs s) (rs_schedules s) (rs_webhooks s) x (rs_vars s) (rs_sources s) (rs_runs s).
Definition set_vars x s := MkResources (rs_jobs s) (rs_schedules s) (rs_webhooks s) (rs_creds s) x (rs_sources s) (rs_runs s).
Definition set_sources x s := MkResources (rs_jobs s) (rs_schedules s) (rs_webhooks s) (rs_creds s) (rs_vars s) x (rs_runs s).
Definition set_runs x s := MkResources (rs_jobs s) (rs_schedules s) (rs_webhooks s) (rs_creds s) (rs_vars s) (rs_sources s) x.

(** ** Jobs *)

Definition UpsertJob (name apiVersion spec : string) (s : resources) : resources :=
  set_jobs (<[name := MkJobRow apiVersion spec]> (rs_jobs s)) s.

(** [ON DELETE CASCADE] of the two references to [jobs]. *)
Definition drop_job (name : string) (s : resources) : resources :=
  set_runs (filter (λ kv, kv.2 ≠ name) (rs_runs s))
    (set_schedules (filter (λ kv, sd_JobName kv.2 ≠ name) (rs_schedules s))
       (set_jobs (delete name (rs_jobs s)) s)).

Definition DeleteJob (name : string) (s : resources) : resources :=
  match rs_jobs s !! name with None => s | Some _ => drop_job name s end.

Definition RenameJob (oldName newName : string) (s : resources) : resources :=
  if (oldName =? newName)%string then s
  else
    let s1 := match rs_jobs s !! oldName, rs_jobs s !! newName with
              | Some row, None => set_jobs (<[newName := row]> (rs_jobs s)) s
              | _, _ => s
              end in
    match rs_jobs s1 !! newName with
    | None => s1
    | Some _ => DeleteJob oldName (set_runs ((λ j, if (j =? oldName)%string then newName else j) <$> rs_runs s1) s1)
    end.

(** ** Schedules, webhook receivers, variables, credentials *)

(** [UpsertSchedule] under [schedules_job_name_fkey]. *)
Definition upsert_schedule (name cron jobName : string) (params : gmap string string) (s : resources) : option resources :=
  match rs_jobs s !! jobName with
  | None => None
  | Some _ => Some (set_schedules (UpsertSchedule name cron jobName params (rs_schedules s)) s)
  end.
Definition DeleteSchedule (name : string) (s : resources) : resources := set_schedules (delete name (rs_schedules s)) s.

Definition UpsertWebhookReceiver (name spec : string) (s : resources) : resources := set_webhooks (<[name := spec]> (rs_webhooks s)) s.
Definition DeleteWebhookReceiver (name : string) (s : resources) : resources := set_webhooks (delete name (rs_webhooks s)) s.

Definition UpsertVars (name specJSON : string) (s : resources) : resources := set_vars (<[name := specJSON]> (rs_vars s)) s.
Definition ListVars (s : resources) : list (string * string) := omap (λ n, pair n <$> rs_vars s !! n) (sorted_keys (rs_vars s)).
Definition DeleteVars (name : string) (s : resources) : resources := set_vars (delete name (rs_vars s)) s.

(** [git_credentials_cred_type_check]. *)
Definition UpsertGitCredential (name host credType secretRef : string) (now : Z) (s : resources) : option resources :=
  if (credType =? "token")%string || (credType =? "sshKey")%string
  then Some (set_creds (<[name := MkGitCredential host credType secretRef now]> (rs_creds s)) s) else None.
Definition DeleteGitCredential (name : string) (s : resources) : resources := set_creds (delete name (rs_creds s)) s.

(** [ORDER BY updated_at DESC LIMIT 1]; between equal times, the first by name. *)
Definition newest (l : list GitCredential) : option GitCredential :=
  foldl (λ best c, match best with
                   | Some b => if (gc_UpdatedAt b <? gc_UpdatedAt c)%Z then Some c else best
                   | None => Some c
                   end) None l.
Definition GetGitCredentialByHost (host : string) (s : resources) : option GitCredential :=
  newest (filter (λ c, gc_Host c = host) (omap (λ n, rs_creds s !! n) (sorted_keys (rs_creds s)))).

(** ** Sources *)

Definition UpsertAppSource (name spec : string) (now : Z) (s : resources) : resources :=
  let row := match rs_sources s !! name with
             | None => MkAppSource spec None "" [] now "" ""
             | Some a =>
                 MkAppSource spec (as_LastSyncedAt a) (if decide (as_Spec a = spec) then as_LastCommit a else "")
                   (as_ManagedResources a) now (as_SyncStatus a) (as_LastError a)
             end in
  set_sources (<[name := row]> (rs_sources s)) s.

Definition ListAppSources (s : resources) : list (string * AppSource) :=
  omap (λ n, pair n <$> rs_sources s !! n) (sorted_keys (rs_sources s)).
Definition DeleteAppSource (name : string) (s : resources) : resources := set_sources (delete name (rs_sources s)) s.

Definition UpdateAppSourceSyncState (name lastCommit : string) (syncedAt : Z) (managed : list ResourceRef) (now : Z) (s : resources)
  : resources :=
  set_sources (alter (λ a, MkAppSource (as_Spec a) (Some syncedAt) lastCommit managed now "Synced" "") name (rs_sources s)) s.

Definition ResetAppSourceCommit (name : string) (now : Z) (s : resources) : resources :=
  set_sources (alter (λ a, MkAppSource (as_Spec a) (as_LastSyncedAt a) "" (as_ManagedResources a) now (as_SyncStatus a) (as_LastError a))
                 name (rs_sources s)) s.

Definition SetAppSourceSyncStatus (name status lastError : string) (now : Z) (s : resources) : resources :=
  set_sources (alter (λ a, MkAppSource (as_Spec a) (as_LastSyncedAt a) (as_LastCommit a) (as_ManagedResources a) now status lastError)
                 name (rs_sources s)) s.

Definition stuckSyncingResetError : string :=
  "sync reset by reaper: stuck in Syncing past timeout (previous sync did not complete — reconciler crash, process restart, or leadership change)".
Definition stuck_syncing (olderThan now : Z) (a : AppSource) : bool :=
  (as_SyncStatus a =? "Syncing")%string && (as_UpdatedAt a <? now - olderThan)%Z.
Definition reset_stuck (olderThan now : Z) (a : AppSource) : AppSource :=
  if stuck_syncing olderThan now a
  then MkAppSource (as_Spec a) (as_LastSyncedAt a) "" (as_ManagedResources a) now "Failed" stuckSyncingResetError else a.
Definition ResetStuckSyncingAppSources (olderThan now : Z) (s : resources) : nat * resources :=
  (size (filter (λ kv, stuck_syncing olderThan now kv.2 = true) (rs_sources s)),
   set_sources (reset_stuck olderThan now <$> rs_sources s) s).

(** [FindManagingAppSource]: [managed_resources @> ...] over the rows in the order
    in which the database scans them. *)
Definition FindManagingAppSource (scan : gmap string AppSource → list (string * AppSource)) (kind name : string) (s : resources)
  : option (string * AppSource) :=
  head (filter (λ row, MkRef kind name ∈ as_ManagedResources row.2) (scan (rs_sources s))).
