(* ===== verification/AppSync.v ===== *)
(** * internal/controller: synchronizing declared resources from Git

    A synced document applied or deleted ([appsource_apply.go]), the pass of the
    reconciler ([appsource_reconciler.go], [reldir.go]) and the reaper of stuck
    syncs ([appsource_sync_reaper.go]), over the tables of [Resources].  YAML,
    JSON, git, the key manager and [url.Parse] are parameters. *)

From S2P Require Import Prelude GoStrings GoPath Regex DslNames DslTypes DslCondition DslValidate DslKinds Schedules Resources.
From stdpp Require Import options.

(** ** Names of jobs in a tree *)

Definition QualifiedName (m : Metadata) : string := QualifyName (default EmptyString (me_Annotations m !! "path")) (me_Name m).

(** [path.Dir] *)
Definition Dir (p : string) : string :=
  match split_last "/" p with None => Clean EmptyString | Some (d, _) => Clean (d +:+ "/") end.

Definition relDir (specPath filePath : string) : string :=
  let prefix := Trim "/" specPath in
  let rel := TrimPrefix (TrimPrefix filePath prefix) "/" in
  let dir := Dir rel in
  if (dir =? ".")%string then "" else dir.

(** ** Decoding

    [cd_unmarshal_source] gives what [json.Unmarshal] filled in, and whether
    without an error. *)

Record codecs := MkCodecs {
  cd_probeKind : string → string;
  cd_probeName : string → string;
  cd_raw : string → option vmap;
  cd_job : string → res Job;
  cd_schedule : string → res (Document ScheduleSpec);
  cd_webhook : string → res (Document WebhookReceiverSpec);
  cd_credential : string → res (Document GitCredentialSpec);
  cd_source : string → res (Document AppSourceSpec);
  cd_vars : string → res (Document VarsSpec);
  cd_marshal_job : Spec → res string;
  cd_marshal_webhook : WebhookReceiverSpec → res string;
  cd_marshal_source : AppSourceSpec → res string;
  cd_marshal_vars : VarsSpec → res string;
  cd_unmarshal_source : string → AppSourceSpec * bool;
  cd_unmarshal_vars : string → res VarsSpec;
  cd_CompileExpr : string → cel_issue + cel_ast;
  cd_ParseQuantity : string → option text;
  cd_ParseDuration : string → res Z;
  cd_parseCron : string → res unit;
  cd_sprint : val → string;
  cd_gosyntax : val → string;
  cd_quote : string → string;
  cd_redact : string → string
}.

Section sync.
Variable K : codecs.

Definition duration_error (s : string) : option text := match cd_ParseDuration K s with Ok _ => None | Err e => Some e end.

(** [dsl.Parse] *)
Definition ParseJob (doc : string) : res Job :=
  _ ← checkForbiddenJobFields (cd_raw K doc);
  job ← cd_job K doc;
  _ ← Job_Validate (cd_CompileExpr K) (cd_ParseQuantity K) duration_error (cd_sprint K) (cd_gosyntax K) (cd_quote K) job;
  Ok job.

(** ** appsource_apply.go *)

(** An error that skips one file, or one of the store, which ends the sync. *)
Inductive apply_error :=
| Skippable (e : text)
| StoreWrite.

Definition parsed {A} (r : res A) (k : A → apply_error + (string * resources)) : apply_error + (string * resources) :=
  match r with Ok a => k a | Err e => inl (Skippable e) end.

(** The statement, which may fail, and the name of what it wrote. *)
Definition written (ok : bool) (name : string) (s' : option resources) : apply_error + (string * resources) :=
  match s' with Some s1 => if ok then inr (name, s1) else inl StoreWrite | None => inl StoreWrite end.

Definition annotate_path (dir : string) (m : Metadata) : Metadata :=
  MkMetadata (me_Name m) (me_Labels m) (<["path" := dir]> (me_Annotations m)).

Definition applyResource (ok : bool) (now : Z) (kind dir doc : string) (s : resources) : apply_error + (string * resources) :=
  if (kind =? "Job")%string then
    parsed (ParseJob doc) (λ job, parsed (cd_marshal_job K (j_Spec job)) (λ specJSON,
      let name := QualifiedName (annotate_path dir (j_Metadata job)) in
      written ok name (Some (UpsertJob name (j_APIVersion job) specJSON s))))
  else if (kind =? "Schedule")%string then
    parsed (ParseSchedule (cd_parseCron K) (cd_schedule K doc)) (λ sc,
      let sp := dc_Spec sc in
      written ok (dc_Name sc) (upsert_schedule (dc_Name sc) (sh_Cron sp) (sh_Job sp) (sh_Params sp) s))
  else if (kind =? "WebhookReceiver")%string then
    parsed (ParseWebhookReceiver (cd_webhook K doc)) (λ wr, parsed (cd_marshal_webhook K (dc_Spec wr)) (λ specJSON,
      written ok (dc_Name wr) (Some (UpsertWebhookReceiver (dc_Name wr) specJSON s))))
  else if (kind =? "GitCredential")%string then
    parsed (ParseGitCredential (cd_credential K doc)) (λ gc,
      let sp := dc_Spec gc in
      written ok (dc_Name gc) (UpsertGitCredential (dc_Name gc) (gs_Host sp) (gs_Type sp) (gs_SecretRef sp) now s))
  else if (kind =? "AppSource")%string then
    parsed (ParseAppSource (cd_redact K) (cd_ParseDuration K) (cd_source K doc)) (λ a, parsed (cd_marshal_source K (dc_Spec a)) (λ specJSON,
      written ok (dc_Name a) (Some (UpsertAppSource (dc_Name a) specJSON now s))))
  else if (kind =? "Vars")%string then
    parsed (ParseVars (cd_quote K) (cd_vars K doc)) (λ v, parsed (cd_marshal_vars K (dc_Spec v)) (λ specJSON,
      written ok (dc_Name v) (Some (UpsertVars (dc_Name v) specJSON s))))
  else inl (Skippable [Lit "unsupported kind "; Quo kind]).

(** [None] for an unsupported kind. *)
Definition deleteResource (r : ResourceRef) (s : resources) : option resources :=
  let name := rr_Name r in
  if (rr_Kind r =? "Job")%string then Some (DeleteJob name s)
  else if (rr_Kind r =? "Schedule")%string then Some (DeleteSchedule name s)
  else if (rr_Kind r =? "WebhookReceiver")%string then Some (DeleteWebhookReceiver name s)
  else if (rr_Kind r =? "GitCredential")%string then Some (DeleteGitCredential name s)
  else if (rr_Kind r =? "AppSource")%string then Some (DeleteAppSource name s)
  else if (rr_Kind r =? "Vars")%string then Some (DeleteVars name s)
  else None.

(** ** appsource_reconciler.go *)

Record Credential := MkCredential { cr_Token : string; cr_SSHKey : string }.
Definition no_credential : Credential := MkCredential "" "".

(** What the sync of a source meets: the time, what git answers, the secrets as
    they decrypt, which statements succeed, and the order in which the map of the
    seen resources is ranged over. *)
Record sync_env := MkSyncEnv {
  sy_now : Z;
  sy_ResolveCommitSHA : string → string → Credential → res string;
  sy_FetchDir : string → string → string → Credential → res (gmap string string);
  sy_km : bool;
  sy_hostname : string → option string;
  sy_creds_ok : bool;
  sy_secret : string → res string;
  sy_write_ok : string → bool;
  sy_rename_ok : string → bool;
  sy_delete_ok : ResourceRef → bool;
  sy_state_ok : bool;
  sy_range : list ResourceRef → list ResourceRef
}.

Definition resolveCredential (e : sync_env) (repoURL : string) (s : resources) : res Credential :=
  if negb (sy_km e) then Ok no_credential
  else
    match sy_hostname e repoURL with
    | None => Ok no_credential
    | Some host =>
        if (host =? "")%string then Ok no_credential
        else
          match (if sy_creds_ok e then GetGitCredentialByHost host s else None) with
          | None => Ok no_credential
          | Some gc =>
              plaintext ← sy_secret e (gc_SecretRef gc);
              if (gc_CredType gc =? "token")%string then Ok (MkCredential plaintext "")
              else if (gc_CredType gc =? "sshKey")%string then Ok (MkCredential "" plaintext)
              else Ok no_credential
          end
    end.

Definition shouldSync (src : AppSource) (spec : AppSourceSpec) (now : Z) : bool :=
  match as_LastSyncedAt src with
  | None => true
  | Some t => (as_LastCommit src =? "")%string || (IntervalDuration (cd_ParseDuration K) spec <=? now - t)%Z
  end.

(** What the loop over the files carries: the tables, the resources applied in
    order (the map [seen] holds the same), the number of files skipped. *)
Record progress := MkProgress { pg_tables : resources; pg_current : list ResourceRef; pg_skipped : nat }.

(** [inr None] is a duplicate. *)
Definition applyTrackedResource (ok : bool) (now : Z) (spec : AppSourceSpec) (doc fp : string) (seen : list ResourceRef) (s : resources)
  : apply_error + option (ResourceRef * resources) :=
  let kind := cd_probeKind K doc in
  let dir := relDir (sc_Path spec) fp in
  let refName := if (kind =? "Job")%string then QualifyName dir (cd_probeName K doc) else cd_probeName K doc in
  if decide (MkRef kind refName ∈ seen) then inr None
  else match applyResource ok now kind dir doc s with
       | inl err => inl err
       | inr (name, s') => inr (Some (MkRef kind name, s'))
       end.

(** The body of the loop; [inl] aborts the sync. *)
Definition apply_file (e : sync_env) (spec : AppSourceSpec) (fp doc : string) (p : progress) : text + progress :=
  match applyTrackedResource (sy_write_ok e fp) (sy_now e) spec doc fp (pg_current p) (pg_tables p) with
  | inl StoreWrite => inl [Lit "apply "; Lit (cd_probeKind K doc); Lit " ("; Lit fp; Lit "): store write failed"]
  | inl (Skippable _) => inr (MkProgress (pg_tables p) (pg_current p) (S (pg_skipped p)))
  | inr None => inr p
  | inr (Some (ref, s')) => inr (MkProgress s' (pg_current p ++ [ref]) (pg_skipped p))
  end.

Fixpoint apply_files (e : sync_env) (spec : AppSourceSpec) (files : list (string * string)) (p : progress) : option text * progress :=
  match files with
  | [] => (None, p)
  | (fp, doc) :: rest =>
      match apply_file e spec fp doc p with
      | inl err => (Some err, p)
      | inr p' => apply_files e spec rest p'
      end
  end.

Definition first_pass (doc : string) : bool := existsb (String.eqb (cd_probeKind K doc)) ["GitCredential"; "Job"].

(** The files by path, those of the first pass first. *)
Definition ordered_files (files : gmap string string) : list (string * string) :=
  let l := omap (λ fp, pair fp <$> files !! fp) (sorted_keys files) in
  filter (λ f, first_pass f.2 = true) l ++ filter (λ f, first_pass f.2 = false) l.

(** The qualified name that [legacyLeaf] holds for a bare one. *)
Definition legacyLeaf (e : sync_env) (seen : list ResourceRef) (bare : string) : option string :=
  head (omap (λ r, if (rr_Kind r =? "Job")%string then
                     let leaf := (SplitQualifiedName (rr_Name r)).2 in
                     if negb (leaf =? rr_Name r)%string && (leaf =? bare)%string then Some (rr_Name r) else None
                   else None) (sy_range e seen)).

(** The body of the prune loop. *)
Definition prune_one (e : sync_env) (spec : AppSourceSpec) (seen : list ResourceRef) (s : resources) (prev : ResourceRef) : resources :=
  if decide (prev ∈ seen) then s
  else
    match (if (rr_Kind prev =? "Job")%string && negb (Contains (rr_Name prev) "/") then legacyLeaf e seen (rr_Name prev) else None) with
    | Some qualified => if sy_rename_ok e (rr_Name prev) then RenameJob (rr_Name prev) qualified s else s
    | None =>
        if sp_Prune (sc_SyncPolicy spec) && sy_delete_ok e prev then default s (deleteResource prev s) else s
    end.

Definition finishSync (e : sync_env) (name : string) (src : AppSource) (spec : AppSourceSpec) (headSHA : string)
    (current : list ResourceRef) (s : resources) : option text * resources :=
  let s1 := foldl (prune_one e spec current) s (as_ManagedResources src) in
  if sy_state_ok e then (None, UpdateAppSourceSyncState name headSHA (sy_now e) current (sy_now e) s1)
  else (Some [Lit "update sync state"], s1).

(** [Some] is the error; [src] and [spec] are the row as the pass listed it. *)
Definition syncAppSource (e : sync_env) (name : string) (src : AppSource) (spec : AppSourceSpec) (s : resources) : option text * resources :=
  match ValidateGitFields (cd_redact K) spec with
  | Err err => (Some (Lit "invalid AppSource spec: " :: err), s)
  | Ok _ =>
      match resolveCredential e (sc_RepoURL spec) s with
      | Err err => (Some (Lit "failed to resolve credential: " :: err), s)
      | Ok cred =>
          match sy_ResolveCommitSHA e (sc_RepoURL spec) (sc_TargetRevision spec) cred with
          | Err err => (Some (Lit "failed to resolve commit SHA: " :: err), s)
          | Ok headSHA =>
              if (headSHA =? as_LastCommit src)%string && negb (as_LastCommit src =? "")%string then (None, s)
              else
                match sy_FetchDir e (sc_RepoURL spec) (sc_TargetRevision spec) (sc_Path spec) cred with
                | Err err => (Some (Lit "failed to fetch directory: " :: err), s)
                | Ok files =>
                    match apply_files e spec (ordered_files files) (MkProgress s [] 0) with
                    | (Some err, p) => (Some err, pg_tables p)
                    | (None, p) => finishSync e name src spec headSHA (pg_current p) (pg_tables p)
                    end
                end
          end
      end
  end.

(** The body of the loop of [reconcileAppSources], and the pass: the rows are
    listed once. *)
Definition reconcile_one (e : sync_env) (status_ok : bool) (row : string * AppSource) (s : resources) : resources :=
  match cd_unmarshal_source K (as_Spec row.2) with
  | (_, false) => s
  | (spec, true) =>
      if negb (shouldSync row.2 spec (sy_now e)) then s
      else
        match syncAppSource e row.1 row.2 spec s with
        | (None, s') => s'
        | (Some err, s') =>
            if status_ok then SetAppSourceSyncStatus row.1 "Failed" (cd_redact K (render (cd_quote K) err)) (sy_now e) s' else s'
        end
  end.

Definition reconcileAppSources (leader list_ok : bool) (env : string → sync_env) (status_ok : string → bool) (s : resources) : resources :=
  if leader && list_ok
  then foldl (λ s row, reconcile_one (env row.1) (status_ok row.1) row s) s (ListAppSources s)
  else s.

(** ** appsource_sync_reaper.go *)

Definition runAppSourceSyncReaperOnce (leader ok : bool) (staleAfter now : Z) (s : resources) : nat * resources :=
  if leader && ok then ResetStuckSyncingAppSources staleAfter now s else (0, s).
End sync.
