(* ===== verification/AppSyncFacts.v ===== *)
(** * What a sync from Git does to the tables

    The rows of the declared resources as a function of their references, what
    each statement does to them, and the exact effect of a successful sync. *)

From S2P Require Import Prelude GoStrings GoPath Regex DslNames DslTypes DslCondition DslValidate DslKinds Schedules Resources AppSync.
From stdpp Require Import options.

(** ** Rows by reference *)

Inductive row :=
| RowJob (r : job_row)
| RowSchedule (cron job : string) (params : gmap string string)
| RowWebhook (spec : string)
| RowCredential (host credType secretRef : string)
| RowSource (spec : string)
| RowVars (spec : string).

Definition row_of (r : ResourceRef) (s : resources) : option row :=
  let n := rr_Name r in
  if (rr_Kind r =? "Job")%string then RowJob <$> rs_jobs s !! n
  else if (rr_Kind r =? "Schedule")%string then (λ sc, RowSchedule (sd_Cron sc) (sd_JobName sc) (sd_Params sc)) <$> rs_schedules s !! n
  else if (rr_Kind r =? "WebhookReceiver")%string then RowWebhook <$> rs_webhooks s !! n
  else if (rr_Kind r =? "GitCredential")%string then (λ c, RowCredential (gc_Host c) (gc_CredType c) (gc_SecretRef c)) <$> rs_creds s !! n
  else if (rr_Kind r =? "AppSource")%string then (λ a, RowSource (as_Spec a)) <$> rs_sources s !! n
  else if (rr_Kind r =? "Vars")%string then RowVars <$> rs_vars s !! n
  else None.

(** Case analysis on the kind of a reference, with its name. *)
Ltac by_kind r :=
  let k := fresh "k" in let n := fresh "n" in
  destruct r as [k n]; unfold row_of; cbn [rr_Kind rr_Name];
  repeat match goal with |- context [(k =? ?K)%string] => destruct (String.eqb_spec k K) as [->|?] end; cbn.

Ltac map_row :=
  repeat match goal with
         | |- context [<[?i:=_]> _ !! ?i] => rewrite lookup_insert_eq
         | |- context [delete ?i _ !! ?i] => rewrite lookup_delete_eq
         | |- context [<[_:=_]> _ !! _] => rewrite lookup_insert_ne by congruence
         | |- context [delete _ _ !! _] => rewrite lookup_delete_ne by congruence
         | |- context [alter _ ?i _ !! ?i] => rewrite lookup_alter_eq
         | |- context [alter _ _ _ !! _] => rewrite lookup_alter_ne by congruence
         end.

Section rows.
Implicit Types (s : resources) (r : ResourceRef).

Lemma upsert_job_row n v spec s r :
  row_of r (UpsertJob n v spec s) = if decide (r = MkRef "Job" n) then Some (RowJob (MkJobRow v spec)) else row_of r s.
Proof. by_kind r; case_decide; simplify_eq; map_row; done. Qed.

Lemma upsert_schedule_row n cron job ps s s' r :
  upsert_schedule n cron job ps s = Some s' →
  row_of r s' = if decide (r = MkRef "Schedule" n) then Some (RowSchedule cron job ps) else row_of r s.
Proof.
  unfold upsert_schedule. destruct (_ !! job); [|done]. intros [= <-]. unfold UpsertSchedule.
  by_kind r; case_decide; simplify_eq; rewrite ?lookup_partial_alter_eq, ?lookup_partial_alter_ne by congruence; done.
Qed.

Lemma upsert_webhook_row n spec s r :
  row_of r (UpsertWebhookReceiver n spec s) = if decide (r = MkRef "WebhookReceiver" n) then Some (RowWebhook spec) else row_of r s.
Proof. by_kind r; case_decide; simplify_eq; map_row; done. Qed.

Lemma upsert_vars_row n spec s r :
  row_of r (UpsertVars n spec s) = if decide (r = MkRef "Vars" n) then Some (RowVars spec) else row_of r s.
Proof. by_kind r; case_decide; simplify_eq; map_row; done. Qed.

Lemma upsert_credential_row n h t sr now s s' r :
  UpsertGitCredential n h t sr now s = Some s' →
  row_of r s' = if decide (r = MkRef "GitCredential" n) then Some (RowCredential h t sr) else row_of r s.
Proof.
  unfold UpsertGitCredential. destruct (_ || _); [|done]. intros [= <-].
  by_kind r; case_decide; simplify_eq; map_row; done.
Qed.

Lemma upsert_source_row n spec now s r :
  row_of r (UpsertAppSource n spec now s) = if decide (r = MkRef "AppSource" n) then Some (RowSource spec) else row_of r s.
Proof.
  unfold UpsertAppSource. by_kind r; case_decide; simplify_eq; map_row; try done. cbn. by destruct (rs_sources s !! _).
Qed.

(** The statements on the state of sources change no row. *)
Lemma alter_source_row f n s r :
  (∀ a, as_Spec (f a) = as_Spec a) → row_of r (set_sources (alter f n (rs_sources s)) s) = row_of r s.
Proof.
  intros Hf. by_kind r; try done. destruct (decide (n = n0)) as [->|]; map_row; [|done].
  destruct (rs_sources s !! _); [|done]. cbn. by rewrite Hf.
Qed.

(** Deleting: the row goes, and with a job the schedules that refer to it. *)
Definition refers (r : ResourceRef) (job : string) (s : resources) : Prop :=
  rr_Kind r = "Schedule" ∧ ∃ cron ps, row_of r s = Some (RowSchedule cron job ps).

Lemma drop_job_row n s r :
  (r = MkRef "Job" n ∨ refers r n s) ∧ row_of r (drop_job n s) = None
  ∨ r ≠ MkRef "Job" n ∧ ¬ refers r n s ∧ row_of r (drop_job n s) = row_of r s.
Proof.
  unfold refers. by_kind r; try (right; split_and!; [congruence|naive_solver|done]).
  - destruct (decide (n0 = n)) as [->|].
    + left. map_row. auto.
    + right. map_row. split_and!; [congruence|naive_solver|done].
  - rewrite map_lookup_filter. destruct (rs_schedules s !! n0) as [sc|] eqn:Esc; cbn.
    + destruct (decide (sd_JobName sc = n)) as [<-|].
      * left. split; [right; split; eauto|]. case_guard; [naive_solver|done].
      * right. split_and!; [done|intros [_ (c & p & [=])]; done|]. case_guard; [done|naive_solver].
    + right. split_and!; [done|intros [_ (c & p & [=])]|done].
Qed.

Lemma no_job_row n s : rs_jobs s !! n = None ↔ row_of (MkRef "Job" n) s = None.
Proof. unfold row_of. cbn. by rewrite fmap_None. Qed.

Lemma set_runs_row x s r : row_of r (set_runs x s) = row_of r s.
Proof. by by_kind r. Qed.

Lemma rename_is_delete old new s :
  old ≠ new → is_Some (row_of (MkRef "Job" new) s) → is_Some (rs_jobs s !! old) →
  ∃ runs, RenameJob old new s = drop_job old (set_runs runs s).
Proof.
  unfold row_of. cbn. rewrite fmap_is_Some. intros Hne [new_row Hnew] [old_row Hold]. unfold RenameJob.
  destruct (String.eqb_spec old new) as [->|]; [done|]. rewrite Hold, Hnew. unfold DeleteJob. cbn. rewrite Hnew, Hold. by eexists.
Qed.

Lemma rename_nothing old new s :
  is_Some (row_of (MkRef "Job" new) s) → rs_jobs s !! old = None → ∃ runs, RenameJob old new s = set_runs runs s ∨ RenameJob old new s = s.
Proof.
  unfold row_of. cbn. rewrite fmap_is_Some. intros [new_row Hnew] Hold. unfold RenameJob.
  destruct (String.eqb_spec old new) as [->|]; [exists ∅; by right|]. rewrite Hold. cbn. rewrite Hnew. unfold DeleteJob. cbn. rewrite Hold.
  eexists. by left.
Qed.
End rows.

(** ** What the files declare *)

Definition ok_of {A} (r : res A) : option A := match r with Ok a => Some a | Err _ => None end.

Section declared.
Variable K : codecs.

(** The name and row of a document, if it is accepted, from its text alone. *)
Definition declared (kind dir doc : string) : option (string * row) :=
  if (kind =? "Job")%string then
    job ← ok_of (ParseJob K doc); specJSON ← ok_of (cd_marshal_job K (j_Spec job));
    Some (QualifiedName (annotate_path dir (j_Metadata job)), RowJob (MkJobRow (j_APIVersion job) specJSON))
  else if (kind =? "Schedule")%string then
    sc ← ok_of (ParseSchedule (cd_parseCron K) (cd_schedule K doc));
    Some (dc_Name sc, RowSchedule (sh_Cron (dc_Spec sc)) (sh_Job (dc_Spec sc)) (sh_Params (dc_Spec sc)))
  else if (kind =? "WebhookReceiver")%string then
    wr ← ok_of (ParseWebhookReceiver (cd_webhook K doc)); specJSON ← ok_of (cd_marshal_webhook K (dc_Spec wr));
    Some (dc_Name wr, RowWebhook specJSON)
  else if (kind =? "GitCredential")%string then
    gc ← ok_of (ParseGitCredential (cd_credential K doc));
    Some (dc_Name gc, RowCredential (gs_Host (dc_Spec gc)) (gs_Type (dc_Spec gc)) (gs_SecretRef (dc_Spec gc)))
  else if (kind =? "AppSource")%string then
    a ← ok_of (ParseAppSource (cd_redact K) (cd_ParseDuration K) (cd_source K doc)); specJSON ← ok_of (cd_marshal_source K (dc_Spec a));
    Some (dc_Name a, RowSource specJSON)
  else if (kind =? "Vars")%string then
    v ← ok_of (ParseVars (cd_quote K) (cd_vars K doc)); specJSON ← ok_of (cd_marshal_vars K (dc_Spec v)); Some (dc_Name v, RowVars specJSON)
  else None.

(** The effect of a step on the rows: one of them is written. *)
Definition writes (r0 : ResourceRef) (rw : row) (s s' : resources) : Prop :=
  ∀ r, row_of r s' = if decide (r = r0) then Some rw else row_of r s.

Lemma applyResource_spec ok now kind dir doc s :
  match applyResource K ok now kind dir doc s with
  | inl (Skippable _) => declared kind dir doc = None
  | inl StoreWrite => True
  | inr (name, s') => ∃ rw, declared kind dir doc = Some (name, rw) ∧ writes (MkRef kind name) rw s s'
  end.
Proof.
  unfold applyResource, declared, parsed, written, writes.
  repeat match goal with |- context [(kind =? ?k)%string] => destruct (String.eqb_spec kind k) as [->|?] end; cbn [ok_of mbind option_bind].
  - destruct (ParseJob K doc) as [job|]; [|done]. cbn. destruct (cd_marshal_job K _) as [j|]; [|done]. cbn.
    destruct ok; [|done]. eexists. split; [done|]. intros r. apply upsert_job_row.
  - destruct (ParseSchedule _ _) as [sc|]; [|done]. cbn. destruct (upsert_schedule _ _ _ _ _) as [s'|] eqn:E; [|done].
    destruct ok; [|done]. eexists. split; [done|]. intros r. by apply upsert_schedule_row.
  - destruct (ParseWebhookReceiver _) as [wr|]; [|done]. cbn. destruct (cd_marshal_webhook K _); [|done]. cbn.
    destruct ok; [|done]. eexists. split; [done|]. intros r. apply upsert_webhook_row.
  - destruct (ParseGitCredential _) as [gc|]; [|done]. cbn. destruct (UpsertGitCredential _ _ _ _ _ _) as [s'|] eqn:E; [|done].
    destruct ok; [|done]. eexists. split; [done|]. intros r. by eapply upsert_credential_row.
  - destruct (ParseAppSource _ _ _) as [a|]; [|done]. cbn. destruct (cd_marshal_source K _); [|done]. cbn.
    destruct ok; [|done]. eexists. split; [done|]. intros r. apply upsert_source_row.
  - destruct (ParseVars _ _) as [v|]; [|done]. cbn. destruct (cd_marshal_vars K _); [|done]. cbn.
    destruct ok; [|done]. eexists. split; [done|]. intros r. apply upsert_vars_row.
  - done.
Qed.

(** What a file of a tree declares, and the first declaration of a reference. *)
Definition declares (spec : AppSourceSpec) (f : string * string) : option (ResourceRef * row) :=
  (λ nr, (MkRef (cd_probeKind K f.2) nr.1, nr.2)) <$> declared (cd_probeKind K f.2) (relDir (sc_Path spec) f.1) f.2.

Definition declaration (spec : AppSourceSpec) (r : ResourceRef) (f : string * string) : option row :=
  match declares spec f with Some (r', rw) => if decide (r' = r) then Some rw else None | None => None end.
Definition first_declared (spec : AppSourceSpec) (files : list (string * string)) (r : ResourceRef) : option row :=
  head (omap (declaration spec r) files).

(** The two readings of a document agree on its name. *)
Definition probe_agrees : Prop :=
  ∀ doc, (∀ j, cd_job K doc = Ok j → cd_probeName K doc = me_Name (j_Metadata j))
       ∧ (∀ d, cd_schedule K doc = Ok d → cd_probeName K doc = dc_Name d)
       ∧ (∀ d, cd_webhook K doc = Ok d → cd_probeName K doc = dc_Name d)
       ∧ (∀ d, cd_credential K doc = Ok d → cd_probeName K doc = dc_Name d)
       ∧ (∀ d, cd_source K doc = Ok d → cd_probeName K doc = dc_Name d)
       ∧ (∀ d, cd_vars K doc = Ok d → cd_probeName K doc = dc_Name d).

Lemma ok_of_some {A} (r : res A) a : ok_of r = Some a ↔ r = Ok a.
Proof. destruct r; cbn; naive_solver. Qed.

Lemma ParseJob_decodes doc job : ParseJob K doc = Ok job → cd_job K doc = Ok job.
Proof. unfold ParseJob. intros (_ & _ & (j & Hj & (_ & _ & [= <-])%bind_ok)%bind_ok)%bind_ok. done. Qed.

Lemma declared_name kind dir doc name rw :
  probe_agrees → declared kind dir doc = Some (name, rw) →
  name = if (kind =? "Job")%string then QualifyName dir (cd_probeName K doc) else cd_probeName K doc.
Proof.
  intros Hp. specialize (Hp doc) as (P1 & P2 & P3 & P4 & P5 & P6). unfold declared.
  repeat match goal with |- context [(kind =? ?k)%string] => destruct (String.eqb_spec kind k) as [->|?] end; [..|done];
    intros (d & Hd%ok_of_some & H)%bind_Some; try (apply bind_Some in H as (? & _ & H)); injection H as <- _.
  - apply ParseJob_decodes in Hd. unfold QualifiedName, annotate_path. cbn. rewrite lookup_insert_eq. cbn. by rewrite (P1 _ Hd).
  - apply parse_with_ok in Hd as [Hd _]. symmetry. by apply P2.
  - apply parse_with_ok in Hd as [Hd _]. symmetry. by apply P3.
  - apply parse_with_ok in Hd as [Hd _]. symmetry. by apply P4.
  - apply parse_with_ok in Hd as [Hd _]. symmetry. by apply P5.
  - apply parse_with_ok in Hd as [Hd _]. symmetry. by apply P6.
Qed.

(** ** The loop over the files *)

(** The tables and the list of applied resources after some files: what they
    declare first, over the tables before. *)
Definition applied_over (spec : AppSourceSpec) (s : resources) (files : list (string * string)) (p : progress) : Prop :=
  NoDup (pg_current p)
  ∧ (∀ r, r ∈ pg_current p ↔ is_Some (first_declared spec files r))
  ∧ ∀ r, row_of r (pg_tables p) = match first_declared spec files r with Some rw => Some rw | None => row_of r s end.

Lemma first_declared_snoc spec files f r :
  first_declared spec (files ++ [f]) r = match first_declared spec files r with Some rw => Some rw | None => declaration spec r f end.
Proof.
  unfold first_declared. rewrite omap_app. destruct (omap (declaration spec r) files); [|done]. cbn. by destruct (declaration spec r f).
Qed.

Lemma apply_file_step e spec s files fp doc p p' :
  probe_agrees → applied_over spec s files p → apply_file K e spec fp doc p = inr p' → applied_over spec s (files ++ [(fp, doc)]) p'.
Proof.
  intros Hpr (Hnd & Hcur & Hrow). unfold apply_file, applyTrackedResource.
  pose proof (applyResource_spec (sy_write_ok e fp) (sy_now e) (cd_probeKind K doc) (relDir (sc_Path spec) fp) doc (pg_tables p)) as Hspec.
  pose proof (λ name rw, declared_name (cd_probeKind K doc) (relDir (sc_Path spec) fp) doc name rw Hpr) as Hname.
  set (ref := MkRef (cd_probeKind K doc) _). unfold applied_over. setoid_rewrite first_declared_snoc.
  assert (∀ r rw, declaration spec r (fp, doc) = Some rw →
    r = ref ∧ ∃ name, declared (cd_probeKind K doc) (relDir (sc_Path spec) fp) doc = Some (name, rw)) as Hdecl.
  { intros r rw. unfold declaration, declares. cbn. destruct (declared _ _ _) as [[n w]|] eqn:E; [|done]. cbn.
    case_decide as Hr; [|done]. intros [= ->]. pose proof (Hname n rw eq_refl) as En. subst. split; [done|by eexists]. }
  destruct (decide (ref ∈ pg_current p)) as [Hin|Hnin].
  - intros [= <-]. apply Hcur in Hin as Hs.
    assert (∀ r, match first_declared spec files r with Some rw => Some rw | None => declaration spec r (fp, doc) end = first_declared spec files r) as Heq.
    { intros r. destruct (first_declared spec files r) eqn:E; [done|].
      destruct (declaration spec r (fp, doc)) eqn:Ed; [|done]. apply Hdecl in Ed as [-> _]. rewrite E in Hs. by destruct Hs. }
    split_and!; [done|intros r; by rewrite Heq|intros r; by rewrite Heq].
  - destruct (applyResource K _ _ _ _ _ _) as [[err|]|[name s']].
    + intros [= <-].
      assert (∀ r, match first_declared spec files r with Some rw => Some rw | None => declaration spec r (fp, doc) end = first_declared spec files r) as Heq.
      { intros r. destruct (first_declared spec files r) eqn:E; [done|].
        destruct (declaration spec r (fp, doc)) eqn:Ed; [|done]. apply Hdecl in Ed as (_ & n & En). congruence. }
      split_and!; [done|intros r; by rewrite Heq|intros r; by rewrite Heq].
    + done.
    + intros [= <-]. destruct Hspec as (rw & Hd & Hw). pose proof (Hname _ _ Hd) as ->. fold ref in Hw |- *. cbn.
      assert (∀ r, declaration spec r (fp, doc) = if decide (r = ref) then Some rw else None) as Hthis.
      { intros r. unfold declaration, declares. cbn. rewrite Hd. cbn. fold ref. repeat case_decide; congruence. }
      assert (first_declared spec files ref = None) as Hnone by (apply eq_None_not_Some; by rewrite <-Hcur).
      split_and!.
      * apply NoDup_app. split_and!; [done| |apply NoDup_singleton]. by intros x Hx ->%list_elem_of_singleton.
      * intros r. rewrite elem_of_app, list_elem_of_singleton, Hcur, Hthis. destruct (first_declared spec files r) eqn:E.
        -- split; [by eexists|]. left. by eexists.
        -- case_decide; split; [by eexists|by right|intros [[? [=]]|]; done|by intros [? [=]]].
      * intros r. rewrite Hw, Hthis, Hrow. case_decide as Hr; [subst; by rewrite Hnone|]. by destruct (first_declared spec files r).
Qed.

Lemma apply_files_run e spec s files done p p' :
  probe_agrees → applied_over spec s done p → apply_files K e spec files p = (None, p') → applied_over spec s (done ++ files) p'.
Proof.
  intros Hpr. revert done p. induction files as [|[fp doc] files IH]; intros done p Hp.
  - intros [= <-]. by rewrite app_nil_r.
  - cbn. destruct (apply_file K e spec fp doc p) as [err|p1] eqn:E; [done|]. rewrite cons_middle, app_assoc. apply IH.
    by eapply apply_file_step.
Qed.
End declared.

Lemma omap_filter_same {A B} (f : A → option B) (P : A → Prop) `{!∀ x, Decision (P x)} (l : list A) :
  (∀ x, is_Some (f x) → P x) → omap f (filter P l) = omap f l.
Proof.
  intros Hf. induction l as [|x l IH]; [done|]. rewrite filter_cons. cbn. case_decide as Hx; cbn; rewrite IH; [done|].
  destruct (f x) eqn:E; [|done]. exfalso. apply Hx, Hf. rewrite E. by eexists.
Qed.

Lemma omap_filter_nil {A B} (f : A → option B) (P : A → Prop) `{!∀ x, Decision (P x)} (l : list A) :
  (∀ x, P x → f x = None) → omap f (filter P l) = [].
Proof. intros Hf. induction l as [|x l IH]; [done|]. rewrite filter_cons. case_decide as Hx; [|done]. cbn. by rewrite (Hf x Hx). Qed.

Section sync_facts.
Variable K : codecs.

(** The files in the order of their paths: the two passes do not change which
    declaration of a reference comes first. *)
Definition by_path (files : gmap string string) : list (string * string) := omap (λ fp, pair fp <$> files !! fp) (sorted_keys files).

Lemma declaration_kind spec r f : is_Some (declaration K spec r f) → cd_probeKind K f.2 = rr_Kind r.
Proof.
  unfold declaration, declares. destruct (declared _ _ _ _) as [[n w]|]; cbn; [|by intros [? [=]]]. case_decide; [by subst|by intros [? [=]]].
Qed.

Lemma two_passes spec files r : first_declared K spec (ordered_files K files) r = first_declared K spec (by_path files) r.
Proof.
  unfold ordered_files, first_declared. fold (by_path files). rewrite omap_app. f_equal.
  destruct (existsb (String.eqb (rr_Kind r)) ["GitCredential"; "Job"]) eqn:E.
  - rewrite omap_filter_same by (intros x Hx%declaration_kind; unfold first_pass; by rewrite Hx).
    rewrite omap_filter_nil, app_nil_r; [done|]. intros x Hx. apply eq_None_not_Some. intros Hd%declaration_kind.
    unfold first_pass in Hx. rewrite Hd in Hx. congruence.
  - rewrite omap_filter_nil; cbn [app].
    + rewrite omap_filter_same; [done|]. intros x Hx%declaration_kind. unfold first_pass. by rewrite Hx.
    + intros x Hx. apply eq_None_not_Some. intros Hd%declaration_kind. unfold first_pass in Hx. rewrite Hd in Hx. congruence.
Qed.

(** ** The prune loop *)

Section prune.
Variables (e : sync_env) (spec : AppSourceSpec) (seen : list ResourceRef).
Hypothesis range_perm : sy_range e seen ≡ₚ seen.
#[local] Set Default Proof Using "Type*".

Definition jobs_seen (s : resources) : Prop := ∀ n, MkRef "Job" n ∈ seen → is_Some (row_of (MkRef "Job" n) s).

Lemma legacyLeaf_seen bare q : legacyLeaf e seen bare = Some q → MkRef "Job" q ∈ seen ∧ (SplitQualifiedName q).2 = bare ∧ q ≠ bare.
Proof.
  unfold legacyLeaf. intros H%head_Some_elem_of. apply list_elem_of_omap in H as (r & Hr & H). rewrite range_perm in Hr.
  destruct (String.eqb_spec (rr_Kind r) "Job") as [Hk|]; [|done].
  destruct (String.eqb_spec (SplitQualifiedName (rr_Name r)).2 (rr_Name r)) as [|Hne]; [done|]. cbn in H.
  destruct (String.eqb_spec (SplitQualifiedName (rr_Name r)).2 bare) as [Hb|]; [|done]. injection H as <-.
  split_and!; [|done|congruence]. destruct r as [k n]. cbn in *. by subst.
Qed.

(** The loop takes a resource that is no longer declared when the source prunes,
    or when it is a job whose qualified form is declared. *)
Definition legacy_name (prev : ResourceRef) : option string :=
  if (rr_Kind prev =? "Job")%string && negb (Contains (rr_Name prev) "/") then legacyLeaf e seen (rr_Name prev) else None.
Definition removable (prev : ResourceRef) : Prop :=
  (prev ∉ seen) ∧ (sp_Prune (sc_SyncPolicy spec) = true ∨ is_Some (legacy_name prev)).

(** Losing a row: it was this one, or a schedule of this job. *)
Definition goes_with (prev r : ResourceRef) (s : resources) : Prop :=
  r = prev ∨ (rr_Kind prev = "Job" ∧ refers r (rr_Name prev) s).

Lemma delete_row prev s r :
  let s' := default s (deleteResource prev s) in
  row_of r s' = row_of r s ∨ goes_with prev r s ∧ row_of r s' = None ∧ row_of prev s' = None.
Proof.
  assert (∀ s', (∀ x, row_of x s' = if decide (x = prev) then None else row_of x s) →
    row_of r s' = row_of r s ∨ goes_with prev r s ∧ row_of r s' = None ∧ row_of prev s' = None) as Hone.
  { intros s' H. pose proof (H prev) as Hp. rewrite decide_True in Hp by done. rewrite (H r).
    case_decide as Hr; [right|by left]. subst r. split_and!; [by left|done..]. }
  destruct prev as [k n]. unfold deleteResource. cbn [rr_Kind rr_Name].
  repeat match goal with |- context [(k =? ?X)%string] => destruct (String.eqb_spec k X) as [->|?] end; cbn [default from_option id];
    try (apply Hone; intros x; by_kind x; case_decide; simplify_eq; map_row; done).
  unfold DeleteJob. destruct (rs_jobs s !! n); [|by left].
  destruct (drop_job_row n s (MkRef "Job" n)) as [(_ & Hp)|(Hp & _)]; [|done].
  destruct (drop_job_row n s r) as [(Hr & H)|(_ & _ & H)]; rewrite H; [right|by left]. split_and!; [|done..].
  unfold goes_with. cbn. tauto.
Qed.

Lemma prune_one_row s prev r :
  jobs_seen s →
  let s' := prune_one e spec seen s prev in
  row_of r s' = row_of r s ∨ removable prev ∧ goes_with prev r s ∧ row_of r s' = None ∧ row_of prev s' = None.
Proof.
  intros Hjobs. unfold prune_one. fold (legacy_name prev). destruct (decide (prev ∈ seen)) as [|Hn]; [by left|]. cbv zeta.
  unfold removable. destruct (legacy_name prev) as [q|] eqn:El.
  - destruct (sy_rename_ok e (rr_Name prev)); [|by left].
    unfold legacy_name in El. destruct (String.eqb_spec (rr_Kind prev) "Job") as [Hk|]; [|done]. destruct (negb _); [|done]. cbn in El.
    apply legacyLeaf_seen in El as (Hq & _ & Hne). apply Hjobs in Hq.
    assert (prev = MkRef "Job" (rr_Name prev)) as Hprev by (destruct prev; cbn in *; by subst).
    destruct (rs_jobs s !! rr_Name prev) eqn:Ej.
    + destruct (rename_is_delete (rr_Name prev) q s) as [runs Hr]; [done..|rewrite Ej; by eexists|]. rewrite Hr.
      destruct (drop_job_row (rr_Name prev) (set_runs runs s) prev) as [(_ & Hp)|(Hp & _)]; [|done].
      destruct (drop_job_row (rr_Name prev) (set_runs runs s) r) as [(Hgo & H)|(_ & _ & H)]; rewrite H; [right|left; apply set_runs_row].
      split_and!; [done|right; by eexists| |done..]. unfold goes_with. rewrite <-Hprev in Hgo. destruct Hgo as [->|Hgo]; [by left|right].
      unfold refers in *. by rewrite set_runs_row in Hgo.
    + left. destruct (rename_nothing (rr_Name prev) q s) as [runs [Hr|Hr]]; [done..| |]; rewrite Hr; [apply set_runs_row|done].
  - destruct (sp_Prune (sc_SyncPolicy spec)); [|by left]. destruct (sy_delete_ok e prev); [|by left].
    destruct (delete_row prev s r) as [H|(Hg & H & Hp)]; [by left|right]. cbn. auto.
Qed.

Lemma goes_with_job prev n s : goes_with prev (MkRef "Job" n) s → prev = MkRef "Job" n.
Proof. intros [->|[_ [? _]]]; [done|]. done. Qed.

Lemma prune_one_seen s prev : jobs_seen s → jobs_seen (prune_one e spec seen s prev).
Proof.
  intros Hj n Hn. destruct (prune_one_row s prev (MkRef "Job" n) Hj) as [->|([Hp _] & Hg & _)]; [by apply Hj|].
  apply goes_with_job in Hg as ->. done.
Qed.

Lemma prune_one_none s prev r : jobs_seen s → row_of r s = None → row_of r (prune_one e spec seen s prev) = None.
Proof. intros Hj Hr. by destruct (prune_one_row s prev r Hj) as [->|(_ & _ & ? & _)]. Qed.

Lemma prune_none l s r : jobs_seen s → row_of r s = None → row_of r (foldl (prune_one e spec seen) s l) = None.
Proof.
  revert s. induction l as [|x l IH]; intros s Hj Hr; [done|]. apply IH; [by apply prune_one_seen|by apply prune_one_none].
Qed.

(** A schedule that went with its job. *)
Definition lost_job (managed : list ResourceRef) (r : ResourceRef) (rw : option row) (s' : resources) : Prop :=
  rr_Kind r = "Schedule" ∧ row_of r s' = None
  ∧ ∃ cron job ps, rw = Some (RowSchedule cron job ps) ∧ MkRef "Job" job ∈ managed ∧ removable (MkRef "Job" job) ∧ row_of (MkRef "Job" job) s' = None.

Lemma prune_rows l s r :
  jobs_seen s →
  let s' := foldl (prune_one e spec seen) s l in
  row_of r s' = row_of r s ∨ (row_of r s' = None ∧ r ∈ l ∧ removable r) ∨ lost_job l r (row_of r s) s'.
Proof.
  revert s. induction l as [|x l IH]; intros s Hj s'; [by left|]. cbn [foldl] in s'.
  pose proof (prune_one_seen s x Hj) as Hj1.
  assert (lost_job l r (row_of r s) s' → lost_job (x :: l) r (row_of r s) s') as Hmono.
  { intros (Hk & Hn & c & j & ps & H1 & H2 & H3). split_and!; [done..|]. exists c, j, ps. split_and!; [done|by right|tauto..]. }
  destruct (prune_one_row s x r Hj) as [Heq|(Hx & Hg & Hnone & Hgx)].
  - specialize (IH (prune_one e spec seen s x) Hj1). fold s' in IH. rewrite Heq in IH.
    destruct IH as [H|[(H & Hr & Hs)|H]]; [by left|right; left; split_and!; [done|by right|done]|right; right; auto].
  - right. pose proof (prune_none l _ r Hj1 Hnone) as Hgone. fold s' in Hgone.
    destruct Hg as [->|(Hkx & Hkr & c & ps & Hrow)]; [left; split_and!; [done|left|done]|]. right.
    assert (x = MkRef "Job" (rr_Name x)) as Hxj by (destruct x; cbn in *; by subst).
    split_and!; [done..|]. exists c, (rr_Name x), ps. rewrite <-Hxj. split_and!; [done|left|done|].
    by apply prune_none.
Qed.

Lemma prune_deletes l s r :
  jobs_seen s → sp_Prune (sc_SyncPolicy spec) = true → r ∈ l → r ∉ seen → legacy_name r = None → sy_delete_ok e r = true →
  row_of r (foldl (prune_one e spec seen) s l) = None.
Proof.
  intros Hj Hp Hr Hs Hl Hd. revert s Hj. induction l as [|x l IH]; intros s Hj; [by apply elem_of_nil in Hr|]. cbn [foldl].
  destruct (decide (x = r)) as [->|Hx].
  - apply prune_none; [by apply prune_one_seen|]. unfold prune_one. fold (legacy_name r). rewrite decide_False by done.
    rewrite Hl, Hp, Hd. cbn [andb].
    destruct (delete_row r s r) as [H|(_ & H & _)]; [|done]. revert H. generalize (row_of r s). clear.
    unfold deleteResource. intros o. by_kind r; map_row; try done. unfold DeleteJob. destruct (rs_jobs s !! n) eqn:E; cbn; [by map_row|by rewrite E].
  - apply IH; [|by apply prune_one_seen]. apply elem_of_cons in Hr as [->|]; [done|done].
Qed.
End prune.

(** ** The sync *)

Lemma sync_state_row n head t cur now s r : row_of r (UpdateAppSourceSyncState n head t cur now s) = row_of r s.
Proof. by apply alter_source_row. Qed.

Lemma apply_files_exact e spec files s p :
  probe_agrees K → apply_files K e spec (ordered_files K files) (MkProgress s [] 0) = (None, p) →
  NoDup (pg_current p)
  ∧ (∀ r, r ∈ pg_current p ↔ is_Some (first_declared K spec (by_path files) r))
  ∧ ∀ r, row_of r (pg_tables p) = match first_declared K spec (by_path files) r with Some rw => Some rw | None => row_of r s end.
Proof.
  intros Hp H. eapply (apply_files_run K e spec s _ []) in H; [|done|].
  - destruct H as (H1 & H2 & H3). cbn [app] in *. split_and!; [done| |]; intros r; rewrite <-two_passes; auto.
  - split_and!; [constructor| |done]. intros r. cbn. rewrite elem_of_nil. split; [done|by intros [? [=]]].
Qed.

(** What was fetched for a sync. *)
Definition fetched (e : sync_env) (spec : AppSourceSpec) (s : resources) (headSHA : string) (files : gmap string string) : Prop :=
  ∃ cred, resolveCredential e (sc_RepoURL spec) s = Ok cred
    ∧ sy_ResolveCommitSHA e (sc_RepoURL spec) (sc_TargetRevision spec) cred = Ok headSHA
    ∧ sy_FetchDir e (sc_RepoURL spec) (sc_TargetRevision spec) (sc_Path spec) cred = Ok files.
End sync_facts.

(** C23: A successful sync leaves the tables as the tree at the commit says.  It
    does nothing where the commit is the one already synced.  Otherwise every
    resource some file declares acceptably has the row of the first such file by
    path, and the recorded list is exactly these resources, once each; any other
    resource keeps its row, except what the source managed before and no longer
    declares, which goes if the source prunes (and then it does go) or is a job now
    declared under its qualified name; the one other change is that schedules go
    with a job that goes. *)
Theorem sync_exact K e name src spec s s' :
  probe_agrees K → (∀ l, sy_range e l ≡ₚ l) → syncAppSource K e name src spec s = (None, s') →
  (s' = s ∧ as_LastCommit src ≠ EmptyString
   ∧ ∃ cred, sy_ResolveCommitSHA e (sc_RepoURL spec) (sc_TargetRevision spec) cred = Ok (as_LastCommit src))
  ∨ ∃ headSHA files current, fetched e spec s headSHA files
      ∧ let want := first_declared K spec (by_path files) in
        NoDup current ∧ (∀ r, r ∈ current ↔ is_Some (want r))
        ∧ (∀ a, rs_sources s' !! name = Some a →
             as_ManagedResources a = current ∧ as_LastCommit a = headSHA ∧ as_LastSyncedAt a = Some (sy_now e)
             ∧ as_SyncStatus a = "Synced" ∧ as_LastError a = EmptyString)
        ∧ (∀ r, let rw := match want r with Some rw => Some rw | None => row_of r s end in
             row_of r s' = rw
             ∨ (row_of r s' = None ∧ r ∈ as_ManagedResources src ∧ removable e spec current r)
             ∨ lost_job e spec current (as_ManagedResources src) r rw s')
        ∧ ∀ r, sp_Prune (sc_SyncPolicy spec) = true → r ∈ as_ManagedResources src → want r = None →
            legacy_name e current r = None → sy_delete_ok e r = true → row_of r s' = None.
Proof.
  intros Hpr Hrange. unfold syncAppSource. destruct (ValidateGitFields _ _); [|done].
  destruct (resolveCredential e (sc_RepoURL spec) s) as [cred|] eqn:Ec; [|done].
  destruct (sy_ResolveCommitSHA e (sc_RepoURL spec) (sc_TargetRevision spec) cred) as [headSHA|] eqn:Eh; [|done].
  destruct ((headSHA =? as_LastCommit src)%string && negb (as_LastCommit src =? "")%string) eqn:Esame.
  { intros [= <-]. reflect. subst. left. split_and!; [done..|]. by exists cred. }
  destruct (sy_FetchDir e (sc_RepoURL spec) (sc_TargetRevision spec) (sc_Path spec) cred) as [files|] eqn:Ef; [|done].
  destruct (apply_files _ _ _ _ _) as [[err|] p] eqn:Ea; [done|]. apply apply_files_exact in Ea as (Hnd & Hcur & Hrow); [|done].
  unfold finishSync. destruct (sy_state_ok e); [|done]. intros [= <-]. right. exists headSHA, files, (pg_current p).
  split; [by exists cred|]. cbv zeta.
  assert (jobs_seen (pg_current p) (pg_tables p)) as Hjobs.
  { intros n Hn. rewrite Hrow. apply Hcur in Hn as [rw ->]. by eexists. }
  split_and!; [done|done| | |].
  - intros row. cbn. rewrite lookup_alter_eq. by intros (? & _ & ->)%fmap_Some.
  - intros r. rewrite sync_state_row, <-Hrow.
    destruct (prune_rows e spec (pg_current p) (Hrange _) (as_ManagedResources src) _ r Hjobs) as [H|[H|H]]; [by left|by right; left|].
    right; right. unfold lost_job in *. setoid_rewrite sync_state_row. exact H.
  - intros r H1 H2 H3 H4 H5. rewrite sync_state_row. apply prune_deletes; try done. rewrite Hcur, H3. by intros [? [=]].
Qed.

(** ** Samples *)

Module Demo.
(** Documents are written [J:name], [S:name] (a schedule of the job [build]) and
    [A:name]; anything else does not parse.  The JSON of a source is its path. *)
Definition named (p doc : string) : option string := if HasPrefix doc p then Some (TrimPrefix doc p) else None.
Definition doc_of {S} (kind : string) (spec : S) (name : option string) : res (Document S) :=
  match name with Some n => Ok (MkDocument SupportedAPIVersion kind (MkMetadata n ∅ ∅) spec) | None => Err [] end.
Definition one_step : Spec :=
  MkSpec (MkParams [] []) None [] [MkStepEntry (run_step "go") []] [] None true false false None [] "" ∅.
Definition source (path : string) : AppSourceSpec :=
  MkAppSourceSpec "https://git.example/r" "main" path (MkSyncPolicy "" true false).

Definition codec : codecs :=
  MkCodecs (λ doc, if HasPrefix doc "J:" then "Job" else if HasPrefix doc "S:" then "Schedule" else if HasPrefix doc "A:" then "AppSource" else "")
    (λ doc, TrimPrefix (TrimPrefix (TrimPrefix doc "J:") "S:") "A:") (λ _, None)
    (λ doc, match named "J:" doc with
            | Some n => if (TrimPrefix (TrimPrefix n "S:") "A:" =? n)%string then Ok (MkJob SupportedAPIVersion "Job" (MkMetadata n ∅ ∅) one_step) else Err []
            | None => Err []
            end)
    (λ doc, if HasPrefix doc "S:" then doc_of "Schedule" (MkScheduleSpec "* * * * *" "build" ∅) (Some (TrimPrefix (TrimPrefix (TrimPrefix doc "J:") "S:") "A:")) else Err [])
    (λ _, Err []) (λ _, Err [])
    (λ doc, if HasPrefix doc "A:" then doc_of "AppSource" (source "new") (Some (TrimPrefix (TrimPrefix (TrimPrefix doc "J:") "S:") "A:")) else Err [])
    (λ _, Err [])
    (λ _, Ok "job") (λ _, Ok "webhook") (λ a, Ok (sc_Path a)) (λ _, Ok "vars") (λ j, (source j, true)) (λ _, Err [])
    any_ast no_parse_error (λ _, Ok (5 * minute)%Z) (λ _, Ok tt) show_string show_string (λ s, s) (λ s, s).

Lemma codec_agrees : probe_agrees codec.
Proof.
  intros doc. cbn. unfold named, doc_of. split_and!; try done.
  - intros j. destruct (HasPrefix doc "J:"); [|done]. destruct (String.eqb_spec (TrimPrefix (TrimPrefix (TrimPrefix doc "J:") "S:") "A:") (TrimPrefix doc "J:")); [|done].
    intros [= <-]. done.
  - intros d. destruct (HasPrefix doc "S:"); [|done]. by intros [= <-].
  - intros d. destruct (HasPrefix doc "A:"); [|done]. by intros [= <-].
Qed.

(** A repository at a commit, everything else succeeding. *)
Definition env (now : Z) (head : res string) (files : gmap string string) : sync_env :=
  MkSyncEnv now (λ _ _ _, head) (λ _ _ _ _, Ok files) false (λ _, None) true (λ _, Err []) (λ _, true) (λ _, true) (λ _, true) true (λ l, l).

Definition empty_tables : resources := MkResources ∅ ∅ ∅ ∅ ∅ ∅ ∅.
Definition source_row (spec commit : string) (managed : list ResourceRef) : AppSource :=
  MkAppSource spec (Some 0%Z) commit managed 0 "Synced" "".

(** A source that managed the jobs [a] and [gone]; [a] is declared again, twice,
    with a schedule and a file that does not parse. *)
Definition job_a : job_row := MkJobRow "unified-cd/v1" "job".
Definition managed_before : list ResourceRef := [MkRef "Job" "build"; MkRef "Job" "gone"].
Definition root : AppSource := source_row "apps" "c1" managed_before.
Definition before : resources :=
  MkResources {["build" := job_a; "gone" := job_a; "mine" := job_a]} ∅ ∅ ∅ ∅ {["root" := root]} ∅.
Definition tree : gmap string string :=
  {["apps/a.yaml" := "J:build"; "apps/b.yaml" := "J:build"; "apps/n.yaml" := "S:nightly"; "apps/x.yaml" := "?"]}.

Lemma sync_exact_witness :
  (syncAppSource codec (env 9 (Ok "c2") tree) "root" root (source "apps") before).1 = None
  ∧ ∃ s', (as_ManagedResources <$> rs_sources s' !! "root") = Some [MkRef "Job" "build"; MkRef "Schedule" "nightly"]
      ∧ row_of (MkRef "Job" "mine") s' = Some (RowJob job_a) ∧ row_of (MkRef "Job" "gone") s' = None
      ∧ first_declared codec (source "apps") (by_path tree) (MkRef "Job" "build") = Some (RowJob job_a)
      ∧ (row_of (MkRef "Job" "build") s' = Some (RowJob job_a)
         ∨ row_of (MkRef "Job" "build") s' = None).
Proof.
  split; [by vm_compute|].
  exists (syncAppSource codec (env 9 (Ok "c2") tree) "root" root (source "apps") before).2.
  split_and!; [by vm_compute..|].
  destruct (sync_exact codec (env 9 (Ok "c2") tree) "root" root (source "apps") before
              (syncAppSource codec (env 9 (Ok "c2") tree) "root" root (source "apps") before).2 codec_agrees)
    as [(_ & _ & cred & H)|(h & files & cur & Hf & _ & _ & _ & Hrow & _)].
  - done.
  - by vm_compute.
  - discriminate H.
  - destruct Hf as (cred & _ & _ & [= <-]). destruct (Hrow (MkRef "Job" "build")) as [H|[(H & _)|(H & _)]].
    + left. rewrite H. by vm_compute.
    + by right.
    + discriminate H.
Defined.

(** [RenameJob] says that nothing cascades when it drops the bare row; the
    schedules of that job do.  Here the sync that re-keys [build] applies the
    schedule, drops it again and records it as managed. *)
Definition legacy : resources := MkResources {["build" := job_a]} ∅ ∅ ∅ ∅ {["root" := source_row "apps" "c1" [MkRef "Job" "build"]]} {["r1" := "build"]}.
Definition rekeyed : resources :=
  (syncAppSource codec (env 9 (Ok "c2") {["apps/team/b.yaml" := "J:build"; "apps/n.yaml" := "S:nightly"]})
     "root" (source_row "apps" "c1" [MkRef "Job" "build"]) (source "apps") legacy).2.
Example rename_drops_schedules :
  rs_runs rekeyed !! "r1" = Some "team/build" ∧ row_of (MkRef "Schedule" "nightly") rekeyed = None
  ∧ (as_ManagedResources <$> rs_sources rekeyed !! "root") = Some [MkRef "Job" "team/build"; MkRef "Schedule" "nightly"].
Proof. by vm_compute. Qed.

(** A pass lists the sources once.  Here the commit changes the path of [sub],
    which [root] declares; [sub] is synced after it with the old path, and its new
    commit is recorded over the reset, so the new path waits for another commit. *)
Definition mono : resources :=
  MkResources ∅ ∅ ∅ ∅ ∅ {["root" := source_row "apps" "c1" [MkRef "AppSource" "sub"]; "sub" := source_row "old" "c1" []]} ∅.
Definition mono_env (n : string) : sync_env := env (10 * minute) (Ok "c2") (if (n =? "root")%string then {["apps/sub.yaml" := "A:sub"]} else ∅).
Definition after_pass : resources := reconcileAppSources codec true true mono_env (λ _, true) mono.
Example changed_spec_waits :
  (λ a, (as_Spec a, as_LastCommit a, as_SyncStatus a)) <$> rs_sources after_pass !! "sub" = Some ("new", "c2", "Synced")
  ∧ ∀ now, (syncAppSource codec (env now (Ok "c2") {["new/j.yaml" := "J:build"]}) "sub" (source_row "new" "c2" []) (source "new") after_pass)
           = (None, after_pass).
Proof. split; [by vm_compute|]. intros now. by vm_compute. Qed.

(** A failure while the commit stays the same is reported until the next commit:
    the passes that succeed after it change nothing. *)
Definition failed : resources := reconcile_one codec (env (10 * minute) (Err []) ∅) true ("root", root) before.
Example failure_stays now :
  (as_SyncStatus <$> rs_sources failed !! "root") = Some "Failed"
  ∧ ∀ row, rs_sources failed !! "root" = Some row → reconcile_one codec (env now (Ok "c1") tree) true ("root", row) failed = failed.
Proof.
  split; [by vm_compute|]. intros row Hrow. vm_compute in Hrow. injection Hrow as <-.
  unfold reconcile_one. cbn [cd_unmarshal_source codec fst snd]. match goal with |- context [shouldSync ?k ?a ?b ?c] => destruct (shouldSync k a b c) end; by vm_compute.
Qed.
End Demo.

(** An interval counts from the last commit that was new: once it has passed, the
    source is due at every pass, and syncing it does not change that while the
    commit is the same. *)
Lemma interval_passes_once K e name src spec s s' now :
  rs_sources s !! name = Some src →
  (∀ cred, sy_ResolveCommitSHA e (sc_RepoURL spec) (sc_TargetRevision spec) cred = Ok (as_LastCommit src)) → as_LastCommit src ≠ EmptyString →
  shouldSync K src spec (sy_now e) = true → (sy_now e ≤ now)%Z → syncAppSource K e name src spec s = (None, s') →
  rs_sources s' !! name = Some src ∧ shouldSync K src spec now = true.
Proof.
  intros Hrow Hhead Hne Hs Hn H. split.
  - unfold syncAppSource in H. destruct (ValidateGitFields _ _); [|done]. destruct (resolveCredential _ _ _); [|done].
    rewrite Hhead, String.eqb_refl in H. apply String.eqb_neq in Hne. rewrite Hne in H. by injection H as <-.
  - unfold shouldSync in *. destruct (as_LastSyncedAt src); [|done].
    apply orb_true_iff in Hs as [->|Hs%Z.leb_le]; [done|]. rewrite orb_true_iff. right. apply Z.leb_le. lia.
Qed.
