(* ===== verification/DirectWrites.v ===== *)
(** * internal/controller: resources written through the API

    The guard that keeps synced resources as Git has them ([managed_guard.go]) and
    the handlers that apply, delete and list jobs ([api_jobs.go]), schedules,
    webhook receivers, credentials, variables and sources ([api_schedules.go],
    [api_webhooks.go], [api_gitcredential.go], [api_vars.go],
    [api_appsources.go]). *)

From S2P Require Import Prelude GoStrings Regex GoPath Authz AuthzServer DslNames DslTypes DslCondition DslValidate DslKinds Schedules Resources AppSync AppSyncFacts.
From stdpp Require Import options.

(** What a request meets: its principal, the order in which the database scans the
    sources, the time, and whether its reads, the guard's read and its write
    succeed. *)
Record write_env := MkWriteEnv {
  we_principal : option Principal;
  we_isAgent : bool;
  we_scan : gmap string AppSource → list (string * AppSource);
  we_find_ok : bool;
  we_read_ok : bool;
  we_write_ok : bool;
  we_now : Z
}.

Inductive write_answer :=
| Status (code : Z)
| Refused (o : outcome).

Section writes.
Variables (K : codecs) (e : write_env).

(** ** managed_guard.go *)

Inductive guard_error :=
| errManagedResource (kind name appSource repoURL : string)
| CheckFailed.

Definition guardManagedResource (kind name : string) (s : resources) : option guard_error :=
  if negb (we_find_ok e) then Some CheckFailed
  else
    match FindManagingAppSource (we_scan e) kind name s with
    | None => None
    | Some (src, row) =>
        if (kind =? "AppSource")%string && (src =? name)%string then None
        else
          match cd_unmarshal_source K (as_Spec row) with
          | (_, false) => Some (errManagedResource kind name src "")
          | (spec, true) =>
              if sp_AllowManualOverride (sc_SyncPolicy spec) then None
              else Some (errManagedResource kind name src (cd_redact K (sc_RepoURL spec)))
          end
    end.

Definition guard_message (g : guard_error) : text :=
  match g with
  | CheckFailed => [Lit "check managed resource"]
  | errManagedResource kind name src repoURL =>
      [Lit "resource "; Lit kind; Lit " "; Quo name; Lit " is managed by AppSource "; Quo src; Lit "; update it in Git"]
      ++ (if (repoURL =? "")%string then [] else [Lit " ("; Lit repoURL; Lit ")"])
      ++ [Lit ", or set syncPolicy.allowManualOverride: true on the AppSource"]
  end.
Definition writeGuardError (g : guard_error) : Z := match g with errManagedResource _ _ _ _ => 409 | CheckFailed => 500 end.

(** [if err := s.guardManagedResource(...); err != nil { writeGuardError; return }] *)
Definition guarded (kind name : string) (s : resources) (k : write_answer * resources) : write_answer * resources :=
  match guardManagedResource kind name s with Some g => (Status (writeGuardError g), s) | None => k end.

(** The statement that ends a handler, and the code it is answered with. *)
Definition stored (code : Z) (s : resources) (s' : option resources) : write_answer * resources :=
  match s' with Some s1 => if we_write_ok e then (Status code, s1) else (Status 500, s) | None => (Status 500, s) end.

Definition decoded {A} (r : res A) (code : Z) (s : resources) (k : A → write_answer * resources) : write_answer * resources :=
  match r with Ok a => k a | Err _ => (Status code, s) end.

(** The body of an apply request: the YAML it carries, or no JSON. *)
Definition body_yaml (body : option string) (s : resources) (k : string → write_answer * resources) : write_answer * resources :=
  match body with Some yaml => k yaml | None => (Status 400, s) end.

Definition required (perm : Permission) (job : string) (hide : option answer) (s : resources) (k : write_answer * resources)
  : write_answer * resources :=
  match requireJob (we_principal e) perm job hide with inl o => (Refused o, s) | inr _ => k end.

(** ** api_jobs.go *)

Definition validatePathAnnotation (path : string) : res unit :=
  let trimmed := Trim "/" path in
  if (trimmed =? "")%string then Ok tt
  else each (λ _ seg, if (seg =? "")%string then Ok tt
                      else wrap [Lit "invalid path segment "; Quo seg; Lit ": "] (ValidateName seg)) (Split "/" trimmed).

Definition storeJob (job : Job) (name : string) (s : resources) : write_answer * resources :=
  match validatePathAnnotation (default EmptyString (me_Annotations (j_Metadata job) !! "path")) with
  | Err _ => (Status 400, s)
  | Ok _ => decoded (cd_marshal_job K (j_Spec job)) 500 s (λ specJSON, stored 200 s (Some (UpsertJob name (j_APIVersion job) specJSON s)))
  end.

Definition handleApplyJob (body : option string) (s : resources) : write_answer * resources :=
  body_yaml body s (λ yaml, decoded (ParseJob K yaml) 400 s (λ job,
    let name := QualifiedName (j_Metadata job) in
    required JobConfigure name None s (guarded "Job" name s (storeJob job name s)))).

Definition handleDeleteJob (name : string) (s : resources) : write_answer * resources :=
  guarded "Job" name s (stored 204 s (Some (DeleteJob name s))).

Definition reads_job (job : string) : bool :=
  if we_isAgent e then true
  else match we_principal e with None => false | Some p => Grants_Can (pr_Grants p) JobRead job end.
Definition ListJobs (s : resources) : list (string * job_row) := omap (λ n, pair n <$> rs_jobs s !! n) (sorted_keys (rs_jobs s)).
(** The jobs shown, each with its path and leaf. *)
Definition handleListJobs (s : resources) : option (list (string * (string * string))) :=
  if we_read_ok e
  then Some ((λ j, (j.1, SplitQualifiedName j.1)) <$> filter (λ j, reads_job j.1 = true) (ListJobs s)) else None.

(** ** api_schedules.go *)

Definition handleApplySchedule (body : option string) (s : resources) : write_answer * resources :=
  body_yaml body s (λ yaml, decoded (ParseSchedule (cd_parseCron K) (cd_schedule K yaml)) 400 s (λ sc,
    let job := sh_Job (dc_Spec sc) in
    let hide := Some (MkAnswer 400 [Lit "job not found: "; Lit job]) in
    let name := dc_Name sc in
    let apply := guarded "Schedule" name s
      (match (if we_read_ok e then rs_jobs s !! job else None) with
       | None => (Status 400, s)
       | Some _ => stored 200 s (upsert_schedule name (sh_Cron (dc_Spec sc)) job (sh_Params (dc_Spec sc)) s)
       end) in
    required ScheduleConfigure job hide s
      (if negb (we_read_ok e) then (Status 500, s)
       else match rs_schedules s !! name with
            | None => apply
            | Some old =>
                if (sd_JobName old =? job)%string then apply
                else required ScheduleConfigure (sd_JobName old) None s (required ScheduleConfigure job hide s apply)
            end))).

Definition handleDeleteSchedule (name : string) (s : resources) : write_answer * resources :=
  guarded "Schedule" name s (stored 204 s (Some (DeleteSchedule name s))).

Definition handleListSchedules (s : resources) : option (list (string * Schedule)) :=
  if we_read_ok e then Some (filter (λ r, reads_job (sd_JobName r.2) = true) (ListSchedules (rs_schedules s))) else None.

(** ** api_webhooks.go *)

Definition handleApplyWebhook (body : option string) (s : resources) : write_answer * resources :=
  body_yaml body s (λ yaml, decoded (ParseWebhookReceiver (cd_webhook K yaml)) 400 s (λ wr,
    guarded "WebhookReceiver" (dc_Name wr) s
      (decoded (cd_marshal_webhook K (dc_Spec wr)) 500 s (λ specJSON,
         stored 200 s (Some (UpsertWebhookReceiver (dc_Name wr) specJSON s)))))).

Definition handleDeleteWebhook (name : string) (s : resources) : write_answer * resources :=
  guarded "WebhookReceiver" name s (stored 204 s (Some (DeleteWebhookReceiver name s))).

(** ** api_gitcredential.go; the body has its four fields *)

Definition handleUpsertGitCredential (body : option (string * GitCredentialSpec)) (s : resources) : write_answer * resources :=
  match body with
  | None => (Status 400, s)
  | Some (name, c) =>
      decoded (ValidateName name) 400 s (λ _,
        if (gs_Host c =? "")%string || (gs_Type c =? "")%string || (gs_SecretRef c =? "")%string then (Status 400, s)
        else if negb (gs_Type c =? "token")%string && negb (gs_Type c =? "sshKey")%string then (Status 400, s)
        else guarded "GitCredential" name s
               (stored 204 s (UpsertGitCredential name (gs_Host c) (gs_Type c) (gs_SecretRef c) (we_now e) s)))
  end.

Definition handleDeleteGitCredential (name : string) (s : resources) : write_answer * resources :=
  guarded "GitCredential" name s (stored 204 s (Some (DeleteGitCredential name s))).

(** ** api_vars.go *)

(** The loop over the manifests: the code that refuses. *)
Fixpoint vars_collision (name : string) (incoming : gmap string string) (existing : list (string * string)) : option Z :=
  match existing with
  | [] => None
  | (rec, specJSON) :: rest =>
      match cd_unmarshal_vars K specJSON with
      | Err _ => Some 500%Z
      | Ok spec => match CheckVarsCollision (vs_Vars spec) rec incoming name with Err _ => Some 400%Z | Ok _ => vars_collision name incoming rest end
      end
  end.

Definition handleApplyVars (body : option string) (s : resources) : write_answer * resources :=
  body_yaml body s (λ yaml, decoded (ParseVars (cd_quote K) (cd_vars K yaml)) 400 s (λ v,
    let name := dc_Name v in
    guarded "Vars" name s
      (if negb (we_read_ok e) then (Status 500, s)
       else match vars_collision name (vs_Vars (dc_Spec v)) (ListVars s) with
            | Some code => (Status code, s)
            | None => decoded (cd_marshal_vars K (dc_Spec v)) 500 s (λ specJSON, stored 200 s (Some (UpsertVars name specJSON s)))
            end))).

Definition handleDeleteVars (name : string) (s : resources) : write_answer * resources :=
  guarded "Vars" name s (stored 204 s (Some (DeleteVars name s))).

(** ** api_appsources.go *)

Definition handleApplyAppSource (body : option string) (s : resources) : write_answer * resources :=
  body_yaml body s (λ yaml, decoded (ParseAppSource (cd_redact K) (cd_ParseDuration K) (cd_source K yaml)) 400 s (λ a,
    guarded "AppSource" (dc_Name a) s
      (decoded (cd_marshal_source K (dc_Spec a)) 500 s (λ specJSON,
         stored 200 s (Some (UpsertAppSource (dc_Name a) specJSON (we_now e) s)))))).

Definition handleDeleteAppSource (name : string) (s : resources) : write_answer * resources :=
  guarded "AppSource" name s (stored 204 s (Some (DeleteAppSource name s))).

(** Two statements, the second of which may fail alone. *)
Definition handleSyncAppSource (status_ok : bool) (name : string) (s : resources) : write_answer * resources :=
  if negb (we_write_ok e) then (Status 500, s)
  else
    let s1 := ResetAppSourceCommit name (we_now e) s in
    if negb status_ok then (Status 500, s1) else (Status 204, SetAppSourceSyncStatus name "Syncing" "" (we_now e) s1).

Record AppSourceMeta := MkAppSourceMeta {
  am_Name : string; am_RepoURL : string; am_TargetRevision : string; am_Path : string;
  am_SyncPolicy : option AppSyncPolicy; am_LastSyncedAt : option Z; am_LastCommit : string;
  am_ManagedResources : list ResourceRef; am_SyncStatus : string; am_LastError : string
}.
Definition appSourceToMeta (name : string) (a : AppSource) (spec : AppSourceSpec) : AppSourceMeta :=
  MkAppSourceMeta name (SanitizeRepoURL (sc_RepoURL spec)).1 (sc_TargetRevision spec) (sc_Path spec)
    (if decide (sc_SyncPolicy spec = MkSyncPolicy "" false false) then None else Some (sc_SyncPolicy spec))
    (as_LastSyncedAt a) (as_LastCommit a) (as_ManagedResources a) (as_SyncStatus a) (cd_redact K (as_LastError a)).
Definition handleListAppSources (s : resources) : option (list AppSourceMeta) :=
  if we_read_ok e then Some ((λ r, appSourceToMeta r.1 r.2 (cd_unmarshal_source K (as_Spec r.2)).1) <$> ListAppSources s) else None.
Definition handleGetAppSource (name : string) (s : resources) : option AppSourceMeta :=
  if we_read_ok e then (λ a, appSourceToMeta name a (cd_unmarshal_source K (as_Spec a)).1) <$> rs_sources s !! name else None.
End writes.

(** * Git stays the source of truth for what it manages

    What the guard refuses, and the theorem that requests leave managed resources
    alone ([DirectWrites]). *)

Section facts.
Variable K : codecs.
Implicit Types (s : resources) (r t : ResourceRef) (e : write_env).

Definition scans e : Prop := ∀ m, we_scan e m ≡ₚ map_to_list m.

Definition overridable (a : AppSource) : Prop :=
  ∃ spec, cd_unmarshal_source K (as_Spec a) = (spec, true) ∧ sp_AllowManualOverride (sc_SyncPolicy spec) = true.

(** Some source manages the resource, and none that does allows overriding it or
    is the resource itself. *)
Definition protected r s : Prop :=
  (∃ n a, rs_sources s !! n = Some a ∧ r ∈ as_ManagedResources a)
  ∧ ∀ n a, rs_sources s !! n = Some a → r ∈ as_ManagedResources a → r ≠ MkRef "AppSource" n ∧ ¬ overridable a.

Lemma guard_protects e kind name s : scans e → guardManagedResource K e kind name s = None → ¬ protected (MkRef kind name) s.
Proof.
  intros Hscan. unfold guardManagedResource. destruct (we_find_ok e); [|done]. cbn [negb].
  intros Hg [(n & a & Ha & Hin) Hall]. unfold FindManagingAppSource in Hg.
  destruct (head _) as [[src row]|] eqn:Eh.
  - apply head_Some_elem_of, list_elem_of_filter in Eh as [Hm Hsrc]. rewrite (Hscan _) in Hsrc. apply elem_of_map_to_list in Hsrc.
    destruct (Hall src row Hsrc Hm) as [Hself Hno].
    destruct (String.eqb_spec kind "AppSource") as [->|]; cbn [andb] in Hg; [destruct (String.eqb_spec src name) as [->|]; [done|]|];
      (destruct (cd_unmarshal_source K (as_Spec row)) as [spec []] eqn:Eu; [|done]);
      (destruct (sp_AllowManualOverride (sc_SyncPolicy spec)) eqn:Ea; [|done]); apply Hno; by exists spec.
  - apply head_None in Eh. assert ((n, a) ∈ filter (λ row, MkRef kind name ∈ as_ManagedResources row.2) (we_scan e (rs_sources s))) as Hf.
    { apply list_elem_of_filter. split; [done|]. rewrite (Hscan _). by apply elem_of_map_to_list. }
    rewrite Eh in Hf. by apply elem_of_nil in Hf.
Qed.

(** ** The effect of a request *)

Definition kept (s : resources) (n : string) : option (string * list ResourceRef) :=
  (λ a, (as_Spec a, as_ManagedResources a)) <$> rs_sources s !! n.

(** Only the target is written, or a schedule goes with its job; a source is
    written only as the target, and manages what it did. *)
Definition effect t s s' : Prop :=
  (∀ r, r ≠ t → row_of r s' = row_of r s ∨ (rr_Kind t = "Job" ∧ refers r (rr_Name t) s))
  ∧ (∀ n, t ≠ MkRef "AppSource" n → kept s' n = kept s n)
  ∧ ∀ n, snd <$> kept s' n = snd <$> kept s n ∨ snd <$> kept s' n = None ∨ (kept s n = None ∧ snd <$> kept s' n = Some []).

Definition harmless s s' : Prop := (∀ r, row_of r s' = row_of r s) ∧ ∀ n, kept s' n = kept s n.

(** A request on a target, and how its body names it. *)
Inductive direct_write : ResourceRef → resources → resources → Prop :=
| dw_apply_job e body t s :
    scans e → (∀ y j, body = Some y → ParseJob K y = Ok j → t = MkRef "Job" (QualifiedName (j_Metadata j))) →
    direct_write t s (handleApplyJob K e body s).2
| dw_delete_job e name s : scans e → direct_write (MkRef "Job" name) s (handleDeleteJob K e name s).2
| dw_apply_schedule e body t s :
    scans e → (∀ y d, body = Some y → ParseSchedule (cd_parseCron K) (cd_schedule K y) = Ok d → t = MkRef "Schedule" (dc_Name d)) →
    direct_write t s (handleApplySchedule K e body s).2
| dw_delete_schedule e name s : scans e → direct_write (MkRef "Schedule" name) s (handleDeleteSchedule K e name s).2
| dw_apply_webhook e body t s :
    scans e → (∀ y d, body = Some y → ParseWebhookReceiver (cd_webhook K y) = Ok d → t = MkRef "WebhookReceiver" (dc_Name d)) →
    direct_write t s (handleApplyWebhook K e body s).2
| dw_delete_webhook e name s : scans e → direct_write (MkRef "WebhookReceiver" name) s (handleDeleteWebhook K e name s).2
| dw_upsert_credential e body t s :
    scans e → (∀ n c, body = Some (n, c) → t = MkRef "GitCredential" n) → direct_write t s (handleUpsertGitCredential K e body s).2
| dw_delete_credential e name s : scans e → direct_write (MkRef "GitCredential" name) s (handleDeleteGitCredential K e name s).2
| dw_apply_vars e body t s :
    scans e → (∀ y d, body = Some y → ParseVars (cd_quote K) (cd_vars K y) = Ok d → t = MkRef "Vars" (dc_Name d)) →
    direct_write t s (handleApplyVars K e body s).2
| dw_delete_vars e name s : scans e → direct_write (MkRef "Vars" name) s (handleDeleteVars K e name s).2
| dw_apply_source e body t s :
    scans e →
    (∀ y d, body = Some y → ParseAppSource (cd_redact K) (cd_ParseDuration K) (cd_source K y) = Ok d → t = MkRef "AppSource" (dc_Name d)) →
    direct_write t s (handleApplyAppSource K e body s).2
| dw_delete_source e name s : scans e → direct_write (MkRef "AppSource" name) s (handleDeleteAppSource K e name s).2
| dw_sync_source e ok name t s : direct_write t s (handleSyncAppSource e ok name s).2.

(** A statement that writes one row and no source. *)
Lemma effect_write t rw s s' : writes t rw s s' → rs_sources s' = rs_sources s → effect t s s'.
Proof.
  intros Hw Hs. split_and!.
  - intros r Hr. left. rewrite Hw. by rewrite decide_False.
  - intros n _. unfold kept. by rewrite Hs.
  - intros n. left. unfold kept. by rewrite Hs.
Qed.

Lemma effect_remove t s s' :
  (∀ r, r ≠ t → row_of r s' = row_of r s) → rs_sources s' = rs_sources s → effect t s s'.
Proof.
  intros Hw Hs. split_and!; [intros r Hr; left; by apply Hw|intros n _|intros n; left]; unfold kept; by rewrite Hs.
Qed.

Lemma delete_job_effect n s : effect (MkRef "Job" n) s (DeleteJob n s).
Proof.
  unfold DeleteJob. destruct (rs_jobs s !! n) eqn:E.
  - split_and!; [|done|intros m; by left]. intros r Hr. cbn.
    destruct (drop_job_row n s r) as [([->|H] & _)|(_ & _ & H)]; [done|right|left]; done.
  - split_and!; [intros r _; by left|done|intros m; by left].
Qed.

Lemma apply_source_effect n spec now s : effect (MkRef "AppSource" n) s (UpsertAppSource n spec now s).
Proof.
  split_and!.
  - intros r Hr. left. rewrite upsert_source_row. by rewrite decide_False.
  - intros m Hm. unfold kept, UpsertAppSource. cbn. rewrite lookup_insert_ne by congruence. done.
  - intros m. unfold kept, UpsertAppSource. cbn. destruct (decide (n = m)) as [->|]; [|rewrite lookup_insert_ne by done; by left].
    rewrite lookup_insert_eq. destruct (rs_sources s !! m); [by left|right; right; done].
Qed.

Lemma delete_source_effect n s : effect (MkRef "AppSource" n) s (DeleteAppSource n s).
Proof.
  split_and!.
  - intros r Hr. left. by_kind r; map_row; done.
  - intros m Hm. unfold kept. cbn. rewrite lookup_delete_ne by congruence. done.
  - intros m. unfold kept. cbn. destruct (decide (n = m)) as [->|]; [rewrite lookup_delete_eq; by right; left|].
    rewrite lookup_delete_ne by done. by left.
Qed.

Lemma sync_request_harmless e ok n s : harmless s (handleSyncAppSource e ok n s).2.
Proof.
  unfold handleSyncAppSource. destruct (we_write_ok e); [|done]. cbn [negb].
  assert (∀ f s0, (∀ a, as_Spec (f a) = as_Spec a ∧ as_ManagedResources (f a) = as_ManagedResources a) →
    harmless s0 (set_sources (alter f n (rs_sources s0)) s0)) as H1.
  { intros f s0 Hf. split; [intros r; apply alter_source_row; intros a; apply Hf|]. intros m. unfold kept. cbn.
    destruct (decide (n = m)) as [->|]; map_row; [|done]. destruct (rs_sources s0 !! m) as [a|]; [|done]. cbn. by destruct (Hf a) as [-> ->]. }
  unfold ResetAppSourceCommit. destruct ok; cbn [negb snd]; [|by apply H1].
  unfold SetAppSourceSyncStatus. destruct (H1 (λ a, MkAppSource (as_Spec a) (as_LastSyncedAt a) "" (as_ManagedResources a) (we_now e) (as_SyncStatus a) (as_LastError a)) s) as [Ha Hb]; [done|].
  match goal with |- harmless _ (set_sources (alter ?f _ _) ?s0) => destruct (H1 f s0) as [Hc Hd]; [done|] end.
  split; intros x; [rewrite Hc; apply Ha|rewrite Hd; apply Hb].
Qed.

(** The shapes of a handler, by what it leaves. *)
Definition quiet t s s' : Prop := s' = s ∨ effect t s s'.
Definition allowed t s s' : Prop := s' = s ∨ (¬ protected t s ∧ effect t s s').

Lemma guarded_allowed e kind name s k : scans e → quiet (MkRef kind name) s k.2 → allowed (MkRef kind name) s (guarded K e kind name s k).2.
Proof.
  intros Hs Hk. unfold guarded. destruct (guardManagedResource K e kind name s) eqn:Eg; [by left|]. apply guard_protects in Eg; [|done].
  destruct Hk as [Hk|Hk]; [by left|by right].
Qed.

Lemma stored_quiet e code t s (o : option resources) : (∀ s1, o = Some s1 → effect t s s1) → quiet t s (stored e code s o).2.
Proof. intros H. unfold stored. destruct o as [s1|]; [|by left]. destruct (we_write_ok e); [right; by apply H|by left]. Qed.

Lemma decoded_quiet {A} (r : res A) code t s k : (∀ a, r = Ok a → quiet t s (k a).2) → quiet t s (decoded r code s k).2.
Proof. intros H. destruct r as [a|]; [by apply H|by left]. Qed.

Lemma body_allowed {A} (dec : string → res A) body t s k :
  (∀ y a, body = Some y → dec y = Ok a → allowed t s (k a).2) → allowed t s (body_yaml body s (λ y, decoded (dec y) 400 s k)).2.
Proof.
  intros H. destruct body as [y|]; [|by left]. cbn. unfold decoded. destruct (dec y) as [a|] eqn:E; [by apply (H y)|by left].
Qed.

Lemma required_allowed e perm job hide t s k : allowed t s k.2 → allowed t s (required e perm job hide s k).2.
Proof. intros H. unfold required. destruct (requireJob _ _ _ _); [by left|done]. Qed.

Lemma direct_write_allowed t s s' : direct_write t s s' → harmless s s' ∨ allowed t s s'.
Proof.
  intros H. destruct H as [e body t s Hs Ht|e n s Hs|e body t s Hs Ht|e n s Hs|e body t s Hs Ht|e n s Hs|e body t s Hs Ht|e n s Hs
    |e body t s Hs Ht|e n s Hs|e body t s Hs Ht|e n s Hs|e ok n t s]; [right..|left; apply sync_request_harmless].
  - apply body_allowed. intros y j Hy Hj. rewrite (Ht y j Hy Hj). apply required_allowed, guarded_allowed; [done|].
    unfold storeJob. destruct (validatePathAnnotation _); [|by left]. apply decoded_quiet. intros spec _. apply stored_quiet.
    intros s1 [= <-]. eapply effect_write; [intros r; apply upsert_job_row|done].
  - apply guarded_allowed; [done|]. apply stored_quiet. intros s1 [= <-]. apply delete_job_effect.
  - apply body_allowed. intros y d Hy Hd. rewrite (Ht y d Hy Hd). cbv zeta. apply required_allowed.
    destruct (negb (we_read_ok e)); [by left|].
    match goal with |- context [guarded K e ?k ?n s ?h] => assert (allowed (MkRef k n) s (guarded K e k n s h).2) as Ha end.
    { apply guarded_allowed; [done|]. destruct (if we_read_ok e then _ else _); [|by left]. apply stored_quiet.
      intros s1 H1. eapply effect_write; [intros r; by apply upsert_schedule_row|].
      unfold upsert_schedule in H1. destruct (rs_jobs s !! _); [by injection H1 as <-|done]. }
    destruct (rs_schedules s !! _); [|done]. destruct (_ =? _)%string; [done|]. by do 2 apply required_allowed.
  - apply guarded_allowed; [done|]. apply stored_quiet. intros s1 [= <-]. apply effect_remove; [|done].
    intros r Hr. by_kind r; map_row; done.
  - apply body_allowed. intros y d Hy Hd. rewrite (Ht y d Hy Hd). apply guarded_allowed; [done|]. apply decoded_quiet. intros j _.
    apply stored_quiet. intros s1 [= <-]. eapply effect_write; [intros r; apply upsert_webhook_row|done].
  - apply guarded_allowed; [done|]. apply stored_quiet. intros s1 [= <-]. apply effect_remove; [|done].
    intros r Hr. by_kind r; map_row; done.
  - unfold handleUpsertGitCredential. destruct body as [[n c]|]; [|by left]. rewrite (Ht n c eq_refl). unfold decoded.
    destruct (ValidateName n); [|by left]. destruct (_ || _); [by left|]. destruct (_ && _); [by left|].
    apply guarded_allowed; [done|]. apply stored_quiet. intros s1 H1. eapply effect_write; [intros r; by eapply upsert_credential_row|].
    unfold UpsertGitCredential in H1. destruct (_ || _); [by injection H1 as <-|done].
  - apply guarded_allowed; [done|]. apply stored_quiet. intros s1 [= <-]. apply effect_remove; [|done].
    intros r Hr. by_kind r; map_row; done.
  - apply body_allowed. intros y d Hy Hd. rewrite (Ht y d Hy Hd). cbv zeta. apply guarded_allowed; [done|].
    destruct (negb (we_read_ok e)); [by left|]. destruct (vars_collision _ _ _ _); [by left|]. apply decoded_quiet. intros j _.
    apply stored_quiet. intros s1 [= <-]. eapply effect_write; [intros r; apply upsert_vars_row|done].
  - apply guarded_allowed; [done|]. apply stored_quiet. intros s1 [= <-]. apply effect_remove; [|done].
    intros r Hr. by_kind r; map_row; done.
  - apply body_allowed. intros y d Hy Hd. rewrite (Ht y d Hy Hd). apply guarded_allowed; [done|]. apply decoded_quiet. intros j _.
    apply stored_quiet. intros s1 [= <-]. apply apply_source_effect.
  - apply guarded_allowed; [done|]. apply stored_quiet. intros s1 [= <-]. apply delete_source_effect.
Qed.

(** ** Sequences of requests *)

Inductive direct_writes : list ResourceRef → resources → resources → Prop :=
| dws_nil s : direct_writes [] s s
| dws_cons t ts s s1 s2 : direct_write t s s1 → direct_writes ts s1 s2 → direct_writes (t :: ts) s s2.

(** Protected, and no request of the sequence targets a source that manages it. *)
Definition steady (ts : list ResourceRef) r s : Prop :=
  protected r s ∧ ∀ n a, MkRef "AppSource" n ∈ ts → rs_sources s !! n = Some a → r ∉ as_ManagedResources a.

Lemma kept_some s n x : kept s n = Some x ↔ ∃ a, rs_sources s !! n = Some a ∧ x = (as_Spec a, as_ManagedResources a).
Proof. unfold kept. rewrite fmap_Some. naive_solver. Qed.

Lemma steady_kept ts r s s' :
  (∀ n, kept s' n = kept s n) → steady ts r s → steady ts r s'.
Proof.
  intros Hk [[(n & a & Ha & Hin) Hall] Hno]. split; [split|].
  - assert (kept s' n = Some (as_Spec a, as_ManagedResources a)) as (a' & Ha' & [= _ E])%kept_some by (rewrite Hk; apply kept_some; eauto).
    exists n, a'. by rewrite <-E.
  - intros m b Hb Hm. assert (kept s m = Some (as_Spec b, as_ManagedResources b)) as (b' & Hb' & [= E1 E2])%kept_some by (rewrite <-Hk; apply kept_some; eauto).
    rewrite E2 in Hm. destruct (Hall m b' Hb' Hm) as [H1 H2]. split; [done|]. unfold overridable in *. by rewrite E1.
  - intros m b Hm Hb. assert (kept s m = Some (as_Spec b, as_ManagedResources b)) as (b' & Hb' & [= E1 E2])%kept_some by (rewrite <-Hk; apply kept_some; eauto).
    rewrite E2. by apply (Hno m).
Qed.

Lemma steady_effect t ts r s s' : effect t s s' → steady (t :: ts) r s → steady ts r s'.
Proof.
  intros (_ & Hk & Hm) [[(n & a & Ha & Hin) Hall] Hno].
  assert (∀ m b, rs_sources s' !! m = Some b → r ∈ as_ManagedResources b → t ≠ MkRef "AppSource" m) as Hnt.
  { intros m b Hb Hb2 ->. destruct (Hm m) as [E|[E|[_ E]]]; unfold kept in E; rewrite Hb in E; cbn in E; [|done|by injection E as E; rewrite E in Hb2; apply elem_of_nil in Hb2].
    destruct (rs_sources s !! m) as [c|] eqn:Ec; [|done]. injection E as E. rewrite E in Hb2. by apply (Hno m c); [left|..]. }
  assert (∀ m b, rs_sources s' !! m = Some b → r ∈ as_ManagedResources b →
    ∃ c, rs_sources s !! m = Some c ∧ as_Spec b = as_Spec c ∧ as_ManagedResources b = as_ManagedResources c) as Hold.
  { intros m b Hb Hb2. pose proof (Hnt m b Hb Hb2) as Hne.
    assert (kept s m = Some (as_Spec b, as_ManagedResources b)) as (c & Hc & [= E1 E2])%kept_some by (rewrite <-Hk by done; apply kept_some; eauto).
    by exists c. }
  split; [split|].
  - assert (t ≠ MkRef "AppSource" n) as Hne by (intros ->; by apply (Hno n a); [left|..]).
    assert (kept s' n = Some (as_Spec a, as_ManagedResources a)) as (b & Hb & [= _ E])%kept_some by (rewrite Hk by done; apply kept_some; eauto).
    exists n, b. by rewrite <-E.
  - intros m b Hb Hb2. destruct (Hold m b Hb Hb2) as (c & Hc & E1 & E2). rewrite E2 in Hb2. destruct (Hall m c Hc Hb2) as [H1 H2].
    split; [done|]. unfold overridable in *. by rewrite E1.
  - intros m b Hb Hb1 Hb2. destruct (Hold m b Hb1 Hb2) as (c & Hc & _ & E). rewrite E in Hb2. apply (Hno m c); [by right|done|done].
Qed.

Lemma steady_not_target t ts r s s' : effect t s s' → ¬ protected t s → steady (t :: ts) r s → row_of r s' = row_of r s ∨ (rr_Kind t = "Job" ∧ refers r (rr_Name t) s).
Proof. intros (Hr & _) Hn [Hp _]. apply Hr. by intros ->. Qed.

Lemma steady_writes ts r s s' :
  direct_writes ts s s' → steady ts r s →
  (∀ job, refers r job s → steady ts (MkRef "Job" job) s) →
  row_of r s' = row_of r s ∧ protected r s'.
Proof.
  intros H. induction H as [s|t ts s s1 s2 H1 _ IH]; intros Hr Hjob; [by destruct Hr|].
  assert (∀ x, steady (t :: ts) x s → steady ts x s1) as Hnext.
  { intros x Hx. destruct (direct_write_allowed t s s1 H1) as [[_ Hk]|[->|[_ He]]].
    - eapply steady_kept; [exact Hk|]. destruct Hx as [Hx1 Hx2]. split; [done|]. intros n a Hn. apply Hx2. by right.
    - destruct Hx as [Hx1 Hx2]. split; [done|]. intros n a Hn. apply Hx2. by right.
    - by eapply steady_effect. }
  assert (row_of r s1 = row_of r s) as Hrow.
  { destruct (direct_write_allowed t s s1 H1) as [[Hh _]|[->|[Hn He]]]; [apply Hh|done|].
    destruct (steady_not_target t ts r s s1 He Hn Hr) as [Heq|[Hk Href]]; [done|].
    exfalso. apply Hjob in Href as [Hp _]. apply Hn. destruct t. cbn in *. by subst. }
  destruct IH as [H2 H3]; [by apply Hnext| |by rewrite H2].
  intros job (Hk & cron & ps & Hrj). apply Hnext, Hjob. split; [done|]. exists cron, ps. by rewrite <-Hrow.
Qed.
End facts.

(** C24: git stays the source of truth.  Whatever sequence of API requests
    (applying and deleting jobs, schedules, webhook receivers, credentials,
    variables and sources, and forcing syncs), a resource that some source manages
    and none of its managers lets override keeps its row and its protection, as
    long as no request targets a source that manages it; a schedule also needs its
    job to be so managed, because deleting a job takes its schedules along. *)
Theorem managed_unchanged K ts r s s' :
  direct_writes K ts s s' → protected K r s →
  (∀ n a, MkRef "AppSource" n ∈ ts → rs_sources s !! n = Some a → r ∉ as_ManagedResources a) →
  (∀ job, refers r job s → protected K (MkRef "Job" job) s
     ∧ ∀ n a, MkRef "AppSource" n ∈ ts → rs_sources s !! n = Some a → MkRef "Job" job ∉ as_ManagedResources a) →
  row_of r s' = row_of r s ∧ protected K r s'.
Proof. intros H Hp Hno Hjob. eapply steady_writes; [exact H|by split|]. intros job Hr. by apply Hjob. Qed.

(** ** Samples *)

Module Samples.
Import AppSyncFacts.Demo.
Definition req (body_ok : bool) : write_env := MkWriteEnv None false map_to_list true body_ok true 7.

Lemma req_scans b : scans (req b).
Proof. intros m. reflexivity. Qed.

(** A tree of a job and its schedule, synced by [root]. *)
Definition synced : resources :=
  MkResources {["build" := job_a; "own" := job_a]} {["nightly" := MkSchedule "* * * * *" "build" ∅ None]} ∅ ∅ ∅
    {["root" := source_row "apps" "c1" [MkRef "Job" "build"; MkRef "Schedule" "nightly"]]} ∅.

Lemma synced_protected r : r = MkRef "Job" "build" ∨ r = MkRef "Schedule" "nightly" → protected codec r synced.
Proof.
  intros Hr. split.
  - exists "root", (source_row "apps" "c1" [MkRef "Job" "build"; MkRef "Schedule" "nightly"]). split; [by vm_compute|].
    cbn. destruct Hr as [->| ->]; [left|right; left].
  - intros n a Ha Hin. split; [by destruct Hr as [->| ->]|]. intros (spec & Hs & Ho). cbn in Ha.
    apply lookup_singleton_Some in Ha as [_ <-]. cbn in Hs. by injection Hs as <-.
Qed.

Lemma managed_unchanged_witness :
  let s' := (handleDeleteSchedule codec (req true) "nightly" (handleDeleteJob codec (req true) "own" synced).2).2 in
  (handleDeleteJob codec (req true) "build" synced).1 = Status 409 ∧ rs_jobs s' !! "own" = None
  ∧ row_of (MkRef "Schedule" "nightly") s' = Some (RowSchedule "* * * * *" "build" ∅) ∧ protected codec (MkRef "Schedule" "nightly") s'.
Proof.
  intros s'. split; [by vm_compute|]. split; [by vm_compute|].
  assert (direct_writes codec [MkRef "Job" "own"; MkRef "Schedule" "nightly"] synced s') as H.
  { exact (dws_cons codec _ _ _ _ _ (dw_delete_job codec (req true) "own" synced (req_scans true))
             (dws_cons codec _ _ _ _ _ (dw_delete_schedule codec (req true) "nightly" _ (req_scans true)) (dws_nil codec _))). }
  destruct (managed_unchanged codec [MkRef "Job" "own"; MkRef "Schedule" "nightly"] (MkRef "Schedule" "nightly") synced s' H) as [H1 H2].
  - apply synced_protected. by right.
  - intros n a Hn. exfalso. rewrite !elem_of_cons, elem_of_nil in Hn. naive_solver.
  - intros job (_ & cron & ps & Hr). vm_compute in Hr. injection Hr as <- <- <-. split; [apply synced_protected; by left|].
    intros n a Hn. exfalso. rewrite !elem_of_cons, elem_of_nil in Hn. naive_solver.
  - split; [|exact H2]. rewrite H1. by vm_compute.
Defined.

(** Without the condition on the job, a managed schedule is lost: nothing manages
    the job [build] here, and deleting it is allowed. *)
Definition half : resources :=
  MkResources {["build" := job_a]} {["nightly" := MkSchedule "* * * * *" "build" ∅ None]} ∅ ∅ ∅
    {["root" := source_row "apps" "c1" [MkRef "Schedule" "nightly"]]} ∅.
Example unmanaged_job_takes_schedule :
  (handleDeleteSchedule codec (req true) "nightly" half).1 = Status 409
  ∧ (handleDeleteJob codec (req true) "build" half).1 = Status 204
  ∧ row_of (MkRef "Schedule" "nightly") (handleDeleteJob codec (req true) "build" half).2 = None.
Proof. by vm_compute. Qed.
End Samples.
