(* ===== verification/Programs.v ===== *)
(** * Programs over the requests of a component to its surroundings

    The Go code that talks to a file system or an API server is a program: a request,
    and a continuation for each answer.  Its executions, and what may happen between
    two requests, are the business of the component that uses it. *)

From S2P Require Import Prelude.
From stdpp Require Import options.

(** [C] are the requests, [R] the answers. *)
Inductive prog (C R A : Type) :=
| Ret (a : A)
| Do (c : C) (k : R → prog C R A).
Arguments Ret {C R A} a.
Arguments Do {C R A} c k.

Fixpoint bind_prog {C R A B} (f : A → prog C R B) (p : prog C R A) : prog C R B :=
  match p with Ret a => f a | Do c k => Do c (λ a, bind_prog f (k a)) end.
#[export] Instance prog_ret C R : MRet (prog C R) := @Ret C R.
#[export] Instance prog_bind C R : MBind (prog C R) := λ A B f p, bind_prog f p.
