(* ===== verification/VolumeChoice.v ===== *)
(** * internal/agent/volumes.go: which volume each entry of a job takes

    The bounded backtracking search that the host and the Kubernetes agents share
    ([assignDistinct], [ChooseVolumes], [ChooseVolumesAvoiding]), and what it
    promises: an assignment when there is one, distinct volumes whenever the agent
    declares enough, and an answer after a bounded number of nodes. *)

From S2P Require Import Prelude.
From stdpp Require Import options.

Definition maxVolumeSearchNodes : N := 20000.

(** ** The search *)

Section search.
Variables (usable : string → bool) (alias : bool).

(** What a call of [rec] gives: the assignment of the remaining entries, the
    nodes visited so far and whether the search was given up. *)
Abbreviation outcome := (option (list string) * N * bool)%type.

(** The loop over the candidates of an entry, whose first is [first]; [again] is
    [rec] on the entries after it. *)
Fixpoint try_candidates (again : gset string → N → outcome) (first : string) (taken : gset string)
    (l : list string) (anyUnchosen : bool) (nodes : N) : outcome :=
  match l with
  | [] =>
      if negb anyUnchosen && alias then
        match again taken nodes with (Some a, nodes', ab) => (Some (first :: a), nodes', ab) | r => r end
      else (None, nodes, false)
  | n :: l' =>
      if decide (n ∈ taken) then try_candidates again first taken l' anyUnchosen nodes
      else if negb (usable n) then try_candidates again first taken l' true nodes
      else
        match again ({[n]} ∪ taken) nodes with
        | (Some a, nodes', ab) => (Some (n :: a), nodes', ab)
        | (None, nodes', true) => (None, nodes', true)
        | (None, nodes', false) => try_candidates again first taken l' true nodes'
        end
  end.

Fixpoint rec (sets : list (list string)) (taken : gset string) (nodes : N) : outcome :=
  let nodes := N.succ nodes in
  if (maxVolumeSearchNodes <? nodes)%N then (None, nodes, true)
  else match sets with
       | [] => (Some [], nodes, false)
       | cs :: rest => try_candidates (rec rest) (default EmptyString (head cs)) taken cs false nodes
       end.

(** The names that occur, once each, and how many of them may be chosen. *)
Definition names_of (sets : list (list string)) : list string := remove_dups (concat sets).
Definition usable_names (sets : list (list string)) : nat := length (filter (λ n, usable n = true) (names_of sets)).

Definition assignDistinct (sets : list (list string)) : option (list string) * bool :=
  if negb alias && (usable_names sets <? length sets)%nat then (None, false)
  else match rec sets ∅ 0 with
       | (None, _, abandoned) => (None, abandoned)
       | (Some chosen, _, _) => (Some chosen, false)
       end.
End search.

Definition ChooseVolumes (declared : list (list string)) (free : string → bool) : option (list string) * bool :=
  if (length (names_of declared) <? length declared)%nat then assignDistinct free true declared
  else
    let '(a, freeAbandoned) := assignDistinct free false declared in
    match a with
    | Some a => (Some a, false)
    | None =>
        let '(exists_, ab) := assignDistinct (λ _, true) false declared in
        match exists_ with
        | Some _ => (None, freeAbandoned)
        | None => if ab then (None, true) else assignDistinct free true declared
        end
    end.

Definition ChooseVolumesAvoiding (declared : list (list string)) (free avoid : string → bool) : option (list string) * bool :=
  if negb (existsb (existsb avoid) declared) then ChooseVolumes declared free
  else
    match ChooseVolumes declared (λ n, free n && negb (avoid n)) with
    | (Some a, _) => (Some a, false)
    | (None, _) => ChooseVolumes declared free
    end.

(** ** What an assignment is *)

(** Each entry takes a candidate that may be used and is not taken yet; under
    [alias], an entry whose candidates are all taken takes its first again. *)
Inductive reading (usable : string → bool) (alias : bool) : gset string → list (list string) → list string → Prop :=
| rd_nil taken : reading usable alias taken [] []
| rd_take taken cs rest n a :
    n ∈ cs → n ∉ taken → usable n = true → reading usable alias ({[n]} ∪ taken) rest a → reading usable alias taken (cs :: rest) (n :: a)
| rd_alias taken cs rest a :
    alias = true → (∀ n, n ∈ cs → n ∈ taken) → reading usable alias taken rest a →
    reading usable alias taken (cs :: rest) (default EmptyString (head cs) :: a).

Section facts.
Variables (usable : string → bool) (alias : bool).

Lemma rec_cons cs rest taken nodes :
  rec usable alias (cs :: rest) taken nodes
  = if (maxVolumeSearchNodes <? N.succ nodes)%N then (None, N.succ nodes, true)
    else try_candidates usable alias (rec usable alias rest) (default EmptyString (head cs)) taken cs false (N.succ nodes).
Proof. done. Qed.

(** The search visits at most one node more than its bound. *)
Lemma rec_bounded sets taken nodes :
  (nodes ≤ maxVolumeSearchNodes)%N →
  let '(a, nodes', ab) := rec usable alias sets taken nodes in
  (nodes' ≤ N.succ maxVolumeSearchNodes)%N ∧ (ab = false → (nodes' ≤ maxVolumeSearchNodes)%N) ∧ (is_Some a → ab = false).
Proof.
  revert taken nodes. induction sets as [|cs rest IH]; intros taken nodes Hn.
  - cbn [rec]. destruct (N.ltb_spec maxVolumeSearchNodes (N.succ nodes)); [split_and!; [lia|done|by intros [? [=]]]|split_and!; [lia|lia|done]].
  - rewrite rec_cons. destruct (N.ltb_spec maxVolumeSearchNodes (N.succ nodes)); [split_and!; [lia|done|by intros [? [=]]]|].
    assert (N.succ nodes ≤ maxVolumeSearchNodes)%N as Hk by lia. clear Hn H. revert Hk. generalize (N.succ nodes) as k.
    cut (∀ l b k, (k ≤ maxVolumeSearchNodes)%N →
      let '(a, nodes', ab) := try_candidates usable alias (rec usable alias rest) (default EmptyString (head cs)) taken l b k in
      (nodes' ≤ N.succ maxVolumeSearchNodes)%N ∧ (ab = false → (nodes' ≤ maxVolumeSearchNodes)%N) ∧ (is_Some a → ab = false)); [intros H k Hk; exact (H cs false k Hk)|].
    intros l. induction l as [|n l IHl]; intros b k Hk; cbn [try_candidates].
    + destruct (negb b && alias); [|split_and!; [lia|lia|by intros [? [=]]]].
      specialize (IH taken k Hk). destruct (rec usable alias rest taken k) as [[[a|] k'] ab]; [|exact IH].
      destruct IH as (H1 & H2 & H3). split_and!; [done..|]. intros _. apply H3. by eexists.
    + case_decide; [by apply IHl|]. destruct (negb (usable n)); [by apply IHl|].
      specialize (IH ({[n]} ∪ taken) k Hk). destruct (rec usable alias rest ({[n]} ∪ taken) k) as [[[a|] k'] ab].
      * destruct IH as (H1 & H2 & H3). split_and!; [done..|]. intros _. apply H3. by eexists.
      * destruct ab; [exact IH|]. apply IHl. by apply IH.
Qed.

Lemma rec_sound sets taken nodes a nodes' ab : rec usable alias sets taken nodes = (Some a, nodes', ab) → reading usable alias taken sets a.
Proof.
  revert taken nodes a nodes' ab. induction sets as [|cs rest IH]; intros taken nodes a nodes' ab.
  - cbn [rec]. destruct (_ <? _)%N; [done|]. intros [= <- _ _]. constructor.
  - rewrite rec_cons. destruct (_ <? _)%N; [done|].
    assert (∀ l b k, (∀ n, n ∈ l → n ∈ cs) → (b = false → ∀ n, n ∈ cs → n ∈ l ∨ n ∈ taken) →
      try_candidates usable alias (rec usable alias rest) (default EmptyString (head cs)) taken l b k = (Some a, nodes', ab) → reading usable alias taken (cs :: rest) a) as H.
    { induction l as [|n l IHl]; intros b k Hl Hb; cbn [try_candidates].
      - destruct b; [done|]. cbn. destruct alias eqn:Ea; [|done].
        destruct (rec usable true rest taken k) as [[[a'|] k'] ab'] eqn:E; [|done]. intros [= <- _ _]. eapply rd_alias; [done| |by eapply IH].
        intros x Hx. destruct (Hb eq_refl x Hx) as [Hn|]; [by apply elem_of_nil in Hn|done].
      - assert (∀ x, x ∈ l → x ∈ cs) as Hl' by (intros x Hx; apply Hl; by right).
        destruct (decide (n ∈ taken)) as [Ht|Ht].
        { apply IHl; [done|]. intros -> x Hx. destruct (Hb eq_refl x Hx) as [[->|]%elem_of_cons|]; auto. }
        destruct (usable n) eqn:Eu; cbn [negb]; [|by apply IHl].
        destruct (rec usable alias rest ({[n]} ∪ taken) k) as [[[a'|] k'] ab'] eqn:E.
        + intros [= <- _ _]. eapply rd_take; [apply Hl; left|done|done|by eapply IH].
        + destruct ab'; [done|]. by apply IHl. }
    apply H; [done|]. intros _ n Hn. by left.
Qed.

Lemma rec_complete sets taken nodes nodes' a :
  Forall (λ cs, cs ≠ []) sets → rec usable alias sets taken nodes = (None, nodes', false) → ¬ reading usable alias taken sets a.
Proof.
  intros Hne. revert taken nodes nodes' a. induction Hne as [|cs rest Hcs Hne IH]; intros taken nodes nodes' a.
  - cbn [rec]. by destruct (_ <? _)%N.
  - rewrite rec_cons. destruct (_ <? _)%N; [done|]. intros H Hr.
    assert (∀ l b k, try_candidates usable alias (rec usable alias rest) (default EmptyString (head cs)) taken l b k = (None, nodes', false) →
      (∀ n a', n ∈ l → n ∉ taken → usable n = true → ¬ reading usable alias ({[n]} ∪ taken) rest a')
      ∧ (b = false → alias = true → (∀ n, n ∈ l → n ∈ taken) → ∀ a', ¬ reading usable alias taken rest a')) as Hcand.
    { clear H Hr. induction l as [|n l IHl]; intros b k; cbn [try_candidates].
      - intros H. split; [by intros n a' ?%elem_of_nil|]. intros -> -> _ a'. cbn in H.
        destruct (rec usable true rest taken k) as [[[a1|] k'] ab'] eqn:E; [done|]. injection H as -> ->. by eapply IH.
      - destruct (decide (n ∈ taken)) as [Ht|Ht].
        { intros [H1 H2]%IHl. split; [|intros Hb Ha Hall; apply H2; [done..|]; intros x Hx; apply Hall; by right].
          intros x a' [->|Hx]%elem_of_cons; [done|]. by apply H1. }
        destruct (usable n) eqn:Eu; cbn [negb].
        + destruct (rec usable alias rest ({[n]} ∪ taken) k) as [[[a1|] k'] ab'] eqn:E; [done|]. destruct ab'; [done|].
          intros [H1 _]%IHl. split; [|intros _ _ Hall; exfalso; apply Ht, Hall; left].
          intros x a' [->|Hx]%elem_of_cons Hxt Hxu; [by eapply IH|by apply H1].
        + intros [H1 _]%IHl. split; [|intros _ _ Hall; exfalso; apply Ht, Hall; left].
          intros x a' [->|Hx]%elem_of_cons Hxt Hxu; [congruence|by apply H1]. }
    apply Hcand in H as [H1 H2]. inversion Hr; subst; [by eapply H1|by eapply H2].
Qed.
End facts.

(** ** Readings *)

Definition nonempty (sets : list (list string)) : Prop := Forall (λ cs, cs ≠ []) sets.

Lemma reading_mono u u' alias taken sets a :
  (∀ n, u n = true → u' n = true) → reading u false taken sets a → reading u' alias taken sets a.
Proof. intros Hu. induction 1; [constructor|by eapply rd_take; eauto|done]. Qed.

(** Without aliases: a candidate for each entry, usable, no volume twice. *)
Lemma distinct_iff u taken sets a :
  reading u false taken sets a
  ↔ Forall2 (λ cs n, n ∈ cs) sets a ∧ (∀ n, n ∈ a → u n = true) ∧ NoDup a ∧ ∀ n, n ∈ a → n ∉ taken.
Proof.
  split.
  - induction 1 as [|taken cs rest n a Hn Ht Hu _ (IH1 & IH2 & IH3 & IH4)|]; [|split_and!|done].
    + split_and!; [constructor|by intros ? ?%elem_of_nil|constructor|by intros ? ?%elem_of_nil].
    + by constructor.
    + intros x [->|Hx]%elem_of_cons; auto.
    + constructor; [|done]. intros Hx. apply (IH4 n Hx). set_solver.
    + intros x [->|Hx]%elem_of_cons; [done|]. specialize (IH4 x Hx). set_solver.
  - intros (HF & Hu & Hnd & Ht). revert taken Ht. induction HF as [|cs n sets a Hn _ IH]; intros taken Ht; [constructor|].
    apply NoDup_cons in Hnd as [Hna Hnd]. eapply rd_take; [done|apply Ht; left|apply Hu; left|]. apply IH; [|done|].
    + intros x Hx. apply Hu. by right.
    + intros x Hx. pose proof (Ht x (list_elem_of_further _ _ _ Hx)). assert (x ≠ n) by (by intros ->). set_solver.
Qed.

Lemma reading_usable u alias taken sets a :
  nonempty sets → (∀ n, n ∈ taken → u n = true) → reading u alias taken sets a → Forall2 (λ cs n, n ∈ cs ∧ u n = true) sets a.
Proof.
  intros Hne Ht Hr. revert Hne Ht. induction Hr as [|taken cs rest n a Hn Hnt Hu _ IH|taken cs rest a _ Hall _ IH]; intros Hne Ht.
  - constructor.
  - apply Forall_cons in Hne as [Hcs Hne]. constructor; [done|]. apply IH; [done|]. intros x. set_unfold. intros [->|]; auto.
  - apply Forall_cons in Hne as [Hcs Hne]. constructor; [|by apply IH]. destruct cs as [|c cs]; [done|]. cbn.
    split; [left|apply Ht, Hall; left].
Qed.

(** An aliased reading that uses no volume twice is distinct. *)
Lemma reading_NoDup u taken sets a :
  nonempty sets → reading u true taken sets a → NoDup a → (∀ n, n ∈ a → n ∉ taken) → reading u false taken sets a.
Proof.
  intros Hne Hr. revert Hne. induction Hr as [|taken cs rest n a Hn Hnt Hu _ IH|taken cs rest a _ Hall _ IH]; intros Hne Hnd Ht.
  - constructor.
  - apply Forall_cons in Hne as [_ Hne]. apply NoDup_cons in Hnd as [Hna Hnd]. eapply rd_take; [done..|]. apply IH; [done..|].
    intros x Hx. pose proof (Ht x (list_elem_of_further _ _ _ Hx)). assert (x ≠ n) by (by intros ->). set_solver.
  - apply Forall_cons in Hne as [Hcs _]. destruct cs as [|c cs]; [done|]. exfalso. cbn in *.
    apply (Ht c); [left|apply Hall; left].
Qed.

(** With everything usable there is always an aliased reading. *)
Lemma reading_exists taken sets : ∃ a, reading (λ _, true) true taken sets a.
Proof.
  revert taken. induction sets as [|cs rest IH]; intros taken; [exists []; constructor|].
  destruct (decide (Exists (λ n, n ∉ taken) cs)) as [(n & Hn & Ht)%Exists_exists|Hno].
  - destruct (IH ({[n]} ∪ taken)) as [a Ha]. exists (n :: a). by eapply rd_take.
  - destruct (IH taken) as [a Ha]. exists (default EmptyString (head cs) :: a). apply rd_alias; [done| |done].
    intros n Hn. destruct (decide (n ∈ taken)) as [|Ht]; [done|]. exfalso. apply Hno, Exists_exists. eauto.
Qed.

(** Too few names for the entries: no distinct reading. *)
Lemma distinct_length u sets a : reading u false ∅ sets a → length sets ≤ usable_names u sets.
Proof.
  intros (HF & Hu & Hnd & _)%distinct_iff. rewrite (Forall2_length _ _ _ HF). unfold usable_names.
  apply submseteq_length, NoDup_submseteq; [done|]. intros n Hn. apply list_elem_of_filter. split; [by apply Hu|].
  unfold names_of. apply elem_of_remove_dups. apply list_elem_of_lookup in Hn as [i Hi].
  destruct (Forall2_lookup_r _ _ _ _ _ HF Hi) as (cs & Hcs & Hin). apply list_elem_of_In, in_concat. exists cs.
  split; [by eapply list_elem_of_In, list_elem_of_lookup_2|by apply list_elem_of_In].
Qed.

Lemma assign_spec u alias sets :
  nonempty sets →
  (∀ a ab, assignDistinct u alias sets = (Some a, ab) → reading u alias ∅ sets a ∧ ab = false)
  ∧ (assignDistinct u alias sets = (None, false) → ∀ a, ¬ reading u alias ∅ sets a).
Proof.
  intros Hne. unfold assignDistinct. destruct (negb alias && _) eqn:E.
  - split; [done|]. intros _ a Ha. apply andb_true_iff in E as [Ea El]. destruct alias; [done|].
    apply distinct_length in Ha. apply Nat.ltb_lt in El. lia.
  - destruct (rec u alias sets ∅ 0) as [[[a|] n] ab] eqn:Er; (split; [intros a' ab' H|intros H a']); try done.
    + injection H as <- <-. split; [by eapply rec_sound|done].
    + injection H as ->. by eapply rec_complete.
Qed.

(** ** The choice *)

(** Free volumes, distinct where the declared candidates allow it at all. *)
Definition admissible (declared : list (list string)) (free : string → bool) (a : list string) : Prop :=
  reading free true ∅ declared a ∧ ((∃ d, reading (λ _, true) false ∅ declared d) → NoDup a).

Lemma choose_spec declared free :
  nonempty declared →
  (∀ a ab, ChooseVolumes declared free = (Some a, ab) → admissible declared free a ∧ ab = false)
  ∧ (ChooseVolumes declared free = (None, false) → ∀ a, ¬ admissible declared free a).
Proof.
  intros Hne. unfold ChooseVolumes, admissible. destruct (Nat.ltb_spec (length (names_of declared)) (length declared)) as [Hlen|_].
  - assert (¬ ∃ d, reading (λ _, true) false ∅ declared d) as Hno.
    { intros (d & Hd%distinct_length). unfold usable_names in Hd. rewrite filter_all in Hd by done. lia. }
    destruct (assign_spec free true declared Hne) as [H1 H2]. split.
    + intros a ab Ha. destruct (H1 a ab Ha) as [Hr ->]. split; [split; [done|tauto]|done].
    + intros Ha a [Hr _]. by eapply H2.
  - destruct (assign_spec free false declared Hne) as [H1 H2]. destruct (assignDistinct free false declared) as [[a|] fa] eqn:Ef.
    { destruct (H1 a fa eq_refl) as [Hr ->]. split; [|done]. intros b ab [= <- <-]. split; [split|done]; [by eapply reading_mono|].
      intros _. by apply distinct_iff in Hr as (_ & _ & ? & _). }
    destruct (assign_spec (λ _, true) false declared Hne) as [E1 E2]. destruct (assignDistinct (λ _, true) false declared) as [[d|] ab] eqn:Ee.
    { destruct (E1 d ab eq_refl) as [Hd _]. split; [done|]. intros [= ->] a [Hr Hnd]. eapply (H2 eq_refl a), reading_NoDup; [done..|eauto|set_solver]. }
    destruct ab; [split; done|]. pose proof (E2 eq_refl) as Hno. destruct (assign_spec free true declared Hne) as [A1 A2]. split.
    + intros a ab Ha. destruct (A1 a ab Ha) as [Hr ->]. split; [split; [done|]|done]. intros (d & Hd). by destruct (Hno d).
    + intros Ha a [Hr _]. by eapply A2.
Qed.

Lemma admissible_free declared free a :
  nonempty declared → admissible declared free a → Forall2 (λ cs n, n ∈ cs ∧ free n = true) declared a.
Proof. intros Hne [Hr _]. eapply reading_usable; [done| |done]. set_solver. Qed.

(** Fewer free volumes, fewer assignments. *)
Lemma admissible_mono declared (u u' : string → bool) a :
  (∀ cs n, cs ∈ declared → n ∈ cs → u n = true → u' n = true) → admissible declared u a → admissible declared u' a.
Proof.
  intros Hu [Hr Hnd]. split; [|done]. clear Hnd. revert Hr Hu. generalize (∅ : gset string).
  intros taken. induction 1 as [|taken cs rest n a Hn Ht Hun _ IH|taken cs rest a Ha Hall _ IH]; intros Hu.
  - constructor.
  - eapply rd_take; [done..|eapply (Hu cs); [left|done..]|]. apply IH. intros cs' n' ?. apply Hu. by right.
  - apply rd_alias; [done..|]. apply IH. intros cs' n' ?. apply Hu. by right.
Qed.

(** The gate steers the choice; it never makes a run wait. *)
Lemma avoiding_spec declared free avoid :
  nonempty declared →
  (∀ a ab, ChooseVolumesAvoiding declared free avoid = (Some a, ab) → admissible declared free a)
  ∧ (ChooseVolumesAvoiding declared free avoid = (None, false) → ∀ a, ¬ admissible declared free a).
Proof.
  intros Hne. pose proof (choose_spec declared free Hne) as [C1 C2]. unfold ChooseVolumesAvoiding. destruct (negb _).
  { split; [|done]. intros a ab Ha. by eapply C1. }
  pose proof (choose_spec declared (λ n, free n && negb (avoid n)) Hne) as [D1 _].
  destruct (ChooseVolumes declared (λ n, free n && negb (avoid n))) as [[b|] bb].
  - split; [|done]. intros a ab [= <- <-]. eapply admissible_mono; [|by eapply D1]. by intros _ n _ _ [? _]%andb_true_iff.
  - split; [|done]. intros a ab Ha. by eapply C1.
Qed.

(** C37: the choice of volumes is right.  A job is given, for each entry, a free
    candidate that this entry lists; no volume twice unless the agent declares too
    few for distinct ones, and then an entry reuses one only when all its
    candidates are taken; a volume the disk gate withholds only if there is no such
    assignment without.  It is told to wait only if no such assignment is free, or
    the search was given up, which is reported; and a search visits at most 20001
    nodes. *)
Theorem choice_exact declared free avoid :
  nonempty declared →
  (∀ a ab, ChooseVolumesAvoiding declared free avoid = (Some a, ab) →
     admissible declared free a ∧ Forall2 (λ cs n, n ∈ cs ∧ free n = true) declared a
     ∧ (Forall (λ n, avoid n = false) a
        ∨ (∀ b, ¬ admissible declared (λ n, free n && negb (avoid n)) b)
        ∨ ChooseVolumes declared (λ n, free n && negb (avoid n)) = (None, true)))
  ∧ (ChooseVolumesAvoiding declared free avoid = (None, false) → ∀ a, ¬ admissible declared free a)
  ∧ ∀ usable alias, ((rec usable alias declared ∅ 0).1.2 ≤ N.succ maxVolumeSearchNodes)%N.
Proof.
  intros Hne. pose proof (avoiding_spec declared free avoid Hne) as [A1 A2]. split_and!; [|done|].
  - intros a ab Ha. pose proof (A1 a ab Ha) as Hadm. split_and!; [done|by apply admissible_free|]. clear A1 A2. revert Ha.
    unfold ChooseVolumesAvoiding. destruct (existsb (existsb avoid) declared) eqn:Ea; cbn [negb]; intros Ha.
    + pose proof (choose_spec declared (λ n, free n && negb (avoid n)) Hne) as [D1 D2].
      destruct (ChooseVolumes declared (λ n, free n && negb (avoid n))) as [[b|] bb] eqn:Eb; [|destruct bb; [by right; right|right; left; by apply D2]].
      injection Ha as <- <-. left. destruct (D1 b bb eq_refl) as [Hb%admissible_free _]; [|done]. apply Forall_forall. intros n [i Hi]%list_elem_of_lookup.
      destruct (Forall2_lookup_r _ _ _ _ _ Hb Hi) as (cs & _ & _ & H). apply andb_true_iff in H as [_ H]. by apply negb_true_iff.
    + left. apply Forall_forall. intros n [i Hi]%list_elem_of_lookup.
      destruct (Forall2_lookup_r _ _ _ _ _ (admissible_free _ _ _ Hne Hadm) Hi) as (cs & Hcs & Hin & _).
      apply (existsb_false_elem _ _) with (x := cs) in Ea; [|by eapply list_elem_of_lookup_2]. by apply (existsb_false_elem _ _) with (x := n) in Ea.
  - intros usable alias. pose proof (rec_bounded usable alias declared ∅ 0) as H. destruct (rec usable alias declared ∅ 0) as [[a n] ab]. cbn.
    destruct H as [H _]; [|exact H]. unfold maxVolumeSearchNodes. lia.
Qed.

Lemma choice_exact_witness :
  let free n := negb (n =? "c")%string in
  ChooseVolumesAvoiding [["a"; "b"]; ["a"; "c"]] free (λ _, false) = (Some ["b"; "a"], false)
  ∧ Forall2 (λ cs n, n ∈ cs ∧ free n = true) [["a"; "b"]; ["a"; "c"]] ["b"; "a"]
  ∧ ∀ a, ¬ admissible [["c"]] free a.
Proof.
  intros free. assert (nonempty [["a"; "b"]; ["a"; "c"]]) as Hne by (repeat constructor; done).
  destruct (choice_exact [["a"; "b"]; ["a"; "c"]] free (λ _, false) Hne) as [H1 _].
  split; [by vm_compute|]. split.
  - destruct (H1 ["b"; "a"] false) as (_ & H & _); [by vm_compute|exact H].
  - assert (nonempty [["c"]]) as Hc by (apply Forall_singleton; discriminate). destruct (choice_exact [["c"]] free (λ _, false) Hc) as (_ & H & _).
    apply H. by vm_compute.
Defined.

(** An entry list without an admissible assignment names a volume that is not free. *)
Lemma waits_for_some declared free :
  nonempty declared → (∀ a, ¬ admissible declared free a) → ∃ cs n, cs ∈ declared ∧ n ∈ cs ∧ free n = false.
Proof.
  intros Hne Hno. destruct (decide (Exists (λ cs, Exists (λ n, free n = false) cs) declared)) as [(cs & Hcs & (n & Hn & Hf)%Exists_exists)%Exists_exists|Hall]; [by exists cs, n|].
  exfalso. assert (∀ a, admissible declared (λ _, true) a → False) as Hno'.
  { intros a Ha. apply (Hno a). eapply admissible_mono; [|exact Ha]. intros cs n Hcs Hn _. destruct (free n) eqn:E; [done|]. destruct Hall.
    apply Exists_exists. exists cs. split; [done|]. apply Exists_exists. by exists n. }
  destruct (reading_exists ∅ declared) as [a Ha]. apply (Hno' a). split; [done|]. intros (d & Hd). exfalso. apply (Hno' d).
  split; [by eapply reading_mono|]. intros _. by apply distinct_iff in Hd as (_ & _ & ? & _).
Qed.
