(* ===== verification/Volumes.v ===== *)
(** * internal/agent/volumes.go: the reservation table of an agent's volumes

    [VolumeManager] with its three ways to reserve, each a check followed by passes
    under the manager's lock; a call that finds nothing free waits for the next
    release.  [sys] interleaves any number of calls, pass by pass.  Paths are POSIX
    paths ([filepath.ToSlash] is the identity). *)

From S2P Require Import Prelude GoStrings GoPath DslTypes VolumeChoice.
From stdpp Require Import options.

Definition VolumeModeExclusive : string := "exclusive".
Definition VolumeModeShared : string := "shared".

Record volume := MkVolume { v_mode : string; v_path : string; v_size : Z }.

(** [changed] counts the channels closed so far. *)
Record VolumeManager := MkManager {
  vols : gmap string volume;
  base : string;
  holders : gmap string (gset string);
  paths : gset string;
  changed : N;
  gated : gset string;
  pinned : gset string
}.

Definition with_holders (h : gmap string (gset string)) (m : VolumeManager) : VolumeManager :=
  MkManager (vols m) (base m) h (paths m) (changed m) (gated m) (pinned m).
Definition with_paths (p : gset string) (m : VolumeManager) : VolumeManager :=
  MkManager (vols m) (base m) (holders m) p (changed m) (gated m) (pinned m).

(** The declarations are those of the configuration: nothing is held yet. *)
Definition manager_of (vs : gmap string volume) (b : string) : VolumeManager := MkManager vs b ∅ ∅ 0 ∅ ∅.

Definition Names (m : option VolumeManager) : list string := match m with None => [] | Some m => sorted_keys (vols m) end.
Definition ModeOf (m : option VolumeManager) (name : string) : string :=
  match m with None => "" | Some m => from_option v_mode "" (vols m !! name) end.
Definition PathOf (m : option VolumeManager) (name : string) : string :=
  match m with None => "" | Some m => from_option v_path "" (vols m !! name) end.

(** ** The lock's critical sections *)

Definition holders_of (m : VolumeManager) (n : string) : gset string := default ∅ (holders m !! n).

(** [free] of [assignLocked], which [reserve] spells out. *)
Definition free (m : VolumeManager) (run n : string) : bool :=
  bool_decide (run ∈ holders_of m n) || (from_option v_mode "" (vols m !! n) =? VolumeModeShared)%string || bool_decide (holders_of m n = ∅).

Definition assignLocked (m : VolumeManager) (run : string) (declared : list (list string)) (keys : list string) : option (list string) * bool :=
  if existsb (λ k, bool_decide (k ∈ paths m)) keys then (None, false)
  else ChooseVolumesAvoiding declared (free m run) (λ n, bool_decide (n ∈ gated m)).

Definition add_holder (run n : string) (m : VolumeManager) : VolumeManager := with_holders (<[n := {[run]} ∪ holders_of m n]> (holders m)) m.

Definition dropHolder (run n : string) (m : VolumeManager) : VolumeManager :=
  let left := holders_of m n ∖ {[run]} in
  with_holders (if decide (left = ∅) then delete n (holders m) else <[n := left]> (holders m)) m.

(** The loop that takes the chosen volumes; [added] are those the run did not
    hold. *)
Fixpoint hold_all (run : string) (chosen : list string) (m : VolumeManager) : list string * VolumeManager :=
  match chosen with
  | [] => ([], m)
  | n :: chosen' =>
      if bool_decide (run ∈ holders_of m n) then hold_all run chosen' m
      else let '(added, m') := hold_all run chosen' (add_holder run n m) in (n :: added, m')
  end.

(** What a call that returned holds, and what its release func gives back;
    [r_noop]: the release func does nothing. *)
Record reservation := MkReservation { r_run : string; r_names : list string; r_added : list string; r_keys : list string; r_noop : bool }.

Definition reserve_pass (m : VolumeManager) (run : string) (known : list string) : option (reservation * VolumeManager) :=
  match head (filter (λ n, run ∈ holders_of m n) known) with
  | Some n => Some (MkReservation run [n] [] [] true, m)
  | None =>
      match head (filter (λ n, from_option v_mode "" (vols m !! n) = VolumeModeShared ∨ holders_of m n = ∅) known) with
      | Some n => Some (MkReservation run [n] [n] [] false, add_holder run n m)
      | None => None
      end
  end.

Definition ReserveSet_pass (m : VolumeManager) (run : string) (declared : list (list string)) (keys : list string)
    : option (reservation * VolumeManager) * bool :=
  match assignLocked m run declared keys with
  | (Some chosen, _) =>
      let '(added, m') := hold_all run chosen m in
      (Some (MkReservation run chosen added keys false, with_paths (list_to_set keys ∪ paths m') m'), false)
  | (None, abandoned) => (None, abandoned)
  end.

Definition reservePath_pass (m : VolumeManager) (key : string) : option (reservation * VolumeManager) :=
  if bool_decide (key ∈ paths m) then None else Some (MkReservation "" [] [] [key] false, with_paths ({[key]} ∪ paths m) m).

Definition wake (m : VolumeManager) : VolumeManager :=
  MkManager (vols m) (base m) (holders m) (paths m) (N.succ (changed m)) (gated m) (pinned m).

(** The func that [releaser] makes, the first time it is called. *)
Definition release (r : reservation) (m : VolumeManager) : VolumeManager :=
  if r_noop r then m
  else
    let m := foldr (dropHolder (r_run r)) m (r_added r) in
    wake (with_paths (filter (λ p, p ∈ r_keys r → p ∈ pinned m) (paths m)) m).

Definition pinPath (p : string) (m : VolumeManager) : VolumeManager :=
  MkManager (vols m) (base m) (holders m) (paths m) (changed m) (gated m) ({[Clean p]} ∪ pinned m).

Definition SetGated (names : list string) (m : VolumeManager) : VolumeManager :=
  MkManager (vols m) (base m) (holders m) (paths m) (changed m) (list_to_set names) (pinned m).

Definition Busy (m : option VolumeManager) : list string :=
  match m with
  | None => []
  | Some m =>
      sorted_keys (filter (λ h, h.2 ≠ ∅ ∧ ModeOf (Some m) h.1 = VolumeModeExclusive) (holders m)) ++ SortStrings (elements (paths m))
  end.

(** ** The checks before the first pass *)

Definition quotes (l : list string) : text := [Lit "["] ++ tail (concat (map (λ s, [Lit " "; Quo s]) l)) ++ [Lit "]"].

Definition reserve_check (m : option VolumeManager) (run : string) (names : list string) : res (list string) :=
  match m with
  | None => Err ([Lit "reserve volume: this agent declares no volumes (wanted one of "] ++ quotes names ++ [Lit ")"])
  | Some m =>
      _ ← fail_if (run =? "")%string [Lit "reserve volume: run ID is required"];
      let known := filter (λ n, n ∈ dom (vols m)) names in
      _ ← fail_if (bool_decide (known = [])) ([Lit "reserve volume: this agent declares none of "] ++ quotes names);
      Ok known
  end.

Definition path_key (p : string) : res string :=
  _ ← fail_if (negb (IsAbs p)) [Lit "reserve path: "; Quo p; Lit " is not absolute"];
  Ok (Clean p).

Definition ReserveSet_check (m : option VolumeManager) (run : string) (volumeSets : list (list string)) (absPaths : list string)
    : res (list (list string) * list string) :=
  match m with
  | None => Err [Lit "reserve volumes: this agent declares no volumes"]
  | Some m =>
      _ ← fail_if (run =? "")%string [Lit "reserve volumes: run ID is required"];
      declared ← map_res (λ set,
        let d := filter (λ n, n ∈ dom (vols m)) set in
        _ ← fail_if (bool_decide (d = [])) ([Lit "reserve volumes: this agent declares none of "] ++ quotes set);
        Ok d) volumeSets;
      keys ← fold_res (λ keys p, k ← path_key p; Ok (if decide (k ∈ keys) then keys else keys ++ [k])) [] absPaths;
      Ok (declared, keys)
  end.

Definition reservePath_check (m : option VolumeManager) (hostPath : string) : res string :=
  match m with
  | None => Err [Lit "reserve path "; Quo hostPath; Lit ": this agent declares no volumes"]
  | Some _ => path_key hostPath
  end.

(** [reserveRunVolumes]: the request of a claim, and the mounts narrowed to the
    volumes chosen. *)
Definition run_sets (mounts : list VolumeMount) : list (list string) := map vm_Name mounts.
Definition run_paths (mounts : list VolumeMount) (native : bool) : list string :=
  if native then SortStrings (remove_dups (filter (λ p, IsAbs p = true) (map (λ v, Clean (vm_MountPath v)) mounts))) else [].
Definition narrowed (mounts : list VolumeMount) (names : list string) : list VolumeMount :=
  zip_with (λ v n, MkVolumeMount [n] (vm_As v) (vm_MountPath v)) mounts names.

(** ** Calls *)

(** What a call asks for once its check passed. *)
Inductive request :=
| QSet (declared : list (list string)) (keys : list string)
| QOne (known : list string)
| QPath (key : string).

Definition pass (m : VolumeManager) (run : string) (q : request) : option (reservation * VolumeManager) * bool :=
  match q with
  | QSet declared keys => ReserveSet_pass m run declared keys
  | QOne known => (reserve_pass m run known, false)
  | QPath key => (reservePath_pass m key, false)
  end.

Definition checked (m : VolumeManager) (run : string) (q : request) : Prop :=
  match q with
  | QSet declared keys => ∃ sets ps, ReserveSet_check (Some m) run sets ps = Ok (declared, keys)
  | QOne known => ∃ names, reserve_check (Some m) run names = Ok known
  | QPath key => run = "" ∧ ∃ p, reservePath_check (Some m) p = Ok key
  end.

(** A call is about to take the lock, waits for the channel it saw (its pass told
    whether the search was given up), or returned a reservation. *)
Inductive call :=
| Asking (run : string) (q : request)
| Waiting (run : string) (q : request) (on : N) (abandoned : bool)
| Holding (r : reservation).

Record sys := MkSys { s_mgr : VolumeManager; s_calls : gmap nat call }.

Inductive step : sys → sys → Prop :=
| st_call m cs i run q : cs !! i = None → checked m run q → step (MkSys m cs) (MkSys m (<[i := Asking run q]> cs))
| st_got m cs i run q r m' ab :
    cs !! i = Some (Asking run q) → pass m run q = (Some (r, m'), ab) → step (MkSys m cs) (MkSys m' (<[i := Holding r]> cs))
| st_wait m cs i run q ab :
    cs !! i = Some (Asking run q) → pass m run q = (None, ab) → step (MkSys m cs) (MkSys m (<[i := Waiting run q (changed m) ab]> cs))
| st_wake m cs i run q on ab :
    cs !! i = Some (Waiting run q on ab) → on ≠ changed m → step (MkSys m cs) (MkSys m (<[i := Asking run q]> cs))
| st_cancel m cs i run q on ab : cs !! i = Some (Waiting run q on ab) → step (MkSys m cs) (MkSys m (delete i cs))
| st_release m cs i r : cs !! i = Some (Holding r) → step (MkSys m cs) (MkSys (release r m) (delete i cs))
| st_pin m cs i r p : cs !! i = Some (Holding r) → Clean p ∈ r_keys r → step (MkSys m cs) (MkSys (pinPath p m) cs)
| st_gate m cs names : step (MkSys m cs) (MkSys (SetGated names m) cs).

Inductive reachable (vs : gmap string volume) (b : string) : sys → Prop :=
| rc_start : reachable vs b (MkSys (manager_of vs b) ∅)
| rc_step s s' : reachable vs b s → step s s' → reachable vs b s'.
