(* ===== verification/VolumesFacts.v ===== *)
(** * The volume table keeps what the declarations promise

    The invariant of [Volumes.sys] over every interleaving: who holds which volume
    and path, and what a waiting call waits for. *)

From S2P Require Import Prelude GoStrings GoPath DslTypes VolumeChoice Volumes.
From stdpp Require Import options.

Implicit Types (m : VolumeManager) (cs : gmap nat call).

(** ** The holder table *)

Lemma holders_add run n m k : holders_of (add_holder run n m) k = if decide (k = n) then {[run]} ∪ holders_of m n else holders_of m k.
Proof. unfold holders_of, add_holder. cbn. case_decide; simplify_map_eq; done. Qed.

Lemma holders_drop run n m k : holders_of (dropHolder run n m) k = if decide (k = n) then holders_of m n ∖ {[run]} else holders_of m k.
Proof.
  unfold dropHolder. set (left := holders_of m n ∖ {[run]}). unfold holders_of at 1. cbn.
  destruct (decide (left = ∅)) as [E|]; destruct (decide (k = n)) as [->|]; simplify_map_eq; done.
Qed.

(** Nothing else changes. *)
Definition same_but_holders m m' : Prop :=
  vols m' = vols m ∧ paths m' = paths m ∧ changed m' = changed m ∧ pinned m' = pinned m ∧ gated m' = gated m.

Definition no_empty m : Prop := ∀ n, holders m !! n ≠ Some ∅.

Lemma no_empty_drop run n m : no_empty m → no_empty (dropHolder run n m).
Proof.
  intros H k. unfold dropHolder. cbn. case_decide.
  - intros [_ Hk]%lookup_delete_Some. by apply (H k).
  - intros [[_ ?]|[_ Hk]]%lookup_insert_Some; [done|by apply (H k)].
Qed.

Lemma drop_all run l m :
  same_but_holders m (foldr (dropHolder run) m l) ∧ (no_empty m → no_empty (foldr (dropHolder run) m l))
  ∧ ∀ n r', r' ∈ holders_of (foldr (dropHolder run) m l) n ↔ r' ∈ holders_of m n ∧ ¬ (r' = run ∧ n ∈ l).
Proof.
  induction l as [|x l (IH1 & IH2 & IH3)]; cbn [foldr].
  - split; [done|]. split; [done|]. intros n r'. set_solver.
  - split; [done|]. split; [intros; by apply no_empty_drop, IH2|]. intros n r'. rewrite holders_drop. case_decide; subst; [|rewrite IH3; set_solver].
    rewrite elem_of_difference, IH3. set_solver.
Qed.

Lemma hold_all_spec run chosen m added m' :
  hold_all run chosen m = (added, m') →
  same_but_holders m m' ∧ (no_empty m → no_empty m')
  ∧ (∀ n, n ∈ added ↔ n ∈ chosen ∧ (run ∉ holders_of m n))
  ∧ ∀ n r', r' ∈ holders_of m' n ↔ r' ∈ holders_of m n ∨ (r' = run ∧ n ∈ chosen).
Proof.
  revert m added m'. induction chosen as [|x chosen IH]; intros m added m'; cbn [hold_all].
  - intros [= <- <-]. split; [done|]. split; [done|]. split; set_solver.
  - case_bool_decide as Hx.
    + intros (H1 & H2 & H3 & H4)%IH. split; [done|]. split; [done|]. split; intros n; [rewrite H3|intros r'; rewrite H4]; set_solver.
    + destruct (hold_all run chosen (add_holder run x m)) as [added1 m1] eqn:E. intros [= <- <-].
      apply IH in E as (H1 & H2 & H3 & H4). split; [exact H1|]. split.
      { intros Hne. apply H2. intros k. unfold add_holder. cbn. intros [[_ ?]|[_ Hk]]%lookup_insert_Some; [set_solver|by apply (Hne k)]. }
      split; intros n; [|intros r']; rewrite ?elem_of_cons, ?H3, ?H4, holders_add; case_decide; subst; set_solver.
Qed.

(** ** One pass *)

(** What a request may name. *)
Definition known_request (vs : gmap string volume) (q : request) : Prop :=
  match q with
  | QSet declared keys => nonempty declared ∧ ∀ ns n, ns ∈ declared → n ∈ ns → n ∈ dom vs
  | QOne known => known ≠ [] ∧ ∀ n, n ∈ known → n ∈ dom vs
  | QPath _ => True
  end.

Lemma known_sets (vs : gmap string volume) sets d :
  map_res (λ set, let d := filter (λ n, n ∈ dom vs) set in
    _ ← fail_if (bool_decide (d = [])) ([Lit "reserve volumes: this agent declares none of "] ++ quotes set); Ok d) sets = Ok d →
  nonempty d ∧ ∀ ns n, ns ∈ d → n ∈ ns → n ∈ dom vs.
Proof.
  intros HF%map_res_ok. unfold nonempty. induction HF as [|ns d' sets d Hd _ [IH1 IH2]]; [split; [constructor|set_solver]|].
  res_inv. case_bool_decide; [done|]. split; [by constructor|].
  intros ns' n [->|Hin]%elem_of_cons Hn; [by apply list_elem_of_filter in Hn as [? _]|by eapply IH2].
Qed.

Lemma checked_known m run q : checked m run q → known_request (vols m) q.
Proof.
  destruct q as [declared keys|known|key]; cbn [checked known_request]; [intros (sets & ps & H)|intros (names & H)|done].
  - unfold ReserveSet_check in H. apply then_ok in H as [_ H]. apply bind_ok in H as (d & Hd & H). apply bind_ok in H as (k & _ & H).
    injection H as -> ->. by eapply known_sets.
  - unfold reserve_check in H. apply then_ok in H as [_ H]. apply then_ok in H as [Hk H]. injection H as <-. split.
    + apply fail_if_ok in Hk. by case_bool_decide.
    + intros n Hn. by apply list_elem_of_filter in Hn as [? _].
Qed.

(** What a successful pass changes. *)
Record gain m (run : string) (r : reservation) m' : Prop := {
  g_run : r_run r = run;
  g_vols : vols m' = vols m;
  g_changed : changed m' = changed m;
  g_pinned : pinned m' = pinned m;
  g_no_empty : no_empty m → no_empty m';
  g_holders : ∀ n run', run' ∈ holders_of m' n ↔ run' ∈ holders_of m n ∨ (run' = run ∧ n ∈ r_added r);
  g_added : ∀ n, n ∈ r_added r → (run ∉ holders_of m n) ∧ free m run n = true ∧ n ∈ dom (vols m);
  g_names : ∀ n, n ∈ r_names r → n ∈ r_added r ∨ run ∈ holders_of m n;
  g_paths : ∀ p, p ∈ paths m' ↔ p ∈ paths m ∨ p ∈ r_keys r;
  g_keys : ∀ p, p ∈ r_keys r → p ∉ paths m;
  g_noop : r_noop r = true → r_added r = [] ∧ r_keys r = []
}.

Lemma free_spec m run n :
  free m run n = true ↔ run ∈ holders_of m n ∨ from_option v_mode "" (vols m !! n) = VolumeModeShared ∨ holders_of m n = ∅.
Proof. unfold free. rewrite !orb_true_iff, !bool_decide_eq_true, String.eqb_eq. tauto. Qed.

Lemma set_gain m run declared keys r m' ab :
  known_request (vols m) (QSet declared keys) → ReserveSet_pass m run declared keys = (Some (r, m'), ab) → gain m run r m'.
Proof.
  intros [Hne Hdom]. unfold ReserveSet_pass, assignLocked. destruct (existsb _ keys) eqn:Ek; [done|].
  destruct (avoiding_spec declared (free m run) (λ n, bool_decide (n ∈ gated m)) Hne) as [Hadm _].
  destruct (ChooseVolumesAvoiding _ _ _) as [[chosen|] ab'] eqn:E; [|done]. specialize (Hadm chosen ab' eq_refl).
  apply admissible_free in Hadm; [|done].
  assert (∀ n, n ∈ chosen → free m run n = true ∧ n ∈ dom (vols m)) as Hc.
  { intros n [i Hi]%list_elem_of_lookup. destruct (Forall2_lookup_r _ _ _ _ _ Hadm Hi) as (ns & Hns & Hin & Hf). split; [done|].
    eapply Hdom; [by eapply list_elem_of_lookup_2|done]. }
  destruct (hold_all run chosen m) as [added m1] eqn:Eh. apply hold_all_spec in Eh as ((Hv & Hp & Hch & Hpin & _) & Hne1 & Hadd & Hhold).
  intros [= <- <- _]. constructor; cbn; try done.
  - intros n run'. change (holders_of (with_paths _ m1) n) with (holders_of m1 n). rewrite Hhold, Hadd. destruct (decide (run' = run)) as [->|]; [|naive_solver].
    destruct (decide (run ∈ holders_of m n)); naive_solver.
  - intros n [Hn Hr]%Hadd. split; [done|]. by apply Hc.
  - intros n Hn. destruct (decide (run ∈ holders_of m n)); [by right|left]. by apply Hadd.
  - intros p. rewrite Hp. set_solver.
  - intros p Hk Hin. apply (existsb_false_elem _ _) with (x := p) in Ek; [|done]. by rewrite bool_decide_eq_false in Ek.
Qed.

Lemma one_gain m run known r m' :
  known_request (vols m) (QOne known) → reserve_pass m run known = Some (r, m') → gain m run r m'.
Proof.
  intros [_ Hdom]. unfold reserve_pass. destruct (head (filter (λ n, run ∈ holders_of m n) known)) as [n|] eqn:E1.
  { intros [= <- <-]. apply head_Some_elem_of, list_elem_of_filter in E1 as [Hn _].
    constructor; cbn; try done; set_solver. }
  destruct (head (filter (λ n, _ ∨ _) known)) as [n|] eqn:E2; [|discriminate]. intros [= <- <-]. apply head_Some_elem_of, list_elem_of_filter in E2 as [Hn Hin].
  assert (run ∉ holders_of m n) as Hno.
  { intros Hh. apply head_None in E1. assert (n ∈ filter (λ n, run ∈ holders_of m n) known) as H by (by apply list_elem_of_filter).
    rewrite E1 in H. by apply elem_of_nil in H. }
  constructor; cbn; try done.
  - intros Hne k. unfold add_holder. cbn. intros [[_ ?]|[_ Hk]]%lookup_insert_Some; [set_solver|by apply (Hne k)].
  - intros k run'. rewrite holders_add. case_decide; set_solver.
  - intros k ->%list_elem_of_singleton. split; [done|]. split; [apply free_spec; tauto|by apply Hdom].
  - set_solver.
  - set_solver.
  - set_solver.
Qed.

Lemma pass_gain m run q r m' ab :
  checked m run q → pass m run q = (Some (r, m'), ab) → gain m run r m'.
Proof.
  intros Hc. pose proof (checked_known _ _ _ Hc) as Hk. destruct q as [declared keys|known|key]; cbn [pass].
  - by apply set_gain.
  - intros [= Hp _]. by eapply one_gain.
  - destruct Hc as [-> _]. unfold reservePath_pass. case_bool_decide; [done|]. intros [= <- <- _]. constructor; cbn; try done; set_solver.
Qed.

(** ** A request that cannot be served *)

Definition stuck m (run : string) (q : request) : Prop :=
  match q with
  | QSet declared keys => (∃ k, k ∈ keys ∧ k ∈ paths m) ∨ ∀ a, ¬ admissible declared (free m run) a
  | QOne known => ∀ n, n ∈ known → free m run n = false
  | QPath key => key ∈ paths m
  end.

Lemma pass_none m run q ab : known_request (vols m) q → pass m run q = (None, ab) → ab = true ∨ stuck m run q.
Proof.
  intros Hk. destruct q as [declared keys|known|key]; cbn [pass stuck].
  - destruct Hk as [Hne _]. unfold ReserveSet_pass, assignLocked. destruct (existsb _ keys) eqn:Ek.
    + intros _. right. left. apply existsb_elem in Ek as (k & Hin & Hp). exists k. by case_bool_decide.
    + destruct (avoiding_spec declared (free m run) (λ n, bool_decide (n ∈ gated m)) Hne) as [_ Hno].
      destruct (ChooseVolumesAvoiding _ _ _) as [[chosen|] ab'] eqn:E; [by destruct (hold_all run chosen m)|]. intros [= <-].
      destruct ab'; [by left|]. right. right. by apply Hno.
  - intros [= H _]. right. intros n Hn. apply not_true_iff_false. rewrite free_spec. intros Hf. unfold reserve_pass in H.
    destruct (head (filter (λ n, run ∈ holders_of m n) known)) eqn:E1; [done|]. destruct (head _) eqn:E2 in H; [done|].
    apply head_None in E1, E2. destruct Hf as [Hf|Hf].
    + eapply (not_elem_of_nil n). rewrite <- E1. by apply list_elem_of_filter.
    + eapply (not_elem_of_nil n). rewrite <- E2. by apply list_elem_of_filter.
  - intros [= H _]. right. unfold reservePath_pass in H. by case_bool_decide.
Qed.

Lemma stuck_none m run q : known_request (vols m) q → stuck m run q → (pass m run q).1 = None.
Proof.
  intros Hk. destruct q as [declared keys|known|key]; cbn [pass stuck].
  - destruct Hk as [Hne _]. unfold ReserveSet_pass, assignLocked. intros [(k & Hin & Hp)|Hno].
    + replace (existsb _ keys) with true; [done|]. symmetry. apply existsb_elem. exists k. by rewrite bool_decide_true.
    + destruct (existsb _ keys); [done|].
      destruct (avoiding_spec declared (free m run) (λ n, bool_decide (n ∈ gated m)) Hne) as [Hsome _].
      destruct (ChooseVolumesAvoiding _ _ _) as [[chosen|] ab']; [|done]. by destruct (Hno chosen), (Hsome chosen ab').
  - intros Hall. cbn. unfold reserve_pass. assert (∀ n, n ∈ known → ¬ (run ∈ holders_of m n ∨ from_option v_mode "" (vols m !! n) = VolumeModeShared ∨ holders_of m n = ∅)) as H.
    { intros n Hn Hf%free_spec. by rewrite (Hall n Hn) in Hf. }
    rewrite !filter_none; [done|..]; intros n Hn Hf; apply (H n Hn); tauto.
  - intros Hp. cbn. unfold reservePath_pass. by rewrite bool_decide_true.
Qed.

(** It stays so while volumes and paths are only taken. *)
Lemma stuck_mono m m' run q :
  (∀ n, free m' run n = true → free m run n = true) → (∀ p, p ∈ paths m → p ∈ paths m') → stuck m run q → stuck m' run q.
Proof.
  intros Hf Hp. destruct q as [declared keys|known|key]; cbn [stuck].
  - intros [(k & Hk & Hin)|Hno]; [left; exists k; auto|right]. intros a Ha. apply (Hno a). eapply admissible_mono; [|done]. auto.
  - intros Hall n Hn. apply not_true_iff_false. intros H%Hf. by rewrite (Hall n Hn) in H.
  - apply Hp.
Qed.

Lemma gain_free m run r m' other n : gain m run r m' → free m' other n = true → free m other n = true.
Proof.
  intros G. rewrite !free_spec, (g_vols _ _ _ _ G). intros [H|[H|H]]; [|tauto|].
  - apply (g_holders _ _ _ _ G) in H as [H|[-> H]]; [tauto|]. apply (g_added _ _ _ _ G) in H as (_ & H & _). by apply free_spec in H.
  - right. right. apply set_eq. intros x. split; [|set_solver]. intros Hx.
    assert (x ∈ holders_of m' n) as Hx' by (apply (g_holders _ _ _ _ G); tauto). set_solver.
Qed.

(** ** The invariant *)

Definition holding cs (i : nat) (r : reservation) : Prop := cs !! i = Some (Holding r).

Record inv (vs : gmap string volume) (s : sys) : Prop := {
  i_vols : vols (s_mgr s) = vs;
  i_no_empty : no_empty (s_mgr s);
  i_holders : ∀ n run, run ∈ holders_of (s_mgr s) n ↔ ∃ i r, holding (s_calls s) i r ∧ r_run r = run ∧ n ∈ r_added r;
  i_once : ∀ i j r r' n, holding (s_calls s) i r → holding (s_calls s) j r' → r_run r = r_run r' → n ∈ r_added r → n ∈ r_added r' → i = j;
  i_excl : ∀ n run run', from_option v_mode "" (vs !! n) ≠ VolumeModeShared → run ∈ holders_of (s_mgr s) n → run' ∈ holders_of (s_mgr s) n → run = run';
  i_dom : ∀ i r n, holding (s_calls s) i r → n ∈ r_added r → n ∈ dom vs;
  i_paths : ∀ p, p ∈ paths (s_mgr s) ↔ p ∈ pinned (s_mgr s) ∨ ∃ i r, holding (s_calls s) i r ∧ p ∈ r_keys r;
  i_keys : ∀ i j r r' p, holding (s_calls s) i r → holding (s_calls s) j r' → p ∈ r_keys r → p ∈ r_keys r' → i = j;
  i_noop : ∀ i r, holding (s_calls s) i r → r_noop r = true → r_added r = [] ∧ r_keys r = [];
  i_asking : ∀ i run q, s_calls s !! i = Some (Asking run q) → checked (s_mgr s) run q;
  i_waiting : ∀ i run q on ab, s_calls s !! i = Some (Waiting run q on ab) →
    checked (s_mgr s) run q ∧ (on ≤ changed (s_mgr s))%N ∧ (on = changed (s_mgr s) → ab = true ∨ stuck (s_mgr s) run q)
}.

(** The checks read the declarations alone. *)
Lemma checked_vols m m' run q : vols m' = vols m → checked m run q → checked m' run q.
Proof. intros Hv. destruct q; cbn [checked]; unfold ReserveSet_check, reserve_check; rewrite ?Hv; done. Qed.

(** Replacing a call that holds nothing by another leaves the reservations. *)
Lemma holding_same cs i c j r :
  (∀ r', cs !! i ≠ Some (Holding r')) → (∀ r', c ≠ Holding r') → holding (<[i := c]> cs) j r ↔ holding cs j r.
Proof.
  intros Hi Hc. unfold holding. destruct (decide (i = j)) as [->|]; simplify_map_eq; [|done]. split; [intros [= ->]; by destruct (Hc r)|intros H; by destruct (Hi r)].
Qed.

Lemma holding_new cs i r j r' :
  (∀ x, cs !! i ≠ Some (Holding x)) → holding (<[i := Holding r]> cs) j r' ↔ (j = i ∧ r' = r) ∨ holding cs j r'.
Proof.
  intros Hi. unfold holding. destruct (decide (i = j)) as [->|]; simplify_map_eq; [|naive_solver].
  split; [intros [= ->]; by left|]. intros [[_ ->]|H]; [done|by destruct (Hi r')].
Qed.

Lemma holding_gone cs i j r : holding (delete i cs) j r ↔ j ≠ i ∧ holding cs j r.
Proof. unfold holding. rewrite lookup_delete_Some. naive_solver. Qed.

(** A step that leaves the table and the reservations as they are. *)
Lemma inv_frame vs m cs m' cs' :
  inv vs (MkSys m cs) →
  vols m' = vols m → holders m' = holders m → paths m' = paths m → pinned m' = pinned m →
  (∀ i r, holding cs' i r ↔ holding cs i r) →
  (∀ i run q, cs' !! i = Some (Asking run q) → checked m' run q) →
  (∀ i run q on ab, cs' !! i = Some (Waiting run q on ab) → checked m' run q ∧ (on ≤ changed m')%N ∧ (on = changed m' → ab = true ∨ stuck m' run q)) →
  inv vs (MkSys m' cs').
Proof.
  intros [] Hv Hh Hp Hpin Hcs Ha Hw. cbn in *. constructor; cbn; [congruence|..|done|done].
  - intros n. rewrite Hh. apply i_no_empty0.
  - intros n run. unfold holders_of. rewrite Hh. setoid_rewrite Hcs. apply i_holders0.
  - intros i j r r' n. rewrite !Hcs. eauto.
  - intros n run run'. unfold holders_of. rewrite Hh. eauto.
  - intros i r n. rewrite Hcs. eauto.
  - intros p. rewrite Hp, Hpin. setoid_rewrite Hcs. apply i_paths0.
  - intros i j r r' p. rewrite !Hcs. eauto.
  - intros i r. rewrite Hcs. eauto.
Qed.

Lemma inv_got vs m cs i run q r m' ab :
  inv vs (MkSys m cs) → cs !! i = Some (Asking run q) → pass m run q = (Some (r, m'), ab) → inv vs (MkSys m' (<[i := Holding r]> cs)).
Proof.
  intros I Hi Hpass. pose proof (pass_gain _ _ _ _ _ _ (i_asking _ _ I _ _ _ Hi) Hpass) as G. destruct I; cbn in *.
  assert (∀ x, cs !! i ≠ Some (Holding x)) as Hnot by (intros x; by rewrite Hi).
  pose proof (λ j r', holding_new cs i r j r' Hnot) as Hnew.
  assert (∀ n, n ∈ r_added r → ∀ j r', holding cs j r' → r_run r' = run → n ∉ r_added r') as Hfresh.
  { intros n Hn j r' Hj Hrun Hn'. apply (g_added _ _ _ _ G) in Hn as [Hno _]. apply Hno, i_holders0. eauto. }
  assert (∀ p, p ∈ r_keys r → ∀ j r', holding cs j r' → p ∉ r_keys r') as Hfreshp.
  { intros p Hp j r' Hj Hp'. apply (g_keys _ _ _ _ G _ Hp), i_paths0. eauto. }
  constructor; cbn.
  - rewrite (g_vols _ _ _ _ G). done.
  - by apply (g_no_empty _ _ _ _ G).
  - intros n run'. rewrite (g_holders _ _ _ _ G), i_holders0. setoid_rewrite Hnew. split.
    + intros [(j & r' & ? & ? & ?)|[-> Hn]]; [eauto 10|]. exists i, r. split; [by left|]. split; [apply (g_run _ _ _ _ G)|done].
    + intros (j & r' & [[-> ->]|Hj] & <- & Hn); [right; split; [apply (g_run _ _ _ _ G)|done]|eauto 10].
  - intros j k r1 r2 n [[-> ->]|Hj]%Hnew [[-> ->]|Hk]%Hnew Hrun Hn1 Hn2; [done| | |by eapply i_once0].
    + rewrite (g_run _ _ _ _ G) in Hrun. by destruct (Hfresh n Hn1 k r2).
    + rewrite (g_run _ _ _ _ G) in Hrun. by destruct (Hfresh n Hn2 j r1).
  - intros n run1 run2 Hmode. rewrite !(g_holders _ _ _ _ G).
    assert (n ∈ r_added r → holders_of m n = ∅) as Hempty.
    { intros (Hno & Hf & _)%(g_added _ _ _ _ G). apply free_spec in Hf as [?|[Hf|?]]; [done| |done]. rewrite i_vols0 in Hf. done. }
    intros [H1|[-> Hn1]] [H2|[-> Hn2]]; [by eapply i_excl0| | |done]; exfalso; set_solver.
  - intros j r' n [[-> ->]|Hj]%Hnew Hn; [|by eapply i_dom0]. apply (g_added _ _ _ _ G) in Hn as (_ & _ & Hn). by rewrite i_vols0 in Hn.
  - intros p. rewrite (g_paths _ _ _ _ G), (g_pinned _ _ _ _ G), i_paths0. setoid_rewrite Hnew. split.
    + intros [[?|(j & r' & ? & ?)]|Hp]; [tauto|eauto 10|]. right. exists i, r. auto.
    + intros [?|(j & r' & [[-> ->]|Hj] & ?)]; [tauto|tauto|]. left. right. eauto.
  - intros j k r1 r2 p [[-> ->]|Hj]%Hnew [[-> ->]|Hk]%Hnew Hp1 Hp2; [done| | |by eapply i_keys0].
    + by destruct (Hfreshp p Hp1 k r2).
    + by destruct (Hfreshp p Hp2 j r1).
  - intros j r' [[-> ->]|Hj]%Hnew Hno; [by apply (g_noop _ _ _ _ G)|by eapply i_noop0].
  - intros j run' q' [[_ ?]|[_ Hj]]%lookup_insert_Some; [done|]. eapply checked_vols; [apply (g_vols _ _ _ _ G)|by eapply i_asking0].
  - intros j run' q' on ab' [[_ ?]|[_ Hj]]%lookup_insert_Some; [done|]. apply i_waiting0 in Hj as (Hc & Hon & Hst). rewrite (g_changed _ _ _ _ G).
    split; [eapply checked_vols; [apply (g_vols _ _ _ _ G)|done]|]. split; [done|]. intros Heq. destruct (Hst Heq) as [|Hs]; [by left|right].
    eapply stuck_mono; [..|exact Hs]; [intros n; by apply (gain_free _ _ _ _ _ _ G)|]. intros p Hp. apply (g_paths _ _ _ _ G). by left.
Qed.

Lemma inv_release vs m cs i r : inv vs (MkSys m cs) → holding cs i r → inv vs (MkSys (release r m) (delete i cs)).
Proof.
  intros I Hi. destruct (r_noop r) eqn:Eno.
  { destruct I; cbn in *. destruct (i_noop0 i r Hi Eno) as [Hadd Hkeys]. unfold release. rewrite Eno.
    pose proof (λ j r', holding_gone cs i j r') as Hg.
    assert (∀ j r' x, holding cs j r' → x ∈ r_added r' ∨ x ∈ r_keys r' → j ≠ i) as Hother.
    { intros j r' x Hj Hx ->. unfold holding in *. rewrite Hj in Hi. injection Hi as ->. rewrite Hadd, Hkeys in Hx. set_solver. }
    constructor; cbn; try done.
    - intros n run. rewrite i_holders0. setoid_rewrite Hg. naive_solver.
    - intros j k r1 r2 n. rewrite !Hg. naive_solver.
    - intros j r' n. rewrite Hg. naive_solver.
    - intros p. rewrite i_paths0. setoid_rewrite Hg. naive_solver.
    - intros j k r1 r2 p. rewrite !Hg. naive_solver.
    - intros j r'. rewrite Hg. naive_solver.
    - intros j run q [_ Hj]%lookup_delete_Some. by eapply i_asking0.
    - intros j run q on ab [_ Hj]%lookup_delete_Some. by eapply i_waiting0. }
  destruct I; cbn in *. unfold release. rewrite Eno. cbn zeta.
  destruct (drop_all (r_run r) (r_added r) m) as ((Hv & Hp & Hch & Hpin & _) & Hne & Hh).
  set (m1 := foldr (dropHolder (r_run r)) m (r_added r)) in *. pose proof (λ j r', holding_gone cs i j r') as Hg.
  assert (∀ n run, run ∈ holders_of (wake (with_paths (filter (λ p, p ∈ r_keys r → p ∈ pinned m1) (paths m1)) m1)) n
    ↔ ∃ j r', holding (delete i cs) j r' ∧ r_run r' = run ∧ n ∈ r_added r') as Hholders.
  { intros n run. change (holders_of (wake _) n) with (holders_of m1 n). rewrite Hh, i_holders0. setoid_rewrite Hg. split.
    - intros [(j & r' & Hj & <- & Hn) Hnot]. exists j, r'. split; [split; [|done]|done]. intros ->. apply Hnot. unfold holding in *. rewrite Hj in Hi. by injection Hi as ->.
    - intros (j & r' & [Hji Hj] & <- & Hn). split; [by exists j, r'|]. intros [Hrun Hn']. apply Hji. by eapply i_once0. }
  constructor; cbn.
  - by rewrite Hv.
  - apply Hne. done.
  - exact Hholders.
  - intros j k r1 r2 n [_ Hj]%Hg [_ Hk]%Hg. by eapply i_once0.
  - intros n run1 run2 Hmode H1 H2. apply (i_excl0 n run1 run2 Hmode); [apply Hh in H1|apply Hh in H2]; tauto.
  - intros j r' n [_ Hj]%Hg. by eapply i_dom0.
  - intros p. rewrite elem_of_filter, Hp, Hpin, i_paths0. setoid_rewrite Hg. split.
    + intros [Hkeep [?|(j & r' & Hj & Hin)]]; [tauto|]. destruct (decide (j = i)) as [->|]; [|right; by exists j, r'].
      left. apply Hkeep. unfold holding in *. rewrite Hj in Hi. by injection Hi as ->.
    + intros [?|(j & r' & [Hji Hj] & Hin)]; [tauto|]. split; [|eauto]. intros Hin'. destruct Hji. by eapply i_keys0.
  - intros j k r1 r2 p [_ Hj]%Hg [_ Hk]%Hg. by eapply i_keys0.
  - intros j r' [_ Hj]%Hg. by eapply i_noop0.
  - intros j run q [_ Hj]%lookup_delete_Some. eapply checked_vols; [exact Hv|by eapply i_asking0].
  - intros j run q on ab [_ Hj]%lookup_delete_Some. apply i_waiting0 in Hj as (Hc & Hon & _). rewrite Hch.
    split; [by eapply checked_vols|]. split; lia.
Qed.

Lemma inv_reachable vs b s : reachable vs b s → inv vs s.
Proof.
  induction 1 as [|s s' _ I H].
  { constructor; cbn; try done; intros; unfold holding, holders_of in *; cbn in *; set_solver. }
  inversion H as [m cs i run q Hi Hc|m cs i run q r m' ab Hi Hp|m cs i run q ab Hi Hp|m cs i run q on ab Hi Hon|m cs i run q on ab Hi|m cs i r Hi|m cs i r p Hi Hp|m cs names]; subst.
  - eapply inv_frame; [exact I|done..| | |].
    + intros j r. apply holding_same; by rewrite ?Hi.
    + intros j run' q' [[_ [= <- <-]]|[_ Hj]]%lookup_insert_Some; [done|]. by apply (i_asking _ _ I) in Hj.
    + intros j run' q' on ab [[_ ?]|[_ Hj]]%lookup_insert_Some; [done|]. by apply (i_waiting _ _ I) in Hj.
  - by eapply inv_got.
  - pose proof (i_asking _ _ I i run q Hi) as Hc. eapply inv_frame; [exact I|done..| | |].
    + intros j r. apply holding_same; by rewrite ?Hi.
    + intros j run' q' [[_ ?]|[_ Hj]]%lookup_insert_Some; [done|]. by apply (i_asking _ _ I) in Hj.
    + intros j run' q' on ab' [[_ [= <- <- <- <-]]|[_ Hj]]%lookup_insert_Some; [|by apply (i_waiting _ _ I) in Hj].
      split; [done|]. split; [done|]. intros _. eapply pass_none; [by eapply checked_known|done].
  - destruct (i_waiting _ _ I i run q on ab Hi) as (Hc & _). eapply inv_frame; [exact I|done..| | |].
    + intros j r. apply holding_same; by rewrite ?Hi.
    + intros j run' q' [[_ [= <- <-]]|[_ Hj]]%lookup_insert_Some; [done|]. by apply (i_asking _ _ I) in Hj.
    + intros j run' q' on' ab' [[_ ?]|[_ Hj]]%lookup_insert_Some; [done|]. by apply (i_waiting _ _ I) in Hj.
  - eapply inv_frame; [exact I|done..| | |].
    + intros j r. rewrite holding_gone. unfold holding. split; [naive_solver|]. intros Hj. split; [|done]. intros ->. by rewrite Hi in Hj.
    + intros j run' q' [_ Hj]%lookup_delete_Some. by apply (i_asking _ _ I) in Hj.
    + intros j run' q' on' ab' [_ Hj]%lookup_delete_Some. by apply (i_waiting _ _ I) in Hj.
  - by apply inv_release.
  - destruct I; cbn in *. constructor; cbn; try done.
    intros p'. rewrite i_paths0, elem_of_union, elem_of_singleton. split; [tauto|]. intros [[->|?]|?]; [right; eauto|tauto|tauto].
  - eapply inv_frame; [exact I|done..| |]; intros *; apply I.
Qed.

(** ** What holds of every interleaving *)

Definition exclusive (vs : gmap string volume) (n : string) : Prop := from_option v_mode "" (vs !! n) ≠ VolumeModeShared.

Lemma busy_exclusive m x :
  x ∈ Busy (Some m) ↔ (x ∈ paths m ∨ (holders_of m x ≠ ∅ ∧ from_option v_mode "" (vols m !! x) = VolumeModeExclusive)).
Proof.
  unfold Busy. rewrite elem_of_app, elem_of_sorted_keys, elem_of_SortStrings, elem_of_elements. unfold holders_of. split.
  - intros [[S H]|]; [right|by left]. apply map_lookup_filter_Some in H as [Hn [Hne Hm]]. cbn in *. by rewrite Hn.
  - intros [?|[Hne Hm]]; [by right|left]. destruct (holders m !! x) as [S|] eqn:E; [|done]. exists S. by apply map_lookup_filter_Some.
Qed.

Lemma gives_back vs s i r : inv vs s → holding (s_calls s) i r → let m' := release r (s_mgr s) in
  pinned m' = pinned (s_mgr s) ∧ (∀ n, n ∈ r_added r → r_run r ∉ holders_of m' n) ∧ ∀ p, p ∈ r_keys r → p ∉ pinned m' → p ∉ paths m'.
Proof.
  intros I Hi. unfold release. destruct (r_noop r) eqn:Eno; cbn zeta.
  - destruct (i_noop _ _ I i r Hi Eno) as [-> ->]. split; [done|]. split; by intros x ?%elem_of_nil.
  - destruct (drop_all (r_run r) (r_added r) (s_mgr s)) as ((_ & _ & _ & Hpin & _) & _ & Hh). split; [exact Hpin|]. split.
    + intros n Hn. change (holders_of (wake _) n) with (holders_of (foldr (dropHolder (r_run r)) (s_mgr s) (r_added r)) n). rewrite Hh. tauto.
    + intros p Hp Hn. cbn in *. rewrite elem_of_filter. tauto.
Qed.

(** C34: the declarations' promise holds however calls, releases, pins and the disk
    gate interleave.  No two reservations hold one exclusive volume, or one absolute
    path; a path that could not be unlinked is never handed out again; what is held
    is held by a call that returned and has not released, and what is reserved of the
    paths is a key of such a call or could not be unlinked, so nothing leaks: a release
    gives back every volume it took, and every path but those; a run that held nothing
    holds every volume its call named; and a claim reports busy exactly the exclusive
    volumes held, the paths held and those that could not be unlinked. *)
Theorem volumes_exclusive vs b s :
  reachable vs b s →
  (∀ n i j r r', exclusive vs n → holding (s_calls s) i r → holding (s_calls s) j r' → n ∈ r_added r → n ∈ r_added r' → i = j)
  ∧ (∀ p i j r r', holding (s_calls s) i r → holding (s_calls s) j r' → p ∈ r_keys r → p ∈ r_keys r' → i = j)
  ∧ (∀ i run q r m' ab, s_calls s !! i = Some (Asking run q) → pass (s_mgr s) run q = (Some (r, m'), ab) →
       (∀ p, p ∈ r_keys r → p ∉ pinned (s_mgr s))
       ∧ ((∀ j r', holding (s_calls s) j r' → r_run r' ≠ run) → ∀ n, n ∈ r_names r → n ∈ r_added r))
  ∧ (∀ n run, run ∈ holders_of (s_mgr s) n ↔ ∃ i r, holding (s_calls s) i r ∧ r_run r = run ∧ n ∈ r_added r)
  ∧ (∀ p, p ∈ paths (s_mgr s) ↔ p ∈ pinned (s_mgr s) ∨ ∃ i r, holding (s_calls s) i r ∧ p ∈ r_keys r)
  ∧ (∀ i r, holding (s_calls s) i r → let m' := release r (s_mgr s) in
       pinned m' = pinned (s_mgr s) ∧ (∀ n, n ∈ r_added r → r_run r ∉ holders_of m' n) ∧ ∀ p, p ∈ r_keys r → p ∉ pinned m' → p ∉ paths m')
  ∧ (∀ x, x ∈ Busy (Some (s_mgr s)) ↔ (x ∈ pinned (s_mgr s) ∨ ∃ i r, holding (s_calls s) i r ∧ x ∈ r_keys r)
       ∨ (∃ i r, holding (s_calls s) i r ∧ x ∈ r_added r) ∧ from_option v_mode "" (vs !! x) = VolumeModeExclusive).
Proof.
  intros Hr. pose proof (inv_reachable _ _ _ Hr) as I. split_and!.
  - intros n i j r r' Hex Hi Hj Hn Hn'. assert (∀ k x, holding (s_calls s) k x → n ∈ r_added x → r_run x ∈ holders_of (s_mgr s) n) as Hh.
    { intros k x Hk Hx. apply (i_holders _ _ I). eauto. }
    pose proof (i_excl _ _ I n _ _ Hex (Hh i r Hi Hn) (Hh j r' Hj Hn')). by eapply (i_once _ _ I).
  - intros p i j r r'. apply (i_keys _ _ I).
  - intros i run q r m' ab Hi Hp. pose proof (pass_gain _ _ _ _ _ _ (i_asking _ _ I _ _ _ Hi) Hp) as G. split.
    + intros p Hp' Hpin. apply (g_keys _ _ _ _ G p Hp'), (i_paths _ _ I). by left.
    + intros Hnone n Hn. apply (g_names _ _ _ _ G) in Hn as [|Hh]; [done|]. apply (i_holders _ _ I) in Hh as (j & r' & Hj & Hrun & _). by destruct (Hnone j r').
  - apply (i_holders _ _ I).
  - apply (i_paths _ _ I).
  - intros i r Hi. exact (gives_back _ _ _ _ I Hi).
  - intros x. rewrite busy_exclusive, (i_vols _ _ I), (i_paths _ _ I). assert (holders_of (s_mgr s) x ≠ ∅ ↔ ∃ i r, holding (s_calls s) i r ∧ x ∈ r_added r) as Hh; [|tauto].
    split.
    + intros (run & (i & r & ? & _ & ?)%(i_holders _ _ I))%set_choose_L. eauto.
    + intros (i & r & Hi & Hn) He. assert (r_run r ∈ holders_of (s_mgr s) x) as H; [|set_solver]. apply (i_holders _ _ I). eauto.
Qed.

(** The exclusive volumes and the paths a request may have to wait for. *)
Definition wants_volume (q : request) (n : string) : Prop :=
  match q with QSet declared _ => ∃ ns, ns ∈ declared ∧ n ∈ ns | QOne known => n ∈ known | QPath _ => False end.
Definition wants_path (q : request) (p : string) : Prop :=
  match q with QSet _ keys => p ∈ keys | QOne _ => False | QPath key => p = key end.

Lemma stuck_because m run q :
  known_request (vols m) q → stuck m run q →
  (∃ n, wants_volume q n ∧ free m run n = false) ∨ (∃ p, wants_path q p ∧ p ∈ paths m).
Proof.
  destruct q as [declared keys|known|key]; cbn.
  - intros [Hne _] [(k & ? & ?)|Hno]; [right; eauto|left]. apply waits_for_some in Hno as (ns & n & ? & ? & ?); eauto.
  - intros [Hne _] Hall. destruct known as [|n known]; [done|]. left. exists n. split; [left|apply Hall; left].
  - intros _ ?. right. eauto.
Qed.

(** C35: no waiter is stranded and there is no deadlock.  A call that waits on the
    present channel really cannot be served (unless its search was given up, which
    was reported), however volumes were taken, paths pinned and volumes gated since
    it looked; what it waits for is an exclusive volume held by another run whose
    call has returned, or a path held by such a call or pinned; so with nothing
    held and its paths not pinned, every waiting call has a release to wake it. *)
Theorem waits_for_a_holder vs b s i run q on :
  reachable vs b s → s_calls s !! i = Some (Waiting run q on false) → on = changed (s_mgr s) →
  (pass (s_mgr s) run q).1 = None
  ∧ ((∃ n j r, wants_volume q n ∧ exclusive vs n ∧ holding (s_calls s) j r ∧ n ∈ r_added r ∧ r_run r ≠ run)
     ∨ (∃ p, wants_path q p ∧ ((∃ j r, holding (s_calls s) j r ∧ p ∈ r_keys r) ∨ p ∈ pinned (s_mgr s)))).
Proof.
  intros Hr Hi Hon. pose proof (inv_reachable _ _ _ Hr) as I. destruct (i_waiting _ _ I _ _ _ _ _ Hi) as (Hc%checked_known & _ & Hst).
  destruct (Hst Hon) as [|Hs]; [done|]. split; [by apply stuck_none|].
  destruct (stuck_because _ _ _ Hc Hs) as [(n & Hn & Hf)|(p & Hp & Hin)]; [left|right].
  - apply not_true_iff_false in Hf. rewrite free_spec, (i_vols _ _ I) in Hf.
    assert (holders_of (s_mgr s) n ≠ ∅) as (other & Ho)%set_choose_L by tauto. pose proof Ho as (j & r & Hj & Hrun & Ha)%(i_holders _ _ I).
    exists n, j, r. split_and!; [done|unfold exclusive; tauto|done..|]. intros Heq. apply Hf. left. congruence.
  - exists p. split; [done|]. apply (i_paths _ _ I) in Hin. tauto.
Qed.

(** ** A host with one exclusive volume *)

Module Contention.
Definition vs : gmap string volume := {[ "checkout" := MkVolume "exclusive" "/data/checkout" 0; "cache" := MkVolume "shared" "/data/cache" 0 ]}.
Definition q : request := QSet [["checkout"]; ["cache"]] ["/mnt/lib"].
Definition m0 : VolumeManager := manager_of vs "/work".
Definition got : option (reservation * VolumeManager) := (pass m0 "r1" q).1.
Definition r1 : reservation := MkReservation "r1" ["checkout"; "cache"] ["checkout"; "cache"] ["/mnt/lib"] false.
Definition m1 : VolumeManager := default m0 (snd <$> got).
Definition s : sys := MkSys m1 (<[1 := Waiting "r2" q (changed m1) false]> (<[1 := Asking "r2" q]> (<[0 := Holding r1]> (<[0 := Asking "r1" q]> ∅)))).

(** The second run waits for the first. *)
Lemma s_reachable : reachable vs "/work" s.
Proof.
  assert (∀ m run, vols m = vs → run ≠ "" → checked m run q) as Hc.
  { intros m run Hv Hrun. exists [["checkout"]; ["cache"]], ["/mnt/lib/"]. unfold ReserveSet_check. rewrite Hv.
    destruct (String.eqb_spec run ""); [done|]. by vm_compute. }
  assert (pass m0 "r1" q = (Some (r1, m1), false)) as H0 by (by vm_compute).
  assert (pass m1 "r2" q = (None, false)) as H1 by (by vm_compute).
  unfold s. eapply rc_step; [|apply st_wait; [apply lookup_insert_eq|exact H1]].
  eapply rc_step; [|apply st_call; [done|by apply Hc]].
  eapply rc_step; [|apply (st_got m0 _ 0 "r1" q r1 m1 false); [apply lookup_insert_eq|exact H0]].
  eapply rc_step; [apply rc_start|]. apply st_call; [done|by apply Hc].
Qed.

Lemma volumes_exclusive_witness :
  (∀ i j r r', holding (s_calls s) i r → holding (s_calls s) j r' → "checkout" ∈ r_added r → "checkout" ∈ r_added r' → i = j)
  ∧ "checkout" ∈ Busy (Some (s_mgr s)) ∧ Busy (Some (s_mgr s)) = ["checkout"; "/mnt/lib"].
Proof.
  destruct (volumes_exclusive vs "/work" s s_reachable) as (H & _ & _ & _ & _ & _ & Hb). split_and!.
  - intros i j r r'. apply H. by vm_compute.
  - apply Hb. right. split; [|by vm_compute]. exists 0, r1. split; [by vm_compute|left].
  - by vm_compute.
Defined.

Lemma waits_for_a_holder_witness :
  (pass (s_mgr s) "r2" q).1 = None
  ∧ ∃ j r, holding (s_calls s) j r ∧ r_run r = "r1".
Proof.
  destruct (waits_for_a_holder vs "/work" s 1 "r2" q (changed m1) s_reachable) as [H _]; [apply lookup_insert_eq|done|]. split; [exact H|].
  exists 0, r1. split; by vm_compute.
Defined.
End Contention.
