(* ===== verification/VolumePlaces.v ===== *)
(** * internal/agent: where a volume may live, and what the agent removes

    [NewVolumeManager] of [volumes.go], the workspaces of [workspace.go] and the
    sweep of [workspace_gc.go].  The workspace directory is absolute and clean, what
    [filepath.Abs] gives; a relative one names the same directories. *)

From S2P Require Import Prelude GoStrings GoPath DslTypes RunText VolumeChoice Volumes.
From stdpp Require Import options.

(** ** [filepath] *)

Fixpoint path_Join (l : list string) : string :=
  match l with
  | [] => ""
  | e :: l' => if (e =? "")%string then path_Join l' else Clean (Join "/" l)
  end.

Fixpoint strip_common (bs ts : list string) : list string * list string :=
  match bs, ts with
  | b :: bs', t :: ts' => if (b =? t)%string then strip_common bs' ts' else (bs, ts)
  | _, _ => (bs, ts)
  end.

(** [filepath.Rel] *)
Definition Rel (basepath targpath : string) : option string :=
  if (Clean basepath =? Clean targpath)%string then Some "."
  else if negb (eqb (IsAbs basepath) (IsAbs targpath)) then None
  else
    let '(bs, ts) := strip_common (segments basepath) (segments targpath) in
    match bs with
    | ".." :: _ => None
    | _ => Some (Join "/" (replicate (length bs) ".." ++ ts))
    end.

Definition pathWithin (parent child : string) : bool :=
  match Rel parent child with
  | None => false
  | Some rel => negb (rel =? "..")%string && negb (HasPrefix rel "../")
  end.

(** ** [NewVolumeManager] *)

Record VolumeConfig := MkVolumeConfig { vc_Name : string; vc_Mode : string; vc_Path : string; vc_Size : string }.

Definition validateVolumeConfigName (name : string) : res unit :=
  if (name =? "")%string then Err [Lit "a volume in the agent config has no name"]
  else if (name =? ".")%string || (name =? "..")%string then Err [Lit "volume name "; Quo name; Lit " is not a valid directory name"]
  else if ContainsAny name "/\" then Err [Lit "volume name "; Quo name; Lit " must not contain a path separator"]
  else Ok tt.

Definition checkOutOfGCReach (base p : string) : res unit :=
  if pathWithin p base then
    Err [Lit ("path " +:+ p +:+ " is, or contains, the workspace directory " +:+ base +:+ ", so the workspace GC could delete the volume's data")]
  else if negb (pathWithin base p) then Ok tt
  else
    match Rel base p with
    | None => Ok tt
    | Some rel =>
        let first := default "" (head (Split "/" rel)) in
        if HasPrefix (ToLower first) "working" then
          Err [Lit ("path " +:+ p +:+ " is under " +:+ path_Join [base; first] +:+ ", which the workspace GC sweeps (it removes aged directories below "
               +:+ base +:+ "/working*); choose a path outside any working* directory")]
        else if EqualFold first "detached" || HasPrefix first "." then
          Err [Lit ("path " +:+ p +:+ " is under " +:+ path_Join [base; first]
               +:+ ", which the agent manages itself (per-run detached workspaces are deleted after the run; dot-prefixed entries hold agent tooling); choose another path")]
        else Ok tt
    end.

(** The operating system: [MkdirAll]'s error, and [EvalSymlinks]. *)
Record host := MkHost { ho_MkdirAll : string → option text; ho_EvalSymlinks : string → option string }.

Section config.
(** [resource.ParseQuantity], then [Value]. *)
Variable ParseQuantity : string → option Z.

Definition add_volume (absBase : string) (vs : gmap string volume) (c : VolumeConfig) : res (gmap string volume) :=
  _ ← validateVolumeConfigName (vc_Name c);
  _ ← fail_if (bool_decide (is_Some (vs !! vc_Name c))) [Lit "duplicate volume name "; Quo (vc_Name c); Lit " in the agent config"];
  _ ← fail_if (negb ((vc_Mode c =? VolumeModeExclusive)%string || (vc_Mode c =? VolumeModeShared)%string))
        [Lit "volume "; Quo (vc_Name c); Lit ": mode must be "; Quo VolumeModeExclusive; Lit " or "; Quo VolumeModeShared; Lit ", got "; Quo (vc_Mode c)];
  size ← (if (vc_Size c =? "")%string then Ok 0%Z
          else match ParseQuantity (vc_Size c) with
               | Some q => if (q <=? 0)%Z then Err [Lit "volume "; Quo (vc_Name c); Lit ": size "; Quo (vc_Size c); Lit " is not a positive quantity such as 200Gi"] else Ok q
               | None => Err [Lit "volume "; Quo (vc_Name c); Lit ": size "; Quo (vc_Size c); Lit " is not a positive quantity such as 200Gi"]
               end);
  p ← (if (vc_Path c =? "")%string then Ok (path_Join [absBase; "volumes"; vc_Name c])
       else if negb (IsAbs (vc_Path c)) then Err [Lit "volume "; Quo (vc_Name c); Lit ": path "; Quo (vc_Path c); Lit " must be absolute"]
       else Ok (Clean (vc_Path c)));
  _ ← wrap [Lit "volume "; Quo (vc_Name c); Lit ": "] (checkOutOfGCReach absBase p);
  _ ← each (λ _ ov, fail_if (pathWithin (v_path ov.2) p || pathWithin p (v_path ov.2))
        [Lit "volume "; Quo (vc_Name c); Lit (": path " +:+ p +:+ " overlaps volume "); Quo ov.1;
         Lit (" at " +:+ v_path ov.2 +:+ "; two volumes must not share data")]) (map_to_list vs);
  Ok (<[vc_Name c := MkVolume (vc_Mode c) p size]> vs).

Definition make_place (h : host) (absBase name : string) (v : volume) : res unit :=
  _ ← match ho_MkdirAll h (v_path v) with
      | Some err => Err ([Lit "volume "; Quo name; Lit (": create " +:+ v_path v +:+ ": ")] ++ err)
      | None => Ok tt
      end;
  match ho_EvalSymlinks h (v_path v), ho_EvalSymlinks h absBase with
  | Some rp, Some rb => wrap [Lit "volume "; Quo name; Lit (": " +:+ v_path v +:+ " resolves to " +:+ rp +:+ ": ")] (checkOutOfGCReach rb rp)
  | _, _ => Ok tt
  end.

Definition NewVolumeManager (h : host) (absBase : string) (cfgs : list VolumeConfig) : res VolumeManager :=
  vs ← fold_res (add_volume absBase) ∅ cfgs;
  let m := manager_of vs absBase in
  _ ← each (λ _ name, match vs !! name with None => Ok tt | Some v => make_place h absBase name v end) (Names (Some m));
  Ok m.
End config.

(** ** The directories of runs *)

Definition name_rune (r : N) : bool :=
  ((97 <=? r) && (r <=? 122) || (65 <=? r) && (r <=? 90) || (48 <=? r) && (r <=? 57) || (r =? 46) || (r =? 95) || (r =? 45))%N.

Definition isWindowsReservedName (name : string) : bool :=
  let base := default "" (head (Split "." (ToUpper name))) in
  bool_decide (base ∈ ["CON"; "PRN"; "AUX"; "NUL";
    "COM1"; "COM2"; "COM3"; "COM4"; "COM5"; "COM6"; "COM7"; "COM8"; "COM9";
    "LPT1"; "LPT2"; "LPT3"; "LPT4"; "LPT5"; "LPT6"; "LPT7"; "LPT8"; "LPT9"]).

Definition sanitizeJobName (name : string) : string :=
  let out := concat_str (map (λ r, String (if name_rune r then ascii_of_N r else "-"%char) "") (runes name)) in
  if (out =? "")%string then "job"
  else if (Trim "." out =? "")%string then "job"
  else if isWindowsReservedName out then "job_" +:+ out
  else out.

Definition claimWorkDir (wsBase : string) (slot : N) (jobName : string) : string :=
  path_Join [wsBase; "working" +:+ pretty slot; sanitizeJobName jobName].
Definition detachedWorkDir (wsBase runID : string) : string := path_Join [wsBase; "detached"; sanitizeJobName runID].

(** ** The sweeps *)

Record entry := MkEntry { e_name : string; e_dir : bool; e_mtime : option Z }.

(** The file system as a sweep meets it, [Lstat] included (is it a directory, and
    its time), and whether [wipeDir] succeeds. *)
Record tree := MkTree {
  tr_Glob : string → option (list string);
  tr_Lstat : string → option (bool * Z);
  tr_ReadDir : string → option (list entry);
  tr_wipeDir : string → bool
}.

(** [filepath.Base] of a clean path with segments. *)
Definition last_segment (p : string) : string := default "/" (last (segments p)).

Definition gc_due (active : gset string) (retention now : Z) (jobDir : string) (e : entry) : bool :=
  e_dir e && negb (HasPrefix (e_name e) ".") && negb (bool_decide (jobDir ∈ active))
  && match e_mtime e with None => false | Some t => negb (now - t <=? retention)%Z end.

(** The directories [wipeDir] is called on, whether or not it succeeds. *)
Definition gc_slot (d : tree) (active : gset string) (retention now : Z) (slotDir : string) : list string :=
  match tr_Lstat d slotDir with
  | None => []
  | Some (isDir, _) =>
      if negb isDir || HasPrefix (last_segment slotDir) "." then []
      else match tr_ReadDir d slotDir with
           | None => []
           | Some es => map (λ e, path_Join [slotDir; e_name e]) (filter (λ e, gc_due active retention now (path_Join [slotDir; e_name e]) e = true) es)
           end
  end.

Definition gc_wiped (d : tree) (wsBase : string) (retention : Z) (active : gset string) (now : Z) : list string :=
  match tr_Glob d (path_Join [wsBase; "working*"]) with
  | None => []
  | Some slotDirs => flat_map (gc_slot d active retention now) slotDirs
  end.

Definition gcWorkspaces (d : tree) (wsBase : string) (retention : Z) (active : gset string) (now : Z) : res (list string) :=
  match tr_Glob d (path_Join [wsBase; "working*"]) with
  | None => Err [Lit ("glob workspace slot dirs under " +:+ wsBase +:+ ": syntax error in pattern")]
  | Some _ => Ok (filter (λ p, tr_wipeDir d p = true) (gc_wiped d wsBase retention active now))
  end.

Definition probeDirPrefix : string := ".ucd-probe-".
Definition rootCopyPrefix : string := ".ucd-root-copy-".
Definition stagingMinAge : Z := 3600000000000.

Definition staging_wiped (d : tree) (wsBase : string) (now : Z) : list string :=
  flat_map (λ prefix,
    match tr_Glob d (path_Join [wsBase; prefix +:+ "*"]) with
    | None => []
    | Some dirs => filter (λ p, match tr_Lstat d p with Some (true, t) => negb (now - t <? stagingMinAge)%Z | _ => false end = true) dirs
    end) [probeDirPrefix; rootCopyPrefix].

Definition reapStagingDirs (d : tree) (wsBase : string) (now : Z) : list string :=
  filter (λ p, tr_wipeDir d p = true) (staging_wiped d wsBase now).

(** ** The workspace of a run *)

Record volumeWorkspace := MkVolumeWorkspace { vw_Name : string; vw_ModeMarker : string }.
Definition volumeModesDir : string := ".ucd-volume-modes".
Definition volumeModeMarker (wsBase name : string) : string := path_Join [wsBase; volumeModesDir; name].

(** What [prepareWorkspace] and [finishWorkspace] do to the disk. *)
Inductive effect :=
| Wipe (dir : string) (contentsOnly : bool)
| Private (dir : string)
| Mkdir (dir : string)
| Chmod777 (dir : string)
| WriteMarker (p mode : string).

(** [path.Dir] of a clean path: all but the last segment. *)
Definition parent_dir (p : string) : string := unsegs (IsAbs p) (take (pred (length (segments p))) (segments p)).

(** The steps are tried in order until one fails; writing the marker never fails
    the run. *)
Fixpoint try_effects (fails : effect → option text) (l : list (effect * text)) : list effect * res unit :=
  match l with
  | [] => ([], Ok tt)
  | (e, pre) :: l' =>
      match fails e with
      | Some err => ([e], Err (pre ++ err))
      | None => let '(done_, r) := try_effects fails l' in (e :: done_, r)
      end
  end.

Definition withArticle (mode : string) : string :=
  match first_byte mode with
  | Some c => if has_byte c "aeiou" then "an " +:+ mode else "a " +:+ mode
  | None => "a " +:+ mode
  end.

Definition prepareWorkspace (fails : effect → option text) (marker : option string) (workDir mode : string) (vol : option volumeWorkspace)
    (clean : bool) : list effect * res unit :=
  match vol with
  | None =>
      try_effects fails
        ([(Wipe workDir false, [Lit ("clean workspace " +:+ workDir +:+ ": ")]);
          (Private (parent_dir workDir), [Lit ("create workspace parent " +:+ parent_dir workDir +:+ ": ")]);
          (Mkdir workDir, [Lit ("create workspace " +:+ workDir +:+ ": ")])]
         ++ if (mode =? "isolated")%string then [(Chmod777 workDir, [Lit ("make workspace " +:+ workDir +:+ " world-writable: ")])] else [])
  | Some v =>
      let prev := default "" marker in
      if negb (prev =? "")%string && negb (prev =? mode)%string && negb clean then
        ([], Err [Lit "volume "; Quo (vw_Name v);
          Lit (" was last used by " +:+ withArticle prev +:+ " run and this run is " +:+ mode
               +:+ ": the agent will not reset a volume itself, because that would delete its contents. To keep the data, run the job as " +:+ prev
               +:+ " again. To wipe the volume once and continue as " +:+ mode
               +:+ ", set spec.cleanWorkspace: true on the job. The agent records the mode in " +:+ vw_ModeMarker v
               +:+ "; deleting that file also lets the run proceed without wiping")])
      else
        let '(done_, r) := try_effects fails
          ((if clean then [(Wipe workDir true, [Lit "clean volume "; Quo (vw_Name v); Lit ": "])] else [])
           ++ [(Mkdir workDir, [Lit ("create workspace " +:+ workDir +:+ ": ")])]) in
        match r with
        | Err e => (done_, Err e)
        | Ok _ =>
            (done_ ++ Mkdir (parent_dir (vw_ModeMarker v))
               :: (match fails (Mkdir (parent_dir (vw_ModeMarker v))) with Some _ => [] | None => [WriteMarker (vw_ModeMarker v) mode] end), Ok tt)
        end
  end.

Definition finishWorkspace (workDir : string) (vol : option volumeWorkspace) : list effect :=
  match vol with Some _ => [] | None => [Wipe workDir false] end.
