(* ===== verification/VolumePlacesFacts.v ===== *)
(** * What the agent removes is never a volume *)

From S2P Require Import Prelude GoStrings GoPath DslTypes RunText VolumeChoice Volumes VolumePlaces.
From stdpp Require Import options.

(** ** Joining and comparing clean absolute paths *)

(** A directory: clean and absolute, the root included. *)
Definition place (p : string) : Prop := IsAbs p = true ∧ Clean p = p.

Lemma place_form p : place p → ∃ out, p = unsegs true out ∧ clean_form true out ∧ segments p = out ∧ Forall proper_seg out.
Proof.
  intros [Ha Hc]. destruct (Clean_shape p) as (out & Ho & Hf). rewrite Ha in Ho, Hf. rewrite Hc in Ho. exists out.
  split; [done|]. split; [done|]. split; [rewrite Ho; by apply segments_unsegs|].
  destruct Hf as (k & downs & -> & Hd & Hk). rewrite (Hk eq_refl). exact Hd.
Qed.

Lemma place_segments_inj a b : place a → place b → segments a = segments b → a = b.
Proof. intros [Ha1 Ha2] [Hb1 Hb2]. apply clean_segments_inj; congruence. Qed.

Lemma place_Clean p : IsAbs p = true → place (Clean p).
Proof. intros H. split; [by rewrite Clean_IsAbs|apply Clean_idemp]. Qed.

Lemma clean_fold_proper rooted names out :
  Forall proper_seg names → foldl (clean_step rooted) out names = reverse names ++ out.
Proof.
  intros H. revert out. induction H as [|n names (H1 & H2 & H3 & _) _ IH]; intros out; [done|]. cbn [foldl].
  unfold clean_step at 2. apply String.eqb_neq in H1, H2, H3. rewrite H1, H2, H3. cbn [orb]. rewrite IH, reverse_cons, <-(assoc (++)). done.
Qed.

Lemma Split_Join_app p names : Forall proper_seg names → Split "/" (Join "/" (p :: names)) = Split "/" p ++ names.
Proof.
  intros H. revert p. induction H as [|n names (H1 & _ & _ & H4) H IH]; intros p; [by rewrite app_nil_r|].
  rewrite Join_cons by done. change (p +:+ "/" +:+ Join "/" (n :: names)) with (p +:+ String "/" (Join "/" (n :: names))).
  rewrite Split_app_sep, IH. f_equal. by rewrite Split_no_sep.
Qed.

(** Joining names below a directory appends them. *)
Lemma segments_Join p names :
  place p → Forall proper_seg names → place (path_Join (p :: names)) ∧ segments (path_Join (p :: names)) = segments p ++ names.
Proof.
  intros Hp Hn. pose proof Hp as [Ha Hc]. assert (p ≠ "") as Hne by (by intros ->).
  cbn [path_Join]. apply String.eqb_neq in Hne as ->.
  assert (IsAbs (Join "/" (p :: names)) = true) as Hj.
  { destruct names as [|n names]; [done|]. rewrite Join_cons by done. unfold IsAbs in *. apply HasPrefix_spec in Ha as [r ->].
    apply HasPrefix_spec. eexists. by rewrite <-str_app_assoc. }
  split; [by apply place_Clean|].
  destruct (Clean_shape (Join "/" (p :: names))) as (out & Ho & Hf). rewrite Hj in Ho, Hf. rewrite Ho, segments_unsegs by done.
  assert (out = clean_segs true (Join "/" (p :: names))) as ->.
  { rewrite <-(segments_unsegs true out Hf), <-Ho. unfold segments. rewrite Clean_IsAbs, Hj.
    unfold Clean. destruct (String.eqb_spec (Join "/" (p :: names)) "") as [E|]; [by rewrite E in Hj|]. rewrite Hj.
    by rewrite clean_segs_unsegs by (apply clean_segs_form). }
  unfold segments. rewrite Ha. unfold clean_segs. rewrite Split_Join_app by done.
  rewrite foldl_app, clean_fold_proper by done. by rewrite reverse_app, reverse_involutive.
Qed.

Lemma strip_common_spec bs ts :
  let '(b, t) := strip_common bs ts in
  ∃ k, bs = k ++ b ∧ ts = k ++ t ∧ match b, t with x :: _, y :: _ => x ≠ y | _, _ => True end.
Proof.
  revert ts. induction bs as [|x bs IH]; intros [|y ts]; cbn [strip_common]; try (by exists []).
  destruct (String.eqb_spec x y) as [->|]; [|by exists []]. specialize (IH ts). destruct (strip_common bs ts) as [b t].
  destruct IH as (k & -> & -> & H). by exists (y :: k).
Qed.

Lemma dotdot_first ws : Join "/" (".." :: ws) = ".." ∨ HasPrefix (Join "/" (".." :: ws)) "../" = true.
Proof. destruct ws as [|w ws]; [by left|right]. rewrite Join_cons by done. apply HasPrefix_spec. by eexists. Qed.

Lemma proper_not_up w ws : proper_seg w → Forall proper_seg ws → Join "/" (w :: ws) ≠ ".." ∧ HasPrefix (Join "/" (w :: ws)) "../" = false.
Proof.
  intros Hw Hws. assert (Split "/" (Join "/" (w :: ws)) = w :: ws) as HS.
  { apply Split_Join; [done|]. constructor; [apply Hw|]. eapply Forall_impl; [exact Hws|]. by intros ? (? & ? & ? & ?). }
  destruct Hw as (_ & _ & Hw & _). split.
  - intros E. rewrite E in HS. by injection HS.
  - apply not_true_iff_false. intros [r Hr]%HasPrefix_spec. rewrite Hr in HS.
    change ("../" +:+ r) with (".." +:+ String "/" r) in HS. rewrite Split_app_sep in HS. by injection HS.
Qed.

Lemma pathWithin_spec p c : place p → place c → pathWithin p c = true ↔ segments p `prefix_of` segments c.
Proof.
  intros Hp Hc. pose proof Hp as [Hpa Hpc]. pose proof Hc as [Hca Hcc]. unfold pathWithin, Rel. rewrite Hpc, Hcc, Hpa, Hca. cbn [eqb negb].
  destruct (place_form p Hp) as (op & _ & _ & Sp & Fp). destruct (place_form c Hc) as (oc & _ & _ & Sc & Fc).
  destruct (String.eqb_spec p c) as [->|Hne]; [done|].
  pose proof (strip_common_spec (segments p) (segments c)) as H. destruct (strip_common (segments p) (segments c)) as [b t] eqn:E.
  destruct H as (k & Hb & Ht & Hd). rewrite Sp in *. rewrite Sc in *. destruct b as [|x b].
  - cbn [replicate app length]. destruct t as [|y t].
    { exfalso. apply Hne, place_segments_inj; [done..|]. rewrite Sp, Sc, Hb, Ht. done. }
    rewrite Ht in Fc. apply Forall_app in Fc as [_ Fc]. apply Forall_cons in Fc as [Hy Fc].
    destruct (proper_not_up y t Hy Fc) as [H1 H2]. apply String.eqb_neq in H1. change (replicate 0 ".." ++ y :: t) with (y :: t). rewrite H1, H2.
    split; [|done]. intros _. rewrite Hb, Ht, app_nil_r. by apply prefix_app_r.
  - rewrite Hb in Fp. apply Forall_app in Fp as [_ Fp]. apply Forall_cons in Fp as [(_ & _ & Hx & _) _].
    assert (¬ op `prefix_of` oc) as Hno.
    { rewrite Hb, Ht. intros Hpre%prefix_app_inv. destruct t as [|y t]; [by apply prefix_nil_not in Hpre|]. by apply prefix_cons_inv_1 in Hpre. }
    assert (match x :: b with ".." :: _ => None | _ => Some (Join "/" (replicate (length (x :: b)) ".." ++ t)) end
            = Some (Join "/" (".." :: replicate (length b) ".." ++ t))) as ->.
    { clear -Hx. by repeat case_match; simplify_eq. }
    destruct (dotdot_first (replicate (length b) ".." ++ t)) as [H|H]; rewrite H; [|rewrite andb_false_r]; done.
Qed.

Lemma strip_common_app l r : strip_common l (l ++ r) = ([], r).
Proof. induction l as [|x l IH]; [by destruct r|]. cbn. by rewrite String.eqb_refl. Qed.

Lemma Rel_below base p y ys : place base → place p → segments p = segments base ++ y :: ys → Rel base p = Some (Join "/" (y :: ys)).
Proof.
  intros [Hba Hbc] [Hpa Hpc] Hs. unfold Rel. rewrite Hbc, Hpc, Hba, Hpa, Hs, strip_common_app. cbn [eqb negb].
  destruct (String.eqb_spec base p) as [->|]; [|done]. exfalso. revert Hs. clear. intros Hs%(f_equal length). rewrite length_app in Hs. cbn in Hs. lia.
Qed.

Lemma head_Split_Join y ys : Forall proper_seg (y :: ys) → head (Split "/" (Join "/" (y :: ys))) = Some y.
Proof. intros H. rewrite Split_Join; [done|done|]. eapply Forall_impl; [exact H|]. by intros ? (? & ? & ? & ?). Qed.

(** ** The agent's own directories *)

(** How the first part below the workspace directory is spelled for what the agent
    removes. *)
Definition agent_name (x : string) : Prop := HasPrefix x "working" = true ∨ x = "detached" ∨ HasPrefix x "." = true.

Lemma ToLower_working x : HasPrefix x "working" = true → HasPrefix (ToLower x) "working" = true.
Proof. intros [y ->]%HasPrefix_spec. apply HasPrefix_spec. exists (ToLower y). unfold ToLower, segs. cbn. by rewrite ?str_app_nil_l. Qed.

(** A place that passed [checkOutOfGCReach] lies apart from all of them. *)
Lemma reach_disjoint base p t x r :
  place base → place p → checkOutOfGCReach base p = Ok tt → segments t = segments base ++ x :: r → agent_name x → disjoint_dirs t p.
Proof.
  intros Hb Hp Hok Ht Hx. unfold checkOutOfGCReach in Hok.
  destruct (pathWithin p base) eqn:E1; [done|]. apply not_true_iff_false in E1. rewrite pathWithin_spec in E1 by done.
  assert (∀ ys, segments p ≠ segments base ++ x :: ys) as Hno.
  { intros ys Hs. assert (pathWithin base p = true) as E2 by (apply pathWithin_spec; [done..|]; rewrite Hs; by apply prefix_app_r).
    rewrite E2, (Rel_below _ _ _ _ Hb Hp Hs) in Hok. cbn [negb] in Hok.
    destruct (place_form p Hp) as (op & _ & _ & Sp & Fp). rewrite <-Sp, Hs in Fp. apply Forall_app in Fp as [_ Fp].
    rewrite head_Split_Join in Hok by done. cbn [default from_option] in Hok. unfold id in Hok. destruct Hx as [Hx|[->|Hx]].
    - apply ToLower_working in Hx. by rewrite Hx in Hok.
    - by vm_compute in Hok.
    - rewrite Hx, orb_true_r in Hok. by destruct (HasPrefix (ToLower x) "working"). }
  split; rewrite Ht.
  - intros [k Hk]. rewrite <-(assoc (++)) in Hk. by apply (Hno (r ++ k)).
  - intros Hpre. destruct (decide (length (segments p) ≤ length (segments base))) as [Hlen|Hlen].
    + apply E1. destruct Hpre as [k Hk]. exists (drop (length (segments p)) (segments base)).
      rewrite <-(take_drop (length (segments p)) (segments base)) at 1. f_equal.
      apply (f_equal (take (length (segments p)))) in Hk. rewrite take_app_length, take_app_le in Hk by done. done.
    + destruct Hpre as [k Hk]. apply (Hno (drop (S (length (segments base))) (segments p))).
      rewrite <-(take_drop (S (length (segments base))) (segments p)) at 1.
      replace (take (S (length (segments base))) (segments p)) with (segments base ++ [x]); [by rewrite <-(assoc (++))|].
      apply (f_equal (take (S (length (segments base))))) in Hk. rewrite (take_app_le (segments p)) in Hk by lia. rewrite <-Hk.
      rewrite take_app_ge by lia. replace (S (length (segments base)) - length (segments base)) with 1 by lia. done.
Qed.

(** ** Names of workspaces *)

Lemma pretty_go_slash n s : has_byte "/" s = false → has_byte "/" (pretty_N_go n s) = false.
Proof.
  revert s. induction (N.lt_wf_0 n) as [n _ IH]; intros s Hs.
  destruct (decide (0 < n)%N) as [Hn|Hn]; [|by assert (n = 0%N) as -> by lia].
  rewrite pretty_N_go_step by done. apply IH; [by apply N.div_lt|]. cbn [has_byte].
  replace (Ascii.eqb "/" (pretty_N_char (n `mod` 10))) with false; [done|]. unfold pretty_N_char. by repeat case_match.
Qed.

Lemma pretty_slash (n : N) : has_byte "/" (pretty n) = false.
Proof. unfold pretty, pretty_N. case_decide; [done|]. by apply pretty_go_slash. Qed.

Lemma working_proper (slot : N) : proper_seg ("working" +:+ pretty slot).
Proof. split; [done|]. split; [done|]. split; [done|]. rewrite has_byte_app, pretty_slash. done. Qed.

Lemma sanitize_no_slash l :
  has_byte "/" (concat_str (map (λ r, String (if name_rune r then ascii_of_N r else "-"%char) "") l)) = false.
Proof.
  induction l as [|r l IH]; [done|]. cbn [map concat_str foldr]. fold (concat_str (map (λ r, String (if name_rune r then ascii_of_N r else "-"%char) "") l)).
  rewrite has_byte_app, IH. cbn [has_byte]. destruct (name_rune r) eqn:E; [|done].
  destruct (Ascii.eqb_spec "/" (ascii_of_N r)) as [H|]; [|done]. exfalso. apply (f_equal N_of_ascii) in H.
  unfold name_rune in E. rewrite !orb_true_iff, !andb_true_iff, !N.leb_le, !N.eqb_eq in E.
  rewrite N_ascii_embedding in H by lia. change (N_of_ascii "/") with 47%N in H. lia.
Qed.

Lemma sanitizeJobName_proper name : proper_seg (sanitizeJobName name).
Proof.
  unfold sanitizeJobName. set (out := concat_str _). pose proof (sanitize_no_slash (runes name)) as Hs. fold out in Hs. cbv zeta.
  destruct (String.eqb_spec out "") as [|H1]; [done|]. destruct (String.eqb_spec (Trim "." out) "") as [|H2]; [done|].
  destruct (isWindowsReservedName out); [by split; [|split; [|split; [|rewrite has_byte_app, Hs]]]|].
  split; [done|]. split; [intros E; apply H2; by rewrite E|]. split; [intros E; apply H2; by rewrite E|done].
Qed.

(** ** The declared volumes *)

Lemma ContainsAny_slash s chars : has_byte "/" chars = true → ContainsAny s chars = false → has_byte "/" s = false.
Proof.
  intros Hc. induction s as [|c s IH]; [done|]. cbn [has_byte ContainsAny]. intros [H1 H2]%orb_false_iff. rewrite (IH H2), orb_false_r.
  destruct (Ascii.eqb_spec "/" c) as [<-|]; [by rewrite Hc in H1|done].
Qed.

Lemma volume_name_proper name : validateVolumeConfigName name = Ok tt → proper_seg name.
Proof.
  unfold validateVolumeConfigName. destruct (String.eqb_spec name ""); [done|]. destruct (String.eqb_spec name "."); [done|].
  destruct (String.eqb_spec name ".."); [done|]. cbn [orb]. destruct (ContainsAny name "/\") eqn:E; [done|]. intros _.
  split; [done|]. split; [done|]. split; [done|]. by apply (ContainsAny_slash _ "/\").
Qed.

(** What is checked of one volume, and of two. *)
Definition volume_ok (absBase name : string) (v : volume) : Prop :=
  place (v_path v) ∧ (v_mode v = VolumeModeExclusive ∨ v_mode v = VolumeModeShared) ∧ (0 ≤ v_size v)%Z
  ∧ checkOutOfGCReach absBase (v_path v) = Ok tt ∧ proper_seg name.

Definition volumes_ok (absBase : string) (vs : gmap string volume) : Prop :=
  (∀ n v, vs !! n = Some v → volume_ok absBase n v)
  ∧ ∀ n n' v v', n ≠ n' → vs !! n = Some v → vs !! n' = Some v' → disjoint_dirs (v_path v) (v_path v').

Lemma disjoint_dirs_sym a b : disjoint_dirs a b → disjoint_dirs b a.
Proof. intros [? ?]. by split. Qed.

Lemma within_disjoint a b : place a → place b → pathWithin a b || pathWithin b a = false → disjoint_dirs a b.
Proof. intros Ha Hb [H1 H2]%orb_false_iff. split; rewrite <-pathWithin_spec by done; by rewrite ?H1, ?H2. Qed.

Lemma add_volume_ok PQ absBase vs c vs' :
  place absBase → volumes_ok absBase vs → add_volume PQ absBase vs c = Ok vs' → volumes_ok absBase vs'.
Proof.
  intros Hb [Hone Htwo] H. unfold add_volume in H. apply then_ok in H as [Hname H]. apply then_ok in H as [Hdup H]. apply then_ok in H as [Hmode H].
  apply bind_ok in H as (size & Hsize & H). apply bind_ok in H as (p & Hp & H). apply then_ok in H as [Hreach H]. apply then_ok in H as [Hover H].
  injection H as <-. apply volume_name_proper in Hname. apply fail_if_ok in Hmode. apply negb_false_iff, orb_true_iff in Hmode. rewrite !String.eqb_eq in Hmode.
  apply wrap_ok in Hreach.
  assert (place p) as Hplace.
  { destruct (String.eqb_spec (vc_Path c) "").
    - assert (p = path_Join [absBase; "volumes"; vc_Name c]) as -> by congruence.
      apply (segments_Join absBase ["volumes"; vc_Name c]); [done|]. constructor; [by split_and!|by constructor].
    - destruct (IsAbs (vc_Path c)) eqn:Ea; [|done]. injection Hp as <-. by apply place_Clean. }
  assert (0 ≤ size)%Z as Hsz.
  { destruct (String.eqb_spec (vc_Size c) ""); [by injection Hsize as <-|]. destruct (PQ (vc_Size c)) as [q|]; [|done].
    destruct (Z.leb_spec q 0); [done|]. injection Hsize as <-. lia. }
  assert (∀ n v, vs !! n = Some v → disjoint_dirs (v_path v) p) as Hnew.
  { intros n v Hv. apply within_disjoint; [by apply (Hone n)|done|]. apply elem_of_map_to_list, list_elem_of_lookup in Hv as [k Hk].
    rewrite each_ok in Hover. apply Hover in Hk. by apply fail_if_ok in Hk. }
  split.
  - intros n v [[<- <-]|[_ Hv]]%lookup_insert_Some; [|by apply Hone]. split; [done|]. split; [tauto|]. done.
  - intros n n' v v' Hne [[<- <-]|[_ Hv]]%lookup_insert_Some [[<- <-]|[_ Hv']]%lookup_insert_Some; cbn; [done| | |by eapply Htwo].
    + apply disjoint_dirs_sym. by eapply Hnew.
    + by eapply Hnew.
Qed.

Lemma NewVolumeManager_ok PQ h absBase cfgs m :
  place absBase → NewVolumeManager PQ h absBase cfgs = Ok m → base m = absBase ∧ volumes_ok absBase (vols m)
  ∧ ∀ n v rp rb, vols m !! n = Some v → ho_EvalSymlinks h (v_path v) = Some rp → ho_EvalSymlinks h absBase = Some rb → checkOutOfGCReach rb rp = Ok tt.
Proof.
  intros Hb H. unfold NewVolumeManager in H. apply bind_ok in H as (vs & Hvs & H). apply then_ok in H as [Heach H]. injection H as <-. cbn.
  split; [done|]. split.
  - eapply (fold_res_inv (volumes_ok absBase)); [|by split; intros *; rewrite lookup_empty|exact Hvs]. intros s x s' _. by apply add_volume_ok.
  - intros n v rp rb Hv Hrp Hrb. rewrite each_ok in Heach. assert (n ∈ sorted_keys vs) as [k Hk]%list_elem_of_lookup by (apply elem_of_sorted_keys; eauto).
    apply Heach in Hk. rewrite Hv in Hk. unfold make_place in Hk. apply then_ok in Hk as [_ Hk]. rewrite Hrp, Hrb in Hk. by apply wrap_ok in Hk.
Qed.

(** ** The sweeps stay in the agent's own directories *)

(** [filepath.Glob] below the workspace directory, with a pattern that is a name's
    beginning, and [os.ReadDir] give entries, by their names. *)
Definition tree_ok (d : tree) (wsBase : string) : Prop :=
  (∀ prefix l p, tr_Glob d (path_Join [wsBase; prefix +:+ "*"]) = Some l → p ∈ l →
     ∃ name, proper_seg name ∧ HasPrefix name prefix = true ∧ p = path_Join [wsBase; name])
  ∧ ∀ dir es e, tr_ReadDir d dir = Some es → e ∈ es → proper_seg (e_name e).

(** The directories the agent removes or empties without being asked. *)
Inductive removable (d : tree) (wsBase : string) : string → Prop :=
| rm_claim slot job : removable d wsBase (claimWorkDir wsBase slot job)
| rm_detached run : removable d wsBase (detachedWorkDir wsBase run)
| rm_gc retention active now p : p ∈ gc_wiped d wsBase retention active now → removable d wsBase p
| rm_staging now p : p ∈ staging_wiped d wsBase now → removable d wsBase p.

Lemma removable_below d wsBase t :
  place wsBase → tree_ok d wsBase → removable d wsBase t → ∃ x r, segments t = segments wsBase ++ x :: r ∧ agent_name x.
Proof.
  intros Hb [Hglob Hread]. destruct 1 as [slot job|run|retention active now p Hp|now p Hp].
  - exists ("working" +:+ pretty slot), [sanitizeJobName job]. split; [|left; apply HasPrefix_spec; by eexists].
    apply segments_Join; [done|]. constructor; [apply working_proper|]. constructor; [apply sanitizeJobName_proper|done].
  - exists "detached", [sanitizeJobName run]. split; [|right; by left].
    apply (segments_Join wsBase ["detached"; sanitizeJobName run]); [done|]. constructor; [by split_and!|]. constructor; [apply sanitizeJobName_proper|done].
  - unfold gc_wiped in Hp. destruct (tr_Glob d _) as [slots|] eqn:Eg; [|by apply elem_of_nil in Hp].
    apply list_elem_of_In, in_flat_map in Hp as (slot & Hs%list_elem_of_In & Hp%list_elem_of_In).
    destruct (Hglob "working" slots slot Eg Hs) as (x & Hx & Hpre & ->). unfold gc_slot in Hp.
    destruct (tr_Lstat d _) as [[isDir t]|]; [|by apply elem_of_nil in Hp]. destruct (negb isDir || _); [by apply elem_of_nil in Hp|].
    destruct (tr_ReadDir d _) as [es|] eqn:Er; [|by apply elem_of_nil in Hp].
    apply list_elem_of_In, in_map_iff in Hp as (e & <- & [_ He]%list_elem_of_In%list_elem_of_filter).
    destruct (segments_Join wsBase [x] Hb) as [Hpl Hsg]; [by constructor|]. exists x, [e_name e]. split; [|by left].
    destruct (segments_Join (path_Join [wsBase; x]) [e_name e] Hpl) as [_ ->]; [constructor; [by eapply Hread|done]|]. by rewrite Hsg, <-(assoc (++)).
  - unfold staging_wiped in Hp. apply list_elem_of_In, in_flat_map in Hp as (prefix & Hpre & Hp%list_elem_of_In).
    destruct (tr_Glob d _) as [dirs|] eqn:Eg; [|by apply elem_of_nil in Hp]. apply list_elem_of_filter in Hp as [_ Hp].
    destruct (Hglob prefix dirs p Eg Hp) as (x & Hx & Hxp & ->). exists x, []. split; [apply segments_Join; [done|by constructor]|].
    right. right. apply HasPrefix_spec in Hxp as [y ->]. apply HasPrefix_spec.
    destruct Hpre as [<-|[<-|[]]]; [exists ("ucd-probe-" +:+ y)|exists ("ucd-root-copy-" +:+ y)]; done.
Qed.

Lemma pretty_inj (a b : N) : "working" +:+ pretty a = "working" +:+ pretty b → a = b.
Proof. intros H%(inj (String.append "working")). by apply (inj pretty) in H. Qed.

Lemma two_slots wsBase a b job job' : place wsBase → a ≠ b → disjoint_dirs (claimWorkDir wsBase a job) (claimWorkDir wsBase b job').
Proof.
  intros Hb Hab. assert (∀ s j, segments (claimWorkDir wsBase s j) = segments wsBase ++ ["working" +:+ pretty s; sanitizeJobName j]) as Hs.
  { intros s j. apply segments_Join; [done|]. constructor; [apply working_proper|]. constructor; [apply sanitizeJobName_proper|done]. }
  split; rewrite !Hs; intros H%prefix_app_inv; apply prefix_cons_inv_1 in H; apply Hab; by apply pretty_inj.
Qed.

(** C36: A volume survives the agent.  When the configuration is accepted, the declared
    paths of two volumes are never one, nor in one another, and none lies in, or
    contains, anything the agent removes: the workspace of a claim on any slot or of a
    detached run, what the workspace sweep takes, or leftover scratch directories; the
    place a volume's path resolves to, where it can be resolved, lies apart from what
    is removed too.  The workspaces of two slots never share files.  (Two volumes are
    not compared once their links are resolved: [Places.linked_volumes].) *)
Theorem volumes_survive PQ h absBase cfgs m d :
  place absBase → (∀ p r, ho_EvalSymlinks h p = Some r → place r) →
  NewVolumeManager PQ h absBase cfgs = Ok m →
  (∀ n n' v v', n ≠ n' → vols m !! n = Some v → vols m !! n' = Some v' → disjoint_dirs (v_path v) (v_path v'))
  ∧ (∀ n v t, tree_ok d absBase → vols m !! n = Some v → removable d absBase t → disjoint_dirs t (v_path v))
  ∧ (∀ n v rp rb t, vols m !! n = Some v → ho_EvalSymlinks h (v_path v) = Some rp → ho_EvalSymlinks h absBase = Some rb →
       tree_ok d rb → removable d rb t → disjoint_dirs t rp)
  ∧ ∀ a b job job', a ≠ b → disjoint_dirs (claimWorkDir absBase a job) (claimWorkDir absBase b job').
Proof.
  intros Hb Hev Hok. destruct (NewVolumeManager_ok _ _ _ _ _ Hb Hok) as (_ & [Hone Htwo] & Hres). split_and!.
  - exact Htwo.
  - intros n v t Hd Hv (x & r & Ht & Hx)%removable_below; [|done..]. apply Hone in Hv as (Hp & _ & _ & Hr & _). exact (reach_disjoint _ _ _ _ _ Hb Hp Hr Ht Hx).
  - intros n v rp rb t Hv Hrp Hrb Hd (x & r & Ht & Hx)%removable_below; [|by eapply Hev|done].
    exact (reach_disjoint _ _ _ _ _ (Hev _ _ Hrb) (Hev _ _ Hrp) (Hres _ _ _ _ Hv Hrp Hrb) Ht Hx).
  - intros a b job job'. by apply two_slots.
Qed.

(** ** Preparing a workspace *)

Lemma effects_incl fails l e : e ∈ (try_effects fails l).1 → e ∈ l.*1.
Proof.
  induction l as [|[x pre] l IH]; [done|]. cbn [try_effects]. destruct (fails x); [set_solver|].
  destruct (try_effects fails l) as [es r] eqn:E. cbn in *. set_solver.
Qed.

Lemma effects_all fails l : (try_effects fails l).2 = Ok tt → (try_effects fails l).1 = l.*1.
Proof.
  induction l as [|[x pre] l IH]; [done|]. cbn [try_effects]. destruct (fails x); [done|].
  destruct (try_effects fails l) as [es r] eqn:E. cbn in *. intros H. by rewrite IH.
Qed.

(** A volume is wiped only when the job asks for it, and then its directory stays;
    a run in another mode than the last does not start on it. *)
Lemma volume_kept fails marker workDir mode v clean e :
  e ∈ (prepareWorkspace fails marker workDir mode (Some v) clean).1 ++ finishWorkspace workDir (Some v) →
  ∀ dir c, e = Wipe dir c → clean = true ∧ dir = workDir ∧ c = true.
Proof.
  cbn [finishWorkspace]. rewrite app_nil_r. unfold prepareWorkspace. case_match; [set_solver|]. case_match eqn:Ea.
  assert (∀ e, e ∈ l → ∀ dir c, e = Wipe dir c → clean = true ∧ dir = workDir ∧ c = true) as Hl.
  { intros e' He dir c ->. assert (Wipe dir c ∈ (try_effects fails ((if clean then [(Wipe workDir true, [Lit "clean volume "; Quo (vw_Name v); Lit ": "])] else [])
      ++ [(Mkdir workDir, [Lit ("create workspace " +:+ workDir +:+ ": ")])])).1) as H' by (by rewrite Ea). apply effects_incl in H'. destruct clean; set_solver. }
  destruct r; [|apply Hl]. intros [He|[->|He]%elem_of_cons]%elem_of_app; [by apply Hl|done|]. destruct (fails _); set_solver.
Qed.

(** A run that starts in an ordinary workspace starts in an emptied one. *)
Lemma workspace_emptied fails marker workDir mode clean :
  (prepareWorkspace fails marker workDir mode None clean).2 = Ok tt →
  ∃ es, (prepareWorkspace fails marker workDir mode None clean).1 = Wipe workDir false :: es.
Proof. intros H%effects_all. cbn [prepareWorkspace]. rewrite H. by eexists. Qed.

(** ** A host with two volumes *)

Module Places.
Definition h : host := MkHost (λ _, None) (λ p, if IsAbs p then Some (Clean p) else None).
Definition cfgs : list VolumeConfig := [MkVolumeConfig "checkout" "exclusive" "" ""; MkVolumeConfig "cache" "shared" "/data/cache" "200Gi"].
Definition PQ (s : string) : option Z := if (s =? "200Gi")%string then Some 214748364800%Z else None.
Definition d : tree :=
  MkTree (λ p, if (p =? "/work/working*")%string then Some ["/work/working0"] else Some []) (λ _, Some (true, 0%Z))
    (λ p, Some [MkEntry "build" true (Some 0%Z)]) (λ _, true).
Definition m : VolumeManager :=
  manager_of {["checkout" := MkVolume "exclusive" "/work/volumes/checkout" 0; "cache" := MkVolume "shared" "/data/cache" 214748364800]} "/work".

(** Two volumes of which one is a link to the other are accepted. *)
Definition linked : host := MkHost (λ _, None) (λ p, if (p =? "/data/b")%string then Some "/data/a" else ho_EvalSymlinks h p).
Example linked_volumes :
  ho_EvalSymlinks linked "/data/a" = ho_EvalSymlinks linked "/data/b"
  ∧ is_ok (NewVolumeManager PQ linked "/work" [MkVolumeConfig "a" "exclusive" "/data/a" ""; MkVolumeConfig "b" "exclusive" "/data/b" ""]) = true.
Proof. by vm_compute. Qed.

Lemma volumes_survive_witness :
  NewVolumeManager PQ h "/work" cfgs = Ok m
  ∧ disjoint_dirs "/work/volumes/checkout" "/data/cache"
  ∧ is_ok (NewVolumeManager PQ h "/work" [MkVolumeConfig "v" "exclusive" "/work/WORKING7/data" ""]) = false
  ∧ gcWorkspaces d "/work" 10 ∅ 20 = Ok ["/work/working0/build"].
Proof.
  assert (NewVolumeManager PQ h "/work" cfgs = Ok m) as Hm by (by vm_compute).
  assert (place "/work") as Hb by (split; reflexivity).
  assert (∀ p r, ho_EvalSymlinks h p = Some r → place r) as Hev.
  { intros p r H. cbn in H. destruct (IsAbs p) eqn:E; [|done]. injection H as <-. by apply place_Clean. }
  destruct (volumes_survive PQ h "/work" cfgs m d Hb Hev Hm) as (H1 & _). split; [exact Hm|]. split; [|split; by vm_compute].
  refine (H1 "checkout" "cache" (MkVolume "exclusive" "/work/volumes/checkout" 0) (MkVolume "shared" "/data/cache" 214748364800) _ _ _); [discriminate|vm_compute; reflexivity..].
Defined.
End Places.
