(* ===== verification/VolumeMounts.v ===== *)
(** * internal/agent/volumes_mount.go: mounting volumes into a run

    The plan of a run's mounts; the links a native run gets, as programs over the
    file system that may stop at any step; the registry of links and the sweep at
    startup; and where an isolated run sees its volumes.  POSIX, on a file system
    that keeps case. *)

From S2P Require Import Prelude GoStrings GoPath DslTypes DslValidate Programs VolumeChoice Volumes VolumePlaces VolumePlacesFacts.
From stdpp Require Import options.

(** ** [planMounts] *)

Record mountSpec := MkSpec { ms_name : string; ms_alias : string; ms_volPath : string; ms_mp : string; ms_abs : bool; ms_root : bool }.

Definition entryText (i : nat) : text := [Lit ("spec.volumes[" +:+ pretty (N.of_nat i) +:+ "]")].

Definition planMount (m : VolumeManager) (i : nat) (v : VolumeMount) : res mountSpec :=
  match vm_Name v with
  | [name] =>
      let volPath := PathOf (Some m) name in
      let alias := VolumeAlias v in
      let mp := Clean (vm_MountPath v) in
      let s := MkSpec name alias volPath mp (IsAbs mp) (mp =? ".")%string in
      _ ← fail_if (volPath =? "")%string (entryText i ++ [Lit ": this agent does not declare a volume named "; Quo name]);
      _ ← fail_if (alias =? "")%string (entryText i ++ [Lit ": volume "; Quo name; Lit " has no alias"]);
      _ ← fail_if (vm_MountPath v =? "")%string (entryText i ++ [Lit ": mountPath is required"]);
      _ ← fail_if (ms_root s && (ModeOf (Some m) name =? VolumeModeShared)%string)
            (entryText i ++ [Lit ": volume "; Quo name; Lit " is shared and cannot be mounted at the workspace root (mountPath "; Quo (vm_MountPath v);
             Lit "): several runs would work in one checkout with no exclusion. Declare it exclusive in the agent config, or mount it at a subdirectory"]);
      _ ← fail_if (negb (ms_abs s) && ((mp =? "..")%string || HasPrefix mp "../"))
            (entryText i ++ [Lit ": mountPath "; Quo (vm_MountPath v); Lit " escapes the workspace"]);
      Ok s
  | names => Err (entryText i ++ [Lit (" names " +:+ pretty (N.of_nat (length names)) +:+ " candidate volumes; exactly one must be chosen before mounting")])
  end.

Fixpoint planMounts_from (m : VolumeManager) (i : nat) (mounts : list VolumeMount) : res (list mountSpec) :=
  match mounts with
  | [] => Ok []
  | v :: l => s ← planMount m i v; ss ← planMounts_from m (S i) l; Ok (s :: ss)
  end.

Definition planMounts (mounts : list VolumeMount) (m : option VolumeManager) : res (list mountSpec) :=
  match mounts, m with
  | [], _ => Ok []
  | _, None => Err [Lit "this job mounts volumes, but this agent declares none"]
  | _, Some m => planMounts_from m 0 mounts
  end.

Fixpoint workspaceVolumeName (mounts : list VolumeMount) : string :=
  match mounts with
  | [] => ""
  | v :: l =>
      match vm_Name v with
      | [n] => if (Clean (vm_MountPath v) =? ".")%string then n else workspaceVolumeName l
      | _ => workspaceVolumeName l
      end
  end.

Definition workspaceVolumeDir (mounts : list VolumeMount) (m : option VolumeManager) : string :=
  let name := workspaceVolumeName mounts in if (name =? "")%string then "" else PathOf m name.

(** ** The file system *)

Inductive node := NDir | NFile | NLink (dest : string).

(** [registry]: the file of recorded links, absent, or unreadable, or a list;
    [made] are the links that exist because the agent made them. *)
Record disk := MkDisk { nodes : gmap string node; registry : option (option (list string)); made : gset string }.

Inductive prim :=
| PMkdirAll (p : string) | PLstat (p : string) | PReadlink (p : string) | PRemove (p : string) | PSymlink (target link : string)
| PReadRegistry | PWriteRegistry (links : list string).
Inductive answer := AOk | AErr (e : text) | AGone | ANode (n : node) | ADest (d : string) | ALinks (l : list string).

Abbreviation prog := (Programs.prog prim answer).

(** [fails]: a path may be impossible to inspect.  [MkdirAll] makes missing
    directories, some of them when it fails; the registry file is replaced whole,
    and an intact one can be read. *)
Inductive prim_step (fails : bool) (d : disk) : prim → disk → answer → Prop :=
| ps_mkdir p ns a :
    (∀ q, ns !! q = nodes d !! q ∨ (nodes d !! q = None ∧ ns !! q = Some NDir)) → a = AOk ∨ (∃ e, a = AErr e) →
    prim_step fails d (PMkdirAll p) (MkDisk ns (registry d) (made d)) a
| ps_lstat p : prim_step fails d (PLstat p) d (from_option ANode AGone (nodes d !! p))
| ps_lstat_fails p e : fails = true → prim_step fails d (PLstat p) d (AErr e)
| ps_readlink p dest : nodes d !! p = Some (NLink dest) → prim_step fails d (PReadlink p) d (ADest dest)
| ps_readlink_fails p e : fails = true → prim_step fails d (PReadlink p) d (AErr e)
| ps_remove p : is_Some (nodes d !! p) → prim_step fails d (PRemove p) (MkDisk (delete p (nodes d)) (registry d) (made d ∖ {[p]})) AOk
| ps_remove_fails p e : prim_step fails d (PRemove p) d (AErr e)
| ps_symlink target link :
    nodes d !! link = None → prim_step fails d (PSymlink target link) (MkDisk (<[link := NLink target]> (nodes d)) (registry d) ({[link]} ∪ made d)) AOk
| ps_symlink_fails target link e : prim_step fails d (PSymlink target link) d (AErr e)
| ps_read_none : registry d = None → prim_step fails d PReadRegistry d AGone
| ps_read l : registry d = Some (Some l) → prim_step fails d PReadRegistry d (ALinks l)
| ps_read_damaged e : registry d = Some None → prim_step fails d PReadRegistry d (AErr e)
| ps_write l : prim_step fails d (PWriteRegistry l) (MkDisk (nodes d) (match l with [] => None | _ => Some (Some l) end) (made d)) AOk
| ps_write_fails l e : prim_step fails d (PWriteRegistry l) d (AErr e).

(** An execution ends with the program's result, or stops anywhere. *)
Inductive exec (fails : bool) {A} : disk → prog A → disk → option A → Prop :=
| ex_ret d a : exec fails d (Ret a) d (Some a)
| ex_crash d p : exec fails d p d None
| ex_do d c k d1 a d2 r : prim_step fails d c d1 a → exec fails d1 (k a) d2 r → exec fails d (Do c k) d2 r.

(** ** The registry *)

Definition readLinkRegistry : prog (res (list string)) :=
  Do PReadRegistry (λ a, Ret (match a with ALinks l => Ok l | AErr e => Err e | _ => Ok [] end)).

Definition writeLinkRegistry (links : list string) : prog (res unit) :=
  Do (PWriteRegistry links) (λ a, Ret (match a with AErr e => Err e | _ => Ok tt end)).

Definition recordLink (link : string) : prog (res unit) :=
  r ← readLinkRegistry;
  let links := match r with Ok l => l | Err _ => [] end in
  if decide (link ∈ links) then Ret (Ok tt)
  else w ← writeLinkRegistry (links ++ [link]); Ret (wrap [Lit ("record volume link " +:+ link +:+ ": ")] w).

Definition forgetLink (link : string) : prog unit :=
  r ← readLinkRegistry;
  match r with
  | Err _ => Ret tt
  | Ok links => _ ← writeLinkRegistry (filter (λ l, l ≠ link) links); Ret tt
  end.

(** ** Links *)

Definition Dir (p : string) : string := parent_dir (Clean p).

(** What [readOurLink] makes of a link's destination. *)
Definition link_target (p dest : string) : string :=
  let d := TrimPrefix (TrimPrefix dest "\??\") "\\?\" in
  Clean (if IsAbs d then d else path_Join [Dir p; d]).

Definition readOurLink (n : node) (p : string) : prog (option string) :=
  match n with
  | NLink _ => Do (PReadlink p) (λ a, Ret (match a with ADest d => Some (link_target p d) | _ => None end))
  | _ => Ret None
  end.

Definition ownsLinkTarget (m : VolumeManager) (dest : string) : bool :=
  existsb (λ v, pathWithin (v_path v.2) dest) (map_to_list (vols m)).

Definition makeDirLink (target link : string) : prog (res unit) :=
  Do (PSymlink target link) (λ a, Ret (match a with
    | AErr e => Err ([Lit ("create symlink " +:+ link +:+ " -> " +:+ target +:+ ": ")] ++ e) | _ => Ok tt end)).

Definition not_ours (target : string) : text :=
  [Lit (target +:+ " already exists and was not created by this agent as a volume link, so it will not be replaced; remove or rename it, or choose a different mountPath")].

(** The end of [installLink], once nothing is in the way. *)
Definition make_link (target volPath : string) : prog (res unit) :=
  r ← recordLink target;
  match r with
  | Err e => Ret (Err e)
  | Ok _ =>
      l ← makeDirLink volPath target;
      match l with
      | Err e => _ ← forgetLink target; Ret (Err e)
      | Ok _ => Ret (Ok tt)
      end
  end.

Definition installLink (m : VolumeManager) (target volPath : string) : prog (res unit) :=
  Do (PMkdirAll (Dir target)) (λ a,
    match a with
    | AErr e => Ret (Err ([Lit ("create parent of " +:+ target +:+ ": ")] ++ e))
    | _ =>
        Do (PLstat target) (λ a,
          match a with
          | ANode n =>
              dest ← readOurLink n target;
              if from_option (ownsLinkTarget m) false dest then
                Do (PRemove target) (λ a, match a with AErr e => Ret (Err ([Lit ("replace stale link " +:+ target +:+ ": ")] ++ e)) | _ => make_link target volPath end)
              else Ret (Err (not_ours target))
          | AErr e => Ret (Err ([Lit ("inspect " +:+ target +:+ ": ")] ++ e))
          | _ => make_link target volPath
          end)
    end).

Definition removeOurLink (m : VolumeManager) (link : string) : prog (res unit) :=
  Do (PLstat link) (λ a,
    match a with
    | AErr e => Ret (Err ([Lit ("inspect " +:+ link +:+ ": ")] ++ e))
    | ANode n =>
        dest ← readOurLink n link;
        if from_option (ownsLinkTarget m) false dest then
          Do (PRemove link) (λ a, match a with
            | AErr e => Ret (Err ([Lit ("remove volume link " +:+ link +:+ ": ")] ++ e))
            | _ => _ ← forgetLink link; Ret (Ok tt) end)
        else _ ← forgetLink link; Ret (Ok tt)
    | _ => _ ← forgetLink link; Ret (Ok tt)
    end).

(** [sweepStaleVolumeLinks]: the errors of the links that could not be removed. *)
Fixpoint sweep_links (m : VolumeManager) (links : list string) : prog (list text) :=
  match links with
  | [] => Ret []
  | l :: rest =>
      Do (PLstat l) (λ a,
        match a with
        | ANode n =>
            dest ← readOurLink n l;
            if from_option (ownsLinkTarget m) false dest then
              Do (PRemove l) (λ a, match a with
                | AErr e => errs ← sweep_links m rest; Ret (([Lit ("remove stale volume link " +:+ l +:+ ": ")] ++ e) :: errs)
                | _ => _ ← forgetLink l; sweep_links m rest end)
            else _ ← forgetLink l; sweep_links m rest
        | _ => _ ← forgetLink l; sweep_links m rest
        end)
  end.

Definition sweepStaleVolumeLinks (m : VolumeManager) : prog (res (list text)) :=
  r ← readLinkRegistry;
  match r with Err e => Ret (Err e) | Ok links => errs ← sweep_links m links; Ret (Ok errs) end.

(** ** [mountVolumes] *)

Record createdLink := MkCreated { cl_target : string; cl_mp : string; cl_abs : bool }.

(** The run's cleanup, last link first: its errors, and the paths it pins. *)
Fixpoint unmount (m : VolumeManager) (reversed : list createdLink) : prog (list text * list string) :=
  match reversed with
  | [] => Ret ([], [])
  | l :: rest =>
      r ← removeOurLink m (cl_target l);
      q ← unmount m rest;
      Ret (match r with Err e => (e :: q.1, (if cl_abs l then [cl_mp l] else []) ++ q.2) | Ok _ => q end)
  end.
Definition cleanup (m : VolumeManager) (created : list createdLink) : prog (list text * list string) := unmount m (reverse created).

(** [resolvedWS]: what [EvalSymlinks] makes of the workspace, empty if it fails. *)
Definition nativeLinkPath (workDir resolvedWS : string) (s : mountSpec) : res string :=
  if negb (ms_abs s) then Ok (path_Join [workDir; ms_mp s])
  else
    let target := Clean (ms_mp s) in
    if pathWithin workDir target || (negb (resolvedWS =? "")%string && pathWithin resolvedWS target) then
      Err [Lit "absolute mountPath "; Quo (ms_mp s); Lit (" resolves to " +:+ target +:+ ", which is inside the workspace " +:+ workDir +:+ "; use a relative mountPath instead")]
    else Ok target.

(** The aliases' paths and the links made, or an error, and the paths pinned on the
    way out. *)
Fixpoint mount_links (m : VolumeManager) (workDir resolvedWS : string) (specs : list mountSpec) (created : list createdLink) (resolved : gmap string string)
    : prog (res (gmap string string * list createdLink) * list string) :=
  match specs with
  | [] => Ret (Ok (resolved, created), [])
  | s :: rest =>
      if ms_root s then mount_links m workDir resolvedWS rest created (<[ms_alias s := ms_volPath s]> resolved)
      else
        match nativeLinkPath workDir resolvedWS s with
        | Err e => q ← cleanup m created; Ret (Err e, q.2)
        | Ok target =>
            r ← installLink m target (ms_volPath s);
            match r with
            | Err e => q ← cleanup m created; Ret (Err ([Lit "mount volume "; Quo (ms_name s); Lit " at "; Quo (ms_mp s); Lit ": "] ++ e), q.2)
            | Ok _ => mount_links m workDir resolvedWS rest (created ++ [MkCreated target (ms_mp s) (ms_abs s)]) (<[ms_alias s := target]> resolved)
            end
        end
  end.

Fixpoint make_mountpoints (workDir : string) (specs : list mountSpec) : prog (res unit) :=
  match specs with
  | [] => Ret (Ok tt)
  | s :: rest =>
      if ms_root s || ms_abs s then make_mountpoints workDir rest
      else Do (PMkdirAll (path_Join [workDir; ms_mp s])) (λ a, match a with
             | AErr e => Ret (Err ([Lit "create mountpoint for volume "; Quo (ms_name s); Lit ": "] ++ e))
             | _ => make_mountpoints workDir rest end)
  end.

Definition mountVolumes (m : option VolumeManager) (workDir resolvedWS : string) (mounts : list VolumeMount) (native : bool)
    : prog (res (gmap string string * list createdLink) * list string) :=
  match planMounts mounts m, m with
  | Err e, _ => Ret (Err e, [])
  | Ok [], _ | Ok _, None => Ret (Ok (∅, []), [])
  | Ok specs, Some m =>
      if native then mount_links m workDir resolvedWS specs [] ∅
      else r ← make_mountpoints workDir specs; Ret (match r with Err e => Err e | Ok _ => Ok (∅, []) end, [])
  end.

(** ** Isolated runs *)

Record volumeMountRef := MkRef { vr_Volume : string; vr_MountPath : string; vr_Rel : string; vr_HostPath : string }.

Definition relative_mount (containerRoot : string) (s : mountSpec) : option volumeMountRef :=
  if ms_root s then None
  else if ms_abs s then
    let root := TrimSuffix (Clean containerRoot) "/" +:+ "/" in
    if (containerRoot =? "")%string || negb (HasPrefix (ms_mp s) root) then None
    else Some (MkRef (ms_name s) (ms_mp s) (TrimPrefix (ms_mp s) root) (ms_volPath s))
  else Some (MkRef (ms_name s) (ms_mp s) (ms_mp s) (ms_volPath s)).

Definition relativeVolumeMounts (mounts : list VolumeMount) (m : option VolumeManager) (containerRoot : string) : res (list volumeMountRef) :=
  match planMounts mounts m with Err e => Err e | Ok specs => Ok (omap (relative_mount containerRoot) specs) end.

Definition deeper (rel : string) (best : option volumeMountRef) (r : volumeMountRef) : option volumeMountRef :=
  if negb (rel =? vr_Rel r)%string && negb (HasPrefix rel (vr_Rel r +:+ "/")) then best
  else match best with
       | None => Some r
       | Some b => if (String.length (vr_Rel b) <? String.length (vr_Rel r)) then Some r else best
       end.

Definition resolveInVolumeMount (workDir resolved : string) (refs : list volumeMountRef) : string :=
  match refs with
  | [] => resolved
  | _ =>
      match Rel workDir resolved with
      | None => resolved
      | Some rel =>
          let rel := Clean rel in
          match foldl (deeper rel) None refs with
          | None => resolved
          | Some best => path_Join [vr_HostPath best; TrimPrefix (TrimPrefix rel (vr_Rel best)) "/"]
          end
      end
  end.

Record isolated := MkIsolated { is_root : string; is_extra : list (string * string); is_resolved : gmap string string }.

Definition isolated_mount (containerRoot : string) (acc : isolated) (s : mountSpec) : isolated :=
  if ms_root s then MkIsolated (ms_volPath s) (is_extra acc) (<[ms_alias s := containerRoot]> (is_resolved acc))
  else
    let cp := if ms_abs s then ms_mp s else path_Join [containerRoot; ms_mp s] in
    MkIsolated (is_root acc) (is_extra acc ++ [(ms_volPath s, cp)]) (<[ms_alias s := cp]> (is_resolved acc)).

Definition isolatedVolumeMounts (containerRoot : string) (mounts : list VolumeMount) (m : option VolumeManager) : res isolated :=
  specs ← planMounts mounts m;
  Ok (foldl (isolated_mount containerRoot) (MkIsolated "" [] ∅) specs).

(** * What a crash cannot lose, and what the agent never touches

    A small program logic for [VolumeMounts.prog]: [wp] asks for the invariant at
    every point where an execution may stop. *)

(** A link into one of the agent's volumes. *)
Definition ours_node (m : VolumeManager) (p : string) (n : node) : Prop :=
  match n with NLink dest => ownsLinkTarget m (link_target p dest) = true | _ => False end.
Definition ours (m : VolumeManager) (d : disk) (p : string) : Prop := ∃ n, nodes d !! p = Some n ∧ ours_node m p n.
Definition recorded (d : disk) (p : string) : Prop := ∃ l, registry d = Some (Some l) ∧ p ∈ l.

(** The registry can be read and lists every link the agent made, each still a link
    into a volume. *)
Definition intact (m : VolumeManager) (d : disk) : Prop := registry d ≠ Some None ∧ ∀ p, p ∈ made d → recorded d p ∧ ours m d p.
(** Whatever is not such a link stays. *)
Definition untouched (m : VolumeManager) (d d' : disk) : Prop := ∀ p n, nodes d !! p = Some n → ¬ ours_node m p n → nodes d' !! p = Some n.

(** Every volume's directory is a clean absolute path. *)
Definition declared_places (m : VolumeManager) : Prop := ∀ n v, vols m !! n = Some v → place (v_path v).

Section logic.
Context (m : VolumeManager) (d0 : disk).

Definition good (d : disk) : Prop := intact m d ∧ untouched m d0 d.

Fixpoint wp {A} (d : disk) (p : prog A) (Q : A → disk → Prop) : Prop :=
  match p with
  | Ret a => good d ∧ Q a d
  | Do c k => good d ∧ ∀ d1 a, prim_step false d c d1 a → wp d1 (k a) Q
  end.

Lemma wp_good {A} d (p : prog A) Q : wp d p Q → good d.
Proof. destruct p; by intros [? _]. Qed.

Lemma wp_exec {A} d (p : prog A) d' r Q : wp d p Q → exec false d p d' r → good d' ∧ ∀ a, r = Some a → Q a d'.
Proof.
  intros Hw He. revert Hw. induction He as [d a|d p|d c k d1 a d2 r Hs _ IH]; cbn.
  - intros [Hg HQ]. split; [done|]. by intros ? [= <-].
  - intros Hg%wp_good. done.
  - intros [_ Hk]. by apply IH, Hk.
Qed.

Lemma links_bind {A B} d (p : prog A) (f : A → prog B) Q : wp d p (λ a d', wp d' (f a) Q) → wp d (p ≫= f) Q.
Proof. unfold mbind, prog_bind. revert d. induction p as [a|c k IH]; intros d; cbn; [tauto|]. intros [Hg Hk]. split; [done|]. intros d1 a Hs. apply IH. by apply Hk. Qed.

Lemma links_mono {A} d (p : prog A) (Q Q' : A → disk → Prop) : (∀ a d', Q a d' → Q' a d') → wp d p Q → wp d p Q'.
Proof. intros HQ. revert d. induction p as [a|c k IH]; intros d; cbn; [naive_solver|]. intros [Hg Hk]. split; [done|]. intros d1 a Hs. by apply IH, Hk. Qed.

(** ** The registry *)

Definition same_links (d d' : disk) : Prop := nodes d' = nodes d ∧ made d' = made d.

Lemma good_registry d r :
  good d → r ≠ Some None → (∀ p, p ∈ made d → ∃ l, r = Some (Some l) ∧ p ∈ l) → good (MkDisk (nodes d) r (made d)).
Proof. intros [[Hr Hm] Hu] Hne Hall. split; [|done]. split; [done|]. intros p Hp. split; [by apply Hall|]. by apply Hm. Qed.

(** The list read, and what is recorded. *)
Lemma links_read d Q :
  good d → (∀ l, (∀ p, recorded d p ↔ p ∈ l) → Q (Ok l) d) → wp d readLinkRegistry Q.
Proof.
  intros Hg HQ. cbn. split; [done|]. intros d1 a Hs. inversion Hs as [| | | | | | | | |Hr|l Hr|e Hr| |]; subst; cbn.
  - split; [done|]. apply HQ. intros p. unfold recorded. rewrite Hr. split; [by intros (? & ? & ?)|]. by intros ?%elem_of_nil.
  - split; [done|]. apply HQ. intros p. unfold recorded. rewrite Hr. naive_solver.
  - exfalso. by apply (proj1 Hg).
Qed.

Lemma wp_write d links Q :
  good d → (∀ p, p ∈ made d → p ∈ links) →
  (∀ d' r, same_links d d' → (r = Ok tt → ∀ p, recorded d' p ↔ p ∈ links) → good d' → Q r d') → wp d (writeLinkRegistry links) Q.
Proof.
  intros Hg Hall HQ. cbn. split; [done|]. intros d1 a Hs. inversion Hs; subst; cbn.
  - match goal with |- good ?x ∧ _ => assert (good x) as Hg' end.
    { apply good_registry; [done|by destruct links|]. intros p Hp%Hall. destruct links as [|x links]; [by apply elem_of_nil in Hp|]. by eexists. }
    split; [done|]. apply HQ; [done| |done]. intros _ p. unfold recorded. cbn. destruct links as [|x links].
    + split; [by intros (? & ? & ?)|]. by intros ?%elem_of_nil.
    + split; [by intros (? & [= <-] & ?)|]. intros Hp. by eexists.
  - split; [done|]. by apply HQ.
Qed.

Lemma wp_record d link Q :
  good d → (∀ d' r, same_links d d' → (r = Ok tt → recorded d' link) → good d' → Q r d') → wp d (recordLink link) Q.
Proof.
  intros Hg HQ. apply links_bind, links_read; [done|]. intros l Hl. cbv beta iota zeta. case_decide as Hin.
  - split; [done|]. apply HQ; [done| |done]. intros _. by apply Hl.
  - apply links_bind, wp_write; [done| |].
    + intros p Hp. apply elem_of_app. left. apply Hl. by apply (proj2 (proj1 Hg)).
    + intros d' r Hsame Hrec Hg'. split; [done|]. apply HQ; [done| |done]. intros ?%wrap_ok. apply Hrec; [done|]. apply elem_of_app. right. left.
Qed.

Lemma wp_forget d link Q :
  good d → link ∉ made d → (∀ d', same_links d d' → good d' → Q tt d') → wp d (forgetLink link) Q.
Proof.
  intros Hg Hno HQ. apply links_bind, links_read; [done|]. intros l Hl. apply links_bind, wp_write; [done| |].
  - intros p Hp. apply list_elem_of_filter. split; [by intros ->|]. apply Hl. by apply (proj2 (proj1 Hg)).
  - intros d' r Hsame _ Hg'. split; [done|]. by apply HQ.
Qed.

(** ** Links *)

Lemma not_ours_not_made d p n : good d → nodes d !! p = Some n → ¬ ours_node m p n → p ∉ made d.
Proof. intros [[_ Hm] _] Hn Hno Hp. apply Hm in Hp as [_ (n' & Hn' & Ho)]. rewrite Hn in Hn'. by injection Hn' as ->. Qed.

Lemma absent_not_made d p : good d → nodes d !! p = None → p ∉ made d.
Proof. intros [[_ Hm] _] Hn Hp. apply Hm in Hp as [_ (n' & Hn' & Ho)]. by rewrite Hn in Hn'. Qed.

Lemma wp_our_link d n p Q :
  good d → nodes d !! p = Some n →
  (∀ dest, from_option (ownsLinkTarget m) false dest = true ↔ ours_node m p n → Q dest d) → wp d (readOurLink n p) Q.
Proof.
  intros Hg Hn HQ. destruct n as [| |dest]; cbn; [split; [done|]; by apply HQ..|]. split; [done|]. intros d1 a Hs.
  inversion Hs as [| | |? dest' Hl| | | | | | | | | |]; subst; [|done]. rewrite Hn in Hl. injection Hl as <-. cbn. split; [done|]. by apply HQ.
Qed.

Lemma good_mkdir d ns :
  good d → (∀ q, ns !! q = nodes d !! q ∨ (nodes d !! q = None ∧ ns !! q = Some NDir)) → good (MkDisk ns (registry d) (made d)).
Proof.
  intros [[Hr Hm] Hu] Hns. split; [split; [done|]|].
  - intros p Hp. destruct (Hm p Hp) as [Hrec (n & Hn & Ho)]. split; [done|]. exists n. cbn. split; [|done]. destruct (Hns p) as [->|[E _]]; [done|]. by rewrite Hn in E.
  - intros p n Hn Ho. cbn. pose proof (Hu p n Hn Ho) as E. destruct (Hns p) as [->|[E' _]]; [done|]. by rewrite E in E'.
Qed.

Lemma good_remove d p : good d → ours m d p → good (MkDisk (delete p (nodes d)) (registry d) (made d ∖ {[p]})).
Proof.
  intros [[Hr Hm] Hu] (n & Hn & Ho). split; [split; [done|]|].
  - intros q [Hq Hne]%elem_of_difference. destruct (Hm q Hq) as [Hrec (n' & Hn' & Ho')]. split; [done|]. exists n'. split; [|done]. cbn.
    rewrite lookup_delete_ne; [done|]. set_solver.
  - intros q n' Hn' Ho'. pose proof (Hu q n' Hn' Ho') as E. cbn. rewrite lookup_delete_ne; [done|]. intros <-. rewrite Hn in E. by injection E as ->.
Qed.

Lemma good_link d link dest :
  good d → nodes d !! link = None → recorded d link → ours_node m link (NLink dest) →
  good (MkDisk (<[link := NLink dest]> (nodes d)) (registry d) ({[link]} ∪ made d)).
Proof.
  intros [[Hr Hm] Hu] Hno Hrec Ho. split; [split; [done|]|].
  - intros p [->%elem_of_singleton|Hp]%elem_of_union; [split; [done|]; exists (NLink dest); split; [apply lookup_insert_eq|done]|].
    destruct (Hm p Hp) as [Hrec' (n & Hn & Ho')]. split; [done|]. exists n. split; [|done]. cbn. rewrite lookup_insert_ne; [done|]. intros <-. by rewrite Hno in Hn.
  - intros p n Hn Hn'. pose proof (Hu p n Hn Hn') as E. cbn. rewrite lookup_insert_ne; [done|]. intros <-. by rewrite Hno in E.
Qed.

(** A link straight to a declared volume is the agent's. *)
Lemma link_is_ours link n v : declared_places m → vols m !! n = Some v → ours_node m link (NLink (v_path v)).
Proof.
  intros Hd Hv. pose proof (Hd n v Hv) as Hp. cbn. unfold ownsLinkTarget. apply existsb_elem. exists (n, v). split; [by apply elem_of_map_to_list|].
  cbn. assert (link_target link (v_path v) = v_path v) as ->; [|by apply pathWithin_spec].
  unfold link_target. pose proof Hp as [Ha Hc].
  assert (TrimPrefix (TrimPrefix (v_path v) "\??\") "\\?\" = v_path v) as ->.
  { assert (∀ q, HasPrefix (v_path v) (String "\" q) = false) as H; [|unfold TrimPrefix; by rewrite !H]. intros q. apply not_true_iff_false. intros [r Hr]%HasPrefix_spec. by rewrite Hr in Ha. }
  by rewrite Ha.
Qed.

Lemma wp_make_link d target n v Q :
  declared_places m → vols m !! n = Some v → good d → nodes d !! target = None →
  (∀ d' r, good d' → Q r d') → wp d (make_link target (v_path v)) Q.
Proof.
  intros Hd Hv Hg Hno HQ. apply links_bind, wp_record; [done|]. intros d1 r [Hn1 Hm1] Hrec Hg1. destruct r as [[]|e]; [|split; [done|by apply HQ]].
  apply links_bind. split; [done|]. intros d2 a Hs. inversion Hs; subst.
  - cbn. match goal with |- good ?x ∧ _ => assert (good x) as Hg' end; [|split; [done|]; split; [done|by apply HQ]].
    apply good_link; [done|done|by apply Hrec|by eapply link_is_ours].
  - split; [done|]. cbv beta iota. apply links_bind, wp_forget; [done|apply absent_not_made; [done|by rewrite Hn1]|]. intros d3 _ Hg3. split; [done|by apply HQ].
Qed.

Lemma wp_installLink d target n v Q :
  declared_places m → vols m !! n = Some v → good d → (∀ d' r, good d' → Q r d') → wp d (installLink m target (v_path v)) Q.
Proof.
  intros Hd Hv Hg HQ. split; [done|]. intros d1 a Hs. inversion Hs as [p ns a' Hns Ha| | | | | | | | | | | | |]; subst.
  pose proof (good_mkdir d ns Hg Hns) as Hg1. destruct Ha as [->|[e ->]]; [|split; [done|by apply HQ]].
  split; [done|]. intros d2 a Hs2. inversion Hs2 as [|p|p e Hf| | | | | | | | | | |]; subst; [|done]. cbn [nodes].
  destruct (ns !! target) as [n'|] eqn:En; cbn [from_option]; [|by eapply wp_make_link].
  apply links_bind, wp_our_link; [done|done|]. intros dest Hdest. destruct (from_option (ownsLinkTarget m) false dest); [|split; [done|by apply HQ]].
  split; [done|]. intros d3 a Hs3. inversion Hs3; subst; [|split; [done|by apply HQ]].
  eapply wp_make_link; [done|done| |apply lookup_delete_eq|done]. apply (good_remove _ target Hg1). exists n'. split; [done|]. by apply Hdest.
Qed.

Lemma wp_removeOurLink d link Q : good d → (∀ d' r, good d' → Q r d') → wp d (removeOurLink m link) Q.
Proof.
  intros Hg HQ. split; [done|]. intros d1 a Hs. inversion Hs as [|p|p e Hf| | | | | | | | | | |]; subst; [|done].
  destruct (nodes d1 !! link) as [n|] eqn:En; cbn [from_option].
  - apply links_bind, wp_our_link; [done|done|]. intros dest Hdest. destruct (from_option (ownsLinkTarget m) false dest).
    + split; [done|]. intros d2 a Hs2. inversion Hs2; subst; [|split; [done|by apply HQ]].
      apply links_bind, wp_forget; [apply good_remove; [done|]; exists n; split; [done|by apply Hdest]|set_solver|].
      intros d3 _ Hg3. split; [done|by apply HQ].
    + apply links_bind, wp_forget; [done|eapply not_ours_not_made; [done|done|]; by intros ?%Hdest|]. intros d3 _ Hg3. split; [done|by apply HQ].
  - apply links_bind, wp_forget; [done|by apply absent_not_made|]. intros d3 _ Hg3. split; [done|by apply HQ].
Qed.

Lemma wp_unmount d l Q : good d → (∀ d' r, good d' → Q r d') → wp d (unmount m l) Q.
Proof.
  revert d Q. induction l as [|x l IH]; intros d Q Hg HQ; [split; [done|by apply HQ]|].
  apply links_bind, wp_removeOurLink; [done|]. intros d1 r Hg1. apply links_bind, IH; [done|]. intros d2 q Hg2. split; [done|by apply HQ].
Qed.

(** A sweep without errors leaves none of the links it was given. *)
Lemma wp_sweep d links Q :
  good d → (∀ d' errs, good d' → (errs = [] → ∀ p, p ∈ made d' → p ∈ made d ∧ (p ∉ links)) → Q errs d') → wp d (sweep_links m links) Q.
Proof.
  revert d Q. induction links as [|l rest IH]; intros d Q Hg HQ; [split; [done|]; apply HQ; [done|]; set_solver|].
  assert (∀ d1, good d1 → made d1 ⊆ made d → l ∉ made d1 → wp d1 (forgetLink l ≫= λ _, sweep_links m rest) Q) as Hrest.
  { intros d1 Hg1 Hsub Hl. apply links_bind, wp_forget; [done|done|]. intros d2 [_ Hm2] Hg2. apply IH; [done|]. intros d3 errs Hg3 H3. apply HQ; [done|].
    intros He p Hp. destruct (H3 He p Hp) as [H Hno]. rewrite Hm2 in H. set_solver. }
  split; [done|]. intros d1 a Hs. inversion Hs as [|p|p e Hf| | | | | | | | | | |]; subst; [|done]. destruct (nodes d1 !! l) as [n|] eqn:En; cbn [from_option].
  - apply links_bind, wp_our_link; [done|done|]. intros dest Hdest. destruct (from_option (ownsLinkTarget m) false dest).
    + split; [done|]. intros d2 a Hs2. inversion Hs2; subst.
      * apply Hrest; [apply good_remove; [done|]; exists n; split; [done|by apply Hdest]|cbn; set_solver|set_solver].
      * apply links_bind, IH; [done|]. intros d3 errs Hg3 _. split; [done|]. by apply HQ.
    + apply Hrest; [done|done|eapply not_ours_not_made; [done|done|]; by intros ?%Hdest].
  - apply Hrest; [done|done|by apply absent_not_made].
Qed.

(** ** Mounting *)

Lemma planned_volumes mounts specs : planMounts mounts (Some m) = Ok specs → ∀ s, s ∈ specs → ∃ v, vols m !! ms_name s = Some v ∧ ms_volPath s = v_path v.
Proof.
  assert (∀ i l specs, planMounts_from m i l = Ok specs → ∀ s, s ∈ specs → ∃ v, vols m !! ms_name s = Some v ∧ ms_volPath s = v_path v) as H.
  { intros i l. revert i. induction l as [|v l IH]; intros i ss; cbn [planMounts_from]; [intros [= <-]; set_solver|].
    intros (s & Hs & (ss' & Hss & [= <-])%bind_ok)%bind_ok s' [->|Hin]%elem_of_cons; [|by eapply IH].
    unfold planMount in Hs. destruct (vm_Name v) as [|name [|]]; [done| |done]. apply then_ok in Hs as [Hv Hs]. repeat (apply then_ok in Hs as [_ Hs]).
    injection Hs as <-. apply fail_if_ok in Hv. cbn in *. destruct (vols m !! name) as [v0|]; [by exists v0|done]. }
  destruct mounts as [|v l]; [intros [= <-]; set_solver|]. apply (H 0).
Qed.

Lemma wp_mount_links d workDir ws specs created resolved Q :
  declared_places m → (∀ s, s ∈ specs → ∃ v, vols m !! ms_name s = Some v ∧ ms_volPath s = v_path v) →
  good d → (∀ d' r, good d' → Q r d') → wp d (mount_links m workDir ws specs created resolved) Q.
Proof.
  intros Hd. revert d created resolved. induction specs as [|s specs IH]; intros d created resolved Hs Hg HQ; cbn [mount_links]; [split; [done|by apply HQ]|].
  assert (∀ s, s ∈ specs → ∃ v, vols m !! ms_name s = Some v ∧ ms_volPath s = v_path v) as Hs' by (intros; apply Hs; by right).
  destruct (ms_root s); [by apply IH|]. destruct (nativeLinkPath workDir ws s) as [target|e].
  - destruct (Hs s) as (v & Hv & ->); [left|]. apply links_bind. eapply wp_installLink; [done|done|done|]. intros d1 [r|e] Hg1; [by apply IH|].
    apply links_bind, wp_unmount; [done|]. intros d2 q Hg2. split; [done|by apply HQ].
  - apply links_bind, wp_unmount; [done|]. intros d2 q Hg2. split; [done|by apply HQ].
Qed.

Lemma wp_make_mountpoints d workDir specs Q : good d → (∀ d' r, good d' → Q r d') → wp d (make_mountpoints workDir specs) Q.
Proof.
  revert d. induction specs as [|s specs IH]; intros d Hg HQ; cbn [make_mountpoints]; [split; [done|by apply HQ]|].
  destruct (_ || _); [by apply IH|]. split; [done|]. intros d1 a Hs. inversion Hs as [p ns a' Hns Ha| | | | | | | | | | | | |]; subst.
  pose proof (good_mkdir d ns Hg Hns) as Hg1. destruct Ha as [->|[e ->]]; [by apply IH|split; [done|by apply HQ]].
Qed.

Lemma wp_mountVolumes d workDir ws mounts native Q :
  declared_places m → good d → (∀ d' r, good d' → Q r d') → wp d (mountVolumes (Some m) workDir ws mounts native) Q.
Proof.
  intros Hd Hg HQ. unfold mountVolumes. destruct (planMounts mounts (Some m)) as [specs|e] eqn:E; [|split; [done|by apply HQ]].
  destruct specs as [|s specs]; [split; [done|by apply HQ]|]. destruct native.
  - apply wp_mount_links; [done|by eapply planned_volumes|done|done].
  - apply links_bind, wp_make_mountpoints; [done|]. intros d' r Hg'. split; [done|by apply HQ].
Qed.
End logic.

(** ** The life of a machine's links *)

(** Runs mount and clean up, processes crash and the next one sweeps, in any order:
    a program may stop anywhere. *)
Inductive history (m : VolumeManager) : disk → disk → Prop :=
| hi_none d : history m d d
| hi_mount d d1 d2 workDir ws mounts native r :
    history m d d1 → exec false d1 (mountVolumes (Some m) workDir ws mounts native) d2 r → history m d d2
| hi_cleanup d d1 d2 created r : history m d d1 → exec false d1 (cleanup m created) d2 r → history m d d2
| hi_sweep d d1 d2 r : history m d d1 → exec false d1 (sweepStaleVolumeLinks m) d2 r → history m d d2.

Lemma good_refl m d : intact m d → good m d d.
Proof. intros H. split; [done|]. by intros p n. Qed.

Lemma untouched_trans m a b c : untouched m a b → untouched m b c → untouched m a c.
Proof. intros H1 H2 p n Hp Hn. apply H2; [by apply H1|done]. Qed.

Lemma wp_sweepStale m d0 d Q :
  good m d0 d → (∀ d' r, good m d0 d' → (r = Ok [] → made d' = ∅) → Q r d') → wp m d0 d (sweepStaleVolumeLinks m) Q.
Proof.
  intros Hg HQ. apply links_bind, links_read; [done|]. intros l Hl. apply links_bind, wp_sweep; [done|]. intros d1 errs Hg1 H1. split; [done|]. apply HQ; [done|].
  intros [= ->]. apply set_eq. intros p. split; [|set_solver]. intros Hp. destruct (H1 eq_refl p Hp) as [Hin Hno]. destruct Hno. apply Hl. by apply Hg.
Qed.

(** Links are never lost and nothing else is touched.  Whatever mounts,
    cleanups, crashes at any step and startup sweeps happened, every link the agent
    made and that still exists is recorded and still leads into a volume; a file,
    directory or link elsewhere that was there at the start is there unchanged; and
    a sweep that reports no error leaves no link the agent made.  (The file system
    may refuse to make or remove anything, but what exists can be inspected.) *)
Theorem links_tracked m d d' :
  declared_places m → intact m d → history m d d' →
  intact m d' ∧ untouched m d d'
  ∧ ∀ d2 r, exec false d' (sweepStaleVolumeLinks m) d2 r → r = Some (Ok []) → made d2 = ∅ ∧ intact m d2 ∧ untouched m d d2.
Proof.
  intros Hd Hi Hh. assert (intact m d' ∧ untouched m d d') as [Hi' Hu'].
  { induction Hh as [d|d d1 d2 workDir ws mounts native r _ IH He|d d1 d2 created r _ IH He|d d1 d2 r _ IH He]; [by split; [|intros p n]|..];
      destruct (IH Hi) as [Hi1 Hu1]; (eapply (wp_exec m d1 d1 _ d2 r (λ _ _, True)) in He as [[Hi2 Hu2] _]; [split; [done|by eapply untouched_trans]|]).
    - apply wp_mountVolumes; [done|by apply good_refl|done].
    - apply wp_unmount; [by apply good_refl|done].
    - apply wp_sweepStale; [by apply good_refl|done]. }
  split; [done|]. split; [done|]. intros d2 r He ->.
  eapply (wp_exec m d' d' _ d2 _ (λ r d, r = Ok [] → made d = ∅)) in He as [[Hi2 Hu2] HQ]; [|apply wp_sweepStale; [by apply good_refl|auto]].
  split; [by apply (HQ (Ok []))|]. split; [done|by eapply untouched_trans].
Qed.

(** ** Where a mount lands *)

(** A planned mount: a relative one has only proper parts below the workspace (none
    at its root), and a shared volume is never the workspace. *)
Lemma planned_contained m i v s :
  planMount m i v = Ok s →
  (ms_abs s = false → ms_root s = false → Forall proper_seg (segments (ms_mp s)) ∧ ms_mp s = Join "/" (segments (ms_mp s)) ∧ segments (ms_mp s) ≠ [])
  ∧ (ms_root s = true → ModeOf (Some m) (ms_name s) ≠ VolumeModeShared).
Proof.
  unfold planMount. destruct (vm_Name v) as [|name [|]]; [done| |done]. intros H. do 3 apply then_ok in H as [_ H].
  apply then_ok in H as [Hshared H]. apply then_ok in H as [Hesc H]. injection H as <-. apply fail_if_ok in Hshared, Hesc. cbn in *. split.
  - intros Habs Hroot. rewrite Habs in Hesc. cbn in Hesc. apply orb_false_iff in Hesc as [H1 H2]. apply String.eqb_neq in H1, Hroot.
    rewrite Clean_IsAbs in Habs. split; [by apply Clean_relative_contained|].
    destruct (clean_rel_segments (Clean (vm_MountPath v))) as (Hj & Hne & _); [by rewrite Clean_IsAbs|apply Clean_idemp|done|]. done.
  - intros Hroot. rewrite Hroot in Hshared. cbn in Hshared. by apply String.eqb_neq.
Qed.

(** The link of a relative mount lies below the workspace, that of an absolute one
    does not. *)
Lemma native_link_place m i v s workDir ws target :
  place workDir → planMount m i v = Ok s → ms_root s = false → nativeLinkPath workDir ws s = Ok target → IsAbs (ms_mp s) = ms_abs s →
  (ms_abs s = false → ∃ w l, segments target = segments workDir ++ w :: l) ∧ (ms_abs s = true → ¬ segments workDir `prefix_of` segments target).
Proof.
  intros Hw Hplan Hroot Hn Habs. destruct (planned_contained _ _ _ _ Hplan) as [Hrel _]. unfold nativeLinkPath in Hn. destruct (ms_abs s); cbn [negb] in Hn.
  - split; [done|]. intros _. destruct (pathWithin workDir (Clean (ms_mp s))) eqn:E; [done|]. destruct (_ && _) in Hn; [done|]. injection Hn as <-.
    rewrite <-pathWithin_spec; [by rewrite E|done|by apply place_Clean].
  - split; [|done]. intros _. assert (target = path_Join [workDir; ms_mp s]) as -> by congruence. destruct (Hrel eq_refl Hroot) as (HF & Hj & Hne). rewrite Hj.
    destruct (segments (ms_mp s)) as [|w l] eqn:E; [done|]. exists w, l.
    replace (path_Join [workDir; Join "/" (w :: l)]) with (path_Join (workDir :: w :: l)); [by apply segments_Join|].
    cbn [path_Join]. destruct (workDir =? "")%string eqn:Ew; [apply String.eqb_eq in Ew; by destruct Hw as [Ha _]; rewrite Ew in Ha|].
    done.
Qed.

Definition covers (rel : string) (r : volumeMountRef) : bool := (rel =? vr_Rel r)%string || HasPrefix rel (vr_Rel r +:+ "/").

Lemma deeper_covers rel best r :
  deeper rel best r
  = if covers rel r then match best with None => Some r | Some b => if (String.length (vr_Rel b) <? String.length (vr_Rel r)) then Some r else best end else best.
Proof. unfold deeper, covers. rewrite <-negb_orb. by destruct (_ || _). Qed.

(** Of the mounts that cover a path the deepest is taken. *)
Lemma deepest_wins rel refs :
  match foldl (deeper rel) None refs with
  | Some b => b ∈ refs ∧ covers rel b = true ∧ ∀ r, r ∈ refs → covers rel r = true → String.length (vr_Rel r) ≤ String.length (vr_Rel b)
  | None => ∀ r, r ∈ refs → covers rel r = false
  end.
Proof.
  induction refs as [|r refs IH] using rev_ind; [set_solver|]. rewrite foldl_snoc, deeper_covers.
  destruct (covers rel r) eqn:Ec.
  - destruct (foldl (deeper rel) None refs) as [b|].
    + destruct IH as (H1 & H2 & H3). destruct (Nat.ltb_spec (String.length (vr_Rel b)) (String.length (vr_Rel r))); cbn.
      * split; [set_solver|]. split; [done|]. intros r' [Hr'| ->%list_elem_of_singleton]%elem_of_app Hc; [specialize (H3 r' Hr' Hc)|]; lia.
      * split; [set_solver|]. split; [done|]. intros r' [Hr'| ->%list_elem_of_singleton]%elem_of_app Hc; [by apply H3|lia].
    + split; [set_solver|]. split; [done|]. intros r' [Hr'| ->%list_elem_of_singleton]%elem_of_app Hc; [by rewrite IH in Hc|lia].
  - destruct (foldl (deeper rel) None refs) as [b|].
    + destruct IH as (H1 & H2 & H3). split; [set_solver|]. split; [done|]. intros r' [Hr'| ->%list_elem_of_singleton]%elem_of_app Hc; [by apply H3|congruence].
    + intros r' [Hr'| ->%list_elem_of_singleton]%elem_of_app; [by apply IH|done].
Qed.

(** ** A run that dies after its link *)

Module Links.
Definition m : VolumeManager := manager_of {["cache" := MkVolume "exclusive" "/data/cache" 0]} "/work".
Definition files : gmap string node := {["/mnt" := NDir; "/opt/tool" := NFile]}.
Definition before : disk := MkDisk files None ∅.
Definition after : disk := MkDisk (<["/mnt/lib" := NLink "/data/cache"]> files) (Some (Some ["/mnt/lib"])) {["/mnt/lib"]}.
Definition mounts : list VolumeMount := [MkVolumeMount ["cache"] "" "/mnt/lib"].

Lemma places : declared_places m.
Proof. intros n v H. unfold m, manager_of in H. cbn [vols] in H. apply lookup_singleton_Some in H as [_ <-]. split; reflexivity. Qed.

Lemma mount_links_once :
  mountVolumes (Some m) "/work/working0/job" "" mounts true
  = mount_links m "/work/working0/job" "" [MkSpec "cache" "cache" "/data/cache" "/mnt/lib" true false] [] ∅.
Proof. reflexivity. Qed.

Lemma dies : exec false before (mountVolumes (Some m) "/work/working0/job" "" mounts true) after None.
Proof.
  rewrite mount_links_once. cbn [mount_links ms_root].
  assert (nativeLinkPath "/work/working0/job" "" (MkSpec "cache" "cache" "/data/cache" "/mnt/lib" true false) = Ok "/mnt/lib") as -> by (by vm_compute).
  eapply ex_do; [apply (ps_mkdir _ _ _ files AOk); [by left|by left]|].
  eapply ex_do; [apply ps_lstat|]. eapply ex_do; [by apply ps_read_none|]. eapply ex_do; [apply (ps_write _ _ ["/mnt/lib"])|].
  eapply ex_do; [by apply ps_symlink|]. unfold before, after. cbn [nodes registry made]. rewrite (right_id_L ∅ (∪)). apply ex_crash.
Qed.

Lemma sweeps : exec false after (sweepStaleVolumeLinks m) (MkDisk files None ∅) (Some (Ok [])).
Proof.
  eapply ex_do; [by apply ps_read|]. eapply ex_do; [apply ps_lstat|]. eapply ex_do; [by apply (ps_readlink _ _ _ "/data/cache")|].
  eapply ex_do; [apply (ps_remove _ _ "/mnt/lib"); by eexists|]. eapply ex_do; [by apply ps_read|]. eapply ex_do; [apply (ps_write _ _ [])|].
  unfold after. cbn [nodes registry made]. rewrite delete_insert_id by done. rewrite difference_diag_L. apply ex_ret.
Qed.

Lemma links_tracked_witness :
  intact m after ∧ nodes after !! "/opt/tool" = Some NFile ∧ made (MkDisk files None ∅) = ∅.
Proof.
  assert (intact m before) as Hi by (split; [done|set_solver]).
  destruct (links_tracked m before after places Hi (hi_mount m before before after _ _ _ _ _ (hi_none m before) dies)) as (H1 & H2 & H3).
  split; [exact H1|]. split; [apply (H2 "/opt/tool" NFile); [reflexivity|cbn; tauto]|]. exact (proj1 (H3 _ _ sweeps eq_refl)).
Defined.

(** A link that cannot be inspected when the agent starts is forgotten, although it
    is still there: no later sweep will find it. *)
Lemma uninspectable_forgotten : exec true after (sweepStaleVolumeLinks m) (MkDisk (nodes after) None {["/mnt/lib"]}) (Some (Ok [])).
Proof.
  eapply ex_do; [by apply ps_read|]. eapply ex_do; [by apply (ps_lstat_fails _ _ _ [Lit "input/output error"])|].
  eapply ex_do; [by apply ps_read|]. eapply ex_do; [apply (ps_write _ _ [])|]. apply ex_ret.
Qed.
End Links.
