(* ===== verification/K8sVolumes.v ===== *)
(** * internal/k8sagent: volumes and their locks on a cluster

    [volumes.go] and [volumes_lock.go]: the declarations, what a claim reports busy,
    the mounts of a pod, and, as programs over the API server, the lock on a volume's
    PVC and the creation of a claim's pod.  [k8s] runs the programs of any number of
    runs on any number of replicas, request by request, with clocks that need not
    agree. *)

From S2P Require Import Prelude GoStrings GoPath DslTypes DslValidate Programs VolumeChoice Volumes VolumePlaces VolumeMounts.
From stdpp Require Import options.

(** ** Declarations *)

Definition claimNameFor (agentName volume : string) : string := agentName +:+ "-" +:+ volume.
Definition LabelValueMaxLength : nat := 63.

Section config.
(** [validation.IsDNS1123Label], empty if the name is one, and
    [resource.ParseQuantity] with [Sign]. *)
Variables (IsDNS1123Label : string → list string) (ParseQuantity : string → option Z).

Definition validate_volume (agentName : string) (seen : gset string) (c : VolumeConfig) : res (gset string) :=
  _ ← fail_if (vc_Name c =? "")%string [Lit "a volume in the agent config has no name"];
  _ ← fail_if (negb (bool_decide (IsDNS1123Label (vc_Name c) = [])))
        [Lit "volume "; Quo (vc_Name c); Lit (": the name becomes part of a PVC name, so it must be lower-case letters, digits and '-': " +:+ Join "; " (IsDNS1123Label (vc_Name c)))];
  let claim := claimNameFor agentName (vc_Name c) in
  _ ← fail_if (LabelValueMaxLength <? String.length claim)
        [Lit "volume "; Quo (vc_Name c); Lit ": the PVC name "; Quo claim; Lit (" is " +:+ pretty (N.of_nat (String.length claim)) +:+ " characters, over the 63 a label allows; shorten the volume name or agentName")];
  _ ← fail_if (bool_decide (vc_Name c ∈ seen)) [Lit "duplicate volume name "; Quo (vc_Name c); Lit " in the agent config"];
  _ ← fail_if (negb ((vc_Mode c =? VolumeModeExclusive)%string || (vc_Mode c =? VolumeModeShared)%string))
        [Lit "volume "; Quo (vc_Name c); Lit ": mode must be "; Quo VolumeModeExclusive; Lit " or "; Quo VolumeModeShared; Lit ", got "; Quo (vc_Mode c)];
  _ ← fail_if (vc_Size c =? "")%string
        [Lit "volume "; Quo (vc_Name c); Lit ": size is required on the Kubernetes agent, which provisions a PVC of that size (for example 200Gi)"];
  _ ← fail_if (match ParseQuantity (vc_Size c) with None => true | Some q => (q <=? 0)%Z end)
        [Lit "volume "; Quo (vc_Name c); Lit ": size "; Quo (vc_Size c); Lit " is not a positive quantity such as 200Gi"];
  Ok ({[vc_Name c]} ∪ seen).

Definition validateVolumeConfigs (agentName : string) (cfgs : list VolumeConfig) : res unit :=
  match cfgs with
  | [] => Ok tt
  | _ =>
      _ ← fail_if (agentName =? "")%string
            [Lit "agentName is required when volumes are declared: it prefixes the PVC names, and it must stay the same across restarts or each restart would provision empty volumes"];
      _ ← fail_if (negb (bool_decide (IsDNS1123Label agentName = [])))
            [Lit "agentName "; Quo agentName; Lit (" is not usable in a PVC name: " +:+ Join "; " (IsDNS1123Label agentName))];
      _ ← fold_res (validate_volume agentName) ∅ cfgs;
      Ok tt
  end.
End config.

Definition volumeNames (cfgs : list VolumeConfig) : list string := SortStrings (map vc_Name cfgs).
Definition declaredVolumes (cfgs : list VolumeConfig) : gmap string VolumeConfig := foldl (λ m c, <[vc_Name c := c]> m) ∅ cfgs.

(** ** Pods, and what they hold *)

Record pod := MkPod { po_phase : string; po_labels : gmap string string }.
Definition volumeLabelPrefix : string := "volume.unified-cd/".
Definition labelRunID : string := "unified-cd/runId".
Definition finished (p : pod) : bool := (po_phase p =? "Succeeded")%string || (po_phase p =? "Failed")%string.

Definition held_by_pod (agentName : string) (p : pod) : list string :=
  if finished p then []
  else omap (λ kv,
    if HasPrefix kv.1 volumeLabelPrefix && negb (kv.2 =? "")%string && (TrimPrefix kv.1 volumeLabelPrefix =? claimNameFor agentName kv.2)%string
    then Some kv.2 else None) (map_to_list (po_labels p)).

Definition heldVolumes (pods : list pod) (agentName : string) : gset string := list_to_set (concat (map (held_by_pod agentName) pods)).
Definition BusyVolumes (pods : list pod) (agentName : string) : list string := SortStrings (elements (heldVolumes pods agentName)).

Fixpoint withGated (busy gated : list string) : list string :=
  match gated with
  | [] => busy
  | g :: gated' => withGated (if bool_decide (g ∈ busy) then busy else busy ++ [g]) gated'
  end.

(** [claimRequest]: the volumes advertised and those reported busy; [None]: the pods
    could not be read. *)
Definition claimRequest (agentName : string) (cfgs : list VolumeConfig) (gated : list string) (pods : option (list pod)) : list string * list string :=
  match cfgs with
  | [] => ([], [])
  | _ =>
      (volumeNames cfgs,
       match pods with
       | None => withGated [] gated
       | Some pods =>
           withGated (filter (λ n, from_option vc_Mode "" (declaredVolumes cfgs !! n) = VolumeModeExclusive) (BusyVolumes pods agentName)) gated
       end)
  end.

(** ** The mounts of a pod *)

Record PodVolume := MkPodVolume { pv_Name : string; pv_ClaimName : string; pv_MountPath : string }.

Definition normalizeVolumeMountPath (raw : string) : string := Clean (ReplaceByte raw "\" "/").
Definition volumeContainerPath (workspaceMount mp : string) : string := if IsAbs mp then mp else path_Join [workspaceMount; mp].

Definition cleanVolumeMountPath (i : nat) (v : VolumeMount) (workspace : string) : res string :=
  _ ← fail_if (vm_MountPath v =? "")%string (entryText i ++ [Lit ": mountPath is required"]);
  let mp := normalizeVolumeMountPath (vm_MountPath v) in
  _ ← fail_if (negb (IsAbs mp) && ((mp =? "..")%string || HasPrefix mp "../"))
        (entryText i ++ [Lit ": mountPath "; Quo (vm_MountPath v); Lit " escapes the workspace"]);
  _ ← fail_if (IsAbs mp && (mp =? Clean workspace)%string)
        (entryText i ++ [Lit ": mountPath "; Quo (vm_MountPath v); Lit " is the workspace itself; write "; Quo "."; Lit " to mount the volume at the workspace root"]);
  Ok mp.

Definition mounted_at (workspace mp : string) : string :=
  if (mp =? ".")%string then Clean workspace else if IsAbs mp then mp else path_Join [workspace; mp].

Definition uniqueMountPath (seen : gmap string nat) (i : nat) (v : VolumeMount) (workspace : string) : res (gmap string nat * string) :=
  mp ← cleanVolumeMountPath i v workspace;
  let where_ := mounted_at workspace mp in
  match seen !! where_ with
  | Some j => Err (entryText i ++ [Lit ": mountPath "; Quo (vm_MountPath v); Lit " is also used by "] ++ entryText j
                   ++ [Lit (" (both mount at " +:+ where_ +:+ " in the container); two volumes cannot share a mount path")])
  | None => Ok (<[where_ := i]> seen, mp)
  end.

Fixpoint planPodVolumes_from (agentName : string) (declared : gmap string VolumeConfig) (workspace : string)
    (i : nat) (seen : gmap string nat) (mounts : list VolumeMount) : res (list PodVolume * gmap string string) :=
  match mounts with
  | [] => Ok ([], ∅)
  | v :: l =>
      match vm_Name v with
      | [name] =>
          match declared !! name with
          | None => Err (entryText i ++ [Lit ": this agent does not declare a volume named "; Quo name])
          | Some cfg =>
              let alias := VolumeAlias v in
              _ ← fail_if (alias =? "")%string (entryText i ++ [Lit ": volume "; Quo name; Lit " has no alias"]);
              um ← uniqueMountPath seen i v workspace;
              let '(seen, mp) := um in
              _ ← fail_if ((mp =? ".")%string && (vc_Mode cfg =? VolumeModeShared)%string)
                    (entryText i ++ [Lit ": volume "; Quo name; Lit " is shared and cannot be mounted at the workspace root (mountPath "; Quo (vm_MountPath v);
                     Lit "): several runs would work in one checkout with no exclusion. Declare it exclusive in the agent config, or mount it at a subdirectory"]);
              rest ← planPodVolumes_from agentName declared workspace (S i) seen l;
              (* a later entry writes the alias last *)
              Ok (MkPodVolume name (claimNameFor agentName name) mp :: rest.1,
                  rest.2 ∪ {[alias := if (mp =? ".")%string then workspace else volumeContainerPath workspace mp]})
          end
      | names => Err (entryText i ++ [Lit (" names " +:+ pretty (N.of_nat (length names)) +:+ " candidate volumes; exactly one must be chosen before mounting")])
      end
  end.

Definition planPodVolumes (agentName : string) (declared : gmap string VolumeConfig) (mounts : list VolumeMount) (workspace : string)
    : res (list PodVolume * gmap string string) :=
  planPodVolumes_from agentName declared workspace 0 ∅ mounts.

(** The candidate lists of [createClaimPod], after its checks. *)
Fixpoint claim_sets (declared : gmap string VolumeConfig) (workspace : string) (i : nat) (seen : gmap string nat) (mounts : list VolumeMount)
    : res (list (list string)) :=
  match mounts with
  | [] => Ok []
  | v :: l =>
      um ← wrap [Lit "k8s: "] (uniqueMountPath seen i v workspace);
      let set := filter (λ n, n ∈ dom declared) (vm_Name v) in
      _ ← fail_if (bool_decide (set = [])) ([Lit "k8s: "] ++ entryText i ++ [Lit ": this agent declares none of "] ++ quotes (vm_Name v));
      rest ← claim_sets declared workspace (S i) um.1 l;
      Ok (set :: rest)
  end.

(** ** The API server *)

Record pvc := MkPvc { pvc_version : N; pvc_holder : string; pvc_at : option Z }.

(** [confirmed] remembers a volume's last writer, while its pod has been there since
    the write; [lost] the runs whose pod went away after they created it. *)
Record cluster := MkCluster {
  pvcs : gmap string pvc;
  pods : gmap string pod;
  confirmed : gmap string string;
  lost : gset string
}.

Inductive request :=
| QPodsOf (run : string) | QPods | QNow
| QGet (volume : string) | QUpdate (volume : string) (version : N) (holder : string) (at_ : option Z)
| QCreate (name : string) (p : pod) | QDelete (name : string).
Inductive answer :=
| APods (l : list (string * pod)) | ANow (now : Z) | APvc (p : pvc)
| AOk | ANotFound (e : text) | AConflict | AExists (e : text) | ATimeout (e : text) | AFailed (e : text).
Definition error_of (a : answer) : text :=
  match a with ANotFound e | AExists e | ATimeout e | AFailed e => e | _ => [] end.
Abbreviation prog := (Programs.prog request answer).

Definition podName (run : string) : string := "ucd-run-" +:+ str_take 16 run.
(** The run's pod is there and has not finished. *)
Definition live (c : cluster) (run : string) : Prop :=
  ∃ p, pods c !! podName run = Some p ∧ po_labels p !! labelRunID = Some run ∧ finished p = false.
#[export] Instance live_dec c run : Decision (live c run).
Proof.
  unfold live. destruct (pods c !! podName run) as [p|] eqn:E; [|right; by intros (? & ? & _)].
  destruct (decide (po_labels p !! labelRunID = Some run ∧ finished p = false)) as [[]|H]; [left; eauto|right; intros (? & [= <-] & ? & ?); tauto].
Defined.

Definition of_run (run : string) (l : gmap string pod) : list (string * pod) := filter (λ np, po_labels np.2 !! labelRunID = Some run) (map_to_list l).

Definition write_pvc (c : cluster) (volume : string) (p : pvc) (holder : string) (at_ : option Z) : cluster :=
  MkCluster (<[volume := MkPvc (N.succ (pvc_version p)) holder at_]> (pvcs c)) (pods c)
    (if decide (holder ≠ "" ∧ live c holder) then <[volume := holder]> (confirmed c) else delete volume (confirmed c)) (lost c).

Definition add_pod (c : cluster) (run name : string) (p : pod) : cluster :=
  MkCluster (pvcs c) (<[name := p]> (pods c)) (confirmed c) (lost c ∖ {[run]}).

(** Any request may fail, and a write that is reported as failed, or timed out, may
    have happened. *)
Inductive serve (run : string) (c : cluster) : request → cluster → answer → Prop :=
| sv_fails q e : serve run c q c (AFailed e)
| sv_pods_of r : serve run c (QPodsOf r) c (APods (of_run r (pods c)))
| sv_pods : serve run c QPods c (APods (map_to_list (pods c)))
| sv_now now : serve run c QNow c (ANow now)
| sv_get v p : pvcs c !! v = Some p → serve run c (QGet v) c (APvc p)
| sv_get_none v e : pvcs c !! v = None → serve run c (QGet v) c (ANotFound e)
| sv_update v p h t a :
    pvcs c !! v = Some p → a = AOk ∨ (∃ e, a = AFailed e) → serve run c (QUpdate v (pvc_version p) h t) (write_pvc c v p h t) a
| sv_conflict v p n h t : pvcs c !! v = Some p → n ≠ pvc_version p → serve run c (QUpdate v n h t) c AConflict
| sv_update_none v n h t e : pvcs c !! v = None → serve run c (QUpdate v n h t) c (ANotFound e)
| sv_create name p a :
    pods c !! name = None → a = AOk ∨ (∃ e, a = ATimeout e ∨ a = AFailed e) → serve run c (QCreate name p) (add_pod c run name p) a
| sv_create_slow name p e : serve run c (QCreate name p) c (ATimeout e)
| sv_exists name p e : is_Some (pods c !! name) → serve run c (QCreate name p) c (AExists e)
| sv_delete name : is_Some (pods c !! name) → serve run c (QDelete name) c AOk
| sv_delete_none name e : pods c !! name = None → serve run c (QDelete name) c (ANotFound e).

(** Meanwhile pods come, change phase and go (a deleted pod when it has
    terminated), and others write the PVCs without touching their annotations. *)
Definition elsewhere (c c' : cluster) : Prop :=
  (∀ v p, pvcs c !! v = Some p → ∃ n, pvcs c' !! v = Some (MkPvc n (pvc_holder p) (pvc_at p)) ∧ (pvc_version p ≤ n)%N)
  ∧ (∀ v, pvcs c !! v = None → pvcs c' !! v = None)
  ∧ lost c ⊆ lost c'
  ∧ (∀ run, live c run → live c' run ∨ run ∈ lost c')
  ∧ confirmed c' = filter (λ vr, live c' vr.2) (confirmed c).

(** ** The lock *)

Definition volumeLockAttempts : nat := 5.
Definition second : Z := 1000000000.
(** RFC 3339 keeps whole seconds. *)
Definition stamp (now : Z) : Z := now / second * second.

Section lock.
Variables (grace : Z) (agentName : string). (* lockGrace *)

Definition holderIsLive (p : pvc) (holder : string) : prog (res bool) :=
  Do QNow (λ a,
    match a, pvc_at p with
    | ANow now, Some t =>
        if (now - t <? grace)%Z then Ret (Ok true)
        else Do (QPodsOf holder) (λ a, Ret (match a with
               | APods l => Ok (existsb (λ np, negb (finished np.2)) l)
               | AFailed e => Err ([Lit ("list pods of run " +:+ holder +:+ " to judge its volume lock: ")] ++ e)
               | _ => Ok true end))
    | _, _ => Ret (Ok true)
    end).

Definition write_lock (again : prog (res bool)) (volume run : string) (p : pvc) : prog (res bool) :=
  Do QNow (λ a,
    match a with
    | ANow now =>
        Do (QUpdate volume (pvc_version p) run (Some (stamp now))) (λ a,
          match a with
          | AOk => Ret (Ok true)
          | AConflict => again
          | _ => Ret (Err ([Lit "volume "; Quo volume; Lit (": lock PVC " +:+ claimNameFor agentName volume +:+ ": ")] ++ error_of a))
          end)
    | _ => Ret (Ok false)
    end).

Fixpoint lock_attempts (n : nat) (volume run : string) : prog (res bool) :=
  match n with
  | 0 => Ret (Ok false)
  | S n' =>
      Do (QGet volume) (λ a,
        match a with
        | APvc p =>
            let holder := pvc_holder p in
            if negb (holder =? "")%string && negb (holder =? run)%string then
              r ← holderIsLive p holder;
              match r with
              | Err e => Ret (Err e)
              | Ok true => Ret (Ok false)
              | Ok false => write_lock (lock_attempts n' volume run) volume run p
              end
            else if (holder =? run)%string then Ret (Ok true)
            else write_lock (lock_attempts n' volume run) volume run p
        | _ => Ret (Err ([Lit "volume "; Quo volume; Lit (": read PVC " +:+ claimNameFor agentName volume +:+ ": ")] ++ error_of a))
        end)
  end.
Definition lockVolume (volume run : string) : prog (res bool) := lock_attempts volumeLockAttempts volume run.

Fixpoint unlock_attempts (n : nat) (volume run : string) : prog (res unit) :=
  match n with
  | 0 => Ret (Err [Lit "volume "; Quo volume; Lit (": could not clear the lock on PVC " +:+ claimNameFor agentName volume +:+ " after " +:+ pretty (N.of_nat volumeLockAttempts) +:+ " conflicting updates")])
  | S n' =>
      Do (QGet volume) (λ a,
        match a with
        | APvc p =>
            if negb (pvc_holder p =? run)%string then Ret (Ok tt)
            else Do (QUpdate volume (pvc_version p) "" None) (λ a,
              match a with
              | AConflict => unlock_attempts n' volume run
              | AOk | ANotFound _ => Ret (Ok tt)
              | _ => Ret (Err ([Lit "volume "; Quo volume; Lit (": unlock PVC " +:+ claimNameFor agentName volume +:+ ": ")] ++ error_of a))
              end)
        | ANotFound _ => Ret (Ok tt)
        | _ => Ret (Err ([Lit "volume "; Quo volume; Lit (": read PVC " +:+ claimNameFor agentName volume +:+ ": ")] ++ error_of a))
        end)
  end.
Definition unlockVolume (volume run : string) : prog (res unit) := unlock_attempts volumeLockAttempts volume run.

(** One volume of [confirmLock]: is it confirmed? *)
Fixpoint confirm_attempts (n : nat) (volume run : string) : prog (res bool) :=
  match n with
  | 0 => Ret (Err [Lit "volume "; Quo volume; Lit (": could not confirm the lock after " +:+ pretty (N.of_nat volumeLockAttempts) +:+ " conflicting updates")])
  | S n' =>
      Do (QGet volume) (λ a,
        match a with
        | APvc p =>
            if negb (pvc_holder p =? run)%string then Ret (Ok false)
            else Do QNow (λ a,
              match a with
              | ANow now =>
                  Do (QUpdate volume (pvc_version p) run (Some (stamp now))) (λ a,
                    match a with
                    | AOk => Ret (Ok true)
                    | AConflict => confirm_attempts n' volume run
                    | _ => Ret (Err ([Lit "volume "; Quo volume; Lit (": confirm the lock on PVC " +:+ claimNameFor agentName volume +:+ ": ")] ++ error_of a))
                    end)
              | _ => Ret (Ok false)
              end)
        | _ => Ret (Err ([Lit "volume "; Quo volume; Lit ": re-read PVC to confirm the lock: "] ++ error_of a))
        end)
  end.

Fixpoint confirm_all (exclusive : list string) (run : string) : prog (option string * option text) :=
  match exclusive with
  | [] => Ret (None, None)
  | n :: rest =>
      r ← confirm_attempts volumeLockAttempts n run;
      match r with
      | Ok true => confirm_all rest run
      | Ok false => Ret (Some n, None)
      | Err e => Ret (Some n, Some e)
      end
  end.

Variable declared : gmap string VolumeConfig.

Definition is_exclusive (n : string) : bool := (from_option vc_Mode "" (declared !! n) =? VolumeModeExclusive)%string.
Definition exclusive_of (chosen : list string) : list string := filter (λ n, is_exclusive n = true) (remove_dups chosen).

Definition confirmLock (chosen : list string) (run : string) : prog (option string * option text) := confirm_all (exclusive_of chosen) run.

Fixpoint release_locks (taken : list string) (run : string) : prog unit :=
  match taken with
  | [] => Ret tt
  | n :: rest => _ ← unlockVolume n run; release_locks rest run
  end.

(** The locks taken, or the volume that could not be. *)
Inductive locking := Locked (taken : list string) | Contended (volume : string) | LockError (e : text).

Fixpoint lock_all (names : list string) (taken : list string) (run : string) : prog locking :=
  match names with
  | [] => Ret (Locked taken)
  | n :: rest =>
      r ← lockVolume n run;
      match r with
      | Err e => _ ← release_locks taken run; Ret (LockError e)
      | Ok false => _ ← release_locks taken run; Ret (Contended n)
      | Ok true => lock_all rest (taken ++ [n]) run
      end
  end.
Definition lockExclusive (chosen : list string) (run : string) : prog locking := lock_all (SortStrings (exclusive_of chosen)) [] run.

(** ** The pod of a claim *)

Record created := MkCreated { cr_chosen : list string; cr_taken : list string; cr_mounts : list PodVolume; cr_paths : gmap string string; cr_root : bool }.
Inductive outcome :=
| Created (r : created)
| Waits
| Abandoned
| Retry (timedOut : bool) (cause : text)
| Fails (e : text)
| OutOfFuel.

Variable workspace : string.
(** [BuildPod]'s error, if it fails: it decodes the pod template. *)
Variable BuildPod : list PodVolume → option text.

Definition pod_of (run : string) (vols : list PodVolume) : pod :=
  MkPod "Pending" (foldl (λ m v, <[volumeLabelPrefix +:+ pv_ClaimName v := pv_Name v]> m) {["app" := "unified-cd-agent"; labelRunID := run]} vols).

Definition removeOwnPod (run name : string) : prog unit :=
  Do (QPodsOf run) (λ a,
    match a with
    | APods l => if existsb (λ np, (np.1 =? name)%string) l then Do (QDelete name) (λ _, Ret tt) else Ret tt
    | _ => Ret tt
    end).

(** How the creation of the pod ended. *)
Inductive creation := Made | Broken (e : text) | Existing (e : text) | TimedOut (e : text).

Definition buildAndCreate (run : string) (vols : list PodVolume) : prog creation :=
  match BuildPod vols with
  | Some e => Ret (Broken ([Lit "k8s: failed to build Pod spec: "] ++ e))
  | None =>
      Do (QCreate (podName run) (pod_of run vols)) (λ a,
        match a with
        | AOk => Ret Made
        | _ =>
            let e := [Lit "k8s: failed to create Pod: "] ++ error_of a in
            let r := match a with AExists _ => Existing e | ATimeout _ => TimedOut e | _ => Broken e end in
            match vols with [] => Ret r | _ => _ ← removeOwnPod run (podName run); Ret r end
        end)
  end.

(** Choosing and locking, setting aside what another replica holds. *)
Inductive choice := Chose (chosen taken : list string) | NoChoice (r : outcome).

Fixpoint choose_and_lock (fuel : nat) (sets : list (list string)) (held gated contended : gset string) (run : string) : prog choice :=
  match fuel with
  | 0 => Ret (NoChoice OutOfFuel)
  | S fuel' =>
      let free n := negb (bool_decide (n ∈ contended))
                    && ((from_option vc_Mode "" (declared !! n) =? VolumeModeShared)%string || negb (bool_decide (n ∈ held))) in
      match ChooseVolumesAvoiding sets free (λ n, bool_decide (n ∈ gated)) with
      | (None, true) => Ret (NoChoice Abandoned)
      | (None, false) => Ret (NoChoice Waits)
      | (Some chosen, _) =>
          r ← lockExclusive chosen run;
          match r with
          | LockError _ => Ret (NoChoice Waits)
          | Contended n => choose_and_lock fuel' sets held gated ({[n]} ∪ contended) run
          | Locked taken => Ret (Chose chosen taken)
          end
      end
  end.

(** After the pod was created. *)
Definition confirm_pod (mounts : list PodVolume) (paths : gmap string string) (run : string) (chosen taken : list string) : prog outcome :=
  l ← confirmLock chosen run;
  match l with
  | (None, None) => Ret (Created (MkCreated chosen taken mounts paths (existsb (λ v, (pv_MountPath v =? ".")%string) mounts)))
  | (lost, _) =>
      Do (QDelete (podName run)) (λ a,
        _ ← release_locks taken run;
        Ret (match a with
             | AFailed e => Fails ([Lit "k8s: lost the lock on volume "; Quo (default "" lost); Lit (" while creating the pod, and could not delete the pod " +:+ podName run +:+ ": ")] ++ e)
             | _ => Waits end))
  end.

Definition tryCreateWithVolumes (mounts : list VolumeMount) (sets : list (list string)) (gated : gset string) (run : string) : prog outcome :=
  Do QPods (λ a,
    match a with
    | APods l =>
        c ← choose_and_lock (S (length (names_of sets))) sets (heldVolumes (map snd l) agentName) gated ∅ run;
        match c with
        | NoChoice r => Ret r
        | Chose chosen taken =>
            match planPodVolumes agentName declared (narrowed mounts chosen) workspace with
            | Err e => _ ← release_locks taken run; Ret (Fails ([Lit "k8s: "] ++ e))
            | Ok (vols, paths) =>
                m ← buildAndCreate run vols;
                match m with
                | Broken e => _ ← release_locks taken run; Ret (Fails e)
                | Existing e => _ ← release_locks taken run; Ret (Retry false e)
                | TimedOut e => _ ← release_locks taken run; Ret (Retry true e)
                | Made => confirm_pod vols paths run chosen taken
                end
            end
        end
    | _ => Ret Waits
    end).

(** One round of [createClaimPod]: without volumes there is nothing to wait for. *)
Definition create_attempt (mounts : list VolumeMount) (sets : list (list string)) (gated : gset string) (run : string) : prog outcome :=
  match mounts with
  | [] =>
      m ← buildAndCreate run [];
      Ret (match m with Made => Created (MkCreated [] [] [] ∅ false) | Broken e | Existing e | TimedOut e => Fails e end)
  | _ => tryCreateWithVolumes mounts sets gated run
  end.

(** The end of a run. *)
Definition teardown (run : string) (taken : list string) : prog unit := Do (QDelete (podName run)) (λ _, release_locks taken run).
End lock.

(** [createClaimPod] between two attempts: how many creations failed in a row, or how
    it ends. *)
Definition maxCreateAttempts : nat := 5.
Inductive verdict := Again (failedCreates : nat) | Done (r : created) | GiveUp (e : text).

Definition after_attempt (failedCreates : nat) (r : outcome) : verdict :=
  match r with
  | Created c => Done c
  | Retry _ cause =>
      if (maxCreateAttempts <=? S failedCreates) then
        GiveUp ([Lit ("k8s: creating the run's pod did not complete in " +:+ pretty (N.of_nat (S failedCreates))
          +:+ " consecutive attempts, with no wait for a busy volume between them; giving up. Last attempt: ")] ++ cause)
      else Again (S failedCreates)
  | Waits | Abandoned => Again 0
  | Fails e => GiveUp e
  | OutOfFuel => GiveUp []
  end.

(** ** Replicas *)

(** Where a run is: in an attempt to create its pod, told to proceed with it, or
    tearing it down. *)
Inductive thread := Trying (p : prog outcome) | Proceeds (r : created) | Ending (p : prog unit).
Record k8s := MkK8s { k_cluster : cluster; k_threads : gmap string thread }.

Section replicas.
Variables (grace : Z) (declared : gmap string VolumeConfig) (agentName : string).

(** A replica may stop anywhere; the lock and the pod stay behind. *)
Inductive kstep : k8s → k8s → Prop :=
| ks_try c ts run workspace BuildPod mounts sets gated :
    ts !! run = None → run ≠ "" → (∃ i seen, claim_sets declared workspace i seen mounts = Ok sets) →
    kstep (MkK8s c ts) (MkK8s c (<[run := Trying (create_attempt grace agentName declared workspace BuildPod mounts sets gated run)]> ts))
| ks_request c ts run q k c' a :
    ts !! run = Some (Trying (Programs.Do q k)) → serve run c q c' a → kstep (MkK8s c ts) (MkK8s c' (<[run := Trying (k a)]> ts))
| ks_created c ts run r : ts !! run = Some (Trying (Programs.Ret (Created r))) → kstep (MkK8s c ts) (MkK8s c (<[run := Proceeds r]> ts))
| ks_not_created c ts run r : ts !! run = Some (Trying (Programs.Ret r)) → (∀ x, r ≠ Created x) → kstep (MkK8s c ts) (MkK8s c (delete run ts))
| ks_end c ts run r : ts !! run = Some (Proceeds r) → kstep (MkK8s c ts) (MkK8s c (<[run := Ending (teardown agentName run (cr_taken r))]> ts))
| ks_end_request c ts run q k c' a :
    ts !! run = Some (Ending (Programs.Do q k)) → serve run c q c' a → kstep (MkK8s c ts) (MkK8s c' (<[run := Ending (k a)]> ts))
| ks_ended c ts run x : ts !! run = Some (Ending (Programs.Ret x)) → kstep (MkK8s c ts) (MkK8s c (delete run ts))
| ks_crash c ts run : kstep (MkK8s c ts) (MkK8s c (delete run ts))
| ks_elsewhere c ts c' : elsewhere c c' → kstep (MkK8s c ts) (MkK8s c' ts).

Inductive kreach : k8s → Prop :=
| kr_start vs : kreach (MkK8s (MkCluster vs ∅ ∅ ∅) ∅)
| kr_step s s' : kreach s → kstep s s' → kreach s'.
End replicas.
