(* ===== verification/K8sLocks.v ===== *)
(** * Exclusion across replicas

    Rely and guarantee for the programs of [K8sVolumes]: a run may write a volume's
    PVC only when no other run's confirmed lock would be lost, and everything else
    only moves resource versions forward.  Each program is judged alone ([safe]); the
    invariant of the replicas puts them together. *)

From S2P Require Import Prelude GoStrings GoPath DslTypes DslValidate Programs VolumeChoice Volumes VolumePlaces VolumeMounts K8sVolumes.
From stdpp Require Import options.

Definition version (c : cluster) (v : string) : N := from_option pvc_version 0%N (pvcs c !! v).

(** A confirmed lock names its holder, whose pod is there. *)
Definition cluster_ok (c : cluster) : Prop :=
  ∀ v r, confirmed c !! v = Some r → r ≠ "" ∧ live c r ∧ ∃ p, pvcs c !! v = Some p ∧ pvc_holder p = r.

(** What [run] guarantees of each request, and what it relies on between two. *)
Definition respects (run : string) (c c' : cluster) : Prop := ∀ v r, r ≠ run → confirmed c !! v = Some r → confirmed c' !! v = Some r.

Record rely (run : string) (c c' : cluster) : Prop := {
  rl_version : ∀ v, (version c v ≤ version c' v)%N;
  rl_confirmed : ∀ v r, confirmed c' !! v = Some r → confirmed c !! v = Some r ∨ (version c v < version c' v)%N;
  rl_mine : ∀ v, confirmed c !! v = Some run → run ∉ lost c' → confirmed c' !! v = Some run;
  rl_lost : run ∈ lost c → run ∈ lost c';
  rl_live : live c run → live c' run ∨ run ∈ lost c'
}.

#[export] Instance rely_preorder run : PreOrder (rely run).
Proof.
  split; [intros c; constructor; auto; lia|]. intros a b c [V1 C1 M1 L1 P1] [V2 C2 M2 L2 P2]. constructor.
  - intros v. specialize (V1 v). specialize (V2 v). lia.
  - intros v r H. specialize (V1 v). specialize (V2 v). destruct (C2 v r H) as [H1|]; [|right; lia]. destruct (C1 v r H1) as [|]; [by left|right; lia].
  - intros v H Hl. apply M2; [|done]. apply M1; [done|]. intros Hb. apply Hl. by apply L2.
  - auto.
  - intros H. destruct (P1 H) as [Hb|Hb]; [by apply P2|right; by apply L2].
Qed.

(** ** Single requests *)

Lemma elsewhere_rely run c c' : cluster_ok c → elsewhere c c' → rely run c c'.
Proof.
  intros Hok (Hp & Hn & Hl & Hlive & Hc). assert (∀ v, (version c v ≤ version c' v)%N) as Hv.
  { intros v. unfold version. destruct (pvcs c !! v) as [p|] eqn:E; [|cbn; lia]. destruct (Hp v p E) as (n & -> & Hn'). done. }
  constructor; [done|..].
  - intros v r. rewrite Hc. intros [H _]%map_lookup_filter_Some. by left.
  - intros v H Hno. rewrite Hc. apply map_lookup_filter_Some. split; [done|]. cbn. apply Hok in H as (_ & H & _). by destruct (Hlive run H).
  - intros H. by apply Hl.
  - apply Hlive.
Qed.

Lemma elsewhere_ok c c' : cluster_ok c → elsewhere c c' → cluster_ok c'.
Proof.
  intros Hok (Hp & _ & _ & _ & Hc) v r. rewrite Hc. intros [H Hlive]%map_lookup_filter_Some. cbn in Hlive. apply Hok in H as (Hne & _ & p & Hv & <-).
  split; [done|]. split; [done|]. destruct (Hp v p Hv) as (n & Hn & _). by eexists.
Qed.

Lemma live_pods c c' r : pods c' = pods c → live c' r ↔ live c r.
Proof. intros H. unfold live. by rewrite H. Qed.

Lemma version_write c v p h t w : pvcs c !! v = Some p → version (write_pvc c v p h t) w = if decide (w = v) then N.succ (version c v) else version c w.
Proof. intros H. unfold version. cbn. case_decide; subst; simplify_map_eq; by rewrite ?H. Qed.

Lemma confirmed_write c v p h t w :
  confirmed (write_pvc c v p h t) !! w = if decide (w = v) then (if decide (h ≠ "" ∧ live c h) then Some h else None) else confirmed c !! w.
Proof. cbn. destruct (decide (h ≠ "" ∧ live c h)); case_decide; subst; simplify_map_eq; done. Qed.

Lemma live_add c run name p r : pods c !! name = None → live c r → live (add_pod c run name p) r.
Proof. intros Hn (q & Hq & H). exists q. cbn. rewrite lookup_insert_ne; [done|]. intros ->. by rewrite Hn in Hq. Qed.

Lemma serve_ok run c q c' a : serve run c q c' a → cluster_ok c → cluster_ok c'.
Proof.
  destruct 1 as [| | | | | |v p h t a Hp Ha| | |name p a Hn Ha| | | |]; try done; intros Hok v' r'.
  - rewrite confirmed_write. case_decide as Hv; [subst|].
    + case_decide as Hh; [|done]. destruct Hh as [Hne Hl]. intros [= <-]. split; [done|]. split; [by apply (live_pods c)|]. eexists. cbn. by rewrite lookup_insert_eq.
    + intros (Hne & Hl & p' & Hp' & Hh)%Hok. split; [done|]. split; [by apply (live_pods c)|]. exists p'. cbn. by rewrite lookup_insert_ne.
  - cbn. intros (Hne & Hl & p' & Hp' & Hh)%Hok. split; [done|]. split; [by apply live_add|]. by exists p'.
Qed.

(** A request of one run that respects the others is within what they rely on. *)
Lemma serve_rely run other c q c' a : serve run c q c' a → respects run c c' → cluster_ok c → other ≠ run → rely other c c'.
Proof.
  destruct 1 as [| | | | | |v p h t a Hp Ha| | |name p a Hn Ha| | | |]; intros Hres Hok Hne; try reflexivity.
  - constructor.
    + intros w. rewrite (version_write c v p) by done. case_decide; subst; lia.
    + intros w r. rewrite confirmed_write, (version_write c v p) by done. case_decide as Hw; [subst; right; lia|by left].
    + intros w Hw _. by apply Hres.
    + done.
    + intros Hl. left. by apply (live_pods c).
  - constructor; cbn; try done.
    + by left.
    + set_solver.
    + intros Hl. left. by apply live_add.
Qed.

(** ** Programs *)

Section safe.
Context (run : string).

Fixpoint safe {A} (p : prog A) (Q : A → cluster → Prop) (c : cluster) : Prop :=
  match p with
  | Programs.Ret a => Q a c
  | Programs.Do q k => ∀ c1, rely run c c1 → cluster_ok c1 → ∀ c2 a, serve run c1 q c2 a → respects run c1 c2 ∧ safe (k a) Q c2
  end.

Lemma safe_bind {A B} (p : prog A) (f : A → prog B) Q c : safe p (λ a c, safe (f a) Q c) c → safe (p ≫= f) Q c.
Proof.
  unfold mbind, prog_bind. revert c. induction p as [a|q k IH]; intros c; cbn; [done|]. intros H c1 Hr Hok c2 a Hs.
  destruct (H c1 Hr Hok c2 a Hs) as [H1 H2]. split; [done|]. by apply IH.
Qed.

Lemma safe_stable {A} (p : prog A) (Q : A → cluster → Prop) c c' :
  (∀ a c c', rely run c c' → Q a c → Q a c') → rely run c c' → safe p Q c → safe p Q c'.
Proof. intros HQ Hr. destruct p as [a|q k]; cbn; [by apply HQ|]. intros H c1 Hr1. apply H. by transitivity c'. Qed.

Lemma respects_refl c : respects run c c.
Proof. by intros v r. Qed.

(** A request that leaves the confirmed locks alone. *)
Lemma safe_do {A} q (k : answer → prog A) Q c :
  (∀ v n h t, q ≠ QUpdate v n h t) → (∀ c1 c2 a, rely run c c1 → cluster_ok c1 → serve run c1 q c2 a → safe (k a) Q c2) → safe (Programs.Do q k) Q c.
Proof.
  intros Hq H c1 Hr Hok c2 a Hs. split; [|by eapply H]. destruct Hs as [| | | | | |v p h t a Hp Ha| | | | | | |]; try apply respects_refl.
  - by destruct (Hq v (pvc_version p) h t).
  - by intros v r.
Qed.

(** The compare and swap: what was read of a PVC is enough to know that a write at
    the same version takes no confirmed lock of another run. *)
Lemma safe_update {A} c0 v p h t (k : answer → prog A) Q c :
  pvcs c0 !! v = Some p → rely run c0 c → (∀ r, r ≠ run → version c v = pvc_version p → confirmed c !! v ≠ Some r) →
  (∀ c1, rely run c c1 → cluster_ok c1 → (∀ a, a ≠ AOk → safe (k a) Q c1) ∧
     (∀ p1 a, pvcs c1 !! v = Some p1 → safe (k a) Q (write_pvc c1 v p1 h t))) →
  safe (Programs.Do (QUpdate v (pvc_version p) h t) k) Q c.
Proof.
  intros Hp H0 Hfree H c1 Hr Hok c2 a Hs. destruct (H c1 Hr Hok) as [H1 H2].
  inversion Hs as [| | | | | |v' p1 h' t' a' Hp1 Ha| | | | | | |]; subst; try (split; [apply respects_refl|by apply H1]).
  split; [|by apply H2]. assert (version c1 v = pvc_version p) as Hv by (unfold version; rewrite Hp1; cbn; congruence).
  intros w r Hne Hc. rewrite confirmed_write. case_decide as Hw; [|done]. subst w. exfalso.
  pose proof (rl_version _ _ _ H0 v) as V0. pose proof (rl_version _ _ _ Hr v) as V1. unfold version in V0 at 1. rewrite Hp in V0. cbn in V0.
  destruct (rl_confirmed _ _ _ Hr v r Hc) as [Hc0|]; [|lia]. apply (Hfree r Hne); [lia|done].
Qed.

(** Reading a PVC held by nobody or by the run itself. *)
Lemma read_mine c0 c v p r :
  cluster_ok c0 → pvcs c0 !! v = Some p → rely run c0 c → pvc_holder p = "" ∨ pvc_holder p = run → r ≠ run → version c v = pvc_version p → confirmed c !! v ≠ Some r.
Proof.
  intros Hok Hp Hr Hh Hne Hv Hc. destruct (rl_confirmed _ _ _ Hr v r Hc) as [H|H].
  - apply Hok in H as (Hr0 & _ & p' & Hp' & Hh'). rewrite Hp in Hp'. injection Hp' as <-. destruct Hh as [Hh|Hh]; congruence.
  - unfold version in H at 1. rewrite Hp in H. cbn in H. lia.
Qed.
End safe.

Section programs.
Context (grace : Z) (declared : gmap string VolumeConfig) (agentName workspace : string) (BuildPod : list PodVolume → option text) (run : string).
Hypothesis run_named : run ≠ "".
#[local] Set Default Proof Using "Type*".

Lemma write_lock_safe again c0 v p Q c :
  pvcs c0 !! v = Some p → rely run c0 c → (∀ c', rely run c c' → ∀ r, r ≠ run → version c' v = pvc_version p → confirmed c' !! v ≠ Some r) →
  (∀ c, safe run again Q c) → (∀ r c, Q r c) → safe run (write_lock agentName again v run p) Q c.
Proof.
  intros Hp H0 Hfree Hagain HQ. apply safe_do; [done|]. intros c1 c2 a Hr Hok Hs. inversion Hs; subst; try apply HQ.
  eapply safe_update; [exact Hp|by transitivity c|by apply Hfree|]. intros c3 Hr3 Hok3. split.
  - intros [] Ha; try done; apply HQ.
  - intros p1 [] Hp1; try done; apply HQ.
Qed.

(** A lock seen stale with its holder's pod gone is no confirmed lock. *)
Lemma stale_free c0 c1 c v p r :
  cluster_ok c0 → pvcs c0 !! v = Some p → rely run c0 c1 → cluster_ok c1 → ¬ live c1 (pvc_holder p) → rely run c1 c →
  version c v = pvc_version p → confirmed c !! v ≠ Some r.
Proof.
  intros Hok Hp H01 Hok1 Hdead H1 Hv Hc. pose proof (rl_version _ _ _ H01 v) as V0. pose proof (rl_version _ _ _ H1 v) as V1. unfold version in V0 at 1. rewrite Hp in V0. cbn in V0.
  destruct (rl_confirmed _ _ _ H1 v r Hc) as [Hc1|]; [|lia]. destruct (rl_confirmed _ _ _ H01 v r Hc1) as [Hc0|H]; [|unfold version in H at 1; rewrite Hp in H; cbn in H; lia].
  apply Hok in Hc0 as (_ & _ & p' & Hp' & Hh). rewrite Hp in Hp'. injection Hp' as <-. subst r. by apply Hok1 in Hc1 as (_ & ? & _).
Qed.

Lemma no_live_pod c r : existsb (λ np, negb (finished np.2)) (of_run r (pods c)) = false → ¬ live c r.
Proof.
  intros He (p & Hp & Hl & Hf). apply (existsb_false_elem _ _) with (x := (podName r, p)) in He; [cbn in He; by rewrite Hf in He|].
  unfold of_run. apply list_elem_of_filter. split; [done|]. by apply elem_of_map_to_list.
Qed.

Lemma lock_safe n v Q c : (∀ r c, Q r c) → safe run (lock_attempts grace agentName n v run) Q c.
Proof.
  intros HQ. revert c. induction n as [|n IH]; intros c; [apply HQ|]. apply safe_do; [done|]. intros c1 c2 a Hr Hok Hs.
  inversion Hs as [| | | |v' p Hp| | | | | | | | |]; subst; try apply HQ. cbn zeta. destruct (negb _ && negb _) eqn:Eh.
  - apply safe_bind. apply safe_do; [done|]. intros c3 c4 a Hr3 Hok3 Hs3. inversion Hs3; subst; try apply HQ. destruct (pvc_at p) as [t|]; [|apply HQ].
    destruct (_ <? grace)%Z; [apply HQ|]. apply safe_do; [done|]. intros c5 c6 a Hr5 Hok5 Hs5.
    inversion Hs5; subst; try apply HQ. cbn. destruct (existsb _ (of_run _ _)) eqn:E; [apply HQ|].
    assert (rely run c2 c6) as H26 by (by transitivity c4).
    eapply write_lock_safe; [exact Hp|done| |done|done]. intros c7 H7 r _ Hv. by eapply stale_free; [exact Hok|exact Hp|exact H26|exact Hok5|by apply no_live_pod|exact H7|].
  - destruct (String.eqb_spec (pvc_holder p) run) as [Heq|Hne]; [apply HQ|].
    assert (pvc_holder p = "") as Hnone by (destruct (String.eqb_spec (pvc_holder p) ""); done).
    eapply write_lock_safe; [exact Hp|done| |done|done]. intros c3 H3 r Hr' Hv. eapply read_mine; [exact Hok|exact Hp|exact H3|by left|done|done].
Qed.

Lemma unlock_safe n v Q c : (∀ r c, Q r c) → safe run (unlock_attempts agentName n v run) Q c.
Proof.
  intros HQ. revert c. induction n as [|n IH]; intros c; [apply HQ|]. apply safe_do; [done|]. intros c1 c2 a Hr Hok Hs.
  inversion Hs as [| | | |v' p Hp| | | | | | | | |]; subst; try apply HQ. destruct (String.eqb_spec (pvc_holder p) run) as [Heq|Hne]; cbn [negb]; [|apply HQ].
  eapply safe_update; [exact Hp|reflexivity| |].
  - intros r Hr' Hv. eapply read_mine; [exact Hok|exact Hp|reflexivity|by right|done|done].
  - intros c3 _ _. split; [intros [] _|intros p1 [] _]; try apply IH; apply HQ.
Qed.

Lemma release_safe taken Q c : (∀ r c, Q r c) → safe run (release_locks agentName taken run) Q c.
Proof. intros HQ. revert c. induction taken as [|n taken IH]; intros c; [apply HQ|]. apply safe_bind, unlock_safe. intros r c'. apply IH. Qed.

Lemma lock_all_safe names taken Q c :
  (∀ r c, (∀ n, r = Contended n → n ∈ names) → Q r c) → safe run (lock_all grace agentName names taken run) Q c.
Proof.
  revert taken Q c. induction names as [|n names IH]; intros taken Q c HQ; [by apply HQ|]. apply safe_bind, lock_safe. intros [[]|e] c1.
  - apply IH. intros r c2 Hr. apply HQ. intros x Hx. right. by apply Hr.
  - apply safe_bind, release_safe. intros _ c2. apply HQ. intros x [= <-]. left.
  - apply safe_bind, release_safe. intros _ c2. by apply HQ.
Qed.

(** ** Confirmation *)

(** The run's pod was created and is there, unless it was lost. *)
Definition podded (c : cluster) : Prop := live c run ∨ run ∈ lost c.
Definition holds_lock (v : string) (c : cluster) : Prop := confirmed c !! v = Some run ∨ run ∈ lost c.

Lemma podded_stable c c' : rely run c c' → podded c → podded c'.
Proof. intros R [H|H]; [by apply (rl_live _ _ _ R)|right; by apply (rl_lost _ _ _ R)]. Qed.

Lemma holds_stable v c c' : rely run c c' → holds_lock v c → holds_lock v c'.
Proof. intros R [H|H]; [|right; by apply (rl_lost _ _ _ R)]. destruct (decide (run ∈ lost c')); [by right|left; by apply (rl_mine _ _ _ R)]. Qed.

Lemma confirm_safe n v (done_ : list string) Q c :
  v ∉ done_ → podded c → (∀ w, w ∈ done_ → holds_lock w c) →
  (∀ r c, podded c → (∀ w, w ∈ done_ → holds_lock w c) → (r = Ok true → holds_lock v c) → Q r c) → safe run (confirm_attempts agentName n v run) Q c.
Proof.
  intros Hv Hpod Hdone HQ. revert c Hpod Hdone. induction n as [|n IH]; intros c Hpod Hdone; [by apply HQ|].
  assert (∀ c', rely run c c' → podded c' ∧ ∀ w, w ∈ done_ → holds_lock w c') as Hst.
  { intros c' R. split; [by eapply podded_stable|]. intros w Hw. eapply holds_stable; [done|by apply Hdone]. }
  apply safe_do; [done|]. intros c1 c2 a Hr Hok Hs. inversion Hs as [| | | |v' p Hp| | | | | | | | |]; subst; try (by apply HQ; [apply Hst|apply Hst|]).
  destruct (String.eqb_spec (pvc_holder p) run) as [Heq|Hne]; cbn [negb]; [|by apply HQ; [apply Hst|apply Hst|]].
  apply safe_do; [done|]. intros c3 c4 a Hr3 Hok3 Hs3. assert (c4 = c3) as -> by (by inversion Hs3). assert (rely run c c3) as Hc3 by (by transitivity c2).
  destruct a as [|now| | | | | | |]; try (by apply HQ; [apply Hst|apply Hst|]).
  eapply safe_update; [exact Hp|exact Hr3| |].
  - intros r Hr' Hv'. eapply read_mine; [exact Hok|exact Hp|exact Hr3|by right|done|done].
  - intros c5 Hr5 Hok5. assert (rely run c c5) as Hc5 by (by transitivity c3). destruct (Hst c5 Hc5) as [Hpod5 Hd5]. split.
    + intros [] Ha; try done; try (by apply HQ). by apply IH.
    + intros p1 a Hp1. assert (podded (write_pvc c5 v p1 run (Some (stamp now)))) as Hpod6.
      { destruct Hpod5 as [H|H]; [left; by apply (live_pods c5)|by right]. }
      assert (∀ w, w ∈ done_ → holds_lock w (write_pvc c5 v p1 run (Some (stamp now)))) as Hd6.
      { intros w Hw. unfold holds_lock. rewrite confirmed_write, decide_False by (by intros ->). destruct (Hd5 w Hw); [by left|by right]. }
      destruct a; try (by apply HQ); [|by apply IH]. apply HQ; [done|done|]. intros _. destruct Hpod5 as [H|H]; [left|by right].
      by rewrite confirmed_write, decide_True, decide_True.
Qed.

Lemma confirm_all_safe l (done_ : list string) Q c :
  NoDup (l ++ done_) → podded c → (∀ w, w ∈ done_ → holds_lock w c) →
  (∀ r c, (r = (None, None) → ∀ w, w ∈ l ++ done_ → holds_lock w c) → Q r c) → safe run (confirm_all agentName l run) Q c.
Proof.
  revert done_ Q c. induction l as [|v l IH]; intros done_ Q c Hnd Hpod Hdone HQ; [by apply HQ|].
  cbn in Hnd. apply NoDup_cons in Hnd as [Hv Hnd]. apply safe_bind, (confirm_safe _ _ done_); [set_solver|done|done|].
  intros [[]|e] c1 Hpod1 Hd1 Hv1; [|by apply HQ|by apply HQ]. apply (IH (v :: done_)).
  - rewrite <-Permutation_middle. by apply NoDup_cons.
  - done.
  - intros w [->|Hw]%elem_of_cons; [by apply Hv1|by apply Hd1].
  - intros r c2 Hr. apply HQ. intros E w Hw. apply Hr; [done|]. set_solver.
Qed.

Lemma exclusive_of_NoDup chosen : NoDup (exclusive_of declared chosen).
Proof. apply NoDup_filter, NoDup_remove_dups. Qed.

Lemma elem_of_exclusive n chosen : n ∈ exclusive_of declared chosen ↔ is_exclusive declared n = true ∧ n ∈ chosen.
Proof. unfold exclusive_of. by rewrite list_elem_of_filter, elem_of_remove_dups. Qed.

(** ** An attempt *)

(** What an attempt promises: a run told to proceed holds its exclusive volumes. *)
Definition promised (r : outcome) (c : cluster) : Prop :=
  match r with
  | Created x => ∀ v, is_exclusive declared v = true → v ∈ cr_chosen x → holds_lock v c
  | OutOfFuel => False
  | _ => True
  end.

Lemma promised_stable r c c' : rely run c c' → promised r c → promised r c'.
Proof. intros R. destruct r; cbn; try done. intros H v Hex Hv. eapply holds_stable; [done|by apply H]. Qed.

Lemma confirm_pod_safe mounts paths chosen taken c : podded c → safe run (confirm_pod agentName declared mounts paths run chosen taken) promised c.
Proof.
  intros Hpod. apply safe_bind, (confirm_all_safe _ []).
  - rewrite app_nil_r. apply exclusive_of_NoDup.
  - done.
  - set_solver.
  - intros r c1 Hr. assert (∀ l, safe run (Programs.Do (QDelete (podName run)) (λ a, _ ← release_locks agentName taken run;
        Ret (match a with AFailed e => Fails ([Lit "k8s: lost the lock on volume "; Quo (default "" l); Lit (" while creating the pod, and could not delete the pod " +:+ podName run +:+ ": ")] ++ e) | _ => Waits end))) promised c1) as Hdel.
    { intros l. apply safe_do; [done|]. intros c2 c3 a _ _ _. apply safe_bind, release_safe. intros _ c4. by destruct a. }
    destruct r as [[l|] [e|]]; [apply Hdel..|]. intros v Hex Hv. apply Hr; [done|]. rewrite app_nil_r. by apply elem_of_exclusive.
Qed.

Lemma pod_of_live c c1 name vols a p :
  serve run c1 (QCreate name p) c a → name = podName run → p = pod_of run vols → a = AOk → podded c.
Proof.
  intros Hs -> -> ->. inversion Hs as [| | | | | | | | |name p a Hn Ha| | | |]; subst. left. exists (pod_of run vols). cbn. rewrite lookup_insert_eq. split; [done|]. split; [|done].
  clear. assert (∀ m : gmap string string, m !! labelRunID = Some run →
    foldl (λ m v, <[volumeLabelPrefix +:+ pv_ClaimName v := pv_Name v]> m) m vols !! labelRunID = Some run) as H; [|by apply H].
  induction vols as [|v vols IH]; intros m Hm; [done|]. cbn. apply IH. by rewrite lookup_insert_ne.
Qed.

Lemma create_safe vols Q c :
  (∀ r c, (r = Made → podded c) → Q r c) → safe run (buildAndCreate BuildPod run vols) Q c.
Proof.
  intros HQ. unfold buildAndCreate. destruct (BuildPod vols); [by apply HQ|]. apply safe_do; [done|]. intros c1 c2 a Hr Hok Hs.
  assert (∀ r, r ≠ Made → safe run (match vols with [] => Ret r | _ => _ ← removeOwnPod run (podName run); Ret r end) Q c2) as Hrest.
  { intros r Hr'. destruct vols as [|v vols]; [by apply HQ|]. apply safe_bind. apply safe_do; [done|]. intros c3 c4 a' _ _ _. destruct a'; try (by apply HQ).
    destruct (existsb _ l); [|by apply HQ]. apply safe_do; [done|]. intros c5 c6 a' _ _ _. by apply HQ. }
  destruct a; try (by apply Hrest). apply HQ. intros _. by eapply pod_of_live.
Qed.

(** Each pass of the choice sets aside a volume it had not set aside before. *)
Lemma choose_safe fuel sets held gated contended Q c :
  nonempty sets → (∀ n, n ∈ contended → n ∈ names_of sets) → length (names_of sets) < fuel + size contended →
  (∀ r c, r ≠ NoChoice OutOfFuel → (∀ x, r ≠ NoChoice (Created x)) → Q r c) →
  safe run (choose_and_lock grace agentName declared fuel sets held gated contended run) Q c.
Proof.
  intros Hne. revert contended c. induction fuel as [|fuel IH]; intros contended c Hin Hlen HQ.
  { exfalso. assert (size contended ≤ length (names_of sets)); [|lia]. transitivity (size (list_to_set (names_of sets) : gset string)); [apply subseteq_size; set_solver|].
    rewrite size_list_to_set; [done|]. apply NoDup_remove_dups. }
  cbn [choose_and_lock]. set (free := λ n, _). destruct (avoiding_spec sets free (λ n, bool_decide (n ∈ gated)) Hne) as [Hadm _].
  destruct (ChooseVolumesAvoiding sets free _) as [[chosen|] [|]] eqn:E; try (by apply HQ).
  all: specialize (Hadm _ _ eq_refl); apply admissible_free in Hadm; [|done].
  all: apply safe_bind, lock_all_safe; intros [taken|n|e] c1 Hr; try (by apply HQ).
  all: assert (n ∈ chosen) as Hn by (specialize (Hr n eq_refl); apply elem_of_SortStrings, elem_of_exclusive in Hr; tauto).
  all: apply list_elem_of_lookup in Hn as [i Hi]; destruct (Forall2_lookup_r _ _ _ _ _ Hadm Hi) as (ns & Hns & Hnn & Hf).
  all: assert (n ∉ contended) as Hnew by (intros H; unfold free in Hf; by rewrite bool_decide_true in Hf).
  all: apply IH; [|rewrite size_union, size_singleton by set_solver; lia|done].
  all: intros x [->%elem_of_singleton|Hx]%elem_of_union; [|by apply Hin]; unfold names_of; apply elem_of_remove_dups, list_elem_of_In, in_concat.
  all: exists ns; split; [by eapply list_elem_of_In, list_elem_of_lookup_2|by apply list_elem_of_In].
Qed.

Lemma try_safe mounts sets gated c : nonempty sets → safe run (tryCreateWithVolumes grace agentName declared workspace BuildPod mounts sets gated run) promised c.
Proof.
  intros Hne. apply safe_do; [done|]. intros c1 c2 a _ _ _. destruct a; try done.
  apply safe_bind, choose_safe; [done|set_solver|rewrite size_empty; lia|]. intros [chosen taken|r] c3 Hr1 Hr2; [|by destruct r; try done; destruct (Hr2 r)].
  destruct (planPodVolumes _ _ _ _) as [[vols paths]|e]; [|by apply safe_bind, release_safe].
  apply safe_bind, create_safe. intros [|e| |] c4 Hpod; [by apply confirm_pod_safe, Hpod|by apply safe_bind, release_safe..].
Qed.

Lemma attempt_safe mounts sets gated c : nonempty sets → safe run (create_attempt grace agentName declared workspace BuildPod mounts sets gated run) promised c.
Proof.
  intros Hne. destruct mounts as [|v mounts]; [|by apply try_safe]. apply safe_bind, create_safe. intros r c1 _. destruct r; [|done..].
  cbn. intros v _ Hv. by apply not_elem_of_nil in Hv.
Qed.

Lemma teardown_safe taken c : safe run (teardown agentName run taken) (λ _ _, True) c.
Proof. apply safe_do; [done|]. intros c1 c2 a _ _ _. by apply release_safe. Qed.
End programs.

(** ** The replicas together *)

Section replicas.
Context (grace : Z) (declared : gmap string VolumeConfig) (agentName : string).

Lemma claim_sets_nonempty workspace i seen mounts sets : claim_sets declared workspace i seen mounts = Ok sets → nonempty sets.
Proof.
  revert i seen sets. induction mounts as [|v l IH]; intros i seen sets; cbn; [intros [= <-]; by constructor|].
  destruct (uniqueMountPath seen i v workspace) as [um|]; cbn; [|done].
  case_bool_decide as Hset; cbn; [done|]. destruct (claim_sets declared workspace (S i) um.1 l) as [rest|] eqn:E; cbn; [|done].
  intros [= <-]. constructor; [done|by eapply IH].
Qed.

Definition thread_ok (run : string) (t : thread) (c : cluster) : Prop :=
  run ≠ "" ∧ match t with
             | Trying p => safe run p (promised declared run) c
             | Proceeds x => promised declared run (Created x) c
             | Ending p => safe run p (λ _ _, True) c
             end.

Record kinv (s : k8s) : Prop := {
  ki_cluster : cluster_ok (k_cluster s);
  ki_threads : ∀ run t, k_threads s !! run = Some t → thread_ok run t (k_cluster s)
}.

Lemma thread_stable run t c c' : rely run c c' → thread_ok run t c → thread_ok run t c'.
Proof.
  intros R [Hne H]. split; [done|]. destruct t as [p|x|p]; [eapply safe_stable|eapply promised_stable|eapply safe_stable]; try done.
  intros. by eapply promised_stable.
Qed.

(** One thread moves; the cluster stays, or moves within what the others rely on. *)
Lemma kinv_move c c' (ts ts' : gmap string thread) run :
  kinv (MkK8s c ts) → cluster_ok c' → (∀ other, other ≠ run → rely other c c') →
  (∀ t, ts' !! run = Some t → thread_ok run t c') → (∀ other, other ≠ run → ts' !! other = ts !! other) → kinv (MkK8s c' ts').
Proof.
  intros [Hok Hts] Hok' Hr Hrun Hother. split; [done|]. cbn in *. intros r t Ht. destruct (decide (r = run)) as [->|Hne]; [by apply Hrun|].
  rewrite Hother in Ht by done. eapply thread_stable; [by apply Hr|by apply Hts].
Qed.

Lemma kinv_set c ts run t : kinv (MkK8s c ts) → thread_ok run t c → kinv (MkK8s c (<[run := t]> ts)).
Proof.
  intros Hinv Ht. eapply (kinv_move c); [done|apply Hinv|done|..]; [intros t'; rewrite lookup_insert_eq; by intros [= <-]|intros other Hne; by rewrite lookup_insert_ne].
Qed.

Lemma kinv_delete c ts run : kinv (MkK8s c ts) → kinv (MkK8s c (delete run ts)).
Proof.
  intros Hinv. eapply (kinv_move c c _ _ run); [done|apply Hinv|done|..]; [intros t'; by rewrite lookup_delete_eq|intros other Hne; by rewrite lookup_delete_ne].
Qed.

Lemma kinv_request {A} c ts run q (k : answer → prog A) Q c' a (f : prog A → thread) :
  kinv (MkK8s c ts) → safe run (Programs.Do q k) Q c → serve run c q c' a → (safe run (k a) Q c' → thread_ok run (f (k a)) c') →
  kinv (MkK8s c' (<[run := f (k a)]> ts)).
Proof.
  intros Hinv Hsafe Hs Hf. pose proof (ki_cluster _ Hinv) as Hok. destruct (Hsafe c ltac:(reflexivity) Hok c' a Hs) as [Hres Hk].
  eapply (kinv_move c); [done|by eapply serve_ok| | |].
  - intros other Hne. by eapply serve_rely.
  - intros t. rewrite lookup_insert_eq. intros [= <-]. by apply Hf.
  - intros other Hne. by rewrite lookup_insert_ne.
Qed.

Lemma kinv_step s s' : kinv s → kstep grace declared agentName s s' → kinv s'.
Proof.
  intros Hinv Hs. destruct Hs as [c ts run ws bp mounts sets gated Hnone Hne (i & seen & Hsets)|c ts run q k c' a Ht Hs|c ts run r Ht|c ts run r Ht Hr|c ts run r Ht|c ts run q k c' a Ht Hs|c ts run x Ht|c ts run|c ts c' He];
    try (by apply kinv_delete); try (pose proof (ki_threads _ Hinv _ _ Ht) as [Hne H]).
  - apply kinv_set; [done|]. split; [done|]. apply attempt_safe; [done|by eapply claim_sets_nonempty].
  - by eapply (kinv_request c ts run q k _ c' a Trying).
  - by apply kinv_set.
  - apply kinv_set; [done|]. split; [done|]. by apply teardown_safe.
  - by eapply (kinv_request c ts run q k _ c' a Ending).
  - pose proof (ki_cluster _ Hinv) as Hok. cbn in Hok. split; [by eapply elsewhere_ok|]. cbn. intros run t Ht. eapply thread_stable; [by apply elsewhere_rely|]. by apply (ki_threads _ Hinv).
Qed.

Lemma kreach_inv s : kreach grace declared agentName s → kinv s.
Proof. induction 1 as [vs|s s' _ IH Hs]; [split; [by intros v r H|done]|by eapply kinv_step]. Qed.
End replicas.

(** An API server that answers at once. *)
Definition serve_now (run : string) (now : Z) (c : cluster) (q : request) : cluster * answer :=
  match q with
  | QPodsOf r => (c, APods (of_run r (pods c)))
  | QPods => (c, APods (map_to_list (pods c)))
  | QNow => (c, ANow now)
  | QGet v => (c, from_option APvc (ANotFound []) (pvcs c !! v))
  | QUpdate v n h t =>
      match pvcs c !! v with
      | None => (c, ANotFound [])
      | Some p => if (n =? pvc_version p)%N then (write_pvc c v p h t, AOk) else (c, AConflict)
      end
  | QCreate name p => match pods c !! name with None => (add_pod c run name p, AOk) | Some _ => (c, AExists []) end
  | QDelete name => (c, match pods c !! name with None => ANotFound [] | Some _ => AOk end)
  end.

Fixpoint drive {A} (n : nat) (run : string) (now : Z) (c : cluster) (p : prog A) : cluster * prog A :=
  match n, p with
  | S n', Programs.Do q k => let '(c, a) := serve_now run now c q in drive n' run now c (k a)
  | _, _ => (c, p)
  end.

Section driven.
Context (grace : Z) (declared : gmap string VolumeConfig) (agentName : string).

Lemma serve_now_sound run now c q : serve run c q (serve_now run now c q).1 (serve_now run now c q).2.
Proof.
  destruct q as [r| | |v|v n h t|name p|name]; cbn; try constructor.
  - destruct (pvcs c !! v) eqn:E; by constructor.
  - destruct (pvcs c !! v) as [p|] eqn:E; [|by constructor]. destruct (N.eqb_spec n (pvc_version p)) as [->|]; cbn; [apply sv_update; auto|by eapply sv_conflict].
  - destruct (pods c !! name) eqn:E; cbn; [apply sv_exists; by rewrite E|apply sv_create; auto].
  - destruct (pods c !! name) eqn:E; [apply sv_delete; by rewrite E|by apply sv_delete_none].
Qed.

Lemma insert_again (ts : gmap string thread) run t t' : <[run := t']> (<[run := t]> ts) = <[run := t']> ts.
Proof. apply insert_insert_eq. Qed.

Lemma drive_reach {A} (f : prog A → thread) n run now c ts p :
  (∀ c ts q k c' a, ts !! run = Some (f (Programs.Do q k)) → serve run c q c' a →
    kstep grace declared agentName (MkK8s c ts) (MkK8s c' (<[run := f (k a)]> ts))) →
  kreach grace declared agentName (MkK8s c (<[run := f p]> ts)) →
  kreach grace declared agentName (MkK8s (drive n run now c p).1 (<[run := f (drive n run now c p).2]> ts)).
Proof.
  intros Hf. revert c p. induction n as [|n IH]; intros c p H; [by destruct p|]. destruct p as [a|q k]; [done|]. cbn.
  pose proof (serve_now_sound run now c q) as Hs. destruct (serve_now run now c q) as [c' a]. apply IH.
  rewrite <-(insert_again ts run (f (Programs.Do q k))).
  eapply kr_step; [done|]. eapply Hf; [by apply lookup_insert_eq|done].
Qed.

(** An attempt that is driven to its end, by itself. *)
Lemma attempt_reach n run now c c' ts r p :
  kreach grace declared agentName (MkK8s c (<[run := Trying p]> ts)) → drive n run now c p = (c', Programs.Ret (Created r)) →
  kreach grace declared agentName (MkK8s c' (<[run := Proceeds r]> ts)).
Proof.
  intros H Hd. apply (drive_reach Trying n run now) in H; [|by intros; eapply ks_request]. rewrite Hd in H. cbn in H. eapply kr_step; [done|].
  rewrite <-(insert_again ts run (Trying (Programs.Ret (Created r))) (Proceeds r)). apply ks_created. by apply lookup_insert_eq.
Qed.

Lemma teardown_reach n run now c c' ts r :
  kreach grace declared agentName (MkK8s c (<[run := Proceeds r]> ts)) → drive n run now c (teardown agentName run (cr_taken r)) = (c', Programs.Ret tt) →
  ts !! run = None → kreach grace declared agentName (MkK8s c' ts).
Proof.
  intros H Hd Hts. assert (kreach grace declared agentName (MkK8s c (<[run := Ending (teardown agentName run (cr_taken r))]> ts))) as H1.
  { rewrite <-(insert_again ts run (Proceeds r)). eapply kr_step; [done|]. apply ks_end. by apply lookup_insert_eq. }
  apply (drive_reach Ending n run now) in H1; [|by intros; eapply ks_end_request]. rewrite Hd in H1. cbn in H1.
  rewrite <-(delete_insert_id ts run (Ending (Programs.Ret tt))) by done. eapply kr_step; [done|]. eapply ks_ended. by apply lookup_insert_eq.
Qed.
End driven.

(** A cluster with one exclusive volume, and two runs that want it. *)
Module Cache.
Definition declared : gmap string VolumeConfig := {["cache" := MkVolumeConfig "cache" VolumeModeExclusive "" "1Gi"]}.
Definition mounts : list VolumeMount := [MkVolumeMount ["cache"] "" "c"].
Definition attempt (run : string) : prog outcome :=
  create_attempt 0 "node" declared "/workspace" (λ _, None) mounts [["cache"]] ∅ run.
Definition cluster0 : cluster := MkCluster {["cache" := MkPvc 1 "" None]} ∅ ∅ ∅.
Definition got : created := MkCreated ["cache"] ["cache"] [MkPodVolume "cache" "node-cache" "c"] {["cache" := "/workspace/c"]} false.
Definition cluster1 : cluster := (drive 40 "a" 0 cluster0 (attempt "a")).1.

Lemma asked c ts run :
  kreach 0 declared "node" (MkK8s c ts) → ts !! run = None → run ≠ "" → kreach 0 declared "node" (MkK8s c (<[run := Trying (attempt run)]> ts)).
Proof. intros H Hts Hne. eapply kr_step; [done|]. apply ks_try; [done|done|]. exists 0, ∅. vm_compute. reflexivity. Qed.

Lemma holds : kreach 0 declared "node" (MkK8s cluster1 (<["a" := Proceeds got]> ∅)).
Proof.
  apply (attempt_reach 0 declared "node" 40 "a" 0 cluster0 cluster1 ∅ got (attempt "a")); [|vm_compute; reflexivity].
  apply (asked cluster0 ∅ "a"); [apply kr_start|done|done].
Qed.

(** Run "b" reads the pods, run "a" then takes the volume, ends and unlocks it, and
    "b" goes on with what it had read. *)
Definition late : cluster * prog outcome := drive 1 "b" 0 cluster0 (attempt "b").
Definition cluster2 : cluster := (drive 40 "a" 0 cluster1 (teardown "node" "a" ["cache"])).1.
Definition cluster3 : cluster := (drive 40 "b" 0 cluster2 late.2).1.

Lemma late_read : kreach 0 declared "node" (MkK8s cluster0 (<["b" := Trying late.2]> ∅)).
Proof.
  pose proof (drive_reach 0 declared "node" Trying 1 "b" 0 cluster0 ∅ (attempt "b")) as H. apply H; [by intros; eapply ks_request|].
  apply (asked cluster0 ∅ "b"); [apply kr_start|done|done].
Qed.

Lemma overtaken : kreach 0 declared "node" (MkK8s cluster3 (<["b" := Proceeds got]> ∅)).
Proof.
  apply (attempt_reach 0 declared "node" 40 "b" 0 cluster2 cluster3 ∅ got late.2); [|vm_compute; reflexivity].
  apply (teardown_reach 0 declared "node" 40 "a" 0 cluster1 cluster2 (<["b" := Trying late.2]> ∅) got); [|vm_compute; reflexivity|done].
  apply (attempt_reach 0 declared "node" 40 "a" 0 cluster0 cluster1 (<["b" := Trying late.2]> ∅) got (attempt "a")); [|vm_compute; reflexivity].
  apply asked; [apply late_read|done|done].
Qed.
End Cache.

(** The pod of an ended run may still be terminating, with the exclusive volume
    mounted, when another run proceeds with it: the pods were read before the lock was
    taken, and are not read again. *)
Theorem terminating_pod_overlap :
  ∃ s x p, kreach 0 Cache.declared "node" s ∧ k_threads s !! "b" = Some (Proceeds x) ∧ "cache" ∈ cr_chosen x ∧ ("b" ∉ lost (k_cluster s)) ∧
    pods (k_cluster s) !! podName "a" = Some p ∧ "cache" ∈ held_by_pod "node" p.
Proof.
  exists (MkK8s Cache.cluster3 (<["b" := Proceeds Cache.got]> ∅)), Cache.got, (pod_of "a" [MkPodVolume "cache" "node-cache" "c"]).
  split; [exact Cache.overtaken|]. split; [done|]. split; [by left|]. split; [|split; [vm_compute; reflexivity|]].
  - assert (lost Cache.cluster3 = ∅) as H by (vm_compute; reflexivity). cbn [k_cluster]. rewrite H. set_solver.
  - assert (held_by_pod "node" (pod_of "a" [MkPodVolume "cache" "node-cache" "c"]) = ["cache"]) as -> by (vm_compute; reflexivity). by left.
Qed.

(** C25: at most one run proceeds with an exclusive volume, whatever the replicas,
    their clocks and crashes, and whatever requests fail: if a run was told to proceed
    with such a volume and its pod did not disappear, then the volume's PVC names that
    run, its pod is there and not finished, and any other run that proceeds with the
    volume has lost its pod. *)
Theorem one_run_per_volume grace declared agentName s run x v :
  kreach grace declared agentName s →
  k_threads s !! run = Some (Proceeds x) → is_exclusive declared v = true → v ∈ cr_chosen x → run ∉ lost (k_cluster s) →
  (∃ p, pvcs (k_cluster s) !! v = Some p ∧ pvc_holder p = run) ∧ live (k_cluster s) run ∧
  (∀ other y, k_threads s !! other = Some (Proceeds y) → v ∈ cr_chosen y → other = run ∨ other ∈ lost (k_cluster s)).
Proof.
  intros [Hok Hts]%kreach_inv Hrun Hex Hv Hlost. destruct (Hts run _ Hrun) as [_ H].
  destruct (H v Hex Hv) as [Hc|]; [|done]. destruct (Hok v run Hc) as (_ & Hlive & Hp). split; [done|]. split; [done|].
  intros other y Ho Hvy. destruct (Hts other _ Ho) as [_ H']. destruct (H' v Hex Hvy) as [Hc'|]; [left; congruence|by right].
Qed.

Lemma one_run_per_volume_witness :
  ∃ s, (∃ p, pvcs (k_cluster s) !! "cache" = Some p ∧ pvc_holder p = "a") ∧ live (k_cluster s) "a" ∧
    (∀ other y, k_threads s !! other = Some (Proceeds y) → "cache" ∈ cr_chosen y → other = "a" ∨ other ∈ lost (k_cluster s)).
Proof.
  exists (MkK8s Cache.cluster1 (<["a" := Proceeds Cache.got]> ∅)).
  apply (one_run_per_volume 0 Cache.declared "node" _ "a" Cache.got "cache"); [exact Cache.holds|reflexivity|reflexivity|by left|].
  assert (lost Cache.cluster1 = ∅) as H by (vm_compute; reflexivity). cbn [k_cluster]. rewrite H. set_solver.
Defined.
