(* ===== verification/PodSpecs.v ===== *)
(** * The pod specifications of internal/k8sagent

    The fields of the Kubernetes types (k8s.io/api/core/v1) that the agent reads or
    writes.  What else a specification sets is kept as the JSON names of those fields
    ([..._other]): the agent looks at nothing but the names.  [..._keys] are the
    top-level keys of the value's JSON encoding, [jsonKeys] of podpolicy.go. *)

From S2P Require Import Prelude GoStrings.
From stdpp Require Import options.

(** The host of an [httpGet] and of a [tcpSocket] action. *)
Record Handler := MkHandler { h_HTTPGet : option string; h_TCPSocket : option string }.
Record ContainerPort := MkContainerPort { cp_HostPort : Z; cp_HostIP : string }.
(** [ev_SecretRef]: the Secret of [valueFrom.secretKeyRef]. *)
Record EnvVar := MkEnvVar { ev_Name : string; ev_Value : string; ev_SecretRef : option string }.
Record SELinuxOptions := MkSELinuxOptions { se_User : string; se_Role : string; se_Type : string }.
(** [windowsOptions], of which [hostProcess] is read. *)
Abbreviation WindowsOptions := (option bool).

Record SecurityContext := MkSecurityContext {
  sc_Privileged : option bool;
  sc_Capabilities : option (list string); (* capabilities.add *)
  sc_ProcMount : option string;
  sc_SELinux : option SELinuxOptions;
  sc_Windows : option WindowsOptions;
  sc_Seccomp : option string; (* seccompProfile.type *)
  sc_AppArmor : option string;
  sc_other : list string
}.
Record PodSecurityContext := MkPodSecurityContext {
  psc_SELinux : option SELinuxOptions;
  psc_Windows : option WindowsOptions;
  psc_Seccomp : option string;
  psc_AppArmor : option string;
  psc_Sysctls : list string; (* their names *)
  psc_other : list string
}.

Record Mount := MkMount { m_Name : string; m_MountPath : string; m_SubPath : string; m_ReadOnly : bool }.

Record Container := MkContainer {
  c_Name : string;
  c_Image : string;
  c_Command : list string;
  c_Args : list string;
  c_WorkingDir : string;
  c_Ports : list ContainerPort;
  c_EnvFrom : list (option string); (* the Secret of each source that has one *)
  c_Env : list EnvVar;
  c_Requests : gmap string string;
  c_Limits : gmap string string;
  c_VolumeMounts : list Mount;
  c_VolumeDevices : list string; (* their names *)
  c_LivenessProbe : option Handler;
  c_ReadinessProbe : option Handler;
  c_StartupProbe : option Handler;
  c_Lifecycle : option (option Handler * option Handler); (* postStart, preStop *)
  c_SecurityContext : option SecurityContext;
  c_other : list string
}.

Record VolumeProjection := MkVolumeProjection {
  vp_Secret : option string;
  vp_ServiceAccountToken : option string; (* its audience *)
  vp_PodCertificate : bool;
  vp_other : list string
}.
Record VolumeSource := MkVolumeSource {
  vs_EmptyDir : option (option string); (* its sizeLimit *)
  vs_HostPath : option string;
  vs_Secret : option string;
  vs_PVC : option string;
  vs_Projected : option (list VolumeProjection);
  vs_other : list string
}.
Record Volume := MkVolume { v_Name : string; v_Source : VolumeSource }.

Record PodSpec := MkPodSpec {
  ps_Volumes : list Volume;
  ps_InitContainers : list Container;
  ps_Containers : list Container;
  ps_RestartPolicy : string;
  ps_ServiceAccountName : string;
  ps_DeprecatedServiceAccount : string;
  ps_AutomountServiceAccountToken : option bool;
  ps_NodeName : string;
  ps_HostNetwork : bool;
  ps_HostPID : bool;
  ps_HostIPC : bool;
  ps_SecurityContext : option PodSecurityContext;
  ps_ImagePullSecrets : list string;
  ps_other : list string
}.

(** ** Values with one field set *)

Definition source_none : VolumeSource := MkVolumeSource None None None None None [].
Definition emptyDir_source : VolumeSource := MkVolumeSource (Some None) None None None None [].
Definition pvc_source (claim : string) : VolumeSource := MkVolumeSource None None None (Some claim) None [].
Definition container_of (name image : string) : Container :=
  MkContainer name image [] [] "" [] [] [] ∅ ∅ [] [] None None None None None [].

(** ** JSON keys *)

Definition key_if (b : bool) (k : string) : list string := if b then [k] else [].
Definition key_of {A} (o : option A) (k : string) : list string := match o with Some _ => [k] | None => [] end.
Definition key_str (s k : string) : list string := key_if (negb (s =? "")%string) k.
Definition key_list {A} (l : list A) (k : string) : list string := match l with [] => [] | _ => [k] end.
Definition jsonKeys (l : list string) : list string := SortStrings (remove_dups l).

Definition SecurityContext_keys (sc : SecurityContext) : list string :=
  jsonKeys (key_of (sc_Privileged sc) "privileged" ++ key_of (sc_Capabilities sc) "capabilities" ++ key_of (sc_ProcMount sc) "procMount"
    ++ key_of (sc_SELinux sc) "seLinuxOptions" ++ key_of (sc_Windows sc) "windowsOptions" ++ key_of (sc_Seccomp sc) "seccompProfile"
    ++ key_of (sc_AppArmor sc) "appArmorProfile" ++ sc_other sc).

Definition PodSecurityContext_keys (sc : PodSecurityContext) : list string :=
  jsonKeys (key_of (psc_SELinux sc) "seLinuxOptions" ++ key_of (psc_Windows sc) "windowsOptions" ++ key_of (psc_Seccomp sc) "seccompProfile"
    ++ key_of (psc_AppArmor sc) "appArmorProfile" ++ key_list (psc_Sysctls sc) "sysctls" ++ psc_other sc).

(** A container's name and resources are always written. *)
Definition Container_keys (c : Container) : list string :=
  jsonKeys (["name"; "resources"] ++ key_str (c_Image c) "image" ++ key_list (c_Command c) "command" ++ key_list (c_Args c) "args"
    ++ key_str (c_WorkingDir c) "workingDir" ++ key_list (c_Ports c) "ports" ++ key_list (c_EnvFrom c) "envFrom" ++ key_list (c_Env c) "env"
    ++ key_list (c_VolumeMounts c) "volumeMounts" ++ key_list (c_VolumeDevices c) "volumeDevices" ++ key_of (c_LivenessProbe c) "livenessProbe"
    ++ key_of (c_ReadinessProbe c) "readinessProbe" ++ key_of (c_StartupProbe c) "startupProbe" ++ key_of (c_Lifecycle c) "lifecycle"
    ++ key_of (c_SecurityContext c) "securityContext" ++ c_other c).

Definition VolumeProjection_keys (s : VolumeProjection) : list string :=
  jsonKeys (key_of (vp_Secret s) "secret" ++ key_of (vp_ServiceAccountToken s) "serviceAccountToken" ++ key_if (vp_PodCertificate s) "podCertificate" ++ vp_other s).

Definition VolumeSource_keys (s : VolumeSource) : list string :=
  jsonKeys (key_of (vs_EmptyDir s) "emptyDir" ++ key_of (vs_HostPath s) "hostPath" ++ key_of (vs_Secret s) "secret"
    ++ key_of (vs_PVC s) "persistentVolumeClaim" ++ key_of (vs_Projected s) "projected" ++ vs_other s).

Definition PodSpec_keys (s : PodSpec) : list string :=
  jsonKeys (["containers"] ++ key_list (ps_Volumes s) "volumes" ++ key_list (ps_InitContainers s) "initContainers" ++ key_str (ps_RestartPolicy s) "restartPolicy"
    ++ key_str (ps_ServiceAccountName s) "serviceAccountName" ++ key_str (ps_DeprecatedServiceAccount s) "serviceAccount"
    ++ key_of (ps_AutomountServiceAccountToken s) "automountServiceAccountToken" ++ key_str (ps_NodeName s) "nodeName" ++ key_if (ps_HostNetwork s) "hostNetwork"
    ++ key_if (ps_HostPID s) "hostPID" ++ key_if (ps_HostIPC s) "hostIPC" ++ key_of (ps_SecurityContext s) "securityContext"
    ++ key_list (ps_ImagePullSecrets s) "imagePullSecrets" ++ ps_other s).
