(* ===== verification/PodPolicy.v ===== *)
(** * internal/k8sagent/podpolicy.go and podmountpaths.go: what a job's pod may use

    The classification tables, the checks in their order, the error that lists every
    refused field, and the validation of the policy at startup. *)

From S2P Require Import Prelude GoStrings GoPath DslTypes DslNames VolumePlaces K8sVolumes PodSpecs.
From stdpp Require Import options.

Record JobPodPolicy := MkJobPodPolicy {
  AllowServiceAccounts : list string;
  AllowSecrets : list string;
  AllowImagePullSecrets : list string;
  AllowPersistentVolumeClaims : list string;
  AllowHostAccess : bool;
  AllowPrivileged : bool;
  AllowUnconfinedProfiles : bool;
  AllowNodeName : bool;
  AllowPodSpecFields : list string;
  AllowVolumeTypes : list string
}.
Definition JobPodPolicy_zero : JobPodPolicy := MkJobPodPolicy [] [] [] [] false false false false [] [].

(** ** The tables *)

Variant fieldClass := classAllowed | classCategory | classOptIn | classNever.
#[export] Instance fieldClass_eq_dec : EqDecision fieldClass.
Proof. solve_decision. Defined.
Definition fields (c : fieldClass) (names : list string) : gmap string fieldClass := list_to_map (map (λ n, (n, c)) names).

Definition podSpecFieldClass : gmap string fieldClass :=
  fields classAllowed
    ["containers"; "initContainers"; "volumes"; "securityContext"; "restartPolicy"; "terminationGracePeriodSeconds"; "activeDeadlineSeconds";
     "nodeSelector"; "affinity"; "tolerations"; "topologySpreadConstraints"; "hostname"; "subdomain"; "setHostnameAsFQDN"; "enableServiceLinks";
     "os"; "hostUsers"; "resources"]
  ∪ fields classCategory
    ["serviceAccountName"; "serviceAccount"; "automountServiceAccountToken"; "nodeName"; "hostNetwork"; "hostPID"; "hostIPC"; "imagePullSecrets"]
  ∪ fields classOptIn
    ["shareProcessNamespace"; "runtimeClassName"; "priorityClassName"; "priority"; "preemptionPolicy"; "schedulerName"; "readinessGates"; "overhead";
     "schedulingGates"; "resourceClaims"; "hostnameOverride"; "schedulingGroup"; "hostAliases"; "dnsPolicy"; "dnsConfig"]
  ∪ fields classNever
    ["ephemeralContainers"].

Definition containerFieldClass : gmap string fieldClass :=
  fields classAllowed
    ["name"; "image"; "command"; "args"; "workingDir"; "ports"; "envFrom"; "env"; "resources"; "resizePolicy"; "restartPolicy"; "restartPolicyRules";
     "volumeMounts"; "volumeDevices"; "livenessProbe"; "readinessProbe"; "startupProbe"; "lifecycle"; "terminationMessagePath";
     "terminationMessagePolicy"; "imagePullPolicy"; "securityContext"; "stdin"; "stdinOnce"; "tty"].

Definition volumeSourceClass : gmap string fieldClass :=
  fields classAllowed
    ["emptyDir"; "configMap"; "downwardAPI"; "image"; "projected"]
  ∪ fields classCategory
    ["hostPath"; "secret"; "persistentVolumeClaim"]
  ∪ fields classOptIn
    ["ephemeral"; "csi"; "nfs"; "iscsi"; "fc"; "rbd"; "cephfs"; "glusterfs"; "flexVolume"; "gitRepo"; "cinder"; "flocker"; "azureFile"; "azureDisk";
     "awsElasticBlockStore"; "gcePersistentDisk"; "vsphereVolume"; "quobyte"; "photonPersistentDisk"; "portworxVolume"; "scaleIO"; "storageos"].

Definition projectionSourceClass : gmap string fieldClass :=
  fields classAllowed
    ["configMap"; "downwardAPI"; "clusterTrustBundle"]
  ∪ fields classCategory
    ["secret"; "serviceAccountToken"; "podCertificate"].

Definition podSecurityContextFieldClass : gmap string fieldClass :=
  fields classAllowed
    ["runAsUser"; "runAsGroup"; "runAsNonRoot"; "supplementalGroups"; "supplementalGroupsPolicy"; "fsGroup"; "fsGroupChangePolicy";
     "seLinuxChangePolicy"]
  ∪ fields classCategory
    ["seccompProfile"; "appArmorProfile"; "seLinuxOptions"; "sysctls"; "windowsOptions"].

Definition securityContextFieldClass : gmap string fieldClass :=
  fields classAllowed
    ["runAsUser"; "runAsGroup"; "runAsNonRoot"; "readOnlyRootFilesystem"; "allowPrivilegeEscalation"]
  ∪ fields classCategory
    ["privileged"; "capabilities"; "procMount"; "seLinuxOptions"; "windowsOptions"; "seccompProfile"; "appArmorProfile"].

Definition podSpecCategoryKey : gmap string string :=
  list_to_map [("serviceAccountName", "allowServiceAccounts"); ("serviceAccount", "allowServiceAccounts");
    ("automountServiceAccountToken", "allowServiceAccounts"); ("nodeName", "allowNodeName"); ("hostNetwork", "allowHostAccess");
    ("hostPID", "allowHostAccess"); ("hostIPC", "allowHostAccess"); ("imagePullSecrets", "allowImagePullSecrets")].

Definition volumeCategoryKey : gmap string string :=
  list_to_map [("hostPath", "allowHostAccess"); ("secret", "allowSecrets"); ("persistentVolumeClaim", "allowPersistentVolumeClaims")].

Definition baselineCapabilities : list string :=
  ["AUDIT_WRITE"; "CHOWN"; "DAC_OVERRIDE"; "FOWNER"; "FSETID"; "KILL"; "MKNOD"; "NET_BIND_SERVICE"; "SETFCAP"; "SETGID"; "SETPCAP"; "SETUID";
   "SYS_CHROOT"].

Definition baselineSELinuxTypes : list string :=
  [""; "container_t"; "container_init_t"; "container_kvm_t"; "container_engine_t"].

Definition safeSysctls : list string :=
  ["kernel.shm_rmid_forced"; "net.ipv4.ip_local_port_range"; "net.ipv4.ip_unprivileged_port_start"; "net.ipv4.tcp_syncookies";
   "net.ipv4.ping_group_range"; "net.ipv4.ip_local_reserved_ports"; "net.ipv4.tcp_keepalive_time"; "net.ipv4.tcp_fin_timeout";
   "net.ipv4.tcp_keepalive_intvl"; "net.ipv4.tcp_keepalive_probes"].

Definition sidecarS3CredentialsVolumeName : string := "sidecar-s3-credentials".
Definition sidecarBrokerTokenVolumeName : string := "sidecar-store-credential-token".
Definition credentialVolumeNames : list string := [sidecarS3CredentialsVolumeName; sidecarBrokerTokenVolumeName].

(** ** Violations *)

Record PodPolicyViolation := MkViolation { pv_Path : string; pv_Subject : text; pv_What : text; pv_Allow : text }.

Definition PodPolicyViolation_String (v : PodPolicyViolation) : text :=
  [Lit (pv_Path v)] ++ (if decide (pv_Subject v = []) then [] else [Lit " ("] ++ pv_Subject v ++ [Lit ")"]) ++ [Lit ": "] ++ pv_What v
  ++ (if decide (pv_Allow v = []) then [Lit " (no k8s-agent setting allows this)"]
      else [Lit " (allow with jobPodPolicy."] ++ pv_Allow v ++ [Lit " in the k8s-agent config)"]).

Definition JobPodPolicyError_Error (vs : list PodPolicyViolation) : text :=
  [Lit ("k8s: job pod policy: the job's podTemplate sets " +:+ pretty (N.of_nat (length vs)) +:+ " field(s) this agent does not allow: ")]
  ++ concat (imap (λ i v, (if decide (i = 0) then [] else [Lit "; "]) ++ PodPolicyViolation_String v) vs)
  ++ [Lit ". Agent-side podTemplates (podTemplates: in the k8s-agent config) are not subject to this policy; see "; Quo "Job Pod field policy";
      Lit " in docs/operator-manual/kubernetes-integration.md"].

Definition at_index (path : string) (i : nat) : string := path +:+ "[" +:+ pretty (N.of_nat i) +:+ "]".
Definition allow_name (key name : string) : text := [Lit (key +:+ ": ["); Quo name; Lit "]"].
Definition at_each {A B} (path : string) (f : string → A → list B) (l : list A) : list B := concat (imap (λ i, f (at_index path i)) l).

Section checker.
(** [encoding/json]'s error for a value with these keys, if it has one. *)
Variable jsonError : list string → option text.
Variables (p : JobPodPolicy) (sa : string). (* the account the pod runs as *)

Definition deny (path : string) (subject what allow : text) : list PodPolicyViolation := [MkViolation path subject what allow].

Definition check_key (path : string) (subject : text) (table : gmap string fieldClass) (optIn : list string) (optInKey k : string) : list PodPolicyViolation :=
  match table !! k with
  | None => deny (path +:+ "." +:+ k) subject [Lit "is not classified by this agent's job pod policy"] []
  | Some classNever => deny (path +:+ "." +:+ k) subject [Lit "cannot be set when a Pod is created"] []
  | Some classOptIn =>
      if bool_decide (k ∈ optIn) then []
      else deny (path +:+ "." +:+ k) subject [Lit "is not on the allowed list"] (if (optInKey =? "")%string then [] else [Lit (optInKey +:+ ": [" +:+ k +:+ "]")])
  | Some _ => []
  end.

Definition checkKeys (path : string) (subject : text) (keys : list string) (table : gmap string fieldClass) (optIn : list string) (optInKey : string) : list PodPolicyViolation :=
  match jsonError keys with
  | Some e => deny path subject ([Lit "could not be inspected: "] ++ e) []
  | None => concat (map (check_key path subject table optIn optInKey) keys)
  end.

Definition secret (path : string) (subj : text) (name : string) (prefix : text) : list PodPolicyViolation :=
  if bool_decide (name ∈ AllowSecrets p) then [] else deny path subj (prefix ++ [Lit "reads Secret "; Quo name]) (allow_name "allowSecrets" name).

Definition handler_host (at_ : string) (subj : text) (o : option string) : list PodPolicyViolation :=
  match o with
  | Some host => if (host =? "")%string then [] else deny at_ subj [Lit "makes the kubelet connect to "; Quo host; Lit " from the node"] [Lit "allowHostAccess: true"]
  | None => []
  end.
Definition handlerHost (path : string) (subj : text) (h : Handler) : list PodPolicyViolation :=
  if AllowHostAccess p then []
  else handler_host (path +:+ ".httpGet.host") subj (h_HTTPGet h) ++ handler_host (path +:+ ".tcpSocket.host") subj (h_TCPSocket h).

Definition profile (at_ what : string) (o : option string) (subj : text) : list PodPolicyViolation :=
  match o with
  | Some t => if (t =? "Unconfined")%string then deny at_ subj [Lit (what +:+ ": Unconfined")] [Lit "allowUnconfinedProfiles: true"] else []
  | None => []
  end.
Definition profiles (path : string) (subj : text) (seccomp apparmor : option string) : list PodPolicyViolation :=
  if AllowUnconfinedProfiles p then []
  else profile (path +:+ ".seccompProfile.type") "seccompProfile.type" seccomp subj ++ profile (path +:+ ".appArmorProfile.type") "appArmorProfile.type" apparmor subj.

Definition seLinux (path : string) (subj : text) (o : option SELinuxOptions) : list PodPolicyViolation :=
  match o with
  | None => []
  | Some o =>
      if AllowPrivileged p then []
      else if negb (se_User o =? "")%string || negb (se_Role o =? "")%string || negb (bool_decide (se_Type o ∈ baselineSELinuxTypes)) then
        deny (path +:+ ".seLinuxOptions") subj
          [Lit "SELinux options outside the baseline set (user "; Quo (se_User o); Lit ", role "; Quo (se_Role o); Lit ", type "; Quo (se_Type o); Lit ")"]
          [Lit "allowPrivileged: true"]
      else []
  end.

Definition hostProcess (path : string) (subj : text) (w : option WindowsOptions) : list PodPolicyViolation :=
  match w with
  | Some (Some true) =>
      if AllowPrivileged p then []
      else deny (path +:+ ".windowsOptions.hostProcess") subj [Lit "hostProcess: true runs the container as a process on the node"] [Lit "allowPrivileged: true"]
  | _ => []
  end.

Definition checkPodSecurityContext (o : option PodSecurityContext) (path : string) : list PodPolicyViolation :=
  match o with
  | None => []
  | Some sc =>
      checkKeys path [] (PodSecurityContext_keys sc) podSecurityContextFieldClass [] ""
      ++ profiles path [] (psc_Seccomp sc) (psc_AppArmor sc) ++ seLinux path [] (psc_SELinux sc) ++ hostProcess path [] (psc_Windows sc)
      ++ (if AllowPrivileged p then []
          else at_each (path +:+ ".sysctls") (λ at_ s, if bool_decide (s ∈ safeSysctls) then [] else deny at_ [] [Lit "sets the unsafe sysctl "; Quo s] [Lit "allowPrivileged: true"])
                 (psc_Sysctls sc))
  end.

Definition checkSecurityContext (o : option SecurityContext) (path : string) (subj : text) : list PodPolicyViolation :=
  match o with
  | None => []
  | Some sc =>
      checkKeys path subj (SecurityContext_keys sc) securityContextFieldClass [] ""
      ++ profiles path subj (sc_Seccomp sc) (sc_AppArmor sc) ++ seLinux path subj (sc_SELinux sc) ++ hostProcess path subj (sc_Windows sc)
      ++ (if AllowPrivileged p then []
          else (match sc_Privileged sc with Some true => deny (path +:+ ".privileged") subj [Lit "privileged: true"] [Lit "allowPrivileged: true"] | _ => [] end)
            ++ at_each (path +:+ ".capabilities.add")
                 (λ at_ cp, if bool_decide (cp ∈ baselineCapabilities) then [] else deny at_ subj [Lit "adds capability "; Quo cp] [Lit "allowPrivileged: true"])
                 (default [] (sc_Capabilities sc))
            ++ (match sc_ProcMount sc with
                | Some m => if (m =? "Default")%string then [] else deny (path +:+ ".procMount") subj [Lit ("procMount: " +:+ m)] [Lit "allowPrivileged: true"]
                | None => []
                end))
  end.

(** [at_] maps a source's key to the path reported; [prefix] phrases a template's
    volume that is reached through a mount. *)
Definition check_projection (subj prefix : text) (sp : string) (s : VolumeProjection) : list PodPolicyViolation :=
  checkKeys sp subj (VolumeProjection_keys s) projectionSourceClass [] ""
  ++ (match vp_Secret s with Some n => secret (sp +:+ ".secret") subj n (prefix ++ [Lit "a projected volume that "]) | None => [] end)
  ++ (if bool_decide (sa ∈ AllowServiceAccounts p) then []
      else (match vp_ServiceAccountToken s with
            | Some _ => deny (sp +:+ ".serviceAccountToken") subj (prefix ++ [Lit "a projected token of ServiceAccount "; Quo sa]) (allow_name "allowServiceAccounts" sa)
            | None => []
            end)
        ++ (if vp_PodCertificate s then deny (sp +:+ ".podCertificate") subj (prefix ++ [Lit "a projected certificate for ServiceAccount "; Quo sa]) (allow_name "allowServiceAccounts" sa)
            else [])).

Definition check_source_key (subj prefix : text) (at_ : string → string) (k : string) : list PodPolicyViolation :=
  match volumeSourceClass !! k with
  | None => deny (at_ k) subj (prefix ++ [Lit ("a " +:+ k +:+ " volume, a type this agent's job pod policy does not classify")]) []
  | Some classOptIn =>
      if bool_decide (k ∈ AllowVolumeTypes p) then [] else deny (at_ k) subj (prefix ++ [Lit ("a " +:+ k +:+ " volume")]) [Lit ("allowVolumeTypes: [" +:+ k +:+ "]")]
  | Some _ => []
  end.

Definition checkVolumeSource (src : VolumeSource) (subj : text) (at_ : string → string) (prefix : text) : list PodPolicyViolation :=
  match jsonError (VolumeSource_keys src) with
  | Some e => deny (at_ "") subj (prefix ++ [Lit "a volume that could not be inspected: "] ++ e) []
  | None =>
      concat (map (check_source_key subj prefix at_) (VolumeSource_keys src))
      ++ (match vs_HostPath src with
          | Some hp => if AllowHostAccess p then [] else deny (at_ "hostPath") subj (prefix ++ [Lit "a hostPath volume ("; Quo hp; Lit " on the node)"]) [Lit "allowHostAccess: true"]
          | None => []
          end)
      ++ (match vs_Secret src with Some n => secret (at_ "secret") subj n (prefix ++ [Lit "a secret volume that "]) | None => [] end)
      ++ (match vs_PVC src with
          | Some n => if bool_decide (n ∈ AllowPersistentVolumeClaims p) then []
                      else deny (at_ "persistentVolumeClaim") subj (prefix ++ [Lit "a volume of PersistentVolumeClaim "; Quo n]) (allow_name "allowPersistentVolumeClaims" n)
          | None => []
          end)
      ++ at_each (at_ "projected" +:+ ".sources") (check_projection subj prefix) (default [] (vs_Projected src))
  end.

Definition checkVolume (path : string) (v : Volume) : list PodPolicyViolation :=
  checkVolumeSource (v_Source v) [Lit "volume "; Quo (v_Name v)] (λ k, path +:+ "." +:+ k) [].

Definition mount (path : string) (subj : text) (name : string) (templateVolume : string → option Volume) : list PodPolicyViolation :=
  if bool_decide (name ∈ credentialVolumeNames) then deny path subj [Lit "mounts "; Quo name; Lit ", the artifact sidecar's credential volume"] []
  else match templateVolume name with
       | Some tv => checkVolumeSource (v_Source tv) subj (λ _, path) [Lit "mounts agent template volume "; Quo name; Lit ", which is "]
       | None => []
       end.

Definition checkContainer (templateVolume : string → option Volume) (path : string) (ct : Container) : list PodPolicyViolation :=
  let subj := [Lit "container "; Quo (c_Name ct)] in
  checkKeys path subj (Container_keys ct) containerFieldClass [] ""
  ++ (if AllowHostAccess p then []
      else at_each (path +:+ ".ports") (λ at_ q, if negb (cp_HostPort q =? 0)%Z || negb (cp_HostIP q =? "")%string
             then deny at_ subj [Lit "binds a port on the node (hostPort/hostIP)"] [Lit "allowHostAccess: true"] else []) (c_Ports ct))
  ++ at_each (path +:+ ".env") (λ at_ e, match ev_SecretRef e with Some n => secret (at_ +:+ ".valueFrom.secretKeyRef") subj n [] | None => [] end) (c_Env ct)
  ++ at_each (path +:+ ".envFrom") (λ at_ e, match e with Some n => secret (at_ +:+ ".secretRef") subj n [] | None => [] end) (c_EnvFrom ct)
  ++ concat (map (λ pr : string * option Handler, match pr.2 with Some h => handlerHost (path +:+ "." +:+ pr.1) subj h | None => [] end)
       [("livenessProbe", c_LivenessProbe ct); ("readinessProbe", c_ReadinessProbe ct); ("startupProbe", c_StartupProbe ct)])
  ++ (match c_Lifecycle ct with
      | Some (postStart, preStop) =>
          (match postStart with Some h => handlerHost (path +:+ ".lifecycle.postStart") subj h | None => [] end)
          ++ (match preStop with Some h => handlerHost (path +:+ ".lifecycle.preStop") subj h | None => [] end)
      | None => []
      end)
  ++ checkSecurityContext (c_SecurityContext ct) (path +:+ ".securityContext") subj
  ++ at_each (path +:+ ".volumeMounts") (λ at_ m, mount at_ subj (m_Name m) templateVolume) (c_VolumeMounts ct)
  ++ at_each (path +:+ ".volumeDevices") (λ at_ d, mount at_ subj d templateVolume) (c_VolumeDevices ct).

Definition no_template : string → option Volume := λ _, None.

Definition checkPodSpec (spec : PodSpec) (path : string) : list PodPolicyViolation :=
  checkKeys path [] (PodSpec_keys spec) podSpecFieldClass (AllowPodSpecFields p) "allowPodSpecFields"
  ++ concat (map (λ f : string * string,
       if negb (f.2 =? "")%string && negb (bool_decide (f.2 ∈ AllowServiceAccounts p))
       then deny (path +:+ "." +:+ f.1) [] [Lit "selects ServiceAccount "; Quo f.2] (allow_name "allowServiceAccounts" f.2) else [])
       [("serviceAccountName", ps_ServiceAccountName spec); ("serviceAccount", ps_DeprecatedServiceAccount spec)])
  ++ (match ps_AutomountServiceAccountToken spec with
      | Some true => if bool_decide (sa ∈ AllowServiceAccounts p) then []
                     else deny (path +:+ ".automountServiceAccountToken") [] [Lit "true mounts the token of ServiceAccount "; Quo sa] (allow_name "allowServiceAccounts" sa)
      | _ => []
      end)
  ++ (if negb (ps_NodeName spec =? "")%string && negb (AllowNodeName p)
      then deny (path +:+ ".nodeName") [] [Lit "pins the Pod to node "; Quo (ps_NodeName spec); Lit ", bypassing the scheduler"] [Lit "allowNodeName: true"] else [])
  ++ (if AllowHostAccess p then []
      else (if ps_HostNetwork spec then deny (path +:+ ".hostNetwork") [] [Lit "true shares the node's network namespace"] [Lit "allowHostAccess: true"] else [])
        ++ (if ps_HostPID spec then deny (path +:+ ".hostPID") [] [Lit "true shares the node's process namespace"] [Lit "allowHostAccess: true"] else [])
        ++ (if ps_HostIPC spec then deny (path +:+ ".hostIPC") [] [Lit "true shares the node's IPC namespace"] [Lit "allowHostAccess: true"] else []))
  ++ at_each (path +:+ ".imagePullSecrets") (λ at_ s, if bool_decide (s ∈ AllowImagePullSecrets p) then []
       else deny at_ [] [Lit "pulls images with Secret "; Quo s] (allow_name "allowImagePullSecrets" s)) (ps_ImagePullSecrets spec)
  ++ checkPodSecurityContext (ps_SecurityContext spec) (path +:+ ".securityContext")
  ++ at_each (path +:+ ".initContainers") (checkContainer no_template) (ps_InitContainers spec)
  ++ at_each (path +:+ ".containers") (checkContainer no_template) (ps_Containers spec)
  ++ at_each (path +:+ ".volumes") checkVolume (ps_Volumes spec).
End checker.

(** ** The check of a claim *)

Definition result_of (vs : list PodPolicyViolation) : res unit := match vs with [] => Ok tt | _ => Err (JobPodPolicyError_Error vs) end.

Definition effectiveServiceAccount (spec : PodSpec) : string :=
  if negb (ps_ServiceAccountName spec =? "")%string then ps_ServiceAccountName spec
  else if negb (ps_DeprecatedServiceAccount spec =? "")%string then ps_DeprecatedServiceAccount spec
  else "default".

Record AgentPodTemplate := MkAgentPodTemplate { apt_Workspace : option WorkspaceConfig; apt_Spec : vmap; apt_WorkspaceSizeLimit : string }.

Section check.
Variable jsonError : list string → option text.
(** [encoding/json] between the maps of a template and the typed values. *)
Variables (podSpecFromMap : vmap → res PodSpec) (containersFromMaps : list vmap → res (list Container)) (volumesFromMaps : list vmap → res (list Volume)).

(** The template's volumes that the patch does not replace, by name: the last one. *)
Definition template_volume (base : PodSpec) (patch : list Volume) (name : string) : option Volume :=
  if bool_decide (name ∈ map v_Name patch) then None else last (filter (λ v, v_Name v = name) (ps_Volumes base)).

Definition checkOverride (p : JobPodPolicy) (base : PodSpec) (patch : PodSpecPatch) : res unit :=
  match containersFromMaps (pp_Containers patch), volumesFromMaps (pp_Volumes patch) with
  | Ok containers, Ok volumes =>
      let sa := effectiveServiceAccount base in
      result_of (at_each "podTemplate.override.volumes" (checkVolume jsonError p sa) volumes
        ++ at_each "podTemplate.override.containers" (checkContainer jsonError p sa (template_volume base volumes)) containers)
  | _, _ => Ok tt
  end.

Definition CheckJobPodTemplate (p : JobPodPolicy) (agentTmpls : gmap string AgentPodTemplate) (jobTmpl : option PodTemplate) : res unit :=
  match jobTmpl with
  | None => Ok tt
  | Some jt =>
      if negb (pt_Name jt =? "")%string then
        match pt_Override jt, agentTmpls !! pt_Name jt with
        | Some patch, Some at_ => match podSpecFromMap (apt_Spec at_) with Ok base => checkOverride p base patch | Err _ => Ok tt end
        | _, _ => Ok tt
        end
      else match pt_Spec jt with
           | [] => Ok tt
           | m => match podSpecFromMap m with
                  | Ok spec => result_of (checkPodSpec jsonError p (effectiveServiceAccount spec) spec "podTemplate.spec")
                  | Err _ => Ok tt
                  end
           end
  end.
End check.

(** ** podmountpaths.go *)

Definition sidecarBrokerTokenMountPath : string := "/var/run/secrets/unified-cd-store-credentials".
Definition sidecarS3CredentialsMountPath : string := "/etc/unified-cd/s3-credentials".
Definition sidecarProtectedDirs : list string := [sidecarBrokerTokenMountPath; sidecarS3CredentialsMountPath].

Definition mount_violation (where_ : string) (r : res unit) : list PodPolicyViolation :=
  match r with Ok _ => [] | Err e => [MkViolation where_ [] e []] end.

Definition volume_mount_check (workspaceMount : string) (i : nat) (v : VolumeMount) : list PodPolicyViolation :=
  let mp := normalizeVolumeMountPath (vm_MountPath v) in
  if (mp =? ".")%string then []
  else
    let wm := Clean workspaceMount in
    let resolved := volumeContainerPath wm mp in
    if negb (IsAbs mp) && ((resolved =? wm)%string || HasPrefix resolved (TrimSuffix wm "/" +:+ "/")) then []
    else mount_violation (at_index "spec.volumes" i +:+ ".mountPath") (CheckContainerMountPath resolved sidecarProtectedDirs).

Definition CheckJobMountPaths (jobTmpl : option PodTemplate) (workspaceMount : string) (volumes : list VolumeMount) : res unit :=
  result_of ((match jobTmpl ≫= pt_Workspace with
              | Some w => if (wc_MountPath w =? "")%string then []
                          else mount_violation "podTemplate.workspace.mountPath" (CheckContainerMountPath (wc_MountPath w) sidecarProtectedDirs)
              | None => []
              end) ++ concat (imap (volume_mount_check workspaceMount) volumes)).

(** ** The policy's own validation *)

Section validate.
(** [validation.IsDNS1123Subdomain], empty if the name is one. *)
Variable IsDNS1123Subdomain : string → list string.

Definition valid_name (key n : string) : res unit :=
  _ ← fail_if (Contains n "*") [Lit (key +:+ ": "); Quo n; Lit ": wildcards are not supported; list each name"];
  fail_if (negb (bool_decide (IsDNS1123Subdomain n = [])))
    [Lit (key +:+ ": "); Quo n; Lit (" is not a valid Kubernetes object name: " +:+ Join "; " (IsDNS1123Subdomain n))].

Definition validateEscapeList (key kind : string) (names : list string) (table : gmap string fieldClass) (categoryKey : gmap string string) : res unit :=
  let optIn := SortStrings (elements (dom (filter (λ kv, kv.2 = classOptIn) table))) in
  each (λ _ n,
    match table !! n with
    | None => Err [Lit (key +:+ ": "); Quo n; Lit (" is not an opt-in " +:+ kind +:+ "; valid entries: " +:+ Join ", " optIn)]
    | Some classAllowed => Err [Lit (key +:+ ": "); Quo n; Lit " is always allowed; remove it"]
    | Some classCategory => Err [Lit (key +:+ ": "); Quo n; Lit (" is governed by jobPodPolicy." +:+ default "" (categoryKey !! n) +:+ "; use that instead")]
    | Some classNever => Err [Lit (key +:+ ": "); Quo n; Lit " cannot be allowed: it cannot be set when a Pod is created"]
    | Some classOptIn => Ok tt
    end) names.

Definition JobPodPolicy_validate (p : JobPodPolicy) (sidecarSecret agentName : string) (vols : list VolumeConfig) : res unit :=
  _ ← each (λ _ l, each (λ _, valid_name l.1) l.2)
        [("allowServiceAccounts", AllowServiceAccounts p); ("allowSecrets", AllowSecrets p);
         ("allowImagePullSecrets", AllowImagePullSecrets p); ("allowPersistentVolumeClaims", AllowPersistentVolumeClaims p)];
  _ ← fail_if (negb (sidecarSecret =? "")%string && bool_decide (sidecarSecret ∈ AllowSecrets p))
        [Lit "allowSecrets: "; Quo sidecarSecret; Lit " is sidecarS3SecretName, the artifact sidecar's credentials, which job containers must never read"];
  _ ← each (λ _ v, let claim := claimNameFor agentName (vc_Name v) in
        fail_if (bool_decide (claim ∈ AllowPersistentVolumeClaims p))
          [Lit "allowPersistentVolumeClaims: "; Quo claim; Lit " is this agent's named volume "; Quo (vc_Name v); Lit "; jobs reach it only through spec.volumes, which holds its lock"]) vols;
  _ ← validateEscapeList "allowPodSpecFields" "PodSpec field" (AllowPodSpecFields p) podSpecFieldClass podSpecCategoryKey;
  validateEscapeList "allowVolumeTypes" "volume type" (AllowVolumeTypes p) volumeSourceClass volumeCategoryKey.
End validate.

Definition summary_list (k : string) (v : list string) : list string := match v with [] => [] | _ => [k +:+ "=" +:+ Join "," v] end.
Definition summary_flag (k : string) (on : bool) : list string := if on then [k] else [].
Definition Summary (p : JobPodPolicy) : string :=
  let parts : list string := concat
    [summary_list "allowServiceAccounts" (AllowServiceAccounts p); summary_list "allowSecrets" (AllowSecrets p);
     summary_list "allowImagePullSecrets" (AllowImagePullSecrets p); summary_list "allowPersistentVolumeClaims" (AllowPersistentVolumeClaims p);
     summary_flag "allowHostAccess" (AllowHostAccess p); summary_flag "allowPrivileged" (AllowPrivileged p);
     summary_flag "allowUnconfinedProfiles" (AllowUnconfinedProfiles p); summary_flag "allowNodeName" (AllowNodeName p);
     summary_list "allowPodSpecFields" (AllowPodSpecFields p); summary_list "allowVolumeTypes" (AllowVolumeTypes p)] in
  match parts with [] => "none" | _ => Join " " parts end.
