(* ===== verification/PodPolicyFacts.v ===== *)
(** * What the job pod policy refuses

    A declarative reading of the policy: the powers a specification needs, the powers
    a policy grants, and that a specification is accepted when every power it needs is
    granted. *)

From S2P Require Import Prelude GoStrings GoPath DslTypes DslNames VolumePlaces K8sVolumes PodSpecs PodPolicy.
From stdpp Require Import options.

(** ** Powers *)

Inductive power :=
| Host (* of the node: its namespaces, files, ports and network position *)
| Privileged
| Unconfined
| OnNode
| Secret (name : string)
| PullSecret (name : string)
| Claim (name : string)
| Account (name : string)
| SpecField (k : string)
| VolumeType (k : string)
| Nobody. (* granted by no policy *)

Definition grants (p : JobPodPolicy) (pw : power) : Prop :=
  match pw with
  | Host => AllowHostAccess p = true
  | Privileged => AllowPrivileged p = true
  | Unconfined => AllowUnconfinedProfiles p = true
  | OnNode => AllowNodeName p = true
  | Secret n => n ∈ AllowSecrets p
  | PullSecret n => n ∈ AllowImagePullSecrets p
  | Claim n => n ∈ AllowPersistentVolumeClaims p
  | Account n => n ∈ AllowServiceAccounts p
  | SpecField k => k ∈ AllowPodSpecFields p
  | VolumeType k => k ∈ AllowVolumeTypes p
  | Nobody => False
  end.
Definition granted (p : JobPodPolicy) (needs : power → Prop) : Prop := ∀ pw, needs pw → grants p pw.

Section needs.
Variables (jsonError : list string → option text) (sa : string).

(** The fields set, by a table: [field] is the power of an opt-in one. *)
Inductive keys_need (table : gmap string fieldClass) (field : string → power) (keys : list string) : power → Prop :=
| kn_error e : jsonError keys = Some e → keys_need table field keys Nobody
| kn_unknown k : k ∈ keys → table !! k = None → keys_need table field keys Nobody
| kn_never k : k ∈ keys → table !! k = Some classNever → keys_need table field keys Nobody
| kn_optin k : k ∈ keys → table !! k = Some classOptIn → keys_need table field keys (field k).

Inductive handler_needs (h : Handler) : power → Prop :=
| hn_http host : h_HTTPGet h = Some host → host ≠ "" → handler_needs h Host
| hn_tcp host : h_TCPSocket h = Some host → host ≠ "" → handler_needs h Host.

Definition selinux_outside (o : SELinuxOptions) : Prop := se_User o ≠ "" ∨ se_Role o ≠ "" ∨ se_Type o ∉ baselineSELinuxTypes.

Inductive pod_context_needs (sc : PodSecurityContext) : power → Prop :=
| pcn_field pw : keys_need podSecurityContextFieldClass (λ _, Nobody) (PodSecurityContext_keys sc) pw → pod_context_needs sc pw
| pcn_profile o : o = psc_Seccomp sc ∨ o = psc_AppArmor sc → o = Some "Unconfined" → pod_context_needs sc Unconfined
| pcn_selinux o : psc_SELinux sc = Some o → selinux_outside o → pod_context_needs sc Privileged
| pcn_process : psc_Windows sc = Some (Some true) → pod_context_needs sc Privileged
| pcn_sysctl s : s ∈ psc_Sysctls sc → s ∉ safeSysctls → pod_context_needs sc Privileged.

Inductive context_needs (sc : SecurityContext) : power → Prop :=
| xn_field pw : keys_need securityContextFieldClass (λ _, Nobody) (SecurityContext_keys sc) pw → context_needs sc pw
| xn_profile o : o = sc_Seccomp sc ∨ o = sc_AppArmor sc → o = Some "Unconfined" → context_needs sc Unconfined
| xn_selinux o : sc_SELinux sc = Some o → selinux_outside o → context_needs sc Privileged
| xn_process : sc_Windows sc = Some (Some true) → context_needs sc Privileged
| xn_privileged : sc_Privileged sc = Some true → context_needs sc Privileged
| xn_capability l c : sc_Capabilities sc = Some l → c ∈ l → c ∉ baselineCapabilities → context_needs sc Privileged
| xn_procMount m : sc_ProcMount sc = Some m → m ≠ "Default" → context_needs sc Privileged.

Inductive projection_needs (s : VolumeProjection) : power → Prop :=
| jn_field pw : keys_need projectionSourceClass (λ _, Nobody) (VolumeProjection_keys s) pw → projection_needs s pw
| jn_secret n : vp_Secret s = Some n → projection_needs s (Secret n)
| jn_token t : vp_ServiceAccountToken s = Some t → projection_needs s (Account sa)
| jn_certificate : vp_PodCertificate s = true → projection_needs s (Account sa).

Inductive source_needs (s : VolumeSource) : power → Prop :=
| sn_type pw : keys_need volumeSourceClass VolumeType (VolumeSource_keys s) pw → source_needs s pw
| sn_host hp : vs_HostPath s = Some hp → source_needs s Host
| sn_secret n : vs_Secret s = Some n → source_needs s (Secret n)
| sn_claim n : vs_PVC s = Some n → source_needs s (Claim n)
| sn_projected l j pw : vs_Projected s = Some l → j ∈ l → projection_needs j pw → source_needs s pw.

Definition handlers (c : Container) : list Handler :=
  omap id [c_LivenessProbe c; c_ReadinessProbe c; c_StartupProbe c; c_Lifecycle c ≫= fst; c_Lifecycle c ≫= snd].
Definition mounted (c : Container) : list string := map m_Name (c_VolumeMounts c) ++ c_VolumeDevices c.

(** What a container needs by itself. *)
Inductive container_needs (c : Container) : power → Prop :=
| cn_field pw : keys_need containerFieldClass (λ _, Nobody) (Container_keys c) pw → container_needs c pw
| cn_port q : q ∈ c_Ports c → cp_HostPort q ≠ 0%Z ∨ cp_HostIP q ≠ "" → container_needs c Host
| cn_env e n : e ∈ c_Env c → ev_SecretRef e = Some n → container_needs c (Secret n)
| cn_env_from n : Some n ∈ c_EnvFrom c → container_needs c (Secret n)
| cn_handler h pw : h ∈ handlers c → handler_needs h pw → container_needs c pw
| cn_context sc pw : c_SecurityContext c = Some sc → context_needs sc pw → container_needs c pw
| cn_credential m : m ∈ mounted c → m ∈ credentialVolumeNames → container_needs c Nobody.

(** What it needs with the volumes [vol] by name. *)
Inductive reaches (vol : string → option Volume) (c : Container) : power → Prop :=
| rc_itself pw : container_needs c pw → reaches vol c pw
| rc_mount m v pw : m ∈ mounted c → vol m = Some v → source_needs (v_Source v) pw → reaches vol c pw.

(** The fields of the pod itself. *)
Inductive pod_needs (s : PodSpec) : power → Prop :=
| pn_field pw : keys_need podSpecFieldClass SpecField (PodSpec_keys s) pw → pod_needs s pw
| pn_account n : n = ps_ServiceAccountName s ∨ n = ps_DeprecatedServiceAccount s → n ≠ "" → pod_needs s (Account n)
| pn_token : ps_AutomountServiceAccountToken s = Some true → pod_needs s (Account sa)
| pn_node : ps_NodeName s ≠ "" → pod_needs s OnNode
| pn_namespace : ps_HostNetwork s = true ∨ ps_HostPID s = true ∨ ps_HostIPC s = true → pod_needs s Host
| pn_pull n : n ∈ ps_ImagePullSecrets s → pod_needs s (PullSecret n)
| pn_context sc pw : ps_SecurityContext s = Some sc → pod_context_needs sc pw → pod_needs s pw.

Inductive spec_needs (s : PodSpec) : power → Prop :=
| sp_pod pw : pod_needs s pw → spec_needs s pw
| sp_container c pw : c ∈ ps_InitContainers s ++ ps_Containers s → container_needs c pw → spec_needs s pw
| sp_volume v pw : v ∈ ps_Volumes s → source_needs (v_Source v) pw → spec_needs s pw.
End needs.

(** ** Lists of violations *)

Lemma concat_nil {A} (l : list (list A)) : concat l = [] ↔ ∀ x, x ∈ l → x = [].
Proof.
  induction l as [|x l IH]; cbn; [set_solver|]. rewrite app_nil, IH. setoid_rewrite elem_of_cons. naive_solver.
Qed.

Lemma at_each_nil {A B} path (f : string → A → list B) (P : A → Prop) l :
  (∀ at_ x, f at_ x = [] ↔ P x) → at_each path f l = [] ↔ ∀ x, x ∈ l → P x.
Proof.
  intros Hf. unfold at_each. rewrite concat_nil. split.
  - intros H x [i Hi]%list_elem_of_lookup. rewrite <-(Hf (at_index path i)). apply H. apply elem_of_lookup_imap. eauto.
  - intros H y (i & x & -> & Hi)%elem_of_lookup_imap. apply Hf, H. by eapply list_elem_of_lookup_2.
Qed.

Lemma deny_nil path s w a : deny path s w a = [] ↔ False.
Proof. done. Qed.

Section facts.
Variables (jsonError : list string → option text) (p : JobPodPolicy) (sa : string).
Implicit Types (path : string) (subj : text).

Lemma checkKeys_nil path subj keys table optIn key field :
  (∀ k, grants p (field k) ↔ k ∈ optIn) →
  checkKeys jsonError path subj keys table optIn key = [] ↔ granted p (keys_need jsonError table field keys).
Proof.
  intros Hf. unfold checkKeys. destruct (jsonError keys) as [e|] eqn:E.
  { split; [done|]. intros H. destruct (H Nobody). by eapply kn_error. }
  rewrite concat_nil. split.
  - intros H pw Hn. assert (∀ k, k ∈ keys → check_key path subj table optIn key k = []) as Hk.
    { intros k Hk. apply H. by apply list_elem_of_fmap_2. }
    destruct Hn as [e He|k Hin Ht|k Hin Ht|k Hin Ht]; [congruence|..]; specialize (Hk k Hin); unfold check_key in Hk; rewrite Ht in Hk; [done|done|].
    apply Hf. by case_bool_decide.
  - intros H x (k & -> & Hk)%list_elem_of_fmap. unfold check_key. destruct (table !! k) as [[]|] eqn:Ht; try done.
    + case_bool_decide as Hd; [done|]. destruct Hd. apply Hf, H. by apply kn_optin.
    + destruct (H Nobody). by eapply kn_never.
    + destruct (H Nobody). by eapply kn_unknown.
Qed.

Lemma checkKeys_closed path subj keys table :
  checkKeys jsonError path subj keys table [] "" = [] ↔ granted p (keys_need jsonError table (λ _, Nobody) keys).
Proof. apply checkKeys_nil. intros k. cbn. set_solver. Qed.

Lemma secret_nil path subj n prefix : secret p path subj n prefix = [] ↔ grants p (Secret n).
Proof. unfold secret. case_bool_decide; cbn; done. Qed.

Lemma handler_host_nil path subj o : handler_host path subj o = [] ↔ ∀ host, o = Some host → host = "".
Proof.
  destruct o as [host|]; cbn; [|by split]. destruct (String.eqb_spec host "") as [->|Hne]; [split; [by intros _ ? [= <-]|done]|].
  split; [done|]. intros H. by destruct (Hne (H host eq_refl)).
Qed.

Lemma handlerHost_nil path subj h : handlerHost p path subj h = [] ↔ granted p (handler_needs h).
Proof.
  unfold handlerHost. destruct (AllowHostAccess p) eqn:E; [split; [|done]; by intros _ pw []|].
  rewrite app_nil, !handler_host_nil. split.
  - intros [H1 H2] pw []; [by apply H1 in H|by apply H2 in H].
  - intros H. assert (¬ handler_needs h Host) as Hn by (intros Hx; apply H in Hx; cbn in Hx; congruence).
    split; intros host Ho; destruct (decide (host = "")) as [|Hne]; try done; destruct Hn; [by eapply hn_http|by eapply hn_tcp].
Qed.

(** ** Security contexts *)

Lemma profile_nil at_ what o subj : profile at_ what o subj = [] ↔ o ≠ Some "Unconfined".
Proof. destruct o as [t|]; cbn; [|by split]. destruct (String.eqb_spec t "Unconfined") as [->|Hne]; split; [done|by intros []|by intros _ [= ->]|done]. Qed.

Lemma profiles_nil path subj s a :
  profiles p path subj s a = [] ↔ ∀ o, o = s ∨ o = a → o = Some "Unconfined" → grants p Unconfined.
Proof.
  unfold profiles. cbn [grants]. destruct (AllowUnconfinedProfiles p); [by split|]. rewrite app_nil, !profile_nil.
  split; [by intros [Hs Ha] o [->| ->] ?|intros H; split; intros Ho; [by specialize (H s (or_introl eq_refl) Ho)|by specialize (H a (or_intror eq_refl) Ho)]].
Qed.

Lemma seLinux_nil path subj so : seLinux p path subj so = [] ↔ ∀ o, so = Some o → selinux_outside o → grants p Privileged.
Proof.
  unfold seLinux. cbn [grants]. destruct so as [o|]; [|by split]. destruct (AllowPrivileged p); [by split|].
  assert (negb (se_User o =? "")%string || negb (se_Role o =? "")%string || negb (bool_decide (se_Type o ∈ baselineSELinuxTypes)) = true ↔ selinux_outside o) as H.
  { rewrite !orb_true_iff, !negb_true_iff, !String.eqb_neq, bool_decide_eq_false. unfold selinux_outside. tauto. }
  destruct (_ || _); split; try done; intros Hn.
  - assert (false = true) by (eapply Hn; [reflexivity|by apply H]). done.
  - intros o' [= <-] Ho. by apply H in Ho.
Qed.

Lemma hostProcess_nil path subj w : hostProcess p path subj w = [] ↔ (w = Some (Some true) → grants p Privileged).
Proof.
  destruct w as [[[]|]|]; cbn; [|by split..]. destruct (AllowPrivileged p); split; try done. intros H. by specialize (H eq_refl).
Qed.

Lemma unless_nil {A} b (l : list A) (P : Prop) : (l = [] ↔ P) → (if b : bool then [] else l) = [] ↔ (b = true ∨ P).
Proof. clear. intros H. destruct b; [split; [by left|done]|]. rewrite H. split; [by right|by intros [|]]. Qed.

Lemma member_nil {A} (x : string) (l : list string) (d : list A) : d ≠ [] → (if bool_decide (x ∈ l) then [] else d) = [] ↔ x ∈ l.
Proof. clear. intros Hd. by case_bool_decide. Qed.

Lemma checkPodSecurityContext_nil o path :
  checkPodSecurityContext jsonError p o path = [] ↔ ∀ sc, o = Some sc → granted p (pod_context_needs jsonError sc).
Proof.
  destruct o as [sc|]; cbn; [|by split].
  rewrite !app_nil, checkKeys_closed, profiles_nil, seLinux_nil, hostProcess_nil.
  rewrite (unless_nil _ _ (∀ s, s ∈ psc_Sysctls sc → s ∈ safeSysctls)) by (apply at_each_nil; intros; by apply member_nil).
  split.
  - intros (H1 & H2 & H3 & H4 & H5) sc' [= <-] pw Hn. destruct Hn as [pw Hk|o Ho Hu|o Ho Hu|Hw|s Hs Hns]; [by apply H1|by eapply H2|by eapply H3|by apply H4|].
    destruct H5 as [H5|H5]; [done|]. by destruct (Hns (H5 s Hs)).
  - intros H. specialize (H sc eq_refl). split_and!.
    + intros pw Hk. apply H. by apply pcn_field.
    + intros o Ho Hu. apply H. by eapply pcn_profile.
    + intros o Ho Hu. apply H. by eapply pcn_selinux.
    + intros Hw. apply H. by eapply pcn_process.
    + destruct (AllowPrivileged p) eqn:E; [by left|right]. intros s Hs. destruct (decide (s ∈ safeSysctls)) as [|Hn]; [done|].
      assert (AllowPrivileged p = true) by (apply (H Privileged); by eapply pcn_sysctl). congruence.
Qed.

Lemma checkSecurityContext_nil o path subj :
  checkSecurityContext jsonError p o path subj = [] ↔ ∀ sc, o = Some sc → granted p (context_needs jsonError sc).
Proof.
  destruct o as [sc|]; cbn; [|by split].
  rewrite !app_nil, checkKeys_closed, profiles_nil, seLinux_nil, hostProcess_nil.
  rewrite (unless_nil _ _ (sc_Privileged sc ≠ Some true ∧ (∀ c, c ∈ default [] (sc_Capabilities sc) → c ∈ baselineCapabilities) ∧ (∀ m, sc_ProcMount sc = Some m → m = "Default"))).
  2:{ rewrite !app_nil. f_equiv; [|f_equiv].
      - destruct (sc_Privileged sc) as [[]|]; cbn; by split.
      - apply at_each_nil; intros; by apply member_nil.
      - destruct (sc_ProcMount sc) as [m|]; [|by split]. destruct (String.eqb_spec m "Default") as [->|Hm]; [split; [by intros _ ? [= <-]|done]|]. split; [done|]. intros H. by destruct (Hm (H m eq_refl)). }
  split.
  - intros (H1 & H2 & H3 & H4 & H5) sc' [= <-] pw Hn. destruct Hn as [pw Hk|o Ho Hu|o Ho Hu|Hw|Hpr|l c Hl Hc' Hnc|m Hm Hd]; [by apply H1|by eapply H2|by eapply H3|by apply H4|..];
      (destruct H5 as [H5|(Ha & Hb & Hc)]; [done|]); [done| |by destruct (Hd (Hc m Hm))].
    rewrite Hl in Hb. by destruct (Hnc (Hb c Hc')).
  - intros H. specialize (H sc eq_refl). split_and!.
    + intros pw Hk. apply H. by apply xn_field.
    + intros o Ho Hu. apply H. by eapply xn_profile.
    + intros o Ho Hu. apply H. by eapply xn_selinux.
    + intros Hw. apply H. by eapply xn_process.
    + destruct (AllowPrivileged p) eqn:E; [by left|right]. assert (¬ context_needs jsonError sc Privileged) as Hn by (intros Hx; apply H in Hx; cbn in Hx; congruence).
      split_and!.
      * intros Hp. apply Hn. by apply xn_privileged.
      * intros c Hc. destruct (decide (c ∈ baselineCapabilities)) as [|Hc']; [done|]. destruct (sc_Capabilities sc) as [l|] eqn:El; [|by apply not_elem_of_nil in Hc].
        destruct Hn. by eapply xn_capability.
      * intros m Hm. destruct (decide (m = "Default")) as [|Hd]; [done|]. destruct Hn. by eapply xn_procMount.
Qed.

(** ** Volumes *)

Lemma check_projection_nil subj prefix sp s :
  check_projection jsonError p sa subj prefix sp s = [] ↔ granted p (projection_needs jsonError sa s).
Proof.
  unfold check_projection. rewrite !app_nil, checkKeys_closed.
  assert ((match vp_Secret s with Some n => secret p (sp +:+ ".secret") subj n (prefix ++ [Lit "a projected volume that "]) | None => [] end) = [] ↔
    ∀ n, vp_Secret s = Some n → n ∈ AllowSecrets p) as ->.
  { destruct (vp_Secret s) as [n|]; [|by split]. rewrite secret_nil. split; [by intros ? ? [= <-]|intros H; by apply H]. }
  rewrite (unless_nil _ _ (vp_ServiceAccountToken s = None ∧ vp_PodCertificate s = false)).
  2:{ rewrite app_nil. destruct (vp_ServiceAccountToken s), (vp_PodCertificate s); cbn; split; try done; by intros []. }
  rewrite bool_decide_eq_true. split.
  - intros (H1 & H2 & H3) pw Hn. destruct Hn as [pw Hk|n Hs|t Ht|Hc]; [by apply H1|by apply H2|..]; destruct H3 as [H3|[H3 H4]]; try done; congruence.
  - intros H. split_and!.
    + intros pw Hk. apply H. by apply jn_field.
    + intros n Hs. apply (H (Secret n)). by apply jn_secret.
    + destruct (decide (sa ∈ AllowServiceAccounts p)) as [|Hn]; [by left|right]. split.
      * destruct (vp_ServiceAccountToken s) as [t|] eqn:E; [|done]. destruct Hn. apply (H (Account sa)). by eapply jn_token.
      * destruct (vp_PodCertificate s) eqn:E; [|done]. destruct Hn. apply (H (Account sa)). by apply jn_certificate.
Qed.

Lemma source_keys_nil subj prefix at_ src :
  jsonError (VolumeSource_keys src) = None →
  concat (map (check_source_key p subj prefix at_) (VolumeSource_keys src)) = [] ↔ granted p (keys_need jsonError volumeSourceClass VolumeType (VolumeSource_keys src)).
Proof.
  intros He. rewrite concat_nil. split.
  - intros H pw Hn. assert (∀ k, k ∈ VolumeSource_keys src → check_source_key p subj prefix at_ k = []) as Hk by (intros k Hk; apply H; by apply list_elem_of_fmap_2).
    destruct Hn as [e Hx|k Hin Ht|k Hin Ht|k Hin Ht]; [congruence|..]; specialize (Hk k Hin); unfold check_source_key in Hk; rewrite Ht in Hk; [done| |].
    + exfalso. revert Ht. unfold volumeSourceClass. clear. intros Ht%lookup_union_Some_raw. revert Ht. rewrite lookup_union_None.
      unfold fields. intros [Ht|[_ Ht]]; [apply lookup_union_Some_raw in Ht as [Ht|[_ Ht]]|]; apply elem_of_list_to_map_2 in Ht; apply list_elem_of_fmap in Ht as (n & [= _] & _).
    + cbn. by case_bool_decide.
  - intros H x (k & -> & Hk)%list_elem_of_fmap. unfold check_source_key. destruct (volumeSourceClass !! k) as [[]|] eqn:Ht; try done.
    + case_bool_decide as Hd; [done|]. destruct Hd. apply (H (VolumeType k)). by apply kn_optin.
    + destruct (H Nobody). by eapply kn_unknown.
Qed.

Lemma option_nil {A B} (o : option A) (f : A → list B) (P : A → Prop) :
  (∀ a, f a = [] ↔ P a) → (match o with Some a => f a | None => [] end) = [] ↔ ∀ a, o = Some a → P a.
Proof. clear. intros Hf. destruct o as [a|]; [|by split]. rewrite Hf. split; [by intros ? ? [= <-]|intros H; by apply H]. Qed.

Lemma checkVolumeSource_nil src subj at_ prefix :
  checkVolumeSource jsonError p sa src subj at_ prefix = [] ↔ granted p (source_needs jsonError sa src).
Proof.
  unfold checkVolumeSource. destruct (jsonError (VolumeSource_keys src)) as [e|] eqn:He.
  { split; [done|]. intros H. destruct (H Nobody). apply sn_type. by eapply kn_error. }
  rewrite !app_nil, source_keys_nil by done.
  rewrite (option_nil _ _ (λ _, AllowHostAccess p = true)) by (intros hp; by destruct (AllowHostAccess p)).
  rewrite (option_nil (vs_Secret src) _ (λ n, n ∈ AllowSecrets p)) by (intros n; apply secret_nil).
  rewrite (option_nil (vs_PVC src) _ (λ n, n ∈ AllowPersistentVolumeClaims p)) by (intros n; by apply member_nil).
  rewrite (at_each_nil _ _ (λ j, granted p (projection_needs jsonError sa j))) by (intros; apply check_projection_nil).
  split.
  - intros (H1 & H2 & H3 & H4 & H5) pw Hn. destruct Hn as [pw Hk|hp Hp|n Hs|n Hc|l j pw Hl Hj Hn]; [by apply H1|by eapply H2|by apply H3|by apply H4|].
    rewrite Hl in H5. by eapply H5.
  - intros H. split_and!.
    + intros pw Hk. apply H. by apply sn_type.
    + intros hp Hp. apply (H Host). by eapply sn_host.
    + intros n Hs. apply (H (Secret n)). by apply sn_secret.
    + intros n Hs. apply (H (Claim n)). by apply sn_claim.
    + intros j Hj pw Hn. destruct (vs_Projected src) as [l|] eqn:El; [|by apply not_elem_of_nil in Hj]. apply H. by eapply sn_projected.
Qed.

Lemma mount_nil path subj m tv :
  mount jsonError p sa path subj m tv = [] ↔ (m ∉ credentialVolumeNames) ∧ ∀ v, tv m = Some v → granted p (source_needs jsonError sa (v_Source v)).
Proof.
  unfold mount. case_bool_decide as Hm; [naive_solver|]. rewrite (option_nil _ _ (λ v, granted p (source_needs jsonError sa (v_Source v)))) by (intros v; apply checkVolumeSource_nil).
  tauto.
Qed.

(** ** Containers *)

Lemma elem_of_handlers h c :
  h ∈ handlers c ↔ c_LivenessProbe c = Some h ∨ c_ReadinessProbe c = Some h ∨ c_StartupProbe c = Some h ∨ c_Lifecycle c ≫= fst = Some h ∨ c_Lifecycle c ≫= snd = Some h.
Proof.
  clear. unfold handlers. rewrite list_elem_of_omap. unfold id. split.
  - intros (o & Ho & ->). rewrite !elem_of_cons, elem_of_nil in Ho. intuition congruence.
  - intros H. exists (Some h). rewrite !elem_of_cons, elem_of_nil. intuition congruence.
Qed.

Definition handler_granted (o : option Handler) : Prop := ∀ h, o = Some h → granted p (handler_needs h).

Lemma handler_nil path subj o : (match o with Some h => handlerHost p path subj h | None => [] end) = [] ↔ handler_granted o.
Proof. apply option_nil. intros h. apply handlerHost_nil. Qed.

Lemma probes_nil path subj ct :
  concat (map (λ pr : string * option Handler, match pr.2 with Some h => handlerHost p (path +:+ "." +:+ pr.1) subj h | None => [] end)
    [("livenessProbe", c_LivenessProbe ct); ("readinessProbe", c_ReadinessProbe ct); ("startupProbe", c_StartupProbe ct)]) = [] ↔
  handler_granted (c_LivenessProbe ct) ∧ handler_granted (c_ReadinessProbe ct) ∧ handler_granted (c_StartupProbe ct).
Proof. cbn [concat map fst snd]. rewrite app_nil_r, !app_nil, !handler_nil. done. Qed.

Lemma lifecycle_nil path subj ct :
  (match c_Lifecycle ct with
   | Some (postStart, preStop) =>
       (match postStart with Some h => handlerHost p (path +:+ ".lifecycle.postStart") subj h | None => [] end)
       ++ (match preStop with Some h => handlerHost p (path +:+ ".lifecycle.preStop") subj h | None => [] end)
   | None => []
   end) = [] ↔ handler_granted (c_Lifecycle ct ≫= fst) ∧ handler_granted (c_Lifecycle ct ≫= snd).
Proof. destruct (c_Lifecycle ct) as [[a b]|]; [|by split]. rewrite app_nil, !handler_nil. done. Qed.

Definition mount_granted (tv : string → option Volume) (m : string) : Prop :=
  (m ∉ credentialVolumeNames) ∧ ∀ v, tv m = Some v → granted p (source_needs jsonError sa (v_Source v)).

Lemma checkContainer_nil tv path ct :
  checkContainer jsonError p sa tv path ct = [] ↔ granted p (reaches jsonError sa tv ct).
Proof.
  unfold checkContainer. rewrite !app_nil, checkKeys_closed, checkSecurityContext_nil, probes_nil, lifecycle_nil.
  rewrite (unless_nil _ _ (∀ q, q ∈ c_Ports ct → ¬ (cp_HostPort q ≠ 0%Z ∨ cp_HostIP q ≠ ""))).
  2:{ apply at_each_nil. intros at_ q. rewrite <-Z.eqb_neq, <-String.eqb_neq, <-!negb_true_iff, <-orb_true_iff. by destruct (_ || _). }
  rewrite (at_each_nil _ _ (λ e, ∀ n, ev_SecretRef e = Some n → n ∈ AllowSecrets p)) by (intros; apply option_nil; intros n; apply secret_nil).
  rewrite (at_each_nil _ _ (λ e : option string, ∀ n, e = Some n → n ∈ AllowSecrets p)) by (intros; apply option_nil; intros n; apply secret_nil).
  rewrite (at_each_nil _ _ (λ m, mount_granted tv (m_Name m))) by (intros; apply mount_nil).
  rewrite (at_each_nil _ _ (mount_granted tv)) by (intros; apply mount_nil).
  assert ((∀ m, m ∈ c_VolumeMounts ct → mount_granted tv (m_Name m)) ∧ (∀ d, d ∈ c_VolumeDevices ct → mount_granted tv d) ↔ ∀ m, m ∈ mounted ct → mount_granted tv m) as Hm.
  { unfold mounted. setoid_rewrite elem_of_app. setoid_rewrite list_elem_of_fmap. naive_solver. }
  split.
  - intros (H1 & H2 & H3 & H4 & (H5 & H6 & H7) & (H8 & H9) & H10 & H11). pose proof (proj1 Hm H11) as Hmount. clear H11. rename Hmount into H11. intros pw Hr.
    destruct Hr as [pw Hn|m v pw Hin Hv Hn]; [|by eapply (H11 m)].
    destruct Hn as [pw Hk|q Hq Hh|e n He Hs|n He|h pw Hh Hn|sc pw Hsc Hn|m Hin Hc]; [by apply H1| |by eapply H3|by eapply H4| |by eapply H10|by destruct (H11 m Hin)].
    + destruct H2 as [H2|H2]; [done|]. by destruct (H2 q Hq).
    + apply elem_of_handlers in Hh as [Hh|[Hh|[Hh|[Hh|Hh]]]]; [by eapply H5|by eapply H6|by eapply H7|by eapply H8|by eapply H9].
  - intros H. assert (∀ pw, container_needs jsonError ct pw → grants p pw) as Hc by (intros pw Hn; apply H; by apply rc_itself).
    assert (∀ o, (∀ h, o = Some h → h ∈ handlers ct) → handler_granted o) as Hh.
    { intros o Ho h Hs pw Hn. apply Hc. eapply cn_handler; [by apply Ho|done]. }
    assert (∀ m, m ∈ mounted ct → mount_granted tv m) as [Hm1 Hm2]%Hm.
    { intros m Hin. split; [intros Hcr; apply (Hc Nobody); by eapply cn_credential|]. intros v Hv pw Hn. apply H. by eapply rc_mount. }
    split_and!; try (apply Hh; intros h Hs; apply elem_of_handlers; tauto); try done.
    + intros pw Hk. apply Hc. by apply cn_field.
    + destruct (AllowHostAccess p) eqn:E; [by left|right]. intros q Hq Hx. assert (AllowHostAccess p = true) by (apply (Hc Host); by eapply cn_port). congruence.
    + intros e He n Hs. apply (Hc (Secret n)). by eapply cn_env.
    + intros e He n ->. apply (Hc (Secret n)). by apply cn_env_from.
    + intros sc Hsc pw Hn. apply Hc. by eapply cn_context.
Qed.

(** ** Specifications *)

Lemma no_template_reaches ct : granted p (reaches jsonError sa no_template ct) ↔ granted p (container_needs jsonError ct).
Proof. split; intros H pw Hn; [apply H; by apply rc_itself|]. destruct Hn as [pw Hn|m v pw _ Hv _]; [by apply H|done]. Qed.

Lemma checkVolume_nil path v : checkVolume jsonError p sa path v = [] ↔ granted p (source_needs jsonError sa (v_Source v)).
Proof. apply checkVolumeSource_nil. Qed.

Lemma namespaces_nil path spec :
  ((if ps_HostNetwork spec then deny (path +:+ ".hostNetwork") [] [Lit "true shares the node's network namespace"] [Lit "allowHostAccess: true"] else [])
   ++ (if ps_HostPID spec then deny (path +:+ ".hostPID") [] [Lit "true shares the node's process namespace"] [Lit "allowHostAccess: true"] else [])
   ++ (if ps_HostIPC spec then deny (path +:+ ".hostIPC") [] [Lit "true shares the node's IPC namespace"] [Lit "allowHostAccess: true"] else [])) = [] ↔
  ¬ (ps_HostNetwork spec = true ∨ ps_HostPID spec = true ∨ ps_HostIPC spec = true).
Proof. clear. destruct (ps_HostNetwork spec), (ps_HostPID spec), (ps_HostIPC spec); cbn; intuition discriminate. Qed.

Lemma accounts_nil path spec :
  concat (map (λ f : string * string,
       if negb (f.2 =? "")%string && negb (bool_decide (f.2 ∈ AllowServiceAccounts p))
       then deny (path +:+ "." +:+ f.1) [] [Lit "selects ServiceAccount "; Quo f.2] (allow_name "allowServiceAccounts" f.2) else [])
       [("serviceAccountName", ps_ServiceAccountName spec); ("serviceAccount", ps_DeprecatedServiceAccount spec)]) = [] ↔
  ∀ n, n = ps_ServiceAccountName spec ∨ n = ps_DeprecatedServiceAccount spec → n ≠ "" → n ∈ AllowServiceAccounts p.
Proof.
  assert (∀ f n, (if negb (n =? "")%string && negb (bool_decide (n ∈ AllowServiceAccounts p))
       then deny (path +:+ "." +:+ f) [] [Lit "selects ServiceAccount "; Quo n] (allow_name "allowServiceAccounts" n) else []) = [] ↔ (n ≠ "" → n ∈ AllowServiceAccounts p)) as H.
  { clear. intros f n. destruct (String.eqb_spec n "") as [->|Hne]; cbn [negb andb]; [by split|]. case_bool_decide; cbn; split; try done. intros H'. by specialize (H' Hne). }
  cbn [concat map fst snd]. rewrite app_nil_r, app_nil, !H. naive_solver.
Qed.

Lemma token_nil path spec :
  (match ps_AutomountServiceAccountToken spec with
   | Some true => if bool_decide (sa ∈ AllowServiceAccounts p) then []
                  else deny (path +:+ ".automountServiceAccountToken") [] [Lit "true mounts the token of ServiceAccount "; Quo sa] (allow_name "allowServiceAccounts" sa)
   | _ => []
   end) = [] ↔ (ps_AutomountServiceAccountToken spec = Some true → sa ∈ AllowServiceAccounts p).
Proof. clear. destruct (ps_AutomountServiceAccountToken spec) as [[]|]; [|by split..]. rewrite member_nil by done. tauto. Qed.

Lemma node_nil path spec :
  (if negb (ps_NodeName spec =? "")%string && negb (AllowNodeName p)
   then deny (path +:+ ".nodeName") [] [Lit "pins the Pod to node "; Quo (ps_NodeName spec); Lit ", bypassing the scheduler"] [Lit "allowNodeName: true"] else []) = [] ↔
  (ps_NodeName spec ≠ "" → AllowNodeName p = true).
Proof. clear. destruct (String.eqb_spec (ps_NodeName spec) "") as [->|Hne]; cbn [negb andb]; [by split|]. destruct (AllowNodeName p); cbn; split; try done. intros H. by specialize (H Hne). Qed.

Lemma checkPodSpec_nil spec path : checkPodSpec jsonError p sa spec path = [] ↔ granted p (spec_needs jsonError sa spec).
Proof.
  unfold checkPodSpec. rewrite !app_nil, (checkKeys_nil _ _ _ _ _ _ SpecField) by done.
  rewrite accounts_nil, token_nil, node_nil, (unless_nil _ _ _ (namespaces_nil path spec)).
  rewrite (at_each_nil _ _ (λ s, s ∈ AllowImagePullSecrets p)) by (intros; by apply member_nil).
  rewrite checkPodSecurityContext_nil.
  rewrite !(at_each_nil _ (checkContainer _ _ _ _) (λ c, granted p (container_needs jsonError c))) by (intros; by rewrite checkContainer_nil, no_template_reaches).
  rewrite (at_each_nil _ _ (λ v, granted p (source_needs jsonError sa (v_Source v)))) by (intros; apply checkVolume_nil).
  split.
  - intros (H1 & H2 & H3 & H4 & H5 & H6 & H7 & H8 & H9 & H10) pw Hn.
    destruct Hn as [pw Hn|c pw Hc Hn|v pw Hv Hn]; [| |by eapply H10].
    + destruct Hn as [pw Hk|n Hn Hne|Ht|Hne|Hns|n Hn|sc pw Hsc Hn]; [by apply H1|by apply H2|by apply H3|by apply H4|by destruct H5|by apply H6|by eapply H7].
    + apply elem_of_app in Hc as [Hc|Hc]; [by eapply H8|by eapply H9].
  - intros H. assert (granted p (pod_needs jsonError sa spec)) as Hpod by (intros pw Hn; apply H; by apply sp_pod). split_and!.
    + intros pw Hk. apply Hpod. by apply pn_field.
    + intros n Hn Hne. apply (Hpod (Account n)). by apply pn_account.
    + intros Ht. apply (Hpod (Account sa)). by apply pn_token.
    + intros Hne. apply (Hpod OnNode). by apply pn_node.
    + destruct (AllowHostAccess p) eqn:E; [by left|right]. intros Hx. assert (AllowHostAccess p = true) by (apply (Hpod Host); by apply pn_namespace). congruence.
    + intros n Hn. apply (Hpod (PullSecret n)). by apply pn_pull.
    + intros sc Hsc pw Hn. apply Hpod. by eapply pn_context.
    + intros c Hc pw Hn. apply H. eapply sp_container; [|done]. apply elem_of_app. by left.
    + intros c Hc pw Hn. apply H. eapply sp_container; [|done]. apply elem_of_app. by right.
    + intros v Hv pw Hn. apply H. by eapply sp_volume.
Qed.
End facts.
