(* ===== verification/PodBuilder.v ===== *)
(** * internal/k8sagent/podbuilder.go and workspace_limit.go: the pod of a run

    The artifact sidecar, the pod specification from a template and its patch, and what
    the agent injects into it: the primary container, the keep-alive, the workspace,
    the named volumes and the shim; then the limit on the workspace. *)

From S2P Require Import Prelude GoStrings GoPath DslTypes VolumePlaces K8sVolumes PodSpecs PodPolicy.
From stdpp Require Import options.

(** ** Updates *)

Definition with_command (cmd args : list string) (c : Container) : Container :=
  MkContainer (c_Name c) (c_Image c) cmd args (c_WorkingDir c) (c_Ports c) (c_EnvFrom c) (c_Env c) (c_Requests c) (c_Limits c) (c_VolumeMounts c) (c_VolumeDevices c)
    (c_LivenessProbe c) (c_ReadinessProbe c) (c_StartupProbe c) (c_Lifecycle c) (c_SecurityContext c) (c_other c).
Definition with_workdir (dir : string) (c : Container) : Container :=
  MkContainer (c_Name c) (c_Image c) (c_Command c) (c_Args c) dir (c_Ports c) (c_EnvFrom c) (c_Env c) (c_Requests c) (c_Limits c) (c_VolumeMounts c) (c_VolumeDevices c)
    (c_LivenessProbe c) (c_ReadinessProbe c) (c_StartupProbe c) (c_Lifecycle c) (c_SecurityContext c) (c_other c).
Definition with_env (envFrom : list (option string)) (env : list EnvVar) (c : Container) : Container :=
  MkContainer (c_Name c) (c_Image c) (c_Command c) (c_Args c) (c_WorkingDir c) (c_Ports c) envFrom env (c_Requests c) (c_Limits c) (c_VolumeMounts c) (c_VolumeDevices c)
    (c_LivenessProbe c) (c_ReadinessProbe c) (c_StartupProbe c) (c_Lifecycle c) (c_SecurityContext c) (c_other c).
Definition with_requests (requests : gmap string string) (c : Container) : Container :=
  MkContainer (c_Name c) (c_Image c) (c_Command c) (c_Args c) (c_WorkingDir c) (c_Ports c) (c_EnvFrom c) (c_Env c) requests (c_Limits c) (c_VolumeMounts c) (c_VolumeDevices c)
    (c_LivenessProbe c) (c_ReadinessProbe c) (c_StartupProbe c) (c_Lifecycle c) (c_SecurityContext c) (c_other c).
Definition with_mount (m : Mount) (c : Container) : Container :=
  MkContainer (c_Name c) (c_Image c) (c_Command c) (c_Args c) (c_WorkingDir c) (c_Ports c) (c_EnvFrom c) (c_Env c) (c_Requests c) (c_Limits c) (c_VolumeMounts c ++ [m]) (c_VolumeDevices c)
    (c_LivenessProbe c) (c_ReadinessProbe c) (c_StartupProbe c) (c_Lifecycle c) (c_SecurityContext c) (c_other c).
(** The volumes, init containers and containers of a specification. *)
Definition with_parts (vols : list Volume) (inits containers : list Container) (s : PodSpec) : PodSpec :=
  MkPodSpec vols inits containers (ps_RestartPolicy s) (ps_ServiceAccountName s) (ps_DeprecatedServiceAccount s) (ps_AutomountServiceAccountToken s) (ps_NodeName s)
    (ps_HostNetwork s) (ps_HostPID s) (ps_HostIPC s) (ps_SecurityContext s) (ps_ImagePullSecrets s) (ps_other s).
Definition with_restart (policy : string) (s : PodSpec) : PodSpec :=
  MkPodSpec (ps_Volumes s) (ps_InitContainers s) (ps_Containers s) policy (ps_ServiceAccountName s) (ps_DeprecatedServiceAccount s) (ps_AutomountServiceAccountToken s) (ps_NodeName s)
    (ps_HostNetwork s) (ps_HostPID s) (ps_HostIPC s) (ps_SecurityContext s) (ps_ImagePullSecrets s) (ps_other s).
Definition podspec_of (containers : list Container) : PodSpec := MkPodSpec [] [] containers "" "" "" None "" false false false None [] [].

(** ** The artifact sidecar *)

Definition sidecarBinary : string := "/usr/local/bin/unified-sidecar".
Definition artifactSidecarName : string := "unified-artifact".
Definition primaryContainerName : string := "job".
Definition ucdMountPath : string := "/.ucd".
Definition ucdToolsVolume : string := "ucd-tools".
Definition ucdShimContainerName : string := "ucd-shim".
Definition ucdShimBinary : string := "/ucd-sh".
Definition SidecarS3SecretModeFile : string := "file".
Definition SidecarS3SecretModeBroker : string := "broker".
Definition sidecarBrokerTokenFile : string := "token".
Definition sidecarS3CredentialsSecretKey : string := "credentials".
Definition KubernetesStoreCredentialAudience : string := "unified-cd-store-credentials".

Record SidecarSpec := MkSidecarSpec { ss_Image : string; ss_S3SecretName : string; ss_S3SecretMode : string; ss_BrokerURL : string }.

Definition buildArtifactSidecarContainer (sidecar : SidecarSpec) : Container * option Volume :=
  let sc := with_command [sidecarBinary; "idle"] [] (container_of artifactSidecarName (ss_Image sidecar)) in
  if (ss_S3SecretMode sidecar =? SidecarS3SecretModeBroker)%string then
    (with_mount (MkMount sidecarBrokerTokenVolumeName sidecarBrokerTokenMountPath "" true)
       (with_env [] [MkEnvVar "UNIFIED_S3_BROKER_URL" (ss_BrokerURL sidecar) None;
                     MkEnvVar "UNIFIED_S3_BROKER_TOKEN_FILE" (sidecarBrokerTokenMountPath +:+ "/" +:+ sidecarBrokerTokenFile) None] sc),
     Some (MkVolume sidecarBrokerTokenVolumeName
             (MkVolumeSource None None None None (Some [MkVolumeProjection None (Some KubernetesStoreCredentialAudience) false []]) [])))
  else if (ss_S3SecretName sidecar =? "")%string then (sc, None)
  else if (ss_S3SecretMode sidecar =? SidecarS3SecretModeFile)%string then
    (with_mount (MkMount sidecarS3CredentialsVolumeName sidecarS3CredentialsMountPath sidecarS3CredentialsSecretKey true)
       (with_env [] [MkEnvVar "UNIFIED_S3_CREDENTIAL_FILE" sidecarS3CredentialsMountPath None] sc),
     Some (MkVolume sidecarS3CredentialsVolumeName (MkVolumeSource None None (Some (ss_S3SecretName sidecar)) None None [])))
  else (with_env [Some (ss_S3SecretName sidecar)] [] sc, None).

(** ** Patches *)

(** A later entry replaces the first of its name, or is added. *)
Fixpoint merge_one {A} (name : A → string) (l : list A) (x : A) : list A :=
  match l with
  | [] => [x]
  | y :: l => if (name y =? name x)%string then x :: l else y :: merge_one name l x
  end.
Definition mergeContainers (base patch : list Container) : list Container := foldl (merge_one c_Name) base patch.
Definition mergeVolumes (base patch : list Volume) : list Volume := foldl (merge_one v_Name) base patch.

(** ** What the agent injects *)

Definition ucdKeepAliveArgv : list string := [ucdMountPath +:+ "/ucd-sh"; "pause"].

Definition injectPrimaryJob (fallbackImage DefaultImage : string) (containers : list Container) : list Container :=
  if existsb (λ c, (c_Name c =? primaryContainerName)%string) containers then containers
  else containers ++ [container_of primaryContainerName (if (fallbackImage =? "")%string then DefaultImage else fallbackImage)].

Definition injectKeepAlive (containers : list Container) : list Container :=
  map (λ c, if (c_Name c =? primaryContainerName)%string then with_command ucdKeepAliveArgv [] c else c) containers.

Definition workspaceMountOf (wsCfg : option WorkspaceConfig) : string :=
  match wsCfg with Some w => if (wc_MountPath w =? "")%string then "/workspace" else wc_MountPath w | None => "/workspace" end.

Definition resolveWorkspaceConfig (agentTmpls : gmap string AgentPodTemplate) (jobTmpl : option PodTemplate) : option WorkspaceConfig :=
  match jobTmpl with
  | None => None
  | Some jt =>
      if negb (pt_Name jt =? "")%string then
        match pt_Workspace jt with Some w => Some w | None => agentTmpls !! pt_Name jt ≫= apt_Workspace end
      else pt_Workspace jt
  end.

Definition workspaceVolumeName : string := "workspace".
Definition buildWorkspaceVolume : Volume := MkVolume workspaceVolumeName emptyDir_source.

Fixpoint replace_first (vol : Volume) (l : list Volume) : option (list Volume) :=
  match l with
  | [] => None
  | v :: l => if (v_Name v =? v_Name vol)%string then Some (vol :: l) else match replace_first vol l with Some l' => Some (v :: l') | None => None end
  end.
Definition inject_workspace_volume (vols : list Volume) : list Volume := default (vols ++ [buildWorkspaceVolume]) (replace_first buildWorkspaceVolume vols).

Definition workspace_container (mountPath : string) (c : Container) : res Container :=
  let c := if existsb (λ m, (m_Name m =? workspaceVolumeName)%string) (c_VolumeMounts c) then c else with_mount (MkMount workspaceVolumeName mountPath "" false) c in
  if (c_Name c =? primaryContainerName)%string then
    _ ← fail_if (negb (c_WorkingDir c =? "")%string && negb (c_WorkingDir c =? mountPath)%string)
          [Lit "podTemplate container "; Quo primaryContainerName; Lit " declares workingDir, but steps execute in it: steps always run at the workspace mount (artifact/cache paths and UNIFIED_WORKSPACE resolve there); move the cd into the step script, or put workingDir on a sidecar"];
    Ok (with_workdir mountPath c)
  else Ok (if (c_WorkingDir c =? "")%string then with_workdir mountPath c else c).

Definition injectWorkspace (wsCfg : option WorkspaceConfig) (s : PodSpec) : res PodSpec :=
  cs ← map_res (workspace_container (workspaceMountOf wsCfg)) (ps_Containers s);
  Ok (with_parts (inject_workspace_volume (ps_Volumes s)) (ps_InitContainers s) cs s).

Definition podVolumeNamePrefix : string := "ucd-vol-".

(** One named volume: at the workspace root its claim is the workspace. *)
Definition inject_volume (workspaceMount : string) (i : nat) (pv : PodVolume) (s : PodSpec) : PodSpec :=
  let src := pvc_source (pv_ClaimName pv) in
  if (pv_MountPath pv =? ".")%string then
    with_parts (map (λ v, if (v_Name v =? "workspace")%string then MkVolume (v_Name v) src else v) (ps_Volumes s)) (ps_InitContainers s) (ps_Containers s) s
  else
    let name := podVolumeNamePrefix +:+ pretty (N.of_nat i) in
    with_parts (ps_Volumes s ++ [MkVolume name src]) (ps_InitContainers s)
      (map (with_mount (MkMount name (volumeContainerPath workspaceMount (pv_MountPath pv)) "" false)) (ps_Containers s)) s.
Fixpoint inject_from (workspaceMount : string) (i : nat) (vols : list PodVolume) (s : PodSpec) : PodSpec :=
  match vols with
  | [] => s
  | pv :: vols => inject_from workspaceMount (S i) vols (inject_volume workspaceMount i pv s)
  end.
Definition injectVolumes (workspaceMount : string) (vols : list PodVolume) (s : PodSpec) : PodSpec := inject_from workspaceMount 0 vols s.

Definition ucd_mount : Mount := MkMount ucdToolsVolume ucdMountPath "" false.
Definition shim_container (shimImage : string) : Container :=
  with_mount ucd_mount (with_command [ucdShimBinary; "--install"; ucdMountPath +:+ "/ucd-sh"] [] (container_of ucdShimContainerName shimImage)).
Definition injectUcdShim (shimImage : string) (s : PodSpec) : PodSpec :=
  with_parts (ps_Volumes s ++ [MkVolume ucdToolsVolume emptyDir_source]) (shim_container shimImage :: ps_InitContainers s) (map (with_mount ucd_mount) (ps_Containers s)) s.

(** ** The pod *)

Record Pod := MkPodObject { p_Name : string; p_Namespace : string; p_Labels : gmap string string; p_Annotations : gmap string string; p_Spec : PodSpec }.
Definition annoPoolTemplate : string := "unified-cd/pool-template".
Definition annoPoolStatus : string := "unified-cd/pool-status".
Definition poolStatusIdle : string := "idle".
Definition poolStatusInUse : string := "in-use".

Section build.
(** [encoding/json] between the maps of a template and the typed values. *)
Variables (podSpecFromMap : vmap → res PodSpec) (containersFromMaps : list vmap → res (list Container)) (volumesFromMaps : list vmap → res (list Volume)).
(** [DefaultRunnerImage], fixed when the agent is built. *)
Variable DefaultRunnerImage : string.

Definition applyPatch (spec : PodSpec) (patch : PodSpecPatch) : res PodSpec :=
  spec ← match pp_Containers patch with
         | [] => Ok spec
         | ms => cs ← wrap [Lit "parse patch containers: "] (containersFromMaps ms);
                 Ok (with_parts (ps_Volumes spec) (ps_InitContainers spec) (mergeContainers (ps_Containers spec) cs) spec)
         end;
  match pp_Volumes patch with
  | [] => Ok spec
  | ms => vs ← wrap [Lit "parse patch volumes: "] (volumesFromMaps ms);
          Ok (with_parts (mergeVolumes (ps_Volumes spec) vs) (ps_InitContainers spec) (ps_Containers spec) spec)
  end.

Definition defaultPodSpec (image : string) : PodSpec :=
  podspec_of [container_of "job" (if (image =? "")%string then DefaultRunnerImage else image)].

Definition base_spec (agentTmpls : gmap string AgentPodTemplate) (jobTmpl : option PodTemplate) (fallbackImage : string) : res PodSpec :=
  match jobTmpl with
  | None => Ok (defaultPodSpec fallbackImage)
  | Some jt =>
      if negb (pt_Name jt =? "")%string then
        match agentTmpls !! pt_Name jt with
        | None => Err [Lit "pod template "; Quo (pt_Name jt); Lit " not found in agent config"]
        | Some at_ =>
            spec ← wrap [Lit "parse agent template "; Quo (pt_Name jt); Lit " spec: "] (podSpecFromMap (apt_Spec at_));
            match pt_Override jt with
            | Some patch => wrap [Lit "apply pod spec patch: "] (applyPatch spec patch)
            | None => Ok spec
            end
        end
      else match pt_Spec jt with
           | [] => Ok (defaultPodSpec fallbackImage)
           | m => wrap [Lit "parse inline pod spec: "] (podSpecFromMap m)
           end
  end.

Definition check_names (containers : list Container) : res unit :=
  each (λ i c,
    _ ← fail_if (c_Name c =? "")%string [Lit ("podTemplate container at index " +:+ pretty (N.of_nat i) +:+ " has no name")];
    fail_if (c_Name c =? artifactSidecarName)%string [Lit "container name "; Quo artifactSidecarName; Lit " is reserved for the artifact sidecar"]) containers.

Definition add_sidecar (sidecar : SidecarSpec) (s : PodSpec) : PodSpec :=
  if (ss_Image sidecar =? "")%string then s
  else let '(sc, vol) := buildArtifactSidecarContainer sidecar in
       with_parts (ps_Volumes s ++ match vol with Some v => [v] | None => [] end) (ps_InitContainers s) (ps_Containers s ++ [sc]) s.

Definition pool_annotations (jobTmpl : option PodTemplate) : gmap string string :=
  match jobTmpl with
  | Some jt => if pt_Reuse jt then <[annoPoolStatus := poolStatusInUse]> {[annoPoolTemplate := pt_Name jt]} else ∅
  | None => ∅
  end.

Definition BuildPod (runID namespace : string) (agentTmpls : gmap string AgentPodTemplate) (jobTmpl : option PodTemplate) (fallbackImage : string)
    (sidecar : SidecarSpec) (shimImage : string) (vols : list PodVolume) : res Pod :=
  spec ← base_spec agentTmpls jobTmpl fallbackImage;
  let wsCfg := resolveWorkspaceConfig agentTmpls jobTmpl in
  let spec := with_restart "Never" spec in
  let spec := with_parts (ps_Volumes spec) (ps_InitContainers spec) (injectKeepAlive (injectPrimaryJob fallbackImage DefaultRunnerImage (ps_Containers spec))) spec in
  _ ← check_names (ps_Containers spec);
  spec ← injectWorkspace wsCfg (add_sidecar sidecar spec);
  let spec := injectVolumes (workspaceMountOf wsCfg) vols spec in
  Ok (MkPodObject (podName runID) namespace (po_labels (pod_of runID vols)) (pool_annotations jobTmpl) (injectUcdShim shimImage spec)).
End build.

(** ** workspace_limit.go *)

Definition ephemeralStorage : string := "ephemeral-storage".
Definition has_ephemeral (c : Container) : bool := bool_decide (is_Some (c_Requests c !! ephemeralStorage)) || bool_decide (is_Some (c_Limits c !! ephemeralStorage)).
Definition podHasEphemeralStorage (s : PodSpec) : bool := existsb has_ephemeral (ps_Containers s) || existsb has_ephemeral (ps_InitContainers s).

(** The last element that satisfies [f] is changed. *)
Fixpoint update_last {A} (f : A → bool) (g : A → A) (l : list A) : option (list A) :=
  match l with
  | [] => None
  | x :: l => match update_last f g l with Some l' => Some (x :: l') | None => if f x then Some (g x :: l) else None end
  end.

Definition applyLimit (limit container : string) (s : PodSpec) : PodSpec :=
  if podHasEphemeralStorage s then s
  else
    match last (filter (λ v, v_Name v = workspaceVolumeName) (ps_Volumes s)) ≫= (λ v, vs_EmptyDir (v_Source v)) with
    | Some None =>
        let is_it c := (c_Name c =? container)%string in
        match update_last is_it (λ c, with_requests (<[ephemeralStorage := limit]> (c_Requests c)) c) (ps_Containers s) with
        | None => s
        | Some cs =>
            let sized v := MkVolume (v_Name v) (MkVolumeSource (Some (Some limit)) (vs_HostPath (v_Source v)) (vs_Secret (v_Source v)) (vs_PVC (v_Source v))
                             (vs_Projected (v_Source v)) (vs_other (v_Source v))) in
            with_parts (default (ps_Volumes s) (update_last (λ v, (v_Name v =? workspaceVolumeName)%string) sized (ps_Volumes s))) (ps_InitContainers s) cs s
        end
    | _ => s
    end.
Definition applyWorkspaceLimit (limit : string) (s : PodSpec) : PodSpec := applyLimit limit primaryContainerName s.
Definition claimTemplateName (pt : option PodTemplate) : string := from_option pt_Name "" pt.
