(* ===== verification/PodFacts.v ===== *)
(** * The pods built for accepted jobs

    [CheckJobPodTemplate] refuses exactly what the policy does not grant, and what
    [BuildPod] makes of an accepted template gives no container of the job a power the
    policy does not grant, whatever the agent merges and injects. *)

From S2P Require Import Prelude GoStrings GoPath DslNames DslTypes Volumes VolumePlaces K8sVolumes PodSpecs PodPolicy PodPolicyFacts PodBuilder.
From stdpp Require Import options.

Section decoders.
Context (jsonError : list string → option text).
Context (podSpecFromMap : vmap → res PodSpec) (containersFromMaps : list vmap → res (list Container)) (volumesFromMaps : list vmap → res (list Volume)).
Context (DefaultRunnerImage : string).

(** What a job's own part of the template needs: its inline specification, or the
    volumes and containers of its patch, which also use the template's volumes. *)
Inductive job_needs (agentTmpls : gmap string AgentPodTemplate) (jt : PodTemplate) : power → Prop :=
| jb_inline spec pw :
    pt_Name jt = "" → pt_Spec jt ≠ [] → podSpecFromMap (pt_Spec jt) = Ok spec →
    spec_needs jsonError (effectiveServiceAccount spec) spec pw → job_needs agentTmpls jt pw
| jb_volume at_ base patch cs vs v pw :
    agentTmpls !! pt_Name jt = Some at_ → pt_Name jt ≠ "" → pt_Override jt = Some patch → podSpecFromMap (apt_Spec at_) = Ok base →
    containersFromMaps (pp_Containers patch) = Ok cs → volumesFromMaps (pp_Volumes patch) = Ok vs → v ∈ vs →
    source_needs jsonError (effectiveServiceAccount base) (v_Source v) pw → job_needs agentTmpls jt pw
| jb_container at_ base patch cs vs c pw :
    agentTmpls !! pt_Name jt = Some at_ → pt_Name jt ≠ "" → pt_Override jt = Some patch → podSpecFromMap (apt_Spec at_) = Ok base →
    containersFromMaps (pp_Containers patch) = Ok cs → volumesFromMaps (pp_Volumes patch) = Ok vs → c ∈ cs →
    reaches jsonError (effectiveServiceAccount base) (template_volume base vs) c pw → job_needs agentTmpls jt pw.

Lemma result_of_ok vs : result_of vs = Ok tt ↔ vs = [].
Proof. clear. by destruct vs. Qed.

Lemma checkOverride_ok p base patch :
  checkOverride jsonError containersFromMaps volumesFromMaps p base patch = Ok tt ↔
  ∀ cs vs, containersFromMaps (pp_Containers patch) = Ok cs → volumesFromMaps (pp_Volumes patch) = Ok vs →
    (∀ v, v ∈ vs → granted p (source_needs jsonError (effectiveServiceAccount base) (v_Source v))) ∧
    (∀ c, c ∈ cs → granted p (reaches jsonError (effectiveServiceAccount base) (template_volume base vs) c)).
Proof.
  unfold checkOverride. destruct (containersFromMaps _) as [cs|]; [|by split]. destruct (volumesFromMaps _) as [vs|]; [|by split].
  rewrite result_of_ok, app_nil.
  rewrite (at_each_nil _ _ (λ v, granted p (source_needs jsonError (effectiveServiceAccount base) (v_Source v)))) by (intros; apply checkVolume_nil).
  rewrite (at_each_nil _ _ (λ c, granted p (reaches jsonError (effectiveServiceAccount base) (template_volume base vs) c))) by (intros; apply checkContainer_nil).
  split; [by intros H ? ? [= <-] [= <-]|intros H; by apply H].
Qed.

Lemma check_ok p agentTmpls jt :
  CheckJobPodTemplate jsonError podSpecFromMap containersFromMaps volumesFromMaps p agentTmpls (Some jt) = Ok tt ↔ granted p (job_needs agentTmpls jt).
Proof.
  cbn [CheckJobPodTemplate]. destruct (String.eqb_spec (pt_Name jt) "") as [Hname|Hname]; cbn [negb].
  - destruct (pt_Spec jt) as [|kv m] eqn:Hs; [split; [|done]; intros _ pw Hn; destruct Hn; congruence|].
    destruct (podSpecFromMap (kv :: m)) as [spec|e] eqn:E; [|split; [|done]; intros _ pw Hn; destruct Hn; congruence].
    rewrite result_of_ok, checkPodSpec_nil. split; [|by intros H pw Hn; apply H; eapply jb_inline; [done|by rewrite Hs|by rewrite Hs|done]].
    intros H pw Hn. destruct Hn as [spec' pw _ _ E' Hn|at_ base patch cs vs v pw _ Hne|at_ base patch cs vs c pw _ Hne]; [|done|done].
    apply H. by assert (spec' = spec) as -> by congruence.
  - destruct (pt_Override jt) as [patch|] eqn:Ep; [|split; [|done]; intros _ pw Hn; destruct Hn; congruence].
    destruct (agentTmpls !! pt_Name jt) as [at_|] eqn:Ea; [|split; [|done]; intros _ pw Hn; destruct Hn; congruence].
    destruct (podSpecFromMap (apt_Spec at_)) as [base|e] eqn:E; [|split; [|done]; intros _ pw Hn; destruct Hn; congruence].
    rewrite checkOverride_ok. split.
    + intros H pw Hn. destruct Hn as [spec' pw Hn0|at' base' patch' cs vs v pw Ha _ Hp Hb Hc Hv Hin Hn|at' base' patch' cs vs c pw Ha _ Hp Hb Hc Hv Hin Hn]; [congruence|..];
        (assert (at' = at_) as -> by congruence); (assert (patch' = patch) as -> by congruence); (assert (base' = base) as -> by congruence);
        destruct (H cs vs Hc Hv) as [H1 H2]; [by eapply H1|by eapply H2].
    + intros H cs vs Hc Hv. split; intros x Hx pw Hn; apply H; [by eapply jb_volume|by eapply jb_container].
Qed.

(** ** From the container declared to the container that runs *)

Context (ws : string) (vols : list PodVolume).

(** The mounts of the agent: the workspace at [ws], the shim, the run's volumes. *)
Inductive agent_mount : Mount → Prop :=
| am_workspace : agent_mount (MkMount workspaceVolumeName ws "" false)
| am_tools : agent_mount ucd_mount
| am_volume i pv : vols !! i = Some pv → pv_MountPath pv ≠ "." →
    agent_mount (MkMount (podVolumeNamePrefix +:+ pretty (N.of_nat i)) (volumeContainerPath ws (pv_MountPath pv)) "" false).


(** [c'] is [c] with a command, a directory and mounts of the agent. *)
Record derived (c c' : Container) : Prop := {
  dv_name : c_Name c' = c_Name c;
  dv_image : c_Image c' = c_Image c;
  dv_ports : c_Ports c' = c_Ports c;
  dv_env : c_Env c' = c_Env c;
  dv_envFrom : c_EnvFrom c' = c_EnvFrom c;
  dv_handlers : handlers c' = handlers c;
  dv_keys k : k ∈ Container_keys c' → k ∈ Container_keys c ∨ k ∈ ["command"; "args"; "workingDir"; "volumeMounts"];
  dv_context : c_SecurityContext c' = c_SecurityContext c;
  dv_devices : c_VolumeDevices c' = c_VolumeDevices c;
  dv_mounts : ∃ extra, c_VolumeMounts c' = c_VolumeMounts c ++ extra ∧ Forall agent_mount extra
}.

Lemma elem_of_jsonKeys k l : k ∈ jsonKeys l ↔ k ∈ l.
Proof. clear. unfold jsonKeys. by rewrite elem_of_SortStrings, elem_of_remove_dups. Qed.

#[local] Ltac keys_same := intros k; unfold Container_keys; rewrite !elem_of_jsonKeys; cbn [c_Image c_Command c_Args c_WorkingDir c_Ports c_EnvFrom c_Env c_VolumeMounts c_VolumeDevices
  c_LivenessProbe c_ReadinessProbe c_StartupProbe c_Lifecycle c_SecurityContext c_other]; rewrite !elem_of_app.

Lemma elem_of_key_list {A} (l : list A) n k : k ∈ key_list l n → k = n.
Proof. clear. destruct l; cbn; [by intros ?%not_elem_of_nil|by intros ->%list_elem_of_singleton]. Qed.
Lemma elem_of_key_str s n k : k ∈ key_str s n → k = n.
Proof. clear. unfold key_str, key_if. destruct (negb _); [by intros ->%list_elem_of_singleton|by intros ?%not_elem_of_nil]. Qed.

#[export] Instance derived_preorder : PreOrder derived.
Proof.
  clear. split.
  - intros c. constructor; try done; [by left|exists []; by rewrite app_nil_r].
  - intros a b c [] []. constructor; try congruence.
    + intros k Hk. destruct (dv_keys1 k Hk) as [H|H]; [by apply dv_keys0|by right].
    + destruct dv_mounts0 as (e1 & H1 & F1), dv_mounts1 as (e2 & H2 & F2). exists (e1 ++ e2). rewrite H2, H1, <-app_assoc. split; [done|by apply Forall_app].
Qed.

Lemma derived_command cmd args c : derived c (with_command cmd args c).
Proof.
  clear. constructor; try done; [|exists []; by rewrite app_nil_r]. keys_same.
  intros Hk. destruct_or! Hk; try (left; tauto); right; apply elem_of_key_list in Hk as ->; set_solver.
Qed.

Lemma derived_workdir dir c : derived c (with_workdir dir c).
Proof.
  clear. constructor; try done; [|exists []; by rewrite app_nil_r]. keys_same.
  intros Hk. destruct_or! Hk; try (left; tauto); right; apply elem_of_key_str in Hk as ->; set_solver.
Qed.

Lemma derived_mount m c : agent_mount m → derived c (with_mount m c).
Proof.
  clear. intros Hm. constructor; try done; [|exists [m]; split; [done|by apply Forall_singleton]]. keys_same.
  intros Hk. destruct_or! Hk; try (left; tauto); right; apply elem_of_key_list in Hk as ->; set_solver.
Qed.

Lemma derived_keepalive c : derived c (if (c_Name c =? primaryContainerName)%string then with_command ucdKeepAliveArgv [] c else c).
Proof. destruct (_ =? _)%string; [apply derived_command|reflexivity]. Qed.

Lemma derived_workspace c c' : workspace_container ws c = Ok c' → derived c c'.
Proof.
  unfold workspace_container. set (c0 := if existsb _ _ then c else _). assert (derived c c0) as H0.
  { subst c0. destruct (existsb _ _); [reflexivity|]. apply derived_mount, am_workspace. }
  destruct (_ =? _)%string.
  - intros [_ H]%then_ok. injection H as <-. transitivity c0; [done|apply derived_workdir].
  - intros H. injection H as <-. destruct (_ =? _)%string; [|done]. transitivity c0; [done|apply derived_workdir].
Qed.

(** Without an error of the encoding, whatever is needed is needed. *)
Abbreviation plain := (λ _ : list string, @None text).

Lemma keys_plain table field keys pw : keys_need plain table field keys pw → keys_need jsonError table field keys pw.
Proof. intros []; [done|by eapply kn_unknown|by eapply kn_never|by apply kn_optin]. Qed.

Lemma source_plain sa s pw : source_needs plain sa s pw → source_needs jsonError sa s pw.
Proof.
  intros Hn. destruct Hn as [pw Hk|hp Hp|n Hs|n Hc|l j pw Hl Hj Hn]; [by apply sn_type, keys_plain|by eapply sn_host|by apply sn_secret|by apply sn_claim|].
  eapply sn_projected; [done|done|]. destruct Hn as [pw Hk|n Hs|t Ht|Hc]; [by apply jn_field, keys_plain|by apply jn_secret|by eapply jn_token|by apply jn_certificate].
Qed.

Lemma context_plain sc pw : context_needs plain sc pw → context_needs jsonError sc pw.
Proof.
  intros Hn. destruct Hn as [pw Hk|o Ho Hu|o Ho Hu|Hw|Hp|l c Hl Hc Hn|m Hm Hd];
    [by apply xn_field, keys_plain|by eapply xn_profile|by eapply xn_selinux|by apply xn_process|by apply xn_privileged|by eapply xn_capability|by eapply xn_procMount].
Qed.

Lemma agent_mount_harmless m : agent_mount m → m_Name m ∉ credentialVolumeNames.
Proof.
  clear. intros H Hin. unfold credentialVolumeNames in Hin. rewrite !elem_of_cons, elem_of_nil in Hin. destruct H; by destruct Hin as [Hin|[Hin|[]]].
Qed.

Lemma derived_needs c c' pw : derived c c' → container_needs plain c' pw → container_needs plain c pw.
Proof.
  intros D Hn. destruct Hn as [pw Hk|q Hq Hh|e n He Hs|n He|h pw Hh Hn|sc pw Hsc Hn|m Hin Hc].
  - assert (∀ k, k ∈ Container_keys c' → containerFieldClass !! k ≠ Some classAllowed → k ∈ Container_keys c) as Hkey.
    { intros k Hin Hcls. apply (dv_keys _ _ D) in Hin as [|Hin]; [done|]. destruct Hcls. repeat (apply elem_of_cons in Hin as [->|Hin]; [vm_compute; reflexivity|]). by apply not_elem_of_nil in Hin. }
    apply cn_field. destruct Hk as [e He|k Hin Ht|k Hin Ht|k Hin Ht]; [done|..]; (assert (k ∈ Container_keys c) as Hin' by (apply Hkey; congruence));
      [by eapply kn_unknown|by eapply kn_never|by eapply (kn_optin _ _ (λ _, Nobody))].
  - rewrite (dv_ports _ _ D) in Hq. by eapply cn_port.
  - rewrite (dv_env _ _ D) in He. by eapply cn_env.
  - rewrite (dv_envFrom _ _ D) in He. by apply cn_env_from.
  - rewrite (dv_handlers _ _ D) in Hh. by eapply cn_handler.
  - rewrite (dv_context _ _ D) in Hsc. by eapply cn_context.
  - eapply cn_credential; [|done]. destruct (dv_mounts _ _ D) as (extra & Hm & Hx). unfold mounted in *. rewrite Hm, (dv_devices _ _ D), map_app in Hin.
    rewrite !elem_of_app in Hin. destruct Hin as [[Hin|Hin]|Hin]; [set_solver| |set_solver].
    apply list_elem_of_fmap in Hin as (x & -> & Hx'). rewrite Forall_forall in Hx. by destruct (agent_mount_harmless x (Hx x Hx')).
Qed.

Lemma container_plain c pw : container_needs plain c pw → container_needs jsonError c pw.
Proof.
  intros Hn. destruct Hn as [pw Hk|q Hq Hh|e n He Hs|n He|h pw Hh Hn|sc pw Hsc Hn|m Hin Hc];
    [by apply cn_field, keys_plain|by eapply cn_port|by eapply cn_env|by apply cn_env_from|by eapply cn_handler|eapply cn_context; [done|by apply context_plain]|by eapply cn_credential].
Qed.

Lemma pod_context_plain sc pw : pod_context_needs plain sc pw → pod_context_needs jsonError sc pw.
Proof.
  intros Hn. destruct Hn as [pw Hk|o Ho Hu|o Ho Hu|Hw|x Hx Hs]; [by apply pcn_field, keys_plain|by eapply pcn_profile|by eapply pcn_selinux|by apply pcn_process|by eapply pcn_sysctl].
Qed.

Lemma pod_plain sa s pw : pod_needs plain sa s pw → pod_needs jsonError sa s pw.
Proof.
  intros Hn. destruct Hn as [pw Hk|n Hn Hne|Ht|Hne|Hns|n Hn|sc pw Hsc Hn];
    [by apply pn_field, keys_plain|by apply pn_account|by apply pn_token|by apply pn_node|by apply pn_namespace|by apply pn_pull|eapply pn_context; [done|by apply pod_context_plain]].
Qed.

(** ** What is injected *)

Context (sidecar : SidecarSpec) (shimImage : string).

(** The volumes the agent itself puts into the pod: its own, and the run's named ones. *)
Inductive agent_volume : Volume → Prop :=
| av_workspace : agent_volume buildWorkspaceVolume
| av_claim pv : pv ∈ vols → agent_volume (MkVolume workspaceVolumeName (pvc_source (pv_ClaimName pv)))
| av_named i pv : pv ∈ vols → agent_volume (MkVolume (podVolumeNamePrefix +:+ i) (pvc_source (pv_ClaimName pv)))
| av_tools : agent_volume (MkVolume ucdToolsVolume emptyDir_source)
| av_sidecar v : (buildArtifactSidecarContainer sidecar).2 = Some v → agent_volume v.

(** A specification the agent has worked on: containers derived from those of [s] or
    its own, volumes of [s] or its own, the rest untouched. *)
Record injected (s s' : PodSpec) : Prop := {
  ij_containers c' : c' ∈ ps_Containers s' → (∃ c, c ∈ ps_Containers s ∧ derived c c') ∨ (∃ image, derived (container_of primaryContainerName image) c') ∨ derived (buildArtifactSidecarContainer sidecar).1 c';
  ij_inits c' : c' ∈ ps_InitContainers s' → c' ∈ ps_InitContainers s ∨ c' = shim_container shimImage;
  ij_volumes v : v ∈ ps_Volumes s' → v ∈ ps_Volumes s ∨ agent_volume v;
  ij_names : map v_Name (ps_Volumes s) `prefix_of` map v_Name (ps_Volumes s');
  ij_rest : with_restart "" (with_parts [] [] [] s') = with_restart "" (with_parts [] [] [] s)
}.

#[export] Instance injected_preorder : PreOrder injected.
Proof.
  clear. split.
  - intros s. constructor; eauto. intros c' Hc. left. by exists c'.
  - intros a b c [C1 I1 V1 N1 R1] [C2 I2 V2 N2 R2]. constructor; [| | |by etransitivity|congruence].
    + intros c' Hc. destruct (C2 c' Hc) as [(d & Hd & D)|[|]]; [|by right; left|by right; right].
      destruct (C1 d Hd) as [(e & He & E)|[(im & E)|E]]; [left; exists e; split; [done|by transitivity d]|right; left; exists im; by transitivity d|right; right; by transitivity d].
    + intros c' Hc. destruct (I2 c' Hc) as [Hd|]; [by apply I1|by right].
    + intros v Hv. destruct (V2 v Hv) as [Hd|]; [by apply V1|by right].
Qed.

(** A change of the containers that keeps each one's origin. *)
Lemma injected_map s (f : Container → Container) vs :
  (∀ c, derived c (f c)) → (∀ v, v ∈ vs → v ∈ ps_Volumes s ∨ agent_volume v) → map v_Name (ps_Volumes s) `prefix_of` map v_Name vs → injected s (with_parts vs (ps_InitContainers s) (map f (ps_Containers s)) s).
Proof.
  clear. intros Hf Hv Hn. constructor; try done; [|by left]. cbn. intros c' (c & -> & Hc)%list_elem_of_fmap. left. by exists c.
Qed.

Lemma injected_restart policy s : injected s (with_restart policy s).
Proof. clear. constructor; eauto. intros c' Hc. left. by exists c'. Qed.

Lemma injected_primary image image' s : injected s (with_parts (ps_Volumes s) (ps_InitContainers s) (injectPrimaryJob image image' (ps_Containers s)) s).
Proof.
  clear. constructor; try done; [|by left|by left]. cbn. unfold injectPrimaryJob. intros c' Hc. destruct (existsb _ _); [left; by exists c'|].
  apply elem_of_app in Hc as [Hc| ->%list_elem_of_singleton]; [left; by exists c'|right; left; by eexists].
Qed.

Lemma injected_job image image' s :
  injected s (with_parts (ps_Volumes s) (ps_InitContainers s) (injectKeepAlive (injectPrimaryJob image image' (ps_Containers s))) s).
Proof.
  clear. etransitivity; [apply (injected_primary image image')|].
  exact (injected_map (with_parts (ps_Volumes s) (ps_InitContainers s) (injectPrimaryJob image image' (ps_Containers s)) s) _ (ps_Volumes s) derived_keepalive (λ v Hv, or_introl Hv) (reflexivity _)).
Qed.

Lemma injected_sidecar s : injected s (add_sidecar sidecar s).
Proof.
  clear. unfold add_sidecar. destruct (_ =? _)%string; [reflexivity|]. destruct (buildArtifactSidecarContainer sidecar) as [sc vol] eqn:E. constructor; try done; cbn.
  - intros c' [Hc| ->%list_elem_of_singleton]%elem_of_app; [left; by exists c'|right; right]. by rewrite E.
  - by left.
  - intros v [Hv|Hv]%elem_of_app; [by left|]. destruct vol as [v'|]; [|by apply not_elem_of_nil in Hv]. apply list_elem_of_singleton in Hv as ->. right. apply av_sidecar. by rewrite E.
  - rewrite map_app. by apply prefix_app_r.
Qed.

Lemma elem_of_replace_first vol l l' v : replace_first vol l = Some l' → v ∈ l' → v ∈ l ∨ v = vol.
Proof.
  clear. revert l'. induction l as [|w l IH]; intros l'; cbn; [done|]. destruct (_ =? _)%string; [intros [= <-]; set_solver|].
  destruct (replace_first vol l) as [l1|]; [|done]. intros [= <-]. specialize (IH l1 eq_refl). set_solver.
Qed.

Lemma replace_first_names vol l l' : replace_first vol l = Some l' → map v_Name l' = map v_Name l.
Proof.
  clear. revert l'. induction l as [|w l IH]; intros l'; cbn; [done|]. destruct (String.eqb_spec (v_Name w) (v_Name vol)) as [E|]; [intros [= <-]; cbn; by rewrite E|].
  destruct (replace_first vol l) as [l1|]; [|done]. intros [= <-]. cbn. by rewrite IH.
Qed.

Lemma injected_workspace wsCfg s s' : workspaceMountOf wsCfg = ws → injectWorkspace wsCfg s = Ok s' → injected s s'.
Proof.
  clear. unfold injectWorkspace. intros -> (cs & Hcs & H)%bind_ok. injection H as <-. constructor; try done; cbn; [|by left| |].
  - intros c' Hc. left. apply map_res_ok in Hcs. apply list_elem_of_lookup in Hc as [i Hi]. destruct (Forall2_lookup_r _ _ _ _ _ Hcs Hi) as (c & Hci & Hw).
    exists c. split; [by eapply list_elem_of_lookup_2|by eapply derived_workspace].
  - unfold inject_workspace_volume. intros v Hv. destruct (replace_first _ _) as [l'|] eqn:E; cbn in Hv.
    + destruct (elem_of_replace_first _ _ _ _ E Hv) as [| ->]; [by left|right; constructor].
    + apply elem_of_app in Hv as [| ->%list_elem_of_singleton]; [by left|right; constructor].
  - unfold inject_workspace_volume. destruct (replace_first _ _) as [l'|] eqn:E; cbn; [by rewrite (replace_first_names _ _ _ E)|]. rewrite map_app. by apply prefix_app_r.
Qed.

Lemma injected_volume i pv s : vols !! i = Some pv → injected s (inject_volume ws i pv s).
Proof.
  clear. intros Hi. pose proof (list_elem_of_lookup_2 _ _ _ Hi) as Hpv. unfold inject_volume. destruct (String.eqb_spec (pv_MountPath pv) ".") as [|Hroot].
  - constructor; try done; cbn; [intros c' Hc; left; by exists c'|by left| |].
    + intros v (w & -> & Hw)%list_elem_of_fmap. destruct (String.eqb_spec (v_Name w) "workspace") as [->|]; [right; by apply av_claim|by left].
    + rewrite map_map. apply reflexive_eq, map_ext. intros w. by destruct (_ =? _)%string.
  - apply injected_map.
    + intros c. by apply derived_mount, am_volume.
    + intros v [Hv| ->%list_elem_of_singleton]%elem_of_app; [by left|right; by apply av_named].
    + rewrite map_app. by apply prefix_app_r.
Qed.

(** What holds of a specification and is kept by each volume holds after them all. *)
Lemma inject_from_ind (P : PodSpec → Prop) l i s :
  l = drop i vols → (∀ j pv s, vols !! j = Some pv → P s → P (inject_volume ws j pv s)) → P s → P (inject_from ws i l s).
Proof.
  clear. intros Hl Hstep. revert i s Hl. induction l as [|pv l IH]; intros i s Hl HP; cbn; [done|].
  assert (vols !! i = Some pv) as Hi by (rewrite <-(Nat.add_0_r i), <-lookup_drop, <-Hl; done).
  apply IH; [|by apply Hstep]. by rewrite (drop_S _ _ _ Hi) in Hl; injection Hl.
Qed.

Lemma injected_volumes s : injected s (injectVolumes ws vols s).
Proof.
  clear. unfold injectVolumes. apply (inject_from_ind (injected s)); [done| |reflexivity]. intros j pv s' Hj Hs. etransitivity; [exact Hs|by apply injected_volume].
Qed.

(** A name under which the pod has a volume of the agent. *)
Definition provided (n : string) (s : PodSpec) : Prop := ∃ v, v ∈ ps_Volumes s ∧ agent_volume v ∧ v_Name v = n.

Lemma provided_volume n i pv s : vols !! i = Some pv → provided n s → provided n (inject_volume ws i pv s).
Proof.
  clear. intros Hi (v & Hv & Ha & <-). apply list_elem_of_lookup_2 in Hi. unfold inject_volume. destruct (_ =? _)%string; unfold provided; cbn.
  - destruct (String.eqb_spec (v_Name v) "workspace") as [E|E].
    + exists (MkVolume workspaceVolumeName (pvc_source (pv_ClaimName pv))). split; [|split; [by apply av_claim|by rewrite E]]. apply list_elem_of_fmap. exists v. by rewrite E.
    + exists v. split; [|done]. apply list_elem_of_fmap. exists v. destruct (String.eqb_spec (v_Name v) "workspace"); done.
  - exists v. split; [|done]. apply elem_of_app. by left.
Qed.

Lemma provided_named l i j pv s :
  l = drop i vols → i ≤ j → vols !! j = Some pv → pv_MountPath pv ≠ "." → provided (podVolumeNamePrefix +:+ pretty (N.of_nat j)) (inject_from ws i l s).
Proof.
  clear. revert i s. induction l as [|pv' l IH]; intros i s Hl Hij Hj Hroot; cbn.
  - apply lookup_lt_Some in Hj. assert (length (drop i vols) = 0) as H by by rewrite <-Hl. rewrite length_drop in H. lia.
  - assert (vols !! i = Some pv') as Hi by (rewrite <-(Nat.add_0_r i), <-lookup_drop, <-Hl; done).
    assert (l = drop (S i) vols) as Hl' by (rewrite (drop_S _ _ _ Hi) in Hl; by injection Hl).
    destruct (decide (i = j)) as [->|]; [|apply IH; [done|lia|done|done]]. assert (pv' = pv) as -> by congruence.
    apply (inject_from_ind (provided _)); [done|by intros; apply provided_volume|]. unfold inject_volume.
    destruct (String.eqb_spec (pv_MountPath pv) "."); [done|]. eexists. split; [cbn; apply elem_of_app; right; by left|].
    split; [apply av_named; by eapply list_elem_of_lookup_2|done].
Qed.

Lemma provided_workspace s : provided workspaceVolumeName (with_parts (inject_workspace_volume (ps_Volumes s)) (ps_InitContainers s) (ps_Containers s) s).
Proof.
  clear. exists buildWorkspaceVolume. split; [|split; [constructor|done]]. cbn. unfold inject_workspace_volume.
  destruct (replace_first _ _) as [l'|] eqn:E; cbn; [|apply elem_of_app; right; by left]. revert l' E. induction (ps_Volumes s) as [|w l IH]; intros l'; cbn; [done|].
  destruct (_ =? _)%string; [intros [= <-]; left|]. destruct (replace_first _ l) as [l1|]; [|done]. intros [= <-]. right. by apply IH.
Qed.

Lemma injected_shim s : injected s (injectUcdShim shimImage s).
Proof.
  clear. constructor; try done; cbn.
  - intros c' (c & -> & Hc)%list_elem_of_fmap. left. exists c. split; [done|]. apply derived_mount, am_tools.
  - intros c' [-> |Hc]%elem_of_cons; [by right|by left].
  - intros v [Hv| ->%list_elem_of_singleton]%elem_of_app; [by left|right; constructor].
  - rewrite map_app. by apply prefix_app_r.
Qed.

Lemma BuildPod_injected runID ns agentTmpls jt image pod :
  workspaceMountOf (resolveWorkspaceConfig agentTmpls jt) = ws →
  BuildPod podSpecFromMap containersFromMaps volumesFromMaps DefaultRunnerImage runID ns agentTmpls jt image sidecar shimImage vols = Ok pod →
  ∃ s, base_spec podSpecFromMap containersFromMaps volumesFromMaps DefaultRunnerImage agentTmpls jt image = Ok s ∧ injected s (p_Spec pod).
Proof.
  unfold BuildPod. intros Hws (s & Hs & (_ & (s1 & H1 & H)%bind_ok)%then_ok)%bind_ok. injection H as <-. exists s. split; [done|]. cbn [p_Spec]. rewrite Hws.
  etransitivity; [|apply injected_shim]. etransitivity; [|apply injected_volumes]. etransitivity; [|by eapply (injected_workspace (resolveWorkspaceConfig agentTmpls jt))].
  etransitivity; [|apply injected_sidecar]. etransitivity; [apply (injected_restart "Never")|].
  apply injected_job.
Qed.

(** Whatever the agent mounts is a volume that it put there. *)
Lemma BuildPod_provided runID ns agentTmpls jt image pod m :
  workspaceMountOf (resolveWorkspaceConfig agentTmpls jt) = ws →
  BuildPod podSpecFromMap containersFromMaps volumesFromMaps DefaultRunnerImage runID ns agentTmpls jt image sidecar shimImage vols = Ok pod →
  agent_mount m → provided (m_Name m) (p_Spec pod).
Proof.
  unfold BuildPod, injectWorkspace. intros Hws (s & Hs & (_ & (s1 & (cs & _ & H1)%bind_ok & H)%bind_ok)%then_ok)%bind_ok. injection H1 as <-. injection H as <-. cbn [p_Spec]. rewrite Hws.
  set (s2 := with_parts _ _ cs _). intros Hm.
  assert (∀ n, provided n (injectVolumes ws vols s2) → provided n (injectUcdShim shimImage (injectVolumes ws vols s2))) as Hshim.
  { intros n (v & Hv & Ha & <-). exists v. split; [|done]. cbn. apply elem_of_app. by left. }
  destruct Hm as [| |i pv Hi Hroot].
  - apply Hshim. apply (inject_from_ind (provided _)); [done|by intros; apply provided_volume|]. exact (provided_workspace (add_sidecar sidecar _)).
  - eexists. split; [cbn; apply elem_of_app; right; by left|]. split; [constructor|done].
  - apply Hshim. cbn [m_Name]. apply (provided_named vols 0 i pv); [done|lia|done|done].
Qed.

(** ** Patches *)

Lemma merge_one_names {A} (name : A → string) l x : map name (merge_one name l x) = if decide (name x ∈ map name l) then map name l else map name l ++ [name x].
Proof.
  clear. induction l as [|y l IH]; cbn [merge_one map app]; [done|]. destruct (String.eqb_spec (name y) (name x)) as [E|E].
  - cbn [map]. rewrite decide_True by (rewrite E; left). by rewrite E.
  - cbn [map]. rewrite IH. destruct (decide (name x ∈ map name l)) as [H|H]; [by rewrite decide_True by (by right)|]. rewrite decide_False; [done|]. intros [Hx|Hx]%elem_of_cons; congruence.
Qed.

Lemma merge_names {A} (name : A → string) patch base : map name base `prefix_of` map name (foldl (merge_one name) base patch).
Proof.
  clear. revert base. induction patch as [|x patch IH]; intros base; cbn; [done|]. etransitivity; [|apply IH]. rewrite merge_one_names. case_decide; [done|by apply prefix_app_r].
Qed.

Lemma elem_of_merge_one {A} (name : A → string) l x y : NoDup (map name l) → y ∈ merge_one name l x → y = x ∨ (y ∈ l ∧ name y ≠ name x).
Proof.
  clear. induction l as [|z l IH]; cbn; [intros _ ->%list_elem_of_singleton; by left|]. intros [Hz Hnd]%NoDup_cons. destruct (String.eqb_spec (name z) (name x)) as [E|E].
  - intros [->|Hy]%elem_of_cons; [by left|]. right. split; [by right|]. rewrite <-E. intros Heq. apply Hz. rewrite <-Heq. by apply list_elem_of_fmap_2.
  - intros [->|Hy]%elem_of_cons; [right; split; [left|done]|]. destruct (IH Hnd Hy) as [->|[H1 H2]]; [by left|right; split; [by right|done]].
Qed.

Lemma elem_of_merge {A} (name : A → string) patch base y :
  NoDup (map name base) → y ∈ foldl (merge_one name) base patch → y ∈ patch ∨ (y ∈ base ∧ name y ∉ map name patch).
Proof.
  clear. revert base. induction patch as [|x patch IH]; intros base Hnd; cbn; [intros Hy; right; split; [done|by intros ?%not_elem_of_nil]|].
  intros Hy. apply IH in Hy as [Hy|[Hy Hn]].
  - left. by right.
  - apply elem_of_merge_one in Hy as [->|[Hy Hx]]; [left; left|right; split; [done|]|done]. intros [H|H]%elem_of_cons; congruence.
  - rewrite merge_one_names. case_decide as Hx; [done|]. apply NoDup_app. split; [done|]. split; [|apply NoDup_singleton]. intros z Hz ->%list_elem_of_singleton. done.
Qed.

Lemma elem_of_merge_any {A} (name : A → string) patch base y : y ∈ foldl (merge_one name) base patch → y ∈ patch ∨ y ∈ base.
Proof.
  clear. assert (∀ l x, y ∈ merge_one name l x → y = x ∨ y ∈ l) as H1.
  { intros l x. induction l as [|z l IH]; cbn; [intros ->%list_elem_of_singleton; by left|]. destruct (_ =? _)%string; set_solver. }
  revert base. induction patch as [|x patch IH]; intros base; cbn; [by right|]. intros Hy. apply IH in Hy as [Hy|Hy]; [set_solver|]. apply H1 in Hy. set_solver.
Qed.

(** ** Where a pod's parts come from *)

Hypotheses (decode_no_containers : containersFromMaps [] = Ok []) (decode_no_volumes : volumesFromMaps [] = Ok []).
#[local] Set Default Proof Using "Type*".

(** The operator's template that the job names, decoded. *)
Definition template_of (agentTmpls : gmap string AgentPodTemplate) (jt : option PodTemplate) : option PodSpec :=
  jt ← jt; if (pt_Name jt =? "")%string then None
  else at_ ← agentTmpls !! pt_Name jt; match podSpecFromMap (apt_Spec at_) with Ok base => Some base | Err _ => None end.

Lemma applyPatch_parts base patch s :
  applyPatch containersFromMaps volumesFromMaps base patch = Ok s →
  ∃ cs vs, containersFromMaps (pp_Containers patch) = Ok cs ∧ volumesFromMaps (pp_Volumes patch) = Ok vs ∧
    s = with_parts (mergeVolumes (ps_Volumes base) vs) (ps_InitContainers base) (mergeContainers (ps_Containers base) cs) base.
Proof.
  unfold applyPatch. intros (s1 & H1 & H2)%bind_ok.
  assert (∃ cs, containersFromMaps (pp_Containers patch) = Ok cs ∧ s1 = with_parts (ps_Volumes base) (ps_InitContainers base) (mergeContainers (ps_Containers base) cs) base) as (cs & Hcs & ->).
  { destruct (pp_Containers patch) as [|m ms]; [exists []; split; [done|]; injection H1 as <-; by destruct base|].
    apply bind_ok in H1 as (cs & Hcs%wrap_ok & H1). injection H1 as <-. by exists cs. }
  exists cs. destruct (pp_Volumes patch) as [|m ms].
  - exists []. injection H2 as <-. done.
  - apply bind_ok in H2 as (vs & Hvs%wrap_ok & H2). injection H2 as <-. by exists vs.
Qed.

Lemma base_of_template agentTmpls jt image s base :
  base_spec podSpecFromMap containersFromMaps volumesFromMaps DefaultRunnerImage agentTmpls (Some jt) image = Ok s → template_of agentTmpls (Some jt) = Some base →
  match pt_Override jt with Some patch => applyPatch containersFromMaps volumesFromMaps base patch = Ok s | None => s = base end.
Proof.
  cbn. destruct (_ =? _)%string; [done|]. destruct (agentTmpls !! pt_Name jt) as [at_|]; [|done]. cbn. destruct (podSpecFromMap (apt_Spec at_)) as [base'|]; [|done]. cbn.
  intros H [= ->]. destruct (pt_Override jt); [by apply wrap_ok in H|congruence].
Qed.

(** Without an operator's template: the inline specification or the default one. *)
Lemma base_of_job agentTmpls jt image s :
  base_spec podSpecFromMap containersFromMaps volumesFromMaps DefaultRunnerImage agentTmpls jt image = Ok s → template_of agentTmpls jt = None →
  (∃ t, jt = Some t ∧ pt_Name t = "" ∧ pt_Spec t ≠ [] ∧ podSpecFromMap (pt_Spec t) = Ok s) ∨ ∃ im, s = podspec_of [container_of primaryContainerName im].
Proof.
  destruct jt as [t|]; [|intros [= <-] _; right; by eexists]. cbn. destruct (String.eqb_spec (pt_Name t) "") as [E|E]; cbn.
  - destruct (pt_Spec t) as [|kv m] eqn:Es; [intros [= <-] _; right; by eexists|]. intros H%wrap_ok _. left. exists t. by rewrite Es.
  - destruct (agentTmpls !! pt_Name t) as [at_|]; cbn; [|done]. destruct (podSpecFromMap (apt_Spec at_)); cbn; done.
Qed.

Lemma default_needs_nothing image pw : ¬ container_needs plain (container_of primaryContainerName image) pw.
Proof.
  clear. intros Hn. destruct Hn as [pw Hk|q Hq Hh|e n He Hs|n He|h pw Hh Hn|sc pw Hsc Hn|m Hin Hc];
    [|by apply not_elem_of_nil in Hq|by apply not_elem_of_nil in He|by apply not_elem_of_nil in He|by apply not_elem_of_nil in Hh|done|by apply not_elem_of_nil in Hin].
  assert (∀ k, k ∈ Container_keys (container_of primaryContainerName image) → containerFieldClass !! k = Some classAllowed) as Hall.
  { intros k. unfold Container_keys. rewrite elem_of_jsonKeys. cbn. unfold key_str, key_if. destruct (negb _); cbn; intros Hin;
      repeat (apply elem_of_cons in Hin as [->|Hin]; [vm_compute; reflexivity|]); by apply not_elem_of_nil in Hin. }
  destruct Hk as [e He|k Hin Ht|k Hin Ht|k Hin Ht]; [done|..]; apply Hall in Hin; congruence.
Qed.

(** What a container of a pod can use: itself, and the pod's volumes that it mounts,
    those of the agent aside. *)
Inductive uses (sa : string) (pod : PodSpec) (c : Container) : power → Prop :=
| us_itself pw : container_needs plain c pw → uses sa pod c pw
| us_volume v pw : v ∈ ps_Volumes pod → v_Name v ∈ mounted c → ¬ agent_volume v → source_needs plain sa (v_Source v) pw → uses sa pod c pw.

Lemma derived_mounted c c' m : derived c c' → m ∈ mounted c' → m ∈ mounted c ∨ ∃ x, agent_mount x ∧ m_Name x = m.
Proof.
  clear. intros D. destruct (dv_mounts _ _ D) as (extra & Hm & Hx). unfold mounted. rewrite Hm, (dv_devices _ _ D), map_app, !elem_of_app.
  intros [[H|H]|H]; [left; by left| |left; by right]. apply list_elem_of_fmap in H as (x & -> & Hin). right. exists x. split; [by eapply Forall_forall|done].
Qed.

Lemma template_volume_of base vs v :
  NoDup (map v_Name (ps_Volumes base)) → v ∈ ps_Volumes base → v_Name v ∉ map v_Name vs → template_volume base vs (v_Name v) = Some v.
Proof.
  clear. intros Hnd Hv Hn. unfold template_volume. rewrite bool_decide_false by done. revert Hnd Hv. induction (ps_Volumes base) as [|w l IH]; [by intros _ ?%not_elem_of_nil|].
  cbn [map]. intros [Hw Hnd]%NoDup_cons [->|Hv]%elem_of_cons.
  - rewrite filter_cons_True by done. rewrite filter_none; [done|]. intros x Hx Hname. apply Hw. rewrite <-Hname. by apply list_elem_of_fmap_2.
  - rewrite filter_cons_False; [by apply IH|]. intros Hname. apply Hw. rewrite Hname. by apply list_elem_of_fmap_2.
Qed.

Lemma names_unique (l : list Volume) v w : NoDup (map v_Name l) → v ∈ l → w ∈ l → v_Name v = v_Name w → v = w.
Proof.
  clear. induction l as [|x l IH]; [by intros _ ?%not_elem_of_nil|]. cbn. intros [Hx Hnd]%NoDup_cons Hv Hw E.
  apply elem_of_cons in Hv as [->|Hv], Hw as [->|Hw]; [done|..|by apply IH]; destruct Hx; [rewrite E|rewrite <-E]; by apply list_elem_of_fmap_2.
Qed.

Section built.
Context (p : JobPodPolicy) (agentTmpls : gmap string AgentPodTemplate) (jt : option PodTemplate).
Hypothesis accepted : CheckJobPodTemplate jsonError podSpecFromMap containersFromMaps volumesFromMaps p agentTmpls jt = Ok tt.

(** A container with the powers the policy grants. *)
Definition confined (sa : string) (pod : PodSpec) (c : Container) : Prop := granted p (uses sa pod c).

Lemma default_confined sa image pod c :
  (∀ v, v ∈ ps_Volumes pod → agent_volume v) → derived (container_of primaryContainerName image) c → confined sa pod c.
Proof.
  intros Hv D pw Hu. destruct Hu as [pw Hn|v pw Hin _ Hna _]; [|by destruct (Hna (Hv v Hin))].
  eapply derived_needs in Hn; [|done]. by apply default_needs_nothing in Hn.
Qed.

Lemma inline_confined t spec pod c b :
  jt = Some t → pt_Name t = "" → pt_Spec t ≠ [] → podSpecFromMap (pt_Spec t) = Ok spec → injected spec pod →
  b ∈ ps_InitContainers spec ++ ps_Containers spec → derived b c → confined (effectiveServiceAccount spec) pod c.
Proof.
  intros -> Hname Hne Hdec Hij Hb D pw Hu. apply check_ok in accepted. apply accepted.
  eapply jb_inline; [done..|]. destruct Hu as [pw Hn|v pw Hin _ Hna Hn].
  - eapply sp_container; [done|]. apply container_plain. by eapply derived_needs.
  - destruct (ij_volumes _ _ Hij v Hin) as [Hv|Hv]; [|done]. eapply sp_volume; [done|]. by apply source_plain.
Qed.

Lemma default_job_confined t spec pod c image :
  jt = Some t → pt_Name t = "" → pt_Spec t ≠ [] → podSpecFromMap (pt_Spec t) = Ok spec → injected spec pod →
  derived (container_of primaryContainerName image) c → confined (effectiveServiceAccount spec) pod c.
Proof.
  intros -> Hname Hne Hdec Hij D pw Hu. apply check_ok in accepted. destruct Hu as [pw Hn|v pw Hin _ Hna Hn].
  - eapply derived_needs in Hn; [|done]. by apply default_needs_nothing in Hn.
  - apply accepted. destruct (ij_volumes _ _ Hij v Hin) as [Hv|Hv]; [|done]. eapply jb_inline; [done..|]. eapply sp_volume; [done|]. by apply source_plain.
Qed.

Lemma patch_confined t base patch cs vs pod c b :
  jt = Some t → template_of agentTmpls jt = Some base → pt_Override t = Some patch →
  containersFromMaps (pp_Containers patch) = Ok cs → volumesFromMaps (pp_Volumes patch) = Ok vs →
  NoDup (map v_Name (ps_Volumes pod)) → (∀ m, agent_mount m → provided (m_Name m) pod) →
  injected (with_parts (mergeVolumes (ps_Volumes base) vs) (ps_InitContainers base) (mergeContainers (ps_Containers base) cs) base) pod →
  b ∈ cs ∨ (∃ image, b = container_of primaryContainerName image) → derived b c → confined (effectiveServiceAccount base) pod c.
Proof.
  intros -> Ht Hp Hcs Hvs Hnd Hprov Hij Hb D pw Hu. apply check_ok in accepted.
  assert (NoDup (map v_Name (ps_Volumes base))) as Hndb.
  { assert (map v_Name (ps_Volumes base) `prefix_of` map v_Name (ps_Volumes pod)) as [t' E]; [|rewrite E in Hnd; by apply NoDup_app in Hnd as [? _]].
    etransitivity; [apply (merge_names v_Name vs)|exact (ij_names _ _ Hij)]. }
  cbn in Ht. destruct (String.eqb_spec (pt_Name t) "") as [|Hname]; [done|]. destruct (agentTmpls !! pt_Name t) as [at_|] eqn:Ea; [|done]. cbn in Ht.
  destruct (podSpecFromMap (apt_Spec at_)) as [base'|] eqn:Eb; [|done]. injection Ht as ->.
  destruct Hu as [pw Hn|v pw Hin Hm Hna Hn].
  - eapply derived_needs in Hn; [|done]. destruct Hb as [Hb|[im ->]]; [|by apply default_needs_nothing in Hn].
    apply accepted. eapply jb_container; [done..|]. apply rc_itself. by apply container_plain.
  - destruct (ij_volumes _ _ Hij v Hin) as [Hv|Hv]; [|done]. cbn in Hv. apply source_plain in Hn. apply elem_of_merge in Hv as [Hv|[Hv Hnv]]; [|..|done].
    + apply accepted. by eapply jb_volume.
    + destruct (derived_mounted _ _ _ D Hm) as [Hmb|(x & Hx & Hxn)]; [|destruct (Hprov x Hx) as (w & Hw & Ha & E); destruct Hna; rewrite (names_unique _ v w Hnd Hin Hw); congruence].
      destruct Hb as [Hb|[im ->]]; [|by apply not_elem_of_nil in Hmb]. apply accepted. eapply jb_container; [done..|].
      eapply rc_mount; [done| |done]. by apply template_volume_of.
Qed.
End built.

(** The fields of the pod itself are left as they are. *)
Lemma injected_fields s pod : injected s pod →
  effectiveServiceAccount pod = effectiveServiceAccount s ∧ (∀ sa pw, pod_needs plain sa pod pw → pod_needs plain sa s pw).
Proof.
  clear. intros Hij. pose proof (ij_rest _ _ Hij) as E. unfold with_restart, with_parts in E. cbn in E. injection E as E1 E2 E3 E4 E5 E6 E7 E8 E9 E10.
  split; [unfold effectiveServiceAccount; by rewrite E1, E2|]. intros sa pw Hn. destruct Hn as [pw Hk|n Hn Hne|Ht|Hne|Hns|n Hn|sc pw Hsc Hn].
  - assert (∀ k, k ∈ PodSpec_keys pod → podSpecFieldClass !! k ≠ Some classAllowed → k ∈ PodSpec_keys s) as Hkey.
    { intros k Hin Hcls. unfold PodSpec_keys in *. rewrite elem_of_jsonKeys in *. rewrite E1, E2, E3, E4, E5, E6, E7, E8, E9, E10, !elem_of_app in *.
      clear -Hin Hcls. do 13 (destruct Hin as [Hin|Hin]; [first [left; exact Hin|exfalso; apply Hcls; first [apply elem_of_key_list in Hin as ->|apply elem_of_key_str in Hin as ->]; vm_compute; reflexivity]|right]). exact Hin. }
    apply pn_field. destruct Hk as [e He|k Hin Ht|k Hin Ht|k Hin Ht]; [done|..]; (assert (k ∈ PodSpec_keys s) as Hin' by (apply Hkey; congruence)); [by eapply kn_unknown|by eapply kn_never|by eapply kn_optin].
  - apply pn_account; [|done]. by rewrite <-E1, <-E2.
  - apply pn_token. congruence.
  - apply pn_node. congruence.
  - apply pn_namespace. by rewrite <-E5, <-E6, <-E7.
  - apply pn_pull. by rewrite <-E9.
  - eapply pn_context; [|done]. congruence.
Qed.

Lemma default_pod_needs sa image pw : ¬ pod_needs plain sa (podspec_of [container_of primaryContainerName image]) pw.
Proof.
  clear. intros Hn. destruct Hn as [pw Hk|n Hn Hne|Ht|Hne|Hns|n Hn|sc pw Hsc Hn]; [|by destruct Hn as [->| ->]|done|done|by destruct_or! Hns|by apply not_elem_of_nil in Hn|done].
  assert (∀ k, k ∈ PodSpec_keys (podspec_of [container_of primaryContainerName image]) → k = "containers") as Hall.
  { intros k. unfold PodSpec_keys. rewrite elem_of_jsonKeys. cbn. by intros ->%list_elem_of_singleton. }
  destruct Hk as [e He|k Hin Ht|k Hin Ht|k Hin Ht]; [done|..]; apply Hall in Hin as ->; by vm_compute in Ht.
Qed.

Lemma built_parts p agentTmpls jt runID ns image pod :
  workspaceMountOf (resolveWorkspaceConfig agentTmpls jt) = ws →
  CheckJobPodTemplate jsonError podSpecFromMap containersFromMaps volumesFromMaps p agentTmpls jt = Ok tt →
  BuildPod podSpecFromMap containersFromMaps volumesFromMaps DefaultRunnerImage runID ns agentTmpls jt image sidecar shimImage vols = Ok pod →
  (is_Some (template_of agentTmpls jt) → NoDup (map v_Name (ps_Volumes (p_Spec pod)))) →
  ∀ c, c ∈ ps_InitContainers (p_Spec pod) ++ ps_Containers (p_Spec pod) →
    c = shim_container shimImage ∨ derived (buildArtifactSidecarContainer sidecar).1 c
    ∨ (∃ base b, template_of agentTmpls jt = Some base ∧ b ∈ ps_InitContainers base ++ ps_Containers base ∧ derived b c)
    ∨ confined p (effectiveServiceAccount (p_Spec pod)) (p_Spec pod) c.
Proof.
  intros Hws Hacc Hbuilt Hnd c Hc. assert (Hprov := λ m, BuildPod_provided runID ns agentTmpls jt image pod m Hws Hbuilt).
  apply BuildPod_injected in Hbuilt as (s & Hs & Hij); [|done]. destruct (injected_fields _ _ Hij) as [-> _].
  assert (c = shim_container shimImage ∨ derived (buildArtifactSidecarContainer sidecar).1 c ∨ (∃ b, b ∈ ps_InitContainers s ++ ps_Containers s ∧ derived b c)
    ∨ ∃ im, derived (container_of primaryContainerName im) c) as [|[|Horigin]]; [|by left|by right; left|right; right].
  { apply elem_of_app in Hc as [Hc|Hc].
    - destruct (ij_inits _ _ Hij c Hc) as [H|H]; [|by left]. right; right; left. exists c. split; [apply elem_of_app; by left|reflexivity].
    - destruct (ij_containers _ _ Hij c Hc) as [(b & Hb & D)|[(im & D)|D]]; [right; right; left; exists b; split; [apply elem_of_app; by right|done]|right; right; right; by exists im|by right; left]. }
  destruct (template_of agentTmpls jt) as [base|] eqn:Et.
  - destruct jt as [t|]; [|done]. specialize (Hnd ltac:(by eexists)). pose proof (base_of_template _ _ _ _ _ Hs Et) as Hb.
    destruct (pt_Override t) as [patch|] eqn:Ep.
    + apply applyPatch_parts in Hb as (cs & vs & Hcs & Hvs & ->). destruct Horigin as [(b & Hb & D)|(im & D)].
      * apply elem_of_app in Hb as [Hb|Hb]; [left; exists base, b; set_solver|]. apply elem_of_merge_any in Hb as [Hb|Hb]; [|left; exists base, b; set_solver].
        right. eapply (patch_confined p agentTmpls (Some t) Hacc t base patch cs vs _ c b); try done. by left.
      * right. eapply (patch_confined p agentTmpls (Some t) Hacc t base patch cs vs _ c); try done. right. by exists im.
    + subst s. destruct Horigin as [(b & Hb & D)|(im & D)]; [left; exists base, b; eauto|].
      right. intros pw Hu. destruct Hu as [pw Hn|v pw Hin Hm Hna Hn]; [eapply derived_needs in Hn; [|done]; by apply default_needs_nothing in Hn|].
      destruct (ij_volumes _ _ Hij v Hin) as [Hv|Hv]; [|done]. destruct (derived_mounted _ _ _ D Hm) as [Hx|(x & Hx & Hxn)]; [by apply not_elem_of_nil in Hx|].
      destruct (Hprov x Hx) as (w & Hw & Ha & E). destruct Hna. rewrite (names_unique _ v w Hnd Hin Hw); congruence.
  - right. destruct (base_of_job _ _ _ _ Hs Et) as [(t & Hj & Hname & Hne & Hdec)|[im ->]].
    + destruct Horigin as [(b & Hb & D)|(im & D)]; [by eapply inline_confined|by eapply default_job_confined].
    + assert (∀ v, v ∈ ps_Volumes (p_Spec pod) → agent_volume v) as Hv by (intros v Hv; destruct (ij_volumes _ _ Hij v Hv) as [H|H]; [by apply not_elem_of_nil in H|done]).
      destruct Horigin as [(b & Hb & D)|(im' & D)]; [|by eapply default_confined]. cbn in Hb. apply list_elem_of_singleton in Hb as ->. by eapply default_confined.
Qed.

Lemma built_fields p agentTmpls jt runID ns image pod :
  workspaceMountOf (resolveWorkspaceConfig agentTmpls jt) = ws →
  CheckJobPodTemplate jsonError podSpecFromMap containersFromMaps volumesFromMaps p agentTmpls jt = Ok tt →
  BuildPod podSpecFromMap containersFromMaps volumesFromMaps DefaultRunnerImage runID ns agentTmpls jt image sidecar shimImage vols = Ok pod →
  match template_of agentTmpls jt with
  | Some base => with_restart "" (with_parts [] [] [] (p_Spec pod)) = with_restart "" (with_parts [] [] [] base)
  | None => granted p (pod_needs plain (effectiveServiceAccount (p_Spec pod)) (p_Spec pod))
  end.
Proof.
  intros Hws Hacc (s & Hs & Hij)%BuildPod_injected; [|done]. destruct (injected_fields _ _ Hij) as [Hsa Hpod]. destruct (template_of agentTmpls jt) as [base|] eqn:Et.
  - rewrite (ij_rest _ _ Hij). destruct jt as [t|]; [|done]. pose proof (base_of_template _ _ _ _ _ Hs Et) as Hb. destruct (pt_Override t) as [patch|]; [|by subst].
    by apply applyPatch_parts in Hb as (cs & vs & _ & _ & ->).
  - intros pw Hn. rewrite Hsa in Hn. apply Hpod in Hn. destruct (base_of_job _ _ _ _ Hs Et) as [(t & -> & Hname & Hne & Hdec)|[im ->]]; [|by apply default_pod_needs in Hn].
    apply check_ok in Hacc. apply Hacc. eapply jb_inline; [done..|]. apply sp_pod. by apply pod_plain.
Qed.

Lemma validated_policy IsDNS1123Subdomain p secretName agentName cfgs :
  JobPodPolicy_validate IsDNS1123Subdomain p secretName agentName cfgs = Ok tt →
  (secretName ≠ "" → secretName ∉ AllowSecrets p) ∧ (∀ v, v ∈ cfgs → claimNameFor agentName (vc_Name v) ∉ AllowPersistentVolumeClaims p).
Proof.
  clear. unfold JobPodPolicy_validate. intros (_ & (Hs%fail_if_ok & (Hv & _)%then_ok)%then_ok)%then_ok. split.
  - intros Hne Hin. destruct (String.eqb_spec secretName "") as [|_]; [done|]. by rewrite bool_decide_true in Hs.
  - intros v Hin. eapply (each_ok_elem _ _ v) in Hv as (j & Hj); [|done]. by case_bool_decide.
Qed.
End decoders.

(** ** The built pod *)

(** One job on a cluster: an operator's template whose volume "certs" holds the Secret
    "tls", and a job that patches its container to mount it. *)
Module Sample.
Definition jsonError : list string → option text := λ _, None.
Definition certs : Volume := MkVolume "certs" (MkVolumeSource None None (Some "tls") None None []).
(** The template has a workspace of its own, on the node; the agent replaces it. *)
Definition data : Volume := MkVolume "workspace" (MkVolumeSource None (Some "/data") None None None []).
Definition base : PodSpec :=
  MkPodSpec [data; certs] [] [container_of "job" "img"] "" "" "" None "" false false false None [] [].
Definition patched : Container := with_mount (MkMount "certs" "/certs" "" true) (container_of "job" "img2").
Definition podSpecFromMap (m : vmap) : res PodSpec := Ok base.
Definition containersFromMaps (ms : list vmap) : res (list Container) := match ms with [] => Ok [] | _ => Ok [patched] end.
Definition volumesFromMaps (ms : list vmap) : res (list Volume) := Ok [].
Definition agentTmpls : gmap string AgentPodTemplate := {["build" := MkAgentPodTemplate None [("containers", VList [])] ""]}.
Definition jt : PodTemplate := MkPodTemplate "build" false false None (Some (MkPodSpecPatch [[("name", VStr "job")]] [])) [].
Definition policy (secrets : list string) : JobPodPolicy := MkJobPodPolicy [] secrets [] [] false false false false [] [].
Definition sidecar : SidecarSpec := MkSidecarSpec "sidecar" "s3" "file" "".
Definition check (secrets : list string) : res unit :=
  CheckJobPodTemplate jsonError podSpecFromMap containersFromMaps volumesFromMaps (policy secrets) agentTmpls (Some jt).
Definition build : res Pod :=
  BuildPod podSpecFromMap containersFromMaps volumesFromMaps "runner" "run-1" "ns" agentTmpls (Some jt) "img" sidecar "shim" [MkPodVolume "cache" "node-cache" "c"].

Example refused_without : is_ok (check []) = false.
Proof. vm_compute. reflexivity. Qed.
End Sample.

(** C27: the pod policy refuses a job exactly when some field of its own part of the
    pod template (the inline specification; or the volumes and containers of its
    patch, with the template's volumes they mount) needs a power the policy does not
    grant: access to the node, privilege, an unconfined profile, a Secret, a claim, a
    service account, an opt-in field or volume type, or a field no policy allows. *)
Theorem policy_exact jsonError podSpecFromMap containersFromMaps volumesFromMaps p agentTmpls jt :
  CheckJobPodTemplate jsonError podSpecFromMap containersFromMaps volumesFromMaps p agentTmpls (Some jt) = Ok tt ↔ granted p (job_needs jsonError podSpecFromMap containersFromMaps volumesFromMaps agentTmpls jt).
Proof. apply check_ok. Qed.

(** C26: what the agent builds for an accepted job stays within the policy.  Every
    container of the pod is the shim, the artifact sidecar, a container of the
    operator's template, or has only powers the policy grants, also through the volumes
    it mounts after the patch is merged and the agent has injected its own; it never
    reads the sidecar's Secret or mounts its credentials or, but for the volumes of its
    run, a named volume of the agent.  The pod's own fields are the template's or
    within the policy.  (Where the job names a template: no two volumes of the pod have
    one name, as the API server demands.  The template may declare the workspace.) *)
Theorem built_pod_confined jsonError podSpecFromMap containersFromMaps volumesFromMaps DefaultRunnerImage IsDNS1123Subdomain
    p agentTmpls jt runID ns image sidecar shimImage vols agentName cfgs pod
    (Hc0 : containersFromMaps [] = Ok []) (Hv0 : volumesFromMaps [] = Ok [])
    (Hvalid : JobPodPolicy_validate IsDNS1123Subdomain p (ss_S3SecretName sidecar) agentName cfgs = Ok tt)
    (Haccepted : CheckJobPodTemplate jsonError podSpecFromMap containersFromMaps volumesFromMaps p agentTmpls jt = Ok tt)
    (Hbuilt : BuildPod podSpecFromMap containersFromMaps volumesFromMaps DefaultRunnerImage runID ns agentTmpls jt image sidecar shimImage vols = Ok pod)
    (Hunique : is_Some (template_of podSpecFromMap agentTmpls jt) → NoDup (map v_Name (ps_Volumes (p_Spec pod)))) :
  let spec := p_Spec pod in
  let ws := workspaceMountOf (resolveWorkspaceConfig agentTmpls jt) in
  let powers := uses vols sidecar (effectiveServiceAccount spec) spec in
  (∀ c, c ∈ ps_InitContainers spec ++ ps_Containers spec →
     c = shim_container shimImage ∨ derived ws vols (buildArtifactSidecarContainer sidecar).1 c
     ∨ (∃ base b, template_of podSpecFromMap agentTmpls jt = Some base ∧ b ∈ ps_InitContainers base ++ ps_Containers base ∧ derived ws vols b c)
     ∨ (∀ pw, powers c pw → grants p pw)
       ∧ (∀ m, m ∈ mounted c → m ∉ credentialVolumeNames)
       ∧ (ss_S3SecretName sidecar ≠ "" → ¬ powers c (Secret (ss_S3SecretName sidecar)))
       ∧ (∀ v, v ∈ cfgs → ¬ powers c (Claim (claimNameFor agentName (vc_Name v)))))
  ∧ match template_of podSpecFromMap agentTmpls jt with
    | Some base => with_restart "" (with_parts [] [] [] spec) = with_restart "" (with_parts [] [] [] base)
    | None => ∀ pw, pod_needs (λ _, None) (effectiveServiceAccount spec) spec pw → grants p pw
    end.
Proof.
  intros spec ws powers. destruct (validated_policy _ _ _ _ _ Hvalid) as [Hsecret Hclaims]. split; [|by eapply (built_fields _ _ _ _ _ ws)].
  intros c Hc. assert (H := built_parts jsonError _ _ _ _ ws vols sidecar shimImage Hc0 Hv0 p agentTmpls jt runID ns image pod eq_refl Haccepted Hbuilt Hunique c Hc).
  destruct H as [H|[H|[H|H]]]; [by left|by right; left|by right; right; left|right; right; right]. split; [done|]. split; [|split].
  - intros m Hm Hcr. apply (H Nobody). apply us_itself. by eapply cn_credential.
  - intros Hne Hu. by apply Hsecret, (H (Secret _)).
  - intros v Hv Hu. by apply (Hclaims v Hv), (H (Claim _)).
Qed.

Lemma built_pod_confined_witness :
  ∃ pod, Sample.build = Ok pod ∧
  let spec := p_Spec pod in
  let powers := uses [MkPodVolume "cache" "node-cache" "c"] Sample.sidecar (effectiveServiceAccount spec) spec in
  (∀ c, c ∈ ps_InitContainers spec ++ ps_Containers spec →
     c = shim_container "shim" ∨ derived "/workspace" [MkPodVolume "cache" "node-cache" "c"] (buildArtifactSidecarContainer Sample.sidecar).1 c
     ∨ (∃ base b, template_of Sample.podSpecFromMap Sample.agentTmpls (Some Sample.jt) = Some base ∧ b ∈ ps_InitContainers base ++ ps_Containers base ∧ derived "/workspace" [MkPodVolume "cache" "node-cache" "c"] b c)
     ∨ (∀ pw, powers c pw → grants (Sample.policy ["tls"]) pw)
       ∧ (∀ m, m ∈ mounted c → m ∉ credentialVolumeNames)
       ∧ (ss_S3SecretName Sample.sidecar ≠ "" → ¬ powers c (Secret (ss_S3SecretName Sample.sidecar)))
       ∧ (∀ v, v ∈ [MkVolumeConfig "cache" "exclusive" "" "1Gi"] → ¬ powers c (Claim (claimNameFor "node" (vc_Name v)))))
  ∧ match template_of Sample.podSpecFromMap Sample.agentTmpls (Some Sample.jt) with
    | Some base => with_restart "" (with_parts [] [] [] spec) = with_restart "" (with_parts [] [] [] base)
    | None => ∀ pw, pod_needs (λ _, None) (effectiveServiceAccount spec) spec pw → grants (Sample.policy ["tls"]) pw
    end.
Proof.
  destruct Sample.build as [pod|e] eqn:E; [|exfalso; vm_compute in E; discriminate E]. exists pod. split; [reflexivity|].
  apply (built_pod_confined Sample.jsonError Sample.podSpecFromMap Sample.containersFromMaps Sample.volumesFromMaps "runner" (λ _, []) (Sample.policy ["tls"])
    Sample.agentTmpls (Some Sample.jt) "run-1" "ns" "img" Sample.sidecar "shim" [MkPodVolume "cache" "node-cache" "c"] "node" [MkVolumeConfig "cache" "exclusive" "" "1Gi"] pod);
    [reflexivity|reflexivity|vm_compute; reflexivity|vm_compute; reflexivity|exact E|].
  intros _. vm_compute in E. injection E as <-. apply (bool_decide_eq_true_1 (NoDup _)). vm_compute. reflexivity.
Defined.

(** * What is mounted into the artifact sidecar

    The workspace and the run's volumes are mounted into every container, the sidecar
    with the store's credentials included; [CheckJobMountPaths] keeps them off the
    directories it runs from. *)

(** What the sidecar and every other image runs from, and where its credentials are. *)
Definition kept_dirs : list string :=
  ["/usr"; "/usr/local/bin"; "/bin"; "/sbin"; "/lib"; "/lib32"; "/lib64"; "/libx32"; "/etc"; "/proc"; "/sys"; "/dev"; "/run"; "/var/run"; "/.ucd";
   "/var/run/secrets/unified-cd-store-credentials"; "/etc/unified-cd/s3-credentials"].

(** The path is none of these directories, in none and over none. *)
Definition unprotected (p : string) : Prop :=
  ∀ d, d ∈ kept_dirs → p ≠ d ∧ HasPrefix p (d +:+ "/") = false ∧ HasPrefix d (p +:+ "/") = false.

Lemma kept_dirs_protected d : d ∈ kept_dirs → d ∈ ProtectedMountDirs ++ sidecarProtectedDirs.
Proof.
  revert d. apply Forall_forall, (bool_decide_eq_true_1 (Forall (λ d, d ∈ ProtectedMountDirs ++ sidecarProtectedDirs) kept_dirs)). vm_compute. reflexivity.
Qed.

Lemma slash_split a b t u :
  a +:+ "/" +:+ t = b +:+ "/" +:+ u → a = b ∨ (∃ r, a = b +:+ "/" +:+ r) ∨ (∃ r, b = a +:+ "/" +:+ r).
Proof.
  revert b. induction a as [|c a IH]; intros [|d b]; cbn; [by left|..].
  - intros [= <- _]. right; right. by exists b.
  - intros [= -> _]. right; left. by exists a.
  - intros [= -> H]. destruct (IH b H) as [->|[[r ->]|[r ->]]]; [by left|right; left; by exists r|right; right; by exists r].
Qed.

Lemma under_unprotected wm x : unprotected wm → HasPrefix x (wm +:+ "/") = true → unprotected x.
Proof.
  intros Hwm [t ->]%HasPrefix_spec d Hd. destruct (Hwm d Hd) as (Hne & Hin & Hover). rewrite <-str_app_assoc. split; [|split].
  - intros Hx. assert (HasPrefix d (wm +:+ "/") = true); [|congruence]. apply HasPrefix_spec. exists t. by rewrite <-str_app_assoc.
  - apply not_true_is_false. intros [u Hu]%HasPrefix_spec. rewrite <-str_app_assoc in Hu. apply slash_split in Hu as [->|[[r ->]|[r ->]]]; [done|..].
    + assert (HasPrefix (d +:+ "/" +:+ r) (d +:+ "/") = true); [|congruence]. apply HasPrefix_spec. exists r. by rewrite <-str_app_assoc.
    + assert (HasPrefix (wm +:+ "/" +:+ r) (wm +:+ "/") = true); [|congruence]. apply HasPrefix_spec. exists r. by rewrite <-str_app_assoc.
  - apply not_true_is_false. intros [u Hu]%HasPrefix_spec. assert (HasPrefix d (wm +:+ "/") = true); [|congruence]. apply HasPrefix_spec. rewrite Hu. eexists. by rewrite <-!str_app_assoc.
Qed.

Lemma checked_unprotected p : CheckContainerMountPath p sidecarProtectedDirs = Ok tt → clean_abs p ∧ unprotected p.
Proof. intros (_ & Hc & H)%CheckContainerMountPath_ok. split; [done|]. intros d Hd%kept_dirs_protected. by apply H. Qed.

(** ** The planned volumes *)

Lemma uniqueMountPath_path seen i v ws seen' mp : uniqueMountPath seen i v ws = Ok (seen', mp) → mp = normalizeVolumeMountPath (vm_MountPath v).
Proof.
  unfold uniqueMountPath. intros (mp' & Hmp & H)%bind_ok. assert (mp' = mp) as -> by (destruct (seen !! _); [done|congruence]).
  unfold cleanVolumeMountPath in Hmp. apply then_ok in Hmp as [_ Hmp]. cbv zeta in Hmp. apply then_ok in Hmp as [_ Hmp]. apply then_ok in Hmp as [_ Hmp]. congruence.
Qed.

Lemma planned_paths agentName declared ws i seen mounts vols paths :
  planPodVolumes_from agentName declared ws i seen mounts = Ok (vols, paths) →
  ∀ pv, pv ∈ vols → ∃ v, v ∈ mounts ∧ pv_MountPath pv = normalizeVolumeMountPath (vm_MountPath v).
Proof.
  revert i seen vols paths. induction mounts as [|v l IH]; intros i seen vols paths; cbn; [intros [= <- <-] pv Hpv; by apply not_elem_of_nil in Hpv|].
  destruct (vm_Name v) as [|name [|]]; [done| |done]. destruct (declared !! name) as [cfg|]; [|done].
  intros (_ & ([seen' mp] & Hu & (_ & ([vols' paths'] & Hrest & H)%bind_ok)%then_ok)%bind_ok)%then_ok. injection H as <- <-. apply uniqueMountPath_path in Hu.
  intros pv [->|Hpv]%elem_of_cons; [exists v; split; [left|done]|]. destruct (IH _ _ _ _ Hrest pv Hpv) as (w & Hw & Hp). exists w. split; [by right|done].
Qed.

Lemma mount_checks jt ws volumes :
  CheckJobMountPaths jt ws volumes = Ok tt →
  (∀ w, jt ≫= pt_Workspace = Some w → wc_MountPath w ≠ "" → CheckContainerMountPath (wc_MountPath w) sidecarProtectedDirs = Ok tt) ∧
  (∀ v, v ∈ volumes → ∃ i, volume_mount_check ws i v = []).
Proof.
  unfold CheckJobMountPaths. rewrite result_of_ok, app_nil. intros [Hw Hv]. split.
  - intros w E Hne. rewrite E in Hw. destruct (String.eqb_spec (wc_MountPath w) ""); [done|]. by destruct (CheckContainerMountPath _ _) as [[]|].
  - intros v [i Hi]%list_elem_of_lookup. exists i. rewrite concat_nil in Hv. apply Hv. apply elem_of_lookup_imap. eauto.
Qed.

Lemma clean_abs_no_slash p : clean_abs p → TrimSuffix p "/" = p.
Proof.
  intros Hp. unfold TrimSuffix. destruct (HasSuffix p "/") eqn:E; [|done]. exfalso. apply HasSuffix_spec in E as [r Hr].
  pose proof (clean_abs_segments p Hp) as (_ & Hne & Hsplit). destruct Hp as (Habs & Hc & _). destruct (Clean_shape p) as (out & Ho & Hf). rewrite Habs in Ho, Hf. rewrite Hc in Ho.
  assert (segments p = out) as Hs. { unfold segments. rewrite Habs, Ho. exact (clean_segs_unsegs true out Hf). } apply clean_form_segs in Hf. rewrite <-Hs in Hf.
  rewrite Hr in Hsplit at 1. rewrite Split_app_sep in Hsplit. change (Split "/" "") with [""] in Hsplit.
  destruct (exists_last Hne) as (l & x & Hl). rewrite Hl in Hsplit, Hf. rewrite app_comm_cons in Hsplit. apply app_inj_tail in Hsplit as [_ <-].
  apply Forall_app in Hf as [_ Hf]. apply Forall_singleton in Hf as [Hf _]. done.
Qed.

(** An accepted volume's place in the container. *)
Lemma volume_unprotected ws i v :
  clean_abs ws → unprotected ws → volume_mount_check ws i v = [] → normalizeVolumeMountPath (vm_MountPath v) ≠ "." →
  unprotected (volumeContainerPath ws (normalizeVolumeMountPath (vm_MountPath v))).
Proof.
  intros Hca Hws. unfold volume_mount_check. set (mp := normalizeVolumeMountPath _). intros Hcheck Hdot. destruct (String.eqb_spec mp "."); [done|].
  pose proof Hca as (_ & Hclean & _). rewrite Hclean in Hcheck. destruct (negb (IsAbs mp) && _) eqn:E.
  - apply andb_true_iff in E as [_ E]. apply orb_true_iff in E as [E|E]; [apply String.eqb_eq in E; by rewrite E|].
    apply (under_unprotected ws); [done|]. by rewrite clean_abs_no_slash in E.
  - unfold mount_violation in Hcheck. destruct (CheckContainerMountPath _ _) as [[]|] eqn:Ec; [|done]. by apply checked_unprotected in Ec as [_ Ec].
Qed.

(** ** The sidecar *)

Section built.
Context (jsonError : list string → option text).
Context (podSpecFromMap : vmap → res PodSpec) (containersFromMaps : list vmap → res (list Container)) (volumesFromMaps : list vmap → res (list Volume)).
Context (DefaultRunnerImage : string).

Lemma resolved_unprotected agentTmpls jt volumes :
  let ws := workspaceMountOf (resolveWorkspaceConfig agentTmpls jt) in
  CheckJobMountPaths jt ws volumes = Ok tt →
  (∀ t at_ w, jt = Some t → pt_Workspace t = None → agentTmpls !! pt_Name t = Some at_ → apt_Workspace at_ = Some w → wc_MountPath w ≠ "" → CheckContainerMountPath (wc_MountPath w) sidecarProtectedDirs = Ok tt) →
  clean_abs ws ∧ unprotected ws.
Proof.
  intros ws [Hw _]%mount_checks Htmpl. apply checked_unprotected. subst ws.
  assert (CheckContainerMountPath "/workspace" sidecarProtectedDirs = Ok tt) as Hdefault by (vm_compute; reflexivity).
  unfold workspaceMountOf. destruct (resolveWorkspaceConfig agentTmpls jt) as [w|] eqn:E; [|done]. destruct (String.eqb_spec (wc_MountPath w) "") as [|Hne]; [done|].
  destruct jt as [t|]; [|done]. cbn in E. destruct (negb _); [|by apply Hw].
  destruct (pt_Workspace t) as [w'|] eqn:Ew; [injection E as ->; by apply Hw|]. destruct (agentTmpls !! pt_Name t) as [at_|] eqn:Ea; [|done]. by eapply Htmpl.
Qed.

Lemma derived_mounts_unprotected ws vols b c m :
  clean_abs ws → unprotected ws → (∀ pv, pv ∈ vols → pv_MountPath pv ≠ "." → unprotected (volumeContainerPath ws (pv_MountPath pv))) →
  derived ws vols b c → m ∈ c_VolumeMounts c → m ∈ c_VolumeMounts b ∨ m = ucd_mount ∨ unprotected (m_MountPath m).
Proof.
  intros Hca Hws Hvols D Hm. destruct (dv_mounts _ _ _ _ D) as (extra & Hx & Hf). rewrite Hx in Hm. apply elem_of_app in Hm as [Hm|Hm]; [by left|right].
  rewrite Forall_forall in Hf. destruct (Hf m Hm) as [| |i pv Hpv Hroot]; [by right|by left|right; apply Hvols; [by eapply list_elem_of_lookup_2|done]].
Qed.

(** The only container of that name is the sidecar. *)
Lemma sidecar_only runID ns agentTmpls jt image sidecar shimImage vols pod c :
  BuildPod podSpecFromMap containersFromMaps volumesFromMaps DefaultRunnerImage runID ns agentTmpls jt image sidecar shimImage vols = Ok pod →
  c ∈ ps_Containers (p_Spec pod) → c_Name c = artifactSidecarName →
  derived (workspaceMountOf (resolveWorkspaceConfig agentTmpls jt)) vols (buildArtifactSidecarContainer sidecar).1 c.
Proof.
  intros Hb Hc Hname. edestruct BuildPod_injected as (s & Hs & Hij); [reflexivity|exact Hb|].
  destruct (ij_containers _ _ _ _ _ _ Hij c Hc) as [(b & Hin & D)|[(im & D)|D]]; [exfalso|exfalso|done].
  - unfold BuildPod in Hb. rewrite Hs in Hb. cbn [mbind res_bind] in Hb. apply then_ok in Hb as [Hnames _].
    assert (∃ b', b' ∈ injectKeepAlive (injectPrimaryJob image DefaultRunnerImage (ps_Containers s)) ∧ c_Name b' = artifactSidecarName) as (b' & Hb' & Hn').
    { rewrite (dv_name _ _ _ _ D) in Hname. exists b. split; [|done]. unfold injectKeepAlive. apply list_elem_of_fmap. exists b. split; [by rewrite Hname|].
      unfold injectPrimaryJob. destruct (existsb _ _); [done|]. apply elem_of_app. by left. }
    eapply (each_ok_elem _ _ b') in Hnames as (j & Hj); [|exact Hb']. apply then_ok in Hj as [_ Hj]. apply fail_if_ok in Hj. by rewrite Hn' in Hj.
  - rewrite (dv_name _ _ _ _ D) in Hname. done.
Qed.
End built.

(** C28: nothing a job chooses is mounted over or into what the artifact sidecar runs
    from, or where its credentials are.  In the pod built for a claim whose mount paths
    were accepted, with the volumes as planned for it, every mount of the sidecar is its
    own credentials, the shim's directory, or lies outside every directory of
    [kept_dirs] and covers none.  The workspace the operator's template chooses, where
    the job does not choose one, must be a path that a job could have chosen: nothing
    checks it ([template_unchecked]). *)
Theorem sidecar_view_protected podSpecFromMap containersFromMaps volumesFromMaps DefaultRunnerImage
    runID ns agentTmpls jt image sidecar shimImage agentName declared volumes chosen vols paths pod c m
    (Hchecked : CheckJobMountPaths jt (workspaceMountOf (resolveWorkspaceConfig agentTmpls jt)) volumes = Ok tt)
    (Htemplate : ∀ t at_ w, jt = Some t → pt_Workspace t = None → agentTmpls !! pt_Name t = Some at_ → apt_Workspace at_ = Some w → wc_MountPath w ≠ "" →
       CheckContainerMountPath (wc_MountPath w) sidecarProtectedDirs = Ok tt)
    (Hplanned : planPodVolumes agentName declared (narrowed volumes chosen) (workspaceMountOf (resolveWorkspaceConfig agentTmpls jt)) = Ok (vols, paths))
    (Hbuilt : BuildPod podSpecFromMap containersFromMaps volumesFromMaps DefaultRunnerImage runID ns agentTmpls jt image sidecar shimImage vols = Ok pod)
    (Hc : c ∈ ps_Containers (p_Spec pod)) (Hname : c_Name c = artifactSidecarName) (Hm : m ∈ c_VolumeMounts c) :
  m ∈ c_VolumeMounts (buildArtifactSidecarContainer sidecar).1 ∨ m = ucd_mount ∨ unprotected (m_MountPath m).
Proof.
  destruct (resolved_unprotected _ _ _ Hchecked Htemplate) as [Hca Hws]. apply mount_checks in Hchecked as [_ Hv].
  eapply derived_mounts_unprotected; [exact Hca|exact Hws| |by eapply sidecar_only|done].
  intros pv Hpv Hroot. destruct (planned_paths _ _ _ _ _ _ _ _ Hplanned pv Hpv) as (v & Hin & Hp).
  assert (∃ v', v' ∈ volumes ∧ vm_MountPath v = vm_MountPath v') as (v' & Hin' & Hpath).
  { apply list_elem_of_lookup in Hin as [k Hk]. unfold narrowed in Hk. apply lookup_zip_with_Some in Hk as (v0 & n & -> & Hk & _). exists v0. split; [by eapply list_elem_of_lookup_2|done]. }
  rewrite Hp, Hpath in *. destruct (Hv v' Hin') as [i Hi]. by eapply volume_unprotected.
Qed.

Module Claimed.
Definition volumes : list VolumeMount := [MkVolumeMount ["other"; "cache"] "" "c"].
Definition declared : gmap string VolumeConfig := {["cache" := MkVolumeConfig "cache" "exclusive" "" "1Gi"]}.
Definition pod : Pod := match Sample.build with Ok p => p | Err _ => MkPodObject "" "" ∅ ∅ (podspec_of []) end.
Definition sidecar : Container := nth 1 (ps_Containers (p_Spec pod)) (container_of "" "").
Definition cache : Mount := nth 2 (c_VolumeMounts sidecar) ucd_mount.

Example cache_path : m_MountPath cache = "/workspace/c".
Proof. vm_compute. reflexivity. Qed.

(** A template whose workspace is [/usr/local] is not checked, and neither is what a job
    then puts under it: its volume covers the directory of the sidecar's binary. *)
Definition tools : list VolumeMount := [MkVolumeMount ["cache"] "" "bin"].
Definition usr_local : gmap string AgentPodTemplate := {["build" := MkAgentPodTemplate (Some (MkWorkspaceConfig "/usr/local")) [("containers", VList [])] ""]}.
Definition covered : res Pod :=
  BuildPod Sample.podSpecFromMap Sample.containersFromMaps Sample.volumesFromMaps "runner" "run-1" "ns" usr_local (Some Sample.jt) "img" Sample.sidecar "shim"
    [MkPodVolume "cache" "node-cache" "bin"].
Example template_unchecked :
  CheckJobMountPaths (Some Sample.jt) (workspaceMountOf (resolveWorkspaceConfig usr_local (Some Sample.jt))) tools = Ok tt
  ∧ match covered with
    | Ok p => Exists (λ c, c_Name c = artifactSidecarName ∧ "/usr/local/bin" ∈ map m_MountPath (c_VolumeMounts c)) (ps_Containers (p_Spec p))
    | Err _ => False
    end.
Proof.
  split; [vm_compute; reflexivity|]. vm_compute. right. left. split; [reflexivity|]. by repeat constructor.
Qed.
End Claimed.

Lemma sidecar_view_protected_witness :
  Claimed.cache ∈ c_VolumeMounts (buildArtifactSidecarContainer Sample.sidecar).1 ∨ Claimed.cache = ucd_mount ∨ unprotected (m_MountPath Claimed.cache).
Proof.
  apply (sidecar_view_protected Sample.podSpecFromMap Sample.containersFromMaps Sample.volumesFromMaps "runner" "run-1" "ns" Sample.agentTmpls (Some Sample.jt) "img" Sample.sidecar "shim"
    "node" Claimed.declared Claimed.volumes ["cache"] [MkPodVolume "cache" "node-cache" "c"] {["cache" := "/workspace/c"]} Claimed.pod Claimed.sidecar Claimed.cache).
  - vm_compute. reflexivity.
  - intros t at_ w [= <-] _ Ha Hw. vm_compute in Ha. injection Ha as <-. discriminate Hw.
  - vm_compute. reflexivity.
  - vm_compute. reflexivity.
  - apply (list_elem_of_lookup_2 _ 1). vm_compute. reflexivity.
  - vm_compute. reflexivity.
  - apply (list_elem_of_lookup_2 _ 2). vm_compute. reflexivity.
Defined.
