(* ===== verification/PodPool.v ===== *)
(** * internal/k8sagent/pool.go and podgc.go: pods that are used again

    The key of a pod's shape, and as programs over the API server and the pool of one
    process: claiming a pod, releasing it, evicting idle ones, restoring the pool at
    startup, and the sweep of orphaned pods.  [pstep] interleaves them for any number
    of agents on one namespace. *)

From S2P Require Import Prelude GoStrings DslTypes K8sVolumes Programs PodSpecs PodPolicy PodBuilder.
From stdpp Require Import options.

(** ** The key *)

Record canonicalShape := MkShape {
  cs_TemplateName : string;
  cs_AgentTemplate : option AgentPodTemplate;
  cs_JobTemplate : option PodTemplate;
  cs_FallbackImage : string;
  cs_Sidecar : SidecarSpec;
  cs_ShimImage : string;
  cs_WorkspaceLimit : string
}.

Definition shape_of (templateName : string) (agentTmpls : gmap string AgentPodTemplate) (jobTmpl : option PodTemplate) (fallbackImage : string)
    (sidecar : SidecarSpec) (shimImage workspaceLimit : string) : canonicalShape :=
  MkShape templateName (if (templateName =? "")%string then None else agentTmpls !! templateName) jobTmpl fallbackImage sidecar shimImage workspaceLimit.

(** What a claim takes of the agent's configuration. *)
Record agentConfig := MkAgentConfig {
  ac_PodTemplates : gmap string AgentPodTemplate;
  ac_PodImage : string;
  ac_Sidecar : SidecarSpec;
  ac_ShimImage : string;
  ac_WorkspaceSizeLimit : string
}.

Section limits.
(** [resource.ParseQuantity]: the quantity as it prints itself, and its sign. *)
Variable ParseQuantity : string → res (string * Z).

Definition parseWorkspaceSizeLimit (field : text) (raw : string) : res string :=
  match ParseQuantity raw with
  | Err e => Err (field ++ [Lit " "; Quo raw; Lit ": "] ++ e)
  | Ok (q, sign) => if (sign <=? 0)%Z then Err (field ++ [Lit " "; Quo raw; Lit ": must be greater than 0 (leave it unset for no limit)"]) else Ok q
  end.

Definition WorkspaceSizeLimitFor (cfg : agentConfig) (template : string) : res (option string) :=
  let '(raw, field) :=
    match ac_PodTemplates cfg !! template with
    | Some t => if (apt_WorkspaceSizeLimit t =? "")%string then (ac_WorkspaceSizeLimit cfg, [Lit "workspaceSizeLimit"])
                else (apt_WorkspaceSizeLimit t, [Lit "podTemplates["; Quo template; Lit "].workspaceSizeLimit"])
    | None => (ac_WorkspaceSizeLimit cfg, [Lit "workspaceSizeLimit"])
    end in
  if (raw =? "")%string then Ok None else q ← parseWorkspaceSizeLimit field raw; Ok (Some q).

Definition resolveWorkspaceSizeLimit (cfg : agentConfig) (tmplName : string) : option string :=
  match WorkspaceSizeLimitFor cfg tmplName with Ok q => q | Err _ => None end.
End limits.

Section key.
(** [encoding/json], and the first half of SHA-256 in hexadecimal. *)
Variables (marshal : canonicalShape → option string) (digest : string → string).

Definition scalarKey (s : canonicalShape) : string :=
  Join ":" [cs_TemplateName s; cs_FallbackImage s; cs_ShimImage s; ss_Image (cs_Sidecar s); ss_S3SecretName (cs_Sidecar s); ss_S3SecretMode (cs_Sidecar s)]
  +:+ (if (cs_WorkspaceLimit s =? "")%string then "" else ":" +:+ cs_WorkspaceLimit s).
Definition poolKeyWithLimit (s : canonicalShape) : string := digest (default (scalarKey s) (marshal s)).
End key.

(** ** Pods and the pool *)

Definition annoPoolKey : string := "unified-cd/pool-key".
Definition annoPoolRunID : string := "unified-cd/pool-run-id".

(** The UIDs, which only go into heartbeats, are left out. *)
Record object := MkObject { o_Version : N; o_Annotations : gmap string string; o_Spec : PodSpec }.
Record PooledPod := MkPooledPod { pp_PodName : string; pp_PoolKey : string; pp_ResourceVersion : N; pp_IdleSince : Z }.

(** The last three are about the process's own pool. *)
Inductive request :=
| QGet (name : string) | QUpdate (name : string) (version : N) (annos : gmap string string) | QCreate (name : string) (annos : gmap string string) (spec : PodSpec)
| QDelete (name : string) | QList | QRun (run : string) | QNow
| QPop (key : string) | QPush (pp : PooledPod) | QExpired (now idleTimeout : Z).
Inductive answer :=
| APod (o : object) | APods (l : list (string * object)) | ADone | AFinished | ARunning | ANow (now : Z)
| AEntry (pp : option PooledPod) | AEntries (l : list PooledPod) | AFailed (e : text).
Abbreviation prog := (Programs.prog request answer).

Definition is_finished (a : answer) : bool := match a with AFinished => true | _ => false end.

Definition UpdatePodAnnotations (name : string) (annos : gmap string string) (version : N) : prog (res unit) :=
  Do (QGet name) (λ a,
    match a with
    | APod o =>
        if negb (o_Version o =? version)%N then Ret (Err [Lit ("conflict: resourceVersion of pod " +:+ name +:+ " has changed")])
        else Do (QUpdate name (o_Version o) (annos ∪ o_Annotations o)) (λ a, Ret (match a with APod _ => Ok tt | AFailed e => Err e | _ => Err [] end))
    | AFailed e => Ret (Err ([Lit ("failed to get Pod " +:+ name +:+ ": ")] ++ e))
    | _ => Ret (Err [])
    end).

Section claim.
Variables (podSpecFromMap : vmap → res PodSpec) (containersFromMaps : list vmap → res (list Container)) (volumesFromMaps : list vmap → res (list Volume)).
Variables (DefaultRunnerImage namespace : string) (ParseQuantity : string → res (string * Z)) (marshal : canonicalShape → option string) (digest : string → string).

Definition limited (limit : option string) (pod : Pod) : Pod :=
  match limit with
  | Some q => MkPodObject (p_Name pod) (p_Namespace pod) (p_Labels pod) (p_Annotations pod) (applyWorkspaceLimit q (p_Spec pod))
  | None => pod
  end.
Definition pool_pod (runID : string) (cfg : agentConfig) (jobTmpl : option PodTemplate) : res Pod :=
  pod ← BuildPod podSpecFromMap containersFromMaps volumesFromMaps DefaultRunnerImage runID namespace (ac_PodTemplates cfg) jobTmpl (ac_PodImage cfg) (ac_Sidecar cfg) (ac_ShimImage cfg) [];
  Ok (limited (jt ← jobTmpl; resolveWorkspaceSizeLimit ParseQuantity cfg (pt_Name jt)) pod).

Definition createPoolPod (runID key : string) (cfg : agentConfig) (jobTmpl : option PodTemplate) : prog (res PooledPod) :=
  match pool_pod runID cfg jobTmpl with
  | Err e => Ret (Err e)
  | Ok pod =>
      Do (QCreate (p_Name pod) (<[annoPoolKey := key]> (p_Annotations pod)) (p_Spec pod)) (λ a,
        Ret (match a with
             | APod o => Ok (MkPooledPod (p_Name pod) key (o_Version o) 0)
             | AFailed e => Err ([Lit ("failed to create Pod " +:+ p_Name pod +:+ ": ")] ++ e)
             | _ => Err []
             end))
  end.

Definition claim_shape (templateName : string) (cfg : agentConfig) (jobTmpl : option PodTemplate) : canonicalShape :=
  shape_of templateName (ac_PodTemplates cfg) jobTmpl (ac_PodImage cfg) (ac_Sidecar cfg) (ac_ShimImage cfg)
    (default "" (resolveWorkspaceSizeLimit ParseQuantity cfg templateName)).

Definition claim_annos (runID : string) : gmap string string := <[annoPoolStatus := poolStatusInUse]> {[annoPoolRunID := runID]}.

Definition ClaimPod (runID templateName : string) (cfg : agentConfig) (jobTmpl : option PodTemplate) : prog (res PooledPod) :=
  let key := poolKeyWithLimit marshal digest (claim_shape templateName cfg jobTmpl) in
  Do (QPop key) (λ a,
    match a with
    | AEntry (Some pp) =>
        r ← UpdatePodAnnotations (pp_PodName pp) (claim_annos runID) (pp_ResourceVersion pp);
        match r with
        | Err _ => Do (QDelete (pp_PodName pp)) (λ _, createPoolPod runID key cfg jobTmpl)
        | Ok _ =>
            Do (QGet (pp_PodName pp)) (λ a,
              Ret (Ok (match a with APod o => MkPooledPod (pp_PodName pp) (pp_PoolKey pp) (o_Version o) (pp_IdleSince pp) | _ => pp end)))
        end
    | _ => createPoolPod runID key cfg jobTmpl
    end).
End claim.

Definition released_annos (annos : gmap string string) : gmap string string := delete annoPoolRunID (<[annoPoolStatus := poolStatusIdle]> annos).

Definition deleted (name : string) : prog unit := Do (QDelete name) (λ _, Ret tt).

Definition ReleasePod (pp : PooledPod) (reuse : bool) : prog unit :=
  if negb reuse then deleted (pp_PodName pp)
  else Do (QGet (pp_PodName pp)) (λ a,
    match a with
    | APod o =>
        Do (QUpdate (pp_PodName pp) (o_Version o) (released_annos (o_Annotations o))) (λ a,
          match a with
          | APod o' => Do QNow (λ a,
              match a with
              | ANow now => Do (QPush (MkPooledPod (pp_PodName pp) (pp_PoolKey pp) (o_Version o') now)) (λ _, Ret tt)
              | _ => Ret tt
              end)
          | _ => deleted (pp_PodName pp)
          end)
    | _ => deleted (pp_PodName pp)
    end).

Fixpoint delete_all (names : list string) : prog unit :=
  match names with [] => Ret tt | n :: names => Do (QDelete n) (λ _, delete_all names) end.

Definition evictExpired (idleTimeout : Z) : prog unit :=
  Do QNow (λ a, match a with
    | ANow now => Do (QExpired now idleTimeout) (λ a, match a with AEntries l => delete_all (map pp_PodName l) | _ => Ret tt end)
    | _ => Ret tt
    end).

(** One pod of [Restore]. *)
Definition restore_one (withController : bool) (name : string) (o : object) : prog unit :=
  let status := default "" (o_Annotations o !! annoPoolStatus) in
  let key := default "" (o_Annotations o !! annoPoolKey) in
  if (status =? "")%string then Ret tt
  else if (key =? "")%string then deleted name
  else if (status =? poolStatusIdle)%string then
    Do QNow (λ a, match a with ANow now => Do (QPush (MkPooledPod name key (o_Version o) now)) (λ _, Ret tt) | _ => Ret tt end)
  else if (status =? poolStatusInUse)%string then
    let run := default "" (o_Annotations o !! annoPoolRunID) in
    if withController && negb (run =? "")%string then
      Do (QRun run) (λ a,
        if is_finished a then
          Do (QUpdate name (o_Version o) (released_annos (o_Annotations o))) (λ a,
            match a with
            | APod o' => Do QNow (λ a, match a with ANow now => Do (QPush (MkPooledPod name key (o_Version o') now)) (λ _, Ret tt) | _ => Ret tt end)
            | _ => deleted name
            end)
        else deleted name)
    else deleted name
  else Ret tt.

Fixpoint restore_all (withController : bool) (l : list (string * object)) : prog unit :=
  match l with
  | [] => Ret tt
  | (name, o) :: l => _ ← restore_one withController name o; restore_all withController l
  end.

Definition Restore (withController : bool) : prog (res unit) :=
  Do QList (λ a, match a with
    | APods l => _ ← restore_all withController l; Ret (Ok tt)
    | AFailed e => Ret (Err ([Lit "pool restore: pod list failed: "] ++ e))
    | _ => Ret (Err [])
    end).

(** ** podgc.go *)

Inductive run_status := Unknown (* no answer *) | Missing (* 404 *) | Finished | Active.
#[export] Instance run_status_eq_dec : EqDecision run_status.
Proof. solve_decision. Defined.
Definition podGCDecision (st : run_status) (poolManaged : bool) : bool :=
  if poolManaged then false else match st with Missing | Finished => true | _ => false end.
Record gcPod := MkGcPod { gp_podName : string; gp_runID : string; gp_poolManaged : bool }.
Definition listRunPods (l : list (string * (gmap string string * gmap string string))) : list gcPod :=
  omap (λ '(name, (labels, annos)),
    let runID := default "" (labels !! labelRunID) in
    if (runID =? "")%string then None else Some (MkGcPod name runID (negb (default "" (annos !! annoPoolStatus) =? "")%string))) l.
(** The pods that a sweep asks to delete. *)
Definition runPodGCOnce (getRun : string → run_status) (pods : list gcPod) : list string :=
  map gp_podName (filter (λ p, getRun (gp_runID p) ≠ Unknown ∧ podGCDecision (getRun (gp_runID p)) (gp_poolManaged p) = true) pods).

(** ** Agents on one namespace *)

(** [owner]: who marked a pod in use last.  [made]: the names of all pods ever created,
    [used]: of all threads ever started. *)
Record world := MkWorld {
  objects : gmap string object;
  pools : gmap (string * string) (list PooledPod); (* of every agent, by key *)
  owner : gmap string string;
  live : gset string;
  used : gset string;
  made : gset string;
  clock : N
}.

Definition with_objects (os : gmap string object) (ow : gmap string string) (mk : gset string) (w : world) : world :=
  MkWorld os (pools w) ow (live w) (used w) (mk ∪ made w) (N.succ (clock w)).
Definition with_pools (ps : gmap (string * string) (list PooledPod)) (w : world) : world := MkWorld (objects w) ps (owner w) (live w) (used w) (made w) (clock w).
Definition with_live (l u : gset string) (w : world) : world := MkWorld (objects w) (pools w) (owner w) l u (made w) (clock w).

Definition in_use (annos : gmap string string) : Prop := annos !! annoPoolStatus = Some poolStatusInUse.
#[export] Instance in_use_dec annos : Decision (in_use annos).
Proof. unfold in_use. apply _. Defined.
Definition owner_after (thread name : string) (annos ow : gmap string string) : gmap string string :=
  if decide (in_use annos) then <[name := thread]> ow else delete name ow.
Definition expired (now idleTimeout : Z) (pp : PooledPod) : Prop := (idleTimeout ≤ now - pp_IdleSince pp)%Z.
#[export] Instance expired_dec now t pp : Decision (expired now t pp).
Proof. unfold expired. apply _. Defined.
Definition unexpired (agent : string) (now idleTimeout : Z) (id : string * string) (ps : list PooledPod) : list PooledPod :=
  if decide (id.1 = agent) then filter (λ pp, ¬ expired now idleTimeout pp) ps else ps.

Section serve.
(** [honest]: the controller calls a run finished only when no agent works on it. *)
Variables (honest : Prop) (agent thread : string).

(** A write answers with the pod as written, or fails after it was done. *)
Definition written (o : object) (a : answer) : Prop := a = APod o ∨ ∃ e, a = AFailed e.

Inductive serve (w : world) : request → world → answer → Prop :=
| sv_get_failed n e : serve w (QGet n) w (AFailed e)
| sv_update_failed n v annos e : serve w (QUpdate n v annos) w (AFailed e)
| sv_create_failed n annos spec e : serve w (QCreate n annos spec) w (AFailed e)
| sv_delete_failed n e : serve w (QDelete n) w (AFailed e)
| sv_list_failed e : serve w QList w (AFailed e)
| sv_run_failed r e : serve w (QRun r) w (AFailed e)
| sv_get n o : objects w !! n = Some o → serve w (QGet n) w (APod o)
| sv_update n o annos a :
    objects w !! n = Some o → written (MkObject (clock w) annos (o_Spec o)) a →
    serve w (QUpdate n (o_Version o) annos) (with_objects (<[n := MkObject (clock w) annos (o_Spec o)]> (objects w)) (owner_after thread n annos (owner w)) ∅ w) a
| sv_create n annos spec a :
    objects w !! n = None → written (MkObject (clock w) annos spec) a →
    serve w (QCreate n annos spec) (with_objects (<[n := MkObject (clock w) annos spec]> (objects w)) (owner_after thread n annos (owner w)) {[n]} w) a
| sv_delete n : serve w (QDelete n) (with_objects (delete n (objects w)) (delete n (owner w)) ∅ w) ADone
| sv_deleting n : serve w (QDelete n) w ADone (* it takes its time *)
| sv_list l : (∀ n o, (n, o) ∈ l → objects w !! n = Some o) → serve w QList w (APods l)
| sv_run_finished r : (honest → r ∉ live w) → serve w (QRun r) w AFinished
| sv_run_active r : serve w (QRun r) w ARunning
| sv_now now : serve w QNow w (ANow now)
| sv_pop_none k : default [] (pools w !! (agent, k)) = [] → serve w (QPop k) w (AEntry None)
| sv_pop k l pp : pools w !! (agent, k) = Some (l ++ [pp]) → serve w (QPop k) (with_pools (<[(agent, k) := l]> (pools w)) w) (AEntry (Some pp))
| sv_push pp : serve w (QPush pp) (with_pools (<[(agent, pp_PoolKey pp) := default [] (pools w !! (agent, pp_PoolKey pp)) ++ [pp]]> (pools w)) w) ADone
| sv_expired now t l :
    (∀ pp, pp ∈ l ↔ ∃ k ps, pools w !! (agent, k) = Some ps ∧ pp ∈ ps ∧ expired now t pp) →
    serve w (QExpired now t) (with_pools (map_imap (λ id ps, Some (unexpired agent now t id ps)) (pools w)) w) (AEntries l).
End serve.

(** Pods change in other respects, and go. *)
Record elsewhere (w w' : world) : Prop := {
  el_pools : pools w' = pools w;
  el_live : live w' = live w;
  el_used : used w' = used w;
  el_made : made w' = made w;
  el_clock : (clock w ≤ clock w')%N;
  el_objects n o' : objects w' !! n = Some o' →
    ∃ o, objects w !! n = Some o ∧ o_Annotations o' = o_Annotations o ∧ o_Spec o' = o_Spec o ∧ (o_Version o' = o_Version o ∨ (clock w ≤ o_Version o' < clock w')%N);
  el_owner n : owner w' !! n = match objects w' !! n with Some _ => owner w !! n | None => None end
}.

(** A run's thread, or work of an agent in the background. *)
Inductive task :=
| Claiming (agent : string) (cfg : agentConfig) (jt : PodTemplate) (p : prog (res PooledPod))
| Holds (agent : string) (cfg : agentConfig) (jt : PodTemplate) (pp : PooledPod)
| Working (agent : string) (p : prog unit).
Record pooled := MkPooled { w_world : world; w_tasks : gmap string task }.

(** The deferred end of [executeRun]. *)
Definition teardown (podReady : bool) (pp : PooledPod) : prog unit := if podReady then ReleasePod pp true else deleted (pp_PodName pp).

Section agents.
Variables (podSpecFromMap : vmap → res PodSpec) (containersFromMaps : list vmap → res (list Container)) (volumesFromMaps : list vmap → res (list Volume)).
Variables (DefaultRunnerImage namespace : string) (ParseQuantity : string → res (string * Z)) (marshal : canonicalShape → option string) (digest : string → string).
Variable honest : Prop.

(** No two threads share the name of a pod. *)
Definition fresh (id : string) (w : world) : Prop := ∀ t, t ∈ used w → podName t ≠ podName id.
Definition started (id : string) (w : world) : world := with_live ({[id]} ∪ live w) ({[id]} ∪ used w) w.

Inductive pstep : pooled → pooled → Prop :=
| ps_claim w ts run agent cfg jt :
    fresh run w → pt_Reuse jt = true →
    pstep (MkPooled w ts)
      (MkPooled (started run w) (<[run := Claiming agent cfg jt (ClaimPod podSpecFromMap containersFromMaps volumesFromMaps DefaultRunnerImage namespace ParseQuantity marshal digest run (pt_Name jt) cfg (Some jt))]> ts))
| ps_claim_request w ts run agent cfg jt q k w' a :
    ts !! run = Some (Claiming agent cfg jt (Programs.Do q k)) → serve honest agent run w q w' a → pstep (MkPooled w ts) (MkPooled w' (<[run := Claiming agent cfg jt (k a)]> ts))
| ps_claimed w ts run agent cfg jt pp :
    ts !! run = Some (Claiming agent cfg jt (Programs.Ret (Ok pp))) → pstep (MkPooled w ts) (MkPooled w (<[run := Holds agent cfg jt pp]> ts))
| ps_release w ts run agent cfg jt pp podReady :
    ts !! run = Some (Holds agent cfg jt pp) → pstep (MkPooled w ts) (MkPooled w (<[run := Working agent (teardown podReady pp)]> ts))
| ps_background w ts id agent p :
    fresh id w → p = (_ ← Restore true; Ret tt) ∨ (∃ t, p = evictExpired t) →
    pstep (MkPooled w ts) (MkPooled (started id w) (<[id := Working agent p]> ts))
| ps_work w ts id agent q k w' a :
    ts !! id = Some (Working agent (Programs.Do q k)) → serve honest agent id w q w' a → pstep (MkPooled w ts) (MkPooled w' (<[id := Working agent (k a)]> ts))
| ps_stop w ts id : pstep (MkPooled w ts) (MkPooled (with_live (live w ∖ {[id]}) (used w) w) (delete id ts))
| ps_elsewhere w ts w' : elsewhere w w' → pstep (MkPooled w ts) (MkPooled w' ts).

Inductive preach : pooled → Prop :=
| pr_start : preach (MkPooled (MkWorld ∅ ∅ ∅ ∅ ∅ ∅ 1) ∅)
| pr_step s s' : preach s → pstep s s' → preach s'.
End agents.
