(* ===== verification/PodPoolFacts.v ===== *)
(** * One run per pooled pod

    Rely and guarantee for the programs of [PodPool], as in [K8sLocks]: a thread writes
    to a pod only when no other live thread owns it, because it wrote at the version it
    has seen idle, owned by itself, or owned by a run that is over. *)

From S2P Require Import Prelude GoStrings DslTypes K8sVolumes Programs PodSpecs PodPolicy PodBuilder PodPool.
From stdpp Require Import options.

Section proof.
(** What a pod created under a key looks like. *)
Context (built : string → PodSpec → Prop).

(** An entry of a pool is of use only while the pod is as it was when it became idle. *)
Record entry_ok (w : world) (pp : PooledPod) : Prop := {
  en_made : pp_PodName pp ∈ made w;
  en_version : (pp_ResourceVersion pp < clock w)%N;
  en_idle o : objects w !! pp_PodName pp = Some o → o_Version o = pp_ResourceVersion pp →
    ¬ in_use (o_Annotations o) ∧ o_Annotations o !! annoPoolKey = Some (pp_PoolKey pp)
}.

Record world_ok (w : world) : Prop := {
  wk_version n o : objects w !! n = Some o → (o_Version o < clock w)%N ∧ n ∈ made w;
  wk_owned n o : objects w !! n = Some o → in_use (o_Annotations o) →
    ∃ t, owner w !! n = Some t ∧ t ∈ used w ∧ ∀ r, o_Annotations o !! annoPoolRunID = Some r → r = t;
  wk_free n o : objects w !! n = Some o → ¬ in_use (o_Annotations o) → owner w !! n = None;
  wk_gone n : objects w !! n = None → owner w !! n = None;
  wk_built n o key : objects w !! n = Some o → o_Annotations o !! annoPoolKey = Some key → built key (o_Spec o);
  wk_entries id ps pp : pools w !! id = Some ps → pp ∈ ps → pp_PoolKey pp = id.2 ∧ entry_ok w pp
}.

(** What a thread leaves to another one that is alive. *)
Definition keeps (r : string) (w w' : world) : Prop :=
  ∀ n, owner w !! n = Some r → (objects w' !! n = None ∧ n ∈ made w') ∨
    owner w' !! n = Some r ∧ ∃ o o', objects w !! n = Some o ∧ objects w' !! n = Some o' ∧ o_Annotations o' = o_Annotations o.

Record forward (w w' : world) : Prop := {
  fw_clock : (clock w ≤ clock w')%N;
  fw_made : made w ⊆ made w';
  fw_used : used w ⊆ used w';
  fw_dead r : r ∈ used w → r ∉ live w → r ∉ live w';
  fw_objects n o' : objects w' !! n = Some o' → (o_Version o' < clock w)%N →
    ∃ o, objects w !! n = Some o ∧ o_Version o' = o_Version o ∧ o_Annotations o' = o_Annotations o ∧ owner w' !! n = owner w !! n;
  fw_gone n : n ∈ made w → objects w !! n = None → objects w' !! n = None
}.

Record rely (t : string) (w w' : world) : Prop := {
  rl_forward : forward w w';
  rl_mine : keeps t w w';
  rl_fresh : podName t ∉ made w → podName t ∉ made w'
}.

Record respects (t : string) (w w' : world) : Prop := {
  rs_forward : forward w w';
  rs_others r : r ≠ t → r ∈ live w → keeps r w w';
  rs_made n : n ∈ made w' → n ∈ made w ∨ n = podName t;
  rs_live : live w' = live w;
  rs_used : used w' = used w;
  rs_ok : world_ok w'
}.

#[export] Instance forward_preorder : PreOrder forward.
Proof.
  split; [intros w; constructor; eauto; lia|]. intros a b c [C1 M1 U1 D1 O1 G1] [C2 M2 U2 D2 O2 G2]. constructor; eauto; try (etransitivity; done).
  intros n o'' H Hv. destruct (O2 n o'' H) as (o' & H' & V' & A' & W'); [lia|]. destruct (O1 n o' H') as (o & Ho & V & A & W); [lia|].
  exists o. repeat split; congruence.
Qed.

Lemma keeps_trans t a b c : forward b c → keeps t a b → keeps t b c → keeps t a c.
Proof.
  intros Hf H1 H2 n Hn. destruct (H1 n Hn) as [[Hg Hm]|(Hb & o & o' & Ho & Ho' & HA)].
  - left. split; [by apply (fw_gone _ _ Hf)|by apply (fw_made _ _ Hf)].
  - destruct (H2 n Hb) as [|(Hc & p & p' & Hp & Hp' & HB)]; [by left|right]. split; [done|]. exists o, p'. repeat split; try done. congruence.
Qed.

Lemma keeps_same t w w' : world_ok w → objects w' = objects w → owner w' = owner w → keeps t w w'.
Proof.
  intros Hok Ho Hw n Hn. right. rewrite Hw, Ho. split; [done|]. destruct (objects w !! n) as [o|] eqn:E; [by exists o, o|]. by rewrite (wk_gone _ Hok n E) in Hn.
Qed.

#[export] Instance rely_transitive t : Transitive (rely t).
Proof. intros a b c [F1 M1 R1] [F2 M2 R2]. constructor; [by transitivity b|by eapply keeps_trans|by auto]. Qed.

Lemma rely_refl t w : world_ok w → rely t w w.
Proof. intros H. constructor; [reflexivity|by apply keeps_same|done]. Qed.

(** ** Knowledge that lasts *)

Lemma entry_stable w w' pp : forward w w' → entry_ok w pp → entry_ok w' pp.
Proof.
  intros Hf [Hm Hv Hi]. constructor; [by apply (fw_made _ _ Hf)|pose proof (fw_clock _ _ Hf); lia|].
  intros o' Ho' Hv'. destruct (fw_objects _ _ Hf _ _ Ho') as (o & Ho & V & A & _); [lia|]. rewrite A. apply Hi; [done|congruence].
Qed.

(** A pod was seen with these annotations. *)
Record seen (w : world) (n : string) (o : object) : Prop := {
  se_version : (o_Version o < clock w)%N;
  se_made : n ∈ made w;
  se_annos o' : objects w !! n = Some o' → o_Version o' = o_Version o → o_Annotations o' = o_Annotations o
}.

Lemma seen_here w n o : world_ok w → objects w !! n = Some o → seen w n o.
Proof. intros Hok Ho. destruct (wk_version _ Hok n o Ho). constructor; [done..|]. intros o' Ho'. by simplify_eq. Qed.

Lemma seen_stable w w' n o : forward w w' → seen w n o → seen w' n o.
Proof.
  intros Hf [Hv Hm Ha]. constructor; [pose proof (fw_clock _ _ Hf); lia|by apply (fw_made _ _ Hf)|].
  intros o' Ho' Hv'. destruct (fw_objects _ _ Hf _ _ Ho') as (o1 & Ho & V & A & _); [lia|]. rewrite A. apply Ha; [done|congruence].
Qed.

(** Whoever owned the pod at this version is over. *)
Definition over (w : world) (n : string) (v : N) (r : string) : Prop := ∀ o, objects w !! n = Some o → o_Version o = v → r ∈ used w ∧ r ∉ live w.

Lemma over_stable w w' n v r : forward w w' → (v < clock w)%N → over w n v r → over w' n v r.
Proof.
  intros Hf Hv Ho o' Ho' Hv'. destruct (fw_objects _ _ Hf _ _ Ho') as (o & Ho1 & V & _); [lia|]. destruct (Ho o Ho1) as [Hu Hl]; [congruence|].
  split; [by apply (fw_used _ _ Hf)|by apply (fw_dead _ _ Hf)].
Qed.

(** A run's pod: while it exists the run owns it, and it was built under the run's key. *)
Record held (t key : string) (pp : PooledPod) (w : world) : Prop := {
  hd_made : pp_PodName pp ∈ made w;
  hd_key : pp_PoolKey pp = key;
  hd_owned o : objects w !! pp_PodName pp = Some o → owner w !! pp_PodName pp = Some t ∧ o_Annotations o !! annoPoolKey = Some key
}.

Lemma held_stable t key pp w w' : rely t w w' → held t key pp w → held t key pp w'.
Proof.
  intros Hr [Hm Hk Ho]. constructor; [by apply (fw_made _ _ (rl_forward _ _ _ Hr))|done|]. intros o' Ho'.
  destruct (objects w !! pp_PodName pp) as [o|] eqn:E; [|by rewrite (fw_gone _ _ (rl_forward _ _ _ Hr) _ Hm E) in Ho'].
  destruct (Ho o eq_refl) as [Hw Ha]. destruct (rl_mine _ _ _ Hr _ Hw) as [[]|(Hw' & o1 & o2 & H1 & H2 & HA)]; [congruence|]. simplify_eq. by rewrite HA.
Qed.

(** ** Single requests *)

(** Writing [annos] to [n] at version [v]. *)
Record may_update (t : string) (w : world) (n : string) (v : N) (annos : gmap string string) : Prop := {
  mu_owner o r : objects w !! n = Some o → o_Version o = v → owner w !! n = Some r → r = t ∨ r ∉ live w;
  mu_key o k : objects w !! n = Some o → o_Version o = v → annos !! annoPoolKey = Some k → o_Annotations o !! annoPoolKey = Some k;
  mu_run r : in_use annos → annos !! annoPoolRunID = Some r → r = t
}.

Lemma entries_forward w w' : world_ok w → forward w w' → pools w' = pools w → ∀ id ps pp, pools w' !! id = Some ps → pp ∈ ps → pp_PoolKey pp = id.2 ∧ entry_ok w' pp.
Proof.
  intros Hok Hf Hp id ps pp Hps Hpp. rewrite Hp in Hps. destruct (wk_entries _ Hok id ps pp Hps Hpp) as [Hk He]. split; [done|by eapply entry_stable].
Qed.

Lemma owner_after_lookup t n annos ow m : owner_after t n annos ow !! m = if decide (m = n) then (if decide (in_use annos) then Some t else None) else ow !! m.
Proof. unfold owner_after. case_decide; case_decide; subst; by simplify_map_eq. Qed.

(** A write of the pod [n], by creating or updating it. *)
Lemma write_world t w n annos spec mk :
  world_ok w → t ∈ used w → n ∈ mk ∪ made w →
  (∀ r, r ≠ t → r ∈ live w → owner w !! n ≠ Some r) → (objects w !! n = None → n ∉ made w) → (∀ m, m ∈ mk → m = n ∧ (n ∈ made w ∨ n = podName t)) →
  (∀ k, annos !! annoPoolKey = Some k → built k spec) → (∀ r, in_use annos → annos !! annoPoolRunID = Some r → r = t) →
  respects t w (with_objects (<[n := MkObject (clock w) annos spec]> (objects w)) (owner_after t n annos (owner w)) mk w).
Proof.
  intros Hok Hu Hn Hothers Hnew Hmk Hb Hrun. set (w' := with_objects _ _ _ _).
  assert (forward w w') as Hf.
  { constructor; cbn; [lia|apply union_subseteq_r|done|done| |].
    - intros m o'. rewrite lookup_insert_Some. intros [[<- <-]|[Hne Ho']]; cbn; [lia|]. intros _. exists o'. rewrite owner_after_lookup, decide_False by done. done.
    - intros m Hm Ho. rewrite lookup_insert_ne; [done|]. intros <-. by apply Hnew. }
  constructor; [done| | |done|done|constructor; cbn].
  - intros r Hne Hlive m Hm. right. destruct (decide (m = n)) as [->|Hmn]; [by destruct (Hothers r Hne Hlive)|]. cbn. rewrite owner_after_lookup, decide_False by done. split; [done|].
    destruct (objects w !! m) as [o|] eqn:E; [|by rewrite (wk_gone _ Hok m E) in Hm]. exists o, o. by rewrite lookup_insert_ne.
  - intros m. cbn. intros [Hm|Hm]%elem_of_union; [|by left]. destruct (Hmk m Hm) as [-> [|]]; [by left|by right].
  - intros m o. rewrite lookup_insert_Some. intros [[<- <-]|[Hne Ho]]; cbn; [split; [lia|done]|]. destruct (wk_version _ Hok m o Ho). split; [lia|by apply elem_of_union_r].
  - intros m o. rewrite owner_after_lookup, lookup_insert_Some. intros [[<- <-]|[Hne Ho]]; cbn.
    + intros Hi. rewrite decide_True, decide_True by done. exists t. split; [done|]. split; [done|]. intros r. by apply Hrun.
    + rewrite decide_False by done. by apply (wk_owned _ Hok).
  - intros m o. rewrite owner_after_lookup, lookup_insert_Some. intros [[<- <-]|[Hne Ho]]; cbn.
    + intros Hi. by rewrite decide_True, decide_False by done.
    + rewrite decide_False by done. by apply (wk_free _ Hok).
  - intros m Ho. rewrite owner_after_lookup. destruct (decide (m = n)) as [->|]; [by rewrite lookup_insert_eq in Ho|]. rewrite lookup_insert_ne in Ho by done. by apply (wk_gone _ Hok).
  - intros m o key. rewrite lookup_insert_Some. intros [[<- <-]|[Hne Ho]]; cbn; [by apply Hb|by apply (wk_built _ Hok m)].
  - by eapply (entries_forward w w').
Qed.

Lemma update_world t w n o annos : world_ok w → t ∈ used w → objects w !! n = Some o → may_update t w n (o_Version o) annos →
  respects t w (with_objects (<[n := MkObject (clock w) annos (o_Spec o)]> (objects w)) (owner_after t n annos (owner w)) ∅ w).
Proof.
  intros Hok Hu Ho [Hown Hkey Hrun]. apply write_world; try done.
  - apply elem_of_union_r. by destruct (wk_version _ Hok n o Ho).
  - intros r Hne Hlive Hr. by destruct (Hown o r Ho eq_refl Hr).
  - by rewrite Ho.
  - intros k Hk. eapply (wk_built _ Hok); [done|by eapply Hkey].
Qed.

Lemma delete_world t w n : world_ok w → respects t w (with_objects (delete n (objects w)) (delete n (owner w)) ∅ w).
Proof.
  intros Hok. set (w' := with_objects _ _ _ _). assert (forward w w') as Hf.
  { constructor; cbn; [lia|apply union_subseteq_r|done|done| |].
    - intros m o' [Hne Ho']%lookup_delete_Some _. exists o'. by rewrite lookup_delete_ne.
    - intros m _ Ho. rewrite lookup_delete_None. by right. }
  constructor; [done| | |done|done|constructor; cbn].
  - intros r _ _ m Hm. cbn. destruct (objects w !! m) as [o|] eqn:E; [|by rewrite (wk_gone _ Hok m E) in Hm].
    destruct (decide (m = n)) as [->|Hne]; [left|right]; [rewrite lookup_delete_eq; split; [done|apply elem_of_union_r; by destruct (wk_version _ Hok n o E)]|].
    rewrite !lookup_delete_ne by done. split; [done|by exists o, o].
  - cbn. intros m [Hm|Hm]%elem_of_union; [by apply elem_of_empty in Hm|by left].
  - intros m o [Hne Ho]%lookup_delete_Some. destruct (wk_version _ Hok m o Ho). split; [lia|by apply elem_of_union_r].
  - intros m o [Hne Ho]%lookup_delete_Some. rewrite lookup_delete_ne by done. by apply (wk_owned _ Hok).
  - intros m o [Hne Ho]%lookup_delete_Some. rewrite lookup_delete_ne by done. by apply (wk_free _ Hok).
  - intros m Ho. rewrite lookup_delete_None. destruct (decide (n = m)) as [|Hne]; [by left|right]. rewrite lookup_delete_ne in Ho by done. by apply (wk_gone _ Hok).
  - intros m o key [Hne Ho]%lookup_delete_Some. by apply (wk_built _ Hok m).
  - by eapply (entries_forward w w').
Qed.

Lemma forward_same w w' : objects w' = objects w → owner w' = owner w → live w' = live w → used w' = used w → made w' = made w → clock w' = clock w → forward w w'.
Proof.
  intros Ho Hw Hl Hu Hm Hc. constructor; rewrite ?Ho, ?Hw, ?Hl, ?Hu, ?Hm, ?Hc; try done.
  intros n o' H _. by exists o'.
Qed.

(** The pools change, and hold only entries that are all right. *)
Lemma pools_world t w ps : world_ok w → (∀ id l pp, ps !! id = Some l → pp ∈ l → pp_PoolKey pp = id.2 ∧ entry_ok w pp) → respects t w (with_pools ps w).
Proof.
  intros Hok Hps. assert (forward w (with_pools ps w)) as Hf by (by apply forward_same).
  constructor; [done| |by left|done|done|].
  - intros r _ _. by apply keeps_same.
  - destruct Hok. constructor; cbn; try done. intros id l pp Hl Hpp. destruct (Hps id l pp Hl Hpp). split; [done|by eapply entry_stable].
Qed.

Lemma pool_respects_refl t w : world_ok w → respects t w w.
Proof. intros Hok. constructor; [reflexivity| |by left|done|done|done]. intros r _ _. by apply keeps_same. Qed.

(** ** Programs *)

Section safe.
Context (honest : Prop) (agent t : string).

Fixpoint safe {A} (p : prog A) (Q : A → world → Prop) (w : world) : Prop :=
  match p with
  | Programs.Ret a => Q a w
  | Programs.Do q k => ∀ w1, rely t w w1 → world_ok w1 → t ∈ live w1 → t ∈ used w1 → ∀ w2 a, serve honest agent t w1 q w2 a → respects t w1 w2 ∧ safe (k a) Q w2
  end.

Lemma pool_safe_bind {A B} (p : prog A) (f : A → prog B) Q w : safe p (λ a w, safe (f a) Q w) w → safe (p ≫= f) Q w.
Proof.
  unfold mbind, prog_bind. revert w. induction p as [a|q k IH]; intros w; cbn; [done|]. intros H w1 Hr Hok Hl Hu w2 a Hs.
  destruct (H w1 Hr Hok Hl Hu w2 a Hs) as [H1 H2]. split; [done|]. by apply IH.
Qed.

Lemma pool_safe_stable {A} (p : prog A) (Q : A → world → Prop) w w' : (∀ a w w', rely t w w' → Q a w → Q a w') → rely t w w' → safe p Q w → safe p Q w'.
Proof. intros HQ Hr. destruct p as [a|q k]; cbn; [by apply HQ|]. intros H w1 Hr1. apply H. by transitivity w'. Qed.

Lemma safe_mono {A} (p : prog A) (Q Q' : A → world → Prop) w : (∀ a w, Q a w → Q' a w) → safe p Q w → safe p Q' w.
Proof.
  intros HQ. revert w. induction p as [a|q k IH]; intros w; cbn; [apply HQ|]. intros H w1 Hr Hok Hl Hu w2 a Hs. destruct (H w1 Hr Hok Hl Hu w2 a Hs). split; [done|by apply IH].
Qed.

(** A request that changes nothing but, perhaps, the pod [n] by deleting it. *)
Lemma safe_read {A} q (k : answer → prog A) Q w :
  (∀ n v annos, q ≠ QUpdate n v annos) → (∀ n annos spec, q ≠ QCreate n annos spec) → (∀ key, q ≠ QPop key) → (∀ pp, q ≠ QPush pp) → (∀ now d, q ≠ QExpired now d) →
  (∀ w1 w2 a, rely t w w1 → world_ok w1 → serve honest agent t w1 q w2 a → world_ok w2 → safe (k a) Q w2) → safe (Programs.Do q k) Q w.
Proof.
  intros H1 H2 H3 H4 H5 H w1 Hr Hok Hl Hu w2 a Hs. assert (respects t w1 w2) as Hres.
  { destruct Hs; try (by apply pool_respects_refl); [by destruct (H1 n (o_Version o) annos)|by destruct (H2 n annos spec)|by apply delete_world|by destruct (H3 k0)|by destruct (H4 pp)|by destruct (H5 now t0)]. }
  split; [done|]. eapply H; [exact Hr|done|exact Hs|by destruct Hres].
Qed.

Lemma deleted_safe n Q w : (∀ w, Q tt w) → safe (deleted n) Q w.
Proof. intros HQ. apply safe_read; [done..|]. intros. apply HQ. Qed.

Lemma delete_all_safe l Q w : (∀ w, Q tt w) → safe (delete_all l) Q w.
Proof. intros HQ. revert w. induction l as [|n l IH]; intros w; [apply HQ|]. by apply safe_read. Qed.

Lemma evict_safe d Q w : (∀ w, Q tt w) → safe (evictExpired d) Q w.
Proof.
  intros HQ. apply safe_read; try done. intros w1 w2 a _ _ Hs _. inversion Hs; subst; try apply HQ.
  intros w3 Hr Hok Hl Hu w4 a Hs2. inversion Hs2; subst. split; [|by apply delete_all_safe]. apply pools_world; [done|]. intros id ps pp. rewrite map_lookup_imap. intros (ps0 & H0 & [= <-])%bind_Some Hpp.
  apply (wk_entries _ Hok id ps0); [done|]. unfold unexpired in Hpp. case_decide; [|done]. by apply list_elem_of_filter in Hpp as [_ ?].
Qed.

(** The compare and swap of a pod that was seen. *)
Lemma pool_safe_update {A} n o annos (k : answer → prog A) Q w :
  seen w n o → (∀ w1, rely t w w1 → world_ok w1 → t ∈ live w1 → seen w1 n o → may_update t w1 n (o_Version o) annos) →
  (∀ w e, safe (k (AFailed e)) Q w) →
  (∀ w1 o1 w2, rely t w w1 → world_ok w1 → objects w1 !! n = Some o1 → o_Annotations o1 = o_Annotations o → o_Version o1 = o_Version o →
     w2 = with_objects (<[n := MkObject (clock w1) annos (o_Spec o1)]> (objects w1)) (owner_after t n annos (owner w1)) ∅ w1 → world_ok w2 → safe (k (APod (MkObject (clock w1) annos (o_Spec o1)))) Q w2) →
  safe (Programs.Do (QUpdate n (o_Version o) annos) k) Q w.
Proof.
  intros Hseen Hmay Hfail H w1 Hr Hok Hl Hu w2 a Hs. pose proof (seen_stable _ _ _ _ (rl_forward _ _ _ Hr) Hseen) as Hs1. specialize (Hmay w1 Hr Hok Hl Hs1).
  inversion Hs as [|n' v' annos' e|n' | | | | |n' o1 annos' a' Ho1 Ha Hn Hv| | | | | | | | | | |]; subst; [split; [by apply pool_respects_refl|apply Hfail]|].
  assert (respects t w1 (with_objects (<[n := MkObject (clock w1) annos (o_Spec o1)]> (objects w1)) (owner_after t n annos (owner w1)) ∅ w1)) as Hres.
  { apply update_world; try done. match goal with E : o_Version _ = _ |- _ => by rewrite E end. }
  split; [done|]. destruct Ha as [->|[e ->]]; [|apply Hfail]. eapply H; try done. - by apply (se_annos _ _ _ Hs1). - by destruct Hres.
Qed.

Lemma released_idle annos : ¬ in_use (released_annos annos).
Proof. unfold in_use, released_annos. by rewrite lookup_delete_ne, lookup_insert_eq. Qed.
Lemma released_key annos : released_annos annos !! annoPoolKey = annos !! annoPoolKey.
Proof. unfold released_annos. by rewrite lookup_delete_ne, lookup_insert_ne. Qed.

(** An entry that is all right goes to the pool. *)
Lemma push_safe w n key v Q :
  entry_ok w (MkPooledPod n key v 0) → (∀ w, Q tt w) →
  safe (Programs.Do QNow (λ a, match a with ANow now => Programs.Do (QPush (MkPooledPod n key v now)) (λ _, Programs.Ret tt) | _ => Programs.Ret tt end)) Q w.
Proof.
  intros He HQ. apply safe_read; [done..|]. intros w2 w3 a Hr2 _ Hs _. inversion Hs; subst; try apply HQ.
  intros w4 Hr4 Hok4 Hl4 Hu4 w5 a Hs5. inversion Hs5; subst. split; [|apply HQ]. apply pools_world; [done|]. cbn.
  assert (entry_ok w4 (MkPooledPod n key v now)) as He4.
  { destruct (entry_stable w w4 _ (rl_forward t _ _ (transitivity Hr2 Hr4)) He). by constructor. }
  intros id l pp. rewrite lookup_insert_Some. intros [[<- <-]|[_ Hl]] Hpp; [|by apply (wk_entries _ Hok4 id l)].
  apply elem_of_app in Hpp as [Hpp| ->%list_elem_of_singleton]; [|done].
  destruct (pools w4 !! (agent, key)) as [l|] eqn:E; [|by apply elem_of_nil in Hpp]. by apply (wk_entries _ Hok4 _ l).
Qed.

(** A pod that was just marked idle. *)
Lemma entry_released w n key annos spec ow :
  n ∈ made w → annos !! annoPoolKey = Some key →
  entry_ok (with_objects (<[n := MkObject (clock w) (released_annos annos) spec]> (objects w)) ow ∅ w) (MkPooledPod n key (clock w) 0).
Proof.
  intros Hn Hkey. constructor; cbn; [by apply elem_of_union_r|lia|]. intros o. rewrite lookup_insert_eq. intros [= <-] _.
  split; [apply released_idle|]. etransitivity; [apply released_key|done].
Qed.

Lemma pool_release_safe pp key reuse Q w : held t key pp w → (∀ w, Q tt w) → safe (ReleasePod pp reuse) Q w.
Proof.
  intros Hheld HQ. unfold ReleasePod. destruct reuse; [|by apply deleted_safe]. apply safe_read; [done..|].
  intros w1 w2 a Hr Hok1 Hs _. inversion Hs; subst; try by apply deleted_safe. pose proof (held_stable _ _ _ _ _ Hr Hheld) as H1.
  assert (o_Annotations o !! annoPoolKey = Some (pp_PoolKey pp)) as Hkey by (rewrite (hd_key _ _ _ _ H1); by apply (hd_owned _ _ _ _ H1)).
  apply pool_safe_update; [by apply seen_here| | |].
  - intros w3 Hr3 Hok3 Hl3 Hs3. pose proof (held_stable _ _ _ _ _ Hr3 H1) as H3. constructor.
    + intros o3 r Ho3 _ Hw. left. destruct (hd_owned _ _ _ _ H3 o3 Ho3). congruence.
    + intros o3 k Ho3 Hv. by rewrite released_key, (se_annos _ _ _ Hs3 o3 Ho3 Hv).
    + intros r Hi. by apply released_idle in Hi.
  - intros w3 e. by apply deleted_safe.
  - intros w3 o3 w4 Hr3 Hok3 Ho3 HA _ Hw4 Hok4. subst w4. cbn [o_Version]. apply push_safe; [|done]. apply entry_released; [by destruct (wk_version _ Hok3 _ o3 Ho3)|done].
Qed.

Lemma pool_teardown_safe ready pp key Q w : held t key pp w → (∀ w, Q tt w) → safe (teardown ready pp) Q w.
Proof. intros H HQ. destruct ready; [by eapply pool_release_safe|by apply deleted_safe]. Qed.

(** ** Restore *)

Lemma adopt_safe n o run key Q w :
  seen w n o → over w n (o_Version o) run → o_Annotations o !! annoPoolRunID = Some run → in_use (o_Annotations o) → o_Annotations o !! annoPoolKey = Some key → (∀ w, Q tt w) →
  safe (Programs.Do (QUpdate n (o_Version o) (released_annos (o_Annotations o))) (λ a,
    match a with
    | APod o' => Programs.Do QNow (λ a, match a with ANow now => Programs.Do (QPush (MkPooledPod n key (o_Version o') now)) (λ _, Programs.Ret tt) | _ => Programs.Ret tt end)
    | _ => deleted n
    end)) Q w.
Proof.
  intros Hseen Hover Hrun Hi Hkey HQ. apply pool_safe_update; [done| | |].
  - intros w1 Hr Hok Hl Hs. pose proof (over_stable _ _ _ _ _ (rl_forward _ _ _ Hr) (se_version _ _ _ Hseen) Hover) as Ho. constructor.
    + intros o1 r Ho1 Hv Hw. right. pose proof (se_annos _ _ _ Hs o1 Ho1 Hv) as HA. destruct (wk_owned _ Hok n o1 Ho1) as (r' & Hr' & _ & Heq); [by rewrite HA|].
      assert (run = r') as <- by (apply Heq; by rewrite HA). rewrite Hw in Hr'. injection Hr' as ->. by destruct (Ho o1 Ho1 Hv).
    + intros o1 k Ho1 Hv. by rewrite released_key, (se_annos _ _ _ Hs o1 Ho1 Hv).
    + intros r Hi'. by apply released_idle in Hi'.
  - intros w1 e. by apply deleted_safe.
  - intros w1 o1 w2 Hr Hok Ho1 HA _ Hw2 Hok2. subst w2. cbn [o_Version]. apply push_safe; [|done]. apply entry_released; [by destruct (wk_version _ Hok _ o1 Ho1)|done].
Qed.

(** A pod that was listed as idle. *)
Lemma entry_seen w n o key : seen w n o → o_Annotations o !! annoPoolStatus = Some poolStatusIdle → o_Annotations o !! annoPoolKey = Some key → entry_ok w (MkPooledPod n key (o_Version o) 0).
Proof.
  intros [Hv Hm HA] Hidle Hkey. constructor; cbn; [done..|]. intros o' Ho' Hv'. rewrite (HA o' Ho' Hv'). split; [|done]. unfold in_use. by rewrite Hidle.
Qed.

Lemma default_some (o : option string) x : (default "" o =? x)%string = true → x ≠ "" → o = Some x.
Proof. intros H Hx. apply String.eqb_eq in H. destruct o; cbn in H; congruence. Qed.
Lemma default_nonempty (o : option string) : (default "" o =? "")%string = false → o = Some (default "" o).
Proof. destruct o; [done|]. by rewrite String.eqb_refl. Qed.

Lemma safe_tracks {A} (p : prog A) Q w : safe p Q w → safe p (λ a w', Q a w' ∧ forward w w') w.
Proof.
  revert w. induction p as [a|q k IH]; intros w; cbn; [by split|]. intros H w1 Hr Hok Hl Hu w2 a Hs. destruct (H w1 Hr Hok Hl Hu w2 a Hs) as [Hres Hk]. split; [done|].
  eapply safe_mono; [|by apply IH]. intros b w' [HQ Hf]. split; [done|]. transitivity w2; [|done]. transitivity w1; [by destruct Hr|by destruct Hres].
Qed.

(** ** Claiming *)

Lemma update_annotations_safe pp key annos Q w :
  entry_ok w pp → pp_PoolKey pp = key → annos !! annoPoolKey = None → in_use annos → annos !! annoPoolRunID = Some t →
  (∀ w e, Q (Err e) w) → (∀ w, held t key pp w → Q (Ok tt) w) → safe (UpdatePodAnnotations (pp_PodName pp) annos (pp_ResourceVersion pp)) Q w.
Proof.
  intros He Hk Hnone Hi Hrun Herr HQ. apply safe_read; [done..|]. intros w1 w2 a Hr Hok Hs _. inversion Hs; subst; try apply Herr.
  destruct (N.eqb_spec (o_Version o) (pp_ResourceVersion pp)) as [Hv|]; [|apply Herr]. cbn [negb].
  pose proof (entry_stable _ _ _ (rl_forward _ _ _ Hr) He) as He2. match goal with H : objects w2 !! _ = Some o |- _ => rename H into Ho end.
  destruct (en_idle _ _ He2 o Ho Hv) as [_ Hkey].
  apply pool_safe_update; [by apply seen_here| |intros; apply Herr|].
  - intros w3 Hr3 Hok3 _ Hs3. pose proof (entry_stable _ _ _ (rl_forward _ _ _ Hr3) He2) as He3. constructor.
    + intros o3 r Ho3 Hv3 Hw. destruct (en_idle _ _ He3 o3 Ho3) as [Hni _]; [congruence|]. by rewrite (wk_free _ Hok3 _ o3 Ho3 Hni) in Hw.
    + intros o3 k Ho3 Hv3. by rewrite lookup_union_r, (se_annos _ _ _ Hs3 o3 Ho3 Hv3).
    + intros r _. rewrite (lookup_union_Some_l _ _ _ _ Hrun). congruence.
  - intros w3 o3 w4 Hr3 Hok3 Ho3 HA _ -> Hok4. apply HQ. constructor; cbn; [|done|].
    + apply elem_of_union_r. by destruct (wk_version _ Hok3 _ o3 Ho3).
    + intros o4. rewrite lookup_insert_eq. intros [= <-]. cbn. rewrite lookup_union_r by done. split; [|done].
      rewrite owner_after_lookup, decide_True, decide_True; [done| |done]. unfold in_use. by apply lookup_union_Some_l.
Qed.
Fixpoint no_create {A} (p : prog A) : Prop :=
  match p with Programs.Ret _ => True | Programs.Do q k => (∀ n annos spec, q ≠ QCreate n annos spec) ∧ ∀ a, no_create (k a) end.

Lemma safe_fresh {A} (p : prog A) Q w : no_create p → podName t ∉ made w → safe p Q w → safe p (λ a w', Q a w' ∧ podName t ∉ made w') w.
Proof.
  revert w. induction p as [a|q k IH]; intros w; cbn; [by split|]. intros [Hq Hk] Hm H w1 Hr Hok Hl Hu w2 a Hs. destruct (H w1 Hr Hok Hl Hu w2 a Hs) as [Hres H2].
  split; [done|]. apply IH; [done| |done]. pose proof (rl_fresh _ _ _ Hr Hm) as Hm1.
  destruct Hs; try done; cbn; [by rewrite (left_id_L ∅ (∪))| |by rewrite (left_id_L ∅ (∪))]. by destruct (Hq n annos spec).
Qed.

Section claim.
Context (podSpecFromMap : vmap → res PodSpec) (containersFromMaps : list vmap → res (list Container)) (volumesFromMaps : list vmap → res (list Volume)).
Context (DefaultRunnerImage namespace : string) (ParseQuantity : string → res (string * Z)) (marshal : canonicalShape → option string) (digest : string → string).
Context (templateName : string) (cfg : agentConfig) (jobTmpl : option PodTemplate).
Let create key := createPoolPod podSpecFromMap containersFromMaps volumesFromMaps DefaultRunnerImage namespace ParseQuantity t key cfg jobTmpl.
Let key := poolKeyWithLimit marshal digest (claim_shape ParseQuantity templateName cfg jobTmpl).
Definition claimed (key : string) (r : res PooledPod) (w : world) : Prop := match r with Ok pp => held t key pp w | Err _ => True end.

Hypothesis pod_built : ∀ pod, pool_pod podSpecFromMap containersFromMaps volumesFromMaps DefaultRunnerImage namespace ParseQuantity t cfg jobTmpl = Ok pod →
  p_Name pod = podName t ∧ in_use (p_Annotations pod) ∧ p_Annotations pod !! annoPoolRunID = None ∧ built key (p_Spec pod).
#[local] Set Default Proof Using "Type*".

Lemma pool_create_safe w : podName t ∉ made w → safe (create key) (claimed key) w.
Proof.
  intros Hm. unfold create, createPoolPod. destruct (pool_pod _ _ _ _ _ _ _ _ _) as [pod|e] eqn:E; [|done]. destruct (pod_built pod eq_refl) as (-> & Hi & Hrun & Hb).
  intros w1 Hr Hok Hl Hu w2 a Hs. pose proof (rl_fresh _ _ _ Hr Hm) as Hm1. set (annos := <[annoPoolKey := key]> (p_Annotations pod)) in *.
  assert (in_use annos) as Hi' by (unfold in_use, annos; by rewrite lookup_insert_ne).
  inversion Hs as [| |n' a' s' e| | | | | |n' a' s' ans Hn Ha| | | | | | | | | |]; subst; [split; [by apply pool_respects_refl|done]|]. split.
  - apply write_world; try done.
    + apply elem_of_union_l. by apply elem_of_singleton.
    + intros r _ _. by rewrite (wk_gone _ Hok _ Hn).
    + intros m ->%elem_of_singleton. split; [done|by right].
    + intros k. unfold annos. rewrite lookup_insert_eq. by intros [= <-].
    + intros r _. unfold annos. rewrite lookup_insert_ne by done. by rewrite Hrun.
  - destruct Ha as [->|[e ->]]; [|done]. constructor; cbn [pp_PodName pp_PoolKey]; [|done|].
    + apply elem_of_union_l. by apply elem_of_singleton.
    + intros o. cbn. rewrite lookup_insert_eq. intros [= <-]. cbn. rewrite owner_after_lookup, decide_True, decide_True by done. split; [done|]. unfold annos. by rewrite lookup_insert_eq.
Qed.

Lemma claim_safe w : podName t ∉ made w →
  safe (ClaimPod podSpecFromMap containersFromMaps volumesFromMaps DefaultRunnerImage namespace ParseQuantity marshal digest t templateName cfg jobTmpl) (claimed key) w.
Proof.
  intros Hm w1 Hr Hok Hl Hu w2 a Hs. fold key in Hs. pose proof (rl_fresh _ _ _ Hr Hm) as Hm1.
  inversion Hs as [| | | | | | | | | | | | | | |k' Hnone|k' l pp Hpop| |]; subst; [split; [by apply pool_respects_refl|by apply pool_create_safe]|].
  assert (pp_PoolKey pp = key ∧ entry_ok w1 pp) as [Hk He] by (apply (wk_entries _ Hok (agent, key) (l ++ [pp])); [done|]; apply elem_of_app; right; by left).
  assert (respects t w1 (with_pools (<[(agent, key) := l]> (pools w1)) w1)) as Hres.
  { apply pools_world; [done|]. intros id l' pp'. rewrite lookup_insert_Some. intros [[<- <-]|[_ Hl']] Hpp; [|by apply (wk_entries _ Hok id l')].
    apply (wk_entries _ Hok _ (l ++ [pp])); [done|]. apply elem_of_app. by left. }
  split; [done|]. apply pool_safe_bind. eapply safe_mono; [|apply (safe_fresh _ (λ r w, match r with Ok _ => held t key pp w | Err _ => True end))].
  - intros [[]|e] w3 [Hheld Hm3]; [|apply safe_read; [done..|]].
    + apply safe_read; [done..|]. intros w4 w5 a Hr4 Hok4 Hs4 _. pose proof (held_stable _ _ _ _ _ Hr4 Hheld) as H4.
      destruct H4 as [M4 K4 O4]. inversion Hs4; subst; by constructor.
    + intros w4 w5 a Hr4 Hok4 Hs4 _. apply pool_create_safe. pose proof (rl_fresh _ _ _ Hr4 Hm3) as Hm4. inversion Hs4; subst; try done. cbn. by rewrite (left_id_L ∅ (∪)).
  - split; [done|]. intros []; try done. cbn. destruct (negb _); [done|]. split; [done|]. by intros [].
  - done.
  - apply (update_annotations_safe pp key); try done. eapply entry_stable; [apply Hres|done].
Qed.
End claim.

(** ** Restoring the pool *)

Hypothesis is_honest : honest.
#[local] Set Default Proof Using "Type*".

Lemma restore_one_safe ctl n o Q w : seen w n o → (∀ w, Q tt w) → safe (restore_one ctl n o) Q w.
Proof.
  intros Hseen HQ. unfold restore_one. destruct (_ =? "")%string; [apply HQ|]. destruct (default "" (o_Annotations o !! annoPoolKey) =? "")%string eqn:Ek; [by apply deleted_safe|].
  apply default_nonempty in Ek. destruct (_ =? poolStatusIdle)%string eqn:Ei.
  { apply push_safe; [|done]. apply entry_seen; [done| |done]. by apply default_some. }
  destruct (_ =? poolStatusInUse)%string eqn:Eu; [|apply HQ]. apply default_some in Eu; [|done]. destruct (ctl && _) eqn:Er; [|by apply deleted_safe].
  apply andb_true_iff in Er as [_ Er%negb_true_iff%default_nonempty]. apply safe_read; [done..|]. intros w1 w2 a Hr Hok Hs _.
  destruct a; try by apply deleted_safe. inversion Hs as [| | | | | | | | | | | |r Hdone| | | | | |]; subst. cbn [is_finished].
  pose proof (seen_stable _ _ _ _ (rl_forward _ _ _ Hr) Hseen) as Hseen2. eapply adopt_safe; [done| |exact Er|exact Eu|exact Ek|done].
  intros o2 Ho2 Hv2. pose proof (se_annos _ _ _ Hseen2 o2 Ho2 Hv2) as HA. split; [|by apply Hdone].
  destruct (wk_owned _ Hok n o2 Ho2) as (r' & _ & Hu & Heq); [by rewrite HA|].
  assert (default "" (o_Annotations o !! annoPoolRunID) = r') as -> by (apply Heq; by rewrite HA). done.
Qed.

Lemma restore_all_safe ctl l Q w : (∀ n o, (n, o) ∈ l → seen w n o) → (∀ w, Q tt w) → safe (restore_all ctl l) Q w.
Proof.
  revert w. induction l as [|[n o] l IH]; intros w Hl HQ; [apply HQ|]. apply pool_safe_bind. eapply safe_mono; [|apply safe_tracks, (restore_one_safe _ _ _ (λ _ _, True))]; [|by apply Hl; left|done].
  intros [] w' [_ Hf]. apply IH; [|done]. intros n' o' H. eapply seen_stable; [done|]. apply Hl. by right.
Qed.

Lemma restore_safe Q w : (∀ w, Q tt w) → safe (_ ← Restore true; Programs.Ret tt) Q w.
Proof.
  intros HQ. apply pool_safe_bind, safe_read; [done..|]. intros w1 w2 a _ Hok Hs _. inversion Hs; subst; try apply HQ.
  apply pool_safe_bind, restore_all_safe; [|intros; apply HQ]. intros n o Hin. apply seen_here; auto.
Qed.

End safe.
End proof.
