(* ===== verification/PodPoolRuns.v ===== *)
(** * Any number of agents on one pool of pods

    The invariant of [PodPool.pstep] that [PodPoolFacts] adds up to: a pooled pod is
    held by one run at a time, and is the pod its claim asks for.  And what goes wrong
    between replicas all the same. *)

From S2P Require Import Prelude GoStrings DslTypes K8sVolumes Programs PodSpecs PodPolicy PodBuilder PodPool PodPoolFacts.
From stdpp Require Import options.

(** ** The shape decides the pod *)

Section shapes.
Context (podSpecFromMap : vmap → res PodSpec) (containersFromMaps : list vmap → res (list Container)) (volumesFromMaps : list vmap → res (list Volume)).
Context (DefaultRunnerImage namespace : string) (ParseQuantity : string → res (string * Z)) (marshal : canonicalShape → option string) (digest : string → string).
Let build runID tmpls := BuildPod podSpecFromMap containersFromMaps volumesFromMaps DefaultRunnerImage runID namespace tmpls.
Let pod_for := pool_pod podSpecFromMap containersFromMaps volumesFromMaps DefaultRunnerImage namespace ParseQuantity.
Let shape cfg jt := claim_shape ParseQuantity (pt_Name jt) cfg (Some jt).

Lemma BuildPod_made runID tmpls jt image sidecar shim vols pod :
  build runID tmpls jt image sidecar shim vols = Ok pod → p_Name pod = podName runID ∧ p_Annotations pod = pool_annotations jt.
Proof. unfold build, BuildPod. by intros (s & _ & (_ & (s1 & _ & [= <-])%bind_ok)%then_ok)%bind_ok. Qed.

Lemma base_spec_ext tmpls tmpls' jt image :
  (pt_Name jt ≠ "" → tmpls !! pt_Name jt = tmpls' !! pt_Name jt) →
  base_spec podSpecFromMap containersFromMaps volumesFromMaps DefaultRunnerImage tmpls (Some jt) image
  = base_spec podSpecFromMap containersFromMaps volumesFromMaps DefaultRunnerImage tmpls' (Some jt) image
  ∧ resolveWorkspaceConfig tmpls (Some jt) = resolveWorkspaceConfig tmpls' (Some jt).
Proof.
  intros H. unfold base_spec, resolveWorkspaceConfig. destruct (String.eqb_spec (pt_Name jt) "") as [|Hne]; cbn [negb]; [done|]. by rewrite (H Hne).
Qed.

Lemma BuildPod_ext runID runID' tmpls tmpls' jt image sidecar shim vols pod :
  (pt_Name jt ≠ "" → tmpls !! pt_Name jt = tmpls' !! pt_Name jt) → build runID tmpls (Some jt) image sidecar shim vols = Ok pod →
  ∃ pod', build runID' tmpls' (Some jt) image sidecar shim vols = Ok pod' ∧ p_Spec pod' = p_Spec pod.
Proof.
  intros [H1 H2]%(base_spec_ext _ _ _ image). unfold build, BuildPod. rewrite H1, H2. intros (s & -> & (Hn & (s1 & Hw & [= <-])%bind_ok)%then_ok)%bind_ok.
  cbn [mbind res_bind] in *. eexists. by rewrite Hn, Hw.
Qed.

(** A quantity never prints as the empty string. *)
Hypothesis printed : ∀ raw q sign, ParseQuantity raw = Ok (q, sign) → q ≠ "".
#[local] Set Default Proof Using "Type*".

Lemma limit_printed cfg name : resolveWorkspaceSizeLimit ParseQuantity cfg name ≠ Some "".
Proof.
  unfold resolveWorkspaceSizeLimit, WorkspaceSizeLimitFor, parseWorkspaceSizeLimit. intros H.
  assert (∀ field raw, (if (raw =? "")%string then Ok None
     else q ← match ParseQuantity raw with
              | Err e => Err (field ++ [Lit " "; Quo raw; Lit ": "] ++ e)
              | Ok (q, sign) => if (sign <=? 0)%Z then Err (field ++ [Lit " "; Quo raw; Lit ": must be greater than 0 (leave it unset for no limit)"]) else Ok q
              end; Ok (Some q)) ≠ (Ok (Some "") : res (option string))) as Hne.
  { intros field raw. destruct (raw =? "")%string; [done|]. destruct (ParseQuantity raw) as [[q sign]|] eqn:E; [|done]. destruct (sign <=? 0)%Z; [done|]. intros [= ->]. by apply printed in E. }
  destruct (ac_PodTemplates cfg !! name) as [t|]; [destruct (apt_WorkspaceSizeLimit t =? "")%string|].
  all: match type of H with match ?x with _ => _ end = _ => destruct x as [[q|]|] eqn:E end; try done; injection H as ->; by apply Hne in E.
Qed.

(** Two claims of one shape are served by the same pod, but for its name. *)
Lemma same_shape_same_spec runID runID' cfg cfg' jt jt' pod :
  shape cfg jt = shape cfg' jt' → pod_for runID cfg (Some jt) = Ok pod → ∃ pod', pod_for runID' cfg' (Some jt') = Ok pod' ∧ p_Spec pod' = p_Spec pod.
Proof using printed.
  unfold shape, claim_shape, shape_of, pod_for, pool_pod. intros [= _ Ht <- Hi Hs Hsh Hl] (p & Hp & [= <-])%bind_ok.
  destruct (BuildPod_ext runID runID' (ac_PodTemplates cfg) (ac_PodTemplates cfg') jt (ac_PodImage cfg) (ac_Sidecar cfg) (ac_ShimImage cfg) [] p) as (p' & Hp' & Hsp); [|exact Hp|].
  { intros Hne. destruct (String.eqb_spec (pt_Name jt) ""); [done|]. done. }
  unfold build in Hp'. rewrite Hi, Hs, Hsh in Hp'. rewrite Hp'. cbn [mbind res_bind]. eexists. split; [done|].
  assert (resolveWorkspaceSizeLimit ParseQuantity cfg (pt_Name jt) = resolveWorkspaceSizeLimit ParseQuantity cfg' (pt_Name jt)) as Heq.
  { pose proof (limit_printed cfg (pt_Name jt)) as L1. pose proof (limit_printed cfg' (pt_Name jt)) as L2.
    destruct (resolveWorkspaceSizeLimit _ cfg _) as [q|], (resolveWorkspaceSizeLimit _ cfg' _) as [q'|]; cbn in Hl; congruence. }
  cbn. rewrite Heq. destruct (resolveWorkspaceSizeLimit _ cfg' _); cbn; [by rewrite Hsp|done].
Qed.
End shapes.

(** ** The invariant *)

Section runs.
Context (podSpecFromMap : vmap → res PodSpec) (containersFromMaps : list vmap → res (list Container)) (volumesFromMaps : list vmap → res (list Volume)).
Context (DefaultRunnerImage namespace : string) (ParseQuantity : string → res (string * Z)) (marshal : canonicalShape → option string) (digest : string → string).

Definition claim_key (cfg : agentConfig) (jt : PodTemplate) : string := poolKeyWithLimit marshal digest (claim_shape ParseQuantity (pt_Name jt) cfg (Some jt)).
(** No other shape has the key of this one: JSON writes every shape, none as it writes
    this one, and the digest of its text is no other text's. *)
Definition own_key (s : canonicalShape) : Prop :=
  (∀ s', is_Some (marshal s')) ∧ (∀ s', marshal s' = marshal s → s' = s) ∧ ∀ m m', marshal s = Some m → digest m' = digest m → m' = m.

Lemma own_key_shape s s' : own_key s → poolKeyWithLimit marshal digest s' = poolKeyWithLimit marshal digest s → s' = s.
Proof.
  intros (Hall & Hm & Hd). unfold poolKeyWithLimit. destruct (Hall s) as [m Em], (Hall s') as [m' Em']. rewrite Em, Em'. cbn.
  intros E. apply Hm. rewrite Em, Em'. f_equal. by apply (Hd m m').
Qed.

(** A pod that was built for some claim with this key. *)
Definition built_for (cfg : agentConfig) (jt : PodTemplate) (spec : PodSpec) : Prop :=
  ∃ runID pod, pool_pod podSpecFromMap containersFromMaps volumesFromMaps DefaultRunnerImage namespace ParseQuantity runID cfg (Some jt) = Ok pod ∧ p_Spec pod = spec.
Definition built_under (key : string) (spec : PodSpec) : Prop := ∃ cfg jt, claim_key cfg jt = key ∧ built_for cfg jt spec.

Definition task_ok (id : string) (tk : task) (w : world) : Prop :=
  match tk with
  | Claiming agent cfg jt p => safe built_under True agent id p (claimed id (claim_key cfg jt)) w
  | Holds agent cfg jt pp => held id (claim_key cfg jt) pp w
  | Working agent p => safe built_under True agent id p (λ _ _, True) w
  end.

Lemma task_stable id tk w w' : rely id w w' → task_ok id tk w → task_ok id tk w'.
Proof.
  destruct tk; intros Hr H; [|by eapply held_stable|]; (eapply pool_safe_stable; [|exact Hr|exact H]); [|done].
  intros [pp|e] w1 w2 Hr1; [by apply held_stable|done].
Qed.

Record runs_ok (s : pooled) : Prop := {
  ro_world : world_ok built_under (w_world s);
  ro_live : live (w_world s) ⊆ used (w_world s);
  ro_made n : n ∈ made (w_world s) → ∃ t, t ∈ used (w_world s) ∧ n = podName t;
  ro_names r t : r ∈ used (w_world s) → t ∈ used (w_world s) → podName r = podName t → r = t;
  ro_tasks id tk : w_tasks s !! id = Some tk → id ∈ live (w_world s) ∧ task_ok id tk (w_world s)
}.

Lemma respects_rely r t w w' : respects built_under t w w' → r ≠ t → r ∈ live w → podName r ≠ podName t → rely r w w'.
Proof. intros [F O M L U K] Hne Hl Hn. constructor; [done|by apply O|]. intros H H'. by apply M in H' as [|]. Qed.

(** A request by a task. *)
Lemma request_ok w ts id tk tk' w' :
  runs_ok (MkPooled w ts) → ts !! id = Some tk → respects built_under id w w' → task_ok id tk' w' → runs_ok (MkPooled w' (<[id := tk']> ts)).
Proof.
  intros [K L M N T] Hid Hres Hok. cbn in *. destruct (T id tk Hid) as [Hlive _]. pose proof (L _ Hlive) as Hu. destruct Hres as [F O Hm Hl Hu' HK] eqn:E. constructor; cbn; rewrite ?Hl, ?Hu'; try done.
  - intros n [H|H]%Hm; [by apply M|by exists id].
  - intros id' t. rewrite lookup_insert_Some. intros [[<- <-]|[Hne Ht]]; [done|]. destruct (T id' t Ht) as [Hl' Ht']. split; [done|].
    eapply task_stable; [|exact Ht']. eapply respects_rely; [by constructor|done|done|]. intros Heq. by apply Hne, (N id id'); auto.
Qed.

Lemma live_world l u w : world_ok built_under w → used w ⊆ u → (∀ r, r ∈ used w → r ∉ live w → r ∉ l) →
  world_ok built_under (with_live l u w) ∧ ∀ id, rely id w (with_live l u w).
Proof.
  intros Hok Hu Hl. assert (forward w (with_live l u w)) as Hf by (by constructor; cbn; eauto). split.
  - destruct Hok as [V O F G B E]. constructor; cbn; try done.
    + intros n o Ho Hi. destruct (O n o Ho Hi) as (t & ? & ? & ?). exists t. auto.
    + intros id ps pp Hps Hpp. destruct (E id ps pp Hps Hpp). split; [done|by eapply entry_stable].
  - intros id. constructor; [done|by eapply keeps_same|done].
Qed.

Lemma elsewhere_world w w' : world_ok built_under w → elsewhere w w' → world_ok built_under w' ∧ ∀ id, rely id w w'.
Proof.
  intros Hok [P L U M C O W]. assert (forward w w') as Hf.
  { constructor; rewrite ?L, ?U, ?M; try done.
    - intros n o' Ho' Hv. destruct (O n o' Ho') as (o & Ho & HA & _ & HV). exists o. rewrite W, Ho'. repeat split; try done. lia.
    - intros n _ Hn. destruct (objects w' !! n) as [o'|] eqn:E; [|done]. destruct (O n o' E) as (o & Ho & _). congruence. }
  assert (∀ n o', objects w' !! n = Some o' → ∃ o, objects w !! n = Some o ∧ o_Annotations o' = o_Annotations o ∧ o_Spec o' = o_Spec o ∧ owner w' !! n = owner w !! n) as Hback.
  { intros n o' Ho'. destruct (O n o' Ho') as (o & Ho & HA & HS & _). exists o. by rewrite W, Ho'. }
  split; [constructor|].
  - intros n o' Ho'. destruct (O n o' Ho') as (o & Ho & _ & _ & HV). destruct (wk_version _ _ Hok n o Ho). rewrite M. split; [lia|done].
  - intros n o' Ho'. destruct (Hback n o' Ho') as (o & Ho & -> & _ & ->). rewrite U. by apply (wk_owned _ _ Hok).
  - intros n o' Ho'. destruct (Hback n o' Ho') as (o & Ho & -> & _ & ->). by apply (wk_free _ _ Hok).
  - intros n Hn. by rewrite W, Hn.
  - intros n o' key Ho'. destruct (Hback n o' Ho') as (o & Ho & -> & -> & _). by apply (wk_built _ _ Hok n).
  - eapply entries_forward; done.
  - intros id. constructor; [done| |by rewrite M]. intros n Hn. destruct (objects w' !! n) as [o'|] eqn:E.
    + right. destruct (Hback n o' E) as (o & Ho & HA & _ & ->). split; [done|]. exists o, o'. done.
    + left. split; [done|]. rewrite M. destruct (objects w !! n) as [o|] eqn:Eo; [by destruct (wk_version _ _ Hok n o Eo)|by rewrite (wk_gone _ _ Hok n Eo) in Hn].
Qed.

Lemma start_ok w ts id tk :
  runs_ok (MkPooled w ts) → fresh id w → (∀ w', world_ok built_under w' → podName id ∉ made w' → task_ok id tk w') → runs_ok (MkPooled (started id w) (<[id := tk]> ts)).
Proof.
  intros [K L M N T] Hf Hok. cbn in *. assert (id ∉ used w) as Hid by (intros H; by apply (Hf id H)).
  destruct (live_world ({[id]} ∪ live w) ({[id]} ∪ used w) w K) as [K' R]; [apply union_subseteq_r| |].
  { intros r Hr Hl [->%elem_of_singleton|H]%elem_of_union; done. }
  constructor; cbn; [done|by apply union_mono_l| | |].
  - intros n (t & Ht & ->)%M. exists t. split; [by apply elem_of_union_r|done].
  - intros r t [->%elem_of_singleton|Hr]%elem_of_union [->%elem_of_singleton|Ht]%elem_of_union Heq; [done| | |by apply N]; exfalso; by eapply Hf.
  - intros id' t. rewrite lookup_insert_Some. intros [[<- <-]|[Hne Ht]]; [split; [apply elem_of_union_l; by apply elem_of_singleton|]|].
    + apply Hok; [done|]. cbn. intros (t & Ht & Heq)%M. by apply (Hf t Ht).
    + destruct (T id' t Ht) as [Hl Ht']. split; [by apply elem_of_union_r|]. by eapply task_stable.
Qed.

Lemma stop_ok w ts id : runs_ok (MkPooled w ts) → runs_ok (MkPooled (with_live (live w ∖ {[id]}) (used w) w) (delete id ts)).
Proof.
  intros [K L M N T]. cbn in *. destruct (live_world (live w ∖ {[id]}) (used w) w K) as [K' R]; [done|by intros r _ H [? _]%elem_of_difference|].
  constructor; cbn; [done| |done|done|].
  - intros r [? _]%elem_of_difference. by apply L.
  - intros id' t [Hne Ht]%lookup_delete_Some. destruct (T id' t Ht) as [Hl Ht']. split; [|by eapply task_stable]. apply elem_of_difference. split; [done|]. by intros ->%elem_of_singleton.
Qed.

Lemma pool_elsewhere_ok w ts w' : runs_ok (MkPooled w ts) → elsewhere w w' → runs_ok (MkPooled w' ts).
Proof.
  intros [K L M N T] He. cbn in *. destruct (elsewhere_world w w' K He) as [K' R]. destruct He as [_ EL EU EM _ _ _].
  constructor; cbn; rewrite ?EL, ?EU, ?EM; try done. intros id t Ht. destruct (T id t Ht). split; [done|]. by eapply task_stable.
Qed.

Lemma pod_built run cfg jt pod :
  pt_Reuse jt = true → pool_pod podSpecFromMap containersFromMaps volumesFromMaps DefaultRunnerImage namespace ParseQuantity run cfg (Some jt) = Ok pod →
  p_Name pod = podName run ∧ in_use (p_Annotations pod) ∧ p_Annotations pod !! annoPoolRunID = None ∧ built_under (claim_key cfg jt) (p_Spec pod).
Proof.
  intros Hreuse Hp. split_and!; [| | |by exists cfg, jt; split; [|exists run, pod]].
  all: apply bind_ok in Hp as (p & [Hn Ha]%BuildPod_made & Hpod).
  all: assert (p_Name pod = p_Name p ∧ p_Annotations pod = p_Annotations p) as [En Ea] by (revert Hpod; cbn; intros [= <-]; by destruct (resolveWorkspaceSizeLimit _ _ _)).
  all: rewrite ?En, ?Ea, ?Ha; unfold pool_annotations; rewrite ?Hreuse.
  - done.
  - unfold in_use. by rewrite lookup_insert_eq.
  - by rewrite lookup_insert_ne, lookup_singleton_ne.
Qed.

Let step := pstep podSpecFromMap containersFromMaps volumesFromMaps DefaultRunnerImage namespace ParseQuantity marshal digest True.

Lemma step_ok s s' : runs_ok s → step s s' → runs_ok s'.
Proof.
  intros Hok Hs. destruct Hs as [w ts run agent cfg jt Hf Hr|w ts run agent cfg jt q k w' a Ht Hs|w ts run agent cfg jt pp Ht|w ts run agent cfg jt pp ready Ht|w ts id agent p Hf Hp|w ts id agent q k w' a Ht Hs|w ts id|w ts w' He].
  - apply start_ok; [done..|]. intros w' _ Hm. apply claim_safe; [|done]. intros pod. by apply pod_built.
  - destruct (ro_tasks _ Hok _ _ Ht) as [Hl Hsafe]. destruct (Hsafe w (rely_refl _ _ _ (ro_world _ Hok)) (ro_world _ Hok) Hl (ro_live _ Hok _ Hl) w' a Hs). by eapply request_ok.
  - destruct (ro_tasks _ Hok _ _ Ht) as [Hl Hheld]. eapply request_ok; [done|done| |exact Hheld]. apply pool_respects_refl, Hok.
  - destruct (ro_tasks _ Hok _ _ Ht) as [Hl Hheld]. eapply request_ok; [done|done|apply pool_respects_refl, Hok|]. by eapply pool_teardown_safe.
  - apply start_ok; [done..|]. intros w' _ _. destruct Hp as [->|[d ->]]; [by apply restore_safe|by apply evict_safe].
  - destruct (ro_tasks _ Hok _ _ Ht) as [Hl Hsafe]. destruct (Hsafe w (rely_refl _ _ _ (ro_world _ Hok)) (ro_world _ Hok) Hl (ro_live _ Hok _ Hl) w' a Hs). by eapply request_ok.
  - by apply stop_ok.
  - by eapply pool_elsewhere_ok.
Qed.

Lemma reach_ok s : preach podSpecFromMap containersFromMaps volumesFromMaps DefaultRunnerImage namespace ParseQuantity marshal digest True s → runs_ok s.
Proof.
  induction 1 as [|s s' _ IH Hs]; [|by eapply step_ok]. constructor; cbn.
  - constructor; cbn; intros; by simplify_map_eq.
  - done.
  - by intros n ?%elem_of_empty.
  - by intros r t ?%elem_of_empty.
  - intros id tk H. by simplify_map_eq.
Qed.
End runs.

(** ** Executions in which every request is served *)

Section execution.
Context (podSpecFromMap : vmap → res PodSpec) (containersFromMaps : list vmap → res (list Container)) (volumesFromMaps : list vmap → res (list Volume)).
Context (DefaultRunnerImage namespace : string) (ParseQuantity : string → res (string * Z)) (marshal : canonicalShape → option string) (digest : string → string).
Context (honest : Prop) (finished_run : string → bool).
Let reach := preach podSpecFromMap containersFromMaps volumesFromMaps DefaultRunnerImage namespace ParseQuantity marshal digest honest.

Definition served (agent thread : string) (w : world) (q : request) : option (world * answer) :=
  match q with
  | QGet n => Some (w, match objects w !! n with Some o => APod o | None => AFailed [] end)
  | QUpdate n v annos =>
      match objects w !! n with
      | Some o => if decide (o_Version o = v) then
                    let o' := MkObject (clock w) annos (o_Spec o) in
                    Some (with_objects (<[n := o']> (objects w)) (owner_after thread n annos (owner w)) ∅ w, APod o')
                  else Some (w, AFailed [])
      | None => Some (w, AFailed [])
      end
  | QCreate n annos spec =>
      match objects w !! n with
      | Some _ => Some (w, AFailed [])
      | None => let o := MkObject (clock w) annos spec in Some (with_objects (<[n := o]> (objects w)) (owner_after thread n annos (owner w)) {[n]} w, APod o)
      end
  | QDelete n => Some (with_objects (delete n (objects w)) (delete n (owner w)) ∅ w, ADone)
  | QList => Some (w, APods (map_to_list (objects w)))
  | QRun r => Some (w, if finished_run r then AFinished else ARunning)
  | QNow => Some (w, ANow 0)
  | QPop k =>
      match reverse (default [] (pools w !! (agent, k))) with
      | [] => Some (w, AEntry None)
      | pp :: l => Some (with_pools (<[(agent, k) := reverse l]> (pools w)) w, AEntry (Some pp))
      end
  | QPush pp => Some (with_pools (<[(agent, pp_PoolKey pp) := default [] (pools w !! (agent, pp_PoolKey pp)) ++ [pp]]> (pools w)) w, ADone)
  | QExpired _ _ => None
  end.

Hypothesis truthful : ∀ r w, finished_run r = true → honest → r ∉ live w.

Lemma served_sound agent thread w q w' a : served agent thread w q = Some (w', a) → serve honest agent thread w q w' a.
Proof using truthful.
  destruct q as [n|n v annos|n annos spec|n| |r| |k|pp|now t]; cbn [served].
  - destruct (objects w !! n) eqn:E; intros [= <- <-]; by constructor.
  - destruct (objects w !! n) as [o|] eqn:E; [case_decide as Hv; [subst v|]|]; intros [= <- <-]; [|by constructor..]. constructor; [done|]. by left.
  - destruct (objects w !! n) as [o|] eqn:E; intros [= <- <-]; [by constructor|]. constructor; [done|]. by left.
  - intros [= <- <-]. constructor.
  - intros [= <- <-]. constructor. intros n o. by rewrite elem_of_map_to_list.
  - destruct (finished_run r) eqn:E; intros [= <- <-]; constructor. by apply truthful.
  - intros [= <- <-]. constructor.
  - destruct (pools w !! (agent, k)) as [l|] eqn:E; cbn [default from_option id]; [|intros [= <- <-]; constructor; by rewrite E].
    destruct (reverse l) as [|pp l'] eqn:El; intros [= <- <-].
    + constructor. rewrite E. cbn. apply (f_equal reverse) in El. by rewrite reverse_involutive in El.
    + constructor. rewrite E. apply (f_equal reverse) in El. by rewrite reverse_involutive, reverse_cons in El; subst l.
  - intros [= <- <-]. constructor.
  - done.
Qed.

(** The next step of a thread, and as many as it takes. *)
Definition next (id : string) (s : pooled) : option pooled :=
  match w_tasks s !! id with
  | Some (Claiming agent cfg jt (Programs.Do q k)) => '(w', a) ← served agent id (w_world s) q; Some (MkPooled w' (<[id := Claiming agent cfg jt (k a)]> (w_tasks s)))
  | Some (Claiming agent cfg jt (Programs.Ret (Ok pp))) => Some (MkPooled (w_world s) (<[id := Holds agent cfg jt pp]> (w_tasks s)))
  | Some (Working agent (Programs.Do q k)) => '(w', a) ← served agent id (w_world s) q; Some (MkPooled w' (<[id := Working agent (k a)]> (w_tasks s)))
  | _ => None
  end.
Fixpoint go (fuel : nat) (id : string) (s : pooled) : pooled :=
  match fuel with O => s | S n => match next id s with Some s' => go n id s' | None => s end end.

Lemma go_reach n id s : reach s → reach (go n id s).
Proof using truthful.
  revert s. induction n as [|n IH]; intros s Hs; cbn; [done|]. destruct (next id s) as [s'|] eqn:E; [|done]. apply IH. eapply pr_step; [exact Hs|]. destruct s as [w ts]. unfold next in E. cbn in E.
  destruct (ts !! id) as [[agent cfg jt [[pp|]|q k]| |agent [|q k]]|] eqn:Et; try done.
  - injection E as <-. by eapply ps_claimed.
  - destruct (served _ _ _ _) as [[w' a]|] eqn:Es; [|done]. injection E as <-. eapply ps_claim_request; [done|by apply served_sound].
  - destruct (served _ _ _ _) as [[w' a]|] eqn:Es; [|done]. injection E as <-. eapply ps_work; [done|by apply served_sound].
Qed.

Definition claim (run agent : string) (cfg : agentConfig) (jt : PodTemplate) (s : pooled) : pooled :=
  go 10 run (MkPooled (started run (w_world s)) (<[run := Claiming agent cfg jt
    (ClaimPod podSpecFromMap containersFromMaps volumesFromMaps DefaultRunnerImage namespace ParseQuantity marshal digest run (pt_Name jt) cfg (Some jt))]> (w_tasks s))).
Definition release (run : string) (s : pooled) : pooled :=
  match w_tasks s !! run with
  | Some (Holds agent cfg jt pp) => go 10 run (MkPooled (w_world s) (<[run := Working agent (teardown true pp)]> (w_tasks s)))
  | _ => s
  end.
Definition restart (id agent : string) (s : pooled) : pooled :=
  go 10 id (MkPooled (started id (w_world s)) (<[id := Working agent (_ ← Restore true; Programs.Ret tt)]> (w_tasks s))).

Lemma claim_reach run agent cfg jt s : fresh run (w_world s) → pt_Reuse jt = true → reach s → reach (claim run agent cfg jt s).
Proof using truthful. intros. apply go_reach. destruct s. eapply pr_step; [done|by apply ps_claim]. Qed.
Lemma release_reach run s : reach s → reach (release run s).
Proof using truthful. intros. unfold release. destruct s as [w ts]. cbn [w_tasks w_world]. destruct (ts !! run) as [[| |]|] eqn:E; try done. apply go_reach. eapply pr_step; [done|by eapply ps_release]. Qed.
Lemma restart_reach id agent s : fresh id (w_world s) → reach s → reach (restart id agent s).
Proof using truthful. intros. apply go_reach. destruct s. eapply pr_step; [done|]. apply ps_background; [done|by left]. Qed.
End execution.

(** C29: whatever agents share a namespace, and whatever claims, releases, evictions,
    restarts, crashes and failing requests interleave, as long as the controller calls
    no run finished that an agent still works on (it does so when a run is cancelled:
    [cancelled_run_shares_its_pod]): no two runs hold one pooled pod that still exists;
    and the pod a run holds was built from a configuration and a template of its key,
    which is the very pod its own ones describe, unless another shape has their key. *)
Theorem one_run_per_pod podSpecFromMap containersFromMaps volumesFromMaps DefaultRunnerImage namespace ParseQuantity marshal digest s
    (Hprinted : ∀ raw q sign, ParseQuantity raw = Ok (q, sign) → q ≠ "")
    (Hreach : preach podSpecFromMap containersFromMaps volumesFromMaps DefaultRunnerImage namespace ParseQuantity marshal digest True s) :
  (∀ r1 r2 a1 a2 cfg1 cfg2 jt1 jt2 pp1 pp2,
     w_tasks s !! r1 = Some (Holds a1 cfg1 jt1 pp1) → w_tasks s !! r2 = Some (Holds a2 cfg2 jt2 pp2) →
     pp_PodName pp1 = pp_PodName pp2 → is_Some (objects (w_world s) !! pp_PodName pp1) → r1 = r2)
  ∧ (∀ r a cfg jt pp o, w_tasks s !! r = Some (Holds a cfg jt pp) → objects (w_world s) !! pp_PodName pp = Some o →
     (∃ cfg' jt', claim_key ParseQuantity marshal digest cfg' jt' = claim_key ParseQuantity marshal digest cfg jt
        ∧ built_for podSpecFromMap containersFromMaps volumesFromMaps DefaultRunnerImage namespace ParseQuantity cfg' jt' (o_Spec o))
     ∧ (own_key marshal digest (claim_shape ParseQuantity (pt_Name jt) cfg (Some jt)) →
        ∃ pod, pool_pod podSpecFromMap containersFromMaps volumesFromMaps DefaultRunnerImage namespace ParseQuantity r cfg (Some jt) = Ok pod ∧ p_Spec pod = o_Spec o)).
Proof.
  pose proof (reach_ok _ _ _ _ _ _ _ _ _ Hreach) as Hok. split.
  - intros r1 r2 a1 a2 cfg1 cfg2 jt1 jt2 pp1 pp2 H1 H2 Hn [o Ho].
    destruct (ro_tasks _ _ _ _ _ _ _ _ _ Hok _ _ H1) as [_ B1]. destruct (ro_tasks _ _ _ _ _ _ _ _ _ Hok _ _ H2) as [_ B2].
    destruct (hd_owned _ _ _ _ B1 o Ho) as [O1 _]. rewrite Hn in Ho, O1. destruct (hd_owned _ _ _ _ B2 o Ho) as [O2 _]. congruence.
  - intros r a cfg jt pp o H Ho. destruct (ro_tasks _ _ _ _ _ _ _ _ _ Hok _ _ H) as [_ B]. destruct (hd_owned _ _ _ _ B o Ho) as [_ Hk].
    destruct (wk_built _ _ (ro_world _ _ _ _ _ _ _ _ _ Hok) _ _ _ Ho Hk) as (cfg' & jt' & Hkey & run' & pod & Hpod & Hspec). split; [exists cfg', jt'; split; [done|by exists run', pod]|].
    intros Hs. apply (own_key_shape _ _ _ _ Hs) in Hkey. rewrite <- Hspec. by eapply same_shape_same_spec.
Qed.

Module Shared.
Definition podSpecFromMap (m : vmap) : res PodSpec := Ok (podspec_of [container_of "job" "img"]).
Definition containersFromMaps (ms : list vmap) : res (list Container) := Ok [].
Definition volumesFromMaps (ms : list vmap) : res (list Volume) := Ok [].
Definition ParseQuantity (raw : string) : res (string * Z) := if (raw =? "")%string then Err [] else Ok (raw, 1%Z).
(** Tells the shape of the claims below from every other. *)
Definition is_shape (s : canonicalShape) : bool :=
  match s with
  | MkShape t None (Some (MkPodTemplate n true false None None [(k, VList [])])) i (MkSidecarSpec si sn sm sb) sh l =>
      bool_decide ((t, n, k, i, (si, sn, sm, sb), sh, l) = ("", "", "containers", "runner:1", ("sidecar", "s3", "env", ""), "shim", "20Gi"))
  | _ => false
  end.
Definition marshal (s : canonicalShape) : option string := Some (if is_shape s then "pooled" else "other:" +:+ cs_FallbackImage s).
Definition cfg : agentConfig := MkAgentConfig ∅ "runner:1" (MkSidecarSpec "sidecar" "s3" "env" "") "shim" "20Gi".
Definition jt : PodTemplate := MkPodTemplate "" true false None None [("containers", VList [])].
Lemma is_shape_inv s : is_shape s = true → s = claim_shape ParseQuantity "" cfg (Some jt).
Proof.
  intros H. unfold is_shape in H. repeat case_match; try done. apply bool_decide_eq_true in H. simplify_eq. reflexivity.
Qed.
Lemma own_shape : own_key marshal id (claim_shape ParseQuantity "" cfg (Some jt)).
Proof.
  split; [by eexists|]. split; [|by intros m m' _ H]. intros s. unfold marshal. change (is_shape (claim_shape _ _ _ _)) with true.
  destruct (is_shape s) eqn:E; [by intros _; apply is_shape_inv|done].
Qed.
Definition start : pooled := MkPooled (MkWorld ∅ ∅ ∅ ∅ ∅ ∅ 1) ∅.
Abbreviation reach := (preach podSpecFromMap containersFromMaps volumesFromMaps "runner" "ns" ParseQuantity marshal id).
Definition claims (finished_run : string → bool) (run agent : string) (s : pooled) : pooled :=
  claim podSpecFromMap containersFromMaps volumesFromMaps "runner" "ns" ParseQuantity marshal id finished_run run agent cfg jt s.
Definition releases (run : string) (s : pooled) : pooled := release (λ _, false) run s.

Definition holds (s : pooled) (run pod : string) : bool :=
  match w_tasks s !! run with Some (Holds _ _ _ pp) => bool_decide (pp_PodName pp = pod) | _ => false end.
Definition terms (s : pooled) (run : string) : option (agentConfig * PodTemplate * string) :=
  match w_tasks s !! run with Some (Holds _ cfg jt pp) => Some (cfg, jt, pp_PodName pp) | _ => None end.
Definition exists_pod (s : pooled) (pod : string) : bool := bool_decide (is_Some (objects (w_world s) !! pod)).

Lemma claims_reach honest fin run agent s :
  (∀ r w, fin r = true → honest → r ∉ live w) → bool_decide (set_Forall (λ t, podName t ≠ podName run) (used (w_world s))) = true → reach honest s → reach honest (claims fin run agent s).
Proof. intros Ht Hf Hs. apply claim_reach; [done| |done|done]. intros t. by apply bool_decide_eq_true in Hf as H; apply H. Qed.
Lemma releases_reach honest run s : reach honest s → reach honest (releases run s).
Proof. by apply release_reach. Qed.
Lemma restarts_reach honest fin id agent s :
  (∀ r w, fin r = true → honest → r ∉ live w) → bool_decide (set_Forall (λ t, podName t ≠ podName id) (used (w_world s))) = true → reach honest s → reach honest (restart fin id agent s).
Proof. intros Ht Hf Hs. apply restart_reach; [done| |done]. intros t. by apply bool_decide_eq_true in Hf as H; apply H. Qed.

(** A pod is used twice. *)
Definition reused : pooled := claims (λ _, false) "run-2" "a" (releases "run-1" (claims (λ _, false) "run-1" "a" start)).
Lemma reused_reach : reach True reused.
Proof. apply claims_reach; [done|vm_compute; reflexivity|]. apply releases_reach, claims_reach; [done|vm_compute; reflexivity|]. apply pr_start. Qed.
Example reused_holds : holds reused "run-2" (podName "run-1") = true ∧ exists_pod reused (podName "run-1") = true.
Proof. vm_compute. done. Qed.

(** A replica that knows the idle pod from its restart loses the race for it, and
    deletes it under the run that won. *)
Definition raced : pooled :=
  claims (λ _, false) "run-3" "b" (claims (λ _, false) "run-2" "a" (restart (λ _, false) "boot" "b" (releases "run-1" (claims (λ _, false) "run-1" "a" start)))).
Lemma loser_deletes_winner :
  reach True raced ∧ holds raced "run-2" (podName "run-1") = true ∧ exists_pod raced (podName "run-1") = false ∧ holds raced "run-3" (podName "run-3") = true.
Proof.
  split; [|vm_compute; done]. apply claims_reach; [done|vm_compute; reflexivity|]. apply claims_reach; [done|vm_compute; reflexivity|].
  apply restarts_reach; [done|vm_compute; reflexivity|]. apply releases_reach, claims_reach; [done|vm_compute; reflexivity|]. apply pr_start.
Qed.

(** A replica that starts deletes the pod a run of another replica is in. *)
Definition restarted : pooled := restart (λ _, false) "boot" "b" (claims (λ _, false) "run-1" "a" start).
Lemma restart_deletes_pods_in_use : reach True restarted ∧ holds restarted "run-1" (podName "run-1") = true ∧ exists_pod restarted (podName "run-1") = false.
Proof. split; [|vm_compute; done]. apply restarts_reach; [done|vm_compute; reflexivity|]. apply claims_reach; [done|vm_compute; reflexivity|]. apply pr_start. Qed.

(** The controller calls a run finished (it was cancelled) while its agent still works
    on it: a replica that starts gives its pod to the next run. *)
Definition shared : pooled :=
  claims (λ _, false) "run-3" "b" (restart (λ r, (r =? "run-2")%string) "boot" "b" (claims (λ _, false) "run-2" "a" (releases "run-1" (claims (λ _, false) "run-1" "a" start)))).
Lemma cancelled_run_shares_its_pod :
  reach False shared ∧ holds shared "run-2" (podName "run-1") = true ∧ holds shared "run-3" (podName "run-1") = true ∧ exists_pod shared (podName "run-1") = true.
Proof.
  split; [|vm_compute; done]. apply claims_reach; [done|vm_compute; reflexivity|]. apply restarts_reach; [done|vm_compute; reflexivity|].
  apply claims_reach; [done|vm_compute; reflexivity|]. apply releases_reach, claims_reach; [done|vm_compute; reflexivity|]. apply pr_start.
Qed.
End Shared.

Lemma one_run_per_pod_witness :
  Shared.holds Shared.reused "run-2" (podName "run-1") = true
  ∧ (∀ r a cfg jt pp, w_tasks Shared.reused !! r = Some (Holds a cfg jt pp) → pp_PodName pp = podName "run-1" → "run-2" = r)
  ∧ ∃ o pod, objects (w_world Shared.reused) !! podName "run-1" = Some o ∧ p_Spec pod = o_Spec o
      ∧ pool_pod Shared.podSpecFromMap Shared.containersFromMaps Shared.volumesFromMaps "runner" "ns" Shared.ParseQuantity "run-2" Shared.cfg (Some Shared.jt) = Ok pod.
Proof.
  split; [vm_compute; reflexivity|].
  destruct (one_run_per_pod Shared.podSpecFromMap Shared.containersFromMaps Shared.volumesFromMaps "runner" "ns" Shared.ParseQuantity Shared.marshal id Shared.reused) as [H Hb].
  { intros raw q sign. unfold Shared.ParseQuantity. destruct (String.eqb_spec raw ""); [done|]. by intros [= <- _]. }
  { apply Shared.reused_reach. }
  destruct (w_tasks Shared.reused !! "run-2") as [[|a2 cfg2 jt2 pp2|]|] eqn:E; try (vm_compute in E; discriminate E).
  assert (Shared.terms Shared.reused "run-2" = Some (Shared.cfg, Shared.jt, podName "run-1")) as Ht by (vm_compute; reflexivity).
  unfold Shared.terms in Ht. rewrite E in Ht. injection Ht as -> -> Hn2. split.
  - intros r a cfg jt pp Hr Hn. eapply (H "run-2" r); [exact E|exact Hr|congruence|]. rewrite Hn2. vm_compute. by eexists.
  - destruct (objects (w_world Shared.reused) !! podName "run-1") as [o|] eqn:Eo; [|vm_compute in Eo; discriminate Eo].
    destruct (Hb "run-2" a2 Shared.cfg Shared.jt pp2 o) as [_ Hown]; [done|by rewrite Hn2|]. destruct (Hown Shared.own_shape) as (pod & Hp & Hs).
    exists o, pod. split; [reflexivity|]. split; [exact Hs|exact Hp].
Defined.
