(* ===== verification/Masker.v ===== *)
(** * internal/secrets/masker.go: hiding secrets in the logs

    The patterns of the secrets' values, and what replacing them leaves of a line. *)

From S2P Require Import Prelude GoStrings.
From stdpp Require Import options.

(** ** What it takes of the standard library *)

(** [strings.Cut], and [strings.ReplaceAll] for an old string that is not empty. *)
Fixpoint Cut (s sep : string) : option (string * string) :=
  if HasPrefix s sep then Some ("", str_drop (String.length sep) s)
  else match s with
       | "" => None
       | String c s' => '(before, after) ← Cut s' sep; Some (String c before, after)
       end.
Fixpoint pieces (fuel : nat) (s old : string) : list string :=
  match fuel with
  | O => [s]
  | S fuel => match Cut s old with Some (before, after) => before :: pieces fuel after old | None => [s] end
  end.
Definition ReplaceAll (s old new : string) : string := Join new (pieces (String.length s) s old).

(** [base64.StdEncoding.EncodeToString] *)
Definition base64_char (n : N) : ascii :=
  ascii_of_N (if (n <? 26)%N then 65 + n else if (n <? 52)%N then 71 + n else if (n <? 62)%N then n - 4 else if (n =? 62)%N then 43 else 47).
Definition sextet (shift : N) (n : N) : ascii := base64_char (N.land (N.shiftr n shift) 63).
Fixpoint base64 (s : string) : string :=
  match s with
  | String a (String b (String c s)) =>
      let n := (N_of_ascii a * 65536 + N_of_ascii b * 256 + N_of_ascii c)%N in
      String (sextet 18 n) (String (sextet 12 n) (String (sextet 6 n) (String (sextet 0 n) (base64 s))))
  | String a (String b "") =>
      let n := (N_of_ascii a * 65536 + N_of_ascii b * 256)%N in
      String (sextet 18 n) (String (sextet 12 n) (String (sextet 6 n) "="))
  | String a "" =>
      let n := (N_of_ascii a * 65536)%N in String (sextet 18 n) (String (sextet 12 n) "==")
  | "" => ""
  end.

(** [url.QueryEscape] *)
Definition unreserved (c : ascii) : bool := is_alpha c || is_digit c || has_byte c "-_.~".
Definition hex_char (n : N) : ascii := ascii_of_N (if (n <? 10)%N then 48 + n else 55 + n).
Fixpoint QueryEscape (s : string) : string :=
  match s with
  | "" => ""
  | String c s =>
      if unreserved c then String c (QueryEscape s)
      else if Ascii.eqb c " " then String "+" (QueryEscape s)
      else String "%" (String (hex_char (N_of_ascii c / 16)) (String (hex_char (N_of_ascii c mod 16)) (QueryEscape s)))
  end.

Example ReplaceAll_aab : ReplaceAll "xaabaa" "aa" "***" = "x***b***".
Proof. reflexivity. Qed.
Example base64_hello : base64 "hello, you" = "aGVsbG8sIHlvdQ==".
Proof. reflexivity. Qed.
Example QueryEscape_sample : QueryEscape "a b/c*d" = "a+b%2Fc%2Ad".
Proof. reflexivity. Qed.

(** ** The masker *)

Definition minMaskLineLen : nat := 4.
Definition newline : ascii := "010".

Record Masker := MkMasker { m_patterns : list string }.
Definition NoOpMasker : Masker := MkMasker [].

Definition add_pattern (patterns : list string) (s : string) : list string :=
  if (s =? "")%string then patterns else if bool_decide (s ∈ patterns) then patterns else patterns ++ [s].
Definition line_patterns (v : string) : list string :=
  if has_byte newline v then filter (λ ln, minMaskLineLen ≤ String.length ln) (map TrimSpace (Split newline v)) else [].
Definition value_patterns (v : string) : list string := if (v =? "")%string then [] else v :: base64 v :: QueryEscape v :: line_patterns v.
(** Longest first, in the order they were added. *)
Definition longest_first (l : list string) : list string := stable_sort (λ s, max_list (map String.length l) - String.length s) l.
Definition NewMasker (values : list string) : Masker := MkMasker (longest_first (foldl add_pattern [] (concat (map value_patterns values)))).

Definition mask : string := "***".
Definition Mask (m : Masker) (line : string) : string := foldl (λ line p, ReplaceAll line p mask) line (m_patterns m).
Definition Detects (m : Masker) (s : string) : bool := existsb (Contains s) (m_patterns m).

(** ** What is left of a line *)

Lemma Cut_some s sep a b : Cut s sep = Some (a, b) → s = a +:+ sep +:+ b ∧ (sep ≠ "" → Contains a sep = false).
Proof.
  revert a b. induction s as [|c s IH]; intros a b; cbn [Cut].
  - destruct (HasPrefix "" sep) eqn:E; [|done]. apply HasPrefix_spec in E as [r E]. symmetry in E. apply str_app_empty in E as [-> ->]. by intros [= <- <-].
  - destruct (HasPrefix (String c s) sep) eqn:E.
    + apply HasPrefix_spec in E as [r ->]. rewrite str_drop_app. intros [= <- <-]. split; [done|]. by destruct sep.
    + destruct (Cut s sep) as [[x y]|]; [|done]. intros [= <- <-]. destruct (IH x y eq_refl) as [-> Hx]. split; [done|]. intros Hs. cbn. rewrite (Hx Hs), orb_false_r.
      apply not_true_iff_false. intros [r Hr]%HasPrefix_spec. apply not_true_iff_false in E. apply E. apply HasPrefix_spec. exists (r +:+ sep +:+ y). rewrite <- str_app_cons, Hr. by rewrite <- str_app_assoc.
Qed.

Lemma Cut_none s sep : Cut s sep = None → Contains s sep = false.
Proof.
  induction s as [|c s IH]; cbn; [by destruct (HasPrefix "" sep)|]. destruct (HasPrefix (String c s) sep); [done|]. destruct (Cut s sep) as [[]|]; [done|]. cbn. auto.
Qed.

Lemma Contains_app a b p : Contains b p = true → Contains (a +:+ b) p = true.
Proof. rewrite !Contains_spec. intros (x & y & ->). exists (a +:+ x), y. by rewrite str_app_assoc. Qed.
Lemma Contains_app_l a b p : Contains a p = true → Contains (a +:+ b) p = true.
Proof. rewrite !Contains_spec. intros (x & y & ->). exists x, (y +:+ b). by rewrite <- !str_app_assoc. Qed.

(** The pieces are parts of the line, and none holds what was replaced. *)
Lemma pieces_spec n s old w : old ≠ "" → String.length s ≤ n → w ∈ pieces n s old → Contains w old = false ∧ ∀ p, Contains w p = true → Contains s p = true.
Proof.
  intros Ho. revert s w. induction n as [|n IH]; intros s w Hn; cbn.
  - intros ->%list_elem_of_singleton. split; [|done]. destruct s; [|cbn in Hn; lia]. destruct old; done.
  - destruct (Cut s old) as [[a b]|] eqn:E; [|intros ->%list_elem_of_singleton; split; [by apply Cut_none|done]].
    apply Cut_some in E as [-> Ha]. intros [->|Hw]%elem_of_cons.
    + split; [by apply Ha|]. intros p. apply Contains_app_l.
    + rewrite !str_length_app in Hn. destruct old; [done|]. cbn in Hn. destruct (IH b w) as [H1 H2]; [lia|done|]. split; [done|]. intros p Hp. apply Contains_app, Contains_app. auto.
Qed.

(** A pattern does not straddle a byte it does not have. *)
Lemma HasPrefix_sep a b c p : has_byte c p = false → HasPrefix (a +:+ String c b) p = true → HasPrefix a p = true.
Proof.
  revert a. induction p as [|e p IH]; intros a Hc; [by destruct a|]. cbn in Hc. apply orb_false_iff in Hc as [He Hp]. rewrite !HasPrefix_spec.
  destruct a as [|d a]; intros [r Hr].
  - injection Hr as -> _. by rewrite Ascii.eqb_refl in He.
  - injection Hr as -> Hr. destruct (proj1 (HasPrefix_spec a p)) as [r' ->]; [|by exists r']. apply IH; [done|]. apply HasPrefix_spec. by exists r.
Qed.

Lemma Contains_sep a b c p : has_byte c p = false → p ≠ "" → Contains (a +:+ String c b) p = true → Contains a p = true ∨ Contains b p = true.
Proof.
  intros Hc Hp. induction a as [|d a IH].
  - change ("" +:+ String c b) with (String c b). cbn. rewrite orb_true_iff. intros [H|H]; [|by right]. left. by rewrite (HasPrefix_sep "" b c p Hc H).
  - rewrite str_app_cons. cbn [Contains]. rewrite !orb_true_iff. intros [H|H]; [|destruct (IH H); auto]. rewrite <- str_app_cons in H. left. left. by eapply HasPrefix_sep.
Qed.

Definition star : ascii := "*".

Lemma Contains_mask a b p : has_byte star p = false → p ≠ "" → Contains (a +:+ mask +:+ b) p = true → Contains a p = true ∨ Contains b p = true.
Proof.
  intros Hs Hp H. unfold mask in H. apply (Contains_sep a _ star p Hs Hp) in H as [|H]; [by left|].
  apply (Contains_sep "" _ star p Hs Hp) in H as [H|H]; [destruct p; done|]. apply (Contains_sep "" _ star p Hs Hp) in H as [H|H]; [destruct p; done|by right].
Qed.

Lemma Contains_joined l p : has_byte star p = false → p ≠ "" → Contains (Join mask l) p = true → ∃ w, w ∈ l ∧ Contains w p = true.
Proof.
  intros Hs Hp. induction l as [|w l IH]; [by destruct p|]. destruct l as [|w' l]; [intros H; exists w; by split; [left|]|].
  rewrite Join_cons by done. intros [H|H]%Contains_mask; [| |done|done]; [exists w; by split; [left|]|]. destruct (IH H) as (v & Hv & Hc). exists v. split; [by right|done].
Qed.

(** Replacing removes every occurrence, and makes no new one of another pattern. *)
Lemma ReplaceAll_spec s old p : old ≠ "" → p ≠ "" → has_byte star p = false → Contains (ReplaceAll s old mask) p = true → p ≠ old ∧ Contains s p = true.
Proof.
  intros Ho Hp Hs (w & Hw & Hc)%Contains_joined; [|done..]. destruct (pieces_spec _ s old w Ho (le_n _) Hw) as [H1 H2]. split; [|by apply H2]. intros ->. congruence.
Qed.

Lemma Mask_clean l line p : Forall (λ q, q ≠ "") l → p ≠ "" → has_byte star p = false →
  Contains (foldl (λ line p, ReplaceAll line p mask) line l) p = true → (p ∉ l) ∧ Contains line p = true.
Proof.
  intros Hl Hp Hs. revert line. induction Hl as [|q l Hq Hl IH]; intros line; cbn; [intros H; split; [by apply not_elem_of_nil|done]|].
  intros [H1 H2]%IH. apply ReplaceAll_spec in H2 as [Hne Hc]; [|done..]. split; [|done]. by apply not_elem_of_cons.
Qed.

(** ** The patterns of the values *)

Lemma elem_of_add l p x : p ∈ add_pattern l x ↔ p ∈ l ∨ p = x ∧ x ≠ "".
Proof.
  unfold add_pattern. destruct (String.eqb_spec x "") as [|Hx]; [naive_solver|]. case_bool_decide; [naive_solver|]. rewrite elem_of_app, list_elem_of_singleton. naive_solver.
Qed.

Lemma elem_of_patterns values p : p ∈ m_patterns (NewMasker values) ↔ p ≠ "" ∧ ∃ v, v ∈ values ∧ p ∈ value_patterns v.
Proof.
  unfold NewMasker, longest_first. cbn. rewrite stable_sort_perm.
  assert (∀ l acc, p ∈ foldl add_pattern acc l ↔ p ∈ acc ∨ p ∈ l ∧ p ≠ "") as H.
  { induction l as [|x l IH]; intros acc; cbn; [rewrite elem_of_nil; tauto|]. rewrite IH, elem_of_add, elem_of_cons. naive_solver. }
  rewrite H, elem_of_nil, list_elem_of_In, in_concat. setoid_rewrite in_map_iff. setoid_rewrite <- list_elem_of_In. naive_solver.
Qed.

Lemma patterns_nonempty values : Forall (λ q, q ≠ "") (m_patterns (NewMasker values)).
Proof. rewrite Forall_forall. by intros p [Hp _]%elem_of_patterns. Qed.

(** A line that was masked shows no pattern, unless the pattern has a star of the mask. *)
Lemma masked_clean values line p : p ∈ m_patterns (NewMasker values) → has_byte star p = false → Contains (Mask (NewMasker values) line) p = false.
Proof.
  intros Hp Hs. apply not_true_iff_false. intros H. apply Mask_clean in H as [H _]; [done|apply patterns_nonempty|by apply elem_of_patterns in Hp as [? _]|done].
Qed.

(** Neither encoding of a value has a star. *)
Lemma below_check (f : N → bool) k n : forallb f (map N.of_nat (seq 0 k)) = true → (n < N.of_nat k)%N → f n = true.
Proof. rewrite forallb_forall. intros H Hn. apply H, in_map_iff. exists (N.to_nat n). split; [lia|]. apply in_seq. lia. Qed.

Lemma base64_char_no_star n : (n < 64)%N → Ascii.eqb star (base64_char n) = false.
Proof. intros Hn. apply negb_true_iff. by apply (below_check (λ n, negb (Ascii.eqb star (base64_char n))) 64). Qed.
Lemma hex_char_no_star n : (n < 16)%N → Ascii.eqb star (hex_char n) = false.
Proof. intros Hn. apply negb_true_iff. by apply (below_check (λ n, negb (Ascii.eqb star (hex_char n))) 16). Qed.

Lemma sextet_no_star k n : Ascii.eqb star (sextet k n) = false.
Proof.
  apply base64_char_no_star. change 63%N with (N.ones 6). rewrite N.land_ones. by apply N.mod_lt.
Qed.

Lemma base64_no_star s : has_byte star (base64 s) = false.
Proof.
  remember (String.length s) as n eqn:Hn. revert s Hn. induction n as [n IH] using lt_wf_ind. intros s ->.
  destruct s as [|a [|b [|c s]]]; [done| | |]; cbn [base64 has_byte]; rewrite ?sextet_no_star; [done|done|]. cbn [orb]. apply (IH (String.length s)); [cbn; lia|done].
Qed.

Lemma QueryEscape_no_star s : has_byte star (QueryEscape s) = false.
Proof.
  induction s as [|c s IH]; [done|]. cbn [QueryEscape]. destruct (unreserved c) eqn:Eu.
  - cbn [has_byte]. rewrite IH, orb_false_r. apply Ascii.eqb_neq. by intros <-.
  - destruct (Ascii.eqb c " "); [done|]. cbn [has_byte]. rewrite IH, orb_false_r. cbn [orb Ascii.eqb].
    rewrite !hex_char_no_star; [done|by apply N.mod_lt|]. apply N.Div0.div_lt_upper_bound. apply N_ascii_bounded.
Qed.
