(* ===== verification/LogPusher.v ===== *)
(** * internal/agent/runner.go: shipping a step's output to the controller

    The log pusher: buffering, flushing complete lines, the backlog of batches that
    could not be sent with its cap, and the markers for lines that were dropped or
    split.  Every operation holds the pusher's mutex, so they are atomic; what the
    controller answers to a request is a parameter, which may depend on everything
    sent before. *)

From S2P Require Import Prelude GoStrings Masker.
From stdpp Require Import options.

(** A line as it is sent.  The run, the step and the time are the pusher's own. *)
Record entry := MkEntry { le_Stream : string; le_Line : string }.
Abbreviation batch := (list entry) (only parsing).

(** What became of a request; [Unacked]: the controller has the lines, and the agent is
    not told. *)
Inductive verdict := Acked | Refused | Unacked.
#[export] Instance verdict_eq_dec : EqDecision verdict.
Proof. solve_decision. Defined.
(** What a request carries. *)
Inductive kind := Output | Dropped (n : nat) | Forced.
#[export] Instance kind_eq_dec : EqDecision kind.
Proof. solve_decision. Defined.
Record sent := MkSent { s_kind : kind; s_reqs : batch; s_verdict : verdict }.

Record LogPusher := MkPusher {
  lp_buf : string;
  lp_pending : list batch;
  lp_droppedLines : nat;
  lp_stream : string;
  lp_flushBytes : N;
  lp_maxPendingBytes : N;
  lp_maxLineBytes : N;
  lp_masker : option Masker
}.

Definition NewLogPusher (stream : string) : LogPusher := MkPusher "" [] 0 stream 4096 1048576 262144 None.
Definition SetMasker (m : Masker) (p : LogPusher) : LogPusher :=
  MkPusher (lp_buf p) (lp_pending p) (lp_droppedLines p) (lp_stream p) (lp_flushBytes p) (lp_maxPendingBytes p) (lp_maxLineBytes p) (Some m).
Definition with_buf (b : string) (p : LogPusher) : LogPusher :=
  MkPusher b (lp_pending p) (lp_droppedLines p) (lp_stream p) (lp_flushBytes p) (lp_maxPendingBytes p) (lp_maxLineBytes p) (lp_masker p).
Definition with_pending (l : list batch) (dropped : nat) (p : LogPusher) : LogPusher :=
  MkPusher (lp_buf p) l dropped (lp_stream p) (lp_flushBytes p) (lp_maxPendingBytes p) (lp_maxLineBytes p) (lp_masker p).

Definition masked (p : LogPusher) (line : string) : string := match lp_masker p with Some m => Mask m line | None => line end.

Definition splitLines (s : string) : list string :=
  let ws := Split newline s in match last ws with Some "" => removelast ws | _ => ws end.

Definition batch_bytes (b : batch) : N := foldr (λ r n, (N.of_nat (String.length (le_Line r)) + n)%N) 0%N b.
Definition pendingSizeBytes (l : list batch) : N := foldr (λ b n, (batch_bytes b + n)%N) 0%N l.
(** The oldest batches go until the backlog fits, but for the last one. *)
Fixpoint evict (max : N) (l : list batch) (dropped : nat) : list batch * nat :=
  match l with
  | b :: ((_ :: _) as rest) => if (max <? pendingSizeBytes l)%N then evict max rest (dropped + length b) else (l, dropped)
  | _ => (l, dropped)
  end.
Definition appendPendingLocked (b : batch) (p : LogPusher) : LogPusher :=
  let '(l, dropped) := evict (lp_maxPendingBytes p) (lp_pending p ++ [b]) (lp_droppedLines p) in with_pending l dropped p.

Definition dropped_line (n : nat) : string := "[" +:+ pretty n +:+ " log line(s) dropped: controller unreachable]".
Definition forced_line (max : N) : string :=
  "[unified-cd: a log line exceeded " +:+ pretty max +:+ " bytes without a newline and was flushed early; if a secret value straddles this boundary it may not have been masked]".
Definition is_empty {A} (l : list A) : bool := match l with [] => true | _ => false end.

Section pusher.
Variable reply : list sent → kind → batch → verdict.

(** [AppendLogBulk] *)
Definition AppendLogBulk (k : kind) (b : batch) (h : list sent) : bool * list sent :=
  let v := reply h k b in (bool_decide (v = Acked), h ++ [MkSent k b v]).

Fixpoint flush_pending (l : list batch) (h : list sent) : bool * list batch * list sent :=
  match l with
  | [] => (true, [], h)
  | b :: rest => let '(ok, h) := AppendLogBulk Output b h in if ok then flush_pending rest h else (false, l, h)
  end.
Definition flushPendingLocked (p : LogPusher) (h : list sent) : bool * LogPusher * list sent :=
  let '(drained, l, h) := flush_pending (lp_pending p) h in (drained, with_pending l (lp_droppedLines p) p, h).

Definition flush_buffer (drained : bool) (p : LogPusher) (h : list sent) : LogPusher * list sent :=
  if (lp_buf p =? "")%string then (p, h)
  else
    let lines := splitLines (lp_buf p) in
    let p := with_buf "" p in
    match lines with
    | [] => (p, h)
    | _ =>
        let reqs := map (λ line, MkEntry (lp_stream p) (masked p line)) lines in
        if negb drained then (appendPendingLocked reqs p, h)
        else let '(ok, h) := AppendLogBulk Output reqs h in if ok then (p, h) else (appendPendingLocked reqs p, h)
    end.

Definition report_dropped (p : LogPusher) (h : list sent) : LogPusher * list sent :=
  if is_empty (lp_pending p) && (0 <? lp_droppedLines p) then
    let '(ok, h) := AppendLogBulk (Dropped (lp_droppedLines p)) [MkEntry "stderr" (masked p (dropped_line (lp_droppedLines p)))] h in
    if ok then (with_pending (lp_pending p) 0 p, h) else (p, h)
  else (p, h).

Definition flushLocked (p : LogPusher) (h : list sent) : LogPusher * list sent :=
  let '(drained, p, h) := flushPendingLocked p h in
  let '(p, h) := flush_buffer drained p h in
  report_dropped p h.

Definition flushCompleteLinesLocked (p : LogPusher) (h : list sent) : LogPusher * list sent :=
  match split_last newline (lp_buf p) with
  | None => if is_empty (lp_pending p) then (p, h) else let '(_, p, h) := flushPendingLocked p h in (p, h)
  | Some (before, tail) =>
      let '(p, h) := flushLocked (with_buf (before +:+ String newline "") p) h in (with_buf (lp_buf p +:+ tail) p, h)
  end.

Definition flushForcedLocked (p : LogPusher) (h : list sent) : LogPusher * list sent :=
  let partial := match last_byte (lp_buf p) with Some c => negb (Ascii.eqb c newline) | None => false end in
  let '(p, h) := flushLocked p h in
  if negb partial || negb (is_empty (lp_pending p)) then (p, h)
  else (p, (AppendLogBulk Forced [MkEntry "stderr" (masked p (forced_line (lp_maxLineBytes p)))] h).2).

Definition Write (b : string) (p : LogPusher) (h : list sent) : LogPusher * list sent :=
  let p := with_buf (lp_buf p +:+ b) p in
  if (lp_maxLineBytes p <=? N.of_nat (String.length (lp_buf p)))%N then flushForcedLocked p h
  else if (lp_flushBytes p <=? N.of_nat (String.length (lp_buf p)))%N then flushCompleteLinesLocked p h
  else (p, h).

(** The exit-time retries, a second apart; [patience] of them fit in what is left of the
    five seconds. *)
Fixpoint retries (patience : nat) (p : LogPusher) (h : list sent) : LogPusher * list sent :=
  if is_empty (lp_pending p) then (p, h)
  else match patience with O => (p, h) | S n => let '(p, h) := flushLocked p h in retries n p h end.
Definition Flush (patience : nat) (p : LogPusher) (h : list sent) : LogPusher * list sent :=
  let '(p, h) := flushLocked p h in retries (Nat.min 3 patience) p h.

(** The step writes, and the ticker of [StartAutoFlush] ticks, in any order. *)
Inductive event := Wrote (b : string) | Tick.
Definition on_event (s : LogPusher * list sent) (e : event) : LogPusher * list sent :=
  match e with Wrote b => Write b s.1 s.2 | Tick => flushCompleteLinesLocked s.1 s.2 end.
(** A step's pusher, from its creation to the last flush. *)
Definition ship (stream : string) (masker : option Masker) (events : list event) (patience : nat) : LogPusher * list sent :=
  let p := NewLogPusher stream in
  let p := match masker with Some m => SetMasker m p | None => p end in
  let '(p, h) := foldl on_event (p, []) events in Flush patience p h.
End pusher.

(** * The log pusher loses, reorders and shows nothing it should not

    The batches in the order the step wrote them, with the fate of each: an invariant of
    every operation of [LogPusher], whatever the controller answers. *)

(** ** The batches and what was done about them *)

(** A batch, with the answer to each attempt to send it. *)
Definition tried : Type := batch * list verdict.
Definition tried_batch (x : tried) : batch := x.1.
Definition attempts (x : tried) : list (batch * verdict) := map (pair x.1) x.2.
Definition waiting (x : tried) : Prop := Forall (λ v, v ≠ Acked) x.2.
(** Sent until it was acknowledged; or given up unacknowledged. *)
Definition settled (x : tried) : Prop := waiting x ∨ ∃ vs, x.2 = vs ++ [Acked] ∧ Forall (λ v, v ≠ Acked) vs.
Definition lost (x : tried) : nat := if existsb (λ v, bool_decide (v = Acked)) x.2 then 0 else length x.1.
Definition outputs (h : list sent) : list (batch * verdict) :=
  omap (λ s, match s_kind s with Output => Some (s_reqs s, s_verdict s) | _ => None end) h.
(** The lines that acknowledged markers say were dropped. *)
Definition reported (h : list sent) : nat :=
  sum_list (map (λ s, match s_kind s, s_verdict s with Dropped n, Acked => n | _, _ => 0 end) h).

Lemma outputs_snoc h s : outputs (h ++ [s]) = outputs h ++ match s_kind s with Output => [(s_reqs s, s_verdict s)] | _ => [] end.
Proof. unfold outputs. rewrite omap_app. cbn. by destruct (s_kind s). Qed.
Lemma sum_list_app l1 l2 : sum_list (l1 ++ l2) = sum_list l1 + sum_list l2.
Proof. induction l1 as [|x l1 IH]; cbn; [done|]. rewrite IH. lia. Qed.
Lemma reported_snoc h s : reported (h ++ [s]) = reported h + match s_kind s, s_verdict s with Dropped n, Acked => n | _, _ => 0 end.
Proof. unfold reported. rewrite map_app, sum_list_app. cbn. lia. Qed.

Record shipped (done pend : list tried) (l : list batch) (dropped : nat) (h : list sent) : Prop := {
  sh_sends : outputs h = concat (map attempts (done ++ pend));
  sh_pending : map tried_batch pend = l;
  sh_waiting : Forall waiting pend;
  sh_queued x : x ∈ tail pend → x.2 = [];
  sh_done : Forall settled done;
  sh_dropped : sum_list (map lost done) = dropped + reported h
}.

Lemma waiting_lost x : waiting x → lost x = length x.1.
Proof.
  unfold waiting, lost. intros H. destruct (existsb _ x.2) eqn:E; [|done]. apply existsb_exists in E as (v & Hv & Hb). apply bool_decide_eq_true in Hb. subst v.
  rewrite Forall_forall in H. apply list_elem_of_In in Hv. by destruct (H Acked).
Qed.

Lemma acked_lost b vs : lost (b, vs ++ [Acked]) = 0.
Proof. unfold lost. cbn. by rewrite existsb_app, orb_comm. Qed.

Lemma untried l : (∀ x, x ∈ l → x.2 = []) → concat (map attempts l) = [].
Proof. induction l as [|x l IH]; intros H; cbn; [done|]. unfold attempts at 1. rewrite (H x) by (by left). apply IH. intros y Hy. apply H. by right. Qed.

Lemma tail_elem {A} (l : list A) x : x ∈ tail l → x ∈ l.
Proof. destruct l; [done|]. cbn. by right. Qed.

Section pusher.
Context (reply : list sent → kind → batch → verdict).

(** One more attempt at the oldest batch. *)
Lemma attempt_ok done b vs pend l dropped h v :
  shipped done ((b, vs) :: pend) (b :: l) dropped h →
  let h' := h ++ [MkSent Output b v] in
  (v = Acked → shipped (done ++ [(b, vs ++ [Acked])]) pend l dropped h') ∧ (v ≠ Acked → shipped done ((b, vs ++ [v]) :: pend) (b :: l) dropped h').
Proof.
  intros [S P W Q D N]. cbn. injection P as P. cbn in Q. apply Forall_cons in W as [Wb W]. pose proof (untried pend Q) as Hq.
  assert (outputs (h ++ [MkSent Output b v]) = concat (map attempts done) ++ attempts (b, vs ++ [v])) as Hs.
  { rewrite outputs_snoc, S, map_app, concat_app. cbn. rewrite Hq, app_nil_r. unfold attempts. cbn. by rewrite (map_app _ vs), app_assoc. }
  split; intros Hv.
  - subst v. constructor.
    + rewrite Hs, map_app, concat_app, map_app, concat_app, Hq. cbn. by rewrite !app_nil_r.
    + done.
    + done.
    + intros x Hx. by apply Q, tail_elem.
    + apply Forall_app. split; [done|]. apply Forall_singleton. right. by exists vs.
    + rewrite map_app, sum_list_app, reported_snoc. cbn. rewrite acked_lost. lia.
  - constructor.
    + rewrite Hs, map_app, concat_app. cbn. by rewrite Hq, app_nil_r.
    + cbn. by rewrite P.
    + apply Forall_cons. split; [|done]. apply Forall_app. split; [done|by apply Forall_singleton].
    + done.
    + done.
    + rewrite reported_snoc. cbn. lia.
Qed.

Lemma flush_pending_ok done pend l dropped h ok l' h' :
  shipped done pend l dropped h → flush_pending reply l h = (ok, l', h') →
  ∃ done' pend', shipped done' pend' l' dropped h' ∧ map tried_batch (done' ++ pend') = map tried_batch (done ++ pend)
    ∧ (if ok then l' = [] else ∃ h0 s, h' = h0 ++ [s] ∧ s_verdict s ≠ Acked) ∧ (∀ s, s ∈ h' → s ∈ h ∨ s_kind s = Output).
Proof.
  revert done pend h. induction l as [|b l IH]; intros done pend h Hs; cbn.
  - intros [= <- <- <-]. exists done, pend. naive_solver.
  - unfold AppendLogBulk. pose proof (sh_pending _ _ _ _ _ Hs) as Hp. destruct pend as [|[b' vs] pend]; [done|]. injection Hp as -> _.
    destruct (attempt_ok done b vs pend l dropped h (reply h Output b) Hs) as [Ha Hn].
    case_bool_decide as Hv; cbn.
    + specialize (Ha Hv). cbn in Ha. rewrite Hv in Ha |- *. intros H. destruct (IH _ _ _ Ha H) as (d & q & Hs' & Hm & Hok & Hk).
      exists d, q. split; [done|]. split; [rewrite Hm, !map_app; cbn; by rewrite <- app_assoc|]. split; [done|].
      intros s [Hin|]%Hk; [|by right]. apply elem_of_app in Hin as [| ->%list_elem_of_singleton]; [by left|by right].
    + intros [= <- <- <-]. eexists _, _. split; [by apply Hn|]. split; [by rewrite !map_app|]. split; [by eexists _, _|].
      intros s [| ->%list_elem_of_singleton]%elem_of_app; [by left|by right].
Qed.

Lemma evict_ok done pend max l dropped l' dropped' h :
  shipped done pend l dropped h → evict max l dropped = (l', dropped') →
  ∃ done' pend', shipped done' pend' l' dropped' h ∧ map tried_batch (done' ++ pend') = map tried_batch (done ++ pend).
Proof.
  revert done pend dropped. induction l as [|b l IH]; intros done pend dropped Hs; cbn; [intros [= <- <-]; by exists done, pend|].
  destruct l as [|b2 l]; [intros [= <- <-]; by exists done, pend|]. destruct (max <? _)%N; [|intros [= <- <-]; by exists done, pend].
  pose proof (sh_pending _ _ _ _ _ Hs) as Hp. destruct pend as [|[b' vs] pend]; [done|]. injection Hp as -> Hp.
  intros H. destruct Hs as [S _ W Q D N]. apply Forall_cons in W as [Wb W]. destruct (IH (done ++ [(b, vs)]) pend (dropped + length b)) as (d & q & Hs' & Hm); [|done|].
  - constructor; [by rewrite <- app_assoc|done|done|..].
    + intros x Hx. by apply Q, tail_elem.
    + apply Forall_app. split; [done|]. apply Forall_singleton. by left.
    + rewrite map_app, sum_list_app. cbn. rewrite waiting_lost by done. cbn. lia.
  - exists d, q. split; [done|]. rewrite Hm, !map_app. cbn. by rewrite <- app_assoc.
Qed.

(** ** The pusher *)

Context (stream : string) (masker : option Masker).

Definition mask_of (line : string) : string := match masker with Some m => Mask m line | None => line end.
Definition entries (text : string) : batch := map (λ line, MkEntry stream (mask_of line)) (splitLines text).
Definition hidden (e : entry) : Prop := ∃ line, le_Line e = mask_of line.

(** [texts]: what was flushed, piece by piece; [out]: all that was written. *)
Record inv (p : LogPusher) (h : list sent) (done pend : list tried) (texts : list string) (out : string) : Prop := {
  iv_shipped : shipped done pend (lp_pending p) (lp_droppedLines p) h;
  iv_texts : map tried_batch (done ++ pend) = map entries texts;
  iv_out : out = concat_str texts +:+ lp_buf p;
  iv_markers s : s ∈ h → s_kind s ≠ Output → Forall hidden (s_reqs s);
  iv_stream : lp_stream p = stream;
  iv_masker : lp_masker p = masker;
  iv_flushBytes : lp_flushBytes p = 4096%N;
  iv_maxLineBytes : lp_maxLineBytes p = 262144%N
}.

Definition flushed (buf : string) : list string := if (buf =? "")%string then [] else [buf].
(** A backlog stays only behind a request that was not acknowledged. *)
Definition held_up (l : list batch) (h : list sent) : Prop := l ≠ [] → ∃ h0 s, h = h0 ++ [s] ∧ s_verdict s ≠ Acked.

Lemma splitLines_nonempty s : s ≠ "" → splitLines s ≠ [].
Proof.
  unfold splitLines. intros Hs. pose proof (Split_nonempty newline s) as Hn. destruct (Split newline s) as [|w [|w' ws]] eqn:E; [done| |].
  - cbn. destruct w; [|done]. pose proof (Join_Split newline s) as J. rewrite E in J. cbn in J. congruence.
  - destruct (last (w :: w' :: ws)) as [[|]|]; done.
Qed.

Lemma concat_str_snoc l s : concat_str (l ++ [s]) = concat_str l +:+ s.
Proof. unfold concat_str. induction l as [|x l IH]; cbn; [by rewrite str_app_nil_r|]. by rewrite IH, str_app_assoc. Qed.
Lemma concat_flushed texts buf : concat_str (texts ++ flushed buf) = concat_str texts +:+ buf.
Proof. unfold flushed. destruct (String.eqb_spec buf "") as [->|]; [by rewrite app_nil_r, str_app_nil_r|apply concat_str_snoc]. Qed.

Lemma with_buf_inv p h done pend texts out b out' : inv p h done pend texts out → out' = concat_str texts +:+ b → inv (with_buf b p) h done pend texts out'.
Proof. intros [S T O M A B C D] ->. by constructor. Qed.

Lemma append_ok p h done pend texts out b text :
  inv p h done pend texts out → lp_buf p = "" → b = entries text →
  (∃ done' pend', inv (appendPendingLocked b p) h done' pend' (texts ++ [text]) (out +:+ text))
  ∧ (lp_pending p = [] → ∀ v, v ≠ Acked → ∃ done' pend', inv (appendPendingLocked b p) (h ++ [MkSent Output b v]) done' pend' (texts ++ [text]) (out +:+ text)).
Proof.
  intros [S T O M A B C D] Hbuf Hb. rewrite Hbuf, str_app_nil_r in O.
  assert (∀ h' (pend0 : list tried), shipped done pend0 (lp_pending p ++ [b]) (lp_droppedLines p) h' → map tried_batch pend0 = map tried_batch pend ++ [b] → (∀ s, s ∈ h' → s ∈ h ∨ s_kind s = Output) →
    ∃ done' pend', inv (appendPendingLocked b p) h' done' pend' (texts ++ [text]) (out +:+ text)) as H.
  { intros h' pend0 Hs Hm Hh. unfold appendPendingLocked. destruct (evict _ _ _) as [l' d'] eqn:E. destruct (evict_ok _ _ _ _ _ _ _ _ Hs E) as (done' & pend' & Hs' & Hm'). exists done', pend'.
    constructor; cbn; try done.
    - rewrite Hm', map_app, Hm, map_app. cbn. rewrite <- Hb, app_assoc, <- map_app, T. done.
    - by rewrite Hbuf, str_app_nil_r, concat_str_snoc, O.
    - intros s Hin Hk. destruct (Hh s Hin) as [|Hk']; [by apply M|congruence]. }
  destruct S as [S P W Q Dn N]. split.
  - apply (H h (pend ++ [(b, [])])); [|by rewrite map_app|by left]. constructor; [|by rewrite map_app, P| | |done|done].
    + rewrite app_assoc, map_app, concat_app, <- S. cbn. by rewrite app_nil_r.
    + apply Forall_app. split; [done|]. apply Forall_singleton. constructor.
    + intros x Hx. destruct pend as [|y pend]; cbn in Hx; [by apply elem_of_nil in Hx|]. apply elem_of_app in Hx as [Hx| ->%list_elem_of_singleton]; [by apply Q|done].
  - intros Hnil v Hv. rewrite Hnil in P. destruct pend; [|done]. apply (H _ [(b, [v])]); [|done|intros s [| ->%list_elem_of_singleton]%elem_of_app; [by left|by right]].
    constructor; [|by rewrite Hnil| |by intros x ?%elem_of_nil|done|by rewrite reported_snoc; cbn; lia].
    + rewrite outputs_snoc, S, app_nil_r, map_app, concat_app. cbn. done.
    + apply Forall_singleton. by apply Forall_singleton.
Qed.

Lemma flush_buffer_ok drained p h done pend texts out p' h' :
  inv p h done pend texts out → flush_buffer reply drained p h = (p', h') → (drained = true → lp_pending p = []) → (drained = false → held_up (lp_pending p) h) → (drained = false → lp_pending p ≠ []) →
  ∃ done' pend', inv p' h' done' pend' (texts ++ flushed (lp_buf p)) out ∧ lp_buf p' = "" ∧ held_up (lp_pending p') h'.
Proof.
  intros Hi H Hd Hh Hne. unfold flush_buffer in H. unfold flushed. destruct (String.eqb_spec (lp_buf p) "") as [Hb|Hb].
  { injection H as <- <-. exists done, pend. rewrite app_nil_r. split; [done|]. split; [done|]. destruct drained; [rewrite Hd by done; by intros []|by apply Hh]. }
  pose proof (splitLines_nonempty _ Hb) as Hl. destruct (splitLines (lp_buf p)) as [|w ws] eqn:El; [done|]. rewrite <- El in H.
  set (q := with_buf "" p) in *. assert (inv q h done pend texts (concat_str texts)) as Hq by (eapply with_buf_inv; [done|by rewrite str_app_nil_r]).
  assert (map (λ line, MkEntry (lp_stream q) (masked q line)) (splitLines (lp_buf p)) = entries (lp_buf p)) as He.
  { unfold entries, masked, mask_of. cbn. by rewrite (iv_stream _ _ _ _ _ _ Hi), (iv_masker _ _ _ _ _ _ Hi). }
  rewrite He in H. rewrite (iv_out _ _ _ _ _ _ Hi). destruct (append_ok q h done pend texts _ _ (lp_buf p) Hq eq_refl eq_refl) as [A1 A2].
  assert (lp_buf (appendPendingLocked (entries (lp_buf p)) q) = "") as Hbuf by (unfold appendPendingLocked; by destruct (evict _ _ _)).
  destruct drained; cbn in H.
  - unfold AppendLogBulk in H. case_bool_decide as Hv; injection H as <- <-.
    + specialize (Hd eq_refl). destruct Hq as [S T O M A B C D]. destruct S as [S P W Q Dn N]. cbn in P. rewrite Hd in P. destruct pend; [|done].
      exists (done ++ [(entries (lp_buf p), [Acked])]), []. split; [|split; [done|cbn; rewrite Hd; by intros []]]. rewrite Hv. constructor; try done.
      * constructor; [|by cbn; rewrite Hd|done|by intros x ?%elem_of_nil| |].
        -- rewrite outputs_snoc, S, !app_nil_r, map_app, concat_app. done.
        -- apply Forall_app. split; [done|]. apply Forall_singleton. right. by exists [].
        -- pose proof (acked_lost (entries (lp_buf p)) []) as L. rewrite map_app, sum_list_app, reported_snoc. cbn in L, N |- *. lia.
      * rewrite !app_nil_r in *. by rewrite !map_app, T.
      * by rewrite concat_str_snoc, str_app_nil_r.
      * intros s [Hin| ->%list_elem_of_singleton]%elem_of_app; [by apply M|done].
    + destruct (A2 (Hd eq_refl) _ Hv) as (d & e & Hinv). exists d, e. split; [done|]. split; [done|]. intros _. by eexists _, _.
  - injection H as <- <-. destruct A1 as (d & e & Hinv). exists d, e. split; [done|]. split; [done|]. intros _. apply (Hh eq_refl). by apply Hne.
Qed.

(** A marker, delivered or not. *)
Lemma marker_ok p h done pend texts out k b :
  inv p h done pend texts out → k ≠ Output → Forall hidden b →
  let v := reply h k b in
  let dropped' := match k, v with Dropped n, Acked => lp_droppedLines p - n | _, _ => lp_droppedLines p end in
  (∀ n, k = Dropped n → n = lp_droppedLines p) → inv (with_pending (lp_pending p) dropped' p) (h ++ [MkSent k b v]) done pend texts out.
Proof.
  intros [[S P W Q Dn N] T O M A B C D] Hk Hb v dropped' Hn. constructor; try done.
  - constructor; cbn; try done.
    + rewrite outputs_snoc, S. destruct k; [done|by rewrite app_nil_r..].
    + rewrite reported_snoc. cbn. unfold dropped'. destruct k as [|n|]; [done| |lia]. rewrite (Hn n eq_refl) in *. destruct v; lia.
  - intros s [Hs| ->%list_elem_of_singleton]%elem_of_app; [by apply M|done].
Qed.

Lemma same_pusher p : with_pending (lp_pending p) (lp_droppedLines p) p = p.
Proof. by destruct p. Qed.

Lemma hidden_marker p line : lp_masker p = masker → Forall hidden [MkEntry "stderr" (masked p line)].
Proof. intros Hm. apply Forall_singleton. exists line. unfold masked, mask_of. cbn. by rewrite Hm. Qed.

Lemma report_dropped_ok p h done pend texts out p' h' :
  inv p h done pend texts out → report_dropped reply p h = (p', h') → held_up (lp_pending p) h →
  inv p' h' done pend texts out ∧ lp_buf p' = lp_buf p ∧ lp_pending p' = lp_pending p ∧ held_up (lp_pending p') h'.
Proof.
  intros Hi H Hh. unfold report_dropped in H. destruct (is_empty (lp_pending p) && _) eqn:E; [|injection H as <- <-; done].
  apply andb_true_iff in E as [E _]. assert (lp_pending p = []) as Hp by (by destruct (lp_pending p)). unfold AppendLogBulk in H.
  pose proof (marker_ok p h done pend texts out (Dropped (lp_droppedLines p)) _ Hi ltac:(done) (hidden_marker p (dropped_line (lp_droppedLines p)) (iv_masker _ _ _ _ _ _ Hi))) as Hm. cbn zeta in Hm.
  specialize (Hm ltac:(by intros n [= ->])). case_bool_decide as Hv; injection H as <- <-.
  - rewrite Hv, Nat.sub_diag in Hm. rewrite Hv. split; [done|]. split; [done|]. split; [done|]. cbn. rewrite Hp. by intros [].
  - assert (inv p (h ++ [MkSent (Dropped (lp_droppedLines p)) [MkEntry "stderr" (masked p (dropped_line (lp_droppedLines p)))] (reply h (Dropped (lp_droppedLines p)) [MkEntry "stderr" (masked p (dropped_line (lp_droppedLines p)))])]) done pend texts out) as Hm'
      by (destruct (reply h _ _); [done|rewrite same_pusher in Hm; exact Hm..]).
    split; [exact Hm'|]. split; [done|]. split; [done|]. rewrite Hp. by intros [].
Qed.

Lemma flushPending_ok p h done pend texts out ok p' h' :
  inv p h done pend texts out → flushPendingLocked reply p h = (ok, p', h') →
  ∃ done' pend', inv p' h' done' pend' texts out ∧ lp_buf p' = lp_buf p ∧ (if ok then lp_pending p' = [] else ∃ h0 s, h' = h0 ++ [s] ∧ s_verdict s ≠ Acked) ∧ (ok = false → lp_pending p' ≠ []).
Proof.
  intros [S T O M A B C D] H. unfold flushPendingLocked in H. destruct (flush_pending reply (lp_pending p) h) as [[ok1 l1] h1] eqn:E. injection H as <- <- <-.
  destruct (flush_pending_ok _ _ _ _ _ _ _ _ S E) as (d & q & Hs & Hm & Hok & Hk). exists d, q. split; [|split; [done|split; [done|]]].
  - constructor; cbn; try done; [by rewrite Hm|]. intros s [Hin|Hout]%Hk Hne; [by apply M|done].
  - intros ->. clear -E. cbn. revert h E. induction (lp_pending p) as [|b l IH]; intros h; cbn; [done|]. case_bool_decide; cbn; [apply IH|by intros [= <- <-]].
Qed.

Lemma flushLocked_ok p h done pend texts out p' h' :
  inv p h done pend texts out → flushLocked reply p h = (p', h') →
  ∃ done' pend', inv p' h' done' pend' (texts ++ flushed (lp_buf p)) out ∧ lp_buf p' = "" ∧ held_up (lp_pending p') h'.
Proof.
  intros Hi H. unfold flushLocked in H. destruct (flushPendingLocked reply p h) as [[ok p1] h1] eqn:E1. destruct (flushPending_ok _ _ _ _ _ _ _ _ _ Hi E1) as (d1 & q1 & Hi1 & Hb1 & Hok1 & Hne1).
  destruct (flush_buffer reply ok p1 h1) as [p2 h2] eqn:E2. destruct (flush_buffer_ok _ _ _ _ _ _ _ _ _ Hi1 E2) as (d2 & q2 & Hi2 & Hb2 & Hh2); [by intros ->|intros -> _; done|done|].
  rewrite Hb1 in Hi2. destruct (report_dropped_ok _ _ _ _ _ _ _ _ Hi2 H Hh2) as (Hi3 & Hb3 & _ & Hh3). exists d2, q2. split; [done|]. split; [by rewrite Hb3|done].
Qed.

Lemma flushComplete_ok p h done pend texts out p' h' :
  inv p h done pend texts out → flushCompleteLinesLocked reply p h = (p', h') →
  ∃ done' pend' texts', inv p' h' done' pend' texts' out ∧
    match split_last newline (lp_buf p) with
    | None => texts' = texts ∧ lp_buf p' = lp_buf p
    | Some (before, tail) => texts' = texts ++ [before +:+ String newline ""] ∧ lp_buf p' = tail
    end.
Proof.
  intros Hi H. unfold flushCompleteLinesLocked in H. destruct (split_last newline (lp_buf p)) as [[before tail]|] eqn:E.
  - destruct (flushLocked reply _ h) as [p1 h1] eqn:E1. injection H as <- <-.
    assert (lp_buf p = (before +:+ String newline "") +:+ tail) as Hbuf by (rewrite <- str_app_assoc; by apply split_last_some in E as [-> _]).
    pose proof (with_buf_inv _ _ _ _ _ _ (before +:+ String newline "") _ Hi eq_refl) as Hi1. destruct (flushLocked_ok _ _ _ _ _ _ _ _ Hi1 E1) as (d & q & Hi2 & Hb & _). exists d, q, (texts ++ [before +:+ String newline ""]).
    cbn [lp_buf with_buf] in Hi2. unfold flushed in Hi2. destruct (String.eqb_spec (before +:+ String newline "") "") as [He|_]; [by destruct before|].
    rewrite Hb, str_app_nil_l. split; [|done]. eapply with_buf_inv; [exact Hi2|]. by rewrite concat_str_snoc, <- str_app_assoc, <- Hbuf, (iv_out _ _ _ _ _ _ Hi).
  - destruct (is_empty _); [injection H as <- <-; by exists done, pend, texts|]. destruct (flushPendingLocked reply p h) as [[ok p1] h1] eqn:E1. injection H as <- <-.
    destruct (flushPending_ok _ _ _ _ _ _ _ _ _ Hi E1) as (d & q & Hi1 & Hb & _). by exists d, q, texts.
Qed.

Lemma flushForced_ok p h done pend texts out p' h' :
  inv p h done pend texts out → flushForcedLocked reply p h = (p', h') → ∃ done' pend', inv p' h' done' pend' (texts ++ flushed (lp_buf p)) out ∧ lp_buf p' = "".
Proof.
  intros Hi H. unfold flushForcedLocked in H. destruct (flushLocked reply p h) as [p1 h1] eqn:E. destruct (flushLocked_ok _ _ _ _ _ _ _ _ Hi E) as (d & q & Hi1 & Hb & _). exists d, q.
  destruct (_ || _); injection H as <- <-; [done|]. split; [|done].
  pose proof (marker_ok p1 h1 d q _ out Forced _ Hi1 ltac:(done) (hidden_marker p1 (forced_line (lp_maxLineBytes p1)) (iv_masker _ _ _ _ _ _ Hi1)) ltac:(done)) as Hm. cbn zeta in Hm. rewrite same_pusher in Hm. exact Hm.
Qed.

Lemma retries_ok n p h done pend texts out p' h' :
  inv p h done pend texts out → lp_buf p = "" → held_up (lp_pending p) h → retries reply n p h = (p', h') →
  ∃ done' pend', inv p' h' done' pend' texts out ∧ lp_buf p' = "" ∧ held_up (lp_pending p') h'.
Proof.
  revert p h done pend. induction n as [|n IH]; intros p h done pend Hi Hb Hh; cbn; destruct (is_empty _); try (intros [= <- <-]; by exists done, pend).
  destruct (flushLocked reply p h) as [p1 h1] eqn:E. destruct (flushLocked_ok _ _ _ _ _ _ _ _ Hi E) as (d & q & Hi1 & Hb1 & Hh1). rewrite Hb, app_nil_r in Hi1. by apply IH with (done := d) (pend := q).
Qed.

Lemma Flush_ok n p h done pend texts out p' h' :
  inv p h done pend texts out → Flush reply n p h = (p', h') →
  ∃ done' pend', inv p' h' done' pend' (texts ++ flushed (lp_buf p)) out ∧ lp_buf p' = "" ∧ held_up (lp_pending p') h'.
Proof.
  intros Hi H. unfold Flush in H. destruct (flushLocked reply p h) as [p1 h1] eqn:E. destruct (flushLocked_ok _ _ _ _ _ _ _ _ Hi E) as (d & q & Hi1 & Hb1 & Hh1). by eapply retries_ok.
Qed.
End pusher.

(** ** From the first write to the last flush *)

Definition wrote (e : event) : string := match e with Wrote b => b | Tick => "" end.
Definition written (events : list event) : string := concat_str (map wrote events).
(** What was written since the last line ended. *)
Definition partial (s : string) : string := match split_last newline s with Some (_, tail) => tail | None => s end.
(** No line grows past the ceiling: 256 KiB, less what a flush waits for. *)
Definition line_fits (out : string) (e : event) : Prop := (4096 + N.of_nat (String.length (partial out)) + N.of_nat (String.length (wrote e)) < 262144)%N.
Definition lines_fit (events : list event) : Prop := ∀ before e after, events = before ++ e :: after → line_fits (written before) e.

Definition whole (texts : list string) : Prop := Forall (λ t, ∃ a, t = a +:+ String newline "") texts.
Definition short (buf : string) : Prop := (N.of_nat (String.length buf) < 4096)%N ∨ has_byte newline buf = false.

Lemma whole_ends texts : whole texts → concat_str texts = "" ∨ ∃ a, concat_str texts = a +:+ String newline "".
Proof.
  induction texts as [|t texts IH] using rev_ind; [by left|]. intros [H1 H2]%Forall_app. apply Forall_singleton in H2 as [a ->]. right. rewrite concat_str_snoc. exists (concat_str texts +:+ a). by rewrite str_app_assoc.
Qed.

Lemma partial_whole texts buf : whole texts → has_byte newline buf = false → partial (concat_str texts +:+ buf) = buf.
Proof.
  intros [->|[a ->]]%whole_ends Hb; unfold partial; [rewrite str_app_nil_l; by rewrite (proj2 (split_last_none newline buf) Hb)|].
  rewrite <- str_app_assoc. change (String newline "" +:+ buf) with (String newline buf). by rewrite split_last_app.
Qed.

Lemma Split_concat a s : Split newline (a +:+ String newline s) = Split newline a ++ Split newline s.
Proof.
  induction a as [|c a IH]; [done|]. rewrite str_app_cons. cbn [Split]. rewrite IH. destruct (Ascii.eqb c newline); [done|].
  pose proof (Split_nonempty newline a). by destruct (Split newline a).
Qed.

Lemma splitLines_line a s : splitLines (a +:+ String newline s) = Split newline a ++ splitLines s.
Proof.
  unfold splitLines. rewrite Split_concat. pose proof (Split_nonempty newline s) as Hs. generalize dependent (Split newline s). intros l Hl. rewrite last_app.
  destruct (last l) as [w|] eqn:E; [|by apply last_None in E]. destruct w; [|done]. by rewrite removelast_app.
Qed.

Lemma splitLines_whole texts buf : whole texts → concat (map splitLines (texts ++ flushed buf)) = splitLines (concat_str texts +:+ buf).
Proof.
  induction texts as [|t texts IH]; cbn.
  - intros _. rewrite str_app_nil_l. unfold flushed. destruct (String.eqb_spec buf "") as [->|]; cbn; [done|by rewrite app_nil_r].
  - intros [[a ->] H]%Forall_cons. rewrite IH by done. fold (concat_str texts). rewrite <- !str_app_assoc.
    change (String newline "" +:+ (concat_str texts +:+ buf)) with (String newline (concat_str texts +:+ buf)). rewrite (splitLines_line a ""), (splitLines_line a (concat_str texts +:+ buf)). cbn. by rewrite app_nil_r.
Qed.

Section lifetime.
Context (reply : list sent → kind → batch → verdict) (stream : string) (masker : option Masker).

Lemma on_event_ok p h done pend texts out e p' h' :
  inv stream masker p h done pend texts out → on_event reply (p, h) e = (p', h') →
  ∃ done' pend' texts', inv stream masker p' h' done' pend' texts' (out +:+ wrote e) ∧ (whole texts → short (lp_buf p) → line_fits out e → whole texts' ∧ short (lp_buf p')).
Proof.
  intros Hi H.
  assert (∀ p h out p' h', inv stream masker p h done pend texts out → flushCompleteLinesLocked reply p h = (p', h') →
    ∃ done' pend' texts', inv stream masker p' h' done' pend' texts' out ∧ (whole texts → whole texts' ∧ short (lp_buf p'))) as Hc.
  { clear. intros p h out p' h' Hi H. destruct (flushComplete_ok _ _ _ _ _ _ _ _ _ _ _ Hi H) as (d & q & t & Hi' & Hb). exists d, q, t. split; [done|]. intros Hw.
    destruct (split_last newline (lp_buf p)) as [[before tail]|] eqn:E; destruct Hb as [-> ->].
    - split; [apply Forall_app; split; [done|]; apply Forall_singleton; by exists before|]. right. by apply split_last_some in E as [_ ?].
    - split; [done|]. right. by apply split_last_none. }
  destruct e as [b|]; cbn in H |- *.
  - unfold Write in H. set (p1 := with_buf (lp_buf p +:+ b) p) in *.
    assert (inv stream masker p1 h done pend texts (out +:+ b)) as Hi1 by (eapply with_buf_inv; [done|by rewrite (iv_out _ _ _ _ _ _ _ _ Hi), str_app_assoc]).
    destruct (N.leb_spec (lp_maxLineBytes p1) (N.of_nat (String.length (lp_buf p1)))) as [Hmax|Hmax].
    + destruct (flushForced_ok _ _ _ _ _ _ _ _ _ _ _ Hi1 H) as (d & q & Hi' & _). exists d, q, (texts ++ flushed (lp_buf p1)). split; [done|]. intros Hw Hs Hf. exfalso.
      unfold line_fits in Hf. cbn [wrote] in Hf. rewrite (iv_maxLineBytes _ _ _ _ _ _ _ _ Hi1) in Hmax. cbn in Hmax. rewrite str_length_app in Hmax.
      destruct Hs as [Hs|Hs]; [lia|]. rewrite (iv_out _ _ _ _ _ _ _ _ Hi), partial_whole in Hf by done. lia.
    + destruct (N.leb_spec (lp_flushBytes p1) (N.of_nat (String.length (lp_buf p1)))) as [Hfl|Hfl].
      * destruct (Hc _ _ _ _ _ Hi1 H) as (d & q & t & Hi' & Hw). exists d, q, t. auto.
      * injection H as <- <-. exists done, pend, texts. split; [done|]. intros Hw _ _. split; [done|]. left. by rewrite <- (iv_flushBytes _ _ _ _ _ _ _ _ Hi1).
  - rewrite str_app_nil_r. destruct (Hc _ _ _ _ _ Hi H) as (d & q & t & Hi' & Hw). exists d, q, t. auto.
Qed.

Lemma events_ok events p h done pend texts out p' h' :
  inv stream masker p h done pend texts out → foldl (on_event reply) (p, h) events = (p', h') →
  ∃ done' pend' texts', inv stream masker p' h' done' pend' texts' (out +:+ written events)
    ∧ (whole texts → short (lp_buf p) → (∀ before e after, events = before ++ e :: after → line_fits (out +:+ written before) e) → whole texts' ∧ short (lp_buf p')).
Proof.
  revert p h done pend texts out. induction events as [|e events IH]; intros p h done pend texts out Hi; cbn.
  - intros [= <- <-]. exists done, pend, texts. by rewrite str_app_nil_r.
  - destruct (on_event reply (p, h) e) as [p1 h1] eqn:E. destruct (on_event_ok _ _ _ _ _ _ _ _ _ Hi E) as (d & q & t & Hi1 & Hw1). intros H.
    destruct (IH _ _ _ _ _ _ Hi1 H) as (d2 & q2 & t2 & Hi2 & Hw2). exists d2, q2, t2. split; [by rewrite <- str_app_assoc in Hi2|].
    intros Hw Hs Hf. destruct Hw1 as [Hw1 Hs1]; [done|done| |].
    + specialize (Hf [] e events eq_refl). cbn in Hf. by rewrite str_app_nil_r in Hf.
    + apply Hw2; [done|done|]. intros before e' after ->. specialize (Hf (e :: before) e' after eq_refl). cbn in Hf. by rewrite str_app_assoc in Hf.
Qed.

Lemma pusher_start_ok : inv stream masker (match masker with Some m => SetMasker m (NewLogPusher stream) | None => NewLogPusher stream end) [] [] [] [] "".
Proof.
  assert (shipped [] [] [] 0 []) as Hs by (constructor; cbn; try done; by intros x ?%elem_of_nil).
  destruct masker; constructor; try done; by intros s ?%elem_of_nil.
Qed.

(** Every line of every request went through the masker. *)
Lemma sent_hidden p h done pend texts out s : inv stream masker p h done pend texts out → s ∈ h → Forall (hidden masker) (s_reqs s).
Proof.
  intros Hi Hs. destruct (decide (s_kind s = Output)) as [Hk|Hk]; [|by eapply iv_markers].
  assert ((s_reqs s, s_verdict s) ∈ outputs h) as Ho by (unfold outputs; apply list_elem_of_omap; exists s; by rewrite Hk).
  rewrite (sh_sends _ _ _ _ _ (iv_shipped _ _ _ _ _ _ _ _ Hi)) in Ho. apply list_elem_of_In, in_concat in Ho as (l & Hl & Ho). apply in_map_iff in Hl as (x & <- & Hx). apply in_map_iff in Ho as (v & [= Hr _] & _).
  assert (tried_batch x ∈ map (entries stream masker) texts) as Ht by (rewrite <- (iv_texts _ _ _ _ _ _ _ _ Hi); apply list_elem_of_In, in_map_iff; by exists x).
  apply list_elem_of_In, in_map_iff in Ht as (text & Ht & _). rewrite <- Hr. unfold tried_batch in Ht. rewrite <- Ht. unfold entries. apply Forall_map, Forall_true. intros line. by exists line.
Qed.
End lifetime.

(** How a secret value could show itself: as it is, in base64, as a query string escapes
    it, or a line of it of four bytes and more. *)
Inductive shows (v : string) : string → Prop :=
| sw_value : shows v v
| sw_base64 : shows v (base64 v)
| sw_query : shows v (QueryEscape v)
| sw_line ln : has_byte newline v = true → ln ∈ Split newline v → 4 ≤ String.length (TrimSpace ln) → shows v (TrimSpace ln).

Lemma shows_pattern values v q : v ∈ values → v ≠ "" → shows v q → q ∈ m_patterns (NewMasker values).
Proof.
  intros Hv Hne Hq. apply elem_of_patterns. split.
  - destruct Hq as [| | |ln _ _ Hl]; [done| | |by intros E; rewrite E in Hl; cbn in Hl; lia].
    + by destruct v as [|a [|b [|c v]]].
    + destruct v as [|a v]; [done|]. cbn. destruct (unreserved a); [done|]. by destruct (Ascii.eqb a " ").
  - exists v. split; [done|]. unfold value_patterns. destruct (String.eqb_spec v ""); [done|]. destruct Hq as [| | |ln Hn Hin Hl]; [by left|by right; left|by right; right; left|].
    right; right; right. unfold line_patterns. rewrite Hn. apply list_elem_of_filter. split; [done|]. by apply list_elem_of_fmap_2.
Qed.

(** C33: whatever the controller answers, the batches a step's pusher sends are the
    step's lines in the order they were written: each batch is sent until it is
    acknowledged before the next one is sent at all, or is given up and its lines
    counted, and the count is what the markers report and the pusher still has to.  As
    long as no line comes within 4096 bytes of the ceiling of 256 KiB ([lines_fit]),
    each line is sent whole; nothing is left when the pusher is done unless its last
    request was not acknowledged; and no line of a request shows a secret value ([shows]),
    where what it would show has no star (a mask next to it could complete such a one). *)
Theorem output_shipped reply stream masker events patience :
  let '(p, h) := ship reply stream masker events patience in
  ∃ done pend,
    outputs h = concat (map attempts (done ++ pend)) ∧ Forall settled done ∧ Forall waiting pend ∧ map tried_batch pend = lp_pending p
    ∧ sum_list (map lost done) = lp_droppedLines p + reported h
    ∧ (lines_fit events → concat (map tried_batch (done ++ pend)) = map (λ line, MkEntry stream (mask_of masker line)) (splitLines (written events)))
    ∧ (lp_pending p ≠ [] → ∃ h0 s, h = h0 ++ [s] ∧ s_verdict s ≠ Acked)
    ∧ (∀ values v s e q, masker = Some (NewMasker values) → v ∈ values → v ≠ "" → s ∈ h → e ∈ s_reqs s → shows v q → has_byte star q = false → Contains (le_Line e) q = false).
Proof.
  unfold ship. destruct (foldl _ _ _) as [p1 h1] eqn:E1. destruct (events_ok reply stream masker _ _ _ _ _ _ _ _ _ (pusher_start_ok stream masker) E1) as (d1 & q1 & t1 & Hi1 & Hw1).
  destruct (Flush reply patience p1 h1) as [p h] eqn:E2. destruct (Flush_ok _ _ _ _ _ _ _ _ _ _ _ _ Hi1 E2) as (d & q & Hi & Hb & Hh). exists d, q. pose proof (iv_shipped _ _ _ _ _ _ _ _ Hi) as [S P W Q D N].
  repeat (split; [done|]). split; [|split; [done|]].
  - intros Hf. destruct Hw1 as [Hw1 _]; [constructor|by left; destruct masker|by intros; apply (Hf _ _ after)|]. rewrite (iv_texts _ _ _ _ _ _ _ _ Hi).
    replace (map (entries stream masker) (t1 ++ flushed (lp_buf p1))) with (map (map (λ line, MkEntry stream (mask_of masker line))) (map splitLines (t1 ++ flushed (lp_buf p1)))) by (by rewrite map_map).
    rewrite <- concat_map, splitLines_whole by done. by rewrite <- (iv_out _ _ _ _ _ _ _ _ Hi1), str_app_nil_l.
  - intros values v s e q' -> Hv Hne Hs He Hq Hstar. pose proof (sent_hidden _ _ _ _ _ _ _ _ _ Hi Hs) as Hhid. rewrite Forall_forall in Hhid. destruct (Hhid e He) as [line ->].
    apply masked_clean; [by eapply shows_pattern|done].
Qed.

Module Shipping.
(** The second request is refused, and the third stored without an answer. *)
Definition reply (h : list sent) (k : kind) (b : batch) : verdict := match length h with 1 => Refused | 2 => Unacked | _ => Acked end.
Definition text : list event := [Wrote ("one" +:+ String newline "pass"); Tick; Wrote ("word" +:+ String newline "two"); Tick].
Definition shown (h : list sent) : list (list string * verdict) := map (λ s, (map le_Line (s_reqs s), s_verdict s)) h.

Example masked_and_retried :
  shown (ship reply "stdout" (Some (NewMasker ["password"])) text 3).2
  = [(["one"], Acked); (["***"], Refused); (["***"], Unacked); (["***"], Acked); (["two"], Acked)].
Proof. vm_compute. reflexivity. Qed.

Lemma text_fits : lines_fit text.
Proof.
  intros before e after H. do 4 (destruct before as [|? before]; [injection H as <- _; vm_compute; reflexivity|injection H as <- H]). by destruct before.
Qed.
End Shipping.

Lemma output_shipped_witness :
  ∃ done pend : list tried, concat (map tried_batch (done ++ pend)) = map (MkEntry "stdout") ["one"; "***"; "two"]
    ∧ map tried_batch pend = lp_pending (ship Shipping.reply "stdout" (Some (NewMasker ["password"])) Shipping.text 3).1
    ∧ ∀ s e, s ∈ (ship Shipping.reply "stdout" (Some (NewMasker ["password"])) Shipping.text 3).2 → e ∈ s_reqs s → Contains (le_Line e) "password" = false.
Proof.
  pose proof (output_shipped Shipping.reply "stdout" (Some (NewMasker ["password"])) Shipping.text 3) as H.
  destruct (ship Shipping.reply "stdout" (Some (NewMasker ["password"])) Shipping.text 3) as [p h]. destruct H as (done & pend & _ & _ & _ & Hp & _ & Hl & _ & Hs).
  exists done, pend. split; [rewrite (Hl Shipping.text_fits); vm_compute; reflexivity|]. split; [exact Hp|].
  intros s e Hin He. apply (Hs ["password"] "password" s e "password"); [done|by left|done|done|done|constructor|reflexivity].
Defined.
