(* ===== verification/Cache.v ===== *)
(** * internal/cache/cache.go: caches in the object store

    Saving, restoring and expiring cache entries as programs over the object store, and
    any number of them interleaved.  The archive of a directory is a parameter of a
    save, and its extraction a parameter of a restore ([Archive] models both). *)

From S2P Require Import Prelude GoStrings Programs.
From stdpp Require Import options.

Record Meta := MkMeta { me_OriginalKey : string; me_ExpiresAt : Z; me_Size : Z; me_OwnerJob : string }.

Inductive request := QPut (key content : string) | QGet (key : string) | QDelete (key : string) | QList (prefix : string) | QNow.
Inductive answer := AOk | AObject (content : string) | ANotFound | AKeys (l : list string) | ANow (now : Z) | AFailed (e : text).
Abbreviation prog := (Programs.prog request answer).

Definition error_of (a : answer) : text := match a with AFailed e => e | ANotFound => [Lit "objectstore: object not found"] | _ => [] end.

Inductive restored := Hit (archive : string) | Miss | Failed (e : text).

Section cache.
(** [sum] is the SHA-256 of a name in unpadded base64url; [encode] and [decode] are
    [encoding/json] for [Meta]. *)
Variables (sum : string → string) (encode : Meta → string) (decode : string → option Meta).

Definition jobPrefix (jobName : string) : string := "caches/" +:+ sum jobName +:+ "/".
Definition objectKey (jobName key : string) : string := jobPrefix jobName +:+ sum key.
Definition archive_key (k : string) : string := k +:+ ".tar.zst".
Definition meta_key (k : string) : string := k +:+ ".meta".

Definition day : Z := 86400000000000.

Definition save (jobName key : string) (ttlDays : Z) (archive : string) : prog (res unit) :=
  if (jobName =? "")%string then Ret (Err [Lit "cache save: jobName must not be empty"])
  else
    let oKey := objectKey jobName key in
    Do (QPut (archive_key oKey) archive) (λ a,
      match a with
      | AOk =>
          Do QNow (λ a,
            let now := match a with ANow now => now | _ => 0%Z end in
            Do (QPut (meta_key oKey) (encode (MkMeta key (now + ttlDays * day) (Z.of_nat (String.length archive)) jobName))) (λ a,
              match a with
              | AOk => Ret (Ok tt)
              | a => Do (QDelete (archive_key oKey)) (λ _, Ret (Err ([Lit "put meta: "] ++ error_of a)))
              end))
      | a => Ret (Err ([Lit "put archive: "] ++ error_of a))
      end).

(** The candidate so far, and the entries that are left to look at. *)
Definition better (best : option (Meta * string)) (m : Meta) : bool :=
  match best with None => true | Some (b, _) => (me_ExpiresAt b <? me_ExpiresAt m)%Z end.
Definition matches (jobName : string) (prefixes : list string) (now : Z) (m : Meta) : bool :=
  negb (me_ExpiresAt m <? now)%Z && (me_OwnerJob m =? jobName)%string && existsb (HasPrefix (me_OriginalKey m)) prefixes.
Fixpoint best_match (jobName : string) (prefixes : list string) (now : Z) (keys : list string) (best : option (Meta * string)) : prog (option (Meta * string)) :=
  match keys with
  | [] => Ret best
  | k :: keys =>
      if negb (HasSuffix k ".meta") then best_match jobName prefixes now keys best
      else Do (QGet k) (λ a,
        let best := match a with
                    | AObject c => match decode c with
                                   | Some m => if matches jobName prefixes now m && better best m then Some (m, TrimSuffix k ".meta") else best
                                   | None => best
                                   end
                    | _ => best
                    end in
        best_match jobName prefixes now keys best)
  end.
Definition findBestMatch (jobName : string) (prefixes : list string) : prog (res string) :=
  Do (QList (jobPrefix jobName)) (λ a,
    match a with
    | AKeys keys => Do QNow (λ a,
        let now := match a with ANow now => now | _ => 0%Z end in
        best ← best_match jobName prefixes now keys None; Ret (Ok (from_option snd "" best)))
    | a => Ret (Err (error_of a))
    end).

Section restore.
Variable extract : string → res unit.

Definition extracted (what : string) (archive : string) : restored := match extract archive with Ok _ => Hit archive | Err e => Failed ([Lit what] ++ e) end.

Definition restore (jobName key : string) (restoreKeys : list string) : prog restored :=
  if (jobName =? "")%string then Ret (Failed [Lit "cache restore: jobName must not be empty"])
  else Do (QGet (archive_key (objectKey jobName key))) (λ a,
    match a with
    | AObject archive => Ret (extracted "extract: " archive)
    | ANotFound =>
        match restoreKeys with
        | [] => Ret Miss
        | _ =>
            r ← findBestMatch jobName restoreKeys;
            match r with
            | Err _ => Ret Miss
            | Ok fallbackKey =>
                if (fallbackKey =? "")%string then Ret Miss
                else Do (QGet (archive_key fallbackKey)) (λ a,
                  match a with
                  | AObject archive => Ret (extracted "extract fallback: " archive)
                  | ANotFound => Ret Miss
                  | a => Ret (Failed ([Lit "get fallback cache object: "] ++ error_of a))
                  end)
            end
        end
    | a => Ret (Failed ([Lit "get cache object: "] ++ error_of a))
    end).
End restore.

Fixpoint delete_expired (past : Z) (keys : list string) (deleted : nat) : prog nat :=
  match keys with
  | [] => Ret deleted
  | k :: keys =>
      if negb (HasSuffix k ".meta") then delete_expired past keys deleted
      else Do (QGet k) (λ a,
        match a with
        | AObject c =>
            match decode c with
            | Some m =>
                if (me_ExpiresAt m <? past)%Z then
                  Do (QDelete (archive_key (TrimSuffix k ".meta"))) (λ a,
                    match a with
                    | AOk => Do (QDelete k) (λ a, match a with AOk => delete_expired past keys (S deleted) | _ => delete_expired past keys deleted end)
                    | _ => delete_expired past keys deleted
                    end)
                else delete_expired past keys deleted
            | None => delete_expired past keys deleted
            end
        | _ => delete_expired past keys deleted
        end)
  end.
Definition DeleteExpired (past : Z) : prog (res nat) :=
  Do (QList "caches/") (λ a,
    match a with
    | AKeys keys => n ← delete_expired past keys 0; Ret (Ok n)
    | a => Ret (Err ([Lit "list: "] ++ error_of a))
    end).

(** ** Any number of them *)

(** [saves]: the job, the key and the archive of every save that was started. *)
Record world := MkWorld { objects : gmap string string; saves : list (string * string * string) }.

(** A write may take effect although its request fails. *)
Inductive serve (w : world) : request → world → answer → Prop :=
| sv_failed q e : serve w q w (AFailed e)
| sv_put k c a : a = AOk ∨ (∃ e, a = AFailed e) → serve w (QPut k c) (MkWorld (<[k := c]> (objects w)) (saves w)) a
| sv_get k c : objects w !! k = Some c → serve w (QGet k) w (AObject c)
| sv_get_none k : objects w !! k = None → serve w (QGet k) w ANotFound
| sv_delete k a : a = AOk ∨ (∃ e, a = AFailed e) → serve w (QDelete k) (MkWorld (delete k (objects w)) (saves w)) a
| sv_list p l : (∀ k, k ∈ l → HasPrefix k p = true) → serve w (QList p) w (AKeys l)
| sv_now now : serve w QNow w (ANow now).

Inductive task :=
| Saving (p : prog (res unit))
| Restoring (jobName key : string) (restoreKeys : list string) (p : prog restored)
| Expiring (p : prog (res nat)).
Record system := MkSystem { sy_world : world; sy_tasks : gmap nat task }.

Inductive step : system → system → Prop :=
| st_save w ts i jobName key ttlDays archive :
    ts !! i = None → step (MkSystem w ts) (MkSystem (MkWorld (objects w) ((jobName, key, archive) :: saves w)) (<[i := Saving (save jobName key ttlDays archive)]> ts))
| st_restore w ts i extract jobName key restoreKeys :
    ts !! i = None → step (MkSystem w ts) (MkSystem w (<[i := Restoring jobName key restoreKeys (restore extract jobName key restoreKeys)]> ts))
| st_expire w ts i past : ts !! i = None → step (MkSystem w ts) (MkSystem w (<[i := Expiring (DeleteExpired past)]> ts))
| st_saving w ts i q k w' a : ts !! i = Some (Saving (Programs.Do q k)) → serve w q w' a → step (MkSystem w ts) (MkSystem w' (<[i := Saving (k a)]> ts))
| st_restoring w ts i j key rks q k w' a :
    ts !! i = Some (Restoring j key rks (Programs.Do q k)) → serve w q w' a → step (MkSystem w ts) (MkSystem w' (<[i := Restoring j key rks (k a)]> ts))
| st_expiring w ts i q k w' a : ts !! i = Some (Expiring (Programs.Do q k)) → serve w q w' a → step (MkSystem w ts) (MkSystem w' (<[i := Expiring (k a)]> ts))
(* Objects go, or are written outside the caches. *)
| st_gone w ts k : step (MkSystem w ts) (MkSystem (MkWorld (delete k (objects w)) (saves w)) ts)
| st_other w ts k c : HasPrefix k "caches/" = false → step (MkSystem w ts) (MkSystem (MkWorld (<[k := c]> (objects w)) (saves w)) ts).

Inductive reach : system → Prop :=
| re_start os : (∀ k, k ∈ dom os → HasPrefix k "caches/" = false) → reach (MkSystem (MkWorld os []) ∅)
| re_step s s' : reach s → step s s' → reach s'.
End cache.

(** * A job restores only what the job saved

    What is under a cache's keys belongs to the job the key names, in every
    interleaving of saves, restores and expiry; and what an unlucky failure leaves. *)

Section facts.
Context (sum : string → string) (encode : Meta → string) (decode : string → option Meta).
Hypothesis sum_inj : ∀ a b, sum a = sum b → a = b.
Hypothesis sum_no_slash : ∀ a, has_byte "/" (sum a) = false.
Hypothesis decode_encode : ∀ m, decode (encode m) = Some m.
#[local] Set Default Proof Using "Type*".

(** ** Keys *)

Lemma cut_slash a b c d : has_byte "/" a = false → has_byte "/" c = false → a +:+ "/" +:+ b = c +:+ "/" +:+ d → a = c ∧ b = d.
Proof.
  revert c. induction a as [|x a IH]; intros c Ha Hc H; destruct c as [|y c].
  - by injection H.
  - injection H as <- _. by cbn in Hc.
  - injection H as -> _. by cbn in Ha.
  - cbn in Ha, Hc. apply orb_false_iff in Ha as [_ Ha]. apply orb_false_iff in Hc as [_ Hc]. injection H as -> H. by destruct (IH c Ha Hc H) as [-> ->].
Qed.

Lemma jobPrefix_inj j j' r r' : jobPrefix sum j +:+ r = jobPrefix sum j' +:+ r' → j = j' ∧ r = r'.
Proof. unfold jobPrefix. rewrite <- !str_app_assoc. intros H. injection H as H. apply cut_slash in H as [Hj ->]; [|by apply sum_no_slash..]. split; [by apply sum_inj|done]. Qed.

Lemma objectKey_inj j k j' k' s : objectKey sum j k +:+ s = objectKey sum j' k' +:+ s → j = j' ∧ k = k'.
Proof. intros H%str_app_inj_r. unfold objectKey in H. apply jobPrefix_inj in H as [-> H]. by apply sum_inj in H. Qed.

Lemma suffix_clash s t : s +:+ ".meta" ≠ t +:+ ".tar.zst".
Proof. intros H. apply (f_equal last_byte) in H. by rewrite !last_byte_app in H. Qed.

(** ** What may be under a key *)

Definition allowed (sv : list (string * string * string)) (key c : string) : Prop :=
  (HasPrefix key "caches/" = true → ∃ j k, key = archive_key (objectKey sum j k) ∨ key = meta_key (objectKey sum j k))
  ∧ ∀ j k, (key = archive_key (objectKey sum j k) → (j, k, c) ∈ sv)
    ∧ (key = meta_key (objectKey sum j k) → ∀ m, decode c = Some m → me_OwnerJob m = j ∧ me_OriginalKey m = k).

Lemma allowed_grows sv sv' key c : sv ⊆ sv' → allowed sv key c → allowed sv' key c.
Proof. intros H [Hf Ha]. split; [done|]. intros j k. destruct (Ha j k). split; [|done]. intros E. apply H. auto. Qed.

Lemma allowed_archive j k c sv : (j, k, c) ∈ sv → allowed sv (archive_key (objectKey sum j k)) c.
Proof.
  intros Hin. split; [intros _; exists j, k; by left|]. intros j' k'. split; [by intros [-> ->]%objectKey_inj|]. intros E. symmetry in E. by apply suffix_clash in E.
Qed.

Lemma allowed_meta j k now size sv : allowed sv (meta_key (objectKey sum j k)) (encode (MkMeta k now size j)).
Proof.
  split; [intros _; exists j, k; by right|]. intros j' k'. split; [intros E; by apply suffix_clash in E|]. intros [-> ->]%objectKey_inj m Hm. rewrite decode_encode in Hm. by injection Hm as <-.
Qed.

Lemma allowed_other sv k c : HasPrefix k "caches/" = false → allowed sv k c.
Proof.
  intros H. split; [by rewrite H|]. intros j key. split; intros ->; exfalso; revert H; apply not_false_iff_true; apply HasPrefix_spec; unfold archive_key, meta_key, objectKey, jobPrefix; rewrite <- !str_app_assoc; by eexists.
Qed.

(** ** Programs *)

Definition may_put (sv : list (string * string * string)) (q : request) : Prop := match q with QPut k c => allowed sv k c | _ => True end.
Definition may_answer (sv : list (string * string * string)) (q : request) (a : answer) : Prop :=
  match q, a with
  | QGet k, AObject c => allowed sv k c
  | QList p, AKeys l => ∀ k, k ∈ l → HasPrefix k p = true
  | _, AObject _ => False
  | _, AKeys _ => False
  | _, _ => True
  end.

Fixpoint safe {A} (p : prog A) (Q : A → list (string * string * string) → Prop) (sv : list (string * string * string)) : Prop :=
  match p with
  | Programs.Ret a => Q a sv
  | Programs.Do q k => ∀ sv1, sv ⊆ sv1 → may_put sv1 q ∧ ∀ a, may_answer sv1 q a → safe (k a) Q sv1
  end.

Lemma safe_grows {A} (p : prog A) (Q : A → _ → Prop) sv sv' : (∀ a sv sv', sv ⊆ sv' → Q a sv → Q a sv') → sv ⊆ sv' → safe p Q sv → safe p Q sv'.
Proof. intros HQ Hs. destruct p as [a|q k]; cbn; [by apply HQ|]. intros H sv1 Hs1. apply H. by transitivity sv'. Qed.

Lemma asks_bind {A B} (p : prog A) (f : A → prog B) Q sv : safe p (λ a sv, safe (f a) Q sv) sv → safe (p ≫= f) Q sv.
Proof.
  unfold mbind, prog_bind. revert sv. induction p as [a|q k IH]; intros sv; cbn; [done|]. intros H sv1 Hs. destruct (H sv1 Hs) as [H1 H2]. split; [done|]. intros a Ha. by apply IH, H2.
Qed.

(** A request that writes nothing. *)
Lemma safe_ask {A} q (k : answer → prog A) Q sv :
  (∀ key c, q ≠ QPut key c) → (∀ sv1 a, sv ⊆ sv1 → may_answer sv1 q a → safe (k a) Q sv1) → safe (Programs.Do q k) Q sv.
Proof. intros Hq H sv1 Hs. split; [|by intros a; apply H]. destruct q; try done. by destruct (Hq key content). Qed.

Lemma save_safe j k ttl c sv : (j, k, c) ∈ sv → safe (save sum encode j k ttl c) (λ _ _, True) sv.
Proof.
  intros Hin. unfold save. destruct (_ =? "")%string; [done|]. intros sv1 Hs. split; [apply allowed_archive; by apply Hs|]. intros a _. destruct a; try done.
  apply safe_ask; [done|]. intros sv2 a Hs2 _. intros sv3 Hs3. split; [apply allowed_meta|]. intros b _. destruct b; try done; by apply safe_ask.
Qed.

Lemma expire_safe past sv : safe (DeleteExpired decode past) (λ _ _, True) sv.
Proof.
  assert (∀ l n sv, safe (delete_expired decode past l n) (λ _ _, True) sv) as Hl.
  { induction l as [|k l IH]; intros n sv'; cbn [delete_expired]; [done|]. destruct (negb _); [apply IH|]. apply safe_ask; [done|]. intros sv1 a _ _. destruct a; try apply IH.
    destruct (decode content); [|apply IH]. destruct (_ <? past)%Z; [|apply IH]. apply safe_ask; [done|]. intros sv2 a _ _. destruct a; try apply IH.
    apply safe_ask; [done|]. intros sv3 a _ _. destruct a; apply IH. }
  apply safe_ask; [done|]. intros sv1 a _ _. destruct a; try done. apply asks_bind, (safe_grows _ _ sv1); [done|done|].
  generalize (Hl l 0 sv1). clear. induction (delete_expired decode past l 0) as [n|q k IH]; cbn; [done|]. intros H sv2 Hs. destruct (H sv2 Hs). split; [done|]. auto.
Qed.

(** ** Restoring *)

Definition selected (job : string) (prefixes : list string) (fallback : string) : Prop :=
  ∃ k, fallback = objectKey sum job k ∧ ∃ p, p ∈ prefixes ∧ HasPrefix k p = true.

Lemma candidate job prefixes now k c m sv :
  HasPrefix k (jobPrefix sum job) = true → HasSuffix k ".meta" = true → allowed sv k c → decode c = Some m → matches job prefixes now m = true →
  selected job prefixes (TrimSuffix k ".meta").
Proof.
  intros [r Hr]%HasPrefix_spec [s Hs]%HasSuffix_spec [Hform Hall] Hm H.
  destruct Hform as (j & key & [E|E]); [apply HasPrefix_spec; rewrite Hr; unfold jobPrefix; rewrite <- !str_app_assoc; by eexists|rewrite Hs in E; by apply suffix_clash in E|].
  destruct (Hall j key) as [_ Hmeta]. destruct (Hmeta E m Hm) as [_ Ho]. rewrite E. unfold meta_key. rewrite TrimSuffix_app.
  rewrite Hr in E. unfold meta_key, objectKey in E. rewrite <- str_app_assoc in E. apply jobPrefix_inj in E as [-> _].
  unfold matches in H. apply andb_true_iff in H as [_ H]. apply existsb_exists in H as (p & Hp & Hpre). exists key. split; [done|]. exists p. rewrite <- Ho. split; [by apply list_elem_of_In|done].
Qed.

Lemma best_match_safe job prefixes now keys best Q sv :
  (∀ k, k ∈ keys → HasPrefix k (jobPrefix sum job) = true) → (∀ b, best = Some b → selected job prefixes b.2) →
  (∀ b sv, (∀ x, b = Some x → selected job prefixes x.2) → Q b sv) → safe (best_match decode job prefixes now keys best) Q sv.
Proof.
  revert best sv. induction keys as [|k keys IH]; intros best sv Hkeys Hbest HQ; cbn [best_match]; [by apply HQ|].
  assert (∀ k, k ∈ keys → HasPrefix k (jobPrefix sum job) = true) as Hk' by (intros k' Hk'; apply Hkeys; by right).
  destruct (HasSuffix k ".meta") eqn:Es; cbn [negb]; [|by apply IH]. apply safe_ask; [done|]. intros sv1 a Hs Ha. apply IH; [done| |done].
  destruct a; try done. destruct (decode content) as [m|] eqn:Em; [|done]. destruct (matches job prefixes now m && better best m) eqn:E; [|done].
  intros b [= <-]. apply andb_true_iff in E as [E _]. eapply candidate; [apply Hkeys; by left|done|exact Ha|done|exact E].
Qed.

(** What a restore may hand out. *)
Definition own_archive (job key : string) (restoreKeys : list string) (r : restored) (sv : list (string * string * string)) : Prop :=
  match r with
  | Hit archive => ∃ k, (job, k, archive) ∈ sv ∧ (k = key ∨ ∃ p, p ∈ restoreKeys ∧ HasPrefix k p = true)
  | _ => True
  end.

Lemma extracted_own extract what job key restoreKeys archive k sv :
  (job, k, archive) ∈ sv → k = key ∨ (∃ p, p ∈ restoreKeys ∧ HasPrefix k p = true) → own_archive job key restoreKeys (extracted extract what archive) sv.
Proof. intros Hin Hk. unfold extracted. destruct (extract archive); [|done]. by exists k. Qed.

Lemma restore_asks extract job key restoreKeys sv : safe (restore sum decode extract job key restoreKeys) (own_archive job key restoreKeys) sv.
Proof.
  unfold restore. destruct (_ =? "")%string; [done|]. apply safe_ask; [done|]. intros sv1 a _ Ha. destruct a; try done.
  - cbn in Ha |- *. eapply extracted_own; [|by left]. by apply Ha.
  - destruct restoreKeys as [|p ps]; [done|]. set (rks := p :: ps). apply asks_bind, safe_ask; [done|]. intros sv2 a Hs2 Ha2. destruct a; try done.
    apply safe_ask; [done|]. intros sv3 a3 Hs3 _. apply asks_bind, best_match_safe with (prefixes := rks); [done|done|].
    intros b sv4 Hb. cbn [safe from_option]. destruct (_ =? "")%string eqn:E; [done|]. destruct b as [[m fb]|]; [|done]. cbn [from_option snd] in *.
    destruct (Hb _ eq_refl) as (k & Hfb & Hp). cbn [snd] in Hfb. subst fb. apply safe_ask; [done|]. intros sv5 a5 Hs5 Ha5. destruct a5; try done. cbn in Ha5 |- *.
    eapply extracted_own; [|by right]. by apply Ha5.
Qed.

(** ** The interleavings *)

Definition task_ok (tk : task) (sv : list (string * string * string)) : Prop :=
  match tk with
  | Saving p => safe p (λ _ _, True) sv
  | Restoring job key rks p => safe p (own_archive job key rks) sv
  | Expiring p => safe p (λ _ _, True) sv
  end.
Record cache_ok (s : system) : Prop := {
  co_objects k c : objects (sy_world s) !! k = Some c → allowed (saves (sy_world s)) k c;
  co_tasks i tk : sy_tasks s !! i = Some tk → task_ok tk (saves (sy_world s))
}.

Lemma task_grows tk sv sv' : sv ⊆ sv' → task_ok tk sv → task_ok tk sv'.
Proof.
  intros Hs. destruct tk; cbn; apply safe_grows; try done. intros r sv1 sv2 Hs2. destruct r; try done. cbn. intros (k & Hin & Hk). exists k. split; [by apply Hs2|done].
Qed.

Lemma serve_answers w q w' a : serve w q w' a → (∀ k c, objects w !! k = Some c → allowed (saves w) k c) → may_put (saves w) q →
  may_answer (saves w) q a ∧ saves w' = saves w ∧ ∀ k c, objects w' !! k = Some c → allowed (saves w') k c.
Proof.
  destruct 1 as [q e|k c a Ha|k c Hk|k Hk|k a Ha|p l Hl|now]; intros Hok Hp; cbn in *.
  - split; [|done]. by destruct q.
  - split; [by destruct Ha as [->|[e ->]]|]. split; [done|]. intros k' c'. rewrite lookup_insert_Some. intros [[<- <-]|[_ H]]; [done|by apply Hok].
  - split; [by apply Hok|done].
  - done.
  - split; [by destruct Ha as [->|[e ->]]|]. split; [done|]. intros k' c' [_ H]%lookup_delete_Some. by apply Hok.
  - done.
  - done.
Qed.

Lemma request_keeps w ts i tk tk' w' q a :
  cache_ok (MkSystem w ts) → ts !! i = Some tk → serve w q w' a → may_put (saves w) q → (may_answer (saves w) q a → task_ok tk' (saves w)) → cache_ok (MkSystem w' (<[i := tk']> ts)).
Proof.
  intros [HO HT] Hi Hs Hp Hk. destruct (serve_answers _ _ _ _ Hs HO Hp) as (Ha & Hsv & HO'). constructor; cbn; [done|]. rewrite Hsv. intros j t. rewrite lookup_insert_Some. intros [[<- <-]|[_ Hj]]; [by apply Hk|by apply (HT j)].
Qed.

Lemma add_task w ts i tk sv' : cache_ok (MkSystem w ts) → saves w ⊆ sv' → task_ok tk sv' → cache_ok (MkSystem (MkWorld (objects w) sv') (<[i := tk]> ts)).
Proof.
  intros [HO HT] Hs Hk. constructor; cbn in *.
  - intros k c Hc. eapply allowed_grows; [done|by apply HO].
  - intros j t. rewrite lookup_insert_Some. intros [[<- <-]|[_ Hj]]; [done|]. eapply task_grows; [done|by apply (HT j)].
Qed.

Lemma step_keeps s s' : cache_ok s → step sum encode decode s s' → cache_ok s'.
Proof.
  intros Hok Hs. destruct Hs as [w ts i j k ttl c Hi|w ts i ex j k rks Hi|w ts i past Hi|w ts i q k w' a Hi Hs|w ts i j key rks q k w' a Hi Hs|w ts i q k w' a Hi Hs|w ts k|w ts k c Hk].
  - apply add_task; [done|by intros x Hx; right|]. apply save_safe. by left.
  - destruct w as [os sv]. apply (add_task (MkWorld os sv)); [done|done|]. apply restore_asks.
  - destruct w as [os sv]. apply (add_task (MkWorld os sv)); [done|done|]. apply expire_safe.
  - destruct (co_tasks _ Hok i _ Hi (saves w)) as [Hp Hk]; [done|]. eapply request_keeps; [done|done|exact Hs|done|]. intros Ha. by apply Hk.
  - destruct (co_tasks _ Hok i _ Hi (saves w)) as [Hp Hk]; [done|]. eapply request_keeps; [done|done|exact Hs|done|]. intros Ha. by apply Hk.
  - destruct (co_tasks _ Hok i _ Hi (saves w)) as [Hp Hk]; [done|]. eapply request_keeps; [done|done|exact Hs|done|]. intros Ha. by apply Hk.
  - destruct Hok as [HO HT]. constructor; cbn in *; [|done]. intros k' c [_ H]%lookup_delete_Some. by apply HO.
  - destruct Hok as [HO HT]. constructor; cbn in *; [|done]. intros k' c'. rewrite lookup_insert_Some. intros [[<- <-]|[_ H]]; [by apply allowed_other|by apply HO].
Qed.

Lemma reach_keeps s : reach sum encode decode s → cache_ok s.
Proof.
  induction 1 as [os Hos|s s' _ IH Hs]; [|by eapply step_keeps]. constructor; cbn; [|by intros i tk ?]. intros k c Hk. apply allowed_other, Hos. by eapply elem_of_dom_2.
Qed.
End facts.

(** C32: A restore of a job hands out only an archive that the job itself saved, under
    the very key asked for or under one that begins with a restore key, however saves,
    restores and expiry of all jobs interleave and whatever requests fail. *)
Theorem cache_isolated sum encode decode s i job key restoreKeys archive
    (Hsum : ∀ a b, sum a = sum b → a = b) (Hslash : ∀ a, has_byte "/" (sum a) = false) (Hjson : ∀ m, decode (encode m) = Some m)
    (Hreach : reach sum encode decode s) (Hhit : sy_tasks s !! i = Some (Restoring job key restoreKeys (Programs.Ret (Hit archive)))) :
  ∃ k, (job, k, archive) ∈ saves (sy_world s) ∧ (k = key ∨ ∃ p, p ∈ restoreKeys ∧ HasPrefix k p = true).
Proof. apply (co_tasks _ _ _ (reach_keeps _ _ _ Hsum Hslash Hjson _ Hreach) i _ Hhit). Qed.

(** ** Executions *)

Section execution.
Context (sum : string → string) (encode : Meta → string) (decode : string → option Meta) (fails : request → bool) (now : Z).

Definition served (w : world) (q : request) : world * answer :=
  if fails q then (w, AFailed [])
  else match q with
       | QPut k c => (MkWorld (<[k := c]> (objects w)) (saves w), AOk)
       | QGet k => (w, match objects w !! k with Some c => AObject c | None => ANotFound end)
       | QDelete k => (MkWorld (delete k (objects w)) (saves w), AOk)
       | QList p => (w, AKeys (filter (λ k, HasPrefix k p = true) (map_to_list (objects w)).*1))
       | QNow => (w, ANow now)
       end.
Lemma served_serve w q : serve w q (served w q).1 (served w q).2.
Proof.
  unfold served. destruct (fails q); [constructor|]. destruct q; cbn; try (constructor; by left); try constructor.
  - destruct (objects w !! key) eqn:E; by constructor.
  - by intros k [H _]%list_elem_of_filter.
Qed.

Definition next (i : nat) (s : system) : option system :=
  match sy_tasks s !! i with
  | Some (Saving (Programs.Do q k)) => let '(w, a) := served (sy_world s) q in Some (MkSystem w (<[i := Saving (k a)]> (sy_tasks s)))
  | Some (Restoring j key rks (Programs.Do q k)) => let '(w, a) := served (sy_world s) q in Some (MkSystem w (<[i := Restoring j key rks (k a)]> (sy_tasks s)))
  | Some (Expiring (Programs.Do q k)) => let '(w, a) := served (sy_world s) q in Some (MkSystem w (<[i := Expiring (k a)]> (sy_tasks s)))
  | _ => None
  end.
Fixpoint go (n i : nat) (s : system) : system := match n with O => s | S n => match next i s with Some s' => go n i s' | None => s end end.

Lemma cache_go_reach n i s : reach sum encode decode s → reach sum encode decode (go n i s).
Proof.
  revert s. induction n as [|n IH]; intros s Hs; cbn; [done|]. destruct (next i s) as [s'|] eqn:E; [|done]. apply IH. eapply re_step; [exact Hs|]. destruct s as [w ts]. unfold next in E. cbn in E.
  destruct (ts !! i) as [[[|q k]|j key rks [|q k]|[|q k]]|] eqn:Et; try done.
  all: pose proof (served_serve w q) as Hq; destruct (served w q) as [w' a]; injection E as <-; by econstructor.
Qed.
End execution.

Module Runs.
Fixpoint hex (s : string) : string :=
  match s with "" => "" | String c s => String (ascii_of_N (65 + N_of_ascii c / 16)) (String (ascii_of_N (65 + N_of_ascii c mod 16)) (hex s)) end.
Fixpoint unhex (s : string) : string :=
  match s with String a (String b s) => String (ascii_of_N ((N_of_ascii a - 65) * 16 + (N_of_ascii b - 65))) (unhex s) | _ => "" end.
Lemma unhex_hex s : unhex (hex s) = s.
Proof. induction s as [|c s IH]; cbn [hex unhex]; [done|]. rewrite IH. f_equal. by destruct c as [[] [] [] [] [] [] [] []]. Qed.
Lemma hex_inj a b : hex a = hex b → a = b.
Proof. intros H. by rewrite <- (unhex_hex a), H, unhex_hex. Qed.
Lemma hex_no_slash a : has_byte "/" (hex a) = false.
Proof. induction a as [|c a IH]; cbn [hex has_byte]; [done|]. rewrite IH. by destruct c as [[] [] [] [] [] [] [] []]. Qed.

Fixpoint bits (p : positive) : string := match p with xH => "" | xO p => String "0" (bits p) | xI p => String "1" (bits p) end.
Fixpoint unbits (s : string) : positive := match s with "" => xH | String c s => if Ascii.eqb c "0" then xO (unbits s) else xI (unbits s) end.
Lemma unbits_bits p : unbits (bits p) = p.
Proof. induction p; cbn; congruence. Qed.
Definition write (m : Meta) : string := bits (encode (me_OriginalKey m, me_ExpiresAt m, me_Size m, me_OwnerJob m)).
Definition read (s : string) : option Meta := '(k, e, n, j) ← decode (unbits s) : option (string * Z * Z * string); Some (MkMeta k e n j).
Lemma read_write m : read (write m) = Some m.
Proof. unfold read, write. rewrite unbits_bits, decode_encode. by destruct m. Qed.

Abbreviation sys := (reach hex write read).
Definition saving (fails : request → bool) (i : nat) (key : string) (ttl : Z) (archive : string) (s : system) : system :=
  go fails 0 9 i (MkSystem (MkWorld (objects (sy_world s)) (("ci", key, archive) :: saves (sy_world s))) (<[i := Saving (save hex write "ci" key ttl archive)]> (sy_tasks s))).
Definition restoring (i : nat) (key : string) (rks : list string) (s : system) : system :=
  go (λ _, false) 0 9 i (MkSystem (sy_world s) (<[i := Restoring "ci" key rks (restore hex read (λ _, Ok tt) "ci" key rks)]> (sy_tasks s))).
Definition never : request → bool := λ _, false.
Definition start : system := MkSystem (MkWorld ∅ []) ∅.
Definition outcome (i : nat) (s : system) : option restored := match sy_tasks s !! i with Some (Restoring _ _ _ (Programs.Ret r)) => Some r | _ => None end.

Lemma start_reach : sys start.
Proof. apply re_start. intros k H. set_solver. Qed.
Lemma saving_reach fails i key ttl archive s : sy_tasks s !! i = None → sys s → sys (saving fails i key ttl archive s).
Proof. intros Hi Hs. apply cache_go_reach. destruct s as [w ts]. eapply re_step; [exact Hs|by apply st_save]. Qed.
Lemma restoring_reach i key rks s : sy_tasks s !! i = None → sys s → sys (restoring i key rks s).
Proof. intros Hi Hs. apply cache_go_reach. destruct s as [w ts]. eapply re_step; [exact Hs|by apply st_restore]. Qed.

(** A later key is missed, and the entry of an earlier run is used. *)
Definition fallback : system := restoring 1 "deps-2" ["deps-"] (saving never 0 "deps-1" 30 "one" start).
Lemma fallback_hit : sys fallback ∧ sy_tasks fallback !! 1 = Some (Restoring "ci" "deps-2" ["deps-"] (Programs.Ret (Hit "one"))).
Proof. split; [|vm_compute; reflexivity]. apply restoring_reach; [reflexivity|]. by apply saving_reach, start_reach. Qed.

(** The second save of an entry cannot write its metadata, and deletes the archive: what
    is left of the entry is preferred by every restore that falls back, and is nothing. *)
Definition no_meta (q : request) : bool := match q with QPut k _ => HasSuffix k ".meta" | _ => false end.
Definition shadowed : system :=
  restoring 3 "deps-3" ["deps-"] (saving no_meta 2 "deps-2" 60 "two again" (saving never 1 "deps-2" 60 "two" (saving never 0 "deps-1" 30 "one" start))).
Lemma failed_save_shadows :
  sys shadowed ∧ outcome 3 shadowed = Some Miss ∧ objects (sy_world shadowed) !! archive_key (objectKey hex "ci" "deps-1") = Some "one".
Proof.
  split; [|vm_compute; split; reflexivity]. apply restoring_reach; [reflexivity|]. apply saving_reach; [reflexivity|]. apply saving_reach; [reflexivity|]. by apply saving_reach, start_reach.
Qed.

(** Expiry has read an expired entry; the entry is saved again, and is deleted. *)
Definition later : Z := 10 * day.
Definition expiring (n i : nat) (s : system) : system :=
  go never later n i (MkSystem (sy_world s) (<[i := Expiring (DeleteExpired read later)]> (sy_tasks s))).
Definition overtaken : system := go never later 9 1 (go never later 9 2 (
  (λ s, MkSystem (MkWorld (objects (sy_world s)) (("ci", "deps", "new") :: saves (sy_world s))) (<[2 := Saving (save hex write "ci" "deps" 30 "new")]> (sy_tasks s)))
  (expiring 2 1 (saving never 0 "deps" 1 "old" start)))).
Lemma expiry_deletes_fresh :
  sys overtaken ∧ sy_tasks overtaken !! 2 = Some (Saving (Programs.Ret (Ok tt))) ∧ objects (sy_world overtaken) = ∅.
Proof.
  split; [|vm_compute; split; reflexivity]. apply cache_go_reach, cache_go_reach. eapply re_step; [|apply st_save; reflexivity]. 
  assert (sys (expiring 2 1 (saving never 0 "deps" 1 "old" start))) as H; [|by destruct (expiring 2 1 _)].
  apply cache_go_reach. assert (sys (saving never 0 "deps" 1 "old" start)) as H by (by apply saving_reach, start_reach). remember (saving never 0 "deps" 1 "old" start) as s eqn:Es. destruct s as [w ts].
  eapply re_step; [exact H|]. apply st_expire. by apply (f_equal (λ s, sy_tasks s !! 1)) in Es.
Qed.
End Runs.

Lemma cache_isolated_witness :
  ∃ k, ("ci", k, "one") ∈ saves (sy_world Runs.fallback) ∧ (k = "deps-2" ∨ ∃ p, p ∈ ["deps-"] ∧ HasPrefix k p = true).
Proof.
  apply (cache_isolated Runs.hex Runs.write Runs.read Runs.fallback 1 "ci" "deps-2" ["deps-"] "one").
  - exact Runs.hex_inj.
  - exact Runs.hex_no_slash.
  - exact Runs.read_write.
  - apply Runs.fallback_hit.
  - apply Runs.fallback_hit.
Defined.
