(* ===== verification/Archive.v ===== *)
(** * internal/artifact: archives of a workspace

    Writing a tree as an archive and extracting one ([rooted.go], [targz.go],
    [store.go]), and the record of what an extraction created ([written.go]), over a
    file system with symbolic links.  [os.Root] and the calls of package [os] are
    modelled by how they resolve a path.  An archive is the list of its entries: the
    formats of tar and zstd are not modelled.  No one else touches the tree meanwhile. *)

From S2P Require Import Prelude GoStrings GoPath VolumePlaces Programs Cache.
From stdpp Require Import options.

(** ** The file system

    A path is the list of its components from "/".  [Special] is a FIFO or a device. *)
Abbreviation path := (list string).
Inductive node := File (content : string) | Directory | Link (dest : string) | Special | Socket.
Abbreviation tree := (gmap path node).

#[export] Instance node_eq_dec : EqDecision node.
Proof. solve_decision. Defined.

Definition IsDir (n : node) : bool := match n with Directory => true | _ => false end.

(** Errors as far as the code tells them apart. *)
Inductive failure := NotExist | NotDir | Loops | Escapes | Denied.
Definition text_of (e : failure) : text :=
  [Lit match e with NotExist => "no such file or directory" | NotDir => "not a directory" | Loops => "too many levels of symbolic links" | Escapes => "path escapes from parent" | Denied => "permission denied" end].
Inductive found (A : Type) := Found (a : A) | No (e : failure).
Arguments Found {A}. Arguments No {A}.
Definition found_res {A} (f : found A) : res A := match f with Found a => Ok a | No e => Err (text_of e) end.

(** How a path is resolved: beneath [base], at most so many links; a confined view is
    an [os.Root], the other one the operating system's. *)
Record view := MkView { vw_base : path; vw_confined : bool; vw_links : nat }.
Definition root_view (base : path) : view := MkView base true 8.
Definition os_view : view := MkView [] false 40.

Section files.
(** What the operating system refuses to open, to create or to list. *)
Variable denied : path → bool.

(** The place a path names, relative to the base: every component but the last is
    followed, the last one when [follow]. *)
Fixpoint resolve (t : tree) (v : view) (follow : bool) (links : nat) : path → path → found path :=
  fix go (done todo : path) {struct todo} : found path :=
    match todo with
    | [] => Found done
    | c :: todo =>
        if (c =? "")%string || (c =? ".")%string then go done todo
        else if (c =? "..")%string then
          match done with
          | [] => if vw_confined v then No Escapes else go [] todo
          | _ => go (removelast done) todo
          end
        else
          let last := bool_decide (todo = []) in
          match t !! (vw_base v ++ done ++ [c]) with
          | Some (Link d) =>
              if last && negb follow then Found (done ++ [c])
              else match links with
                   | 0 => No Loops
                   | S links =>
                       if IsAbs d then if vw_confined v then No Escapes else resolve t v follow links [] (Split "/" d ++ todo)
                       else resolve t v follow links done (Split "/" d ++ todo)
                   end
          | Some Directory => go (done ++ [c]) todo
          | Some _ => if last then Found (done ++ [c]) else No NotDir
          | None => if last then Found (done ++ [c]) else No NotExist
          end
    end.

Definition place_of (t : tree) (v : view) (follow : bool) (p : path) : found path :=
  match resolve t v follow (vw_links v) [] p with Found q => Found (vw_base v ++ q) | No e => No e end.
Definition at_place (t : tree) (f : found path) : found (path * node) :=
  match f with Found q => match t !! q with Some n => Found (q, n) | None => No NotExist end | No e => No e end.
Definition Lstat (t : tree) (v : view) (p : path) : found node :=
  match at_place t (place_of t v false p) with Found (_, n) => Found n | No e => No e end.
Definition Stat (t : tree) (v : view) (p : path) : found node :=
  match at_place t (place_of t v true p) with Found (_, n) => Found n | No e => No e end.

(** The names in a directory, sorted. *)
Fixpoint below (dir p : path) : option path :=
  match dir, p with
  | [], p => Some p
  | d :: dir, c :: p => if (d =? c)%string then below dir p else None
  | _, [] => None
  end.
Definition name_in (dir p : path) : option string := match below dir p with Some [c] => Some c | _ => None end.
Definition ReadDir (t : tree) (dir : path) : found path :=
  if denied dir then No Denied else Found (SortStrings (omap (name_in dir) (map_to_list t).*1)).

(** [Open] and the bytes read, of a regular file. *)
Definition ReadFile (t : tree) (v : view) (p : path) : found string :=
  match at_place t (place_of t v true p) with
  | Found (q, File c) => if denied q then No Denied else Found c
  | Found _ => No Denied
  | No e => No e
  end.

(** [OpenFile] with O_WRONLY, O_CREATE and O_TRUNC, and what is written; what is written
    to a FIFO or a device leaves the tree as it is. *)
Definition WriteFile (t : tree) (v : view) (p : path) (content : string) : tree * found unit :=
  match place_of t v true p with
  | No e => (t, No e)
  | Found q =>
      if denied q then (t, No Denied)
      else match t !! q with
           | None | Some (File _) => (<[q := File content]> t, Found tt)
           | Some Special => (t, Found tt)
           | Some _ => (t, No Denied)
           end
  end.

(** [Root.MkdirAll]: what is missing on the way is created, behind links too. *)
Fixpoint mkdirs (t : tree) (v : view) (full : path) (links : nat) : path → path → tree * found unit :=
  (fix go (t : tree) (done todo : path) {struct todo} : tree * found unit :=
    match todo with
    | [] => (t, Found tt)
    | c :: todo =>
        if (c =? "")%string || (c =? ".")%string then go t done todo
        else if (c =? "..")%string then match done with [] => (t, No Escapes) | _ => go t (removelast done) todo end
        else
          let p := vw_base v ++ done ++ [c] in
          match t !! p with
          | Some Directory => go t (done ++ [c]) todo
          | Some (Link d) =>
              match todo with
              | [] => match Stat t v full with Found Directory => (t, Found tt) | _ => (t, No NotDir) end
              | _ => match links with
                     | 0 => (t, No Loops)
                     | S links => if IsAbs d then (t, No Escapes) else mkdirs t v full links done (Split "/" d ++ todo)
                     end
              end
          | Some _ => (t, No NotDir)
          | None => if denied p then (t, No Denied) else go (<[p := Directory]> t) (done ++ [c]) todo
          end
    end) t.
Definition Root_MkdirAll (t : tree) (v : view) (p : path) : tree * found unit := mkdirs t v p (vw_links v) [] p.

(** [os.MkdirAll]: the paths from "/" down, up to the first that is a directory. *)
Fixpoint os_MkdirAll (t : tree) (up : path) : tree * found unit :=
  let p := reverse up in
  match Stat t os_view p with
  | Found Directory => (t, Found tt)
  | Found _ => (t, No NotDir)
  | No _ =>
      match up with
      | [] => (t, No NotExist)
      | _ :: up =>
          match os_MkdirAll t up with
          | (t, No e) => (t, No e)
          | (t, Found _) =>
              match place_of t os_view false p with
              | No e => (t, No e)
              | Found q =>
                  match t !! q with
                  | Some n => (t, if IsDir n then Found tt else No NotDir)
                  | None => if denied q then (t, No Denied) else (<[q := Directory]> t, Found tt)
                  end
              end
          end
      end
  end.
Definition MkdirAll (t : tree) (p : path) : tree * found unit := os_MkdirAll t (reverse p).

(** [os.OpenRoot]. *)
Definition OpenRoot (t : tree) (root : path) : res path :=
  match at_place t (place_of t os_view true root) with
  | Found (q, Directory) => Ok q
  | Found _ => Err ([Lit "open root "; Quo (unsegs true root); Lit ": "] ++ text_of NotDir)
  | No e => Err ([Lit "open root "; Quo (unsegs true root); Lit ": "] ++ text_of e)
  end.

(** ** Writing *)

Inductive typeflag := TypeReg | TypeDir | TypeSymlink | TypeLink | TypeOther.
Record Header := MkHeader { hd_Name : string; hd_Typeflag : typeflag; hd_Linkname : string; hd_Body : string }.

(** Absolute exclusions, cleaned; a relative one is never met. *)
Definition excluded_paths (exclude : list string) : list path := omap (λ e, if IsAbs e then Some (segments (Clean e)) else None) exclude.

(** A path relative to the root is the list of its components; "." is the empty one. *)
Definition RelInRoot (absRoot : path) (p : string) : res path :=
  let root := unsegs true absRoot in
  let p := if IsAbs p then p else path_Join [root; p] in
  let outside := Err [Lit "path "; Quo p; Lit " is outside the root "; Quo root] in
  match Rel root (Clean p) with
  | Some rel => if (rel =? "..")%string || HasPrefix rel "../" then outside else Ok (segments rel)
  | None => outside
  end.

(** [filepath.Rel] from a path to one at or below it. *)
Definition entry_name (relBase p : path) : string := default "" (Rel (unsegs false relBase) (unsegs false p)).

(** [tar.FileInfoHeader] *)
Definition FileInfoHeader (n : node) (link : string) : res (typeflag * string) :=
  match n with
  | File _ => Ok (TypeReg, "")
  | Directory => Ok (TypeDir, "")
  | Link _ => Ok (TypeSymlink, link)
  | Special => Ok (TypeOther, "")
  | Socket => Err [Lit "archive/tar: sockets not supported"]
  end.

Fixpoint walk (fuel : nat) (t : tree) (v : view) (absRoot : path) (skip : list path) (relBase p : path) : res (list Header) :=
  match fuel with
  | 0 => Err [Lit "out of fuel"]
  | S fuel =>
      if decide (absRoot ++ p ∈ skip) then Ok []
      else match Lstat t v p with
      | No e => Err (text_of e)
      | Found info =>
          let link := match info with Link d => d | _ => "" end in
          '(flag, linkname) ← FileInfoHeader info link;
          let hdr := MkHeader (entry_name relBase p) flag linkname "" in
          match info with
          | Directory =>
              match place_of t v true p with
              | No e => Err (text_of e)
              | Found dir =>
                  match ReadDir t dir with
                  | No e => Err (text_of e)
                  | Found names => hs ← map_res (λ name, walk fuel t v absRoot skip relBase (p ++ [name])) names; Ok (hdr :: mjoin hs)
                  end
              end
          | File _ => match ReadFile t v p with Found c => Ok [MkHeader (hd_Name hdr) flag linkname c] | No e => Err (text_of e) end
          | _ => Ok [hdr]
          end
      end
  end.

(** More than the depth of the tree: [walk] does not run out. *)
Definition depth (t : tree) : nat := S (max_list (length <$> (map_to_list t).*1)).

Definition parent (p : path) : path := removelast p.

Definition WriteTarZstdIn (t : tree) (root : path) (p : string) (exclude : list string) : res (list Header) :=
  base ← OpenRoot t root;
  rel ← RelInRoot root p;
  let v := root_view base in
  let relBase := match Stat t v rel with Found info => if IsDir info then rel else parent rel | No _ => rel end in
  wrap [Lit "tar walk "; Quo p; Lit ": "] (walk (S (depth t)) t v root (excluded_paths exclude) relBase rel).

(** On the host the archived path is its own root; paths are absolute and clean, what
    [filepath.Abs] makes of them. *)
Definition WriteTarZstdExcluding (t : tree) (absPath : path) (exclude : list string) : res (list Header) :=
  let root := match Stat t os_view absPath with Found info => if IsDir info then absPath else parent absPath | No _ => absPath end in
  WriteTarZstdIn t root (unsegs true absPath) exclude.

(** ** The record of what was created *)

Record Written := MkWritten { wr_files : list path; wr_newDirs : list path }.
Definition record_file (p : path) (w : option Written) : option Written := (λ w, MkWritten (wr_files w ++ [p]) (wr_newDirs w)) <$> w.
Definition record_dir (top : option path) (w : option Written) : option Written :=
  match top with None => w | Some p => (λ w, MkWritten (wr_files w) (wr_newDirs w ++ [p])) <$> w end.

(** From the path up, the last one that is not there before one that is; [up] is the
    path with its last component first. *)
Fixpoint top_missing (exists_ : path → found node) (up : path) (top : option path) : found (option path) :=
  match up with
  | [] => Found top
  | _ :: up' =>
      match exists_ (reverse up) with
      | Found _ => Found top
      | No NotExist => top_missing exists_ up' (Some (reverse up))
      | No e => No e
      end
  end.

Definition proper_prefixes (p : path) : list path := (λ n, take n p) <$> seq 0 (length p).
Definition covered (dirs : list path) (p : path) : bool := existsb (λ d, bool_decide (d ∈ dirs)) (proper_prefixes p).
Fixpoint uncovered (dirs seen l : list path) : list path :=
  match l with
  | [] => []
  | p :: l => if bool_decide (p ∈ seen) || covered dirs p then uncovered dirs seen l else p :: uncovered dirs (p :: seen) l
  end.
Definition Roots (w : option Written) : list string :=
  match w with None => [] | Some w => SortStrings (unsegs true <$> uncovered (wr_newDirs w) [] (wr_newDirs w ++ wr_files w)) end.

Definition mkdirAllIn (t : tree) (v : view) (absRoot rel : path) (w : option Written) : tree * option Written * found unit :=
  match (match w with None => Found None | Some _ => top_missing (Lstat t v) (reverse rel) None end) with
  | No e => (t, w, No e)
  | Found top =>
      match Root_MkdirAll t v rel with
      | (t, Found _) => (t, record_dir (app absRoot <$> top) w, Found tt)
      | (t, No e) => (t, w, No e)
      end
  end.

(** [Written.MkdirAll]: the path from "/". *)
Definition Written_MkdirAll (t : tree) (dir : path) (w : option Written) : tree * option Written * found unit :=
  match (match w with None => Found None | Some _ => top_missing (Lstat t os_view) (reverse dir) None end) with
  | No e => (t, w, No e)
  | Found top =>
      match MkdirAll t dir with
      | (t, Found _) => (t, record_dir top w, Found tt)
      | (t, No e) => (t, w, No e)
      end
  end.

(** ** Extracting *)

Definition isUnderAny (p : path) (paths : list path) : bool := existsb (λ e, bool_decide (p = e ∨ e ≠ [] ∧ e `prefix_of` p)) paths.

Record extraction := MkExtraction { ex_tree : tree; ex_written : option Written; ex_skipped : nat }.

Definition typeflagName (flag : typeflag) : string := match flag with TypeSymlink => "symlink" | TypeLink => "hardlink" | _ => "other" end.
Definition unsupported (hdr : Header) : text := [Lit ("unsupported " +:+ typeflagName (hd_Typeflag hdr) +:+ " entry "); Quo (hd_Name hdr); Lit " in artifact archive"].
Definition extract_file (v : view) (absRoot rel : path) (body : string) (s : extraction) : extraction * res unit :=
  match mkdirAllIn (ex_tree s) v absRoot (parent rel) (ex_written s) with
  | (t, w, No e) => (MkExtraction t w (ex_skipped s), Err (text_of e))
  | (t, w, Found _) =>
      let created := match Lstat t v rel with No NotExist => true | _ => false end in
      match WriteFile t v rel body with
      | (t, No e) => (MkExtraction t w (ex_skipped s), Err (text_of e))
      | (t, Found _) => (MkExtraction t (if created then record_file (absRoot ++ rel) w else w) (ex_skipped s), Ok tt)
      end
  end.

Definition extract_entry (v : view) (absRoot destRel : path) (skip : list path) (refuseLinks : bool) (hdr : Header) (s : extraction) : extraction * res unit :=
  let rel := path_Join [unsegs false destRel; hd_Name hdr] in
  if (rel =? "..")%string || HasPrefix rel "../" || IsAbs rel then (s, Err [Lit "invalid path "; Quo (hd_Name hdr); Lit " in artifact archive"])
  else
    let rel := segments rel in
    if isUnderAny (absRoot ++ rel) skip then (s, Ok tt)
    else match hd_Typeflag hdr with
         | TypeDir =>
             match mkdirAllIn (ex_tree s) v absRoot rel (ex_written s) with
             | (t, w, No e) => (MkExtraction t w (ex_skipped s), Err (text_of e))
             | (t, w, Found _) => (MkExtraction t w (ex_skipped s), Ok tt)
             end
         | TypeSymlink | TypeLink =>
             if refuseLinks then (s, Err (unsupported hdr))
             else (MkExtraction (ex_tree s) (ex_written s) (S (ex_skipped s)), Ok tt)
         | _ => extract_file v absRoot rel (hd_Body hdr) s
         end.

Fixpoint extract_all (v : view) (absRoot destRel : path) (skip : list path) (refuseLinks : bool) (hdrs : list Header) (s : extraction) : extraction * res unit :=
  match hdrs with
  | [] => (s, Ok tt)
  | hdr :: hdrs =>
      match extract_entry v absRoot destRel skip refuseLinks hdr s with
      | (s, Ok _) => extract_all v absRoot destRel skip refuseLinks hdrs s
      | (s, Err e) => (s, Err e)
      end
  end.

Definition ExtractTarZstdInWritten (t : tree) (hdrs : list Header) (root : path) (dest : string) (exclude : list string) (refuseLinks : bool) (w : option Written) : extraction * res unit :=
  let s := MkExtraction t w 0 in
  match OpenRoot t root with
  | Err e => (s, Err e)
  | Ok base =>
      match RelInRoot root dest with
      | Err e => (s, Err e)
      | Ok destRel => extract_all (root_view base) root destRel (excluded_paths exclude) refuseLinks hdrs s
      end
  end.
Definition ExtractTarZstdIn (t : tree) (hdrs : list Header) (root : path) (dest : string) (exclude : list string) (refuseLinks : bool) : extraction * res unit :=
  ExtractTarZstdInWritten t hdrs root dest exclude refuseLinks None.

Definition ExtractTarZstdDir (t : tree) (hdrs : list Header) (absDest : path) (exclude : list string) (refuseLinks : bool) (w : option Written) : extraction * res unit :=
  match Written_MkdirAll t absDest w with
  | (t, w, No e) => (MkExtraction t w 0, Err (text_of e))
  | (t, w, Found _) => ExtractTarZstdInWritten t hdrs absDest (unsegs true absDest) exclude refuseLinks w
  end.

(** [ExtractTarZstdWritten]: the same, through the paths of the operating system. *)
Definition extract_file_os (target : path) (body : string) (s : extraction) : extraction * res unit :=
  match Written_MkdirAll (ex_tree s) (parent target) (ex_written s) with
  | (t, w, No e) => (MkExtraction t w (ex_skipped s), Err (text_of e))
  | (t, w, Found _) =>
      let created := match Lstat t os_view target with No NotExist => true | _ => false end in
      match WriteFile t os_view target body with
      | (t, No e) => (MkExtraction t w (ex_skipped s), Err (text_of e))
      | (t, Found _) => (MkExtraction t (if created then record_file target w else w) (ex_skipped s), Ok tt)
      end
  end.
Definition extract_entry_os (absDest : path) (skip : list path) (hdr : Header) (s : extraction) : extraction * res unit :=
  let target := path_Join [unsegs true absDest; hd_Name hdr] in
  if negb (HasPrefix (target +:+ "/") (unsegs true absDest +:+ "/")) then (s, Err [Lit "invalid path "; Quo (hd_Name hdr); Lit " in artifact archive"])
  else
    let target := segments target in
    if isUnderAny target skip then (s, Ok tt)
    else match hd_Typeflag hdr with
         | TypeDir =>
             match Written_MkdirAll (ex_tree s) target (ex_written s) with
             | (t, w, No e) => (MkExtraction t w (ex_skipped s), Err (text_of e))
             | (t, w, Found _) => (MkExtraction t w (ex_skipped s), Ok tt)
             end
         | TypeSymlink | TypeLink => (s, Err (unsupported hdr))
         | _ => extract_file_os target (hd_Body hdr) s
         end.
Fixpoint extract_all_os (absDest : path) (skip : list path) (hdrs : list Header) (s : extraction) : extraction * res unit :=
  match hdrs with
  | [] => (s, Ok tt)
  | hdr :: hdrs =>
      match extract_entry_os absDest skip hdr s with
      | (s, Ok _) => extract_all_os absDest skip hdrs s
      | (s, Err e) => (s, Err e)
      end
  end.
Definition ExtractTarZstdWritten (t : tree) (hdrs : list Header) (absDest : path) (exclude : list string) (w : option Written) : extraction * res unit :=
  extract_all_os absDest (excluded_paths exclude) hdrs (MkExtraction t w 0).
End files.

(** ** The store *)

Definition isSafeArtifactPathSegment (s : string) : bool :=
  if (s =? "")%string || (s =? ".")%string || (s =? "..")%string then false else negb (ContainsAny s "/\").
Definition ArtifactKey (runID name : string) : res string :=
  if negb (isSafeArtifactPathSegment runID) then Err [Lit "invalid runID "; Quo runID]
  else if negb (isSafeArtifactPathSegment name) then Err [Lit "invalid artifact name "; Quo name]
  else Ok ("artifacts/" +:+ runID +:+ "/" +:+ name +:+ ".tar.gz").

Section store.
(** [tar] and [zstd], there and back; [unpack] gives the entries that can be read, and how
    the stream ends. *)
Variables (denied : path → bool) (pack : list Header → string) (unpack : string → list Header * res unit).

(** A stream that fails makes the upload fail, and nothing is stored. *)
Definition stored (key : string) (archive : res (list Header)) : Cache.prog (res unit) :=
  match archive with
  | Err e => Programs.Ret (Err e)
  | Ok hs => Programs.Do (QPut key (pack hs)) (λ a, Programs.Ret (match a with AOk => Ok tt | a => Err (error_of a) end))
  end.
Definition UploadIn (t : tree) (runID name : string) (root : path) (dir : string) (exclude : list string) : Cache.prog (res unit) :=
  match ArtifactKey runID name with
  | Err e => Programs.Ret (Err ([Lit "upload artifact: "] ++ e))
  | Ok key => stored key (WriteTarZstdIn denied t root dir exclude)
  end.
Definition UploadExcluding (t : tree) (runID name : string) (absDir : path) (exclude : list string) : Cache.prog (res unit) :=
  match ArtifactKey runID name with
  | Err e => Programs.Ret (Err ([Lit "upload artifact: "] ++ e))
  | Ok key => stored key (WriteTarZstdExcluding denied t absDir exclude)
  end.

Definition fetched (t : tree) (w : option Written) (runID name : string) (extract : list Header → extraction * res unit) : Cache.prog (extraction * res unit) :=
  let untouched := MkExtraction t w 0 in
  match ArtifactKey runID name with
  | Err e => Programs.Ret (untouched, Err ([Lit "download artifact: "] ++ e))
  | Ok key => Programs.Do (QGet key) (λ a, Programs.Ret (match a with
      | AObject c => let '(hs, ending) := unpack c in match extract hs with (s, Ok _) => (s, wrap [Lit "tar next: "] ending) | failed => failed end
      | a => (untouched, Err ([Lit "get artifact: "] ++ error_of a))
      end))
  end.
Definition DownloadIn (t : tree) (runID name : string) (root : path) (dest : string) (exclude : list string) : Cache.prog (extraction * res unit) :=
  fetched t None runID name (λ hs, ExtractTarZstdIn denied t hs root (if (dest =? "")%string then "." else dest) exclude true).
Definition DownloadWritten (t : tree) (runID name : string) (absDest : path) (exclude : list string) (w : option Written) : Cache.prog (extraction * res unit) :=
  fetched t w runID name (λ hs, ExtractTarZstdWritten denied t hs absDest exclude w).
End store.
