(* ===== verification/ArchiveFacts.v ===== *)
(** * Archives: what an extraction may touch, and the round trip *)

From S2P Require Import Prelude GoStrings GoPath VolumePlaces VolumePlacesFacts Archive.
From stdpp Require Import options.

(** ** Relative paths as lists of components *)

Lemma proper_no_slash l : Forall proper_seg l → Forall (λ w, has_byte "/" w = false) l.
Proof. intros H. eapply Forall_impl; [exact H|]. by intros w (_ & _ & _ & Hw). Qed.

Lemma proper_form r l : Forall proper_seg l → clean_form r l.
Proof. intros H. exists 0, l. split; [done|]. by split. Qed.

Lemma rel_IsAbs l : Forall proper_seg l → IsAbs (unsegs false l) = false.
Proof. intros H. by apply (unsegs_IsAbs false), proper_form. Qed.

Lemma rel_segments l : Forall proper_seg l → segments (unsegs false l) = l.
Proof. intros H. by apply segments_unsegs, proper_form. Qed.

Lemma fold_rel r l out : Forall proper_seg l → foldl (clean_step r) out (Split "/" (unsegs false l)) = reverse l ++ out.
Proof.
  intros H. destruct l as [|x l]; [done|]. cbn [unsegs]. rewrite Split_Join by (done || by apply proper_no_slash). by apply clean_fold_proper.
Qed.

Lemma unsegs_abs_Split l : Forall proper_seg l → foldl (clean_step true) [] (Split "/" (unsegs true l)) = reverse l.
Proof.
  intros H. destruct l as [|x l]; [done|]. cbn [unsegs]. change ("/" +:+ Join "/" (x :: l)) with ("" +:+ String "/" (Join "/" (x :: l))).
  rewrite Split_app_sep, foldl_app. cbn [foldl Split]. rewrite Split_Join by (done || by apply proper_no_slash). rewrite clean_fold_proper by done. by rewrite app_nil_r.
Qed.

(** Joining below a relative or an absolute directory appends. *)
Lemma join_rel r d q : Forall proper_seg d → Forall proper_seg q → path_Join [unsegs r d; unsegs false q] = unsegs r (d ++ q).
Proof.
  intros Hd Hq. assert (unsegs r d ≠ "") as Hne by by apply unsegs_nonempty, proper_form. cbn [path_Join]. apply String.eqb_neq in Hne as ->.
  rewrite Join_cons by done. cbn [Join]. set (s := unsegs r d +:+ "/" +:+ unsegs false q).
  assert (IsAbs s = r) as Ha.
  { transitivity (IsAbs (unsegs r d)); [|by apply unsegs_IsAbs, proper_form]. unfold s. apply eq_true_iff_eq. rewrite !IsAbs_first. assert (unsegs r d ≠ "") as Hne by by apply unsegs_nonempty, proper_form. clear s. by destruct (unsegs r d) as [|c s]. }
  unfold Clean. assert (s ≠ "") as Hs. { unfold s. by destruct (unsegs r d) as [|c w]. } apply String.eqb_neq in Hs as ->. rewrite Ha. f_equal. unfold clean_segs, s.
  change (unsegs r d +:+ "/" +:+ unsegs false q) with (unsegs r d +:+ String "/" (unsegs false q)). rewrite Split_app_sep, foldl_app.
  assert (foldl (clean_step r) [] (Split "/" (unsegs r d)) = reverse d) as ->.
  { destruct r; [by apply unsegs_abs_Split|]. rewrite fold_rel by done. by rewrite app_nil_r. }
  rewrite fold_rel by done. by rewrite reverse_app, !reverse_involutive.
Qed.

Lemma rel_inside l : Forall proper_seg l → (unsegs false l =? "..")%string = false ∧ HasPrefix (unsegs false l) "../" = false.
Proof.
  intros H. destruct l as [|w ws]; [done|]. apply Forall_cons in H as [Hw Hws]. destruct (proper_not_up w ws Hw Hws) as [H1 H2]. by apply String.eqb_neq in H1.
Qed.

Lemma Rel_unsegs b q : Forall proper_seg b → Forall proper_seg q → Rel (unsegs false b) (unsegs false (b ++ q)) = Some (unsegs false q).
Proof.
  intros Hb Hq. assert (Forall proper_seg (b ++ q)) as Hbq by by apply Forall_app. unfold Rel. rewrite !Clean_unsegs by by apply proper_form.
  destruct (String.eqb_spec (unsegs false b) (unsegs false (b ++ q))) as [E|Hne].
  - apply (f_equal segments) in E. rewrite !rel_segments in E by done. apply (f_equal length) in E. rewrite length_app in E. by destruct q; [|cbn in E; lia].
  - rewrite !rel_IsAbs, !rel_segments by done. cbn [eqb negb]. rewrite strip_common_app. destruct q; [by rewrite app_nil_r in Hne|done].
Qed.

Lemma entry_name_below b q : Forall proper_seg b → Forall proper_seg q → entry_name b (b ++ q) = unsegs false q.
Proof. intros. unfold entry_name. by rewrite Rel_unsegs. Qed.

(** What passes the check of an entry's name is a path below the root. *)
Lemma checked_rel rel : ((rel =? "..")%string || HasPrefix rel "../" || IsAbs rel) = false → Clean rel = rel → Forall proper_seg (segments rel).
Proof.
  intros H Hc. apply orb_false_iff in H as [H Ha]. apply orb_false_iff in H as [H1 H2]. apply String.eqb_neq in H1. rewrite <- Hc in H1, H2 |- *. rewrite <- Clean_IsAbs in Ha. rewrite Clean_IsAbs in Ha.
  by apply Clean_relative_contained.
Qed.

Lemma path_Join_clean l : path_Join l = "" ∨ Clean (path_Join l) = path_Join l.
Proof. induction l as [|x l IH]; [by left|]. cbn [path_Join]. destruct (x =? "")%string; [done|]. right. apply Clean_idemp. Qed.

Lemma RelInRoot_proper root p rel : Forall proper_seg root → RelInRoot root p = Ok rel → Forall proper_seg rel.
Proof.
  intros Hr. unfold RelInRoot. set (p' := if IsAbs p then p else path_Join [unsegs true root; p]).
  assert (IsAbs p' = true) as Ha.
  { unfold p'. destruct (IsAbs p) eqn:E; [done|]. cbn [path_Join]. destruct (String.eqb_spec (unsegs true root) "") as [E1|]; [by apply unsegs_nonempty in E1; [|apply proper_form]|].
    rewrite Clean_IsAbs, Join_cons by done. cbn [unsegs]. by apply HasPrefix_spec; eexists; rewrite <- !str_app_assoc. }
  destruct (place_form (Clean p') (place_Clean _ Ha)) as (tc & Ep & _ & Hs & Ht). rewrite Ep. unfold Rel. rewrite !Clean_unsegs by by apply proper_form. rewrite !unsegs_IsAbs by by apply proper_form.
  destruct (_ =? _)%string; [by intros [= <-]|]. cbn [eqb negb]. rewrite !segments_unsegs by by apply proper_form. pose proof (strip_common_spec root tc) as Hc. destruct (strip_common root tc) as [b t].
  destruct Hc as (k & -> & -> & _). apply Forall_app in Ht as [_ Ht]. destruct b as [|x b].
  - cbn [replicate length app]. destruct t as [|y t]; [by intros [= <-]|]. destruct (rel_inside (y :: t) Ht) as [E1 E2]. pose proof (rel_segments (y :: t) Ht) as E3.
    cbn [unsegs] in E1, E2, E3. rewrite E1, E2, E3. by intros [= <-].
  - assert (x ≠ "..") as Hx. { apply Forall_app in Hr as [_ Hr]. apply Forall_cons in Hr as [(_ & _ & Hx & _) _]. done. }
    assert (match x :: b with ".." :: _ => None | _ => Some (Join "/" (replicate (length (x :: b)) ".." ++ t)) end
            = Some (Join "/" (".." :: replicate (length b) ".." ++ t))) as ->. { clear -Hx. by repeat case_match; simplify_eq. }
    destruct (dotdot_first (replicate (length b) ".." ++ t)) as [E|E]; rewrite E; [done|]. by rewrite orb_true_r.
Qed.

(** ** Resolution *)

Lemma resolve_eq t v follow links done todo :
  resolve t v follow links done todo =
  match todo with
  | [] => Found done
  | c :: todo =>
      if (c =? "")%string || (c =? ".")%string then resolve t v follow links done todo
      else if (c =? "..")%string then match done with [] => if vw_confined v then No Escapes else resolve t v follow links [] todo | _ => resolve t v follow links (removelast done) todo end
      else match t !! (vw_base v ++ done ++ [c]) with
           | Some (Link d) =>
               if bool_decide (todo = []) && negb follow then Found (done ++ [c])
               else match links with
                    | 0 => No Loops
                    | S links => if IsAbs d then if vw_confined v then No Escapes else resolve t v follow links [] (Split "/" d ++ todo)
                                 else resolve t v follow links done (Split "/" d ++ todo)
                    end
           | Some Directory => resolve t v follow links (done ++ [c]) todo
           | Some _ => if bool_decide (todo = []) then Found (done ++ [c]) else No NotDir
           | None => if bool_decide (todo = []) then Found (done ++ [c]) else No NotExist
           end
  end.
Proof. destruct links, todo; reflexivity. Qed.

Lemma mkdirs_eq (denied_ : path → bool) t v full links done todo :
  mkdirs denied_ t v full links done todo =
  match todo with
  | [] => (t, Found tt)
  | c :: todo =>
      if (c =? "")%string || (c =? ".")%string then mkdirs denied_ t v full links done todo
      else if (c =? "..")%string then match done with [] => (t, No Escapes) | _ => mkdirs denied_ t v full links (removelast done) todo end
      else match t !! (vw_base v ++ done ++ [c]) with
           | Some Directory => mkdirs denied_ t v full links (done ++ [c]) todo
           | Some (Link d) =>
               match todo with
               | [] => match Stat t v full with Found Directory => (t, Found tt) | _ => (t, No NotDir) end
               | _ => match links with 0 => (t, No Loops) | S links => if IsAbs d then (t, No Escapes) else mkdirs denied_ t v full links done (Split "/" d ++ todo) end
               end
           | Some _ => (t, No NotDir)
           | None => if denied_ (vw_base v ++ done ++ [c]) then (t, No Denied) else mkdirs denied_ (<[vw_base v ++ done ++ [c] := Directory]> t) v full links (done ++ [c]) todo
           end
  end.
Proof. destruct links, todo; reflexivity. Qed.

Lemma proper_tests c : proper_seg c → (c =? "")%string = false ∧ (c =? ".")%string = false ∧ (c =? "..")%string = false.
Proof. intros (H1 & H2 & H3 & _). by apply String.eqb_neq in H1, H2, H3. Qed.

(** One component that is a name. *)
Ltac name_step Hc := let H1 := fresh in let H2 := fresh in let H3 := fresh in
  destruct (proper_tests _ Hc) as (H1 & H2 & H3); rewrite ?H1, ?H2, ?H3; cbn [orb]; clear H1 H2 H3.

Definition linkless (t : tree) (base : path) : Prop := ∀ r d, t !! (base ++ r) ≠ Some (Link d).

Lemma resolve_linkless t v follow links done todo q :
  linkless t (vw_base v) → Forall proper_seg todo → resolve t v follow links done todo = Found q → q = done ++ todo.
Proof.
  intros Hl H. revert done. induction H as [|c todo Hc H IH]; intros done; rewrite resolve_eq; [intros [= <-]; by rewrite app_nil_r|].
  name_step Hc. assert (∀ n, (if bool_decide (todo = []) then Found (done ++ [c]) else No n) = Found q → q = done ++ c :: todo) as Hlast.
  { intros n. case_bool_decide as E; [|done]. rewrite E. by intros [= <-]. }
  destruct (t !! (vw_base v ++ done ++ [c])) as [[]|] eqn:E; try apply Hlast; [|by destruct (Hl _ _ E)].
  intros Hr. apply IH in Hr. by rewrite <- app_assoc in Hr.
Qed.

Lemma place_of_linkless t v follow p q : linkless t (vw_base v) → Forall proper_seg p → place_of t v follow p = Found q → q = vw_base v ++ p.
Proof. intros Hl Hp. unfold place_of. destruct (resolve _ _ _ _ _ _) eqn:E; [|done]. intros [= <-]. by rewrite (resolve_linkless _ _ _ _ _ _ _ Hl Hp E). Qed.

(** ** What changes

    Directories are created, files are created or rewritten, and only where [P]. *)
Definition touched (P : path → Prop) (t t' : tree) : Prop :=
  ∀ q, t' !! q = t !! q
    ∨ P q ∧ (t !! q = None ∧ t' !! q = Some Directory
             ∨ (∃ c, t' !! q = Some (File c)) ∧ (t !! q = None ∨ ∃ c, t !! q = Some (File c))).

Lemma touched_refl P t : touched P t t.
Proof. intros q. by left. Qed.

Lemma touched_trans P t1 t2 t3 : touched P t1 t2 → touched P t2 t3 → touched P t1 t3.
Proof.
  intros H1 H2 q. destruct (H1 q) as [E1|[HP1 E1]], (H2 q) as [E2|[HP2 E2]].
  - left. congruence.
  - right. split; [done|]. by rewrite <- E1.
  - right. split; [done|]. by rewrite E2.
  - right. split; [done|]. naive_solver congruence.
Qed.

Lemma touched_impl (P Q : path → Prop) t t' : (∀ q, P q → Q q) → touched P t t' → touched Q t t'.
Proof. intros HPQ H q. destruct (H q) as [?|[??]]; [by left|right]. split; [by apply HPQ|done]. Qed.

Lemma touched_insert (P : path → Prop) t p n :
  P p → t !! p = None ∧ n = Directory ∨ (∃ c, n = File c) ∧ (t !! p = None ∨ ∃ c, t !! p = Some (File c)) → touched P t (<[p := n]> t).
Proof. intros HP Hn q. destruct (decide (p = q)) as [<-|]; [|rewrite lookup_insert_ne by done; by left]. right. rewrite lookup_insert_eq. naive_solver. Qed.

Lemma touched_linkless P t t' base : touched P t t' → linkless t base → linkless t' base.
Proof. intros H Hl r d E. destruct (H (base ++ r)) as [E'|[_ [[_ E']|[[c E'] _]]]]; rewrite E in E'; [by apply (Hl r d)|done..]. Qed.

Section touching.
Context (denied : path → bool).

Lemma mkdirs_inside t v full links done todo : touched (λ q, vw_base v `prefix_of` q) t (mkdirs denied t v full links done todo).1.
Proof.
  revert t done todo. induction links as [|links IHl]; intros t done todo; revert t done; induction todo as [|c todo IH]; intros t done; rewrite mkdirs_eq; try apply touched_refl.
  all: destruct (_ || _); [apply IH|]; destruct (c =? "..")%string; [destruct done; [apply touched_refl|apply IH]|].
  all: destruct (t !! _) as [[]|] eqn:E; try apply touched_refl; try apply IH.
  all: try (destruct (denied _); [apply touched_refl|eapply touched_trans; [|apply IH]; apply touched_insert; [by apply prefix_app_r|by left]]).
  all: destruct todo; try apply touched_refl; try (by repeat case_match; apply touched_refl).
  all: destruct (IsAbs dest); [apply touched_refl|apply IHl].
Qed.

Lemma mkdirs_linkless t v full links done todo :
  linkless t (vw_base v) → Forall proper_seg todo → touched (λ q, ∃ p, p ≠ [] ∧ p `prefix_of` todo ∧ q = vw_base v ++ done ++ p) t (mkdirs denied t v full links done todo).1.
Proof.
  intros Hl H. revert t done Hl. induction H as [|c todo Hc H IH]; intros t done Hl; rewrite mkdirs_eq; [apply touched_refl|]. name_step Hc.
  assert (∀ t t', touched (λ q, ∃ p, p ≠ [] ∧ p `prefix_of` todo ∧ q = vw_base v ++ (done ++ [c]) ++ p) t t' → touched (λ q, ∃ p, p ≠ [] ∧ p `prefix_of` c :: todo ∧ q = vw_base v ++ done ++ p) t t') as Hmono.
  { intros t1 t2. apply touched_impl. intros q (p & _ & Hp & ->). exists (c :: p). split; [done|]. split; [by apply prefix_cons|]. by rewrite <- (app_assoc done). }
  destruct (t !! _) as [[]|] eqn:E; try apply touched_refl; [by apply Hmono, IH|by destruct (Hl _ _ E)|]. destruct (denied _); [apply touched_refl|].
  assert (touched (λ q, ∃ p, p ≠ [] ∧ p `prefix_of` c :: todo ∧ q = vw_base v ++ done ++ p) t (<[vw_base v ++ done ++ [c] := Directory]> t)) as Ht.
  { apply touched_insert; [|by left]. exists [c]. split; [done|]. split; [by apply prefix_cons, prefix_nil|done]. }
  eapply touched_trans; [exact Ht|]. apply Hmono, IH. by eapply touched_linkless.
Qed.
End touching.

Lemma parent_prefix (p : path) : ∃ x, p = parent p ++ x.
Proof. destruct p as [|c p _] using rev_ind; [by exists []|]. exists [c]. unfold parent. by rewrite removelast_last. Qed.

Section extracting.
Context (denied : path → bool) (v : view) (absRoot destRel : path) (skip : list path) (refuseLinks : bool).
Context (P : path → Prop) (I : tree → Prop).
(** What an entry may name, and where that is. *)
Definition named (rel : path) : Prop := Forall proper_seg rel ∧ isUnderAny (absRoot ++ rel) skip = false.
Hypothesis stays : ∀ t t', touched P t t' → I t → I t'.
Hypothesis dirs : ∀ t rel x, I t → named (rel ++ x) → touched P t (Root_MkdirAll denied t v rel).1.
Hypothesis files : ∀ t rel q, I t → named rel → place_of t v true rel = Found q → P q.
#[local] Set Default Proof Using "Type*".

Lemma mkdirAllIn_touched t rel x w : I t → named (rel ++ x) → touched P t (mkdirAllIn denied t v absRoot rel w).1.1.
Proof.
  intros HI Hn. unfold mkdirAllIn. destruct (match w with None => _ | Some _ => _ end); [|apply touched_refl]. pose proof (dirs t rel x HI Hn) as H. destruct (Root_MkdirAll _ _ _ _) as [t' [[]|e]]; exact H.
Qed.

Lemma WriteFile_touched t rel body : I t → named rel → touched P t (WriteFile denied t v rel body).1.
Proof.
  intros HI Hn. unfold WriteFile. destruct (place_of t v true rel) as [q|e] eqn:E; [|apply touched_refl]. destruct (denied q); [apply touched_refl|].
  destruct (t !! q) as [[]|] eqn:Eq; try apply touched_refl; (apply touched_insert; [by eapply files|right; split; eauto]).
Qed.

Lemma extract_file_touched rel body s : I (ex_tree s) → named rel → touched P (ex_tree s) (ex_tree (extract_file denied v absRoot rel body s).1).
Proof.
  intros HI Hn. unfold extract_file. destruct (parent_prefix rel) as [x Hx]. assert (named (parent rel ++ x)) as Hp by by rewrite <- Hx.
  pose proof (mkdirAllIn_touched (ex_tree s) (parent rel) x (ex_written s) HI Hp) as H1. destruct (mkdirAllIn _ _ _ _ _ _) as [[t w] [[]|e]]; cbn [fst] in H1; [|exact H1].
  pose proof (WriteFile_touched t rel body (stays _ _ H1 HI) Hn) as H2. destruct (WriteFile _ _ _ _ _) as [t' [[]|e]]; cbn [fst] in H2; exact (touched_trans _ _ _ _ H1 H2).
Qed.

Lemma extract_entry_touched hdr s : I (ex_tree s) → touched P (ex_tree s) (ex_tree (extract_entry denied v absRoot destRel skip refuseLinks hdr s).1).
Proof.
  intros HI. unfold extract_entry. set (rel := path_Join _). destruct (_ || _ || _) eqn:E; [apply touched_refl|]. destruct (isUnderAny _ _) eqn:Eu; [apply touched_refl|].
  assert (named (segments rel)) as Hn.
  { split; [|done]. destruct (path_Join_clean [unsegs false destRel; hd_Name hdr]) as [H|H]; fold rel in H; [rewrite H; by constructor|by apply checked_rel]. }
  destruct (hd_Typeflag hdr); try (by apply extract_file_touched); try (destruct refuseLinks; apply touched_refl).
  pose proof (mkdirAllIn_touched (ex_tree s) (segments rel) [] (ex_written s) HI) as H. rewrite app_nil_r in H. specialize (H Hn). destruct (mkdirAllIn _ _ _ _ _ _) as [[t w] [[]|e]]; exact H.
Qed.

Lemma extract_all_touched hdrs s : I (ex_tree s) → touched P (ex_tree s) (ex_tree (extract_all denied v absRoot destRel skip refuseLinks hdrs s).1).
Proof.
  revert s. induction hdrs as [|hdr hdrs IH]; intros s HI; [apply touched_refl|]. cbn [extract_all].
  pose proof (extract_entry_touched hdr s HI) as H. destruct (extract_entry _ _ _ _ _ _ _ _) as [s' [[]|e]]; cbn [fst] in H; [|exact H].
  eapply touched_trans; [exact H|]. apply IH. by eapply stays.
Qed.
End extracting.

Lemma extract_all_inside denied base absRoot destRel skip refuseLinks hdrs s :
  touched (λ q, base `prefix_of` q) (ex_tree s) (ex_tree (extract_all denied (root_view base) absRoot destRel skip refuseLinks hdrs s).1).
Proof.
  apply extract_all_touched with (I := λ _, True); try done.
  - intros t rel x _ _. apply mkdirs_inside.
  - intros t rel q _ _. unfold place_of. destruct (resolve _ _ _ _ _ _); [|done]. intros [= <-]. by apply prefix_app_r.
Qed.

Lemma excluded_prefix p x skip : p ≠ [] → isUnderAny (p ++ x) skip = false → isUnderAny p skip = false.
Proof.
  intros Hp H. apply existsb_false_elem. intros e He. apply bool_decide_eq_false. intros Hpe. unfold isUnderAny in H. rewrite existsb_false_elem in H. specialize (H e He). apply bool_decide_eq_false in H. apply H.
  right. destruct Hpe as [<-|[He' Hpre]]; (split; [done|]); by apply prefix_app_r.
Qed.

Lemma extract_all_excluded denied base absRoot destRel skip refuseLinks hdrs s :
  linkless (ex_tree s) base →
  touched (λ q, ∃ rel, q = base ++ rel ∧ isUnderAny (absRoot ++ rel) skip = false) (ex_tree s) (ex_tree (extract_all denied (root_view base) absRoot destRel skip refuseLinks hdrs s).1).
Proof.
  apply extract_all_touched with (I := λ t, linkless t base).
  - intros t t'. apply touched_linkless.
  - intros t rel x Hl [Hp Hu]. apply Forall_app in Hp as [Hp _]. eapply touched_impl; [|by apply mkdirs_linkless]. intros q (p & Hne & [y Hy] & ->). exists p. split; [done|].
    rewrite Hy in Hu. rewrite !app_assoc in Hu. rewrite <- (app_assoc _ y) in Hu. apply excluded_prefix in Hu; [done|]. by destruct absRoot, p.
  - intros t rel q Hl [Hp Hu] Hq. exists rel. split; [|done]. by eapply (place_of_linkless _ (root_view base)).
Qed.

(** C31: whatever an archive holds and wherever links lead, extracting it on the
    confined path creates directories and creates or rewrites files below the root and
    does nothing else; where the root has no links, nothing at or below an excluded path
    changes. *)
Theorem extraction_confined denied t hdrs root dest exclude refuseLinks w base
    (Hroot : OpenRoot t root = Ok base) :
  let t' := ex_tree (ExtractTarZstdInWritten denied t hdrs root dest exclude refuseLinks w).1 in
  touched (λ q, base `prefix_of` q) t t'
  ∧ (linkless t base → ∀ rel, t' !! (base ++ rel) ≠ t !! (base ++ rel) → isUnderAny (root ++ rel) (excluded_paths exclude) = false).
Proof.
  cbn zeta. unfold ExtractTarZstdInWritten. rewrite Hroot. destruct (RelInRoot root dest) as [destRel|e]; [|split; [apply touched_refl|done]].
  split; [apply (extract_all_inside denied base root destRel _ refuseLinks hdrs (MkExtraction t w 0))|].
  intros Hl rel Hrel. destruct (extract_all_excluded denied base root destRel (excluded_paths exclude) refuseLinks hdrs (MkExtraction t w 0) Hl (base ++ rel)) as [E|[(rel' & E & H) _]]; [done|].
  by apply app_inv_head in E as ->.
Qed.

Lemma extraction_confined_witness :
  let t := list_to_map [ ([], Directory); (["ws"], Directory); (["ws"; "in"], Directory) ] in
  let t' := ex_tree (ExtractTarZstdInWritten (λ _, false) t [MkHeader "a/b" TypeReg "" "1"; MkHeader "vol/c" TypeReg "" "2"; MkHeader "../../etc" TypeReg "" "3"] ["ws"] "in" ["/ws/in/vol"] true None).1 in
  (touched (λ q, ["ws"] `prefix_of` q) t t' ∧ (linkless t ["ws"] → ∀ rel, t' !! (["ws"] ++ rel) ≠ t !! (["ws"] ++ rel) → isUnderAny (["ws"] ++ rel) (excluded_paths ["/ws/in/vol"]) = false))
  ∧ t' !! ["ws"; "in"; "a"; "b"] = Some (File "1").
Proof.
  cbn zeta. split; [|by vm_compute]. apply (extraction_confined (λ _, false) (list_to_map [ ([], Directory); (["ws"], Directory); (["ws"; "in"], Directory) ])). vm_compute. reflexivity.
Defined.

(** * Archives: what is extracted is what was archived *)

(** ** Trees *)

(** What exists lies in directories, under a name. *)
Definition tree_wf (t : tree) : Prop := ∀ p c n, t !! (p ++ [c]) = Some n → t !! p = Some Directory ∧ proper_seg c.

Lemma wf_prefix t p x n : tree_wf t → t !! (p ++ x) = Some n → x ≠ [] → t !! p = Some Directory.
Proof.
  intros Hwf. revert n. induction x as [|c x IH] using rev_ind; intros n H Hx; [done|]. rewrite app_assoc in H. apply Hwf in H as [H _].
  destruct x as [|c' x]; [by rewrite app_nil_r in H|]. by eapply IH.
Qed.

Lemma wf_proper t p x n : tree_wf t → t !! (p ++ x) = Some n → Forall proper_seg x.
Proof.
  intros Hwf. revert n. induction x as [|c x IH] using rev_ind; intros n H; [done|]. rewrite app_assoc in H. apply Hwf in H as [H Hc]. apply Forall_app. split; [by eapply IH|by apply Forall_singleton].
Qed.

Lemma depth_lookup t p n : t !! p = Some n → length p < depth t.
Proof.
  intros H. unfold depth. apply Nat.lt_succ_r, max_list_elem_of_le. apply list_elem_of_fmap. exists p. split; [done|]. apply list_elem_of_fmap. exists (p, n). split; [done|]. by apply elem_of_map_to_list.
Qed.

Lemma below_spec dir p r : below dir p = Some r ↔ p = dir ++ r.
Proof.
  revert p. induction dir as [|d dir IH]; intros p; cbn [below]; [split; [by intros [= ->]|by intros ->]|]. destruct p as [|c p]; [done|].
  destruct (String.eqb_spec d c) as [->|Hne]; [rewrite IH; split; [by intros ->|by intros [= ->]]|]. split; [done|]. by intros [= ->].
Qed.

Lemma ReadDir_spec denied t dir : denied dir = false → ∃ names, ReadDir denied t dir = Found names ∧ ∀ c, c ∈ names ↔ is_Some (t !! (dir ++ [c])).
Proof.
  intros Hd. unfold ReadDir. rewrite Hd. eexists. split; [done|]. intros c. rewrite elem_of_SortStrings, list_elem_of_omap. split.
  - intros (p & Hp & Hn). unfold name_in in Hn. destruct (below dir p) as [[|x [|]]|] eqn:E; try done. injection Hn as ->. apply below_spec in E as ->.
    apply list_elem_of_fmap in Hp as ([p n] & -> & Hp). apply elem_of_map_to_list in Hp. by exists n.
  - intros [n Hn]. exists (dir ++ [c]). split.
    + apply list_elem_of_fmap. exists (dir ++ [c], n). split; [done|]. by apply elem_of_map_to_list.
    + unfold name_in. assert (below dir (dir ++ [c]) = Some [c]) as -> by by apply below_spec. done.
Qed.

(** ** Resolving below a place *)

Lemma resolve_app t v links f f' done a b q :
  resolve t v f links done a = Found q → t !! (vw_base v ++ q) = Some Directory → b ≠ [] →
  ∃ links', resolve t v f' links done (a ++ b) = resolve t v f' links' q b.
Proof.
  intros Hr Hq Hb. revert done a Hr. induction links as [|links IHl]; intros done a; revert done; induction a as [|c a IH]; intros done; rewrite resolve_eq.
  1,3: intros [= ->]; by eexists.
  all: rewrite <- app_comm_cons, (resolve_eq t v f'); assert (bool_decide (a ++ b = []) = false) as -> by (apply bool_decide_eq_false; by destruct a, b).
  all: destruct (_ || _); [by apply IH|]; destruct (c =? "..")%string; [destruct done; [destruct (vw_confined v); [done|by apply IH]|by apply IH]|].
  all: destruct (t !! (_ ++ _ ++ [c])) as [[]|] eqn:E; try (by apply IH).
  all: try (destruct (bool_decide (a = [])); [intros [= <-]; congruence|done]).
  all: destruct (bool_decide (a = []) && negb f) eqn:El; [intros [= <-]; congruence|]; cbn [andb].
  - done.
  - rewrite (app_assoc (Split "/" dest)). destruct (IsAbs dest); [destruct (vw_confined v); [done|]|]; by apply IHl.
Qed.

(** Names below a place that are directories but for the last. *)
Lemma resolve_chain t v f links done todo :
  Forall proper_seg todo → (∀ p x, todo = p ++ x → p ≠ [] → x ≠ [] → t !! (vw_base v ++ done ++ p) = Some Directory) →
  (f = true → ∀ d, t !! (vw_base v ++ done ++ todo) ≠ Some (Link d)) →
  resolve t v f links done todo = Found (done ++ todo).
Proof.
  intros H. revert done. induction H as [|c todo Hc H IH]; intros done Hdirs Hl; rewrite resolve_eq; [by rewrite app_nil_r|]. name_step Hc.
  destruct todo as [|c' todo].
  - destruct (t !! _) as [[]|] eqn:E; cbn; try done; [by rewrite resolve_eq|]. destruct f; [|done]. by destruct (Hl eq_refl dest).
  - rewrite (Hdirs [c] (c' :: todo)) by done. replace (done ++ c :: c' :: todo) with ((done ++ [c]) ++ c' :: todo) by by rewrite <- app_assoc. apply IH.
    + intros p x E _ Hx. rewrite <- (app_assoc done). apply (Hdirs (c :: p) x); [by rewrite E|done|done].
    + intros Hf d. rewrite <- (app_assoc done). by apply Hl.
Qed.

Lemma resolve_nofollow t v links done a q :
  resolve t v false links done a = Found q → (∀ d, t !! (vw_base v ++ q) ≠ Some (Link d)) → resolve t v true links done a = Found q.
Proof.
  intros Hr Hq. revert done a Hr. induction links as [|links IHl]; intros done a; revert done; induction a as [|c a IH]; intros done; rewrite (resolve_eq t v false), (resolve_eq t v true); try (by intros ?).
  all: destruct (_ || _); [by apply IH|]; destruct (c =? "..")%string; [destruct done; [destruct (vw_confined v); [done|by apply IH]|by apply IH]|].
  all: destruct (t !! (_ ++ _ ++ [c])) as [[]|] eqn:E; try (by apply IH); try done.
  all: destruct (bool_decide (a = [])) eqn:El; cbn [andb negb]; [intros [= <-]; by destruct (Hq dest)|]; rewrite ?andb_false_r; try done.
  destruct (IsAbs dest); [destruct (vw_confined v); [done|]|]; by apply IHl.
Qed.

(** ** The entries of an archive *)

Lemma Forall2_elem_l {A B} (R : A → B → Prop) l k x : Forall2 R l k → x ∈ l → ∃ y, y ∈ k ∧ R x y.
Proof. intros H [i Hi]%list_elem_of_lookup. destruct (Forall2_lookup_l _ _ _ _ _ H Hi) as (y & Hy & HR). exists y. split; [by eapply list_elem_of_lookup_2|done]. Qed.

Lemma Forall2_elem_r {A B} (R : A → B → Prop) l k y : Forall2 R l k → y ∈ k → ∃ x, x ∈ l ∧ R x y.
Proof. intros H%Forall2_flip. apply (Forall2_elem_l _ _ _ _ H). Qed.

Definition header (q : path) (n : node) : Header :=
  match n with
  | File c => MkHeader (unsegs false q) TypeReg "" c
  | Directory => MkHeader (unsegs false q) TypeDir "" ""
  | Link d => MkHeader (unsegs false q) TypeSymlink d ""
  | Special | Socket => MkHeader (unsegs false q) TypeOther "" ""
  end.

(** At or below an excluded path; [top] is the excluded paths' form of the archived one. *)
Definition pruned (skip : list path) (top q : path) : Prop := ∃ p, p `prefix_of` q ∧ top ++ p ∈ skip.

Section walking.
Context (denied : path → bool) (t : tree) (v : view) (absRoot rel q0 : path) (skip : list path).
Let src := vw_base v ++ q0.
Hypothesis denied_none : ∀ p, denied p = false.
Hypothesis wf : tree_wf t.
Hypothesis proper : Forall proper_seg rel.
Hypothesis place : resolve t v false (vw_links v) [] rel = Found q0.
Hypothesis directory : t !! src = Some Directory.
Hypothesis no_sockets : ∀ q, t !! (src ++ q) = Some Socket → pruned skip (absRoot ++ rel) q.
#[local] Set Default Proof Using "denied_none wf proper place directory no_sockets".

Lemma place_below q f n : t !! (src ++ q) = Some n → (f = true → ∀ d, n ≠ Link d) → place_of t v f (rel ++ q) = Found (src ++ q).
Proof.
  intros Hn Hf. unfold place_of. assert (resolve t v f (vw_links v) [] (rel ++ q) = Found (q0 ++ q)) as ->; [|unfold src; by rewrite <- app_assoc].
  destruct (decide (q = [])) as [->|Hq].
  - rewrite !app_nil_r. destruct f; [|done]. apply resolve_nofollow; [done|]. fold src. intros d E. congruence.
  - destruct (resolve_app t v (vw_links v) false f [] rel q q0 place directory Hq) as [L ->]. apply resolve_chain.
    + by eapply wf_proper.
    + intros p x -> _ Hx. rewrite app_assoc in Hn |- *. by eapply wf_prefix.
    + intros Ht d. rewrite app_assoc. fold src. rewrite Hn. intros [= ->]. by apply (Hf Ht d).
Qed.

Lemma Lstat_below q n : t !! (src ++ q) = Some n → Lstat t v (rel ++ q) = Found n.
Proof. intros Hn. unfold Lstat, at_place. rewrite (place_below q false n Hn) by done. by rewrite Hn. Qed.

Lemma pruned_nil q : pruned skip (absRoot ++ rel ++ q) [] ↔ absRoot ++ rel ++ q ∈ skip.
Proof using. unfold pruned. split; [intros (p & ->%prefix_nil_inv & H); by rewrite app_nil_r in H|]. intros H. exists []. split; [done|]. by rewrite app_nil_r. Qed.

Lemma pruned_cons q c r : pruned skip (absRoot ++ rel ++ q) (c :: r) ↔ absRoot ++ rel ++ q ∈ skip ∨ pruned skip (absRoot ++ rel ++ q ++ [c]) r.
Proof using.
  unfold pruned. split.
  - intros (p & Hp & H). destruct p as [|c' p]; [left; by rewrite app_nil_r in H|]. right. assert (c' = c) as -> by by eapply prefix_cons_inv_1. apply prefix_cons_inv_2 in Hp. exists p. split; [done|].
    by rewrite <- !app_assoc in *.
  - intros [H|(p & Hp & H)]; [exists []; split; [apply prefix_nil|by rewrite app_nil_r]|]. exists (c :: p). split; [by apply prefix_cons|]. by rewrite <- !app_assoc in *.
Qed.

Definition entries_at (q : path) (h : Header) : Prop :=
  ∃ r n, t !! (src ++ q ++ r) = Some n ∧ ¬ pruned skip (absRoot ++ rel ++ q) r ∧ h = header (q ++ r) n.

Lemma walk_entries fuel q n :
  t !! (src ++ q) = Some n → (∀ r, pruned skip (absRoot ++ rel) (q ++ r) → pruned skip (absRoot ++ rel ++ q) r) → depth t ≤ fuel + length (src ++ q) →
  ∃ hs, walk denied fuel t v absRoot skip rel (rel ++ q) = Ok hs ∧ ∀ h, h ∈ hs ↔ entries_at q h.
Proof.
  revert q n. induction fuel as [|fuel IH]; intros q n Hn Hpr Hfuel; [apply depth_lookup in Hn; cbn in Hfuel; lia|]. cbn [walk].
  case_decide as Hskip.
  { exists []. split; [done|]. intros h. split; [by intros ?%not_elem_of_nil|]. intros (r & n' & _ & Hp & _). destruct Hp. exists []. split; [apply prefix_nil|by rewrite app_nil_r]. }
  rewrite (Lstat_below q n Hn). pose proof (wf_proper t src q n wf Hn) as Hq.
  assert (n ≠ Directory → ∀ h, h ∈ [header q n] ↔ entries_at q h) as Hleaf.
  { intros Hnd h. rewrite list_elem_of_singleton. split.
    - intros ->. exists [], n. rewrite !app_nil_r. split; [done|]. split; [by rewrite pruned_nil|done].
    - intros (r & n' & Hr & _ & ->). destruct (decide (r = [])) as [->|Hne]; [rewrite app_nil_r in *; congruence|]. rewrite app_assoc in Hr. apply wf_prefix in Hr; [|done|done]. congruence. }
  assert (entry_name rel (rel ++ q) = unsegs false q) as Hname by by apply entry_name_below.
  destruct n as [c| |d| |]; cbn [FileInfoHeader mbind res_bind].
  - unfold ReadFile. rewrite (place_below q true _ Hn) by done. cbn [at_place]. rewrite Hn, denied_none. cbn [hd_Name]. rewrite Hname. eexists. split; [done|]. by apply Hleaf.
  - rewrite (place_below q true _ Hn) by done. destruct (ReadDir_spec denied t (src ++ q) (denied_none _)) as (names & -> & Hnames).
    assert (∀ c, c ∈ names → ∃ hs, walk denied fuel t v absRoot skip rel ((rel ++ q) ++ [c]) = Ok hs ∧ ∀ h, h ∈ hs ↔ entries_at (q ++ [c]) h) as Hsub.
    { intros c Hc. apply Hnames in Hc as [n Hc]. rewrite <- app_assoc in Hc |- *. apply (IH _ n Hc).
      - intros r Hr. rewrite <- app_assoc in Hr. apply Hpr in Hr. by apply pruned_cons in Hr as [Hr|Hr].
      - rewrite !length_app in *. cbn. lia. }
    destruct (map_res (λ name, walk denied fuel t v absRoot skip rel ((rel ++ q) ++ [name])) names) as [hss|e] eqn:Em.
    2: { exfalso. assert (is_ok (map_res (λ name, walk denied fuel t v absRoot skip rel ((rel ++ q) ++ [name])) names) = true) as Hok; [|by rewrite Em in Hok].
         apply map_res_is_ok, Forall_forall. intros c Hc. destruct (Hsub c Hc) as (hs & -> & _). done. }
    cbn [mbind res_bind]. eexists. split; [done|]. apply map_res_ok in Em. rewrite Hname. intros h. rewrite elem_of_cons. split.
    + intros [->|Hh].
      * exists [], Directory. rewrite !app_nil_r. split; [done|]. split; [by rewrite pruned_nil|done].
      * apply list_elem_of_join in Hh as (hs & Hh & Hhs). destruct (Forall2_elem_r _ _ _ hs Em Hhs) as (c & Hc & Hw). destruct (Hsub c Hc) as (hs' & Hw' & Hs'). rewrite Hw in Hw'. injection Hw' as <-.
        apply Hs' in Hh as (r & n & Hr & Hp & ->). exists (c :: r), n. rewrite <- !app_assoc in *. split; [done|]. split; [|done]. rewrite pruned_cons. by intros [?|?].
    + intros (r & n & Hr & Hp & ->). destruct r as [|c r]; [left; rewrite !app_nil_r in *; replace n with Directory by congruence; done|]. right.
      assert (c ∈ names) as Hc. { apply Hnames. destruct r as [|c' r]; [by rewrite <- app_assoc; exists n|]. exists Directory. eapply (wf_prefix t _ (c' :: r)); [done| |done]. rewrite <- !app_assoc. exact Hr. }
      destruct (Hsub c Hc) as (hs & Hw & Hs). destruct (Forall2_elem_l _ _ _ c Em Hc) as (hs' & Hhs & Hw'). rewrite Hw in Hw'. injection Hw' as <-.
      apply list_elem_of_join. exists hs. split; [|done]. apply Hs. exists r, n. rewrite <- !app_assoc. split; [done|]. split; [|done]. intros Hp'. apply Hp, pruned_cons. by right.
  - cbn [hd_Name]. rewrite Hname. eexists. split; [done|]. by apply Hleaf.
  - rewrite Hname. eexists. split; [done|]. by apply Hleaf.
  - exfalso. apply no_sockets in Hn. specialize (Hpr []). rewrite app_nil_r, pruned_nil in Hpr. by apply Hskip, Hpr.
Qed.
End walking.

(** ** Extracting into an empty place *)

(** What a restored entry becomes. *)
Definition restored_node (n : node) : option node :=
  match n with File c => Some (File c) | Directory => Some Directory | Special => Some (File "") | Link _ | Socket => None end.

Lemma header_inj q q' n n' : Forall proper_seg q → Forall proper_seg q' → n ≠ Socket → n' ≠ Socket → header q n = header q' n' → q = q' ∧ n = n'.
Proof.
  intros Hq Hq' Hn Hn' E. assert (q = q') as ->.
  { rewrite <- (rel_segments q), <- (rel_segments q') by done. f_equal. by destruct n, n'; injection E. }
  by destruct n, n'; simplify_eq/=.
Qed.

Section creating.
Context (denied : path → bool) (v : view).
Hypothesis denied_none : ∀ p, denied p = false.
#[local] Set Default Proof Using "denied_none".

Definition open_way (t : tree) (done todo : path) : Prop :=
  ∀ p, p ≠ [] → p `prefix_of` todo → t !! (vw_base v ++ done ++ p) = None ∨ t !! (vw_base v ++ done ++ p) = Some Directory.

Lemma open_way_cons t done c todo : open_way t done (c :: todo) → open_way t (done ++ [c]) todo.
Proof using. intros H p Hp Hpre. rewrite <- (app_assoc done). apply (H (c :: p)); [done|by apply prefix_cons]. Qed.

Lemma mkdirs_open t full links done todo :
  Forall proper_seg todo → open_way t done todo →
  ∃ t', mkdirs denied t v full links done todo = (t', Found tt)
    ∧ (∀ p, p ≠ [] → p `prefix_of` todo → t' !! (vw_base v ++ done ++ p) = Some Directory)
    ∧ ∀ x, t' !! x = t !! x ∨ ∃ p, p ≠ [] ∧ p `prefix_of` todo ∧ x = vw_base v ++ done ++ p.
Proof.
  intros H. revert t done. induction H as [|c todo Hc H IH]; intros t done Hw; rewrite mkdirs_eq.
  { exists t. split; [done|]. split; [by intros p Hp ->%prefix_nil_inv|]. intros x. by left. }
  name_step Hc.
  assert (∀ t1, t1 !! (vw_base v ++ done ++ [c]) = Some Directory → open_way t1 (done ++ [c]) todo → (∀ x, t1 !! x = t !! x ∨ x = vw_base v ++ done ++ [c]) →
    ∃ t', mkdirs denied t1 v full links (done ++ [c]) todo = (t', Found tt)
    ∧ (∀ p, p ≠ [] → p `prefix_of` c :: todo → t' !! (vw_base v ++ done ++ p) = Some Directory)
    ∧ ∀ x, t' !! x = t !! x ∨ ∃ p, p ≠ [] ∧ p `prefix_of` c :: todo ∧ x = vw_base v ++ done ++ p) as Hgo.
  { intros t1 Hd Hw1 Ht1. destruct (IH t1 (done ++ [c]) Hw1) as (t' & Hm & Hall & Hrest). exists t'. split; [done|]. split.
    - intros p Hp Hpre. destruct p as [|c' p]; [done|]. assert (c' = c) as -> by by eapply prefix_cons_inv_1. apply prefix_cons_inv_2 in Hpre. destruct p as [|d p].
      + destruct (Hrest (vw_base v ++ done ++ [c])) as [->|(p & Hp' & _ & E)]; [done|]. exfalso. rewrite <- (app_assoc done) in E. apply app_inv_head, app_inv_head in E. by destruct p.
      + rewrite <- (Hall (d :: p)) by done. by rewrite <- (app_assoc done).
    - intros x. destruct (Hrest x) as [E|(p & Hp & Hpre & ->)].
      + destruct (Ht1 x) as [E'| ->]; [left; congruence|]. right. exists [c]. split; [done|]. split; [by apply prefix_cons, prefix_nil|done].
      + right. exists (c :: p). split; [done|]. split; [by apply prefix_cons|]. by rewrite <- (app_assoc done). }
  destruct (Hw [c]) as [E|E]; [done|by apply prefix_cons, prefix_nil| |]; rewrite E.
  - rewrite denied_none. apply Hgo; [by rewrite lookup_insert_eq| |intros x; destruct (decide (vw_base v ++ done ++ [c] = x)) as [<-|]; [by right|left; by rewrite lookup_insert_ne]].
    intros p Hp Hpre. rewrite lookup_insert_ne; [by apply (open_way_cons _ _ _ _ Hw)|]. rewrite <- (app_assoc done). intros E'%app_inv_head%app_inv_head. by destruct p.
  - apply Hgo; [done|by apply open_way_cons|intros x; by left].
Qed.

Lemma resolve_open t f links done todo : Forall proper_seg todo → open_way t done todo → resolve t v f links done todo = Found (done ++ todo) ∨ resolve t v f links done todo = No NotExist.
Proof using.
  intros H. revert done. induction H as [|c todo Hc H IH]; intros done Hw; rewrite resolve_eq; [left; by rewrite app_nil_r|]. name_step Hc.
  destruct (Hw [c]) as [E|E]; [done|by apply prefix_cons, prefix_nil| |]; rewrite E.
  - case_bool_decide as Et; [left; by rewrite Et|by right].
  - replace (done ++ c :: todo) with ((done ++ [c]) ++ todo) by by rewrite <- app_assoc. by apply IH, open_way_cons.
Qed.

Lemma top_missing_open t rel top : Forall proper_seg rel → open_way t [] rel → ∃ top', top_missing (Lstat t v) (reverse rel) top = Found top'.
Proof using.
  revert top. induction rel as [|c rel IH] using rev_ind; intros top Hp Hw; [by exists top|].
  assert (reverse (rel ++ [c]) = c :: reverse rel) as -> by by rewrite reverse_app. cbn [top_missing].
  assert (open_way t [] rel) as Hw'. { intros p Hne Hpre. apply Hw; [done|]. by apply prefix_app_r. }
  assert (reverse (c :: reverse rel) = rel ++ [c]) as Er by by rewrite reverse_cons, reverse_involutive.
  rewrite Er. unfold Lstat, place_of, at_place. destruct (resolve_open t false (vw_links v) [] (rel ++ [c]) Hp Hw) as [-> | ->].
  - destruct (t !! _); [by eexists|]. apply IH; [by apply Forall_app in Hp as [? _]|done].
  - apply IH; [by apply Forall_app in Hp as [? _]|done].
Qed.

Lemma mkdirAllIn_open t absRoot rel w :
  Forall proper_seg rel → open_way t [] rel →
  ∃ t' w', mkdirAllIn denied t v absRoot rel w = (t', w', Found tt)
    ∧ (∀ p, p ≠ [] → p `prefix_of` rel → t' !! (vw_base v ++ p) = Some Directory)
    ∧ ∀ x, t' !! x = t !! x ∨ ∃ p, p ≠ [] ∧ p `prefix_of` rel ∧ x = vw_base v ++ p.
Proof.
  intros Hp Hw. unfold mkdirAllIn. destruct (mkdirs_open t rel (vw_links v) [] rel Hp Hw) as (t' & Hm & H1 & H2).
  assert (∃ top, match w with Some _ => top_missing (Lstat t v) (reverse rel) None | None => Found None end = Found top) as [top ->].
  { destruct w; [by apply top_missing_open|by eexists]. }
  unfold Root_MkdirAll. rewrite Hm. by eexists _, _.
Qed.
End creating.

Section restoring.
Context (denied : path → bool) (v : view) (absRoot destRel : path) (refuseLinks : bool) (want : path → option node).
Hypothesis denied_none : ∀ p, denied p = false.
Hypothesis dest_proper : Forall proper_seg destRel.

(** An entry whose directories are wanted too. *)
Definition wanted (q : path) (n : node) : Prop :=
  Forall proper_seg q ∧ (q = [] → n = Directory) ∧ (q ≠ [] → want q = restored_node n) ∧ ∀ p x, q = p ++ x → p ≠ [] → x ≠ [] → want p = Some Directory.

(** So far: what is there below the destination is wanted, and its way is free. *)
Record partly (t : tree) : Prop := {
  pa_way p : p ≠ [] → p `prefix_of` destRel → t !! (vw_base v ++ p) = None ∨ t !! (vw_base v ++ p) = Some Directory;
  pa_only q n : q ≠ [] → t !! (vw_base v ++ destRel ++ q) = Some n → want q = Some n
}.
#[local] Set Default Proof Using "denied_none dest_proper".

Definition kept (t t' : tree) : Prop := ∀ q, q ≠ [] → is_Some (t !! (vw_base v ++ destRel ++ q)) → is_Some (t' !! (vw_base v ++ destRel ++ q)).

Lemma prefix_app_cases (p d q : path) : p `prefix_of` d ++ q → p `prefix_of` d ∨ ∃ r, r ≠ [] ∧ p = d ++ r ∧ r `prefix_of` q.
Proof using.
  revert p. induction d as [|c d IH]; intros p H; cbn [app] in *.
  - destruct p as [|c' p]; [by left|]. right. by exists (c' :: p).
  - destruct p as [|c' p]; [left; apply prefix_nil|]. assert (c' = c) as -> by by eapply prefix_cons_inv_1. apply prefix_cons_inv_2, IH in H as [H|(r & Hr & -> & H)]; [left; by apply prefix_cons|]. right. by exists r.
Qed.

Lemma mkdir_below t p w :
  partly t → Forall proper_seg p → (∀ r, r ≠ [] → r `prefix_of` p → want r = Some Directory) →
  ∃ t' w', mkdirAllIn denied t v absRoot (destRel ++ p) w = (t', w', Found tt) ∧ partly t' ∧ kept t t'
    ∧ ∀ r, r ≠ [] → r `prefix_of` destRel ++ p → t' !! (vw_base v ++ r) = Some Directory.
Proof.
  intros Hpa Hp Hdirs. destruct (mkdirAllIn_open denied v denied_none t absRoot (destRel ++ p) w) as (t' & w' & Hm & H1 & H2); [by apply Forall_app| |].
  { intros r Hr Hpre. cbn [app]. apply prefix_app_cases in Hpre as [Hpre|(r' & Hr' & -> & Hpre)]; [by apply (pa_way t Hpa)|].
    destruct (t !! _) as [n|] eqn:E; [|by left]. right. rewrite <- (Hdirs r') by done. symmetry. by apply (pa_only t Hpa). }
  exists t', w'. split; [done|]. split; [constructor|split; [|done]].
  - intros r Hr Hpre. right. apply H1; [done|]. by apply prefix_app_r.
  - intros q n Hq Hn. destruct (H2 (vw_base v ++ destRel ++ q)) as [E|(r & Hr & Hpre & E)]; [rewrite E in Hn; by apply (pa_only t Hpa)|].
    apply app_inv_head in E as <-. rewrite H1 in Hn by done. injection Hn as <-. apply Hdirs; [done|]. by eapply prefix_app_inv.
  - intros q Hq Hs. destruct (H2 (vw_base v ++ destRel ++ q)) as [->|(r & Hr & Hpre & ->)]; [done|]. by rewrite H1.
Qed.

Lemma write_below t q n body :
  partly t → Forall proper_seg q → q ≠ [] → want q = Some n → n = File body → (∀ r x, destRel ++ q = r ++ x → r ≠ [] → x ≠ [] → t !! (vw_base v ++ r) = Some Directory) →
  ∃ t', WriteFile denied t v (destRel ++ q) body = (t', Found tt) ∧ partly t' ∧ kept t t' ∧ is_Some (t' !! (vw_base v ++ destRel ++ q)).
Proof.
  intros Hpa Hp Hq Hw -> Hdirs. unfold WriteFile, place_of.
  assert (∀ n, t !! (vw_base v ++ destRel ++ q) = Some n → n = File body) as Hthere. { intros n Hn. apply (pa_only t Hpa) in Hn; [|done]. congruence. }
  rewrite resolve_chain; [|by apply Forall_app|by intros r x E; apply Hdirs|by intros _ d E%Hthere]. cbn [app]. rewrite denied_none.
  assert (match t !! (vw_base v ++ destRel ++ q) with None | Some (File _) => (<[vw_base v ++ destRel ++ q := File body]> t, Found tt) | Some Special => (t, Found tt) | Some _ => (t, No Denied) end
          = (<[vw_base v ++ destRel ++ q := File body]> t, Found tt)) as ->.
  { destruct (t !! _) as [n|] eqn:E; [|done]. assert (n = File body) as -> by (apply Hthere; congruence). done. }
  eexists. split; [done|]. split; [constructor|split].
  - intros r Hr Hpre. assert (vw_base v ++ destRel ++ q ≠ vw_base v ++ r) as Hne; [|rewrite lookup_insert_ne by done; by apply (pa_way t Hpa)].
    intros E%app_inv_head. apply prefix_length in Hpre. rewrite <- E, length_app in Hpre. destruct q; [done|cbn in Hpre; lia].
  - intros q' n' Hq'. rewrite lookup_insert_Some. intros [[E <-]|[_ Hn]]; [apply app_inv_head, app_inv_head in E as <-; done|by apply (pa_only t Hpa)].
  - intros q' Hq' Hs. destruct (decide (q = q')) as [<-|Hne]; [rewrite lookup_insert_eq; by eexists|]. rewrite lookup_insert_ne; [done|]. by intros E%app_inv_head%app_inv_head.
  - rewrite lookup_insert_eq. by eexists.
Qed.

Definition is_link (n : node) : bool := match n with Link _ => true | _ => false end.

Lemma extract_header s q n :
  partly (ex_tree s) → wanted q n → n ≠ Socket → (refuseLinks = true → is_link n = false) →
  ∃ s', extract_entry denied v absRoot destRel [] refuseLinks (header q n) s = (s', Ok tt) ∧ partly (ex_tree s') ∧ kept (ex_tree s) (ex_tree s')
    ∧ (q ≠ [] → is_Some (restored_node n) → is_Some (ex_tree s' !! (vw_base v ++ destRel ++ q))).
Proof.
  intros Hpa (Hq & Hroot & Hw & Hdirs) Hsock Hlink. unfold extract_entry.
  assert (hd_Name (header q n) = unsegs false q) as -> by by destruct n. rewrite join_rel by done.
  assert (Forall proper_seg (destRel ++ q)) as Hp by by apply Forall_app. destruct (rel_inside _ Hp) as [-> ->]. rewrite rel_IsAbs, rel_segments by done. cbn [orb isUnderAny existsb].
  destruct s as [t w k]. cbn [ex_tree ex_written ex_skipped] in *.
  assert (∀ body m, want q = Some m → m = File body → q ≠ [] →
    ∃ s', extract_file denied v absRoot (destRel ++ q) body (MkExtraction t w k) = (s', Ok tt) ∧ partly (ex_tree s') ∧ kept t (ex_tree s') ∧ (q ≠ [] → is_Some (restored_node n) → is_Some (ex_tree s' !! (vw_base v ++ destRel ++ q)))) as Hfile.
  { intros body m Hm Hbody Hne. destruct q as [|c q' _] using rev_ind; [done|]. unfold extract_file. cbn [ex_tree ex_written].
    assert (parent (destRel ++ q' ++ [c]) = destRel ++ q') as -> by by (unfold parent; rewrite app_assoc, removelast_last).
    destruct (mkdir_below t q' w Hpa) as (t1 & w1 & -> & Hpa1 & Hk1 & Hd1); [by apply Forall_app in Hq as [? _]| |].
    { intros r Hr [x Hx]. apply (Hdirs r (x ++ [c])); [by rewrite Hx, <- app_assoc|done|by destruct x]. }
    destruct (write_below t1 (q' ++ [c]) m body Hpa1 Hq Hne Hm Hbody) as (t2 & -> & Hpa2 & Hk2 & Hs2).
    { intros r x E Hr Hx. apply Hd1; [done|]. destruct x as [|y x _] using rev_ind; [done|]. rewrite !app_assoc in E. apply app_inj_tail in E as [E _]. rewrite E. by apply prefix_app_r. }
    eexists. split; [done|]. split; [done|]. split; [|done]. intros r Hr Hs. by apply Hk2, Hk1. }
  destruct n as [c| |d| |]; cbn [header hd_Typeflag hd_Body]; [| | |destruct q as [|c' q]; [by specialize (Hroot eq_refl)|by eapply Hfile; [apply Hw|..]]|done].
  - destruct q as [|c' q]; [by specialize (Hroot eq_refl)|]. by eapply Hfile; [apply Hw|..].
  - destruct (mkdir_below t q w Hpa Hq) as (t1 & w1 & -> & Hpa1 & Hk1 & Hd1).
    { intros r Hr [x Hx]. destruct x as [|y x]; [|by eapply Hdirs]. rewrite app_nil_r in Hx. subst r. by rewrite Hw. }
    eexists. split; [done|]. split; [done|]. split; [done|]. intros Hne _. cbn [ex_tree]. rewrite Hd1; [by eexists|by destruct destRel, q|done].
  - destruct refuseLinks; [by specialize (Hlink eq_refl)|]. eexists. split; [done|]. split; [done|]. split; [by intros r ?|]. by intros _ [? ?].
Qed.

Lemma extract_headers hs s :
  partly (ex_tree s) → (∀ h, h ∈ hs → ∃ q n, h = header q n ∧ wanted q n ∧ n ≠ Socket ∧ (refuseLinks = true → is_link n = false)) →
  ∃ s', extract_all denied v absRoot destRel [] refuseLinks hs s = (s', Ok tt) ∧ partly (ex_tree s') ∧ kept (ex_tree s) (ex_tree s')
    ∧ ∀ q n, header q n ∈ hs → wanted q n → n ≠ Socket → (refuseLinks = true → is_link n = false) → q ≠ [] → is_Some (restored_node n) → is_Some (ex_tree s' !! (vw_base v ++ destRel ++ q)).
Proof.
  revert s. induction hs as [|h hs IH]; intros s Hpa Hall.
  - exists s. split; [done|]. split; [done|]. split; [by intros q ?|]. by intros q n ?%not_elem_of_nil.
  - cbn [extract_all]. destruct (Hall h) as (q & n & -> & Hw & Hs & Hl); [by left|].
    destruct (extract_header s q n Hpa Hw Hs Hl) as (s1 & -> & Hpa1 & Hk1 & Hn1). destruct (IH s1 Hpa1) as (s2 & He & Hpa2 & Hk2 & Hn2); [intros h Hh; apply Hall; by right|].
    exists s2. split; [done|]. split; [done|]. split; [intros r Hr H; by apply Hk2, Hk1|].
    intros q' n' [E|Hin]%elem_of_cons Hw' Hs' Hl' Hne Hsome; [|by eapply Hn2].
    destruct Hw as [Hq _], Hw' as [Hq' _]. destruct (header_inj q' q n' n Hq' Hq Hs' Hs E) as [-> ->]. by apply Hk2, Hn1.
Qed.
End restoring.

(** ** The round trip *)

Definition is_pruned (skip : list path) (top q : path) : bool := existsb (λ n, bool_decide (top ++ take n q ∈ skip)) (seq 0 (S (length q))).

Lemma is_pruned_spec skip top q : is_pruned skip top q = true ↔ pruned skip top q.
Proof.
  unfold is_pruned, pruned. rewrite existsb_exists. split.
  - intros (n & _ & H%bool_decide_eq_true). exists (take n q). split; [apply prefix_take|done].
  - intros (p & [x ->] & H). exists (length p). split; [|apply bool_decide_eq_true; by rewrite take_app_length]. apply in_seq. rewrite length_app. lia.
Qed.

(** What an extraction leaves of the archived [src], at a path below its destination; a
    single file is named by the last component of its path. *)
Definition restored_at (t : tree) (src : path) (skip : list path) (top q : path) : option node :=
  match t !! src with
  | Some Directory => if is_pruned skip top q then None else t !! (src ++ q) ≫= restored_node
  | Some (File c) => if bool_decide ((top ∉ skip) ∧ [List.last top ""] = q) then Some (File c) else None
  | _ => None
  end.

Section trip.
Context (denied : path → bool) (t : tree) (root rel base src : path) (exclude : list string).
Hypothesis denied_none : ∀ p, denied p = false.
Hypothesis wf : tree_wf t.
Hypothesis proper : Forall proper_seg rel.
Hypothesis based : t !! base = Some Directory.
Hypothesis placed : place_of t (root_view base) false rel = Found src.
Let skip := excluded_paths exclude.
#[local] Set Default Proof Using "denied_none wf proper based placed".

Lemma file_entries c :
  t !! src = Some (File c) → root ++ rel ∉ skip →
  rel ≠ [] ∧ Stat t (root_view base) rel = Found (File c) ∧ walk denied (S (depth t)) t (root_view base) root skip (parent rel) rel = Ok [header [List.last rel ""] (File c)].
Proof.
  intros Hc Hskip. unfold place_of in placed. destruct (resolve t (root_view base) false _ [] rel) as [q|e] eqn:E; [|done]. injection placed as Hq; cbn [vw_base root_view] in Hq.
  assert (rel ≠ []) as Hne. { intros ->. rewrite resolve_eq in E. injection E as <-. rewrite app_nil_r in Hq. congruence. }
  assert (place_of t (root_view base) true rel = Found src) as Hplace.
  { unfold place_of. rewrite (resolve_nofollow _ _ _ _ _ _ E) by (cbn [vw_base root_view]; rewrite Hq; congruence); cbn [vw_base root_view]. by rewrite Hq. }
  split; [done|]. split; [unfold Stat, at_place; by rewrite Hplace, Hc|]. cbn [walk]. rewrite decide_False by done.
  assert (Lstat t (root_view base) rel = Found (File c)) as ->. { unfold Lstat, place_of, at_place. rewrite E. cbn [vw_base root_view]. by rewrite Hq, Hc. }
  cbn [FileInfoHeader mbind res_bind]. unfold ReadFile, at_place. rewrite Hplace, Hc, denied_none. cbn [hd_Name header].
  destruct rel as [|x r' _] using rev_ind; [done|]. unfold parent. rewrite removelast_last, last_last. apply Forall_app in proper as [? ?]. by rewrite entry_name_below.
Qed.

Hypothesis no_sockets : ∀ q, t !! (src ++ q) = Some Socket → is_pruned skip (root ++ rel) q = true.

Lemma directory_entries :
  t !! src = Some Directory →
  Stat t (root_view base) rel = Found Directory ∧
  ∃ hs, walk denied (S (depth t)) t (root_view base) root skip rel rel = Ok hs
    ∧ ∀ h, h ∈ hs ↔ ∃ q n, t !! (src ++ q) = Some n ∧ is_pruned skip (root ++ rel) q = false ∧ h = header q n.
Proof using denied_none wf proper based placed no_sockets.
  intros Hd. unfold place_of in placed. destruct (resolve t (root_view base) false _ [] rel) as [q0|e] eqn:E; [|done]. injection placed as Hq; cbn [vw_base root_view] in Hq.
  split. { unfold Stat, place_of, at_place. rewrite (resolve_nofollow _ _ _ _ _ _ E) by (cbn [vw_base root_view]; rewrite Hq; congruence); cbn [vw_base root_view]. by rewrite Hq, Hd. }
  assert (∀ q, t !! ((base ++ q0) ++ q) = Some Socket → pruned skip (root ++ rel) q) as Hs. { intros q H. apply is_pruned_spec, no_sockets. by rewrite <- Hq. }
  destruct (walk_entries denied t (root_view base) root rel q0 skip denied_none wf proper E) with (fuel := S (depth t)) (q := @nil string) (n := Directory) as (hs & Hw & Hhs); [by cbn [vw_base root_view]; rewrite Hq|done|by cbn [vw_base root_view]; rewrite app_nil_r, Hq| |lia|].
  { intros r. by rewrite app_nil_r. }
  rewrite app_nil_r in Hw. exists hs. split; [done|]. intros h. rewrite Hhs. unfold entries_at. cbn [app]. rewrite app_nil_r. setoid_rewrite <- is_pruned_spec. setoid_rewrite not_true_iff_false.
  cbn [vw_base root_view]. by rewrite Hq.
Qed.
End trip.

(** What is below an empty place after an extraction of entries that are all wanted. *)
Lemma extracted_exactly denied v absRoot destRel refuseLinks want hs t2 w :
  (∀ p, denied p = false) → Forall proper_seg destRel →
  (∀ p, p ≠ [] → p `prefix_of` destRel → t2 !! (vw_base v ++ p) = None ∨ t2 !! (vw_base v ++ p) = Some Directory) →
  (∀ q, q ≠ [] → t2 !! (vw_base v ++ destRel ++ q) = None) →
  (∀ h, h ∈ hs → ∃ q n, h = header q n ∧ wanted want q n ∧ n ≠ Socket ∧ (refuseLinks = true → is_link n = false)) →
  (∀ q m, q ≠ [] → want q = Some m → ∃ n, header q n ∈ hs ∧ wanted want q n ∧ n ≠ Socket ∧ (refuseLinks = true → is_link n = false)) →
  let '(s, r) := extract_all denied v absRoot destRel [] refuseLinks hs (MkExtraction t2 w 0) in
  r = Ok tt ∧ ∀ q, q ≠ [] → ex_tree s !! (vw_base v ++ destRel ++ q) = want q.
Proof.
  intros Hden Hp Hway Hempty Hall Hback.
  assert (partly v destRel want t2) as Hpa. { constructor; [done|]. intros q n Hq. by rewrite Hempty. }
  destruct (extract_headers denied v absRoot destRel refuseLinks want Hden Hp hs (MkExtraction t2 w 0) Hpa Hall) as (s & -> & Hpa' & _ & Hin).
  split; [done|]. intros q Hq. destruct (want q) as [m|] eqn:Em.
  - destruct (Hback q m Hq Em) as (n & Hn & Hw & Hs & Hl). destruct (Hin q n Hn Hw Hs Hl Hq) as [m' Hm'].
    { destruct Hw as (_ & _ & Hw & _). rewrite <- Hw, Em by done. by eexists. }
    pose proof (pa_only _ _ _ _ Hpa' q m' Hq Hm') as E. congruence.
  - destruct (ex_tree s !! _) as [n|] eqn:E; [|done]. pose proof (pa_only _ _ _ _ Hpa' q n Hq E). congruence.
Qed.

Lemma wanted_file t src skip top c :
  t !! src = Some (File c) → (top ∉ skip) → proper_seg (List.last top "") → wanted (restored_at t src skip top) [List.last top ""] (File c).
Proof.
  intros Hc Ht Hp. split; [by apply Forall_singleton|]. split; [done|]. split; [intros _; unfold restored_at; rewrite Hc; by rewrite bool_decide_eq_true_2|].
  intros [|x p] [|y x'] E Hp' Hx; try done. by destruct p.
Qed.

Lemma wanted_below t src skip top q n :
  tree_wf t → t !! src = Some Directory → t !! (src ++ q) = Some n → is_pruned skip top q = false → wanted (restored_at t src skip top) q n.
Proof.
  intros Hwf Hd Hn Hpr. split; [by eapply wf_proper|]. split; [intros ->; rewrite app_nil_r in Hn; congruence|]. unfold restored_at. rewrite Hd.
  split; [intros _; by rewrite Hpr, Hn|]. intros p x -> _ Hx. rewrite app_assoc in Hn. rewrite (wf_prefix _ _ _ _ Hwf Hn Hx).
  destruct (is_pruned skip top p) eqn:E; [|done]. apply is_pruned_spec in E as (r & Hr & Hin). apply not_true_iff_false in Hpr as []. apply is_pruned_spec. exists r. split; [by apply prefix_app_r|done].
Qed.

Lemma OpenRoot_directory t root base : OpenRoot t root = Ok base → t !! base = Some Directory.
Proof. unfold OpenRoot, at_place. destruct (place_of t os_view true root) as [q|]; [|done]. destruct (t !! q) as [[]|] eqn:E; try done. by intros [= <-]. Qed.

Lemma Write_entries denied t root what exclude base rel info hs :
  OpenRoot t root = Ok base → RelInRoot root what = Ok rel → Stat t (root_view base) rel = Found info →
  walk denied (S (depth t)) t (root_view base) root (excluded_paths exclude) (if IsDir info then rel else parent rel) rel = Ok hs → WriteTarZstdIn denied t root what exclude = Ok hs.
Proof. intros Hroot Hrel Hs Hw. unfold WriteTarZstdIn. rewrite Hroot, Hrel. cbn [mbind res_bind]. by rewrite Hs, Hw. Qed.

Lemma Write_nothing denied t root what exclude base rel :
  OpenRoot t root = Ok base → RelInRoot root what = Ok rel → root ++ rel ∈ excluded_paths exclude → WriteTarZstdIn denied t root what exclude = Ok [].
Proof. intros Hroot Hrel Hin. unfold WriteTarZstdIn. rewrite Hroot, Hrel. cbn [mbind res_bind walk]. by rewrite decide_True. Qed.

Lemma Extract_entries denied t2 hs root2 dest base2 destRel refuseLinks w :
  OpenRoot t2 root2 = Ok base2 → RelInRoot root2 dest = Ok destRel →
  ExtractTarZstdInWritten denied t2 hs root2 dest [] refuseLinks w = extract_all denied (root_view base2) root2 destRel [] refuseLinks hs (MkExtraction t2 w 0).
Proof. intros Hroot Hrel. unfold ExtractTarZstdInWritten. by rewrite Hroot, Hrel. Qed.

(** C30: what is archived is restored: a directory (or a single file) below the root is
    written as an archive, without running out or failing, and extracting that below any
    root, at a path where nothing is in the way, succeeds and leaves exactly the archived
    files with their contents and the directories, without what was excluded, and without
    links, which the archive of an artifact must not hold. *)
Theorem archive_roundtrip denied t root base what rel src exclude t2 root2 base2 dest destRel refuseLinks w
    (Hdenied : ∀ p, denied p = false) (Hwf : tree_wf t) (Hproper : Forall proper_seg root ∧ Forall proper_seg root2)
    (Hroot : OpenRoot t root = Ok base) (Hrel : RelInRoot root what = Ok rel) (Hsrc : place_of t (root_view base) false rel = Found src)
    (Hkind : t !! src = Some Directory ∨ ∃ c, t !! src = Some (File c))
    (Hsockets : ∀ q, t !! (src ++ q) = Some Socket → is_pruned (excluded_paths exclude) (root ++ rel) q = true)
    (Hlinks : refuseLinks = true → ∀ q d, t !! (src ++ q) = Some (Link d) → is_pruned (excluded_paths exclude) (root ++ rel) q = true)
    (Hroot2 : OpenRoot t2 root2 = Ok base2) (Hdest : RelInRoot root2 dest = Ok destRel)
    (Hway : ∀ p, p ≠ [] → p `prefix_of` destRel → t2 !! (base2 ++ p) = None ∨ t2 !! (base2 ++ p) = Some Directory)
    (Hempty : ∀ q, q ≠ [] → t2 !! (base2 ++ destRel ++ q) = None) :
  ∃ hs, WriteTarZstdIn denied t root what exclude = Ok hs ∧
    let '(s, r) := ExtractTarZstdInWritten denied t2 hs root2 dest [] refuseLinks w in
    r = Ok tt ∧ ∀ q, q ≠ [] → ex_tree s !! (base2 ++ destRel ++ q) = restored_at t src (excluded_paths exclude) (root ++ rel) q.
Proof.
  destruct Hproper as [Hp Hp2]. pose proof (RelInRoot_proper _ _ _ Hp Hrel) as Hrp. pose proof (RelInRoot_proper _ _ _ Hp2 Hdest) as Hdp.
  set (skip := excluded_paths exclude) in *.
  enough (∃ hs, WriteTarZstdIn denied t root what exclude = Ok hs ∧ let '(s, r) := extract_all denied (root_view base2) root2 destRel [] refuseLinks hs (MkExtraction t2 w 0) in
    r = Ok tt ∧ ∀ q, q ≠ [] → ex_tree s !! (base2 ++ destRel ++ q) = restored_at t src skip (root ++ rel) q) as (hs & Hhs & Hx).
  { exists hs. split; [exact Hhs|]. rewrite (Extract_entries denied t2 hs root2 dest base2 destRel refuseLinks w Hroot2 Hdest). exact Hx. }
  pose proof (OpenRoot_directory _ _ _ Hroot) as Hbase.
  assert (∀ hs, (∀ h, h ∈ hs → ∃ q n, h = header q n ∧ wanted (restored_at t src skip (root ++ rel)) q n ∧ n ≠ Socket ∧ (refuseLinks = true → is_link n = false)) →
    (∀ q m, q ≠ [] → restored_at t src skip (root ++ rel) q = Some m → ∃ n, header q n ∈ hs ∧ wanted (restored_at t src skip (root ++ rel)) q n ∧ n ≠ Socket ∧ (refuseLinks = true → is_link n = false)) →
    let '(s, r) := extract_all denied (root_view base2) root2 destRel [] refuseLinks hs (MkExtraction t2 w 0) in
    r = Ok tt ∧ ∀ q, q ≠ [] → ex_tree s !! (base2 ++ destRel ++ q) = restored_at t src skip (root ++ rel) q) as Hextract by (intros hs; by apply (extracted_exactly denied (root_view base2))).
  destruct Hkind as [Hd|[c Hc]].
  - destruct (directory_entries denied t root rel base src exclude Hdenied Hwf Hrp Hbase Hsrc Hsockets Hd) as (HS & hs & Hw & Hhs). exists hs. split; [by eapply Write_entries|]. fold skip in Hhs.
    assert (∀ q n, t !! (src ++ q) = Some n → is_pruned skip (root ++ rel) q = false → wanted (restored_at t src skip (root ++ rel)) q n ∧ n ≠ Socket ∧ (refuseLinks = true → is_link n = false)) as Hok.
    { intros q n Hn Hpr. split; [by apply wanted_below|]. split; [intros ->; apply Hsockets in Hn; congruence|]. intros Hr. destruct n; try done. apply (Hlinks Hr) in Hn. congruence. }
    apply Hextract.
    + intros h Hh. apply Hhs in Hh as (q & n & Hn & Hpr & ->). exists q, n. split; [done|]. by apply Hok.
    + intros q m Hq Hm. unfold restored_at in Hm. rewrite Hd in Hm. destruct (is_pruned skip (root ++ rel) q) eqn:Hpr; [done|]. destruct (t !! (src ++ q)) as [n|] eqn:Hn; [|done].
      exists n. split; [apply Hhs; by exists q, n|by apply Hok].
  - destruct (decide (root ++ rel ∈ skip)) as [Hin|Hout].
    + exists []. split; [by eapply Write_nothing|]. apply Hextract; [by intros h ?%not_elem_of_nil|]. intros q m _ Hm. unfold restored_at in Hm. rewrite Hc in Hm. rewrite bool_decide_eq_false_2 in Hm; [done|]. by intros [? _].
    + destruct (file_entries denied t root rel base src exclude Hdenied Hwf Hrp Hbase Hsrc c Hc Hout) as (Hne & HS & Hw).
      assert (List.last (root ++ rel) "" = List.last rel "") as Elast. { destruct rel as [|x r _] using rev_ind; [done|]. by rewrite app_assoc, !last_last. }
      assert (wanted (restored_at t src skip (root ++ rel)) [List.last rel ""] (File c)) as Hwant.
      { rewrite <- Elast. apply wanted_file; [done|done|]. rewrite Elast. destruct rel as [|x r _] using rev_ind; [done|]. rewrite last_last. apply Forall_app in Hrp as [_ Hx]. by inversion Hx. }
      exists [header [List.last rel ""] (File c)]. split; [by eapply Write_entries|]. apply Hextract.
      * intros h ->%list_elem_of_singleton. exists [List.last rel ""], (File c). done.
      * intros q m Hq Hm. unfold restored_at in Hm. rewrite Hc, Elast in Hm. case_bool_decide as E; [|done]. destruct E as [_ <-]. exists (File c). split; [by left|done].
Qed.

(** ** Executions *)

Lemma tree_wf_check t : map_Forall (λ k _, k = [] ∨ t !! removelast k = Some Directory ∧ proper_seg (List.last k "")) t → tree_wf t.
Proof. intros H p c n Hn. destruct (H _ _ Hn) as [E|Hd]; [by destruct p|]. by rewrite removelast_last, last_last in Hd. Qed.

Module Samples.
Definition allowed (p : path) : bool := false.

(** A workspace with an output directory, in it a volume and a link. *)
Definition workspace : tree := list_to_map [
  ([], Directory); (["ws"], Directory); (["ws"; "out"], Directory); (["ws"; "out"; "a"], File "1"); (["ws"; "out"; "bin"], Directory);
  (["ws"; "out"; "bin"; "b"], File "2"); (["ws"; "out"; "vol"], Directory); (["ws"; "out"; "vol"; "data"], File "3"); (["ws"; "out"; "latest"], Link "bin");
  (["ws"; "cur"], Link "out"); (["etc"], Directory) ].
Definition fresh : tree := list_to_map [ ([], Directory); (["new"], Directory); (["new"; "old.txt"], File "0") ].

Example restored : ∃ hs, WriteTarZstdIn allowed workspace ["ws"] "out" ["/ws/out/vol"] = Ok hs ∧
  let '(s, r) := ExtractTarZstdInWritten allowed fresh hs ["new"] "x" [] false (Some (MkWritten [] [])) in
  r = Ok tt ∧ ex_skipped s = 1 ∧ Roots (ex_written s) = ["/new/x"]
  ∧ map_to_list (ex_tree s) ≡ₚ map_to_list (list_to_map [ ([], Directory); (["new"], Directory); (["new"; "old.txt"], File "0"); (["new"; "x"], Directory); (["new"; "x"; "a"], File "1"); (["new"; "x"; "bin"], Directory); (["new"; "x"; "bin"; "b"], File "2") ] : tree).
Proof.
  eexists. split; [vm_compute; reflexivity|]. vm_compute. done.
Qed.

(** An artifact whose path is a link to a directory: the sidecar archives the link and
    not the directory, and what it archived cannot be downloaded. *)
Example linked_directory :
  WriteTarZstdIn allowed workspace ["ws"] "cur" [] = Ok [MkHeader "." TypeSymlink "out" ""]
  ∧ is_ok (ExtractTarZstdIn allowed fresh [MkHeader "." TypeSymlink "out" ""] ["new"] "." [] true).2 = false
  ∧ WriteTarZstdExcluding allowed workspace ["ws"; "cur"] [] = WriteTarZstdIn allowed workspace ["ws"] "out" [].
Proof. by vm_compute. Qed.

(** An entry that leaves the destination but not the root. *)
Example entry_leaves_destination :
  let hs := [MkHeader "../old.txt" TypeReg "" "planted"] in
  ex_tree (ExtractTarZstdIn allowed fresh hs ["new"] "x" [] true).1 !! ["new"; "old.txt"] = Some (File "planted")
  ∧ is_ok (ExtractTarZstdWritten allowed fresh hs ["new"; "x"] [] None).2 = false.
Proof. by vm_compute. Qed.

(** A link of the tree that leads into an excluded path is followed. *)
Definition linked : tree := list_to_map [ ([], Directory); (["ws"], Directory); (["ws"; "vol"], Directory); (["ws"; "cache"], Link "vol") ].
Example excluded_through_link :
  ex_tree (ExtractTarZstdIn allowed linked [MkHeader "cache/x" TypeReg "" "1"] ["ws"] "." ["/ws/vol"] false).1 !! ["ws"; "vol"; "x"] = Some (File "1").
Proof. by vm_compute. Qed.
End Samples.

Lemma archive_roundtrip_witness :
  ∃ hs, WriteTarZstdIn Samples.allowed Samples.workspace ["ws"] "out" ["/ws/out/vol"; "/ws/out/latest"] = Ok hs ∧
    let '(s, r) := ExtractTarZstdInWritten Samples.allowed Samples.fresh hs ["new"] "x" [] true None in
    r = Ok tt ∧ ∀ q, q ≠ [] → ex_tree s !! (["new"] ++ ["x"] ++ q) = restored_at Samples.workspace ["ws"; "out"] (excluded_paths ["/ws/out/vol"; "/ws/out/latest"]) (["ws"] ++ ["out"]) q.
Proof.
  apply (archive_roundtrip Samples.allowed Samples.workspace ["ws"] ["ws"] "out" ["out"] ["ws"; "out"] ["/ws/out/vol"; "/ws/out/latest"] Samples.fresh ["new"] ["new"] "x" ["x"] true None).
  - done.
  - apply tree_wf_check. by apply (bool_decide_unpack _); vm_compute.
  - split; by apply (bool_decide_unpack _); vm_compute.
  - vm_compute. reflexivity.
  - vm_compute. reflexivity.
  - vm_compute. reflexivity.
  - left. vm_compute. reflexivity.
  - intros q Hq. exfalso. revert Hq. generalize (["ws"; "out"] ++ q). intros k Hk.
    assert (map_Forall (λ _ n, n ≠ Socket) Samples.workspace) as H by (by apply (bool_decide_unpack _); vm_compute). by apply (H _ _ Hk).
  - intros _ q d Hq. assert (map_Forall (λ k n, n = Link d → k = ["ws"; "cur"] ∨ k = ["ws"; "out"; "latest"]) Samples.workspace) as H.
    { intros k n Hk. apply elem_of_list_to_map_2 in Hk. intros ->. repeat (apply elem_of_cons in Hk as [Hk|Hk]; [injection Hk; intros; subst; by auto|]). by apply not_elem_of_nil in Hk. }
    destruct (H _ _ Hq eq_refl) as [E|E]; [done|]. injection E as ->. vm_compute. reflexivity.
  - vm_compute. reflexivity.
  - vm_compute. reflexivity.
  - intros p Hp Hpre. left. destruct p as [|x p]; [done|]. assert (x = "x") as -> by by eapply prefix_cons_inv_1. apply prefix_cons_inv_2, prefix_nil_inv in Hpre as ->. vm_compute. reflexivity.
  - intros q Hq. destruct (Samples.fresh !! _) as [n|] eqn:E; [|done]. exfalso.
    assert (map_Forall (λ k _, ¬ ["new"; "x"] `prefix_of` k) Samples.fresh) as H by (by apply (bool_decide_unpack _); vm_compute). apply (H _ _ E). by exists q.
Defined.
