(* ===== verification/Credentials.v ===== *)
(** * internal/agent/credentials.go: the refresh credential an agent keeps

    [CredentialManager]: enrolling, refreshing, and the file the rotated credential is
    kept in, as programs over requests to the controller, the clock and the file system.
    The platform's checks of owners and permissions are part of the answers.  Calls are
    serialized by a mutex, so one runs at a time; JSON is a parameter. *)

From S2P Require Import Prelude GoStrings GoPath Programs VolumePlaces VolumeMounts AgentProof AgentPolicies AgentEnroll.
From stdpp Require Import options.

Definition second : Z := 1000000000.
Definition tokenRefreshLeadTime : Z := 15 * 60 * second.
Definition credentialRetryAttempts : nat := 3.
(** The zero [time.Time], in nanoseconds of the Unix epoch. *)
Definition zero_time : Z := -62135596800 * second.

Record persistedCredential := MkPersisted { pc_Version : Z; pc_AgentID : string; pc_RefreshToken : string; pc_RefreshExpiresAt : Z }.
Definition no_credential : persistedCredential := MkPersisted 0 "" "" zero_time.

Inductive endpoint := Enroll | Refresh.
Inductive request :=
| QNow | QSleep (d : Z) | QPost (e : endpoint) (token : string)
| QReadSecret (path : string) | QDefaultFile (agentID : string) | QDiscover
| QStat (path : string) | QMkdir (dir : string) | QCheckRedirect (dir : string) | QCheckDir (dir : string)
| QRead (path : string) | QLstat (path : string) | QRemove (path : string) | QRename (a b : string) | QSync (dir : string)
| QCreateTemp (dir : string) | QFill (tmp content : string).
(** [AMissing] and [AExists] are the errors [os.IsNotExist] and [os.IsExist] know. *)
Inductive answer :=
| AOk | ANow (t : Z) | AText (s : string) | AResponse (r : AgentTokenResponse) | AStatus (code retryAfter : Z) | ANoAnswer | ABadBody
| AMissing | AExists | AFail (e : text).

(** [credentialRequestError], [os.ErrNotExist], and all other errors. *)
Inductive cerr := RequestError (status : Z) (retryable : bool) (retryAfter : Z) | NotExists (e : text) | Other (e : text).
Inductive out (A : Type) := Done (a : A) | Fails (e : cerr).
Arguments Done {A}. Arguments Fails {A}.
Definition IsNotExist (e : cerr) : bool := match e with NotExists _ => true | _ => false end.
Definition wrapped (pre : text) (e : cerr) : cerr := match e with Other t => Other (pre ++ t) | NotExists t => NotExists (pre ++ t) | e => e end.

Record CredentialManager := MkManager {
  cm_configuredAgentID : string; cm_agentID : string;
  cm_enrollmentTokenFile : string; cm_enrollmentToken : string; cm_enrollmentTokenLoaded : bool; cm_enrollmentTokenErr : option cerr;
  cm_credentialFile : string; cm_defaultCredentialPath : bool; cm_discoveredAgentID : string; cm_refreshJitter : Z;
  cm_loaded : bool; cm_bootstrapDone : bool; cm_refresh : persistedCredential; cm_accessToken : string; cm_accessExpires : Z
}.
Record CredentialManagerConfig := MkConfig { cf_AgentID : string; cf_EnrollmentTokenFile : string; cf_EnrollmentToken : string; cf_CredentialFile : string }.
Definition NewCredentialManager (cfg : CredentialManagerConfig) (jitter : Z) : CredentialManager :=
  MkManager (cf_AgentID cfg) (cf_AgentID cfg) (cf_EnrollmentTokenFile cfg) (cf_EnrollmentToken cfg) false None (cf_CredentialFile cfg) false "" jitter false false no_credential "" zero_time.

Definition set_enrollment (token : string) (e : option cerr) (m : CredentialManager) : CredentialManager :=
  MkManager (cm_configuredAgentID m) (cm_agentID m) (cm_enrollmentTokenFile m) token true e (cm_credentialFile m) (cm_defaultCredentialPath m) (cm_discoveredAgentID m) (cm_refreshJitter m)
    (cm_loaded m) (cm_bootstrapDone m) (cm_refresh m) (cm_accessToken m) (cm_accessExpires m).
Definition set_file (path : string) (discovered : string) (m : CredentialManager) : CredentialManager :=
  MkManager (cm_configuredAgentID m) (cm_agentID m) (cm_enrollmentTokenFile m) (cm_enrollmentToken m) (cm_enrollmentTokenLoaded m) (cm_enrollmentTokenErr m) path true discovered (cm_refreshJitter m)
    (cm_loaded m) (cm_bootstrapDone m) (cm_refresh m) (cm_accessToken m) (cm_accessExpires m).
Definition set_loaded (agentID : string) (c : persistedCredential) (m : CredentialManager) : CredentialManager :=
  MkManager (cm_configuredAgentID m) agentID (cm_enrollmentTokenFile m) (cm_enrollmentToken m) (cm_enrollmentTokenLoaded m) (cm_enrollmentTokenErr m) (cm_credentialFile m) (cm_defaultCredentialPath m) (cm_discoveredAgentID m) (cm_refreshJitter m)
    true (cm_bootstrapDone m) c (cm_accessToken m) (cm_accessExpires m).
Definition set_issued (r : AgentTokenResponse) (next : persistedCredential) (m : CredentialManager) : CredentialManager :=
  MkManager (cm_configuredAgentID m) (ts_AgentID r) (cm_enrollmentTokenFile m) (cm_enrollmentToken m) (cm_enrollmentTokenLoaded m) (cm_enrollmentTokenErr m) (cm_credentialFile m) (cm_defaultCredentialPath m) (cm_discoveredAgentID m) (cm_refreshJitter m)
    true true next (ts_AccessToken r) (ts_AccessExpiresAt r).

(** ** Actions: programs with the manager as their state *)

Abbreviation prog := (Programs.prog request answer).
Definition act (A : Type) : Type := CredentialManager → prog (CredentialManager * out A).
#[export] Instance act_ret : MRet act := λ A a m, Programs.Ret (m, Done a).
#[export] Instance act_bind : MBind act := λ A B f p m, x ← p m; match x.2 with Done a => f a x.1 | Fails e => Programs.Ret (x.1, Fails e) end.
Definition fail {A} (e : cerr) : act A := λ m, Programs.Ret (m, Fails e).
Definition ask (q : request) : act answer := λ m, Programs.Do q (λ a, Programs.Ret (m, Done a)).
Definition get : act CredentialManager := λ m, Programs.Ret (m, Done m).
Definition modify (f : CredentialManager → CredentialManager) : act () := λ m, Programs.Ret (f m, Done ()).
Definition attempt {A} (p : act A) : act (out A) := λ m, x ← p m; Programs.Ret (x.1, Done x.2).
Definition error_of (a : answer) : cerr :=
  match a with AMissing => NotExists [Lit "file does not exist"] | AExists => Other [Lit "file exists"] | AFail e => Other e | _ => Other [] end.
(** A request that answers with nothing but whether it succeeded. *)
Definition perform (q : request) : act () := a ← ask q; match a with AOk => mret () | a => fail (error_of a) end.
Definition perform_or (pre : text) (q : request) : act () := a ← ask q; match a with AOk => mret () | a => fail (wrapped pre (error_of a)) end.

(** [filepath.Base] *)
Definition Base (p : string) : string :=
  if (p =? "")%string then "."
  else let t := TrimRightByte "/" p in
       if (t =? "")%string then "/" else match split_last "/" t with Some (_, b) => b | None => t end.

Section manager.
Variables (encode : persistedCredential → string) (decode : string → option persistedCredential).

(** ** The file *)

Definition credentialBackupPath (path : string) : string := path +:+ ".previous".

Definition usable (c : persistedCredential) : bool :=
  (pc_Version c =? 1)%Z && negb (pc_AgentID c =? "")%string && negb (pc_RefreshToken c =? "")%string && negb (pc_RefreshExpiresAt c =? zero_time)%Z.

Definition readCredentialFile (path : string) : act persistedCredential :=
  perform (QCheckDir (Dir path)) ;;
  a ← ask (QRead path);
  match a with
  | AText b =>
      match decode b with
      | None => fail (Other [Lit "parse credential file"])
      | Some c => if usable c then mret c else fail (Other [Lit "credential file is invalid"])
      end
  | a => fail (error_of a)
  end.

(** From the first rename on; [had] is whether there was a previous file. *)
Definition install (path tmp : string) (had : bool) : act () :=
  let backup := credentialBackupPath path in
  let dir := Dir path in
  r ← attempt (perform (QRename tmp path));
  match r with
  | Fails e => (if had then _ ← ask (QRename backup path); mret () else mret ()) ;; fail e
  | Done _ =>
      s ← attempt (perform (QSync dir));
      match s with
      | Fails e =>
          (if had then a ← ask (QRename backup path); match a with AOk => _ ← ask (QSync dir); mret () | _ => mret () end else mret ()) ;; fail e
      | Done _ => if had then perform (QRemove backup) ;; perform (QSync dir) else mret ()
      end
  end.

Definition fill_and_install (path tmp content : string) : act () :=
  let backup := credentialBackupPath path in
  a ← ask (QLstat backup);
  match a with
  | AOk => fail (Other [Lit "credential backup recovery is required"])
  | AMissing =>
      perform (QFill tmp content) ;;
      b ← ask (QLstat path);
      match b with
      | AOk => perform (QRename path backup) ;; install path tmp true
      | AMissing => install path tmp false
      | b => fail (error_of b)
      end
  | a => fail (error_of a)
  end.

Definition writeCredentialFile (path : string) (c : persistedCredential) : act () :=
  if (path =? "")%string then fail (Other [Lit "credential file is required"])
  else if negb (usable c) then fail (Other [Lit "credential is invalid"])
  else
    perform (QCheckDir (Dir path)) ;;
    t ← ask (QCreateTemp (Dir path));
    match t with
    | AText tmp =>
        r ← attempt (fill_and_install path tmp (encode c));
        _ ← ask (QRemove tmp);
        match r with Done _ => mret () | Fails e => fail e end
    | a => fail (error_of a)
    end.

Definition removeStaleCredentialBackup (path : string) : act () :=
  let backup := credentialBackupPath path in
  a ← ask (QLstat backup);
  match a with
  | AMissing => mret ()
  | AOk => perform_or [Lit "remove stale credential backup: "] (QRemove backup) ;; perform_or [Lit "remove stale credential backup: "] (QSync (Dir path))
  | a => fail (wrapped [Lit "inspect credential backup: "] (error_of a))
  end.

Definition validateDefaultCredentialPath (path : string) : act () :=
  perform (QCheckRedirect (Dir (Dir path))) ;; perform (QCheckRedirect (Dir path)).

Definition prepare_directory (dir : string) : act () :=
  a ← ask (QMkdir dir);
  match a with AOk | AExists => mret () | a => fail (wrapped [Lit "create credential directory: "] (error_of a)) end ;;
  perform (QCheckRedirect dir) ;; perform (QCheckDir dir).
Definition prepareDefaultCredentialDirectory (path : string) : act () := prepare_directory (Dir (Dir path)) ;; prepare_directory (Dir path).

Definition default_file (agentID : string) : act string := a ← ask (QDefaultFile agentID); match a with AText p => mret p | a => fail (error_of a) end.

Definition ensureCredentialFile (agentID : string) : act () :=
  m ← get;
  if negb (cm_credentialFile m =? "")%string then mret ()
  else if negb (ValidatePortable agentID) then fail (Other [Lit "agent ID is not portable"])
  else
    path ← default_file agentID;
    prepareDefaultCredentialDirectory path ;;
    modify (λ m, set_file path (cm_discoveredAgentID m) m).

(** ** Loading *)

Definition validateCredential (now : Z) (c : persistedCredential) (m : CredentialManager) : option text :=
  if negb (cm_configuredAgentID m =? "")%string && negb (pc_AgentID c =? cm_configuredAgentID m)%string then Some [Lit "credential file agent ID "; Quo (pc_AgentID c); Lit " does not match configured agent ID "; Quo (cm_configuredAgentID m)]
  else if negb (cm_discoveredAgentID m =? "")%string && negb (pc_AgentID c =? cm_discoveredAgentID m)%string then Some [Lit "credential file agent ID "; Quo (pc_AgentID c); Lit " does not match credential directory "; Quo (cm_discoveredAgentID m)]
  else if negb (now <? pc_RefreshExpiresAt c)%Z then Some [Lit "agent refresh credential has expired"]
  else None.
Definition clock : act Z := a ← ask QNow; mret (match a with ANow t => t | _ => 0%Z end).
Definition check_credential (c : persistedCredential) : act () :=
  now ← clock; m ← get; match validateCredential now c m with Some e => fail (Other e) | None => mret () end.

Definition useCredential (c : persistedCredential) : act () :=
  check_credential c ;; modify (λ m, set_loaded (if (cm_agentID m =? "")%string then pc_AgentID c else cm_agentID m) c m).

Definition has_enrollment (m : CredentialManager) : bool := negb (cm_enrollmentTokenFile m =? "")%string || negb (cm_enrollmentToken m =? "")%string.
Definition nothing_loaded : act () := modify (λ m, set_loaded (cm_agentID m) (cm_refresh m) m).

(** The path of the file, unless there is none to load. *)
Definition locate : act bool :=
  m ← get;
  if negb (cm_credentialFile m =? "")%string then mret true
  else if negb (cm_configuredAgentID m =? "")%string then
    path ← default_file (cm_configuredAgentID m); modify (λ m, set_file path (cm_discoveredAgentID m) m) ;; mret true
  else
    a ← ask QDiscover;
    match a with
    | AText path =>
        if (path =? "")%string then nothing_loaded ;; mret false
        else modify (set_file path (Base (Dir path))) ;; mret true
    | a => fail (error_of a)
    end.

(** What is done when the file cannot be used, [e] saying why. *)
Definition load_backup (path : string) (e : cerr) : act () :=
  let backup := credentialBackupPath path in
  b ← attempt (readCredentialFile backup);
  match b with
  | Done c =>
      (if IsNotExist e then mret () else perform_or [Lit "remove invalid credential file: "] (QRemove path)) ;;
      perform_or [Lit "restore credential backup: "] (QRename backup path) ;;
      perform_or [Lit "restore credential backup: "] (QSync (Dir path)) ;;
      useCredential c
  | Fails be =>
      if negb (IsNotExist be) then fail (wrapped [Lit "read credential backup: "] be)
      else m ← get; if IsNotExist e && has_enrollment m then nothing_loaded else fail e
  end.

Definition load_file (path : string) : act () :=
  r ← attempt (readCredentialFile path);
  match r with
  | Done c =>
      v ← attempt (check_credential c);
      match v with
      | Done _ => removeStaleCredentialBackup path ;; useCredential c
      | Fails e => load_backup path e
      end
  | Fails e => load_backup path e
  end.

Definition loadRefreshCredential : act () :=
  m ← get;
  if cm_loaded m then mret ()
  else
    there ← locate;
    if negb there then mret ()
    else
      m ← get;
      let path := cm_credentialFile m in
      d ← ask (QStat (Dir path));
      match d with
      | AMissing => if has_enrollment m then nothing_loaded else (if cm_defaultCredentialPath m then validateDefaultCredentialPath path else mret ()) ;; load_file path
      | _ => (if cm_defaultCredentialPath m then validateDefaultCredentialPath path else mret ()) ;; load_file path
      end.

(** ** Exchanges *)

Definition exchange (e : endpoint) (credential : string) : act AgentTokenResponse :=
  a ← ask (QPost e credential);
  match a with
  | AResponse r => mret r
  | AStatus code after => fail (RequestError code ((code =? 429)%Z || (500 <=? code)%Z) after)
  | ANoAnswer => fail (RequestError 0 true 0)
  | ABadBody => fail (Other [Lit "credential response is invalid"])
  | a => fail (error_of a)
  end.

Fixpoint exchange_attempts (attempts : nat) (tried : Z) (e : endpoint) (credential : string) : act AgentTokenResponse :=
  match attempts with
  | 0 => fail (Other [Lit "credential request failed"])
  | S attempts =>
      r ← attempt (exchange e credential);
      match r with
      | Done r => mret r
      | Fails err =>
          match err with
          | RequestError _ true after =>
              if bool_decide (attempts = 0) then fail err
              else
                perform (QSleep (if (after <=? 0)%Z then (tried + 1) * (second / 10) else after)) ;;
                exchange_attempts attempts (tried + 1) e credential
          | _ => fail err
          end
      end
  end.
Definition exchangeWithRetry : endpoint → string → act AgentTokenResponse := exchange_attempts credentialRetryAttempts 0.

Definition persistTokenResponse (r : AgentTokenResponse) (enrolled : bool) : act string :=
  m ← get;
  match ts_RefreshExpiresAt r with
  | None => fail (Other [Lit "credential response is invalid"])
  | Some expires =>
      if (ts_AgentID r =? "")%string || (ts_AccessToken r =? "")%string || (ts_RefreshToken r =? "")%string then fail (Other [Lit "credential response is invalid"])
      else if negb (cm_configuredAgentID m =? "")%string && negb (ts_AgentID r =? cm_configuredAgentID m)%string then fail (Other [Lit "credential response agent ID does not match configured agent ID"])
      else if negb enrolled && negb (cm_agentID m =? "")%string && negb (ts_AgentID r =? cm_agentID m)%string then fail (Other [Lit "credential response agent ID does not match loaded agent ID"])
      else
        ensureCredentialFile (ts_AgentID r) ;;
        let next := MkPersisted 1 (ts_AgentID r) (ts_RefreshToken r) expires in
        m ← get;
        (if cm_defaultCredentialPath m then validateDefaultCredentialPath (cm_credentialFile m) else mret ()) ;;
        w ← attempt (writeCredentialFile (cm_credentialFile m) next);
        match w with
        | Fails e => fail (wrapped [Lit "persist agent credentials: "] e)
        | Done _ => modify (set_issued r next) ;; mret (ts_AccessToken r)
        end
  end.

(** ** The calls *)

Definition enrollmentTokenValue : act (string * option cerr) :=
  m ← get;
  if cm_enrollmentTokenLoaded m then mret (cm_enrollmentToken m, cm_enrollmentTokenErr m)
  else if negb (TrimSpace (cm_enrollmentToken m) =? "")%string then
    modify (set_enrollment (TrimSpace (cm_enrollmentToken m)) None) ;; mret (TrimSpace (cm_enrollmentToken m), None)
  else if (cm_enrollmentTokenFile m =? "")%string then modify (set_enrollment "" None) ;; mret ("", None)
  else
    a ← ask (QReadSecret (cm_enrollmentTokenFile m));
    match a with
    | AText b =>
        if (TrimSpace b =? "")%string then
          let e := Other [Lit "enrollment token file is empty"] in modify (set_enrollment "" (Some e)) ;; mret ("", Some e)
        else modify (set_enrollment (TrimSpace b) None) ;; mret (TrimSpace b, None)
    | a => let e := wrapped [Lit "read enrollment token file: "] (error_of a) in modify (set_enrollment "" (Some e)) ;; mret ("", Some e)
    end.

Definition refresh_and_persist : act string :=
  m ← get; r ← exchangeWithRetry Refresh (pc_RefreshToken (cm_refresh m)); persistTokenResponse r false.

(** After the enrollment token was refused. *)
Definition enroll_refused (originalErr : cerr) : act string :=
  l ← attempt loadRefreshCredential;
  match l with
  | Fails e => fail (if IsNotExist e then originalErr else e)
  | Done _ => m ← get; if (pc_RefreshToken (cm_refresh m) =? "")%string then fail originalErr else refresh_and_persist
  end.

(** [Token], once the cached access token will not do. *)
Definition obtain_token : act string :=
  t ← enrollmentTokenValue;
  let '(enrollmentToken, tokenErr) := t in
  m ← get;
  if negb (cm_bootstrapDone m) && negb (enrollmentToken =? "")%string then
    r ← attempt (exchangeWithRetry Enroll enrollmentToken);
    match r with
    | Done r => persistTokenResponse r true
    | Fails err => match err with RequestError 401 _ _ => enroll_refused err | _ => fail err end
    end
  else
    loadRefreshCredential ;;
    m ← get;
    if (pc_RefreshToken (cm_refresh m) =? "")%string then fail (default (Other [Lit "agent credentials are required"]) tokenErr)
    else refresh_and_persist.

Definition Token : act string :=
  m ← get;
  if (cm_accessToken m =? "")%string then obtain_token
  else
    now ← clock;
    if (now + (tokenRefreshLeadTime + cm_refreshJitter m) <? cm_accessExpires m)%Z then mret (cm_accessToken m) else obtain_token.

Definition EnsureIdentity : act string :=
  t ← enrollmentTokenValue;
  let '(enrollmentToken, tokenErr) := t in
  m ← get;
  if negb (cm_bootstrapDone m) && negb (enrollmentToken =? "")%string then _ ← Token; m ← get; mret (cm_agentID m)
  else if negb (cm_agentID m =? "")%string then mret (cm_agentID m)
  else
    loadRefreshCredential ;;
    m ← get;
    if negb (cm_agentID m =? "")%string then mret (cm_agentID m)
    else match tokenErr with Some e => fail e | None => _ ← Token; m ← get; mret (cm_agentID m) end.
End manager.
