(* ===== verification/CredentialsFacts.v ===== *)
(** * The credential an agent presents is one the controller still honours

    The agent's manager over a directory of which a power failure may undo what was not
    synced, and the controller's refresh credentials as [AgentIds] rotates them: the
    process may be killed, the power fail and any answer be lost at every point. *)

From S2P Require Import Prelude GoStrings GoPath Programs VolumeMounts AgentPolicies AgentIds AgentEnroll AgentIdsFacts Credentials.
From stdpp Require Import options.

(** ** The controller's side *)

(** A refresh credential that was not revoked: not yet replaced, or replaced. *)
Inductive standing := Current | Superseded (by_ : string).
Abbreviation tokens := (gmap string standing).

(** Not replaced, or replaced by one that was never used: the controller exchanges it,
    the latter while its overlap lasts ([live_exchanged]). *)
Definition live (ts : tokens) (tok : string) : Prop :=
  ts !! tok = Some Current ∨ ∃ h, ts !! tok = Some (Superseded h) ∧ ts !! h = Some Current.

(** A refresh that is served: [new] replaces the presented one, and what had replaced
    that before is revoked. *)
Inductive rotated (ts : tokens) (tok new : string) : tokens → Prop :=
| rt_first : ts !! tok = Some Current → ts !! new = None → rotated ts tok new (<[new := Current]> (<[tok := Superseded new]> ts))
| rt_again h : ts !! tok = Some (Superseded h) → ts !! h = Some Current → ts !! new = None →
    rotated ts tok new (<[new := Current]> (<[tok := Superseded new]> (delete h ts))).

Lemma rotated_live ts tok new ts' : rotated ts tok new ts' → live ts' new ∧ live ts' tok.
Proof.
  intros [Ht Hn|h Ht Hh Hn]; (split; [left; by rewrite lookup_insert_eq|right; exists new]); (split; [|by rewrite lookup_insert_eq]); rewrite lookup_insert_ne by congruence; by rewrite lookup_insert_eq.
Qed.

Lemma live_grows ts tok new : ts !! new = None → live ts tok → live (<[new := Current]> ts) tok.
Proof.
  intros Hn [H|(h & H & Hh)]; [left|right; exists h]; rewrite !lookup_insert_ne by congruence; done.
Qed.

(** The standing of a credential in the tables of the controller. *)
Definition standing_of (c : AgentCredential) : option standing :=
  if bool_decide (cr_Kind c = refresh) && bool_decide (cr_RevokedAt c = None) then
    match cr_SupersededAt c, cr_ReplacedBy c with
    | None, None => Some Current
    | Some _, Some rid => Some (Superseded rid)
    | _, _ => None
    end
  else None.
Definition standings (d : agent_db) : tokens := omap standing_of (ad_credentials d).

Lemma insert_standings id c d d' :
  insertAgentCredential id c d = Some d' →
  ad_credentials d !! nc_ID c = None
  ∧ standings d' = match nc_Kind c with refresh => <[nc_ID c := Current]> (standings d) | access => standings d end
  ∧ (∀ k, k ≠ nc_ID c → ad_credentials d' !! k = ad_credentials d !! k) ∧ is_Some (ad_credentials d' !! nc_ID c).
Proof.
  unfold insertAgentCredential. destruct (_ || _) eqn:E; [done|]. intros [= <-].
  assert (ad_credentials d !! nc_ID c = None) as Hn.
  { destruct (bool_decide (is_Some (ad_credentials d !! nc_ID c))) eqn:Eb; [by rewrite ?orb_true_l in E|]. apply bool_decide_eq_false in Eb. by apply eq_None_not_Some. }
  split; [done|]. cbn [ad_credentials set_credentials]. split; [|split; [intros k Hk; by rewrite lookup_insert_ne|rewrite lookup_insert_eq; by eexists]]. unfold standings. cbn [ad_credentials set_credentials]. destruct (nc_Kind c) eqn:Ek.
  - rewrite omap_insert_None by done. rewrite delete_id; [done|]. by rewrite lookup_omap, Hn.
  - by rewrite (omap_insert_Some _ _ _ _ Current) by done.
Qed.

Lemma standings_alter d id c upd st : ad_credentials d !! id = Some c → standing_of (upd c) = Some st → standings (set_credentials (alter upd id (ad_credentials d)) d) = <[id := st]> (standings d).
Proof.
  intros Hc Hs. unfold standings. cbn [ad_credentials set_credentials]. apply map_eq. intros k. rewrite lookup_omap. destruct (decide (id = k)) as [<-|Hk].
  - rewrite lookup_insert_eq, lookup_alter_eq, Hc. done.
  - by rewrite lookup_insert_ne, lookup_alter_ne, lookup_omap by done.
Qed.

Lemma standings_revoke d id now : standings (set_credentials (alter (revoke now) id (ad_credentials d)) d) = delete id (standings d).
Proof.
  unfold standings. cbn [ad_credentials set_credentials]. apply map_eq. intros k. rewrite lookup_omap. destruct (decide (id = k)) as [<-|Hk].
  - rewrite lookup_delete_eq, lookup_alter_eq. destruct (ad_credentials d !! id) as [c|]; [|done]. cbn. unfold standing_of, mark. cbn. by rewrite andb_false_r.
  - by rewrite lookup_delete_ne, lookup_alter_ne, lookup_omap by done.
Qed.

Lemma standing_row c st : standing_of c = Some st → cr_Kind c = refresh ∧ cr_RevokedAt c = None ∧
  match st with Current => cr_SupersededAt c = None ∧ cr_ReplacedBy c = None | Superseded h => is_Some (cr_SupersededAt c) ∧ cr_ReplacedBy c = Some h end.
Proof.
  unfold standing_of. destruct (bool_decide (cr_Kind c = refresh)) eqn:Ek; [|done]. destruct (bool_decide (cr_RevokedAt c = None)) eqn:Er; [|done]. apply bool_decide_eq_true in Ek, Er. cbn [andb].
  destruct (cr_SupersededAt c), (cr_ReplacedBy c); try done; intros [= <-]; naive_solver.
Qed.

(** What [RotateAgentRefresh] does to the standings is [rotated]. *)
Lemma rotation_refines currentID hash now acc ref overlap d i d' :
  nc_Kind acc = access → nc_Kind ref = refresh →
  (∀ c, ad_credentials d !! currentID = Some c → is_Some (standing_of c)) →
  RotateAgentRefresh currentID hash now acc ref overlap d = (inr i, d') → rotated (standings d) currentID (nc_ID ref) (standings d').
Proof.
  intros Hacc Href Hst. unfold RotateAgentRefresh. destruct (ad_credentials d !! currentID) as [c|] eqn:Ec; [|done]. destruct (ad_identities d !! _); [|done].
  destruct (bool_decide _); [done|]. destruct (_ || _) eqn:Eu; [done|]. destruct (cr_FamilyID c) as [f|]; [|done].
  destruct (rotation_allowed (cr_IdentityID c) f c now d) as [lost|] eqn:Er; [|done]. destruct (rotate_to _ _ _ _ _ _ _ _ _ _) as [d1|] eqn:Et; [|done]. intros [= _ <-].
  destruct (Hst c eq_refl) as [st Hs]. destruct (standing_row c st Hs) as (Hk & Hrev & Hsup). unfold rotate_to in Et. set (d0 := match lost with Some _ => _ | None => _ end) in Et.
  destruct (insertAgentCredential _ _ d0) as [da|] eqn:Ea; [|done]. cbn [mbind option_bind] in Et. destruct (insertAgentCredential _ _ da) as [db|] eqn:Eb; [|done]. cbn [mbind option_bind] in Et. injection Et as <-.
  apply insert_standings in Ea as (Hna & Ea & Ka & Sa). apply insert_standings in Eb as (Hnb & Eb & Kb & _). cbn [in_family nc_Kind nc_ID] in Ea, Eb, Hna, Hnb, Ka, Kb, Sa. rewrite Hacc in Ea. rewrite Href in Eb. rewrite Ea in Eb. clear Ea.
  assert (standings d !! currentID = Some st) as Hcur by (unfold standings; by rewrite lookup_omap, Ec).
  assert (nc_ID ref ≠ nc_ID acc) as Hne by (intros E; rewrite E in Hnb; rewrite Hnb in Sa; by destruct Sa). rewrite Ka in Hnb by done.
  assert (ad_credentials d0 !! currentID = Some c → ad_credentials db !! currentID = Some c ∧ currentID ≠ nc_ID ref) as Hdb.
  { intros H0. assert (ad_credentials da !! currentID = Some c) as H1 by (rewrite Ka; [done|congruence]). split; [rewrite Kb; [done|congruence]|congruence]. }
  set (upd := match cr_SupersededAt c with None => _ | Some _ => _ end).
  assert (standing_of (upd c) = Some (Superseded (nc_ID ref))) as Hupd.
  { unfold upd, standing_of. destruct (cr_SupersededAt c) eqn:Es; cbn; rewrite Hk, Hrev, ?Es; done. }
  unfold rotation_allowed in Er. destruct st as [|h].
  - destruct Hsup as [Hs1 _]. rewrite Hs1 in Er. injection Er as <-. destruct (Hdb Ec) as [Hdb1 Hne']. rewrite (standings_alter db currentID c upd _ Hdb1 Hupd), Eb, insert_insert_ne by done.
    apply rt_first; [done|]. unfold standings. rewrite lookup_omap. by rewrite Hnb.
  - destruct Hsup as [[sup Hs1] Hs2]. rewrite Hs1, Hs2 in Er. destruct (cr_OverlapExpiresAt c) as [z|]; [|done]. destruct (negb (now <? z)%Z); [done|]. revert Er. destruct (ad_credentials d !! h) as [r|] eqn:Eh; [|done]. destruct (replacementIsSafe _ _ _ _ r) eqn:Esafe; [|done]. intros [= <-].
    assert (standing_of r = Some Current) as Hr.
    { unfold replacementIsSafe in Esafe. rewrite !andb_true_iff, !bool_decide_eq_true in Esafe. destruct Esafe as (((((((_ & E1) & _) & _) & E2) & E3) & E4) & _). unfold standing_of. by rewrite E1, E2, E3, E4. }
    assert (h ≠ currentID) as Hh by (intros ->; rewrite Ec in Eh; injection Eh as <-; by rewrite Hs in Hr). cbn [d0 set_credentials ad_credentials] in Hdb, Hnb. rewrite lookup_alter_ne in Hdb by done.
    destruct (Hdb Ec) as [Hdb1 Hne']. rewrite (standings_alter db currentID c upd _ Hdb1 Hupd), Eb, insert_insert_ne by done. unfold d0. rewrite standings_revoke. apply (rt_again _ _ _ h); [done|unfold standings; by rewrite lookup_omap, Eh|].
    unfold standings. rewrite lookup_omap. destruct (decide (h = nc_ID ref)) as [E|Hhr]; [exfalso; rewrite <- E, lookup_alter_eq, Eh in Hnb; discriminate Hnb|]. rewrite lookup_alter_ne in Hnb by done. by rewrite Hnb.
Qed.

(** A credential that was replaced is exchanged again only while its overlap lasts. *)
Definition overlap_lasts (now : Z) (c : AgentCredential) : Prop :=
  is_Some (cr_SupersededAt c) → ∃ limit, cr_OverlapExpiresAt c = Some limit ∧ (now < limit)%Z.

Lemma live_exchanged d tok c f now :
  ids_wf d → live (standings d) tok → ad_credentials d !! tok = Some c → cr_FamilyID c = Some f →
  (∀ k r, ad_credentials d !! k = Some r → (now < cr_ExpiresAt r)%Z) →
  is_Some (rotation_allowed (cr_IdentityID c) f c now d) ↔ overlap_lasts now c.
Proof.
  intros [_ Hlinks] Hlive Hc Hf Hx. unfold live, standings in Hlive. rewrite lookup_omap, Hc in Hlive. unfold rotation_allowed, overlap_lasts.
  destruct Hlive as [H|(h & H & Hh)]; cbn in H; apply standing_row in H as (_ & _ & Hs).
  - destruct Hs as [-> _]. split; [by intros _ []|by eexists].
  - destruct Hs as [[t Ht] Hr]. rewrite Ht, Hr. assert (is_Some (Some t)) as St by (by eexists).
    destruct (Hlinks tok c Hc ltac:(by rewrite Ht)) as (_ & [limit El] & f' & rid & r & Hf' & Hrid & Er & _ & Hfam & Hgen & Hid). rewrite El.
    assert (f' = f) as -> by congruence. assert (rid = h) as -> by congruence. rewrite lookup_omap, Er in Hh. cbn in Hh. apply standing_row in Hh as (Kr & Rr & Sr & Pr).
    destruct (Z.ltb_spec now limit) as [Hl|Hl]; cbn [negb]; [|split; [by intros []|intros H0; destruct (H0 St) as (? & [= <-] & ?); lia]].
    split; [intros _ _; by exists limit|intros _]. rewrite Er. unfold replacementIsSafe, of_family.
    rewrite Hid, Hgen, Hfam, Kr, Rr, Sr, Pr, String.eqb_refl, Z.eqb_refl, !bool_decide_true by done. cbn. rewrite (proj2 (Z.ltb_lt _ _) (Hx _ _ Er)). by eexists.
Qed.

(** ** The agent's side *)

(** The directory of the credential file: what is there, and what a power failure may
    still bring back, since the directory was synced. *)
Abbreviation dir := (gmap string string).
Record world := MkWorld { w_dir : dir; w_past : list dir; w_tokens : tokens }.
Definition all_dirs (w : world) : list dir := w_dir w :: w_past w.
Definition moved (d : dir) (w : world) : world := MkWorld d (w_dir w :: w_past w) (w_tokens w).

Section agent.
Context (encode : persistedCredential → string) (decode : string → option persistedCredential).
(** The credential file, the agent's ID, and the time before which nothing expires;
    [kept] when there was a credential from the beginning. *)
Context (path agentID : string) (horizon : Z) (kept : bool).
Hypothesis json : ∀ c, decode (encode c) = Some c.
Let backup := credentialBackupPath path.

Definition no_effect (q : request) (a : answer) : Prop :=
  match q, a with
  | QNow, ANow t => (t < horizon)%Z
  | QSleep _, (AOk | AFail _) => True
  | QPost _ _, (AStatus _ _ | ANoAnswer | ABadBody | AFail _) => True
  | QReadSecret _, (AText _ | AMissing | AFail _) => True
  | QDefaultFile _, AFail _ | QDiscover, AFail _ => True
  | QDefaultFile _, AText p => p = path
  | QStat _, (AOk | AMissing | AFail _) => True
  | QMkdir _, (AOk | AExists | AMissing | AFail _) => True
  | QCheckRedirect _, (AOk | AMissing | AFail _) => True
  | QCheckDir d, AOk => True
  | QCheckDir d, (AMissing | AFail _) => d ≠ Dir path
  | (QLstat _ | QRename _ _ | QCreateTemp _ | QFill _ _), AFail _ => True
  | QRemove p, AFail _ => p ≠ backup
  | QRead p, AFail _ => p ≠ path
  | _, _ => False
  end.

Definition response (new : string) (r : AgentTokenResponse) : Prop :=
  ts_AgentID r = agentID ∧ ts_RefreshToken r = new ∧ ∀ t, ts_RefreshExpiresAt r = Some t → (horizon <= t)%Z.

(** Reading the credential file, checking its directory, removing its backup and
    syncing the directory do not fail; everything else may.  An answer of the controller
    may be lost.  A credential that was replaced is presented while its overlap lasts
    ([overlap_lasts]): later, its family is revoked. *)
Inductive serve (w : world) : request → world → answer → Prop :=
| sv_none q a : no_effect q a → serve w q w a
| sv_discover : Base (Dir path) = agentID → serve w QDiscover w (AText (if decide (is_Some (w_dir w !! path)) then path else EmptyString))
| sv_lstat p : serve w (QLstat p) w (if decide (is_Some (w_dir w !! p)) then AOk else AMissing)
| sv_read p : serve w (QRead p) w (match w_dir w !! p with Some c => AText c | None => AMissing end)
| sv_remove p : serve w (QRemove p) (moved (delete p (w_dir w)) w) (if decide (is_Some (w_dir w !! p)) then AOk else AMissing)
| sv_rename a b c : w_dir w !! a = Some c → serve w (QRename a b) (moved (<[b := c]> (delete a (w_dir w))) w) AOk
| sv_rename_none a b : w_dir w !! a = None → serve w (QRename a b) w AMissing
| sv_sync d : serve w (QSync d) (MkWorld (w_dir w) [] (w_tokens w)) AOk
| sv_temp d t : t ≠ path → t ≠ backup → serve w (QCreateTemp d) (moved (<[t := EmptyString]> (w_dir w)) w) (AText t)
| sv_fill t c c' a : t ≠ path → t ≠ backup → a = AOk ∧ c' = c ∨ (∃ e, a = AFail e) → serve w (QFill t c) (moved (<[t := c']> (w_dir w)) w) a
| sv_refresh tok new ts r a :
    rotated (w_tokens w) tok new ts → response new r → a = AResponse r ∨ no_effect (QPost Refresh tok) a →
    serve w (QPost Refresh tok) (MkWorld (w_dir w) (w_past w) ts) a
| sv_enroll tok new r a :
    w_tokens w !! new = None → response new r → a = AResponse r ∨ no_effect (QPost Enroll tok) a →
    serve w (QPost Enroll tok) (MkWorld (w_dir w) (w_past w) (<[new := Current]> (w_tokens w))) a.

(** ** What survives *)

Definition good (c : string) : Prop := ∃ cr, c = encode cr ∧ usable cr = true ∧ pc_AgentID cr = agentID ∧ (horizon <= pc_RefreshExpiresAt cr)%Z.
Definition token_of (c : string) : option string := pc_RefreshToken <$> decode c.
(** The credential a start finds. *)
Definition recovers (d : dir) : option string := match d !! path with Some c => token_of c | None => d !! backup ≫= token_of end.
Definition shape (d : dir) : Prop := ∀ p c, p = path ∨ p = backup → d !! p = Some c → good c.
Definition fine (ts : tokens) (d : dir) : Prop := shape d ∧ (∀ t, recovers d = Some t → live ts t) ∧ (kept = true → is_Some (recovers d)).
Definition crash_ok (w : world) : Prop := ∀ d, d ∈ all_dirs w → fine (w_tokens w) d.
Definition settled (w : world) (t : string) : Prop := ∀ d t', d ∈ all_dirs w → recovers d = Some t' → t' = t.

(** ** Programs *)

Definition asks (w : world) (q : request) : Prop := match q with QPost Refresh tok => live (w_tokens w) tok | _ => True end.

Fixpoint wp {X} (p : prog X) (Q : X → world → Prop) (w : world) : Prop :=
  match p with
  | Programs.Ret x => Q x w
  | Programs.Do q k => asks w q ∧ ∀ w' a, serve w q w' a → crash_ok w' ∧ wp (k a) Q w'
  end.
Definition post (A : Type) : Type := CredentialManager → out A → world → Prop.
Definition wpa {A} (p : act A) (m : CredentialManager) (Q : post A) (w : world) : Prop := wp (p m) (λ x w, Q x.1 x.2 w) w.

Lemma cred_wp_mono {X} (p : prog X) (Q Q' : X → world → Prop) w : (∀ x w, Q x w → Q' x w) → wp p Q w → wp p Q' w.
Proof using. intros HQ. revert w. induction p as [x|q k IH]; intros w; cbn; [apply HQ|]. intros [Ha H]. split; [done|]. intros w' a Hs. destruct (H w' a Hs). split; [done|]. by apply IH. Qed.

Lemma cred_wp_bind {X Y} (p : prog X) (f : X → prog Y) Q w : wp p (λ x w, wp (f x) Q w) w → wp (p ≫= f) Q w.
Proof using.
  unfold mbind, prog_bind. revert w. induction p as [x|q k IH]; intros w; cbn; [done|]. intros [Ha H]. split; [done|]. intros w' a Hs. destruct (H w' a Hs). split; [done|]. by apply IH.
Qed.

Lemma wpa_bind {A B} (p : act A) (f : A → act B) m Q w : wpa p m (λ m r w, match r with Done a => wpa (f a) m Q w | Fails e => Q m (Fails e) w end) w → wpa (p ≫= f) m Q w.
Proof using. unfold wpa. intros H. unfold mbind, act_bind. apply cred_wp_bind. eapply cred_wp_mono; [|exact H]. intros [m' [a|e]] w'; cbn; done. Qed.

Lemma wpa_mono {A} (p : act A) m (Q Q' : post A) w : (∀ m r w, Q m r w → Q' m r w) → wpa p m Q w → wpa p m Q' w.
Proof using. intros HQ. apply cred_wp_mono. intros x w'. apply HQ. Qed.

Lemma wpa_attempt {A} (p : act A) m Q w : wpa p m (λ m r w, Q m (Done r) w) w → wpa (attempt p) m Q w.
Proof using. intros H. unfold wpa, attempt. apply cred_wp_bind. eapply cred_wp_mono; [|exact H]. done. Qed.

Lemma wpa_ask q m (Q : post answer) w : asks w q → (∀ w' a, serve w q w' a → crash_ok w' ∧ Q m (Done a) w') → wpa (ask q) m Q w.
Proof using. intros Ha H. split; [done|]. intros w' a Hs. by apply H. Qed.

(** A request that leaves the world as it is. *)
Definition quiet (q : request) : Prop :=
  match q with QRemove _ | QRename _ _ | QSync _ | QCreateTemp _ | QFill _ _ | QPost _ _ => False | _ => True end.
Lemma serve_quiet w q w' a : quiet q → serve w q w' a → w' = w.
Proof using. intros Hq. by destruct 1. Qed.

Lemma wpa_quiet q m (Q : post answer) w : quiet q → crash_ok w → (∀ a, serve w q w a → Q m (Done a) w) → wpa (ask q) m Q w.
Proof using. intros Hq Hc H. apply wpa_ask; [by destruct q|]. intros w' a Hs. pose proof (serve_quiet _ _ _ _ Hq Hs) as ->. split; [done|by apply H]. Qed.
Lemma wpa_check q m (Q : post ()) w : quiet q → crash_ok w → (serve w q w AOk → Q m (Done ()) w) → (∀ e, Q m (Fails e) w) → wpa (perform q) m Q w.
Proof using.
  intros Hq Hc H1 H2. unfold perform. apply wpa_bind, wpa_quiet; [done|done|]. intros a Hs. destruct a; cbn; first [by apply H1|by apply H2].
Qed.

(** ** Directories *)

Lemma backup_ne : backup ≠ path.
Proof using. unfold backup, credentialBackupPath. intros H%(f_equal String.length). rewrite str_length_app in H. cbn in H. lia. Qed.

Lemma recovers_other d d' : d' !! path = d !! path → d' !! backup = d !! backup → recovers d' = recovers d.
Proof using. unfold recovers. by intros -> ->. Qed.
Lemma shape_other d d' : d' !! path = d !! path → d' !! backup = d !! backup → shape d → shape d'.
Proof using. intros H1 H2 H p c [->| ->]; [rewrite H1|rewrite H2]; apply H; auto. Qed.
Lemma shape_pair d : (∀ c, d !! path = Some c → good c) → (∀ c, d !! backup = Some c → good c) → shape d.
Proof using. intros H1 H2 p c [->| ->]; auto. Qed.

(** So far nothing was changed of what a start finds; or it is [tok]. *)
Definition before (w w1 : world) : Prop := w_tokens w1 = w_tokens w ∧ ∀ d, d ∈ all_dirs w1 → shape d ∧ ∃ d0, d0 ∈ all_dirs w ∧ recovers d = recovers d0.
Definition during (w : world) (tok : string) (w1 : world) : Prop :=
  w_tokens w1 = w_tokens w ∧ ∀ d, d ∈ all_dirs w1 → shape d ∧ (recovers d = Some tok ∨ ∃ d0, d0 ∈ all_dirs w ∧ recovers d = recovers d0).
Definition ends {A} (w : world) (tok : string) (r : out A) (w1 : world) : Prop :=
  match r with Done _ => w_tokens w1 = w_tokens w ∧ ∀ d, d ∈ all_dirs w1 → shape d ∧ recovers d = Some tok | Fails _ => before w w1 end.

Lemma before_refl w : crash_ok w → before w w.
Proof using. intros H. split; [done|]. intros d Hd. split; [by apply H|by exists d]. Qed.
Lemma before_during w tok w1 : before w w1 → during w tok w1.
Proof using. intros [H1 H2]. split; [done|]. intros d Hd. destruct (H2 d Hd). split; [done|by right]. Qed.
Lemma during_ok w tok w1 : crash_ok w → live (w_tokens w) tok → during w tok w1 → crash_ok w1.
Proof using.
  intros Hc Hl [Ht H] d Hd. destruct (H d Hd) as [Hs [E|(d0 & Hd0 & E)]]; rewrite Ht; (split; [done|]); rewrite E; [split; [by intros t [= <-]|by eexists]|]. apply (Hc d0 Hd0).
Qed.
Lemma before_ok w w1 : crash_ok w → before w w1 → crash_ok w1.
Proof using. intros Hc [Ht H] d Hd. destruct (H d Hd) as [Hs (d0 & Hd0 & E)]. split; [done|]. rewrite E, Ht. apply (Hc d0 Hd0). Qed.
Lemma before_moved w w1 d : before w w1 → shape d → recovers d = recovers (w_dir w1) → before w (moved d w1).
Proof using.
  intros [Ht H] Hs E. split; [done|]. intros d' [->|Hd']%elem_of_cons; [|by apply H]. split; [done|]. destruct (H (w_dir w1)) as [_ (d0 & Hd0 & E0)]; [by left|]. exists d0. split; [done|]. cbn [moved w_dir]. by rewrite E.
Qed.
Lemma before_other w w1 p c : p ≠ path → p ≠ backup → before w w1 → before w (moved (<[p := c]> (w_dir w1)) w1) ∧ before w (moved (delete p (w_dir w1)) w1).
Proof using.
  intros Hp Hb H. assert (shape (w_dir w1)) as Hs by (apply H; by left).
  split; (apply before_moved; [done|eapply shape_other; [| |exact Hs]|apply recovers_other]); by rewrite ?lookup_insert_ne, ?lookup_delete_ne.
Qed.
Lemma before_sync w w1 : before w w1 → before w (MkWorld (w_dir w1) [] (w_tokens w1)).
Proof using. intros [Ht H]. split; [done|]. intros d Hd. apply H. apply elem_of_cons in Hd as [->|Hd]; [by left|by apply not_elem_of_nil in Hd]. Qed.
Lemma ends_sync {A} w tok (r : out A) w1 : ends w tok r w1 → ends w tok r (MkWorld (w_dir w1) [] (w_tokens w1)).
Proof using. destruct r; cbn; [|apply before_sync]. intros [Ht H]. split; [done|]. intros d Hd. apply H. apply elem_of_cons in Hd as [->|Hd]; [by left|by apply not_elem_of_nil in Hd]. Qed.
Lemma ends_other {A} w tok (r : out A) w1 p : p ≠ path → p ≠ backup → ends w tok r w1 → ends w tok r (moved (delete p (w_dir w1)) w1).
Proof using.
  intros Hp Hb. destruct r; cbn [ends]; [|intros H; by apply (before_other w w1 p "" Hp Hb) in H as [_ H]]. intros [Ht H]. split; [done|]. intros d [->|Hd]%elem_of_cons; [|by apply H].
  destruct (H (w_dir w1)) as [Hs Hr]; [by left|]. split; [eapply shape_other; [| |exact Hs]|rewrite <- Hr; apply recovers_other]; cbn [moved w_dir]; by rewrite lookup_delete_ne.
Qed.
Lemma ends_during {A} w tok (r : out A) w1 : ends w tok r w1 → during w tok w1.
Proof using. destruct r; cbn; [|apply before_during]. intros [Ht H]. split; [done|]. intros d Hd. destruct (H d Hd). split; [done|by left]. Qed.
Lemma settled_before w w1 t : settled w t → before w w1 → settled w1 t.
Proof using. intros Hs [_ H] d t' Hd Hr. destruct (H d Hd) as [_ (d0 & Hd0 & E)]. apply (Hs d0 t' Hd0). by rewrite <- E. Qed.

(** ** What the answers tell *)

Lemma serve_rename w a b w' x : serve w (QRename a b) w' x → (w' = w ∧ x ≠ AOk) ∨ (x = AOk ∧ ∃ c, w_dir w !! a = Some c ∧ w' = moved (<[b := c]> (delete a (w_dir w))) w).
Proof using. intros H. inversion H; subst; first [by left; split; [|by intros ->]|by left|right; eauto]. Qed.
Lemma serve_sync w d w' x : serve w (QSync d) w' x → x = AOk ∧ w' = MkWorld (w_dir w) [] (w_tokens w).
Proof using. intros H. inversion H; subst; [by destruct x|done]. Qed.
Lemma serve_remove w p w' x : serve w (QRemove p) w' x → (w' = w ∧ x ≠ AOk ∧ p ≠ backup) ∨ (w' = moved (delete p (w_dir w)) w ∧ (is_Some (w_dir w !! p) → x = AOk)).
Proof using. intros H. inversion H; subst; [left; by destruct x|right]. split; [done|]. intros Hp. by rewrite decide_True. Qed.
Lemma serve_lstat w p w' x : serve w (QLstat p) w' x → w' = w ∧ (x = AOk → is_Some (w_dir w !! p)) ∧ (x = AMissing → w_dir w !! p = None).
Proof using. intros H. inversion H; subst; [by destruct x|]. split; [done|]. case_decide as E; split; try done. intros _. by apply eq_None_not_Some. Qed.
Lemma serve_read w p w' x : serve w (QRead p) w' x → w' = w ∧ (match w_dir w !! p with Some c => x = AText c | None => x = AMissing end ∨ p ≠ path ∧ ∃ e, x = AFail e).
Proof using. intros H. inversion H; subst; [destruct x; try done; split; [done|right; split; [done|by eexists]]|]. split; [done|]. left. by destruct (w_dir w' !! p). Qed.
Lemma serve_temp w d w' x : serve w (QCreateTemp d) w' x → (w' = w ∧ ∀ t, x ≠ AText t) ∨ ∃ t, x = AText t ∧ t ≠ path ∧ t ≠ backup ∧ w' = moved (<[t := EmptyString]> (w_dir w)) w.
Proof using. intros H. inversion H; subst; [left; by destruct x|right; eauto]. Qed.
Lemma serve_fill w t c w' x : t ≠ path → t ≠ backup → serve w (QFill t c) w' x → (w' = w ∧ x ≠ AOk) ∨ ∃ c', w' = moved (<[t := c']> (w_dir w)) w ∧ (x = AOk → c' = c).
Proof using. intros Ht Hb H. inversion H; subst; [left; by destruct x|right]. eexists. split; [done|]. match goal with H : _ ∨ _ |- _ => destruct H as [[_ ->]|[e ->]] end; done. Qed.

(** ** Writing *)

Section writing.
Context (w : world) (c tok : string).
Hypothesis start_ok : crash_ok w.
Hypothesis content : good c.
Hypothesis content_token : token_of c = Some tok.
Hypothesis tok_live : live (w_tokens w) tok.
#[local] Set Default Proof Using "Type*".

Definition same {A} (m : CredentialManager) (Q : out A → world → Prop) : post A := λ m' r w', m' = m ∧ Q r w'.

Lemma perform_spec q m (Q : post ()) w1 :
  asks w1 q → (∀ w' a, serve w1 q w' a → crash_ok w' ∧ (a = AOk → Q m (Done ()) w') ∧ (a ≠ AOk → ∀ e, Q m (Fails e) w')) → wpa (perform q) m Q w1.
Proof using. intros Ha H. unfold perform. apply wpa_bind, wpa_ask; [done|]. intros w' a Hs. destruct (H w' a Hs) as (Hc & H1 & H2). split; [done|]. destruct a; cbn; first [by apply H1|by apply H2]. Qed.

Lemma undo_spec m w1 e :
  before w w1 → w_dir w1 !! path = None → is_Some (w_dir w1 !! backup) → wpa ((_ ← ask (QRename backup path); mret ()) ;; fail (A:=()) e) m (same m (ends w tok)) w1.
Proof.
  intros Hb Hp [old Ho]. apply wpa_bind, wpa_bind, wpa_ask; [done|]. intros w' a Hs. assert (before w w') as Hb'.
  { apply serve_rename in Hs as [[-> _]|(_ & c' & Hc' & ->)]; [done|]. rewrite Ho in Hc'. injection Hc' as <-. assert (shape (w_dir w1)) as Hsh by (apply Hb; by left). apply before_moved; [done| |].
    - apply shape_pair; intros c'; [rewrite lookup_insert_eq; intros [= <-]; by apply (Hsh backup); [right|]|]. rewrite lookup_insert_ne by (by apply not_eq_sym, backup_ne). by rewrite lookup_delete_eq.
    - unfold recovers. by rewrite lookup_insert_eq, Hp, Ho. }
  split; [by eapply before_ok|]. cbn. done.
Qed.

Lemma install_spec m w1 tmp had :
  before w w1 → tmp ≠ path → tmp ≠ backup → w_dir w1 !! tmp = Some c → w_dir w1 !! path = None → (if had : bool then is_Some (w_dir w1 !! backup) else w_dir w1 !! backup = None) →
  wpa (install path tmp had) m (same m (ends w tok)) w1.
Proof.
  intros Hb Htp Htb Htmp Hp Hhad. unfold install. fold backup. apply wpa_bind, wpa_attempt, perform_spec; [done|]. intros w2 a Hs2.
  apply serve_rename in Hs2 as [[-> Ha]|(-> & c' & Hc' & ->)].
  { split; [by eapply before_ok|]. split; [done|]. intros _ e. destruct had; [by apply undo_spec|]. cbn. done. }
  rewrite Htmp in Hc'. injection Hc' as <-. set (d2 := <[path := c]> (delete tmp (w_dir w1))). set (w2 := moved d2 w1).
  assert (shape d2 ∧ recovers d2 = Some tok) as [Hsh2 Hr2].
  { split; [|unfold recovers, d2; by rewrite lookup_insert_eq]. apply shape_pair; intros c'; unfold d2; [rewrite lookup_insert_eq; by intros [= <-]|]. rewrite lookup_insert_ne, lookup_delete_ne by (done || by apply not_eq_sym, backup_ne).
    destruct Hb as [_ H]. destruct (H (w_dir w1)) as [Hsh _]; [by left|]. apply Hsh. by right. }
  assert (during w tok w2) as Hd2. { split; [apply Hb|]. intros d [->|Hd]%elem_of_cons; [split; [done|by left]|]. destruct (before_during w tok w1 Hb) as [_ H]. by apply H. }
  split; [by eapply during_ok|]. split; [intros _|done]. apply wpa_bind, wpa_attempt, perform_spec; [done|]. intros w3 a Hs3. apply serve_sync in Hs3 as [-> ->]. cbn [w_dir w2 moved w_tokens].
  assert (ends w tok (Done ()) (MkWorld d2 [] (w_tokens w1))) as He3. { split; [apply Hb|]. intros d Hd. apply list_elem_of_singleton in Hd as ->. done. }
  split; [by eapply during_ok, ends_during|]. split; [intros _|done]. destruct had; [|by cbn].
  apply wpa_bind, perform_spec; [done|]. intros w4 a Hs4. apply serve_remove in Hs4 as [(_ & _ & Hne)|[-> Ha]]; [done|]. cbn [w_dir moved] in *.
  assert (is_Some (d2 !! backup)) as Hsome. { unfold d2. by rewrite lookup_insert_ne, lookup_delete_ne by (done || by apply not_eq_sym, backup_ne). }
  rewrite (Ha Hsome). set (d4 := delete backup d2). assert (shape d4 ∧ recovers d4 = Some tok) as [Hsh4 Hr4].
  { split; [apply shape_pair; intros c'; unfold d4; [rewrite lookup_delete_ne by apply backup_ne; apply Hsh2; by left|by rewrite lookup_delete_eq]|]. unfold recovers, d4, d2. by rewrite lookup_delete_ne, lookup_insert_eq by apply backup_ne. }
  assert (ends w tok (Done ()) (moved d4 (MkWorld d2 [] (w_tokens w1)))) as He4. { split; [apply Hb|]. intros d [->|Hd]%elem_of_cons; [done|]. by apply He3. }
  split; [by eapply during_ok, ends_during|]. split; [intros _|done]. apply perform_spec; [done|]. intros w5 a5 Hs5. apply serve_sync in Hs5 as [-> ->]. apply ends_sync in He4.
  split; [by eapply during_ok, ends_during|]. by split.
Qed.

Lemma fill_spec m w1 tmp : before w w1 → tmp ≠ path → tmp ≠ backup → wpa (fill_and_install path tmp c) m (same m (ends w tok)) w1.
Proof.
  intros Hb Htp Htb. unfold fill_and_install. fold backup. apply wpa_bind, wpa_quiet; [done|by eapply before_ok|]. intros a Ha. apply serve_lstat in Ha as (_ & _ & Hnone).
  destruct a; try (by cbn). specialize (Hnone eq_refl). apply wpa_bind, perform_spec; [done|]. intros w2 a Hs2.
  apply (serve_fill _ _ _ _ _ Htp Htb) in Hs2 as [[-> Ha]|(c' & -> & Ha)].
  { split; [by eapply before_ok|]. split; [done|]. intros _ e. by cbn. }
  destruct (before_other w w1 tmp c' Htp Htb Hb) as [Hb2 _]. split; [by eapply before_ok|]. split; [intros ->; specialize (Ha eq_refl) as ->|intros _ e; by cbn].
  set (w2 := moved (<[tmp := c]> (w_dir w1)) w1) in *.
  assert (w_dir w2 !! tmp = Some c ∧ w_dir w2 !! backup = None) as [Ht2 Hn2] by (cbn; rewrite lookup_insert_eq, lookup_insert_ne by done; done).
  apply wpa_bind, wpa_quiet; [done|by eapply before_ok|]. intros b Hs. apply serve_lstat in Hs as (_ & Hyes & Hno). destruct b; try (by cbn).
  - destruct (Hyes eq_refl) as [old Hold]. apply wpa_bind, perform_spec; [done|]. intros w3 b Hs3. apply serve_rename in Hs3 as [[-> Hb3]|(-> & c3 & Hc3 & ->)].
    { split; [by eapply before_ok|]. split; [done|]. intros _ e. by cbn. }
    rewrite Hold in Hc3. injection Hc3 as <-. assert (before w (moved (<[backup := old]> (delete path (w_dir w2))) w2)) as Hb3.
    { apply before_moved; [done| |].
      - assert (shape (w_dir w2)) as Hsh by (apply Hb2; by left). apply shape_pair; intros c3; [rewrite lookup_insert_ne by apply backup_ne; by rewrite lookup_delete_eq|]. rewrite lookup_insert_eq. intros [= <-]. by apply (Hsh path); [left|].
      - unfold recovers. rewrite lookup_insert_ne, lookup_delete_eq, lookup_insert_eq by apply backup_ne. by rewrite Hold. }
    split; [by eapply before_ok|]. split; [intros _|done]. apply install_spec; [done|done|done|..].
    + cbn [moved w_dir]. by rewrite lookup_insert_ne, lookup_delete_ne by (by apply not_eq_sym).
    + cbn [moved w_dir]. rewrite lookup_insert_ne by apply backup_ne. by rewrite lookup_delete_eq.
    + cbn [moved w_dir]. rewrite lookup_insert_eq. by eexists.
  - apply install_spec; try done. by apply Hno.
Qed.

Lemma write_spec m cr :
  c = encode cr → usable cr = true → wpa (writeCredentialFile encode path cr) m (same m (ends w tok)) w.
Proof.
  intros Hc Hu. unfold writeCredentialFile. pose proof (before_refl w start_ok) as Hb. destruct (path =? "")%string; [by cbn|]. rewrite Hu. cbn [negb].
  apply wpa_bind, wpa_check; [done|done|intros _|by intros e]. apply wpa_bind, wpa_ask; [done|]. intros w1 a Hs. apply serve_temp in Hs as [[-> Ha]|(t & -> & Htp & Htb & ->)].
  { split; [done|]. destruct a; try (by cbn). by destruct (Ha s). }
  destruct (before_other w w t "" Htp Htb Hb) as [Hb1 _]. split; [by eapply before_ok|]. apply wpa_bind, wpa_attempt. rewrite <- Hc.
  eapply wpa_mono; [|by apply fill_spec]. intros m' r w2 [-> He]. apply wpa_bind, wpa_ask; [done|]. intros w3 a Hs. assert (ends w tok r w3) as He3.
  { apply serve_remove in Hs as [(-> & _)|[-> _]]; [done|]. by apply ends_other. }
  split; [by eapply during_ok, ends_during|]. by destruct r.
Qed.
End writing.

(** ** Loading *)

Definition cfg (m : CredentialManager) : Prop :=
  (cm_configuredAgentID m = "" ∨ cm_configuredAgentID m = agentID) ∧ (cm_credentialFile m = "" ∨ cm_credentialFile m = path) ∧ (cm_discoveredAgentID m = "" ∨ cm_discoveredAgentID m = agentID).
(** What the manager holds is all a start may find. *)
Definition mem (m : CredentialManager) (w : world) : Prop :=
  pc_RefreshToken (cm_refresh m) = "" ∨ settled w (pc_RefreshToken (cm_refresh m)) ∧ live (w_tokens w) (pc_RefreshToken (cm_refresh m)).
Definition idle (m : CredentialManager) (w : world) : Prop := crash_ok w ∧ (∃ t, settled w t) ∧ cfg m ∧ mem m w.

Lemma idle_before m m' w w' : idle m w → before w w' → cfg m' → cm_refresh m' = cm_refresh m → idle m' w'.
Proof using.
  intros (Hc & [t Ht] & _ & Hm) Hb Hcfg E. split; [by eapply before_ok|]. split; [exists t; by eapply settled_before|]. split; [done|]. unfold mem in *. rewrite E. destruct Hm as [Hm|[Hs Hl]]; [by left|]. right.
  split; [by eapply settled_before|]. destruct Hb as [-> _]. done.
Qed.

Lemma wpa_steady q m (Q : post ()) w : quiet q → idle m w → (serve w q w AOk → Q m (Done ()) w) → (∀ e, Q m (Fails e) w) → wpa (perform q) m Q w.
Proof using. intros Hq Hi. apply wpa_check; [done|apply Hi]. Qed.

Lemma redirect_spec p m (Q : post ()) w : idle m w → (∀ r, Q m r w) → wpa (validateDefaultCredentialPath p) m Q w.
Proof using. intros Hi HQ. unfold validateDefaultCredentialPath. apply wpa_bind, wpa_steady; [done|done|intros _|by intros e]. apply wpa_steady; [done|done|intros _|intros e]; apply HQ. Qed.
Lemma redirect_if_spec (b : bool) p m (Q : post ()) w : idle m w → (∀ r, Q m r w) → wpa (if b then validateDefaultCredentialPath p else mret ()) m Q w.
Proof using. intros Hi HQ. destruct b; [by apply redirect_spec|]. apply HQ. Qed.

(** A file that is there and was not refused for another reason is read. *)
Definition stored (d : dir) (p : string) (cr : persistedCredential) : Prop := d !! p = Some (encode cr) ∧ usable cr = true ∧ pc_AgentID cr = agentID ∧ (horizon <= pc_RefreshExpiresAt cr)%Z.

Lemma read_spec p m (Q : post persistedCredential) w :
  idle m w → p = path ∨ p = backup → (∀ cr, stored (w_dir w) p cr → Q m (Done cr) w) → (∀ e, (p = path → IsNotExist e = true ∧ w_dir w !! path = None) → Q m (Fails e) w) → wpa (readCredentialFile decode p) m Q w.
Proof using json.
  intros Hi Hp Hd Hf. unfold readCredentialFile. apply wpa_bind. unfold perform. apply wpa_bind, wpa_quiet; [done|apply Hi|]. intros a Ha.
  assert (a = AOk ∨ p ≠ path) as Hok. { inversion Ha as [q a' Hn| | | | | | | | | | |]; subst. destruct a; try done; [by left|right|right]; intros ->; by apply Hn. }
  assert (∀ e, p ≠ path → Q m (Fails e) w) as Hbad by (intros e Hne; by apply Hf).
  destruct a; cbn; try (apply Hbad; by destruct Hok).
  apply wpa_bind, wpa_quiet; [done|apply Hi|]. intros a Hr. apply serve_read in Hr as [_ [Hr|[Hne [e ->]]]]; [|cbn; by apply Hbad].
  destruct (w_dir w !! p) as [c|] eqn:E; rewrite Hr; cbn.
  - destruct Hi as (Hc & _). destruct (Hc (w_dir w)) as [Hsh _]; [by left|]. destruct (Hsh p c Hp E) as (cr & -> & Hu & Ha' & Hx). rewrite json, Hu. cbn. apply Hd. by split.
  - apply Hf. intros ->. done.
Qed.

Lemma check_spec cr m (Q : post ()) w d p : idle m w → stored d p cr → Q m (Done ()) w → wpa (check_credential cr) m Q w.
Proof using.
  intros Hi (_ & Hu & Ha & Hx) HQ. unfold check_credential, clock. apply wpa_bind, wpa_bind, wpa_quiet; [done|apply Hi|]. intros a Hs.
  assert (∃ t, a = ANow t ∧ (t < horizon)%Z) as (t & -> & Ht). { inversion Hs as [q a' Hn| | | | | | | | | | |]; subst. destruct a; try done. by eexists. }
  apply wpa_bind. cbn -[validateCredential]. assert (validateCredential t cr m = None) as ->; [|done]. unfold validateCredential. destruct Hi as (_ & _ & (H1 & _ & H3) & _). rewrite Ha.
  assert (negb (cm_configuredAgentID m =? "")%string && negb (agentID =? cm_configuredAgentID m)%string = false) as -> by (destruct H1 as [->| ->]; [done|by rewrite String.eqb_refl, andb_false_r]).
  assert (negb (cm_discoveredAgentID m =? "")%string && negb (agentID =? cm_discoveredAgentID m)%string = false) as -> by (destruct H3 as [->| ->]; [done|by rewrite String.eqb_refl, andb_false_r]).
  assert ((t <? pc_RefreshExpiresAt cr)%Z = true) as -> by lia. done.
Qed.

Lemma use_spec cr m w d p :
  idle m w → stored d p cr → recovers (w_dir w) = Some (pc_RefreshToken cr) → wpa (useCredential cr) m (λ m' r w', idle m' w') w.
Proof using.
  intros Hi Hst Hr. unfold useCredential. apply wpa_bind. eapply check_spec; [done|done|]. cbn. destruct Hi as (Hc & [t Ht] & Hcfg & _). split; [done|]. split; [by exists t|]. split; [done|]. right. cbn.
  assert (pc_RefreshToken cr = t) as -> by (apply (Ht (w_dir w)); [by left|done]). split; [done|]. destruct (Hc (w_dir w)) as (_ & Hl & _); [by left|]. apply Hl. rewrite Hr. f_equal. apply (Ht (w_dir w)); [by left|done].
Qed.

Definition stays_idle {A} : post A := λ m' r w', idle m' w'.

Lemma perform_or_spec pre q m (Q : post ()) w1 :
  asks w1 q → (∀ w' a, serve w1 q w' a → crash_ok w' ∧ (a = AOk → Q m (Done ()) w') ∧ (a ≠ AOk → ∀ e, Q m (Fails e) w')) → wpa (perform_or pre q) m Q w1.
Proof using. intros Ha H. unfold perform_or. apply wpa_bind, wpa_ask; [done|]. intros w' a Hs. destruct (H w' a Hs) as (Hc & H1 & H2). split; [done|]. destruct a; cbn; first [by apply H1|by apply H2]. Qed.

Lemma idle_moves m w w' : idle m w → before w w' → idle m w'.
Proof using. intros Hi Hb. eapply idle_before; [exact Hi|done|apply Hi|done]. Qed.

Lemma sync_idle m w : idle m w → idle m (MkWorld (w_dir w) [] (w_tokens w)).
Proof using. intros Hi. eapply idle_moves; [exact Hi|]. apply before_sync, before_refl, Hi. Qed.

Lemma load_backup_spec e m w : idle m w → IsNotExist e = true → w_dir w !! path = None → wpa (load_backup decode path e) m stays_idle w.
Proof using json.
  intros Hi He Hp. unfold load_backup. fold backup. rewrite He. apply wpa_bind, wpa_attempt, read_spec; [done|by right|intros cr Hst|intros be _].
  2: { destruct (negb _); [by cbn|]. apply wpa_bind. cbn. destruct (has_enrollment m); cbn; [|done]. eapply idle_before; [exact Hi|apply before_refl, Hi|apply Hi|done]. }
  apply wpa_bind. cbn. apply wpa_bind, perform_or_spec; [done|]. intros w1 a Hs. apply serve_rename in Hs as [[-> Ha]|(-> & c & Hc & ->)].
  { split; [apply Hi|]. by split. }
  destruct Hst as (Hb & Hst). rewrite Hb in Hc. injection Hc as <-. set (d1 := <[path := encode cr]> (delete backup (w_dir w))).
  assert (d1 !! path = Some (encode cr)) as Hd1 by (unfold d1; by rewrite lookup_insert_eq).
  assert (before w (moved d1 w)) as Hbe.
  { apply before_moved; [apply before_refl, Hi| |].
    - apply shape_pair; intros c; [rewrite Hd1; intros [= <-]; by exists cr|]. unfold d1. rewrite lookup_insert_ne by (by apply not_eq_sym, backup_ne). by rewrite lookup_delete_eq.
    - unfold recovers. by rewrite Hd1, Hp, Hb. }
  pose proof (idle_moves m w _ Hi Hbe) as Hi1. split; [apply Hi1|]. split; [intros _|done]. apply wpa_bind, perform_or_spec; [done|]. intros w2 a Hs. apply serve_sync in Hs as [-> ->].
  pose proof (sync_idle m _ Hi1) as Hi2. split; [apply Hi2|]. split; [intros _|done]. apply (use_spec cr m _ d1 path Hi2); [done|]. cbn. unfold recovers. rewrite Hd1. unfold token_of. by rewrite json.
Qed.

Lemma remove_spec cr m w :
  idle m w → stored (w_dir w) path cr → wpa (removeStaleCredentialBackup path) m (λ m' r w', m' = m ∧ idle m w' ∧ w_dir w' !! path = Some (encode cr)) w.
Proof using.
  intros Hi (Hp & Hst). unfold removeStaleCredentialBackup. fold backup. apply wpa_bind, wpa_quiet; [done|apply Hi|]. intros a _. destruct a; cbn; try done. 
  apply wpa_bind, perform_or_spec; [done|]. intros w1 a Hs. apply serve_remove in Hs as [(-> & Ha & Hne)|[-> _]]; [done|].
  assert (before w (moved (delete backup (w_dir w)) w)) as Hbe.
  { apply before_moved; [apply before_refl, Hi| |].
    - apply shape_pair; intros c; [rewrite lookup_delete_ne by apply backup_ne; rewrite Hp; intros [= <-]; by exists cr|by rewrite lookup_delete_eq].
    - unfold recovers. by rewrite lookup_delete_ne, Hp by apply backup_ne. }
  pose proof (idle_moves m w _ Hi Hbe) as Hi1. assert (delete backup (w_dir w) !! path = Some (encode cr)) as Hp1 by (by rewrite lookup_delete_ne by apply backup_ne).
  split; [apply Hi1|]. split; [intros _|by intros _ e]. apply perform_or_spec; [done|]. intros w2 a2 Hs. apply serve_sync in Hs as [-> ->]. pose proof (sync_idle m _ Hi1) as Hi2. split; [apply Hi2|]. by split.
Qed.

Lemma load_file_spec m w : idle m w → wpa (load_file decode path) m stays_idle w.
Proof using json.
  intros Hi. unfold load_file. apply wpa_bind, wpa_attempt, read_spec; [done|by left|intros cr Hst|intros e He; destruct (He eq_refl); by apply load_backup_spec].
  apply wpa_bind, wpa_attempt. eapply check_spec; [done|done|]. apply wpa_bind. eapply wpa_mono; [|by apply (remove_spec cr)]. intros m' r w' (-> & Hi' & Hp). destruct r; [|done].
  eapply wpa_mono; [|apply (use_spec cr m w' (w_dir w') path Hi'); [by destruct Hst|]]; [done|]. unfold recovers, token_of. by rewrite Hp, json.
Qed.

Lemma locate_spec m w : idle m w → wpa locate m (λ m' r w', idle m' w' ∧ (r = Done true → cm_credentialFile m' = path)) w.
Proof using.
  intros Hi. unfold locate. apply wpa_bind. cbn -[default_file]. pose proof Hi as (Hc & _ & (H1 & H2 & H3) & Hm). destruct (String.eqb_spec (cm_credentialFile m) "") as [E|E]; cbn [negb].
  2: { cbn. split; [done|]. intros _. by destruct H2. }
  assert (∀ disc, disc = "" ∨ disc = agentID → idle (set_file path disc m) w) as Hset.
  { intros disc Hdisc. eapply idle_before; [exact Hi|by apply before_refl| |done]. split; [done|]. split; [by right|done]. }
  destruct (String.eqb_spec (cm_configuredAgentID m) "") as [E'|E']; cbn [negb].
  - apply wpa_bind, wpa_quiet; [done|done|]. intros a Hs. inversion Hs as [q a' Hn|Hbase| | | | | | | | | |]; subst; [by destruct a; cbn; try done; split|].
    destruct (decide _).
    + destruct (path =? "")%string; cbn; [split; [|done]; eapply idle_before; [exact Hi|by apply before_refl|done|done]|]. split; [apply Hset; by right|done].
    + cbn. split; [|done]. eapply idle_before; [exact Hi|by apply before_refl|done|done].
  - apply wpa_bind. unfold default_file. apply wpa_bind, wpa_quiet; [done|done|]. intros a Hs. inversion Hs as [q a' Hn| | | | | | | | | | |]; subst. destruct a; cbn; try done. cbn in Hn. subst s. split; [by apply Hset|done].
Qed.

Lemma load_spec m w : idle m w → wpa (loadRefreshCredential decode) m stays_idle w.
Proof using json.
  intros Hi. unfold loadRefreshCredential. apply wpa_bind. cbn -[locate load_file validateDefaultCredentialPath]. destruct (cm_loaded m); [by cbn|]. apply wpa_bind. eapply wpa_mono; [|by apply locate_spec].
  intros m1 r w1 [Hi1 Hp]. destruct r as [[]|e]; cbn [negb]; [|by cbn|by cbn]. specialize (Hp eq_refl). apply wpa_bind. cbn -[load_file validateDefaultCredentialPath]. rewrite Hp.
  apply wpa_bind, wpa_quiet; [done|apply Hi1|]. intros a _.
  assert (wpa ((if cm_defaultCredentialPath m1 then validateDefaultCredentialPath path else mret ()) ;; load_file decode path) m1 stays_idle w1) as Hload.
  { apply wpa_bind, redirect_if_spec; [done|]. intros [u|e]; [by apply load_file_spec|done]. }
  destruct a; try exact Hload. destruct (has_enrollment m1); [|exact Hload]. cbn. eapply idle_before; [exact Hi1|apply before_refl, Hi1|apply Hi1|done].
Qed.

(** ** Exchanges *)

Definition got (r : AgentTokenResponse) (w : world) : Prop := ∃ new, response new r ∧ live (w_tokens w) new.
Definition answered (m : CredentialManager) : post AgentTokenResponse := λ m' r w', m' = m ∧ idle m w' ∧ match r with Done r => got r w' | Fails _ => True end.

Lemma tokens_idle m w ts :
  idle m w → (∀ d t, d ∈ all_dirs w → recovers d = Some t → live ts t) → (pc_RefreshToken (cm_refresh m) ≠ "" → live (w_tokens w) (pc_RefreshToken (cm_refresh m)) → live ts (pc_RefreshToken (cm_refresh m))) →
  idle m (MkWorld (w_dir w) (w_past w) ts).
Proof using.
  intros (Hc & [t Ht] & Hcfg & Hm) Hl Hml. split; [|split; [by exists t|split; [done|]]].
  - intros d Hd. destruct (Hc d Hd) as (Hs & _ & Hk). split; [done|]. split; [|done]. intros t' Hr. by apply (Hl d).
  - destruct Hm as [Hm|[Hs Hlive]]; [by left|]. destruct (decide (pc_RefreshToken (cm_refresh m) = "")) as [E|E]; [by left|right; split; [done|by apply Hml]].
Qed.

(** The credential of an exchange: an enrollment token, or the one the manager holds. *)
Definition presentable (m : CredentialManager) (e : endpoint) (tok : string) : Prop :=
  match e with Enroll => True | Refresh => tok = pc_RefreshToken (cm_refresh m) ∧ tok ≠ "" end.

Lemma exchange_spec m w e tok : idle m w → presentable m e tok → wpa (exchange e tok) m (answered m) w.
Proof using.
  intros Hi Hp. unfold exchange. apply wpa_bind, wpa_ask.
  { destruct e; [done|]. destruct Hp as [-> Hne]. destruct Hi as (_ & _ & _ & [Hm|[_ Hl]]); done. }
  intros w' a Hs. assert (idle m w' ∧ ∀ r, a = AResponse r → got r w') as [Hi' Hgot].
  { inversion Hs as [q a' Hn| | | | | | | | | |tok' new ts r a' Hrot Hresp Ha|tok' new r a' Hnew Hresp Ha]; subst; [split; [done|]; by destruct e, a| |].
    - destruct Hp as [-> Hne]. destruct (rotated_live _ _ _ _ Hrot) as [Hln Hlt]. pose proof Hi as (_ & _ & _ & [Hm|[Hset _]]); [done|]. split.
      + apply tokens_idle; [done| |done]. intros d t Hd Hr. by rewrite (Hset d t Hd Hr).
      + intros r' ->. destruct Ha as [[= ->]|Ha]; [by exists new|done].
    - split.
      + apply tokens_idle; [done| |intros _; by apply live_grows]. intros d t Hd Hr. apply live_grows; [done|]. destruct Hi as (Hc & _). destruct (Hc d Hd) as (_ & Hl & _). by apply Hl.
      + intros r' ->. destruct Ha as [[= ->]|Ha]; [|done]. exists new. split; [done|]. left. cbn. by rewrite lookup_insert_eq. }
  split; [apply Hi'|]. destruct a; cbn; (split; [done|]); (split; [done|]); try done. by apply Hgot.
Qed.

Lemma exchange_attempts_spec n i m w e tok : idle m w → presentable m e tok → wpa (exchange_attempts n i e tok) m (answered m) w.
Proof using.
  revert i w. induction n as [|n IH]; intros i w Hi Hp; [by cbn|]. cbn [exchange_attempts]. apply wpa_bind, wpa_attempt. eapply wpa_mono; [|by apply exchange_spec].
  intros m' r w' (-> & Hi' & Hr). destruct r as [r|err]; [by cbn|]. assert (wpa (fail (A:=AgentTokenResponse) err) m (answered m) w') as Hfail by (by cbn).
  destruct err as [status retryable after| |]; [|by cbn|by cbn]. destruct retryable; [|by cbn]. case_bool_decide; [by cbn|].
  apply wpa_bind, wpa_steady; [done|done|intros _; by apply IH|intros err; by cbn].
Qed.

Lemma ensure_spec m w id (Q : post ()) : idle m w → (∀ m', idle m' w → cm_credentialFile m' = path → Q m' (Done ()) w) → (∀ m' e, idle m' w → Q m' (Fails e) w) → wpa (ensureCredentialFile id) m Q w.
Proof using.
  intros Hi Hd Hf. unfold ensureCredentialFile. apply wpa_bind. cbn -[default_file prepareDefaultCredentialDirectory]. pose proof Hi as (Hc & _ & (H1 & H2 & H3) & _).
  destruct (String.eqb_spec (cm_credentialFile m) "") as [E|E]; cbn [negb]; [|cbn; apply Hd; [done|by destruct H2]]. destruct (negb _); [by apply Hf|].
  apply wpa_bind. unfold default_file. apply wpa_bind, wpa_quiet; [done|done|]. intros a Hs. inversion Hs as [q a' Hn| | | | | | | | | | |]; subst. destruct a; try done; [|by apply Hf]. cbn in Hn. subst s. cbn -[prepareDefaultCredentialDirectory].
  assert (∀ d (Q : post ()), (∀ r, Q m r w) → wpa (prepare_directory d) m Q w) as Hprep.
  { intros d Q' HQ'. unfold prepare_directory. apply wpa_bind, wpa_quiet; [done|done|]. intros a _. destruct a; cbn -[perform]; try apply HQ'.
    all: apply wpa_bind; cbn -[perform]; apply wpa_bind, wpa_steady; [done|done|intros _|intros e; apply HQ']; apply wpa_steady; [done|done|intros _; apply HQ'|intros e; apply HQ']. }
  apply wpa_bind. unfold prepareDefaultCredentialDirectory. apply wpa_bind, Hprep. intros [u|e]; [|by apply Hf]. apply Hprep. intros [u'|e]; [|by apply Hf]. cbn. apply Hd; [|done].
  eapply idle_before; [exact Hi|by apply before_refl| |done]. split; [done|]. split; [by right|done].
Qed.

Lemma persist_spec m w r enrolled : idle m w → got r w → wpa (persistTokenResponse encode r enrolled) m stays_idle w.
Proof using json.
  intros Hi (new & (Ha & Hr & Hx) & Hl). unfold persistTokenResponse. apply wpa_bind. cbn -[ensureCredentialFile writeCredentialFile validateDefaultCredentialPath]. destruct (ts_RefreshExpiresAt r) as [expires|]; [|done].
  destruct (_ || _); [done|]. destruct (_ && _); [done|]. destruct (_ && _); [done|]. apply wpa_bind, ensure_spec; [done|intros m1 Hi1 Hp|by intros m' e Hi']. apply wpa_bind. cbn -[writeCredentialFile validateDefaultCredentialPath]. rewrite Hp.
  apply wpa_bind, redirect_if_spec; [done|]. intros [u|e]; [|done]. rewrite Ha, Hr. set (next := MkPersisted 1 agentID new expires). apply wpa_bind, wpa_attempt. destruct (usable next) eqn:Hu.
  2: { unfold writeCredentialFile. destruct (path =? "")%string; [by cbn|]. rewrite Hu. by cbn. }
  assert (token_of (encode next) = Some new) as Htok by (unfold token_of; by rewrite json).
  eapply wpa_mono; [|apply (write_spec w (encode next) new (proj1 Hi1)); [|done|done|done|done]]; [|exists next; split; [done|]; split; [done|]; split; [done|by apply Hx]].
  intros m' res w' [-> He]. destruct res as [u'|e]; cbn; [|by eapply idle_moves].
  assert (settled w' new) as Hset. { intros d t' Hd Hrec. destruct He as [_ He]. destruct (He d Hd) as [_ E]. congruence. }
  split; [eapply during_ok; [apply Hi1|exact Hl|by apply (ends_during w new (Done ()))]|]. split; [by exists new|]. split; [apply Hi1|]. right. cbn. split; [done|]. destruct He as [-> _]. done.
Qed.

(** ** The calls *)

Lemma refresh_spec m w : idle m w → pc_RefreshToken (cm_refresh m) ≠ "" → wpa (refresh_and_persist encode) m stays_idle w.
Proof using json.
  intros Hi Hne. unfold refresh_and_persist. apply wpa_bind. cbn -[exchangeWithRetry persistTokenResponse]. apply wpa_bind. eapply wpa_mono; [|by apply exchange_attempts_spec].
  intros m' r w' (-> & Hi' & Hr). destruct r; [by apply persist_spec|done].
Qed.

Lemma enrollment_value_spec m w : idle m w → wpa enrollmentTokenValue m (λ m' r w', idle m' w' ∧ w' = w) w.
Proof using.
  intros Hi. assert (∀ t e, idle (set_enrollment t e m) w) as Hset by (intros t e; eapply idle_before; [exact Hi|apply before_refl, Hi|apply Hi|done]).
  unfold enrollmentTokenValue. apply wpa_bind. cbn. destruct (cm_enrollmentTokenLoaded m); [by cbn|]. destruct (negb _); [by cbn|]. destruct (_ =? "")%string; [by cbn|].
  apply wpa_bind, wpa_quiet; [done|apply Hi|]. intros a _. destruct a; try (by cbn). destruct (_ =? "")%string; by cbn.
Qed.

Lemma enroll_refused_spec m w err : idle m w → wpa (enroll_refused encode decode err) m stays_idle w.
Proof using json.
  intros Hi. unfold enroll_refused. apply wpa_bind, wpa_attempt. eapply wpa_mono; [|by apply load_spec]. intros m' r w' Hi'. destruct r as [u|e]; [|done]. apply wpa_bind. cbn -[refresh_and_persist].
  destruct (String.eqb_spec (pc_RefreshToken (cm_refresh m')) ""); [done|]. by apply refresh_spec.
Qed.

Lemma obtain_spec m w : idle m w → wpa (obtain_token encode decode) m stays_idle w.
Proof using json.
  intros Hi. unfold obtain_token. apply wpa_bind. eapply wpa_mono; [|by apply enrollment_value_spec]. intros m1 r w1 [Hi1 ->]. destruct r as [[tok err]|e]; [|done]. apply wpa_bind. cbn -[exchangeWithRetry persistTokenResponse enroll_refused refresh_and_persist loadRefreshCredential].
  destruct (_ && _).
  - apply wpa_bind, wpa_attempt. eapply wpa_mono; [|by apply (exchange_attempts_spec _ _ m1 w Enroll)]. intros m' r w' (-> & Hi' & Hr). destruct r as [r|e]; [by apply persist_spec|].
    assert (∀ e', wpa (fail (A:=string) e') m1 stays_idle w') as Hfail by (by intros e'; cbn). pose proof (enroll_refused_spec m1 w' e Hi') as Hre. repeat case_match; try apply Hfail; exact Hre.
  - apply wpa_bind. eapply wpa_mono; [|by apply load_spec]. intros m' r w' Hi'. destruct r as [u|e]; [|done]. apply wpa_bind. cbn -[refresh_and_persist].
    destruct (String.eqb_spec (pc_RefreshToken (cm_refresh m')) ""); [done|]. by apply refresh_spec.
Qed.

Lemma Token_spec m w : idle m w → wpa (Token encode decode) m stays_idle w.
Proof using json.
  intros Hi. unfold Token. apply wpa_bind. cbn -[obtain_token]. destruct (_ =? "")%string; [by apply obtain_spec|]. apply wpa_bind. unfold clock. apply wpa_bind, wpa_quiet; [done|apply Hi|]. intros a _. cbn -[obtain_token].
  destruct (_ <? _)%Z; [done|]. by apply obtain_spec.
Qed.

Lemma EnsureIdentity_spec m w : idle m w → wpa (EnsureIdentity encode decode) m stays_idle w.
Proof using json.
  intros Hi. assert (∀ m w, idle m w → wpa (_ ← Token encode decode; m ← get; mret (cm_agentID m)) m stays_idle w) as Ht.
  { intros m1 w1 Hi1. apply wpa_bind. eapply wpa_mono; [|by apply Token_spec]. intros m' r w' Hi'. destruct r; by cbn. }
  unfold EnsureIdentity. apply wpa_bind. eapply wpa_mono; [|by apply enrollment_value_spec]. intros m1 r w1 [Hi1 ->]. destruct r as [[tok err]|e]; [|done]. apply wpa_bind. cbn -[Token loadRefreshCredential].
  destruct (_ && _); [by apply Ht|]. destruct (negb _); [by cbn|]. apply wpa_bind. eapply wpa_mono; [|by apply load_spec]. intros m' r w' Hi'. destruct r as [u|e]; [|done]. apply wpa_bind. cbn -[Token].
  destruct (negb _); [by cbn|]. destruct err; [by cbn|by apply Ht].
Qed.

(** ** The process, and what stops it *)

Inductive process := Off | Idle (m : CredentialManager) | Running (p : prog (CredentialManager * out string)).
Record system := MkSystem { sy_world : world; sy_agent : process }.

(** What a killed process did is on the disk when the next one starts; a power failure
    leaves any of the directories since the last sync. *)
Inductive step : system → system → Prop :=
| st_start w c jitter :
    cf_AgentID c = "" ∨ cf_AgentID c = agentID → cf_CredentialFile c = "" ∨ cf_CredentialFile c = path → step (MkSystem w Off) (MkSystem w (Idle (NewCredentialManager c jitter)))
| st_token w m : step (MkSystem w (Idle m)) (MkSystem w (Running (Token encode decode m)))
| st_identity w m : step (MkSystem w (Idle m)) (MkSystem w (Running (EnsureIdentity encode decode m)))
| st_serve w q k w' a : serve w q w' a → step (MkSystem w (Running (Programs.Do q k))) (MkSystem w' (Running (k a)))
| st_return w m r : step (MkSystem w (Running (Programs.Ret (m, r)))) (MkSystem w (Idle m))
| st_kill w p : step (MkSystem w p) (MkSystem (MkWorld (w_dir w) [] (w_tokens w)) Off)
| st_power w p d : d ∈ all_dirs w → step (MkSystem w p) (MkSystem (MkWorld d [] (w_tokens w)) Off).

Inductive reach : system → Prop :=
| re_start d ts : fine ts d → reach (MkSystem (MkWorld d [] ts) Off)
| re_step s s' : reach s → step s s' → reach s'.

Definition sound (s : system) : Prop :=
  crash_ok (sy_world s) ∧ match sy_agent s with
                          | Off => ∃ t, settled (sy_world s) t
                          | Idle m => idle m (sy_world s)
                          | Running p => wp p (λ x w, idle x.1 w) (sy_world s)
                          end.

Lemma sound_off d ts : fine ts d → sound (MkSystem (MkWorld d [] ts) Off).
Proof using.
  intros Hf. split; [by intros d' Hd%list_elem_of_singleton; subst|]. exists (default "" (recovers d)). intros d' t Hd%list_elem_of_singleton Hr. cbn in Hd. subst d'. by rewrite Hr.
Qed.

Lemma agent_step_sound s s' : sound s → step s s' → sound s'.
Proof using json.
  intros [Hc Hs] Hstep. destruct Hstep as [w c j H1 H2|w m|w m|w q k w' a Hsv|w m r|w p|w p d Hd]; cbn [sy_world sy_agent] in *.
  - split; [done|]. cbn. split; [done|]. split; [done|]. split; [|by left]. split; [done|]. split; [done|by left].
  - split; [done|]. apply (Token_spec m w Hs).
  - split; [done|]. apply (EnsureIdentity_spec m w Hs).
  - destruct Hs as [_ H]. destruct (H w' a Hsv) as [Hc' Hp]. by split.
  - split; [done|exact Hs].
  - apply sound_off, Hc. by left.
  - by apply sound_off, Hc.
Qed.

Lemma agent_reach_sound s : reach s → sound s.
Proof using json. induction 1 as [d ts Hf|s s' _ IH Hs]; [by apply sound_off|by eapply agent_step_sound]. Qed.
End agent.

(** C19: A refresh credential the agent presents is one the controller did not revoke:
    not replaced, or replaced by one that was never used; and what a start finds on the
    disk is such a credential.  The controller exchanges it: in every table of these
    standings whose refresh credentials have not expired, always when it was not
    replaced, and when it was, exactly while its overlap of five minutes lasts.

    The process may be killed, the power fail and an answer be lost at every point, and
    every other operation may fail, under these conditions: reading the credential file
    and checking its directory, syncing that directory and removing the backup do not
    fail, and a credential that was replaced is presented while its overlap lasts. *)
Theorem presented_credential_live encode decode path agentID horizon kept s
    (Hjson : ∀ c, decode (encode c) = Some c) (Hreach : reach encode decode path agentID horizon kept s) :
  (∀ tok k, sy_agent s = Running (Programs.Do (QPost Refresh tok) k) → live (w_tokens (sy_world s)) tok
     ∧ ∀ d c f now, ids_wf d → standings d = w_tokens (sy_world s) → ad_credentials d !! tok = Some c → cr_FamilyID c = Some f →
         (∀ k r, ad_credentials d !! k = Some r → (now < cr_ExpiresAt r)%Z) →
         is_Some (rotation_allowed (cr_IdentityID c) f c now d) ↔ overlap_lasts now c)
  ∧ ∀ d, d ∈ all_dirs (sy_world s) → fine encode decode path agentID horizon kept (w_tokens (sy_world s)) d.
Proof.
  destruct (agent_reach_sound encode decode path agentID horizon kept Hjson s Hreach) as [Hc Hs]. split; [|exact Hc]. intros tok k E. rewrite E in Hs. destruct Hs as [Ha _].
  split; [exact Ha|]. intros d c f now Hw Hst. apply live_exchanged; [done|]. by rewrite Hst.
Qed.

(** ** Runs, answer by answer *)

Module Samples.

(** A JSON for which reading inverts writing: the bits of a number that stands for the
    record. *)
#[export] Instance persisted_eq : EqDecision persistedCredential.
Proof. solve_decision. Defined.
#[export] Program Instance persisted_countable : Countable persistedCredential :=
  inj_countable' (λ c, (pc_Version c, pc_AgentID c, pc_RefreshToken c, pc_RefreshExpiresAt c)) (λ x, let '(v, a, t, e) := x in MkPersisted v a t e) _.
Next Obligation. by intros []. Qed.

Fixpoint bits (p : positive) : string := match p with xH => "" | xO p => String "0" (bits p) | xI p => String "1" (bits p) end.
Fixpoint from_bits (s : string) : positive := match s with EmptyString => xH | String c s => if (c =? "0")%char then xO (from_bits s) else xI (from_bits s) end.
Lemma from_bits_inv p : from_bits (bits p) = p.
Proof. induction p as [p IH|p IH|]; cbn; [by rewrite IH|by rewrite IH|done]. Qed.

Definition write (c : persistedCredential) : string := bits (encode c).
Definition read (s : string) : option persistedCredential := decode (from_bits s).
Lemma read_of_write c : read (write c) = Some c.
Proof. unfold read, write. by rewrite from_bits_inv, decode_encode. Qed.

(** What is left of a program after some answers, what it asks next, what it returned. *)
Fixpoint feed {X} (p : prog X) (l : list answer) : prog X := match p, l with Programs.Do _ k, a :: l => feed (k a) l | p, _ => p end.
Definition next {X} (p : prog X) : option request := match p with Programs.Do q _ => Some q | Programs.Ret _ => None end.
Definition returned {X} (p : prog X) : option X := match p with Programs.Ret x => Some x | Programs.Do _ _ => None end.

Lemma feed_one {X} (p : prog X) l q a : next (feed p l) = Some q → ∃ k, feed p l = Programs.Do q k ∧ k a = feed p (l ++ [a]).
Proof. revert p. induction l as [|b l IH]; intros [x|q' k]; cbn; try done; [intros [= <-]; exists k; split; [done|by destruct (k a)]|apply IH]. Qed.

Lemma next_do {X} (p : prog X) q : next p = Some q → ∃ k, p = Programs.Do q k.
Proof. destruct p as [x|q' k]; [done|]. intros [= ->]. by exists k. Qed.

Section fed.
Context (path agentID : string) (horizon : Z) (kept : bool).
Lemma reach_fed w p l q w' a :
  reach write read path agentID horizon kept (MkSystem w (Running (feed p l))) → next (feed p l) = Some q → serve path agentID horizon w q w' a →
  reach write read path agentID horizon kept (MkSystem w' (Running (feed p (l ++ [a])))).
Proof. intros Hr Hn Hs. destruct (feed_one p l q a Hn) as (k & E & <-). rewrite E in Hr. eapply re_step; [exact Hr|by apply st_serve]. Qed.
End fed.

Definition file : string := "/var/lib/agent/credential.json".
Definition day : Z := (86400 * second)%Z.
Definition old : persistedCredential := MkPersisted 1 "vm-1" "R0" (30 * day)%Z.
Definition issued (tok : string) : AgentTokenResponse := MkTokenResponse "vm-1" "A1" day tok (Some (30 * day)%Z) [] [].
Definition configured : CredentialManager := NewCredentialManager (MkConfig "" "" "" file) 0.
Definition call : prog (CredentialManager * out string) := Token write read configured.
(** The file is read, and its credential presented. *)
Definition loading : list answer := [AOk; AOk; AText (write old); ANow 0; AMissing; ANow 0].
Example presents_the_file : next (feed call loading) = Some (QPost Refresh "R0").
Proof. vm_compute. reflexivity. Qed.
(** The answer is lost, and the same credential is presented again. *)
Example presents_it_again : next (feed call (loading ++ [ANoAnswer; AOk])) = Some (QPost Refresh "R0").
Proof. vm_compute. reflexivity. Qed.

(** The backup of the replaced credential cannot be removed: the call fails, and the
    manager goes on with the credential that the file no longer has. *)
Definition written : list answer :=
  loading ++ [AResponse (issued "R1"); AOk; AText "/var/lib/agent/.credentials-1"; AMissing; AOk; AOk; AOk; AOk; AOk; AFail [Lit "busy"]; AOk].
Definition held (r : option (CredentialManager * out string)) : option (string * bool) :=
  '(m, r) ← r; Some (pc_RefreshToken (cm_refresh m), match r with Done _ => true | Fails _ => false end).
Example backup_not_removed :
  next (feed call (take 15 written)) = Some (QRemove (credentialBackupPath file)) ∧ held (returned (feed call written)) = Some ("R0", false).
Proof. vm_compute. by split. Qed.
(** Every later call then presents that one, and what it is given is not stored. *)
Definition again : CredentialManager := default configured (fst <$> returned (feed call written)).
Example recovery_required :
  next (Token write read again) = Some (QPost Refresh "R0")
  ∧ held (returned (feed (Token write read again) [AResponse (issued "R2"); AOk; AText "/var/lib/agent/.credentials-2"; AOk; AOk])) = Some ("R0", false).
Proof. vm_compute. by split. Qed.

(** Killed between the two renames, an agent that is told neither its ID nor its file
    finds nothing: the backup is not looked for. *)
Example backup_not_discovered :
  next (Token write read (NewCredentialManager (MkConfig "" "" "" "") 0)) = Some QDiscover
  ∧ (r ← returned (feed (Token write read (NewCredentialManager (MkConfig "" "" "" "") 0)) [AText ""]); Some r.2) = Some (Fails (Other [Lit "agent credentials are required"])).
Proof. vm_compute. by split. Qed.

(** Its file has [R0]; a refresh was served, and its answer lost. *)
Definition disk : gmap string string := {[ file := write old ]}.
Definition lost : gmap string standing := <["R1" := Current]> (<["R0" := Superseded "R1"]> {[ "R0" := Current ]}).
Definition presenting : system := MkSystem (MkWorld disk [] lost) (Running (feed call (loading ++ [ANoAnswer; AOk]))).
Lemma disk_fine : fine write read file "vm-1" day true {[ "R0" := Current ]} disk.
Proof.
  split; [|split].
  - intros p c [->| ->] Hc; [|done]. injection Hc as <-. exists old. done.
  - intros t Ht. unfold recovers in Ht. change (disk !! file) with (Some (write old)) in Ht. cbn in Ht. unfold token_of in Ht. rewrite read_of_write in Ht. injection Ht as <-. by left.
  - intros _. unfold recovers. change (disk !! file) with (Some (write old)). cbn. unfold token_of. rewrite read_of_write. by eexists.
Qed.
Lemma presenting_reached : reach write read file "vm-1" day true presenting.
Proof.
  set (w0 := MkWorld disk [] {[ "R0" := Current ]}).
  assert (reach write read file "vm-1" day true (MkSystem w0 (Running (feed call [])))) as H.
  { eapply re_step; [eapply re_step; [exact (re_start _ _ _ _ _ _ _ _ disk_fine)|apply (st_start _ _ _ _ _ _ (MkConfig "" "" "" file) 0); [by left|by right]]|apply st_token]. }
  do 2 (eapply reach_fed with (w' := w0) (a := AOk) in H; [|vm_compute; reflexivity|by apply sv_none]).
  eapply reach_fed with (w' := w0) (a := (AText (write old))) in H; [|vm_compute; reflexivity|apply (sv_read _ _ _ w0 file)].
  eapply reach_fed with (w' := w0) (a := (ANow 0)) in H; [|vm_compute; reflexivity|by apply sv_none].
  eapply reach_fed with (w' := w0) (a := AMissing) in H; [|vm_compute; reflexivity|apply (sv_lstat _ _ _ w0 (credentialBackupPath file))].
  eapply reach_fed with (w' := w0) (a := (ANow 0)) in H; [|vm_compute; reflexivity|by apply sv_none].
  eapply reach_fed with (w' := (MkWorld disk [] lost)) (a := ANoAnswer) in H; [|vm_compute; reflexivity|].
  2: { assert (rotated (w_tokens w0) "R0" "R1" lost) as Hrot by (by apply (rt_first _ "R0" "R1")). apply (sv_refresh _ _ _ w0 "R0" "R1" lost (issued "R1")); [exact Hrot|split; [done|split; [done|by intros t [= <-]]]|by right]. }
  eapply reach_fed with (w' := (MkWorld disk [] lost)) (a := AOk) in H; [|vm_compute; reflexivity|by apply sv_none]. exact H.
Qed.
End Samples.

Lemma presented_credential_live_witness : live Samples.lost "R0" ∧ fine Samples.write Samples.read Samples.file "vm-1" Samples.day true Samples.lost Samples.disk.
Proof.
  destruct (presented_credential_live _ _ _ _ _ _ _ Samples.read_of_write Samples.presenting_reached) as [Hlive Hfine]. split; [|apply Hfine; by left].
  destruct (Samples.next_do (Samples.feed Samples.call (Samples.loading ++ [ANoAnswer; AOk])) (QPost Refresh "R0")) as [k E]; [vm_compute; reflexivity|]. refine (proj1 (Hlive "R0" k _)). cbn [sy_agent Samples.presenting]. by rewrite E.
Defined.
