(* ===== verification/AgentLoop.v ===== *)
(** * internal/agent/agent.go: the claim loop of a host agent

    One iteration of [runLoop] with its deferred calls and recovered panics, what
    [executeRun] does around the run itself, failing a claim, retrying, the gates on
    free disk, and the startup.  Programs over requests: the claim of a run, the
    reservation of volumes, the workspace, mounts, the claim's pod and [RunClaim]
    (modelled in their own files) are requests here, and may panic.  Log lines of the
    agent itself are left out. *)

From S2P Require Import Prelude GoStrings GoPath DslTypes DslMatrix AgentSteps StoreRuns StoreLocks StoreLife SecretRefs ClaimBuild AgentClaim Programs VolumeChoice Volumes VolumePlaces VolumePlacesFacts VolumeMounts.
From stdpp Require Import options.

(** ** The minimum of free disk ([config.DiskThreshold]) *)

(** A positive percentage as the share it is of a total, rounded down. *)
Record DiskThreshold := MkThreshold { th_Percent : option (Z → Z); th_Bytes : Z; th_Off : bool }.
Definition Resolve (t : DiskThreshold) (total : Z) : Z :=
  if th_Off t then 0
  else if negb (th_Bytes t =? 0)%Z then th_Bytes t
  else match th_Percent t with None => 0 | Some share => share total end.
Definition Below (t : DiskThreshold) (free total : Z) : bool :=
  if th_Off t || (th_Bytes t =? 0)%Z && bool_decide (th_Percent t = None) then false
  else if (th_Bytes t =? 0)%Z && (total =? 0)%Z then false
  else (free <? Resolve t total)%Z.

(** ** The gate on volumes (volume_gate.go) *)

Record volumeVerdict := MkVerdict { vv_name : string; vv_gated : bool; vv_unsatisfiable : bool }.
Definition verdict (th : DiskThreshold) (name : string) (reading : option (Z * Z)) : option volumeVerdict :=
  '(free, total) ← reading;
  if (Resolve th total =? 0)%Z then None
  else if (total <=? Resolve th total)%Z then Some (MkVerdict name false true)
  else Some (MkVerdict name (Below th free total) false).
(** [reading]: the fresh measurements of the sampler, by path. *)
Definition evaluateVolumes (m : option VolumeManager) (reading : string → option (Z * Z)) (th : DiskThreshold) : list volumeVerdict :=
  omap (λ name, verdict th name (reading (PathOf m name))) (Names m).
Definition gatedVolumes (m : option VolumeManager) (reading : string → option (Z * Z)) (th : DiskThreshold) : list string * list string :=
  let vs := evaluateVolumes m reading th in
  (vv_name <$> filter (λ v, vv_gated v = true) vs, vv_name <$> filter (λ v, vv_gated v = false ∧ vv_unsatisfiable v = true) vs).
Definition withGated (busy gated : list string) : list string :=
  foldl (λ busy g, if bool_decide (g ∈ busy) then busy else busy ++ [g]) busy gated.

(** ** Requests *)

Inductive request :=
| QCordoned | QSleep (d : Z) | QStatfs | QBlocked (b : bool)
| QBusy | QReadings | QSetGated (names : list string)
| QClaim (detached : bool) (busy : list string)
| QAddDir (dir : string) | QAddRun (id : string) | QRemoveRun (id : string) | QRemoveDir (dir : string) | QRemoveAll (dir : string)
| QReserve (c : ClaimResponse) | QRelease (id : string)
| QPrepare (c : ClaimResponse) (dir mode : string) (vol : option volumeWorkspace) (clean : bool) | QFinish (id dir : string) (vol : option volumeWorkspace)
| QShim (id : string)
| QMount (c : ClaimResponse) (dir : string) | QUnmount (id : string)
| QRuntime (id : string) | QPodStart (c : ClaimResponse) (dir : string) (extra : list (string * string)) | QPodClose (id : string)
| QRunClaim (c : ClaimResponse) (dir : string) (paths : gmap string string) (refs : list volumeMountRef)
| QLog (id : string) (line : text) | QFinishRun (id : string) | QRetryWait (d : Z)
| QRegister | QReconcile
| QHang.

(** [AYes]: the context is done.  [AHttp]: an answer with an error status, [ARefused] a
    credential that will not be accepted later either, [AFail] any other error. *)
Inductive answer :=
| AOk | AYes | AStat (free total : Z) | ANames (l : list string) | AReadings (r : string → option (Z * Z))
| ANothing | AClaim (c : ClaimResponse) | AReserved (volumes : list VolumeMount) | ATerminal | AMounted (paths : gmap string string)
| AFail (e : text) | AHttp (code : Z) | ARefused | APanic (e : text).

(** ** Actions: programs that may panic *)

Inductive out (A : Type) := Done (a : A) | Panics (e : text).
Arguments Done {A}. Arguments Panics {A}.
Abbreviation prog := (Programs.prog request answer).
Definition act (A : Type) : Type := prog (out A).
#[export] Instance act_ret : MRet act := λ A a, Programs.Ret (Done a).
#[export] Instance act_bind : MBind act := λ A B f p, bind_prog (λ r, match r with Done a => f a | Panics e => Programs.Ret (Panics e) end) p.
Definition call (q : request) : act answer := Programs.Do q (λ a, Programs.Ret (match a with APanic e => Panics e | a => Done a end)).

(** [defer d(); p()] *)
Definition with_defer {A} (d : act ()) (p : act A) : act A :=
  bind_prog (λ r, bind_prog (λ x, Programs.Ret (match x with Done _ => r | Panics e => Panics e end)) d) p.
(** [defer func() { if r := recover(); r != nil { h(r) } }(); p()], where [h] may not
    panic again. *)
Definition recovered (h : text → act ()) (p : act ()) : act () :=
  bind_prog (λ r, match r with
    | Done a => Programs.Ret (Done a)
    | Panics e => bind_prog (λ _, Programs.Ret (Done ())) (h e)
    end) p.

(** ** Retrying (retry.go) *)

Definition second : Z := 1000000000.
Definition RetryInitialWait : Z := second.
Definition RetryMaxWait : Z := 30 * second.

(** Failures no retry mends. *)
Definition permanent (a : answer) : bool := match a with AHttp code => (code <? 500)%Z | ARefused => true | _ => false end.

(** The loop, for at most [fuel] attempts; past them it would still be retrying. *)
Fixpoint retry_from (fuel : nat) (wait : Z) (q : request) : act answer :=
  match fuel with
  | 0 => call QHang
  | S fuel =>
      a ← call q;
      match a with
      | AOk => mret AOk
      | a =>
          if permanent a then mret a
          else
            w ← call (QRetryWait wait);
            match w with AYes => mret a | _ => retry_from fuel (if (wait <? RetryMaxWait)%Z then wait * 2 else wait)%Z q end
      end
  end.
Definition retryUntilSuccess (fuel : nat) (q : request) : act answer := retry_from fuel RetryInitialWait q.

(** ** The agent *)

Record Agent := MkHostAgent {
  ag_wsBase : string; ag_MinFreeDisk : DiskThreshold; ag_Volumes : option VolumeManager;
  ag_MaxConcurrent : Z; ag_MaxDetachedConcurrent : Z;
  ag_ToolsDir : string; ag_PauseImage : string; ag_RunnerImage : string
}.

Definition hostNamedMountPath (pt : option PodTemplate) : string :=
  match pt ≫= pt_Workspace with
  | Some w => if (wc_MountPath w =? "")%string then "/workspace" else wc_MountPath w
  | None => "/workspace"
  end.
Definition primaryContainerName : string := "job".
Definition claimNeedsRunnerImage (pt : option PodTemplate) : bool :=
  match pt with
  | None => true
  | Some pt =>
      negb (existsb (λ raw, match as_map raw with Some c => (as_str (vat c "name") =? primaryContainerName)%string | None => false end)
              (as_list (vat (pt_Spec pt) "containers")))
  end.
Definition ClaimWantsClean (c : ClaimResponse) : bool :=
  c_CleanWorkspace c || match c_PodTemplate c with Some pt => pt_CleanWorkspace pt | None => false end.

Definition with_volumes (volumes : list VolumeMount) (c : ClaimResponse) : ClaimResponse :=
  MkClaim (c_RunID c) (c_JobName c) (c_Params c) (c_Vars c) (c_Stages c) (c_Finally c) (c_JobOutputs c) (c_SecretsNeeded c)
    (c_PodTemplate c) (c_Native c) (c_CleanWorkspace c) (c_MatrixMax c) volumes.

Section agent.
Variables (a : Agent) (fuel : nat).

Definition failRun (id : string) (reason : text) : act () :=
  _ ← call (QLog id reason); _ ← retryUntilSuccess fuel (QFinishRun id); mret ().

(** ** [executeRun] *)

Definition failClaim (id : string) (msg : string) (e : text) : act () := failRun id ([Lit (msg +:+ ": ")] ++ e).

(** The pod of an isolated claim, then the run. *)
Definition run_isolated (c : ClaimResponse) (workDir : string) (paths : gmap string string) (refs : list volumeMountRef) : act () :=
  let id := c_RunID c in
  r ← call (QRuntime id);
  match r with
  | AFail e => failClaim id "isolated job requires a container runtime (docker/podman/nerdctl); mark the job native: true or route it via agentSelector" e
  | _ =>
      if (ag_PauseImage a =? "")%string then failRun id [Lit "isolated job requires the agent's pause image to be configured (set --pause-image / config pauseImage) or mark the job native: true"]
      else if (ag_RunnerImage a =? "")%string && claimNeedsRunnerImage (c_PodTemplate c) then
        failRun id [Lit "isolated job requires the agent's runner image to be configured (set --runner-image / config runnerImage), or supply a "; Quo "job"; Lit " container in the podTemplate, or mark the job native: true"]
      else
        let start (extra : list (string * string)) (paths : gmap string string) :=
          p ← call (QPodStart c workDir extra);
          match p with
          | AFail e => _ ← call (QPodClose id); failClaim id "claim pod construction failed" e
          | _ => _ ← call (QRunClaim c workDir paths refs); mret ()
          end in
        match c_Volumes c with
        | [] => start [] paths
        | _ =>
            match isolatedVolumeMounts (hostNamedMountPath (c_PodTemplate c)) (c_Volumes c) (ag_Volumes a) with
            | Err e => failClaim id "volume mount failed" e
            | Ok iso =>
                if negb (is_root iso =? "")%string && negb (is_root iso =? workDir)%string then
                  failClaim id "volume mount failed" [Lit "internal error: the root volume resolves to "; Quo (is_root iso); Lit " for the pod but "; Quo workDir; Lit " for the host workspace"]
                else start (is_extra iso) (is_resolved iso)
            end
        end
  end.

Definition execute_body (c : ClaimResponse) (workDir : string) : act () :=
  let id := c_RunID c in
  m ← call (QMount c workDir);
  match m with
  | AMounted paths =>
      with_defer (_ ← call (QUnmount id); mret ())
        (match relativeVolumeMounts (c_Volumes c) (ag_Volumes a) (if c_Native c then "" else hostNamedMountPath (c_PodTemplate c)) with
         | Err e => failClaim id "volume mount failed" e
         | Ok refs => if c_Native c then _ ← call (QRunClaim c workDir paths refs); mret () else run_isolated c workDir paths refs
         end)
  | AFail e => failClaim id "volume mount failed" e
  | _ => failClaim id "volume mount failed" []
  end.
Definition executeRun (c : ClaimResponse) (workDir : string) : act () :=
  recovered (λ e, failRun (c_RunID c) ([Lit "agent panic: "] ++ e)) (execute_body c workDir).

(** ** One claim *)

(** Once its volumes are held. *)
Definition serve_reserved (c : ClaimResponse) (workDir : string) : act () :=
  let id := c_RunID c in
  let mode := if c_Native c then "native" else "isolated" in
  let volDir := workspaceVolumeDir (c_Volumes c) (ag_Volumes a) in
  let name := workspaceVolumeName (c_Volumes c) in
  let '(prepDir, vol) := if (volDir =? "")%string then (workDir, None) else (volDir, Some (MkVolumeWorkspace name (volumeModeMarker (ag_wsBase a) name))) in
  with_defer (_ ← call (QFinish id workDir vol); mret ())
    (p ← call (QPrepare c prepDir mode vol (ClaimWantsClean c));
     match p with
     | AFail e => failRun id ([Lit "prepare workspace failed: "] ++ e)
     | _ => (if (ag_ToolsDir a =? "")%string then mret () else _ ← call (QShim id); mret ()) ;; executeRun c prepDir
     end).

Definition serve_volumes (c : ClaimResponse) (workDir : string) : act () :=
  let id := c_RunID c in
  match c_Volumes c with
  | [] => serve_reserved c workDir
  | _ =>
      r ← call (QReserve c);
      match r with
      | AReserved volumes => with_defer (_ ← call (QRelease id); mret ()) (serve_reserved (with_volumes volumes c) workDir)
      | ATerminal => mret ()
      | AFail e => failRun id e
      | _ => failRun id []
      end
  end.

Definition work_dir (detached : bool) (slot : N) (c : ClaimResponse) : string :=
  if detached then detachedWorkDir (ag_wsBase a) (c_RunID c) else claimWorkDir (ag_wsBase a) slot (c_JobName c).
Definition serve_claim (detached : bool) (slot : N) (c : ClaimResponse) : act () :=
  let id := c_RunID c in
  let workDir := work_dir detached slot c in
  call (QAddDir workDir) ;;
  call (QAddRun id) ;;
  recovered (λ e, failRun id ([Lit "agent panic before run execution: "] ++ e))
    (with_defer (if detached then _ ← call (QRemoveAll workDir); mret () else mret ())
      (with_defer (_ ← call (QRemoveDir workDir); mret ())
        (with_defer (_ ← call (QRemoveRun id); mret ())
          (serve_volumes c workDir)))).

(** ** The loop *)

Definition setBlocked (b blocked : bool) : act () := if bool_decide (b = blocked) then mret () else _ ← call (QBlocked b); mret ().
Definition workspaceGateWait : Z := 2 * second.

(** Whether the slot may claim, and whether it now counts as blocked. *)
Definition disk_gate (blocked : bool) : act (bool * bool) :=
  let t := ag_MinFreeDisk a in
  if th_Off t || (th_Bytes t =? 0)%Z && bool_decide (th_Percent t = None) then mret (true, blocked)
  else
    s ← call QStatfs;
    match s with
    | AStat free total =>
        if Below t free total then setBlocked true blocked ;; mret (false, true) else setBlocked false blocked ;; mret (true, false)
    | _ => setBlocked false blocked ;; mret (true, false)
    end.

Definition poll (detached : bool) : act answer :=
  if detached then call (QClaim true [])
  else
    b ← call QBusy;
    r ← call QReadings;
    let busy := match b with ANames l => l | _ => [] end in
    let gated := (gatedVolumes (ag_Volumes a) (match r with AReadings r => r | _ => λ _, None end) (ag_MinFreeDisk a)).1 in
    call (QSetGated gated) ;;
    call (QClaim false (withGated busy gated)).

(** [None]: the loop returns; otherwise whether the slot counts as blocked. *)
Definition stop (blocked : bool) : act (option bool) := setBlocked false blocked ;; mret None.
Definition pause (d : Z) (blocked : bool) : act (option bool) :=
  w ← call (QSleep d); match w with AYes => stop blocked | _ => mret (Some blocked) end.
Definition iteration (detached : bool) (slot : N) (blocked : bool) : act (option bool) :=
  x ← call QCordoned;
  match x with
  | AYes => stop blocked
  | _ =>
      g ← disk_gate blocked;
      let '(pass, blocked) := g in
      if negb pass then pause workspaceGateWait blocked
      else
        r ← poll detached;
        match r with
        | AClaim c => if (c_RunID c =? "")%string then mret (Some blocked) else serve_claim detached slot c ;; mret (Some blocked)
        | ANothing => mret (Some blocked)
        | _ => pause (2 * second) blocked
        end
  end.

(** ** [Run]: until the slots are started *)

Definition claim_slots : Z := if (ag_MaxConcurrent a <=? 0)%Z then 1 else ag_MaxConcurrent a.
Definition detached_slots : Z :=
  let d := if (ag_MaxDetachedConcurrent a =? 0)%Z then 16%Z else ag_MaxDetachedConcurrent a in
  if (d <? 0)%Z then 0%Z else d.
Definition startup : act (option answer) :=
  r ← retryUntilSuccess fuel QRegister;
  x ← call QCordoned;
  match x, r with
  | AYes, _ => mret (Some AYes)
  | _, AOk =>
      _ ← retryUntilSuccess fuel QReconcile;
      x ← call QCordoned;
      match x with AYes => mret (Some AYes) | _ => mret None end
  | _, r => mret (Some r)
  end.
End agent.

(** * What a slot does is in order

    What a slot holds after each request, which requests are then in order, and that an
    iteration makes no other: whatever fails or panics, it ends holding nothing. *)

(** ** What a slot holds *)

Inductive tenure := Nothing | Answered | Enrolled | Left.
(** The run of the claim, its directory while protected, whether its volumes are held,
    its workspace is unswept, its mounts are there, and whether its end is settled. *)
Record hold := MkHold { h_id : string; h_tenure : tenure; h_dir : option string; h_reserved : bool; h_dirty : bool; h_mounted : bool; h_settled : bool }.
Definition idle : hold := MkHold "" Nothing None false false false true.

Definition possible (q : request) (r : answer) : Prop :=
  match q with
  | QCordoned | QSleep _ | QRetryWait _ => r = AOk ∨ r = AYes
  | QStatfs => (∃ f t, r = AStat f t) ∨ ∃ e, r = AFail e
  | QBlocked _ | QSetGated _ | QAddDir _ | QAddRun _ | QRemoveRun _ | QRemoveDir _ => r = AOk
  | QBusy => ∃ l, r = ANames l
  | QReadings => ∃ f, r = AReadings f
  | QClaim _ _ => r = ANothing ∨ (∃ e, r = AFail e) ∨ (∃ c, r = AHttp c) ∨ r = ARefused ∨ ∃ c, r = AClaim c ∧ c_RunID c ≠ ""
  | QRemoveAll _ | QShim _ | QUnmount _ | QRuntime _ | QPodStart _ _ _ | QPrepare _ _ _ _ _ => r = AOk ∨ (∃ e, r = AFail e) ∨ ∃ e, r = APanic e
  | QReserve c => (∃ l, r = AReserved l ∧ l ≠ []) ∨ r = ATerminal ∨ (∃ e, r = AFail e) ∨ ∃ e, r = APanic e
  | QRelease _ | QFinish _ _ _ | QPodClose _ | QRunClaim _ _ _ _ => r = AOk ∨ ∃ e, r = APanic e
  | QMount _ _ => (∃ p, r = AMounted p) ∨ (∃ e, r = AFail e) ∨ ∃ e, r = APanic e
  | QLog _ _ => r = AOk ∨ ∃ e, r = AFail e
  | QFinishRun _ | QRegister | QReconcile => r = AOk ∨ (∃ e, r = AFail e) ∨ (∃ c, r = AHttp c) ∨ r = ARefused
  | QHang => False
  end.

(** Requests that work at a run: at its volumes, its workspace, its steps. *)
Definition works (q : request) : option string :=
  match q with
  | QReserve c | QPrepare c _ _ _ _ | QMount c _ | QPodStart c _ _ | QRunClaim c _ _ _ => Some (c_RunID c)
  | QShim id | QUnmount id | QRuntime id | QPodClose id | QFinish id _ _ | QRelease id => Some id
  | _ => None
  end.
Definition concerns (q : request) : option string := match q with QAddRun id => Some id | q => works q end.

(** Whether the volumes the request needs are held. *)
Definition covered (h : hold) (c : ClaimResponse) : Prop := c_Volumes c = [] ∨ h_reserved h = true.

Section slot.
Variables (wsBase : string) (detached : bool) (slot : N).

Definition own_dir (id dir : string) : Prop := if detached then dir = detachedWorkDir wsBase id else ∃ job, dir = claimWorkDir wsBase slot job.

(** When a request is in order. *)
Definition allowed (h : hold) (q : request) : Prop :=
  (∀ id, works q = Some id → h_tenure h = Enrolled ∧ h_id h = id ∧ is_Some (h_dir h)) ∧
  match q with
  | QClaim d _ => d = detached ∧ h = idle
  | QAddDir d => h_tenure h = Answered ∧ h_dir h = None ∧ own_dir (h_id h) d
  | QAddRun id => h_tenure h = Answered ∧ h_id h = id ∧ is_Some (h_dir h)
  | QReserve _ => h_reserved h = false
  | QPrepare c _ _ _ _ => covered h c ∧ h_mounted h = false
  | QMount c _ => covered h c ∧ h_dirty h = true ∧ h_mounted h = false
  | QPodStart c _ _ | QRunClaim c _ _ _ => covered h c ∧ h_dirty h = true ∧ h_mounted h = true
  | QFinish _ _ _ => h_mounted h = false
  | QRelease _ => h_mounted h = false ∧ h_dirty h = false
  | QRemoveRun id => h_tenure h = Enrolled ∧ h_id h = id ∧ h_reserved h = false ∧ h_dirty h = false ∧ h_mounted h = false
  | QRemoveDir d => h_tenure h = Left ∧ h_dir h = Some d
  | QRemoveAll d => h_tenure h = Left ∧ h_dir h = None ∧ detached = true ∧ own_dir (h_id h) d
  | QLog id _ | QFinishRun id => h_tenure h ≠ Nothing ∧ h_tenure h ≠ Answered ∧ h_id h = id
  | _ => True
  end.

Definition with_tenure (t : tenure) (h : hold) : hold := MkHold (h_id h) t (h_dir h) (h_reserved h) (h_dirty h) (h_mounted h) (h_settled h).
Definition with_dir (d : option string) (h : hold) : hold := MkHold (h_id h) (h_tenure h) d (h_reserved h) (h_dirty h) (h_mounted h) (h_settled h).
Definition with_reserved (b : bool) (h : hold) : hold := MkHold (h_id h) (h_tenure h) (h_dir h) b (h_dirty h) (h_mounted h) (h_settled h).
Definition with_dirty (b : bool) (h : hold) : hold := MkHold (h_id h) (h_tenure h) (h_dir h) (h_reserved h) b (h_mounted h) (h_settled h).
Definition with_mounted (b : bool) (h : hold) : hold := MkHold (h_id h) (h_tenure h) (h_dir h) (h_reserved h) (h_dirty h) b (h_settled h).
Definition settle (h : hold) : hold := MkHold (h_id h) (h_tenure h) (h_dir h) (h_reserved h) (h_dirty h) (h_mounted h) true.

(** A claim is settled when its run was executed, the controller had ended it, its
    failure was reported, or reporting it was refused for good or cut short by the end
    of the agent. *)
Definition after (h : hold) (q : request) (r : answer) : hold :=
  match q, r with
  | QClaim _ _, AClaim c => MkHold (c_RunID c) Answered None false false false false
  | QAddDir d, _ => with_dir (Some d) h
  | QAddRun _, _ => with_tenure Enrolled h
  | QRemoveRun _, _ => with_tenure Left h
  | QRemoveDir _, _ => with_dir None h
  | QReserve _, AReserved _ => with_reserved true h
  | QReserve _, ATerminal => settle h
  | QRelease _, _ => with_reserved false h
  | QPrepare _ _ _ _ _, _ => with_dirty true h
  | QFinish _ _ _, _ => with_dirty false h
  | QMount _ _, AMounted _ => with_mounted true h
  | QUnmount _, _ => with_mounted false h
  | QRunClaim _ _ _ _, AOk => settle h
  | QFinishRun _, AOk => settle h
  | QFinishRun _, r => if permanent r then settle h else h
  | QRetryWait _, AYes => settle h
  | _, _ => h
  end.

(** ** A logic for one slot *)

Fixpoint safe {X} (p : prog X) (Q : X → hold → Prop) (h : hold) : Prop :=
  match p with
  | Programs.Ret x => Q x h
  | Programs.Do q k => allowed h q ∧ ∀ r, possible q r → safe (k r) Q (after h q r)
  end.
Abbreviation post A := (out A → hold → Prop).

Lemma slot_safe_mono {X} (p : prog X) (Q Q' : X → hold → Prop) h : (∀ x h, Q x h → Q' x h) → safe p Q h → safe p Q' h.
Proof using. intros HQ. revert h. induction p as [x|q k IH]; intros h; cbn; [apply HQ|]. intros [Ha H]. split; [done|]. intros r Hr. apply IH, H, Hr. Qed.
Lemma safe_bind_prog {X Y} (p : prog X) (f : X → prog Y) Q h : safe p (λ x h, safe (f x) Q h) h → safe (bind_prog f p) Q h.
Proof using. revert h. induction p as [x|q k IH]; intros h; cbn; [done|]. intros [Ha H]. split; [done|]. intros r Hr. apply IH, H, Hr. Qed.
Lemma slot_safe_bind {A B} (p : act A) (f : A → act B) (Q : post B) h :
  safe p (λ r h, match r with Done x => safe (f x) Q h | Panics e => Q (Panics e) h end) h → safe (p ≫= f) Q h.
Proof using. intros H. unfold mbind, act_bind. apply safe_bind_prog. eapply slot_safe_mono; [|exact H]. intros [x|e] h'; cbn; done. Qed.
Lemma safe_call q (Q : post answer) h : allowed h q → (∀ r, possible q r → match r with APanic e => Q (Panics e) (after h q r) | r => Q (Done r) (after h q r) end) → safe (call q) Q h.
Proof using. intros Ha H. split; [done|]. intros r Hr. specialize (H r Hr). by destruct r. Qed.
Lemma safe_defer {A} (d : act ()) (p : act A) (Q : post A) h :
  safe p (λ r h, safe d (λ x h, Q (match x with Done _ => r | Panics e => Panics e end) h) h) h → safe (with_defer d p) Q h.
Proof using. intros H. unfold with_defer. apply safe_bind_prog. eapply slot_safe_mono; [|exact H]. intros r h' Hd. apply safe_bind_prog. eapply slot_safe_mono; [|exact Hd]. done. Qed.
Lemma safe_recovered (hd : text → act ()) p (Q : post ()) h :
  safe p (λ r h, match r with Done x => Q (Done x) h | Panics e => safe (hd e) (λ _ h, Q (Done ()) h) h end) h → safe (recovered hd p) Q h.
Proof using. intros H. unfold recovered. apply safe_bind_prog. eapply slot_safe_mono; [|exact H]. intros [x|e] h'; cbn; [done|]. intros Hd. apply safe_bind_prog. eapply slot_safe_mono; [|exact Hd]. done. Qed.

(** ** The programs of a slot *)

Context (a : Agent) (fuel : nat).
Hypothesis base : ag_wsBase a = wsBase.

(** What a program leaves as it was, up to the claim being settled. *)
Definition held (h h' : hold) : Prop := h' = h ∨ h' = settle h.
Lemma held_refl h : held h h.
Proof using. by left. Qed.
Lemma settle_settle h : settle (settle h) = settle h.
Proof using. done. Qed.
Hint Resolve held_refl settle_settle : core.

(** The claim is settled when the program returns. *)
Definition settles {A} (h : hold) : post A := λ r h', match r with Done _ => h' = settle h | Panics _ => held h h' end.

Ltac possibles := repeat match goal with
  | H : possible _ _ |- _ => cbn in H
  | H : _ ∨ _ |- _ => destruct H
  | H : ∃ _, _ |- _ => destruct H
  | H : _ ∧ _ |- _ => destruct H
  | H : ?r = _ |- _ => is_var r; subst r
  end.

Lemma retry_settles n wait id h : h_tenure h ≠ Nothing → h_tenure h ≠ Answered → h_id h = id → safe (retry_from n wait (QFinishRun id)) (λ r h', (∃ x, r = Done x) ∧ h' = settle h) h.
Proof using.
  intros H1 H2 H3. revert wait. induction n as [|n IH]; intros wait.
  - cbn. split; [by split|]. by intros r [].
  - cbn [retry_from]. apply slot_safe_bind, safe_call; [by split|]. intros r Hr. possibles; cbn; [by eauto| |destruct (_ <? 500)%Z eqn:E; cbn; rewrite ?E; [by eauto|]|by eauto].
    all: split; [by split|]; intros r Hr; possibles; cbn; rewrite ?E; [apply IH|by eauto].
Qed.

Lemma failRun_settles id reason h : h_tenure h ≠ Nothing → h_tenure h ≠ Answered → h_id h = id → safe (failRun fuel id reason) (λ r h', r = Done () ∧ h' = settle h) h.
Proof using.
  intros H1 H2 H3. unfold failRun. assert (safe (_ ← retryUntilSuccess fuel (QFinishRun id); mret ()) (λ r h', r = Done () ∧ h' = settle h) h) as Hn.
  { apply slot_safe_bind. eapply slot_safe_mono; [|by apply retry_settles]. intros y h' [[z ->] ->]. by cbn. }
  apply slot_safe_bind, safe_call; [by split|]. intros r Hr. possibles; exact Hn.
Qed.

(** The run is being served: it is reported and its directory protected. *)
Definition serving (c : ClaimResponse) (h : hold) : Prop := h_tenure h = Enrolled ∧ h_id h = c_RunID c ∧ is_Some (h_dir h) ∧ covered h c.

Lemma serving_works c h id q : serving c h → works q = Some id → id = c_RunID c → h_tenure h = Enrolled ∧ h_id h = id ∧ is_Some (h_dir h).
Proof using. intros (H1 & H2 & H3 & _) _ ->. done. Qed.

Lemma failed_settles id reason h : h_tenure h = Enrolled → h_id h = id → safe (failRun fuel id reason) (settles h) h.
Proof using. intros H1 H2. eapply slot_safe_mono; [|apply failRun_settles; [by rewrite H1|by rewrite H1|done]]. intros r h' [-> ->]. done. Qed.

Ltac in_order := match goal with H : serving _ _ |- _ => destruct H as (? & ? & ? & ?) end; (split; [intros ? [= <-]; done|cbn; done]).

Lemma run_settles c dir paths refs h : serving c h → h_dirty h = true → h_mounted h = true → safe (_ ← call (QRunClaim c dir paths refs); mret ()) (settles h) h.
Proof using. intros Hs Hd Hm. apply slot_safe_bind, safe_call; [in_order|]. intros r Hr. possibles; cbn; [done|by left]. Qed.

Lemma start_settles c dir extra paths refs h : serving c h → h_dirty h = true → h_mounted h = true →
  safe (p ← call (QPodStart c dir extra); match p with AFail e => _ ← call (QPodClose (c_RunID c)); failClaim fuel (c_RunID c) "claim pod construction failed" e | _ => _ ← call (QRunClaim c dir paths refs); mret () end) (settles h) h.
Proof using.
  intros Hs Hd Hm. apply slot_safe_bind, safe_call; [in_order|]. intros r Hr. possibles; [by apply run_settles| |cbn; by left].
  apply slot_safe_bind, safe_call; [in_order|]. intros r Hr. destruct Hs as (? & ? & ? & ?). possibles; [by apply failed_settles|cbn; by left].
Qed.

Lemma isolated_settles c dir paths refs h : serving c h → h_dirty h = true → h_mounted h = true → safe (run_isolated a fuel c dir paths refs) (settles h) h.
Proof using.
  intros Hs Hd Hm. unfold run_isolated. pose proof Hs as (H1 & H2 & H3 & H4). apply slot_safe_bind, safe_call; [in_order|]. intros r Hr.
  assert (∀ reason, safe (failRun fuel (c_RunID c) reason) (settles h) h) as Hf by (intros; by apply failed_settles).
  possibles; [|by apply Hf|cbn; by left]. cbn [after]. destruct (ag_PauseImage a =? "")%string; [apply Hf|]. destruct (_ && _); [apply Hf|].
  destruct (c_Volumes c); [by apply start_settles|]. destruct (isolatedVolumeMounts _ _ _); [|apply Hf]. destruct (_ && _); [apply Hf|by apply start_settles].
Qed.

Lemma unmounted h h' : h_mounted h = false → held (with_mounted true h) h' → held h (with_mounted false h') ∧ (h' = settle (with_mounted true h) → with_mounted false h' = settle h).
Proof using. destruct h as [i t d r y m s]. cbn. intros ->. by intros [->| ->]; cbn; split; try (by left); try (by right); intros [=]; subst. Qed.

Lemma body_settles c dir h : serving c h → h_dirty h = true → h_mounted h = false → safe (execute_body a fuel c dir) (settles h) h.
Proof using.
  intros Hs Hd Hm. unfold execute_body. pose proof Hs as (H1 & H2 & H3 & H4). apply slot_safe_bind, safe_call; [in_order|]. intros r Hr.
  assert (∀ reason, safe (failRun fuel (c_RunID c) reason) (settles h) h) as Hf by (intros; by apply failed_settles).
  possibles; [|by apply Hf|cbn; by left]. cbn [after]. set (h1 := with_mounted true h). assert (serving c h1) as Hs1 by done.
  apply safe_defer. apply (slot_safe_mono _ (settles h1)).
  - intros res h' Hx. assert (held h1 h') as Hh by (destruct res; [right|]; done). destruct (unmounted h h' Hm Hh) as [Hu Hu2].
    assert (h_tenure h' = Enrolled ∧ h_id h' = c_RunID c ∧ is_Some (h_dir h')) as He by (by destruct Hh as [->| ->]).
    apply slot_safe_bind, safe_call; [split; [by intros ? [= <-]|done]|]. intros r Hr. possibles; cbn; destruct res; cbn in *; auto.
  - destruct (relativeVolumeMounts _ _ _); [|by apply failed_settles]. destruct (c_Native c); [by apply run_settles|by apply isolated_settles].
Qed.

Lemma execute_settles c dir h : serving c h → h_dirty h = true → h_mounted h = false → safe (executeRun a fuel c dir) (λ r h', r = Done () ∧ h' = settle h) h.
Proof using.
  intros Hs Hd Hm. unfold executeRun. apply safe_recovered. eapply slot_safe_mono; [|by apply body_settles]. intros [[]|e] h' H; [done|].
  destruct Hs as (H1 & H2 & H3 & H4). assert (h_tenure h' = Enrolled ∧ h_id h' = c_RunID c ∧ settle h' = settle h) as (E1 & E2 & E3) by (by destruct H as [->| ->]).
  eapply slot_safe_mono; [|apply failRun_settles; [by rewrite E1|by rewrite E1|done]]. intros x h2 [_ ->]. by rewrite E3.
Qed.

(** ** One claim *)

Lemma swept h h' : h_dirty h = false → held (with_dirty true h) h' → held h (with_dirty false h') ∧ (h' = settle (with_dirty true h) → with_dirty false h' = settle h).
Proof using. destruct h as [i t d r y m s]. cbn. intros ->. by intros [->| ->]; cbn; split; try (by left); try (by right); intros [=]; subst. Qed.
Lemma released h h' : h_reserved h = false → held (with_reserved true h) h' → held h (with_reserved false h') ∧ (h' = settle (with_reserved true h) → with_reserved false h' = settle h).
Proof using. destruct h as [i t d r y m s]. cbn. intros ->. by intros [->| ->]; cbn; split; try (by left); try (by right); intros [=]; subst. Qed.
Lemma settles_held {A} h (r : out A) h' : settles h r h' → held h h'.
Proof using. destruct r; [intros ->; by right|done]. Qed.

Lemma reserved_settles c dir h : serving c h → h_dirty h = false → h_mounted h = false → safe (serve_reserved a fuel c dir) (settles h) h.
Proof using.
  intros Hs Hd Hm. unfold serve_reserved. pose proof Hs as (H1 & H2 & H3 & H4). destruct (if (_ =? "")%string then _ else _) as [prepDir vol]. set (h1 := with_dirty true h).
  apply safe_defer. apply (slot_safe_mono _ (settles h1)).
  - intros res h' Hx. destruct (swept h h' Hd (settles_held _ _ _ Hx)) as [Hu Hu2]. assert (h_tenure h' = Enrolled ∧ h_id h' = c_RunID c ∧ is_Some (h_dir h') ∧ h_mounted h' = false) as He by (by destruct (settles_held _ _ _ Hx) as [->| ->]). destruct_and! He.
    apply slot_safe_bind, safe_call; [split; [by intros ? [= <-]|cbn; tauto]|]. intros r Hr. possibles; cbn; destruct res; cbn in *; auto.
  - apply slot_safe_bind, safe_call; [in_order|]. intros r Hr. possibles; [|by apply failed_settles|cbn; by left]. cbn [after]. fold h1.
    assert (safe (executeRun a fuel c prepDir) (settles h1) h1) as He by (eapply slot_safe_mono; [|apply (execute_settles c prepDir h1); done]; by intros r h' [-> ->]).
    apply slot_safe_bind. destruct (ag_ToolsDir a =? "")%string; [by cbn|]. apply slot_safe_bind, safe_call; [split; [by intros ? [= <-]|done]|]. intros r Hr. possibles; cbn; [done|done|by left].
Qed.

Lemma volumes_settle c dir h : h_tenure h = Enrolled → h_id h = c_RunID c → is_Some (h_dir h) → h_reserved h = false → h_dirty h = false → h_mounted h = false → safe (serve_volumes a fuel c dir) (settles h) h.
Proof using.
  intros H1 H2 H3 H4 H5 H6. unfold serve_volumes. destruct (c_Volumes c) as [|v l] eqn:Ev; [apply reserved_settles; [by split_and!; [..|left]|done..]|].
  apply slot_safe_bind, safe_call; [split; [by intros ? [= <-]|done]|]. intros r Hr. possibles; [|by cbn|by apply failed_settles|cbn; by left]. cbn [after]. set (h1 := with_reserved true h).
  apply safe_defer. apply (slot_safe_mono _ (settles h1)).
  - intros res h' Hx. destruct (released h h' H4 (settles_held _ _ _ Hx)) as [Hu Hu2]. assert (h_tenure h' = Enrolled ∧ h_id h' = c_RunID c ∧ is_Some (h_dir h') ∧ h_mounted h' = false ∧ h_dirty h' = false) as He by (by destruct (settles_held _ _ _ Hx) as [->| ->]). destruct_and! He.
    apply slot_safe_bind, safe_call; [split; [by intros ? [= <-]|cbn; tauto]|]. intros r Hr. possibles; cbn; destruct res; cbn in *; auto.
  - apply reserved_settles; [|done|done]. split_and!; [done|done|done|by right].
Qed.

(** After a claim the slot holds nothing, and the claim is settled. *)
Definition over (h : hold) : Prop := h_dir h = None ∧ h_reserved h = false ∧ h_dirty h = false ∧ h_mounted h = false ∧ h_settled h = true.

Lemma serve_over c : c_RunID c ≠ "" → safe (serve_claim a fuel detached slot c) (λ r h', r = Done () ∧ over h') (MkHold (c_RunID c) Answered None false false false false).
Proof using base.
  intros Hc. unfold serve_claim. set (dir := work_dir a detached slot c). assert (own_dir (c_RunID c) dir) as Hown by (unfold own_dir, dir, work_dir; rewrite base; destruct detached; [done|by eexists]).
  set (h0 := MkHold _ _ _ _ _ _ _). apply slot_safe_bind, safe_call; [by split|]. intros r ->. cbn [after]. apply slot_safe_bind, safe_call; [split; [done|by split_and!; [..|eexists]]|]. intros r ->. cbn [after].
  set (h1 := with_tenure Enrolled _). apply safe_recovered.
  apply (slot_safe_mono _ (λ r h', h_tenure h' = Left ∧ h_id h' = c_RunID c ∧ h_dir h' = None ∧ h_reserved h' = false ∧ h_dirty h' = false ∧ h_mounted h' = false ∧ (∀ u, r = Done u → h_settled h' = true))).
  { intros r h' (E1 & E2 & E3 & E4 & E5 & E6 & E7). destruct r as [[]|e]; [split; [done|by split_and!; [..|apply (E7 ())]]|].
    eapply slot_safe_mono; [|apply failRun_settles; [by rewrite E1|by rewrite E1|done]]. intros x h2 [_ ->]. done. }
  apply safe_defer, safe_defer, safe_defer. eapply slot_safe_mono; [|apply (volumes_settle c dir h1); done]. intros res h' Hx.
  assert (h' = h1 ∨ h' = settle h1) as Hh by apply (settles_held _ _ _ Hx). assert (∀ u, res = Done u → h_settled h' = true) as Hset by (intros u ->; cbn in Hx; by rewrite Hx). clear Hx.
  apply slot_safe_bind, safe_call; [split; [done|by destruct Hh as [->| ->]]|]. intros r ->. cbn [after].
  apply slot_safe_bind, safe_call; [split; [done|by destruct Hh as [->| ->]]|]. intros r ->. cbn [after].
  set (h3 := with_dir None _). assert (h_tenure h3 = Left ∧ h_id h3 = c_RunID c ∧ h_dir h3 = None ∧ h_reserved h3 = false ∧ h_dirty h3 = false ∧ h_mounted h3 = false) as He by (by destruct Hh as [->| ->]). destruct He as (E1 & E2 & E3 & E4 & E5 & E6).
  destruct detached eqn:Edet; [|by cbn]. apply slot_safe_bind, safe_call; [split; [done|by rewrite E2]|]. intros r Hr. possibles; by cbn.
Qed.

(** ** The loop *)

(** A request at which a slot holds nothing, or that is always in order. *)
Lemma safe_free {A} q (f : answer → act A) (Q : post A) h : works q = None → allowed h q → (∀ r e, possible q r → r ≠ APanic e) → (∀ r, possible q r → safe (f r) Q (after h q r)) → safe (x ← call q; f x) Q h.
Proof using.
  intros Hw Ha Hp H. apply slot_safe_bind, safe_call; [done|]. intros r Hr. specialize (H r Hr). specialize (Hp r). destruct r; try exact H. by destruct (Hp e Hr).
Qed.
Lemma blocked_safe b b' (Q : post ()) h : Q (Done ()) h → safe (setBlocked b b') Q h.
Proof using. intros HQ. unfold setBlocked. case_bool_decide; [done|]. apply safe_free; [done|by split|by intros r e ->|]. by intros r ->. Qed.

Definition idles {A} : post A := λ r h, (∃ x, r = Done x) ∧ over h.
Lemma idle_over : over idle.
Proof using. done. Qed.
Hint Resolve idle_over : core.

Lemma stop_safe b : safe (stop b) idles idle.
Proof using. unfold stop. apply slot_safe_bind, blocked_safe. cbn. split; [by eexists|done]. Qed.
Lemma pause_safe d b : safe (pause d b) idles idle.
Proof using. unfold pause. apply safe_free; [done|by split|by intros r e [->| ->]|]. intros r [->| ->]; [cbn; split; [by eexists|done]|apply stop_safe]. Qed.

Lemma gate_safe b : safe (disk_gate a b) (λ r h, (∃ x, r = Done x) ∧ h = idle) idle.
Proof using.
  unfold disk_gate. destruct (_ || _); [cbn; split; [by eexists|done]|]. apply safe_free; [done|by split|intros r e Hr; by possibles|]. intros r Hr.
  assert (∀ x b b', safe (setBlocked b b' ;; mret x) (λ r h, (∃ x : bool * bool, r = Done x) ∧ h = idle) idle) as Hb by (intros x b1 b2; apply slot_safe_bind, blocked_safe; cbn; split; [by eexists|done]).
  possibles; [cbn [after]; destruct (Below _ _ _)|]; apply Hb.
Qed.

Lemma poll_safe (Q : post answer) : (∀ d busy r, possible (QClaim d busy) r → Q (Done r) (after idle (QClaim d busy) r)) → safe (poll a detached) Q idle.
Proof using.
  intros HQ. assert (∀ busy, safe (call (QClaim detached busy)) Q idle) as Hc.
  { intros busy. apply safe_call; [by split|]. intros r Hr. specialize (HQ detached busy r Hr). destruct r; try exact HQ. by possibles. }
  unfold poll. destruct detached; [apply Hc|]. apply safe_free; [done|by split|intros r e Hr; by possibles|]. intros r Hr. apply safe_free; [done|by split|intros r' e Hr'; by possibles|]. intros r' Hr'.
  replace (after (after idle QBusy r) QReadings r') with idle by (possibles; done). apply safe_free; [done|by split|intros x e Hx; by possibles|]. intros x Hx. cbn in Hx. subst x. apply Hc.
Qed.

Lemma iteration_safe b : safe (iteration a fuel detached slot b) idles idle.
Proof using base.
  unfold iteration. apply safe_free; [done|by split|by intros r e [->| ->]|]. intros r [->| ->]; [|apply stop_safe]. cbn [after]. apply slot_safe_bind. eapply slot_safe_mono; [|apply gate_safe].
  intros r h [[[pass b'] ->] ->]. destruct pass; cbn [negb]; [|apply pause_safe]. apply slot_safe_bind, poll_safe. intros d busy r Hr.
  assert (∀ x, safe (mret x : act (option bool)) idles idle) as Hret by (intros x; cbn; split; [by eexists|done]).
  possibles; try apply Hret; try apply pause_safe. cbn [after]. destruct (String.eqb_spec (c_RunID x) ""); [done|]. apply slot_safe_bind. eapply slot_safe_mono; [|by apply serve_over].
  intros r h [-> Ho]. cbn. split; [by eexists|done].
Qed.
End slot.
