(* ===== verification/AgentFleet.v ===== *)
(** * The claim loops, the heartbeats and the store together

    One agent over the life of the store: its slots run [AgentLoop]'s iterations, its
    heartbeats carry the set of runs it reports, the process may die and start again at
    any point, and every other operation of the store goes on meanwhile.  What a
    heartbeat makes the controller fail as lost is never in the agent's hands. *)

From S2P Require Import Prelude GoStrings GoPath DslTypes DslMatrix SecretRefs StoreRuns StoreLocks StoreLife RunControl Programs VolumePlaces VolumePlacesFacts VolumeMounts AgentSteps ClaimBuild AgentClaim AgentLoop.
From stdpp Require Import options.

Section fleet.
Context (visit_runs : gmap runid run → list (runid * run))
  (uuid : runid → string) (sprint : val → string) (parse_template : string → res (list SecretRefs.node)) (ET : string → TemplateData → res string) (json_error : text) (matrixMax : Z)
  (js : string → option (list string)) (caps : Spec → list string).
(** The agent, its ID and labels; how long the answer to a claim may take to be noted,
    and a heartbeat from its list of runs to the controller's use of it, in seconds. *)
Context (a : Agent) (agent : string) (labels : list string) (arrival delay : Z).

Definition waiting (r : run) : Prop := r_status r = RunPending ∨ r_status r = RunQueued.
Definition rows (y : sys) : gmap runid run := d_runs (y_db y).

(** ** Slots, processes and the system *)

(** A slot: its program, what it holds, and when its run was claimed. *)
Record slot := MkSlot { sl_prog : prog (out (option bool)); sl_hold : hold; sl_claimed : Z }.
Abbreviation key := (bool * N)%type.
Record process := MkProcess { pr_runs : gset string; pr_dirs : gset string; pr_slots : gmap key slot }.
Inductive agent_state := Off | Booting (p : prog (out (option answer))) | Up (p : process).
(** [sy_given]: the runs ever handed to the agent; [sy_beats]: the heartbeats on their
    way, each with the time and the runs it reports. *)
Record system := MkSystem { sy_now : Z; sy_store : sys; sy_given : gset runid; sy_agent : agent_state; sy_beats : list (Z * gset string) }.

(** What [ListReconcilableRunIDsByAgent] finds and a heartbeat does not report. *)
Definition lost (now : Z) (reported : gset string) (d : db) : list runid :=
  filter (λ id, uuid id ∉ reported) (ListReconcilableRunIDsByAgent visit_runs now agent d).

(** The runs and directories a request enters and removes. *)
Definition enter (q : request) (p : process) : process :=
  match q with
  | QAddRun id => MkProcess ({[id]} ∪ pr_runs p) (pr_dirs p) (pr_slots p)
  | QRemoveRun id => MkProcess (pr_runs p ∖ {[id]}) (pr_dirs p) (pr_slots p)
  | QAddDir d => MkProcess (pr_runs p) ({[d]} ∪ pr_dirs p) (pr_slots p)
  | QRemoveDir d => MkProcess (pr_runs p) (pr_dirs p ∖ {[d]}) (pr_slots p)
  | _ => p
  end.
Definition set_slot (k : key) (s : slot) (p : process) : process := MkProcess (pr_runs p) (pr_dirs p) (<[k := s]> (pr_slots p)).
Definition fresh_slot (fuel : nat) (k : key) (b : bool) : slot := MkSlot (iteration a fuel k.1 k.2 b) idle 0.

(** Answers arrive, and heartbeats are used, in time. *)
Definition in_time (now : Z) (s : system) : Prop :=
  (∀ p k sl, sy_agent s = Up p → pr_slots p !! k = Some sl → h_tenure (sl_hold sl) = Answered → (now <= sl_claimed sl + arrival)%Z)
  ∧ ∀ b, b ∈ sy_beats s → (now <= b.1 + delay)%Z.

(** The rest of the store: claims carry the time they are made at, and a run handed out
    does not wait again (only the poll that took a run gives it back). *)
Definition orderly (now : Z) (given : gset runid) (y y' : sys) : Prop :=
  (∀ id r r', rows y !! id = Some r → waiting r → rows y' !! id = Some r' → r_claimed_by r' = Some agent → r_claimed_at r' = Some now)
  ∧ ∀ id, id ∈ given → (∀ r, rows y !! id = Some r → ¬ waiting r) → ∀ r, rows y' !! id = Some r → ¬ waiting r.

Inductive step : system → system → Prop :=
| st_time s now : (sy_now s <= now)%Z → in_time now s → step s (MkSystem now (sy_store s) (sy_given s) (sy_agent s) (sy_beats s))
| st_store s y : store_step ET js caps visit_runs (sy_store s) y → orderly (sy_now s) (sy_given s) (sy_store s) y → step s (MkSystem (sy_now s) y (sy_given s) (sy_agent s) (sy_beats s))
| st_start now y g bs fuel : step (MkSystem now y g Off bs) (MkSystem now y g (Booting (startup fuel)) bs)
| st_boot now y g bs q k r : possible q r → step (MkSystem now y g (Booting (Programs.Do q k)) bs) (MkSystem now y g (Booting (k r)) bs)
| st_up now y g bs slots :
    (∀ k sl, slots !! k = Some sl → ∃ fuel, sl = fresh_slot fuel k false) →
    step (MkSystem now y g (Booting (Programs.Ret (Done None))) bs) (MkSystem now y g (Up (MkProcess ∅ ∅ slots)) bs)
| st_die now y g p bs : step (MkSystem now y g p bs) (MkSystem now y g Off bs)
| st_again now y g p bs k sl b fuel :
    pr_slots p !! k = Some sl → sl_prog sl = Programs.Ret (Done (Some b)) →
    step (MkSystem now y g (Up p) bs) (MkSystem now y g (Up (set_slot k (fresh_slot fuel k b) p)) bs)
| st_request now y g p bs k sl q f r :
    pr_slots p !! k = Some sl → sl_prog sl = Programs.Do q f → possible q r → (∀ c, r ≠ AClaim c) →
    step (MkSystem now y g (Up p) bs) (MkSystem now y g (Up (set_slot k (MkSlot (f r) (after (sl_hold sl) q r) (sl_claimed sl)) (enter q p))) bs)
| st_claim now y g p bs k sl detached busy f locked recs c d id r :
    pr_slots p !! k = Some sl → sl_prog sl = Programs.Do (QClaim detached busy) f →
    claimNextRun visit_runs locked agent labels (if detached then [] else busy) detached now (y_db y) = (Some (id, r), d) →
    claim_reply uuid sprint parse_template ET json_error matrixMax recs id r = RAnswer c →
    c_RunID c ≠ "" →
    step (MkSystem now y g (Up p) bs) (MkSystem now (on_db d y) ({[id]} ∪ g) (Up (set_slot k (MkSlot (f (AClaim c)) (after (sl_hold sl) (QClaim detached busy) (AClaim c)) now) p)) bs)
| st_beat now y g p bs : step (MkSystem now y g (Up p) bs) (MkSystem now y g (Up p) ((now, pr_runs p) :: bs))
| st_beat_used s b bs bs' : sy_beats s = bs ++ b :: bs' → step s (MkSystem (sy_now s) (sy_store s) (sy_given s) (sy_agent s) (bs ++ bs')).

Inductive reach : system → Prop :=
| re_init now y : reach (MkSystem now y ∅ Off [])
| re_step s s' : reach s → step s s' → reach s'.

(** ** The store *)

Hypothesis visit_perm : ∀ m, visit_runs m ≡ₚ map_to_list m.

(** No claim of the agent appears or is moved. *)
Definition claims_kept (m m' : gmap runid run) : Prop :=
  ∀ id r', m' !! id = Some r' → r_claimed_by r' = Some agent → ∃ r, m !! id = Some r ∧ r_claimed_by r = Some agent ∧ r_claimed_at r = r_claimed_at r'.
Lemma kept_refl m : claims_kept m m.
Proof using. intros id r' H1 H2. eauto. Qed.
Lemma kept_insert m id x : r_claimed_by x = None ∨ (∃ r, m !! id = Some r ∧ r_claimed_by r = r_claimed_by x ∧ r_claimed_at r = r_claimed_at x) → claims_kept m (<[id := x]> m).
Proof using.
  intros H j r'. destruct (decide (id = j)) as [<-|Hj]; [|rewrite lookup_insert_ne by done; apply kept_refl]. rewrite lookup_insert_eq. intros [= <-] Hby.
  destruct H as [H|(r & H1 & H2 & H3)]; [congruence|]. exists r. by rewrite H2.
Qed.
Lemma kept_alter f m id : (∀ r, r_claimed_by (f r) = r_claimed_by r ∧ r_claimed_at (f r) = r_claimed_at r) → claims_kept m (alter f id m).
Proof using.
  intros Hf j r' H Hby. destruct (decide (id = j)) as [<-|Hj]; [|rewrite lookup_alter_ne in H by done; eauto].
  rewrite lookup_alter_eq in H. destruct (m !! id) as [r|] eqn:E; [|done]. injection H as <-. exists r. destruct (Hf r) as [H1 H2]. by rewrite <- H1, <- H2.
Qed.
Lemma kept_finish id expected status d b d' : finishRunFrom id expected status d = Ok (b, d') → claims_kept (d_runs d) (d_runs d').
Proof using. intros [_ [(_ & -> & _)|(r & _ & Hr & _ & _ & ->)]]%finishRunFrom_cases; [apply kept_refl|]. cbn. apply kept_insert. right. by exists r. Qed.
Lemma kept_queue locked id spec params y : claims_kept (rows y) (rows (queue_step ET js locked id spec params y)).
Proof using.
  unfold queue_step. destruct (tryQueueRun ET js locked id spec params (y_db y)) as [b d] eqn:E. assert (claims_kept (rows y) (d_runs d)) as Hd.
  { unfold tryQueueRun in E. destruct (d_runs (y_db y) !! id) as [r|] eqn:Er; [|injection E as <- <-; apply kept_refl]. case_bool_decide; [injection E as <- <-; apply kept_refl|].
    destruct (decide_queue _ _ _ _ _ _ _) as [| |c aq vols]; injection E as <- <-; [apply kept_refl| |cbn; apply kept_insert; right; by exists r].
    unfold fail_run, MarkRunFinished, FinishRun. destruct (finishRunFrom id None RunFailed (y_db y)) as [[b' d']|e] eqn:Ef; cbn; [|apply kept_refl]. by eapply kept_finish. }
  destruct b; [|done]. by destruct (decide_queue _ _ _ _ _ _ _).
Qed.

Lemma claim_stored locked busy detached now lb ag d : claims_kept (d_runs d) (d_runs (claimNextRun visit_runs locked ag lb busy detached now d).2)
  ∨ ∃ id r, d_runs d !! id = Some r ∧ waiting r ∧ (claimNextRun visit_runs locked ag lb busy detached now d).2 = set_runs <[id := with_claim (Some ag) (Some now) RunRunning r]> d.
Proof using visit_perm.
  pose proof (claim_cases visit_runs visit_perm locked ag lb busy detached now d) as H. cbv zeta in H. destruct (claimNextRun _ _ _ _ _ _ _ _) as [[[id r']|] d'].
  - destruct H as (r & Hr & [Hc _] & -> & -> & _). right. exists id, r. split; [done|]. split; [|done]. unfold claimable in Hc. reflect. right. naive_solver.
  - destruct H as [-> _]. left. apply kept_refl.
Qed.

(** A run newly claimed by the agent was waiting. *)
Lemma claims_appear y y' id r' : store_step ET js caps visit_runs y y' → rows y' !! id = Some r' → r_claimed_by r' = Some agent →
  (∃ r, rows y !! id = Some r ∧ waiting r) ∨ ∃ r, rows y !! id = Some r ∧ r_claimed_by r = Some agent ∧ r_claimed_at r = r_claimed_at r'.
Proof using visit_perm.
  intros Hst Hr' Hby. enough (claims_kept (rows y) (rows y') ∨ ∃ j r, rows y !! j = Some r ∧ waiting r ∧ ∃ x, rows y' = <[j := x]> (rows y)) as [Hk|(j & r & Hr & Hw & x & E)]; [right; by apply Hk| |].
  { destruct (decide (j = id)) as [->|Hj]; [left; eauto|]. rewrite E, lookup_insert_ne in Hr' by done. right. eauto. }
  clear Hr' Hby r' id. destruct Hst as [y|y j job params spec sel rc now Hfree|y j spec d Hd|y locked j spec params|y locked ag lb busy detached now|y j ag|y j r ag Hr Hag|y j expected status b d Hd|y j|y j i variant new d Hd|y j now|y ags]; unfold rows in *.
  - left. apply kept_refl.
  - left. cbn. apply kept_insert. by left.
  - left. destruct spec as [sp|]; [|done]. injection Hd as <-. cbn. apply kept_alter. intros r. by case_bool_decide.
  - left. apply kept_queue.
  - destruct (claim_stored locked busy detached now lb ag (y_db y)) as [H|(j & r & Hr & Hw & E)]; [by left|right]. exists j, r. split; [done|]. split; [done|]. cbn. rewrite E. by eexists.
  - left. cbn. unfold RequeueClaimedRun. destruct (d_runs (y_db y) !! j) as [r|]; [|apply kept_refl]. case_bool_decide; [|apply kept_refl]. cbn. apply kept_insert. by left.
  - left. cbn. apply kept_alter. intros x. by destruct (terminal _).
  - left. by eapply kept_finish.
  - left. cbn. unfold DeleteRun. case_bool_decide; [|apply kept_refl]. cbn. intros i x [_ Hx]%lookup_delete_Some Hx2. eauto.
  - left. cbn. unfold UpsertStepReport in Hd. destruct (d_runs (y_db y) !! j) as [r|]; [|done]. destruct (terminal _); [done|]. injection Hd as <-. apply kept_refl.
  - left. apply kept_refl.
  - left. apply kept_refl.
Qed.

(** ** What the agent holds *)

Abbreviation wsBase := (ag_wsBase a).
Hypothesis base_place : place wsBase.
Hypothesis ids_differ : ∀ i j, sanitizeJobName (uuid i) = sanitizeJobName (uuid j) → i = j.
Hypothesis timely : (0 <= arrival)%Z ∧ (0 <= delay)%Z ∧ (arrival + delay <= heartbeatReconcileGrace)%Z.

Record slot_ok (now : Z) (y : sys) (g : gset runid) (p : process) (bs : list (Z * gset string)) (k : key) (sl : slot) : Prop := {
  ok_safe : safe wsBase k.1 k.2 (sl_prog sl) idles (sl_hold sl);
  ok_run : h_tenure (sl_hold sl) = Enrolled → h_id (sl_hold sl) ∈ pr_runs p;
  ok_dir : ∀ d, h_dir (sl_hold sl) = Some d → d ∈ pr_dirs p ∧ own_dir wsBase k.1 k.2 (h_id (sl_hold sl)) d ∧ h_tenure (sl_hold sl) ≠ Nothing;
  ok_given : h_tenure (sl_hold sl) ≠ Nothing → ∃ id, h_id (sl_hold sl) = uuid id ∧ id ∈ g
    ∧ ∀ r, rows y !! id = Some r → ¬ waiting r ∧ (r_claimed_by r = Some agent → r_claimed_at r = Some (sl_claimed sl));
  ok_answered : h_tenure (sl_hold sl) = Answered → (now <= sl_claimed sl + arrival)%Z;
  ok_beats : h_tenure (sl_hold sl) = Enrolled → ∀ b, b ∈ bs → h_id (sl_hold sl) ∉ b.2 → (b.1 <= sl_claimed sl + arrival)%Z
}.
Definition apart (slots : gmap key slot) : Prop :=
  ∀ k k' sl sl', k ≠ k' → slots !! k = Some sl → slots !! k' = Some sl' → h_tenure (sl_hold sl) ≠ Nothing → h_tenure (sl_hold sl') ≠ Nothing → h_id (sl_hold sl) ≠ h_id (sl_hold sl').
Definition invariant (s : system) : Prop :=
  (∀ b, b ∈ sy_beats s → (b.1 <= sy_now s <= b.1 + delay)%Z)
  ∧ ∀ p, sy_agent s = Up p → apart (pr_slots p) ∧ ∀ k sl, pr_slots p !! k = Some sl → slot_ok (sy_now s) (sy_store s) (sy_given s) p (sy_beats s) k sl.

Lemma ids_inj i j : uuid i = uuid j → i = j.
Proof using ids_differ. intros H. apply ids_differ. by rewrite H. Qed.

(** Two slots do not have one directory. *)
Lemma dirs_apart k k' id id' d : own_dir wsBase k.1 k.2 (uuid id) d → own_dir wsBase k'.1 k'.2 (uuid id') d → k ≠ k' → uuid id ≠ uuid id' → False.
Proof using base_place ids_differ.
  destruct k as [b s], k' as [b' s']. unfold own_dir. cbn [fst snd]. intros H H' Hk Hid.
  assert (∀ i, segments (detachedWorkDir wsBase i) = segments wsBase ++ ["detached"; sanitizeJobName i]) as Hd.
  { intros i. apply segments_Join; [done|]. constructor; [by split_and!|]. constructor; [apply sanitizeJobName_proper|done]. }
  assert (∀ t j, segments (claimWorkDir wsBase t j) = segments wsBase ++ ["working" +:+ pretty t; sanitizeJobName j]) as Hw.
  { intros t j. apply segments_Join; [done|]. constructor; [apply working_proper|]. constructor; [apply sanitizeJobName_proper|done]. }
  destruct b, b'.
  - rewrite H in H'. apply (f_equal segments) in H'. rewrite !Hd in H'. apply app_inv_head in H'. injection H' as H'. apply Hid. f_equal. by apply ids_differ.
  - destruct H' as [j H']. rewrite H in H'. apply (f_equal segments) in H'. rewrite Hd, Hw in H'. apply app_inv_head in H'. by injection H' as H'.
  - destruct H as [j H]. rewrite H' in H. apply (f_equal segments) in H. rewrite Hd, Hw in H. apply app_inv_head in H. by injection H as H.
  - destruct H as [j ->], H' as [j' H']. destruct (decide (s = s')) as [->|Hs]; [done|]. destruct (two_slots wsBase s s' j j' base_place Hs) as [Hp _]. apply Hp. by rewrite H'.
Qed.

(** Requests that change neither whose run the slot has nor its directory. *)
Definition private (q : request) : bool := match q with QClaim _ _ | QAddDir _ | QAddRun _ | QRemoveRun _ | QRemoveDir _ => false | _ => true end.
Lemma private_after h q r : private q = true → h_id (after h q r) = h_id h ∧ h_tenure (after h q r) = h_tenure h ∧ h_dir (after h q r) = h_dir h.
Proof using. intros Hq. unfold after. destruct q; try done; destruct r; try done; cbn; by repeat case_match. Qed.

Lemma slot_env now y g p p' bs k sl now' y' g' bs' :
  slot_ok now y g p bs k sl → (∀ id, h_tenure (sl_hold sl) = Enrolled → h_id (sl_hold sl) = id → id ∈ pr_runs p → id ∈ pr_runs p') → (∀ d, h_dir (sl_hold sl) = Some d → d ∈ pr_dirs p → d ∈ pr_dirs p') →
  (∀ id, h_tenure (sl_hold sl) ≠ Nothing → h_id (sl_hold sl) = uuid id → id ∈ g → id ∈ g' ∧ ((∀ r, rows y !! id = Some r → ¬ waiting r ∧ (r_claimed_by r = Some agent → r_claimed_at r = Some (sl_claimed sl))) →
     ∀ r, rows y' !! id = Some r → ¬ waiting r ∧ (r_claimed_by r = Some agent → r_claimed_at r = Some (sl_claimed sl)))) →
  (h_tenure (sl_hold sl) = Answered → (now <= sl_claimed sl + arrival)%Z → (now' <= sl_claimed sl + arrival)%Z) →
  (∀ b, b ∈ bs' → b ∈ bs ∨ (h_tenure (sl_hold sl) = Enrolled → h_id (sl_hold sl) ∈ b.2)) → slot_ok now' y' g' p' bs' k sl.
Proof using.
  intros [H1 H2 H3 H4 H5 H6] Hr Hd Hg Ha Hb. split; [done|by eauto| |  |by eauto|].
  - intros d E. destruct (H3 d E) as (? & ? & ?). eauto.
  - intros Ht. destruct (H4 Ht) as (id & E & Hin & Hrows). destruct (Hg id Ht E Hin) as [Hin' Hrows']. exists id. split; [done|]. split; [done|]. by apply Hrows'.
  - intros Ht b Hin Hn. destruct (Hb b Hin) as [Hin'|Hin']; [by apply H6|]. destruct Hn. by apply Hin'.
Qed.

(** ** Every step keeps it *)

Lemma set_lookup {A} (m : gmap key A) k x k' y : <[k := x]> m !! k' = Some y → (k' = k ∧ y = x) ∨ (k' ≠ k ∧ m !! k' = Some y).
Proof using. rewrite lookup_insert_Some. intros [[-> ->]|[? ?]]; [by left|right; done]. Qed.

Lemma answered_claim recs id r c : claim_reply uuid sprint parse_template ET json_error matrixMax recs id r = RAnswer c → c_RunID c = uuid id.
Proof using.
  unfold claim_reply. destruct (mergedGlobalVars recs) as [globals|e|e]; [|done..].
  destruct (buildClaimResponse _ _ _ _ _ _) as [resp|e] eqn:Eb; [|done]. intros [= <-].
  unfold buildClaimResponse in Eb. repeat (apply bind_ok in Eb as (? & _ & Eb)). by injection Eb as <-.
Qed.

Lemma fresh_ok now y g p bs k fuel b : slot_ok now y g p bs k (fresh_slot fuel k b).
Proof using. split; try done. by apply iteration_safe. Qed.

Lemma store_step_ok s y : invariant s → store_step ET js caps visit_runs (sy_store s) y → orderly (sy_now s) (sy_given s) (sy_store s) y → invariant (MkSystem (sy_now s) y (sy_given s) (sy_agent s) (sy_beats s)).
Proof using visit_perm.
  intros [Hb Hp] Hst [_ Hwait]. split; [done|]. cbn. intros p E. destruct (Hp p E) as [Hap Hok]. split; [done|]. intros k sl Hk. eapply slot_env; [by apply Hok|done|done| |done|by left].
  intros id Ht E1 Hin. split; [done|]. intros Hrows r' Hr'. assert (∀ r, rows (sy_store s) !! id = Some r → ¬ waiting r) as Hnw by (intros r Hr; by apply Hrows). split; [by eapply Hwait|]. intros Hby.
  destruct (claims_appear _ _ _ _ Hst Hr' Hby) as [(r & Hr & Hw)|(r & Hr & Hby' & Hat)]; [by destruct (Hnw r Hr)|]. rewrite <- Hat. by apply (Hrows r Hr).
Qed.

(** The slot's own request. *)
Lemma private_step now y g p bs k sl q f r :
  slot_ok now y g p bs k sl → sl_prog sl = Programs.Do q f → possible q r → private q = true → slot_ok now y g (enter q p) bs k (MkSlot (f r) (after (sl_hold sl) q r) (sl_claimed sl)).
Proof using.
  intros [H1 H2 H3 H4 H5 H6] E Hr Hq. rewrite E in H1. destruct H1 as [_ H1]. specialize (H1 r Hr). destruct (private_after (sl_hold sl) q r Hq) as (E1 & E2 & E3).
  assert (enter q p = p) as -> by (by destruct q). split; cbn [sl_hold sl_prog sl_claimed]; rewrite ?E1, ?E2, ?E3; done.
Qed.

Lemma own_step now y g p bs k sl q f r :
  slot_ok now y g p bs k sl → (∀ b, b ∈ bs → (b.1 <= now)%Z) → sl_prog sl = Programs.Do q f → possible q r → (∀ c, r ≠ AClaim c) →
  slot_ok now y g (enter q p) bs k (MkSlot (f r) (after (sl_hold sl) q r) (sl_claimed sl))
  ∧ h_id (after (sl_hold sl) q r) = h_id (sl_hold sl) ∧ (h_tenure (after (sl_hold sl) q r) ≠ Nothing → h_tenure (sl_hold sl) ≠ Nothing).
Proof using.
  intros Hok Hbs E Hr Hc. destruct (private q) eqn:Hq.
  { split; [by apply private_step|]. by destruct (private_after (sl_hold sl) q r Hq) as (-> & -> & _). }
  destruct Hok as [H1 H2 H3 H4 H5 H6]. rewrite E in H1. destruct H1 as [[_ Ha] H1]. specialize (H1 r Hr). destruct q; try discriminate Hq; cbn in Ha.
  - assert (after (sl_hold sl) (QClaim detached busy) r = sl_hold sl) as Eh by (destruct r; try done; by destruct (Hc c)). rewrite Eh in *. by split.
  - destruct Ha as (Ht & _ & Hown). split; [|done]. split; cbn; try done. intros d [= <-]. split; [by apply elem_of_union_l, elem_of_singleton|]. by rewrite Ht.
  - destruct Ha as (Ht & Hid & [d Hd]). split; [|by rewrite Ht]. split; cbn; try done; [intros _; rewrite Hid; by apply elem_of_union_l, elem_of_singleton|intros d' E'; by destruct (H3 d' E') as (? & ? & _)|intros _; apply H4; by rewrite Ht|].
    intros _ b Hb _. specialize (Hbs b Hb). specialize (H5 Ht). lia.
  - destruct Ha as (Ht & Hid & _). split; [|by rewrite Ht]. split; cbn; try done; [intros d' E'; by destruct (H3 d' E') as (? & ? & _)|]. intros _. apply H4. by rewrite Ht.
  - destruct Ha as (Ht & Hd). split; [|done]. split; cbn; try done.
Qed.

(** A request of one slot does not touch what another holds. *)
Lemma other_step now y g p bs k sl q k' sl' :
  slot_ok now y g p bs k sl → allowed wsBase k.1 k.2 (sl_hold sl) q → slot_ok now y g p bs k' sl' → k ≠ k' →
  (h_tenure (sl_hold sl) ≠ Nothing → h_tenure (sl_hold sl') ≠ Nothing → h_id (sl_hold sl) ≠ h_id (sl_hold sl')) → slot_ok now y g (enter q p) bs k' sl'.
Proof using base_place ids_differ.
  intros Hok [_ Ha] Hok' Hk Hap. eapply slot_env; [exact Hok'| | |by intros i _ _ Hi; split; [|intros H]|done|by left].
  - intros id Ht Hid Hin. destruct q; try done; cbn in *; [by apply elem_of_union_r|]. destruct Ha as (Ht2 & Hid2 & _). apply elem_of_difference. split; [done|]. rewrite elem_of_singleton. intros ->.
    apply Hap; [by rewrite Ht2|by rewrite Ht|congruence].
  - intros d Hd Hin. destruct q; try done; cbn in *; [by apply elem_of_union_r|]. destruct Ha as [Ht2 Hd2]. apply elem_of_difference. split; [done|]. rewrite elem_of_singleton. intros ->.
    destruct (ok_dir _ _ _ _ _ _ _ Hok _ Hd2) as (_ & Ho & Hn). destruct (ok_dir _ _ _ _ _ _ _ Hok' _ Hd) as (_ & Ho' & Hn').
    destruct (ok_given _ _ _ _ _ _ _ Hok Hn) as (i & Ei & _). destruct (ok_given _ _ _ _ _ _ _ Hok' Hn') as (i' & Ei' & _). specialize (Hap Hn Hn'). rewrite Ei in Ho, Hap. rewrite Ei' in Ho', Hap. destruct (dirs_apart _ _ _ _ _ Ho Ho' Hk Hap).
Qed.

Lemma apart_set slots k sl sl' : apart slots → slots !! k = Some sl → h_id (sl_hold sl') = h_id (sl_hold sl) → (h_tenure (sl_hold sl') ≠ Nothing → h_tenure (sl_hold sl) ≠ Nothing) → apart (<[k := sl']> slots).
Proof using.
  intros Hap Hk Hid Ht k1 k2 s1 s2 Hne [[-> ->]|[H1 L1]]%set_lookup [[-> ->]|[H2 L2]]%set_lookup T1 T2; [done| | |exact (Hap k1 k2 s1 s2 Hne L1 L2 T1 T2)].
  - rewrite Hid. exact (Hap k k2 sl s2 Hne Hk L2 (Ht T1) T2).
  - rewrite Hid. exact (Hap k1 k s1 sl Hne L1 Hk T1 (Ht T2)).
Qed.
Lemma apart_idle slots k sl' : apart slots → h_tenure (sl_hold sl') = Nothing → apart (<[k := sl']> slots).
Proof using. intros Hap Ht k1 k2 s1 s2 Hne [[-> ->]|[H1 L1]]%set_lookup [[-> ->]|[H2 L2]]%set_lookup T1 T2; try done. exact (Hap k1 k2 s1 s2 Hne L1 L2 T1 T2). Qed.

Lemma slot_request_ok now y g p bs k sl q f r :
  invariant (MkSystem now y g (Up p) bs) → pr_slots p !! k = Some sl → sl_prog sl = Programs.Do q f → possible q r → (∀ c, r ≠ AClaim c) →
  invariant (MkSystem now y g (Up (set_slot k (MkSlot (f r) (after (sl_hold sl) q r) (sl_claimed sl)) (enter q p))) bs).
Proof using base_place ids_differ.
  intros [Hb Hp] Hk E Hr Hc. split; [done|]. destruct (Hp p eq_refl) as [Hap Hok]. cbn [sy_now sy_store sy_given sy_agent sy_beats] in *. intros p' [= <-].
  destruct (own_step now y g p bs k sl q f r (Hok k sl Hk)) as (Hown & Hid & Ht); [intros b Hin; by apply Hb|done..|]. assert (pr_slots (enter q p) = pr_slots p) as Es by (by destruct q).
  assert (allowed wsBase k.1 k.2 (sl_hold sl) q) as Ha by (pose proof (ok_safe _ _ _ _ _ _ _ (Hok k sl Hk)) as Hs; rewrite E in Hs; by destruct Hs).
  cbn [set_slot pr_slots]. rewrite Es. split; [by eapply apart_set|].
  assert (∀ k' x, slot_ok now y g (enter q p) bs k' x → slot_ok now y g (set_slot k (MkSlot (f r) (after (sl_hold sl) q r) (sl_claimed sl)) (enter q p)) bs k' x) as Hset by (intros k' x []; by split).
  intros k' sl' [[-> ->]|[Hne L]]%set_lookup; apply Hset; [done|]. eapply other_step; [exact (Hok k sl Hk)|done|by apply Hok|done|]. intros T1 T2. by eapply (Hap k k').
Qed.

Lemma claim_ok now y g p bs k sl detached busy f locked c d id r :
  invariant (MkSystem now y g (Up p) bs) → pr_slots p !! k = Some sl → sl_prog sl = Programs.Do (QClaim detached busy) f →
  claimNextRun visit_runs locked agent labels (if detached then [] else busy) detached now (y_db y) = (Some (id, r), d) → c_RunID c = uuid id → c_RunID c ≠ "" →
  invariant (MkSystem now (on_db d y) ({[id]} ∪ g) (Up (set_slot k (MkSlot (f (AClaim c)) (after (sl_hold sl) (QClaim detached busy) (AClaim c)) now) p)) bs).
Proof using visit_perm base_place ids_differ timely.
  intros [Hb Hp] Hk E Hd Hid Hne. split; [done|]. destruct (Hp p eq_refl) as [Hap Hok]. cbn [sy_now sy_store sy_given sy_agent sy_beats] in *. intros p' [= <-]. cbn [set_slot pr_slots after].
  pose proof (claim_cases visit_runs visit_perm locked agent labels (if detached then [] else busy) detached now (y_db y)) as H. cbv zeta in H. rewrite Hd in H. destruct H as (r0 & Hr0 & [Hc _] & -> & -> & _).
  assert (waiting r0) as Hw by (unfold claimable in Hc; reflect; by right).
  assert (∀ k' sl', pr_slots p !! k' = Some sl' → h_tenure (sl_hold sl') ≠ Nothing → h_id (sl_hold sl') ≠ uuid id) as Hnew.
  { intros k' sl' L T Eid. destruct (ok_given _ _ _ _ _ _ _ (Hok k' sl' L) T) as (i & Ei & _ & Hrows). rewrite Ei in Eid. apply ids_inj in Eid. subst i. by destruct (Hrows r0 Hr0) as [Hn _]. }
  split.
  - intros k1 k2 s1 s2 Hn [[-> ->]|[H1 L1]]%set_lookup [[-> ->]|[H2 L2]]%set_lookup T1 T2; [done| | |exact (Hap k1 k2 s1 s2 Hn L1 L2 T1 T2)]; cbn; rewrite Hid; [intros E'; by apply (Hnew k2 s2)|by apply (Hnew k1 s1)].
  - intros k' sl' [[-> ->]|[Hn L]]%set_lookup.
    + pose proof (ok_safe _ _ _ _ _ _ _ (Hok k sl Hk)) as Hs. rewrite E in Hs. destruct Hs as [_ Hs]. split; cbn; try done.
      * apply (Hs (AClaim c)). cbn. right. right. right. right. by exists c.
      * intros _. exists id. split; [done|]. split; [by apply elem_of_union_l, elem_of_singleton|]. intros r. unfold rows. cbn. rewrite lookup_insert_eq. intros [= <-]. cbn. split; [intros [[=]|[=]]|done].
      * intros _. lia.
    + apply (slot_env now y g p _ bs k' sl'); [by apply Hok|done|done| |done|by left]. intros i T Ei Hin. split; [by apply elem_of_union_r|]. intros Hrows r. unfold rows. cbn.
      rewrite lookup_insert_ne; [apply Hrows|]. intros ->. by apply (Hnew k' sl' L T).
Qed.

Lemma invariant_step s s' : invariant s → step s s' → invariant s'.
Proof using visit_perm base_place ids_differ timely.
  intros Hinv Hstep. destruct Hstep as [s now Hle [Hin1 Hin2]|s y Hst Hord|now y g bs fuel|now y g bs q k r Hr|now y g bs slots Hs|now y g p bs|now y g p bs k sl b fuel Hk E|now y g p bs k sl q f r Hk E Hr Hc|now y g p bs k sl detached busy f locked recs c d id r Hk E Hd Hpoll Hne|now y g p bs|s b bs bs' E].
  - destruct Hinv as [Hb Hp]. split; cbn.
    + intros b Hbin. specialize (Hb b Hbin). specialize (Hin2 b Hbin). lia.
    + intros p E. destruct (Hp p E) as [Hap Hok]. split; [done|]. intros k sl Hk. eapply slot_env; [by apply Hok|done|done|by intros i _ _ Hi; split; [|intros H]| |by left]. intros Ha _. by eapply Hin1.
  - by apply store_step_ok.
  - destruct Hinv as [Hb _]. by split.
  - destruct Hinv as [Hb _]. by split.
  - destruct Hinv as [Hb _]. split; [done|]. cbn. intros p [= <-]. cbn. split.
    + intros k k' sl sl' _ L _ T _. destruct (Hs k sl L) as [fuel ->]. done.
    + intros k sl L. destruct (Hs k sl L) as [fuel ->]. apply fresh_ok.
  - destruct Hinv as [Hb _]. by split.
  - destruct Hinv as [Hb Hp]. split; [done|]. destruct (Hp p eq_refl) as [Hap Hok]. cbn in *. intros p' [= <-]. cbn. split; [by apply apart_idle|].
    intros k' sl' [[-> ->]|[Hn L]]%set_lookup; [apply fresh_ok|]. eapply slot_env; [by apply Hok|done|done|by intros i _ _ Hi; split; [|intros H]|done|by left].
  - by apply slot_request_ok.
  - eapply claim_ok; try done. by eapply answered_claim.
  - destruct Hinv as [Hb Hp]. split; cbn in *.
    + intros b [->|Hbin]%elem_of_cons; [cbn; lia|by apply Hb].
    + intros p' [= <-]. destruct (Hp p eq_refl) as [Hap Hok]. split; [done|]. intros k sl L. eapply slot_env; [by apply Hok|done|done|by intros i _ _ Hi; split; [|intros H]|done|].
      intros b [->|Hbin]%elem_of_cons; [right; by apply (ok_run _ _ _ _ _ _ _ (Hok k sl L))|by left].
  - destruct Hinv as [Hb Hp]. assert (∀ x, x ∈ bs ++ bs' → x ∈ sy_beats s) as Hsub by (rewrite E; intros x [H|H]%elem_of_app; apply elem_of_app; [by left|right; by right]). split; cbn.
    + intros x Hx. by apply Hb, Hsub.
    + intros p Ep. destruct (Hp p Ep) as [Hap Hok]. split; [done|]. intros k sl L. eapply slot_env; [by apply Hok|done|done|by intros i _ _ Hi; split; [|intros H]|done|]. intros x Hx. left. by apply Hsub.
Qed.

Lemma reach_invariant s : reach s → invariant s.
Proof using visit_perm base_place ids_differ timely.
  induction 1 as [now y|s s' _ IH Hs]; [|by eapply invariant_step]. split; cbn; [intros b []%elem_of_nil|done].
Qed.

(** A run that is lost is not in the hands of the agent. *)
Lemma not_lost s p k sl b i : invariant s → sy_agent s = Up p → pr_slots p !! k = Some sl → b ∈ sy_beats s → i ∈ lost (sy_now s) b.2 (y_db (sy_store s)) →
  h_tenure (sl_hold sl) = Answered ∨ h_tenure (sl_hold sl) = Enrolled → h_id (sl_hold sl) ≠ uuid i.
Proof using visit_perm ids_differ timely.
  intros [Hb Hp] E L Hbin Hi Ht Hid. destruct (Hp p E) as [_ Hok]. specialize (Hok k sl L). specialize (Hb b Hbin). unfold lost in Hi. apply list_elem_of_filter in Hi as [Hrep Hi].
  unfold ListReconcilableRunIDsByAgent in Hi. apply list_elem_of_fmap in Hi as ([i' r] & -> & [Hr Hin]%list_elem_of_filter). cbn [fst snd] in *. rewrite visit_perm, elem_of_map_to_list in Hin.
  unfold reconcilable in Hr. cbn [snd] in Hr. apply andb_true_iff in Hr as [[Hby _]%bool_decide_eq_true Hat].
  assert (h_tenure (sl_hold sl) ≠ Nothing) as T by (by destruct Ht as [->| ->]). destruct (ok_given _ _ _ _ _ _ _ Hok T) as (j & Ej & _ & Hrows). rewrite Ej in Hid. apply ids_inj in Hid. subst j.
  destruct (Hrows r Hin) as [_ Hc]. rewrite (Hc Hby) in Hat. apply Z.ltb_lt in Hat. destruct timely as (T1 & T2 & T3). destruct Ht as [Ht|Ht].
  - pose proof (ok_answered _ _ _ _ _ _ _ Hok Ht). lia.
  - rewrite <- Ej in Hrep. pose proof (ok_beats _ _ _ _ _ _ _ Hok Ht b Hbin Hrep). lia.
Qed.
End fleet.

Lemma swept_inactive t wsBase retention active now d : d ∈ gc_wiped t wsBase retention active now → d ∉ active.
Proof.
  unfold gc_wiped. destruct (tr_Glob t _) as [slots|]; [|by intros []%elem_of_nil]. intros (slot & _ & H)%list_elem_of_In%in_flat_map. apply list_elem_of_In in H. unfold gc_slot in H.
  destruct (tr_Lstat t slot) as [[isDir x]|]; [|by apply elem_of_nil in H]. destruct (_ || _); [by apply elem_of_nil in H|]. destruct (tr_ReadDir t slot) as [es|]; [|by apply elem_of_nil in H].
  apply list_elem_of_fmap in H as (e & -> & [H _]%list_elem_of_filter). unfold gc_due in H. reflect. done.
Qed.

(** C5: claims are in the agent's hands until they have ended.  However slots,
    heartbeats, crashes, restarts and the rest of the store interleave, and whatever
    fails or panics, provided that the answer to a claim is noted within [arrival]
    seconds of the claim and a heartbeat used within [delay] seconds of reading the
    list of runs it carries, [arrival + delay] not exceeding the controller's grace
    period, and that a run handed out does not wait again: while a slot works at a run,
    the run is reported by heartbeats, its directory is spared by every sweep of the
    workspaces that begins meanwhile, whatever that sweep finds when it gets there (a
    sweep that began before the directory was entered may still remove it), its
    volumes are held, and no other slot works at it; no run that a heartbeat makes the
    controller fail as lost is in the hands of a slot; and an iteration that ends has
    unmounted, swept, released and retired what it took, and has run its claim or seen
    to its failure. *)
Theorem claim_in_hand visit_runs uuid sprint parse_template ET json_error matrixMax js caps a agent labels arrival delay s p
    (Hvisit : ∀ m, visit_runs m ≡ₚ map_to_list m) (Hplace : place (ag_wsBase a)) (Hids : ∀ i j, sanitizeJobName (uuid i) = sanitizeJobName (uuid j) → i = j)
    (Htime : (0 <= arrival)%Z ∧ (0 <= delay)%Z ∧ (arrival + delay <= heartbeatReconcileGrace)%Z)
    (Hreach : reach visit_runs uuid sprint parse_template ET json_error matrixMax js caps a agent labels arrival delay s) (Hup : sy_agent s = Up p) :
  (∀ k sl q f, pr_slots p !! k = Some sl → sl_prog sl = Programs.Do q f → allowed (ag_wsBase a) k.1 k.2 (sl_hold sl) q)
  ∧ (∀ k sl q f id, pr_slots p !! k = Some sl → sl_prog sl = Programs.Do q f → works q = Some id →
       id ∈ pr_runs p
       ∧ (∃ d, own_dir (ag_wsBase a) k.1 k.2 id d ∧ d ∈ pr_dirs p ∧ ∀ t retention now, d ∉ gc_wiped t (ag_wsBase a) retention (pr_dirs p) now)
       ∧ ∀ k' sl' q' f', k' ≠ k → pr_slots p !! k' = Some sl' → sl_prog sl' = Programs.Do q' f' → works q' ≠ Some id)
  ∧ (∀ k sl q f b i, pr_slots p !! k = Some sl → sl_prog sl = Programs.Do q f → b ∈ sy_beats s →
       i ∈ lost visit_runs uuid agent (sy_now s) b.2 (y_db (sy_store s)) → concerns q ≠ Some (uuid i))
  ∧ ∀ k sl x, pr_slots p !! k = Some sl → sl_prog sl = Programs.Ret x → (∃ y, x = Done y) ∧ over (sl_hold sl).
Proof.
  pose proof (reach_invariant _ _ _ _ _ _ _ _ _ _ _ _ _ _ Hvisit Hplace Hids Htime s Hreach) as Hinv. destruct (proj2 Hinv p Hup) as [Hap Hok].
  assert (∀ k sl q f, pr_slots p !! k = Some sl → sl_prog sl = Programs.Do q f → allowed (ag_wsBase a) k.1 k.2 (sl_hold sl) q) as Hallowed.
  { intros k sl q f L E. pose proof (ok_safe _ _ _ _ _ _ _ _ _ _ _ (Hok k sl L)) as Hs. rewrite E in Hs. by destruct Hs. }
  split_and!; [exact Hallowed| | |].
  - intros k sl q f id L E Hw. destruct (Hallowed k sl q f L E) as [Ha _]. destruct (Ha id Hw) as (Ht & Hid & [d Hd]). destruct (Hok k sl L) as [_ Hrun Hdir _ _ _]. destruct (Hdir d Hd) as (Hin & Hown & _). rewrite Hid in Hrun, Hown.
    split; [by apply Hrun|]. split; [exists d; split; [done|]; split; [done|]; intros t retention now Hw2; by apply swept_inactive in Hw2|].
    intros k' sl' q' f' Hk L' E' Hw'. destruct (Hallowed k' sl' q' f' L' E') as [Ha' _]. destruct (Ha' id Hw') as (Ht' & Hid' & _). apply (Hap k' k sl' sl Hk L' L); [by rewrite Ht'|by rewrite Ht|congruence].
  - intros k sl q f b i L E Hb Hi Hc. apply (not_lost _ _ _ _ _ _ Hvisit Hids Htime s p k sl b i Hinv Hup L Hb Hi); destruct (Hallowed k sl q f L E) as [Ha Hq].
    + destruct (works q) as [id|] eqn:Hw; [right; by apply (Ha id)|]. destruct q; try done. left. by destruct Hq.
    + destruct (works q) as [id|] eqn:Hw.
      * assert (concerns q = works q) as Ecw by (by destruct q). rewrite Ecw, Hw in Hc. injection Hc as ->. by apply (Ha (uuid i)).
      * destruct q; try done. injection Hc as ->. by destruct Hq as (_ & ? & _).
  - intros k sl x L E. pose proof (ok_safe _ _ _ _ _ _ _ _ _ _ _ (Hok k sl L)) as Hs. rewrite E in Hs. exact Hs.
Qed.

(** ** An agent that claims a run *)

(** An agent with one slot, polling a store where one run waits. *)
Module Samples.
Definition name_of (n : nat) : string := String "r" (rep_byte n "r").
Lemma name_of_length n : String.length (name_of n) = S n.
Proof. unfold name_of. cbn. f_equal. induction n as [|n IH]; cbn; congruence. Qed.
Lemma sanitize_name n : sanitizeJobName (name_of n) = name_of n ∨ sanitizeJobName (name_of n) = "job_" +:+ name_of n.
Proof.
  assert (runes (name_of n) = replicate (S n) 114%N) as Hr by (unfold name_of; change (String "r" (rep_byte n "r")) with (rep_byte (S n) "r"); rewrite <- (str_app_nil_r (rep_byte (S n) "r")), runes_rep_l by done; change (runes "") with (@nil N); by rewrite app_nil_r).
  unfold sanitizeJobName. rewrite Hr. assert (∀ k, concat_str (map (λ r, String (if name_rune r then ascii_of_N r else "-"%char) "") (replicate k 114%N)) = rep_byte k "r") as ->.
  { induction k as [|k IH]; [done|]. cbn [replicate map concat_str foldr]. fold (concat_str (map (λ r, String (if name_rune r then ascii_of_N r else "-"%char) "") (replicate k 114%N))). by rewrite IH. }
  change (rep_byte (S n) "r") with (name_of n). cbv zeta. destruct (String.eqb_spec (name_of n) ""); [done|]. destruct (String.eqb_spec (Trim "." (name_of n)) "") as [E|_].
  { exfalso. unfold Trim, name_of in E. cbn in E. by destruct (TrimRightByte "." (rep_byte n "r")). }
  destruct (isWindowsReservedName _); [by right|by left].
Qed.
Definition uuid (i : runid) : string := name_of (N.to_nat i).
Lemma uuids_differ i j : sanitizeJobName (uuid i) = sanitizeJobName (uuid j) → i = j.
Proof.
  intros E. enough (String.length (uuid i) = String.length (uuid j)) as El by (unfold uuid in El; rewrite !name_of_length in El; lia). unfold uuid in *.
  destruct (sanitize_name (N.to_nat i)) as [H1|H1], (sanitize_name (N.to_nat j)) as [H2|H2]; rewrite H1, H2 in E; try discriminate E; [exact (f_equal String.length E)|]. apply (inj (String.append "job_")) in E. exact (f_equal String.length E).
Qed.

Definition host : Agent := MkHostAgent "/ws" (MkThreshold None 0 true) None 1 (-1) "" "pause" "runner".
Abbreviation reaches := (reach map_to_list uuid sample_sprint sample_parse (λ s _, Ok s) [] 256 (λ _, None) (λ _, []) host "h1" ["linux"] 30 30).

(** A slot given answer after answer. *)
Fixpoint play (l : list answer) (k : bool * N) (p : process) : process :=
  match l with
  | [] => p
  | r :: l =>
      match pr_slots p !! k with
      | Some (MkSlot (Programs.Do q f) h t) => play l k (set_slot k (MkSlot (f r) (after h q r) t) (enter q p))
      | _ => p
      end
  end.
Fixpoint fits (l : list answer) (k : bool * N) (p : process) : Prop :=
  match l with
  | [] => True
  | r :: l =>
      match pr_slots p !! k with
      | Some (MkSlot (Programs.Do q f) h t) => possible q r ∧ (∀ c, r ≠ AClaim c) ∧ fits l k (set_slot k (MkSlot (f r) (after h q r) t) (enter q p))
      | _ => False
      end
  end.
Lemma play_reaches now y g bs l k p : reaches (MkSystem now y g (Up p) bs) → fits l k p → reaches (MkSystem now y g (Up (play l k p)) bs).
Proof.
  revert p. induction l as [|r l IH]; intros p Hr Hf; [done|]. cbn in *. destruct (pr_slots p !! k) as [[[x|q f] h t]|] eqn:E; try done. destruct Hf as (H1 & H2 & H3). apply IH; [|done].
  eapply re_step; [exact Hr|]. exact (st_request _ _ _ _ _ _ _ _ _ _ _ _ _ _ now y g p bs k (MkSlot (Programs.Do q f) h t) q f r E eq_refl H1 H2).
Qed.
Definition waiting_store : sys := claim_sample_queued.
Definition started : process := MkProcess ∅ ∅ {[ (false, 0%N) := fresh_slot host 3 (false, 0%N) false ]}.
Lemma started_reached : reaches (MkSystem 100 waiting_store ∅ (Up started) []).
Proof.
  assert (reaches (MkSystem 100 waiting_store ∅ (Booting (startup 1)) [])) as H.
  { eapply re_step; [apply (re_init _ _ _ _ _ _ _ _ _ _ _ _ _ _ 100 waiting_store)|]. exact (st_start _ _ _ _ _ _ _ _ _ _ _ _ _ _ 100 waiting_store ∅ [] 1). }
  do 4 (eapply re_step in H; [|eapply (st_boot _ _ _ _ _ _ _ _ _ _ _ _ _ _ 100 waiting_store ∅ [] _ _ AOk); by left]). eapply re_step; [exact H|].
  apply (st_up _ _ _ _ _ _ _ _ _ _ _ _ _ _ 100 waiting_store ∅ [] {[ (false, 0%N) := fresh_slot host 3 (false, 0%N) false ]}). intros k sl [<- <-]%lookup_singleton_Some. by eexists.
Qed.

(** It polls, is given the run, and executes it; a beat is sent 100 s after the claim. *)
Definition polling : list answer := [AOk; ANames []; AReadings (λ _, None); AOk].
Definition asked : process := play polling (false, 0%N) started.
Definition taken : option (runid * run) * db := claimNextRun map_to_list (λ _, false) "h1" ["linux"] [] false 100 (y_db waiting_store).
Definition taken_run : run := match taken.1 with Some (_, r) => r | None => new_run "" ∅ None [] [] 0 end.
Definition given : ClaimResponse :=
  match claim_reply uuid sample_sprint sample_parse (λ s _, Ok s) [] 256 (inr []) 7%N taken_run with
  | RAnswer c => c
  | _ => MkClaim "" "" ∅ ∅ [] [] [] [] None false false 0 []
  end.
Definition claimed_db : db := taken.2.
Definition slot_of (p : process) : slot := default (fresh_slot host 3 (false, 0%N) false) (pr_slots p !! (false, 0%N)).
Definition answered : process :=
  set_slot (false, 0%N) (MkSlot (match sl_prog (slot_of asked) with Programs.Do _ f => f (AClaim given) | p => p end) (after (sl_hold (slot_of asked)) (QClaim false []) (AClaim given)) 100) asked.
Definition executing : process := play [AOk; AOk; AOk; AMounted ∅; AOk; AOk] (false, 0%N) answered.

Definition pending (s : slot) : option request := match sl_prog s with Programs.Do q _ => Some q | Programs.Ret _ => None end.
Lemma pending_do s q : pending s = Some q → ∃ f, sl_prog s = Programs.Do q f.
Proof. unfold pending. destruct (sl_prog s) as [x|q' f]; [done|]. intros [= ->]. by exists f. Qed.
Ltac answers := vm_compute; split_and!; first [done|eauto].
Lemma set_one k s s' p : pr_slots p = {[k := s]} → pr_slots (set_slot k s' p) = {[k := s']}.
Proof. intros E. cbn. rewrite E. apply insert_singleton_eq. Qed.
Lemma enter_slots q p : pr_slots (enter q p) = pr_slots p.
Proof. by destruct q. Qed.
Lemma play_one l k p s : pr_slots p = {[k := s]} → ∃ s', pr_slots (play l k p) = {[k := s']}.
Proof.
  revert p s. induction l as [|r l IH]; intros p s E; [by exists s|]. cbn. rewrite E, lookup_singleton_eq. destruct s as [[x|q f] h t]; [by eexists|].
  eapply IH, set_one. by rewrite enter_slots.
Qed.
Lemma one_slot p s : pr_slots p = {[(false, 0%N) := s]} → pr_slots p = {[(false, 0%N) := slot_of p]}.
Proof. unfold slot_of. intros ->. by rewrite lookup_singleton_eq. Qed.
Lemma asked_slots : pr_slots asked = {[(false, 0%N) := slot_of asked]}.
Proof. destruct (play_one polling (false, 0%N) started _ eq_refl) as [s E]. exact (one_slot _ _ E). Qed.
Lemma executing_slots : pr_slots executing = {[(false, 0%N) := slot_of executing]}.
Proof. destruct (play_one [AOk; AOk; AOk; AMounted ∅; AOk; AOk] (false, 0%N) answered _ (set_one _ _ _ _ asked_slots)) as [s E]. exact (one_slot _ _ E). Qed.
Lemma asked_reached : reaches (MkSystem 100 waiting_store ∅ (Up asked) []).
Proof. apply play_reaches; [exact started_reached|answers]. Qed.
Lemma answered_reached : reaches (MkSystem 100 (on_db claimed_db waiting_store) ({[7%N]} ∪ ∅) (Up answered) []).
Proof.
  eapply re_step; [exact asked_reached|]. destruct (pending_do (slot_of asked) (QClaim false [])) as [f E]; [vm_compute; reflexivity|].
  assert (pr_slots asked !! (false, 0%N) = Some (slot_of asked)) as Hs by (rewrite asked_slots at 1; apply lookup_singleton_eq).
  assert (taken = (Some (7%N, taken_run), claimed_db)) as Hn by (vm_compute; reflexivity).
  assert (claim_reply uuid sample_sprint sample_parse (λ s _, Ok s) [] 256 (inr []) 7%N taken_run = RAnswer given) as Hc by (vm_compute; reflexivity).
  unfold answered. rewrite E. exact (st_claim _ _ _ _ _ _ _ _ _ _ _ _ _ _ 100 waiting_store ∅ asked [] (false, 0%N) (slot_of asked) false [] f (λ _, false) (inr []) given claimed_db 7%N taken_run Hs E Hn Hc ltac:(vm_compute; discriminate)).
Qed.
Lemma enrolled_in_time p : pr_slots p = {[(false, 0%N) := slot_of p]} → h_tenure (sl_hold (slot_of p)) = Enrolled →
  ∀ p' k sl, Up p = Up p' → pr_slots p' !! k = Some sl → h_tenure (sl_hold sl) = Answered → (200 <= sl_claimed sl + 30)%Z.
Proof. intros E T p' k sl [= <-] L A. exfalso. rewrite E in L. apply lookup_singleton_Some in L as [<- <-]. by rewrite T in A. Qed.
Lemma executing_reached : reaches (MkSystem 200 (on_db claimed_db waiting_store) ({[7%N]} ∪ ∅) (Up executing) [(200%Z, pr_runs executing)]).
Proof.
  assert (reaches (MkSystem 100 (on_db claimed_db waiting_store) ({[7%N]} ∪ ∅) (Up executing) [])) as H by (apply play_reaches; [exact answered_reached|answers]).
  eapply re_step; [|apply st_beat]. eapply re_step; [exact H|]. apply (st_time _ _ _ _ _ _ _ _ _ _ _ _ _ _ (MkSystem 100 _ _ _ []) 200); [done|]. split; [|by intros b []%elem_of_nil].
  apply (enrolled_in_time executing executing_slots). vm_compute; reflexivity.
Qed.
End Samples.

(** The run is being executed, and its claim is older than the grace period. *)
Lemma claim_in_hand_witness :
  Samples.uuid 7 ∈ pr_runs Samples.executing ∧ (7%N ∉ lost map_to_list Samples.uuid "h1" 200 (pr_runs Samples.executing) Samples.claimed_db)
  ∧ 7%N ∈ lost map_to_list Samples.uuid "h1" 200 ∅ Samples.claimed_db.
Proof.
  assert (place (ag_wsBase Samples.host)) as Hplace by (by split).
  assert ((0 <= 30)%Z ∧ (0 <= 30)%Z ∧ (30 + 30 <= heartbeatReconcileGrace)%Z) as Htimely by done.
  destruct (claim_in_hand _ _ _ _ _ _ _ _ _ _ _ _ _ _ _ _ (λ m, reflexivity _) Hplace Samples.uuids_differ Htimely Samples.executing_reached eq_refl) as (_ & Hworks & Hlost & _).
  assert (pr_slots Samples.executing !! (false, 0%N) = Some (Samples.slot_of Samples.executing)) as Hs by (rewrite Samples.executing_slots at 1; apply lookup_singleton_eq).
  destruct (Samples.pending_do (Samples.slot_of Samples.executing) (QRunClaim Samples.given "/ws/working0/ci" ∅ [])) as [f E]; [vm_compute; reflexivity|].
  assert (works (QRunClaim Samples.given "/ws/working0/ci" ∅ []) = Some (Samples.uuid 7)) as Hw by (vm_compute; reflexivity).
  split; [by apply (Hworks _ _ _ _ _ Hs E Hw)|]. split; [|vm_compute; left]. intros Hi.
  exact (Hlost _ _ _ _ _ 7%N Hs E (list_elem_of_here _ _) Hi Hw).
Defined.
